(* ===== verification/_CoqProject ===== *)
-Q . S2P
Prelude.v
Proto.v
BitArray.v
SafeMath.v
Vote.v
Validator.v
SignBytes.v
ValidatorSet.v
ValidatorSetPriority.v
ValidatorSetUpdate.v
VoteSet.v
Quorum.v
VoteSetInv.v
VoteSetSafety.v
Validation.v
CommitSafety.v
CommitTheorems.v
HeightVoteSet.v
Unmarshal.v
Canonical.v
PrivVal.v
Merkle.v
PartSet.v
Narwhal.v
NarwhalQuorum.v
NarwhalTheorems.v
NarwhalCore.v
NarwhalCoreSteps.v
NarwhalInvariant.v
NarwhalTurns.v
NarwhalTasks.v
NarwhalWorker.v
NarwhalTaskProofs.v
NarwhalToy.v
Tusk.v
TuskState.v
TuskOrder.v
TuskSafety.v
TuskLeaders.v
TuskAgreement.v
NarwhalNetwork.v
NarwhalExample.v
TuskTheorems.v
NarwhalProperties.v
VoteOrigin.v
ConsensusState.v
ConsensusInv.v
ConsensusSteps.v
ConsensusTurns.v
ConsensusTyped.v
ConsensusNetwork.v
ConsensusExample.v
ConsensusTheorems.v
CList.v
TxCache.v
Mempool.v
MempoolInv.v
MempoolTheorems.v
MempoolReactor.v
NarwhalMempool.v
NarwhalClient.v
Block.v
BlockProofs.v
LightVerifier.v
LightClient.v
LightSafety.v
LightClientProofs.v
LightTheorems.v
Params.v
ChainState.v
BlockExecutor.v
ChainStateProofs.v
ChainTheorems.v
LocalChain.v
LocalNode.v
LocalNodeProofs.v
LocalNodeTheorems.v
