(* ===== verification/Prelude.v ===== *)
(** * Hetu parallel engine: a verification development

    The engine is a fork of CometBFT ([src/hetu-cometbft], Go) beside a
    Narwhal and Tusk implementation ([src/hetu-consensus], Rust).  This
    library models what decides what a node signs, counts, orders, executes
    and believes, and proves what makes it correct.

    ** The program and the files

    A Go node runs the consensus state machine ([consensus/state.go]).  Its
    validator set ([types/validator_set.go]) elects the proposer of every
    round and is changed by the application.  The proposer reaps transactions
    from the mempool ([mempool]), builds a block on the state of the chain
    ([state/state.go], [types/block.go]) and cuts it into parts with Merkle
    proofs ([types/part_set.go], [crypto/merkle]).  Validators sign votes
    ([types/vote.go], [privval/file.go]) over canonical bytes
    ([types/canonical.go] and the generated encoders); nodes collect votes by
    round ([consensus/types/height_vote_set.go]) and by step
    ([types/vote_set.go]) and turn a majority of precommits into a commit,
    which everyone else checks ([types/validation.go]).  The block executor
    ([state/execution.go]) hands a decided block to the application, and a
    light client ([light]) follows the chain from headers and commits.  The
    Narwhal mempool ([mempool/narwhal_mempool.go]) sends the hashes of
    transactions to a Narwhal worker and polls it for batches.  A Rust
    primary and its workers ([primary], [worker]) agree on a DAG of
    certificates, which Tusk ([consensus/src/lib.rs]) puts in order.

    - [Prelude]: panics as the monad [outcome], machine integers as [Z] with
      explicit wrapping, slices, loops and sums.
    - [BitArray]: [libs/bits/bit_array.go].  [SafeMath]: the overflow-checked
      and clipped arithmetic.
    - [Validator], [ValidatorSet]: the records and operations;
      [ValidatorSetPriority] proves proposer election, [ValidatorSetUpdate]
      the application of change sets.
    - [Proto], [SignBytes]: the writers of the canonical messages, with
      injectivity; [Unmarshal], [Canonical]: the generated readers, with
      the round trip.
    - [Vote], [VoteSet]: votes, commits and the vote set; [Quorum],
      [VoteSetInv], [VoteSetSafety]: power sums, the invariant of reachable
      sets, and agreement.  [HeightVoteSet]: the votes of a height by round.
    - [Validation]: the commit checks; [CommitSafety], [CommitTheorems]:
      what they accept.
    - [PrivVal]: the file signer with its state file.
    - [Merkle], [PartSet]: tree hashes, inclusion proofs, block parts and
      their reader.
    - [ConsensusState]: every handler of [consensus/state.go] over the
      interfaces [BlockOps] and [Env], and the timer of
      [consensus/ticker.go]; [VoteOrigin], [ConsensusInv], [ConsensusSteps],
      [ConsensusTurns], [ConsensusTyped]: its invariants;
      [ConsensusNetwork]: nodes that exchange messages with faulty peers;
      [ConsensusExample], [ConsensusTheorems]: an instance and the theorems.
    - [CList], [TxCache], [Mempool], [MempoolReactor]: [libs/clist/clist.go]
      and the list mempool; [MempoolInv], [MempoolTheorems]: its runs.
      [NarwhalMempool], [NarwhalClient]: the Narwhal mempool and the client
      of the worker.
    - [Block], [BlockProofs]: headers, blocks, their hashes and what a block
      hash commits to.
    - [LightVerifier], [LightClient]: [light/verifier.go], the trusted store,
      the evidence of attacks, [light/client.go] and [light/detector.go];
      [LightSafety], [LightClientProofs], [LightTheorems]: what a client
      believes.
    - [Params], [ChainState], [BlockExecutor]: consensus parameters, genesis,
      the state of the chain, the validation of blocks and their execution;
      [ChainStateProofs], [ChainTheorems]: the states that are reached.
    - [Narwhal], [NarwhalCore], [NarwhalTasks], [NarwhalWorker]: the Rust
      committee, messages and aggregators, the core and the synchronizer of
      a primary, its other tasks, and the tasks of a worker with the store;
      [NarwhalQuorum], [NarwhalTheorems], [NarwhalCoreSteps],
      [NarwhalInvariant], [NarwhalTurns], [NarwhalTaskProofs],
      [NarwhalProperties]: their proofs; [NarwhalToy], [NarwhalExample]:
      instances.
    - [Tusk]: the Rust consensus; [TuskState], [TuskOrder], [TuskSafety],
      [TuskLeaders], [TuskAgreement], [TuskTheorems]: its proofs;
      [NarwhalNetwork]: primaries and Tusk together.
    - [LocalChain], [LocalNode]: the Rust node of one validator
      ([src/hetu-consensus/cometbft]), its stores, its client of the
      application, its loop over timers and its start; [LocalNodeProofs],
      [LocalNodeTheorems]: its turns and runs.

    ** How the model corresponds to the code

    Every definition has the name of the function it translates, with a
    prefix where methods of two types share a name.  A pointer that may be
    nil is an [option]; a mutating method returns the new record; an [error]
    is an inductive type with the errors of the package; a panic, including
    an index out of range and a nil dereference, is [Panic].  An [int],
    [int64], [int32], [uint64] or [uint32] is a [Z] with [int64] and the like
    applied where the code can overflow.  A Go map is a [gmap], a slice a
    list.  Where a method runs under one lock the lock is left out; where
    locks, channels or callbacks let operations interleave (the mempool, the
    Narwhal mempool and client, the detector of the light client, the tasks
    of a primary) every turn is a step of its own and the theorems speak of
    all sequences of steps.  The concurrent list is a heap of elements.  The
    light client, the block executor, the local node and its databases
    thread their state, the outside calls and early returns through a monad
    each ([LC], [EX], [M] and [DB]).

    Code outside the sources is an interface, a class with its laws apart:
    [Crypto] (keys, signatures, hash), [HashSize], [BatchCrypto] and
    [BatchLaws], [StdTime] and [StdTimeLaws] (the encoding of times),
    [StdTimeDecode], [Signer], [ProtoEqual]; and for Rust [DagCrypto],
    [Bincode], [CometRs], [CometRsData] (the crate cometbft-rs), [Json] and
    [Keys].  Where a component calls another one through a Go
    interface the model does too: [BlockOps] and [Env] for the consensus
    state machine, with [env_ok] for what it relies on (a block that
    [ValidateBlock] accepts has a hash, which [validated_block_hash] proves of
    the block executor), [EvidenceOps] for evidence in blocks, [Network] for
    the providers of the light client, [Executor] for the application, the
    mempool, the evidence pool and the stores of the block executor.
    Theorems that need a law name it; their witnesses give an instance.

    ** What the theorems show

    - Validators: updates refine the map from address to power; every
      validator proposes in proportion to its power up to a constant.
    - Votes: [addVote] is total on reachable sets and keeps the invariant; a
      reported majority is a real one; two majorities for different blocks
      exhibit a third of the power that signed both; sign bytes determine
      what was signed and decode back.
    - Commits: what is accepted, exactly, by each check; batch and single
      verification agree; a commit made from a vote set verifies; two
      commits for different blocks exhibit double signing.
    - Signer: across crashes and restarts one signature per height, round
      and step, and recovery of a lost one.
    - Merkle, parts and blocks: proofs are complete and, up to an exhibited
      collision, sound; both tree hashes agree; a block comes back from its
      parts in any order; a block hash determines what the block holds.
    - Consensus: in every run of correct nodes among faulty peers with less
      than a third of the power no two nodes decide differently; nodes follow
      the locking rules, keep their data well formed and never go back.
    - Mempool: the list refines a sequence; no run panics, indices and limits
      stay exact; an update leaves exactly what it should, also when the
      recheck times out; a proposal takes the longest prefix that fits.
    - Execution: every reached state is well formed; a proposed block
      validates; the order of the calls survives a crash at any point; vote
      extensions are settled in advance; the bounds of the block time.
    - Light client: from the first trusted height on it stores and returns
      blocks of the chain only, and its bisection returns within a bound.
    - Narwhal and Tusk: a primary votes once for each author and round that
      it has not collected, its handlers return, certificates intersect, and
      the leaders that correct nodes commit are prefixes of each other,
      unless the execution shows one of the gaps listed in [exposed].
    - Local node: it finalizes every height once and in order, and what the
      application accepted; it goes on while the application accepts; its
      stores and its frames give back what was put in.
    - Deviations that the theorems prove of the code: among others
      [AddPart_accepts_misplaced_parts], [VerifyCommit_ignores_addresses],
      [ProposerPriorityHash_last_only], [Or_drops_long_argument],
      [first_height_precommit_panics], [decided_block_other_parts_panics],
      [reap_max_txs_one_more], the [narwhal_] theorems of [NarwhalMempool],
      [failed_submission_blocks], [backwards_stores_unverified],
      [detector_misses_conflict], [median_time_bounds] (second half),
      [small_blocks_panic], [Tusk_outputs_diverge], [Tusk_commits_twice],
      [late_votes_panic], [late_loop_back_votes_twice],
      [header_id_ambiguous], [genesis_unchecked], [bad_parts_hash_panics],
      [rejected_proposals_halt], [finalized_blocks_unlinked] and
      [init_needs_validators].

    Theorems about runs name what they assume of the environment as a
    predicate: correct nodes and the faulty power ([network_ok], [net_ok],
    [node_ok], [env_ok]), what the tasks of a primary hand to its core
    ([run_ok]) and the events after which its votes are no longer unique
    ([strays]), the order of mempool steps ([enabled]), the chain that a
    light client follows ([real_chain]) and what decoding ensures of an
    answer ([decoded], [signable_block]), the states reached
    from a genesis ([reached], [genesis_ok]), blocks fit to be proposed
    ([proposable]), and for the local node the order of timers
    ([any_order], [by_deadline]), a clock that does not go back
    ([clock_ok]) and an application that accepts ([accepting]).  Their
    witnesses exhibit runs.

    ** Fuel

    Recursions on halves of a list (Merkle) carry the length of the list,
    and those on a shrinking byte string (readers) the length of the string;
    [hash_fuel_root], [trails_spec], [iterate_root] and
    [unmarshal_fuel_enough] show that this is enough.  The handlers of a
    primary call each other: [core_returns] shows that seven nested calls are
    enough.  The search of Tusk ([dfs]) carries the size of the DAG, and
    [order_dag_exact] shows that it ends.  Walks along the concurrent list
    carry the size of the heap; the search for a free peer id tries each of
    the 65536 ids once.  Bisection carries a fuel that
    [verifySkipping_returns] bounds, quadratically in the heights; the other
    loops of the light client go through a range of heights or the store.

    ** Not modelled

    Network, disk and timers, except as steps that may happen at any time;
    the generated encoders of other messages; text and JSON output apart
    from that of bit arrays; RPC, commands and configuration; the evidence
    pool, block and state synchronisation, the gossip routines of the
    consensus reactor and the write-ahead log. *)

From stdpp Require Export prelude gmap strings list sorting.
From Stdlib Require Export ZArith Lia Strings.Byte.

#[export] Set Default Goal Selector "!".

Open Scope Z_scope.

(** ** Panics

    A Go function that may panic returns an [outcome]: either a value or the
    panic.  [mbind] sequences two statements and lets a panic abort the rest. *)
Inductive outcome (A : Type) : Type :=
| Ret (a : A)
| Panic (msg : string).
Arguments Ret {A} a.
Arguments Panic {A} msg.

#[export] Instance Ret_inj A : Inj (=) (=) (@Ret A).
Proof. by intros x y [= ->]. Qed.
#[export] Instance outcome_ret : MRet outcome := @Ret.
#[export] Instance outcome_bind : MBind outcome := λ A B f m,
  match m with Ret a => f a | Panic s => Panic s end.
#[export] Instance outcome_fmap : FMap outcome := λ A B f m,
  match m with Ret a => Ret (f a) | Panic s => Panic s end.

Definition is_ret {A} (m : outcome A) : bool :=
  match m with Ret _ => true | Panic _ => false end.

Lemma bind_ret_inv {A B} (m : outcome A) (f : A → outcome B) b :
  m ≫= f = Ret b → ∃ a, m = Ret a ∧ f a = Ret b.
Proof. destruct m; simpl; [eauto|done]. Qed.

(** Split a successful bind. *)
Ltac bind_split H x Hx := apply bind_ret_inv in H as (x & Hx & H).

(** ** Machine integers

    Go's signed and unsigned integers are [Z] with the wrap-around written
    out; [int] is 64 bits wide on the supported platforms. *)
Definition MaxInt64 : Z := 9223372036854775807.
Definition MinInt64 : Z := -9223372036854775808.
Definition MaxInt32 : Z := 2147483647.
Definition MinInt32 : Z := -2147483648.

Definition int64 (z : Z) : Z := (z + 9223372036854775808) mod 18446744073709551616 - 9223372036854775808.
Definition int32 (z : Z) : Z := (z + 2147483648) mod 4294967296 - 2147483648.
Definition uint64 (z : Z) : Z := z mod 18446744073709551616.
Definition uint16 (z : Z) : Z := z mod 65536.
Definition uint32 (z : Z) : Z := z mod 4294967296.
Arguments int64 : simpl never.
Arguments int32 : simpl never.
Arguments uint64 : simpl never.
Arguments uint32 : simpl never.

Definition is_int64 (z : Z) : Prop := MinInt64 ≤ z ≤ MaxInt64.
Definition is_int32 (z : Z) : Prop := MinInt32 ≤ z ≤ MaxInt32.
Definition is_uint64 (z : Z) : Prop := 0 ≤ z < 18446744073709551616.

(** [ulia] is [lia] with the width constants and predicates unfolded. *)
Ltac ulia :=
  unfold is_int64, is_int32, is_uint64, MaxInt64, MinInt64, MaxInt32, MinInt32 in *; lia.

Lemma int64_id z : is_int64 z → int64 z = z.
Proof. intros. unfold int64. rewrite Z.mod_small; ulia. Qed.
Lemma int32_id z : is_int32 z → int32 z = z.
Proof. intros. unfold int32. rewrite Z.mod_small; ulia. Qed.
Lemma uint64_id z : is_uint64 z → uint64 z = z.
Proof. intros. unfold uint64. rewrite Z.mod_small; ulia. Qed.
Lemma int64_range z : is_int64 (int64 z).
Proof.
  unfold int64. pose proof (Z.mod_pos_bound (z + 9223372036854775808) 18446744073709551616).
  ulia.
Qed.
Lemma uint64_range z : is_uint64 (uint64 z).
Proof. unfold uint64. pose proof (Z.mod_pos_bound z 18446744073709551616). ulia. Qed.

(** ** Slices

    Indexing and storing out of range panics, as the Go runtime does. *)
Definition slice_get {A} (l : list A) (i : Z) : outcome A :=
  if decide (0 ≤ i) then
    match l !! Z.to_nat i with
    | Some x => Ret x
    | None => Panic "index out of range"
    end
  else Panic "index out of range".

Definition slice_set {A} (l : list A) (i : Z) (x : A) : outcome (list A) :=
  if decide (0 ≤ i < Z.of_nat (length l)) then Ret (<[Z.to_nat i := x]> l)
  else Panic "index out of range".

(** [len] is Go's [len] on a slice. *)
Definition len {A} (l : list A) : Z := Z.of_nat (length l).

Lemma len_fmap {A B} (f : A → B) l : len (f <$> l) = len l.
Proof. unfold len. by rewrite length_fmap. Qed.
Lemma len_app {A} (l1 l2 : list A) : len (l1 ++ l2) = len l1 + len l2.
Proof. unfold len. rewrite length_app. lia. Qed.
Lemma len_cons {A} (x : A) l : len (x :: l) = 1 + len l.
Proof. unfold len. simpl. lia. Qed.
Lemma len_nonneg {A} (l : list A) : 0 ≤ len l.
Proof. unfold len. lia. Qed.
Lemma len_perm {A} (l1 l2 : list A) : l1 ≡ₚ l2 → len l1 = len l2.
Proof. intros Hp. unfold len. by rewrite Hp. Qed.

Lemma slice_get_ret {A} (l : list A) i x :
  slice_get l i = Ret x ↔ 0 ≤ i ∧ l !! Z.to_nat i = Some x.
Proof.
  unfold slice_get. case_decide; [|split; [done|lia]].
  destruct (l !! Z.to_nat i) as [y|]; split; try done; [by intros [= ->]|by intros [_ [= ->]]|by intros [_ ?]].
Qed.

Lemma slice_get_in_range {A} (l : list A) i :
  0 ≤ i < len l → ∃ x, slice_get l i = Ret x ∧ l !! Z.to_nat i = Some x.
Proof.
  unfold len. intros Hi.
  destruct (lookup_lt_is_Some_2 l (Z.to_nat i)) as [x Hx]; [lia|].
  exists x. split; [|done]. apply slice_get_ret. split; [lia|done].
Qed.

Lemma slice_set_in_range {A} (l : list A) i x :
  0 ≤ i < len l → slice_set l i x = Ret (<[Z.to_nat i := x]> l).
Proof. unfold slice_set, len. intros. rewrite decide_True by lia. done. Qed.

(** ** Loops

    [for_each body l s] runs [body x] over the elements of [l] in order,
    threading the state [s]; a panic stops the loop. *)
Fixpoint for_each {A S} (body : A → S → outcome S) (l : list A) (s : S) : outcome S :=
  match l with
  | [] => Ret s
  | x :: l => s' ← body x s; for_each body l s'
  end.

Lemma for_each_app {A S} (body : A → S → outcome S) l1 l2 s :
  for_each body (l1 ++ l2) s = (s' ← for_each body l1 s; for_each body l2 s').
Proof.
  revert s. induction l1 as [|x l1 IH]; intros s; simpl; [done|].
  destruct (body x s); simpl; auto.
Qed.

(** A property of the state that every turn of a loop keeps. *)
Lemma for_each_keeps {A S} (body : A → S → outcome S) (Q : S → Prop) l s s' :
  (∀ x s s', body x s = Ret s' → Q s → Q s') → for_each body l s = Ret s' → Q s → Q s'.
Proof.
  intros Hb. revert s. induction l as [|x l IH]; intros s H HQ; simpl in H; [by injection H as <-|].
  destruct (body x s) as [s1|] eqn:E; [|done]. simpl in H. eauto.
Qed.

(** An invariant indexed by the elements already visited. *)
Lemma for_each_ind {A S} (body : A → S → outcome S) (P : list A → S → Prop) l s :
  P [] s →
  (∀ l1 x l2 s, l = l1 ++ x :: l2 → P l1 s → ∃ s', body x s = Ret s' ∧ P (l1 ++ [x]) s') →
  ∃ s', for_each body l s = Ret s' ∧ P l s'.
Proof.
  intros H0 Hstep.
  assert (∀ l1 l2 s, l = l1 ++ l2 → P l1 s → ∃ s', for_each body l2 s = Ret s' ∧ P l s')
    as Hgen; [|by apply (Hgen [] l s)].
  intros l1 l2. revert l1. induction l2 as [|x l2 IH]; intros l1 s1 Hl HP; simpl.
  - rewrite app_nil_r in Hl. subst. eauto.
  - destruct (Hstep l1 x l2 s1 Hl HP) as (s' & -> & HP').
    apply (IH (l1 ++ [x])); [|done]. by rewrite <-app_assoc.
Qed.

(** The indices [0 .. n-1] of a [for i := 0; i < n; i++] loop. *)
Abbreviation range n := (seqZ 0 n).
Arguments seqZ : simpl never.

Lemma range_split n l1 i l2 :
  range n = l1 ++ i :: l2 → i = Z.of_nat (length l1) ∧ 0 ≤ i < n.
Proof.
  intros Hr.
  assert (range n !! length l1 = Some i) as Hi.
  { rewrite Hr. by apply list_lookup_middle. }
  apply lookup_seqZ in Hi. lia.
Qed.

Lemma range_prefix n l1 l2 j : range n = l1 ++ l2 → j ∈ l1 ↔ 0 ≤ j < Z.of_nat (length l1).
Proof.
  intros Hr. split.
  - intros [k Hk]%list_elem_of_lookup. pose proof (lookup_lt_Some _ _ _ Hk).
    assert (range n !! k = Some j) as [??]%lookup_seqZ; [|lia].
    rewrite Hr. by apply lookup_app_l_Some.
  - intros Hj. destruct (lookup_lt_is_Some_2 l1 (Z.to_nat j)) as [x Hx]; [lia|].
    assert (range n !! Z.to_nat j = Some x) as [??]%lookup_seqZ.
    { rewrite Hr. by apply lookup_app_l_Some. }
    assert (x = j) as <- by lia. by eapply list_elem_of_lookup_2.
Qed.

(** ** Lists *)

Lemma filter_all {A} (P : A → Prop) `{!∀ x, Decision (P x)} (l : list A) :
  (∀ x, x ∈ l → P x) → filter P l = l.
Proof.
  induction l as [|x l IH]; intros HP; [done|]. rewrite filter_cons, decide_True by (apply HP; by left).
  rewrite IH; [done|]. intros y Hy. apply HP. by right.
Qed.

Lemma filter_none {A} (P : A → Prop) `{!∀ x, Decision (P x)} (l : list A) :
  (∀ x, x ∈ l → ¬ P x) → filter P l = [].
Proof.
  induction l as [|x l IH]; intros HP; [done|]. rewrite filter_cons, decide_False by (apply HP; by left).
  apply IH. intros y Hy. apply HP. by right.
Qed.

Lemma Forall_filter {A} (P Q : A → Prop) `{!∀ x, Decision (P x)} (l : list A) :
  Forall Q l → Forall Q (filter P l).
Proof. rewrite !Forall_forall. intros HQ x [_ Hx]%list_elem_of_filter. by apply HQ. Qed.

Lemma Forall2_elem_l {A B} (P : A → B → Prop) l k x : Forall2 P l k → x ∈ l → ∃ y, y ∈ k ∧ P x y.
Proof. intros HP (i & Hi)%list_elem_of_lookup. destruct (Forall2_lookup_l _ _ _ _ _ HP Hi) as (y & Hy & ?). exists y. split; [by eapply list_elem_of_lookup_2|done]. Qed.
Lemma Forall2_elem_r {A B} (P : A → B → Prop) l k y : Forall2 P l k → y ∈ k → ∃ x, x ∈ l ∧ P x y.
Proof. intros HP (i & Hi)%list_elem_of_lookup. destruct (Forall2_lookup_r _ _ _ _ _ HP Hi) as (x & Hx & ?). exists x. split; [by eapply list_elem_of_lookup_2|done]. Qed.

Lemma filter_ext_in {A} (P Q : A → Prop) `{!∀ x, Decision (P x), !∀ x, Decision (Q x)} (l : list A) :
  (∀ x, x ∈ l → P x ↔ Q x) → filter P l = filter Q l.
Proof.
  induction l as [|x l IH]; intros HPQ; [done|].
  rewrite !filter_cons. pose proof (HPQ x (list_elem_of_here _ _)).
  rewrite IH by (intros; apply HPQ; by right). repeat case_decide; tauto.
Qed.

Lemma filter_fmap_ext {A B} (f : A → B) (P : B → Prop) (Q : A → Prop)
    `{!∀ x, Decision (P x), !∀ x, Decision (Q x)} (l : list A) :
  (∀ x, x ∈ l → P (f x) ↔ Q x) → filter P (f <$> l) = f <$> filter Q l.
Proof.
  induction l as [|x l IH]; intros HPQ; [done|].
  rewrite fmap_cons, !filter_cons. pose proof (HPQ x (list_elem_of_here _ _)).
  rewrite IH by (intros; apply HPQ; by right). repeat case_decide; tauto.
Qed.

Lemma seqZ_fmap_shift s m n : seqZ (s + m) n = (λ j, s + j) <$> seqZ m n.
Proof.
  unfold seqZ. rewrite <-list_fmap_compose. apply list_fmap_ext. intros ? k _. simpl. lia.
Qed.

(** ** Sums *)

Definition zsum {A} (f : A → Z) (l : list A) : Z := foldr (λ x s, f x + s) 0 l.

Arguments zsum : simpl never.

Lemma zsum_nil {A} (f : A → Z) : zsum f [] = 0.
Proof. done. Qed.
Lemma zsum_cons {A} (f : A → Z) x l : zsum f (x :: l) = f x + zsum f l.
Proof. done. Qed.
Lemma zsum_app {A} (f : A → Z) l1 l2 : zsum f (l1 ++ l2) = zsum f l1 + zsum f l2.
Proof. unfold zsum. induction l1 as [|x l1 IH]; simpl; [done|]. rewrite IH. lia. Qed.
Lemma zsum_ext_in {A} (f g : A → Z) l : (∀ x, x ∈ l → f x = g x) → zsum f l = zsum g l.
Proof.
  unfold zsum. induction l as [|x l IH]; intros Hfg; simpl; [done|].
  rewrite (Hfg x (list_elem_of_here _ _)). rewrite IH; [done|]. intros. apply Hfg. by right.
Qed.
Lemma zsum_fmap {A B} (f : B → Z) (g : A → B) l : zsum f (g <$> l) = zsum (λ x, f (g x)) l.
Proof. induction l as [|x l IH]; [done|]. by rewrite fmap_cons, !zsum_cons, IH. Qed.
Lemma zsum_le {A} (f g : A → Z) l : (∀ x, x ∈ l → f x ≤ g x) → zsum f l ≤ zsum g l.
Proof.
  unfold zsum. induction l as [|x l IH]; intros Hfg; simpl; [done|].
  pose proof (Hfg x (list_elem_of_here _ _)).
  pose proof (IH ltac:(intros; apply Hfg; by right)). lia.
Qed.
Lemma zsum_const {A} (c : Z) (l : list A) : zsum (λ _, c) l = c * len l.
Proof. unfold zsum, len. induction l as [|x l IH]; simpl; lia. Qed.
Lemma zsum_nonneg {A} (f : A → Z) l : (∀ x, x ∈ l → 0 ≤ f x) → 0 ≤ zsum f l.
Proof. intros Hf. pose proof (zsum_le (λ _, 0) f l Hf). rewrite zsum_const in *. lia. Qed.
Lemma zsum_delete {A} (f : A → Z) (l : list A) i x : l !! i = Some x → zsum f (delete i l) = zsum f l - f x.
Proof. intros Hi. rewrite <-(take_drop_middle _ _ _ Hi) at 2. rewrite delete_take_drop, !zsum_app, zsum_cons. lia. Qed.
Lemma zsum_perm {A} (f : A → Z) l1 l2 : l1 ≡ₚ l2 → zsum f l1 = zsum f l2.
Proof. unfold zsum. induction 1; simpl; lia. Qed.
Lemma zsum_add {A} (f g : A → Z) l : zsum (λ x, f x + g x) l = zsum f l + zsum g l.
Proof. unfold zsum. induction l as [|x l IH]; simpl; lia. Qed.
Lemma zsum_elem_le {A} (f : A → Z) x l : (∀ x, x ∈ l → 0 ≤ f x) → x ∈ l → f x ≤ zsum f l.
Proof.
  intros Hf [l1 [l2 ->]]%list_elem_of_split. rewrite zsum_app, zsum_cons.
  pose proof (zsum_nonneg f l1 ltac:(intros; apply Hf; set_solver)).
  pose proof (zsum_nonneg f l2 ltac:(intros; apply Hf; set_solver)). lia.
Qed.
Lemma zsum_filter_le {A} (f : A → Z) (P : A → Prop) `{!∀ x, Decision (P x)} l :
  (∀ x, x ∈ l → 0 ≤ f x) → zsum f (filter P l) ≤ zsum f l.
Proof.
  induction l as [|x l IH]; intros Hf; [done|]. rewrite filter_cons, zsum_cons.
  pose proof (Hf x (list_elem_of_here _ _)). pose proof (IH ltac:(intros; apply Hf; by right)).
  case_decide; rewrite ?zsum_cons; lia.
Qed.
Lemma zsum_filter {A} (f : A → Z) (P : A → Prop) `{!∀ x, Decision (P x)} l :
  zsum f (filter P l) = zsum (λ x, if decide (P x) then f x else 0) l.
Proof.
  induction l as [|x l IH]; [done|]. rewrite filter_cons, zsum_cons, <-IH.
  case_decide; rewrite ?zsum_cons; lia.
Qed.
Lemma len_filter {A} (P : A → Prop) `{!∀ x, Decision (P x)} (l : list A) :
  len (filter P l) = zsum (λ x, if decide (P x) then 1 else 0) l.
Proof. rewrite <-zsum_filter, zsum_const. lia. Qed.

#[export] Instance zsum_Permutation {A} (f : A → Z) : Proper ((≡ₚ) ==> (=)) (zsum f).
Proof. intros l l'. apply zsum_perm. Qed.
#[export] Instance len_Permutation {A} : Proper ((≡ₚ) ==> (=)) (@len A).
Proof. intros l l' Hl. unfold len. by rewrite Hl. Qed.

Lemma zsum_insert {A} (f : A → Z) (l : list A) k x y :
  l !! k = Some x → zsum f (<[k := y]> l) = zsum f l - f x + f y.
Proof.
  revert k. induction l as [|z l IH]; intros [|k] Hk; simplify_eq/=; rewrite !zsum_cons; [lia|].
  rewrite IH by done. lia.
Qed.

(** A loop that only adds to a counter computes a sum. *)
Lemma for_each_sum {A} (f : A → Z) (body : A → Z → outcome Z) l c :
  (∀ x c, x ∈ l → body x c = Ret (c + f x)) →
  for_each body l c = Ret (c + zsum f l).
Proof.
  unfold zsum. revert c. induction l as [|x l IH]; intros c Hb; simpl.
  - by rewrite Z.add_0_r.
  - rewrite Hb by apply list_elem_of_here. simpl.
    rewrite IH by (intros; apply Hb; by right). f_equal. lia.
Qed.

(** ** Byte strings

    A Go [[]byte] used as a value; [bytes_compare] is [bytes.Compare]. *)
#[export] Instance byte_eq_dec : EqDecision byte := Byte.byte_eq_dec.
#[export] Instance byte_countable : Countable byte :=
  inj_countable Byte.to_N Byte.of_N Byte.of_to_N.

Abbreviation bytes := (list byte).

Fixpoint bytes_compare (a b : bytes) : comparison :=
  match a, b with
  | [], [] => Eq
  | [], _ :: _ => Lt
  | _ :: _, [] => Gt
  | x :: a, y :: b =>
      match N.compare (Byte.to_N x) (Byte.to_N y) with
      | Eq => bytes_compare a b
      | c => c
      end
  end.

Lemma byte_to_N_inj x y : Byte.to_N x = Byte.to_N y → x = y.
Proof. intros Heq. apply (f_equal Byte.of_N) in Heq. rewrite !Byte.of_to_N in Heq. congruence. Qed.

Lemma bytes_compare_eq a b : bytes_compare a b = Eq ↔ a = b.
Proof.
  revert b. induction a as [|x a IH]; intros [|y b]; simpl; try done.
  destruct (N.compare_spec (Byte.to_N x) (Byte.to_N y)) as [Hxy|Hxy|Hxy].
  - apply byte_to_N_inj in Hxy as ->. rewrite IH. split; congruence.
  - split; [done|]. intros [= -> _]. lia.
  - split; [done|]. intros [= -> _]. lia.
Qed.

Lemma bytes_compare_refl a : bytes_compare a a = Eq.
Proof. by apply bytes_compare_eq. Qed.

Lemma bytes_compare_antisym a b : bytes_compare b a = CompOpp (bytes_compare a b).
Proof.
  revert b. induction a as [|x a IH]; intros [|y b]; simpl; try done.
  rewrite N.compare_antisym. destruct (N.compare (Byte.to_N x) (Byte.to_N y)); simpl; auto.
Qed.

Lemma bytes_compare_trans a b c :
  bytes_compare a b = Lt → bytes_compare b c = Lt → bytes_compare a c = Lt.
Proof.
  revert b c. induction a as [|x a IH]; intros [|y b] [|z c]; simpl; try done.
  destruct (N.compare_spec (Byte.to_N x) (Byte.to_N y)) as [Hxy|Hxy|Hxy]; try done;
  destruct (N.compare_spec (Byte.to_N y) (Byte.to_N z)) as [Hyz|Hyz|Hyz]; try done;
  destruct (N.compare_spec (Byte.to_N x) (Byte.to_N z)) as [Hxz|Hxz|Hxz]; try lia; eauto.
Qed.

(** [bytes.Compare(a, b) < 0] *)
Definition bytes_ltb (a b : bytes) : bool := match bytes_compare a b with Lt => true | _ => false end.
Definition bytes_lt (a b : bytes) : Prop := bytes_compare a b = Lt.

Lemma bytes_ltb_lt a b : bytes_ltb a b = true ↔ bytes_lt a b.
Proof. unfold bytes_ltb, bytes_lt. destruct (bytes_compare a b); done. Qed.
Lemma bytes_lt_irrefl a : ¬ bytes_lt a a.
Proof. unfold bytes_lt. by rewrite bytes_compare_refl. Qed.
Lemma bytes_lt_trans a b c : bytes_lt a b → bytes_lt b c → bytes_lt a c.
Proof. apply bytes_compare_trans. Qed.
Lemma bytes_lt_total a b : bytes_lt a b ∨ a = b ∨ bytes_lt b a.
Proof.
  unfold bytes_lt. rewrite (bytes_compare_antisym a b).
  destruct (bytes_compare a b) eqn:E; simpl; auto. right; left. by apply bytes_compare_eq.
Qed.
#[export] Instance bytes_lt_strict : StrictOrder bytes_lt.
Proof. split; [exact bytes_lt_irrefl|exact bytes_lt_trans]. Qed.

(** ** Sorting

    [sort.Sort] and [sort.Slice] with the strict order [less], as insertion
    sort.  The elements the code sorts are distinct for [less], so every
    sorting algorithm returns this list ([sort_by_unique]). *)
Section sort.
Context {A : Type} (less : A → A → bool).

Fixpoint sort_insert (x : A) (l : list A) : list A :=
  match l with
  | [] => [x]
  | y :: l => if less x y then x :: y :: l else y :: sort_insert x l
  end.

Definition sort_by (l : list A) : list A := foldl (λ acc x, sort_insert x acc) [] l.

Lemma sort_insert_perm x l : sort_insert x l ≡ₚ x :: l.
Proof.
  induction l as [|y l IH]; simpl; [done|]. destruct (less x y); [done|]. rewrite IH. constructor.
Qed.

Lemma sort_by_perm l : sort_by l ≡ₚ l.
Proof.
  unfold sort_by. rewrite <-(app_nil_r l) at 2. generalize (@nil A) as acc.
  induction l as [|x l IH]; intros acc; simpl; [done|].
  rewrite IH, sort_insert_perm. symmetry. apply Permutation_middle.
Qed.

Lemma elem_of_sort_by x l : x ∈ sort_by l ↔ x ∈ l.
Proof. by rewrite sort_by_perm. Qed.

(** The weak order of [less]: not greater. *)
Definition not_greater (x y : A) : Prop := less y x = false.

Context (less_asym : ∀ x y, less x y = true → less y x = false)
        (ng_trans : ∀ x y z, not_greater x y → not_greater y z → not_greater x z).

Lemma sort_insert_sorted x l :
  StronglySorted not_greater l → StronglySorted not_greater (sort_insert x l).
Proof using Type*.
  induction 1 as [|y l Hs IH Hall]; simpl; [repeat constructor|].
  destruct (less x y) eqn:E.
  - constructor; [by constructor|]. constructor; [by apply less_asym|].
    eapply Forall_impl; [exact Hall|]. intros z. apply ng_trans. by apply less_asym.
  - constructor; [done|]. rewrite sort_insert_perm. by constructor.
Qed.

Lemma sort_by_sorted l : StronglySorted not_greater (sort_by l).
Proof using Type*.
  unfold sort_by. assert (StronglySorted not_greater []) as H by constructor.
  revert H. generalize (@nil A) as acc.
  induction l as [|x l IH]; intros acc Hacc; simpl; [done|].
  by apply IH, sort_insert_sorted.
Qed.
End sort.

(** Two sorts of the same distinct elements agree. *)
Lemma sort_by_unique {A} (less : A → A → bool) l l' :
  (∀ x y, less x y = true → less y x = false) →
  (∀ x y z, not_greater less x y → not_greater less y z → not_greater less x z) →
  (∀ x y, x ∈ l → y ∈ l → not_greater less x y → not_greater less y x → x = y) →
  l ≡ₚ l' → StronglySorted (not_greater less) l' → sort_by less l = l'.
Proof.
  intros Hasym Htrans Hinj Hperm Hsort. eapply StronglySorted_unique_strong.
  - intros x y Hx Hy. apply Hinj; [by apply elem_of_sort_by in Hx|by rewrite Hperm].
  - by apply sort_by_sorted.
  - done.
  - by rewrite sort_by_perm.
Qed.

Lemma StronglySorted_fmap {A B} (f : A → B) (R : B → B → Prop) l :
  StronglySorted (λ x y, R (f x) (f y)) l ↔ StronglySorted R (f <$> l).
Proof.
  induction l as [|x l IH]; simpl; [split; constructor|].
  split; inversion_clear 1 as [|? ? Hs Hall]; constructor; try (by apply IH); by apply Forall_fmap.
Qed.

Lemma StronglySorted_weaken {A} (R S : A → A → Prop) l :
  (∀ x y, R x y → S x y) → StronglySorted R l → StronglySorted S l.
Proof.
  intros HRS. induction 1 as [|x l Hs IH Hall]; constructor; [done|].
  eapply Forall_impl; [exact Hall|]. intros y. apply HRS.
Qed.
