(* ===== verification/Proto.v ===== *)
(** * Protocol buffer encoding

    The writers the generated code under
    [src/hetu-cometbft/proto/tendermint] is made of: base-128 varints,
    little-endian 64-bit words and length-delimited fields, with what makes
    them injective.  A field with its zero value is left out, as proto3
    does. *)
From S2P Require Import Prelude.

Definition byte_of (z : Z) : byte := default x00 (Byte.of_N (Z.to_N z)).

(** [encodeVarint...]: seven bits per byte, least significant first.  Ten
    bytes are enough for 64 bits. *)
Fixpoint uvarint_fuel (fuel : nat) (x : Z) : bytes :=
  match fuel with
  | O => []
  | S fuel =>
      if x <? 128 then [byte_of x]
      else byte_of (Z.lor (Z.land x 127) 128) :: uvarint_fuel fuel (Z.shiftr x 7)
  end.

Definition uvarint (x : Z) : bytes := uvarint_fuel 10 x.

(** [binary.PutVarint]: zig-zag, then a varint. *)
Definition varint (x : Z) : bytes :=
  let ux := uint64 (Z.shiftl x 1) in
  uvarint (if x <? 0 then Z.lxor ux 18446744073709551615 else ux).

(** [binary.LittleEndian.PutUint64]. *)
Fixpoint le_bytes (n : nat) (x : Z) : bytes :=
  match n with O => [] | S n => byte_of (x mod 256) :: le_bytes n (x / 256) end.

Definition fixed64 (x : Z) : bytes := le_bytes 8 (uint64 x).

#[global] Arguments uvarint : simpl never.
#[global] Arguments fixed64 : simpl never.

(** ** Fields *)

Definition varint_field (tag : byte) (x : Z) : bytes := if x =? 0 then [] else tag :: uvarint (uint64 x).
Definition fixed64_field (tag : byte) (x : Z) : bytes := if x =? 0 then [] else tag :: fixed64 x.
Definition message_field (tag : byte) (b : bytes) : bytes := tag :: uvarint (len b) ++ b.
Definition bytes_field (tag : byte) (b : bytes) : bytes :=
  if decide (b = []) then [] else message_field tag b.

#[global] Arguments varint_field : simpl never.
#[global] Arguments fixed64_field : simpl never.
#[global] Arguments message_field : simpl never.
#[global] Arguments bytes_field : simpl never.

(** [protoio.MarshalDelimited]: the length, then the message. *)
Definition delimited (b : bytes) : bytes := uvarint (len b) ++ b.

(** ** Injectivity *)

Lemma byte_of_to_N z : 0 ≤ z < 256 → Z.of_N (Byte.to_N (byte_of z)) = z.
Proof.
  intros Hz. unfold byte_of. destruct (Byte.of_N (Z.to_N z)) as [b|] eqn:E; simpl.
  - apply Byte.to_of_N in E. rewrite E. lia.
  - apply Byte.of_N_None_iff in E. lia.
Qed.

Lemma byte_of_inj a b : 0 ≤ a < 256 → 0 ≤ b < 256 → byte_of a = byte_of b → a = b.
Proof. intros Ha Hb Heq. rewrite <-(byte_of_to_N a), <-(byte_of_to_N b), Heq by done. done. Qed.

Lemma low_bits x : 0 ≤ x → Z.lor (Z.land x 127) 128 = 128 + x mod 128 ∧ Z.shiftr x 7 = x / 128.
Proof.
  intros Hx. rewrite Z.shiftr_div_pow2 by lia. split; [|done].
  change 127 with (Z.ones 7). rewrite Z.land_ones by lia. change (2 ^ 7) with 128.
  assert (Z.land (x mod 128) 128 = 0) as Hd.
  { apply Z.bits_inj'. intros n Hn. rewrite Z.land_spec, Z.bits_0. change 128 with (2 ^ 7) at 2.
    rewrite Z.pow2_bits_eqb by lia. destruct (Z.eqb_spec 7 n) as [<-|]; [|by rewrite andb_false_r].
    change 128 with (2 ^ 7). rewrite Z.mod_pow2_bits_high by lia. done. }
  rewrite Z.add_comm, Z.add_nocarry_lxor, Z.lxor_lor by done. done.
Qed.

(** A varint followed by anything determines both. *)
Lemma uvarint_fuel_inj fuel x y r r' :
  0 ≤ x < 128 ^ Z.of_nat fuel → 0 ≤ y < 128 ^ Z.of_nat fuel →
  uvarint_fuel fuel x ++ r = uvarint_fuel fuel y ++ r' → x = y ∧ r = r'.
Proof.
  revert x y. induction fuel as [|fuel IH]; intros x y Hx Hy Heq; [simpl in *; split; [lia|done]|].
  rewrite Nat2Z.inj_succ, Z.pow_succ_r in Hx, Hy by lia. cbn [uvarint_fuel] in Heq.
  destruct (low_bits x) as [Hlx Hsx]; [lia|]. destruct (low_bits y) as [Hly Hsy]; [lia|].
  rewrite Hlx, Hsx, Hly, Hsy in Heq.
  pose proof (Z.mod_pos_bound x 128 ltac:(lia)). pose proof (Z.mod_pos_bound y 128 ltac:(lia)).
  destruct (Z.ltb_spec x 128), (Z.ltb_spec y 128); injection Heq as Hb Hr.
  - apply byte_of_inj in Hb; [|lia..]. done.
  - apply byte_of_inj in Hb; lia.
  - apply byte_of_inj in Hb; lia.
  - apply byte_of_inj in Hb; [|lia..]. apply IH in Hr as [Hd Hr]; [|split; [apply Z.div_pos; lia|apply Z.div_lt_upper_bound; lia]..].
    split; [|done]. rewrite (Z.div_mod x 128), (Z.div_mod y 128) by lia. lia.
Qed.

Lemma uvarint_inj x y r r' :
  is_uint64 x → is_uint64 y → uvarint x ++ r = uvarint y ++ r' → x = y ∧ r = r'.
Proof. intros Hx Hy. apply uvarint_fuel_inj; ulia. Qed.

Lemma le_bytes_length n x : length (le_bytes n x) = n.
Proof. revert x. induction n as [|n IH]; intros x; simpl; [done|]. by rewrite IH. Qed.

Lemma le_bytes_inj n x y :
  0 ≤ x < 256 ^ Z.of_nat n → 0 ≤ y < 256 ^ Z.of_nat n → le_bytes n x = le_bytes n y → x = y.
Proof.
  revert x y. induction n as [|n IH]; intros x y Hx Hy Heq; [simpl in *; lia|].
  rewrite Nat2Z.inj_succ, Z.pow_succ_r in Hx, Hy by lia. cbn [le_bytes] in Heq. injection Heq as Hb Hr.
  pose proof (Z.mod_pos_bound x 256 ltac:(lia)). pose proof (Z.mod_pos_bound y 256 ltac:(lia)).
  apply byte_of_inj in Hb; [|lia..].
  apply IH in Hr; [|split; [apply Z.div_pos; lia|apply Z.div_lt_upper_bound; lia]..].
  rewrite (Z.div_mod x 256), (Z.div_mod y 256) by lia. lia.
Qed.

Lemma uint64_int64_inj x y : is_int64 x → is_int64 y → uint64 x = uint64 y → x = y.
Proof.
  intros Hx Hy Heq. rewrite <-(int64_id x), <-(int64_id y) by done.
  assert (∀ z, int64 (uint64 z) = int64 z) as Hw.
  { intros z. unfold int64, uint64. rewrite Zplus_mod_idemp_l. done. }
  by rewrite <-Hw, Heq, Hw.
Qed.

Lemma fixed64_inj x y r r' :
  is_int64 x → is_int64 y → fixed64 x ++ r = fixed64 y ++ r' → x = y ∧ r = r'.
Proof.
  intros Hx Hy Heq. apply app_inj_1 in Heq as [Hb Hr]; [|unfold fixed64; by rewrite !le_bytes_length].
  split; [|done]. apply uint64_int64_inj; [done..|]. eapply (le_bytes_inj 8); [| |exact Hb].
  - pose proof (uint64_range x). ulia.
  - pose proof (uint64_range y). ulia.
Qed.

(** What follows an optional field does not start with its tag. *)
Definition no_tag (tag : byte) (r : bytes) : Prop := head r ≠ Some tag.

Lemma varint_field_inj tag x y r r' :
  is_int64 x → is_int64 y → no_tag tag r → no_tag tag r' →
  varint_field tag x ++ r = varint_field tag y ++ r' → x = y ∧ r = r'.
Proof.
  intros Hx Hy Hr Hr'. unfold varint_field, no_tag in *.
  destruct (Z.eqb_spec x 0), (Z.eqb_spec y 0); simpl; intros Heq.
  - by subst.
  - by rewrite Heq in Hr.
  - by rewrite <-Heq in Hr'.
  - injection Heq as Heq. apply uvarint_inj in Heq as [Heq ?]; [|apply uint64_range..].
    split; [by apply uint64_int64_inj|done].
Qed.

Lemma fixed64_field_inj tag x y r r' :
  is_int64 x → is_int64 y → no_tag tag r → no_tag tag r' →
  fixed64_field tag x ++ r = fixed64_field tag y ++ r' → x = y ∧ r = r'.
Proof.
  intros Hx Hy Hr Hr'. unfold fixed64_field, no_tag in *.
  destruct (Z.eqb_spec x 0), (Z.eqb_spec y 0); intros Heq.
  - by subst.
  - simpl in *. by rewrite Heq in Hr.
  - simpl in *. by rewrite <-Heq in Hr'.
  - rewrite <-!app_comm_cons in Heq. apply (inj (cons tag)) in Heq. by apply fixed64_inj.
Qed.

(** Byte strings are shorter than 2^64. *)
Definition short (b : bytes) : Prop := is_uint64 (len b).

Lemma message_field_inj tag b b' r r' :
  short b → short b' → message_field tag b ++ r = message_field tag b' ++ r' → b = b' ∧ r = r'.
Proof.
  unfold message_field. intros Hb Hb' Heq. rewrite <-!app_comm_cons, <-!(assoc_L (++)) in Heq. apply (inj (cons tag)) in Heq.
  apply uvarint_inj in Heq as [Hlen Heq]; [|done..]. apply app_inj_1 in Heq; [done|]. unfold len in Hlen. lia.
Qed.

Lemma bytes_field_inj tag b b' r r' :
  short b → short b' → no_tag tag r → no_tag tag r' →
  bytes_field tag b ++ r = bytes_field tag b' ++ r' → b = b' ∧ r = r'.
Proof.
  unfold bytes_field, no_tag. intros Hb Hb' Hr Hr'. repeat case_decide; intros Heq.
  - by subst.
  - simpl in Heq. by rewrite Heq in Hr.
  - simpl in Heq. by rewrite <-Heq in Hr'.
  - by apply message_field_inj in Heq.
Qed.

Lemma delimited_inj b b' : short b → short b' → delimited b = delimited b' → b = b'.
Proof.
  intros Hb Hb' Heq. apply uvarint_inj in Heq; [|done..]. tauto.
Qed.

(** The tag a concatenation of fields starts with. *)
Lemma no_tag_field (tag tag' : byte) (f r : bytes) :
  tag ≠ tag' → f = [] ∨ head f = Some tag' → no_tag tag r → no_tag tag (f ++ r).
Proof.
  intros Hne [->|Hf] Hr; [done|]. unfold no_tag. destruct f; simplify_eq/=. congruence.
Qed.

Lemma varint_field_head tag x : varint_field tag x = [] ∨ head (varint_field tag x) = Some tag.
Proof. unfold varint_field. case_match; auto. Qed.
Lemma fixed64_field_head tag x : fixed64_field tag x = [] ∨ head (fixed64_field tag x) = Some tag.
Proof. unfold fixed64_field. case_match; auto. Qed.
Lemma bytes_field_head tag b : bytes_field tag b = [] ∨ head (bytes_field tag b) = Some tag.
Proof. unfold bytes_field. case_match; auto. Qed.
Lemma message_field_head tag b : message_field tag b = [] ∨ head (message_field tag b) = Some tag.
Proof. right. done. Qed.
Lemma no_tag_nil tag : no_tag tag [].
Proof. done. Qed.

Create HintDb proto.
#[export] Hint Resolve varint_field_head fixed64_field_head bytes_field_head message_field_head no_tag_nil : proto.

(** Every field of a concatenation starts with another tag. *)
Ltac solve_no_tag :=
  repeat (eapply no_tag_field; [|solve [auto with proto]|]; [discriminate|]); first [apply no_tag_nil|idtac].
