(* ===== verification/BitArray.v ===== *)
(** * libs/bits: the bit array

    Models [src/hetu-cometbft/libs/bits/bit_array.go].  A [*BitArray] is an
    [option BitArray]: [None] is the nil pointer, on which the exported
    methods are defined.  The mutex is left out: every method holds it for its
    whole body, so a method is one atomic step. *)
From S2P Require Import Prelude.

Record BitArray := mkBitArray {
  Bits : Z;
  Elems : list Z;
}.

(** ** 64-bit words *)

(** [uint64(x) << s]: a shift of 64 or more gives 0. *)
Definition u64_shl (x s : Z) : Z := if s <? 64 then uint64 (Z.shiftl x s) else 0.
Definition u64_max : Z := 18446744073709551615.
(** [^x] *)
Definition u64_not (x : Z) : Z := Z.lxor x u64_max.
(** [uint64(1) << uint(i%64)] *)
Definition bit_mask (i : Z) : Z := u64_shl 1 (uint64 (Z.rem i 64)).
(** [bits.OnesCount64] *)
Definition OnesCount64 (x : Z) : Z := len (filter (λ j, Is_true (Z.testbit x j)) (range 64)).
(** [make([]uint64, (bits+63)/64)] *)
Definition num_words (bits : Z) : Z := Z.quot (bits + 63) 64.

(** ** Construction *)

Definition NewBitArray (bits : Z) : option BitArray :=
  if bits <=? 0 then None
  else Some (mkBitArray bits (replicate (Z.to_nat (num_words bits)) 0)).

Definition or_word (elems : list Z) (w m : Z) : outcome (list Z) :=
  e ← slice_get elems w; slice_set elems w (Z.lor e m).

Definition NewBitArrayFromFn (bits : Z) (fn : Z → bool) : outcome (option BitArray) :=
  if bits <=? 0 then Ret None
  else
    elems ← for_each (λ i es, if fn i then or_word es (Z.quot i 64) (bit_mask i) else Ret es)
              (range bits) (replicate (Z.to_nat (num_words bits)) 0);
    Ret (Some (mkBitArray bits elems)).

Definition Size (bA : option BitArray) : Z :=
  match bA with None => 0 | Some b => Bits b end.

(** ** Reading and writing one bit *)

Definition getIndex (b : BitArray) (i : Z) : outcome bool :=
  if Bits b <=? i then Ret false
  else e ← slice_get (Elems b) (Z.quot i 64); Ret (0 <? Z.land e (bit_mask i)).

Definition GetIndex (bA : option BitArray) (i : Z) : outcome bool :=
  match bA with None => Ret false | Some b => getIndex b i end.

Definition setIndex (b : BitArray) (i : Z) (v : bool) : outcome (BitArray * bool) :=
  if Bits b <=? i then Ret (b, false)
  else
    e ← slice_get (Elems b) (Z.quot i 64);
    es ← slice_set (Elems b) (Z.quot i 64)
           (if v then Z.lor e (bit_mask i) else Z.land e (u64_not (bit_mask i)));
    Ret (mkBitArray (Bits b) es, true).

Definition SetIndex (bA : option BitArray) (i : Z) (v : bool) : outcome (option BitArray * bool) :=
  match bA with
  | None => Ret (None, false)
  | Some b => '(b', ok) ← setIndex b i v; Ret (Some b', ok)
  end.

(** ** Copies *)

Definition Copy (bA : option BitArray) : option BitArray := bA.

(** Go's [copy] into a fresh slice of [n] zero words. *)
Definition copy_into (n : nat) (src : list Z) : list Z :=
  take n src ++ replicate (n - length src) 0.

Definition copyBits (b : BitArray) (bits : Z) : BitArray :=
  mkBitArray bits (copy_into (Z.to_nat (num_words bits)) (Elems b)).

(** ** Bitwise operations *)

(** [c[i] = op(c[i], o[i])] for [i] in the given indices. *)
Definition zip_words (op : Z → Z → Z) (idx : list Z) (o c : list Z) : outcome (list Z) :=
  for_each (λ i c, x ← slice_get c i; y ← slice_get o i; slice_set c i (op x y)) idx c.

Definition Or (bA o : option BitArray) : outcome (option BitArray) :=
  match bA, o with
  | None, None => Ret None
  | None, Some _ => Ret (Copy o)
  | Some _, None => Ret (Copy bA)
  | Some b, Some o =>
      let c := copyBits b (Z.max (Bits b) (Bits o)) in
      let smaller := Z.min (len (Elems b)) (len (Elems o)) in
      es ← zip_words Z.lor (range smaller) (Elems o) (Elems c);
      Ret (Some (mkBitArray (Bits c) es))
  end.

Definition and_ (b o : BitArray) : outcome BitArray :=
  let c := copyBits b (Z.min (Bits b) (Bits o)) in
  es ← zip_words Z.land (range (len (Elems c))) (Elems o) (Elems c);
  Ret (mkBitArray (Bits c) es).

Definition And (bA o : option BitArray) : outcome (option BitArray) :=
  match bA, o with
  | Some b, Some o => c ← and_ b o; Ret (Some c)
  | _, _ => Ret None
  end.

Definition not_ (b : BitArray) : BitArray := mkBitArray (Bits b) (u64_not <$> Elems b).

Definition Not (bA : option BitArray) : option BitArray :=
  match bA with None => None | Some b => Some (not_ b) end.

Definition Sub (bA o : option BitArray) : outcome (option BitArray) :=
  match bA, o with
  | Some b, Some o =>
      let c := copyBits b (Bits b) in
      let smaller := Z.min (len (Elems b)) (len (Elems o)) in
      es ← zip_words Z.ldiff (range smaller) (Elems o) (Elems c);
      Ret (Some (mkBitArray (Bits c) es))
  | _, _ => Ret None
  end.

(** [Update] copies the words of [o] over those of [bA], up to the shorter. *)
Definition Update (bA o : option BitArray) : option BitArray :=
  match bA, o with
  | Some b, Some o =>
      Some (mkBitArray (Bits b)
              (take (length (Elems b)) (Elems o) ++ drop (length (Elems o)) (Elems b)))
  | _, _ => bA
  end.

(** ** Queries over the whole array *)

Definition IsEmpty (bA : option BitArray) : bool :=
  match bA with
  | None => true
  | Some b => forallb (λ e, negb (0 <? e)) (Elems b)
  end.

Definition IsFull (bA : option BitArray) : outcome bool :=
  match bA with
  | None => Ret true
  | Some b =>
      if decide (Elems b = []) then Panic "slice bounds out of range"
      else if forallb (λ e, u64_not e =? 0) (take (length (Elems b) - 1) (Elems b)) then
        let lastElemBits := Z.rem (Bits b + 63) 64 + 1 in
        lastElem ← slice_get (Elems b) (len (Elems b) - 1);
        Ret (Z.land (uint64 (lastElem + 1)) (uint64 (u64_shl 1 (uint64 lastElemBits) - 1)) =? 0)
      else Ret false
  end.

Definition getNumTrueIndices (b : BitArray) : outcome Z :=
  let numElems := len (Elems b) in
  count ← for_each (λ i count, e ← slice_get (Elems b) i; Ret (count + OnesCount64 e))
            (range (numElems - 1)) 0;
  let numFinalBits := Bits b - (numElems - 1) * 64 in
  for_each (λ i count,
      e ← slice_get (Elems b) (numElems - 1);
      Ret (if 0 <? Z.land e (u64_shl 1 i) then count + 1 else count))
    (range numFinalBits) count.

(** The inner loop of [getNthTrueIndex]: [inl j] is the early return, [inr
    count] falls through with the updated count. *)
Fixpoint scan_elem (e n : Z) (js : list Z) (count : Z) : Z + Z :=
  match js with
  | [] => inr count
  | j :: js =>
      if Z.land e (u64_shl 1 j) =? 0 then scan_elem e n js count
      else if count =? n then inl j
      else scan_elem e n js (count + 1)
  end.

Fixpoint scan_elems (elems : list Z) (i n count : Z) : Z :=
  match elems with
  | [] => -1
  | e :: es =>
      let setBits := OnesCount64 e in
      if n <=? count + setBits then
        match scan_elem e n (range 64) count with
        | inl j => i * 64 + j
        | inr count' => scan_elems es (i + 1) n count'
        end
      else scan_elems es (i + 1) n (count + setBits)
  end.

Definition getNthTrueIndex (b : BitArray) (n : Z) : Z := scan_elems (Elems b) 0 n 0.

(** [intn] stands for [cmtrand.Intn]. *)
Definition PickRandom (intn : Z → Z) (bA : option BitArray) : outcome (Z * bool) :=
  match bA with
  | None => Ret (0, false)
  | Some b =>
      numTrueIndices ← getNumTrueIndices b;
      if numTrueIndices =? 0 then Ret (0, false)
      else
        let index := getNthTrueIndex b (intn numTrueIndices) in
        Ret (if index =? -1 then (0, false) else (index, true))
  end.

(** ** Encodings *)

(** The double quote, [x], [_] and [null] as bytes. *)
Definition c_quote : byte := x22.
Definition c_x : byte := x78.
Definition c_underscore : byte := x5f.
Definition json_null : list byte := [x6e; x75; x6c; x6c].

Definition MarshalJSON (bA : option BitArray) : outcome (list byte) :=
  match bA with
  | None => Ret json_null
  | Some b =>
      bits ← for_each (λ i acc, v ← getIndex b i; Ret (acc ++ [if v : bool then c_x else c_underscore]))
               (range (Bits b)) [];
      Ret (c_quote :: bits ++ [c_quote])
  end.

(** The capture of [bitArrayJSONRegexp] (a quoted, possibly empty string of
    [x] and [_]), if it matches. *)
Definition json_match (bz : list byte) : option (list byte) :=
  match bz with
  | q :: rest =>
      match last rest with
      | Some q' =>
          let body := take (length rest - 1) rest in
          if decide (q = c_quote ∧ q' = c_quote) then
            if forallb (λ c, bool_decide (c = c_x ∨ c = c_underscore)) body
            then Some body else None
          else None
      | None => None
      end
  | [] => None
  end.

(** The decoded value of the receiver, or [None] for the format error. *)
Definition UnmarshalJSON (bz : list byte) : outcome (option BitArray) :=
  if decide (bz = json_null) then Ret (Some (mkBitArray 0 []))
  else
    match json_match bz with
    | None => Ret None
    | Some bits =>
        match NewBitArray (len bits) with
        | None => Ret (Some (mkBitArray 0 []))
        | Some bA2 =>
            b ← for_each (λ i b,
                    c ← slice_get bits i;
                    if decide (c = c_x) then '(b', _) ← setIndex b i true; Ret b' else Ret b)
                  (range (len bits)) bA2;
            Ret (Some b)
        end
    end.

(** [ToProto] and [FromProto]; the protobuf message has the same two fields.
    [FromProto] on a nil message only reassigns its local receiver. *)
Definition ToProto (bA : option BitArray) : option (Z * list Z) :=
  match bA with
  | None => None
  | Some b => if decide (Elems b = []) then None else Some (Bits b, Elems b)
  end.

Definition FromProto (b : BitArray) (p : option (Z * list Z)) : BitArray :=
  match p with
  | None => b
  | Some (bits, elems) =>
      mkBitArray (int64 bits) (if decide (elems = []) then Elems b else elems)
  end.

(** ** Abstraction: the bits *)

Definition word (es : list Z) (w : Z) : Z := default 0 (es !! Z.to_nat w).
Definition bit (es : list Z) (i : Z) : bool := Z.testbit (word es (i / 64)) (i mod 64).

(** A bit array as every constructor makes it: enough words, each a [uint64]. *)
Record wf (b : BitArray) : Prop := {
  wf_bits : 0 < Bits b;
  wf_len : len (Elems b) = num_words (Bits b);
  wf_words : Forall is_uint64 (Elems b);
}.

(** The bits past the end of the array are all 0. *)
Definition clean (b : BitArray) : Prop :=
  ∀ i, Bits b ≤ i → bit (Elems b) i = false.

Lemma num_words_bounds n : 0 < n → 0 < num_words n ∧ 64 * (num_words n - 1) < n ≤ 64 * num_words n.
Proof.
  intros. unfold num_words. rewrite Z.quot_div_nonneg by lia.
  pose proof (Z.div_mod (n + 63) 64). pose proof (Z.mod_pos_bound (n + 63) 64). lia.
Qed.

Lemma bit_mask_pow i : 0 ≤ i → bit_mask i = 2 ^ (i mod 64).
Proof.
  intros Hi. pose proof (Z.mod_pos_bound i 64).
  unfold bit_mask, u64_shl. rewrite Z.rem_mod_nonneg by lia.
  rewrite uint64_id by ulia. replace (i mod 64 <? 64) with true by lia.
  rewrite Z.shiftl_1_l. apply uint64_id.
  pose proof (Z.pow_lt_mono_r 2 (i mod 64) 64). split; [apply Z.pow_nonneg; lia|].
  change 18446744073709551616 with (2 ^ 64). lia.
Qed.

Lemma testbit_bit_mask i j : 0 ≤ i → Z.testbit (bit_mask i) j = bool_decide (j = i mod 64).
Proof.
  intros Hi. pose proof (Z.mod_pos_bound i 64). rewrite bit_mask_pow by done.
  destruct (decide (j = i mod 64)) as [->|Hj].
  - rewrite Z.pow2_bits_true by lia. by rewrite bool_decide_true.
  - rewrite Z.pow2_bits_false by done. by rewrite bool_decide_false.
Qed.

Lemma land_pow2 e k : 0 ≤ k → Z.land e (2 ^ k) = if Z.testbit e k then 2 ^ k else 0.
Proof.
  intros Hk. apply Z.bits_inj'. intros j Hj. rewrite Z.land_spec.
  destruct (decide (j = k)) as [->|Hne].
  - rewrite Z.pow2_bits_true by done. destruct (Z.testbit e k) eqn:E; simpl.
    + by rewrite Z.pow2_bits_true.
    + by rewrite Z.bits_0.
  - rewrite Z.pow2_bits_false, andb_false_r by done. destruct (Z.testbit e k).
    + by rewrite Z.pow2_bits_false.
    + by rewrite Z.bits_0.
Qed.

Lemma land_bit_mask e i : 0 ≤ i → (0 <? Z.land e (bit_mask i)) = Z.testbit e (i mod 64).
Proof.
  intros Hi. pose proof (Z.mod_pos_bound i 64). rewrite bit_mask_pow, land_pow2 by lia.
  pose proof (Z.pow_pos_nonneg 2 (i mod 64)). destruct (Z.testbit e (i mod 64)); lia.
Qed.

Lemma u64_shl_1 j : 0 ≤ j < 64 → u64_shl 1 j = 2 ^ j.
Proof.
  intros. rewrite <-(Z.mod_small j 64) at 2 by lia. rewrite <-bit_mask_pow by lia.
  unfold bit_mask. by rewrite Z.rem_small, uint64_id by ulia.
Qed.

(** A word is determined by its 64 bits. *)
Lemma u64_bits x : is_uint64 x ↔ 0 ≤ x ∧ ∀ j, 64 ≤ j → Z.testbit x j = false.
Proof.
  change (is_uint64 x) with (0 ≤ x < 2 ^ 64). split.
  - intros [? Hlt]. split; [done|]. intros j Hj.
    rewrite <-(Z.mod_small x (2 ^ 64)) by lia. apply Z.mod_pow2_bits_high; lia.
  - intros [? Hb]. split; [done|].
    assert (x = x mod 2 ^ 64) as ->; [|apply Z.mod_pos_bound; lia].
    apply Z.bits_inj'. intros j Hj. destruct (decide (j < 64)).
    + rewrite Z.mod_pow2_bits_low; [done|lia].
    + rewrite Z.mod_pow2_bits_high by lia. apply Hb. lia.
Qed.

Lemma u64_max_testbit j : Z.testbit u64_max j = bool_decide (0 ≤ j < 64).
Proof.
  change u64_max with (Z.ones 64). destruct (decide (0 ≤ j < 64)).
  - rewrite Z.ones_spec_low by lia. by rewrite bool_decide_true.
  - rewrite bool_decide_false by done. destruct (decide (j < 0)).
    + apply Z.testbit_neg_r; lia.
    + apply Z.ones_spec_high; lia.
Qed.

Lemma u64_not_testbit x j :
  Z.testbit (u64_not x) j = xorb (Z.testbit x j) (bool_decide (0 ≤ j < 64)).
Proof. unfold u64_not. by rewrite Z.lxor_spec, u64_max_testbit. Qed.

Lemma u64_closed op x y :
  (∀ j, 0 ≤ j → Z.testbit (op x y) j = true → Z.testbit x j = true ∨ Z.testbit y j = true) →
  0 ≤ op x y → is_uint64 x → is_uint64 y → is_uint64 (op x y).
Proof.
  rewrite !u64_bits. intros Hop Hpos [? Hx] [? Hy]. split; [done|]. intros j Hj.
  destruct (Z.testbit (op x y) j) eqn:E; [|done].
  destruct (Hop j) as [H1|H1]; [lia|done|rewrite Hx in H1 by lia|rewrite Hy in H1 by lia]; done.
Qed.

Lemma u64_lor x y : is_uint64 x → is_uint64 y → is_uint64 (Z.lor x y).
Proof.
  intros Hx Hy. apply u64_closed; [|apply Z.lor_nonneg; ulia|done..].
  intros j _. rewrite Z.lor_spec. apply orb_prop.
Qed.
Lemma u64_land x y : is_uint64 x → is_uint64 y → is_uint64 (Z.land x y).
Proof.
  intros Hx Hy. apply u64_closed; [|apply Z.land_nonneg; ulia|done..].
  intros j _. rewrite Z.land_spec. intros [??]%andb_prop. eauto.
Qed.
Lemma u64_ldiff x y : is_uint64 x → is_uint64 y → is_uint64 (Z.ldiff x y).
Proof.
  intros Hx Hy. apply u64_closed; [|apply Z.ldiff_nonneg; ulia|done..].
  intros j _. rewrite Z.ldiff_spec. intros [??]%andb_prop. eauto.
Qed.
Lemma u64_lnot x : is_uint64 x → is_uint64 (u64_not x).
Proof.
  rewrite !u64_bits. intros [? Hx]. split.
  - apply Z.lxor_nonneg. split; [|lia]. unfold u64_max; lia.
  - intros j Hj. rewrite u64_not_testbit, Hx, bool_decide_false by lia. done.
Qed.
Lemma u64_mask i : is_uint64 (bit_mask i).
Proof. unfold bit_mask, u64_shl. case_match; [apply uint64_range|ulia]. Qed.

Create HintDb u64.
#[export] Hint Resolve u64_lor u64_land u64_ldiff u64_lnot u64_mask : u64.

(** Writing one word changes the bits of that word only. *)
Lemma bit_insert es w x i :
  0 ≤ w < len es → 0 ≤ i →
  bit (<[Z.to_nat w := x]> es) i = if decide (i / 64 = w) then Z.testbit x (i mod 64) else bit es i.
Proof.
  unfold bit, word, len. intros Hw Hi. pose proof (Z.div_pos i 64).
  case_decide as Hd.
  - subst w. rewrite list_lookup_insert_eq by lia. done.
  - rewrite list_lookup_insert_ne by lia. done.
Qed.

Lemma word_range es w : Forall is_uint64 es → is_uint64 (word es w).
Proof.
  intros Hes. unfold word. destruct (es !! Z.to_nat w) eqn:E; simpl; [|ulia].
  by eapply Forall_lookup_1.
Qed.
#[export] Hint Resolve word_range : u64.

(** Indices of a well-formed array fall into its words. *)
Lemma wf_word b i :
  wf b → 0 ≤ i < Bits b →
  0 ≤ i / 64 < len (Elems b) ∧ slice_get (Elems b) (Z.quot i 64) = Ret (word (Elems b) (i / 64)).
Proof.
  intros [Hb Hl _] Hi. pose proof (num_words_bounds _ Hb).
  rewrite Z.quot_div_nonneg by lia.
  pose proof (Z.div_mod i 64). pose proof (Z.mod_pos_bound i 64).
  split; [lia|]. destruct (slice_get_in_range (Elems b) (i / 64)) as (x & -> & Hx); [lia|].
  unfold word. by rewrite Hx.
Qed.

Lemma mod64_eq i j : 0 ≤ i → 0 ≤ j → j / 64 = i / 64 ∧ j mod 64 = i mod 64 ↔ j = i.
Proof. intros. split; [|by intros ->]. pose proof (Z.div_mod i 64). pose proof (Z.div_mod j 64). lia. Qed.

(** ** Reading and writing *)

Lemma getIndex_bit b i : wf b → 0 ≤ i < Bits b → getIndex b i = Ret (bit (Elems b) i).
Proof.
  intros Hwf Hi. unfold getIndex. replace (Bits b <=? i) with false by lia.
  destruct (wf_word b i Hwf Hi) as [_ ->]. simpl. by rewrite land_bit_mask by lia.
Qed.

Lemma setIndex_bit b i v :
  wf b → 0 ≤ i < Bits b →
  ∃ b', setIndex b i v = Ret (b', true) ∧ wf b' ∧ Bits b' = Bits b ∧
        ∀ j, 0 ≤ j → bit (Elems b') j = if decide (j = i) then v else bit (Elems b) j.
Proof.
  intros Hwf Hi. destruct (wf_word b i Hwf Hi) as [Hw Hget].
  unfold setIndex. replace (Bits b <=? i) with false by lia. rewrite Hget. simpl.
  rewrite Z.quot_div_nonneg by lia. rewrite slice_set_in_range by done. simpl.
  eexists. split; [done|]. destruct Hwf as [Hb Hl Hws]. split; [|split; [done|]].
  - split; simpl; [done|by unfold len in *; rewrite length_insert|].
    apply Forall_insert; [done|]. destruct v; auto with u64.
  - intros j Hj. simpl. rewrite bit_insert by done.
    pose proof (mod64_eq i j). pose proof (Z.mod_pos_bound j 64).
    case_decide as Hd; case_decide as He.
    + subst j. destruct v.
      * rewrite Z.lor_spec, testbit_bit_mask, bool_decide_true by lia. apply orb_true_r.
      * rewrite Z.land_spec, u64_not_testbit, testbit_bit_mask, !bool_decide_true by lia.
        apply andb_false_r.
    + assert (j mod 64 ≠ i mod 64) by lia.
      unfold bit. rewrite Hd. destruct v.
      * rewrite Z.lor_spec, testbit_bit_mask, bool_decide_false by lia. apply orb_false_r.
      * rewrite Z.land_spec, u64_not_testbit, testbit_bit_mask, bool_decide_false, bool_decide_true
          by lia. apply andb_true_r.
    + subst j. done.
    + done.
Qed.

(** ** Word-wise loops *)

Lemma word_lookup es i x : es !! Z.to_nat i = Some x → word es i = x.
Proof. intros Hx. unfold word. by rewrite Hx. Qed.

Lemma word_insert es w x v :
  0 ≤ w < len es → 0 ≤ v → word (<[Z.to_nat w := x]> es) v = if decide (v = w) then x else word es v.
Proof.
  unfold word, len. intros Hw Hv. case_decide as Hd.
  - subst. by rewrite list_lookup_insert_eq by lia.
  - by rewrite list_lookup_insert_ne by lia.
Qed.

Lemma word_ge es w : len es ≤ w → word es w = 0.
Proof. unfold word, len. intros. by rewrite lookup_ge_None_2 by lia. Qed.

Lemma zip_words_spec op n o c :
  (∀ x y, is_uint64 x → is_uint64 y → is_uint64 (op x y)) →
  Forall is_uint64 o → Forall is_uint64 c → 0 ≤ n ≤ len o → n ≤ len c →
  ∃ c', zip_words op (range n) o c = Ret c' ∧ len c' = len c ∧ Forall is_uint64 c' ∧
        ∀ w, 0 ≤ w → word c' w = if decide (w < n) then op (word c w) (word o w) else word c w.
Proof.
  intros Hop Ho Hc Hn Hnc. unfold zip_words.
  destruct (for_each_ind
    (λ i c, x ← slice_get c i; y ← slice_get o i; slice_set c i (op x y))
    (λ l1 s, len s = len c ∧ Forall is_uint64 s ∧ ∀ w, 0 ≤ w →
       word s w = if decide (w < len l1) then op (word c w) (word o w) else word c w)
    (range n) c) as (c' & -> & Hlen & Hall & Hw).
  - split_and!; [done|done|]. intros w Hw. rewrite decide_False by (unfold len; simpl; lia). done.
  - intros l1 i l2 s Hr (Hlen & Hall & Hw).
    apply range_split in Hr as [Hi Hin].
    destruct (slice_get_in_range s i) as (x & -> & Hx); [lia|]. simpl.
    destruct (slice_get_in_range o i) as (y & -> & Hy); [lia|]. simpl.
    rewrite slice_set_in_range by lia. eexists. split; [done|].
    pose proof (Forall_lookup_1 _ _ _ _ Hall Hx). pose proof (Forall_lookup_1 _ _ _ _ Ho Hy).
    split_and!.
    + unfold len. rewrite length_insert. exact Hlen.
    + apply Forall_insert; auto.
    + intros w Hw0. rewrite word_insert by lia. unfold len. rewrite length_app. simpl.
      rewrite (Hw w Hw0). unfold len in *. case_decide as Hd.
      * subst w. rewrite decide_True by lia. pose proof (Hw i Hw0) as Hwi.
        rewrite decide_False in Hwi by lia.
        by rewrite <-Hwi, (word_lookup s i x), (word_lookup o i y).
      * repeat case_decide; done || lia.
  - exists c'. split_and!; [done..|]. intros w Hw0. rewrite Hw by done.
    unfold len. rewrite length_seqZ. destruct (decide (w < n)).
    + by rewrite !decide_True by lia.
    + by rewrite !decide_False by lia.
Qed.

Lemma copy_into_spec n es :
  Forall is_uint64 es →
  len (copy_into n es) = Z.of_nat n ∧ Forall is_uint64 (copy_into n es) ∧
  ∀ w, 0 ≤ w → word (copy_into n es) w = if decide (w < Z.of_nat n) then word es w else 0.
Proof.
  intros Hes. unfold copy_into, len. split_and!.
  - rewrite length_app, length_take, length_replicate. lia.
  - apply Forall_app. split; [by apply Forall_take|]. apply Forall_replicate. ulia.
  - intros w Hw. unfold word. destruct (decide (w < Z.of_nat n)) as [Hlt|Hge].
    + destruct (decide (w < len es)) as [Hl|Hl]; unfold len in Hl.
      * rewrite lookup_app_l by (rewrite length_take; lia). by rewrite lookup_take_lt by lia.
      * rewrite lookup_app_r by (rewrite length_take; lia). rewrite length_take.
        rewrite lookup_replicate_2 by lia. by rewrite (lookup_ge_None_2 es) by lia.
    + rewrite lookup_ge_None_2; [done|]. rewrite length_app, length_take, length_replicate. lia.
Qed.

Lemma copyBits_spec b bits :
  0 < bits → Forall is_uint64 (Elems b) →
  wf (copyBits b bits) ∧ Bits (copyBits b bits) = bits ∧
  ∀ w, 0 ≤ w → word (Elems (copyBits b bits)) w = if decide (w < num_words bits) then word (Elems b) w else 0.
Proof.
  intros Hb Hes. pose proof (num_words_bounds bits Hb).
  destruct (copy_into_spec (Z.to_nat (num_words bits)) (Elems b) Hes) as (Hl & Hf & Hw).
  rewrite Z2Nat.id in Hw, Hl by lia. split_and!; [split; simpl; [done|done|done]|done|done].
Qed.

(** The bits of an index below [Bits] live in the first [num_words] words. *)
Lemma index_word i n : 0 ≤ i < n → 0 ≤ i / 64 < num_words n.
Proof.
  intros Hi. pose proof (num_words_bounds n). pose proof (Z.div_mod i 64).
  pose proof (Z.mod_pos_bound i 64). lia.
Qed.
Lemma word_index i n : 0 ≤ i → i / 64 < num_words n → 0 < n → i < 64 * num_words n.
Proof. intros. pose proof (Z.div_mod i 64). pose proof (Z.mod_pos_bound i 64). lia. Qed.

Lemma and_spec b o :
  wf b → wf o →
  ∃ c, and_ b o = Ret c ∧ wf c ∧ Bits c = Z.min (Bits b) (Bits o) ∧
       ∀ i, 0 ≤ i < Bits c → bit (Elems c) i = bit (Elems b) i && bit (Elems o) i.
Proof.
  intros Hb Ho. destruct (copyBits_spec b (Z.min (Bits b) (Bits o))) as (Hc & HcB & HcW);
    [destruct Hb, Ho; lia|apply Hb|].
  unfold and_. set (c := copyBits b _) in *.
  assert (len (Elems c) ≤ len (Elems o)).
  { rewrite (wf_len c Hc), (wf_len o Ho), HcB. apply Z.quot_le_mono; lia. }
  destruct (zip_words_spec Z.land (len (Elems c)) (Elems o) (Elems c)) as (c' & -> & Hl & Hf & Hw);
    [auto with u64|apply Ho|apply Hc|unfold len in *; lia|lia|]. simpl.
  eexists. split; [done|]. split_and!; [|done|].
  - destruct Hc. split; simpl; [done|congruence|done].
  - intros i Hi. pose proof (index_word i _ Hi) as Hiw. simpl in Hi, Hiw. unfold bit. simpl.
    rewrite Hw by lia. rewrite (wf_len c Hc), HcB in *. rewrite decide_True by lia.
    rewrite Z.land_spec, HcW by lia. by rewrite decide_True by lia.
Qed.

Lemma Sub_spec b o :
  wf b → wf o →
  ∃ c, Sub (Some b) (Some o) = Ret (Some c) ∧ wf c ∧ Bits c = Bits b ∧
       ∀ i, 0 ≤ i < Bits b → bit (Elems c) i = bit (Elems b) i && negb (bit (Elems o) i).
Proof.
  intros Hb Ho. destruct (copyBits_spec b (Bits b)) as (Hc & HcB & HcW); [apply Hb|apply Hb|].
  unfold Sub. set (c := copyBits b _) in *. set (n := Z.min _ _).
  assert (len (Elems c) = len (Elems b)) as Hcb
    by (by rewrite (wf_len c Hc), (wf_len b Hb), HcB).
  destruct (zip_words_spec Z.ldiff n (Elems o) (Elems c)) as (c' & -> & Hl & Hf & Hw);
    [auto with u64|apply Ho|apply Hc|unfold n, len in *; lia|lia|]. simpl.
  eexists. split; [done|]. split_and!; [|done|].
  - destruct Hc. split; simpl; [done|congruence|done].
  - intros i Hi. pose proof (index_word i _ Hi) as Hiw. unfold bit. simpl.
    rewrite Hw, HcW by lia. rewrite (decide_True (P:=i / 64 < num_words (Bits b))) by lia.
    case_decide as Hd; [by rewrite Z.ldiff_spec|].
    rewrite <-(wf_len b Hb) in Hiw.
    rewrite (word_ge (Elems o)) by lia. by rewrite Z.bits_0, andb_true_r.
Qed.

(** [Or] merges only the words both arrays have: a bit of the argument past
    the receiver's last word is lost. *)
Lemma Or_spec b o :
  wf b → wf o →
  ∃ c, Or (Some b) (Some o) = Ret (Some c) ∧ wf c ∧ Bits c = Z.max (Bits b) (Bits o) ∧
       ∀ i, 0 ≤ i < Bits c → bit (Elems c) i =
         bit (Elems b) i || (bool_decide (i < 64 * num_words (Bits b)) && bit (Elems o) i).
Proof.
  intros Hb Ho. destruct (copyBits_spec b (Z.max (Bits b) (Bits o))) as (Hc & HcB & HcW);
    [destruct Hb; lia|apply Hb|].
  unfold Or. set (c := copyBits b _) in *. set (n := Z.min _ _).
  assert (len (Elems b) ≤ len (Elems c)) as Hcb.
  { rewrite (wf_len c Hc), (wf_len b Hb), HcB. apply Z.quot_le_mono; lia. }
  destruct (zip_words_spec Z.lor n (Elems o) (Elems c)) as (c' & -> & Hl & Hf & Hw);
    [auto with u64|apply Ho|apply Hc|unfold n, len in *; lia|lia|]. simpl.
  eexists. split; [done|]. split_and!; [|done|].
  - destruct Hc. split; simpl; [done|congruence|done].
  - intros i Hi. pose proof (index_word i _ Hi) as Hiw. simpl in Hi, Hiw. unfold bit. simpl.
    rewrite Hw, HcW by lia. rewrite (decide_True (P:=i / 64 < num_words _)) by lia.
    pose proof (wf_len b Hb). pose proof (wf_len o Ho).
    pose proof (Z.div_mod i 64). pose proof (Z.mod_pos_bound i 64).
    case_decide as Hd.
    + by rewrite Z.lor_spec, bool_decide_true by lia.
    + case_bool_decide; [|by rewrite orb_false_r].
      rewrite (word_ge (Elems o)) by lia. by rewrite Z.bits_0, orb_false_r.
Qed.

Lemma word_fmap f es w : f 0 = 0 ∨ 0 ≤ w < len es → word (f <$> es) w = f (word es w).
Proof.
  unfold word, len. rewrite list_lookup_fmap. intros [Hf|Hw].
  - destruct (es !! _); simpl; [done|by rewrite Hf].
  - destruct (lookup_lt_is_Some_2 es (Z.to_nat w)) as [x ->]; [lia|done].
Qed.

Lemma not_spec b :
  wf b → wf (not_ b) ∧ ∀ i, 0 ≤ i < Bits b → bit (Elems (not_ b)) i = negb (bit (Elems b) i).
Proof.
  intros Hb. split.
  - destruct Hb as [Hp Hl Hf]. split; simpl; [done|unfold len in *; by rewrite length_fmap|].
    apply Forall_fmap. eapply Forall_impl; [exact Hf|]. intros; simpl; auto with u64.
  - intros i Hi. unfold bit. simpl. destruct (wf_word b i Hb Hi) as [Hw _].
    rewrite word_fmap by (right; lia). pose proof (Z.mod_pos_bound i 64).
    rewrite u64_not_testbit, bool_decide_true by lia. apply xorb_true_r.
Qed.

(** ** Counting and selecting set bits *)

Abbreviation bits_of e := (λ j, Is_true (Z.testbit e j)).

(** The set bits of a list of words, the first word being word [i]. *)
Fixpoint ones (es : list Z) (i : Z) : list Z :=
  match es with
  | [] => []
  | e :: es => ((λ j, i * 64 + j) <$> filter (bits_of e) (range 64)) ++ ones es (i + 1)
  end.

Lemma land_shl_zero e j : 0 ≤ j < 64 → (Z.land e (u64_shl 1 j) =? 0) = negb (Z.testbit e j).
Proof.
  intros Hj. rewrite u64_shl_1, land_pow2 by lia. pose proof (Z.pow_pos_nonneg 2 j).
  destruct (Z.testbit e j); simpl; lia.
Qed.

Lemma scan_elem_spec e n js count :
  Forall (λ j, 0 ≤ j < 64) js → count ≤ n →
  scan_elem e n js count =
    match filter (bits_of e) js !! Z.to_nat (n - count) with
    | Some j => inl j
    | None => inr (count + len (filter (bits_of e) js))
    end.
Proof.
  intros Hjs. revert count. induction Hjs as [|j js Hj _ IH]; intros count Hc; simpl.
  - unfold len; simpl. f_equal. lia.
  - rewrite land_shl_zero by done. rewrite filter_cons.
    destruct (Z.testbit e j) eqn:Ej; simpl.
    + destruct (Z.eqb_spec count n) as [->|Hne]; [by rewrite Z.sub_diag|].
      rewrite IH by lia. replace (Z.to_nat (n - count)) with (S (Z.to_nat (n - (count + 1)))) by lia.
      simpl. destruct (_ !! _); [done|]. f_equal. unfold len. simpl. lia.
    + by rewrite IH by lia.
Qed.

Lemma range64_bounds : Forall (λ j, 0 ≤ j < 64) (range 64).
Proof. apply Forall_forall. intros j Hj%elem_of_seqZ. lia. Qed.

Lemma scan_elems_spec es i n count :
  count ≤ n → scan_elems es i n count = default (-1) (ones es i !! Z.to_nat (n - count)).
Proof.
  revert i count. induction es as [|e es IH]; intros i count Hc; cbn [scan_elems ones]; [done|].
  unfold OnesCount64.
  set (fs := filter (bits_of e) (range 64)).
  assert (∀ m, (len fs ≤ m) → ones es (i + 1) !! Z.to_nat (m - len fs) =
     (((λ j, i * 64 + j) <$> fs) ++ ones es (i + 1)) !! Z.to_nat m) as Hskip.
  { intros m Hm. unfold len in *. rewrite lookup_app_r by (rewrite length_fmap; lia).
    rewrite length_fmap. f_equal. lia. }
  destruct (Z.leb_spec n (count + len fs)) as [Hle|Hgt].
  - rewrite scan_elem_spec by (apply range64_bounds || done). fold fs.
    destruct (fs !! Z.to_nat (n - count)) as [j|] eqn:Ej.
    + rewrite lookup_app_l by (rewrite length_fmap; by apply lookup_lt_Some in Ej).
      rewrite list_lookup_fmap, Ej. done.
    + apply lookup_ge_None in Ej. unfold len in *.
      rewrite IH by lia. rewrite <-Hskip by lia. f_equal. f_equal. lia.
  - rewrite IH by lia. rewrite <-Hskip by lia. f_equal. f_equal. lia.
Qed.

Lemma bit_cons_lt e es k : 0 ≤ k < 64 → bit (e :: es) k = Z.testbit e k.
Proof. intros. unfold bit, word. by rewrite Z.div_small, Z.mod_small by lia. Qed.

Lemma bit_cons_ge e es k : 64 ≤ k → bit (e :: es) k = bit es (k - 64).
Proof.
  intros. unfold bit, word.
  replace k with (k - 64 + 1 * 64) at 1 2 by lia. rewrite Z.div_add, Z.mod_add by lia.
  pose proof (Z.div_pos (k - 64) 64). replace (Z.to_nat ((k - 64) / 64 + 1)) with (S (Z.to_nat ((k - 64) / 64))) by lia.
  done.
Qed.

Lemma ones_bits es i :
  ones es i = (λ k, i * 64 + k) <$> filter (λ k, Is_true (bit es k)) (range (64 * len es)).
Proof.
  revert i. induction es as [|e es IH]; intros i; cbn [ones]; [done|].
  replace (64 * len (e :: es)) with (64 + 64 * len es) by (unfold len; simpl; lia).
  rewrite seqZ_app by (unfold len; lia). rewrite filter_app, fmap_app. apply f_equal2.
  - apply f_equal, filter_ext_in. intros k Hk%elem_of_seqZ.
    by rewrite bit_cons_lt by lia.
  - rewrite IH, (seqZ_fmap_shift 64 0).
    rewrite (filter_fmap_ext _ _ (λ k, Is_true (bit es k))).
    + rewrite <-list_fmap_compose. apply list_fmap_ext. intros ? k _. simpl. lia.
    + intros k Hk%elem_of_seqZ. rewrite bit_cons_ge by lia. by replace (64 + k - 64) with k by lia.
Qed.

(** The true indices of an array, in increasing order. *)
Definition true_indices (b : BitArray) : list Z :=
  filter (λ k, Is_true (bit (Elems b) k)) (range (Bits b)).

Lemma ones_app es es' i : ones (es ++ es') i = ones es i ++ ones es' (i + len es).
Proof.
  revert i. induction es as [|e es IH]; intros i.
  - unfold len. simpl. by rewrite Z.add_0_r.
  - rewrite <-app_comm_cons. cbn [ones]. rewrite IH, <-app_assoc.
    replace (i + 1 + len es) with (i + len (e :: es)) by (unfold len; rewrite length_cons; lia).
    done.
Qed.

Lemma sum_words es : zsum (λ w, OnesCount64 (word es w)) (range (len es)) = len (ones es 0).
Proof.
  induction es as [|e es IH] using rev_ind; [done|].
  replace (len (es ++ [e])) with (len es + 1) by (unfold len; rewrite length_app; simpl; lia).
  rewrite seqZ_app by (unfold len; lia). rewrite zsum_app.
  change (seqZ (0 + len es) 1) with [0 + len es]. rewrite zsum_cons, ones_app. cbn [ones].
  rewrite app_nil_r. unfold len in *. rewrite length_app, length_fmap, Nat2Z.inj_add, <-IH.
  apply f_equal2.
  - apply zsum_ext_in. intros w Hw%elem_of_seqZ. unfold word. by rewrite lookup_app_l by lia.
  - unfold word. rewrite lookup_app_r by lia.
    replace (Z.to_nat (0 + Z.of_nat (length es)) - length es)%nat with 0%nat by lia. simpl.
    by rewrite Z.add_0_r.
Qed.

(** [true_indices] is a prefix of the set bits of the words. *)
Lemma ones_true_indices b :
  wf b → ∃ l, ones (Elems b) 0 = true_indices b ++ l.
Proof.
  intros [Hb Hl _]. pose proof (num_words_bounds _ Hb). rewrite ones_bits, Hl.
  replace (64 * num_words (Bits b)) with (Bits b + (64 * num_words (Bits b) - Bits b)) by lia.
  rewrite seqZ_app by lia. rewrite filter_app.
  eexists. rewrite fmap_app. apply f_equal2; [|reflexivity].
  rewrite <-(list_fmap_id (true_indices b)). unfold true_indices.
  apply list_fmap_ext. intros ? k _. simpl. lia.
Qed.

Lemma getNumTrueIndices_spec b : wf b → getNumTrueIndices b = Ret (len (true_indices b)).
Proof.
  intros Hwf. pose proof Hwf as [Hb Hl Hf]. pose proof (num_words_bounds _ Hb).
  unfold getNumTrueIndices. rewrite Hl. set (n := num_words (Bits b)) in *.
  rewrite (for_each_sum (λ w, OnesCount64 (word (Elems b) w))).
  2:{ intros w c Hw%elem_of_seqZ. destruct (slice_get_in_range (Elems b) w) as (x & -> & Hx); [lia|].
      simpl. by rewrite (word_lookup _ _ _ Hx). }
  simpl.
  rewrite (for_each_sum (λ j, if decide (Is_true (Z.testbit (word (Elems b) (n - 1)) j)) then 1 else 0)).
  2:{ intros j c Hj%elem_of_seqZ. destruct (slice_get_in_range (Elems b) (n - 1)) as (x & -> & Hx); [lia|].
      simpl. rewrite (word_lookup _ _ _ Hx). rewrite u64_shl_1 by lia.
      replace j with (j mod 64) at 1 by (rewrite Z.mod_small; lia).
      rewrite <-bit_mask_pow, land_bit_mask, Z.mod_small by lia.
      destruct (Z.testbit x j); simpl; f_equal; lia. }
  f_equal. unfold true_indices. rewrite len_filter.
  replace (Bits b) with (64 * (n - 1) + (Bits b - (n - 1) * 64)) at 2 by lia.
  rewrite (seqZ_app 0 (64 * (n - 1))) by lia. rewrite zsum_app, Z.add_0_l. apply f_equal2.
  - rewrite <-len_filter. set (es := take (Z.to_nat (n - 1)) (Elems b)).
    assert (len es = n - 1) as Hes by (unfold es, len in *; rewrite length_take; lia).
    transitivity (len (ones es 0)).
    + rewrite <-sum_words, Hes. apply zsum_ext_in. intros w Hw%elem_of_seqZ.
      unfold word, es. by rewrite lookup_take_lt by lia.
    + rewrite ones_bits, Hes. unfold len. rewrite length_fmap.
      f_equal. f_equal. apply filter_ext_in. intros k Hk%elem_of_seqZ.
      unfold bit, word, es. pose proof (Z.div_lt_upper_bound k 64 (n - 1)).
      pose proof (Z.div_pos k 64). by rewrite lookup_take_lt by lia.
  - rewrite Z.add_0_l, <-(Z.add_0_r (64 * (n - 1))), seqZ_fmap_shift, zsum_fmap.
    apply zsum_ext_in. intros j Hj%elem_of_seqZ. unfold bit.
    rewrite (Z.add_comm _ j), Z.mul_comm, Z.div_add, Z.mod_add, Z.div_small, Z.mod_small by lia.
    done.
Qed.

Lemma PickRandom_spec intn b :
  wf b → (∀ n, 0 < n → 0 ≤ intn n < n) →
  (true_indices b = [] ∧ PickRandom intn (Some b) = Ret (0, false)) ∨
  (∃ i, i ∈ true_indices b ∧ PickRandom intn (Some b) = Ret (i, true)).
Proof.
  intros Hwf Hintn. unfold PickRandom. rewrite getNumTrueIndices_spec by done. simpl.
  destruct (Z.eqb_spec (len (true_indices b)) 0) as [H0|H0].
  - left. split; [|done]. apply nil_length_inv. unfold len in *. lia.
  - right. unfold getNthTrueIndex. pose proof (Hintn (len (true_indices b)) ltac:(unfold len in *; lia)).
    set (n := intn _) in *. rewrite scan_elems_spec by lia. rewrite Z.sub_0_r.
    destruct (ones_true_indices b Hwf) as [l ->].
    destruct (lookup_lt_is_Some_2 (true_indices b) (Z.to_nat n)) as [i Hi]; [unfold len in *; lia|].
    rewrite lookup_app_l by (by eapply lookup_lt_Some). rewrite Hi. simpl.
    exists i. apply list_elem_of_lookup_2 in Hi. split; [done|].
    unfold true_indices in Hi. apply list_elem_of_filter in Hi as [_ Hi%elem_of_seqZ].
    destruct (Z.eqb_spec i (-1)); [lia|done].
Qed.

(** ** Construction, fullness, encodings *)

Lemma bit_replicate_0 n i : bit (replicate n 0) i = false.
Proof.
  unfold bit, word. destruct (replicate n 0 !! _) as [x|] eqn:E; simpl.
  - apply lookup_replicate in E as [-> _]. apply Z.bits_0.
  - apply Z.bits_0.
Qed.

Lemma NewBitArray_spec n :
  0 < n → ∃ b, NewBitArray n = Some b ∧ wf b ∧ Bits b = n ∧ ∀ i, bit (Elems b) i = false.
Proof.
  intros Hn. pose proof (num_words_bounds n Hn). unfold NewBitArray.
  replace (n <=? 0) with false by lia. eexists. split_and!; [done| |done|].
  - split; simpl; [done|unfold len; rewrite length_replicate; lia|].
    apply Forall_replicate. ulia.
  - intros i. apply bit_replicate_0.
Qed.

Lemma NewBitArrayFromFn_spec n fn :
  0 < n → ∃ b, NewBitArrayFromFn n fn = Ret (Some b) ∧ wf b ∧ Bits b = n ∧
    ∀ i, 0 ≤ i → bit (Elems b) i = bool_decide (i < n) && fn i.
Proof.
  intros Hn. destruct (NewBitArray_spec n Hn) as (b0 & Hb0 & Hwf & HB & Hz).
  unfold NewBitArrayFromFn, NewBitArray in *. replace (n <=? 0) with false in * by lia.
  injection Hb0 as <-. simpl in *.
  destruct (for_each_ind
    (λ i es, if fn i then or_word es (Z.quot i 64) (bit_mask i) else Ret es)
    (λ l1 es, wf (mkBitArray n es) ∧ ∀ i, 0 ≤ i → bit es i = bool_decide (i < len l1) && fn i)
    (range n) (replicate (Z.to_nat (num_words n)) 0)) as (es & -> & Hes & Hbit).
  - split; [done|]. intros i Hi. rewrite Hz, bool_decide_false by (unfold len; simpl; lia). done.
  - intros l1 i l2 es [Hi Hin]%range_split (Hes & Hbit). unfold len in *.
    rewrite length_app. simpl. destruct (fn i) eqn:Efn.
    + destruct (setIndex_bit (mkBitArray n es) i true Hes) as (b' & Hs & Hwf' & HB' & Hb'); [simpl; lia|].
      unfold setIndex in Hs. simpl in Hs. replace (n <=? i) with false in Hs by lia.
      unfold or_word. destruct (slice_get es (Z.quot i 64)) as [e|]; [|done]. simpl in *.
      destruct (slice_set es (Z.quot i 64) (Z.lor e (bit_mask i))) as [es'|]; [|done].
      injection Hs as <-. simpl in *. exists es'. split_and!; [done|done|].
      intros j Hj. rewrite Hb', Hbit by done. case_decide; [subst j; by rewrite Efn, bool_decide_true by lia|].
      by rewrite (bool_decide_ext (j < Z.of_nat (length l1)) (j < Z.of_nat (length l1 + 1))) by lia.
    + exists es. split_and!; [done|done|]. intros j Hj. rewrite Hbit by done.
      destruct (decide (j = i)) as [->|]; [by rewrite Efn, !andb_false_r|].
      by rewrite (bool_decide_ext (j < Z.of_nat (length l1)) (j < Z.of_nat (length l1 + 1))) by lia.
  - simpl. eexists. split_and!; [done|done|done|]. intros i Hi. rewrite Hbit by done.
    unfold len. rewrite length_seqZ, Z2Nat.id by lia. done.
Qed.

Lemma word_all_bits x : is_uint64 x → x = 0 ↔ ∀ j, 0 ≤ j < 64 → Z.testbit x j = false.
Proof.
  intros [Hx Hhi]%u64_bits. split; [intros -> j _; apply Z.bits_0|].
  intros Hj. apply Z.bits_inj'. intros j Hj0. rewrite Z.bits_0.
  destruct (decide (j < 64)); [apply Hj; lia|apply Hhi; lia].
Qed.

Lemma bit_of_word es w j : 0 ≤ w → 0 ≤ j < 64 → bit es (64 * w + j) = Z.testbit (word es w) j.
Proof.
  intros. unfold bit. rewrite Z.mul_comm, Z.add_comm, Z.div_add, Z.mod_add, Z.div_small, Z.mod_small by lia.
  done.
Qed.

Lemma IsEmpty_spec b : wf b → IsEmpty (Some b) = true ↔ ∀ i, 0 ≤ i → bit (Elems b) i = false.
Proof.
  intros [_ _ Hf]. simpl. rewrite forallb_forall. split.
  - intros Hz i Hi. unfold bit, word. destruct (Elems b !! _) as [e|] eqn:E; [|apply Z.bits_0].
    simpl. pose proof (Forall_lookup_1 _ _ _ _ Hf E).
    pose proof (Hz e (proj1 (list_elem_of_In _ _) (list_elem_of_lookup_2 _ _ _ E))).
    replace e with 0 by ulia. apply Z.bits_0.
  - intros Hz e He%list_elem_of_In%list_elem_of_lookup. destruct He as [k Hk].
    pose proof (Forall_lookup_1 _ _ _ _ Hf Hk). assert (e = 0) as ->; [|done].
    apply word_all_bits; [done|]. intros j Hj.
    rewrite <-(Hz (64 * Z.of_nat k + j)) by lia. rewrite bit_of_word by lia.
    unfold word. by rewrite Nat2Z.id, Hk.
Qed.

Lemma u64_not_zero x : is_uint64 x → u64_not x = 0 ↔ ∀ j, 0 ≤ j < 64 → Z.testbit x j = true.
Proof.
  intros Hx. rewrite word_all_bits by auto with u64. split; intros Hj j Hj0;
    specialize (Hj j Hj0); rewrite u64_not_testbit, bool_decide_true in * by done;
    destruct (Z.testbit x j); done.
Qed.

Lemma mod_pow2_full x k :
  0 ≤ k → (x + 1) mod 2 ^ k = 0 ↔ ∀ j, 0 ≤ j < k → Z.testbit x j = true.
Proof.
  intros Hk. pose proof (Z.pow_pos_nonneg 2 k). transitivity (x mod 2 ^ k = Z.ones k).
  - rewrite Z.ones_equiv. pose proof (Z.mod_pos_bound x (2 ^ k)).
    rewrite <-Z.add_mod_idemp_l by lia. destruct (decide (x mod 2 ^ k = 2 ^ k - 1)) as [->|].
    + replace (2 ^ k - 1 + 1) with (2 ^ k) by lia. rewrite Z.mod_same; lia.
    + rewrite Z.mod_small by lia. lia.
  - split.
    + intros Heq j Hj. rewrite <-(Z.mod_pow2_bits_low x k j) by lia. rewrite Heq.
      apply Z.ones_spec_low. lia.
    + intros Hb. apply Z.bits_inj'. intros j Hj. destruct (decide (j < k)).
      * rewrite Z.mod_pow2_bits_low by lia. rewrite Hb, Z.ones_spec_low by lia. done.
      * rewrite Z.mod_pow2_bits_high, Z.ones_spec_high by lia. done.
Qed.

Lemma last_word_mask k : 1 ≤ k ≤ 64 → uint64 (u64_shl 1 (uint64 k) - 1) = Z.ones k.
Proof.
  intros Hk. rewrite (uint64_id k) by ulia. destruct (decide (k = 64)) as [->|]; [done|].
  rewrite u64_shl_1 by lia. rewrite Z.ones_equiv. apply uint64_id.
  pose proof (Z.pow_pos_nonneg 2 k ltac:(lia) ltac:(lia)).
  pose proof (Z.pow_lt_mono_r 2 k 64 ltac:(lia) ltac:(lia) ltac:(lia)).
  unfold is_uint64. change 18446744073709551616 with (2 ^ 64). lia.
Qed.

Lemma IsFull_spec b :
  wf b → ∃ r, IsFull (Some b) = Ret r ∧ (r = true ↔ ∀ i, 0 ≤ i < Bits b → bit (Elems b) i = true).
Proof.
  intros Hwf. pose proof Hwf as [Hb Hl Hf]. pose proof (num_words_bounds _ Hb).
  set (n := num_words (Bits b)) in *. unfold IsFull.
  rewrite decide_False by (intros E; rewrite E in Hl; unfold len in Hl; simpl in Hl; lia).
  assert (Forall is_uint64 (take (length (Elems b) - 1) (Elems b))) as Hft by (by apply Forall_take).
  destruct (forallb _ _) eqn:Hall.
  - rewrite forallb_forall in Hall.
    destruct (slice_get_in_range (Elems b) (len (Elems b) - 1)) as (x & -> & Hx); [lia|]. simpl.
    eexists. split; [done|].
    replace (Z.rem (Bits b + 63) 64 + 1) with (Bits b - 64 * (n - 1)).
    2:{ rewrite Z.rem_mod_nonneg by lia. unfold n, num_words. rewrite Z.quot_div_nonneg by lia.
        pose proof (Z.div_mod (Bits b + 63) 64). lia. }
    rewrite last_word_mask by lia. rewrite Z.land_ones by lia. rewrite Z.eqb_eq.
    unfold uint64. change 18446744073709551616 with (2 ^ 64).
    rewrite Z.mod_mod_divide.
    2:{ exists (2 ^ (64 - (Bits b - 64 * (n - 1)))). rewrite <-Z.pow_add_r by lia. f_equal. lia. }
    rewrite mod_pow2_full by lia. pose proof (word_lookup _ _ _ Hx) as Hwx.
    split.
    + intros Hlast i Hi. pose proof (index_word i _ Hi) as Hiw. fold n in Hiw.
      pose proof (Z.div_mod i 64). pose proof (Z.mod_pos_bound i 64). unfold bit.
      destruct (decide (i / 64 = n - 1)) as [He|Hne].
      * rewrite He, <-Hl, Hwx. apply Hlast. lia.
      * pose proof (word_range (Elems b) (i / 64) Hf).
        apply u64_not_zero; [done| |lia]. apply Z.eqb_eq, Hall, list_elem_of_In.
        apply list_elem_of_lookup. exists (Z.to_nat (i / 64)). unfold len in *.
        rewrite lookup_take_lt by lia. unfold word.
        destruct (lookup_lt_is_Some_2 (Elems b) (Z.to_nat (i / 64))) as [y ->]; [lia|done].
    + intros Hbits j Hj. rewrite <-Hwx, <-bit_of_word by lia. apply Hbits. lia.
  - eexists. split; [done|]. split; [done|]. intros Hbits. exfalso.
    apply not_true_iff_false in Hall. apply Hall, forallb_forall.
    intros e He%list_elem_of_In%list_elem_of_lookup. destruct He as [k Hk].
    apply Z.eqb_eq, u64_not_zero; [by eapply Forall_lookup_1|]. intros j Hj.
    apply lookup_take_Some in Hk as [Hk Hlt]. unfold len in *.
    rewrite <-(word_lookup (Elems b) (Z.of_nat k) e) by (by rewrite Nat2Z.id).
    rewrite <-bit_of_word by lia. apply Hbits. lia.
Qed.

Lemma wf_ext b b' :
  wf b → wf b' → Bits b = Bits b' → (∀ i, 0 ≤ i → bit (Elems b) i = bit (Elems b') i) → b = b'.
Proof.
  intros [Hb Hl Hf] [Hb' Hl' Hf'] HB Hbit. destruct b as [n es], b' as [n' es']; simpl in *.
  subst n'. f_equal. apply (list_eq_same_length es es' (length es)); [unfold len in *; lia|done|].
  - intros k x y Hk Hx Hy.
    pose proof (Forall_lookup_1 _ _ _ _ Hf Hx) as [? Hxh]%u64_bits.
    pose proof (Forall_lookup_1 _ _ _ _ Hf' Hy) as [? Hyh]%u64_bits.
    apply Z.bits_inj'. intros j Hj. destruct (decide (j < 64)) as [Hlt|].
    + specialize (Hbit (64 * Z.of_nat k + j) ltac:(lia)).
      rewrite !bit_of_word in Hbit by lia. unfold word in Hbit.
      by rewrite Nat2Z.id, Hx, Hy in Hbit.
    + rewrite Hxh, Hyh by lia. done.
Qed.

Lemma MarshalJSON_spec b :
  wf b → MarshalJSON (Some b) =
    Ret (c_quote :: ((λ i, if bit (Elems b) i then c_x else c_underscore) <$> range (Bits b)) ++ [c_quote]).
Proof.
  intros Hwf. unfold MarshalJSON.
  destruct (for_each_ind
    (λ i acc, v ← getIndex b i; Ret (acc ++ [if v : bool then c_x else c_underscore]))
    (λ l1 acc, acc = (λ i, if bit (Elems b) i then c_x else c_underscore) <$> l1)
    (range (Bits b)) []) as (s & -> & ->); [done| |done].
  intros l1 i l2 s [Hi Hin]%range_split ->. rewrite getIndex_bit by done. simpl.
  eexists. split; [done|]. by rewrite fmap_app.
Qed.

Lemma json_match_quoted body :
  Forall (λ c, c = c_x ∨ c = c_underscore) body →
  json_match (c_quote :: body ++ [c_quote]) = Some body.
Proof.
  intros Hb. unfold json_match. rewrite last_snoc, decide_True by done.
  rewrite length_app. simpl. replace (length body + 1 - 1)%nat with (length body) by lia.
  rewrite take_app_length. replace (forallb _ body) with true; [done|].
  symmetry. apply forallb_forall. intros c Hc%list_elem_of_In.
  rewrite Forall_forall in Hb. apply bool_decide_eq_true. auto.
Qed.

Lemma UnmarshalJSON_quoted f n :
  0 < n → ∃ b, UnmarshalJSON (c_quote :: ((λ i, if f i : bool then c_x else c_underscore) <$> range n) ++ [c_quote])
    = Ret (Some b) ∧ wf b ∧ Bits b = n ∧ ∀ i, 0 ≤ i → bit (Elems b) i = bool_decide (i < n) && f i.
Proof.
  intros Hn. unfold UnmarshalJSON. rewrite decide_False by done. set (body := _ <$> _).
  assert (len body = n) as Hlen.
  { unfold len, body. rewrite length_fmap, length_seqZ. lia. }
  rewrite json_match_quoted.
  2:{ apply Forall_fmap, Forall_forall. intros i _. simpl. destruct (f i); auto. }
  destruct (NewBitArray_spec (len body)) as (b0 & -> & Hwf & HB & Hz); [lia|].
  rewrite Hlen in *.
  destruct (for_each_ind
    (λ i b, c ← slice_get body i;
       if decide (c = c_x) then '(b', _) ← setIndex b i true; Ret b' else Ret b)
    (λ l1 b, wf b ∧ Bits b = n ∧ ∀ i, 0 ≤ i → bit (Elems b) i = bool_decide (i < len l1) && f i)
    (range n) b0) as (b & -> & Hb & HBb & Hbit).
  - split_and!; [done..|]. intros i Hi. rewrite Hz, bool_decide_false by (unfold len; simpl; lia). done.
  - intros l1 i l2 b [Hi Hin]%range_split (Hb & HBb & Hbit).
    assert (slice_get body i = Ret (if f i then c_x else c_underscore)) as ->.
    { apply slice_get_ret. split; [lia|]. unfold body. rewrite list_lookup_fmap.
      rewrite lookup_seqZ_lt by lia. simpl. by rewrite Z2Nat.id by lia. }
    simpl. unfold len in *. rewrite length_app. simpl. destruct (f i) eqn:Ef.
    + rewrite decide_True by done.
      destruct (setIndex_bit b i true Hb) as (b' & -> & Hwf' & HB' & Hb'); [lia|]. simpl.
      exists b'. split_and!; [done|done|lia|]. intros j Hj. rewrite Hb', Hbit by done.
      case_decide; [subst j; by rewrite Ef, bool_decide_true by lia|].
      by rewrite (bool_decide_ext (j < Z.of_nat (length l1)) (j < Z.of_nat (length l1 + 1))) by lia.
    + rewrite decide_False by done. exists b. split_and!; [done|done|done|].
      intros j Hj. rewrite Hbit by done.
      destruct (decide (j = i)) as [->|]; [by rewrite Ef, !andb_false_r|].
      by rewrite (bool_decide_ext (j < Z.of_nat (length l1)) (j < Z.of_nat (length l1 + 1))) by lia.
  - simpl. exists b. split_and!; [done..|]. intros i Hi. rewrite Hbit by done.
    unfold len. rewrite length_seqZ, Z2Nat.id by lia. done.
Qed.

(** ** Properties *)

(** [And], [Sub] and [Not] never panic on well-formed arrays and compute
    the bitwise conjunction (on the shorter length), difference and
    complement; the argument of [Sub] is padded with zeroes. *)
Theorem bitwise_ops_refine b o :
  wf b → wf o →
  (∃ c, And (Some b) (Some o) = Ret (Some c) ∧ wf c ∧ Bits c = Z.min (Bits b) (Bits o) ∧
     ∀ i, 0 ≤ i < Bits c → bit (Elems c) i = bit (Elems b) i && bit (Elems o) i) ∧
  (∃ c, Sub (Some b) (Some o) = Ret (Some c) ∧ wf c ∧ Bits c = Bits b ∧
     ∀ i, 0 ≤ i < Bits b → bit (Elems c) i = bit (Elems b) i && negb (bit (Elems o) i)) ∧
  (∃ c, Not (Some b) = Some c ∧ wf c ∧ Bits c = Bits b ∧
     ∀ i, 0 ≤ i < Bits b → bit (Elems c) i = negb (bit (Elems b) i)).
Proof.
  intros Hb Ho. split_and!.
  - destruct (and_spec b o Hb Ho) as (c & Hc & Hrest). exists c. unfold And. by rewrite Hc.
  - by apply Sub_spec.
  - exists (not_ b). destruct (not_spec b Hb). done.
Qed.

Definition example_short : BitArray := mkBitArray 5 [22].
Definition example_long : BitArray := mkBitArray 70 [3; 33].

(** Well-formedness of a concrete array. *)
Ltac solve_wf :=
  split; [done|done|]; simpl; repeat (constructor; [ulia|]); constructor.

Lemma clean_one_word n e : 0 ≤ e ∧ 0 ≤ n → Z.log2 e < n ∧ n ≤ 64 → clean (mkBitArray n [e]).
Proof.
  intros Hn He i Hi. simpl in *. pose proof (Z.div_pos i 64). unfold bit.
  destruct (decide (i / 64 = 0)) as [E|E].
  - rewrite E. pose proof (Z.div_mod i 64). change (word [e] 0) with e.
    apply Z.bits_above_log2; lia.
  - rewrite word_ge; [apply Z.bits_0|]. change (len [e]) with 1. lia.
Qed.

Lemma example_short_wf : wf example_short.
Proof. solve_wf. Qed.
Lemma example_long_wf : wf example_long.
Proof. solve_wf. Qed.

Lemma bitwise_ops_refine_witness :
  ∃ c, And (Some example_short) (Some example_long) = Ret (Some c) ∧ Bits c = 5.
Proof.
  destruct (bitwise_ops_refine example_short example_long example_short_wf example_long_wf)
    as [(c & Hc & _ & HB & _) _].
  exists c. split; [exact Hc|exact HB].
Defined.

(** [Or] of well-formed arrays has the length of the longer one, but it
    merges only the words the receiver has: a bit of the argument at or past
    [64 * num_words (Bits b)] is dropped, although the documentation promises
    that the shorter array is padded with zeroes. *)
Theorem Or_drops_long_argument b o :
  wf b → wf o →
  ∃ c, Or (Some b) (Some o) = Ret (Some c) ∧ wf c ∧ Bits c = Z.max (Bits b) (Bits o) ∧
    (∀ i, 0 ≤ i < Bits c → i < 64 * num_words (Bits b) →
       bit (Elems c) i = bit (Elems b) i || bit (Elems o) i) ∧
    (∀ i, 64 * num_words (Bits b) ≤ i < Bits o → bit (Elems c) i = false).
Proof.
  intros Hb Ho. destruct (Or_spec b o Hb Ho) as (c & Hc & Hwf & HB & Hbit).
  exists c. split_and!; [done..| |].
  - intros i Hi Hlt. rewrite Hbit, bool_decide_true by done. done.
  - intros i Hi. pose proof (num_words_bounds _ (wf_bits b Hb)).
    rewrite Hbit, bool_decide_false by lia. rewrite orb_false_r. unfold bit.
    rewrite word_ge; [apply Z.bits_0|]. rewrite (wf_len b Hb).
    pose proof (Z.div_le_lower_bound i 64 (num_words (Bits b))). lia.
Qed.

Lemma Or_drops_long_argument_witness :
  ∃ c, Or (Some example_short) (Some example_long) = Ret (Some c) ∧
       bit (Elems example_long) 69 = true ∧ bit (Elems c) 69 = false.
Proof.
  destruct (Or_drops_long_argument example_short example_long example_short_wf example_long_wf)
    as (c & Hc & _ & _ & _ & Hdrop).
  exists c. split; [exact Hc|]. split; [reflexivity|]. apply Hdrop. vm_compute. split; congruence.
Defined.

(** [PickRandom], for any generator with [0 <= Intn n < n], returns an
    index inside the array whose bit is set whenever there is one, and reports
    failure exactly when every bit is clear; bits past the end of the array
    (as [Not] leaves them) never matter. *)
Theorem PickRandom_picks_set_bit intn b :
  wf b → (∀ n, 0 < n → 0 ≤ intn n < n) →
  (∃ i, PickRandom intn (Some b) = Ret (i, true) ∧ 0 ≤ i < Bits b ∧ bit (Elems b) i = true) ∨
  (PickRandom intn (Some b) = Ret (0, false) ∧ ∀ i, 0 ≤ i < Bits b → bit (Elems b) i = false).
Proof.
  intros Hwf Hintn. destruct (PickRandom_spec intn b Hwf Hintn) as [[Hnil Hp]|(i & Hi & Hp)].
  - right. split; [done|]. intros i Hi. destruct (bit (Elems b) i) eqn:E; [|done].
    assert (i ∈ true_indices b) as Hin.
    { apply list_elem_of_filter. split; [by rewrite E|by apply elem_of_seqZ]. }
    rewrite Hnil in Hin. by apply elem_of_nil in Hin.
  - left. exists i. apply list_elem_of_filter in Hi as [Hb Hi%elem_of_seqZ].
    split_and!; [done|lia|lia|]. by apply Is_true_true.
Qed.

Lemma PickRandom_picks_set_bit_witness :
  ∃ i, PickRandom (λ n, n - 1) (Some example_long) = Ret (i, true) ∧ 0 ≤ i < 70.
Proof.
  destruct (PickRandom_picks_set_bit (λ n, n - 1) example_long example_long_wf) as [(i & Hi & Hr & _)|[Hf _]].
  - intros n Hn. lia.
  - exists i. split; [exact Hi|exact Hr].
  - vm_compute in Hf. discriminate Hf.
Defined.

(** JSON round trip: an array whose unused bits are clear is recovered
    exactly from its own encoding. *)
Theorem json_roundtrip b :
  wf b → clean b →
  ∃ bz, MarshalJSON (Some b) = Ret bz ∧ UnmarshalJSON bz = Ret (Some b).
Proof.
  intros Hwf Hclean. eexists. split; [by apply MarshalJSON_spec|].
  destruct (UnmarshalJSON_quoted (bit (Elems b)) (Bits b)) as (b' & -> & Hwf' & HB & Hbit);
    [apply Hwf|]. do 2 f_equal. apply wf_ext; [done..|].
  intros i Hi. rewrite Hbit by done. case_bool_decide; [done|]. symmetry. apply Hclean. lia.
Qed.

Lemma json_roundtrip_witness :
  ∃ bz, MarshalJSON (Some example_short) = Ret bz ∧ UnmarshalJSON bz = Ret (Some example_short).
Proof.
  apply json_roundtrip; [exact example_short_wf|].
  apply clean_one_word; vm_compute; split; congruence.
Defined.

(** [IsFull] holds exactly when every bit of the array is set, and
    [IsEmpty] exactly when every bit of every word is clear, the bits past the
    end included. *)
Theorem IsFull_IsEmpty_spec b :
  wf b →
  (∃ r, IsFull (Some b) = Ret r ∧ (r = true ↔ ∀ i, 0 ≤ i < Bits b → bit (Elems b) i = true)) ∧
  (IsEmpty (Some b) = true ↔ ∀ i, 0 ≤ i → bit (Elems b) i = false).
Proof. intros Hwf. split; [by apply IsFull_spec|by apply IsEmpty_spec]. Qed.

Lemma IsFull_IsEmpty_spec_witness : ∃ r, IsFull (Some example_short) = Ret r.
Proof.
  destruct (IsFull_IsEmpty_spec example_short example_short_wf) as [(r & Hr & _) _].
  exists r. exact Hr.
Defined.

(** [IsEmpty] does not decide whether the array has no set bit: the
    complement of a full array whose length is not a multiple of 64 has every
    bit clear, and [IsEmpty] answers false. *)
Theorem IsEmpty_Not_full b :
  wf b → Bits b mod 64 ≠ 0 → (∀ i, 0 ≤ i < Bits b → bit (Elems b) i = true) → clean b →
  (∀ i, 0 ≤ i < Bits b → bit (Elems (not_ b)) i = false) ∧ IsEmpty (Not (Some b)) = false.
Proof.
  intros Hwf Hmod Hfull Hclean. destruct (not_spec b Hwf) as [Hwf' Hnot]. split.
  { intros i Hi. by rewrite Hnot, Hfull. }
  apply not_true_iff_false. intros He. apply (IsEmpty_spec (not_ b) Hwf') with (i := Bits b) in He;
    [|destruct Hwf; lia].
  pose proof (Hclean (Bits b) ltac:(lia)) as Hc. unfold bit in He, Hc. simpl in He.
  pose proof (num_words_bounds _ (wf_bits b Hwf)). pose proof (Z.div_mod (Bits b) 64).
  pose proof (Z.mod_pos_bound (Bits b) 64). rewrite word_fmap in He by (right; rewrite (wf_len b Hwf); lia).
  rewrite u64_not_testbit, Hc, bool_decide_true in He by lia. done.
Qed.

Lemma IsEmpty_Not_full_witness : IsEmpty (Not (Some (mkBitArray 3 [7]))) = false.
Proof.
  apply (IsEmpty_Not_full (mkBitArray 3 [7])).
  - solve_wf.
  - vm_compute. discriminate.
  - intros i Hi. simpl in Hi. assert (i = 0 ∨ i = 1 ∨ i = 2) as [-> | [-> | -> ] ] by lia; reflexivity.
  - apply clean_one_word; vm_compute; split; congruence.
Defined.
