(* ===== verification/SafeMath.v ===== *)
(** * Overflow-checked integer arithmetic

    Models [safeAdd], [safeSub], [safeAddClip], [safeSubClip] and [safeMul] of
    [src/hetu-cometbft/types/validator_set.go] and the [int32] helpers of
    [src/hetu-cometbft/libs/math/safemath.go].  Every machine operation the
    code performs is wrapped. *)
From S2P Require Import Prelude.

Definition safeAdd (a b : Z) : Z * bool :=
  if (0 <? b) && (int64 (MaxInt64 - b) <? a) then (-1, true)
  else if (b <? 0) && (a <? int64 (MinInt64 - b)) then (-1, true)
  else (int64 (a + b), false).

Definition safeSub (a b : Z) : Z * bool :=
  if (0 <? b) && (a <? int64 (MinInt64 + b)) then (-1, true)
  else if (b <? 0) && (int64 (MaxInt64 + b) <? a) then (-1, true)
  else (int64 (a - b), false).

Definition safeAddClip (a b : Z) : Z :=
  let '(c, overflow) := safeAdd a b in
  if overflow then (if b <? 0 then MinInt64 else MaxInt64) else c.

Definition safeSubClip (a b : Z) : Z :=
  let '(c, overflow) := safeSub a b in
  if overflow then (if 0 <? b then MinInt64 else MaxInt64) else c.

Definition safeMul (a b : Z) : Z * bool :=
  if (a =? 0) || (b =? 0) then (0, false)
  else
    let absOfB := if b <? 0 then int64 (- b) else b in
    let absOfA := if a <? 0 then int64 (- a) else a in
    if int64 (Z.quot MaxInt64 absOfB) <? absOfA then (0, true)
    else (int64 (a * b), false).

Definition SafeAddInt32 (a b : Z) : outcome Z :=
  if (0 <? b) && (int32 (MaxInt32 - b) <? a) then Panic "int32 overflow"
  else if (b <? 0) && (a <? int32 (MinInt32 - b)) then Panic "int32 overflow"
  else Ret (int32 (a + b)).

Definition SafeSubInt32 (a b : Z) : outcome Z :=
  if (0 <? b) && (a <? int32 (MinInt32 + b)) then Panic "int32 overflow"
  else if (b <? 0) && (int32 (MaxInt32 + b) <? a) then Panic "int32 overflow"
  else Ret (int32 (a - b)).

Definition SafeConvertInt32 (a : Z) : outcome Z :=
  if MaxInt32 <? a then Panic "int32 overflow"
  else if a <? MinInt32 then Panic "int32 overflow"
  else Ret (int32 a).

(** ** Saturation *)

Definition clamp64 (z : Z) : Z := Z.max MinInt64 (Z.min z MaxInt64).

Ltac split_ifs :=
  repeat match goal with
  | |- context [if ?b then _ else _] => destruct b eqn:?
  end.

Lemma safeAddClip_clamp a b : is_int64 a → is_int64 b → safeAddClip a b = clamp64 (a + b).
Proof.
  intros Ha Hb. unfold safeAddClip, safeAdd, clamp64.
  destruct (Z.ltb_spec 0 b); destruct (Z.ltb_spec b 0); try lia; simpl;
    rewrite ?(int64_id (MaxInt64 - b)), ?(int64_id (MinInt64 - b)) by ulia.
  - destruct (Z.ltb_spec (MaxInt64 - b) a); simpl; [ulia|]. rewrite int64_id; ulia.
  - destruct (Z.ltb_spec a (MinInt64 - b)); simpl; [ulia|]. rewrite int64_id; ulia.
  - rewrite int64_id; ulia.
Qed.

Lemma safeSubClip_clamp a b : is_int64 a → is_int64 b → safeSubClip a b = clamp64 (a - b).
Proof.
  intros Ha Hb. unfold safeSubClip, safeSub, clamp64.
  destruct (Z.ltb_spec 0 b); destruct (Z.ltb_spec b 0); try lia; simpl;
    rewrite ?(int64_id (MinInt64 + b)), ?(int64_id (MaxInt64 + b)) by ulia.
  - destruct (Z.ltb_spec a (MinInt64 + b)); simpl; [ulia|]. rewrite int64_id; ulia.
  - destruct (Z.ltb_spec (MaxInt64 + b) a); simpl; [ulia|]. rewrite int64_id; ulia.
  - rewrite int64_id; ulia.
Qed.

Lemma clamp64_id z : is_int64 z → clamp64 z = z.
Proof. unfold clamp64. ulia. Qed.
Lemma clamp64_range z : is_int64 (clamp64 z).
Proof. unfold clamp64. ulia. Qed.

(** [safeMul] is exact unless it reports an overflow. *)
Lemma safeMul_exact a b c :
  is_int64 a → is_int64 b → a ≠ MinInt64 → b ≠ MinInt64 →
  safeMul a b = (c, false) → c = a * b ∧ is_int64 (a * b).
Proof.
  intros Ha Hb Ha' Hb'. unfold safeMul.
  destruct (Z.eqb_spec a 0) as [->|Ha0]; simpl; [intros [= <-]; ulia|].
  destruct (Z.eqb_spec b 0) as [->|Hb0]; simpl; [intros [= <-]; ulia|].
  assert ((if b <? 0 then int64 (- b) else b) = Z.abs b) as ->.
  { destruct (Z.ltb_spec b 0); rewrite ?int64_id; ulia. }
  assert ((if a <? 0 then int64 (- a) else a) = Z.abs a) as ->.
  { destruct (Z.ltb_spec a 0); rewrite ?int64_id; ulia. }
  rewrite Z.quot_div_nonneg by ulia.
  assert (0 ≤ MaxInt64 / Z.abs b ≤ MaxInt64).
  { split; [apply Z.div_pos; ulia|]. apply Z.div_le_upper_bound; ulia || nia. }
  rewrite (int64_id (MaxInt64 / _)) by ulia.
  destruct (Z.ltb_spec (MaxInt64 / Z.abs b) (Z.abs a)) as [|Hle]; [done|].
  assert (is_int64 (a * b)) as Hr.
  { assert (Z.abs a * Z.abs b ≤ MaxInt64).
    { pose proof (Z.mul_div_le MaxInt64 (Z.abs b)). nia. }
    rewrite <-Z.abs_mul in *. ulia. }
  rewrite int64_id by done. intros [= <-]. done.
Qed.

(** The product with a positive total that fits reports no overflow. *)
Lemma safeMul_fits a b :
  is_int64 a → is_int64 b → 0 ≤ a → 0 ≤ b → a * b ≤ MaxInt64 → safeMul a b = (a * b, false).
Proof.
  intros Ha Hb Ha0 Hb0 Hle. unfold safeMul.
  destruct (Z.eqb_spec a 0) as [->|]; simpl; [done|].
  destruct (Z.eqb_spec b 0) as [->|]; simpl; [by rewrite Z.mul_0_r|].
  replace (b <? 0) with false by lia. replace (a <? 0) with false by lia.
  rewrite Z.quot_div_nonneg by ulia.
  assert (a ≤ MaxInt64 / b) by (apply Z.div_le_lower_bound; nia).
  assert (MaxInt64 / b ≤ MaxInt64) by (apply Z.div_le_upper_bound; ulia || nia).
  rewrite int64_id by ulia. destruct (Z.ltb_spec (MaxInt64 / b) a); [lia|].
  by rewrite int64_id by ulia.
Qed.
