(* ===== verification/Vote.v ===== *)
(** * Block identifiers, votes and commits

    Models the data of [src/hetu-cometbft/types/block.go] (BlockID, CommitSig,
    Commit, ExtendedCommit), [types/part_set.go] (PartSetHeader) and
    [types/vote.go] (Vote), their checks and their conversions.  The
    generated protocol buffer structs have the same fields and are the same
    records here. *)
From S2P Require Import Prelude.
From S2P Require Import Proto.

(** ** Constants *)

Definition tmhash_Size : Z := 32.
Definition AddressSize : Z := 20.
Definition MaxSignatureSize : Z := 64.
Definition MaxVoteExtensionSize : Z := 1024 * 1024.

(** The values of [cmtproto.SignedMsgType]. *)
Definition UnknownType : Z := 0.
Definition PrevoteType : Z := 1.
Definition PrecommitType : Z := 2.
Definition ProposalType : Z := 32.

Definition IsVoteTypeValid (t : Z) : bool := (t =? PrevoteType) || (t =? PrecommitType).

(** A [time.Time] in UTC: seconds since the Unix epoch and nanoseconds.  The
    zero time is January 1 of year 1. *)
Record Time := mkTime { Seconds : Z; Nanos : Z }.
Definition zeroTime : Time := mkTime (-62135596800) 0.
#[export] Instance Time_eq_dec : EqDecision Time.
Proof. solve_decision. Defined.

(** ** PartSetHeader and BlockID *)

Record PartSetHeader := mkPartSetHeader { Total : Z; PartsHash : bytes }.
#[export] Instance PartSetHeader_eq_dec : EqDecision PartSetHeader.
Proof. solve_decision. Defined.

Definition ValidateHash (h : bytes) : bool := negb ((0 <? len h) && negb (len h =? tmhash_Size)).

Definition PartSetHeader_IsZero (psh : PartSetHeader) : bool :=
  (Total psh =? 0) && (len (PartsHash psh) =? 0).
Definition PartSetHeader_Equals (psh other : PartSetHeader) : bool :=
  (Total psh =? Total other) && bool_decide (PartsHash psh = PartsHash other).
Definition PartSetHeader_ValidateBasic (psh : PartSetHeader) : bool := ValidateHash (PartsHash psh).
Definition PartSetHeader_Marshal (psh : PartSetHeader) : bytes :=
  varint_field x08 (Total psh) ++ bytes_field x12 (PartsHash psh).

Record BlockID := mkBlockID { BlockHash : bytes; BlockParts : PartSetHeader }.
#[export] Instance BlockID_eq_dec : EqDecision BlockID.
Proof. solve_decision. Defined.

(** The zero value: the identifier a vote for nil carries. *)
Definition nilBlockID : BlockID := mkBlockID [] (mkPartSetHeader 0 []).

Definition BlockID_Equals (blockID other : BlockID) : bool :=
  bool_decide (BlockHash blockID = BlockHash other) && PartSetHeader_Equals (BlockParts blockID) (BlockParts other).
Definition BlockID_Key (blockID : BlockID) : bytes := BlockHash blockID ++ PartSetHeader_Marshal (BlockParts blockID).
Definition BlockID_ValidateBasic (blockID : BlockID) : bool :=
  ValidateHash (BlockHash blockID) && PartSetHeader_ValidateBasic (BlockParts blockID).
Definition BlockID_IsZero (blockID : BlockID) : bool :=
  (len (BlockHash blockID) =? 0) && PartSetHeader_IsZero (BlockParts blockID).
Definition BlockID_IsComplete (blockID : BlockID) : bool :=
  (len (BlockHash blockID) =? tmhash_Size) && (0 <? Total (BlockParts blockID)) &&
  (len (PartsHash (BlockParts blockID)) =? tmhash_Size).

(** [BlockIDFromProto]: the same fields, or an error. *)
Definition BlockIDFromProto (bID : BlockID) : option BlockID :=
  if PartSetHeader_ValidateBasic (BlockParts bID) && BlockID_ValidateBasic bID then Some bID else None.

(** ** Votes *)

Record Vote := mkVote {
  vote_Type : Z;
  vote_Height : Z;
  vote_Round : Z;
  vote_BlockID : BlockID;
  vote_Timestamp : Time;
  ValidatorAddress : bytes;
  ValidatorIndex : Z;
  vote_Signature : bytes;
  vote_Extension : bytes;
  vote_ExtensionSignature : bytes;
}.
#[export] Instance Vote_eq_dec : EqDecision Vote.
Proof. solve_decision. Defined.

Inductive vote_basic_error :=
| ErrInvalidType
| ErrHeightNotPositive
| ErrNegativeRound
| ErrWrongBlockID
| ErrBlockIDIncomplete
| ErrAddressSize
| ErrNegativeIndex
| ErrNoSignature
| ErrSignatureTooBig
| ErrUnexpectedExtension
| ErrUnexpectedExtensionSignature
| ErrExtensionSignatureTooBig
| ErrExtensionUnsigned.

Definition Vote_ValidateBasic (vote : Vote) : option vote_basic_error :=
  let isNil := BlockID_IsZero (vote_BlockID vote) in
  if negb (IsVoteTypeValid (vote_Type vote)) then Some ErrInvalidType
  else if vote_Height vote <=? 0 then Some ErrHeightNotPositive
  else if vote_Round vote <? 0 then Some ErrNegativeRound
  else if negb (BlockID_ValidateBasic (vote_BlockID vote)) then Some ErrWrongBlockID
  else if negb isNil && negb (BlockID_IsComplete (vote_BlockID vote)) then Some ErrBlockIDIncomplete
  else if negb (len (ValidatorAddress vote) =? AddressSize) then Some ErrAddressSize
  else if ValidatorIndex vote <? 0 then Some ErrNegativeIndex
  else if len (vote_Signature vote) =? 0 then Some ErrNoSignature
  else if MaxSignatureSize <? len (vote_Signature vote) then Some ErrSignatureTooBig
  else if negb (vote_Type vote =? PrecommitType) || isNil then
    if 0 <? len (vote_Extension vote) then Some ErrUnexpectedExtension
    else if 0 <? len (vote_ExtensionSignature vote) then Some ErrUnexpectedExtensionSignature
    else None
  else if MaxSignatureSize <? len (vote_ExtensionSignature vote) then Some ErrExtensionSignatureTooBig
  else if (len (vote_ExtensionSignature vote) =? 0) && negb (len (vote_Extension vote) =? 0)
  then Some ErrExtensionUnsigned
  else None.

(** [EnsureExtension]: true stands for [nil], false for [ErrVoteExtensionAbsent]. *)
Definition Vote_EnsureExtension (vote : Vote) : bool :=
  negb (vote_Type vote =? PrecommitType) || BlockID_IsZero (vote_BlockID vote) ||
  (0 <? len (vote_ExtensionSignature vote)).

(** ** Commit signatures *)

Definition BlockIDFlagAbsent : Z := 1.
Definition BlockIDFlagCommit : Z := 2.
Definition BlockIDFlagNil : Z := 3.

Record CommitSig := mkCommitSig {
  cs_BlockIDFlag : Z;
  cs_ValidatorAddress : bytes;
  cs_Timestamp : Time;
  cs_Signature : bytes;
}.

Definition NewCommitSigAbsent : CommitSig := mkCommitSig BlockIDFlagAbsent [] zeroTime [].

Definition CommitSig_BlockID (cs : CommitSig) (commitBlockID : BlockID) : outcome BlockID :=
  if cs_BlockIDFlag cs =? BlockIDFlagAbsent then Ret nilBlockID
  else if cs_BlockIDFlag cs =? BlockIDFlagCommit then Ret commitBlockID
  else if cs_BlockIDFlag cs =? BlockIDFlagNil then Ret nilBlockID
  else Panic "Unknown BlockIDFlag".

Inductive commit_sig_error :=
| ErrUnknownFlag
| ErrAddressPresent
| ErrTimePresent
| ErrSignaturePresent
| ErrSigAddressSize
| ErrSigMissing
| ErrSigTooBig.

Definition CommitSig_ValidateBasic (cs : CommitSig) : option commit_sig_error :=
  if negb ((cs_BlockIDFlag cs =? BlockIDFlagAbsent) || (cs_BlockIDFlag cs =? BlockIDFlagCommit)
           || (cs_BlockIDFlag cs =? BlockIDFlagNil)) then Some ErrUnknownFlag
  else if cs_BlockIDFlag cs =? BlockIDFlagAbsent then
    if negb (len (cs_ValidatorAddress cs) =? 0) then Some ErrAddressPresent
    else if negb (bool_decide (cs_Timestamp cs = zeroTime)) then Some ErrTimePresent
    else if negb (len (cs_Signature cs) =? 0) then Some ErrSignaturePresent
    else None
  else
    if negb (len (cs_ValidatorAddress cs) =? AddressSize) then Some ErrSigAddressSize
    else if len (cs_Signature cs) =? 0 then Some ErrSigMissing
    else if MaxSignatureSize <? len (cs_Signature cs) then Some ErrSigTooBig
    else None.

(** [vote.CommitSig()]; a nil vote is [None]. *)
Definition Vote_CommitSig (vote : option Vote) : outcome CommitSig :=
  match vote with
  | None => Ret NewCommitSigAbsent
  | Some vote =>
      flag ← (if BlockID_IsComplete (vote_BlockID vote) then Ret BlockIDFlagCommit
              else if BlockID_IsZero (vote_BlockID vote) then Ret BlockIDFlagNil
              else Panic "Invalid vote - expected BlockID to be either empty or complete");
      Ret (mkCommitSig flag (ValidatorAddress vote) (vote_Timestamp vote) (vote_Signature vote))
  end.

Record ExtendedCommitSig := mkExtendedCommitSig {
  ecs_CommitSig : CommitSig;
  ecs_Extension : bytes;
  ecs_ExtensionSignature : bytes;
}.

Definition NewExtendedCommitSigAbsent : ExtendedCommitSig := mkExtendedCommitSig NewCommitSigAbsent [] [].

Definition Vote_ExtendedCommitSig (vote : option Vote) : outcome ExtendedCommitSig :=
  match vote with
  | None => Ret NewExtendedCommitSigAbsent
  | Some v => cs ← Vote_CommitSig vote; Ret (mkExtendedCommitSig cs (vote_Extension v) (vote_ExtensionSignature v))
  end.

Inductive ext_sig_error :=
| ErrCommitSig (e : commit_sig_error)
| ErrExtensionTooBig
| ErrExtSignatureTooBig
| ErrExtSignatureAbsent.

Definition ExtendedCommitSig_ValidateBasic (ecs : ExtendedCommitSig) : option ext_sig_error :=
  match CommitSig_ValidateBasic (ecs_CommitSig ecs) with
  | Some e => Some (ErrCommitSig e)
  | None =>
      if cs_BlockIDFlag (ecs_CommitSig ecs) =? BlockIDFlagCommit then
        if MaxVoteExtensionSize <? len (ecs_Extension ecs) then Some ErrExtensionTooBig
        else if MaxSignatureSize <? len (ecs_ExtensionSignature ecs) then Some ErrExtSignatureTooBig
        else None
      else if (len (ecs_ExtensionSignature ecs) =? 0) && negb (len (ecs_Extension ecs) =? 0)
      then Some ErrExtSignatureAbsent
      else None
  end.

(** [EnsureExtension]: true stands for a nil error. *)
Definition ExtendedCommitSig_EnsureExtension (ecs : ExtendedCommitSig) (extEnabled : bool) : bool :=
  let isCommit := cs_BlockIDFlag (ecs_CommitSig ecs) =? BlockIDFlagCommit in
  if extEnabled then
    negb (isCommit && (len (ecs_ExtensionSignature ecs) =? 0)) &&
    negb (negb isCommit && negb (len (ecs_Extension ecs) =? 0)) &&
    negb (negb isCommit && negb (len (ecs_ExtensionSignature ecs) =? 0))
  else (len (ecs_Extension ecs) =? 0) && (len (ecs_ExtensionSignature ecs) =? 0).

(** ** Commits *)

Record Commit := mkCommit {
  commit_Height : Z;
  commit_Round : Z;
  commit_BlockID : BlockID;
  commit_Signatures : list CommitSig;
}.

(** The vote the signature at [valIdx] stands for. *)
Definition Commit_GetVote (commit : Commit) (valIdx : Z) : outcome Vote :=
  commitSig ← slice_get (commit_Signatures commit) valIdx;
  blockID ← CommitSig_BlockID commitSig (commit_BlockID commit);
  Ret (mkVote PrecommitType (commit_Height commit) (commit_Round commit) blockID (cs_Timestamp commitSig)
         (cs_ValidatorAddress commitSig) valIdx (cs_Signature commitSig) [] []).

Definition Commit_Size (commit : option Commit) : Z :=
  match commit with None => 0 | Some commit => len (commit_Signatures commit) end.

Inductive commit_error :=
| ErrCommitHeight
| ErrCommitRound
| ErrCommitNilBlock
| ErrCommitNoSignatures
| ErrCommitSigAt (i : Z) (e : commit_sig_error).

Fixpoint first_bad_sig (i : Z) (sigs : list CommitSig) : option commit_error :=
  match sigs with
  | [] => None
  | cs :: sigs => match CommitSig_ValidateBasic cs with
                  | Some e => Some (ErrCommitSigAt i e)
                  | None => first_bad_sig (i + 1) sigs
                  end
  end.

Definition Commit_ValidateBasic (commit : Commit) : option commit_error :=
  if commit_Height commit <? 0 then Some ErrCommitHeight
  else if commit_Round commit <? 0 then Some ErrCommitRound
  else if 1 <=? commit_Height commit then
    if BlockID_IsZero (commit_BlockID commit) then Some ErrCommitNilBlock
    else if len (commit_Signatures commit) =? 0 then Some ErrCommitNoSignatures
    else first_bad_sig 0 (commit_Signatures commit)
  else None.

Record ExtendedCommit := mkExtendedCommit {
  ec_Height : Z;
  ec_Round : Z;
  ec_BlockID : BlockID;
  ec_ExtendedSignatures : list ExtendedCommitSig;
}.

Definition WrappedExtendedCommit (commit : Commit) : ExtendedCommit :=
  mkExtendedCommit (commit_Height commit) (commit_Round commit) (commit_BlockID commit)
    ((λ s, mkExtendedCommitSig s [] []) <$> commit_Signatures commit).

Definition ExtendedCommit_EnsureExtensions (ec : ExtendedCommit) (extEnabled : bool) : bool :=
  forallb (λ ecs, ExtendedCommitSig_EnsureExtension ecs extEnabled) (ec_ExtendedSignatures ec).

Definition ToCommit (ec : ExtendedCommit) : Commit :=
  mkCommit (ec_Height ec) (ec_Round ec) (ec_BlockID ec) (ecs_CommitSig <$> ec_ExtendedSignatures ec).

Definition GetExtendedVote (ec : ExtendedCommit) (valIndex : Z) : outcome Vote :=
  ecs ← slice_get (ec_ExtendedSignatures ec) valIndex;
  blockID ← CommitSig_BlockID (ecs_CommitSig ecs) (ec_BlockID ec);
  Ret (mkVote PrecommitType (ec_Height ec) (ec_Round ec) blockID (cs_Timestamp (ecs_CommitSig ecs))
         (cs_ValidatorAddress (ecs_CommitSig ecs)) valIndex (cs_Signature (ecs_CommitSig ecs))
         (ecs_Extension ecs) (ecs_ExtensionSignature ecs)).

(** The error is that of the first bad signature, without its position. *)
Definition ExtendedCommit_ValidateBasic (ec : ExtendedCommit) : bool :=
  negb (ec_Height ec <? 0) && negb (ec_Round ec <? 0) &&
  (negb (1 <=? ec_Height ec) ||
   (negb (BlockID_IsZero (ec_BlockID ec)) && negb (len (ec_ExtendedSignatures ec) =? 0) &&
    forallb (λ ecs, bool_decide (ExtendedCommitSig_ValidateBasic ecs = None)) (ec_ExtendedSignatures ec))).

(** ** Lemmas on identifiers *)

Lemma PartSetHeader_Equals_eq a b : PartSetHeader_Equals a b = true ↔ a = b.
Proof.
  unfold PartSetHeader_Equals. destruct a, b; simpl. rewrite andb_true_iff, Z.eqb_eq, bool_decide_eq_true.
  split; [by intros [-> ->]|by intros [= -> ->]].
Qed.

Lemma BlockID_Equals_eq a b : BlockID_Equals a b = true ↔ a = b.
Proof.
  unfold BlockID_Equals. destruct a, b; simpl. rewrite andb_true_iff, PartSetHeader_Equals_eq, bool_decide_eq_true.
  split; [by intros [-> ->]|by intros [= -> ->]].
Qed.

Lemma len_zero {A} (l : list A) : len l = 0 ↔ l = [].
Proof. destruct l; [done|]. rewrite len_cons. pose proof (len_nonneg l). split; [lia|done]. Qed.

Lemma BlockID_IsZero_nil b : BlockID_IsZero b = true ↔ b = nilBlockID.
Proof.
  unfold BlockID_IsZero, PartSetHeader_IsZero, nilBlockID. destruct b as [h [t p]]; simpl.
  rewrite !andb_true_iff, !Z.eqb_eq, !len_zero. split; [by intros (-> & -> & ->)|by intros [= -> -> ->]].
Qed.

(** A [uint32] total, as every header has. *)
Definition is_uint32 (z : Z) : Prop := 0 ≤ z < 4294967296.

(** What [Vote.ValidateBasic] asks of an identifier: nil or complete. *)
Definition good_id (b : BlockID) : Prop :=
  b = nilBlockID ∨ (BlockID_IsComplete b = true ∧ is_uint32 (Total (BlockParts b))).

Lemma good_id_valid b : good_id b → BlockID_ValidateBasic b = true.
Proof.
  unfold BlockID_ValidateBasic, PartSetHeader_ValidateBasic, ValidateHash.
  intros [->|[Hc _]]; [done|]. unfold BlockID_IsComplete in Hc. apply andb_true_iff in Hc as [[Hh _]%andb_true_iff Hp].
  rewrite Hh, Hp. by rewrite !andb_false_r.
Qed.

Lemma good_id_not_both b : good_id b → BlockID_IsComplete b = true → BlockID_IsZero b = false.
Proof.
  intros _ Hc. apply not_true_is_false. rewrite BlockID_IsZero_nil. intros ->. done.
Qed.

(** On such identifiers the key determines the identifier. *)
Lemma BlockID_Key_inj a b : good_id a → good_id b → BlockID_Key a = BlockID_Key b → a = b.
Proof.
  assert (∀ c, good_id c → c ≠ nilBlockID → length (BlockHash c) = 32%nat ∧ is_uint32 (Total (BlockParts c)) ∧
    short (PartsHash (BlockParts c))) as Hg.
  { intros c [->|[Hc Ht]] Hn; [done|]. unfold BlockID_IsComplete in Hc.
    rewrite !andb_true_iff, !Z.eqb_eq in Hc. unfold tmhash_Size, short in *. destruct Hc as [[Hh _] Hp].
    split; [unfold len in Hh; lia|]. split; [done|]. rewrite Hp. ulia. }
  intros Ha Hb Heq. destruct (decide (a = nilBlockID)) as [->|Hna], (decide (b = nilBlockID)) as [->|Hnb]; [done| | |].
  - destruct (Hg b Hb Hnb) as (Hl & _). unfold BlockID_Key in Heq. apply (f_equal length) in Heq.
    rewrite !length_app in Heq. simpl in Heq. lia.
  - destruct (Hg a Ha Hna) as (Hl & _). unfold BlockID_Key in Heq. apply (f_equal length) in Heq.
    rewrite !length_app in Heq. simpl in Heq. lia.
  - destruct (Hg a Ha Hna) as (Hla & Hta & Hsa), (Hg b Hb Hnb) as (Hlb & Htb & Hsb).
    unfold BlockID_Key in Heq. apply app_inj_1 in Heq as [Hh Hp]; [|lia]. unfold PartSetHeader_Marshal in Hp.
    unfold is_uint32 in *.
    rewrite <-(app_nil_r (bytes_field x12 (PartsHash (BlockParts a)))), <-(app_nil_r (bytes_field x12 (PartsHash (BlockParts b)))) in Hp.
    apply varint_field_inj in Hp as [Ht Hp]; [|ulia|ulia|solve_no_tag..].
    apply bytes_field_inj in Hp as [Hp _]; [|done|done|solve_no_tag..].
    destruct a as [ha [ta pa]], b as [hb [tb pb]]; simpl in *. congruence.
Qed.

(** ** Times and durations

    The operations of Go's [time] package that the code uses, on times as
    seconds and nanoseconds; a duration is a number of nanoseconds. *)

Definition second : Z := 1000000000.
Definition Millisecond : Z := 1000000.

(** [t.Add(d)] *)
Definition time_Add (t : Time) (d : Z) : Time :=
  mkTime (Seconds t + (Nanos t + d) / second) ((Nanos t + d) mod second).
(** [t.After(u)] *)
Definition time_After (t u : Time) : bool :=
  (Seconds u <? Seconds t) || (Seconds u =? Seconds t) && (Nanos u <? Nanos t).
(** [t.Sub(u)], which saturates *)
Definition time_Sub (t u : Time) : Z :=
  Z.max (- 2 ^ 63) (Z.min (2 ^ 63 - 1) ((Seconds t - Seconds u) * second + (Nanos t - Nanos u))).
Definition time_IsZero (t : Time) : bool := (Seconds t =? Seconds zeroTime) && (Nanos t =? 0).
(** [t.Before(u)] *)
Definition time_Before (t u : Time) : bool := time_After u t.
