(* ===== verification/Validator.v ===== *)
(** * Validators and the crypto interface

    Models [src/hetu-cometbft/types/validator.go] and the part of
    [src/hetu-cometbft/crypto/crypto.go] the consensus types use.  The
    signature schemes and SHA-256 are operations of the class [Crypto]: the
    implementations live in libraries outside the repository. *)
From S2P Require Import Prelude.

(** A [crypto.PubKey]: its [Type()] and its [Bytes()]. *)
Record PubKey := mkPubKey { Type_ : string; KeyBytes : bytes }.

#[export] Instance PubKey_eq_dec : EqDecision PubKey.
Proof. solve_decision. Defined.

(** What the consensus code asks of the crypto packages. *)
Class Crypto := {
  key_address : PubKey → bytes;                    (* PubKey.Address *)
  verify_signature : PubKey → bytes → bytes → bool; (* PubKey.VerifySignature *)
  sha256 : bytes → bytes;                          (* tmhash.Sum *)
}.

(** A [Validator]; a nil [PubKey] is [None]. *)
Record Validator := mkValidator {
  Address : bytes;
  PubKey_ : option PubKey;
  VotingPower : Z;
  ProposerPriority : Z;
}.

#[export] Instance Validator_eq_dec : EqDecision Validator.
Proof. solve_decision. Defined.

Definition set_priority (v : Validator) (p : Z) : Validator :=
  mkValidator (Address v) (PubKey_ v) (VotingPower v) p.

Definition NewValidator `{Crypto} (pubKey : PubKey) (votingPower : Z) : Validator :=
  mkValidator (key_address pubKey) (Some pubKey) votingPower 0.

Inductive validator_error :=
| ErrNilValidator
| ErrNoPubKey
| ErrNegativePower
| ErrWrongAddress.

Definition ValidateBasic `{Crypto} (v : option Validator) : option validator_error :=
  match v with
  | None => Some ErrNilValidator
  | Some v =>
      match PubKey_ v with
      | None => Some ErrNoPubKey
      | Some pk =>
          if VotingPower v <? 0 then Some ErrNegativePower
          else if decide (Address v = key_address pk) then None
          else Some ErrWrongAddress
      end
  end.

(** [CompareProposerPriority] returns one of its two pointers; [priority_left]
    says which (true: the receiver [v]). *)
Definition priority_left (v other : Validator) : outcome bool :=
  if ProposerPriority other <? ProposerPriority v then Ret true
  else if ProposerPriority v <? ProposerPriority other then Ret false
  else
    match bytes_compare (Address v) (Address other) with
    | Lt => Ret true
    | Gt => Ret false
    | Eq => Panic "Cannot compare identical validators"
    end.

Definition CompareProposerPriority (v : option Validator) (other : Validator) : outcome Validator :=
  match v with
  | None => Ret other
  | Some v => left ← priority_left v other; Ret (if left : bool then v else other)
  end.

(** ** The priority order

    [v] beats [w]: higher priority, ties broken by the smaller address. *)
Definition beats (v w : Validator) : Prop :=
  ProposerPriority w < ProposerPriority v ∨
  (ProposerPriority w = ProposerPriority v ∧ bytes_lt (Address v) (Address w)).

Lemma priority_left_beats v w :
  Address v ≠ Address w →
  (priority_left v w = Ret true ∧ beats v w) ∨ (priority_left v w = Ret false ∧ beats w v).
Proof.
  intros Hne. unfold priority_left, beats.
  destruct (Z.ltb_spec (ProposerPriority w) (ProposerPriority v)); [auto|].
  destruct (Z.ltb_spec (ProposerPriority v) (ProposerPriority w)); [auto|].
  assert (ProposerPriority v = ProposerPriority w) by lia.
  destruct (bytes_lt_total (Address v) (Address w)) as [Hlt|[Heq|Hlt]]; [|done|].
  - unfold bytes_lt in *. rewrite Hlt. auto.
  - unfold bytes_lt in *. rewrite bytes_compare_antisym, Hlt. simpl. auto.
Qed.

Lemma beats_trans u v w : beats u v → beats v w → beats u w.
Proof.
  unfold beats. intros [?|[? Huv]] [?|[? Hvw]]; [left; lia..|right].
  split; [lia|]. by eapply bytes_lt_trans.
Qed.
