(* ===== verification/SignBytes.v ===== *)
(** * What validators sign

    Models [src/hetu-cometbft/types/canonical.go], the sign-bytes functions of
    [types/vote.go] and [types/proposal.go], the generated encoders they call
    ([proto/tendermint/types/canonical.pb.go]) and vote verification.  The
    encoding of a time is a library function outside the repository and a
    parameter here. *)
From S2P Require Import Prelude.
From S2P Require Import Proto.
From S2P Require Import Vote.
From S2P Require Import Validator.

(** [gogoproto.StdTimeMarshalTo]: the encoding of a time, [None] when the time
    is out of the range of the format. *)
Class StdTime := StdTimeMarshal : Time → option bytes.

(** The format is documented to represent every time of its range
    faithfully, in a few bytes. *)
Class StdTimeLaws `{StdTime} := {
  std_time_inj : ∀ t t' b, StdTimeMarshal t = Some b → StdTimeMarshal t' = Some b → t = t';
  std_time_short : ∀ t b, StdTimeMarshal t = Some b → len b ≤ 64;
}.

Record Proposal := mkProposal {
  prop_Type : Z;
  prop_Height : Z;
  prop_Round : Z;
  prop_POLRound : Z;
  prop_BlockID : BlockID;
  prop_Timestamp : Time;
  prop_Signature : bytes;
}.

Inductive proposal_error :=
| ErrProposalType
| ErrProposalHeight
| ErrProposalRound
| ErrProposalPOLRound
| ErrProposalBlockID
| ErrProposalIncomplete
| ErrProposalNoSignature
| ErrProposalSignatureTooBig.

Definition Proposal_ValidateBasic (p : Proposal) : option proposal_error :=
  if negb (prop_Type p =? ProposalType) then Some ErrProposalType
  else if prop_Height p <? 0 then Some ErrProposalHeight
  else if prop_Round p <? 0 then Some ErrProposalRound
  else if prop_POLRound p <? -1 then Some ErrProposalPOLRound
  else if negb (BlockID_ValidateBasic (prop_BlockID p)) then Some ErrProposalBlockID
  else if negb (BlockID_IsComplete (prop_BlockID p)) then Some ErrProposalIncomplete
  else if len (prop_Signature p) =? 0 then Some ErrProposalNoSignature
  else if MaxSignatureSize <? len (prop_Signature p) then Some ErrProposalSignatureTooBig
  else None.

(** ** Canonical forms *)

(** Panics on an identifier that does not validate; [None] for a nil block. *)
Definition CanonicalizeBlockID (bid : BlockID) : outcome (option BlockID) :=
  match BlockIDFromProto bid with
  | None => Panic "wrong BlockID"
  | Some rbid => Ret (if BlockID_IsZero rbid then None else Some bid)
  end.

Record CanonicalVote := mkCanonicalVote {
  cv_Type : Z; cv_Height : Z; cv_Round : Z; cv_BlockID : option BlockID; cv_Timestamp : Time; cv_ChainID : bytes }.

Definition CanonicalizeVote (chainID : bytes) (vote : Vote) : outcome CanonicalVote :=
  b ← CanonicalizeBlockID (vote_BlockID vote);
  Ret (mkCanonicalVote (vote_Type vote) (vote_Height vote) (vote_Round vote) b (vote_Timestamp vote) chainID).

Record CanonicalProposal := mkCanonicalProposal {
  cp_Type : Z; cp_Height : Z; cp_Round : Z; cp_POLRound : Z; cp_BlockID : option BlockID; cp_Timestamp : Time;
  cp_ChainID : bytes }.

Definition CanonicalizeProposal (chainID : bytes) (p : Proposal) : outcome CanonicalProposal :=
  b ← CanonicalizeBlockID (prop_BlockID p);
  Ret (mkCanonicalProposal ProposalType (prop_Height p) (prop_Round p) (prop_POLRound p) b (prop_Timestamp p) chainID).

(** ** The generated encoders *)

Definition CanonicalBlockID_Marshal (b : BlockID) : bytes :=
  bytes_field x0a (BlockHash b) ++ message_field x12 (PartSetHeader_Marshal (BlockParts b)).

Definition block_id_field (tag : byte) (b : option BlockID) : bytes :=
  match b with None => [] | Some b => message_field tag (CanonicalBlockID_Marshal b) end.

Definition CanonicalVote_Marshal `{StdTime} (m : CanonicalVote) : outcome bytes :=
  match StdTimeMarshal (cv_Timestamp m) with
  | None => Panic "timestamp out of range"
  | Some t =>
      Ret (varint_field x08 (cv_Type m) ++ fixed64_field x11 (cv_Height m) ++ fixed64_field x19 (cv_Round m) ++
           block_id_field x22 (cv_BlockID m) ++ message_field x2a t ++ bytes_field x32 (cv_ChainID m))
  end.

Definition CanonicalProposal_Marshal `{StdTime} (m : CanonicalProposal) : outcome bytes :=
  match StdTimeMarshal (cp_Timestamp m) with
  | None => Panic "timestamp out of range"
  | Some t =>
      Ret (varint_field x08 (cp_Type m) ++ fixed64_field x11 (cp_Height m) ++ fixed64_field x19 (cp_Round m) ++
           varint_field x20 (cp_POLRound m) ++ block_id_field x2a (cp_BlockID m) ++ message_field x32 t ++
           bytes_field x3a (cp_ChainID m))
  end.

(** ** Sign bytes *)

Definition VoteSignBytes `{StdTime} (chainID : bytes) (vote : Vote) : outcome bytes :=
  pb ← CanonicalizeVote chainID vote; bz ← CanonicalVote_Marshal pb; Ret (delimited bz).

Definition ProposalSignBytes `{StdTime} (chainID : bytes) (p : Proposal) : outcome bytes :=
  pb ← CanonicalizeProposal chainID p; bz ← CanonicalProposal_Marshal pb; Ret (delimited bz).

Definition VoteExtensionSignBytes (chainID : bytes) (vote : Vote) : bytes :=
  delimited (bytes_field x0a (vote_Extension vote) ++ fixed64_field x11 (vote_Height vote) ++
             fixed64_field x19 (vote_Round vote) ++ bytes_field x22 chainID).

(** The bytes a commit signature is over. *)
Definition Commit_VoteSignBytes `{StdTime} (commit : Commit) (chainID : bytes) (valIdx : Z) : outcome bytes :=
  v ← Commit_GetVote commit valIdx; VoteSignBytes chainID v.

(** ** Verification *)

Inductive verify_error :=
| ErrVoteInvalidValidatorAddress
| ErrVoteInvalidSignature
| ErrExpectedExtensionSignature.

(** A nil public key makes the method call panic. *)
Definition Vote_Verify `{StdTime, Crypto} (vote : Vote) (chainID : bytes) (pubKey : option PubKey)
    : outcome (option verify_error) :=
  match pubKey with
  | None => Panic "nil pointer dereference"
  | Some pubKey =>
      if negb (bool_decide (key_address pubKey = ValidatorAddress vote)) then Ret (Some ErrVoteInvalidValidatorAddress)
      else
        bz ← VoteSignBytes chainID vote;
        if negb (verify_signature pubKey bz (vote_Signature vote)) then Ret (Some ErrVoteInvalidSignature)
        else Ret None
  end.

Definition VerifyVoteAndExtension `{StdTime, Crypto} (vote : Vote) (chainID : bytes) (pubKey : option PubKey)
    : outcome (option verify_error) :=
  err ← Vote_Verify vote chainID pubKey;
  match err, pubKey with
  | Some e, _ => Ret (Some e)
  | None, None => Panic "nil pointer dereference"
  | None, Some pubKey =>
      if (vote_Type vote =? PrecommitType) && negb (BlockID_IsZero (vote_BlockID vote)) then
        if len (vote_ExtensionSignature vote) =? 0 then Ret (Some ErrExpectedExtensionSignature)
        else if negb (verify_signature pubKey (VoteExtensionSignBytes chainID vote) (vote_ExtensionSignature vote))
        then Ret (Some ErrVoteInvalidSignature)
        else Ret None
      else Ret None
  end.

Definition VerifyExtension `{StdTime, Crypto} (vote : Vote) (chainID : bytes) (pubKey : option PubKey)
    : outcome (option verify_error) :=
  if negb (vote_Type vote =? PrecommitType) || BlockID_IsZero (vote_BlockID vote) then Ret None
  else match pubKey with
       | None => Panic "nil pointer dereference"
       | Some pubKey =>
           if negb (verify_signature pubKey (VoteExtensionSignBytes chainID vote) (vote_ExtensionSignature vote))
           then Ret (Some ErrVoteInvalidSignature)
           else Ret None
       end.

(** ** Lengths *)

Lemma len_uvarint_fuel fuel x : 0 ≤ len (uvarint_fuel fuel x) ≤ Z.of_nat fuel.
Proof.
  revert x. induction fuel as [|fuel IH]; intros x; [done|]. cbn [uvarint_fuel].
  case_match; rewrite len_cons; [change (len []) with 0; lia|]. specialize (IH (Z.shiftr x 7)). lia.
Qed.

Lemma len_message_field tag b : 0 ≤ len (message_field tag b) ≤ 11 + len b.
Proof.
  unfold message_field. rewrite len_cons, len_app. pose proof (len_uvarint_fuel 10 (len b)) as Hu.
  change (uvarint_fuel 10 (len b)) with (uvarint (len b)) in Hu. pose proof (len_nonneg b). lia.
Qed.

Lemma len_bytes_field tag b : 0 ≤ len (bytes_field tag b) ≤ 11 + len b.
Proof.
  unfold bytes_field. case_decide; [|apply len_message_field]. change (len []) with 0.
  pose proof (len_nonneg b). lia.
Qed.

Lemma len_varint_field tag x : 0 ≤ len (varint_field tag x) ≤ 11.
Proof.
  unfold varint_field. case_match; [done|]. rewrite len_cons. pose proof (len_uvarint_fuel 10 (uint64 x)) as Hu.
  change (uvarint_fuel 10 (uint64 x)) with (uvarint (uint64 x)) in Hu. lia.
Qed.

Lemma len_fixed64_field tag x : 0 ≤ len (fixed64_field tag x) ≤ 9.
Proof. unfold fixed64_field. case_match; [done|]. rewrite len_cons. unfold len, fixed64. rewrite le_bytes_length. lia. Qed.

(** ** Injectivity of the identifiers *)

(** Identifiers whose encoding is faithful: hashes of bounded length and a
    [uint32] total. *)
Definition small_id (b : BlockID) : Prop :=
  BlockID_ValidateBasic b = true ∧ is_uint32 (Total (BlockParts b)).

Lemma ValidateHash_len h : ValidateHash h = true → len h ≤ 32.
Proof. unfold ValidateHash, tmhash_Size. pose proof (len_nonneg h). lia. Qed.

Lemma small_id_lens b : small_id b → len (BlockHash b) ≤ 32 ∧ len (PartsHash (BlockParts b)) ≤ 32.
Proof. intros [[Hh Hp]%andb_true_iff _]. split; by apply ValidateHash_len. Qed.

Lemma short_le b n : len b ≤ n → n < 18446744073709551616 → short b.
Proof. intros. pose proof (len_nonneg b). unfold short. ulia. Qed.

Lemma len_PartSetHeader p : 0 ≤ len (PartSetHeader_Marshal p) ≤ 22 + len (PartsHash p).
Proof.
  unfold PartSetHeader_Marshal. rewrite len_app. pose proof (len_varint_field x08 (Total p)).
  pose proof (len_bytes_field x12 (PartsHash p)). lia.
Qed.

Lemma len_CanonicalBlockID b : small_id b → len (CanonicalBlockID_Marshal b) ≤ 200.
Proof.
  intros [Hh Hp]%small_id_lens. unfold CanonicalBlockID_Marshal. rewrite len_app.
  pose proof (len_bytes_field x0a (BlockHash b)). pose proof (len_PartSetHeader (BlockParts b)).
  pose proof (len_message_field x12 (PartSetHeader_Marshal (BlockParts b))). lia.
Qed.

Lemma PartSetHeader_Marshal_inj p p' :
  is_uint32 (Total p) → is_uint32 (Total p') → len (PartsHash p) ≤ 32 → len (PartsHash p') ≤ 32 →
  PartSetHeader_Marshal p = PartSetHeader_Marshal p' → p = p'.
Proof.
  unfold PartSetHeader_Marshal, is_uint32. intros Ht Ht' Hh Hh' Heq.
  rewrite <-(app_nil_r (bytes_field _ (PartsHash p))), <-(app_nil_r (bytes_field _ (PartsHash p'))) in Heq.
  apply varint_field_inj in Heq as [? Heq]; [|ulia|ulia|solve_no_tag..].
  apply bytes_field_inj in Heq as [? _]; [|eapply short_le; [eassumption|lia]..|solve_no_tag|solve_no_tag].
  destruct p, p'; simpl in *. congruence.
Qed.

Lemma CanonicalBlockID_Marshal_inj b b' :
  small_id b → small_id b' → CanonicalBlockID_Marshal b = CanonicalBlockID_Marshal b' → b = b'.
Proof.
  intros Hb Hb' Heq. pose proof (small_id_lens _ Hb) as [Hh Hp]. pose proof (small_id_lens _ Hb') as [Hh' Hp'].
  unfold CanonicalBlockID_Marshal in Heq. pose proof (len_PartSetHeader (BlockParts b)). pose proof (len_PartSetHeader (BlockParts b')).
  rewrite <-(app_nil_r (message_field x12 (PartSetHeader_Marshal (BlockParts b)))),
    <-(app_nil_r (message_field x12 (PartSetHeader_Marshal (BlockParts b')))) in Heq.
  apply bytes_field_inj in Heq as [? Heq]; [|eapply short_le; [eassumption|lia]..|solve_no_tag|solve_no_tag].
  apply message_field_inj in Heq as [Heq _]; [|apply (short_le _ 100); lia..].
  apply PartSetHeader_Marshal_inj in Heq; [|apply Hb|apply Hb'|done..].
  destruct b, b'; simpl in *. congruence.
Qed.

Lemma CanonicalizeBlockID_inv b c :
  CanonicalizeBlockID b = Ret c →
  BlockID_ValidateBasic b = true ∧ (c = None ∧ b = nilBlockID ∨ c = Some b ∧ b ≠ nilBlockID).
Proof.
  unfold CanonicalizeBlockID, BlockIDFromProto. destruct (PartSetHeader_ValidateBasic _ && BlockID_ValidateBasic b) eqn:E; [|done].
  apply andb_true_iff in E as [_ E]. intros [= <-]. split; [done|]. pose proof (BlockID_IsZero_nil b).
  destruct (BlockID_IsZero b); [left; naive_solver|right]. split; [done|]. intros ->. naive_solver.
Qed.

Lemma block_id_field_head tag b : block_id_field tag b = [] ∨ head (block_id_field tag b) = Some tag.
Proof. destruct b; simpl; auto. Qed.
#[export] Hint Resolve block_id_field_head : proto.

Lemma block_id_field_inj tag b b' c c' r r' :
  CanonicalizeBlockID b = Ret c → CanonicalizeBlockID b' = Ret c' →
  is_uint32 (Total (BlockParts b)) → is_uint32 (Total (BlockParts b')) → no_tag tag r → no_tag tag r' →
  block_id_field tag c ++ r = block_id_field tag c' ++ r' → b = b' ∧ r = r'.
Proof.
  intros [Hv Hc]%CanonicalizeBlockID_inv [Hv' Hc']%CanonicalizeBlockID_inv Ht Ht' Hr Hr' Heq.
  destruct Hc as [[-> ->]|[-> Hn]], Hc' as [[-> ->]|[-> Hn']]; simpl in Heq.
  - done.
  - by rewrite Heq in Hr.
  - by rewrite <-Heq in Hr'.
  - apply (message_field_inj tag) in Heq as [Heq ?];
      [|apply (short_le _ 200); [by apply len_CanonicalBlockID|lia]..].
    by apply CanonicalBlockID_Marshal_inj in Heq.
Qed.

(** ** Injectivity of the sign bytes *)

(** The Go types of the fields, and a chain identifier of a sane length. *)
Record vote_ranges (chainID : bytes) (v : Vote) : Prop := {
  vr_type : is_int32 (vote_Type v);
  vr_height : is_int64 (vote_Height v);
  vr_round : is_int32 (vote_Round v);
  vr_total : is_uint32 (Total (BlockParts (vote_BlockID v)));
  vr_chain : len chainID ≤ MaxInt64;
}.

Lemma int32_64 z : is_int32 z → is_int64 z.
Proof. ulia. Qed.

Section sign_bytes.
Context `{StdTimeLaws}.

(** A vote's sign bytes: the delimited message and its parts. *)
Lemma VoteSignBytes_inv chainID v bz :
  VoteSignBytes chainID v = Ret bz →
  ∃ c t, CanonicalizeBlockID (vote_BlockID v) = Ret c ∧ StdTimeMarshal (vote_Timestamp v) = Some t ∧
    bz = delimited (varint_field x08 (vote_Type v) ++ fixed64_field x11 (vote_Height v) ++
      fixed64_field x19 (vote_Round v) ++ block_id_field x22 c ++ message_field x2a t ++ bytes_field x32 chainID).
Proof.
  unfold VoteSignBytes, CanonicalizeVote, CanonicalVote_Marshal.
  destruct (CanonicalizeBlockID (vote_BlockID v)) as [c|] eqn:Ec; [|done]. simpl.
  destruct (StdTimeMarshal (vote_Timestamp v)) as [t|] eqn:Et; [|done]. simpl. intros [= <-]. eauto.
Qed.

Lemma len_block_id_field tag b c : CanonicalizeBlockID b = Ret c → is_uint32 (Total (BlockParts b)) →
  0 ≤ len (block_id_field tag c) ≤ 300.
Proof.
  intros [Hv [[-> ->]|[-> _]]]%CanonicalizeBlockID_inv Ht; simpl; [done|].
  pose proof (len_message_field tag (CanonicalBlockID_Marshal b)).
  pose proof (len_CanonicalBlockID b (conj Hv Ht)). lia.
Qed.

Lemma vote_message_short chainID v c t :
  vote_ranges chainID v → CanonicalizeBlockID (vote_BlockID v) = Ret c → StdTimeMarshal (vote_Timestamp v) = Some t →
  short (varint_field x08 (vote_Type v) ++ fixed64_field x11 (vote_Height v) ++
    fixed64_field x19 (vote_Round v) ++ block_id_field x22 c ++ message_field x2a t ++ bytes_field x32 chainID).
Proof.
  intros Hr Hc Ht. apply std_time_short in Ht. eapply (short_le _ (MaxInt64 + 1000)); [|ulia].
  rewrite !len_app. pose proof (len_varint_field x08 (vote_Type v)). pose proof (len_fixed64_field x11 (vote_Height v)).
  pose proof (len_fixed64_field x19 (vote_Round v)). pose proof (len_block_id_field x22 _ _ Hc (vr_total _ _ Hr)).
  pose proof (len_message_field x2a t). pose proof (len_bytes_field x32 chainID). pose proof (vr_chain _ _ Hr). lia.
Qed.

Lemma VoteSignBytes_determine chainID chainID' v v' bz :
  vote_ranges chainID v → vote_ranges chainID' v' →
  VoteSignBytes chainID v = Ret bz → VoteSignBytes chainID' v' = Ret bz →
  chainID = chainID' ∧ vote_Type v = vote_Type v' ∧ vote_Height v = vote_Height v' ∧
  vote_Round v = vote_Round v' ∧ vote_BlockID v = vote_BlockID v' ∧ vote_Timestamp v = vote_Timestamp v'.
Proof.
  intros Hr Hr' (c & t & Hc & Ht & ->)%VoteSignBytes_inv (c' & t' & Hc' & Ht' & Heq)%VoteSignBytes_inv.
  apply delimited_inj in Heq; [|by apply vote_message_short..].
  pose proof (std_time_short _ _ Ht). pose proof (std_time_short _ _ Ht').
  rewrite <-(app_nil_r (bytes_field _ chainID)), <-(app_nil_r (bytes_field _ chainID')) in Heq.
  pose proof Hr as []. pose proof Hr' as [].
  apply varint_field_inj in Heq as [Ety Heq]; [|by apply int32_64..|solve_no_tag|solve_no_tag].
  apply fixed64_field_inj in Heq as [Ehe Heq]; [|done|done|solve_no_tag|solve_no_tag].
  apply fixed64_field_inj in Heq as [Ero Heq]; [|by apply int32_64..|solve_no_tag|solve_no_tag].
  eapply block_id_field_inj in Heq as [Ebl Heq]; [|done|done|done|done|solve_no_tag|solve_no_tag].
  apply message_field_inj in Heq as [Eti Heq]; [|eapply short_le; [eassumption|lia]..].
  apply bytes_field_inj in Heq as [Ech _]; [|eapply short_le; [eassumption|ulia]..|solve_no_tag|solve_no_tag].
  subst t'. pose proof (std_time_inj _ _ _ Ht Ht'). done.
Qed.

(** The first two bytes of the message are the type's. *)
Lemma type_field_first ty r : 0 < ty < 128 → take 2 (varint_field x08 ty ++ r) = [x08; byte_of ty].
Proof using.
  intros Hty. unfold varint_field. replace (ty =? 0) with false by lia. unfold uvarint. cbn [uvarint_fuel].
  rewrite uint64_id by ulia. replace (ty <? 128) with true by lia. done.
Qed.

Lemma VoteSignBytes_first chainID v bz :
  vote_ranges chainID v → 0 < vote_Type v < 128 → VoteSignBytes chainID v = Ret bz →
  ∃ m, short m ∧ bz = delimited m ∧ take 2 m = [x08; byte_of (vote_Type v)].
Proof.
  intros Hr Hty (c & t & Hc & Ht & ->)%VoteSignBytes_inv. eexists. split_and!; [|done|by apply type_field_first].
  by apply vote_message_short.
Qed.

Lemma CanonicalProposal_first m bz b :
  0 < cp_Type m < 128 → CanonicalizeBlockID b = Ret (cp_BlockID m) → is_uint32 (Total (BlockParts b)) →
  len (cp_ChainID m) ≤ MaxInt64 → CanonicalProposal_Marshal m = Ret bz →
  short bz ∧ take 2 bz = [x08; byte_of (cp_Type m)].
Proof.
  destruct m as [ty h r pol c ts chainID]. cbn [cp_Type cp_BlockID cp_ChainID]. intros Hty Hc Hu Hl.
  unfold CanonicalProposal_Marshal.
  cbn [cp_Type cp_Height cp_Round cp_POLRound cp_BlockID cp_Timestamp cp_ChainID]. destruct (StdTimeMarshal ts) as [t|] eqn:Et; [|done].
  intros <-%(inj Ret). split; [|by apply type_field_first].
  apply std_time_short in Et. eapply (short_le _ (MaxInt64 + 1000)); [|ulia].
  rewrite !len_app. pose proof (len_varint_field x08 ty). pose proof (len_fixed64_field x11 h).
  pose proof (len_fixed64_field x19 r). pose proof (len_varint_field x20 pol).
  pose proof (len_block_id_field x2a _ _ Hc Hu). pose proof (len_message_field x32 t).
  pose proof (len_bytes_field x3a chainID). lia.
Qed.

Lemma ProposalSignBytes_first chainID p bz :
  is_uint32 (Total (BlockParts (prop_BlockID p))) → len chainID ≤ MaxInt64 →
  ProposalSignBytes chainID p = Ret bz →
  ∃ m, short m ∧ bz = delimited m ∧ take 2 m = [x08; byte_of ProposalType].
Proof.
  intros Hu Hl. unfold ProposalSignBytes, CanonicalizeProposal.
  destruct (CanonicalizeBlockID (prop_BlockID p)) as [c|] eqn:Ec; [|done].
  intros Hbz. apply bind_ret_inv in Hbz as (m & Hm & Hbz). injection Hm as <-.
  apply bind_ret_inv in Hbz as (m & Hm & Hbz). apply (inj Ret) in Hbz as <-. exists m.
  eapply CanonicalProposal_first in Hm as [? ?]; [done|done|exact Ec|done|done].
Qed.

Lemma VoteExtensionSignBytes_first chainID v :
  len chainID ≤ MaxInt64 → len (vote_Extension v) ≤ 4611686018427387904 →
  ∃ m, short m ∧ VoteExtensionSignBytes chainID v = delimited m ∧ no_tag x08 m.
Proof using.
  intros Hc He. unfold VoteExtensionSignBytes. eexists. split_and!; [|done|].
  - eapply (short_le _ (MaxInt64 + 4611686018427388904)); [|ulia]. rewrite !len_app.
    pose proof (len_bytes_field x0a (vote_Extension v)). pose proof (len_fixed64_field x11 (vote_Height v)).
    pose proof (len_fixed64_field x19 (vote_Round v)). pose proof (len_bytes_field x22 chainID). lia.
  - rewrite <-(app_nil_r (bytes_field x22 chainID)). solve_no_tag.
Qed.
End sign_bytes.

(** C34: sign bytes identify what was signed: two votes with the same sign
    bytes agree on the chain, the type, the height, the round, the block and
    the time.  A signature for one vote is never a signature for another. *)
Theorem VoteSignBytes_injective `{StdTimeLaws} chainID chainID' v v' bz :
  vote_ranges chainID v → vote_ranges chainID' v' →
  VoteSignBytes chainID v = Ret bz → VoteSignBytes chainID' v' = Ret bz →
  chainID = chainID' ∧ vote_Type v = vote_Type v' ∧ vote_Height v = vote_Height v' ∧
  vote_Round v = vote_Round v' ∧ vote_BlockID v = vote_BlockID v' ∧ vote_Timestamp v = vote_Timestamp v'.
Proof. apply VoteSignBytes_determine. Qed.

(** The sign bytes of a prevote or precommit are never those of a
    proposal or of a vote extension, whatever the chains and contents: a
    signature cannot be moved from one kind of message to another. *)
Theorem sign_bytes_separate_kinds `{StdTimeLaws} chainID chainID' chainID'' v p w bz bz' :
  vote_ranges chainID v → IsVoteTypeValid (vote_Type v) = true →
  is_uint32 (Total (BlockParts (prop_BlockID p))) → len chainID' ≤ MaxInt64 →
  len chainID'' ≤ MaxInt64 → len (vote_Extension w) ≤ 4611686018427387904 →
  VoteSignBytes chainID v = Ret bz → ProposalSignBytes chainID' p = Ret bz' →
  bz ≠ bz' ∧ bz ≠ VoteExtensionSignBytes chainID'' w ∧ bz' ≠ VoteExtensionSignBytes chainID'' w.
Proof.
  intros Hr Hty Hu Hl' Hl'' He Hv Hp. unfold IsVoteTypeValid, PrevoteType, PrecommitType in Hty.
  destruct (VoteSignBytes_first _ _ _ Hr ltac:(lia) Hv) as (m & Hs & -> & Hm).
  destruct (ProposalSignBytes_first _ _ _ Hu Hl' Hp) as (m' & Hs' & -> & Hm').
  destruct (VoteExtensionSignBytes_first _ w Hl'' He) as (x & Hsx & -> & Hx). unfold no_tag in Hx.
  split_and!; intros Heq; apply delimited_inj in Heq; try done; subst.
  - rewrite Hm in Hm'. injection Hm' as Hb. apply byte_of_inj in Hb; unfold ProposalType in *; lia.
  - destruct x; simplify_eq/=.
  - destruct x; simplify_eq/=.
Qed.

(** ** An instance to evaluate the model with *)

(** The encoding of a protocol buffer timestamp. *)
Definition example_time : StdTime := λ t,
  if decide ((MinInt64 ≤ Seconds t ∧ Seconds t ≤ MaxInt64) ∧ 0 ≤ Nanos t ∧ Nanos t < 1000000000)
  then Some (varint_field x08 (Seconds t) ++ varint_field x10 (Nanos t)) else None.

Lemma example_time_laws : @StdTimeLaws example_time.
Proof.
  split; unfold StdTimeMarshal, example_time; intros t.
  - intros t' b. case_decide as Ht; [|done]. intros <-%(inj Some). case_decide as Ht'; [|done].
    intros Heq%(inj Some).
    rewrite <-(app_nil_r (varint_field x10 (Nanos t))), <-(app_nil_r (varint_field x10 (Nanos t'))) in Heq.
    apply varint_field_inj in Heq as [? Heq]; [|ulia|ulia|solve_no_tag..].
    apply varint_field_inj in Heq as [? _]; [|ulia|ulia|solve_no_tag..].
    destruct t, t'; simpl in *. congruence.
  - intros b. case_decide; [|done]. intros <-%(inj Some). rewrite len_app.
    pose proof (len_varint_field x08 (Seconds t)). pose proof (len_varint_field x10 (Nanos t)). lia.
Qed.

Definition example_id (c : byte) : BlockID := mkBlockID (replicate 32 c) (mkPartSetHeader 1 (replicate 32 c)).
Definition example_vote (ty : Z) (c : byte) : Vote :=
  mkVote ty 5 0 (example_id c) (mkTime 1700000000 7) (replicate 20 c) 0 [c] [] [].
Definition example_proposal : Proposal := mkProposal ProposalType 5 0 (-1) (example_id x01) (mkTime 1700000000 7) [].

Lemma example_vote_ranges ty c : is_int32 ty → vote_ranges [x61] (example_vote ty c).
Proof. intros Hty. split; [done|simpl; ulia|simpl; ulia|done|by vm_compute]. Qed.

Lemma VoteSignBytes_injective_witness :
  ∃ bz, @VoteSignBytes example_time [x61] (example_vote PrevoteType x01) = Ret bz ∧
    vote_Type (example_vote PrevoteType x01) = PrevoteType.
Proof.
  eexists. split; [vm_compute; reflexivity|].
  eapply (@VoteSignBytes_injective example_time example_time_laws [x61] [x61]
    (example_vote PrevoteType x01) (example_vote PrevoteType x01));
    [apply example_vote_ranges; split; vm_compute; discriminate..|vm_compute; reflexivity|vm_compute; reflexivity].
Defined.

Lemma sign_bytes_separate_kinds_witness :
  ∃ bz bz', @VoteSignBytes example_time [x61] (example_vote PrecommitType x01) = Ret bz ∧
    @ProposalSignBytes example_time [x61] example_proposal = Ret bz' ∧ bz ≠ bz'.
Proof.
  destruct (@VoteSignBytes example_time [x61] (example_vote PrecommitType x01)) as [bz|] eqn:Ev; [|vm_compute in Ev; discriminate].
  destruct (@ProposalSignBytes example_time [x61] example_proposal) as [bz'|] eqn:Ep; [|vm_compute in Ep; discriminate].
  exists bz, bz'. split; [reflexivity|]. split; [reflexivity|].
  refine (proj1 (@sign_bytes_separate_kinds example_time example_time_laws [x61] [x61] [x61]
    (example_vote PrecommitType x01) example_proposal (example_vote PrecommitType x01) bz bz' _ _ _ _ _ _ Ev Ep));
    [apply example_vote_ranges; split; vm_compute; discriminate|reflexivity|split; vm_compute; [discriminate|reflexivity]|vm_compute; discriminate..].
Defined.
