(* ===== verification/ValidatorSet.v ===== *)
(** * Validator sets: the operations

    Models [src/hetu-cometbft/types/validator_set.go].  The mutating methods
    return the updated set.  [Validators] holds the pointed-to validators;
    [Proposer] is the validator it pointed to when it was set: later changes
    of that validator's priority through the shared pointer are not tracked
    and no statement reads [Proposer]'s priority. *)
From S2P Require Import Prelude.
From S2P Require Import Proto.
From S2P Require Import SafeMath.
From S2P Require Import Validator.

(** [int64(math.MaxInt64) / 8] *)
Definition MaxTotalVotingPower : Z := 1152921504606846975.
Definition PriorityWindowSizeFactor : Z := 2.

Record ValidatorSet := mkValidatorSet {
  Validators : list Validator;
  Proposer : option Validator;
  totalVotingPower : Z;
  allKeysHaveSameType : bool;
}.

Definition with_validators (vals : ValidatorSet) (l : list Validator) : ValidatorSet :=
  mkValidatorSet l (Proposer vals) (totalVotingPower vals) (allKeysHaveSameType vals).
Definition with_proposer (vals : ValidatorSet) (p : option Validator) : ValidatorSet :=
  mkValidatorSet (Validators vals) p (totalVotingPower vals) (allKeysHaveSameType vals).
Definition with_total (vals : ValidatorSet) (t : Z) : ValidatorSet :=
  mkValidatorSet (Validators vals) (Proposer vals) t (allKeysHaveSameType vals).
Definition with_same_type (vals : ValidatorSet) (b : bool) : ValidatorSet :=
  mkValidatorSet (Validators vals) (Proposer vals) (totalVotingPower vals) b.

Definition IsNilOrEmpty (vals : ValidatorSet) : bool := len (Validators vals) =? 0.
Definition Size (vals : ValidatorSet) : Z := len (Validators vals).

(** ** Lookup *)

Definition HasAddress (vals : ValidatorSet) (address : bytes) : bool :=
  existsb (λ v, bool_decide (Address v = address)) (Validators vals).

(** The index and a copy of the first validator with that address. *)
Fixpoint find_address (l : list Validator) (address : bytes) (idx : Z) : option (Z * Validator) :=
  match l with
  | [] => None
  | v :: l => if decide (Address v = address) then Some (idx, v) else find_address l address (idx + 1)
  end.

Definition GetByAddress (vals : ValidatorSet) (address : bytes) : Z * option Validator :=
  match find_address (Validators vals) address 0 with
  | Some (idx, v) => (int32 idx, Some v)
  | None => (-1, None)
  end.

Definition GetByIndex (vals : ValidatorSet) (index : Z) : option (bytes * Validator) :=
  if (index <? 0) || (len (Validators vals) <=? index) then None
  else match Validators vals !! Z.to_nat index with
       | Some v => Some (Address v, v)
       | None => None
       end.

(** ** Total voting power *)

Definition updateTotalVotingPower (vals : ValidatorSet) : outcome ValidatorSet :=
  sum ← for_each (λ v sum,
            let sum := safeAddClip sum (VotingPower v) in
            if MaxTotalVotingPower <? sum
            then Panic "Total voting power should be guarded to not exceed MaxTotalVotingPower"
            else Ret sum)
          (Validators vals) 0;
  Ret (with_total vals sum).

Definition TotalVotingPower (vals : ValidatorSet) : outcome (ValidatorSet * Z) :=
  vals ← (if totalVotingPower vals =? 0 then updateTotalVotingPower vals else Ret vals);
  Ret (vals, totalVotingPower vals).

(** ** Proposer priorities *)

Definition computeMaxMinPriorityDiff (vals : ValidatorSet) : outcome Z :=
  if IsNilOrEmpty vals then Panic "empty validator set"
  else
    let '(max, min) := foldl (λ '(max, min) v,
        (if max <? ProposerPriority v then ProposerPriority v else max,
         if ProposerPriority v <? min then ProposerPriority v else min))
      (MinInt64, MaxInt64) (Validators vals) in
    let diff := int64 (max - min) in
    Ret (if diff <? 0 then int64 (-1 * diff) else diff).

Definition RescalePriorities (vals : ValidatorSet) (diffMax : Z) : outcome ValidatorSet :=
  if IsNilOrEmpty vals then Panic "empty validator set"
  else if diffMax <=? 0 then Ret vals
  else
    diff ← computeMaxMinPriorityDiff vals;
    let ratio := int64 (Z.quot (int64 (int64 (diff + diffMax) - 1)) diffMax) in
    if diffMax <? diff then
      if ratio =? 0 then Panic "integer divide by zero"
      else Ret (with_validators vals
             ((λ v, set_priority v (int64 (Z.quot (ProposerPriority v) ratio))) <$> Validators vals))
    else Ret vals.

(** [big.Int.Div] is Euclidean division, which is [Z.div] for a positive
    divisor. *)
Definition computeAvgProposerPriority (vals : ValidatorSet) : outcome Z :=
  let n := len (Validators vals) in
  if n =? 0 then Panic "division by zero"
  else
    let avg := foldl (λ sum v, sum + ProposerPriority v) 0 (Validators vals) / n in
    if decide (is_int64 avg) then Ret avg
    else Panic "Cannot represent avg ProposerPriority as an int64".

Definition shiftByAvgProposerPriority (vals : ValidatorSet) : outcome ValidatorSet :=
  if IsNilOrEmpty vals then Panic "empty validator set"
  else
    avg ← computeAvgProposerPriority vals;
    Ret (with_validators vals
          ((λ v, set_priority v (safeSubClip (ProposerPriority v) avg)) <$> Validators vals)).

(** [res = res.CompareProposerPriority(val)] over the validators: the result
    with its position, which stands for the pointer. *)
Fixpoint most_priority (res : option (nat * Validator)) (i : nat) (l : list Validator)
    : outcome (option (nat * Validator)) :=
  match l with
  | [] => Ret res
  | v :: l =>
      match res with
      | None => most_priority (Some (i, v)) (S i) l
      | Some (k, r) =>
          left ← priority_left r v;
          most_priority (if left : bool then Some (k, r) else Some (i, v)) (S i) l
      end
  end.

Definition getValWithMostPriority (vals : ValidatorSet) : outcome (option (nat * Validator)) :=
  most_priority None 0 (Validators vals).

Definition incrementProposerPriority (vals : ValidatorSet) : outcome (ValidatorSet * Validator) :=
  let vals := with_validators vals
    ((λ v, set_priority v (safeAddClip (ProposerPriority v) (VotingPower v))) <$> Validators vals) in
  most ← getValWithMostPriority vals;
  match most with
  | None => Panic "nil pointer dereference"
  | Some (k, mostest) =>
      '(vals, total) ← TotalVotingPower vals;
      let mostest := set_priority mostest (safeSubClip (ProposerPriority mostest) total) in
      Ret (with_validators vals (<[k := mostest]> (Validators vals)), mostest)
  end.

(** [times] rounds of [incrementProposerPriority], and the last proposer. *)
Fixpoint increment_times (times : nat) (vals : ValidatorSet) (proposer : option Validator)
    : outcome (ValidatorSet * option Validator) :=
  match times with
  | O => Ret (vals, proposer)
  | S times =>
      '(vals, proposer) ← incrementProposerPriority vals;
      increment_times times vals (Some proposer)
  end.

Definition IncrementProposerPriority (vals : ValidatorSet) (times : Z) : outcome ValidatorSet :=
  if IsNilOrEmpty vals then Panic "empty validator set"
  else if times <=? 0 then Panic "Cannot call IncrementProposerPriority with non-positive times"
  else
    '(vals, total) ← TotalVotingPower vals;
    let diffMax := int64 (PriorityWindowSizeFactor * total) in
    vals ← RescalePriorities vals diffMax;
    vals ← shiftByAvgProposerPriority vals;
    '(vals, proposer) ← increment_times (Z.to_nat times) vals None;
    Ret (with_proposer vals proposer).

Definition Copy (vals : ValidatorSet) : ValidatorSet := vals.

Definition CopyIncrementProposerPriority (vals : ValidatorSet) (times : Z) : outcome ValidatorSet :=
  IncrementProposerPriority (Copy vals) times.

Definition findProposer (vals : ValidatorSet) : outcome (option Validator) :=
  for_each (λ v proposer,
      if match proposer with None => true | Some p => negb (bool_decide (Address v = Address p)) end
      then p ← CompareProposerPriority proposer v; Ret (Some p)
      else Ret proposer)
    (Validators vals) None.

Definition GetProposer (vals : ValidatorSet) : outcome (ValidatorSet * option Validator) :=
  if len (Validators vals) =? 0 then Ret (vals, None)
  else
    vals ← match Proposer vals with
           | None => p ← findProposer vals; Ret (with_proposer vals p)
           | Some _ => Ret vals
           end;
    match Proposer vals with
    | None => Panic "nil pointer dereference"
    | Some p => Ret (vals, Some p)
    end.

(** [previousProposer == previousProposer.CompareProposerPriority(val)] holds
    when the comparison returns its receiver. *)
Definition findPreviousProposer (vals : ValidatorSet) : outcome (option Validator) :=
  for_each (λ v previousProposer,
      match previousProposer with
      | None => Ret (Some v)
      | Some p => left ← priority_left p v; Ret (if left : bool then Some v else Some p)
      end)
    (Validators vals) None.

(** ** Orders *)

Definition ByVotingPower_Less (a b : Validator) : bool :=
  if VotingPower a =? VotingPower b then bytes_ltb (Address a) (Address b)
  else VotingPower b <? VotingPower a.

Definition ByAddress_Less (a b : Validator) : bool := bytes_ltb (Address a) (Address b).

(** ** Updates *)

Inductive update_error :=
| ErrDuplicateEntry
| ErrNegativeVotingPower
| ErrVotingPowerTooHigh
| ErrDeletesNotAllowed
| ErrEmptyResult
| ErrRemovalNotFound
| ErrTotalVotingPowerOverflow.

(** The scan over the changes sorted by address; the accumulators are the
    updates and removals found so far.  A nil [prevAddr] equals an empty
    address, as [bytes.Equal] does. *)
Fixpoint scan_changes (prevAddr : bytes) (changes updates removals : list Validator)
    : (list Validator * list Validator) + update_error :=
  match changes with
  | [] => inl (updates, removals)
  | v :: changes =>
      if decide (Address v = prevAddr) then inr ErrDuplicateEntry
      else if VotingPower v <? 0 then inr ErrNegativeVotingPower
      else if MaxTotalVotingPower <? VotingPower v then inr ErrVotingPowerTooHigh
      else if VotingPower v =? 0 then scan_changes (Address v) changes updates (removals ++ [v])
      else scan_changes (Address v) changes (updates ++ [v]) removals
  end.

Definition processChanges (origChanges : list Validator)
    : (list Validator * list Validator) + update_error :=
  scan_changes [] (sort_by ByAddress_Less origChanges) [] [].

Definition delta (vals : ValidatorSet) (update : Validator) : Z :=
  match snd (GetByAddress vals (Address update)) with
  | Some v => int64 (VotingPower update - VotingPower v)
  | None => VotingPower update
  end.

Fixpoint add_deltas (vals : ValidatorSet) (updates : list Validator) (tvp : Z) : Z + update_error :=
  match updates with
  | [] => inl tvp
  | u :: updates =>
      let tvp := int64 (tvp + delta vals u) in
      if MaxTotalVotingPower <? tvp then inr ErrTotalVotingPowerOverflow
      else add_deltas vals updates tvp
  end.

(** The set is returned because [TotalVotingPower] may fill its cache. *)
Definition verifyUpdates (updates : list Validator) (vals : ValidatorSet) (removedPower : Z)
    : outcome (ValidatorSet * (Z + update_error)) :=
  let updatesCopy := sort_by (λ a b, delta vals a <? delta vals b) updates in
  '(vals, total) ← TotalVotingPower vals;
  Ret (vals, match add_deltas vals updatesCopy (int64 (total - removedPower)) with
             | inl tvpAfterRemovals => inl (int64 (tvpAfterRemovals + removedPower))
             | inr e => inr e
             end).

Definition numNewValidators (updates : list Validator) (vals : ValidatorSet) : Z :=
  foldl (λ n u, if HasAddress vals (Address u) then n else n + 1) 0 updates.

Definition computeNewPriorities (updates : list Validator) (vals : ValidatorSet)
    (updatedTotalVotingPower : Z) : list Validator :=
  (λ u, match snd (GetByAddress vals (Address u)) with
        | None => set_priority u
            (int64 (- int64 (updatedTotalVotingPower + Z.shiftr updatedTotalVotingPower 3)))
        | Some v => set_priority u (ProposerPriority v)
        end) <$> updates.

(** The merge loop of [applyUpdates] over the two sorted lists. *)
Fixpoint merge_updates (existing : list Validator) : list Validator → list Validator :=
  fix go (updates : list Validator) : list Validator :=
    match existing, updates with
    | [], _ => updates
    | _, [] => existing
    | e :: existing', u :: updates' =>
        if bytes_ltb (Address e) (Address u) then e :: merge_updates existing' updates
        else u :: (if decide (Address e = Address u) then merge_updates existing' updates'
                   else go updates')
    end.

Definition applyUpdates (vals : ValidatorSet) (updates : list Validator) : ValidatorSet :=
  let existing := sort_by ByAddress_Less (Validators vals) in
  with_validators vals (merge_updates existing updates).

Definition verifyRemovals (deletes : list Validator) (vals : ValidatorSet)
    : outcome (Z + update_error) :=
  r ← for_each (λ d acc,
          match acc with
          | inr e => Ret (inr e)
          | inl removed =>
              match snd (GetByAddress vals (Address d)) with
              | None => Ret (inr ErrRemovalNotFound)
              | Some v => Ret (inl (int64 (removed + VotingPower v)))
              end
          end)
        deletes (inl 0);
  match r with
  | inr e => Ret (inr e)
  | inl removed =>
      if len (Validators vals) <? len deletes then Panic "more deletes than validators"
      else Ret (inl removed)
  end.

(** The loop over [deletes] followed by the copy of what is left; [room] is
    how many entries [merged] still has. *)
Fixpoint remove_loop (existing deletes merged : list Validator) (room : Z)
    : outcome (list Validator) :=
  match deletes with
  | [] => if room <? len existing then Panic "index out of range" else Ret (merged ++ existing)
  | d :: deletes' =>
      match existing with
      | [] => Panic "index out of range"
      | e :: existing' =>
          if decide (Address e = Address d) then remove_loop existing' deletes' merged room
          else if room <=? 0 then Panic "index out of range"
          else remove_loop existing' deletes (merged ++ [e]) (room - 1)
      end
  end.

Definition applyRemovals (vals : ValidatorSet) (deletes : list Validator) : outcome ValidatorSet :=
  let existing := Validators vals in
  let size := len existing - len deletes in
  if size <? 0 then Panic "makeslice: len out of range"
  else merged ← remove_loop existing deletes [] size; Ret (with_validators vals merged).

Definition checkAllKeysHaveSameType (vals : ValidatorSet) : outcome ValidatorSet :=
  if Size vals =? 0 then Ret (with_same_type vals true)
  else
    r ← for_each (λ v acc,
            match acc with
            | inr b => Ret (inr b)  (* already returned *)
            | inl firstKeyType =>
                if decide (firstKeyType = ""%string) then
                  match PubKey_ v with
                  | None => Ret (inl firstKeyType)  (* continue *)
                  | Some pk => Ret (inl (Type_ pk))
                  end
                else
                  match PubKey_ v with
                  | None => Panic "nil pointer dereference"
                  | Some pk => if decide (Type_ pk = firstKeyType) then Ret (inl firstKeyType)
                               else Ret (inr false)
                  end
            end)
          (Validators vals) (inl ""%string);
    Ret (with_same_type vals (match r with inl _ => true | inr b => b end)).

(** After the lists are merged: re-type, re-total, rescale, center, sort. *)
Definition finish_update (vals : ValidatorSet) : outcome ValidatorSet :=
  vals ← checkAllKeysHaveSameType vals;
  vals ← updateTotalVotingPower vals;
  '(vals, total) ← TotalVotingPower vals;
  vals ← RescalePriorities vals (int64 (PriorityWindowSizeFactor * total));
  vals ← shiftByAvgProposerPriority vals;
  Ret (with_validators vals (sort_by ByVotingPower_Less (Validators vals))).

Definition apply_changes (vals : ValidatorSet) (updates deletes : list Validator)
    : outcome ValidatorSet :=
  let vals := applyUpdates vals updates in
  vals ← applyRemovals vals deletes;
  finish_update vals.

Definition updateWithChangeSet (vals : ValidatorSet) (changes : list Validator) (allowDeletes : bool)
    : outcome (ValidatorSet * option update_error) :=
  if len changes =? 0 then Ret (vals, None)
  else
    match processChanges changes with
    | inr e => Ret (vals, Some e)
    | inl (updates, deletes) =>
        if negb allowDeletes && negb (len deletes =? 0) then Ret (vals, Some ErrDeletesNotAllowed)
        else if (numNewValidators updates vals =? 0) && (len (Validators vals) =? len deletes)
        then Ret (vals, Some ErrEmptyResult)
        else
          removed ← verifyRemovals deletes vals;
          match removed with
          | inr e => Ret (vals, Some e)
          | inl removedVotingPower =>
              '(vals, tvp) ← verifyUpdates updates vals removedVotingPower;
              match tvp with
              | inr e => Ret (vals, Some e)
              | inl tvpAfterUpdatesBeforeRemovals =>
                  let updates := computeNewPriorities updates vals tvpAfterUpdatesBeforeRemovals in
                  vals ← apply_changes vals updates deletes;
                  Ret (vals, None)
              end
          end
    end.

Definition UpdateWithChangeSet (vals : ValidatorSet) (changes : list Validator)
    : outcome (ValidatorSet * option update_error) :=
  updateWithChangeSet vals changes true.

Definition NewValidatorSet (valz : list Validator) : outcome ValidatorSet :=
  '(vals, err) ← updateWithChangeSet (mkValidatorSet [] None 0 true) valz false;
  match err with
  | Some _ => Panic "Cannot create validator set"
  | None => if 0 <? len valz then IncrementProposerPriority vals 1 else Ret vals
  end.

(** The error is a validator's own; an empty input is [inr None]. *)
Definition ValidatorSetFromExistingValidators `{Crypto} (valz : list Validator)
    : outcome (ValidatorSet + option validator_error) :=
  if len valz =? 0 then Ret (inr None)
  else
    match list_find (λ v, ValidateBasic (Some v) ≠ None) valz with
    | Some (_, v) => Ret (inr (ValidateBasic (Some v)))
    | None =>
        vals ← checkAllKeysHaveSameType (mkValidatorSet valz None 0 false);
        p ← findPreviousProposer vals;
        vals ← updateTotalVotingPower (with_proposer vals p);
        Ret (inl (with_validators vals (sort_by ByVotingPower_Less (Validators vals))))
    end.

Inductive valset_error :=
| ErrEmptySet
| ErrInvalidValidator (idx : Z) (e : validator_error)
| ErrInvalidProposer (e : validator_error)
| ErrProposerNotInVals.

Fixpoint first_invalid `{Crypto} (idx : Z) (l : list Validator) : option (Z * validator_error) :=
  match l with
  | [] => None
  | v :: l => match ValidateBasic (Some v) with
              | Some e => Some (idx, e)
              | None => first_invalid (idx + 1) l
              end
  end.

Definition ValidateBasic `{Crypto} (vals : ValidatorSet) : option valset_error :=
  if IsNilOrEmpty vals then Some ErrEmptySet
  else
    match first_invalid 0 (Validators vals) with
    | Some (idx, e) => Some (ErrInvalidValidator idx e)
    | None =>
        match Proposer vals, Validator.ValidateBasic (Proposer vals) with
        | _, Some e => Some (ErrInvalidProposer e)
        | None, None => Some ErrProposerNotInVals
        | Some p, None =>
            if existsb (λ v, bool_decide (Address v = Address p)) (Validators vals) then None
            else Some ErrProposerNotInVals
        end
    end.

(** ** The priority hash *)

(** Every call writes at the start of [buf]; only [total] advances. *)
Definition put_priority (st : bytes * nat) (v : Validator) : bytes * nat :=
  let '(buf, total) := st in
  let e := varint (ProposerPriority v) in
  (e ++ drop (length e) buf, (total + length e)%nat).

Definition priority_buffer (vals : ValidatorSet) : bytes :=
  let buf := replicate (10 * length (Validators vals)) x00 in
  let '(buf, total) := foldl put_priority (buf, 0%nat) (Validators vals) in
  take total buf.

Definition ProposerPriorityHash `{Crypto} (vals : ValidatorSet) : option bytes :=
  if len (Validators vals) =? 0 then None else Some (sha256 (priority_buffer vals)).
