(* ===== verification/ValidatorSetPriority.v ===== *)
(** * Proposer selection: theorems

    The rotation of [types/validator_set.go]: total voting power, rescaling
    and centering of the priorities, and the fairness of the selection. *)
From S2P Require Import Prelude.
From S2P Require Import Proto.
From S2P Require Import SafeMath.
From S2P Require Import Validator.
From S2P Require Import ValidatorSet.

Abbreviation addrs l := (Address <$> l).
Abbreviation power_sum l := (zsum VotingPower l).
Abbreviation prio_sum l := (zsum ProposerPriority l).

(** ** Well-formed sets *)

(** What holds of every validator list the code builds: distinct addresses,
    positive powers whose sum is capped, priorities within three caps. *)
Record valid_list (l : list Validator) : Prop := {
  vl_nodup : NoDup (addrs l);
  vl_power : Forall (λ v, 0 < VotingPower v) l;
  vl_total : power_sum l ≤ MaxTotalVotingPower;
  vl_prio : Forall (λ v, - (3 * MaxTotalVotingPower) ≤ ProposerPriority v ≤ 3 * MaxTotalVotingPower) l;
}.

(** The cached total is either absent (0) or right. *)
Record valid_set (vals : ValidatorSet) : Prop := {
  vs_nonempty : Validators vals ≠ [];
  vs_list : valid_list (Validators vals);
  vs_total : totalVotingPower vals = 0 ∨ totalVotingPower vals = power_sum (Validators vals);
}.

Ltac mlia := unfold MaxTotalVotingPower, PriorityWindowSizeFactor in *; ulia.

Lemma power_pos_elem l v : Forall (λ v, 0 < VotingPower v) l → v ∈ l → 0 < VotingPower v ≤ power_sum l.
Proof.
  rewrite Forall_forall. intros Hp Hv. split; [auto|].
  apply zsum_elem_le; [|done]. intros w Hw. specialize (Hp w Hw). lia.
Qed.

Lemma power_sum_pos l : Forall (λ v, 0 < VotingPower v) l → l ≠ [] → len l ≤ power_sum l ∧ 0 < power_sum l.
Proof.
  intros Hp Hne. rewrite Forall_forall in Hp.
  pose proof (zsum_le (λ _, 1) VotingPower l ltac:(intros v Hv; specialize (Hp v Hv); simpl in *; lia)) as Hle.
  rewrite zsum_const in Hle. destruct l; [done|]. unfold len in *. simpl in *. lia.
Qed.

Lemma not_empty_false vals : Validators vals ≠ [] → IsNilOrEmpty vals = false.
Proof. unfold IsNilOrEmpty, len. destruct (Validators vals); [done|]. simpl. lia. Qed.

(** ** Total voting power *)

Lemma sum_loop l s :
  Forall (λ v, 0 ≤ VotingPower v ≤ MaxInt64) l → 0 ≤ s ≤ MaxTotalVotingPower →
  for_each (λ v sum,
      let sum := safeAddClip sum (VotingPower v) in
      if MaxTotalVotingPower <? sum
      then Panic "Total voting power should be guarded to not exceed MaxTotalVotingPower"
      else Ret sum) l s =
    if decide (s + power_sum l ≤ MaxTotalVotingPower) then Ret (s + power_sum l)
    else Panic "Total voting power should be guarded to not exceed MaxTotalVotingPower".
Proof.
  intros Hl. revert s. induction Hl as [|v l Hv Hl IH]; intros s Hs; simpl.
  - rewrite zsum_nil, Z.add_0_r, decide_True by lia. done.
  - rewrite zsum_cons. assert (0 ≤ power_sum l).
    { apply zsum_nonneg. rewrite Forall_forall in Hl. intros w Hw. specialize (Hl w Hw). lia. }
    rewrite safeAddClip_clamp by mlia. unfold clamp64.
    destruct (Z.ltb_spec MaxTotalVotingPower (Z.max MinInt64 (Z.min (s + VotingPower v) MaxInt64))) as [Hgt|Hle].
    + rewrite decide_False by mlia. done.
    + simpl. replace (Z.max _ _) with (s + VotingPower v) by mlia. rewrite IH by mlia.
      rewrite Z.add_assoc. done.
Qed.

Lemma updateTotalVotingPower_spec vals :
  Forall (λ v, 0 ≤ VotingPower v ≤ MaxInt64) (Validators vals) →
  updateTotalVotingPower vals =
    if decide (power_sum (Validators vals) ≤ MaxTotalVotingPower)
    then Ret (with_total vals (power_sum (Validators vals)))
    else Panic "Total voting power should be guarded to not exceed MaxTotalVotingPower".
Proof.
  intros Hl. unfold updateTotalVotingPower. rewrite sum_loop by (done || mlia).
  rewrite Z.add_0_l. case_decide; done.
Qed.

Lemma valid_powers l : valid_list l → Forall (λ v, 0 ≤ VotingPower v ≤ MaxInt64) l.
Proof.
  intros [_ Hp Ht _]. apply Forall_forall. intros v Hv.
  pose proof (power_pos_elem l v Hp Hv). mlia.
Qed.

Lemma TotalVotingPower_list vals :
  valid_list (Validators vals) → totalVotingPower vals = 0 ∨ totalVotingPower vals = power_sum (Validators vals) →
  TotalVotingPower vals = Ret (with_total vals (power_sum (Validators vals)), power_sum (Validators vals)).
Proof.
  intros Hl Ht. unfold TotalVotingPower.
  destruct (Z.eqb_spec (totalVotingPower vals) 0) as [H0|H0].
  - rewrite updateTotalVotingPower_spec by (by apply valid_powers).
    rewrite decide_True by apply Hl. done.
  - destruct Ht as [|Ht]; [done|]. simpl. rewrite Ht. do 2 f_equal.
    destruct vals; simpl in *. by subst.
Qed.

Lemma TotalVotingPower_spec vals :
  valid_set vals →
  TotalVotingPower vals = Ret (with_total vals (power_sum (Validators vals)), power_sum (Validators vals)).
Proof. intros [_ Hl Ht]. by apply TotalVotingPower_list. Qed.

(** ** Spread of the priorities *)

Definition spread (l : list Validator) (d : Z) : Prop :=
  ∀ v w, v ∈ l → w ∈ l → ProposerPriority v - ProposerPriority w ≤ d.

Lemma maxmin_fold l mx mn mx0 mn0 :
  foldl (λ '(max, min) v,
        (if max <? ProposerPriority v then ProposerPriority v else max,
         if ProposerPriority v <? min then ProposerPriority v else min)) (mx0, mn0) l = (mx, mn) →
  mx0 ≤ mx ∧ mn ≤ mn0 ∧ (∀ v, v ∈ l → mn ≤ ProposerPriority v ≤ mx) ∧
  (mx = mx0 ∨ ∃ v, v ∈ l ∧ ProposerPriority v = mx) ∧ (mn = mn0 ∨ ∃ v, v ∈ l ∧ ProposerPriority v = mn).
Proof.
  revert mx0 mn0. induction l as [|x l IH]; intros mx0 mn0; simpl.
  - intros [= <- <-]. split_and!; [lia|lia| |by left|by left]. intros v Hv. by apply elem_of_nil in Hv.
  - intros H. apply IH in H as (Hx & Hn & Hall & Hex & Hen). split_and!.
    + destruct (Z.ltb_spec mx0 (ProposerPriority x)); lia.
    + destruct (Z.ltb_spec (ProposerPriority x) mn0); lia.
    + intros v [->|Hv]%elem_of_cons; [|auto].
      destruct (Z.ltb_spec mx0 (ProposerPriority x)); destruct (Z.ltb_spec (ProposerPriority x) mn0); lia.
    + destruct Hex as [->|(v & Hv & Hp)]; [|right; exists v; split; [by right|done]].
      destruct (Z.ltb_spec mx0 (ProposerPriority x)); [right; exists x; split; [by left|done]|by left].
    + destruct Hen as [->|(v & Hv & Hp)]; [|right; exists v; split; [by right|done]].
      destruct (Z.ltb_spec (ProposerPriority x) mn0); [right; exists x; split; [by left|done]|by left].
Qed.

Definition prio_bounded (l : list Validator) : Prop :=
  Forall (λ v, - (3 * MaxTotalVotingPower) ≤ ProposerPriority v ≤ 3 * MaxTotalVotingPower) l.

Lemma computeMaxMinPriorityDiff_spec vals :
  Validators vals ≠ [] → prio_bounded (Validators vals) →
  ∃ d, computeMaxMinPriorityDiff vals = Ret d ∧ 0 ≤ d ≤ 6 * MaxTotalVotingPower ∧
       spread (Validators vals) d.
Proof.
  intros Hne Hb. unfold computeMaxMinPriorityDiff. rewrite not_empty_false by done.
  destruct (foldl _ _ _) as [mx mn] eqn:E. apply maxmin_fold in E as (_ & _ & Hall & Hex & Hen).
  unfold prio_bounded in Hb. rewrite Forall_forall in Hb.
  destruct (Validators vals) as [|x l] eqn:El; [done|].
  pose proof (Hall x (list_elem_of_here _ _)). pose proof (Hb x (list_elem_of_here _ _)).
  assert (mx ≤ 3 * MaxTotalVotingPower).
  { destruct Hex as [->|(v & Hv & <-)]; [mlia|]. specialize (Hb v Hv). lia. }
  assert (- (3 * MaxTotalVotingPower) ≤ mn).
  { destruct Hen as [->|(v & Hv & <-)]; [mlia|]. specialize (Hb v Hv). lia. }
  rewrite (int64_id (mx - mn)) by mlia. replace (mx - mn <? 0) with false by lia.
  eexists. split; [done|]. split; [lia|].
  intros v w Hv Hw. pose proof (Hall v Hv). pose proof (Hall w Hw). lia.
Qed.

(** Division by the ratio [ceil (d / D)] brings a distance of [d] within [D]. *)
Lemma quot_spread a b d D r :
  0 < D → 0 ≤ d → a - b ≤ d → r = (d + D - 1) / D → D < d → Z.quot a r - Z.quot b r ≤ D.
Proof.
  intros HD Hd Hab Hr Hlt.
  assert (1 < r ∧ d ≤ D * r) as [Hr1 Hdr].
  { pose proof (Z.div_mod (d + D - 1) D). pose proof (Z.mod_pos_bound (d + D - 1) D). nia. }
  pose proof (Z.quot_rem' a r). pose proof (Z.quot_rem' b r).
  pose proof (Z.rem_bound_abs a r). pose proof (Z.rem_bound_abs b r).
  destruct (decide (Z.quot a r - Z.quot b r ≤ D)) as [|Hgt]; [done|]. exfalso.
  assert (r ≤ Z.rem b r - Z.rem a r) by nia.
  destruct (decide (0 ≤ a)) as [Ha|Ha].
  - pose proof (Z.rem_nonneg a r ltac:(lia) Ha). lia.
  - destruct (decide (0 ≤ b)) as [Hb|Hb].
    + pose proof (Z.quot_pos b r Hb ltac:(lia)). pose proof (Z.quot_pos (- a) r ltac:(lia) ltac:(lia)) as Hq.
      rewrite Z.quot_opp_l in Hq by lia. lia.
    + pose proof (Z.rem_nonpos b r ltac:(lia) ltac:(lia)). lia.
Qed.

Lemma quot_abs_le a r : 1 < r → Z.abs (Z.quot a r) ≤ Z.abs a.
Proof. intros. rewrite <-Z.quot_abs by lia. rewrite (Z.abs_eq r) by lia. apply Z.quot_le_upper_bound; nia. Qed.

(** [same_but_priority]: equal up to the priorities, position by position. *)
Definition same_but_priority : list Validator → list Validator → Prop :=
  Forall2 (λ v w, Address v = Address w ∧ PubKey_ v = PubKey_ w ∧ VotingPower v = VotingPower w).

Lemma same_but_priority_map f l : same_but_priority l ((λ v, set_priority v (f v)) <$> l).
Proof. induction l; constructor; simpl; auto. Qed.

Lemma same_but_priority_refl l : same_but_priority l l.
Proof. induction l; constructor; auto. Qed.

Lemma same_but_priority_trans l1 l2 l3 :
  same_but_priority l1 l2 → same_but_priority l2 l3 → same_but_priority l1 l3.
Proof.
  intros H12. revert l3. induction H12 as [|x y l1 l2 (Ha & Hk & Hp) _ IH]; intros l3 H23.
  - inversion H23; subst. constructor.
  - inversion H23 as [|? z ? l3' (Ha' & Hk' & Hp')]; subst. constructor; [|by apply IH].
    split_and!; congruence.
Qed.

Lemma same_but_priority_facts l1 l2 :
  same_but_priority l1 l2 →
  addrs l1 = addrs l2 ∧ power_sum l1 = power_sum l2 ∧ length l1 = length l2 ∧
  (Forall (λ v, 0 < VotingPower v) l1 → Forall (λ v, 0 < VotingPower v) l2) ∧
  (PubKey_ <$> l1 = PubKey_ <$> l2).
Proof.
  induction 1 as [|x y l1 l2 (Ha & Hk & Hp) _ (IHa & IHp & IHl & IHf & IHk)]; [done|].
  rewrite !zsum_cons, !fmap_cons. split_and!; simpl; [congruence|congruence|congruence| |congruence].
  rewrite !Forall_cons. rewrite Hp. tauto.
Qed.

Lemma same_but_priority_insert l k x y :
  l !! k = Some x → Address x = Address y → PubKey_ x = PubKey_ y → VotingPower x = VotingPower y →
  same_but_priority l (<[k := y]> l).
Proof.
  revert k. induction l as [|z l IH]; intros [|k] Hk ???; simplify_eq/=; constructor; try done.
  - apply same_but_priority_refl.
  - by apply IH.
Qed.

Lemma RescalePriorities_spec vals D :
  Validators vals ≠ [] → prio_bounded (Validators vals) → 0 < D ≤ 2 * MaxTotalVotingPower →
  ∃ l', RescalePriorities vals D = Ret (with_validators vals l') ∧
    same_but_priority (Validators vals) l' ∧ prio_bounded l' ∧ spread l' D.
Proof.
  intros Hne Hb HD. unfold RescalePriorities. rewrite not_empty_false by done.
  replace (D <=? 0) with false by lia.
  destruct (computeMaxMinPriorityDiff_spec vals Hne Hb) as (d & -> & Hd & Hs). simpl.
  rewrite (int64_id (d + D)), (int64_id (d + D - 1)) by mlia.
  rewrite Z.quot_div_nonneg by lia.
  assert (0 ≤ (d + D - 1) / D ≤ d + D - 1) as Hr.
  { split; [apply Z.div_pos; lia|]. apply Z.div_le_upper_bound; nia. }
  rewrite int64_id by mlia. set (r := (d + D - 1) / D) in *.
  destruct (Z.ltb_spec D d) as [Hlt|Hle].
  - assert (1 < r).
    { unfold r. pose proof (Z.div_mod (d + D - 1) D). pose proof (Z.mod_pos_bound (d + D - 1) D). nia. }
    replace (r =? 0) with false by lia. eexists. split; [done|]. split; [apply same_but_priority_map|].
    unfold prio_bounded in *. rewrite Forall_forall in Hb.
    assert (∀ v, v ∈ Validators vals → int64 (Z.quot (ProposerPriority v) r) = Z.quot (ProposerPriority v) r) as Hid.
    { intros v Hv. specialize (Hb v Hv). simpl in Hb.
      pose proof (quot_abs_le (ProposerPriority v) r ltac:(lia)). apply int64_id. mlia. }
    split.
    + apply Forall_fmap, Forall_forall. intros v Hv. simpl. rewrite Hid by done.
      specialize (Hb v Hv). simpl in Hb. pose proof (quot_abs_le (ProposerPriority v) r ltac:(lia)). mlia.
    + intros v w (v' & -> & Hv)%list_elem_of_fmap (w' & -> & Hw)%list_elem_of_fmap. simpl.
      rewrite !Hid by done. by apply (quot_spread _ _ d D r); try lia; auto.
  - exists (Validators vals). split_and!; [|apply same_but_priority_refl|done|].
    + by destruct vals.
    + intros v w Hv Hw. specialize (Hs v w Hv Hw). lia.
Qed.

(** A list whose priorities sum to [0 <= s < n] with spread [D] is within [D]
    of 0. *)
Lemma centered_bound l D :
  spread l D → 0 ≤ prio_sum l < len l → ∀ v, v ∈ l → - D ≤ ProposerPriority v ≤ D.
Proof.
  intros Hs Hsum v Hv. split.
  - destruct (decide (ProposerPriority v < - D)) as [Hlt|]; [|lia]. exfalso.
    assert (prio_sum l ≤ zsum (λ _, -1) l) as Hle; [|rewrite zsum_const in Hle; lia].
    apply zsum_le. intros w Hw. specialize (Hs w v Hw Hv). lia.
  - destruct (decide (D < ProposerPriority v)) as [Hlt|]; [|lia]. exfalso.
    assert (zsum (λ _, 1) l ≤ prio_sum l) as Hle; [|rewrite zsum_const in Hle; lia].
    apply zsum_le. intros w Hw. specialize (Hs v w Hv Hw). lia.
Qed.

Lemma foldl_prio_sum l s : foldl (λ sum v, sum + ProposerPriority v) s l = s + prio_sum l.
Proof.
  revert s. induction l as [|v l IH]; intros s; simpl; [rewrite zsum_nil; lia|].
  rewrite IH, zsum_cons. lia.
Qed.

Lemma shiftByAvgProposerPriority_spec vals D :
  Validators vals ≠ [] → prio_bounded (Validators vals) → spread (Validators vals) D →
  D ≤ 2 * MaxTotalVotingPower →
  ∃ l', shiftByAvgProposerPriority vals = Ret (with_validators vals l') ∧
    same_but_priority (Validators vals) l' ∧ spread l' D ∧ 0 ≤ prio_sum l' < len l' ∧
    (∀ v, v ∈ l' → - D ≤ ProposerPriority v ≤ D).
Proof.
  intros Hne Hb Hs HD. unfold shiftByAvgProposerPriority, computeAvgProposerPriority.
  rewrite not_empty_false by done. pose proof (not_empty_false _ Hne) as Hn. unfold IsNilOrEmpty in Hn.
  rewrite Hn. set (l := Validators vals) in *. rewrite foldl_prio_sum, Z.add_0_l.
  assert (0 < len l) as Hlen by (unfold len in *; destruct l; simpl in *; [done|lia]).
  set (avg := prio_sum l / len l).
  assert (len l * avg ≤ prio_sum l < len l * (avg + 1)) as Havg.
  { unfold avg. pose proof (Z.div_mod (prio_sum l) (len l)). pose proof (Z.mod_pos_bound (prio_sum l) (len l)). lia. }
  unfold prio_bounded in Hb. rewrite Forall_forall in Hb.
  assert (- (3 * MaxTotalVotingPower) ≤ avg ≤ 3 * MaxTotalVotingPower) as Hab.
  { pose proof (zsum_le (λ _, - (3 * MaxTotalVotingPower)) ProposerPriority l ltac:(intros v Hv; apply (Hb v Hv))) as H1.
    pose proof (zsum_le ProposerPriority (λ _, 3 * MaxTotalVotingPower) l ltac:(intros v Hv; apply (Hb v Hv))) as H2.
    rewrite zsum_const in H1, H2. nia. }
  rewrite decide_True by mlia. simpl.
  assert (∀ v, v ∈ l → safeSubClip (ProposerPriority v) avg = ProposerPriority v - avg) as Hsub.
  { intros v Hv. specialize (Hb v Hv). simpl in Hb. rewrite safeSubClip_clamp, clamp64_id; mlia. }
  eexists. split; [done|]. split; [apply same_but_priority_map|].
  set (l' := _ <$> l).
  assert (spread l' D) as Hs'.
  { intros v w (v' & -> & Hv)%list_elem_of_fmap (w' & -> & Hw)%list_elem_of_fmap. simpl.
    rewrite !Hsub by done. specialize (Hs v' w' Hv Hw). lia. }
  assert (0 ≤ prio_sum l' < len l') as Hsum.
  { unfold l'. rewrite len_fmap, zsum_fmap. simpl.
    rewrite (zsum_ext_in _ (λ v, ProposerPriority v + - avg)) by (intros v Hv; rewrite Hsub by done; lia).
    rewrite zsum_add, zsum_const. lia. }
  split_and!; [done|lia|lia|]. by apply centered_bound.
Qed.

(** ** One round of selection *)

Lemma most_priority_spec l1 l2 k r :
  NoDup (addrs (l1 ++ l2)) → l1 !! k = Some r →
  (∀ i w, l1 !! i = Some w → i ≠ k → beats r w) →
  ∃ k' r', most_priority (Some (k, r)) (length l1) l2 = Ret (Some (k', r')) ∧
    (l1 ++ l2) !! k' = Some r' ∧ ∀ i w, (l1 ++ l2) !! i = Some w → i ≠ k' → beats r' w.
Proof.
  revert l1 k r. induction l2 as [|v l2 IH]; intros l1 k r Hnd Hk Hbest; simpl.
  - rewrite app_nil_r in *. eauto.
  - assert (Address r ≠ Address v) as Hne.
    { rewrite fmap_app in Hnd. apply NoDup_app in Hnd as (_ & Hd & _). intros Heq.
      apply (Hd (Address r)); [|rewrite Heq; set_solver].
      apply list_elem_of_fmap. exists r. split; [done|]. by eapply list_elem_of_lookup_2. }
    assert (∀ w, (l1 ++ [v]) !! length l1 = Some w ↔ w = v) as Hlast.
    { intros w. rewrite list_lookup_middle by done. split; congruence. }
    replace (l1 ++ v :: l2) with ((l1 ++ [v]) ++ l2) in * by (by rewrite <-app_assoc).
    replace (S (length l1)) with (length (l1 ++ [v])) by (rewrite length_app; simpl; lia).
    pose proof (lookup_lt_Some _ _ _ Hk) as Hlt.
    destruct (priority_left_beats r v Hne) as [[-> Hb]|[-> Hb]]; simpl.
    + apply IH; [done|by apply lookup_app_l_Some|].
      intros i w [Hi|[Hge Hi]]%lookup_app_Some Hik; [by eapply Hbest|].
      destruct (i - length l1)%nat; simplify_eq/=. done.
    + apply IH; [done|by apply Hlast|].
      intros i w [Hi|[Hge Hi]]%lookup_app_Some Hik.
      * destruct (decide (i = k)) as [->|Hik']; [by simplify_eq|].
        eapply beats_trans; [done|]. by eapply Hbest.
      * destruct (i - length l1)%nat eqn:E; simplify_eq/=. lia.
Qed.

Lemma getValWithMostPriority_spec vals :
  NoDup (addrs (Validators vals)) → Validators vals ≠ [] →
  ∃ k m, getValWithMostPriority vals = Ret (Some (k, m)) ∧ Validators vals !! k = Some m ∧
    ∀ i w, Validators vals !! i = Some w → i ≠ k → beats m w.
Proof.
  unfold getValWithMostPriority. intros Hnd Hne. destruct (Validators vals) as [|v l]; [done|]. simpl.
  destruct (most_priority_spec [v] l 0 v Hnd) as (k & m & Hm & Hk & Hb); [done| |eauto].
  intros [|i] w Hw Hi; simplify_eq/=.
Qed.

(** Every validator gains its power, then the leader pays the total. *)
Definition add_power (v : Validator) : Validator := set_priority v (ProposerPriority v + VotingPower v).
Definition pay (P : Z) (v : Validator) : Validator := set_priority v (ProposerPriority v - P).

Lemma incrementProposerPriority_spec vals P :
  NoDup (addrs (Validators vals)) → Validators vals ≠ [] →
  totalVotingPower vals = P → 0 < P ≤ MaxTotalVotingPower →
  (∀ v, v ∈ Validators vals → 0 < VotingPower v ≤ P) →
  (∀ v, v ∈ Validators vals →
     MinInt64 + P ≤ ProposerPriority v ∧ ProposerPriority v + VotingPower v ≤ MaxInt64) →
  ∃ k m, Validators vals !! k = Some m ∧
    incrementProposerPriority vals =
      Ret (with_validators vals (<[k := pay P (add_power m)]> (add_power <$> Validators vals)),
           pay P (add_power m)) ∧
    (∀ i w, Validators vals !! i = Some w → i ≠ k → beats (add_power m) (add_power w)).
Proof.
  intros Hnd Hne Ht HP Hpow Hprio. unfold incrementProposerPriority.
  assert ((λ v, set_priority v (safeAddClip (ProposerPriority v) (VotingPower v))) <$> Validators vals
          = add_power <$> Validators vals) as ->.
  { apply list_fmap_ext. intros i v Hv%list_elem_of_lookup_2. unfold add_power. f_equal.
    specialize (Hpow v Hv). specialize (Hprio v Hv). rewrite safeAddClip_clamp, clamp64_id; mlia. }
  set (vals1 := with_validators vals (add_power <$> Validators vals)).
  destruct (getValWithMostPriority_spec vals1) as (k & m' & -> & Hk & Hb).
  { unfold vals1. simpl. rewrite <-list_fmap_compose. exact Hnd. }
  { unfold vals1. simpl. intros Heq%fmap_nil_inv. done. }
  simpl in Hk. rewrite list_lookup_fmap in Hk. destruct (Validators vals !! k) as [m|] eqn:Em; [|done].
  simpl in Hk. injection Hk as <-.
  pose proof (list_elem_of_lookup_2 _ _ _ Em) as Hm. specialize (Hpow m Hm). specialize (Hprio m Hm).
  exists k, m. split; [done|]. split.
  - unfold TotalVotingPower. simpl. rewrite Ht. replace (P =? 0) with false by lia. simpl.
    rewrite Ht, safeSubClip_clamp, clamp64_id by (simpl; mlia). done.
  - intros i w Hw Hik. apply (Hb i); [|done]. unfold vals1. simpl. by rewrite list_lookup_fmap, Hw.
Qed.

(** ** Many rounds *)

(** Successive rounds of [incrementProposerPriority], with the proposer each
    of them elects. *)
Inductive selection : ValidatorSet → list Validator → ValidatorSet → Prop :=
| selection_nil vals : selection vals [] vals
| selection_cons vals p vals1 ps vals2 :
    incrementProposerPriority vals = Ret (vals1, p) → selection vals1 ps vals2 →
    selection vals (p :: ps) vals2.

Lemma increment_times_selection n vals ps vals' p0 :
  selection vals ps vals' → length ps = n →
  increment_times n vals p0 = Ret (vals', match last ps with Some p => Some p | None => p0 end).
Proof.
  intros Hs. revert n p0. induction Hs as [vals|vals p vals1 ps vals2 Hp Hs IH]; intros n p0 <-; simpl.
  - done.
  - rewrite Hp. simpl. rewrite (IH (length ps)) by done. rewrite last_cons. by destruct (last ps).
Qed.

(** The invariant of the rounds: cached total, priorities above [-2P] and
    summing to less than the number of validators. *)
Record rotating (P : Z) (vals : ValidatorSet) : Prop := {
  rot_nodup : NoDup (addrs (Validators vals));
  rot_nonempty : Validators vals ≠ [];
  rot_power : Forall (λ v, 0 < VotingPower v) (Validators vals);
  rot_P : power_sum (Validators vals) = P;
  rot_total : totalVotingPower vals = P;
  rot_sum : 0 ≤ prio_sum (Validators vals) < len (Validators vals);
  rot_low : ∀ v, v ∈ Validators vals → - (2 * P) ≤ ProposerPriority v;
}.

Lemma rotating_high P vals v :
  rotating P vals → v ∈ Validators vals →
  ProposerPriority v ≤ len (Validators vals) - 1 + 2 * P * (len (Validators vals) - 1).
Proof.
  intros [_ Hne Hpow HP _ Hsum Hlow] Hv. pose proof (power_sum_pos _ Hpow Hne).
  pose proof (zsum_elem_le (λ v, ProposerPriority v + 2 * P) v (Validators vals)
    ltac:(intros w Hw; specialize (Hlow w Hw); lia) Hv) as Hle.
  rewrite zsum_add, zsum_const in Hle. simpl in Hle. lia.
Qed.

Lemma zsum_pos_elem {A} (f : A → Z) l : 0 < zsum f l → ∃ x, x ∈ l ∧ 0 < f x.
Proof.
  induction l as [|x l IH]; [done|]. rewrite zsum_cons. intros Hs.
  destruct (decide (0 < f x)); [exists x; split; [by left|done]|].
  destruct IH as (y & Hy & Hf); [lia|]. exists y. split; [by right|done].
Qed.

Lemma rotating_step P vals :
  rotating P vals → P ≤ MaxTotalVotingPower →
  (∀ v, v ∈ Validators vals → ProposerPriority v + VotingPower v ≤ MaxInt64) →
  ∃ k m vals', Validators vals !! k = Some m ∧
    incrementProposerPriority vals = Ret (vals', pay P (add_power m)) ∧
    Validators vals' = <[k := pay P (add_power m)]> (add_power <$> Validators vals) ∧
    (∀ i w, Validators vals !! i = Some w → i ≠ k → beats (add_power m) (add_power w)) ∧
    rotating P vals'.
Proof.
  intros Hrot HP Hbig. pose proof Hrot as [Hnd Hne Hpow HPs Htot Hsum Hlow].
  pose proof (power_sum_pos _ Hpow Hne) as [Hn HP0].
  destruct (incrementProposerPriority_spec vals P) as (k & m & Hk & Hinc & Hbeat); [done..|lia| | |].
  { intros v Hv. rewrite <-HPs. by apply power_pos_elem. }
  { intros v Hv. pose proof (power_pos_elem _ v Hpow Hv). specialize (Hbig v Hv).
    specialize (Hlow v Hv). split; mlia. }
  exists k, m, (with_validators vals (<[k := pay P (add_power m)]> (add_power <$> Validators vals))).
  split_and!; [done..|].
  assert ((add_power <$> Validators vals) !! k = Some (add_power m)) as Hk' by (by rewrite list_lookup_fmap, Hk).
  assert (zsum ProposerPriority (add_power <$> Validators vals) = prio_sum (Validators vals) + P) as Hs1.
  { rewrite zsum_fmap. simpl. by rewrite zsum_add, HPs. }
  split; simpl.
  - rewrite list_fmap_insert. simpl. rewrite <-list_fmap_compose, list_insert_id; [exact Hnd|].
    rewrite list_lookup_fmap, Hk. done.
  - intros Heq. apply (f_equal length) in Heq. rewrite length_insert, length_fmap in Heq.
    by destruct (Validators vals).
  - apply Forall_insert; [|simpl; rewrite Forall_forall in Hpow; by eapply Hpow, list_elem_of_lookup_2].
    apply Forall_fmap. eapply Forall_impl; [exact Hpow|]. done.
  - rewrite (zsum_insert _ _ _ _ _ Hk'), zsum_fmap.
    change (zsum _ (Validators vals)) with (power_sum (Validators vals)). simpl. lia.
  - done.
  - rewrite (zsum_insert _ _ _ _ _ Hk'), Hs1. unfold len. rewrite length_insert, length_fmap.
    fold (len (Validators vals)). simpl. lia.
  - intros v Hv. apply list_elem_of_lookup in Hv as [i Hi].
    apply list_lookup_insert_Some in Hi as [(-> & <- & _)|(Hik & Hi)].
    + simpl. destruct (zsum_pos_elem ProposerPriority (add_power <$> Validators vals)) as (x & Hx & Hpos); [lia|].
      apply list_elem_of_lookup in Hx as [j Hj]. destruct (decide (j = i)) as [->|Hji].
      * rewrite Hk' in Hj. simplify_eq/=. lia.
      * rewrite list_lookup_fmap in Hj. destruct (Validators vals !! j) as [w|] eqn:Ew; simplify_eq/=.
        destruct (Hbeat j w Ew Hji) as [?|[? _]]; simpl in *; lia.
    + rewrite list_lookup_fmap in Hi. destruct (Validators vals !! i) as [w|] eqn:Ew; simplify_eq/=.
      apply list_elem_of_lookup_2 in Ew. pose proof (Hlow w Ew). rewrite Forall_forall in Hpow.
      specialize (Hpow w Ew). simpl in *. lia.
Qed.

(** How often a validator was elected. *)
Definition elected (a : bytes) (ps : list Validator) : Z := len (filter (λ p, Address p = a) ps).

(** After [n] rounds every priority is its start value plus [n] times the
    power minus the total for each election. *)
Lemma rotating_rounds P n vals :
  rotating P vals → P ≤ MaxTotalVotingPower → 2 * P * len (Validators vals) ≤ MaxInt64 →
  ∃ ps vals', selection vals ps vals' ∧ length ps = n ∧ rotating P vals' ∧
    len (Validators vals') = len (Validators vals) ∧ Forall (λ p, Address p ∈ addrs (Validators vals)) ps ∧
    ∀ i v, Validators vals !! i = Some v → ∃ v', Validators vals' !! i = Some v' ∧
      Address v' = Address v ∧ VotingPower v' = VotingPower v ∧
      ProposerPriority v' = ProposerPriority v + Z.of_nat n * VotingPower v - P * elected (Address v) ps.
Proof.
  intros Hrot HP Hbig. revert vals Hrot Hbig. induction n as [|n IH]; intros vals Hrot Hbig.
  { exists [], vals. split_and!; [constructor|done|done|done|constructor|].
    intros i v Hv. exists v. split_and!; [done..|]. unfold elected, len. simpl. lia. }
  destruct (rotating_step P vals Hrot HP) as (k & m & vals1 & Hk & Hinc & Hl1 & _ & Hrot1).
  { intros v Hv. pose proof (rotating_high P vals v Hrot Hv).
    pose proof (power_sum_pos _ (rot_power _ _ Hrot) (rot_nonempty _ _ Hrot)) as [Hn _].
    pose proof (power_pos_elem _ v (rot_power _ _ Hrot) Hv) as Hp. rewrite (rot_P _ _ Hrot) in Hn, Hp. nia. }
  assert (len (Validators vals1) = len (Validators vals)) as Hlen1.
  { rewrite Hl1. unfold len. by rewrite length_insert, length_fmap. }
  destruct (IH vals1 Hrot1) as (ps & vals2 & Hsel & Hlps & Hrot2 & Hlen2 & Hin & Hps); [by rewrite Hlen1|].
  assert (addrs (Validators vals1) = addrs (Validators vals)) as Haddr.
  { rewrite Hl1, list_fmap_insert. simpl. rewrite <-list_fmap_compose, list_insert_id; [done|].
    rewrite list_lookup_fmap, Hk. done. }
  exists (pay P (add_power m) :: ps), vals2. split_and!; [by econstructor|simpl; lia|done|lia| |].
  { constructor; [|by rewrite Haddr in Hin].
    simpl. apply list_elem_of_fmap. exists m. split; [done|]. by eapply list_elem_of_lookup_2. }
  intros i v Hv. pose proof (lookup_lt_Some _ _ _ Hk) as Hlt.
  assert (∃ v1, Validators vals1 !! i = Some v1 ∧ Address v1 = Address v ∧ VotingPower v1 = VotingPower v ∧
    ProposerPriority v1 = ProposerPriority v + VotingPower v - (if decide (Address m = Address v) then P else 0)
    ) as (v1 & Hv1 & Ha1 & Hp1 & Hpr1).
  { rewrite Hl1. destruct (decide (i = k)) as [->|Hik].
    - simplify_eq. rewrite list_lookup_insert_eq by (by rewrite length_fmap).
      eexists. split_and!; [done..|]. simpl. rewrite decide_True by done. lia.
    - rewrite list_lookup_insert_ne, list_lookup_fmap, Hv by done. simpl.
      eexists. split_and!; [done..|]. simpl. rewrite decide_False; [lia|].
      intros Heq. apply Hik. apply (NoDup_lookup (addrs (Validators vals)) i k (Address v)).
      + by apply (rot_nodup P).
      + by rewrite list_lookup_fmap, Hv.
      + rewrite list_lookup_fmap, Hk. simpl. by rewrite Heq. }
  destruct (Hps i v1 Hv1) as (v2 & Hv2 & Ha2 & Hp2 & Hpr2).
  exists v2. split_and!; [done|congruence|congruence|].
  rewrite Hpr2, Hpr1, Hp1, Ha1. unfold elected. rewrite filter_cons. simpl.
  case_decide; rewrite ?len_cons; lia.
Qed.

(** ** The whole increment *)

(** The preparation [IncrementProposerPriority] does before the rounds. *)
Lemma IncrementProposerPriority_prepare vals times :
  valid_set vals → 0 < times →
  ∃ vals0, rotating (power_sum (Validators vals)) vals0 ∧
    same_but_priority (Validators vals) (Validators vals0) ∧
    (∀ v, v ∈ Validators vals0 → ProposerPriority v ≤ 2 * power_sum (Validators vals)) ∧
    IncrementProposerPriority vals times =
      ('(vals', proposer) ← increment_times (Z.to_nat times) vals0 None; Ret (with_proposer vals' proposer)).
Proof.
  intros Hv Ht. pose proof Hv as [Hne [Hnd Hpow Htot Hpr] _].
  pose proof (power_sum_pos _ Hpow Hne) as [_ HP].
  set (P := power_sum (Validators vals)) in *.
  destruct (RescalePriorities_spec (with_total vals P) (2 * P)) as (l1 & Hr & Hs1 & Hb1 & Hsp1); [done|done|lia|].
  simpl in *. pose proof (same_but_priority_facts _ _ Hs1) as (Ha1 & Hp1 & Hl1 & Hf1 & _).
  assert (l1 ≠ []) as Hne1 by (intros ->; by destruct (Validators vals)).
  destruct (shiftByAvgProposerPriority_spec (with_validators (with_total vals P) l1) (2 * P))
    as (l2 & Hsh & Hs2 & Hsp2 & Hsum2 & Hb2); [done|done|done|lia|].
  simpl in *. pose proof (same_but_priority_facts _ _ Hs2) as (Ha2 & Hp2 & Hl2 & Hf2 & _).
  exists (with_validators (with_total vals P) l2). split_and!.
  - split; simpl; [congruence| |auto|unfold P; congruence|done|done|intros v Hv'; specialize (Hb2 v Hv'); lia].
    intros ->. by destruct l1.
  - by eapply same_but_priority_trans.
  - simpl. intros v Hv'. specialize (Hb2 v Hv'). lia.
  - unfold IncrementProposerPriority. rewrite not_empty_false by done.
    replace (times <=? 0) with false by lia. rewrite TotalVotingPower_spec by done.
    cbn -[increment_times int64]. fold P. rewrite (int64_id (PriorityWindowSizeFactor * P)) by mlia.
    change (PriorityWindowSizeFactor * P) with (2 * P). rewrite Hr. simpl. rewrite Hsh. done.
Qed.

(** The state after one increment; the proposer is paid for. *)
Definition elected_one (vals vals' : ValidatorSet) (p : Validator) : Prop :=
  valid_set vals' ∧ same_but_priority (Validators vals) (Validators vals') ∧
  totalVotingPower vals' = power_sum (Validators vals) ∧
  Proposer vals' = Some p ∧ p ∈ Validators vals' ∧
  ∀ w, w ∈ Validators vals' → w ≠ p →
    beats (set_priority p (ProposerPriority p + power_sum (Validators vals))) w.

Lemma IncrementProposerPriority_one vals :
  valid_set vals → ∃ vals' p, IncrementProposerPriority vals 1 = Ret vals' ∧ elected_one vals vals' p.
Proof.
  intros Hv. destruct (IncrementProposerPriority_prepare vals 1 Hv) as (vals0 & Hrot & Hsame & Hhi & ->); [done|].
  pose proof Hv as [Hne [_ _ HP _] _]. pose proof (same_but_priority_facts _ _ Hsame) as (_ & Hps & _).
  set (P := power_sum (Validators vals)) in *.
  assert (∀ v, v ∈ Validators vals0 → 0 < VotingPower v ≤ P) as Hpw.
  { intros v Hv'. rewrite <-(rot_P _ _ Hrot). apply power_pos_elem; [apply Hrot|done]. }
  destruct (rotating_step P vals0 Hrot HP) as (k & m & vals1 & Hk & Hinc & Hl1 & Hbeat & Hrot1).
  { intros v Hv'. specialize (Hhi v Hv'). specialize (Hpw v Hv'). mlia. }
  assert (same_but_priority (Validators vals0) (Validators vals1)) as Hsame1.
  { rewrite Hl1. eapply same_but_priority_trans; [apply (same_but_priority_map (λ v, ProposerPriority v + VotingPower v))|].
    apply same_but_priority_insert with (add_power m); [by rewrite list_lookup_fmap, Hk|done..]. }
  exists (with_proposer vals1 (Some (pay P (add_power m)))), (pay P (add_power m)).
  simpl. rewrite Hinc. simpl. unfold elected_one. simpl. split_and!; [done| |by eapply same_but_priority_trans|apply Hrot1|done| |].
  - split; simpl; [apply Hrot1| |right; rewrite (rot_total _ _ Hrot1); symmetry; apply Hrot1].
    split; [apply Hrot1|apply Hrot1|rewrite (rot_P _ _ Hrot1); lia|].
    rewrite Hl1. apply Forall_insert.
    + apply Forall_fmap, Forall_forall. intros v Hv'. specialize (Hhi v Hv'). specialize (Hpw v Hv').
      pose proof (rot_low _ _ Hrot v Hv'). simpl. mlia.
    + apply list_elem_of_lookup_2 in Hk. specialize (Hhi m Hk). specialize (Hpw m Hk).
      pose proof (rot_low _ _ Hrot m Hk). simpl. mlia.
  - rewrite Hl1. apply list_elem_of_lookup. exists k. apply list_lookup_insert_eq.
    rewrite length_fmap. by eapply lookup_lt_Some.
  - rewrite Hl1. intros w Hw Hne'. apply list_elem_of_lookup in Hw as [i Hi].
    apply list_lookup_insert_Some in Hi as [(-> & <- & _)|(Hik & Hi)]; [done|].
    rewrite list_lookup_fmap in Hi. destruct (Validators vals0 !! i) as [w0|] eqn:Ew; simplify_eq/=.
    specialize (Hbeat i w0 Ew ltac:(done)). unfold beats in *. simpl in *.
    destruct Hbeat as [?|[? ?]]; [left; lia|right; split; [lia|done]].
Qed.

(** One call of [IncrementProposerPriority(1)] on a valid set returns a
    valid set with the same validators, powers and order, the right cached
    total, and a proposer of the set; before paying the total power, that
    proposer beat every other validator (priority first, then the smaller
    address). *)
Theorem IncrementProposerPriority_elects vals :
  valid_set vals →
  ∃ vals' p, IncrementProposerPriority vals 1 = Ret vals' ∧ elected_one vals vals' p.
Proof. apply IncrementProposerPriority_one. Qed.

Definition example_val (c : byte) (power prio : Z) : Validator := mkValidator [c] None power prio.
Definition example_vals : ValidatorSet :=
  mkValidatorSet [example_val x01 10 0; example_val x02 4 100; example_val x03 3 0] None 0 true.

Lemma example_vals_valid : valid_set example_vals.
Proof.
  split; [done| |by left].
  split; [apply (bool_decide_unpack _); vm_compute; exact I|repeat constructor|by vm_compute|repeat constructor; by vm_compute].
Qed.

Lemma IncrementProposerPriority_elects_witness :
  ∃ vals' p, IncrementProposerPriority example_vals 1 = Ret vals' ∧ Proposer vals' = Some p ∧
    p ∈ Validators vals'.
Proof.
  destruct (IncrementProposerPriority_elects example_vals example_vals_valid)
    as (vals' & p & ? & (_ & _ & _ & ? & ? & _)). exists vals', p. split_and!; assumption.
Defined.

(** C15: proposers rotate in proportion to voting power.  For a valid set of
    [n] validators of total power [P] with [2 * n * P <= MaxInt64], and any
    positive number of rounds, the call succeeds, it makes exactly [times]
    elections, the recorded proposer is the last one elected, and a validator
    of power [w] is elected [e] times with
    [times * w - (2n+2) P < e * P <= times * w + 4 P]. *)
Theorem IncrementProposerPriority_fair vals times :
  valid_set vals → 0 < times →
  2 * power_sum (Validators vals) * len (Validators vals) ≤ MaxInt64 →
  ∃ vals0 vals1 vals' ps,
    IncrementProposerPriority vals times = Ret vals' ∧
    selection vals0 ps vals1 ∧ len ps = times ∧
    same_but_priority (Validators vals) (Validators vals0) ∧
    Validators vals' = Validators vals1 ∧ Proposer vals' = last ps ∧
    Forall (λ p, Address p ∈ addrs (Validators vals)) ps ∧
    ∀ v, v ∈ Validators vals →
      let P := power_sum (Validators vals) in let e := elected (Address v) ps in
      times * VotingPower v - (2 * len (Validators vals) + 2) * P < e * P ≤ times * VotingPower v + 4 * P.
Proof.
  intros Hv Ht Hbig.
  destruct (IncrementProposerPriority_prepare vals times Hv Ht) as (vals0 & Hrot & Hsame & Hhi & ->).
  pose proof Hv as [Hne [_ Hpow HP _] _]. pose proof (power_sum_pos _ Hpow Hne) as [Hn HP0].
  pose proof (same_but_priority_facts _ _ Hsame) as (Ha & _ & Hl & _).
  assert (len (Validators vals0) = len (Validators vals)) as Hlen by (unfold len; lia).
  destruct (rotating_rounds _ (Z.to_nat times) vals0 Hrot HP) as (ps & vals1 & Hsel & Hlps & Hrot1 & Hlen1 & Hin & Hcl);
    [by rewrite Hlen|].
  exists vals0, vals1, (with_proposer vals1 (last ps)), ps. split_and!; [|done|unfold len; lia|done..|by rewrite Ha|].
  { rewrite (increment_times_selection _ _ ps vals1) by done. simpl. by destruct (last ps). }
  intros v Hvin P e. apply list_elem_of_lookup in Hvin as [i Hi].
  destruct (Forall2_lookup_l _ _ _ _ _ Hsame Hi) as (v0 & Hi0 & Hav & _ & Hpv).
  destruct (Hcl i v0 Hi0) as (v1 & Hi1 & Ha1 & Hp1 & Hpr). rewrite <-Hav, <-Hpv, Z2Nat.id in Hpr by lia.
  apply list_elem_of_lookup_2 in Hi0, Hi1.
  pose proof (rot_low _ _ Hrot v0 Hi0). pose proof (rot_low _ _ Hrot1 v1 Hi1).
  pose proof (rotating_high _ _ v1 Hrot1 Hi1). specialize (Hhi v0 Hi0). fold P e in Hpr |- *. nia.
Qed.

Lemma IncrementProposerPriority_fair_witness :
  ∃ vals', IncrementProposerPriority example_vals 17 = Ret vals'.
Proof.
  destruct (IncrementProposerPriority_fair example_vals 17 example_vals_valid)
    as (_ & _ & vals' & _ & ? & _); [done|by vm_compute|]. exists vals'. assumption.
Defined.

Lemma put_priority_fold l buf total n :
  (∀ w, w ∈ l → (length (varint (ProposerPriority w)) ≤ n)%nat) →
  ∃ buf', foldl put_priority (buf, total) l =
      (buf', (total + sum_list (length <$> (varint ∘ ProposerPriority <$> l)))%nat) ∧
    drop n buf' = drop n buf.
Proof.
  revert buf total. induction l as [|v l IH]; intros buf total Hl; simpl.
  { exists buf. by rewrite Nat.add_0_r. }
  destruct (IH (varint (ProposerPriority v) ++ drop (length (varint (ProposerPriority v))) buf)
    (total + length (varint (ProposerPriority v)))%nat) as (buf' & -> & Hd); [intros; apply Hl; by right|].
  exists buf'. split; [by rewrite Nat.add_assoc|]. rewrite Hd.
  pose proof (Hl v ltac:(by left)). rewrite drop_app, drop_ge by done. rewrite drop_drop. simpl.
  f_equal. lia.
Qed.

(** [ProposerPriorityHash] does not depend on the priorities of any
    validator but the last, only on how many bytes they encode to: each
    [PutVarint] overwrites the start of the buffer.  Two sets whose priorities
    have encodings of equal length, and whose last priorities are equal and
    encode to no fewer bytes than any other, get the same hash. *)
Theorem ProposerPriorityHash_last_only `{Crypto} (l1 l2 : list Validator) v pr b1 b2 t1 t2 p1 p2 :
  length <$> (varint ∘ ProposerPriority <$> l1) = length <$> (varint ∘ ProposerPriority <$> l2) →
  (∀ w, w ∈ l1 ++ l2 → (length (varint (ProposerPriority w)) ≤ length (varint pr))%nat) →
  ProposerPriorityHash (mkValidatorSet (l1 ++ [set_priority v pr]) p1 t1 b1) =
  ProposerPriorityHash (mkValidatorSet (l2 ++ [set_priority v pr]) p2 t2 b2).
Proof.
  intros Hlen Hle. assert (length l1 = length l2) as Hl.
  { apply (f_equal length) in Hlen. by rewrite !length_fmap in Hlen. }
  unfold ProposerPriorityHash. simpl. rewrite !len_app. replace (len l2) with (len l1) by (unfold len; lia).
  destruct (len l1 + _ =? 0); [done|]. do 2 f_equal. unfold priority_buffer. simpl.
  rewrite !length_app, Hl, !foldl_app. set (buf := replicate _ _).
  destruct (put_priority_fold l1 buf 0 (length (varint pr))) as (c1 & -> & Hc1); [intros; apply Hle; set_solver|].
  destruct (put_priority_fold l2 buf 0 (length (varint pr))) as (c2 & -> & Hc2); [intros; apply Hle; set_solver|].
  simpl. by rewrite Hlen, Hc1, Hc2.
Qed.

#[local] Instance example_crypto : Crypto := {
  key_address := KeyBytes; verify_signature := λ _ _ _, true; sha256 := λ b, b }.

Lemma ProposerPriorityHash_last_only_witness :
  ProposerPriorityHash (mkValidatorSet ([example_val x01 1 5] ++ [set_priority (example_val x02 1 0) 9]) None 0 true) =
  ProposerPriorityHash (mkValidatorSet ([example_val x01 1 (-7)] ++ [set_priority (example_val x02 1 0) 9]) None 0 true).
Proof.
  apply (ProposerPriorityHash_last_only [example_val x01 1 5] [example_val x01 1 (-7)]); [by vm_compute|].
  simpl. intros w Hw. apply elem_of_cons in Hw as [-> |Hw]; [vm_compute; lia|].
  apply list_elem_of_singleton in Hw as ->. vm_compute. lia.
Defined.
