(* ===== verification/ValidatorSetUpdate.v ===== *)
(** * Validator sets: change sets

    [updateWithChangeSet] of [src/hetu-cometbft/types/validator_set.go]
    implements the update of a finite map from addresses to voting powers:
    it succeeds exactly when the abstract update is allowed, then the new set
    holds exactly the updated map, and otherwise it reports an error and
    leaves the validators alone. *)
From S2P Require Import Prelude.
From S2P Require Import SafeMath.
From S2P Require Import Validator.
From S2P Require Import ValidatorSet.
From S2P Require Import ValidatorSetPriority.

(** ** Abstract specification *)

Definition powers (l : list Validator) : gmap bytes Z :=
  list_to_map ((λ v, (Address v, VotingPower v)) <$> l).

Definition change_powers (changes : list Validator) (m : gmap bytes Z) : gmap bytes Z :=
  foldr (λ c m, if VotingPower c =? 0 then delete (Address c) m else <[Address c := VotingPower c]> m) m changes.

(** The change set may be applied to the powers of [l]. *)
Record allowed (l changes : list Validator) (allowDeletes : bool) : Prop := {
  al_nodup : NoDup ([] :: addrs changes);
  al_range : Forall (λ c, 0 ≤ VotingPower c ≤ MaxTotalVotingPower) changes;
  al_deletes : ∀ c, c ∈ changes → VotingPower c = 0 → allowDeletes = true ∧ Address c ∈ addrs l;
  al_nonempty : change_powers changes (powers l) ≠ ∅;
  al_total : map_fold (λ _ p s, p + s) 0 (change_powers changes (powers l)) ≤ MaxTotalVotingPower;
}.

(** ** Orders on addresses *)

Definition addr_le (a b : bytes) : Prop := ¬ bytes_lt b a.
Definition addr_sorted (l : list Validator) : Prop := StronglySorted bytes_lt (addrs l).

Lemma addr_le_lt a b : addr_le a b → a ≠ b → bytes_lt a b.
Proof. intros Hle Hne. destruct (bytes_lt_total a b) as [|[|]]; [done..|]. by destruct Hle. Qed.
Lemma addr_le_antisym a b : addr_le a b → addr_le b a → a = b.
Proof. intros Hab Hba. destruct (decide (a = b)); [done|]. destruct Hba. by apply addr_le_lt. Qed.
Lemma addr_le_trans a b c : addr_le a b → addr_le b c → addr_le a c.
Proof.
  intros Hab Hbc Hca. destruct (bytes_lt_total a b) as [H|[->|H]]; [|done..].
  apply Hbc. by eapply bytes_lt_trans.
Qed.
Lemma nil_addr_le a : addr_le [] a.
Proof. unfold addr_le, bytes_lt. by destruct a. Qed.

Lemma ByAddress_asym x y : ByAddress_Less x y = true → ByAddress_Less y x = false.
Proof.
  unfold ByAddress_Less. rewrite bytes_ltb_lt. intros Hlt. apply not_true_is_false. rewrite bytes_ltb_lt.
  intros Hlt'. by apply (bytes_lt_irrefl (Address x)), (bytes_lt_trans _ (Address y)).
Qed.
Lemma ByAddress_ng x y : not_greater ByAddress_Less x y ↔ addr_le (Address x) (Address y).
Proof.
  unfold not_greater, ByAddress_Less, addr_le. rewrite <-bytes_ltb_lt.
  destruct (bytes_ltb (Address y) (Address x)); naive_solver.
Qed.
Lemma ByAddress_ng_trans x y z :
  not_greater ByAddress_Less x y → not_greater ByAddress_Less y z → not_greater ByAddress_Less x z.
Proof. rewrite !ByAddress_ng. apply addr_le_trans. Qed.

Lemma sort_ByAddress_le l : StronglySorted addr_le (addrs (sort_by ByAddress_Less l)).
Proof.
  apply (StronglySorted_fmap Address addr_le). eapply StronglySorted_weaken; [|apply (sort_by_sorted _ ByAddress_asym ByAddress_ng_trans)].
  intros x y. apply ByAddress_ng.
Qed.

Lemma le_nodup_lt l : StronglySorted addr_le l → NoDup l → StronglySorted bytes_lt l.
Proof.
  induction 1 as [|a l Hs IH Hall]; [constructor|]. intros [Hni Hnd]%NoDup_cons.
  constructor; [by apply IH|]. rewrite Forall_forall in *. intros b Hb.
  apply addr_le_lt; [by apply Hall|]. by intros ->.
Qed.

Lemma sort_ByAddress_lt l : NoDup (addrs l) → addr_sorted (sort_by ByAddress_Less l).
Proof. intros Hnd. apply le_nodup_lt; [apply sort_ByAddress_le|]. by rewrite sort_by_perm. Qed.

Lemma addr_sorted_nodup l : addr_sorted l → NoDup (addrs l).
Proof.
  unfold addr_sorted. generalize (addrs l). induction 1 as [|a l' Hs IH Hall]; [constructor|].
  apply NoDup_cons. split; [|done]. intros Hin. rewrite Forall_forall in Hall.
  by apply (bytes_lt_irrefl a), Hall.
Qed.

Lemma addr_sorted_filter (P : Validator → Prop) `{∀ v, Decision (P v)} l :
  addr_sorted l → addr_sorted (filter P l).
Proof.
  unfold addr_sorted. induction l as [|v l IH]; [done|]. inversion_clear 1 as [|? ? Hs Hall].
  rewrite filter_cons. case_decide; [|by apply IH]. simpl. constructor; [by apply IH|].
  rewrite Forall_forall in *. intros a (x & -> & [_ Hx]%list_elem_of_filter)%list_elem_of_fmap.
  apply Hall. by apply (list_elem_of_fmap_2 Address).
Qed.

Lemma addrs_filter_nodup (P : Validator → Prop) `{∀ v, Decision (P v)} l :
  NoDup (addrs l) → NoDup (addrs (filter P l)).
Proof. intros Hnd. eapply sublist_NoDup; [exact Hnd|]. apply fmap_sublist, sublist_filter. Qed.

(** ** The scan of the changes *)

Lemma scan_changes_spec prev cs upd rem :
  StronglySorted addr_le (prev :: addrs cs) →
  (NoDup (prev :: addrs cs) ∧ Forall (λ c, 0 ≤ VotingPower c ≤ MaxTotalVotingPower) cs ∧
   scan_changes prev cs upd rem =
     inl (upd ++ filter (λ c, VotingPower c ≠ 0) cs, rem ++ filter (λ c, VotingPower c = 0) cs)) ∨
  (¬ (NoDup (prev :: addrs cs) ∧ Forall (λ c, 0 ≤ VotingPower c ≤ MaxTotalVotingPower) cs) ∧
   ∃ e, scan_changes prev cs upd rem = inr e).
Proof.
  revert prev upd rem. induction cs as [|c cs IH]; intros prev upd rem Hs; simpl.
  { left. rewrite !app_nil_r. split_and!; [apply NoDup_singleton|constructor|done]. }
  simpl in Hs. inversion_clear Hs as [|? ? Hs' Hall]. apply Forall_cons in Hall as [Hpc Hall].
  destruct (decide (Address c = prev)) as [->|Hne].
  { right. split; [|eauto]. intros [[Hni _]%NoDup_cons _]. apply Hni. left. }
  destruct (Z.ltb_spec (VotingPower c) 0) as [Hneg|Hnn].
  { right. split; [|eauto]. intros [_ [? _]%Forall_cons]. lia. }
  destruct (Z.ltb_spec MaxTotalVotingPower (VotingPower c)) as [Hbig|Hok].
  { right. split; [|eauto]. intros [_ [? _]%Forall_cons]. lia. }
  assert (NoDup (Address c :: addrs cs) ↔ NoDup (prev :: Address c :: addrs cs)) as Hnd.
  { rewrite (NoDup_cons prev). split; [|tauto]. intros Hnd. split; [|done].
    rewrite elem_of_cons. intros [->|Hin]; [done|]. inversion_clear Hs' as [|? ? _ Hall'].
    rewrite Forall_forall in Hall'. apply Hne. apply addr_le_antisym; [by apply Hall'|done]. }
  rewrite !filter_cons, <-Hnd, Forall_cons.
  destruct (Z.eqb_spec (VotingPower c) 0) as [H0|H0];
    [rewrite decide_False, decide_True by (done || tauto)|rewrite decide_True, decide_False by done].
  - destruct (IH (Address c) upd (rem ++ [c]) Hs') as [(?&?&->)|(?&?)]; [left|right; tauto].
    rewrite <-(assoc_L (++)). done.
  - destruct (IH (Address c) (upd ++ [c]) rem Hs') as [(?&?&->)|(?&?)]; [left|right; tauto].
    rewrite <-(assoc_L (++)). done.
Qed.

Lemma processChanges_spec changes :
  let sorted := sort_by ByAddress_Less changes in
  (NoDup ([] :: addrs changes) ∧ Forall (λ c, 0 ≤ VotingPower c ≤ MaxTotalVotingPower) changes ∧
   processChanges changes =
     inl (filter (λ c, VotingPower c ≠ 0) sorted, filter (λ c, VotingPower c = 0) sorted)) ∨
  (¬ (NoDup ([] :: addrs changes) ∧ Forall (λ c, 0 ≤ VotingPower c ≤ MaxTotalVotingPower) changes) ∧
   ∃ e, processChanges changes = inr e).
Proof.
  intros sorted. unfold processChanges.
  destruct (scan_changes_spec [] sorted [] []) as [Hs|Hs].
  { constructor; [apply sort_ByAddress_le|]. apply Forall_forall. intros. apply nil_addr_le. }
  - left. destruct Hs as (Hnd & Hr & Hs). fold sorted. rewrite Hs. unfold sorted in Hnd, Hr. by rewrite sort_by_perm in Hnd, Hr.
  - right. destruct Hs as (Hn & He). split; [|done]. unfold sorted in Hn. by rewrite sort_by_perm in Hn.
Qed.

(** ** Lookups *)

Lemma find_address_spec l a i :
  match find_address l a i with
  | Some (_, v) => v ∈ l ∧ Address v = a
  | None => a ∉ addrs l
  end.
Proof.
  revert i. induction l as [|v l IH]; intros i; simpl; [apply not_elem_of_nil|].
  case_decide as Hv; [split; [by left|done]|]. specialize (IH (i + 1)).
  destruct (find_address l a (i + 1)) as [[j w]|].
  - destruct IH. split; [by right|done].
  - rewrite not_elem_of_cons. split; [congruence|done].
Qed.

Lemma GetByAddress_spec vals a :
  match snd (GetByAddress vals a) with
  | Some v => v ∈ Validators vals ∧ Address v = a
  | None => a ∉ addrs (Validators vals)
  end.
Proof.
  unfold GetByAddress. pose proof (find_address_spec (Validators vals) a 0) as Hf.
  by destruct (find_address _ _ _) as [[j w]|].
Qed.

Lemma HasAddress_spec vals a : HasAddress vals a = true ↔ a ∈ addrs (Validators vals).
Proof.
  unfold HasAddress. rewrite existsb_exists. setoid_rewrite bool_decide_eq_true.
  rewrite list_elem_of_fmap. setoid_rewrite <-list_elem_of_In.
  split; intros (v & ? & ?); exists v; split; done.
Qed.

Lemma nodup_addr_eq l v w : NoDup (addrs l) → v ∈ l → w ∈ l → Address v = Address w → v = w.
Proof.
  intros Hnd [i Hi]%list_elem_of_lookup [j Hj]%list_elem_of_lookup Heq.
  assert (i = j) as <-; [|congruence].
  apply (NoDup_lookup _ _ _ (Address v) Hnd); rewrite list_lookup_fmap; [by rewrite Hi|by rewrite Hj, Heq].
Qed.

(** The power an address had before, 0 when it was not there. *)
Definition old_power (vals : ValidatorSet) (a : bytes) : Z :=
  match snd (GetByAddress vals a) with Some v => VotingPower v | None => 0 end.

Lemma old_power_in vals v :
  NoDup (addrs (Validators vals)) → v ∈ Validators vals → old_power vals (Address v) = VotingPower v.
Proof.
  intros Hnd Hv. unfold old_power. pose proof (GetByAddress_spec vals (Address v)) as Hg.
  destruct (snd _) as [w|].
  - destruct Hg as [Hw Ha]. by rewrite (nodup_addr_eq (Validators vals) v w).
  - destruct Hg. by apply list_elem_of_fmap_2.
Qed.

Lemma old_power_range vals a :
  valid_list (Validators vals) → 0 ≤ old_power vals a ≤ power_sum (Validators vals).
Proof.
  intros Hl. unfold old_power. pose proof (GetByAddress_spec vals a) as Hg.
  destruct (snd _) as [w|].
  - destruct Hg as [Hw _]. pose proof (power_pos_elem _ _ (vl_power _ Hl) Hw). lia.
  - split; [done|]. apply zsum_nonneg. intros v Hv. pose proof (power_pos_elem _ _ (vl_power _ Hl) Hv). lia.
Qed.

Lemma old_power_filter vals a :
  NoDup (addrs (Validators vals)) →
  old_power vals a = power_sum (filter (λ v, Address v = a) (Validators vals)).
Proof.
  intros Hnd. assert (∀ i, match find_address (Validators vals) a i with Some (_, v) => VotingPower v | None => 0 end =
    power_sum (filter (λ v, Address v = a) (Validators vals))) as Hf.
  2: { rewrite <-(Hf 0). unfold old_power, GetByAddress. by destruct (find_address _ _ _) as [[? ?]|]. }
  induction (Validators vals) as [|v l IH]; intros i; simpl; [done|].
  apply NoDup_cons in Hnd as [Hni Hnd]. rewrite filter_cons. case_decide as Hv; simpl.
  - rewrite zsum_cons. rewrite (filter_none _ l); [rewrite zsum_nil; lia|].
    intros w Hw Ha. apply Hni. rewrite Hv, <-Ha. by apply list_elem_of_fmap_2.
  - by apply IH.
Qed.

(** Sums over a list of distinct addresses count each validator once; what
    they leave are the other validators. *)
Lemma zsum_by_address (w : Validator → Z) (V l : list Validator) :
  NoDup (addrs l) →
  zsum (λ c, zsum w (filter (λ v, Address v = Address c) V)) l =
  zsum w V - zsum w (filter (λ v, Address v ∉ addrs l) V).
Proof.
  induction l as [|c l IH].
  { intros _. rewrite zsum_nil. rewrite filter_all; [lia|].
    intros v _. apply not_elem_of_nil. }
  intros [Hni Hndl]%NoDup_cons. rewrite zsum_cons, IH by done.
  assert (zsum w (filter (λ v, Address v ∉ addrs l) V) =
    zsum w (filter (λ v, Address v = Address c) V) +
    zsum w (filter (λ v, Address v ∉ addrs (c :: l)) V)) as ->; [|lia].
  rewrite !zsum_filter, <-zsum_add. apply zsum_ext_in. intros v _.
  destruct (decide (Address v = Address c)) as [->|Hne].
  - rewrite decide_True by done. rewrite decide_False; [lia|]. rewrite fmap_cons, elem_of_cons. tauto.
  - assert (Address v ∉ addrs l ↔ Address v ∉ addrs (c :: l)) as Hiff by (rewrite fmap_cons, elem_of_cons; tauto).
    do 2 case_decide; solve [lia|tauto].
Qed.

Lemma old_power_split vals (l : list Validator) :
  NoDup (addrs (Validators vals)) → NoDup (addrs l) →
  zsum (λ c, old_power vals (Address c)) l =
  power_sum (Validators vals) - power_sum (filter (λ v, Address v ∉ addrs l) (Validators vals)).
Proof.
  intros Hnd Hl. rewrite <-zsum_by_address by done. apply zsum_ext_in. intros c _. by apply old_power_filter.
Qed.

Lemma count_address V a :
  NoDup (addrs V) → len (filter (λ v, Address v = a) V) = if decide (a ∈ addrs V) then 1 else 0.
Proof.
  induction V as [|v V IH]; [done|]. intros [Hni Hnd]%NoDup_cons. rewrite filter_cons, fmap_cons.
  destruct (decide (Address v = a)) as [<-|Hne].
  - rewrite decide_True by left. rewrite len_cons, IH, decide_False by done. lia.
  - rewrite IH by done. assert (a ∈ addrs V ↔ a ∈ Address v :: addrs V) as Hiff by (rewrite elem_of_cons; split; [tauto|intros [?|?]; [congruence|done] ]).
    do 2 case_decide; solve [lia|tauto].
Qed.

(** Sums over a subset of the validators. *)
Lemma powers_nonneg (P : Validator → Prop) `{∀ v, Decision (P v)} l :
  Forall (λ v, 0 < VotingPower v) l → 0 ≤ power_sum (filter P l) ≤ power_sum l.
Proof.
  rewrite Forall_forall. intros Hp. split.
  - apply zsum_nonneg. intros v [_ Hv]%list_elem_of_filter. specialize (Hp v Hv). simpl in Hp. lia.
  - apply zsum_filter_le. intros v Hv. specialize (Hp v Hv). simpl in Hp. lia.
Qed.

(** ** Verification of removals and updates *)

Lemma removals_loop vals ds r :
  (∀ d, d ∈ ds → 0 ≤ old_power vals (Address d)) → 0 ≤ r →
  r + zsum (λ d, old_power vals (Address d)) ds ≤ MaxInt64 →
  let body := λ d (acc : Z + update_error),
          match acc with
          | inr e => Ret (inr e)
          | inl removed =>
              match snd (GetByAddress vals (Address d)) with
              | None => Ret (inr ErrRemovalNotFound)
              | Some v => Ret (inl (int64 (removed + VotingPower v)))
              end
          end in
  (∀ e, for_each body ds (inr e) = Ret (inr e)) ∧
  for_each body ds (inl r) =
    if decide (Forall (λ d, Address d ∈ addrs (Validators vals)) ds)
    then Ret (inl (r + zsum (λ d, old_power vals (Address d)) ds)) else Ret (inr ErrRemovalNotFound).
Proof.
  intros Hnn Hr Hs body. revert r Hr Hs. induction ds as [|d ds IH]; intros r Hr Hs.
  { split; [done|]. rewrite decide_True by constructor. rewrite zsum_nil, Z.add_0_r. done. }
  assert (0 ≤ zsum (λ d, old_power vals (Address d)) ds) as Hrest.
  { apply zsum_nonneg. intros. apply Hnn. by right. }
  rewrite zsum_cons in Hs |- *. pose proof (Hnn d ltac:(by left)) as Hd.
  assert (∀ d, d ∈ ds → 0 ≤ old_power vals (Address d)) as Hnn' by (intros; apply Hnn; by right).
  split. { intros e. simpl. apply (IH Hnn' 0); lia. }
  simpl. pose proof (GetByAddress_spec vals (Address d)) as Hg. 
  pose proof (eq_refl (old_power vals (Address d))) as Hold. unfold old_power in Hold at 2.
  destruct (snd (GetByAddress vals (Address d))) as [v|] eqn:Eg; simpl.
  - rewrite int64_id by ulia. destruct (IH Hnn' (r + VotingPower v)) as [_ ->]; [lia|lia|].
    destruct Hg as [Hv Ha]. assert (Address d ∈ addrs (Validators vals)) as Hin.
    { rewrite <-Ha. by apply list_elem_of_fmap_2. }
    rewrite (decide_ext (Forall _ (d :: ds)) (Forall (λ d, Address d ∈ addrs (Validators vals)) ds)).
    2: { rewrite Forall_cons. tauto. }
    case_decide; [|done]. do 2 f_equal. lia.
  - rewrite decide_False by (rewrite Forall_cons; tauto). apply (IH Hnn' 0); lia.
Qed.

Lemma subset_length (ds l : list Validator) :
  NoDup (addrs ds) → Forall (λ d, Address d ∈ addrs l) ds → len ds ≤ len l.
Proof.
  intros Hnd Hin. unfold len. apply inj_le. rewrite <-(length_fmap Address ds), <-(length_fmap Address l).
  apply submseteq_length, NoDup_submseteq; [done|].
  intros a (d & -> & Hd)%list_elem_of_fmap. rewrite Forall_forall in Hin. by apply Hin.
Qed.

Lemma verifyRemovals_spec ds vals :
  valid_list (Validators vals) → NoDup (addrs ds) →
  verifyRemovals ds vals =
    if decide (Forall (λ d, Address d ∈ addrs (Validators vals)) ds)
    then Ret (inl (zsum (λ d, old_power vals (Address d)) ds)) else Ret (inr ErrRemovalNotFound).
Proof.
  intros Hl Hnd. unfold verifyRemovals.
  destruct (removals_loop vals ds 0) as [_ ->]; [intros; by apply old_power_range|done| |].
  - rewrite old_power_split by (done || apply Hl).
    pose proof (powers_nonneg (λ v, Address v ∉ addrs ds) _ (vl_power _ Hl)). pose proof (vl_total _ Hl). mlia.
  - case_decide as Hall; [|done]. simpl. pose proof (subset_length _ _ Hnd Hall).
    destruct (Z.ltb_spec (len (Validators vals)) (len ds)); [lia|]. done.
Qed.

Lemma delta_exact vals u :
  valid_list (Validators vals) → 0 ≤ VotingPower u ≤ MaxTotalVotingPower →
  delta vals u = VotingPower u - old_power vals (Address u).
Proof.
  intros Hl Hu. pose proof (old_power_range vals (Address u) Hl) as Ho. pose proof (vl_total _ Hl).
  unfold delta. unfold old_power in *. destruct (snd _); [|lia]. rewrite int64_id; mlia.
Qed.

(** Adding the deltas in ascending order overflows only if the final total
    does. *)
Lemma add_deltas_spec vals us t :
  (∀ u, u ∈ us → delta vals u = VotingPower u - old_power vals (Address u) ∧
     0 ≤ VotingPower u ≤ MaxTotalVotingPower ∧ 0 ≤ old_power vals (Address u)) →
  StronglySorted (λ a b, delta vals a ≤ delta vals b) us →
  t ≤ MaxTotalVotingPower → MinInt64 ≤ t - zsum (λ u, old_power vals (Address u)) us →
  add_deltas vals us t =
    if decide (t + zsum (delta vals) us ≤ MaxTotalVotingPower) then inl (t + zsum (delta vals) us)
    else inr ErrTotalVotingPowerOverflow.
Proof.
  intros Hus Hs. revert t. induction Hs as [|u us Hs IH Hall]; intros t Ht Hlow; simpl.
  { rewrite zsum_nil, Z.add_0_r. by rewrite decide_True. }
  assert (0 ≤ zsum (λ u, old_power vals (Address u)) us).
  { apply zsum_nonneg. intros x Hx. apply (Hus x). by right. }
  rewrite zsum_cons in Hlow |- *. pose proof (Hus u ltac:(by left)) as (Hd & Hp & Ho).
  rewrite int64_id by mlia. destruct (Z.ltb_spec MaxTotalVotingPower (t + delta vals u)) as [Hov|Hok].
  - rewrite decide_False; [done|].
    assert (0 ≤ zsum (delta vals) us); [|lia]. rewrite Forall_forall in Hall.
    apply zsum_nonneg. intros x Hx. specialize (Hall x Hx). simpl in Hall. lia.
  - rewrite IH; [by rewrite Z.add_assoc|intros x Hx; apply Hus; by right|lia|lia].
Qed.

Lemma add_deltas_with_total vals x us t : add_deltas (with_total vals x) us t = add_deltas vals us t.
Proof.
  revert t. induction us as [|u us IH]; intros t; [done|]. simpl.
  change (delta (with_total vals x) u) with (delta vals u). case_match; [done|]. apply IH.
Qed.

Lemma sort_delta_sorted vals us :
  StronglySorted (λ a b, delta vals a ≤ delta vals b) (sort_by (λ a b, delta vals a <? delta vals b) us).
Proof.
  eapply StronglySorted_weaken; [|apply sort_by_sorted]; unfold not_greater; intros; simpl in *; lia.
Qed.

Lemma verifyUpdates_spec vals us removed :
  valid_list (Validators vals) → totalVotingPower vals = 0 ∨ totalVotingPower vals = power_sum (Validators vals) →
  NoDup (addrs us) → Forall (λ u, 0 ≤ VotingPower u ≤ MaxTotalVotingPower) us →
  0 ≤ removed ≤ power_sum (Validators vals) →
  let final := power_sum (Validators vals) - removed - zsum (λ u, old_power vals (Address u)) us + power_sum us in
  verifyUpdates us vals removed = Ret (with_total vals (power_sum (Validators vals)),
    if decide (final ≤ MaxTotalVotingPower) then inl (final + removed) else inr ErrTotalVotingPowerOverflow).
Proof.
  intros Hl Ht Hnd Hus Hrem final. rewrite Forall_forall in Hus. unfold verifyUpdates.
  rewrite TotalVotingPower_list by done. simpl.
  rewrite add_deltas_with_total.
  pose proof (old_power_split vals us (vl_nodup _ Hl) Hnd) as Hsplit.
  pose proof (powers_nonneg (λ v, Address v ∉ addrs us) _ (vl_power _ Hl)) as Hpn.
  pose proof (vl_total _ Hl) as HM. rewrite (int64_id (_ - removed)) by mlia.
  assert (∀ u, u ∈ us → delta vals u = VotingPower u - old_power vals (Address u)) as Hd
    by (intros u Hu; apply delta_exact; [done|by apply Hus]).
  set (sorted := sort_by _ us). assert (sorted ≡ₚ us) as Hperm by apply sort_by_perm.
  rewrite add_deltas_spec; [|intros u Hu; rewrite Hperm in Hu|apply sort_delta_sorted|lia|].
  - rewrite (zsum_perm _ _ _ Hperm).
    assert (zsum (delta vals) us = power_sum us - zsum (λ u, old_power vals (Address u)) us) as ->.
    { apply (Z.add_cancel_r _ _ (zsum (λ u, old_power vals (Address u)) us)). rewrite <-zsum_add.
      rewrite Z.sub_add. apply zsum_ext_in. intros u Hu. rewrite Hd by done. lia. }
    replace (_ - removed + _) with final by (unfold final; lia).
    case_decide; [|done]. do 3 f_equal. apply int64_id.
    assert (0 ≤ power_sum us) by (apply zsum_nonneg; intros u Hu; specialize (Hus u Hu); simpl in Hus; lia).
    unfold final in *. mlia.
  - split_and!; [by apply Hd|by apply Hus..|by apply old_power_range].
  - rewrite (zsum_perm _ _ _ Hperm). mlia.
Qed.

(** ** Merging and removing *)

Lemma addr_sorted_cons v l :
  addr_sorted (v :: l) ↔ addr_sorted l ∧ ∀ w, w ∈ l → bytes_lt (Address v) (Address w).
Proof.
  unfold addr_sorted. simpl. split.
  - inversion_clear 1 as [|? ? Hs Hall]. split; [done|]. rewrite Forall_forall in Hall.
    intros w Hw. apply Hall. by apply (list_elem_of_fmap_2 Address).
  - intros [Hs Hall]. constructor; [done|]. apply Forall_forall.
    intros a (w & -> & Hw)%list_elem_of_fmap. by apply Hall.
Qed.

Lemma addr_lt_not_in v (l : list Validator) : (∀ w, w ∈ l → bytes_lt (Address v) (Address w)) → Address v ∉ addrs l.
Proof.
  intros Hlt (w & Ha & Hw)%list_elem_of_fmap. specialize (Hlt w Hw). rewrite <-Ha in Hlt.
  by apply bytes_lt_irrefl in Hlt.
Qed.

Lemma not_in_cons_addr (w c : Validator) l :
  Address w ≠ Address c → Address w ∉ addrs (c :: l) ↔ Address w ∉ addrs l.
Proof. intros Hne. rewrite fmap_cons, elem_of_cons. tauto. Qed.

Lemma merge_updates_spec E U :
  addr_sorted E → addr_sorted U →
  merge_updates E U ≡ₚ filter (λ v, Address v ∉ addrs U) E ++ U ∧ addr_sorted (merge_updates E U).
Proof.
  revert U. induction E as [|e E IHE]; intros U HE HU; [by destruct U|].
  induction U as [|u U IHU].
  { split; [|done]. simpl. rewrite app_nil_r, filter_all; [done|]. intros v _. apply not_elem_of_nil. }
  pose proof HE as [HE' HeE]%addr_sorted_cons. pose proof HU as [HU' HuU]%addr_sorted_cons.
  change (merge_updates (e :: E) (u :: U)) with
    (if bytes_ltb (Address e) (Address u) then e :: merge_updates E (u :: U)
     else u :: (if decide (Address e = Address u) then merge_updates E U else merge_updates (e :: E) U)).
  destruct (bytes_ltb (Address e) (Address u)) eqn:Elt.
  - apply bytes_ltb_lt in Elt. destruct (IHE (u :: U) HE' HU) as [Hp Hs].
    assert (∀ w, w ∈ u :: U → bytes_lt (Address e) (Address w)) as HeU.
    { intros w [->|Hw]%elem_of_cons; [done|]. eapply bytes_lt_trans; [done|by apply HuU]. }
    split.
    + rewrite filter_cons, decide_True by (by apply addr_lt_not_in). simpl. by constructor.
    + apply addr_sorted_cons. split; [done|]. intros w Hw. rewrite Hp in Hw.
      apply elem_of_app in Hw as [[_ Hw]%list_elem_of_filter|Hw]; auto.
  - destruct (decide (Address e = Address u)) as [Heq|Hne].
    + destruct (IHE U HE' HU') as [Hp Hs]. split.
      * rewrite filter_cons, decide_False by (rewrite Heq, fmap_cons; intros Hn; apply Hn; left).
        rewrite <-Permutation_middle, Hp. constructor. rewrite (filter_ext_in _ (λ v, Address v ∉ addrs (u :: U))); [done|].
        intros w Hw. symmetry. apply not_in_cons_addr. intros Ha. specialize (HeE w Hw).
        rewrite Ha, Heq in HeE. by apply bytes_lt_irrefl in HeE.
      * apply addr_sorted_cons. split; [done|]. intros w Hw. rewrite Hp in Hw.
        apply elem_of_app in Hw as [[_ Hw]%list_elem_of_filter|Hw]; [rewrite <-Heq|]; auto.
    + assert (bytes_lt (Address u) (Address e)) as Hue.
      { destruct (bytes_lt_total (Address e) (Address u)) as [Hlt|[|]]; [|done..].
        apply bytes_ltb_lt in Hlt. congruence. }
      destruct (IHU HU') as [Hp Hs].
      assert (∀ w, w ∈ e :: E → bytes_lt (Address u) (Address w)) as HuE.
      { intros w [->|Hw]%elem_of_cons; [done|]. eapply bytes_lt_trans; [done|by apply HeE]. }
      split.
      * rewrite <-Permutation_middle, Hp. constructor.
        rewrite (filter_ext_in _ (λ v, Address v ∉ addrs (u :: U))); [done|].
        intros w Hw. symmetry. apply not_in_cons_addr. intros Ha. specialize (HuE w Hw).
        rewrite Ha in HuE. by apply bytes_lt_irrefl in HuE.
      * apply addr_sorted_cons. split; [done|]. intros w Hw. rewrite Hp in Hw.
        apply elem_of_app in Hw as [[_ Hw]%list_elem_of_filter|Hw]; auto.
Qed.

Lemma remove_loop_spec E D merged room :
  addr_sorted E → addr_sorted D → Forall (λ d, Address d ∈ addrs E) D → room = len E - len D →
  remove_loop E D merged room = Ret (merged ++ filter (λ v, Address v ∉ addrs D) E).
Proof.
  revert D merged room. induction E as [|e E IH]; intros D merged room HE HD Hin Hroom.
  { destruct D as [|d D]; [|by apply Forall_cons in Hin as [Hd%elem_of_nil _] ].
    simpl. rewrite Hroom. done. }
  pose proof HE as [HE' HeE]%addr_sorted_cons. destruct D as [|d D].
  { cbn [remove_loop]. rewrite filter_all by (intros v _; apply not_elem_of_nil).
    change (len []) with 0 in Hroom. destruct (Z.ltb_spec room (len (e :: E))); [lia|done]. }
  pose proof HD as [HD' HdD]%addr_sorted_cons. pose proof Hin as [Hd HinD]%Forall_cons.
  rewrite !len_cons in Hroom. cbn [remove_loop]. destruct (decide (Address e = Address d)) as [Heq|Hne].
  - rewrite filter_cons, decide_False by (rewrite Heq, fmap_cons; intros Hn; apply Hn; left).
    rewrite (IH D merged room HE' HD'); [| |lia].
    + f_equal. f_equal. apply filter_ext_in. intros w Hw. symmetry. apply not_in_cons_addr.
      intros Ha. apply (addr_lt_not_in e E HeE). rewrite Heq, <-Ha. by apply list_elem_of_fmap_2.
    + rewrite Forall_forall in *. intros w Hw. specialize (HinD w Hw).
      apply elem_of_cons in HinD as [Ha|]; [|done]. specialize (HdD w Hw). rewrite Ha, Heq in HdD.
      by apply bytes_lt_irrefl in HdD.
  - assert (Address d ∈ addrs E) as HdE by (apply elem_of_cons in Hd as [|]; [by destruct Hne|done]).
    assert (bytes_lt (Address e) (Address d)) as Hed.
    { apply list_elem_of_fmap in HdE as (w & -> & Hw). by apply HeE. }
    assert (Forall (λ d, Address d ∈ addrs E) (d :: D)) as Hin'.
    { constructor; [done|]. rewrite Forall_forall in *. intros w Hw. specialize (HinD w Hw).
      apply elem_of_cons in HinD as [Ha|]; [|done]. exfalso. specialize (HdD w Hw). rewrite Ha in HdD.
      by apply (bytes_lt_irrefl (Address e)), (bytes_lt_trans _ (Address d)). }
    pose proof (subset_length _ _ (addr_sorted_nodup _ HD) Hin') as Hle. rewrite len_cons in Hle.
    destruct (Z.leb_spec room 0); [lia|]. rewrite (IH (d :: D)); [|done..|rewrite len_cons; lia].
    rewrite filter_cons, decide_True, <-(assoc_L (++)); [done|].
    apply addr_lt_not_in. intros w [->|Hw]%elem_of_cons; [done|]. eapply bytes_lt_trans; [done|by apply HdD].
Qed.

(** ** Key types *)

(** Every validator has a public key. *)
Definition keyed (l : list Validator) : Prop := Forall (λ v, PubKey_ v ≠ None) l.

Lemma checkAllKeysHaveSameType_keyed vals :
  keyed (Validators vals) → ∃ b, checkAllKeysHaveSameType vals = Ret (with_same_type vals b).
Proof.
  intros Hk. unfold checkAllKeysHaveSameType. destruct (Size vals =? 0); [eauto|].
  match goal with |- context [for_each ?f _ _] => set (body := f) end.
  assert (∀ acc, ∃ acc', for_each body (Validators vals) acc = Ret acc') as Hloop.
  { induction Hk as [|v l Hv Hk IH]; intros acc; [by exists acc|]. simpl.
    assert (∃ acc', body v acc = Ret acc') as [acc' ->].
    { unfold body. destruct acc as [t|b]; [|eauto]. destruct (PubKey_ v) as [pk|]; [|done].
      repeat case_decide; eauto. }
    apply IH. }
  destruct (Hloop (inl ""%string)) as [acc' ->]. simpl. eauto.
Qed.

(** ** The tail of an update: re-type, re-total, rescale, center, sort *)

Definition power_sorted (l : list Validator) : Prop := StronglySorted (not_greater ByVotingPower_Less) l.

Lemma ByVotingPower_asym x y : ByVotingPower_Less x y = true → ByVotingPower_Less y x = false.
Proof.
  unfold ByVotingPower_Less. rewrite (Z.eqb_sym (VotingPower y)).
  destruct (Z.eqb_spec (VotingPower x) (VotingPower y)); [apply ByAddress_asym|lia].
Qed.

Lemma ByVotingPower_ng_trans x y z :
  not_greater ByVotingPower_Less x y → not_greater ByVotingPower_Less y z → not_greater ByVotingPower_Less x z.
Proof.
  unfold not_greater, ByVotingPower_Less.
  destruct (Z.eqb_spec (VotingPower y) (VotingPower x)), (Z.eqb_spec (VotingPower z) (VotingPower y)),
    (Z.eqb_spec (VotingPower z) (VotingPower x)); try lia. apply (ByAddress_ng_trans x y z).
Qed.

Lemma finish_update_spec vals :
  valid_list (Validators vals) → Validators vals ≠ [] → keyed (Validators vals) →
  ∃ vals' l, finish_update vals = Ret vals' ∧ same_but_priority (Validators vals) l ∧
    Validators vals' ≡ₚ l ∧ power_sorted (Validators vals') ∧ valid_set vals' ∧
    totalVotingPower vals' = power_sum (Validators vals').
Proof.
  intros Hl Hne Hk. unfold finish_update. destruct (checkAllKeysHaveSameType_keyed vals Hk) as [b ->]. simpl.
  rewrite updateTotalVotingPower_spec by (by apply valid_powers). simpl. rewrite decide_True by apply Hl. simpl.
  set (P := power_sum (Validators vals)). pose proof (vl_total _ Hl) as HM. fold P in HM.
  pose proof (power_sum_pos _ (vl_power _ Hl) Hne) as [Hn HP]. fold P in Hn, HP.
  rewrite TotalVotingPower_list by (simpl; auto). cbn -[int64]. fold P.
  rewrite int64_id by mlia. change (PriorityWindowSizeFactor * P) with (2 * P).
  destruct (RescalePriorities_spec (with_total (with_total (with_same_type vals b) P) P) (2 * P))
    as (l1 & -> & Hs1 & Hb1 & Hsp1); [done|apply Hl|lia|]. simpl in *.
  pose proof (same_but_priority_facts _ _ Hs1) as (Ha1 & Hp1 & Hl1 & Hf1 & _).
  assert (l1 ≠ []) as Hne1 by (intros ->; by destruct (Validators vals)).
  destruct (shiftByAvgProposerPriority_spec (with_validators (with_total (with_total (with_same_type vals b) P) P) l1) (2 * P))
    as (l2 & -> & Hs2 & Hsp2 & Hsum2 & Hb2); [done|done|done|lia|]. simpl in *.
  pose proof (same_but_priority_facts _ _ Hs2) as (Ha2 & Hp2 & Hl2 & Hf2 & _).
  pose proof (sort_by_perm ByVotingPower_Less l2) as Hperm.
  eexists _, l2. split; [done|]. simpl. split_and!; [by eapply same_but_priority_trans|done| | |].
  - apply sort_by_sorted; [apply ByVotingPower_asym|apply ByVotingPower_ng_trans].
  - split; simpl; [intros Hnil; rewrite Hnil in Hperm; apply Permutation_nil_l in Hperm; by subst; destruct l1| |
      right; rewrite (zsum_perm _ _ _ Hperm); unfold P; congruence].
    split.
    + rewrite Hperm, <-Ha2, <-Ha1. apply Hl.
    + rewrite Hperm. apply Hf2, Hf1, Hl.
    + rewrite (zsum_perm _ _ _ Hperm). unfold P in *. lia.
    + rewrite Hperm. apply Forall_forall. intros v Hv. specialize (Hb2 v Hv). mlia.
  - rewrite (zsum_perm _ _ _ Hperm). unfold P. congruence.
Qed.

(** ** The abstract result *)

(** What an allowed change set leaves: the untouched validators and the
    changes that are not removals. *)
Definition result_list (l changes : list Validator) : list Validator :=
  filter (λ v, Address v ∉ addrs changes) l ++ filter (λ c, VotingPower c ≠ 0) changes.

Lemma powers_lookup l a p :
  NoDup (addrs l) → powers l !! a = Some p ↔ ∃ v, v ∈ l ∧ Address v = a ∧ VotingPower v = p.
Proof.
  intros Hnd. unfold powers. rewrite <-elem_of_list_to_map.
  - rewrite list_elem_of_fmap. naive_solver.
  - by rewrite <-list_fmap_compose.
Qed.

Lemma change_powers_lookup cs m a p :
  NoDup (addrs cs) →
  change_powers cs m !! a = Some p ↔
    (∃ c, c ∈ cs ∧ Address c = a ∧ VotingPower c = p ∧ p ≠ 0) ∨ (m !! a = Some p ∧ a ∉ addrs cs).
Proof.
  induction cs as [|c cs IH]; simpl.
  { intros _. split; [intros ?; right; split; [done|apply not_elem_of_nil]|].
    intros [(c & Hc & _)|[? _] ]; [by apply elem_of_nil in Hc|done]. }
  intros [Hni Hnd]%NoDup_cons. specialize (IH Hnd). rewrite elem_of_cons. setoid_rewrite elem_of_cons.
  destruct (decide (Address c = a)) as [<-|Hne].
  - assert (¬ ∃ c0, c0 ∈ cs ∧ Address c0 = Address c) as Hno.
    { intros (c0 & Hc0 & Ha). apply Hni. rewrite <-Ha. by apply list_elem_of_fmap_2. }
    destruct (Z.eqb_spec (VotingPower c) 0); [rewrite lookup_delete_eq|rewrite lookup_insert_eq]; naive_solver.
  - destruct (Z.eqb_spec (VotingPower c) 0);
      [rewrite lookup_delete_ne by done|rewrite lookup_insert_ne by done]; rewrite IH; naive_solver.
Qed.

Lemma result_list_nodup l changes :
  NoDup (addrs l) → NoDup (addrs changes) → NoDup (addrs (result_list l changes)).
Proof.
  intros Hl Hc. unfold result_list. rewrite fmap_app, NoDup_app. split_and!.
  - by apply addrs_filter_nodup.
  - intros a (v & -> & [Hv _]%list_elem_of_filter)%list_elem_of_fmap (c & Ha & [_ Hc']%list_elem_of_filter)%list_elem_of_fmap.
    apply Hv. rewrite Ha. by apply list_elem_of_fmap_2.
  - by apply addrs_filter_nodup.
Qed.

Lemma result_list_powers l changes :
  NoDup (addrs l) → NoDup (addrs changes) →
  powers (result_list l changes) = change_powers changes (powers l).
Proof.
  intros Hl Hc. apply map_eq. intros a. apply option_eq. intros p.
  rewrite powers_lookup by (by apply result_list_nodup). rewrite change_powers_lookup, powers_lookup by done.
  unfold result_list. setoid_rewrite elem_of_app. setoid_rewrite list_elem_of_filter.
  split.
  - intros (v & [[Hn Hv]|[Hn Hv]] & Ha & Hp); [right|left; naive_solver]. subst a. eauto.
  - intros [(c & Hc' & Ha & Hp & Hp0)|((v & Hv & Ha & Hp) & Hn)]; [exists c|exists v]; split; try done; [right|left]; naive_solver.
Qed.

Lemma powers_total l : NoDup (addrs l) → map_fold (λ _ p s, p + s) 0 (powers l) = power_sum l.
Proof.
  induction l as [|v l IH]; [done|]. intros [Hni Hnd]%NoDup_cons. rewrite zsum_cons, <-IH by done.
  unfold powers. simpl. rewrite map_fold_insert_L; [done|intros; lia|].
  apply not_elem_of_list_to_map_1. by rewrite <-list_fmap_compose.
Qed.

Lemma powers_empty l : powers l = ∅ ↔ l = [].
Proof.
  split; [|by intros ->]. destruct l as [|v l]; [done|]. intros He.
  assert (powers (v :: l) !! Address v = None) as Hn by (by rewrite He). unfold powers in Hn. simpl in Hn.
  by rewrite lookup_insert_eq in Hn.
Qed.

(** ** Applying an accepted change set *)

(** Address and power of each validator: what the abstract map sees. *)
Definition core (l : list Validator) : list (bytes * Z) := (λ v, (Address v, VotingPower v)) <$> l.

Lemma core_same_but_priority l l' : same_but_priority l l' → core l = core l'.
Proof. induction 1 as [|x y l l' (Ha & _ & Hp) _ IH]; [done|]. simpl. by rewrite Ha, Hp, IH. Qed.

Lemma core_facts l l' :
  core l ≡ₚ core l' →
  addrs l ≡ₚ addrs l' ∧ power_sum l = power_sum l' ∧ len l = len l' ∧
  (Forall (λ v, 0 < VotingPower v) l → Forall (λ v, 0 < VotingPower v) l') ∧
  (NoDup (addrs l) → powers l = powers l').
Proof.
  intros Hc. split_and!.
  - apply (fmap_Permutation fst) in Hc. unfold core in Hc. by rewrite <-!list_fmap_compose in Hc.
  - transitivity (zsum snd (core l)); [by unfold core; rewrite zsum_fmap|].
    rewrite (zsum_perm _ _ _ Hc). unfold core. by rewrite zsum_fmap.
  - apply Permutation_length in Hc. unfold core in Hc. rewrite !length_fmap in Hc. unfold len. lia.
  - intros Hp. apply (Forall_fmap (λ v, (Address v, VotingPower v)) (λ x, 0 < snd x)).
    fold (core l'). rewrite <-Hc. by apply Forall_fmap.
  - intros Hnd. apply list_to_map_proper; [|done]. by rewrite <-list_fmap_compose.
Qed.

Lemma apply_changes_spec vals us us' ds :
  valid_list (Validators vals) → addr_sorted us → addr_sorted ds → same_but_priority us us' →
  Forall (λ d, Address d ∈ addrs (Validators vals) ∧ Address d ∉ addrs us) ds →
  keyed (Validators vals) → keyed us → Forall (λ v, 0 < VotingPower v) us → prio_bounded us' →
  let R := filter (λ v, (Address v ∉ addrs us) ∧ Address v ∉ addrs ds) (Validators vals) ++ us in
  R ≠ [] → power_sum R ≤ MaxTotalVotingPower →
  ∃ vals', apply_changes vals us' ds = Ret vals' ∧ core (Validators vals') ≡ₚ core R ∧
    power_sorted (Validators vals') ∧ valid_set vals' ∧ totalVotingPower vals' = power_sum (Validators vals').
Proof.
  intros Hl Hus Hds Hsame Hin Hk Hku Hpos Hpr R Hne Htot.
  pose proof (same_but_priority_facts _ _ Hsame) as (Ha & Hp & _ & Hf & Hkeys).
  unfold apply_changes, applyUpdates, applyRemovals. simpl.
  destruct (merge_updates_spec (sort_by ByAddress_Less (Validators vals)) us') as [HM HMs].
  { apply sort_ByAddress_lt, Hl. } { unfold addr_sorted. by rewrite <-Ha. }
  set (M := merge_updates _ us') in *.
  set (R' := filter (λ v, (Address v ∉ addrs us) ∧ Address v ∉ addrs ds) (Validators vals) ++ us').
  assert (filter (λ v, Address v ∉ addrs ds) M ≡ₚ R') as HR.
  { rewrite HM, sort_by_perm, filter_app, list_filter_filter, <-Ha. unfold R'. apply Permutation_app.
    - rewrite (filter_ext_in _ (λ v, (Address v ∉ addrs us) ∧ Address v ∉ addrs ds)); [done|]. intros; tauto.
    - rewrite filter_all; [done|]. intros v Hv Hvd. apply list_elem_of_fmap in Hvd as (d & Hd & Hdin).
      rewrite Forall_forall in Hin. destruct (Hin d Hdin) as [_ Hn]. apply Hn. rewrite <-Hd, Ha.
      by apply list_elem_of_fmap_2. }
  assert (Forall (λ d, Address d ∈ addrs M) ds) as HinM.
  { eapply Forall_impl; [exact Hin|]. intros d [Hd Hn]. simpl. rewrite HM, sort_by_perm, fmap_app, elem_of_app.
    left. apply list_elem_of_fmap in Hd as (v & Hd & Hv). rewrite Hd. apply list_elem_of_fmap_2, list_elem_of_filter.
    rewrite <-Ha, <-Hd. done. }
  pose proof (subset_length _ _ (addr_sorted_nodup _ Hds) HinM).
  destruct (Z.ltb_spec (len M - len ds) 0); [lia|]. rewrite remove_loop_spec by done. simpl.
  assert (core R = core R') as Hcore.
  { unfold core, R, R'. rewrite !fmap_app. f_equal. by apply core_same_but_priority. }
  assert (core (filter (λ v, Address v ∉ addrs ds) M) ≡ₚ core R) as HcR 
    by (rewrite Hcore; by apply (fmap_Permutation (λ v, (Address v, VotingPower v)))).
  pose proof (core_facts _ _ (symmetry HcR)) as (_ & Hps & Hlen & Hfp & _).
  destruct (finish_update_spec (with_validators (with_validators vals M) (filter (λ v, Address v ∉ addrs ds) M)))
    as (vals' & l' & -> & Hs' & Hperm' & Hsort & Hv & Ht); simpl.
  - split; [apply addr_sorted_nodup, addr_sorted_filter, HMs| |lia|].
    + apply Hfp. unfold R. apply Forall_app. split; [|done]. apply Forall_filter, Hl.
    + rewrite HR. apply Forall_app. split; [apply Forall_filter, Hl|done].
  - intros He. rewrite He in Hlen. unfold len in Hlen. simpl in Hlen. destruct R; [done|]. simpl in Hlen. lia.
  - unfold keyed. rewrite HR. apply Forall_app. split; [by apply Forall_filter|].
    apply (Forall_fmap PubKey_ (λ k, k ≠ None)). rewrite <-Hkeys. by apply Forall_fmap.
  - exists vals'. split_and!; [done| |done..]. unfold core. rewrite Hperm'. fold (core l').
    by rewrite <-(core_same_but_priority _ _ Hs').
Qed.

Lemma computeNewPriorities_spec us vals t :
  valid_list (Validators vals) → 0 ≤ t ≤ 2 * MaxTotalVotingPower →
  same_but_priority us (computeNewPriorities us vals t) ∧ prio_bounded (computeNewPriorities us vals t).
Proof.
  intros Hl Ht. unfold computeNewPriorities. split.
  - induction us as [|u us IH]; simpl; constructor; [|done]. destruct (snd _); done.
  - apply Forall_fmap, Forall_forall. intros u _. simpl. pose proof (GetByAddress_spec vals (Address u)) as Hg.
    destruct (snd _) as [v|]; simpl.
    + destruct Hg as [Hv _]. pose proof (vl_prio _ Hl) as Hp. rewrite Forall_forall in Hp. by apply Hp.
    + rewrite Z.shiftr_div_pow2 by lia. change (2 ^ 3) with 8.
      pose proof (Z.div_pos t 8 ltac:(lia) ltac:(lia)). pose proof (Z.mul_div_le t 8 ltac:(lia)).
      rewrite (int64_id (t + t / 8)) by mlia. rewrite int64_id; mlia.
Qed.

(** ** The whole update *)

Section update.
Context (vals : ValidatorSet) (changes : list Validator) (allowDeletes : bool).
Context (Hl : valid_list (Validators vals))
        (Ht : totalVotingPower vals = 0 ∨ totalVotingPower vals = power_sum (Validators vals))
        (Hk : keyed (Validators vals)) (Hkc : keyed changes) (Hne : changes ≠ [])
        (Hnd : NoDup ([] :: addrs changes))
        (Hrange : Forall (λ c, 0 ≤ VotingPower c ≤ MaxTotalVotingPower) changes).

Let us := filter (λ c, VotingPower c ≠ 0) (sort_by ByAddress_Less changes).
Let ds := filter (λ c, VotingPower c = 0) (sort_by ByAddress_Less changes).

Lemma changes_nodup : NoDup (addrs changes).
Proof using Hnd. by apply NoDup_cons in Hnd as [_ ?]. Qed.

Lemma us_ds_sorted : addr_sorted us ∧ addr_sorted ds.
Proof using Hnd. split; apply addr_sorted_filter, sort_ByAddress_lt, changes_nodup. Qed.

Lemma in_us_ds a : a ∈ addrs changes ↔ a ∈ addrs us ∨ a ∈ addrs ds.
Proof using.
  unfold us, ds. rewrite !list_elem_of_fmap. setoid_rewrite list_elem_of_filter.
  setoid_rewrite elem_of_sort_by. split.
  - intros (c & -> & Hc). destruct (decide (VotingPower c = 0)); [right|left]; eauto.
  - intros [(c & -> & _ & Hc)|(c & -> & _ & Hc)]; eauto.
Qed.

Lemma ds_not_us d : d ∈ ds → Address d ∉ addrs us.
Proof using Hnd.
  intros [H0 Hd]%list_elem_of_filter (u & Ha & [Hu Hu']%list_elem_of_filter)%list_elem_of_fmap.
  rewrite elem_of_sort_by in Hd, Hu'. by rewrite (nodup_addr_eq changes u d changes_nodup Hu' Hd) in Hu.
Qed.

(** The two halves of a sum over the changes. *)
Lemma zsum_us_ds (f : Validator → Z) : zsum f changes = zsum f us + zsum f ds.
Proof using.
  unfold us, ds. rewrite !zsum_filter, <-zsum_add, <-(zsum_perm _ _ _ (sort_by_perm ByAddress_Less changes)).
  apply zsum_ext_in. intros c _. clear Ht. repeat case_decide; solve [lia|tauto].
Qed.

(** The list the code computes, in terms of [us] and [ds]. *)
Lemma result_list_us :
  core (filter (λ v, (Address v ∉ addrs us) ∧ Address v ∉ addrs ds) (Validators vals) ++ us) ≡ₚ
  core (result_list (Validators vals) changes).
Proof using.
  unfold result_list. apply fmap_Permutation, Permutation_app; [|unfold us; by rewrite sort_by_perm].
  erewrite (filter_ext_in _ (λ v, Address v ∉ addrs changes)); [done|].
  intros v _. rewrite in_us_ds. clear Ht. tauto.
Qed.

Lemma result_total :
  power_sum (result_list (Validators vals) changes) =
  power_sum (Validators vals) - zsum (λ d, old_power vals (Address d)) ds
    - zsum (λ u, old_power vals (Address u)) us + power_sum us.
Proof using Hl Hnd.
  unfold result_list. rewrite zsum_app.
  pose proof (old_power_split vals changes (vl_nodup _ Hl) changes_nodup) as Hs. rewrite zsum_us_ds in Hs.
  assert (power_sum (filter (λ c, VotingPower c ≠ 0) changes) = power_sum us) as ->; [|lia].
  unfold us. by rewrite sort_by_perm.
Qed.

Lemma numNewValidators_count :
  numNewValidators us vals = zsum (λ u, if decide (Address u ∈ addrs (Validators vals)) then 0 else 1) us.
Proof using.
  enough (∀ n l, foldl (λ n u, if HasAddress vals (Address u) then n else n + 1) n l =
    n + zsum (λ u, if decide (Address u ∈ addrs (Validators vals)) then 0 else 1) l) as Hl' by apply (Hl' 0).
  intros n l. revert n. induction l as [|u l IH]; intros n; simpl; [rewrite zsum_nil; lia|].
  rewrite zsum_cons, IH. pose proof (HasAddress_spec vals (Address u)) as Hh. clear Ht.
  case_decide as Hd; destruct (HasAddress vals (Address u)); try lia; exfalso; [|tauto].
  by apply Hh in Hd.
Qed.

Lemma numNewValidators_nonneg : 0 ≤ numNewValidators us vals.
Proof using. rewrite numNewValidators_count. apply zsum_nonneg. intros. case_decide; lia. Qed.

Lemma result_len :
  Forall (λ d, Address d ∈ addrs (Validators vals)) ds →
  len (result_list (Validators vals) changes) =
  len (Validators vals) - len ds + numNewValidators us vals.
Proof using Hl Hnd.
  intros Hin. rewrite numNewValidators_count. unfold result_list. rewrite len_app.
  pose proof (zsum_by_address (λ _, 1) (Validators vals) changes changes_nodup) as Hs.
  rewrite !zsum_const, zsum_us_ds in Hs.
  assert (len (filter (λ c, VotingPower c ≠ 0) changes) = len us) as -> by (unfold us; by rewrite sort_by_perm).
  assert (∀ a, zsum (λ _, 1) (filter (λ v, Address v = a) (Validators vals)) =
    if decide (a ∈ addrs (Validators vals)) then 1 else 0) as Hone.
  { intros a. rewrite zsum_const, count_address by apply Hl. case_decide; lia. }
  rewrite (zsum_ext_in _ (λ _, 1) ds) in Hs.
  2: { intros d Hd. rewrite Hone. rewrite Forall_forall in Hin. by rewrite decide_True by (by apply Hin). }
  assert (zsum (λ c, zsum (λ _, 1) (filter (λ v, Address v = Address c) (Validators vals))) us +
    zsum (λ u, if decide (Address u ∈ addrs (Validators vals)) then 0 else 1) us = len us) as Hu.
  { rewrite <-zsum_add, <-(Z.mul_1_l (len us)), <-zsum_const. apply zsum_ext_in. intros u _. rewrite Hone.
    case_decide; lia. }
  rewrite zsum_const in Hs. lia.
Qed.

Lemma removed_range : 0 ≤ zsum (λ d, old_power vals (Address d)) ds ≤ power_sum (Validators vals).
Proof using Hl Hnd.
  rewrite old_power_split; [|apply Hl|apply addr_sorted_nodup, us_ds_sorted].
  pose proof (powers_nonneg (λ v, Address v ∉ addrs ds) _ (vl_power _ Hl)). lia.
Qed.

Lemma us_positive : Forall (λ v, 0 < VotingPower v) us.
Proof using Hrange.
  apply Forall_forall. intros u [Hu Hin]%list_elem_of_filter. rewrite elem_of_sort_by in Hin.
  rewrite Forall_forall in Hrange. specialize (Hrange u Hin). simpl in Hrange. lia.
Qed.

(** The deletions the changes ask for are exactly [ds]. *)
Lemma deletes_ds :
  (∀ c, c ∈ changes → VotingPower c = 0 → allowDeletes = true ∧ Address c ∈ addrs (Validators vals)) ↔
  (len ds ≠ 0 → allowDeletes = true) ∧ Forall (λ d, Address d ∈ addrs (Validators vals)) ds.
Proof using.
  unfold ds. rewrite Forall_forall. setoid_rewrite list_elem_of_filter. setoid_rewrite elem_of_sort_by.
  rewrite sort_by_perm. split.
  - intros Hc. split; [|intros d [? ?]; by apply Hc]. intros Hlen.
    destruct (filter _ changes) as [|d l] eqn:E; [done|].
    assert (d ∈ filter (λ c, VotingPower c = 0) changes) as [??]%list_elem_of_filter by (rewrite E; left).
    by apply (Hc d).
  - intros [Ha Hin] c Hc H0. split; [apply Ha|by apply Hin].
    assert (c ∈ filter (λ c, VotingPower c = 0) changes) as Hcf by (by apply list_elem_of_filter).
    destruct (filter _ changes); [by apply elem_of_nil in Hcf|]. rewrite len_cons. pose proof (len_nonneg l). lia.
Qed.

Lemma allowed_iff :
  allowed (Validators vals) changes allowDeletes ↔
  (len ds ≠ 0 → allowDeletes = true) ∧ Forall (λ d, Address d ∈ addrs (Validators vals)) ds ∧
  ¬ (numNewValidators us vals = 0 ∧ len (Validators vals) = len ds) ∧
  power_sum (result_list (Validators vals) changes) ≤ MaxTotalVotingPower.
Proof using Hl Hnd Hrange.
  pose proof changes_nodup as Hndc. pose proof (vl_nodup _ Hl) as Hndl.
  pose proof (result_list_powers _ _ Hndl Hndc) as Hpw.
  pose proof (powers_total _ (result_list_nodup _ _ Hndl Hndc)) as Htot. rewrite Hpw in Htot.
  assert (Forall (λ d, Address d ∈ addrs (Validators vals)) ds →
    change_powers changes (powers (Validators vals)) ≠ ∅ ↔
    ¬ (numNewValidators us vals = 0 ∧ len (Validators vals) = len ds)) as Hempty.
  { intros Hin. rewrite <-Hpw, powers_empty. pose proof (result_len Hin) as Hlen. clear Ht.
    pose proof (subset_length _ _ (addr_sorted_nodup _ (proj2 us_ds_sorted)) Hin).
    pose proof numNewValidators_nonneg.
    assert (result_list (Validators vals) changes = [] ↔ len (result_list (Validators vals) changes) = 0) as ->.
    { split; [by intros ->|]. destruct (result_list _ _); [done|]. rewrite len_cons. pose proof (len_nonneg l). lia. }
    lia. }
  clear Ht. split.
  - intros [_ _ Hd Hn Hle]. apply deletes_ds in Hd as [Hd Hin]. rewrite Htot in Hle. tauto.
  - intros (Hd & Hin & Hn & Hle). split; [done|done|by apply deletes_ds|by apply Hempty|by rewrite Htot].
Qed.

(** An accepted change set, after the checks. *)
Lemma apply_accepted t :
  Forall (λ d, Address d ∈ addrs (Validators vals)) ds →
  ¬ (numNewValidators us vals = 0 ∧ len (Validators vals) = len ds) →
  power_sum (result_list (Validators vals) changes) ≤ MaxTotalVotingPower →
  ∃ vals', apply_changes (with_total vals t)
      (computeNewPriorities us (with_total vals t)
         (power_sum (result_list (Validators vals) changes) + zsum (λ d, old_power vals (Address d)) ds)) ds = Ret vals' ∧
    powers (Validators vals') = change_powers changes (powers (Validators vals)) ∧
    power_sorted (Validators vals') ∧ valid_set vals' ∧
    totalVotingPower vals' = power_sum (Validators vals').
Proof using Hl Hk Hkc Hnd Hrange.
  intros Hin Hn Htot. pose proof us_ds_sorted as [Hus Hds]. pose proof removed_range as Hrem.
  pose proof (core_facts _ _ result_list_us) as (_ & Hps & Hlen & _ & _).
  pose proof (result_list_nodup _ _ (vl_nodup _ Hl) changes_nodup) as HndR.
  assert (0 ≤ power_sum (result_list (Validators vals) changes)) as H0.
  { rewrite <-Hps, zsum_app. pose proof (powers_nonneg (λ v, (Address v ∉ addrs us) ∧ Address v ∉ addrs ds) _ (vl_power _ Hl)).
    assert (0 ≤ power_sum us); [|lia]. apply zsum_nonneg. pose proof us_positive as Hp. rewrite Forall_forall in Hp.
    intros u Hu. specialize (Hp u Hu). simpl in Hp. lia. }
  pose proof (vl_total _ Hl).
  destruct (computeNewPriorities_spec us (with_total vals t)
    (power_sum (result_list (Validators vals) changes) + zsum (λ d, old_power vals (Address d)) ds) Hl)
    as [Hs Hb]; [lia|].
  destruct (apply_changes_spec (with_total vals t) us _ ds Hl Hus Hds Hs) as (vals' & Ha & Hc & Hr).
  - apply Forall_forall. intros d Hd. rewrite Forall_forall in Hin. split; [by apply Hin|by apply ds_not_us].
  - done.
  - apply Forall_filter. unfold keyed. by rewrite sort_by_perm.
  - apply us_positive.
  - exact Hb.
  - simpl. intros He. rewrite He, (result_len Hin) in Hlen. change (len []) with 0 in Hlen.
    pose proof (subset_length _ _ (addr_sorted_nodup _ Hds) Hin). pose proof numNewValidators_nonneg. lia.
  - simpl. rewrite Hps. done.
  - exists vals'. split; [exact Ha|]. split; [|exact Hr].
    rewrite result_list_us in Hc. rewrite <-result_list_powers by (apply Hl || apply changes_nodup).
    symmetry in Hc. pose proof (core_facts _ _ Hc) as (_ & _ & _ & _ & Hpw). by rewrite Hpw.
Qed.
End update.

(** What an accepted change set gives. *)
Definition updated (vals : ValidatorSet) (changes : list Validator) (vals' : ValidatorSet) : Prop :=
  powers (Validators vals') = change_powers changes (powers (Validators vals)) ∧
  power_sorted (Validators vals') ∧ valid_set vals' ∧ totalVotingPower vals' = power_sum (Validators vals').

Lemma updateWithChangeSet_cases vals changes allowDeletes :
  valid_list (Validators vals) →
  totalVotingPower vals = 0 ∨ totalVotingPower vals = power_sum (Validators vals) →
  keyed (Validators vals) → keyed changes → changes ≠ [] →
  (allowed (Validators vals) changes allowDeletes ∧
   ∃ vals', updateWithChangeSet vals changes allowDeletes = Ret (vals', None) ∧ updated vals changes vals') ∨
  (¬ allowed (Validators vals) changes allowDeletes ∧
   ∃ t e, updateWithChangeSet vals changes allowDeletes = Ret (with_total vals t, Some e)).
Proof.
  intros Hl Ht Hk Hkc Hne. unfold updateWithChangeSet.
  assert (with_total vals (totalVotingPower vals) = vals) as Hself by (by destruct vals).
  assert (∀ e : update_error, ∃ t e', Ret (vals, Some e) = Ret (with_total vals t, Some e')) as Herr
    by (intros e; exists (totalVotingPower vals), e; by rewrite Hself).
  destruct (Z.eqb_spec (len changes) 0) as [H0|_].
  { destruct changes; [done|]. rewrite len_cons in H0. pose proof (len_nonneg changes). lia. }
  destruct (processChanges_spec changes) as [(Hnd & Hr & ->)|(Hn & e & ->)].
  2: { right. split; [|apply Herr]. intros Ha. apply Hn. split; apply Ha. }
  rewrite (allowed_iff vals changes allowDeletes Hl Hnd Hr).
  set (us := filter (λ c, VotingPower c ≠ 0) _). set (ds := filter (λ c, VotingPower c = 0) _).
  destruct (negb allowDeletes && negb (len ds =? 0)) eqn:E1.
  { right. split; [|apply Herr]. intros (Hd & _). destruct allowDeletes; [done|].
    destruct (Z.eqb_spec (len ds) 0); [done|]. by specialize (Hd ltac:(done)). }
  destruct ((numNewValidators us vals =? 0) && (len (Validators vals) =? len ds)) eqn:E2.
  { right. split; [|apply Herr]. intros (_ & _ & Hz & _). apply Hz. lia. }
  rewrite verifyRemovals_spec by (apply Hl || eapply addr_sorted_nodup, us_ds_sorted, Hnd).
  case_decide as Hin; simpl; [|right; split; [tauto|apply Herr] ].
  rewrite verifyUpdates_spec; [|done|done|eapply addr_sorted_nodup, us_ds_sorted, Hnd| |by apply removed_range].
  2: { apply Forall_filter. by rewrite sort_by_perm. }
  pose proof (result_total vals changes Hl Hnd) as Hrt. fold us ds in Hrt. rewrite <-Hrt. simpl.
  case_decide as Htot; [left|right; split; [tauto|by eexists _, _] ].
  split. { split_and!; [|done|lia|done]. destruct allowDeletes; [done|]. simpl in E1. lia. }
  destruct (apply_accepted vals changes Hl Hk Hkc Hnd Hr (power_sum (Validators vals)) Hin) as (vals' & Ha & Hu);
    [fold us ds; lia|done|]. fold us ds in Ha. rewrite Ha. simpl. by exists vals'.
Qed.

Lemma change_powers_new l : (∀ c, c ∈ l → VotingPower c ≠ 0) → change_powers l ∅ = powers l.
Proof.
  induction l as [|c l IH]; intros Hpos; [done|]. simpl.
  destruct (Z.eqb_spec (VotingPower c) 0); [by destruct (Hpos c ltac:(by left))|].
  rewrite IH by (intros; apply Hpos; by right). done.
Qed.

(** C8: [updateWithChangeSet] implements the update of the map from addresses
    to powers.  It never panics; it succeeds exactly when the abstract update
    is allowed (distinct non-empty addresses, powers in range, removals
    permitted and present, a non-empty result within the total power bound),
    and then the new set is valid, sorted by power, has the right cached
    total, and holds exactly the updated map.  Otherwise it returns an error
    and changes nothing but the cached total. *)
Theorem updateWithChangeSet_refines vals changes allowDeletes :
  valid_list (Validators vals) →
  totalVotingPower vals = 0 ∨ totalVotingPower vals = power_sum (Validators vals) →
  keyed (Validators vals) → keyed changes → changes ≠ [] →
  (allowed (Validators vals) changes allowDeletes ∧
   ∃ vals', updateWithChangeSet vals changes allowDeletes = Ret (vals', None) ∧ updated vals changes vals') ∨
  (¬ allowed (Validators vals) changes allowDeletes ∧
   ∃ t e, updateWithChangeSet vals changes allowDeletes = Ret (with_total vals t, Some e)).
Proof. apply updateWithChangeSet_cases. Qed.

(** The order in which distinct changes are listed does not matter. *)
Theorem updateWithChangeSet_order vals changes changes' allowDeletes :
  NoDup (addrs changes) → changes ≡ₚ changes' →
  updateWithChangeSet vals changes allowDeletes = updateWithChangeSet vals changes' allowDeletes.
Proof.
  intros Hnd Hperm. unfold updateWithChangeSet, processChanges. rewrite <-Hperm.
  rewrite (sort_by_unique ByAddress_Less changes (sort_by ByAddress_Less changes')); [done|..].
  - apply ByAddress_asym.
  - apply ByAddress_ng_trans.
  - intros x y Hx Hy Hxy Hyx. apply (nodup_addr_eq changes); [done..|].
    apply addr_le_antisym; by apply ByAddress_ng.
  - by rewrite sort_by_perm.
  - apply sort_by_sorted; [apply ByAddress_asym|apply ByAddress_ng_trans].
Qed.

(** [NewValidatorSet] of a non-empty list of validators with keys builds
    the set of exactly those validators, with a proposer elected, when the
    list has distinct non-empty addresses and positive powers within the
    bounds; otherwise it panics. *)
Theorem NewValidatorSet_spec valz :
  keyed valz → valz ≠ [] →
  (allowed [] valz false ∧
   ∃ vals p, NewValidatorSet valz = Ret vals ∧ valid_set vals ∧
     powers (Validators vals) = powers valz ∧ Proposer vals = Some p ∧ p ∈ Validators vals) ∨
  (¬ allowed [] valz false ∧ NewValidatorSet valz = Panic "Cannot create validator set").
Proof.
  intros Hk Hne. unfold NewValidatorSet.
  destruct (updateWithChangeSet_cases (mkValidatorSet [] None 0 true) valz false)
    as [(Ha & vals' & -> & Hp & _ & Hv & _)|(Hn & t & e & ->)]; simpl.
  - split; simpl; [constructor|constructor| |constructor]. rewrite zsum_nil. done.
  - by left.
  - constructor.
  - done.
  - done.
  - left. split; [done|]. destruct (Z.ltb_spec 0 (len valz)) as [_|H0].
    2: { destruct valz; [done|]. rewrite len_cons in H0. pose proof (len_nonneg valz). lia. }
    destruct (IncrementProposerPriority_one vals' Hv) as (vals2 & p & Hi & Hv2 & Hs & _ & Hpr & Hin & _).
    exists vals2, p. split_and!; [done|done| |done|done].
    apply core_same_but_priority in Hs. change (powers (Validators vals2)) with (list_to_map (M := gmap bytes Z) (core (Validators vals2))).
    rewrite <-Hs. change (powers (Validators vals') = powers valz). rewrite Hp.
    apply change_powers_new. intros c Hc H0. by destruct (al_deletes _ _ _ Ha c Hc H0).
  - by right.
Qed.

Definition example_keyed (c : byte) (power : Z) : Validator :=
  mkValidator [c] (Some (mkPubKey "ed25519" [c])) power 0.
Definition example_set : ValidatorSet :=
  mkValidatorSet [example_keyed x01 10; example_keyed x02 5] None 0 true.
Definition example_changes : list Validator := [example_keyed x03 7; example_keyed x02 0].

Lemma example_set_valid : valid_list (Validators example_set).
Proof.
  split; [apply (bool_decide_unpack _); vm_compute; exact I|repeat constructor|by vm_compute|
    repeat constructor; by vm_compute].
Qed.

Lemma updateWithChangeSet_refines_witness :
  ∃ vals', updateWithChangeSet example_set example_changes true = Ret (vals', None) ∧
    Address <$> Validators vals' = [[x01]; [x03]].
Proof.
  destruct (updateWithChangeSet_refines example_set example_changes true example_set_valid)
    as [(_ & vals' & He & _)|(_ & t & e & He)].
  - left. reflexivity.
  - repeat constructor; discriminate.
  - repeat constructor; discriminate.
  - discriminate.
  - exists vals'. split; [exact He|]. vm_compute in He. injection He as <-. reflexivity.
  - vm_compute in He. discriminate.
Defined.

Lemma updateWithChangeSet_order_witness :
  updateWithChangeSet example_set example_changes true = updateWithChangeSet example_set (reverse example_changes) true.
Proof.
  apply updateWithChangeSet_order; [apply (bool_decide_unpack _); vm_compute; exact I|].
  symmetry. apply reverse_Permutation.
Defined.

Lemma NewValidatorSet_spec_witness :
  ∃ vals, NewValidatorSet (Validators example_set) = Ret vals ∧ valid_set vals.
Proof.
  destruct (NewValidatorSet_spec (Validators example_set)) as [(_ & vals & p & He & Hv & _)|(_ & He)].
  - repeat constructor; discriminate.
  - discriminate.
  - exists vals. split; assumption.
  - vm_compute in He. discriminate.
Defined.
