(* ===== verification/VoteSet.v ===== *)
(** * Vote sets: the operations

    Models [src/hetu-cometbft/types/vote_set.go]: the votes of one height,
    round and type, the tallies per block, and the first two-thirds majority.
    The methods that change the set return the updated set; the mutex and the
    printing are left out.  A nil vote is [None]; the maps are finite maps.
    [TotalVotingPower] may fill the cache of the shared validator set, so the
    set is threaded through. *)
From S2P Require Import Prelude.
From S2P Require Import BitArray.
From S2P Require Import Vote.
From S2P Require Import Validator.
From S2P Require Import SignBytes.
From S2P Require Import ValidatorSet.

(** The votes for one block. *)
Record blockVotes := mkBlockVotes {
  bv_peerMaj23 : bool;
  bv_bitArray : option BitArray;
  bv_votes : list (option Vote);
  bv_sum : Z;
}.

Record VoteSet := mkVoteSet {
  chainID : bytes;
  height : Z;
  round : Z;
  signedMsgType : Z;
  valSet : ValidatorSet;
  extensionsEnabled : bool;
  votesBitArray : option BitArray;
  votes : list (option Vote);
  sum : Z;
  maj23 : option BlockID;
  votesByBlock : gmap bytes blockVotes;
  peerMaj23s : gmap bytes BlockID;
}.

Definition with_votes (vs : VoteSet) (bits : option BitArray) (l : list (option Vote)) (s : Z) : VoteSet :=
  mkVoteSet (chainID vs) (height vs) (round vs) (signedMsgType vs) (valSet vs) (extensionsEnabled vs)
    bits l s (maj23 vs) (votesByBlock vs) (peerMaj23s vs).
Definition with_blocks (vs : VoteSet) (m : gmap bytes blockVotes) : VoteSet :=
  mkVoteSet (chainID vs) (height vs) (round vs) (signedMsgType vs) (valSet vs) (extensionsEnabled vs)
    (votesBitArray vs) (votes vs) (sum vs) (maj23 vs) m (peerMaj23s vs).
Definition with_valSet (vs : VoteSet) (vals : ValidatorSet) : VoteSet :=
  mkVoteSet (chainID vs) (height vs) (round vs) (signedMsgType vs) vals (extensionsEnabled vs)
    (votesBitArray vs) (votes vs) (sum vs) (maj23 vs) (votesByBlock vs) (peerMaj23s vs).
Definition with_maj23 (vs : VoteSet) (m : BlockID) (l : list (option Vote)) : VoteSet :=
  mkVoteSet (chainID vs) (height vs) (round vs) (signedMsgType vs) (valSet vs) (extensionsEnabled vs)
    (votesBitArray vs) l (sum vs) (Some m) (votesByBlock vs) (peerMaj23s vs).
Definition with_peers (vs : VoteSet) (m : gmap bytes BlockID) : VoteSet :=
  mkVoteSet (chainID vs) (height vs) (round vs) (signedMsgType vs) (valSet vs) (extensionsEnabled vs)
    (votesBitArray vs) (votes vs) (sum vs) (maj23 vs) (votesByBlock vs) m.

Definition newBlockVotes (peerMaj23 : bool) (numValidators : Z) : blockVotes :=
  mkBlockVotes peerMaj23 (NewBitArray numValidators) (replicate (Z.to_nat numValidators) None) 0.

Definition NewVoteSet (chainID : bytes) (height round signedMsgType : Z) (valSet : ValidatorSet) : outcome VoteSet :=
  if height =? 0 then Panic "Cannot make VoteSet for height == 0, doesn't make sense."
  else Ret (mkVoteSet chainID height round signedMsgType valSet false
         (NewBitArray (Size valSet)) (replicate (Z.to_nat (Size valSet)) None) 0 None ∅ ∅).

Definition NewExtendedVoteSet (chainID : bytes) (height round signedMsgType : Z) (valSet : ValidatorSet)
    : outcome VoteSet :=
  vs ← NewVoteSet chainID height round signedMsgType valSet;
  Ret (mkVoteSet chainID height round signedMsgType valSet true
         (votesBitArray vs) (votes vs) (sum vs) (maj23 vs) (votesByBlock vs) (peerMaj23s vs)).

(** ** Votes for one block *)

Definition bv_addVerifiedVote (bv : blockVotes) (vote : Vote) (votingPower : Z) : outcome blockVotes :=
  existing ← slice_get (bv_votes bv) (ValidatorIndex vote);
  match existing with
  | Some _ => Ret bv
  | None =>
      '(bits, _) ← SetIndex (bv_bitArray bv) (ValidatorIndex vote) true;
      l ← slice_set (bv_votes bv) (ValidatorIndex vote) (Some vote);
      Ret (mkBlockVotes (bv_peerMaj23 bv) bits l (int64 (bv_sum bv + votingPower)))
  end.

Definition bv_getByIndex (bv : option blockVotes) (index : Z) : outcome (option Vote) :=
  match bv with None => Ret None | Some bv => slice_get (bv_votes bv) index end.

(** ** Adding a vote *)

Definition getVote (vs : VoteSet) (valIndex : Z) (blockKey : bytes) : outcome (option Vote) :=
  existing ← slice_get (votes vs) valIndex;
  match existing with
  | Some v => if decide (BlockID_Key (vote_BlockID v) = blockKey) then Ret (Some v)
              else bv_getByIndex (votesByBlock vs !! blockKey) valIndex
  | None => bv_getByIndex (votesByBlock vs !! blockKey) valIndex
  end.

(** [voteSet.votes[valIndex] = vote] and its bit. *)
Definition put_vote (vs : VoteSet) (vote : Vote) : outcome VoteSet :=
  l ← slice_set (votes vs) (ValidatorIndex vote) (Some vote);
  '(bits, _) ← SetIndex (votesBitArray vs) (ValidatorIndex vote) true;
  Ret (with_votes vs bits l (sum vs)).

(** [for i, vote := range src { if vote != nil { dst[i] = vote } }] *)
Fixpoint copy_votes (src dst : list (option Vote)) : outcome (list (option Vote)) :=
  match src, dst with
  | [], _ => Ret dst
  | None :: src, [] => copy_votes src []
  | Some _ :: _, [] => Panic "index out of range"
  | None :: src, d :: dst => l ← copy_votes src dst; Ret (d :: l)
  | Some v :: src, _ :: dst => l ← copy_votes src dst; Ret (Some v :: l)
  end.

(** [total*2/3 + 1] *)
Definition quorum_of (total : Z) : Z := int64 (int64 (Z.quot (int64 (total * 2)) 3) + 1).

(** The part of [addVerifiedVote] after the block's votes are found. *)
Definition add_to_block (vs : VoteSet) (bv : blockVotes) (vote : Vote) (blockKey : bytes) (votingPower : Z)
    : outcome VoteSet :=
  let origSum := bv_sum bv in
  '(vals, total) ← TotalVotingPower (valSet vs);
  let quorum := quorum_of total in
  bv ← bv_addVerifiedVote bv vote votingPower;
  let vs := with_blocks (with_valSet vs vals) (<[blockKey := bv]> (votesByBlock vs)) in
  if (origSum <? quorum) && (quorum <=? bv_sum bv) then
    match maj23 vs with
    | None => l ← copy_votes (bv_votes bv) (votes vs); Ret (with_maj23 vs (vote_BlockID vote) l)
    | Some _ => Ret vs
    end
  else Ret vs.

(** The first part: the canonical list; the second component is the
    conflicting vote. *)
Definition add_to_votes (vs : VoteSet) (vote : Vote) (blockKey : bytes) (votingPower : Z)
    : outcome (VoteSet * option Vote) :=
  existing ← slice_get (votes vs) (ValidatorIndex vote);
  match existing with
  | Some existing =>
      if BlockID_Equals (vote_BlockID existing) (vote_BlockID vote)
      then Panic "addVerifiedVote does not expect duplicate votes"
      else if match maj23 vs with Some m => bool_decide (BlockID_Key m = blockKey) | None => false end
           then vs ← put_vote vs vote; Ret (vs, Some existing)
           else Ret (vs, Some existing)
  | None =>
      vs ← put_vote vs vote;
      Ret (with_votes vs (votesBitArray vs) (votes vs) (int64 (sum vs + votingPower)), None)
  end.

Definition addVerifiedVote (vs : VoteSet) (vote : Vote) (blockKey : bytes) (votingPower : Z)
    : outcome (VoteSet * bool * option Vote) :=
  '(vs, conflicting) ← add_to_votes vs vote blockKey votingPower;
  match votesByBlock vs !! blockKey, conflicting with
  | Some bv, Some _ =>
      if negb (bv_peerMaj23 bv) then Ret (vs, false, conflicting)
      else vs ← add_to_block vs bv vote blockKey votingPower; Ret (vs, true, conflicting)
  | Some bv, None => vs ← add_to_block vs bv vote blockKey votingPower; Ret (vs, true, conflicting)
  | None, Some _ => Ret (vs, false, conflicting)
  | None, None =>
      vs ← add_to_block vs (newBlockVotes false (Size (valSet vs))) vote blockKey votingPower;
      Ret (vs, true, conflicting)
  end.

Inductive add_error :=
| ErrVoteNil
| ErrIndexNegative
| ErrEmptyAddress
| ErrVoteUnexpectedStep
| ErrVoteInvalidValidatorIndex
| ErrAddressMismatch
| ErrVoteNonDeterministicSignature
| ErrVerify (e : verify_error)
| ErrUnexpectedExtensionData
| ErrVoteConflictingVotes (voteA voteB : Vote).

(** The signature checks of [addVote]. *)
Definition check_signature `{StdTime, Crypto} (vs : VoteSet) (vote : Vote) (pubKey : option PubKey)
    : outcome (option add_error) :=
  if extensionsEnabled vs then
    err ← VerifyVoteAndExtension vote (chainID vs) pubKey;
    match err with Some e => Ret (Some (ErrVerify e)) | None => Ret None end
  else
    err ← Vote_Verify vote (chainID vs) pubKey;
    match err with
    | Some e => Ret (Some (ErrVerify e))
    | None => if (0 <? len (vote_ExtensionSignature vote)) || (0 <? len (vote_Extension vote))
              then Ret (Some ErrUnexpectedExtensionData) else Ret None
    end.

Definition addVote `{StdTime, Crypto} (vs : VoteSet) (vote : option Vote)
    : outcome (VoteSet * bool * option add_error) :=
  match vote with
  | None => Ret (vs, false, Some ErrVoteNil)
  | Some vote =>
      let valIndex := ValidatorIndex vote in
      let blockKey := BlockID_Key (vote_BlockID vote) in
      if valIndex <? 0 then Ret (vs, false, Some ErrIndexNegative)
      else if len (ValidatorAddress vote) =? 0 then Ret (vs, false, Some ErrEmptyAddress)
      else if negb (vote_Height vote =? height vs) || negb (vote_Round vote =? round vs) ||
              negb (vote_Type vote =? signedMsgType vs)
      then Ret (vs, false, Some ErrVoteUnexpectedStep)
      else
        match GetByIndex (valSet vs) valIndex with
        | None => Ret (vs, false, Some ErrVoteInvalidValidatorIndex)
        | Some (lookupAddr, val) =>
            if negb (bool_decide (ValidatorAddress vote = lookupAddr)) then Ret (vs, false, Some ErrAddressMismatch)
            else
              existing ← getVote vs valIndex blockKey;
              match existing with
              | Some existing =>
                  if decide (vote_Signature existing = vote_Signature vote) then Ret (vs, false, None)
                  else Ret (vs, false, Some ErrVoteNonDeterministicSignature)
              | None =>
                  err ← check_signature vs vote (PubKey_ val);
                  match err with
                  | Some e => Ret (vs, false, Some e)
                  | None =>
                      '(vs, added, conflicting) ← addVerifiedVote vs vote blockKey (VotingPower val);
                      match conflicting with
                      | Some c => Ret (vs, added, Some (ErrVoteConflictingVotes c vote))
                      | None => if negb added then Panic "Expected to add non-conflicting vote"
                                else Ret (vs, added, None)
                      end
                  end
              end
        end
  end.

#[global] Arguments addVote : simpl never.

(** ** Claims of peers *)

(** The second component is true when the peer contradicts itself. *)
Definition SetPeerMaj23 (vs : VoteSet) (peerID : bytes) (blockID : BlockID) : VoteSet * bool :=
  let blockKey := BlockID_Key blockID in
  match peerMaj23s vs !! peerID with
  | Some existing => (vs, negb (BlockID_Equals existing blockID))
  | None =>
      let vs := with_peers vs (<[peerID := blockID]> (peerMaj23s vs)) in
      match votesByBlock vs !! blockKey with
      | Some bv =>
          if bv_peerMaj23 bv then (vs, false)
          else (with_blocks vs (<[blockKey := mkBlockVotes true (bv_bitArray bv) (bv_votes bv) (bv_sum bv)]> (votesByBlock vs)), false)
      | None => (with_blocks vs (<[blockKey := newBlockVotes true (Size (valSet vs))]> (votesByBlock vs)), false)
      end
  end.

(** ** Queries; a nil vote set is [None] *)

Definition GetHeight (vs : option VoteSet) : Z := match vs with None => 0 | Some vs => height vs end.
Definition GetRound (vs : option VoteSet) : Z := match vs with None => -1 | Some vs => round vs end.
Definition VoteSet_Size (vs : option VoteSet) : Z := match vs with None => 0 | Some vs => Size (valSet vs) end.

Definition BitArray_ (vs : option VoteSet) : option BitArray :=
  match vs with None => None | Some vs => BitArray.Copy (votesBitArray vs) end.
Definition BitArrayByBlockID (vs : option VoteSet) (blockID : BlockID) : option BitArray :=
  match vs with
  | None => None
  | Some vs => match votesByBlock vs !! BlockID_Key blockID with
               | Some bv => BitArray.Copy (bv_bitArray bv)
               | None => None
               end
  end.

Definition VoteSet_GetByIndex (vs : option VoteSet) (valIndex : Z) : outcome (option Vote) :=
  match vs with None => Ret None | Some vs => slice_get (votes vs) valIndex end.
Definition List_ (vs : option VoteSet) : list Vote :=
  match vs with None => [] | Some vs => omap id (votes vs) end.
Definition VoteSet_GetByAddress (vs : option VoteSet) (address : bytes) : outcome (option Vote) :=
  match vs with
  | None => Ret None
  | Some vs => match GetByAddress (valSet vs) address with
               | (valIndex, Some _) => slice_get (votes vs) valIndex
               | (_, None) => Panic "GetByAddress(address) returned nil"
               end
  end.

Definition HasTwoThirdsMajority (vs : option VoteSet) : bool :=
  match vs with None => false | Some vs => bool_decide (maj23 vs ≠ None) end.
Definition IsCommit (vs : option VoteSet) : bool :=
  match vs with
  | None => false
  | Some vs => (signedMsgType vs =? PrecommitType) && bool_decide (maj23 vs ≠ None)
  end.
Definition HasTwoThirdsAny (vs : option VoteSet) : outcome (option VoteSet * bool) :=
  match vs with
  | None => Ret (None, false)
  | Some vs =>
      '(vals, total) ← TotalVotingPower (valSet vs);
      Ret (Some (with_valSet vs vals), Z.quot (int64 (total * 2)) 3 <? sum vs)
  end.
Definition HasAll (vs : option VoteSet) : outcome (option VoteSet * bool) :=
  match vs with
  | None => Ret (None, false)
  | Some vs =>
      '(vals, total) ← TotalVotingPower (valSet vs);
      Ret (Some (with_valSet vs vals), sum vs =? total)
  end.
Definition TwoThirdsMajority (vs : option VoteSet) : BlockID * bool :=
  match vs with
  | None => (nilBlockID, false)
  | Some vs => match maj23 vs with Some b => (b, true) | None => (nilBlockID, false) end
  end.

(** ** Commits from votes *)

(** The signatures of [MakeExtendedCommit]: absent when the vote is for
    another block. *)
Fixpoint extended_sigs (m : BlockID) (l : list (option Vote)) : outcome (list ExtendedCommitSig) :=
  match l with
  | [] => Ret []
  | v :: l =>
      sig ← Vote_ExtendedCommitSig v;
      sig ← (if cs_BlockIDFlag (ecs_CommitSig sig) =? BlockIDFlagCommit then
               match v with
               | None => Panic "nil pointer dereference"
               | Some v => Ret (if BlockID_Equals (vote_BlockID v) m then sig else NewExtendedCommitSigAbsent)
               end
             else Ret sig);
      sigs ← extended_sigs m l;
      Ret (sig :: sigs)
  end.

(** [extEnabled] is [ap.VoteExtensionsEnabled(height)]. *)
Definition MakeExtendedCommit (vs : VoteSet) (extEnabled : bool) : outcome ExtendedCommit :=
  if negb (signedMsgType vs =? PrecommitType)
  then Panic "Cannot MakeExtendCommit() unless VoteSet.Type is PrecommitType"
  else
    match maj23 vs with
    | None => Panic "Cannot MakeExtendCommit() unless a blockhash has +2/3"
    | Some m =>
        sigs ← extended_sigs m (votes vs);
        let ec := mkExtendedCommit (height vs) (round vs) m sigs in
        if ExtendedCommit_EnsureExtensions ec extEnabled then Ret ec
        else Panic "problem with vote extension data when making extended commit"
    end.

(** [Commit.ToVoteSet]: add every signature that is not absent. *)
Definition add_commit_vote `{StdTime, Crypto} (commit : Commit) (idx : Z) (vs : VoteSet) : outcome VoteSet :=
  cs ← slice_get (commit_Signatures commit) idx;
  if cs_BlockIDFlag cs =? BlockIDFlagAbsent then Ret vs
  else
    vote ← Commit_GetVote commit idx;
    match Vote_ValidateBasic vote with
    | Some _ => Panic "failed to validate vote reconstructed from commit"
    | None =>
        '(vs, added, err) ← addVote vs (Some vote);
        match err with
        | Some _ => Panic "failed to reconstruct vote set from commit"
        | None => if negb added then Panic "failed to reconstruct vote set from commit" else Ret vs
        end
    end.

Definition ToVoteSet `{StdTime, Crypto} (commit : Commit) (chainID : bytes) (vals : ValidatorSet) : outcome VoteSet :=
  vs ← NewVoteSet chainID (commit_Height commit) (commit_Round commit) PrecommitType vals;
  for_each (add_commit_vote commit) (range (len (commit_Signatures commit))) vs.

(** [ExtendedCommit.ToExtendedVoteSet]. *)
Definition add_extended_vote `{StdTime, Crypto} (ec : ExtendedCommit) (idx : Z) (vs : VoteSet) : outcome VoteSet :=
  ecs ← slice_get (ec_ExtendedSignatures ec) idx;
  if cs_BlockIDFlag (ecs_CommitSig ecs) =? BlockIDFlagAbsent then Ret vs
  else
    vote ← GetExtendedVote ec idx;
    match Vote_ValidateBasic vote with
    | Some _ => Panic "failed to validate vote reconstructed from LastCommit"
    | None =>
        '(vs, added, err) ← addVote vs (Some vote);
        match err with
        | Some _ => Panic "failed to reconstruct vote set from extended commit"
        | None => if negb added then Panic "failed to reconstruct vote set from extended commit" else Ret vs
        end
    end.

Definition ToExtendedVoteSet `{StdTime, Crypto} (ec : ExtendedCommit) (chainID : bytes) (vals : ValidatorSet)
    : outcome VoteSet :=
  vs ← NewExtendedVoteSet chainID (ec_Height ec) (ec_Round ec) PrecommitType vals;
  for_each (add_extended_vote ec) (range (len (ec_ExtendedSignatures ec))) vs.
