(* ===== verification/Quorum.v ===== *)
(** * Voting power of sets of validators

    Sets of validators are predicates on their positions in the set; the
    lemmas here carry the tallies of vote sets and commits and the
    intersection of quorums. *)
From S2P Require Import Prelude.
From S2P Require Import Validator.
From S2P Require Import ValidatorSet.
From S2P Require Import ValidatorSetPriority.
From S2P Require Import VoteSet.

(** The power of the validators at the positions where [p] holds. *)
Definition power_where (vals : list Validator) (p : nat → bool) : Z :=
  zsum (λ x, if p x.1 then VotingPower x.2 else 0) (imap pair vals).

Lemma power_where_cons v vals p :
  power_where (v :: vals) p = (if p 0%nat then VotingPower v else 0) + power_where vals (λ i, p (S i)).
Proof.
  unfold power_where. rewrite imap_cons, zsum_cons. simpl. f_equal.
  replace (imap (pair ∘ S) vals) with ((λ x, (S x.1, x.2)) <$> imap pair vals) by (by rewrite fmap_imap).
  by rewrite zsum_fmap.
Qed.

Lemma power_where_ext vals p q :
  (∀ i, (i < length vals)%nat → p i = q i) → power_where vals p = power_where vals q.
Proof.
  revert p q. induction vals as [|v vals IH]; intros p q Hpq; [done|].
  rewrite !power_where_cons, (Hpq 0%nat) by (simpl; lia). f_equal. apply IH. intros i Hi. apply Hpq. simpl. lia.
Qed.

Lemma power_where_all vals : power_where vals (λ _, true) = power_sum vals.
Proof. induction vals as [|v vals IH]; [done|]. by rewrite power_where_cons, zsum_cons, IH. Qed.

Lemma power_where_none vals : power_where vals (λ _, false) = 0.
Proof. induction vals as [|v vals IH]; [done|]. by rewrite power_where_cons, IH. Qed.

Lemma positive_nonneg vals : Forall (λ v, 0 < VotingPower v) vals → Forall (λ v, 0 ≤ VotingPower v) vals.
Proof. intros Hpos. eapply Forall_impl; [exact Hpos|]. simpl. lia. Qed.

Lemma power_where_mono vals p q :
  Forall (λ v, 0 ≤ VotingPower v) vals → (∀ i, (i < length vals)%nat → p i = true → q i = true) →
  power_where vals p ≤ power_where vals q.
Proof.
  intros Hpos. revert p q. induction Hpos as [|v vals Hv Hpos IH]; intros p q Hpq; [done|].
  rewrite !power_where_cons. pose proof (Hpq 0%nat ltac:(simpl; lia)) as H0.
  assert (power_where vals (λ i, p (S i)) ≤ power_where vals (λ i, q (S i))).
  { apply IH. intros i Hi. apply Hpq. simpl. lia. }
  destruct (p 0%nat), (q 0%nat); simpl in *; lia || (exfalso; by discriminate H0).
Qed.

Lemma power_where_range vals p :
  Forall (λ v, 0 ≤ VotingPower v) vals → 0 ≤ power_where vals p ≤ power_sum vals.
Proof.
  intros Hpos. rewrite <-(power_where_all vals). rewrite <-(power_where_none vals) at 1.
  split; by apply power_where_mono.
Qed.

Lemma power_where_or_and vals p q :
  power_where vals p + power_where vals q =
  power_where vals (λ i, p i || q i) + power_where vals (λ i, p i && q i).
Proof.
  revert p q. induction vals as [|v vals IH]; intros p q; [done|]. rewrite !power_where_cons.
  specialize (IH (λ i, p (S i)) (λ i, q (S i))). destruct (p 0%nat), (q 0%nat); simpl in *; lia.
Qed.

Lemma power_where_single vals i v :
  vals !! i = Some v → power_where vals (λ j, bool_decide (j = i)) = VotingPower v.
Proof.
  revert i. induction vals as [|w vals IH]; intros [|i] Hi; simplify_eq/=; rewrite power_where_cons.
  - assert (power_where vals (λ i, bool_decide (S i = 0%nat)) = 0) as -> by apply power_where_none. simpl. lia.
  - simpl. rewrite <-(IH i Hi). apply power_where_ext. intros j _. apply bool_decide_ext. lia.
Qed.

(** Adding one position. *)
Lemma power_where_add vals p q i v :
  vals !! i = Some v → p i = false → (∀ j, (j < length vals)%nat → q j = bool_decide (j = i) || p j) →
  power_where vals q = power_where vals p + VotingPower v.
Proof.
  intros Hi Hpi Hq. rewrite (power_where_ext vals q _ Hq).
  pose proof (power_where_or_and vals (λ j, bool_decide (j = i)) p) as Hoa.
  rewrite (power_where_single _ _ _ Hi) in Hoa.
  rewrite (power_where_ext vals (λ j, bool_decide (j = i) && p j) (λ _, false)), power_where_none in Hoa; [lia|].
  intros j _. case_bool_decide; [by subst|done].
Qed.

(** ** Quorums *)

Lemma quorum_of_spec total :
  0 ≤ total ≤ MaxTotalVotingPower →
  quorum_of total = total * 2 / 3 + 1 ∧ (∀ s, quorum_of total ≤ s ↔ 2 * total < 3 * s).
Proof.
  intros Ht. assert (quorum_of total = total * 2 / 3 + 1) as Hq.
  { unfold quorum_of. rewrite (int64_id (total * 2)) by mlia. rewrite Z.quot_div_nonneg by lia.
    assert (0 ≤ total * 2 / 3 ≤ total * 2) by (split; [apply Z.div_pos; lia|apply Z.div_le_upper_bound; lia]).
    rewrite (int64_id (total * 2 / 3)) by mlia. rewrite int64_id by mlia. done. }
  split; [done|]. intros s. rewrite Hq. pose proof (Z.div_mod (total * 2) 3). pose proof (Z.mod_pos_bound (total * 2) 3). lia.
Qed.

(** Two quorums share more than a third of the power. *)
Lemma quorum_intersection vals p q :
  Forall (λ v, 0 ≤ VotingPower v) vals →
  2 * power_sum vals < 3 * power_where vals p → 2 * power_sum vals < 3 * power_where vals q →
  power_sum vals < 3 * power_where vals (λ i, p i && q i).
Proof.
  intros Hpos Hp Hq. pose proof (power_where_or_and vals p q).
  pose proof (power_where_range vals (λ i, p i || q i) Hpos). lia.
Qed.
