(* ===== verification/VoteSetInv.v ===== *)
(** * Vote sets: invariant

    What holds of every vote set the code builds: the canonical votes and the
    votes of each block are verified votes of the right step at their
    validator's position, the tallies and the bit arrays are exact, and the
    recorded majority is the first block whose tally crossed two thirds. *)
From S2P Require Import Prelude.
From S2P Require Import BitArray.
From S2P Require Import Vote.
From S2P Require Import Validator.
From S2P Require Import SignBytes.
From S2P Require Import ValidatorSet.
From S2P Require Import ValidatorSetPriority.
From S2P Require Import ValidatorSetUpdate.
From S2P Require Import VoteSet.
From S2P Require Import Quorum.

(** ** Tallies *)

Definition has (l : list (option Vote)) (i : nat) : bool :=
  match l !! i with Some (Some _) => true | _ => false end.

Lemma has_true l i : has l i = true ↔ ∃ v, l !! i = Some (Some v).
Proof. unfold has. destruct (l !! i) as [[v|]|]; split; [eauto|done|done|by intros [? ?]|done|by intros [? ?]]. Qed.

Lemma has_insert l i j v : (i < length l)%nat → has (<[i := Some v]> l) j = bool_decide (j = i) || has l j.
Proof.
  intros Hi. unfold has. case_bool_decide as Hj; [subst; by rewrite list_lookup_insert_eq|].
  by rewrite list_lookup_insert_ne.
Qed.

(** A list of votes with its bit array and its sum of powers. *)
Record tally_ok (vals : list Validator) (bA : option BitArray) (l : list (option Vote)) (s : Z) : Prop := {
  ty_len : length l = length vals;
  ty_bits : ∃ b, bA = Some b ∧ wf b ∧ Bits b = len vals ∧
    ∀ i : nat, (i < length vals)%nat → bit (Elems b) (Z.of_nat i) = has l i;
  ty_sum : s = power_where vals (has l);
}.

Lemma tally_set vals bA l s i v :
  tally_ok vals bA l s → (i < length vals)%nat →
  ∃ bA', SetIndex bA (Z.of_nat i) true = Ret (bA', true) ∧
    tally_ok vals bA' (<[i := Some v]> l) (power_where vals (has (<[i := Some v]> l))).
Proof.
  intros [Hlen (b & -> & Hwf & Hbits & Hb) Hs] Hi.
  destruct (setIndex_bit b (Z.of_nat i) true Hwf) as (b' & Hset & Hwf' & Hbits' & Hb'); [unfold len in Hbits; lia|].
  exists (Some b'). simpl. rewrite Hset. split; [done|]. split; [by rewrite length_insert| |done].
  exists b'. split_and!; [done|done|congruence|]. intros j Hj. rewrite Hb', has_insert by lia.
  case_decide; case_bool_decide; simpl; try lia; auto.
Qed.

Lemma tally_add vals bA l s i v val :
  tally_ok vals bA l s → Forall (λ v, 0 < VotingPower v) vals → power_sum vals ≤ MaxTotalVotingPower →
  vals !! i = Some val → l !! i = Some None →
  ∃ bA', SetIndex bA (Z.of_nat i) true = Ret (bA', true) ∧
    tally_ok vals bA' (<[i := Some v]> l) (int64 (s + VotingPower val)) ∧ s + VotingPower val ≤ power_sum vals ∧
    int64 (s + VotingPower val) = s + VotingPower val.
Proof.
  intros Ht Hpos HM Hval Hnone. pose proof (lookup_lt_Some _ _ _ Hval) as Hi.
  destruct (tally_set vals bA l s i v Ht Hi) as (bA' & Hset & Ht'). exists bA'. split; [done|].
  assert (power_where vals (has (<[i := Some v]> l)) = s + VotingPower val) as Hp.
  { rewrite (ty_sum _ _ _ _ Ht). apply power_where_add with i; [done|unfold has; by rewrite Hnone|].
    intros j Hj. apply has_insert. rewrite (ty_len _ _ _ _ Ht). lia. }
  pose proof (power_where_range vals (has (<[i := Some v]> l)) (positive_nonneg _ Hpos)). rewrite Hp in *.
  assert (int64 (s + VotingPower val) = s + VotingPower val) as Hid by (apply int64_id; mlia).
  rewrite Hid. split_and!; [done|lia|done].
Qed.

Lemma tally_replace vals bA l s i v w :
  tally_ok vals bA l s → l !! i = Some (Some w) →
  ∃ bA', SetIndex bA (Z.of_nat i) true = Ret (bA', true) ∧ tally_ok vals bA' (<[i := Some v]> l) s.
Proof.
  intros Ht Hw. pose proof (lookup_lt_Some _ _ _ Hw) as Hi. rewrite (ty_len _ _ _ _ Ht) in Hi.
  destruct (tally_set vals bA l s i v Ht Hi) as (bA' & Hset & Ht'). exists bA'. split; [done|].
  replace s with (power_where vals (has (<[i := Some v]> l))); [done|]. rewrite (ty_sum _ _ _ _ Ht).
  apply power_where_ext. intros j Hj. rewrite has_insert by (rewrite (ty_len _ _ _ _ Ht); lia).
  case_bool_decide; [|done]. subst. unfold has. by rewrite Hw.
Qed.

Lemma tally_new vals :
  vals ≠ [] → tally_ok vals (NewBitArray (len vals)) (replicate (Z.to_nat (len vals)) None) 0.
Proof.
  intros Hne. assert (0 < len vals) as Hn.
  { destruct vals; [done|]. rewrite len_cons. pose proof (len_nonneg vals). lia. }
  assert (∀ i, has (replicate (Z.to_nat (len vals)) None) i = false) as Hh.
  { intros i. unfold has. destruct (_ !! i) as [o|] eqn:E; [|done]. by apply lookup_replicate in E as [-> _]. }
  destruct (NewBitArray_spec (len vals) Hn) as (b & -> & Hwf & Hbits & Hb). split.
  - rewrite length_replicate. unfold len. lia.
  - exists b. split_and!; [done..|]. intros i _. by rewrite Hb, Hh.
  - symmetry. rewrite (power_where_ext _ _ (λ _, false)), power_where_none; [done|]. intros; apply Hh.
Qed.

(** ** The invariant *)

Section invariant.
Context `{StdTime, Crypto}.

(** The part of a vote set no operation changes. *)
Definition config (vs : VoteSet) :=
  (chainID vs, height vs, round vs, signedMsgType vs, extensionsEnabled vs, Validators (valSet vs)).

Definition vote_key (v : Vote) : bytes := BlockID_Key (vote_BlockID v).

(** A verified vote of this step by the validator at position [i]. *)
Record good_vote (vs : VoteSet) (i : nat) (v : Vote) : Prop := {
  gv_index : ValidatorIndex v = Z.of_nat i;
  gv_height : vote_Height v = height vs;
  gv_round : vote_Round v = round vs;
  gv_type : vote_Type v = signedMsgType vs;
  gv_id : good_id (vote_BlockID v);
  gv_signed : ∃ val, Validators (valSet vs) !! i = Some val ∧ ValidatorAddress v = Address val ∧
    check_signature vs v (PubKey_ val) = Ret None;
}.

Lemma good_vote_config vs vs' i v : config vs = config vs' → good_vote vs i v → good_vote vs' i v.
Proof.
  unfold config. intros [= Hc Hh Hr Ht He Hv] [Hi H1 H2 H3 H4 (val & Hval & Ha & Hs)].
  split; try congruence. exists val. split_and!; [congruence|done|]. unfold check_signature in *. by rewrite <-Hc, <-He.
Qed.

(** The votes of block [k]. *)
Record block_ok (vs : VoteSet) (k : bytes) (bv : blockVotes) : Prop := {
  bo_tally : tally_ok (Validators (valSet vs)) (bv_bitArray bv) (bv_votes bv) (bv_sum bv);
  bo_votes : ∀ i v, bv_votes bv !! i = Some (Some v) → good_vote vs i v ∧ vote_key v = k;
}.

(** The votes and the blocks agree. *)
Record core_ok (vs : VoteSet) (l : list (option Vote)) (m : gmap bytes blockVotes) (mj : option BlockID) : Prop := {
  co_votes : ∀ i v, l !! i = Some (Some v) → good_vote vs i v;
  co_blocks : ∀ k bv, m !! k = Some bv → block_ok vs k bv;
  co_tracked : ∀ i v, l !! i = Some (Some v) →
    ∃ bv, m !! vote_key v = Some bv ∧
      (bv_votes bv !! i = Some (Some v) ∨ ∃ b, mj = Some b ∧ BlockID_Key b = vote_key v);
  co_first : ∀ k bv i, m !! k = Some bv → has (bv_votes bv) i = true → has l i = true;
}.

(** The recorded majority: none while no tally reaches [q]; otherwise a block
    whose tally does, and the canonical votes follow it. *)
Definition maj_ok (q : Z) (l : list (option Vote)) (m : gmap bytes blockVotes) (mj : option BlockID) : Prop :=
  match mj with
  | None => ∀ k bv, m !! k = Some bv → bv_sum bv < q
  | Some b => good_id b ∧ ∃ bv, m !! BlockID_Key b = Some bv ∧ q ≤ bv_sum bv ∧
      ∀ i, has (bv_votes bv) i = true → ∃ v, l !! i = Some (Some v) ∧ vote_key v = BlockID_Key b
  end.

Definition quorum_vs (vs : VoteSet) : Z := quorum_of (power_sum (Validators (valSet vs))).

Record vs_ok (vs : VoteSet) : Prop := {
  ok_vals : valid_set (valSet vs);
  ok_keyed : keyed (Validators (valSet vs));
  ok_tally : tally_ok (Validators (valSet vs)) (votesBitArray vs) (votes vs) (sum vs);
  ok_core : core_ok vs (votes vs) (votesByBlock vs) (maj23 vs);
  ok_maj : maj_ok (quorum_vs vs) (votes vs) (votesByBlock vs) (maj23 vs);
}.

(** ** Steps on the parts *)

(** [l1] is what [add_to_votes] makes of [l]. *)
Inductive voted (l : list (option Vote)) (mj : option BlockID) (i : nat) (vote : Vote) : list (option Vote) → Prop :=
| voted_new : l !! i = Some None → voted l mj i vote (<[i := Some vote]> l)
| voted_replaced w b : l !! i = Some (Some w) → mj = Some b → BlockID_Key b = vote_key vote →
    voted l mj i vote (<[i := Some vote]> l)
| voted_kept w : l !! i = Some (Some w) → (∀ b, mj = Some b → BlockID_Key b ≠ vote_key vote) → voted l mj i vote l.

Lemma voted_length l mj i vote l1 : voted l mj i vote l1 → length l1 = length l.
Proof. destruct 1; rewrite ?length_insert; done. Qed.

Lemma voted_has l mj i vote l1 j : voted l mj i vote l1 → has l1 j = bool_decide (j = i) || has l j.
Proof.
  destruct 1 as [Hl|w b Hl|w Hl].
  - apply has_insert. by eapply lookup_lt_Some.
  - apply has_insert. by eapply lookup_lt_Some.
  - case_bool_decide; [|done]. subst. unfold has. by rewrite Hl.
Qed.

(** Where the new list differs from the old one, it holds the new vote. *)
Lemma voted_lookup l mj i vote l1 j v :
  voted l mj i vote l1 → l1 !! j = Some (Some v) → (j = i ∧ v = vote) ∨ l !! j = Some (Some v).
Proof.
  destruct 1 as [Hl|w b Hl|w Hl]; [..|by right];
    intros [(-> & [= ->] & _)|[_ ?]]%list_lookup_insert_Some; auto.
Qed.

Lemma core_insert vs l m mj i vote l1 bv' bv :
  core_ok vs l m mj → good_vote vs i vote → voted l mj i vote l1 → block_ok vs (vote_key vote) bv' →
  bv_votes bv' = <[i := Some vote]> (bv_votes bv) → (i < length (bv_votes bv))%nat →
  (∀ j, has (bv_votes bv) j = true → has l j = true) →
  (∀ j v, m !! vote_key vote = None ∨ (∃ bv0, m !! vote_key vote = Some bv0 ∧ (bv_votes bv0 !! j = Some (Some v) → bv_votes bv' !! j = Some (Some v)))) →
  core_ok vs l1 (<[vote_key vote := bv']> m) mj.
Proof.
  intros [Hv Hb Ht Hf] Hg Hvd Hbv' Hins Hi Hcov Hext. split.
  - intros j v [[-> ->]|Hj]%(voted_lookup _ _ _ _ _ _ _ Hvd); [done|by apply Hv].
  - intros k bv0 Hk. apply lookup_insert_Some in Hk as [[<- <-]|[_ Hk]]; [done|by apply Hb].
  - intros j v Hj. destruct (voted_lookup _ _ _ _ _ _ _ Hvd Hj) as [[-> ->]|Hj'].
    + exists bv'. rewrite lookup_insert_eq. split; [done|]. left. rewrite Hins. by apply list_lookup_insert_eq.
    + destruct (Ht j v Hj') as (bv0 & Hk & Hor). destruct (decide (vote_key v = vote_key vote)) as [Heq|Hne].
      * rewrite Heq, lookup_insert_eq. exists bv'. split; [done|]. destruct Hor as [Hor|Hor]; [left|by right; rewrite <-Heq].
        destruct (Hext j v) as [Hn|(bv1 & Hk1 & Himp)]; [congruence|]. rewrite Heq in Hk. simplify_eq. auto.
      * rewrite lookup_insert_ne by done. eauto.
  - intros k bv0 j Hk Hj. rewrite (voted_has _ _ _ _ _ _ Hvd). apply orb_true_iff.
    apply lookup_insert_Some in Hk as [[<- <-]|[_ Hk]].
    + rewrite Hins, has_insert in Hj by done. apply orb_true_iff in Hj as [?|?]; auto.
    + right. by eapply Hf.
Qed.

Lemma maj_insert vs q l m mj i vote l1 bv' bv :
  core_ok vs l m mj → maj_ok q l m mj → voted l mj i vote l1 →
  bv_votes bv' = <[i := Some vote]> (bv_votes bv) → (i < length (bv_votes bv))%nat →
  bv_sum bv ≤ bv_sum bv' → m !! vote_key vote = None ∨ m !! vote_key vote = Some bv →
  (mj = None → bv_sum bv' < q) →
  maj_ok q l1 (<[vote_key vote := bv']> m) mj.
Proof.
  intros [_ _ _ Hf] Hm Hvd Hins Hi Hsum Hold Hnew. destruct mj as [b|]; simpl in *.
  - destruct Hm as (Hgb & bv0 & Hk & Hq & Hfol). split; [done|].
    assert (∀ j v, l !! j = Some (Some v) → vote_key v = BlockID_Key b →
      ∃ v', l1 !! j = Some (Some v') ∧ vote_key v' = BlockID_Key b) as Hkeep.
    { intros j v Hj Hkv. destruct Hvd as [Hn|w b' Hl [= <-] Hb|w Hl Hb]; [| |by exists v].
      - exists v. rewrite list_lookup_insert_ne; [done|]. intros ->. congruence.
      - destruct (decide (j = i)) as [->|]; [|exists v; by rewrite list_lookup_insert_ne].
        exists vote. rewrite list_lookup_insert_eq by (by eapply lookup_lt_Some). done. }
    destruct (decide (vote_key vote = BlockID_Key b)) as [Heq|Hne].
    + exists bv'. rewrite <-Heq, lookup_insert_eq. rewrite <-Heq in Hk. destruct Hold as [Hold|Hold]; [congruence|]. simplify_eq.
      split_and!; [done|lia|]. intros j Hj. rewrite Hins, has_insert in Hj by done. rewrite Heq.
      apply orb_true_iff in Hj as [->%bool_decide_eq_true|Hj].
      * destruct Hvd as [Hn|w b' Hl [= <-] Hb|w Hl Hb]; [..|by destruct (Hb b)];
          exists vote; rewrite list_lookup_insert_eq by (by eapply lookup_lt_Some); done.
      * destruct (Hfol j Hj) as (v & Hv & Hkv). by eapply Hkeep.
    + exists bv0. rewrite lookup_insert_ne by done. split_and!; [done|done|].
      intros j Hj. destruct (Hfol j Hj) as (v & Hv & Hkv). by eapply Hkeep.
  - intros k bv0 Hk. apply lookup_insert_Some in Hk as [[<- <-]|[_ Hk]]; [by apply Hnew|by eapply Hm].
Qed.

(** ** Crossing the quorum *)

(** What copying the votes of a block into the canonical list gives. *)
Definition copied (src dst l : list (option Vote)) : Prop :=
  ∀ j, l !! j = match src !! j with Some (Some v) => Some (Some v) | _ => dst !! j end.

Lemma copy_votes_spec src dst :
  length src = length dst → ∃ l, copy_votes src dst = Ret l ∧ copied src dst l.
Proof using.
  revert dst. induction src as [|o src IH]; intros [|d dst] Hlen; simplify_eq/=.
  { exists []. by split; [|intros [|j] ]. }
  destruct (IH dst Hlen) as (l & Hl & Hc). rewrite Hl. destruct o as [v|]; simpl.
  - exists (Some v :: l). split; [done|]. intros [|j]; [done|]. apply Hc.
  - exists (d :: l). split; [done|]. intros [|j]; [done|]. apply Hc.
Qed.

Lemma copied_lookup src dst l j v :
  copied src dst l → l !! j = Some (Some v) → src !! j = Some (Some v) ∨ (has src j = false ∧ dst !! j = Some (Some v)).
Proof using.
  intros Hc. rewrite Hc. unfold has. destruct (src !! j) as [[w|]|]; auto.
Qed.

Lemma copied_has src dst l j : copied src dst l → (has src j = true → has dst j = true) → has l j = has dst j.
Proof using.
  intros Hc Himp. unfold has in *. rewrite Hc. destruct (src !! j) as [[w|]|]; try done. by rewrite Himp.
Qed.

Lemma core_cross vs l m k bv b l2 :
  core_ok vs l m None → m !! k = Some bv → BlockID_Key b = k → copied (bv_votes bv) l l2 →
  core_ok vs l2 m (Some b).
Proof using.
  intros [Hv Hb Ht Hf] Hk Hkb Hc. split.
  - intros j v [Hj|[_ Hj]]%(copied_lookup _ _ _ _ _ Hc); [|by apply Hv]. by eapply (bo_votes _ _ _ (Hb k bv Hk)).
  - done.
  - intros j v Hj. destruct (copied_lookup _ _ _ _ _ Hc Hj) as [Hj'|[_ Hj'] ].
    + destruct (bo_votes _ _ _ (Hb k bv Hk) j v Hj') as [_ Hkv]. exists bv. rewrite Hkv. auto.
    + destruct (Ht j v Hj') as (bv0 & Hk0 & [Hor|(b0 & ? & _)]); [|done]. eauto.
  - intros k0 bv0 j Hk0 Hj. rewrite (copied_has _ _ _ _ Hc); [by eapply Hf|]. by eapply Hf.
Qed.

Lemma maj_cross vs q l m bv b l2 :
  core_ok vs l m None → m !! BlockID_Key b = Some bv → good_id b → q ≤ bv_sum bv → copied (bv_votes bv) l l2 →
  maj_ok q l2 m (Some b).
Proof using.
  intros [_ Hb _ _] Hk Hg Hq Hc. simpl. split; [done|]. exists bv. split_and!; [done|done|].
  intros j [v Hj]%has_true. exists v. rewrite Hc, Hj. split; [done|]. by destruct (bo_votes _ _ _ (Hb _ _ Hk) j v Hj).
Qed.

Lemma tally_copied vals bA src dst l s :
  tally_ok vals bA dst s → (∀ j, has src j = true → has dst j = true) → length src = length dst → copied src dst l →
  tally_ok vals bA l s.
Proof using.
  intros [Hlen (b & -> & Hwf & Hbits & Hb) Hs] Himp Hls Hc.
  assert (∀ j, has l j = has dst j) as Hh by (intros j; eapply copied_has; [exact Hc|apply Himp]). split.
  - rewrite <-Hlen. apply Nat.le_antisymm; apply Nat.nlt_ge; intros Hlt; apply lookup_lt_is_Some_2 in Hlt as [o Ho].
    + pose proof (Hc (length dst)) as Hd. rewrite Ho in Hd. rewrite (lookup_ge_None_2 src), (lookup_ge_None_2 dst) in Hd by lia. done.
    + pose proof (Hc (length l)) as Hd. rewrite (lookup_ge_None_2 l) in Hd by lia. destruct (src !! length l) as [[?|]|]; congruence.
  - exists b. split_and!; [done..|]. intros i Hi. rewrite Hb, Hh by done. done.
  - rewrite Hs. apply power_where_ext. intros i _. by rewrite Hh.
Qed.
End invariant.
