(* ===== verification/VoteSetSafety.v ===== *)
(** * Vote sets: the operations keep the invariant

    [addVote] and [SetPeerMaj23] never panic on votes that passed
    [ValidateBasic], keep the invariant and never forget a vote or change the
    majority; what the majority then means, and that two vote sets of one
    step can only disagree if more than a third of the power signed twice. *)
From S2P Require Import Prelude.
From S2P Require Import BitArray.
From S2P Require Import Vote.
From S2P Require Import Validator.
From S2P Require Import SignBytes.
From S2P Require Import ValidatorSet.
From S2P Require Import ValidatorSetPriority.
From S2P Require Import ValidatorSetUpdate.
From S2P Require Import VoteSet.
From S2P Require Import Quorum.
From S2P Require Import VoteSetInv.

Section safety.
Context `{StdTime, Crypto}.

(** [vs'] keeps everything [vs] recorded. *)
Record extends (vs vs' : VoteSet) : Prop := {
  ex_config : config vs' = config vs;
  ex_maj : ∀ b, maj23 vs = Some b → maj23 vs' = Some b;
  ex_votes : ∀ i, has (votes vs) i = true → has (votes vs') i = true;
  ex_blocks : ∀ k bv, votesByBlock vs !! k = Some bv →
    ∃ bv', votesByBlock vs' !! k = Some bv' ∧
      ∀ i v, bv_votes bv !! i = Some (Some v) → bv_votes bv' !! i = Some (Some v);
}.

Lemma extends_refl vs : extends vs vs.
Proof using. split; [done|done|done|eauto]. Qed.

Lemma extends_trans vs1 vs2 vs3 : extends vs1 vs2 → extends vs2 vs3 → extends vs1 vs3.
Proof using.
  intros [C1 M1 V1 B1] [C2 M2 V2 B2]. split; [congruence|auto|auto|].
  intros k bv Hk. destruct (B1 k bv Hk) as (bv1 & Hk1 & Hb1). destruct (B2 k bv1 Hk1) as (bv2 & Hk2 & Hb2). eauto 10.
Qed.

(** The invariant only depends on the configuration. *)
Lemma block_ok_config vs vs' k bv : config vs = config vs' → block_ok vs k bv → block_ok vs' k bv.
Proof using.
  intros Hc [Ht Hv]. split.
  - unfold config in Hc. injection Hc as _ _ _ _ _ Hv'. by rewrite <-Hv'.
  - intros i v Hi. destruct (Hv i v Hi). split; [by eapply good_vote_config|done].
Qed.

Lemma core_ok_config vs vs' l m mj : config vs = config vs' → core_ok vs l m mj → core_ok vs' l m mj.
Proof using.
  intros Hc [Hv Hb Ht Hf]. split; [|..]; try done.
  - intros i v Hi. eapply good_vote_config; [done|by apply Hv].
  - intros k bv Hk. eapply block_ok_config; [done|by apply Hb].
Qed.

Lemma newBlockVotes_ok vs k p :
  Validators (valSet vs) ≠ [] → block_ok vs k (newBlockVotes p (Size (valSet vs))).
Proof using.
  intros Hne. split; simpl; [by apply tally_new|]. intros i v Hi. by apply lookup_replicate in Hi as [? _].
Qed.

(** ** The canonical list *)

Lemma add_to_votes_spec vs i vote val key :
  vs_ok vs → good_vote vs i vote → Validators (valSet vs) !! i = Some val → key = vote_key vote →
  (∀ w, votes vs !! i = Some (Some w) → vote_key w ≠ key) →
  ∃ bits1 l1 s1 conflicting,
    add_to_votes vs vote key (VotingPower val) = Ret (with_votes vs bits1 l1 s1, conflicting) ∧
    voted (votes vs) (maj23 vs) i vote l1 ∧ tally_ok (Validators (valSet vs)) bits1 l1 s1 ∧
    votes vs !! i = Some conflicting.
Proof using.
  intros Hok Hg Hval -> Hnew. pose proof (ok_vals _ Hok) as [_ Hvl _].
  pose proof (lookup_lt_Some _ _ _ Hval) as Hi. pose proof (ok_tally _ Hok) as Ht. pose proof (ty_len _ _ _ _ Ht) as Hlen.
  destruct (lookup_lt_is_Some_2 (votes vs) i) as [o Ho]; [lia|].
  assert (slice_get (votes vs) (ValidatorIndex vote) = Ret o) as Hget.
  { apply slice_get_ret. rewrite (gv_index _ _ _ Hg), Nat2Z.id. split; [lia|done]. }
  assert (∀ x, slice_set (votes vs) (ValidatorIndex vote) x = Ret (<[i := x]> (votes vs))) as Hset.
  { intros x. rewrite (gv_index _ _ _ Hg), slice_set_in_range, Nat2Z.id by (unfold len; lia). done. }
  unfold add_to_votes, put_vote. rewrite Hget, Hset, (gv_index _ _ _ Hg). simpl. destruct o as [w|].
  - destruct (BlockID_Equals (vote_BlockID w) (vote_BlockID vote)) eqn:Eq.
    { apply BlockID_Equals_eq in Eq. destruct (Hnew w Ho). unfold vote_key. by rewrite Eq. }
    destruct (maj23 vs) as [b|] eqn:Em; [case_bool_decide as Hb|].
    + destruct (tally_replace _ _ _ _ i vote w Ht Ho) as (bA' & HS & Ht'). rewrite HS. simpl.
      do 4 eexists. split_and!; [done|by eapply voted_replaced|done|done].
    + exists (votesBitArray vs), (votes vs), (sum vs), (Some w). split_and!; [by destruct vs| |done|done].
      eapply voted_kept; [done|]. by intros ? [= <-].
    + exists (votesBitArray vs), (votes vs), (sum vs), (Some w). split_and!; [by destruct vs| |done|done].
      eapply voted_kept; [done|]. done.
  - destruct (tally_add _ _ _ _ i vote val Ht (vl_power _ Hvl) (vl_total _ Hvl) Hval Ho) as (bA' & HS & Ht' & _). rewrite HS. simpl.
    do 4 eexists. split_and!; [done|by apply voted_new|done|done].
Qed.

(** ** The block's votes *)

Lemma bv_add_spec vs bv i vote val :
  valid_set (valSet vs) → block_ok vs (vote_key vote) bv → good_vote vs i vote →
  Validators (valSet vs) !! i = Some val → bv_votes bv !! i = Some None →
  ∃ bv', bv_addVerifiedVote bv vote (VotingPower val) = Ret bv' ∧ block_ok vs (vote_key vote) bv' ∧
    bv_votes bv' = <[i := Some vote]> (bv_votes bv) ∧ bv_sum bv ≤ bv_sum bv'.
Proof using.
  intros [_ Hvl _] [Ht Hv] Hg Hval Hn. unfold bv_addVerifiedVote. rewrite (gv_index _ _ _ Hg).
  pose proof (lookup_lt_Some _ _ _ Hn) as Hi.
  assert (slice_get (bv_votes bv) (Z.of_nat i) = Ret None) as ->.
  { apply slice_get_ret. rewrite Nat2Z.id. split; [lia|done]. }
  rewrite slice_set_in_range, Nat2Z.id by (unfold len; lia). simpl.
  destruct (tally_add _ _ _ _ i vote val Ht (vl_power _ Hvl) (vl_total _ Hvl) Hval Hn) as (bA' & -> & Ht' & _ & Hid). simpl.
  eexists. split_and!; [done| |done|].
  - split; simpl; [done|]. intros j v [(-> & [= ->] & _)|[_ Hj]]%list_lookup_insert_Some; [done|by apply Hv].
  - simpl. pose proof (power_pos_elem _ _ (vl_power _ Hvl) (list_elem_of_lookup_2 _ _ _ Hval)). lia.
Qed.

Lemma add_to_block_spec vs bits1 l1 s1 bv i vote val :
  vs_ok vs → good_vote vs i vote → voted (votes vs) (maj23 vs) i vote l1 →
  tally_ok (Validators (valSet vs)) bits1 l1 s1 → Validators (valSet vs) !! i = Some val →
  block_ok vs (vote_key vote) bv → bv_votes bv !! i = Some None →
  (votesByBlock vs !! vote_key vote = None ∧ (∀ j, has (bv_votes bv) j = false) ∧ bv_sum bv = 0 ∨
   votesByBlock vs !! vote_key vote = Some bv) →
  ∃ vs', add_to_block (with_votes vs bits1 l1 s1) bv vote (vote_key vote) (VotingPower val) = Ret vs' ∧
    vs_ok vs' ∧ extends vs vs' ∧
    ∃ bv', votesByBlock vs' !! vote_key vote = Some bv' ∧ bv_votes bv' !! i = Some (Some vote).
Proof using.
  intros Hok Hg Hvd Hty Hval Hbv Hn Hold. pose proof Hok as [Hvs Hk Ht Hc Hm].
  pose proof Hvs as [Hne Hvl _]. set (P := power_sum (Validators (valSet vs))).
  unfold add_to_block. cbn [valSet with_votes]. rewrite TotalVotingPower_spec by done. simpl. fold P.
  destruct (bv_add_spec vs bv i vote val Hvs Hbv Hg Hval Hn) as (bv' & -> & Hbv' & Hins & Hsum). simpl.
  pose proof (lookup_lt_Some _ _ _ Hn) as Hi.
  assert (valid_set (with_total (valSet vs) P)) as Hvs' by (split; simpl; [done|done|by right]).
  assert (core_ok vs l1 (<[vote_key vote := bv']> (votesByBlock vs)) (maj23 vs)) as Hcore.
  { eapply core_insert; [done|done|done|done|done|done| |].
    - intros j Hj. destruct Hold as [(_ & Hf & _)|Hold]; [by rewrite Hf in Hj|]. by eapply (co_first _ _ _ _ Hc).
    - intros j v. destruct Hold as [(Hno & _)|Hold]; [by left|right]. exists bv. split; [done|]. intros Hj.
      rewrite Hins, list_lookup_insert_ne; [done|]. intros ->. congruence. }
  assert (extends vs (with_blocks (with_valSet (with_votes vs bits1 l1 s1) (with_total (valSet vs) P))
    (<[vote_key vote := bv']> (votesByBlock vs)))) as Hext.
  { split; simpl; [done|done| |].
    - intros j Hj. rewrite (voted_has _ _ _ _ _ _ Hvd), Hj. apply orb_true_r.
    - intros k bv0 Hk0. destruct (decide (k = vote_key vote)) as [->|]; [|rewrite lookup_insert_ne by done; eauto].
      destruct Hold as [(Hno & _)|Hold]; [congruence|]. simplify_eq. exists bv'. rewrite lookup_insert_eq.
      split; [done|]. intros j v Hj. rewrite Hins, list_lookup_insert_ne; [done|]. intros ->. congruence. }
  assert (bv_votes bv' !! i = Some (Some vote)) as Hrec by (rewrite Hins; by apply list_lookup_insert_eq).
  destruct ((bv_sum bv <? quorum_of P) && (quorum_of P <=? bv_sum bv')) eqn:Ecross.
  - apply andb_true_iff in Ecross as [_ Hq%Z.leb_le]. destruct (maj23 vs) as [b|] eqn:Em; simpl.
    + eexists. split; [done|]. split_and!; [|done|simpl; rewrite lookup_insert_eq; eauto].
      split; simpl; [done|done|done|rewrite Em; by apply (core_ok_config vs)|rewrite Em].
      eapply maj_insert; [done|done|done|done|done|done| |done]. destruct Hold as [(? & _)|?]; auto.
    + destruct (copy_votes_spec (bv_votes bv') l1) as (l2 & Hcp & Hcopied).
      { rewrite (ty_len _ _ _ _ (bo_tally _ _ _ Hbv')), (ty_len _ _ _ _ Hty). done. }
      rewrite Hcp. simpl. eexists. split; [done|].
      assert (∀ j, has (bv_votes bv') j = true → has l1 j = true) as Hcov.
      { intros j Hj. eapply (co_first _ _ _ _ Hcore); [apply lookup_insert_eq|done]. }
      split_and!; [| |simpl; rewrite lookup_insert_eq; eauto].
      * split; simpl; [done|done| | |].
        -- eapply tally_copied; [done|done| |done]. rewrite (ty_len _ _ _ _ (bo_tally _ _ _ Hbv')), (ty_len _ _ _ _ Hty). done.
        -- apply (core_ok_config vs); [done|]. eapply core_cross; [done|apply lookup_insert_eq|done|done].
        -- eapply maj_cross; [done|apply lookup_insert_eq|apply Hg|done|done].
      * eapply extends_trans; [done|]. split; simpl; [done|by rewrite Em| |eauto].
        intros j Hj. rewrite (copied_has _ _ _ _ Hcopied); [done|apply Hcov].
  - eexists. split; [done|]. split_and!; [|done|simpl; rewrite lookup_insert_eq; eauto].
    split; simpl; [done|done|done|by apply (core_ok_config vs)|].
    eapply maj_insert; [done|done|done|done|done|done| |].
    + destruct Hold as [(? & _)|?]; auto.
    + intros Em. unfold quorum_vs. simpl. fold P. apply andb_false_iff in Ecross as [Hlt|Hlt]; [|lia]. exfalso.
      destruct (quorum_of_spec P) as [_ Hqs]; [split; [|apply Hvl]; apply zsum_nonneg; intros v Hv;
        pose proof (power_pos_elem _ _ (vl_power _ Hvl) Hv); lia|].
      destruct Hold as [(_ & _ & H00)|Hold].
      * rewrite H00 in Hlt. assert (quorum_of P ≤ 0) as Hq by lia. apply Hqs in Hq.
        pose proof (power_sum_pos _ (vl_power _ Hvl) Hne). unfold P in *. lia.
      * rewrite Em in Hm. specialize (Hm _ _ Hold). unfold quorum_vs in Hm. fold P in Hm. lia.
Qed.

(** ** Adding a vote *)

(** The vote is stored under its block. *)
Definition recorded (vs : VoteSet) (i : nat) (vote : Vote) : Prop :=
  ∃ bv, votesByBlock vs !! vote_key vote = Some bv ∧ bv_votes bv !! i = Some (Some vote).

Lemma replaced_ok vs bits1 l1 s1 i vote w :
  vs_ok vs → good_vote vs i vote → voted (votes vs) (maj23 vs) i vote l1 → votes vs !! i = Some (Some w) →
  tally_ok (Validators (valSet vs)) bits1 l1 s1 →
  vs_ok (with_votes vs bits1 l1 s1) ∧ extends vs (with_votes vs bits1 l1 s1).
Proof using.
  intros Hok Hg Hvd Hw Hty. pose proof Hok as [Hvs Hk Ht Hc Hm].
  assert (extends vs (with_votes vs bits1 l1 s1)) as Hext.
  { split; simpl; [done|done| |eauto]. intros j Hj. rewrite (voted_has _ _ _ _ _ _ Hvd), Hj. apply orb_true_r. }
  split; [|done]. pose proof Hc as [Cv Cb Ct Cf].
  assert (∀ j, has l1 j = has (votes vs) j) as Hh.
  { intros j. rewrite (voted_has _ _ _ _ _ _ Hvd). case_bool_decide; [|done]. subst. unfold has. by rewrite Hw. }
  split; simpl; [done|done|done|apply (core_ok_config vs); [done|]|].
  - split; [| done| |].
    + intros j v [[-> ->]|Hj]%(voted_lookup _ _ _ _ _ _ _ Hvd); [done|by apply Cv].
    + intros j v Hj. destruct Hvd as [Hn|w' b Hl Em Hb|w' Hl Hb]; [congruence| |by apply Ct].
      apply list_lookup_insert_Some in Hj as [(-> & [= ->] & _)|[_ Hj]]; [|by apply Ct].
      rewrite Em in Hm. destruct Hm as (_ & bv & Hbv & _). rewrite Hb in Hbv. exists bv. split; [done|]. right. eauto.
    + intros k bv j Hkb Hj. rewrite Hh. by eapply Cf.
  - destruct (maj23 vs) as [b|] eqn:Em; [|done]. destruct Hm as (Hgb & bv & Hbv & Hq & Hfol).
    split; [done|]. exists bv. split_and!; [done|done|]. intros j Hj. destruct (Hfol j Hj) as (v & Hv & Hkv).
    destruct Hvd as [Hn|w' b' Hl [= <-] Hb|w' Hl Hb]; [congruence| |by exists v].
    destruct (decide (j = i)) as [->|]; [|exists v; by rewrite list_lookup_insert_ne].
    exists vote. rewrite list_lookup_insert_eq by (by eapply lookup_lt_Some). done.
Qed.

Lemma addVerifiedVote_spec vs i vote val :
  vs_ok vs → good_vote vs i vote → Validators (valSet vs) !! i = Some val →
  (∀ w, votes vs !! i = Some (Some w) → vote_key w ≠ vote_key vote) →
  (∀ bv, votesByBlock vs !! vote_key vote = Some bv → bv_votes bv !! i = Some None) →
  ∃ vs' added conflicting, addVerifiedVote vs vote (vote_key vote) (VotingPower val) = Ret (vs', added, conflicting) ∧
    vs_ok vs' ∧ extends vs vs' ∧ votes vs !! i = Some conflicting ∧ (conflicting = None → added = true) ∧
    (added = true → recorded vs' i vote).
Proof using.
  intros Hok Hg Hval Hnew Hnb. pose proof (vs_nonempty _ (ok_vals _ Hok)) as Hne.
  destruct (add_to_votes_spec vs i vote val _ Hok Hg Hval eq_refl Hnew) as (bits1 & l1 & s1 & c & Ha & Hvd & Hty & Hc).
  unfold addVerifiedVote. rewrite Ha. simpl.
  destruct (votesByBlock vs !! vote_key vote) as [bv|] eqn:Eb.
  - specialize (Hnb bv eq_refl). pose proof (co_blocks _ _ _ _ (ok_core _ Hok) _ _ Eb) as Hbo.
    destruct (add_to_block_spec vs bits1 l1 s1 bv i vote val Hok Hg Hvd Hty Hval Hbo Hnb (or_intror Eb))
      as (vs' & Hab & Hok' & Hext & Hrec).
    destruct c as [w|]; [destruct (bv_peerMaj23 bv); simpl|].
    + rewrite Hab. simpl. exists vs', true, (Some w). split_and!; done.
    + exists (with_votes vs bits1 l1 s1), false, (Some w). destruct (replaced_ok vs bits1 l1 s1 i vote w); [done..|].
      split_and!; done.
    + rewrite Hab. simpl. exists vs', true, None. split_and!; done.
  - destruct c as [w|].
    + exists (with_votes vs bits1 l1 s1), false, (Some w). destruct (replaced_ok vs bits1 l1 s1 i vote w); [done..|].
      split_and!; done.
    + edestruct (add_to_block_spec vs bits1 l1 s1 (newBlockVotes false (Size (valSet vs))) i vote val Hok Hg Hvd Hty Hval)
        as (vs' & Hab & Hok' & Hext & Hrec).
      * by apply newBlockVotes_ok.
      * simpl. apply lookup_replicate. split; [done|]. apply lookup_lt_Some in Hval. unfold Size, len. lia.
      * left. split_and!; [done| |done]. intros j. unfold has. simpl.
        destruct (replicate _ None !! j) as [o|] eqn:E; [|done]. by apply lookup_replicate in E as [-> _].
      * rewrite Hab. simpl. exists vs', true, None. split_and!; done.
Qed.

(** What [ValidateBasic] and the format of times guarantee of a vote that
    reaches [addVote]. *)
Definition addable (vs : VoteSet) (vote : Vote) : Prop :=
  good_id (vote_BlockID vote) ∧ ∃ bz, VoteSignBytes (chainID vs) vote = Ret bz.

Lemma check_signature_ret vs vote pk :
  addable vs vote →
  ∃ r, check_signature vs vote (Some pk) = Ret r ∧ ∀ a b, r ≠ Some (ErrVoteConflictingVotes a b).
Proof using.
  intros [_ [bz Hbz]]. unfold check_signature, VerifyVoteAndExtension, Vote_Verify. rewrite Hbz. simpl.
  destruct (extensionsEnabled vs); repeat (case_match; simpl; try by (eexists; split; [reflexivity|done])).
Qed.

Lemma GetByIndex_spec vals i a v :
  GetByIndex vals i = Some (a, v) → 0 ≤ i ∧ Validators vals !! Z.to_nat i = Some v ∧ a = Address v.
Proof using.
  unfold GetByIndex. destruct ((i <? 0) || (len (Validators vals) <=? i)) eqn:E; [done|].
  destruct (Validators vals !! Z.to_nat i) as [w|] eqn:Ev; [|done]. intros [= <- <-]. split; [lia|done].
Qed.

(** What the outcome of [addVote] says. *)
Definition add_outcome (vs : VoteSet) (vote : Vote) (vs' : VoteSet) (added : bool) (err : option add_error) : Prop :=
  match err with
  | None =>
      if added then ∃ i, good_vote vs i vote ∧ recorded vs' i vote ∧ votes vs !! i = Some None
      else vs' = vs ∧ ∃ i w, good_vote vs i w ∧ vote_key w = vote_key vote ∧ vote_Signature w = vote_Signature vote ∧
        ValidatorIndex w = ValidatorIndex vote
  | Some (ErrVoteConflictingVotes c v) =>
      v = vote ∧ ∃ i, good_vote vs i c ∧ good_vote vs i vote ∧ vote_BlockID c ≠ vote_BlockID vote ∧
        (added = true → recorded vs' i vote)
  | Some _ => added = false ∧ vs' = vs
  end.

Lemma getVote_spec vs i key :
  vs_ok vs → (i < length (Validators (valSet vs)))%nat →
  ∃ r, getVote vs (Z.of_nat i) key = Ret r ∧
    match r with
    | Some w => good_vote vs i w ∧ vote_key w = key
    | None => (∀ w, votes vs !! i = Some (Some w) → vote_key w ≠ key) ∧
              (∀ bv, votesByBlock vs !! key = Some bv → bv_votes bv !! i = Some None)
    end.
Proof using.
  intros Hok Hi. pose proof (ok_core _ Hok) as [Cv Cb _ _]. pose proof (ty_len _ _ _ _ (ok_tally _ Hok)) as Hlen.
  destruct (lookup_lt_is_Some_2 (votes vs) i) as [o Ho]; [lia|].
  unfold getVote. assert (slice_get (votes vs) (Z.of_nat i) = Ret o) as ->.
  { apply slice_get_ret. rewrite Nat2Z.id. split; [lia|done]. }
  simpl.
  assert (∃ r, bv_getByIndex (votesByBlock vs !! key) (Z.of_nat i) = Ret r ∧
    match r with
    | Some w => good_vote vs i w ∧ vote_key w = key
    | None => ∀ bv, votesByBlock vs !! key = Some bv → bv_votes bv !! i = Some None
    end) as (r & Hr & Hcase).
  { destruct (votesByBlock vs !! key) as [bv|] eqn:Eb; simpl; [|by exists None].
    pose proof (Cb _ _ Eb) as [Hbt Hbv]. destruct (lookup_lt_is_Some_2 (bv_votes bv) i) as [r Hr]; [rewrite (ty_len _ _ _ _ Hbt); lia|].
    exists r. split; [apply slice_get_ret; rewrite Nat2Z.id; split; [lia|done]|].
    destruct r as [w|]; [by apply Hbv|]. by intros ? [= <-]. }
  destruct o as [w|].
  - case_decide as Hkey; [exists (Some w); split; [done|]; split; [by apply Cv|done]|].
    exists r. split; [done|]. destruct r as [x|]; [done|]. split; [|done]. by intros ? [= <-]%(eq_trans (eq_sym Ho)).
  - exists r. split; [done|]. destruct r as [x|]; [done|]. split; [|done]. intros w Hw. congruence.
Qed.

Lemma addVote_spec vs vote :
  vs_ok vs → addable vs vote →
  ∃ vs' added err, addVote vs (Some vote) = Ret (vs', added, err) ∧ vs_ok vs' ∧ extends vs vs' ∧
    add_outcome vs vote vs' added err.
Proof using.
  intros Hok Had. assert (∀ e, add_outcome vs vote vs false (Some e) →
    ∃ vs' added err, Ret (vs, false, Some e) = Ret (vs', added, err) ∧ vs_ok vs' ∧ extends vs vs' ∧
      add_outcome vs vote vs' added err) as Herr.
  { intros e He. exists vs, false, (Some e). split_and!; [done|done|apply extends_refl|done]. }
  unfold addVote. destruct (Z.ltb_spec (ValidatorIndex vote) 0); [by apply Herr|].
  destruct (len (ValidatorAddress vote) =? 0); [by apply Herr|].
  destruct (negb _ || _ || _) eqn:Estep; [by apply Herr|].
  destruct (GetByIndex (valSet vs) (ValidatorIndex vote)) as [[a val]|] eqn:Eg; [|by apply Herr].
  apply GetByIndex_spec in Eg as (_ & Hval & ->). set (i := Z.to_nat (ValidatorIndex vote)) in *.
  assert (ValidatorIndex vote = Z.of_nat i) as Hidx by (unfold i; lia). rewrite Hidx.
  case_bool_decide as Haddr; simpl; [|by apply Herr].
  pose proof (lookup_lt_Some _ _ _ Hval) as Hi.
  destruct (getVote_spec vs i (vote_key vote) Hok Hi) as (r & Hget & Hr). unfold vote_key in Hget at 1. rewrite Hget. simpl.
  destruct r as [w|].
  { case_decide as Hsig; [|by apply Herr]. exists vs, false, None. split_and!; [done|done|apply extends_refl|].
    split; [done|]. exists i, w. split_and!; [apply Hr..|done|]. rewrite Hidx. apply Hr. }
  pose proof (ok_keyed _ Hok) as Hk. unfold keyed in Hk. rewrite Forall_lookup in Hk. specialize (Hk i val Hval).
  destruct (PubKey_ val) as [pk|] eqn:Epk; [|done].
  destruct (check_signature_ret vs vote pk Had) as (r & Hchk & Hnc). rewrite Hchk. simpl.
  destruct r as [e|]; [apply Herr; destruct e; by try destruct (Hnc voteA voteB)|].
  assert (good_vote vs i vote) as Hgv.
  { split; [done|lia..|apply Had|]. exists val. rewrite Epk. done. }
  destruct (addVerifiedVote_spec vs i vote val Hok Hgv Hval (proj1 Hr) (proj2 Hr))
    as (vs' & added & c & Hav & Hok' & Hext & Hc & Hadd & Hrec).
  unfold vote_key in Hav at 1. rewrite Hav. simpl. destruct c as [w|].
  - exists vs', added, (Some (ErrVoteConflictingVotes w vote)). split_and!; [done..|]. split; [done|].
    exists i. split_and!; [by apply (co_votes _ _ _ _ (ok_core _ Hok))|done| |done].
    intros Heq. apply (proj1 Hr w Hc). unfold vote_key. by rewrite Heq.
  - rewrite Hadd by done. exists vs', true, None. split_and!; [done..|]. exists i. split_and!; [done|by apply Hrec, Hadd|done].
Qed.

(** ** Claims of peers *)

(** Replacing the entry of one block by one with the same votes, or adding an
    empty one. *)
Lemma set_block_ok vs peers k bv bv' :
  vs_ok vs → block_ok vs k bv' → bv_votes bv' = bv_votes bv → bv_sum bv' = bv_sum bv →
  votesByBlock vs !! k = Some bv ∨
    votesByBlock vs !! k = None ∧ (∀ i, has (bv_votes bv) i = false) ∧ bv_sum bv < quorum_vs vs →
  vs_ok (with_blocks (with_peers vs peers) (<[k := bv']> (votesByBlock vs))) ∧
  extends vs (with_blocks (with_peers vs peers) (<[k := bv']> (votesByBlock vs))).
Proof using.
  intros [Hvs Hk Ht Hc Hm] Hbo Hvotes Hsum Hold. pose proof Hc as [Cv Cb Ct Cf].
  split; [split; simpl; [done|done|done|apply (core_ok_config vs); [done|]|]|].
  - split; [done| | |].
    + intros k0 bv0 [[<- <-]|[_ Hk0]]%lookup_insert_Some; [done|by apply Cb].
    + intros i v Hi. destruct (Ct i v Hi) as (bv0 & Hk0 & Hor). destruct (decide (vote_key v = k)) as [<-|].
      * rewrite lookup_insert_eq. exists bv'. split; [done|].
        destruct Hold as [Hold|[Hold _] ]; [|congruence]. simplify_eq. by rewrite Hvotes.
      * rewrite lookup_insert_ne by done. eauto.
    + intros k0 bv0 i [[<- <-]|[_ Hk0]]%lookup_insert_Some Hi; [|by eapply Cf]. rewrite Hvotes in Hi.
      destruct Hold as [Hold|(_ & Hold & _)]; [by eapply Cf|by rewrite Hold in Hi].
  - unfold maj_ok in *. destruct (maj23 vs) as [mj|] eqn:Em.
    + destruct Hm as (Hg & bv0 & Hk0 & Hq0 & Hf). split; [done|]. destruct (decide (BlockID_Key mj = k)) as [<-|].
      * exists bv'. rewrite lookup_insert_eq. destruct Hold as [Hold|[Hold _] ]; [|congruence]. simplify_eq.
        split_and!; [done|by rewrite Hsum|by rewrite Hvotes].
      * exists bv0. by rewrite lookup_insert_ne.
    + intros k0 bv0 [[<- <-]|[_ Hk0]]%lookup_insert_Some; [|by eapply Hm].
      change (bv_sum bv' < quorum_vs vs). rewrite Hsum. destruct Hold as [Hold|(_ & _ & Hq)]; [by eapply Hm|done].
  - split; simpl; [done|done|done|]. intros k0 bv0 Hk0. destruct (decide (k0 = k)) as [->|];
      [|rewrite lookup_insert_ne by done; eauto].
    rewrite lookup_insert_eq. exists bv'. split; [done|]. destruct Hold as [Hold|[Hold _] ]; [|congruence]. simplify_eq.
    by rewrite Hvotes.
Qed.

Lemma quorum_positive vs : valid_set (valSet vs) → 0 < quorum_vs vs.
Proof using.
  intros [Hne Hvl _]. pose proof (power_sum_pos _ (vl_power _ Hvl) Hne) as [_ Hpos]. unfold quorum_vs.
  destruct (quorum_of_spec (power_sum (Validators (valSet vs)))) as [_ Hqs]; [split; [lia|apply Hvl]|].
  destruct (Z.lt_ge_cases 0 (quorum_of (power_sum (Validators (valSet vs))))) as [|Hle]; [done|]. apply Hqs in Hle. lia.
Qed.

Lemma SetPeerMaj23_spec vs peer b vs' e :
  vs_ok vs → SetPeerMaj23 vs peer b = (vs', e) → vs_ok vs' ∧ extends vs vs'.
Proof using.
  intros Hok. unfold SetPeerMaj23. destruct (peerMaj23s vs !! peer); [intros [= <- _]; split; [done|apply extends_refl]|].
  pose proof Hok as [Hvs Hk Ht Hc Hm]. simpl. destruct (votesByBlock vs !! BlockID_Key b) as [bv|] eqn:Eb.
  - destruct (bv_peerMaj23 bv) eqn:Ep; intros [= <- _].
    + split; [by split; [..|apply (core_ok_config vs)|] |]. split; simpl; eauto.
    + destruct (co_blocks _ _ _ _ Hc _ _ Eb). by apply (set_block_ok vs _ _ bv); [|split|..|left].
  - intros [= <- _]. apply (set_block_ok vs _ _ (newBlockVotes true (Size (valSet vs)))); [done| |done|done|right].
    + apply newBlockVotes_ok, Hvs.
    + split_and!; [done| |by apply quorum_positive]. intros i. unfold has. simpl.
      destruct (replicate _ None !! i) as [o|] eqn:E; [|done]. by apply lookup_replicate in E as [-> _].
Qed.

Lemma NewVoteSet_ok cid h r ty vals vs :
  valid_set vals → keyed (Validators vals) → NewVoteSet cid h r ty vals = Ret vs → vs_ok vs.
Proof using.
  intros Hvs Hk. unfold NewVoteSet. destruct (h =? 0); [done|]. intros <-%(inj Ret).
  assert (∀ i v, replicate (Z.to_nat (Size vals)) (@None Vote) !! i = Some (Some v) → False) as Hno
    by (intros i v [? _]%lookup_replicate; done).
  split; simpl; [done|done|apply tally_new, Hvs| |].
  - split; [by intros i v ?%Hno|intros k bv; by rewrite lookup_empty|by intros i v ?%Hno|intros k bv i; by rewrite lookup_empty].
  - intros k bv. by rewrite lookup_empty.
Qed.

(** ** Reachable vote sets *)

(** Every vote set a node can hold: created for a valid validator set, fed
    validated votes and peer claims, and queried. *)
Inductive reachable : VoteSet → Prop :=
| reach_new cid h r ty vals vs :
    valid_set vals → keyed (Validators vals) → NewVoteSet cid h r ty vals = Ret vs → reachable vs
| reach_new_extended cid h r ty vals vs :
    valid_set vals → keyed (Validators vals) → NewExtendedVoteSet cid h r ty vals = Ret vs → reachable vs
| reach_add vs vote vs' added err :
    reachable vs → addable vs vote → addVote vs (Some vote) = Ret (vs', added, err) → reachable vs'
| reach_peer vs peer b vs' e : reachable vs → SetPeerMaj23 vs peer b = (vs', e) → reachable vs'
| reach_any vs vs' r : reachable vs → HasTwoThirdsAny (Some vs) = Ret (Some vs', r) → reachable vs'.

Lemma with_total_ok vs :
  vs_ok vs → vs_ok (with_valSet vs (with_total (valSet vs) (power_sum (Validators (valSet vs))))).
Proof using.
  intros [Hvs Hk Ht Hc Hm]. split; simpl; [|done|done|by apply (core_ok_config vs)|done].
  destruct Hvs as [Hne Hvl _]. split; simpl; [done|done|by right].
Qed.

Lemma reachable_ok vs : reachable vs → vs_ok vs.
Proof using.
  induction 1 as [cid h r ty vals vs Hv Hk Hn|cid h r ty vals vs Hv Hk Hn|vs vote vs' added err _ IH Ha He
    |vs peer b vs' e _ IH He|vs vs' r _ IH He].
  - by eapply NewVoteSet_ok.
  - unfold NewExtendedVoteSet in Hn. apply bind_ret_inv in Hn as (vs0 & H0' & Hn). apply (inj Ret) in Hn as <-.
    pose proof (NewVoteSet_ok _ _ _ _ _ _ Hv Hk H0') as [Hvs Hk' Ht Hc Hm].
    unfold NewVoteSet in H0'. destruct (h =? 0); [done|]. apply (inj Ret) in H0' as <-. simpl in *.
    assert (∀ i v, replicate (Z.to_nat (Size vals)) (@None Vote) !! i = Some (Some v) → False) as Hno
      by (intros i v [? _]%lookup_replicate; done).
    split; simpl; [done|done|done| |done].
    split; [by intros i v ?%Hno|intros k bv; by rewrite lookup_empty|by intros i v ?%Hno|intros k bv i; by rewrite lookup_empty].
  - destruct (addVote_spec vs vote IH Ha) as (vs1 & a1 & e1 & Heq & Hok & _). rewrite He in Heq. by simplify_eq.
  - by destruct (SetPeerMaj23_spec _ _ _ _ _ IH He).
  - simpl in He. rewrite TotalVotingPower_spec in He by apply IH. simpl in He. injection He as <- _. by apply with_total_ok.
Qed.

(** The votes for block [b] that the set records. *)
Definition votes_for (vs : VoteSet) (b : BlockID) (i : nat) : bool :=
  match votesByBlock vs !! BlockID_Key b with Some bv => has (bv_votes bv) i | None => false end.

Lemma votes_for_signed vs b i :
  vs_ok vs → good_id b → votes_for vs b i = true → ∃ v, good_vote vs i v ∧ vote_BlockID v = b.
Proof using.
  intros Hok Hb Hv. unfold votes_for in Hv. destruct (votesByBlock vs !! BlockID_Key b) as [bv|] eqn:Eb; [|done].
  apply has_true in Hv as [v Hv]. destruct (bo_votes _ _ _ (co_blocks _ _ _ _ (ok_core _ Hok) _ _ Eb) i v Hv) as [Hg Hk].
  exists v. split; [done|]. apply BlockID_Key_inj; [apply Hg|done|done].
Qed.

Lemma maj23_power vs b :
  vs_ok vs → maj23 vs = Some b →
  good_id b ∧ 2 * power_sum (Validators (valSet vs)) < 3 * power_where (Validators (valSet vs)) (votes_for vs b).
Proof using.
  intros Hok Hm. pose proof (ok_maj _ Hok) as Hmj. rewrite Hm in Hmj. destruct Hmj as (Hg & bv & Hb & Hq & _).
  split; [done|]. pose proof (ok_vals _ Hok) as [Hne Hvl _]. pose proof (power_sum_pos _ (vl_power _ Hvl) Hne) as [_ Hpos].
  apply quorum_of_spec in Hq; [|split; [lia|apply Hvl] ].
  destruct (co_blocks _ _ _ _ (ok_core _ Hok) _ _ Hb) as [Ht _].
  rewrite (ty_sum _ _ _ _ Ht) in Hq. unfold votes_for. by rewrite Hb.
Qed.
End safety.

(** C16: on every reachable vote set, [addVote] of a vote that passed
    validation returns without panicking, in a set that is again consistent
    and keeps every vote and majority recorded before.  A returned error
    other than a conflict leaves the set alone, as does a duplicate; an added
    vote is stored; a conflict comes with two verified votes of the same
    validator and step for different blocks, so the evidence made from it is
    genuine. *)
Theorem addVote_total_and_sound `{StdTime, Crypto} vs vote :
  reachable vs → addable vs vote →
  ∃ vs' added err, addVote vs (Some vote) = Ret (vs', added, err) ∧ vs_ok vs' ∧ extends vs vs' ∧
    add_outcome vs vote vs' added err.
Proof. intros Hr Ha. apply addVote_spec; [by apply reachable_ok|done]. Qed.

(** What [TwoThirdsMajority] reports.  If it reports a block, more than
    two thirds of the total power have a verified vote for that block on
    record; if it reports none, no block has that much. *)
Theorem TwoThirdsMajority_exact `{StdTime, Crypto} vs b ok :
  reachable vs → TwoThirdsMajority (Some vs) = (b, ok) →
  let vals := Validators (valSet vs) in
  if ok then
    2 * power_sum vals < 3 * power_where vals (votes_for vs b) ∧
    ∀ i, votes_for vs b i = true → ∃ v, good_vote vs i v ∧ vote_BlockID v = b
  else ∀ b', 3 * power_where vals (votes_for vs b') ≤ 2 * power_sum vals.
Proof.
  intros Hr Htm vals. apply reachable_ok in Hr as Hok. simpl in Htm. pose proof (ok_vals _ Hok) as [Hne Hvl _].
  pose proof (power_sum_pos _ (vl_power _ Hvl) Hne) as [_ Hpos]. destruct (maj23 vs) as [m|] eqn:Em; simplify_eq/=.
  - destruct (maj23_power vs b Hok Em) as [Hg Hp]. split; [done|]. intros i. by apply votes_for_signed.
  - intros b'. pose proof (ok_maj _ Hok) as Hmj. rewrite Em in Hmj. unfold votes_for.
    destruct (votesByBlock vs !! BlockID_Key b') as [bv|] eqn:Eb.
    2: { unfold vals. rewrite power_where_none. lia. }
    specialize (Hmj _ _ Eb). destruct (co_blocks _ _ _ _ (ok_core _ Hok) _ _ Eb) as [Ht _].
    rewrite (ty_sum _ _ _ _ Ht) in Hmj. destruct (Z.le_gt_cases (3 * power_where vals (has (bv_votes bv))) (2 * power_sum vals)) as [|Hgt]; [done|].
    apply quorum_of_spec in Hgt; [unfold quorum_vs in Hmj; unfold vals in *; lia|split; [unfold vals; lia|apply Hvl] ].
Qed.

(** C5: agreement.  If two vote sets of the same step, held by any two
    nodes, report majorities for different blocks, then validators with more
    than a third of the power have signed both blocks in that step. *)
Theorem majorities_agree_or_double_sign `{StdTime, Crypto} vs1 vs2 b1 b2 :
  reachable vs1 → reachable vs2 → config vs1 = config vs2 →
  TwoThirdsMajority (Some vs1) = (b1, true) → TwoThirdsMajority (Some vs2) = (b2, true) → b1 ≠ b2 →
  let vals := Validators (valSet vs1) in
  ∃ p, power_sum vals < 3 * power_where vals p ∧
    ∀ i, p i = true → ∃ v1 v2, good_vote vs1 i v1 ∧ good_vote vs1 i v2 ∧
      vote_BlockID v1 = b1 ∧ vote_BlockID v2 = b2.
Proof.
  intros Hr1 Hr2 Hc Ht1 Ht2 Hne vals. apply reachable_ok in Hr1 as Hok1. apply reachable_ok in Hr2 as Hok2.
  simpl in Ht1, Ht2. destruct (maj23 vs1) as [m1|] eqn:E1; [|done]. injection Ht1 as ->.
  destruct (maj23 vs2) as [m2|] eqn:E2; [|done]. injection Ht2 as ->.
  destruct (maj23_power vs1 b1 Hok1 E1) as [Hg1 Hp1]. destruct (maj23_power vs2 b2 Hok2 E2) as [Hg2 Hp2].
  assert (Validators (valSet vs2) = vals) as Hv by (unfold config in Hc; unfold vals; congruence).
  rewrite Hv in Hp2. exists (λ i, votes_for vs1 b1 i && votes_for vs2 b2 i). split.
  - apply quorum_intersection; [apply positive_nonneg, (ok_vals _ Hok1)|done|done].
  - intros i [Hi1 Hi2]%andb_true_iff. destruct (votes_for_signed vs1 b1 i Hok1 Hg1 Hi1) as (v1 & Hv1 & Hb1).
    destruct (votes_for_signed vs2 b2 i Hok2 Hg2 Hi2) as (v2 & Hv2 & Hb2). exists v1, v2.
    split_and!; [done|apply (good_vote_config vs2 vs1); [by symmetry|done]|done|done].
Qed.

(** [HasTwoThirdsAny] and [HasAll] compare the power of all validators
    with a vote on record, each counted once, with two thirds of the total
    and with the total. *)
Theorem HasTwoThirdsAny_exact `{StdTime, Crypto} vs :
  reachable vs →
  let vals := Validators (valSet vs) in
  let voted := power_where vals (has (votes vs)) in
  ∃ vs', HasTwoThirdsAny (Some vs) = Ret (Some vs', bool_decide (2 * power_sum vals < 3 * voted)) ∧
    HasAll (Some vs) = Ret (Some vs', bool_decide (voted = power_sum vals)) ∧ vs_ok vs' ∧ extends vs vs'.
Proof.
  intros Hr vals voted. apply reachable_ok in Hr as Hok. pose proof (ok_vals _ Hok) as [Hne Hvl _].
  pose proof (power_sum_pos _ (vl_power _ Hvl) Hne) as [_ Hpos]. pose proof (vl_total _ Hvl) as HM.
  pose proof (ty_sum _ _ _ _ (ok_tally _ Hok)) as Hs. fold vals in Hs, Hpos, HM. fold voted in Hs.
  eexists. simpl. rewrite TotalVotingPower_spec by apply Hok. simpl. fold vals. rewrite Hs.
  set (P := power_sum vals) in *. rewrite (int64_id (P * 2)) by mlia. rewrite Z.quot_div_nonneg by lia. split_and!.
  - do 2 f_equal. pose proof (Z.div_mod (P * 2) 3). pose proof (Z.mod_pos_bound (P * 2) 3). case_bool_decide; lia.
  - do 2 f_equal. case_bool_decide; lia.
  - by apply with_total_ok.
  - split; simpl; eauto.
Qed.

(** ** Concrete vote sets *)

(** Add a list of votes, whatever each outcome. *)
Definition add_all `{StdTime, Crypto} (l : list Vote) (vs : VoteSet) : outcome VoteSet :=
  for_each (λ v vs, '(vs, _, _) ← addVote vs (Some v); Ret vs) l vs.

Lemma add_all_reachable `{StdTime, Crypto} l vs vs' :
  reachable vs → Forall (addable vs) l → add_all l vs = Ret vs' → reachable vs'.
Proof.
  revert vs. induction l as [|v l IH]; intros vs Hr Hl; unfold add_all; simpl; [by intros [= <-]|].
  apply Forall_cons in Hl as [Hv Hl]. destruct (addVote_spec vs v) as (vs1 & a & e & Ha & _ & Hext & _); [by apply reachable_ok|done|].
  rewrite Ha. simpl. apply IH; [by eapply reach_add|]. eapply Forall_impl; [exact Hl|]. intros w [Hg Hb]. split; [done|].
  pose proof (ex_config _ _ Hext) as Hc. unfold config in Hc. injection Hc as -> _ _ _ _ _. done.
Qed.

(** A toy signature scheme: the signature is the key. *)
Definition toy_crypto : Crypto := {|
  key_address := KeyBytes; verify_signature := λ pk _ sig, bool_decide (sig = KeyBytes pk); sha256 := λ b, b |}.

Definition toy_validator (c : byte) : Validator :=
  mkValidator (replicate 20 c) (Some (mkPubKey "toy" (replicate 20 c))) 1 0.
Definition toy_vals : ValidatorSet :=
  mkValidatorSet [toy_validator x01; toy_validator x02; toy_validator x03] None 0 true.
Definition toy_vote (ty : Z) (i : Z) (c : byte) (b : BlockID) : Vote :=
  mkVote ty 5 0 b (mkTime 1700000000 7) (replicate 20 c) i (replicate 20 c) [] [].
Definition toy_votes (ty : Z) (b : BlockID) : list Vote :=
  [toy_vote ty 0 x01 b; toy_vote ty 1 x02 b; toy_vote ty 2 x03 b].
Definition toy_empty (ty : Z) : VoteSet :=
  mkVoteSet [x61] 5 0 ty toy_vals false (NewBitArray 3) [None; None; None] 0 None ∅ ∅.
Definition toy_full (ty : Z) (b : BlockID) : VoteSet :=
  match @add_all example_time toy_crypto (toy_votes ty b) (toy_empty ty) with Ret vs => vs | Panic _ => toy_empty ty end.

Lemma toy_vals_valid : valid_set toy_vals.
Proof.
  split; [done| |by left].
  split; [apply (bool_decide_unpack _); vm_compute; exact I|repeat constructor|by vm_compute|repeat constructor; by vm_compute].
Qed.

Lemma toy_empty_reachable ty : @reachable example_time toy_crypto (toy_empty ty).
Proof.
  apply (reach_new [x61] 5 0 ty toy_vals); [apply toy_vals_valid|repeat constructor; done|done].
Qed.

Lemma example_id_good c : good_id (example_id c).
Proof. right. split; [by vm_compute|by split; vm_compute]. Qed.

Lemma toy_full_reachable ty c :
  @add_all example_time toy_crypto (toy_votes ty (example_id c)) (toy_empty ty) = Ret (toy_full ty (example_id c)) →
  @reachable example_time toy_crypto (toy_full ty (example_id c)).
Proof.
  intros He. eapply add_all_reachable; [apply toy_empty_reachable| |exact He].
  assert (∀ i d, @addable example_time (toy_empty ty) (toy_vote ty i d (example_id c))) as Ha.
  { intros i d. split; [apply example_id_good|]. eexists. reflexivity. }
  apply Forall_cons. split; [apply Ha|]. apply Forall_cons. split; [apply Ha|]. apply Forall_cons. split; [apply Ha|done].
Qed.

Lemma toy_full_A : @reachable example_time toy_crypto (toy_full PrecommitType (example_id x0a)).
Proof. apply toy_full_reachable. vm_compute. reflexivity. Qed.
Lemma toy_full_B : @reachable example_time toy_crypto (toy_full PrecommitType (example_id x0b)).
Proof. apply toy_full_reachable. vm_compute. reflexivity. Qed.

Lemma addVote_total_and_sound_witness :
  ∃ vs' added err, @addVote example_time toy_crypto (toy_full PrecommitType (example_id x0a))
    (Some (toy_vote PrecommitType 1 x02 (example_id x0b))) = Ret (vs', added, err).
Proof.
  destruct (@addVote_total_and_sound example_time toy_crypto (toy_full PrecommitType (example_id x0a))
    (toy_vote PrecommitType 1 x02 (example_id x0b))) as (vs' & added & err & He & _).
  - apply toy_full_A.
  - split; [apply example_id_good|]. eexists. vm_compute. reflexivity.
  - exists vs', added, err. exact He.
Defined.

Lemma TwoThirdsMajority_exact_witness :
  2 * 3 < 3 * power_where (Validators toy_vals)
    (votes_for (toy_full PrecommitType (example_id x0a)) (example_id x0a)).
Proof.
  refine (proj1 (@TwoThirdsMajority_exact example_time toy_crypto (toy_full PrecommitType (example_id x0a))
    (example_id x0a) true toy_full_A _)). vm_compute. reflexivity.
Defined.

Lemma majorities_agree_or_double_sign_witness :
  ∃ p, 3 < 3 * power_where (Validators toy_vals) p.
Proof.
  destruct (@majorities_agree_or_double_sign example_time toy_crypto (toy_full PrecommitType (example_id x0a))
    (toy_full PrecommitType (example_id x0b)) (example_id x0a) (example_id x0b) toy_full_A toy_full_B) as (p & Hp & _).
  - vm_compute. reflexivity.
  - vm_compute. reflexivity.
  - vm_compute. reflexivity.
  - discriminate.
  - exists p. exact Hp.
Defined.

Lemma HasTwoThirdsAny_exact_witness :
  ∃ vs', HasTwoThirdsAny (Some (toy_full PrecommitType (example_id x0a))) = Ret (Some vs', true).
Proof.
  destruct (@HasTwoThirdsAny_exact example_time toy_crypto (toy_full PrecommitType (example_id x0a)) toy_full_A)
    as (vs' & He & _). exists vs'. exact He.
Defined.
