(* ===== verification/Validation.v ===== *)
(** * Commit verification

    Models [src/hetu-cometbft/types/validation.go]: [VerifyCommit], its light
    and trusting variants, and the two routines they share, one signature at
    a time or in a batch.  The batch verifier is a library outside the
    repository, wrapped by [crypto/ed25519] and [crypto/sr25519]; it is an
    interface here.  The error carries the position, not the printed text. *)
From S2P Require Import Prelude.
From S2P Require Import SafeMath.
From S2P Require Import Vote.
From S2P Require Import Validator.
From S2P Require Import SignBytes.
From S2P Require Import ValidatorSet.

(** [batch_add ty pk msg sig]: does the batch verifier for key type [ty]
    accept the entry; [batch_verify]: its verdict on the accepted entries. *)
Class BatchCrypto := {
  batch_add : string → PubKey → bytes → bytes → bool;
  batch_verify : list (PubKey * bytes * bytes) → bool * list bool;
}.

(** What the batch verifiers document: an entry of the right key type that is
    refused has a signature that does not verify, and a batch verifies when
    all its entries do, with a verdict for each. *)
Class BatchLaws `{Crypto, BatchCrypto} := {
  batch_add_refuses : ∀ ty pk msg sig, batch_add ty pk msg sig = false → Type_ pk = ty → verify_signature pk msg sig = false;
  batch_verify_all : ∀ l, l ≠ [] →
    batch_verify l = (forallb (λ '(pk, msg, sig), verify_signature pk msg sig) l,
                      (λ '(pk, msg, sig), verify_signature pk msg sig) <$> l);
}.

Definition batchVerifyThreshold : Z := 2.

(** [batch.SupportsBatchVerifier] *)
Definition SupportsBatchVerifier (pk : option PubKey) : bool :=
  match pk with
  | None => false
  | Some pk => bool_decide (Type_ pk = "ed25519"%string) || bool_decide (Type_ pk = "sr25519"%string)
  end.

Inductive commit_verify_error :=
| ErrNilValidatorSet
| ErrNilCommit
| ErrInvalidCommitSignatures
| ErrInvalidCommitHeight
| ErrWrongCommitBlockID
| ErrInvalidSignatureAt (idx : Z)
| ErrDoubleVote (first second : Z)
| ErrNilPubKeyAt (idx : Z)
| ErrWrongSignature (idx : Z)
| ErrNotEnoughVotingPowerSigned (got needed : Z)
| ErrBatchUnsupported
| ErrBatchAdd
| ErrBatchBug
| ErrZeroDenominator
| ErrTrustLevelOverflow.

(** [vals.GetProposer().PubKey] *)
Definition proposer_key (vals : ValidatorSet) : outcome (option PubKey) :=
  '(_, p) ← GetProposer vals;
  match p with None => Panic "nil pointer dereference" | Some p => Ret (PubKey_ p) end.

Definition shouldBatchVerify (vals : ValidatorSet) (commit : Commit) : outcome bool :=
  if batchVerifyThreshold <=? len (commit_Signatures commit) then
    pk ← proposer_key vals;
    Ret (SupportsBatchVerifier pk && allKeysHaveSameType vals)
  else Ret false.

Definition verifyBasicValsAndCommit (vals : option ValidatorSet) (commit : option Commit) (height : Z) (blockID : BlockID)
    : (ValidatorSet * Commit) + commit_verify_error :=
  match vals, commit with
  | None, _ => inr ErrNilValidatorSet
  | Some _, None => inr ErrNilCommit
  | Some vals, Some commit =>
      if negb (Size vals =? len (commit_Signatures commit)) then inr ErrInvalidCommitSignatures
      else if negb (height =? commit_Height commit) then inr ErrInvalidCommitHeight
      else if negb (BlockID_Equals blockID (commit_BlockID commit)) then inr ErrWrongCommitBlockID
      else inl (vals, commit)
  end.

(** ** The shared loops *)

Section loops.
Context `{StdTime, Crypto, BatchCrypto}.
Context (chainID : bytes) (vals : ValidatorSet) (commit : Commit) (votingPowerNeeded : Z)
        (ignoreSig countSig : CommitSig → bool) (countAllSignatures lookUpByIndex : bool).

(** The validator of a signature. *)
Inductive found :=
| Found (val : Validator) (seenVals : gmap Z Z)
| NotInSet
| SeenBefore (firstIndex : Z).

Definition find_validator (idx : Z) (commitSig : CommitSig) (seenVals : gmap Z Z) : outcome found :=
  if lookUpByIndex then val ← slice_get (Validators vals) idx; Ret (Found val seenVals)
  else
    match GetByAddress vals (cs_ValidatorAddress commitSig) with
    | (_, None) => Ret NotInSet
    | (valIdx, Some val) =>
        match seenVals !! valIdx with
        | Some firstIndex => Ret (SeenBefore firstIndex)
        | None => Ret (Found val (<[valIdx := idx]> seenVals))
        end
    end.

Fixpoint single_loop (sigs : list CommitSig) (idx : Z) (seenVals : gmap Z Z) (tallied : Z)
    : outcome (option commit_verify_error) :=
  match sigs with
  | [] => Ret (if tallied <=? votingPowerNeeded then Some (ErrNotEnoughVotingPowerSigned tallied votingPowerNeeded) else None)
  | commitSig :: sigs =>
      if ignoreSig commitSig then single_loop sigs (idx + 1) seenVals tallied
      else if bool_decide (CommitSig_ValidateBasic commitSig ≠ None) then Ret (Some (ErrInvalidSignatureAt idx))
      else
        f ← find_validator idx commitSig seenVals;
        match f with
        | NotInSet => single_loop sigs (idx + 1) seenVals tallied
        | SeenBefore firstIndex => Ret (Some (ErrDoubleVote firstIndex idx))
        | Found val seenVals =>
            match PubKey_ val with
            | None => Ret (Some (ErrNilPubKeyAt idx))
            | Some pk =>
                voteSignBytes ← Commit_VoteSignBytes commit chainID (int32 idx);
                if negb (verify_signature pk voteSignBytes (cs_Signature commitSig)) then Ret (Some (ErrWrongSignature idx))
                else
                  let tallied := if countSig commitSig then int64 (tallied + VotingPower val) else tallied in
                  if negb countAllSignatures && (votingPowerNeeded <? tallied) then Ret None
                  else single_loop sigs (idx + 1) seenVals tallied
            end
        end
  end.

Definition verifyCommitSingle : outcome (option commit_verify_error) :=
  single_loop (commit_Signatures commit) 0 ∅ 0.

(** The batch with the position of each entry, and the tally; or an error. *)
Fixpoint batch_loop (ty : string) (sigs : list CommitSig) (idx : Z) (seenVals : gmap Z Z)
    (batch : list (PubKey * bytes * bytes * Z)) (tallied : Z)
    : outcome (list (PubKey * bytes * bytes * Z) * Z + commit_verify_error) :=
  match sigs with
  | [] => Ret (inl (batch, tallied))
  | commitSig :: sigs =>
      if ignoreSig commitSig then batch_loop ty sigs (idx + 1) seenVals batch tallied
      else
        f ← find_validator idx commitSig seenVals;
        match f with
        | NotInSet => batch_loop ty sigs (idx + 1) seenVals batch tallied
        | SeenBefore firstIndex => Ret (inr (ErrDoubleVote firstIndex idx))
        | Found val seenVals =>
            voteSignBytes ← Commit_VoteSignBytes commit chainID (int32 idx);
            match PubKey_ val with
            | None => Ret (inr ErrBatchAdd)  (* the type assertion on a nil key fails *)
            | Some pk =>
                if negb (batch_add ty pk voteSignBytes (cs_Signature commitSig)) then Ret (inr ErrBatchAdd)
                else
                  let batch := batch ++ [(pk, voteSignBytes, cs_Signature commitSig, idx)] in
                  let tallied := if countSig commitSig then int64 (tallied + VotingPower val) else tallied in
                  if negb countAllSignatures && (votingPowerNeeded <? tallied) then Ret (inl (batch, tallied))
                  else batch_loop ty sigs (idx + 1) seenVals batch tallied
            end
        end
  end.

(** The first entry the batch verifier found wrong. *)
Fixpoint first_wrong (validSigs : list bool) (batchSigIdxs : list Z) : outcome commit_verify_error :=
  match validSigs, batchSigIdxs with
  | [], _ => Ret ErrBatchBug
  | true :: vs, _ :: idxs => first_wrong vs idxs
  | true :: vs, [] => first_wrong vs []
  | false :: _, idx :: _ => Ret (ErrWrongSignature idx)
  | false :: _, [] => Panic "index out of range"
  end.

Definition verifyCommitBatch : outcome (option commit_verify_error) :=
  pk ← proposer_key vals;
  match pk with
  | None => Panic "nil pointer dereference"
  | Some pk =>
      if negb (SupportsBatchVerifier (Some pk)) || (len (commit_Signatures commit) <? batchVerifyThreshold)
      then Ret (Some ErrBatchUnsupported)
      else
        r ← batch_loop (Type_ pk) (commit_Signatures commit) 0 ∅ [] 0;
        match r with
        | inr e => Ret (Some e)
        | inl (batch, tallied) =>
            if tallied <=? votingPowerNeeded then Ret (Some (ErrNotEnoughVotingPowerSigned tallied votingPowerNeeded))
            else
              let '(ok, validSigs) := batch_verify (fst <$> batch) in
              if ok : bool then Ret None else e ← first_wrong validSigs (snd <$> batch); Ret (Some e)
        end
  end.

(** Batch verification when it is possible, otherwise one by one. *)
Definition verify_with : outcome (option commit_verify_error) :=
  b ← shouldBatchVerify vals commit;
  if b : bool then verifyCommitBatch else verifyCommitSingle.
End loops.

(** ** The entry points *)

Definition is_absent (c : CommitSig) : bool := cs_BlockIDFlag c =? BlockIDFlagAbsent.
Definition is_commit (c : CommitSig) : bool := cs_BlockIDFlag c =? BlockIDFlagCommit.

Definition VerifyCommit `{StdTime, Crypto, BatchCrypto} (chainID : bytes) (vals : option ValidatorSet) (blockID : BlockID)
    (height : Z) (commit : option Commit) : outcome (option commit_verify_error) :=
  match verifyBasicValsAndCommit vals commit height blockID with
  | inr e => Ret (Some e)
  | inl (vals, commit) =>
      '(vals, total) ← TotalVotingPower vals;
      verify_with chainID vals commit (Z.quot (int64 (total * 2)) 3) is_absent is_commit true true
  end.

Definition verifyCommitLightInternal `{StdTime, Crypto, BatchCrypto} (chainID : bytes) (vals : option ValidatorSet)
    (blockID : BlockID) (height : Z) (commit : option Commit) (countAllSignatures : bool)
    : outcome (option commit_verify_error) :=
  match verifyBasicValsAndCommit vals commit height blockID with
  | inr e => Ret (Some e)
  | inl (vals, commit) =>
      '(vals, total) ← TotalVotingPower vals;
      verify_with chainID vals commit (Z.quot (int64 (total * 2)) 3)
        (λ c, negb (is_commit c)) (λ _, true) countAllSignatures true
  end.

Definition VerifyCommitLight `{StdTime, Crypto, BatchCrypto} chainID vals blockID height commit :=
  verifyCommitLightInternal chainID vals blockID height commit false.
Definition VerifyCommitLightAllSignatures `{StdTime, Crypto, BatchCrypto} chainID vals blockID height commit :=
  verifyCommitLightInternal chainID vals blockID height commit true.

(** [cmtmath.Fraction]: two [uint64]s. *)
Record Fraction := mkFraction { Numerator : Z; Denominator : Z }.

Definition verifyCommitLightTrustingInternal `{StdTime, Crypto, BatchCrypto} (chainID : bytes) (vals : option ValidatorSet)
    (commit : option Commit) (trustLevel : Fraction) (countAllSignatures : bool) : outcome (option commit_verify_error) :=
  match vals with
  | None => Ret (Some ErrNilValidatorSet)
  | Some vals =>
      if Denominator trustLevel =? 0 then Ret (Some ErrZeroDenominator)
      else match commit with
           | None => Ret (Some ErrNilCommit)
           | Some commit =>
               '(vals, total) ← TotalVotingPower vals;
               let '(product, overflow) := safeMul total (int64 (Numerator trustLevel)) in
               if overflow : bool then Ret (Some ErrTrustLevelOverflow)
               else
                 let d := int64 (Denominator trustLevel) in
                 if d =? 0 then Panic "integer divide by zero"
                 else verify_with chainID vals commit (int64 (Z.quot product d))
                        (λ c, negb (is_commit c)) (λ _, true) countAllSignatures false
           end
  end.

Definition VerifyCommitLightTrusting `{StdTime, Crypto, BatchCrypto} chainID vals commit trustLevel :=
  verifyCommitLightTrustingInternal chainID vals commit trustLevel false.
Definition VerifyCommitLightTrustingAllSignatures `{StdTime, Crypto, BatchCrypto} chainID vals commit trustLevel :=
  verifyCommitLightTrustingInternal chainID vals commit trustLevel true.
