(* ===== verification/CommitSafety.v ===== *)
(** * Commit verification: what an accepted commit proves

    Both verification loops accept a commit exactly when a run of its
    signatures, taken in order, comes from distinct validators, verifies, and
    carries enough power; the batch verifier and the one-by-one routine agree.
    Two accepted commits for different blocks of one round convict validators
    with more than a third of the power. *)
From S2P Require Import Prelude.
From S2P Require Import SafeMath.
From S2P Require Import Vote.
From S2P Require Import Validator.
From S2P Require Import SignBytes.
From S2P Require Import ValidatorSet.
From S2P Require Import ValidatorSetPriority.
From S2P Require Import ValidatorSetUpdate.
From S2P Require Import Quorum.
From S2P Require Import Validation.

(** The position of the first validator with an address. *)
Lemma find_address_pos l a i :
  find_address l a i = (λ p, (i + Z.of_nat p.1, p.2)) <$> list_find (λ v, Address v = a) l.
Proof.
  revert i. induction l as [|v l IH]; intros i; simpl; [done|].
  case_decide; simpl; [do 2 f_equal; lia|]. rewrite IH.
  destruct (list_find _ l) as [[j w]|]; simpl; [|done]. do 2 f_equal. lia.
Qed.

(** ** The entries of a commit *)

(** A signature that is checked: its index, the position of its validator. *)
Definition entry : Type := nat * nat * CommitSig.
Abbreviation e_idx e := (e.1.1).
Abbreviation e_pos e := (e.1.2).
Abbreviation e_sig e := (e.2).

(** The commit's signatures that are looked at can be validated and have sign
    bytes (the timestamp can be encoded). *)
Definition readable `{StdTime} (chainID : bytes) (commit : Commit) (ignoreSig : CommitSig → bool) : Prop :=
  ∀ (i : nat) cs, commit_Signatures commit !! i = Some cs → ignoreSig cs = false →
    CommitSig_ValidateBasic cs = None ∧ ∃ m, Commit_VoteSignBytes commit chainID (int32 (Z.of_nat i)) = Ret m.

(** The keys that are looked at are of the type of the batch verifier. *)
Definition of_type (vals : ValidatorSet) (ty : string) : Prop :=
  ∀ v pk, v ∈ Validators vals → PubKey_ v = Some pk → Type_ pk = ty.

(** ** Sets whose powers can be tallied

    What the tally of a commit needs of a validator set: the powers are not
    negative and their sum is within the limit.  Decoding a validator set and
    [ValidateBasic] ensure it; that the addresses differ or the powers are
    positive they do not. *)
Record tallied_list (l : list Validator) : Prop := {
  tl_power : Forall (λ v, 0 ≤ VotingPower v) l;
  tl_total : power_sum l ≤ MaxTotalVotingPower;
}.
Record tallied (vals : ValidatorSet) : Prop := {
  td_nonempty : Validators vals ≠ [];
  td_list : tallied_list (Validators vals);
  td_total : totalVotingPower vals = 0 ∨ totalVotingPower vals = power_sum (Validators vals);
}.

Lemma valid_tallied vals : valid_set vals → tallied vals.
Proof. intros [? [_ Hp ? _] ?]. split; [done|split; [by apply positive_nonneg|done]|done]. Qed.

Lemma tallied_sum vals : tallied vals → 0 ≤ power_sum (Validators vals) ∧ power_sum (Validators vals) ≤ MaxTotalVotingPower.
Proof.
  intros [_ [Hp Ht] _]. split; [|done]. pose proof (power_where_range (Validators vals) (λ _, true) Hp). lia.
Qed.

Lemma TotalVotingPower_tallied vals :
  tallied vals → TotalVotingPower vals = Ret (with_total vals (power_sum (Validators vals)), power_sum (Validators vals)).
Proof.
  intros [_ [Hp Ht] Hc]. unfold TotalVotingPower. destruct (Z.eqb_spec (totalVotingPower vals) 0).
  - rewrite updateTotalVotingPower_spec; [by rewrite decide_True|]. rewrite Forall_forall in *. intros v Hv.
    pose proof (Hp v Hv). pose proof (zsum_elem_le VotingPower v _ Hp Hv). mlia.
  - destruct Hc as [|Hc]; [done|]. simpl. rewrite Hc. do 2 f_equal. destruct vals; simpl in *. by subst.
Qed.

Section entries.
Context `{StdTime, Crypto}.
Context (chainID : bytes) (vals : ValidatorSet) (commit : Commit)
        (ignoreSig countSig : CommitSig → bool) (lookUpByIndex : bool).

Definition pos_of (i : nat) (cs : CommitSig) : option nat :=
  if lookUpByIndex then Some i else fst <$> list_find (λ v, Address v = cs_ValidatorAddress cs) (Validators vals).

Fixpoint entries (sigs : list CommitSig) (i : nat) : list entry :=
  match sigs with
  | [] => []
  | cs :: sigs =>
      if ignoreSig cs then entries sigs (S i)
      else match pos_of i cs with
           | None => entries sigs (S i)
           | Some j => (i, j, cs) :: entries sigs (S i)
           end
  end.

Definition signed (i : nat) (v : Validator) (cs : CommitSig) : bool :=
  match PubKey_ v, Commit_VoteSignBytes commit chainID (int32 (Z.of_nat i)) with
  | Some pk, Ret m => verify_signature pk m (cs_Signature cs)
  | _, _ => false
  end.

Definition entry_ok (e : entry) : bool :=
  match Validators vals !! e_pos e with Some v => signed (e_idx e) v (e_sig e) | None => false end.

Definition entry_power (e : entry) : Z :=
  if countSig (e_sig e) then default 0 (VotingPower <$> Validators vals !! e_pos e) else 0.

Abbreviation poss es := ((λ e : entry, e_pos e) <$> es).

(** A run of checked signatures that suffices. *)
Definition sufficient (needed : Z) (es : list entry) : Prop :=
  NoDup (poss es) ∧ Forall (λ e, entry_ok e = true) es ∧ needed < zsum entry_power es.

(** The positions whose signature counts. *)
Definition counted (es : list entry) (j : nat) : bool :=
  existsb (λ e, bool_decide (e_pos e = j) && countSig (e_sig e)) es.

Lemma counted_true es j : counted es j = true ↔ ∃ e, e ∈ es ∧ e_pos e = j ∧ countSig (e_sig e) = true.
Proof.
  unfold counted. rewrite existsb_exists. split.
  - intros (e & He & Hb). apply andb_true_iff in Hb as [Hj%bool_decide_eq_true Hc]. exists e. by rewrite list_elem_of_In.
  - intros (e & He & Hj & Hc). exists e. rewrite list_elem_of_In in He. split; [done|]. by rewrite bool_decide_eq_true_2.
Qed.

Lemma entry_power_counted es :
  NoDup (poss es) → (∀ e, e ∈ es → is_Some (Validators vals !! e_pos e)) →
  zsum entry_power es = power_where (Validators vals) (counted es).
Proof.
  induction es as [|e es IH]; intros Hnd Hin; [by rewrite power_where_none|].
  rewrite fmap_cons in *. apply NoDup_cons in Hnd as [He Hnd]. rewrite zsum_cons, IH; [|done|intros; apply Hin; by right].
  destruct (Hin e ltac:(by left)) as [v Hv]. unfold entry_power at 1. rewrite Hv.
  destruct (countSig (e_sig e)) eqn:Hc.
  - rewrite (power_where_add _ (counted es) (counted (e :: es)) (e_pos e) v Hv); [simpl; lia| |].
    + apply not_true_iff_false. rewrite counted_true. intros (e' & He' & Hp & _). destruct He. rewrite <-Hp.
      by apply (list_elem_of_fmap_2 (λ e : entry, e_pos e)).
    + intros j _. simpl. rewrite Hc, andb_true_r. f_equal. apply bool_decide_ext. done.
  - apply power_where_ext. intros j _. simpl. by rewrite Hc, andb_false_r.
Qed.

Lemma entry_power_bound es :
  Forall (λ v, 0 ≤ VotingPower v) (Validators vals) → NoDup (poss es) → (∀ e, e ∈ es → is_Some (Validators vals !! e_pos e)) →
  0 ≤ zsum entry_power es ≤ power_sum (Validators vals).
Proof. intros Hl Hnd Hin. rewrite entry_power_counted by done. by apply power_where_range. Qed.

(** Runs of entries are the entries of runs of signatures. *)
Lemma entries_prefix sigs i es : es `prefix_of` entries sigs i → ∃ n, es = entries (take n sigs) i ∧ (n ≤ length sigs)%nat.
Proof.
  revert i es. induction sigs as [|cs sigs IH]; intros i es Hpre; simpl in *.
  { apply prefix_nil_inv in Hpre as ->. by exists 0%nat. }
  destruct (decide (es = [])) as [->|Hne]; [exists 0%nat; split; [done|lia]|].
  assert (∀ es', es' `prefix_of` entries sigs (S i) → ∃ n, es' = entries (take n sigs) (S i) ∧ (n ≤ length sigs)%nat) as IH'
    by (intros; by apply IH).
  destruct (ignoreSig cs) eqn:Hig.
  { destruct (IH' _ Hpre) as (n & -> & Hn). exists (S n). simpl. rewrite Hig. split; [done|lia]. }
  destruct (pos_of i cs) as [j|] eqn:Hp.
  2: { destruct (IH' _ Hpre) as (n & -> & Hn). exists (S n). simpl. rewrite Hig, Hp. split; [done|lia]. }
  destruct es as [|e es]; [done|]. pose proof (prefix_cons_inv_1 _ _ _ _ Hpre) as ->. apply prefix_cons_inv_2 in Hpre.
  destruct (IH' _ Hpre) as (n & -> & Hn). exists (S n). simpl. rewrite Hig, Hp. split; [done|lia].
Qed.

Lemma entries_take sigs i n : entries (take n sigs) i `prefix_of` entries sigs i.
Proof.
  revert i n. induction sigs as [|cs sigs IH]; intros i [|n]; simpl; try apply prefix_nil.
  destruct (ignoreSig cs); [apply IH|]. destruct (pos_of i cs); [apply prefix_cons, IH|apply IH].
Qed.

Lemma elem_of_entries sigs i e :
  e ∈ entries sigs i ↔ ∃ k, e_idx e = (i + k)%nat ∧ sigs !! k = Some (e_sig e) ∧ ignoreSig (e_sig e) = false ∧
    pos_of (e_idx e) (e_sig e) = Some (e_pos e).
Proof.
  revert i. induction sigs as [|cs sigs IH]; intros i; simpl.
  { split; [by intros ?%not_elem_of_nil|]. intros (k & _ & ? & _). done. }
  assert (e ∈ entries sigs (S i) → ∃ k, e_idx e = (i + k)%nat ∧ (cs :: sigs) !! k = Some (e_sig e) ∧
    ignoreSig (e_sig e) = false ∧ pos_of (e_idx e) (e_sig e) = Some (e_pos e)) as Hfwd.
  { intros (k & Hk & ? & ? & ?)%IH. exists (S k). split_and!; [lia|done|done|done]. }
  assert ((∃ k, e_idx e = (i + k)%nat ∧ (cs :: sigs) !! k = Some (e_sig e) ∧ ignoreSig (e_sig e) = false ∧
    pos_of (e_idx e) (e_sig e) = Some (e_pos e)) →
    (e_idx e = i ∧ cs = e_sig e ∧ ignoreSig cs = false ∧ pos_of i cs = Some (e_pos e)) ∨ e ∈ entries sigs (S i)) as Hbwd.
  { intros ([|k] & Hk & Hs & Hig & Hp); simpl in Hs.
    - left. injection Hs as ->. rewrite Hk, Nat.add_0_r in *. split_and!; done.
    - right. apply IH. exists k. split_and!; [lia|done|done|done]. }
  destruct (ignoreSig cs) eqn:Hig; [split; [done|]; intros [(_ & _ & ? & _)|?]%Hbwd; done|].
  destruct (pos_of i cs) as [j|] eqn:Hp; [|split; [done|]; intros [(_ & _ & _ & ?)|?]%Hbwd; done].
  rewrite elem_of_cons. split.
  - intros [->|?]; [|by apply Hfwd]. exists 0%nat. simpl. split_and!; [lia|done|done|done].
  - intros [(Hi & -> & _ & Hj)|?]%Hbwd; [|by right]. left. destruct e as [[? ?] ?]. simpl in *. congruence.
Qed.
End entries.

(** ** The one-by-one routine *)

Section single.
Context `{StdTime, Crypto, BatchCrypto}.
Context (chainID : bytes) (vals : ValidatorSet) (commit : Commit) (needed : Z)
        (ignoreSig countSig : CommitSig → bool) (countAll lookUpByIndex : bool).
Context (Hread : readable chainID commit ignoreSig)
        (Hvals : tallied_list (Validators vals))
        (Hlen : len (Validators vals) ≤ MaxInt32)
        (Hidx : lookUpByIndex = true → (length (commit_Signatures commit) ≤ length (Validators vals))%nat)
        (Hneeded : 0 ≤ needed).

Abbreviation pos_of' := (pos_of vals lookUpByIndex).
Abbreviation entries' := (entries vals ignoreSig lookUpByIndex).
Abbreviation entry_ok' := (entry_ok chainID vals commit).
Abbreviation power' := (entry_power vals countSig).
Abbreviation poss es := ((λ e : entry, e_pos e) <$> es).

(** What the loop knows after the entries [es] and [n] signatures. *)
Record seen_ok (es : list entry) (seen : gmap Z Z) (n : nat) : Prop := {
  so_nodup : NoDup (poss es);
  so_in : ∀ e, e ∈ es → is_Some (Validators vals !! e_pos e);
  so_index : lookUpByIndex = true → ∀ e, e ∈ es → (e_pos e < n)%nat;
  so_seen : lookUpByIndex = false → ∀ j : nat, is_Some (seen !! Z.of_nat j) ↔ j ∈ poss es;
}.

Lemma seen_ok_next es seen n : seen_ok es seen n → seen_ok es seen (S n).
Proof. intros [? ? Hi ?]. split; [done|done| |done]. intros Hl e He. specialize (Hi Hl e He). lia. Qed.

(** The lookup of the validator, against [pos_of]. *)
Lemma find_validator_spec es seen n cs :
  seen_ok es seen n → commit_Signatures commit !! n = Some cs →
  match pos_of' n cs with
  | None => find_validator vals lookUpByIndex (Z.of_nat n) cs seen = Ret NotInSet
  | Some j => ∃ v, Validators vals !! j = Some v ∧
      ((j ∈ poss es ∧ ∃ f, find_validator vals lookUpByIndex (Z.of_nat n) cs seen = Ret (SeenBefore f)) ∨
       ((j ∉ poss es) ∧ ∃ seen', find_validator vals lookUpByIndex (Z.of_nat n) cs seen = Ret (Found v seen') ∧
          ∀ e, e_pos e = j → seen_ok (es ++ [e]) seen' (S n)))
  end.
Proof.
  intros Hs Hcs. unfold pos_of, find_validator, GetByAddress. pose proof (lookup_lt_Some _ _ _ Hcs) as Hn.
  destruct lookUpByIndex eqn:El.
  - destruct (lookup_lt_is_Some_2 (Validators vals) n) as [v Hv]; [specialize (Hidx eq_refl); lia|].
    exists v. split; [done|]. right. assert (n ∉ poss es) as Hnew.
    { intros (e & -> & He)%list_elem_of_fmap. pose proof (so_index _ _ _ Hs El e He). lia. }
    split; [done|]. exists seen. split.
    { assert (slice_get (Validators vals) (Z.of_nat n) = Ret v) as ->; [|done].
      apply slice_get_ret. rewrite Nat2Z.id. split; [lia|done]. }
    intros e He. split.
    + rewrite fmap_app. apply NoDup_app. split_and!; [apply Hs| |apply NoDup_singleton].
      intros j Hj ->%list_elem_of_singleton. by rewrite He in Hj.
    + intros e' [He'| ->%list_elem_of_singleton]%elem_of_app; [by apply (so_in _ _ _ Hs)|by rewrite He, Hv].
    + intros _ e' [He'| ->%list_elem_of_singleton]%elem_of_app; [pose proof (so_index _ _ _ Hs El e' He'); lia|lia].
    + congruence.
  - rewrite find_address_pos. destruct (list_find _ (Validators vals)) as [[j v]|] eqn:Hf; [|done].
    apply list_find_Some in Hf as (Hv & Hav & _). simpl. exists v. split; [done|].
    pose proof (lookup_lt_Some _ _ _ Hv) as Hj. rewrite int32_id, Z.add_0_l by (unfold len in Hlen; ulia).
    pose proof (so_seen _ _ _ Hs El j) as Hsj. destruct (seen !! Z.of_nat j) as [f|] eqn:Hseen.
    + left. split; [by apply Hsj|]. by exists f.
    + right. assert (j ∉ poss es) as Hnew by (intros Hc; apply Hsj in Hc as [? ?]; done).
      split; [done|]. eexists. split; [done|]. intros e He. split.
      * rewrite fmap_app. apply NoDup_app. split_and!; [apply Hs| |apply NoDup_singleton].
        intros k Hk ->%list_elem_of_singleton. by rewrite He in Hk.
      * intros e' [He'| ->%list_elem_of_singleton]%elem_of_app; [by apply (so_in _ _ _ Hs)|by rewrite He, Hv].
      * congruence.
      * intros _ k. rewrite fmap_app, elem_of_app. simpl. rewrite list_elem_of_singleton, He, <-(so_seen _ _ _ Hs El k).
        destruct (decide (k = j)) as [->|Hne]; [rewrite lookup_insert_eq; split; [by right|done]|].
        rewrite lookup_insert_ne by lia. split; [by left|by intros [?| ->]].
Qed.

Lemma entry_power_found j v n cs :
  Validators vals !! j = Some v → power' (n, j, cs) = if countSig cs then VotingPower v else 0.
Proof. intros Hv. unfold entry_power. simpl. by rewrite Hv. Qed.

(** The tally does not wrap. *)
Lemma tally_exact es seen n (e : entry) v :
  seen_ok (es ++ [e]) seen n → Validators vals !! e_pos e = Some v →
  (if countSig (e_sig e) then int64 (zsum power' es + VotingPower v) else zsum power' es) = zsum power' (es ++ [e]).
Proof.
  intros Hs Hv. pose proof (entry_power_bound vals countSig _ (tl_power _ Hvals) (so_nodup _ _ _ Hs) (so_in _ _ _ Hs)) as Hb.
  pose proof (tl_total _ Hvals) as Ht. destruct e as [[i j] cs]. simpl in Hv.
  rewrite zsum_app, zsum_cons, zsum_nil, (entry_power_found j v) in * by done. simpl.
  destruct (countSig cs); [rewrite int64_id by mlia|]; lia.
Qed.

(** A run that suffices, after [es]. *)
Definition completes (es rest : list entry) : Prop :=
  ∃ es1, es1 `prefix_of` rest ∧ (countAll = true → es1 = rest) ∧ NoDup (poss (es ++ es1)) ∧
    Forall (λ e, entry_ok' e = true) es1 ∧ needed < zsum power' (es ++ es1).

Lemma completes_cons es e rest :
  (countAll = false → zsum power' es ≤ needed) →
  completes es (e :: rest) → (e_pos e ∉ poss es) ∧ entry_ok' e = true ∧
    (completes (es ++ [e]) rest ∨ (countAll = false ∧ needed < zsum power' (es ++ [e]))).
Proof.
  intros Hc ([|e' es1] & Hpre & Hall & Hnd & Hok & Hgt).
  { rewrite app_nil_r in Hgt. destruct countAll; [by specialize (Hall eq_refl)|]. specialize (Hc eq_refl). lia. }
  apply prefix_cons_inv_1 in Hpre as Heq. subst e'. apply prefix_cons_inv_2 in Hpre. apply Forall_cons in Hok as [He Hok].
  split_and!; [|done|].
  - rewrite fmap_app, fmap_cons in Hnd. apply NoDup_app in Hnd as (_ & Hd & _). intros Hin. apply (Hd _ Hin). by left.
  - left. exists es1. rewrite <-(assoc (++)). split_and!; [done| |done|done|done].
    intros Ht. specialize (Hall Ht). congruence.
Qed.

Lemma completes_cons_inv es e rest :
  entry_ok' e = true → completes (es ++ [e]) rest → completes es (e :: rest).
Proof.
  intros He (es1 & Hpre & Hall & Hnd & Hok & Hgt). exists (e :: es1). rewrite <-(assoc (++)) in *.
  split_and!; [by apply prefix_cons| |done|by apply Forall_cons|done]. intros Ht. by rewrite (Hall Ht).
Qed.

Lemma single_loop_exact sigs pre seen es :
  commit_Signatures commit = pre ++ sigs → seen_ok es seen (length pre) →
  (countAll = false → zsum power' es ≤ needed) →
  ∃ r, single_loop chainID vals commit needed ignoreSig countSig countAll lookUpByIndex sigs (len pre) seen
         (zsum power' es) = Ret r ∧
    (r = None ↔ completes es (entries' sigs (length pre))).
Proof.
  revert pre seen es. induction sigs as [|cs sigs IH]; intros pre seen es Hsigs Hs Hc; simpl.
  { eexists. split; [done|]. rewrite Z.leb_compare. unfold completes. setoid_rewrite <-Z.leb_compare.
    destruct (Z.leb_spec (zsum power' es) needed) as [Hle|Hgt].
    - split; [done|]. intros (es1 & ->%prefix_nil_inv & _ & _ & _ & Hgt). rewrite app_nil_r in Hgt. lia.
    - split; [intros _|done]. exists []. rewrite app_nil_r. split_and!; [done|done|apply Hs|done|done]. }
  assert (commit_Signatures commit !! length pre = Some cs) as Hcs by (rewrite Hsigs; by apply list_lookup_middle).
  assert (commit_Signatures commit = (pre ++ [cs]) ++ sigs) as Hsigs' by (by rewrite <-(assoc (++))).
  assert (len (pre ++ [cs]) = len pre + 1) as Hl1 by (by rewrite len_app).
  assert (length (pre ++ [cs]) = S (length pre)) as Hl2 by (rewrite length_app; simpl; lia).
  specialize (IH (pre ++ [cs])). rewrite Hl1, Hl2 in IH.
  destruct (ignoreSig cs) eqn:Hig; [apply IH; [done|by apply seen_ok_next|done]|].
  destruct (Hread _ _ Hcs Hig) as (Hvb & m & Hm).
  rewrite bool_decide_eq_false_2 by (intros Hx; by apply Hx).
  pose proof (find_validator_spec es seen (length pre) cs Hs Hcs) as Hf. fold (len pre) in Hf.
  destruct (pos_of' (length pre) cs) as [j|].
  2: { rewrite Hf. simpl. apply IH; [done|by apply seen_ok_next|done]. }
  destruct Hf as (v & Hv & [[Hin (f & ->)]|[Hnew (seen' & -> & Hs')]]); simpl.
  { eexists. split; [done|]. split; [done|]. intros Hco. apply completes_cons in Hco as [Hni _]; [done|done]. }
  specialize (Hs' (length pre, j, cs) eq_refl).
  assert (entry_ok' (length pre, j, cs) = match PubKey_ v with Some pk => verify_signature pk m (cs_Signature cs) | None => false end) as Hok.
  { unfold entry_ok, signed. simpl. by rewrite Hv, Hm. }
  destruct (PubKey_ v) as [pk|].
  2: { eexists. split; [done|]. split; [done|]. intros Hco. apply completes_cons in Hco as (_ & He & _); [congruence|done]. }
  unfold len in Hm |- *. rewrite Hm. simpl. destruct (verify_signature pk m (cs_Signature cs)); simpl.
  2: { eexists. split; [done|]. split; [done|]. intros Hco. apply completes_cons in Hco as (_ & He & _); [congruence|done]. }
  pose proof (tally_exact es seen' (S (length pre)) (length pre, j, cs) v Hs' Hv) as Ht. simpl in Ht. rewrite Ht.
  match goal with |- context [if ?b then Ret None else _] => destruct b eqn:Hex end.
  - apply andb_true_iff in Hex as [Hca%negb_true_iff Hgt%Z.ltb_lt]. eexists. split; [done|]. split; [intros _|done].
    exists [(length pre, j, cs)]. split_and!; [apply prefix_cons, prefix_nil|congruence|apply Hs'|by repeat constructor|done].
  - assert (countAll = false → zsum power' (es ++ [(length pre, j, cs)]) ≤ needed) as Hc'.
    { intros Hca. rewrite Hca in Hex. simpl in Hex. by apply Z.ltb_ge. }
    destruct (IH seen' (es ++ [(length pre, j, cs)])) as (r & Hr & Hiff); [done|done|done|].
    exists r. split; [exact Hr|]. rewrite Hiff. split; [by apply completes_cons_inv|].
    intros Hco. apply completes_cons in Hco as (_ & _ & [?|[Hca Hgt]]); [done| |done].
    destruct (Z.lt_irrefl _ (Z.lt_le_trans _ _ _ Hgt (Hc' Hca))).
Qed.

(** What it takes for a commit to be accepted. *)
Definition accepts : Prop :=
  ∃ es, es `prefix_of` entries' (commit_Signatures commit) 0 ∧
    (countAll = true → es = entries' (commit_Signatures commit) 0) ∧
    sufficient chainID vals commit countSig needed es.

Lemma verifyCommitSingle_exact :
  ∃ r, verifyCommitSingle chainID vals commit needed ignoreSig countSig countAll lookUpByIndex = Ret r ∧
    (r = None ↔ accepts).
Proof.
  destruct (single_loop_exact (commit_Signatures commit) [] ∅ []) as (r & Hr & Hiff); [done| |by rewrite zsum_nil|].
  { split; [constructor|by intros ? ?%not_elem_of_nil|by intros _ ? ?%not_elem_of_nil|].
    intros _ j. rewrite lookup_empty. split; [by intros [? ?]|by intros ?%not_elem_of_nil]. }
  exists r. split; [exact Hr|]. exact Hiff.
Qed.
End single.

(** ** The batch routine *)

Section batch.
Context `{StdTime, BatchLaws}.
Context (chainID : bytes) (vals : ValidatorSet) (commit : Commit) (needed : Z)
        (ignoreSig countSig : CommitSig → bool) (countAll lookUpByIndex : bool).
Context (Hread : readable chainID commit ignoreSig)
        (Hidx : lookUpByIndex = true → (length (commit_Signatures commit) ≤ length (Validators vals))%nat)
        (Hneeded : 0 ≤ needed).

Lemma find_validator_total n cs seen :
  commit_Signatures commit !! n = Some cs →
  ∃ f, find_validator vals lookUpByIndex (Z.of_nat n) cs seen = Ret f ∧
    (∀ v s, f = Found v s → v ∈ Validators vals).
Proof.
  intros Hcs. pose proof (lookup_lt_Some _ _ _ Hcs) as Hn. unfold find_validator. destruct lookUpByIndex.
  - specialize (Hidx eq_refl).
    destruct (slice_get_in_range (Validators vals) (Z.of_nat n)) as (v & -> & Hv); [unfold len; lia|].
    simpl. eexists. split; [done|]. intros ? ? [= <- _]. by eapply list_elem_of_lookup_2.
  - pose proof (GetByAddress_spec vals (cs_ValidatorAddress cs)) as Hg.
    destruct (GetByAddress vals _) as [i [v|]]; simpl in *; [|eexists; split; done].
    destruct (seen !! i); eexists; (split; [done|]); intros; simplify_eq; tauto.
Qed.

Definition triple_ok (t : PubKey * bytes * bytes) : bool := let '(pk, msg, sig) := t in verify_signature pk msg sig.

Lemma loops_agree ty sigs pre seen batch tallied :
  of_type vals ty → commit_Signatures commit = pre ++ sigs →
  ∃ r s, batch_loop chainID vals commit needed ignoreSig countSig countAll lookUpByIndex ty sigs (len pre) seen batch tallied = Ret r ∧
    single_loop chainID vals commit needed ignoreSig countSig countAll lookUpByIndex sigs (len pre) seen tallied = Ret s ∧
    match r with
    | inr _ => s ≠ None
    | inl (batch', t) => ∃ new, batch' = batch ++ new ∧ (new = [] → t = tallied) ∧
        (s = None ↔ needed < t ∧ Forall (λ e, triple_ok e.1 = true) new)
    end.
Proof.
  intros Hty. revert pre seen batch tallied. induction sigs as [|cs sigs IH]; intros pre seen batch tallied Hsigs; simpl.
  { eexists _, _. split_and!; [done|done|]. exists []. rewrite app_nil_r. split_and!; [done|done|].
    destruct (Z.leb_spec tallied needed); split; try done; lia. }
  assert (commit_Signatures commit !! length pre = Some cs) as Hcs by (rewrite Hsigs; by apply list_lookup_middle).
  specialize (IH (pre ++ [cs])). rewrite len_app in IH. change (len [cs]) with 1 in IH.
  assert (commit_Signatures commit = (pre ++ [cs]) ++ sigs) as Hsigs' by (by rewrite <-(assoc (++))).
  pose proof (λ se b t, IH se b t Hsigs') as IH'. clear IH. rename IH' into IH.
  destruct (ignoreSig cs) eqn:Hig; [apply IH|].
  destruct (Hread _ _ Hcs Hig) as (Hvb & m & Hm). fold (len pre) in Hm.
  rewrite bool_decide_eq_false_2 by (intros Hx; by apply Hx).
  destruct (find_validator_total (length pre) cs seen Hcs) as (f & Hf & Hin). fold (len pre) in Hf. rewrite Hf. simpl.
  destruct f as [v seen'| |fi]; [|apply IH|by eexists _, _]. specialize (Hin v seen' eq_refl).
  rewrite Hm. simpl. destruct (PubKey_ v) as [pk|] eqn:Hpk; [|by eexists _, _].
  destruct (batch_add ty pk m (cs_Signature cs)) eqn:Hadd; simpl.
  2: { rewrite (batch_add_refuses _ _ _ _ Hadd (Hty v pk Hin Hpk)). simpl. by eexists _, _. }
  set (t' := if countSig cs then int64 (tallied + VotingPower v) else tallied).
  set (e := (pk, m, cs_Signature cs, len pre)).
  destruct (negb countAll && (needed <? t')) eqn:Hex.
  - apply andb_true_iff in Hex as [_ Hgt%Z.ltb_lt].
    destruct (verify_signature pk m (cs_Signature cs)) eqn:Hv; simpl; (eexists _, _; split_and!; [done|done|]);
      exists [e]; (split_and!; [done|done|]); rewrite Forall_singleton; simpl; rewrite Hv; split; try done; by intros [_ ?].
  - destruct (IH seen' (batch ++ [e]) t') as (r & s & Hr & Hs & Hrs).
    destruct (verify_signature pk m (cs_Signature cs)) eqn:Hv; simpl; rewrite Hr.
    + exists r, s. split_and!; [done|done|]. destruct r as [[b' t]|]; [|done].
      destruct Hrs as (new & -> & Hn & Hiff). exists (e :: new). rewrite <-(assoc (++)). split_and!; [done|done|].
      rewrite Hiff, Forall_cons. simpl. rewrite Hv. tauto.
    + eexists r, _. split_and!; [done|done|]. destruct r as [[b' t]|]; [|done].
      destruct Hrs as (new & -> & Hn & Hiff). exists (e :: new). rewrite <-(assoc (++)). split_and!; [done|done|].
      rewrite Forall_cons. simpl. rewrite Hv. split; [done|]. by intros (_ & ? & _).
Qed.

Lemma first_wrong_total l :
  ∃ e, first_wrong ((λ t : PubKey * bytes * bytes * Z, triple_ok t.1) <$> l) (snd <$> l) = Ret e.
Proof. induction l as [|t l [e He]]; simpl; [eauto|]. destruct (triple_ok t.1); eauto. Qed.

Lemma verifyCommitBatch_agrees pk :
  proposer_key vals = Ret (Some pk) → SupportsBatchVerifier (Some pk) = true → of_type vals (Type_ pk) →
  batchVerifyThreshold ≤ len (commit_Signatures commit) →
  ∃ r s, verifyCommitBatch chainID vals commit needed ignoreSig countSig countAll lookUpByIndex = Ret r ∧
    verifyCommitSingle chainID vals commit needed ignoreSig countSig countAll lookUpByIndex = Ret s ∧
    (r = None ↔ s = None).
Proof.
  intros Hp Hsup Hty Hge. unfold verifyCommitBatch, verifyCommitSingle. rewrite Hp. cbn [mbind outcome_bind]. rewrite Hsup.
  destruct (Z.ltb_spec (len (commit_Signatures commit)) batchVerifyThreshold); [lia|]. cbn [negb orb].
  destruct (loops_agree (Type_ pk) (commit_Signatures commit) [] ∅ [] 0 Hty eq_refl) as (r & s & Hr & Hs & Hrs).
  change (len []) with 0 in *. rewrite Hr, Hs. simpl. destruct r as [[batch t]|e].
  2: { exists (Some e), s. split_and!; [done|done|]. split; [done|]. by intros ->. }
  destruct Hrs as (new & -> & Hn & Hiff). simpl. destruct (Z.leb_spec t needed) as [Hle|Hgt].
  { eexists _, s. split_and!; [done|done|]. split; [done|]. intros [? _]%Hiff. lia. }
  rewrite batch_verify_all.
  2: { intros Hnil. apply fmap_nil_inv in Hnil. specialize (Hn Hnil). lia. }
  change (λ '(pk, msg, sig), verify_signature pk msg sig) with triple_ok.
  destruct (forallb triple_ok (fst <$> new)) eqn:Hall.
  - exists None, s. split_and!; [done|done|]. split; [intros _|done]. apply Hiff. split; [done|].
    rewrite forallb_forall in Hall. apply Forall_forall. intros x Hx. apply Hall, list_elem_of_In. by apply list_elem_of_fmap_2.
  - rewrite <-list_fmap_compose. destruct (first_wrong_total new) as [e He].
    change (triple_ok ∘ fst) with (λ t : PubKey * bytes * bytes * Z, triple_ok t.1). rewrite He. simpl.
    eexists _, s. split_and!; [done|done|]. split; [done|]. intros [_ Hf]%Hiff. rewrite <-not_true_iff_false in Hall.
    destruct Hall. apply forallb_forall. intros x (y & -> & Hy)%list_elem_of_In%list_elem_of_fmap.
    rewrite Forall_forall in Hf. by apply Hf.
Qed.
End batch.

(** ** The proposer's key *)


Lemma findProposer_spec vals :
  Validators vals ≠ [] → ∃ p, findProposer vals = Ret (Some p) ∧ p ∈ Validators vals.
Proof.
  intros Hne. unfold findProposer.
  match goal with |- context [for_each ?f _ _] => set (body := f) end.
  destruct (for_each_ind body (λ l1 r, match r with None => l1 = [] | Some p => p ∈ Validators vals end)
    (Validators vals) None) as (r & -> & Hr); [done| |].
  - intros l1 v l2 r Hl Hr. assert (v ∈ Validators vals) as Hv by (rewrite Hl; set_solver).
    unfold body. destruct r as [p|]; simpl; [|eauto]. case_bool_decide as Ha; simpl; [eauto|].
    destruct (priority_left_beats p v) as [[-> _]|[-> _]]; [congruence| |]; simpl; eauto.
  - destruct r as [p|]; [eauto|done].
Qed.

(** The keys of a validator set: the cached proposer is one of the set, and
    the cached flag tells the truth. *)
Record keys_ok (vals : ValidatorSet) : Prop := {
  ko_proposer : ∀ p, Proposer vals = Some p → ∃ v, v ∈ Validators vals ∧ PubKey_ v = PubKey_ p;
  ko_flag : allKeysHaveSameType vals = true → ∃ ty, of_type vals ty;
}.

Lemma proposer_key_spec vals :
  keys_ok vals → Validators vals ≠ [] → ∃ v, v ∈ Validators vals ∧ proposer_key vals = Ret (PubKey_ v).
Proof.
  intros Hk Hne. unfold proposer_key, GetProposer.
  destruct (Z.eqb_spec (len (Validators vals)) 0) as [He%len_zero|_]; [done|].
  destruct (Proposer vals) as [p|] eqn:Hp; simpl.
  - rewrite Hp. destruct (ko_proposer _ Hk p Hp) as (v & Hv & Hkey). exists v. split; [done|]. simpl. by rewrite Hkey.
  - destruct (findProposer_spec vals Hne) as (p & -> & Hin). simpl. eauto.
Qed.

(** ** Either routine *)

Section either.
Context `{StdTime, BatchLaws}.
Context (chainID : bytes) (vals : ValidatorSet) (commit : Commit) (needed : Z)
        (ignoreSig countSig : CommitSig → bool) (countAll lookUpByIndex : bool).
Context (Hread : readable chainID commit ignoreSig)
        (Hvals : tallied_list (Validators vals)) (Hne : Validators vals ≠ []) (Hkeys : keys_ok vals)
        (Hlen : len (Validators vals) ≤ MaxInt32)
        (Hidx : lookUpByIndex = true → (length (commit_Signatures commit) ≤ length (Validators vals))%nat)
        (Hneeded : 0 ≤ needed).

Lemma verify_with_exact :
  ∃ r, verify_with chainID vals commit needed ignoreSig countSig countAll lookUpByIndex = Ret r ∧
    (r = None ↔ accepts chainID vals commit needed ignoreSig countSig countAll lookUpByIndex).
Proof.
  destruct (verifyCommitSingle_exact chainID vals commit needed ignoreSig countSig countAll lookUpByIndex)
    as (s & Hs & Hiff); [done..|]. unfold verify_with, shouldBatchVerify.
  destruct (Z.leb_spec batchVerifyThreshold (len (commit_Signatures commit))) as [Hge|]; [|simpl; eauto].
  destruct (proposer_key_spec vals Hkeys Hne) as (v & Hv & Hpk). rewrite Hpk. cbn [mbind outcome_bind].
  destruct (SupportsBatchVerifier (PubKey_ v)) eqn:Hsup; [|simpl; eauto].
  destruct (allKeysHaveSameType vals) eqn:Hflag; [|simpl; eauto]. cbn [andb].
  destruct (PubKey_ v) as [pk|] eqn:Hvk; [|done].
  destruct (ko_flag _ Hkeys Hflag) as (ty & Hty). pose proof (Hty v pk Hv Hvk) as Hpty.
  destruct (verifyCommitBatch_agrees chainID vals commit needed ignoreSig countSig countAll lookUpByIndex Hread Hidx Hneeded pk)
    as (r & s' & Hr & Hs' & Hrs); [done|done|by rewrite Hpty|done|].
  exists r. split; [done|]. rewrite Hrs. rewrite Hs in Hs'. injection Hs' as <-. done.
Qed.
End either.

(** ** Commits of the set itself: signature [i] is validator [i]'s *)

Section by_index.
Context `{StdTime, Crypto}.
Context (chainID : bytes) (vals : ValidatorSet) (commit : Commit) (needed : Z)
        (ignoreSig countSig : CommitSig → bool) (countAll : bool).
Context (Hlen : length (commit_Signatures commit) = length (Validators vals)).

Lemma entries_index_nodup sigs i : NoDup ((λ e : entry, e_pos e) <$> entries vals ignoreSig true sigs i).
Proof.
  revert i. induction sigs as [|cs sigs IH]; intros i; simpl; [constructor|].
  destruct (ignoreSig cs); [done|]. rewrite fmap_cons. apply NoDup_cons. split; [|done].
  intros (e & Hi & (k & Hk & _ & _ & Hp)%elem_of_entries)%list_elem_of_fmap. simpl in *. injection Hp as Hp. lia.
Qed.

(** The validators among the first [n] whose signature counts. *)
Definition counts (n : nat) (j : nat) : bool :=
  bool_decide (j < n)%nat &&
  match commit_Signatures commit !! j with Some cs => negb (ignoreSig cs) && countSig cs | None => false end.

(** The first [n] signatures that are looked at verify. *)
Definition all_signed (n : nat) : Prop :=
  ∀ i cs v, (i < n)%nat → commit_Signatures commit !! i = Some cs → ignoreSig cs = false →
    Validators vals !! i = Some v → signed chainID commit i v cs = true.

Lemma sufficient_index n :
  sufficient chainID vals commit countSig needed (entries vals ignoreSig true (take n (commit_Signatures commit)) 0) ↔
  all_signed n ∧ needed < power_where (Validators vals) (counts n).
Proof.
  set (es := entries _ _ _ _ _).
  assert (∀ e, e ∈ es ↔ e_pos e = e_idx e ∧ (e_idx e < n)%nat ∧ commit_Signatures commit !! e_idx e = Some (e_sig e) ∧
    ignoreSig (e_sig e) = false) as Hes.
  { intros e. unfold es. rewrite elem_of_entries. simpl. split.
    - intros (k & -> & Hk & Hig & [= <-]). apply lookup_take_Some in Hk. tauto.
    - intros (Hp & Hn & Hs & Hig). exists (e_idx e). rewrite lookup_take_lt by done. split_and!; [done|done|done|by rewrite Hp]. }
  assert (∀ e, e ∈ es → is_Some (Validators vals !! e_pos e)) as Hin.
  { intros e (-> & _ & Hs & _)%Hes. apply lookup_lt_is_Some. rewrite <-Hlen. by eapply lookup_lt_Some. }
  pose proof (entries_index_nodup (take n (commit_Signatures commit)) 0) as Hnd. fold es in Hnd.
  unfold sufficient. rewrite entry_power_counted by done.
  rewrite (power_where_ext _ (counted countSig es) (counts n)).
  - rewrite Forall_forall. split.
    + intros (_ & Hok & Hgt). split; [|done]. intros i cs v Hi Hs Hig Hv.
      specialize (Hok (i, i, cs) ltac:(by apply Hes)). unfold entry_ok in Hok. simpl in Hok. by rewrite Hv in Hok.
    + intros [Hall Hgt]. split_and!; [done| |done]. intros e He. destruct (Hin e He) as [v Hv].
      unfold entry_ok. rewrite Hv. apply Hes in He as (Hp & Hn & Hs & Hig). rewrite Hp in Hv. by apply Hall.
  - intros j _. apply eq_true_iff_eq. rewrite counted_true. unfold counts. rewrite andb_true_iff, bool_decide_eq_true. split.
    + intros (e & (Hp & Hn & Hs & Hig)%Hes & <- & Hc). rewrite Hp, Hs, Hig, Hc. done.
    + intros [Hj Hm]. destruct (commit_Signatures commit !! j) as [cs|] eqn:Hs; [|done].
      apply andb_true_iff in Hm as [Hig%negb_true_iff Hc]. exists (j, j, cs). split_and!; [by apply Hes|done|done].
Qed.

Lemma accepts_index :
  accepts chainID vals commit needed ignoreSig countSig countAll true ↔
  ∃ n, (n ≤ length (commit_Signatures commit))%nat ∧ (countAll = true → n = length (commit_Signatures commit)) ∧
    all_signed n ∧ needed < power_where (Validators vals) (counts n).
Proof.
  unfold accepts. split.
  - intros (es & Hpre & Hall & Hsuf). destruct countAll.
    + rewrite (Hall eq_refl) in Hsuf. rewrite <-(firstn_all (commit_Signatures commit)) in Hsuf.
      exists (length (commit_Signatures commit)). apply sufficient_index in Hsuf as [? ?]. split_and!; done.
    + apply entries_prefix in Hpre as (n & -> & Hn). exists n. apply sufficient_index in Hsuf as [? ?]. split_and!; done.
  - intros (n & Hn & Hall & Hs). apply sufficient_index in Hs. eexists. split_and!; [apply entries_take| |exact Hs].
    intros Ht. rewrite (Hall Ht). by rewrite firstn_all.
Qed.
End by_index.

Lemma needed_spec total s :
  0 ≤ total ≤ MaxTotalVotingPower → 0 ≤ Z.quot (int64 (total * 2)) 3 ∧ (Z.quot (int64 (total * 2)) 3 < s ↔ 2 * total < 3 * s).
Proof.
  intros Ht. rewrite int64_id by mlia. rewrite Z.quot_div_nonneg by lia.
  pose proof (Z.div_mod (total * 2) 3). pose proof (Z.mod_pos_bound (total * 2) 3). lia.
Qed.

(** What a caller provides: a validator set whose powers can be added up and
    a commit whose signatures can be decoded. *)
Record checkable `{StdTime} (chainID : bytes) (vals : ValidatorSet) (commit : Commit) : Prop := {
  ck_vals : tallied vals;
  ck_keys : keys_ok vals;
  ck_size : len (Validators vals) ≤ MaxInt32;
  ck_read : readable chainID commit is_absent;
}.

Lemma checkable_commit_only `{StdTime} chainID vals commit :
  checkable chainID vals commit → readable chainID commit (λ c, negb (is_commit c)).
Proof.
  intros [_ _ _ Hr] i cs Hcs Hc. apply (Hr i cs Hcs). apply negb_false_iff in Hc. unfold is_commit, is_absent in *.
  apply Z.eqb_eq in Hc. by rewrite Hc.
Qed.

(** The basic checks of a commit against a set. *)
Lemma verifyBasic_spec vals commit height blockID :
  match verifyBasicValsAndCommit (Some vals) (Some commit) height blockID with
  | inl p => p = (vals, commit) ∧ length (Validators vals) = length (commit_Signatures commit) ∧
      height = commit_Height commit ∧ blockID = commit_BlockID commit
  | inr _ => ¬ (len (Validators vals) = len (commit_Signatures commit) ∧ height = commit_Height commit ∧
      blockID = commit_BlockID commit)
  end.
Proof.
  unfold verifyBasicValsAndCommit, Size.
  destruct (Z.eqb_spec (len (Validators vals)) (len (commit_Signatures commit))) as [Hl|]; simpl; [|tauto].
  destruct (Z.eqb_spec height (commit_Height commit)); simpl; [|tauto].
  destruct (BlockID_Equals blockID (commit_BlockID commit)) eqn:He; simpl.
  - apply BlockID_Equals_eq in He. unfold len in Hl. split_and!; [done|lia|done|done].
  - intros (_ & _ & ->). rewrite <-not_true_iff_false, BlockID_Equals_eq in He. done.
Qed.

Section entry_points.
Context `{StdTime, BatchLaws}.

(** Both entry points by index, at once. *)
Lemma verify_index_exact chainID vals blockID height commit ignoreSig countSig countAll :
  checkable chainID vals commit → readable chainID commit ignoreSig →
  ∃ r, (match verifyBasicValsAndCommit (Some vals) (Some commit) height blockID with
        | inr e => Ret (Some e)
        | inl (vals, commit) =>
            '(vals, total) ← TotalVotingPower vals;
            verify_with chainID vals commit (Z.quot (int64 (total * 2)) 3) ignoreSig countSig countAll true
        end) = Ret r ∧
    (r = None ↔ len (Validators vals) = len (commit_Signatures commit) ∧ height = commit_Height commit ∧
      blockID = commit_BlockID commit ∧
      ∃ n, (n ≤ length (commit_Signatures commit))%nat ∧ (countAll = true → n = length (commit_Signatures commit)) ∧
        all_signed chainID vals commit ignoreSig n ∧
        2 * power_sum (Validators vals) < 3 * power_where (Validators vals) (counts commit ignoreSig countSig n)).
Proof.
  intros [Hv Hk Hsz _] Hr. pose proof (verifyBasic_spec vals commit height blockID) as Hb.
  destruct (verifyBasicValsAndCommit _ _ _ _) as [p|e]; [|exists (Some e); split; [done|]; split; [done|tauto]].
  destruct Hb as (-> & Hl & Hh & Hid). rewrite TotalVotingPower_tallied by done. cbn [mbind outcome_bind].
  pose proof (tallied_sum _ Hv) as [Hpos Hmax].
  destruct (verify_with_exact chainID (with_total vals (power_sum (Validators vals))) commit
    (Z.quot (int64 (power_sum (Validators vals) * 2)) 3) ignoreSig countSig countAll true Hr (td_list _ Hv) (td_nonempty _ Hv))
    as (r & Hret & Hiff); [by destruct Hk|done|simpl; intros _; lia|by apply (needed_spec _ 0); lia|].
  exists r. split; [done|]. rewrite Hiff, accepts_index by (simpl; lia).
  split.
  - intros (n & Hn & Ha & Hs & Hgt). split_and!; [unfold len; lia|done|done|]. exists n. split_and!; [done|done|done|].
    apply needed_spec in Hgt; [done|lia].
  - intros (_ & _ & _ & n & Hn & Ha & Hs & Hgt). exists n. split_and!; [done|done|done|]. apply needed_spec; [lia|done].
Qed.
End entry_points.
