(* ===== verification/CommitTheorems.v ===== *)
(** * Commit verification: theorems

    What [VerifyCommit] and its light variants accept, what two accepted
    commits for one round imply, and that a commit built from a vote set is
    accepted. *)
From S2P Require Import Prelude.
From S2P Require Import SafeMath.
From S2P Require Import Vote.
From S2P Require Import Validator.
From S2P Require Import SignBytes.
From S2P Require Import ValidatorSet.
From S2P Require Import ValidatorSetPriority.
From S2P Require Import ValidatorSetUpdate.
From S2P Require Import Quorum.
From S2P Require Import VoteSet.
From S2P Require Import VoteSetInv.
From S2P Require Import VoteSetSafety.
From S2P Require Import Validation.
From S2P Require Import CommitSafety.

(** The validators whose signature in the commit is for its block. *)
Definition for_block (commit : Commit) (j : nat) : bool :=
  match commit_Signatures commit !! j with Some cs => is_commit cs | None => false end.

(** Every signature present verifies under the key of its validator. *)
Definition signatures_verify `{StdTime, Crypto} (chainID : bytes) (vals : ValidatorSet) (commit : Commit) : Prop :=
  ∀ i cs v, commit_Signatures commit !! i = Some cs → is_absent cs = false → Validators vals !! i = Some v →
    signed chainID commit i v cs = true.

(** Height, block and size agree with the commit. *)
Definition matches (vals : ValidatorSet) (blockID : BlockID) (height : Z) (commit : Commit) : Prop :=
  len (Validators vals) = len (commit_Signatures commit) ∧ height = commit_Height commit ∧
  blockID = commit_BlockID commit.

Lemma is_commit_present cs : is_commit cs = true → is_absent cs = false.
Proof. unfold is_commit, is_absent. rewrite Z.eqb_eq. by intros ->. Qed.

Lemma counts_all commit j : counts commit is_absent is_commit (length (commit_Signatures commit)) j = for_block commit j.
Proof.
  unfold counts, for_block. destruct (commit_Signatures commit !! j) as [cs|] eqn:Hj; [|by rewrite andb_false_r].
  rewrite bool_decide_eq_true_2 by (by eapply lookup_lt_Some). simpl.
  destruct (is_commit cs) eqn:Hc; [|by rewrite andb_false_r]. by rewrite is_commit_present.
Qed.

Lemma counts_light commit n j :
  counts commit (λ c, negb (is_commit c)) (λ _, true) n j = bool_decide (j < n)%nat && for_block commit j.
Proof.
  unfold counts, for_block. f_equal. destruct (commit_Signatures commit !! j) as [cs|]; [|done].
  by rewrite negb_involutive, andb_true_r.
Qed.

Section theorems.
Context `{StdTime, BatchLaws}.

Lemma VerifyCommit_iff chainID vals blockID height commit :
  checkable chainID vals commit →
  ∃ r, VerifyCommit chainID (Some vals) blockID height (Some commit) = Ret r ∧
    (r = None ↔ matches vals blockID height commit ∧ signatures_verify chainID vals commit ∧
       2 * power_sum (Validators vals) < 3 * power_where (Validators vals) (for_block commit)).
Proof.
  intros Hck. destruct (verify_index_exact chainID vals blockID height commit is_absent is_commit true Hck (ck_read _ _ _ Hck))
    as (r & Hr & Hiff). exists r. split; [exact Hr|]. rewrite Hiff. unfold matches, signatures_verify, all_signed.
  rewrite (power_where_ext _ (for_block commit) (counts commit is_absent is_commit (length (commit_Signatures commit))))
    by (intros; by rewrite counts_all).
  split.
  - intros (? & ? & ? & n & _ & Hn & Hall & Hgt). specialize (Hn eq_refl). subst n. split_and!; try done.
    intros i cs v Hcs. apply Hall; [by eapply lookup_lt_Some|done].
  - intros ((? & ? & ?) & Hall & Hgt). split_and!; try done. eexists. split_and!; [done|done| |exact Hgt].
    intros i cs v _. apply Hall.
Qed.

Lemma VerifyCommitLight_iff chainID vals blockID height commit countAll :
  checkable chainID vals commit →
  ∃ r, verifyCommitLightInternal chainID (Some vals) blockID height (Some commit) countAll = Ret r ∧
    (r = None ↔ matches vals blockID height commit ∧
       ∃ n, (n ≤ length (commit_Signatures commit))%nat ∧ (countAll = true → n = length (commit_Signatures commit)) ∧
         (∀ i v cs, (i < n)%nat → commit_Signatures commit !! i = Some cs → is_commit cs = true →
            Validators vals !! i = Some v → signed chainID commit i v cs = true) ∧
         2 * power_sum (Validators vals) <
           3 * power_where (Validators vals) (λ j, bool_decide (j < n)%nat && for_block commit j)).
Proof.
  intros Hck. destruct (verify_index_exact chainID vals blockID height commit (λ c, negb (is_commit c)) (λ _, true) countAll
    Hck (checkable_commit_only _ _ _ Hck)) as (r & Hr & Hiff). exists r. split; [exact Hr|]. rewrite Hiff. unfold matches, all_signed.
  assert (∀ n, power_where (Validators vals) (counts commit (λ c, negb (is_commit c)) (λ _, true) n) =
    power_where (Validators vals) (λ j, bool_decide (j < n)%nat && for_block commit j)) as Hp
    by (intros n; apply power_where_ext; intros; apply counts_light).
  split.
  - intros (? & ? & ? & n & Hn & Ha & Hs & Hgt). rewrite Hp in Hgt. split; [done|]. exists n. split_and!; [done|done| |done].
    intros i v cs Hi Hcs Hc. apply Hs; [done|done|by rewrite Hc].
  - intros ((? & ? & ?) & n & Hn & Ha & Hs & Hgt). rewrite <-Hp in Hgt. split_and!; try done. exists n. split_and!; [done|done| |done].
    intros i cs v Hi Hcs Hc%negb_false_iff Hv. by eapply Hs.
Qed.

Lemma VerifyCommitLightTrusting_iff chainID vals commit trust countAll :
  checkable chainID vals commit →
  0 ≤ Numerator trust ≤ MaxInt64 → 0 < Denominator trust ≤ MaxInt64 →
  power_sum (Validators vals) * Numerator trust ≤ MaxInt64 →
  ∃ r, verifyCommitLightTrustingInternal chainID (Some vals) (Some commit) trust countAll = Ret r ∧
    (r = None ↔ accepts chainID vals commit (power_sum (Validators vals) * Numerator trust / Denominator trust)
                  (λ c, negb (is_commit c)) (λ _, true) countAll false).
Proof.
  intros Hck Hnum Hden Hfit. pose proof Hck as [Hv Hk Hsz _]. unfold verifyCommitLightTrustingInternal.
  destruct (Z.eqb_spec (Denominator trust) 0); [lia|]. rewrite TotalVotingPower_tallied by done. cbn [mbind outcome_bind].
  pose proof (tallied_sum _ Hv) as [Hpos Hmax].
  rewrite !int64_id by ulia. rewrite safeMul_fits by (mlia || lia).
  destruct (Z.eqb_spec (Denominator trust) 0); [lia|]. rewrite Z.quot_div_nonneg by nia.
  assert (0 ≤ power_sum (Validators vals) * Numerator trust / Denominator trust ≤ MaxInt64).
  { split; [apply Z.div_pos; nia|]. apply Z.div_le_upper_bound; nia. }
  rewrite int64_id by ulia.
  destruct (verify_with_exact chainID (with_total vals (power_sum (Validators vals))) commit
    (power_sum (Validators vals) * Numerator trust / Denominator trust) (λ c, negb (is_commit c)) (λ _, true) countAll false
    (checkable_commit_only _ _ _ Hck) (td_list _ Hv) (td_nonempty _ Hv)) as (r & Hr & Hiff); [by destruct Hk|done|done|lia|].
  exists r. split; [exact Hr|]. exact Hiff.
Qed.
End theorems.

(** Validator [j] signed the commit's block. *)
Definition signed_block `{StdTime, Crypto} (chainID : bytes) (vals : ValidatorSet) (commit : Commit) (j : nat) : bool :=
  match Validators vals !! j, commit_Signatures commit !! j with
  | Some v, Some cs => is_commit cs && signed chainID commit j v cs
  | _, _ => false
  end.

Lemma signed_block_inv `{StdTime, Crypto} chainID vals commit j :
  len (commit_Signatures commit) ≤ MaxInt32 → signed_block chainID vals commit j = true →
  ∃ v pk cs bz, Validators vals !! j = Some v ∧ PubKey_ v = Some pk ∧ commit_Signatures commit !! j = Some cs ∧
    VoteSignBytes chainID (mkVote PrecommitType (commit_Height commit) (commit_Round commit) (commit_BlockID commit)
      (cs_Timestamp cs) (cs_ValidatorAddress cs) (Z.of_nat j) (cs_Signature cs) [] []) = Ret bz ∧
    verify_signature pk bz (cs_Signature cs) = true.
Proof.
  intros Hl. unfold signed_block, signed, Commit_VoteSignBytes, Commit_GetVote.
  destruct (Validators vals !! j) as [v|] eqn:Hv; [|done]. destruct (commit_Signatures commit !! j) as [cs|] eqn:Hcs; [|done].
  pose proof (lookup_lt_Some _ _ _ Hcs). rewrite int32_id by (unfold len in Hl; ulia).
  assert (slice_get (commit_Signatures commit) (Z.of_nat j) = Ret cs) as -> by (apply slice_get_ret; rewrite Nat2Z.id; split; [lia|done]).
  intros [Hc Hs]%andb_true_iff. cbn [mbind outcome_bind] in Hs. unfold CommitSig_BlockID in Hs. fold (is_absent cs) (is_commit cs) in Hs.
  rewrite is_commit_present, Hc in Hs by done. cbn [mbind outcome_bind] in Hs.
  destruct (PubKey_ v) as [pk|] eqn:Hpk; [|done]. destruct (VoteSignBytes _ _) as [bz|] eqn:Hbz; [|done].
  exists v, pk, cs, bz. split_and!; done.
Qed.

Lemma quorum_signed `{StdTime, BatchLaws} chainID vals blockID height commit :
  checkable chainID vals commit → VerifyCommitLight chainID (Some vals) blockID height (Some commit) = Ret None →
  matches vals blockID height commit ∧
  2 * power_sum (Validators vals) < 3 * power_where (Validators vals) (signed_block chainID vals commit).
Proof.
  intros Hck Hr. destruct (VerifyCommitLight_iff chainID vals blockID height commit false Hck) as (r & Hr' & Hiff).
  unfold VerifyCommitLight in Hr. rewrite Hr in Hr'. apply (inj Ret) in Hr' as <-.
  destruct (proj1 Hiff eq_refl) as (Hm & n & _ & _ & Hs & Hgt). split; [done|].
  eapply Z.lt_le_trans; [exact Hgt|]. apply Z.mul_le_mono_nonneg_l; [lia|].
  apply power_where_mono; [apply (ck_vals _ _ _ Hck)|]. intros j Hj Hb. apply andb_true_iff in Hb as [Hn%bool_decide_eq_true Hb].
  unfold for_block in Hb. unfold signed_block. destruct (commit_Signatures commit !! j) as [cs|] eqn:Hcs; [|done].
  destruct (lookup_lt_is_Some_2 (Validators vals) j) as [v Hv]; [done|]. rewrite Hv, Hb. by apply (Hs j v cs).
Qed.

Lemma VerifyCommit_implies_light `{StdTime, BatchLaws} chainID vals blockID height commit countAll :
  checkable chainID vals commit → VerifyCommit chainID (Some vals) blockID height (Some commit) = Ret None →
  verifyCommitLightInternal chainID (Some vals) blockID height (Some commit) countAll = Ret None.
Proof.
  intros Hck Hr. destruct (VerifyCommit_iff chainID vals blockID height commit Hck) as (r & Hr' & Hiff).
  rewrite Hr in Hr'. apply (inj Ret) in Hr' as <-. destruct (proj1 Hiff eq_refl) as (Hm & Hs & Hgt).
  destruct (VerifyCommitLight_iff chainID vals blockID height commit countAll Hck) as (r & Hr' & Hiff').
  rewrite Hr'. f_equal. apply Hiff'. split; [done|]. exists (length (commit_Signatures commit)). split_and!; [done|done| |].
  - intros i v cs _ Hcs Hc Hv. apply (Hs i cs v); [done|by apply is_commit_present|done].
  - erewrite power_where_ext; [exact Hgt|]. intros j _. simpl. unfold for_block.
    destruct (commit_Signatures commit !! j) as [cs|] eqn:Hcs; [|by rewrite andb_false_r].
    by rewrite bool_decide_eq_true_2 by (by eapply lookup_lt_Some).
Qed.

(** ** Commits do not bind the addresses they carry *)

(** The commit with other validator addresses in its signatures. *)
Definition readdress (f : nat → bytes) (commit : Commit) : Commit :=
  mkCommit (commit_Height commit) (commit_Round commit) (commit_BlockID commit)
    (imap (λ i cs, if is_absent cs then cs
                   else mkCommitSig (cs_BlockIDFlag cs) (f i) (cs_Timestamp cs) (cs_Signature cs)) (commit_Signatures commit)).

Lemma readdress_lookup f commit i :
  commit_Signatures (readdress f commit) !! i =
  (λ cs, if is_absent cs then cs else mkCommitSig (cs_BlockIDFlag cs) (f i) (cs_Timestamp cs) (cs_Signature cs))
    <$> commit_Signatures commit !! i.
Proof. apply list_lookup_imap. Qed.

Lemma readdress_sign_bytes `{StdTime} f commit chainID i :
  Commit_VoteSignBytes (readdress f commit) chainID i = Commit_VoteSignBytes commit chainID i.
Proof.
  unfold Commit_VoteSignBytes, Commit_GetVote, slice_get. destruct (decide (0 ≤ i)); [|done]. rewrite readdress_lookup.
  destruct (commit_Signatures commit !! Z.to_nat i) as [cs|]; [|done]. simpl. destruct (is_absent cs); [done|].
  unfold CommitSig_BlockID. simpl. by repeat case_match.
Qed.

Lemma readdress_present f commit i cs :
  commit_Signatures (readdress f commit) !! i = Some cs → is_absent cs = false →
  ∃ cs0, commit_Signatures commit !! i = Some cs0 ∧ is_absent cs0 = false ∧
    cs = mkCommitSig (cs_BlockIDFlag cs0) (f i) (cs_Timestamp cs0) (cs_Signature cs0).
Proof.
  rewrite readdress_lookup. destruct (commit_Signatures commit !! i) as [cs0|]; [|done]. simpl.
  destruct (is_absent cs0) eqn:Ha; intros [= <-] Hc; [congruence|]. by exists cs0.
Qed.

Lemma readdress_checkable `{StdTime} f chainID vals commit :
  (∀ i, len (f i) = AddressSize) → checkable chainID vals commit → checkable chainID vals (readdress f commit).
Proof.
  intros Hf [Hv Hk Hs Hr]. split; [done|done|done|]. intros i cs Hcs Ha.
  destruct (readdress_present f commit i cs Hcs Ha) as (cs0 & Hcs0 & Ha0 & ->).
  destruct (Hr i cs0 Hcs0 Ha0) as (Hb & m & Hm). rewrite readdress_sign_bytes. split; [|eauto].
  unfold CommitSig_ValidateBasic in *. simpl. destruct (negb _); [done|]. fold (is_absent cs0) in Hb |- *. rewrite Ha0 in Hb |- *.
  rewrite Hf, Z.eqb_refl. simpl. by destruct (negb _).
Qed.

Lemma readdress_signed `{StdTime, Crypto} f chainID commit i v cs fl ad :
  signed chainID (readdress f commit) i v (mkCommitSig fl ad (cs_Timestamp cs) (cs_Signature cs)) = signed chainID commit i v cs.
Proof. unfold signed. by rewrite readdress_sign_bytes. Qed.

Lemma readdress_verifies `{StdTime, Crypto} f chainID vals commit :
  signatures_verify chainID vals (readdress f commit) ↔ signatures_verify chainID vals commit.
Proof.
  unfold signatures_verify. split; intros Hs i cs v Hcs Ha Hv.
  - rewrite <-(readdress_signed f chainID commit i v cs (cs_BlockIDFlag cs) (f i)). apply Hs; [|done|done].
    rewrite readdress_lookup, Hcs. simpl. by rewrite Ha.
  - destruct (readdress_present f commit i cs Hcs Ha) as (cs0 & Hcs0 & Ha0 & ->).
    rewrite readdress_signed. by apply (Hs i cs0 v).
Qed.

Lemma readdress_for_block f commit j : for_block (readdress f commit) j = for_block commit j.
Proof.
  unfold for_block. rewrite readdress_lookup. destruct (commit_Signatures commit !! j) as [cs|]; [|done]. simpl.
  by destruct (is_absent cs).
Qed.

(** ** Commits made from votes *)

(** The commit signature a vote set of a majority for [m] makes of a vote. *)
Definition sig_for (m : BlockID) (v : option Vote) : CommitSig :=
  match v with
  | None => NewCommitSigAbsent
  | Some v =>
      if BlockID_IsComplete (vote_BlockID v) then
        if BlockID_Equals (vote_BlockID v) m
        then mkCommitSig BlockIDFlagCommit (ValidatorAddress v) (vote_Timestamp v) (vote_Signature v)
        else NewCommitSigAbsent
      else mkCommitSig BlockIDFlagNil (ValidatorAddress v) (vote_Timestamp v) (vote_Signature v)
  end.

Lemma extended_sigs_spec m l :
  Forall (λ o, ∀ v, o = Some v → good_id (vote_BlockID v)) l →
  ∃ sigs, extended_sigs m l = Ret sigs ∧ ecs_CommitSig <$> sigs = sig_for m <$> l ∧
    ∀ e, e ∈ sigs → e = NewExtendedCommitSigAbsent ∨ ∃ v, Some v ∈ l ∧ ecs_Extension e = vote_Extension v ∧
      ecs_ExtensionSignature e = vote_ExtensionSignature v ∧ ecs_CommitSig e = sig_for m (Some v) ∧ sig_for m (Some v) ≠ NewCommitSigAbsent.
Proof.
  induction 1 as [|o l Ho Hl (sigs & Hex & Hcs & Hin)]; simpl.
  { exists []. split_and!; [done|done|by intros e ?%not_elem_of_nil]. }
  rewrite Hex.
  assert (∀ s c, s = c → s :: (ecs_CommitSig <$> sigs) = c :: (sig_for m <$> l)) as Hcons by (intros; subst; by rewrite Hcs).
  assert (∀ e0, (e0 = NewExtendedCommitSigAbsent ∨ ∃ v, o = Some v ∧ ecs_Extension e0 = vote_Extension v ∧
      ecs_ExtensionSignature e0 = vote_ExtensionSignature v ∧ ecs_CommitSig e0 = sig_for m (Some v) ∧ sig_for m (Some v) ≠ NewCommitSigAbsent) →
    ∀ e, e ∈ e0 :: sigs → e = NewExtendedCommitSigAbsent ∨ ∃ v, Some v ∈ o :: l ∧ ecs_Extension e = vote_Extension v ∧
      ecs_ExtensionSignature e = vote_ExtensionSignature v ∧ ecs_CommitSig e = sig_for m (Some v) ∧ sig_for m (Some v) ≠ NewCommitSigAbsent) as Hmem.
  { intros e0 He0 e [->|He]%elem_of_cons.
    - destruct He0 as [|(v & -> & ?)]; [by left|]. right. exists v. split; [by left|done].
    - destruct (Hin e He) as [|(v & Hv & ?)]; [by left|]. right. exists v. split; [by right|done]. }
  destruct o as [v|]; simpl.
  2: { eexists. split_and!; [done|by apply Hcons|]. apply Hmem. by left. }
  destruct (Ho v eq_refl) as [Hnil|[Hc _]].
  - rewrite Hnil. simpl. eexists. split_and!; [done| |].
    + by apply Hcons.
    + apply Hmem. right. exists v. simpl. rewrite Hnil. split_and!; done.
  - rewrite Hc. simpl. destruct (BlockID_Equals (vote_BlockID v) m) eqn:He; simpl.
    + eexists. split_and!; [done|by apply Hcons|].
      apply Hmem. right. exists v. simpl. rewrite Hc, He. split_and!; done.
    + eexists. split_and!; [done|by apply Hcons|]. apply Hmem. by left.
Qed.

Lemma VoteSignBytes_ext `{StdTime} cid v w :
  vote_Type v = vote_Type w → vote_Height v = vote_Height w → vote_Round v = vote_Round w →
  vote_BlockID v = vote_BlockID w → vote_Timestamp v = vote_Timestamp w → VoteSignBytes cid v = VoteSignBytes cid w.
Proof. unfold VoteSignBytes, CanonicalizeVote. by intros -> -> -> -> ->. Qed.

Section make_commit.
Context `{StdTime, Crypto}.
Context (vs : VoteSet) (b : BlockID).
Context (Hok : vs_ok vs) (Hmaj : maj23 vs = Some b) (Hb : BlockID_IsComplete b = true)
        (Hty : signedMsgType vs = PrecommitType) (Hsize : len (Validators (valSet vs)) ≤ MaxInt32)
        (Hbasic : ∀ i v, votes vs !! i = Some (Some v) → Vote_ValidateBasic v = None).

Lemma maj_good : good_id b.
Proof using Hok Hmaj. by destruct (maj23_power vs b Hok Hmaj). Qed.

(** What the set knows of a vote it holds. *)
Lemma held_vote i v :
  votes vs !! i = Some (Some v) → good_vote vs i v ∧ Vote_ValidateBasic v = None ∧
  ∃ val pk bz, Validators (valSet vs) !! i = Some val ∧ PubKey_ val = Some pk ∧ VoteSignBytes (chainID vs) v = Ret bz ∧
    verify_signature pk bz (vote_Signature v) = true.
Proof using Hok Hbasic.
  intros Hi. pose proof (co_votes _ _ _ _ (ok_core _ Hok) i v Hi) as Hg. split_and!; [done|by eapply Hbasic|].
  destruct (gv_signed _ _ _ Hg) as (val & Hval & _ & Hs). exists val.
  assert (Vote_Verify v (chainID vs) (PubKey_ val) = Ret None) as Hv.
  { unfold check_signature, VerifyVoteAndExtension in Hs. destruct (extensionsEnabled vs);
      (destruct (Vote_Verify v (chainID vs) (PubKey_ val)) as [[?|]|]; simpl in Hs; done). }
  unfold Vote_Verify in Hv. destruct (PubKey_ val) as [pk|]; [|done]. destruct (negb _); [done|].
  destruct (VoteSignBytes (chainID vs) v) as [bz|]; [|done]. simpl in Hv. exists pk, bz.
  destruct (verify_signature pk bz (vote_Signature v)) eqn:He; [|done]. split_and!; done.
Qed.

(** The signature of a vote in the commit. *)
Lemma sig_for_present v i :
  votes vs !! i = Some (Some v) → is_absent (sig_for b (Some v)) = false →
  cs_ValidatorAddress (sig_for b (Some v)) = ValidatorAddress v ∧ cs_Timestamp (sig_for b (Some v)) = vote_Timestamp v ∧
  cs_Signature (sig_for b (Some v)) = vote_Signature v ∧
  CommitSig_BlockID (sig_for b (Some v)) b = Ret (vote_BlockID v) ∧ CommitSig_ValidateBasic (sig_for b (Some v)) = None.
Proof using Hok Hbasic.
  intros Hi Ha. destruct (held_vote i v Hi) as (Hg & Hvb & _).
  assert (len (ValidatorAddress v) = AddressSize ∧ (len (vote_Signature v) =? 0) = false ∧
    (MaxSignatureSize <? len (vote_Signature v)) = false) as (H1' & H2' & H3').
  { unfold Vote_ValidateBasic in Hvb. repeat (case_match; try done); lia. }
  unfold sig_for in *. destruct (BlockID_IsComplete (vote_BlockID v)) eqn:Hc.
  - destruct (BlockID_Equals (vote_BlockID v) b) eqn:He; [|done]. apply BlockID_Equals_eq in He. rewrite He.
    split_and!; [done|done|done|done|]. unfold CommitSig_ValidateBasic. simpl. by rewrite H1', H2', H3'.
  - destruct (gv_id _ _ _ Hg) as [Hnil|[? _]]; [|congruence]. rewrite Hnil. split_and!; [done|done|done|done|].
    unfold CommitSig_ValidateBasic. simpl. by rewrite H1', H2', H3'.
Qed.

Lemma ensure_extensions sigs :
  (∀ e, e ∈ sigs → e = NewExtendedCommitSigAbsent ∨ ∃ v, Some v ∈ votes vs ∧ ecs_Extension e = vote_Extension v ∧
      ecs_ExtensionSignature e = vote_ExtensionSignature v ∧ ecs_CommitSig e = sig_for b (Some v) ∧
      sig_for b (Some v) ≠ NewCommitSigAbsent) →
  ExtendedCommit_EnsureExtensions (mkExtendedCommit (height vs) (round vs) b sigs) (extensionsEnabled vs) = true.
Proof using Hok Hbasic Hty.
  intros Hin. apply forallb_forall. intros e He%list_elem_of_In. simpl in He.
  destruct (Hin e He) as [->|(v & [i Hi]%list_elem_of_lookup & Hex & Hes & Hcs & Hne)].
  { unfold ExtendedCommitSig_EnsureExtension. by destruct (extensionsEnabled vs). }
  unfold ExtendedCommitSig_EnsureExtension. rewrite Hex, Hes, Hcs.
  destruct (held_vote i v Hi) as (Hg & Hvb & _). destruct (gv_signed _ _ _ Hg) as (val & _ & _ & Hs).
  unfold check_signature in Hs. destruct (extensionsEnabled vs).
  - assert (cs_BlockIDFlag (sig_for b (Some v)) = BlockIDFlagCommit ∧ BlockID_IsZero (vote_BlockID v) = false ∨
      cs_BlockIDFlag (sig_for b (Some v)) = BlockIDFlagNil ∧ BlockID_IsZero (vote_BlockID v) = true) as [[-> Hz]|[-> Hz]].
    { unfold sig_for in *. destruct (BlockID_IsComplete (vote_BlockID v)) eqn:Hc.
      - destruct (BlockID_Equals _ b); [|done]. left. split; [done|]. by apply good_id_not_both; [apply Hg|].
      - destruct (gv_id _ _ _ Hg) as [Hnil|[? _]]; [|congruence]. right. by rewrite Hnil. }
    + unfold VerifyVoteAndExtension in Hs. destruct (Vote_Verify v (chainID vs) (PubKey_ val)) as [[?|]|]; simpl in Hs; [done| |done].
      destruct (PubKey_ val); [|done]. rewrite Hz, (gv_type _ _ _ Hg), Hty in Hs. simpl in Hs.
      by destruct (len (vote_ExtensionSignature v) =? 0).
    + unfold Vote_ValidateBasic in Hvb. rewrite Hz in Hvb. rewrite orb_true_r in Hvb. simpl.
      repeat (case_match; try done). pose proof (len_nonneg (vote_Extension v)). pose proof (len_nonneg (vote_ExtensionSignature v)).
      assert (len (vote_Extension v) = 0) as -> by lia. assert (len (vote_ExtensionSignature v) = 0) as -> by lia. done.
  - destruct (Vote_Verify v (chainID vs) (PubKey_ val)) as [[?|]|]; simpl in Hs; [done| |done].
    destruct ((0 <? _) || _) eqn:Hor; [done|]. pose proof (len_nonneg (vote_Extension v)).
    pose proof (len_nonneg (vote_ExtensionSignature v)). lia.
Qed.

Lemma MakeExtendedCommit_spec :
  ∃ ec, MakeExtendedCommit vs (extensionsEnabled vs) = Ret ec ∧
    ToCommit ec = mkCommit (height vs) (round vs) b (sig_for b <$> votes vs).
Proof using Hok Hbasic Hty Hmaj.
  destruct (extended_sigs_spec b (votes vs)) as (sigs & Hs & Hcs & Hin).
  { apply Forall_forall. intros o [i Hi]%list_elem_of_lookup v ->. by destruct (held_vote i v Hi) as [Hg _]; apply Hg. }
  unfold MakeExtendedCommit. rewrite Hty, Hmaj. simpl. rewrite Hs. simpl. rewrite ensure_extensions by done.
  eexists. split; [done|]. unfold ToCommit. simpl. by rewrite Hcs.
Qed.

Abbreviation made := (mkCommit (height vs) (round vs) b (sig_for b <$> votes vs)).

Lemma votes_length : length (votes vs) = length (Validators (valSet vs)).
Proof using Hok. apply (ty_len _ _ _ _ (ok_tally _ Hok)). Qed.

(** The commit is signed over the bytes of the votes. *)
Lemma made_sign_bytes i v :
  votes vs !! i = Some (Some v) → is_absent (sig_for b (Some v)) = false →
  Commit_VoteSignBytes made (chainID vs) (int32 (Z.of_nat i)) = VoteSignBytes (chainID vs) v.
Proof using Hok Hbasic Hsize Hty.
  intros Hi Ha. destruct (sig_for_present v i Hi Ha) as (_ & Ht & _ & Hid & _).
  destruct (held_vote i v Hi) as (Hg & _). pose proof (lookup_lt_Some _ _ _ Hi) as Hl. rewrite votes_length in Hl.
  rewrite int32_id by (unfold len in Hsize; ulia). unfold Commit_VoteSignBytes, Commit_GetVote. cbn [commit_Signatures].
  assert (slice_get (sig_for b <$> votes vs) (Z.of_nat i) = Ret (sig_for b (Some v))) as ->.
  { apply slice_get_ret. rewrite Nat2Z.id, list_lookup_fmap, Hi. split; [lia|done]. }
  cbn [mbind outcome_bind commit_BlockID]. rewrite Hid. cbn [mbind outcome_bind].
  apply VoteSignBytes_ext; cbn; [by rewrite (gv_type _ _ _ Hg), Hty|by rewrite (gv_height _ _ _ Hg)|by rewrite (gv_round _ _ _ Hg)|done|done].
Qed.

Lemma made_lookup i cs :
  commit_Signatures made !! i = Some cs → is_absent cs = false →
  ∃ v, votes vs !! i = Some (Some v) ∧ cs = sig_for b (Some v).
Proof using.
  cbn [commit_Signatures]. rewrite list_lookup_fmap. destruct (votes vs !! i) as [[v|]|]; simpl; [|by intros [= <-]|done].
  intros [= <-] Ha. by exists v.
Qed.

Lemma made_checkable : keys_ok (valSet vs) → checkable (chainID vs) (valSet vs) made.
Proof using Hok Hbasic Hsize Hty.
  intros Hk. split; [apply valid_tallied, Hok|done|done|]. intros i cs Hcs Ha. destruct (made_lookup i cs Hcs Ha) as (v & Hv & ->).
  split; [by apply (sig_for_present v i)|]. rewrite (made_sign_bytes i v Hv Ha).
  destruct (held_vote i v Hv) as (_ & _ & _ & _ & bz & _ & _ & -> & _). eauto.
Qed.

Lemma made_accepted :
  matches (valSet vs) b (height vs) made ∧ signatures_verify (chainID vs) (valSet vs) made ∧
  2 * power_sum (Validators (valSet vs)) < 3 * power_where (Validators (valSet vs)) (for_block made).
Proof using Hok Hbasic Hsize Hty Hmaj Hb.
  split_and!.
  - split_and!; [|done|done]. unfold len. cbn [commit_Signatures]. by rewrite length_fmap, votes_length.
  - intros i cs val Hcs Ha Hval. destruct (made_lookup i cs Hcs Ha) as (v & Hv & ->).
    unfold signed. rewrite (made_sign_bytes i v Hv Ha). destruct (sig_for_present v i Hv Ha) as (_ & _ & -> & _).
    destruct (held_vote i v Hv) as (_ & _ & val' & pk & bz & Hval' & Hpk & -> & Hs).
    rewrite Hval' in Hval. injection Hval as <-. by rewrite Hpk.
  - eapply Z.lt_le_trans; [apply (maj23_power vs b Hok Hmaj)|]. apply Z.mul_le_mono_nonneg_l; [lia|].
    apply power_where_mono; [apply positive_nonneg, (ok_vals _ Hok)|]. intros j Hj Hv. unfold votes_for in Hv.
    pose proof (ok_maj _ Hok) as Hm. rewrite Hmaj in Hm. destruct Hm as (_ & bv & Hbv & _ & Hfollow). rewrite Hbv in Hv.
    destruct (Hfollow j Hv) as (v & Hv' & Hk). destruct (held_vote j v Hv') as (Hg & _).
    assert (vote_BlockID v = b) as Hid by (apply BlockID_Key_inj; [apply Hg|apply maj_good|done]).
    unfold for_block. cbn [commit_Signatures]. rewrite list_lookup_fmap, Hv'. simpl. rewrite Hid, Hb.
    assert (BlockID_Equals b b = true) as -> by (by apply BlockID_Equals_eq). done.
Qed.
End make_commit.

(** ** The theorems *)

(** C7: [VerifyCommit] never panics on a validator set whose powers can be
    tallied and a readable commit, and accepts exactly the commits that match the set, the
    height and the block, whose present signatures all verify under the keys
    of their validators, and whose signatures for the block carry more than
    two thirds of the power; whether or not it verifies in a batch. *)
Theorem VerifyCommit_exact `{StdTime, BatchLaws} chainID vals blockID height commit :
  checkable chainID vals commit →
  ∃ r, VerifyCommit chainID (Some vals) blockID height (Some commit) = Ret r ∧
    (r = None ↔ matches vals blockID height commit ∧ signatures_verify chainID vals commit ∧
       2 * power_sum (Validators vals) < 3 * power_where (Validators vals) (for_block commit)).
Proof. apply VerifyCommit_iff. Qed.

(** C29: the batch routine and the one-by-one routine agree on every commit
    whose signatures, where they are looked at, pass their basic checks and
    have sign bytes ([readable]), whatever is ignored, counted or looked up by
    address, with early exit or without: one accepts when the other does. *)
Theorem verifyCommitBatch_equivalent `{StdTime, BatchLaws} chainID vals commit needed ignoreSig countSig countAll byIndex pk :
  readable chainID commit ignoreSig →
  (byIndex = true → (length (commit_Signatures commit) ≤ length (Validators vals))%nat) → 0 ≤ needed →
  proposer_key vals = Ret (Some pk) → SupportsBatchVerifier (Some pk) = true → of_type vals (Type_ pk) →
  batchVerifyThreshold ≤ len (commit_Signatures commit) →
  ∃ r s, verifyCommitBatch chainID vals commit needed ignoreSig countSig countAll byIndex = Ret r ∧
    verifyCommitSingle chainID vals commit needed ignoreSig countSig countAll byIndex = Ret s ∧
    (r = None ↔ s = None).
Proof. intros. by apply verifyCommitBatch_agrees with pk. Qed.

(** A commit the full check accepts, both light checks accept; and what
    the light check accepts is signed for the block by validators with more
    than two thirds of the power, although it stops early. *)
Theorem VerifyCommitLight_sound `{StdTime, BatchLaws} chainID vals blockID height commit :
  checkable chainID vals commit →
  (VerifyCommit chainID (Some vals) blockID height (Some commit) = Ret None →
   VerifyCommitLightAllSignatures chainID (Some vals) blockID height (Some commit) = Ret None ∧
   VerifyCommitLight chainID (Some vals) blockID height (Some commit) = Ret None) ∧
  (VerifyCommitLight chainID (Some vals) blockID height (Some commit) = Ret None →
   matches vals blockID height commit ∧
   2 * power_sum (Validators vals) < 3 * power_where (Validators vals) (signed_block chainID vals commit)).
Proof.
  intros Hck. split; [|by apply quorum_signed].
  intros Hv. split; by apply VerifyCommit_implies_light.
Qed.

(** The trusting check accepts exactly when some run of the commit's
    signatures for the block, in order (all of them, in the all-signatures
    variant), that belong to the trusted set comes from distinct validators,
    verifies, and carries more than the trust level of the set's power. *)
Theorem VerifyCommitLightTrusting_exact `{StdTime, BatchLaws} chainID vals commit trust countAll :
  checkable chainID vals commit →
  0 ≤ Numerator trust ≤ MaxInt64 → 0 < Denominator trust ≤ MaxInt64 →
  power_sum (Validators vals) * Numerator trust ≤ MaxInt64 →
  ∃ r, verifyCommitLightTrustingInternal chainID (Some vals) (Some commit) trust countAll = Ret r ∧
    (r = None ↔ ∃ es, es `prefix_of` entries vals (λ c, negb (is_commit c)) false (commit_Signatures commit) 0 ∧
       (countAll = true → es = entries vals (λ c, negb (is_commit c)) false (commit_Signatures commit) 0) ∧
       NoDup ((λ e : entry, e_pos e) <$> es) ∧ Forall (λ e, entry_ok chainID vals commit e = true) es ∧
       power_sum (Validators vals) * Numerator trust / Denominator trust <
         power_where (Validators vals) (λ j, existsb (λ e : entry, bool_decide (e_pos e = j)) es)).
Proof.
  intros Hck Hn Hd Hf. destruct (VerifyCommitLightTrusting_iff chainID vals commit trust countAll Hck Hn Hd Hf) as (r & Hr & Hiff).
  exists r. split; [done|]. rewrite Hiff. unfold accepts, sufficient.
  assert (∀ es, NoDup ((λ e : entry, e_pos e) <$> es) → Forall (λ e, entry_ok chainID vals commit e = true) es →
    zsum (entry_power vals (λ _, true)) es =
    power_where (Validators vals) (λ j, existsb (λ e : entry, bool_decide (e_pos e = j)) es)) as Hp.
  { intros es Hnd Hok. rewrite entry_power_counted; [|done|].
    - apply power_where_ext. intros j _. apply eq_true_iff_eq. unfold counted. rewrite !existsb_exists.
      by setoid_rewrite andb_true_r.
    - rewrite Forall_forall in Hok. intros e He. specialize (Hok e He). unfold entry_ok in Hok.
      by destruct (Validators vals !! e.1.2). }
  split; intros (es & Hpre & Hall & Hnd & Hok & Hgt); exists es; split_and!; try done; by rewrite Hp in * by done.
Qed.

(** If two commits for different blocks of the same height and round are
    both accepted, even by the light check, then validators with more than a
    third of the power have each signed two precommits of that height and
    round for different blocks. *)
Theorem conflicting_commits_double_sign `{StdTime, BatchLaws} chainID vals b1 b2 height c1 c2 :
  checkable chainID vals c1 → checkable chainID vals c2 →
  VerifyCommitLight chainID (Some vals) b1 height (Some c1) = Ret None →
  VerifyCommitLight chainID (Some vals) b2 height (Some c2) = Ret None →
  commit_Round c1 = commit_Round c2 → b1 ≠ b2 →
  power_sum (Validators vals) <
    3 * power_where (Validators vals) (λ j, signed_block chainID vals c1 j && signed_block chainID vals c2 j) ∧
  ∀ j, signed_block chainID vals c1 j && signed_block chainID vals c2 j = true →
    ∃ v pk v1 v2 bz1 bz2, Validators vals !! j = Some v ∧ PubKey_ v = Some pk ∧
      vote_Type v1 = PrecommitType ∧ vote_Type v2 = PrecommitType ∧ vote_Height v1 = vote_Height v2 ∧
      vote_Round v1 = vote_Round v2 ∧ vote_BlockID v1 = b1 ∧ vote_BlockID v2 = b2 ∧
      VoteSignBytes chainID v1 = Ret bz1 ∧ VoteSignBytes chainID v2 = Ret bz2 ∧
      verify_signature pk bz1 (vote_Signature v1) = true ∧ verify_signature pk bz2 (vote_Signature v2) = true.
Proof.
  intros Hck1 Hck2 Hv1 Hv2 Hr Hne.
  destruct (quorum_signed _ _ _ _ _ Hck1 Hv1) as ((Hl1 & Hh1 & Hb1) & Hq1).
  destruct (quorum_signed _ _ _ _ _ Hck2 Hv2) as ((Hl2 & Hh2 & Hb2) & Hq2).
  pose proof (ck_size _ _ _ Hck1) as Hsz.
  split; [by apply quorum_intersection; [apply (ck_vals _ _ _ Hck1)|..]|].
  intros j [Hs1 Hs2]%andb_true_iff. apply signed_block_inv in Hs1 as (v & pk & cs1 & bz1 & Hv & Hpk & Hcs1 & Hbz1 & Hok1); [|lia].
  apply signed_block_inv in Hs2 as (v' & pk' & cs2 & bz2 & Hv' & Hpk' & Hcs2 & Hbz2 & Hok2); [|lia].
  rewrite Hv in Hv'. injection Hv' as <-. rewrite Hpk in Hpk'. injection Hpk' as <-.
  eexists v, pk, _, _, bz1, bz2. split_and!; [done|done| | | | | | |exact Hbz1|exact Hbz2|exact Hok1|exact Hok2]; cbn; congruence.
Qed.

(** [VerifyCommit] does not bind the addresses in a commit: replacing
    those of all present signatures by arbitrary addresses of the right size
    does not change whether the commit is accepted. *)
Theorem VerifyCommit_ignores_addresses `{StdTime, BatchLaws} chainID vals blockID height commit f :
  (∀ i, len (f i) = AddressSize) → checkable chainID vals commit →
  (VerifyCommit chainID (Some vals) blockID height (Some (readdress f commit)) = Ret None ↔
   VerifyCommit chainID (Some vals) blockID height (Some commit) = Ret None).
Proof.
  intros Hf Hck. destruct (VerifyCommit_iff chainID vals blockID height commit Hck) as (r & -> & Hiff).
  destruct (VerifyCommit_iff chainID vals blockID height _ (readdress_checkable f chainID vals commit Hf Hck)) as (r' & -> & Hiff').
  assert (r' = None ↔ r = None) as Hrr; [|split; intros ?%(inj Ret); f_equal; tauto].
  rewrite Hiff, Hiff', readdress_verifies.
  rewrite (power_where_ext _ (for_block (readdress f commit)) (for_block commit)) by (intros; apply readdress_for_block).
  unfold matches, len. simpl. by rewrite length_imap.
Qed.

(** C28: a precommit set with a majority for a complete block makes an
    extended commit without panicking, and [VerifyCommit] accepts the commit
    in it against the validators of the set. *)
Theorem MakeExtendedCommit_verifies `{StdTime, BatchLaws} vs b :
  reachable vs → TwoThirdsMajority (Some vs) = (b, true) → BlockID_IsComplete b = true →
  signedMsgType vs = PrecommitType → len (Validators (valSet vs)) ≤ MaxInt32 → keys_ok (valSet vs) →
  (∀ i v, votes vs !! i = Some (Some v) → Vote_ValidateBasic v = None) →
  ∃ ec, MakeExtendedCommit vs (extensionsEnabled vs) = Ret ec ∧
    VerifyCommit (chainID vs) (Some (valSet vs)) b (height vs) (Some (ToCommit ec)) = Ret None.
Proof.
  intros Hreach Hm Hb Hty Hsz Hk Hbasic. pose proof (reachable_ok vs Hreach) as Hok.
  assert (maj23 vs = Some b) as Hmaj by (simpl in Hm; destruct (maj23 vs); by simplify_eq).
  destruct (MakeExtendedCommit_spec vs b Hok Hmaj Hty Hbasic) as (ec & Hec & Hto). exists ec. split; [done|]. rewrite Hto.
  destruct (VerifyCommit_iff (chainID vs) (valSet vs) b (height vs) _ (made_checkable vs b Hok Hty Hsz Hbasic Hk))
    as (r & -> & Hiff). f_equal. apply Hiff. by apply made_accepted.
Qed.

(** ** Witnesses *)

Definition toy_batch : BatchCrypto := {|
  batch_add := λ _ _ _ _, true;
  batch_verify := λ l, (forallb (λ '(pk, msg, sig), @verify_signature toy_crypto pk msg sig) l,
                        (λ '(pk, msg, sig), @verify_signature toy_crypto pk msg sig) <$> l) |}.

Lemma toy_batch_laws : @BatchLaws toy_crypto toy_batch.
Proof. by split. Qed.

(** Three validators with keys of a type the batch verifier knows. *)
Definition ed_validator (c : byte) : Validator :=
  mkValidator (replicate 20 c) (Some (mkPubKey "ed25519" (replicate 20 c))) 1 0.
Definition ed_vals : ValidatorSet :=
  mkValidatorSet [ed_validator x01; ed_validator x02; ed_validator x03] None 0 true.
Definition ed_sig (c : byte) : CommitSig := mkCommitSig BlockIDFlagCommit (replicate 20 c) (mkTime 1700000000 7) (replicate 20 c).
Definition ed_commit (c : byte) : Commit := mkCommit 5 0 (example_id c) [ed_sig x01; ed_sig x02; ed_sig x03].

Lemma ed_vals_valid : valid_set ed_vals.
Proof.
  split; [done| |by left].
  split; [apply (bool_decide_unpack _); vm_compute; exact I|repeat constructor|by vm_compute|repeat constructor; by vm_compute].
Qed.

Lemma ed_of_type : of_type ed_vals "ed25519".
Proof. by intros v pk [->|[->|[->|[]%not_elem_of_nil]%elem_of_cons]%elem_of_cons]%elem_of_cons [= <-]. Qed.

Lemma ed_checkable c : @checkable example_time [x61] ed_vals (ed_commit c).
Proof.
  split; [apply valid_tallied, ed_vals_valid|split; [done|intros _; exists "ed25519"%string; apply ed_of_type]|by vm_compute|].
  intros [|[|[|i]]] cs Hcs _; [..|done]; injection Hcs as <-; (split; [reflexivity|]); eexists; vm_compute; reflexivity.
Qed.

Lemma VerifyCommit_exact_witness :
  ∃ r, @VerifyCommit example_time toy_crypto toy_batch [x61] (Some ed_vals) (example_id x0a) 5 (Some (ed_commit x0a)) = Ret r ∧ r = None.
Proof.
  destruct (@VerifyCommit_exact example_time toy_crypto toy_batch toy_batch_laws [x61] ed_vals (example_id x0a) 5
    (ed_commit x0a) (ed_checkable x0a)) as (r & Hr & _).
  exists r. split; [exact Hr|]. vm_compute in Hr. by injection Hr as <-.
Defined.

Lemma verifyCommitBatch_equivalent_witness :
  ∃ r s, @verifyCommitBatch example_time toy_batch [x61] ed_vals (ed_commit x0a) 2 is_absent is_commit true true = Ret r ∧
    @verifyCommitSingle example_time toy_crypto [x61] ed_vals (ed_commit x0a) 2 is_absent is_commit true true = Ret s ∧
    (r = None ↔ s = None).
Proof.
  apply (@verifyCommitBatch_equivalent example_time toy_crypto toy_batch toy_batch_laws [x61] ed_vals (ed_commit x0a) 2
    is_absent is_commit true true (mkPubKey "ed25519" (replicate 20 x01)));
    [apply (ed_checkable x0a)|by vm_compute|lia|by vm_compute|by vm_compute|apply ed_of_type|by vm_compute].
Defined.

Lemma VerifyCommitLight_sound_witness :
  2 * power_sum (Validators ed_vals) <
  3 * power_where (Validators ed_vals) (@signed_block example_time toy_crypto [x61] ed_vals (ed_commit x0a)).
Proof.
  apply (proj2 (@VerifyCommitLight_sound example_time toy_crypto toy_batch toy_batch_laws [x61] ed_vals (example_id x0a) 5
    (ed_commit x0a) (ed_checkable x0a))). vm_compute. reflexivity.
Defined.

Lemma VerifyCommitLightTrusting_exact_witness :
  ∃ r, @verifyCommitLightTrustingInternal example_time toy_crypto toy_batch [x61] (Some ed_vals) (Some (ed_commit x0a))
         (mkFraction 1 3) false = Ret r ∧ r = None.
Proof.
  destruct (@VerifyCommitLightTrusting_exact example_time toy_crypto toy_batch toy_batch_laws [x61] ed_vals (ed_commit x0a)
    (mkFraction 1 3) false (ed_checkable x0a)) as (r & Hr & _); [by vm_compute..|].
  exists r. split; [exact Hr|]. vm_compute in Hr. by injection Hr as <-.
Defined.

Lemma conflicting_commits_double_sign_witness :
  power_sum (Validators ed_vals) <
    3 * power_where (Validators ed_vals) (λ j, @signed_block example_time toy_crypto [x61] ed_vals (ed_commit x0a) j &&
                                               @signed_block example_time toy_crypto [x61] ed_vals (ed_commit x0b) j).
Proof.
  apply (@conflicting_commits_double_sign example_time toy_crypto toy_batch toy_batch_laws [x61] ed_vals
    (example_id x0a) (example_id x0b) 5 (ed_commit x0a) (ed_commit x0b) (ed_checkable x0a) (ed_checkable x0b));
    [vm_compute; reflexivity..|vm_compute; discriminate].
Defined.

Lemma VerifyCommit_ignores_addresses_witness :
  @VerifyCommit example_time toy_crypto toy_batch [x61] (Some ed_vals) (example_id x0a) 5
    (Some (readdress (λ _, replicate 20 xff) (ed_commit x0a))) = Ret None.
Proof.
  apply (@VerifyCommit_ignores_addresses example_time toy_crypto toy_batch toy_batch_laws [x61] ed_vals (example_id x0a) 5
    (ed_commit x0a) (λ _, replicate 20 xff)); [reflexivity|apply ed_checkable|vm_compute; reflexivity].
Defined.

Lemma toy_vals_keys : keys_ok toy_vals.
Proof.
  split; [done|]. intros _. exists "toy"%string.
  by intros v pk [->|[->|[->|[]%not_elem_of_nil]%elem_of_cons]%elem_of_cons]%elem_of_cons [= <-].
Qed.

Definition toy_precommits : VoteSet := toy_full PrecommitType (example_id x0a).

Lemma MakeExtendedCommit_verifies_witness :
  ∃ ec, MakeExtendedCommit toy_precommits (extensionsEnabled toy_precommits) = Ret ec ∧
    @VerifyCommit example_time toy_crypto toy_batch (chainID toy_precommits) (Some (valSet toy_precommits)) (example_id x0a)
      (height toy_precommits) (Some (ToCommit ec)) = Ret None.
Proof.
  apply (@MakeExtendedCommit_verifies example_time toy_crypto toy_batch toy_batch_laws toy_precommits (example_id x0a) toy_full_A);
    [by vm_compute..| |].
  - replace (valSet toy_precommits) with (with_total toy_vals 3) by (vm_compute; reflexivity).
    destruct toy_vals_keys as [Hp Hf]. by split.
  - intros i v Hv. apply list_elem_of_lookup_2 in Hv. revert v Hv. vm_compute. intros v Hv.
    repeat (apply elem_of_cons in Hv as [Hv|Hv]; [injection Hv as ->; reflexivity|]). by apply not_elem_of_nil in Hv.
Defined.
