(* ===== verification/HeightVoteSet.v ===== *)
(** * The vote sets of a height

    Models [src/hetu-cometbft/consensus/types/height_vote_set.go]: the prevote
    and precommit sets of every round of a height, with the catch-up rounds
    peers may open.  The sets share the validators by value here; in the code
    they share a pointer, through which only the cached total is written. *)
From S2P Require Import Prelude.
From S2P Require Import BitArray.
From S2P Require Import SafeMath.
From S2P Require Import Vote.
From S2P Require Import Validator.
From S2P Require Import SignBytes.
From S2P Require Import ValidatorSet.
From S2P Require Import ValidatorSetPriority.
From S2P Require Import ValidatorSetUpdate.
From S2P Require Import VoteSet.
From S2P Require Import VoteSetInv.
From S2P Require Import VoteSetSafety.

Record RoundVoteSet := mkRoundVoteSet { Prevotes_ : VoteSet; Precommits_ : VoteSet }.

Record HeightVoteSet := mkHeightVoteSet {
  hvs_chainID : bytes;
  hvs_height : Z;
  hvs_valSet : ValidatorSet;
  hvs_extensionsEnabled : bool;
  hvs_round : Z;
  roundVoteSets : gmap Z RoundVoteSet;
  peerCatchupRounds : gmap bytes (list Z);
}.

Definition with_rounds (hvs : HeightVoteSet) (m : gmap Z RoundVoteSet) : HeightVoteSet :=
  mkHeightVoteSet (hvs_chainID hvs) (hvs_height hvs) (hvs_valSet hvs) (hvs_extensionsEnabled hvs) (hvs_round hvs) m
    (peerCatchupRounds hvs).
Definition with_round (hvs : HeightVoteSet) (r : Z) : HeightVoteSet :=
  mkHeightVoteSet (hvs_chainID hvs) (hvs_height hvs) (hvs_valSet hvs) (hvs_extensionsEnabled hvs) r (roundVoteSets hvs)
    (peerCatchupRounds hvs).
Definition with_catchup (hvs : HeightVoteSet) (m : gmap bytes (list Z)) : HeightVoteSet :=
  mkHeightVoteSet (hvs_chainID hvs) (hvs_height hvs) (hvs_valSet hvs) (hvs_extensionsEnabled hvs) (hvs_round hvs)
    (roundVoteSets hvs) m.

Definition addRound (hvs : HeightVoteSet) (round : Z) : outcome HeightVoteSet :=
  if bool_decide (is_Some (roundVoteSets hvs !! round)) then Panic "addRound() for an existing round"
  else
    prevotes ← NewVoteSet (hvs_chainID hvs) (hvs_height hvs) round PrevoteType (hvs_valSet hvs);
    precommits ← (if hvs_extensionsEnabled hvs
                  then NewExtendedVoteSet (hvs_chainID hvs) (hvs_height hvs) round PrecommitType (hvs_valSet hvs)
                  else NewVoteSet (hvs_chainID hvs) (hvs_height hvs) round PrecommitType (hvs_valSet hvs));
    Ret (with_rounds hvs (<[round := mkRoundVoteSet prevotes precommits]> (roundVoteSets hvs))).

Definition Reset (hvs : HeightVoteSet) (height : Z) (valSet : ValidatorSet) : outcome HeightVoteSet :=
  hvs ← addRound (mkHeightVoteSet (hvs_chainID hvs) height valSet (hvs_extensionsEnabled hvs) (hvs_round hvs) ∅ ∅) 0;
  Ret (with_round hvs 0).

Definition NewHeightVoteSet (chainID : bytes) (height : Z) (valSet : ValidatorSet) : outcome HeightVoteSet :=
  Reset (mkHeightVoteSet chainID 0 valSet false 0 ∅ ∅) height valSet.
Definition NewExtendedHeightVoteSet (chainID : bytes) (height : Z) (valSet : ValidatorSet) : outcome HeightVoteSet :=
  Reset (mkHeightVoteSet chainID 0 valSet true 0 ∅ ∅) height valSet.

(** The loop variable is an [int32]: at its maximum the loop would not end. *)
Definition SetRound (hvs : HeightVoteSet) (round : Z) : outcome HeightVoteSet :=
  newRound ← SafeSubInt32 (hvs_round hvs) 1;
  if negb (hvs_round hvs =? 0) && (round <? newRound) then Panic "SetRound() must increment hvs.round"
  else if round =? MaxInt32 then Panic "out of memory"
  else
    hvs ← for_each (λ r hvs, if bool_decide (is_Some (roundVoteSets hvs !! r)) then Ret hvs else addRound hvs r)
            (seqZ newRound (round - newRound + 1)) hvs;
    Ret (with_round hvs round).

Definition getVoteSet (hvs : HeightVoteSet) (round voteType : Z) : outcome (option VoteSet) :=
  match roundVoteSets hvs !! round with
  | None => Ret None
  | Some rvs =>
      if voteType =? PrevoteType then Ret (Some (Prevotes_ rvs))
      else if voteType =? PrecommitType then Ret (Some (Precommits_ rvs))
      else Panic "Unexpected vote type"
  end.

(** The write through the pointer [getVoteSet] returned. *)
Definition set_voteSet (hvs : HeightVoteSet) (round voteType : Z) (vs : VoteSet) : HeightVoteSet :=
  match roundVoteSets hvs !! round with
  | None => hvs
  | Some rvs => with_rounds hvs (<[round := if voteType =? PrevoteType then mkRoundVoteSet vs (Precommits_ rvs)
                                            else mkRoundVoteSet (Prevotes_ rvs) vs]> (roundVoteSets hvs))
  end.

Inductive hvs_error :=
| ErrGotVoteFromUnwantedRound
| ErrAddVote (e : add_error).

Definition add_to_set `{StdTime, Crypto} (hvs : HeightVoteSet) (vs : VoteSet) (vote : Vote)
    : outcome (HeightVoteSet * bool * option hvs_error) :=
  '(vs', added, err) ← addVote vs (Some vote);
  Ret (set_voteSet hvs (vote_Round vote) (vote_Type vote) vs', added, option_map ErrAddVote err).

Definition AddVote `{StdTime, Crypto} (hvs : HeightVoteSet) (vote : Vote) (peerID : bytes) (extEnabled : bool)
    : outcome (HeightVoteSet * bool * option hvs_error) :=
  if negb (Bool.eqb (hvs_extensionsEnabled hvs) extEnabled)
  then Panic "extensions enabled general param does not match the one in HeightVoteSet"
  else if negb (IsVoteTypeValid (vote_Type vote)) then Ret (hvs, false, None)
  else
    voteSet ← getVoteSet hvs (vote_Round vote) (vote_Type vote);
    match voteSet with
    | Some vs => add_to_set hvs vs vote
    | None =>
        let rndz := default [] (peerCatchupRounds hvs !! peerID) in
        if len rndz <? 2 then
          hvs ← addRound hvs (vote_Round vote);
          voteSet ← getVoteSet hvs (vote_Round vote) (vote_Type vote);
          let hvs := with_catchup hvs (<[peerID := rndz ++ [vote_Round vote]]> (peerCatchupRounds hvs)) in
          match voteSet with
          | None => Panic "AddVote() on nil VoteSet"
          | Some vs => add_to_set hvs vs vote
          end
        else Ret (hvs, false, Some ErrGotVoteFromUnwantedRound)
    end.

Definition Prevotes (hvs : HeightVoteSet) (round : Z) : outcome (option VoteSet) := getVoteSet hvs round PrevoteType.
Definition Precommits (hvs : HeightVoteSet) (round : Z) : outcome (option VoteSet) := getVoteSet hvs round PrecommitType.

(** [pol_from n]: the rounds [n-1] down to 0. *)
Fixpoint pol_from (hvs : HeightVoteSet) (n : nat) : outcome (Z * BlockID) :=
  match n with
  | O => Ret (-1, nilBlockID)
  | S n =>
      rvs ← getVoteSet hvs (Z.of_nat n) PrevoteType;
      let '(polBlockID, ok) := TwoThirdsMajority rvs in
      if ok : bool then Ret (Z.of_nat n, polBlockID) else pol_from hvs n
  end.

Definition POLInfo (hvs : HeightVoteSet) : outcome (Z * BlockID) := pol_from hvs (Z.to_nat (hvs_round hvs + 1)).

(** The error is true for a wrong type or a peer that contradicts itself. *)
Definition hvs_SetPeerMaj23 (hvs : HeightVoteSet) (round voteType : Z) (peerID : bytes) (blockID : BlockID)
    : outcome (HeightVoteSet * bool) :=
  if negb (IsVoteTypeValid voteType) then Ret (hvs, true)
  else
    voteSet ← getVoteSet hvs round voteType;
    match voteSet with
    | None => Ret (hvs, false)
    | Some vs => let '(vs', e) := SetPeerMaj23 vs peerID blockID in Ret (set_voteSet hvs round voteType vs', e)
    end.

(** ** Reachable states *)

Section reachable.
Context `{StdTime, Crypto}.

Inductive hreachable : HeightVoteSet → Prop :=
| hr_new cid h vals hvs :
    valid_set vals → keyed (Validators vals) → NewHeightVoteSet cid h vals = Ret hvs → hreachable hvs
| hr_new_extended cid h vals hvs :
    valid_set vals → keyed (Validators vals) → NewExtendedHeightVoteSet cid h vals = Ret hvs → hreachable hvs
| hr_round hvs r hvs' : hreachable hvs → hvs_round hvs ≤ r ≤ MaxInt32 → SetRound hvs r = Ret hvs' → hreachable hvs'
| hr_add hvs vote peer ext hvs' added err :
    hreachable hvs → good_id (vote_BlockID vote) → (∃ bz, VoteSignBytes (hvs_chainID hvs) vote = Ret bz) →
    AddVote hvs vote peer ext = Ret (hvs', added, err) → hreachable hvs'
| hr_peer hvs r ty peer b hvs' e : hreachable hvs → hvs_SetPeerMaj23 hvs r ty peer b = Ret (hvs', e) → hreachable hvs'.

(** The set of one step of this height. *)
Definition set_at (hvs : HeightVoteSet) (r ty : Z) (ext : bool) (vs : VoteSet) : Prop :=
  reachable vs ∧
  config vs = (hvs_chainID hvs, hvs_height hvs, r, ty, ext, Validators (hvs_valSet hvs)).

Record hvs_ok (hvs : HeightVoteSet) : Prop := {
  ho_vals : valid_set (hvs_valSet hvs);
  ho_keyed : keyed (Validators (hvs_valSet hvs));
  ho_height : hvs_height hvs ≠ 0;
  ho_range : 0 ≤ hvs_round hvs < MaxInt32;
  ho_sets : ∀ r rvs, roundVoteSets hvs !! r = Some rvs →
    set_at hvs r PrevoteType false (Prevotes_ rvs) ∧ set_at hvs r PrecommitType (hvs_extensionsEnabled hvs) (Precommits_ rvs);
  ho_rounds : ∀ r, 0 ≤ r ≤ hvs_round hvs → is_Some (roundVoteSets hvs !! r);
  ho_known : ∀ r, is_Some (roundVoteSets hvs !! r) →
    -1 ≤ r ≤ hvs_round hvs ∨ ∃ peer rs, peerCatchupRounds hvs !! peer = Some rs ∧ r ∈ rs;
  ho_catchup : ∀ peer rs, peerCatchupRounds hvs !! peer = Some rs → (length rs ≤ 2)%nat;
}.

Lemma set_at_same hvs hvs' r ty ext vs :
  hvs_chainID hvs = hvs_chainID hvs' → hvs_height hvs = hvs_height hvs' → hvs_valSet hvs = hvs_valSet hvs' →
  set_at hvs r ty ext vs → set_at hvs' r ty ext vs.
Proof. unfold set_at. by intros -> -> ->. Qed.

Lemma NewVoteSet_at hvs r ty :
  valid_set (hvs_valSet hvs) → keyed (Validators (hvs_valSet hvs)) → hvs_height hvs ≠ 0 →
  (∃ vs, NewVoteSet (hvs_chainID hvs) (hvs_height hvs) r ty (hvs_valSet hvs) = Ret vs ∧ set_at hvs r ty false vs) ∧
  (∃ vs, NewExtendedVoteSet (hvs_chainID hvs) (hvs_height hvs) r ty (hvs_valSet hvs) = Ret vs ∧ set_at hvs r ty true vs).
Proof.
  intros Hv Hk Hh.
  assert (∃ vs, NewVoteSet (hvs_chainID hvs) (hvs_height hvs) r ty (hvs_valSet hvs) = Ret vs ∧
    config vs = (hvs_chainID hvs, hvs_height hvs, r, ty, false, Validators (hvs_valSet hvs))) as (vs & Hvs & Hc).
  { unfold NewVoteSet. destruct (Z.eqb_spec (hvs_height hvs) 0); [done|]. eexists. split; reflexivity. }
  split.
  - exists vs. split; [done|]. split; [|done]. by eapply reach_new.
  - destruct (NewExtendedVoteSet (hvs_chainID hvs) (hvs_height hvs) r ty (hvs_valSet hvs)) as [vs'|] eqn:He.
    + exists vs'. split; [done|]. split; [by eapply reach_new_extended|].
      unfold NewExtendedVoteSet in He. rewrite Hvs in He. cbn in He. apply (inj Ret) in He as <-. reflexivity.
    + unfold NewExtendedVoteSet in He. by rewrite Hvs in He.
Qed.

(** What the operations never change. *)
Definition same_height (hvs hvs' : HeightVoteSet) : Prop :=
  hvs_chainID hvs' = hvs_chainID hvs ∧ hvs_height hvs' = hvs_height hvs ∧ hvs_valSet hvs' = hvs_valSet hvs ∧
  hvs_extensionsEnabled hvs' = hvs_extensionsEnabled hvs.

(** The well-formed part of a map of rounds. *)
Definition sets_ok (hvs : HeightVoteSet) : Prop := ∀ r rvs, roundVoteSets hvs !! r = Some rvs →
  set_at hvs r PrevoteType false (Prevotes_ rvs) ∧ set_at hvs r PrecommitType (hvs_extensionsEnabled hvs) (Precommits_ rvs).

(** A fresh set of the height. *)
Definition new_set (hvs : HeightVoteSet) (r ty : Z) : outcome VoteSet :=
  if hvs_extensionsEnabled hvs && (ty =? PrecommitType)
  then NewExtendedVoteSet (hvs_chainID hvs) (hvs_height hvs) r ty (hvs_valSet hvs)
  else NewVoteSet (hvs_chainID hvs) (hvs_height hvs) r ty (hvs_valSet hvs).

Definition fresh (hvs : HeightVoteSet) (r : Z) (rvs : RoundVoteSet) : Prop :=
  new_set hvs r PrevoteType = Ret (Prevotes_ rvs) ∧ new_set hvs r PrecommitType = Ret (Precommits_ rvs).

Lemma addRound_spec hvs r :
  valid_set (hvs_valSet hvs) → keyed (Validators (hvs_valSet hvs)) → hvs_height hvs ≠ 0 → sets_ok hvs →
  roundVoteSets hvs !! r = None →
  ∃ rvs, addRound hvs r = Ret (with_rounds hvs (<[r := rvs]> (roundVoteSets hvs))) ∧
    sets_ok (with_rounds hvs (<[r := rvs]> (roundVoteSets hvs))) ∧ fresh hvs r rvs.
Proof.
  intros Hv Hk Hh Hs Hr. unfold addRound. rewrite bool_decide_eq_false_2 by (rewrite Hr; by intros [? ?]).
  destruct (NewVoteSet_at hvs r PrevoteType Hv Hk Hh) as [(pv & Hpv0 & Hpv) _]. rewrite Hpv0.
  destruct (NewVoteSet_at hvs r PrecommitType Hv Hk Hh) as [(pc & Hpc & Hpca) (pe & Hpe & Hpea)]. cbn [mbind outcome_bind].
  unfold fresh, new_set. cbn [Z.eqb PrevoteType PrecommitType Pos.eqb]. rewrite andb_false_r, andb_true_r.
  fold PrevoteType PrecommitType. rewrite Hpv0.
  destruct (hvs_extensionsEnabled hvs) eqn:He; [rewrite Hpe|rewrite Hpc]; cbn [mbind outcome_bind]; eexists;
    (split; [done|]); (split; [|by split]);
    intros r' rvs' Hr'; cbn [roundVoteSets with_rounds] in Hr'; (destruct (decide (r' = r)) as [->|Hne];
      [rewrite lookup_insert_eq in Hr'; injection Hr' as <-; cbn [hvs_extensionsEnabled with_rounds]; rewrite He; split; done
      |rewrite lookup_insert_ne in Hr' by done; exact (Hs r' rvs' Hr')]).
Qed.

(** The loop of [SetRound]. *)
Lemma set_round_loop hvs l :
  valid_set (hvs_valSet hvs) → keyed (Validators (hvs_valSet hvs)) → hvs_height hvs ≠ 0 → sets_ok hvs →
  ∃ m, for_each (λ r hvs, if bool_decide (is_Some (roundVoteSets hvs !! r)) then Ret hvs else addRound hvs r) l hvs
         = Ret (with_rounds hvs m) ∧ sets_ok (with_rounds hvs m) ∧
       (∀ r, is_Some (m !! r) ↔ is_Some (roundVoteSets hvs !! r) ∨ r ∈ l) ∧
       (∀ r rvs, roundVoteSets hvs !! r = Some rvs → m !! r = Some rvs).
Proof.
  intros Hv Hk Hh Hs. revert hvs Hv Hk Hh Hs. induction l as [|r l IH]; intros hvs Hv Hk Hh Hs; simpl.
  { exists (roundVoteSets hvs). split_and!; [by destruct hvs|done| |done]. intros r.
    split; [by left|by intros [?|?%not_elem_of_nil]]. }
  case_bool_decide as Hr.
  - destruct (IH hvs Hv Hk Hh Hs) as (m & Hm & Hsm & Hdom & Hsub). exists m. split_and!; [done|done| |done].
    intros r'. rewrite Hdom, elem_of_cons. split; [tauto|]. intros [?|[->|?]]; tauto.
  - destruct (addRound_spec hvs r Hv Hk Hh Hs) as (rvs & -> & Hs' & _). { apply eq_None_not_Some. done. }
    destruct (IH (with_rounds hvs (<[r := rvs]> (roundVoteSets hvs))) Hv Hk Hh Hs') as (m & Hm & Hsm & Hdom & Hsub). exists m. cbn [mbind outcome_bind]. split_and!; [done|done| |].
    + intros r'. rewrite Hdom, elem_of_cons. cbn [roundVoteSets with_rounds].
      destruct (decide (r' = r)) as [->|Hne]; [rewrite lookup_insert_eq; by split; [right; left|left; eexists]|].
      rewrite lookup_insert_ne by done. tauto.
    + intros r' rvs' Hr'. apply Hsub. cbn [roundVoteSets with_rounds]. rewrite lookup_insert_ne; [done|].
      intros ->. apply Hr. by eexists.
Qed.

Lemma SetRound_spec hvs r :
  hvs_ok hvs → hvs_round hvs ≤ r < MaxInt32 →
  ∃ hvs', SetRound hvs r = Ret hvs' ∧ hvs_ok hvs' ∧ same_height hvs hvs' ∧ hvs_round hvs' = r ∧
    peerCatchupRounds hvs' = peerCatchupRounds hvs ∧
    (∀ k rvs, roundVoteSets hvs !! k = Some rvs → roundVoteSets hvs' !! k = Some rvs) ∧
    (∀ k, is_Some (roundVoteSets hvs' !! k) ↔ is_Some (roundVoteSets hvs !! k) ∨ hvs_round hvs - 1 ≤ k ≤ r).
Proof.
  intros Hok Hr. pose proof Hok as [Hv Hk Hh Hrg Hs Hrs Hkn Hca]. unfold SetRound.
  assert (SafeSubInt32 (hvs_round hvs) 1 = Ret (hvs_round hvs - 1)) as ->.
  { unfold SafeSubInt32. rewrite (int32_id (MinInt32 + 1)), (int32_id (hvs_round hvs - 1)) by ulia.
    destruct (Z.ltb_spec (hvs_round hvs) (MinInt32 + 1)); [ulia|done]. }
  cbn [mbind outcome_bind]. destruct (Z.ltb_spec r (hvs_round hvs - 1)); [lia|]. rewrite andb_false_r.
  destruct (Z.eqb_spec r MaxInt32); [lia|].
  destruct (set_round_loop hvs (seqZ (hvs_round hvs - 1) (r - (hvs_round hvs - 1) + 1)) Hv Hk Hh Hs)
    as (m & -> & Hsm & Hdom & Hsub).
  cbn [mbind outcome_bind]. assert (∀ k, k ∈ seqZ (hvs_round hvs - 1) (r - (hvs_round hvs - 1) + 1) ↔ hvs_round hvs - 1 ≤ k ≤ r) as Hseq.
  { intros k. rewrite elem_of_seqZ. lia. }
  eexists. split; [done|]. split_and!; [|by split_and!|done|done|done|].
  - split; cbn; [done|done|done|lia|exact Hsm| | |done].
    + intros k Hkr. apply Hdom. destruct (Z.le_gt_cases k (hvs_round hvs)); [left; apply Hrs; lia|right; apply Hseq; lia].
    + intros k [Hk'|Hk'%Hseq]%Hdom; [|left; lia]. destruct (Hkn k Hk') as [?|?]; [left; lia|by right].
  - intros k. cbn. by rewrite Hdom, Hseq.
Qed.

Lemma getVoteSet_spec hvs r ty :
  hvs_ok hvs → IsVoteTypeValid ty = true →
  (roundVoteSets hvs !! r = None ∧ getVoteSet hvs r ty = Ret None) ∨
  ∃ vs ext, is_Some (roundVoteSets hvs !! r) ∧ getVoteSet hvs r ty = Ret (Some vs) ∧ set_at hvs r ty ext vs ∧
    (∀ vs', set_at hvs r ty ext vs' → hvs_ok (set_voteSet hvs r ty vs')) ∧
    (∀ vs', getVoteSet (set_voteSet hvs r ty vs') r ty = Ret (Some vs')) ∧
    (∀ vs' r' ty', (r' ≠ r ∨ ty' ≠ ty) → getVoteSet (set_voteSet hvs r ty vs') r' ty' = getVoteSet hvs r' ty').
Proof.
  intros Hok Hty. unfold getVoteSet, set_voteSet. destruct (roundVoteSets hvs !! r) as [rvs|] eqn:Hr; [right|by left].
  pose proof Hok as [Hv Hk Hh Hrg Hs Hrs Hkn Hca]. destruct (Hs r rvs Hr) as [Hpv Hpc].
  assert (∀ rvs', set_at hvs r PrevoteType false (Prevotes_ rvs') →
    set_at hvs r PrecommitType (hvs_extensionsEnabled hvs) (Precommits_ rvs') →
    hvs_ok (with_rounds hvs (<[r := rvs']> (roundVoteSets hvs)))) as Hupd.
  { intros rvs' H1' H2'.
    assert (∀ k, is_Some ((<[r := rvs']> (roundVoteSets hvs)) !! k) ↔ is_Some (roundVoteSets hvs !! k)) as Hdom.
    { intros k. destruct (decide (k = r)) as [->|]; [rewrite lookup_insert_eq, Hr; by split|by rewrite lookup_insert_ne]. }
    split; cbn; [done|done|done|done| | | |done].
    - intros k rvs0. destruct (decide (k = r)) as [->|]; [rewrite lookup_insert_eq; by intros [= <-]|].
      rewrite lookup_insert_ne by done. apply Hs.
    - intros k Hk'. by apply Hdom, Hrs.
    - intros k Hk'%Hdom. by apply Hkn. }
  assert (∀ r' rvs', r' ≠ r → (<[r := rvs']> (roundVoteSets hvs)) !! r' = roundVoteSets hvs !! r') as Hother
    by (intros; by rewrite lookup_insert_ne).
  unfold IsVoteTypeValid in Hty. apply orb_true_iff in Hty as [->%Z.eqb_eq| ->%Z.eqb_eq]; cbn [Z.eqb PrevoteType PrecommitType Pos.eqb].
  - exists (Prevotes_ rvs), false. split_and!; [by eexists|done|done|intros vs' Hvs'; by apply Hupd| |].
    + intros vs'. cbn. by rewrite lookup_insert_eq.
    + intros vs' r' ty' Hne. cbn. destruct (decide (r' = r)) as [->|]; [|by rewrite Hother].
      rewrite lookup_insert_eq, Hr. unfold PrevoteType in *. destruct (Z.eqb_spec ty' 1); [tauto|done].
  - exists (Precommits_ rvs), (hvs_extensionsEnabled hvs). split_and!; [by eexists|done|done|intros vs' Hvs'; by apply Hupd| |].
    + intros vs'. cbn. by rewrite lookup_insert_eq.
    + intros vs' r' ty' Hne. cbn. destruct (decide (r' = r)) as [->|]; [|by rewrite Hother].
      rewrite lookup_insert_eq, Hr. unfold PrevoteType, PrecommitType in *.
      destruct (Z.eqb_spec ty' 1); [done|]. destruct (Z.eqb_spec ty' 2); [tauto|done].
Qed.

(** A round opened for a peer. *)
Lemma open_round hvs r peer :
  hvs_ok hvs → roundVoteSets hvs !! r = None → (length (default [] (peerCatchupRounds hvs !! peer)) < 2)%nat →
  ∃ rvs, addRound hvs r = Ret (with_rounds hvs (<[r := rvs]> (roundVoteSets hvs))) ∧
    hvs_ok (with_catchup (with_rounds hvs (<[r := rvs]> (roundVoteSets hvs)))
              (<[peer := default [] (peerCatchupRounds hvs !! peer) ++ [r]]> (peerCatchupRounds hvs))) ∧ fresh hvs r rvs.
Proof.
  intros Hok Hr Hlen. pose proof Hok as [Hv Hk Hh Hrg Hs Hrs Hkn Hca].
  destruct (addRound_spec hvs r Hv Hk Hh Hs Hr) as (rvs & Hadd & Hs' & Hf). exists rvs. split; [done|]. split; [|done].
  split; cbn; [done|done|done|done|exact Hs'| | |].
  - intros k Hk'. destruct (decide (k = r)) as [->|]; [rewrite lookup_insert_eq; by eexists|rewrite lookup_insert_ne by done; by apply Hrs].
  - intros k Hk'. destruct (decide (k = r)) as [->|].
    { right. exists peer. eexists. rewrite lookup_insert_eq. split; [done|]. apply elem_of_app. right. by left. }
    rewrite lookup_insert_ne in Hk' by done. destruct (Hkn k Hk') as [?|(p & rs & Hp & Hin)]; [by left|right].
    destruct (decide (p = peer)) as [->|].
    + exists peer. eexists. rewrite lookup_insert_eq. split; [done|]. rewrite Hp. simpl. apply elem_of_app. by left.
    + exists p, rs. by rewrite lookup_insert_ne.
  - intros p rs. destruct (decide (p = peer)) as [->|]; [|rewrite lookup_insert_ne by done; apply Hca].
    rewrite lookup_insert_eq. intros [= <-]. rewrite length_app. simpl. lia.
Qed.

(** What a call of [AddVote] does: nothing for a type that is not a vote's;
    an error for a peer with two catch-up rounds; otherwise the vote goes to
    the set of its round and type, created if needed, and no other changes. *)
Definition vote_routed (hvs : HeightVoteSet) (vote : Vote) (peer : bytes) (hvs' : HeightVoteSet) (added : bool)
    (err : option hvs_error) : Prop :=
  ∃ vs vs' e, getVoteSet hvs' (vote_Round vote) (vote_Type vote) = Ret (Some vs') ∧
    addVote vs (Some vote) = Ret (vs', added, e) ∧ err = option_map ErrAddVote e ∧ extends vs vs' ∧
    (getVoteSet hvs (vote_Round vote) (vote_Type vote) = Ret (Some vs) ∧ peerCatchupRounds hvs' = peerCatchupRounds hvs ∨
     getVoteSet hvs (vote_Round vote) (vote_Type vote) = Ret None ∧ new_set hvs (vote_Round vote) (vote_Type vote) = Ret vs ∧
       peerCatchupRounds hvs' =
         <[peer := default [] (peerCatchupRounds hvs !! peer) ++ [vote_Round vote]]> (peerCatchupRounds hvs)) ∧
    ∀ r ty, r ≠ vote_Round vote → getVoteSet hvs' r ty = getVoteSet hvs r ty.

Lemma add_to_set_spec hvs vs ext vote :
  hvs_ok hvs → IsVoteTypeValid (vote_Type vote) = true → good_id (vote_BlockID vote) →
  (∃ bz, VoteSignBytes (hvs_chainID hvs) vote = Ret bz) →
  getVoteSet hvs (vote_Round vote) (vote_Type vote) = Ret (Some vs) → set_at hvs (vote_Round vote) (vote_Type vote) ext vs →
  (∀ vs', set_at hvs (vote_Round vote) (vote_Type vote) ext vs' → hvs_ok (set_voteSet hvs (vote_Round vote) (vote_Type vote) vs')) →
  ∃ vs' added e, add_to_set hvs vs vote = Ret (set_voteSet hvs (vote_Round vote) (vote_Type vote) vs', added, option_map ErrAddVote e) ∧
    addVote vs (Some vote) = Ret (vs', added, e) ∧ extends vs vs' ∧
    hvs_ok (set_voteSet hvs (vote_Round vote) (vote_Type vote) vs').
Proof.
  intros Hok Hty Hid [bz Hbz] Hget [Hreach Hc] Hset. pose proof (reachable_ok vs Hreach) as Hvs.
  assert (chainID vs = hvs_chainID hvs) as Hcid by (unfold config in Hc; congruence).
  assert (addable vs vote) as Ha by (split; [done|]; exists bz; by rewrite Hcid).
  destruct (addVote_spec vs vote Hvs Ha) as (vs' & added & e & Hadd & _ & Hext & _).
  exists vs', added, e. unfold add_to_set. rewrite Hadd. cbn [mbind outcome_bind]. split_and!; [done|done|done|].
  apply Hset. split; [by eapply reach_add|]. by rewrite (ex_config _ _ Hext).
Qed.

Lemma AddVote_spec hvs vote peer :
  hvs_ok hvs → good_id (vote_BlockID vote) → (∃ bz, VoteSignBytes (hvs_chainID hvs) vote = Ret bz) →
  IsVoteTypeValid (vote_Type vote) = true →
  ∃ hvs' added err, AddVote hvs vote peer (hvs_extensionsEnabled hvs) = Ret (hvs', added, err) ∧ hvs_ok hvs' ∧
    (vote_routed hvs vote peer hvs' added err ∨
     hvs' = hvs ∧ added = false ∧ err = Some ErrGotVoteFromUnwantedRound ∧
       roundVoteSets hvs !! vote_Round vote = None ∧ length (default [] (peerCatchupRounds hvs !! peer)) = 2%nat).
Proof.
  intros Hok Hid Hbz Hty. unfold AddVote. rewrite eqb_reflx, Hty. cbn [negb].
  destruct (getVoteSet_spec hvs (vote_Round vote) (vote_Type vote) Hok Hty)
    as [[Hr Hg]|(vs & ext & Hr & Hg & Hat & Hset & Hsame & Hother)]; rewrite Hg; cbn [mbind outcome_bind].
  - destruct (Z.ltb_spec (len (default [] (peerCatchupRounds hvs !! peer))) 2) as [Hlt|Hge].
    + destruct (open_round hvs (vote_Round vote) peer Hok Hr) as (rvs & -> & Hok1 & Hf); [unfold len in Hlt; lia|].
      cbn [mbind outcome_bind]. set (hvs1 := with_catchup _ _) in Hok1.
      change (getVoteSet (with_rounds hvs (<[vote_Round vote:=rvs]> (roundVoteSets hvs))) (vote_Round vote) (vote_Type vote))
        with (getVoteSet hvs1 (vote_Round vote) (vote_Type vote)).
      destruct (getVoteSet_spec hvs1 (vote_Round vote) (vote_Type vote) Hok1 Hty)
        as [[Hr1 _]|(vs & ext & Hr1 & Hg1 & Hat & Hset & Hsame & Hother)].
      { cbn in Hr1. by rewrite lookup_insert_eq in Hr1. }
      rewrite Hg1. cbn [mbind outcome_bind].
      change (with_catchup (with_rounds hvs (<[vote_Round vote:=rvs]> (roundVoteSets hvs))) _) with hvs1.
      destruct (add_to_set_spec hvs1 vs ext vote Hok1 Hty Hid Hbz Hg1 Hat Hset) as (vs' & added & e & -> & Hadd & Hext & Hok').
      do 3 eexists. split_and!; [done|done|]. left. exists vs, vs', e. split_and!; [apply Hsame|done|done|done| |].
      * right. split_and!; [done| |].
        -- unfold getVoteSet, hvs1 in Hg1. cbn in Hg1. rewrite lookup_insert_eq in Hg1. destruct Hf as [Hf1 Hf2].
           unfold IsVoteTypeValid in Hty. apply orb_true_iff in Hty as [Ht%Z.eqb_eq|Ht%Z.eqb_eq]; rewrite Ht in Hg1 |- *;
             cbn in Hg1; injection Hg1 as <-; assumption.
        -- unfold set_voteSet. by destruct (roundVoteSets hvs1 !! vote_Round vote).
      * intros r ty Hne. rewrite Hother by (by left). unfold getVoteSet, hvs1. cbn. by rewrite lookup_insert_ne.
    + do 3 eexists. split_and!; [done|done|]. right. split_and!; [done|done|done|done|].
      pose proof (ho_catchup _ Hok peer) as Hca. destruct (peerCatchupRounds hvs !! peer) as [rs|]; simpl in *; unfold len in Hge; simpl in *; [|lia].
      specialize (Hca rs eq_refl). lia.
  - destruct (add_to_set_spec hvs vs ext vote Hok Hty Hid Hbz Hg Hat Hset) as (vs' & added & e & -> & Hadd & Hext & Hok').
    do 3 eexists. split_and!; [done|done|]. left. exists vs, vs', e. split_and!; [apply Hsame|done|done|done| |].
    + left. split; [done|]. unfold set_voteSet. by destruct (roundVoteSets hvs !! vote_Round vote).
    + intros r ty Hne. apply Hother. by left.
Qed.

Lemma hvs_SetPeerMaj23_spec hvs r ty peer b :
  hvs_ok hvs → ∃ hvs' e, hvs_SetPeerMaj23 hvs r ty peer b = Ret (hvs', e) ∧ hvs_ok hvs'.
Proof.
  intros Hok. unfold hvs_SetPeerMaj23. destruct (IsVoteTypeValid ty) eqn:Hty; cbn [negb]; [|by exists hvs, true].
  destruct (getVoteSet_spec hvs r ty Hok Hty) as [[Hr Hg]|(vs & ext & Hr & Hg & [Hreach Hc] & Hset & _)]; rewrite Hg;
    cbn [mbind outcome_bind]; [by exists hvs, false|].
  destruct (SetPeerMaj23 vs peer b) as [vs' e] eqn:He. eexists _, e. split; [done|]. apply Hset.
  destruct (SetPeerMaj23_spec vs peer b vs' e (reachable_ok vs Hreach) He) as [_ Hext].
  split; [by eapply reach_peer|]. by rewrite (ex_config _ _ Hext).
Qed.

Lemma Reset_spec cid h vals ext hvs :
  valid_set vals → keyed (Validators vals) →
  Reset (mkHeightVoteSet cid 0 vals ext 0 ∅ ∅) h vals = Ret hvs → hvs_ok hvs.
Proof.
  intros Hv Hk. unfold Reset. cbn [hvs_chainID hvs_extensionsEnabled hvs_round]. set (hvs0 := mkHeightVoteSet cid h vals ext 0 ∅ ∅).
  destruct (decide (h = 0)) as [->|Hh]; [done|].
  destruct (addRound_spec hvs0 0 Hv Hk Hh) as (rvs & -> & Hs & _); [intros r rvs; cbn; by rewrite lookup_empty|by cbn; rewrite lookup_empty|].
  cbn [mbind outcome_bind]. intros <-%(inj Ret). split; cbn; [done|done|done|ulia|exact Hs| | |].
  - intros r Hr. assert (r = 0) as -> by lia. by eexists.
  - intros r Hr. left. destruct (decide (r = 0)) as [->|]; [lia|]. rewrite lookup_insert_ne, lookup_empty in Hr by done. by destruct Hr.
  - intros p rs. by rewrite lookup_empty.
Qed.

Lemma hreachable_ok hvs : hreachable hvs → hvs_ok hvs.
Proof.
  induction 1 as [cid h vals hvs Hv Hk Hn|cid h vals hvs Hv Hk Hn|hvs r hvs' _ IH Hr Hs
    |hvs vote peer ext hvs' added err _ IH Hid Hbz Ha|hvs r ty peer b hvs' e _ IH Hp].
  - by eapply (Reset_spec cid h vals false).
  - by eapply (Reset_spec cid h vals true).
  - destruct (decide (r < MaxInt32)) as [Hlt|Hge].
    + destruct (SetRound_spec hvs r IH ltac:(lia)) as (hvs1 & Hs1 & Hok & _). rewrite Hs in Hs1. by apply (inj Ret) in Hs1 as ->.
    + assert (r = MaxInt32) as -> by lia. unfold SetRound in Hs. destruct (SafeSubInt32 _ _) as [n|]; [|done].
      cbn [mbind outcome_bind] in Hs. by destruct (_ && _).
  - unfold AddVote in Ha. destruct (Bool.eqb (hvs_extensionsEnabled hvs) ext) eqn:He; [|done].
    apply eqb_prop in He as <-. destruct (IsVoteTypeValid (vote_Type vote)) eqn:Hty.
    + destruct (AddVote_spec hvs vote peer IH Hid Hbz Hty) as (hvs1 & a1 & e1 & Ha1 & Hok & _).
      unfold AddVote in Ha1. rewrite eqb_reflx, Hty in Ha1. rewrite Ha1 in Ha. by injection Ha as <- _ _.
    + cbn in Ha. by injection Ha as <- _ _.
  - destruct (hvs_SetPeerMaj23_spec hvs r ty peer b IH) as (hvs1 & e1 & Hp1 & Hok). rewrite Hp in Hp1. by injection Hp1 as <- _.
Qed.
End reachable.

(** ** Theorems *)

Lemma list_to_set_size_le (l : list Z) : (size (list_to_set l : gset Z) ≤ length l)%nat.
Proof.
  induction l as [|x l IH]; cbn [list_to_set length]; [done|].
  rewrite size_union_alt, size_singleton.
  pose proof (subseteq_size (list_to_set l ∖ {[x]} : gset Z) (list_to_set l) ltac:(set_solver)). lia.
Qed.

Lemma pol_from_spec hvs n :
  (∀ r, 0 ≤ r < Z.of_nat n → is_Some (roundVoteSets hvs !! r)) →
  ∃ r b, pol_from hvs n = Ret (r, b) ∧ -1 ≤ r < Z.of_nat n ∧
    (r = -1 ∧ b = nilBlockID ∨ ∃ rvs, roundVoteSets hvs !! r = Some rvs ∧ TwoThirdsMajority (Some (Prevotes_ rvs)) = (b, true)) ∧
    ∀ k rvs, r < k < Z.of_nat n → roundVoteSets hvs !! k = Some rvs → maj23 (Prevotes_ rvs) = None.
Proof.
  induction n as [|n IH]; intros Hall; simpl.
  { exists (-1), nilBlockID. split_and!; [done|lia|lia|by left|lia]. }
  destruct (Hall (Z.of_nat n) ltac:(lia)) as [rvs Hr]. unfold getVoteSet. rewrite Hr. cbn.
  destruct (maj23 (Prevotes_ rvs)) as [b|] eqn:Hm.
  - exists (Z.of_nat n), b. split_and!; [done|lia|lia| |lia]. right. exists rvs. split; [done|]. simpl. by rewrite Hm.
  - destruct IH as (r & b & Hp & Hrg & Hcase & Hlater); [intros; apply Hall; lia|].
    exists r, b. split_and!; [exact Hp|lia|lia|done|]. intros k rvs' Hk Hk'.
    destruct (decide (k = Z.of_nat n)) as [->|]; [rewrite Hr in Hk'; by injection Hk' as <-|apply (Hlater k); [lia|done]].
Qed.

(** On every reachable state, [AddVote] of a validated vote does not
    panic and leaves the state consistent; either the vote is passed to the
    set of exactly its round and type, opened for this peer when no one knew
    the round, and no other round changes; or the peer has used up its two
    catch-up rounds, the error says so and nothing changes. *)
Theorem AddVote_routes `{StdTime, Crypto} hvs vote peer :
  hreachable hvs → good_id (vote_BlockID vote) → (∃ bz, VoteSignBytes (hvs_chainID hvs) vote = Ret bz) →
  IsVoteTypeValid (vote_Type vote) = true →
  ∃ hvs' added err, AddVote hvs vote peer (hvs_extensionsEnabled hvs) = Ret (hvs', added, err) ∧ hvs_ok hvs' ∧
    (vote_routed hvs vote peer hvs' added err ∨
     hvs' = hvs ∧ added = false ∧ err = Some ErrGotVoteFromUnwantedRound ∧
       roundVoteSets hvs !! vote_Round vote = None ∧ length (default [] (peerCatchupRounds hvs !! peer)) = 2%nat).
Proof. intros Hr. apply AddVote_spec. by apply hreachable_ok. Qed.

(** Peers cannot make a node track unboundedly many rounds: the rounds
    from 0 to the current one are tracked, and the sets kept are at most two
    more than the current round plus two for each peer that sent a vote for
    an unknown round. *)
Theorem tracked_rounds_bounded `{StdTime, Crypto} hvs :
  hreachable hvs →
  (∀ r, 0 ≤ r ≤ hvs_round hvs → is_Some (roundVoteSets hvs !! r)) ∧
  Z.of_nat (size (roundVoteSets hvs)) ≤ hvs_round hvs + 2 + 2 * Z.of_nat (size (peerCatchupRounds hvs)).
Proof.
  intros Hr. pose proof (hreachable_ok hvs Hr) as [_ _ _ Hrg _ Hrs Hkn Hca]. split; [done|].
  set (cs := concat (map_to_list (peerCatchupRounds hvs)).*2).
  assert (dom (roundVoteSets hvs) ⊆ (list_to_set (seqZ (-1) (hvs_round hvs + 2) ++ cs) : gset Z)) as Hsub.
  { intros r Hd%elem_of_dom. rewrite elem_of_list_to_set, elem_of_app, elem_of_seqZ.
    destruct (Hkn r Hd) as [?|(p & rs & Hp & Hin)]; [left; lia|right].
    unfold cs. rewrite list_elem_of_In, in_concat. exists rs. rewrite <-!list_elem_of_In. split; [|done]. apply list_elem_of_fmap. exists (p, rs).
    split; [done|]. by apply elem_of_map_to_list. }
  pose proof (subseteq_size _ _ Hsub) as Hs. rewrite size_dom in Hs.
  pose proof (list_to_set_size_le (seqZ (-1) (hvs_round hvs + 2) ++ cs)) as Hl.
  rewrite length_app, length_seqZ in Hl.
  assert (length cs ≤ 2 * size (peerCatchupRounds hvs))%nat as Hc; [|lia].
  unfold cs. rewrite <-length_map_to_list.
  assert (Forall (λ x : bytes * list Z, length x.2 ≤ 2)%nat (map_to_list (peerCatchupRounds hvs))) as Hf.
  { apply Forall_forall. intros [p rs] Hp%elem_of_map_to_list. by apply (Hca p). }
  revert Hf. generalize (map_to_list (peerCatchupRounds hvs)). clear. intros l.
  induction 1 as [|[p rs] l Hx Hf IH]; [done|].
  rewrite fmap_cons. cbn [concat length snd] in *. rewrite length_app. lia.
Qed.

(** [POLInfo] returns the latest round up to the current one whose
    prevotes have a two-thirds majority, with its block, and -1 when there is
    none. *)
Theorem POLInfo_latest `{StdTime, Crypto} hvs :
  hreachable hvs →
  ∃ r b, POLInfo hvs = Ret (r, b) ∧ -1 ≤ r ≤ hvs_round hvs ∧
    (r = -1 ∧ b = nilBlockID ∨ ∃ rvs, roundVoteSets hvs !! r = Some rvs ∧ TwoThirdsMajority (Some (Prevotes_ rvs)) = (b, true)) ∧
    ∀ k rvs, r < k ≤ hvs_round hvs → roundVoteSets hvs !! k = Some rvs → maj23 (Prevotes_ rvs) = None.
Proof.
  intros Hr. pose proof (hreachable_ok hvs Hr) as [_ _ _ Hrg _ Hrs _ _].
  destruct (pol_from_spec hvs (Z.to_nat (hvs_round hvs + 1))) as (r & b & Hp & Hb & Hc & Hl); [intros; apply Hrs; lia|].
  exists r, b. split_and!; [exact Hp|lia|lia|done|]. intros k rvs Hk. apply Hl. lia.
Qed.

(** The first [SetRound] of a height also opens a set for round -1, a
    round that no vote can have. *)
Theorem SetRound_opens_minus_one `{StdTime, Crypto} hvs r hvs' :
  hreachable hvs → hvs_round hvs = 0 → 0 ≤ r < MaxInt32 → SetRound hvs r = Ret hvs' →
  is_Some (roundVoteSets hvs' !! (-1)).
Proof.
  intros Hr H0' Hrg Hs. pose proof (hreachable_ok hvs Hr) as Hok.
  destruct (SetRound_spec hvs r Hok ltac:(lia)) as (h1 & Hs1 & _ & _ & _ & _ & _ & Hdom).
  rewrite Hs in Hs1. apply (inj Ret) in Hs1 as ->. apply Hdom. right. lia.
Qed.

(** ** Witnesses *)

Definition toy_hvs : HeightVoteSet :=
  match NewHeightVoteSet [x61] 5 toy_vals with Ret h => h | Panic _ => mkHeightVoteSet [] 0 toy_vals false 0 ∅ ∅ end.

Lemma toy_hvs_reachable : @hreachable example_time toy_crypto toy_hvs.
Proof.
  apply (hr_new [x61] 5 toy_vals); [apply toy_vals_valid|repeat constructor; done|by vm_compute].
Qed.

Lemma AddVote_routes_witness :
  ∃ hvs' added err, @AddVote example_time toy_crypto toy_hvs (toy_vote PrevoteType 0 x01 (example_id x0a)) [x70]
    (hvs_extensionsEnabled toy_hvs) = Ret (hvs', added, err) ∧ @hvs_ok example_time toy_crypto hvs'.
Proof.
  destruct (@AddVote_routes example_time toy_crypto toy_hvs (toy_vote PrevoteType 0 x01 (example_id x0a)) [x70])
    as (hvs' & added & err & Ha & Hok & _); [apply toy_hvs_reachable|apply example_id_good|eexists; vm_compute; reflexivity|done|].
  exists hvs', added, err. split; assumption.
Defined.

Lemma tracked_rounds_bounded_witness :
  Z.of_nat (size (roundVoteSets toy_hvs)) ≤ hvs_round toy_hvs + 2 + 2 * Z.of_nat (size (peerCatchupRounds toy_hvs)).
Proof. apply (@tracked_rounds_bounded example_time toy_crypto toy_hvs toy_hvs_reachable). Defined.

Lemma POLInfo_latest_witness : ∃ r b, POLInfo toy_hvs = Ret (r, b) ∧ r = -1.
Proof.
  destruct (@POLInfo_latest example_time toy_crypto toy_hvs toy_hvs_reachable) as (r & b & Hp & _).
  exists r, b. split; [exact Hp|]. vm_compute in Hp. by injection Hp as <- _.
Defined.

Lemma SetRound_opens_minus_one_witness :
  ∃ hvs', SetRound toy_hvs 1 = Ret hvs' ∧ is_Some (roundVoteSets hvs' !! (-1)).
Proof.
  destruct (SetRound toy_hvs 1) as [hvs'|] eqn:Hs; [|vm_compute in Hs; discriminate]. exists hvs'. split; [reflexivity|].
  apply (@SetRound_opens_minus_one example_time toy_crypto toy_hvs 1 hvs' toy_hvs_reachable); [reflexivity|ulia|exact Hs].
Defined.
