(* ===== verification/Unmarshal.v ===== *)
(** * Protocol buffer decoding

    The readers the generated [Unmarshal] methods under
    [src/hetu-cometbft/proto/tendermint] are made of, and the loop over the
    fields they share.  All errors are [None].  A reader returns the bytes it
    leaves; the loop's fuel is the length of the message, enough because every
    iteration reads at least a tag. *)
From Stdlib Require Import Wf_nat.
From S2P Require Import Prelude.
From S2P Require Import Proto.

Abbreviation bval b := (Z.of_N (Byte.to_N b)).

(** The varint loops: seven bits per byte at [shift], which stays below 64;
    bits past the 64th are lost.  The signed and the 32-bit variants of the
    loop compute the truncation of the same value. *)
Fixpoint read_varint_from (shift acc : Z) (l : bytes) : option (Z * bytes) :=
  if 64 <=? shift then None
  else match l with
       | [] => None
       | b :: l =>
           let acc := Z.lor acc (uint64 (Z.shiftl (Z.land (bval b) 127) shift)) in
           if bval b <? 128 then Some (acc, l) else read_varint_from (shift + 7) acc l
       end.
Definition read_varint (l : bytes) : option (Z * bytes) := read_varint_from 0 0 l.

(** [binary.ReadUvarint] also refuses a tenth byte above 1. *)
Fixpoint read_uvarint_from (shift acc : Z) (l : bytes) : option (Z * bytes) :=
  if 64 <=? shift then None
  else match l with
       | [] => None
       | b :: l =>
           if bval b <? 128 then
             if (shift =? 63) && (1 <? bval b) then None
             else Some (Z.lor acc (uint64 (Z.shiftl (bval b) shift)), l)
           else read_uvarint_from (shift + 7) (Z.lor acc (uint64 (Z.shiftl (Z.land (bval b) 127) shift))) l
       end.
Definition read_uvarint (l : bytes) : option (Z * bytes) := read_uvarint_from 0 0 l.

(** A length and that many bytes. *)
Definition read_bytes (l : bytes) : option (bytes * bytes) :=
  '(n, l) ← read_varint l;
  let n := int64 n in
  if n <? 0 then None
  else if len l <? n then None
  else Some (take (Z.to_nat n) l, drop (Z.to_nat n) l).

(** [binary.LittleEndian.Uint64]. *)
Definition le_value (l : bytes) : Z := foldr (λ b x, bval b + 256 * x) 0 l.
Definition read_fixed64 (l : bytes) : option (Z * bytes) :=
  if len l <? 8 then None else Some (le_value (take 8 l), drop 8 l).

Definition drop_bytes (n : Z) (l : bytes) : option bytes := if len l <? n then None else Some (drop (Z.to_nat n) l).

(** [skip...]: what is left after a field of any kind, groups included. *)
Fixpoint skip_fuel (fuel : nat) (depth : Z) (l : bytes) : option bytes :=
  match fuel with
  | O => None
  | S fuel =>
      '(wire, l) ← read_varint l;
      let wireType := Z.land wire 7 in
      '(depth, l) ← (if wireType =? 0 then '(_, l) ← read_varint l; Some (depth, l)
                     else if wireType =? 1 then l ← drop_bytes 8 l; Some (depth, l)
                     else if wireType =? 2 then '(_, l) ← read_bytes l; Some (depth, l)
                     else if wireType =? 3 then Some (depth + 1, l)
                     else if wireType =? 4 then if depth =? 0 then None else Some (depth - 1, l)
                     else if wireType =? 5 then l ← drop_bytes 4 l; Some (depth, l)
                     else None);
      if depth =? 0 then Some l else skip_fuel fuel depth l
  end.
Definition skip (l : bytes) : option bytes := skip_fuel (length l) 0 l.

(** ** Messages *)

(** What the case of a field does with its wire type and the rest. *)
Definition handler (M : Type) : Type := Z → bytes → M → option (M * bytes).

Definition on_varint {M} (set : Z → M → M) : handler M := λ wireType l m,
  if negb (wireType =? 0) then None else '(x, l) ← read_varint l; Some (set x m, l).
Definition on_fixed64 {M} (set : Z → M → M) : handler M := λ wireType l m,
  if negb (wireType =? 1) then None else '(x, l) ← read_fixed64 l; Some (set x m, l).
Definition on_bytes {M} (set : bytes → M → option M) : handler M := λ wireType l m,
  if negb (wireType =? 2) then None else '(b, l) ← read_bytes l; m ← set b m; Some (m, l).

Section messages.
Context {M : Type} (field : Z → option (handler M)).

Fixpoint unmarshal_fuel (fuel : nat) (l : bytes) (m : M) : option M :=
  match l, fuel with
  | [], _ => Some m
  | _, O => None
  | _, S fuel =>
      '(wire, rest) ← read_varint l;
      let fieldNum := int32 (Z.shiftr wire 3) in
      let wireType := Z.land wire 7 in
      if wireType =? 4 then None
      else if fieldNum <=? 0 then None
      else match field fieldNum with
           | Some h => '(m, rest) ← h wireType rest m; unmarshal_fuel fuel rest m
           | None => rest ← skip l; unmarshal_fuel fuel rest m
           end
  end.

Definition unmarshal (l : bytes) (m : M) : option M := unmarshal_fuel (length l) l m.
End messages.

(** [protoio.UnmarshalDelimited]: the whole input is one prefixed message;
    what follows it is not looked at. *)
Definition undelimit (l : bytes) : option bytes :=
  '(n, rest) ← read_uvarint l;
  if (MaxInt64 <=? n) || (len l <? n) then None
  else if len rest <? n then None
  else Some (take (Z.to_nat n) rest).

(** ** Readers leave less *)

Lemma read_varint_from_shrinks shift acc l x r : read_varint_from shift acc l = Some (x, r) → (length r < length l)%nat.
Proof.
  revert shift acc. induction l as [|b l IH]; intros shift acc; simpl; destruct (64 <=? shift); try done.
  destruct (bval b <? 128); [intros [= _ <-]; lia|]. intros Hr%IH. lia.
Qed.

Lemma read_bytes_shrinks l b r : read_bytes l = Some (b, r) → (length r < length l)%nat.
Proof.
  unfold read_bytes. destruct (read_varint l) as [[n l']|] eqn:Hv; [|done]. simpl.
  apply read_varint_from_shrinks in Hv. do 2 (case_match; [done|]). intros [= _ <-]. rewrite length_drop. lia.
Qed.

Lemma skip_shrinks_fuel fuel depth l r : skip_fuel fuel depth l = Some r → (length r < length l)%nat.
Proof.
  revert depth l. induction fuel as [|fuel IH]; intros depth l; simpl; [done|].
  destruct (read_varint l) as [[w l1]|] eqn:Hv; [|done]. apply read_varint_from_shrinks in Hv. simpl.
  match goal with |- context [if Z.land w 7 =? 0 then ?A else ?B] => set (k := if Z.land w 7 =? 0 then A else B) end.
  assert (∀ d l2, k = Some (d, l2) → (length l2 ≤ length l1)%nat) as Hk.
  { intros d l2. unfold k, drop_bytes.
    destruct (Z.land w 7 =? 0); [|destruct (Z.land w 7 =? 1); [|destruct (Z.land w 7 =? 2)]].
    - destruct (read_varint l1) as [[x l3]|] eqn:Hx; [|done]. apply read_varint_from_shrinks in Hx. intros [= _ <-]. lia.
    - destruct (len l1 <? 8); [done|]. intros [= _ <-]. rewrite length_drop. lia.
    - destruct (read_bytes l1) as [[x l3]|] eqn:Hx; [|done]. apply read_bytes_shrinks in Hx. intros [= _ <-]. lia.
    - repeat case_match; simpl; intros; simplify_eq/=; rewrite ?length_drop; lia. }
  destruct k as [[d l2]|]; [|done]. specialize (Hk d l2 eq_refl). simpl.
  destruct (d =? 0); [intros [= <-]; lia|]. intros Hr%IH. lia.
Qed.

Lemma skip_shrinks l r : skip l = Some r → (length r < length l)%nat.
Proof. apply skip_shrinks_fuel. Qed.

Definition shrinks {M} (h : handler M) : Prop := ∀ w l m m' r, h w l m = Some (m', r) → (length r ≤ length l)%nat.

Lemma on_varint_shrinks {M} (set : Z → M → M) : shrinks (on_varint set).
Proof.
  intros w l m m' r. unfold on_varint. destruct (negb _); [done|]. destruct (read_varint l) as [[x l']|] eqn:Hv; [|done].
  apply read_varint_from_shrinks in Hv. intros [= _ <-]. lia.
Qed.
Lemma on_fixed64_shrinks {M} (set : Z → M → M) : shrinks (on_fixed64 set).
Proof.
  intros w l m m' r. unfold on_fixed64, read_fixed64. destruct (negb _); [done|]. destruct (len l <? 8); [done|].
  intros [= _ <-]. rewrite length_drop. lia.
Qed.
Lemma on_bytes_shrinks {M} (set : bytes → M → option M) : shrinks (on_bytes set).
Proof.
  intros w l m m' r. unfold on_bytes. destruct (negb _); [done|]. destruct (read_bytes l) as [[x l']|] eqn:Hv; [|done].
  apply read_bytes_shrinks in Hv. simpl. destruct (set x m); [|done]. intros [= _ <-]. lia.
Qed.
#[export] Hint Resolve on_varint_shrinks on_fixed64_shrinks on_bytes_shrinks : proto.

(** More fuel than bytes changes nothing: the loop always ends. *)
Lemma unmarshal_fuel_enough {M} (field : Z → option (handler M)) fuel l m :
  (∀ n h, field n = Some h → shrinks h) → (length l ≤ fuel)%nat → unmarshal_fuel field fuel l m = unmarshal field l m.
Proof.
  intros Hsh. unfold unmarshal. revert fuel m.
  induction l as [l IH] using (Wf_nat.induction_ltof1 _ (@length byte)). unfold Wf_nat.ltof in IH. intros fuel m Hle.
  destruct l as [|b l]; [by destruct fuel|]. destruct fuel as [|fuel]; simpl in Hle; [lia|]. cbn [unmarshal_fuel length].
  destruct (read_varint (b :: l)) as [[wire rest]|] eqn:Hv; [|done]. apply read_varint_from_shrinks in Hv. simpl in Hv.
  cbn [mbind option_bind]. case_match; [done|]. case_match; [done|].
  destruct (field _) as [h|] eqn:Hf.
  - destruct (h _ rest m) as [[m' r]|] eqn:Hh; [|done]. simpl. apply (Hsh _ _ Hf) in Hh.
    rewrite (IH r) by (simpl; lia). symmetry. apply IH; simpl; lia.
  - destruct (skip (b :: l)) as [r|] eqn:Hs; [|done]. simpl. apply skip_shrinks in Hs. simpl in Hs.
    rewrite (IH r) by (simpl; lia). symmetry. apply IH; simpl; lia.
Qed.

(** ** Readers invert the writers *)

Lemma bval_range b : 0 ≤ bval b < 256.
Proof. pose proof (Byte.to_N_bounded b). lia. Qed.

Lemma low_seven x : 0 ≤ x → Z.lor (x mod 128) (Z.shiftl (x / 128) 7) = x.
Proof.
  intros Hx. apply Z.bits_inj'. intros n Hn. rewrite Z.lor_spec. change 128 with (2 ^ 7).
  rewrite Z.shiftl_spec by lia. destruct (Z.lt_ge_cases n 7).
  - rewrite Z.mod_pow2_bits_low by lia. rewrite (Z.testbit_neg_r (x / 2 ^ 7)) by lia. by rewrite orb_false_r.
  - rewrite Z.mod_pow2_bits_high by lia. rewrite <-Z.shiftr_div_pow2 by lia. rewrite Z.shiftr_spec by lia. simpl. f_equal. lia.
Qed.

Lemma read_uvarint_spec fuel x shift acc r :
  0 ≤ x < 128 ^ Z.of_nat fuel → (0 < fuel)%nat → 0 ≤ shift → x * 2 ^ shift < 2 ^ 64 → shift < 64 →
  read_varint_from shift acc (uvarint_fuel fuel x ++ r) = Some (Z.lor acc (Z.shiftl x shift), r) ∧
  read_uvarint_from shift acc (uvarint_fuel fuel x ++ r) = Some (Z.lor acc (Z.shiftl x shift), r).
Proof.
  revert x shift acc. induction fuel as [|fuel IH]; intros x shift acc Hx Hf Hs Hfit Hlt; [lia|].
  cbn [uvarint_fuel]. assert (0 < 2 ^ shift) by (apply Z.pow_pos_nonneg; lia).
  assert (∀ y, 0 ≤ y ≤ x → uint64 (Z.shiftl y shift) = Z.shiftl y shift) as Hu.
  { intros y Hy. apply uint64_id. rewrite Z.shiftl_mul_pow2 by lia. change (2 ^ 64) with 18446744073709551616 in Hfit.
    unfold is_uint64. split; nia. }
  destruct (Z.ltb_spec x 128) as [Hsm|Hbig].
  - cbn [read_varint_from read_uvarint_from app]. destruct (Z.leb_spec 64 shift); [lia|]. rewrite byte_of_to_N by lia.
    destruct (Z.ltb_spec x 128); [|lia]. rewrite Z.land_ones with (n := 7) by lia. change (2 ^ 7) with 128.
    rewrite Z.mod_small, Hu by lia. split; [done|].
    destruct (Z.eqb_spec shift 63) as [->|]; [|done]. destruct (Z.ltb_spec 1 x); [lia|done].
  - destruct (low_bits x) as [Hl Hsr]; [lia|]. rewrite Hl, Hsr. rewrite Nat2Z.inj_succ, Z.pow_succ_r in Hx by lia.
    pose proof (Z.mod_pos_bound x 128 ltac:(lia)). pose proof (Z.mod_le x 128 ltac:(lia) ltac:(lia)).
    assert (shift + 7 < 64) as Hlt'.
    { apply (Z.pow_lt_mono_r_iff 2); [lia..|]. rewrite Z.pow_add_r by lia. change (2 ^ 7) with 128. nia. }
    destruct (IH (x / 128) (shift + 7) (Z.lor acc (Z.shiftl (x mod 128) shift))) as [IH1 IH2].
    { split; [apply Z.div_pos; lia|apply Z.div_lt_upper_bound; lia]. }
    { destruct fuel; [simpl in Hx; lia|lia]. }
    { lia. }
    { rewrite Z.pow_add_r by lia. change (2 ^ 7) with 128. pose proof (Z.mul_div_le x 128 ltac:(lia)). nia. }
    { done. }
    assert (Z.lor (Z.lor acc (Z.shiftl (x mod 128) shift)) (Z.shiftl (x / 128) (shift + 7)) = Z.lor acc (Z.shiftl x shift)) as Hacc.
    { rewrite <-Z.lor_assoc. f_equal. rewrite (Z.add_comm shift 7), <-Z.shiftl_shiftl by lia. rewrite <-Z.shiftl_lor.
      by rewrite low_seven by lia. }
    cbn [read_varint_from read_uvarint_from app]. destruct (Z.leb_spec 64 shift); [lia|]. rewrite byte_of_to_N by lia.
    destruct (Z.ltb_spec (128 + x mod 128) 128); [lia|].
    assert (Z.land (128 + x mod 128) 127 = x mod 128) as ->.
    { rewrite Z.land_ones with (n := 7) by lia. change (2 ^ 7) with 128. rewrite <-Z.add_mod_idemp_l by lia. simpl. apply Z.mod_mod. lia. }
    rewrite Hu by lia. rewrite IH1, IH2, Hacc. done.
Qed.

Lemma read_varint_uvarint x r : is_uint64 x → read_varint (uvarint x ++ r) = Some (x, r).
Proof.
  intros Hx. unfold read_varint, uvarint. destruct (read_uvarint_spec 10 x 0 0 r) as [-> _]; [ulia|lia|lia|ulia|lia|].
  by rewrite Z.shiftl_0_r, Z.lor_0_l.
Qed.

Lemma undelimit_delimited b : len b < MaxInt64 → undelimit (delimited b) = Some b.
Proof.
  intros Hb. pose proof (len_nonneg b). unfold undelimit, delimited, read_uvarint, uvarint.
  destruct (read_uvarint_spec 10 (len b) 0 0 b) as [_ ->]; [ulia|lia|lia|ulia|lia|].
  cbn [mbind option_bind]. rewrite Z.shiftl_0_r, Z.lor_0_l, len_app.
  pose proof (len_nonneg (uvarint_fuel 10 (len b))). destruct (Z.leb_spec MaxInt64 (len b)); [lia|].
  destruct (Z.ltb_spec (len (uvarint_fuel 10 (len b)) + len b) (len b)); [lia|]. simpl.
  rewrite Z.ltb_irrefl. f_equal. unfold len. rewrite Nat2Z.id. by rewrite firstn_all.
Qed.

Lemma read_bytes_message b r : len b ≤ MaxInt64 → read_bytes (uvarint (len b) ++ b ++ r) = Some (b, r).
Proof.
  intros Hb. pose proof (len_nonneg b). unfold read_bytes. rewrite read_varint_uvarint by ulia. cbn [mbind option_bind].
  rewrite int64_id by ulia. destruct (Z.ltb_spec (len b) 0); [lia|]. rewrite len_app.
  pose proof (len_nonneg r). destruct (Z.ltb_spec (len b + len r) (len b)); [lia|].
  unfold len. rewrite Nat2Z.id, take_app_length, drop_app_length. done.
Qed.

Lemma le_value_bytes n x : 0 ≤ x < 256 ^ Z.of_nat n → le_value (le_bytes n x) = x.
Proof.
  revert x. induction n as [|n IH]; intros x Hx; [simpl in *; lia|]. rewrite Nat2Z.inj_succ, Z.pow_succ_r in Hx by lia.
  cbn [le_bytes]. unfold le_value in *. cbn [foldr]. pose proof (Z.mod_pos_bound x 256 ltac:(lia)).
  rewrite byte_of_to_N, IH by (lia || (split; [apply Z.div_pos; lia|apply Z.div_lt_upper_bound; lia])).
  pose proof (Z.div_mod x 256). lia.
Qed.

Lemma read_fixed64_spec x r : read_fixed64 (fixed64 x ++ r) = Some (uint64 x, r).
Proof.
  unfold read_fixed64, fixed64. rewrite len_app. assert (len (le_bytes 8 (uint64 x)) = 8) as Hl by (unfold len; by rewrite le_bytes_length).
  rewrite Hl. pose proof (len_nonneg r). destruct (Z.ltb_spec (8 + len r) 8); [lia|].
  rewrite take_app_length', drop_app_length' by (by rewrite le_bytes_length). do 2 f_equal.
  apply le_value_bytes. pose proof (uint64_range x). ulia.
Qed.

(** ** Decoding a written field *)

(** A tag of one byte: its field number and wire type. *)
Definition tag_is (tag : byte) (fieldNum wireType : Z) : bool :=
  (bval tag <? 128) && (Z.shiftr (bval tag) 3 =? fieldNum) && (Z.land (bval tag) 7 =? wireType) &&
  (0 <? fieldNum) && negb (wireType =? 4).

Section fields.
Context {M : Type} (field : Z → option (handler M)).
Context (Hsh : ∀ n h, field n = Some h → shrinks h).

Lemma unmarshal_step tag n w h rest m m' r :
  tag_is tag n w = true → field n = Some h → h w rest m = Some (m', r) →
  unmarshal field (tag :: rest) m = unmarshal field r m'.
Proof using Hsh.
  unfold tag_is. intros Ht Hf Hh. repeat apply andb_true_iff in Ht as [Ht ?].
  pose proof (Hsh _ _ Hf _ _ _ _ _ Hh) as Hle. unfold unmarshal at 1. cbn [length unmarshal_fuel].
  pose proof (bval_range tag). unfold read_varint. cbn [read_varint_from].
  assert (Z.land (bval tag) 127 = bval tag) as ->.
  { rewrite Z.land_ones with (n := 7) by lia. change (2 ^ 7) with 128. rewrite Z.mod_small; lia. }
  rewrite Z.shiftl_0_r, uint64_id, Z.lor_0_l by ulia. change (64 <=? 0) with false. rewrite Ht. cbn [mbind option_bind].
  assert (Z.land (bval tag) 7 = w) as -> by lia. assert (Z.shiftr (bval tag) 3 = n) as Hn by lia.
  assert (0 ≤ n < 256) as Hr.
  { rewrite <-Hn, Z.shiftr_div_pow2 by lia. change (2 ^ 3) with 8. split; [apply Z.div_pos; lia|apply Z.div_lt_upper_bound; lia]. }
  rewrite Hn, int32_id by ulia. destruct (Z.eqb_spec w 4); [lia|]. destruct (Z.leb_spec n 0); [lia|].
  rewrite Hf, Hh. cbn [mbind option_bind]. apply unmarshal_fuel_enough; [done|lia].
Qed.

Lemma unmarshal_varint tag n set x m r :
  tag_is tag n 0 = true → field n = Some (on_varint set) → (x = 0 → set 0 m = m) →
  unmarshal field (varint_field tag x ++ r) m = unmarshal field r (set (uint64 x) m).
Proof using Hsh.
  intros Ht Hf Hz. unfold varint_field. destruct (Z.eqb_spec x 0) as [->|Hne].
  - cbn [app]. change (uint64 0) with 0. by rewrite Hz.
  - rewrite <-app_comm_cons. eapply unmarshal_step; [done|done|].
    unfold on_varint. rewrite read_varint_uvarint by apply uint64_range. done.
Qed.

Lemma unmarshal_fixed64 tag n set x m r :
  tag_is tag n 1 = true → field n = Some (on_fixed64 set) → (x = 0 → set 0 m = m) →
  unmarshal field (fixed64_field tag x ++ r) m = unmarshal field r (set (uint64 x) m).
Proof using Hsh.
  intros Ht Hf Hz. unfold fixed64_field. destruct (Z.eqb_spec x 0) as [->|Hne].
  - cbn [app]. change (uint64 0) with 0. by rewrite Hz.
  - rewrite <-app_comm_cons. eapply unmarshal_step; [done|done|].
    unfold on_fixed64. by rewrite read_fixed64_spec.
Qed.

Lemma unmarshal_message tag n set b m m' r :
  tag_is tag n 2 = true → field n = Some (on_bytes set) → len b ≤ MaxInt64 → set b m = Some m' →
  unmarshal field (message_field tag b ++ r) m = unmarshal field r m'.
Proof using Hsh.
  intros Ht Hf Hb Hs. unfold message_field. rewrite <-app_comm_cons. eapply unmarshal_step; [done|done|].
  unfold on_bytes. rewrite <-(assoc (++)), read_bytes_message by done. simpl. by rewrite Hs.
Qed.

Lemma unmarshal_bytes tag n set b m m' r :
  tag_is tag n 2 = true → field n = Some (on_bytes set) → len b ≤ MaxInt64 → set b m = Some m' → (b = [] → m' = m) →
  unmarshal field (bytes_field tag b ++ r) m = unmarshal field r m'.
Proof using Hsh.
  intros Ht Hf Hb Hs Hz. unfold bytes_field. case_decide as He; [by rewrite Hz|].
  by apply unmarshal_message with n set.
Qed.
End fields.
