(* ===== verification/Canonical.v ===== *)
(** * Decoding sign bytes

    The [Unmarshal] methods of the canonical messages
    ([src/hetu-cometbft/proto/tendermint/types/canonical.pb.go]), which the
    signer uses to read back what it last signed, with the round trip from
    the encoders of [SignBytes]. *)
From S2P Require Import Prelude.
From S2P Require Import Proto.
From S2P Require Import Unmarshal.
From S2P Require Import Vote.
From S2P Require Import Validator.
From S2P Require Import SignBytes.

(** [gogoproto.StdTimeUnmarshal], documented to read what [StdTimeMarshalTo]
    writes. *)
Class StdTimeDecode := StdTimeUnmarshal : bytes → option Time.
Class StdTimeRoundtrip `{StdTime, StdTimeDecode} :=
  std_time_roundtrip : ∀ t b, StdTimeMarshal t = Some b → StdTimeUnmarshal b = Some t.

Definition psh_field (n : Z) : option (handler PartSetHeader) :=
  if n =? 1 then Some (on_varint (λ x p, mkPartSetHeader (uint32 x) (PartsHash p)))
  else if n =? 2 then Some (on_bytes (λ b p, Some (mkPartSetHeader (Total p) b)))
  else None.
Definition CanonicalPartSetHeader_Unmarshal (l : bytes) (m : PartSetHeader) : option PartSetHeader := unmarshal psh_field l m.

Definition bid_field (n : Z) : option (handler BlockID) :=
  if n =? 1 then Some (on_bytes (λ b m, Some (mkBlockID b (BlockParts m))))
  else if n =? 2 then Some (on_bytes (λ b m, p ← CanonicalPartSetHeader_Unmarshal b (BlockParts m); Some (mkBlockID (BlockHash m) p)))
  else None.
Definition CanonicalBlockID_Unmarshal (l : bytes) (m : BlockID) : option BlockID := unmarshal bid_field l m.

(** A block identifier read twice is merged into the first. *)
Definition read_block_id (b : bytes) (id : option BlockID) : option BlockID :=
  CanonicalBlockID_Unmarshal b (default nilBlockID id).

Definition vote_field `{StdTimeDecode} (n : Z) : option (handler CanonicalVote) :=
  if n =? 1 then Some (on_varint (λ x m, mkCanonicalVote (int32 x) (cv_Height m) (cv_Round m) (cv_BlockID m) (cv_Timestamp m) (cv_ChainID m)))
  else if n =? 2 then Some (on_fixed64 (λ x m, mkCanonicalVote (cv_Type m) (int64 x) (cv_Round m) (cv_BlockID m) (cv_Timestamp m) (cv_ChainID m)))
  else if n =? 3 then Some (on_fixed64 (λ x m, mkCanonicalVote (cv_Type m) (cv_Height m) (int64 x) (cv_BlockID m) (cv_Timestamp m) (cv_ChainID m)))
  else if n =? 4 then Some (on_bytes (λ b m, id ← read_block_id b (cv_BlockID m);
         Some (mkCanonicalVote (cv_Type m) (cv_Height m) (cv_Round m) (Some id) (cv_Timestamp m) (cv_ChainID m))))
  else if n =? 5 then Some (on_bytes (λ b m, t ← StdTimeUnmarshal b;
         Some (mkCanonicalVote (cv_Type m) (cv_Height m) (cv_Round m) (cv_BlockID m) t (cv_ChainID m))))
  else if n =? 6 then Some (on_bytes (λ b m,
         Some (mkCanonicalVote (cv_Type m) (cv_Height m) (cv_Round m) (cv_BlockID m) (cv_Timestamp m) b)))
  else None.
Definition CanonicalVote_Unmarshal `{StdTimeDecode} (l : bytes) : option CanonicalVote :=
  unmarshal vote_field l (mkCanonicalVote 0 0 0 None zeroTime []).

Definition proposal_field `{StdTimeDecode} (n : Z) : option (handler CanonicalProposal) :=
  if n =? 1 then Some (on_varint (λ x m, mkCanonicalProposal (int32 x) (cp_Height m) (cp_Round m) (cp_POLRound m) (cp_BlockID m) (cp_Timestamp m) (cp_ChainID m)))
  else if n =? 2 then Some (on_fixed64 (λ x m, mkCanonicalProposal (cp_Type m) (int64 x) (cp_Round m) (cp_POLRound m) (cp_BlockID m) (cp_Timestamp m) (cp_ChainID m)))
  else if n =? 3 then Some (on_fixed64 (λ x m, mkCanonicalProposal (cp_Type m) (cp_Height m) (int64 x) (cp_POLRound m) (cp_BlockID m) (cp_Timestamp m) (cp_ChainID m)))
  else if n =? 4 then Some (on_varint (λ x m, mkCanonicalProposal (cp_Type m) (cp_Height m) (cp_Round m) (int64 x) (cp_BlockID m) (cp_Timestamp m) (cp_ChainID m)))
  else if n =? 5 then Some (on_bytes (λ b m, id ← read_block_id b (cp_BlockID m);
         Some (mkCanonicalProposal (cp_Type m) (cp_Height m) (cp_Round m) (cp_POLRound m) (Some id) (cp_Timestamp m) (cp_ChainID m))))
  else if n =? 6 then Some (on_bytes (λ b m, t ← StdTimeUnmarshal b;
         Some (mkCanonicalProposal (cp_Type m) (cp_Height m) (cp_Round m) (cp_POLRound m) (cp_BlockID m) t (cp_ChainID m))))
  else if n =? 7 then Some (on_bytes (λ b m,
         Some (mkCanonicalProposal (cp_Type m) (cp_Height m) (cp_Round m) (cp_POLRound m) (cp_BlockID m) (cp_Timestamp m) b)))
  else None.
Definition CanonicalProposal_Unmarshal `{StdTimeDecode} (l : bytes) : option CanonicalProposal :=
  unmarshal proposal_field l (mkCanonicalProposal 0 0 0 0 None zeroTime []).

Definition UnmarshalDelimited {M} (dec : bytes → option M) (l : bytes) : option M := b ← undelimit l; dec b.

(** ** Round trip *)

Lemma int_of_uint64 z : int64 (uint64 z) = int64 z.
Proof. unfold int64, uint64. by rewrite Zplus_mod_idemp_l. Qed.

Lemma int32_of_uint64 z : int32 (uint64 z) = int32 z.
Proof.
  unfold int32, uint64. f_equal. rewrite (Z.add_mod (z mod _)), (Z.add_mod z) by lia. do 2 f_equal.
  apply Z.mod_mod_divide. by exists 4294967296.
Qed.

Lemma uint32_of_uint64 z : is_uint32 z → uint32 (uint64 z) = z.
Proof. intros Hz. unfold is_uint32 in Hz. rewrite uint64_id by ulia. unfold uint32. by rewrite Z.mod_small by lia. Qed.

Ltac field_shrinks := let n := fresh "n" in let h := fresh "h" in intros n h;
  unfold psh_field, bid_field, vote_field, proposal_field; repeat (case_match; [intros [= <-]; auto with proto|]); done.

Lemma psh_field_shrinks n h : psh_field n = Some h → shrinks h.
Proof. revert n h. field_shrinks. Qed.
Lemma bid_field_shrinks n h : bid_field n = Some h → shrinks h.
Proof. revert n h. field_shrinks. Qed.
Lemma vote_field_shrinks `{StdTimeDecode} n h : vote_field n = Some h → shrinks h.
Proof. revert n h. field_shrinks. Qed.
Lemma proposal_field_shrinks `{StdTimeDecode} n h : proposal_field n = Some h → shrinks h.
Proof. revert n h. field_shrinks. Qed.

Lemma psh_roundtrip p :
  is_uint32 (Total p) → len (PartsHash p) ≤ MaxInt64 →
  CanonicalPartSetHeader_Unmarshal (PartSetHeader_Marshal p) (mkPartSetHeader 0 []) = Some p.
Proof.
  intros Ht Hh. unfold CanonicalPartSetHeader_Unmarshal, PartSetHeader_Marshal.
  rewrite (unmarshal_varint psh_field psh_field_shrinks x08 1 _ _ _ _ eq_refl eq_refl) by done.
  rewrite <-(app_nil_r (bytes_field _ _)).
  rewrite (unmarshal_bytes psh_field psh_field_shrinks x12 2 _ (PartsHash p) _ (mkPartSetHeader (uint32 (uint64 (Total p))) (PartsHash p)) _ eq_refl eq_refl);
    [|done|done|by intros ->].
  rewrite uint32_of_uint64 by done. by destruct p.
Qed.

Lemma bid_roundtrip b :
  is_uint32 (Total (BlockParts b)) → len (BlockHash b) ≤ 1000 → len (PartsHash (BlockParts b)) ≤ 1000 →
  CanonicalBlockID_Unmarshal (CanonicalBlockID_Marshal b) nilBlockID = Some b.
Proof.
  intros Ht Hh Hp. unfold CanonicalBlockID_Unmarshal, CanonicalBlockID_Marshal.
  rewrite (unmarshal_bytes bid_field bid_field_shrinks x0a 1 _ (BlockHash b) _ (mkBlockID (BlockHash b) (mkPartSetHeader 0 [])) _ eq_refl eq_refl);
    [|ulia|done|by intros ->].
  rewrite <-(app_nil_r (message_field _ _)).
  erewrite (unmarshal_message bid_field bid_field_shrinks x12 2 _ (PartSetHeader_Marshal (BlockParts b)) _ _ _ eq_refl eq_refl);
    [|pose proof (len_PartSetHeader (BlockParts b)); ulia|].
  2: { cbn [BlockParts]. rewrite psh_roundtrip by (done || ulia). reflexivity. }
  by destruct b.
Qed.

(** The values of the Go types of the fields, with lengths that fit. *)
Definition id_fits (id : option BlockID) : Prop :=
  ∀ b, id = Some b → is_uint32 (Total (BlockParts b)) ∧ len (BlockHash b) ≤ 32 ∧ len (PartsHash (BlockParts b)) ≤ 32.

Record vote_fits (m : CanonicalVote) : Prop := {
  vf_type : is_int32 (cv_Type m);
  vf_height : is_int64 (cv_Height m);
  vf_round : is_int64 (cv_Round m);
  vf_id : id_fits (cv_BlockID m);
  vf_chain : len (cv_ChainID m) ≤ MaxInt32;
}.
Record proposal_fits (m : CanonicalProposal) : Prop := {
  pf_type : is_int32 (cp_Type m);
  pf_height : is_int64 (cp_Height m);
  pf_round : is_int64 (cp_Round m);
  pf_pol : is_int64 (cp_POLRound m);
  pf_id : id_fits (cp_BlockID m);
  pf_chain : len (cp_ChainID m) ≤ MaxInt32;
}.

(** The field of a block identifier, in either message. *)
Lemma unmarshal_block_id {M} (field : Z → option (handler M)) (put : BlockID → M → M) tag n id m r :
  (∀ n h, field n = Some h → shrinks h) → tag_is tag n 2 = true →
  (∃ get, field n = Some (on_bytes (λ b m, x ← read_block_id b (get m); Some (put x m))) ∧ get m = None) →
  id_fits id →
  unmarshal field (block_id_field tag id ++ r) m = unmarshal field r (match id with None => m | Some b => put b m end).
Proof.
  intros Hsh Ht (get & Hf & Hg) Hid. destruct id as [b|]; [|done]. simpl. destruct (Hid b eq_refl) as (Htot & Hh & Hp).
  pose proof (bid_roundtrip b Htot ltac:(lia) ltac:(lia)) as Hrt.
  assert (len (CanonicalBlockID_Marshal b) ≤ MaxInt64) as Hl.
  { unfold CanonicalBlockID_Marshal. rewrite len_app. pose proof (len_bytes_field x0a (BlockHash b)).
    pose proof (len_PartSetHeader (BlockParts b)). pose proof (len_message_field x12 (PartSetHeader_Marshal (BlockParts b))). ulia. }
  eapply unmarshal_message; [done|done|exact Hf|done|]. unfold read_block_id. rewrite Hg. cbn [default]. by rewrite Hrt.
Qed.

Section roundtrip.
Context `{StdTimeLaws, !StdTimeDecode, !StdTimeRoundtrip}.

Lemma CanonicalVote_roundtrip_lemma m bz : vote_fits m → CanonicalVote_Marshal m = Ret bz → CanonicalVote_Unmarshal bz = Some m.
Proof.
  intros [Hty Hh Hr Hid Hc]. unfold CanonicalVote_Marshal. destruct (StdTimeMarshal (cv_Timestamp m)) as [t|] eqn:Ht; [|done].
  intros <-%(inj Ret). pose proof (std_time_short _ _ Ht). unfold CanonicalVote_Unmarshal.
  rewrite (unmarshal_varint vote_field vote_field_shrinks x08 1 _ _ _ _ eq_refl eq_refl) by done.
  rewrite (unmarshal_fixed64 vote_field vote_field_shrinks x11 2 _ _ _ _ eq_refl eq_refl) by done.
  rewrite (unmarshal_fixed64 vote_field vote_field_shrinks x19 3 _ _ _ _ eq_refl eq_refl) by done.
  cbn [cv_Type cv_Height cv_Round cv_BlockID cv_Timestamp cv_ChainID]. rewrite !int_of_uint64, int32_of_uint64, int32_id, !int64_id by done.
  erewrite (unmarshal_block_id vote_field _ x22 4 _ _ _ vote_field_shrinks eq_refl); [|eexists; split; reflexivity|done].
  erewrite (unmarshal_message vote_field vote_field_shrinks x2a 5 _ _ _ _ _ eq_refl eq_refl); [|ulia|by rewrite (std_time_roundtrip _ _ Ht)].
  rewrite <-(app_nil_r (bytes_field _ _)).
  erewrite (unmarshal_bytes vote_field vote_field_shrinks x32 6 _ _ _ _ _ eq_refl eq_refl); [|ulia|reflexivity|].
  - destruct m as [ty h r [b|] tm c]; reflexivity.
  - intros ->. destruct (cv_BlockID m); reflexivity.
Qed.

Lemma CanonicalProposal_roundtrip_lemma m bz :
  proposal_fits m → CanonicalProposal_Marshal m = Ret bz → CanonicalProposal_Unmarshal bz = Some m.
Proof.
  intros [Hty Hh Hr Hp Hid Hc]. unfold CanonicalProposal_Marshal. destruct (StdTimeMarshal (cp_Timestamp m)) as [t|] eqn:Ht; [|done].
  intros <-%(inj Ret). pose proof (std_time_short _ _ Ht). unfold CanonicalProposal_Unmarshal.
  rewrite (unmarshal_varint proposal_field proposal_field_shrinks x08 1 _ _ _ _ eq_refl eq_refl) by done.
  rewrite (unmarshal_fixed64 proposal_field proposal_field_shrinks x11 2 _ _ _ _ eq_refl eq_refl) by done.
  rewrite (unmarshal_fixed64 proposal_field proposal_field_shrinks x19 3 _ _ _ _ eq_refl eq_refl) by done.
  rewrite (unmarshal_varint proposal_field proposal_field_shrinks x20 4 _ _ _ _ eq_refl eq_refl) by done.
  cbn [cp_Type cp_Height cp_Round cp_POLRound cp_BlockID cp_Timestamp cp_ChainID].
  rewrite !int_of_uint64, int32_of_uint64, int32_id, !int64_id by done.
  erewrite (unmarshal_block_id proposal_field _ x2a 5 _ _ _ proposal_field_shrinks eq_refl); [|eexists; split; reflexivity|done].
  erewrite (unmarshal_message proposal_field proposal_field_shrinks x32 6 _ _ _ _ _ eq_refl eq_refl); [|ulia|by rewrite (std_time_roundtrip _ _ Ht)].
  rewrite <-(app_nil_r (bytes_field _ _)).
  erewrite (unmarshal_bytes proposal_field proposal_field_shrinks x3a 7 _ _ _ _ _ eq_refl eq_refl); [|ulia|reflexivity|].
  - destruct m as [ty h r p [b|] tm c]; reflexivity.
  - intros ->. destruct (cp_BlockID m); reflexivity.
Qed.
End roundtrip.
