(* ===== verification/PrivVal.v ===== *)
(** * The file signer

    Models [src/hetu-cometbft/privval/file.go]: the private validator that
    remembers, on disk, the last height, round and step it signed, and
    refuses to sign anything else there.  The key's signing function, the
    comparison of two messages and the clock are outside the repository; the
    file is the second copy of the state. *)
From S2P Require Import Prelude.
From S2P Require Import Proto.
From S2P Require Import Unmarshal.
From S2P Require Import Vote.
From S2P Require Import Validator.
From S2P Require Import SignBytes.
From S2P Require Import Canonical.

(** [crypto.PrivKey.Sign]; [None] is an error. *)
Class Signer := sign : bytes → option bytes.

(** [proto.Equal], documented to hold when all the fields are equal. *)
Class ProtoEqual := {
  vote_equal : CanonicalVote → CanonicalVote → bool;
  proposal_equal : CanonicalProposal → CanonicalProposal → bool;
}.
Class ProtoEqualLaws `{ProtoEqual} := {
  vote_equal_eq : ∀ a b, vote_equal a b = true ↔ a = b;
  proposal_equal_eq : ∀ a b, proposal_equal a b = true ↔ a = b;
}.

Definition stepNone : Z := 0.
Definition stepPropose : Z := 1.
Definition stepPrevote : Z := 2.
Definition stepPrecommit : Z := 3.

Definition voteToStep (vote : Vote) : outcome Z :=
  if vote_Type vote =? PrevoteType then Ret stepPrevote
  else if vote_Type vote =? PrecommitType then Ret stepPrecommit
  else Panic "Unknown vote type".

(** A nil slice is [None]. *)
Record FilePVLastSignState := mkLastSignState {
  lss_Height : Z;
  lss_Round : Z;
  lss_Step : Z;
  lss_Signature : option bytes;
  lss_SignBytes : option bytes;
}.

Definition lss_reset : FilePVLastSignState := mkLastSignState 0 0 0 None None.

Inductive hrs_error :=
| HeightRegression
| RoundRegression
| StepRegression
| NoSignBytes.

Definition CheckHRS (lss : FilePVLastSignState) (height round step : Z) : outcome (bool + hrs_error) :=
  if height <? lss_Height lss then Ret (inr HeightRegression)
  else if lss_Height lss =? height then
    if round <? lss_Round lss then Ret (inr RoundRegression)
    else if lss_Round lss =? round then
      if step <? lss_Step lss then Ret (inr StepRegression)
      else if lss_Step lss =? step then
        match lss_SignBytes lss, lss_Signature lss with
        | None, _ => Ret (inr NoSignBytes)
        | Some _, None => Panic "pv: Signature is nil but SignBytes is not!"
        | Some _, Some _ => Ret (inl true)
        end
      else Ret (inl false)
    else Ret (inl false)
  else Ret (inl false).

(** The signer: its state, and the state on disk. *)
Record FilePV := mkFilePV { LastSignState : FilePVLastSignState; stateFile : FilePVLastSignState }.

Definition NewFilePV : FilePV := mkFilePV lss_reset lss_reset.

(** Empty slices are left out of the file and read back as nil. *)
Definition omit_empty (b : option bytes) : option bytes := match b with Some [] => None | _ => b end.
Definition Save (lss : FilePVLastSignState) : FilePVLastSignState :=
  mkLastSignState (lss_Height lss) (lss_Round lss) (lss_Step lss) (omit_empty (lss_Signature lss)) (omit_empty (lss_SignBytes lss)).

Definition saveSigned (pv : FilePV) (height round step : Z) (signBytes sig : bytes) : FilePV :=
  let lss := mkLastSignState height round step (Some sig) (Some signBytes) in mkFilePV lss (Save lss).

Definition LoadFilePV (pv : FilePV) : FilePV := mkFilePV (stateFile pv) (stateFile pv).

(** [Reset]: unsafe, for tests and operators. *)
Definition Reset (pv : FilePV) : FilePV := mkFilePV lss_reset (Save lss_reset).

Inductive sign_error :=
| ErrHRS (e : hrs_error)
| ErrSigning
| ErrUnexpectedVoteExtension
| ErrConflictingData.

Definition set_vote (v : Vote) (t : Time) (sig extSig : bytes) : Vote :=
  mkVote (vote_Type v) (vote_Height v) (vote_Round v) (vote_BlockID v) t (ValidatorAddress v) (ValidatorIndex v) sig
    (vote_Extension v) extSig.
Definition set_proposal (p : Proposal) (t : Time) (sig : bytes) : Proposal :=
  mkProposal (prop_Type p) (prop_Height p) (prop_Round p) (prop_POLRound p) (prop_BlockID p) t sig.

Definition cv_set_time (m : CanonicalVote) (t : Time) : CanonicalVote :=
  mkCanonicalVote (cv_Type m) (cv_Height m) (cv_Round m) (cv_BlockID m) t (cv_ChainID m).
Definition cp_set_time (m : CanonicalProposal) (t : Time) : CanonicalProposal :=
  mkCanonicalProposal (cp_Type m) (cp_Height m) (cp_Round m) (cp_POLRound m) (cp_BlockID m) t (cp_ChainID m).

Section signer.
Context `{StdTime, StdTimeDecode, Signer, ProtoEqual}.

(** [now] is [cmttime.Now()]. *)
Definition checkVotesOnlyDifferByTimestamp (now : Time) (lastSignBytes newSignBytes : bytes) : outcome (Time * bool) :=
  match UnmarshalDelimited CanonicalVote_Unmarshal lastSignBytes, UnmarshalDelimited CanonicalVote_Unmarshal newSignBytes with
  | None, _ => Panic "LastSignBytes cannot be unmarshalled into vote"
  | Some _, None => Panic "signBytes cannot be unmarshalled into vote"
  | Some lastVote, Some newVote =>
      Ret (cv_Timestamp lastVote, vote_equal (cv_set_time newVote now) (cv_set_time lastVote now))
  end.

Definition checkProposalsOnlyDifferByTimestamp (now : Time) (lastSignBytes newSignBytes : bytes) : outcome (Time * bool) :=
  match UnmarshalDelimited CanonicalProposal_Unmarshal lastSignBytes, UnmarshalDelimited CanonicalProposal_Unmarshal newSignBytes with
  | None, _ => Panic "LastSignBytes cannot be unmarshalled into proposal"
  | Some _, None => Panic "signBytes cannot be unmarshalled into proposal"
  | Some lastProposal, Some newProposal =>
      Ret (cp_Timestamp lastProposal, proposal_equal (cp_set_time newProposal now) (cp_set_time lastProposal now))
  end.

(** The extension signature, or the error. *)
Definition sign_extension (chainID : bytes) (vote : Vote) : bytes + sign_error :=
  if (vote_Type vote =? PrecommitType) && negb (BlockID_IsZero (vote_BlockID vote)) then
    match sign (VoteExtensionSignBytes chainID vote) with None => inr ErrSigning | Some s => inl s end
  else if 0 <? len (vote_Extension vote) then inr ErrUnexpectedVoteExtension
  else inl [].

(** Returns the signer, the vote as it was written to, and the error. *)
Definition signVote (now : Time) (pv : FilePV) (chainID : bytes) (vote : Vote) : outcome (FilePV * Vote * option sign_error) :=
  step ← voteToStep vote;
  let lss := LastSignState pv in
  same ← CheckHRS lss (vote_Height vote) (vote_Round vote) step;
  match same with
  | inr e => Ret (pv, vote, Some (ErrHRS e))
  | inl sameHRS =>
      signBytes ← VoteSignBytes chainID vote;
      match sign_extension chainID vote with
      | inr e => Ret (pv, vote, Some e)
      | inl extSig =>
          if sameHRS : bool then
            let lastBytes := default [] (lss_SignBytes lss) in
            let lastSig := default [] (lss_Signature lss) in
            if bool_decide (signBytes = lastBytes) then Ret (pv, set_vote vote (vote_Timestamp vote) lastSig extSig, None)
            else
              '(timestamp, ok) ← checkVotesOnlyDifferByTimestamp now lastBytes signBytes;
              if ok : bool then Ret (pv, set_vote vote timestamp lastSig extSig, None)
              else Ret (pv, set_vote vote (vote_Timestamp vote) (vote_Signature vote) extSig, Some ErrConflictingData)
          else
            match sign signBytes with
            | None => Ret (pv, vote, Some ErrSigning)
            | Some sig => Ret (saveSigned pv (vote_Height vote) (vote_Round vote) step signBytes sig,
                               set_vote vote (vote_Timestamp vote) sig extSig, None)
            end
      end
  end.

Definition signProposal (now : Time) (pv : FilePV) (chainID : bytes) (p : Proposal) : outcome (FilePV * Proposal * option sign_error) :=
  let lss := LastSignState pv in
  same ← CheckHRS lss (prop_Height p) (prop_Round p) stepPropose;
  match same with
  | inr e => Ret (pv, p, Some (ErrHRS e))
  | inl sameHRS =>
      signBytes ← ProposalSignBytes chainID p;
      if sameHRS : bool then
        let lastBytes := default [] (lss_SignBytes lss) in
        let lastSig := default [] (lss_Signature lss) in
        if bool_decide (signBytes = lastBytes) then Ret (pv, set_proposal p (prop_Timestamp p) lastSig, None)
        else
          '(timestamp, ok) ← checkProposalsOnlyDifferByTimestamp now lastBytes signBytes;
          if ok : bool then Ret (pv, set_proposal p timestamp lastSig, None)
          else Ret (pv, p, Some ErrConflictingData)
      else
        match sign signBytes with
        | None => Ret (pv, p, Some ErrSigning)
        | Some sig => Ret (saveSigned pv (prop_Height p) (prop_Round p) stepPropose signBytes sig,
                           set_proposal p (prop_Timestamp p) sig, None)
        end
  end.
End signer.

(** ** Heights, rounds and steps *)

Definition hrs_lt (a b : Z * Z * Z) : Prop :=
  let '(h, r, s) := a in let '(h', r', s') := b in
  h < h' ∨ (h = h' ∧ (r < r' ∨ (r = r' ∧ s < s'))).
Definition hrs_le (a b : Z * Z * Z) : Prop := hrs_lt a b ∨ a = b.
Definition hrs (lss : FilePVLastSignState) : Z * Z * Z := (lss_Height lss, lss_Round lss, lss_Step lss).

Lemma hrs_le_trans a b c : hrs_le a b → hrs_le b c → hrs_le a c.
Proof. destruct a as [[??]?], b as [[??]?], c as [[??]?]. unfold hrs_le, hrs_lt. intros [?|[= -> -> ->]] [?|[= -> -> ->]]; [left; lia|by left..|by right]. Qed.
Lemma hrs_lt_irrefl a b : hrs_lt a b → a ≠ b.
Proof. destruct a as [[??]?], b as [[??]?]. unfold hrs_lt. intros ? [= -> -> ->]. lia. Qed.
Lemma hrs_lt_le a b c : hrs_lt a b → hrs_le b c → hrs_lt a c.
Proof. destruct a as [[??]?], b as [[??]?], c as [[??]?]. unfold hrs_le, hrs_lt. intros ? [?|[= -> -> ->]]; lia. Qed.

Lemma CheckHRS_spec lss h r s b :
  CheckHRS lss h r s = Ret (inl b) →
  if b then hrs lss = (h, r, s) ∧ is_Some (lss_SignBytes lss) ∧ is_Some (lss_Signature lss)
  else hrs_lt (hrs lss) (h, r, s).
Proof.
  unfold CheckHRS, hrs, hrs_lt. destruct (Z.ltb_spec h (lss_Height lss)); [done|].
  destruct (Z.eqb_spec (lss_Height lss) h) as [<-|]; [|intros [= <-]; lia].
  destruct (Z.ltb_spec r (lss_Round lss)); [done|].
  destruct (Z.eqb_spec (lss_Round lss) r) as [<-|]; [|intros [= <-]; lia].
  destruct (Z.ltb_spec s (lss_Step lss)); [done|].
  destruct (Z.eqb_spec (lss_Step lss) s) as [<-|]; [|intros [= <-]; lia].
  destruct (lss_SignBytes lss), (lss_Signature lss); try done. intros [= <-]. split_and!; [done|by eexists|by eexists].
Qed.

(** The Go types of the fields of a message that is signed. *)
Definition vote_range (chainID : bytes) (v : Vote) : Prop :=
  vote_ranges chainID v ∧ len chainID ≤ MaxInt32.
Record proposal_range (chainID : bytes) (p : Proposal) : Prop := {
  pr_height : is_int64 (prop_Height p);
  pr_round : is_int32 (prop_Round p);
  pr_pol : is_int32 (prop_POLRound p);
  pr_total : is_uint32 (Total (BlockParts (prop_BlockID p)));
  pr_chain : len chainID ≤ MaxInt32;
}.

Lemma Canonicalize_fits b c :
  CanonicalizeBlockID b = Ret c → is_uint32 (Total (BlockParts b)) → id_fits c.
Proof.
  intros [Hv [[-> ->]|[-> _]]]%CanonicalizeBlockID_inv Ht; intros b' [= <-].
  pose proof (small_id_lens b (conj Hv Ht)). tauto.
Qed.

Lemma len_block_id_field_fits tag c : id_fits c → 0 ≤ len (block_id_field tag c) ≤ 300.
Proof.
  intros Hid. destruct c as [b|]; [|done]. destruct (Hid b eq_refl) as (_ & Hh & Hp). simpl.
  pose proof (len_message_field tag (CanonicalBlockID_Marshal b)).
  assert (len (CanonicalBlockID_Marshal b) ≤ 200); [|lia]. unfold CanonicalBlockID_Marshal. rewrite len_app.
  pose proof (len_bytes_field x0a (BlockHash b)). pose proof (len_PartSetHeader (BlockParts b)).
  pose proof (len_message_field x12 (PartSetHeader_Marshal (BlockParts b))). lia.
Qed.

Section decoded.
Context `{StdTimeLaws, !StdTimeDecode, !StdTimeRoundtrip}.

(** The sign bytes of a vote decode to its canonical form. *)
Lemma vote_decodes cid v bz :
  vote_range cid v → VoteSignBytes cid v = Ret bz →
  ∃ cv, CanonicalizeVote cid v = Ret cv ∧ UnmarshalDelimited CanonicalVote_Unmarshal bz = Some cv.
Proof.
  intros [Hr Hc]. unfold VoteSignBytes. destruct (CanonicalizeVote cid v) as [cv|] eqn:Hcv; [|done]. cbn [mbind outcome_bind].
  destruct (CanonicalVote_Marshal cv) as [b|] eqn:Hb; [|done]. cbn [mbind outcome_bind]. intros <-%(inj Ret). exists cv. split; [done|].
  unfold CanonicalizeVote in Hcv. destruct (CanonicalizeBlockID (vote_BlockID v)) as [c|] eqn:Hid; [|done].
  apply (inj Ret) in Hcv as <-. pose proof (Canonicalize_fits _ _ Hid (vr_total _ _ Hr)) as Hfit.
  unfold UnmarshalDelimited. rewrite undelimit_delimited.
  - cbn [mbind option_bind]. apply CanonicalVote_roundtrip_lemma; [|done].
    split; cbn; [apply Hr|apply Hr|apply int32_64, Hr|done|done].
  - unfold CanonicalVote_Marshal in Hb. cbn in Hb. destruct (StdTimeMarshal (vote_Timestamp v)) as [t|] eqn:Ht; [|done].
    apply (inj Ret) in Hb as <-. rewrite !len_app. pose proof (std_time_short _ _ Ht).
    pose proof (len_varint_field x08 (vote_Type v)). pose proof (len_fixed64_field x11 (vote_Height v)).
    pose proof (len_fixed64_field x19 (vote_Round v)). pose proof (len_block_id_field_fits x22 c Hfit).
    pose proof (len_message_field x2a t). pose proof (len_bytes_field x32 cid). ulia.
Qed.

Lemma proposal_decodes cid p bz :
  proposal_range cid p → ProposalSignBytes cid p = Ret bz →
  ∃ cp, CanonicalizeProposal cid p = Ret cp ∧ UnmarshalDelimited CanonicalProposal_Unmarshal bz = Some cp.
Proof.
  intros [Hh Hr Hp Ht Hc]. unfold ProposalSignBytes. destruct (CanonicalizeProposal cid p) as [cp|] eqn:Hcp; [|done]. cbn [mbind outcome_bind].
  destruct (CanonicalProposal_Marshal cp) as [b|] eqn:Hb; [|done]. cbn [mbind outcome_bind]. intros <-%(inj Ret). exists cp. split; [done|].
  unfold CanonicalizeProposal in Hcp. destruct (CanonicalizeBlockID (prop_BlockID p)) as [c|] eqn:Hid; [|done].
  apply (inj Ret) in Hcp as <-. pose proof (Canonicalize_fits _ _ Hid Ht) as Hfit.
  unfold UnmarshalDelimited. rewrite undelimit_delimited.
  - cbn [mbind option_bind]. apply CanonicalProposal_roundtrip_lemma; [|done].
    split; cbn; [by split; vm_compute|done|by apply int32_64|by apply int32_64|done|done].
  - unfold CanonicalProposal_Marshal in Hb. cbn in Hb. destruct (StdTimeMarshal (prop_Timestamp p)) as [t|] eqn:Hti; [|done].
    apply (inj Ret) in Hb as <-. rewrite !len_app. pose proof (std_time_short _ _ Hti).
    pose proof (len_varint_field x08 ProposalType). pose proof (len_fixed64_field x11 (prop_Height p)).
    pose proof (len_fixed64_field x19 (prop_Round p)). pose proof (len_varint_field x20 (prop_POLRound p)).
    pose proof (len_block_id_field_fits x2a c Hfit).
    pose proof (len_message_field x32 t). pose proof (len_bytes_field x3a cid). ulia.
Qed.
End decoded.

(** ** What a signature means *)

Section safety.
Context `{StdTimeLaws, !StdTimeDecode, !StdTimeRoundtrip, !Signer, !ProtoEqual, !ProtoEqualLaws}.

(** The recorded bytes are those of a message of the recorded step. *)
Definition made_for (step : Z) (bz : bytes) : Prop :=
  if step =? stepPropose then ∃ cid p, proposal_range cid p ∧ ProposalSignBytes cid p = Ret bz
  else ∃ cid v, vote_range cid v ∧ VoteSignBytes cid v = Ret bz.

Record pv_ok (pv : FilePV) : Prop := {
  po_bytes : ∀ bz, lss_SignBytes (LastSignState pv) = Some bz → made_for (lss_Step (LastSignState pv)) bz;
  po_saved : stateFile pv = Save (LastSignState pv);
}.

(** The signer holds a signature of [bz] for this height, round and step. *)
Definition recorded_as (pv : FilePV) (h r s : Z) (bz sig : bytes) : Prop :=
  LastSignState pv = mkLastSignState h r s (Some sig) (Some bz).

(** Either the state is advanced and the bytes are signed, or the signature
    recorded before is returned. *)
Definition signed_once (pv pv' : FilePV) (h r s : Z) (bz sig : bytes) : Prop :=
  recorded_as pv' h r s bz sig ∧ (pv' = pv ∨ (hrs_lt (hrs (LastSignState pv)) (h, r, s) ∧ sign bz = Some sig)).

Lemma cv_time_eq a b t : cv_set_time a t = cv_set_time b t → b = cv_set_time a (cv_Timestamp b).
Proof. destruct a, b. unfold cv_set_time. simpl. intros [= -> -> -> -> ->]. done. Qed.
Lemma cp_time_eq a b t : cp_set_time a t = cp_set_time b t → b = cp_set_time a (cp_Timestamp b).
Proof. destruct a, b. unfold cp_set_time. simpl. intros [= -> -> -> -> -> ->]. done. Qed.

Lemma VoteSignBytes_set cid v t s e :
  t = vote_Timestamp v → VoteSignBytes cid (set_vote v t s e) = VoteSignBytes cid v.
Proof using. by intros ->. Qed.

(** Taking over the recorded timestamp gives the recorded bytes. *)
Lemma vote_retimed now cid v bz bz0 t s e :
  vote_range cid v → VoteSignBytes cid v = Ret bz → (∃ cid0 v0, vote_range cid0 v0 ∧ VoteSignBytes cid0 v0 = Ret bz0) →
  checkVotesOnlyDifferByTimestamp now bz0 bz = Ret (t, true) → VoteSignBytes cid (set_vote v t s e) = Ret bz0.
Proof.
  intros Hr Hbz (cid0 & v0 & Hr0 & Hbz0). destruct (vote_decodes cid v bz Hr Hbz) as (cv & Hcv & Hd).
  destruct (vote_decodes cid0 v0 bz0 Hr0 Hbz0) as (cv0 & Hcv0 & Hd0).
  unfold checkVotesOnlyDifferByTimestamp. rewrite Hd0, Hd. intros [= <- Heq%vote_equal_eq%cv_time_eq].
  unfold VoteSignBytes in Hbz0 |- *. rewrite Hcv0 in Hbz0.
  assert (CanonicalizeVote cid (set_vote v (cv_Timestamp cv0) s e) = Ret cv0) as ->; [|exact Hbz0].
  rewrite Heq at 2. unfold CanonicalizeVote in Hcv |- *. cbn [vote_BlockID set_vote].
  destruct (CanonicalizeBlockID (vote_BlockID v)) as [c|]; [|done]. apply (inj Ret) in Hcv as <-. done.
Qed.

Lemma proposal_retimed now cid p bz bz0 t s :
  proposal_range cid p → ProposalSignBytes cid p = Ret bz →
  (∃ cid0 p0, proposal_range cid0 p0 ∧ ProposalSignBytes cid0 p0 = Ret bz0) →
  checkProposalsOnlyDifferByTimestamp now bz0 bz = Ret (t, true) → ProposalSignBytes cid (set_proposal p t s) = Ret bz0.
Proof.
  intros Hr Hbz (cid0 & p0 & Hr0 & Hbz0). destruct (proposal_decodes cid p bz Hr Hbz) as (cp & Hcp & Hd).
  destruct (proposal_decodes cid0 p0 bz0 Hr0 Hbz0) as (cp0 & Hcp0 & Hd0).
  unfold checkProposalsOnlyDifferByTimestamp. rewrite Hd0, Hd. intros [= <- Heq%proposal_equal_eq%cp_time_eq].
  unfold ProposalSignBytes in Hbz0 |- *. rewrite Hcp0 in Hbz0.
  assert (CanonicalizeProposal cid (set_proposal p (cp_Timestamp cp0) s) = Ret cp0) as ->; [|exact Hbz0].
  rewrite Heq at 2. unfold CanonicalizeProposal in Hcp |- *. cbn [prop_BlockID set_proposal].
  destruct (CanonicalizeBlockID (prop_BlockID p)) as [c|]; [|done]. apply (inj Ret) in Hcp as <-. done.
Qed.

Lemma saved_ok pv h r s bz sig : made_for s bz → pv_ok (saveSigned pv h r s bz sig).
Proof using. intros Hm. split; [|done]. cbn. by intros bz' [= <-]. Qed.

Lemma recorded_same pv h r s bz sig :
  hrs (LastSignState pv) = (h, r, s) → lss_SignBytes (LastSignState pv) = Some bz →
  lss_Signature (LastSignState pv) = Some sig → recorded_as pv h r s bz sig.
Proof using. unfold hrs, recorded_as. destruct (LastSignState pv). simpl. intros [= -> -> ->] -> ->. done. Qed.

Lemma vote_step v s : voteToStep v = Ret s → (s =? stepPropose) = false.
Proof using. unfold voteToStep. by repeat case_match; intros [= <-]. Qed.

Lemma signVote_spec now pv cid v pv' v' :
  pv_ok pv → vote_range cid v → signVote now pv cid v = Ret (pv', v', None) →
  ∃ s bz, voteToStep v = Ret s ∧ VoteSignBytes cid v' = Ret bz ∧ pv_ok pv' ∧
    v' = set_vote v (vote_Timestamp v') (vote_Signature v') (vote_ExtensionSignature v') ∧
    signed_once pv pv' (vote_Height v) (vote_Round v) s bz (vote_Signature v').
Proof.
  intros Hok Hr. unfold signVote. destruct (voteToStep v) as [s|] eqn:Hs; [|done]. cbn [mbind outcome_bind].
  destruct (CheckHRS _ _ _ s) as [[same|e]|] eqn:Hc; [|done..]. cbn [mbind outcome_bind].
  apply CheckHRS_spec in Hc. destruct (VoteSignBytes cid v) as [bz|] eqn:Hbz; [|done]. cbn [mbind outcome_bind].
  destruct (sign_extension cid v) as [ext|e]; [|done]. destruct same.
  - destruct Hc as (Hhrs & [bz0 Hb0] & [sig0 Hs0]). rewrite Hb0, Hs0.
    change (default [] (Some bz0)) with bz0. change (default [] (Some sig0)) with sig0.
    pose proof (recorded_same pv _ _ _ _ _ Hhrs Hb0 Hs0) as Hrec.
    case_bool_decide as Heq; [subst bz0; intros [= <- <-]|].
    + exists s, bz. split_and!; [done|by rewrite VoteSignBytes_set|done|done|by split; [|left]].
    + destruct (checkVotesOnlyDifferByTimestamp now bz0 bz) as [[t ok]|] eqn:Hd; [|done]. cbn [mbind outcome_bind].
      destruct ok; [|done]. intros [= <- <-]. exists s, bz0. split_and!; [done| |done|done|by split; [|left]].
      eapply vote_retimed; [exact Hr|exact Hbz| |exact Hd]. pose proof (po_bytes _ Hok bz0 Hb0) as Hm. unfold made_for in Hm.
      unfold hrs in Hhrs. injection Hhrs as _ _ Hst. by rewrite Hst, (vote_step v s Hs) in Hm.
  - destruct (sign bz) as [sig|] eqn:Hsig; [|done]. intros [= <- <-]. exists s, bz.
    split_and!; [done|by rewrite VoteSignBytes_set| |done|by split; [|right]].
    apply saved_ok. unfold made_for. rewrite (vote_step v s Hs). by exists cid, v.
Qed.

Lemma signProposal_spec now pv cid p pv' p' :
  pv_ok pv → proposal_range cid p → signProposal now pv cid p = Ret (pv', p', None) →
  ∃ bz, ProposalSignBytes cid p' = Ret bz ∧ pv_ok pv' ∧ p' = set_proposal p (prop_Timestamp p') (prop_Signature p') ∧
    signed_once pv pv' (prop_Height p) (prop_Round p) stepPropose bz (prop_Signature p').
Proof.
  intros Hok Hr. unfold signProposal.
  destruct (CheckHRS _ _ _ stepPropose) as [[same|e]|] eqn:Hc; [|done..]. cbn [mbind outcome_bind].
  apply CheckHRS_spec in Hc. destruct (ProposalSignBytes cid p) as [bz|] eqn:Hbz; [|done]. cbn [mbind outcome_bind].
  destruct same.
  - destruct Hc as (Hhrs & [bz0 Hb0] & [sig0 Hs0]). rewrite Hb0, Hs0.
    change (default [] (Some bz0)) with bz0. change (default [] (Some sig0)) with sig0.
    pose proof (recorded_same pv _ _ _ _ _ Hhrs Hb0 Hs0) as Hrec.
    case_bool_decide as Heq; [subst bz0; intros [= <- <-]|].
    + exists bz. split_and!; [done|done|done|by split; [|left]].
    + destruct (checkProposalsOnlyDifferByTimestamp now bz0 bz) as [[t ok]|] eqn:Hd; [|done]. cbn [mbind outcome_bind].
      destruct ok; [|done]. intros [= <- <-]. exists bz0. split_and!; [|done|done|by split; [|left]].
      eapply proposal_retimed; [exact Hr|exact Hbz| |exact Hd]. pose proof (po_bytes _ Hok bz0 Hb0) as Hm. unfold made_for in Hm.
      unfold hrs in Hhrs. injection Hhrs as _ _ Hst. by rewrite Hst in Hm.
  - destruct (sign bz) as [sig|] eqn:Hsig; [|done]. intros [= <- <-]. exists bz.
    split_and!; [done| |done|by split; [|right]].
    apply saved_ok. unfold made_for. by exists cid, p.
Qed.
(** ** Runs *)

(** A released signature. *)
Record event := mkEvent { ev_hrs : Z * Z * Z; ev_bytes : bytes; ev_sig : bytes }.

(** What can happen to a signer and the signatures it released, the latest
    first: requests that succeed or fail, restarts, and crashes after the
    state was saved but before the signature left. *)
Inductive run : FilePV → list event → Prop :=
| run_new : run NewFilePV []
| run_vote now cid v pv es pv' v' s bz :
    run pv es → vote_range cid v → signVote now pv cid v = Ret (pv', v', None) → voteToStep v = Ret s →
    VoteSignBytes cid v' = Ret bz →
    run pv' (mkEvent (vote_Height v, vote_Round v, s) bz (vote_Signature v') :: es)
| run_vote_lost now cid v pv es pv' v' err :
    run pv es → vote_range cid v → signVote now pv cid v = Ret (pv', v', err) → run pv' es
| run_proposal now cid p pv es pv' p' bz :
    run pv es → proposal_range cid p → signProposal now pv cid p = Ret (pv', p', None) → ProposalSignBytes cid p' = Ret bz →
    run pv' (mkEvent (prop_Height p, prop_Round p, stepPropose) bz (prop_Signature p') :: es)
| run_proposal_lost now cid p pv es pv' p' err :
    run pv es → proposal_range cid p → signProposal now pv cid p = Ret (pv', p', err) → run pv' es
| run_restart pv es : run pv es → run (LoadFilePV pv) es.

Lemma signVote_error now pv cid v pv' v' e : signVote now pv cid v = Ret (pv', v', Some e) → pv' = pv.
Proof using.
  unfold signVote, mbind, outcome_bind. repeat (case_match; try done); by intros [= <- _ _].
Qed.
Lemma signProposal_error now pv cid p pv' p' e : signProposal now pv cid p = Ret (pv', p', Some e) → pv' = pv.
Proof using.
  unfold signProposal, mbind, outcome_bind. repeat (case_match; try done); by intros [= <- _ _].
Qed.

Lemma delimited_nonempty b : delimited b ≠ [].
Proof using. unfold delimited, uvarint. cbn [uvarint_fuel]. by case_match. Qed.

Lemma made_for_nonempty s bz : made_for s bz → bz ≠ [].
Proof using.
  unfold made_for. case_match.
  - intros (cid & p & _ & Hp). unfold ProposalSignBytes, mbind, outcome_bind in Hp. repeat case_match; try done.
    apply (inj Ret) in Hp as <-. apply delimited_nonempty.
  - intros (cid & v & _ & Hp). unfold VoteSignBytes, mbind, outcome_bind in Hp. repeat case_match; try done.
    apply (inj Ret) in Hp as <-. apply delimited_nonempty.
Qed.

(** The state dominates what was released. *)
Definition dominates (pv : FilePV) (e : event) : Prop :=
  hrs_le (ev_hrs e) (hrs (LastSignState pv)) ∧
  (ev_hrs e = hrs (LastSignState pv) → lss_SignBytes (LastSignState pv) = Some (ev_bytes e) ∧
     (lss_Signature (LastSignState pv) = Some (ev_sig e) ∨ lss_Signature (LastSignState pv) = None)).

Lemma signed_once_dominates pv pv' h r s bz sig e :
  signed_once pv pv' h r s bz sig → dominates pv e → dominates pv' e.
Proof using.
  intros [Hrec [->|[Hlt _]]] [Hle Heq]; [done|]. unfold dominates. rewrite Hrec. cbn.
  pose proof (hrs_le_trans _ _ (h, r, s) Hle (or_introl Hlt)) as Hle'. split; [done|].
  intros He. rewrite He in Hle. by destruct (hrs_lt_irrefl _ _ (hrs_lt_le _ _ _ Hlt Hle)).
Qed.

Lemma signed_once_recorded pv pv' h r s bz sig :
  signed_once pv pv' h r s bz sig → dominates pv' (mkEvent (h, r, s) bz sig).
Proof using. intros [Hrec _]. unfold dominates. rewrite Hrec. cbn. split; [by right|by split; [|left]]. Qed.

Lemma signed_once_agrees pv pv' h r s bz sig e :
  signed_once pv pv' h r s bz sig → dominates pv e → ev_hrs e = (h, r, s) → ev_bytes e = bz ∧ ev_sig e = sig.
Proof using.
  intros [Hrec [->|[Hlt _]]] [Hle Heq] He.
  - rewrite Hrec in Heq. cbn in Heq. destruct (Heq He) as [[= ->] [[= ->]|?]]; [done|done].
  - rewrite He in Hle. by destruct (hrs_lt_irrefl _ _ (hrs_lt_le _ _ _ Hlt Hle)).
Qed.

Lemma restart_ok pv : pv_ok pv → pv_ok (LoadFilePV pv).
Proof using.
  intros [Hb Hs]. unfold LoadFilePV. rewrite Hs. split; cbn.
  - intros bz. destruct (lss_SignBytes (LastSignState pv)) as [[|x b]|] eqn:E; cbn; [done| |done]. intros [= <-]. by apply Hb.
  - unfold Save. cbn. by destruct (lss_Signature _) as [[|]|], (lss_SignBytes _) as [[|]|].
Qed.

Lemma restart_dominates pv e : pv_ok pv → dominates pv e → dominates (LoadFilePV pv) e.
Proof using.
  intros [Hb Hs] [Hle Heq]. unfold dominates, LoadFilePV. rewrite Hs. cbn. split; [done|]. intros He.
  destruct (Heq He) as [Hbz Hsig]. rewrite Hbz. pose proof (made_for_nonempty _ _ (Hb _ Hbz)) as Hne.
  split; [by destruct (ev_bytes e)|]. destruct Hsig as [-> | ->]; [|by right]. destruct (ev_sig e); [by right|by left].
Qed.

Lemma run_ok pv es :
  run pv es → pv_ok pv ∧ Forall (dominates pv) es ∧
    ∀ e1 e2, e1 ∈ es → e2 ∈ es → ev_hrs e1 = ev_hrs e2 → ev_bytes e1 = ev_bytes e2 ∧ ev_sig e1 = ev_sig e2.
Proof.
  assert (∀ pv pv' h r s bz sig es, Forall (dominates pv) es →
    (∀ e1 e2, e1 ∈ es → e2 ∈ es → ev_hrs e1 = ev_hrs e2 → ev_bytes e1 = ev_bytes e2 ∧ ev_sig e1 = ev_sig e2) →
    signed_once pv pv' h r s bz sig →
    Forall (dominates pv') (mkEvent (h, r, s) bz sig :: es) ∧
    ∀ e1 e2, e1 ∈ mkEvent (h, r, s) bz sig :: es → e2 ∈ mkEvent (h, r, s) bz sig :: es → ev_hrs e1 = ev_hrs e2 →
      ev_bytes e1 = ev_bytes e2 ∧ ev_sig e1 = ev_sig e2) as Hnew.
  { clear. intros pv pv' h r s bz sig es Hd Hu Hs. rewrite Forall_forall in Hd. split.
    - apply Forall_cons. split; [by apply (signed_once_recorded pv)|]. apply Forall_forall. intros e He.
      apply (signed_once_dominates pv pv' h r s bz sig); [done|by apply Hd].
    - intros e1 e2 [->|H1']%elem_of_cons [->|H2']%elem_of_cons Heq; [done| | |by apply Hu].
      + destruct (signed_once_agrees _ _ _ _ _ _ _ e2 Hs (Hd e2 H2')) as [<- <-]; done.
      + destruct (signed_once_agrees _ _ _ _ _ _ _ e1 Hs (Hd e1 H1')) as [<- <-]; done. }
  assert (∀ pv pv' h r s bz sig es, Forall (dominates pv) es → signed_once pv pv' h r s bz sig → Forall (dominates pv') es) as Hkeep.
  { clear. intros pv pv' h r s bz sig es Hd Hs. eapply Forall_impl; [exact Hd|]. intros e He. by eapply signed_once_dominates. }
  induction 1 as [|now cid v pv es pv' v' s bz _ (Hok & Hd & Hu) Hr Hsv Hst Hbz|now cid v pv es pv' v' [err|] _ (Hok & Hd & Hu) Hr Hsv
    |now cid p pv es pv' p' bz _ (Hok & Hd & Hu) Hr Hsp Hbz|now cid p pv es pv' p' [err|] _ (Hok & Hd & Hu) Hr Hsp|pv es _ (Hok & Hd & Hu)].
  - split_and!; [by split|constructor|by intros e1 e2 ?%not_elem_of_nil].
  - destruct (signVote_spec now pv cid v pv' v' Hok Hr Hsv) as (s' & bz' & Hst' & Hbz' & Hok' & _ & Hs).
    rewrite Hst in Hst'. apply (inj Ret) in Hst' as <-. rewrite Hbz in Hbz'. apply (inj Ret) in Hbz' as <-. split; [done|]. by apply (Hnew pv).
  - by rewrite (signVote_error _ _ _ _ _ _ _ Hsv).
  - destruct (signVote_spec now pv cid v pv' v' Hok Hr Hsv) as (s' & bz' & _ & _ & Hok' & _ & Hs). split_and!; [done|by eapply Hkeep|done].
  - destruct (signProposal_spec now pv cid p pv' p' Hok Hr Hsp) as (bz' & Hbz' & Hok' & _ & Hs).
    rewrite Hbz in Hbz'. apply (inj Ret) in Hbz' as <-. split; [done|]. by apply (Hnew pv).
  - by rewrite (signProposal_error _ _ _ _ _ _ _ Hsp).
  - destruct (signProposal_spec now pv cid p pv' p' Hok Hr Hsp) as (bz' & _ & Hok' & _ & Hs). split_and!; [done|by eapply Hkeep|done].
  - split_and!; [by apply restart_ok| |done]. eapply Forall_impl; [exact Hd|]. intros e He. by apply restart_dominates.
Qed.
Lemma CanonicalizeVote_set cid v t s e :
  CanonicalizeVote cid (set_vote v t s e) = (cv ← CanonicalizeVote cid v; Ret (cv_set_time cv t)).
Proof using. unfold CanonicalizeVote. cbn. by destruct (CanonicalizeBlockID (vote_BlockID v)). Qed.

Lemma vote_range_set cid v t s e : vote_range cid v → vote_range cid (set_vote v t s e).
Proof using. by intros [[]]. Qed.

(** Signing again, at another time, returns what was recorded. *)
Lemma signVote_again now now2 pv cid v pv' v' t2 s2 e2 bz2 :
  pv_ok pv → vote_range cid v → signVote now pv cid v = Ret (pv', v', None) → vote_Signature v' ≠ [] →
  VoteSignBytes cid (set_vote v t2 s2 e2) = Ret bz2 →
  ∃ v2, signVote now2 (LoadFilePV pv') cid (set_vote v t2 s2 e2) = Ret (LoadFilePV pv', v2, None) ∧
    VoteSignBytes cid v2 = VoteSignBytes cid v' ∧ vote_Signature v2 = vote_Signature v'.
Proof.
  intros Hok Hr Hsv Hne Hbz2. destruct (signVote_spec now pv cid v pv' v' Hok Hr Hsv) as (s & bz & Hst & Hbz & Hok' & Hv' & [Hrec _]).
  assert (∃ ext, sign_extension cid v = inl ext) as [ext Hext].
  { unfold signVote, mbind, outcome_bind in Hsv. destruct (sign_extension cid v); [eauto|]. by repeat case_match. }
  assert (sign_extension cid (set_vote v t2 s2 e2) = inl ext) as Hext2 by exact Hext.
  assert (bz ≠ []) as Hbne.
  { unfold VoteSignBytes, mbind, outcome_bind in Hbz. repeat case_match; try done. apply (inj Ret) in Hbz as <-. apply delimited_nonempty. }
  assert (LastSignState (LoadFilePV pv') = mkLastSignState (vote_Height v) (vote_Round v) s (Some (vote_Signature v')) (Some bz)) as Hl.
  { unfold LoadFilePV. cbn. rewrite (po_saved _ Hok'), Hrec. unfold Save. cbn. f_equal; [by destruct (vote_Signature v')|by destruct bz]. }
  unfold signVote. change (voteToStep (set_vote v t2 s2 e2)) with (voteToStep v). rewrite Hst. cbn [mbind outcome_bind].
  rewrite Hl. unfold CheckHRS. cbn. rewrite !Z.ltb_irrefl, !Z.eqb_refl. cbn [mbind outcome_bind]. rewrite Hbz2. cbn [mbind outcome_bind].
  rewrite Hext2. case_bool_decide as Heq.
  - eexists. split; [done|]. split; [|done]. rewrite VoteSignBytes_set by done. rewrite Hbz, Hbz2. by f_equal.
  - destruct (vote_decodes cid _ bz2 (vote_range_set _ _ _ _ _ Hr) Hbz2) as (cv2 & Hcv2 & Hd2).
    pose proof Hbz as Hbz'. rewrite Hv' in Hbz'. destruct (vote_decodes cid _ bz (vote_range_set _ _ _ _ _ Hr) Hbz') as (cv & Hcv & Hd).
    rewrite CanonicalizeVote_set in Hcv, Hcv2. destruct (CanonicalizeVote cid v) as [cv0|]; [|done].
    apply (inj Ret) in Hcv, Hcv2. assert (checkVotesOnlyDifferByTimestamp now2 bz bz2 = Ret (vote_Timestamp v', true)) as Hck.
    { unfold checkVotesOnlyDifferByTimestamp. rewrite Hd, Hd2, <-Hcv, <-Hcv2. cbn [cv_Timestamp cv_set_time]. do 2 f_equal. by apply vote_equal_eq. }
    rewrite Hck. cbn [mbind outcome_bind]. eexists. split; [done|]. split; [|done].
    etrans; [|symmetry; exact (f_equal (VoteSignBytes cid) Hv')]. unfold VoteSignBytes. rewrite !CanonicalizeVote_set.
    by destruct (CanonicalizeVote cid v).
Qed.
End safety.

(** C3: no double signing.  In every run of the signer, with requests in any
    order, failures, restarts and crashes between saving and releasing, two
    released signatures for the same height, round and step are the same
    signature over the same bytes. *)
Theorem FilePV_no_double_sign
    `{StdTimeLaws, !StdTimeDecode, !StdTimeRoundtrip, !Signer, !ProtoEqual, !ProtoEqualLaws} pv es e1 e2 :
  run pv es → e1 ∈ es → e2 ∈ es → ev_hrs e1 = ev_hrs e2 → ev_bytes e1 = ev_bytes e2 ∧ ev_sig e1 = ev_sig e2.
Proof. intros Hr. by apply (run_ok pv es Hr). Qed.

(** A vote the signer releases is the request with at most its timestamp
    and signatures changed; the signature it carries is the one on disk, over
    exactly the sign bytes of the released vote, and it was made now at a
    later height, round and step, or recorded before. *)
Theorem signVote_sound
    `{StdTimeLaws, !StdTimeDecode, !StdTimeRoundtrip, !Signer, !ProtoEqual, !ProtoEqualLaws} now pv es cid v pv' v' :
  run pv es → vote_range cid v → signVote now pv cid v = Ret (pv', v', None) →
  ∃ s bz, voteToStep v = Ret s ∧ VoteSignBytes cid v' = Ret bz ∧ pv_ok pv' ∧
    v' = set_vote v (vote_Timestamp v') (vote_Signature v') (vote_ExtensionSignature v') ∧
    signed_once pv pv' (vote_Height v) (vote_Round v) s bz (vote_Signature v').
Proof. intros Hr. apply signVote_spec. by apply (run_ok pv es Hr). Qed.

(** C36: recovery.  After a crash, asking for the same vote at another time
    returns the released signature, over the released bytes. *)
Theorem signVote_crash_recovery
    `{StdTimeLaws, !StdTimeDecode, !StdTimeRoundtrip, !Signer, !ProtoEqual, !ProtoEqualLaws} now now2 pv es cid v pv' v' t2 s2 e2 bz2 :
  run pv es → vote_range cid v → signVote now pv cid v = Ret (pv', v', None) → vote_Signature v' ≠ [] →
  VoteSignBytes cid (set_vote v t2 s2 e2) = Ret bz2 →
  ∃ v2, signVote now2 (LoadFilePV pv') cid (set_vote v t2 s2 e2) = Ret (LoadFilePV pv', v2, None) ∧
    VoteSignBytes cid v2 = VoteSignBytes cid v' ∧ vote_Signature v2 = vote_Signature v'.
Proof. intros Hr. apply signVote_again. by apply (run_ok pv es Hr). Qed.

(** The sign bytes of a vote decode to its canonical form, and those of a
    proposal to its. *)
Theorem sign_bytes_decode `{StdTimeLaws, !StdTimeDecode, !StdTimeRoundtrip} cid v p bz bz' :
  vote_range cid v → VoteSignBytes cid v = Ret bz → proposal_range cid p → ProposalSignBytes cid p = Ret bz' →
  (∃ cv, CanonicalizeVote cid v = Ret cv ∧ UnmarshalDelimited CanonicalVote_Unmarshal bz = Some cv) ∧
  (∃ cp, CanonicalizeProposal cid p = Ret cp ∧ UnmarshalDelimited CanonicalProposal_Unmarshal bz' = Some cp).
Proof. intros Hv Hbz Hp Hbz'. split; [by apply (vote_decodes cid v bz)|by apply (proposal_decodes cid p bz')]. Qed.

(** ** Witnesses *)

(** A decoder for the example format of times. *)
Definition example_decode : StdTimeDecode := λ b,
  m ← unmarshal (λ n, if n =? 1 then Some (on_varint (λ x t, mkTime (int64 x) (Nanos t)))
                      else if n =? 2 then Some (on_varint (λ x t, mkTime (Seconds t) (int64 x))) else None) b (mkTime 0 0);
  Some m.

Lemma example_roundtrip : @StdTimeRoundtrip example_time example_decode.
Proof.
  intros t b. unfold StdTimeMarshal, example_time. case_decide as Ht; [|done]. intros <-%(inj Some).
  unfold StdTimeUnmarshal, example_decode.
  match goal with |- context [unmarshal ?f _ _] => set (field := f) end.
  assert (∀ n h, field n = Some h → shrinks h) as Hsh.
  { intros n h. unfold field. repeat (case_match; [intros [= <-]; auto with proto|]). done. }
  rewrite (unmarshal_varint field Hsh x08 1 _ _ _ _ eq_refl eq_refl) by done.
  rewrite <-(app_nil_r (varint_field x10 _)), (unmarshal_varint field Hsh x10 2 _ _ _ _ eq_refl eq_refl) by done.
  cbn [Seconds Nanos]. rewrite !int_of_uint64, !int64_id by ulia. destruct t. done.
Qed.

Definition toy_signer : Signer := λ b, Some (x53 :: b).
Definition toy_equal : ProtoEqual.
Proof.
  refine {| vote_equal := λ a b, bool_decide (a = b); proposal_equal := λ a b, bool_decide (a = b) |}; solve_decision.
Defined.
Lemma toy_equal_laws : @ProtoEqualLaws toy_equal.
Proof. split; intros a b; apply bool_decide_eq_true. Qed.

Abbreviation toy_run := (@run example_time example_decode toy_signer toy_equal).
Abbreviation toy_signVote := (@signVote example_time example_decode toy_signer toy_equal zeroTime).

Lemma example_vote_range ty c : is_int32 ty → vote_range [x61] (example_vote ty c).
Proof. split; [by apply example_vote_ranges|by vm_compute]. Qed.

Definition toy_signed : FilePV * Vote :=
  match toy_signVote NewFilePV [x61] (example_vote PrevoteType x01) with Ret (pv, v, _) => (pv, v) | Panic _ => (NewFilePV, example_vote 0 x01) end.

Lemma FilePV_no_double_sign_witness :
  ∃ pv es e1 e2, toy_run pv es ∧ e1 ∈ es ∧ e2 ∈ es ∧ ev_hrs e1 = ev_hrs e2 ∧ ev_bytes e1 = ev_bytes e2.
Proof.
  assert (toy_signVote NewFilePV [x61] (example_vote PrevoteType x01) = Ret (toy_signed.1, toy_signed.2, None)) as Hs by (vm_compute; reflexivity).
  destruct (@VoteSignBytes example_time [x61] toy_signed.2) as [bz|] eqn:Hbz; [|vm_compute in Hbz; discriminate].
  pose proof (@run_vote example_time example_decode toy_signer toy_equal zeroTime [x61] (example_vote PrevoteType x01) NewFilePV [] _ _ stepPrevote bz
    (@run_new _ _ _ _) (example_vote_range PrevoteType x01 ltac:(by vm_compute)) Hs eq_refl Hbz) as Hrun.
  eexists _, _, _, _. split; [exact Hrun|]. split; [by left|]. split; [by left|]. split; [reflexivity|].
  refine (proj1 (@FilePV_no_double_sign example_time example_time_laws example_decode example_roundtrip toy_signer toy_equal toy_equal_laws
    _ _ _ _ Hrun _ _ _)); [by left|by left|reflexivity].
Defined.

Lemma signVote_sound_witness :
  ∃ bz, @VoteSignBytes example_time [x61] toy_signed.2 = Ret bz.
Proof.
  destruct (@signVote_sound example_time example_time_laws example_decode example_roundtrip toy_signer toy_equal toy_equal_laws
    zeroTime NewFilePV [] [x61] (example_vote PrevoteType x01) toy_signed.1 toy_signed.2) as (s & bz & _ & Hbz & _);
    [apply run_new|apply example_vote_range; by vm_compute|vm_compute; reflexivity|]. exists bz. exact Hbz.
Defined.

Lemma signVote_crash_recovery_witness :
  ∃ v2, toy_signVote (LoadFilePV toy_signed.1) [x61] (set_vote (example_vote PrevoteType x01) (mkTime 1700000009 1) [] []) =
    Ret (LoadFilePV toy_signed.1, v2, None) ∧ vote_Signature v2 = vote_Signature toy_signed.2.
Proof.
  destruct (@signVote_crash_recovery example_time example_time_laws example_decode example_roundtrip toy_signer toy_equal toy_equal_laws
    zeroTime zeroTime NewFilePV [] [x61] (example_vote PrevoteType x01) toy_signed.1 toy_signed.2 (mkTime 1700000009 1) [] []
    (match @VoteSignBytes example_time [x61] (set_vote (example_vote PrevoteType x01) (mkTime 1700000009 1) [] []) with Ret b => b | _ => [] end))
    as (v2 & Hv & _ & Hsig);
    [apply run_new|apply example_vote_range; by vm_compute|vm_compute; reflexivity|vm_compute; discriminate|vm_compute; reflexivity|].
  exists v2. split; [exact Hv|exact Hsig].
Defined.

Lemma sign_bytes_decode_witness :
  ∃ bz cv, @VoteSignBytes example_time [x61] (example_vote PrevoteType x01) = Ret bz ∧
    UnmarshalDelimited (@CanonicalVote_Unmarshal example_decode) bz = Some cv.
Proof.
  destruct (@VoteSignBytes example_time [x61] (example_vote PrevoteType x01)) as [bz|] eqn:Hbz; [|vm_compute in Hbz; discriminate].
  destruct (@ProposalSignBytes example_time [x61] example_proposal) as [bz'|] eqn:Hbz'; [|vm_compute in Hbz'; discriminate].
  destruct (@sign_bytes_decode example_time example_time_laws example_decode example_roundtrip [x61] (example_vote PrevoteType x01)
    example_proposal bz bz') as [(cv & _ & Hcv) _];
    [apply example_vote_range; by vm_compute|exact Hbz|split; by vm_compute|exact Hbz'|].
  exists bz, cv. split; [reflexivity|exact Hcv].
Defined.
