(* ===== verification/Merkle.v ===== *)
(** * Merkle trees

    Models [src/hetu-cometbft/crypto/merkle]: [tree.go] and [hash.go], the
    RFC 6962 tree over a list of byte slices, in its recursive and its
    iterative form, and [proof.go], the inclusion proofs.  The hash function
    is an interface.  Recursions that halve the list carry its length as
    fuel, which [hash_fuel_root] and its likes show to be enough. *)
From S2P Require Import Prelude.
From S2P Require Import Vote.
From S2P Require Import Validator.

(** [tmhash.Sum] is 32 bytes long. *)
Class HashSize `{Crypto} := hash_size : ∀ b, len (sha256 b) = tmhash_Size.

Section merkle.
Context `{Crypto}.

Definition emptyHash : bytes := sha256 [].
Definition leafHash (leaf : bytes) : bytes := sha256 (x00 :: leaf).
Definition innerHash (left right : bytes) : bytes := sha256 (x01 :: left ++ right).

(** [bits.Len]. *)
Definition bits_Len (x : Z) : Z := if x =? 0 then 0 else Z.log2 x + 1.

Definition getSplitPoint (length : Z) : outcome Z :=
  if length <? 1 then Panic "Trying to split a tree with size < 1"
  else
    let k := int64 (Z.shiftl 1 (bits_Len length - 1)) in
    Ret (if k =? length then Z.shiftr k 1 else k).

Fixpoint hash_fuel (fuel : nat) (items : list bytes) : outcome bytes :=
  match items, fuel with
  | [], _ => Ret emptyHash
  | [x], _ => Ret (leafHash x)
  | _, O => Panic "out of fuel"
  | _, S fuel =>
      k ← getSplitPoint (len items);
      left ← hash_fuel fuel (take (Z.to_nat k) items);
      right ← hash_fuel fuel (drop (Z.to_nat k) items);
      Ret (innerHash left right)
  end.
Definition HashFromByteSlices (items : list bytes) : outcome bytes := hash_fuel (length items) items.

(** One pass of the iterative form: the nodes are paired in place, which
    reads ahead of what it writes; an odd last node is moved down. *)
Fixpoint pair_up (items : list bytes) : list bytes :=
  match items with
  | a :: b :: items => innerHash a b :: pair_up items
  | [a] => [a]
  | [] => []
  end.
Fixpoint iterate (fuel : nat) (items : list bytes) : outcome bytes :=
  match items, fuel with
  | [], _ => Ret emptyHash
  | [x], _ => Ret x
  | _, O => Panic "out of fuel"
  | _, S fuel => iterate fuel (pair_up items)
  end.
Definition HashFromByteSlicesIterative (input : list bytes) : outcome bytes :=
  iterate (length input) (leafHash <$> input).

(** ** Proofs *)

Record Proof_ := mkProof { proof_Total : Z; proof_Index : Z; LeafHash : bytes; Aunts : list bytes }.
#[global] Instance Proof_eq_dec : EqDecision Proof_.
Proof. solve_decision. Defined.
Definition MaxAunts : Z := 100.

(** [trailsFromByteSlices] with [FlattenAunts]: for every leaf its hash and
    the siblings met on the way up, and the hash of the root. *)
Fixpoint trails_fuel (fuel : nat) (items : list bytes) : outcome (list (bytes * list bytes) * bytes) :=
  match items, fuel with
  | [], _ => Ret ([], emptyHash)
  | [x], _ => Ret ([(leafHash x, [])], leafHash x)
  | _, O => Panic "out of fuel"
  | _, S fuel =>
      k ← getSplitPoint (len items);
      '(lefts, leftRoot) ← trails_fuel fuel (take (Z.to_nat k) items);
      '(rights, rightRoot) ← trails_fuel fuel (drop (Z.to_nat k) items);
      Ret (((λ t, (t.1, t.2 ++ [rightRoot])) <$> lefts) ++ ((λ t, (t.1, t.2 ++ [leftRoot])) <$> rights),
           innerHash leftRoot rightRoot)
  end.

Definition ProofsFromByteSlices (items : list bytes) : outcome (bytes * list Proof_) :=
  '(trails, root) ← trails_fuel (length items) items;
  Ret (root, imap (λ i t, mkProof (len items) (Z.of_nat i) t.1 t.2) trails).

(** [None] is an error.  The aunts shrink at every call. *)
Fixpoint computeHashFromAunts_fuel (fuel : nat) (index total : Z) (leafHash : bytes) (innerHashes : list bytes)
    : outcome (option bytes) :=
  if (total <=? index) || (index <? 0) || (total <=? 0) then Ret None
  else if total =? 1 then Ret (if bool_decide (innerHashes = []) then Some leafHash else None)
  else match last innerHashes, fuel with
       | None, _ => Ret None
       | Some _, O => Panic "out of fuel"
       | Some aunt, S fuel =>
           numLeft ← getSplitPoint total;
           let rest := take (length innerHashes - 1) innerHashes in
           if index <? numLeft then
             leftHash ← computeHashFromAunts_fuel fuel index numLeft leafHash rest;
             Ret (match leftHash with None => None | Some l => Some (innerHash l aunt) end)
           else
             rightHash ← computeHashFromAunts_fuel fuel (int64 (index - numLeft)) (int64 (total - numLeft)) leafHash rest;
             Ret (match rightHash with None => None | Some r => Some (innerHash aunt r) end)
       end.
Definition computeHashFromAunts (index total : Z) (leafHash : bytes) (innerHashes : list bytes) : outcome (option bytes) :=
  computeHashFromAunts_fuel (length innerHashes) index total leafHash innerHashes.

Inductive proof_error :=
| ErrNilRootHash
| ErrNegativeTotal
| ErrNegativeProofIndex
| ErrLeafHash
| ErrComputeRootHash
| ErrRootHash.

(** A nil [rootHash] is [None]. *)
Definition Proof_Verify (sp : Proof_) (rootHash : option bytes) (leaf : bytes) : outcome (option proof_error) :=
  match rootHash with
  | None => Ret (Some ErrNilRootHash)
  | Some rootHash =>
      if proof_Total sp <? 0 then Ret (Some ErrNegativeTotal)
      else if proof_Index sp <? 0 then Ret (Some ErrNegativeProofIndex)
      else if negb (bool_decide (LeafHash sp = leafHash leaf)) then Ret (Some ErrLeafHash)
      else
        computedHash ← computeHashFromAunts (proof_Index sp) (proof_Total sp) (LeafHash sp) (Aunts sp);
        match computedHash with
        | None => Ret (Some ErrComputeRootHash)
        | Some h => Ret (if bool_decide (h = rootHash) then None else Some ErrRootHash)
        end
  end.

Definition Proof_ValidateBasic (sp : Proof_) : bool :=
  negb (proof_Total sp <? 0) && negb (proof_Index sp <? 0) && (len (LeafHash sp) =? tmhash_Size) &&
  negb (MaxAunts <? len (Aunts sp)) && forallb (λ a, len a =? tmhash_Size) (Aunts sp).
End merkle.

(** ** Merkle trees: correctness

    The iterative hash equals the recursive one; every generated proof
    verifies; and a proof that verifies proves the item at its index, or
    exhibits a collision of the hash function. *)

(** ** The split point *)

(** The largest power of two below [n]. *)
Definition split (n : nat) : nat := (2 ^ Nat.log2 (n - 1))%nat.

Lemma split_bounds n : (2 ≤ n)%nat → (1 ≤ split n ∧ split n < n ∧ n ≤ 2 * split n)%nat.
Proof.
  intros Hn. unfold split. destruct (Nat.log2_spec (n - 1)) as [Hl Hu]; [lia|].
  rewrite Nat.pow_succ_r' in Hu. lia.
Qed.

Lemma split_unique n e : (2 ^ e < n ≤ 2 * 2 ^ e)%nat → split n = (2 ^ e)%nat.
Proof.
  intros Hn. unfold split. f_equal. apply Nat.log2_unique; [lia|]. rewrite Nat.pow_succ_r'. lia.
Qed.

Lemma split_half n : (3 ≤ n)%nat → ∃ j, split n = (2 * j)%nat ∧ split ((n + 1) / 2) = j.
Proof.
  intros Hn. destruct (split_bounds n ltac:(lia)) as (H1 & H2 & H3). unfold split in *.
  destruct (Nat.log2 (n - 1)) as [|e] eqn:He; [simpl in *; lia|].
  exists (2 ^ e)%nat. rewrite Nat.pow_succ_r' in *. split; [done|]. change (split ((n + 1) / 2) = 2 ^ e)%nat.
  apply split_unique. pose proof (Nat.div_mod (n + 1) 2 ltac:(lia)). pose proof (Nat.mod_upper_bound (n + 1) 2 ltac:(lia)). lia.
Qed.

Lemma getSplitPoint_spec n :
  (2 ≤ n)%nat → Z.of_nat n ≤ MaxInt64 → getSplitPoint (Z.of_nat n) = Ret (Z.of_nat (split n)).
Proof.
  intros Hn Hmax. unfold getSplitPoint, bits_Len. destruct (Z.ltb_spec (Z.of_nat n) 1); [lia|].
  destruct (Z.eqb_spec (Z.of_nat n) 0); [lia|]. replace (Z.log2 (Z.of_nat n) + 1 - 1) with (Z.log2 (Z.of_nat n)) by lia.
  destruct (Z.log2_spec (Z.of_nat n)) as [Hl Hu]; [lia|]. pose proof (Z.log2_nonneg (Z.of_nat n)) as Hlog.
  rewrite Z.shiftl_1_l, int64_id by ulia. rewrite Z.pow_succ_r in Hu by done.
  assert (∀ e, 0 ≤ e → 2 ^ e = Z.of_nat (2 ^ Z.to_nat e)) as Hpow.
  { intros e He. rewrite Nat2Z.inj_pow. by rewrite Z2Nat.id. }
  destruct (Z.eqb_spec (2 ^ Z.log2 (Z.of_nat n)) (Z.of_nat n)) as [Heq|Hne]; f_equal.
  - rewrite Z.shiftr_div_pow2 by lia. destruct (Z.log2 (Z.of_nat n)) as [|p|p] eqn:E; [simpl in *; lia| |lia].
    replace (Z.pos p) with (1 + (Z.pos p - 1)) in Heq |- * by lia. rewrite Z.pow_add_r in Heq |- * by lia.
    change (2 ^ 1) with 2 in *. rewrite Z.mul_comm, Z.div_mul by lia. rewrite Hpow in Heq |- * by lia.
    f_equal. symmetry. apply split_unique. lia.
  - rewrite Hpow in * by done. f_equal. symmetry. apply split_unique. lia.
Qed.

(** Induction along the splits. *)
Lemma split_ind {A} (P : list A → Prop) :
  P [] → (∀ x, P [x]) →
  (∀ l, (2 ≤ length l)%nat → P (take (split (length l)) l) → P (drop (split (length l)) l) → P l) → ∀ l, P l.
Proof.
  intros H0 H1 Hs l. induction l as [l IH] using (Wf_nat.induction_ltof1 _ (@length A)). unfold Wf_nat.ltof in IH.
  destruct l as [|x [|y l]]; [done|done|]. set (l' := x :: y :: l) in *.
  assert (2 ≤ length l')%nat as Hl by (simpl; lia). destruct (split_bounds (length l') Hl) as (? & ? & ?).
  apply Hs; [done|..]; apply IH; [rewrite length_take|rewrite length_drop]; lia.
Qed.

Lemma length_split {A} (l : list A) :
  (2 ≤ length l)%nat → length (take (split (length l)) l) = split (length l) ∧
    length (drop (split (length l)) l) = (length l - split (length l))%nat.
Proof. intros Hl. destruct (split_bounds _ Hl) as (? & ? & ?). rewrite length_take, length_drop. lia. Qed.

Section merkle.
Context `{Crypto}.

(** ** The tree over nodes *)

Fixpoint root_fuel (fuel : nat) (nodes : list bytes) : bytes :=
  match nodes, fuel with
  | [], _ => emptyHash
  | [x], _ => x
  | _, O => []
  | _, S fuel => innerHash (root_fuel fuel (take (split (length nodes)) nodes)) (root_fuel fuel (drop (split (length nodes)) nodes))
  end.
Definition root (nodes : list bytes) : bytes := root_fuel (length nodes) nodes.

Lemma root_fuel_enough fuel nodes : (length nodes ≤ fuel)%nat → root_fuel fuel nodes = root nodes.
Proof.
  unfold root. revert fuel. induction nodes as [|x|nodes Hl IH1 IH2] using split_ind; intros fuel Hf.
  - by destruct fuel.
  - by destruct fuel.
  - destruct (split_bounds _ Hl) as (? & ? & ?). destruct (length_split nodes Hl) as [Hlt Hld].
    destruct nodes as [|a [|b nodes]]; [simpl in *; lia..|]. set (l := a :: b :: nodes) in *.
    destruct fuel as [|fuel]; [simpl in Hf; lia|].
    change (innerHash (root_fuel fuel (take (split (length l)) l)) (root_fuel fuel (drop (split (length l)) l)) =
      innerHash (root_fuel (S (length nodes)) (take (split (length l)) l)) (root_fuel (S (length nodes)) (drop (split (length l)) l))).
    assert (length l = S (S (length nodes))) as Hll by done.
    rewrite (IH1 fuel), (IH2 fuel), (IH1 (S (length nodes))), (IH2 (S (length nodes))) by lia. done.
Qed.

Lemma root_unfold l :
  (2 ≤ length l)%nat → root l = innerHash (root (take (split (length l)) l)) (root (drop (split (length l)) l)).
Proof.
  intros Hl. destruct (split_bounds _ Hl) as (? & ? & ?). destruct (length_split l Hl) as [Hlt Hld].
  destruct l as [|a [|b l]]; [simpl in *; lia..|]. set (l' := a :: b :: l) in *.
  assert (length l' = S (S (length l))) as Hll by done.
  change (root l') with (innerHash (root_fuel (S (length l)) (take (split (length l')) l')) (root_fuel (S (length l)) (drop (split (length l')) l'))).
  by rewrite !root_fuel_enough by lia.
Qed.

Lemma hash_fuel_root fuel items :
  (length items ≤ fuel)%nat → len items ≤ MaxInt64 → hash_fuel fuel items = Ret (root (leafHash <$> items)).
Proof.
  revert fuel. induction items as [|x|items Hl IH1 IH2] using split_ind; intros fuel Hf Hmax.
  - by destruct fuel.
  - by destruct fuel.
  - destruct (split_bounds _ Hl) as (? & ? & ?). destruct (length_split items Hl) as [Hlt Hld]. unfold len in *.
    rewrite (root_unfold (leafHash <$> items)) by (by rewrite length_fmap). rewrite length_fmap, <-fmap_take, <-fmap_drop.
    destruct items as [|a [|b items]]; [simpl in *; lia..|]. set (l := a :: b :: items) in *.
    destruct fuel as [|fuel]; [simpl in Hf; lia|].
    change (hash_fuel (S fuel) l) with (k ← getSplitPoint (Z.of_nat (length l));
      left ← hash_fuel fuel (take (Z.to_nat k) l); right ← hash_fuel fuel (drop (Z.to_nat k) l); Ret (innerHash left right)).
    rewrite getSplitPoint_spec by done. cbn [mbind outcome_bind]. rewrite Nat2Z.id.
    rewrite IH1, IH2 by lia. done.
Qed.

(** ** The iterative form *)

Lemma pair_ind {A} (P : list A → Prop) :
  P [] → (∀ x, P [x]) → (∀ a b l, P l → P (a :: b :: l)) → ∀ l, P l.
Proof using. intros H0 H1 Hs. fix IH 1. intros [|a [|b l]]; [exact H0|apply H1|apply Hs, IH]. Qed.

Lemma length_pair_up l : length (pair_up l) = ((length l + 1) / 2)%nat.
Proof using.
  induction l as [|x|a b l IH] using pair_ind; [done|done|]. cbn [pair_up length]. rewrite IH.
  replace (S (S (length l)) + 1)%nat with (1 * 2 + (length l + 1))%nat by lia. by rewrite Nat.div_add_l by lia.
Qed.

Lemma pair_up_app l1 l2 : Nat.Even (length l1) → pair_up (l1 ++ l2) = pair_up l1 ++ pair_up l2.
Proof using.
  induction l1 as [|x|a b l1 IH] using pair_ind; intros Hev; [done| |].
  - destruct Hev as [m Hm]. simpl in Hm. lia.
  - rewrite <-!app_comm_cons. cbn [pair_up]. rewrite <-app_comm_cons. f_equal. apply IH.
    destruct Hev as [m Hm]. exists (m - 1)%nat. simpl in Hm. lia.
Qed.

(** A pass does not change the root. *)
Lemma root_pair_up l : root (pair_up l) = root l.
Proof using.
  induction l as [|x|l Hl IH1 IH2] using split_ind; [done|done|].
  destruct (decide (length l = 2%nat)) as [H2|H2]; [by destruct l as [|a [|b [|? ?]]]|].
  destruct (split_half (length l)) as (j & Hj & Hh); [lia|]. destruct (split_bounds _ Hl) as (? & ? & ?).
  destruct (length_split l Hl) as [Hlt Hld].
  assert (pair_up l = pair_up (take (split (length l)) l) ++ pair_up (drop (split (length l)) l)) as Hp.
  { rewrite <-pair_up_app, take_drop; [done|]. exists j. lia. }
  assert (length (pair_up (take (split (length l)) l)) = j) as Hlj.
  { rewrite length_pair_up, Hlt, Hj. replace (2 * j + 1)%nat with (j * 2 + 1)%nat by lia. rewrite Nat.div_add_l by lia. simpl. lia. }
  rewrite (root_unfold (pair_up l)).
  - rewrite (root_unfold l Hl), <-IH1, <-IH2, length_pair_up, Hh, Hp. rewrite take_app_length', drop_app_length' by done. done.
  - rewrite length_pair_up. apply Nat.div_le_lower_bound; lia.
Qed.

Lemma iterate_root fuel nodes : (length nodes ≤ fuel)%nat → iterate fuel nodes = Ret (root nodes).
Proof using.
  revert nodes. induction fuel as [|fuel IH]; intros nodes Hf.
  { by destruct nodes as [|? [|? ?]]; simpl in Hf; [|lia..]. }
  destruct nodes as [|a [|b nodes]]; [done|done|]. set (l := a :: b :: nodes) in *.
  change (iterate (S fuel) l) with (iterate fuel (pair_up l)). rewrite IH, root_pair_up; [done|].
  rewrite length_pair_up. assert (2 ≤ length l)%nat by (simpl; lia).
  pose proof (Nat.div_mod (length l + 1) 2 ltac:(lia)). lia.
Qed.

(** ** Proofs *)

Lemma compute_one index lh aunts h :
  computeHashFromAunts index 1 lh aunts = Ret (Some h) ↔ index = 0 ∧ aunts = [] ∧ h = lh.
Proof using.
  unfold computeHashFromAunts. assert (∀ fuel, computeHashFromAunts_fuel fuel index 1 lh aunts =
    if (1 <=? index) || (index <? 0) || (1 <=? 0) then Ret None else Ret (if bool_decide (aunts = []) then Some lh else None)) as ->
    by (by intros [|]).
  destruct (Z.leb_spec 1 index); simpl; [split; [done|lia]|]. destruct (Z.ltb_spec index 0); simpl; [split; [done|lia]|].
  case_bool_decide as Ha; split; try done; [intros [= ->]; split_and!; [lia|done|done]|by intros (_ & _ & ->)|by intros (_ & ? & _)].
Qed.

Lemma compute_nil index total lh : 2 ≤ total → computeHashFromAunts index total lh [] = Ret None.
Proof using.
  intros Ht. unfold computeHashFromAunts. cbn [length computeHashFromAunts_fuel last]. case_match; [done|].
  destruct (Z.eqb_spec total 1); [lia|done].
Qed.

Lemma compute_snoc index n lh aunts a :
  (2 ≤ n)%nat → Z.of_nat n ≤ MaxInt64 → 0 ≤ index < Z.of_nat n →
  computeHashFromAunts index (Z.of_nat n) lh (aunts ++ [a]) =
    if index <? Z.of_nat (split n) then
      r ← computeHashFromAunts index (Z.of_nat (split n)) lh aunts;
      Ret (match r with None => None | Some l => Some (innerHash l a) end)
    else
      r ← computeHashFromAunts (index - Z.of_nat (split n)) (Z.of_nat (n - split n)) lh aunts;
      Ret (match r with None => None | Some r => Some (innerHash a r) end).
Proof using.
  intros Hn Hmax Hi. destruct (split_bounds n Hn) as (? & ? & ?). unfold computeHashFromAunts at 1.
  rewrite length_app, Nat.add_comm. cbn [length Nat.add computeHashFromAunts_fuel].
  destruct (Z.leb_spec (Z.of_nat n) index); [lia|]. destruct (Z.ltb_spec index 0); [lia|].
  destruct (Z.leb_spec (Z.of_nat n) 0); [lia|]. cbn [orb]. destruct (Z.eqb_spec (Z.of_nat n) 1); [lia|].
  rewrite last_snoc, getSplitPoint_spec by done. cbn [mbind outcome_bind].
  rewrite length_app. cbn [length]. rewrite Nat.add_sub, take_app_length.
  rewrite !int64_id by ulia. by rewrite Nat2Z.inj_sub by lia.
Qed.

(** The trails of a tree verify. *)
Lemma trails_spec fuel items :
  (length items ≤ fuel)%nat → len items ≤ MaxInt64 →
  ∃ ts, trails_fuel fuel items = Ret (ts, root (leafHash <$> items)) ∧ ts.*1 = leafHash <$> items ∧
    ∀ i t, ts !! i = Some t → computeHashFromAunts (Z.of_nat i) (len items) t.1 t.2 = Ret (Some (root (leafHash <$> items))).
Proof using.
  revert fuel. induction items as [|x|items Hl IH1 IH2] using split_ind; intros fuel Hf Hmax.
  - exists []. split_and!; [by destruct fuel|done|done].
  - exists [(leafHash x, [])]. split_and!; [by destruct fuel|done|]. intros [|i] t Ht; [|done]. injection Ht as <-. by apply compute_one.
  - destruct (split_bounds _ Hl) as (? & ? & ?). destruct (length_split items Hl) as [Hlt Hld]. unfold len in *.
    rewrite (root_unfold (leafHash <$> items)) by (by rewrite length_fmap). rewrite length_fmap, <-fmap_take, <-fmap_drop.
    destruct items as [|a [|b items]]; [simpl in *; lia..|]. set (l := a :: b :: items) in *. set (k := split (length l)) in *.
    destruct fuel as [|fuel]; [simpl in Hf; lia|].
    destruct (IH1 fuel) as (ls & Hls & Hls1 & Hlv); [lia|lia|]. destruct (IH2 fuel) as (rs & Hrs & Hrs1 & Hrv); [lia|lia|].
    eexists. split_and!.
    + change (trails_fuel (S fuel) l) with (k ← getSplitPoint (Z.of_nat (length l));
        '(lefts, leftRoot) ← trails_fuel fuel (take (Z.to_nat k) l);
        '(rights, rightRoot) ← trails_fuel fuel (drop (Z.to_nat k) l);
        Ret (((λ t, (t.1, t.2 ++ [rightRoot])) <$> lefts) ++ ((λ t, (t.1, t.2 ++ [leftRoot])) <$> rights),
           innerHash leftRoot rightRoot)).
      rewrite getSplitPoint_spec by done. cbn [mbind outcome_bind]. rewrite Nat2Z.id. fold k. rewrite Hls. cbn [mbind outcome_bind].
      rewrite Hrs. cbn [mbind outcome_bind]. reflexivity.
    + transitivity (leafHash <$> (take k l ++ drop k l)); [|by rewrite take_drop].
      rewrite !fmap_app, <-!list_fmap_compose. f_equal; [rewrite <-Hls1|rewrite <-Hrs1]; by apply list_fmap_ext.
    + assert (length ls = k) as Hll by (rewrite <-(length_fmap fst ls), Hls1, length_fmap; done).
      assert (length rs = (length l - k)%nat) as Hlr by (rewrite <-(length_fmap fst rs), Hrs1, length_fmap; done).
      intros i t [Hi|[Hge Hi]]%lookup_app_Some; rewrite ?length_fmap in *; rewrite list_lookup_fmap in Hi.
      * destruct (ls !! i) as [t0|] eqn:Hti; [|done]. simpl in Hi. injection Hi as <-. pose proof (lookup_lt_Some _ _ _ Hti).
        cbn [fst snd]. rewrite compute_snoc by lia. fold k. destruct (Z.ltb_spec (Z.of_nat i) (Z.of_nat k)); [|lia].
        specialize (Hlv i t0 Hti). rewrite Hlt in Hlv. by rewrite Hlv.
      * destruct (rs !! (i - length ls)%nat) as [t0|] eqn:Hti; [|done]. simpl in Hi. injection Hi as <-. pose proof (lookup_lt_Some _ _ _ Hti).
        cbn [fst snd]. rewrite compute_snoc by lia. fold k. destruct (Z.ltb_spec (Z.of_nat i) (Z.of_nat k)); [lia|].
        specialize (Hrv _ t0 Hti). rewrite Hld in Hrv. replace (Z.of_nat i - Z.of_nat k) with (Z.of_nat (i - length ls)) by lia. by rewrite Hrv.
Qed.

(** ** Soundness *)

(** The byte strings that hashing [items] feeds to the hash function. *)
Inductive tree_input : list bytes → bytes → Prop :=
| tree_leaf x : tree_input [x] (x00 :: x)
| tree_inner l : (2 ≤ length l)%nat →
    tree_input l (x01 :: root (leafHash <$> take (split (length l)) l) ++ root (leafHash <$> drop (split (length l)) l))
| tree_left l b : (2 ≤ length l)%nat → tree_input (take (split (length l)) l) b → tree_input l b
| tree_right l b : (2 ≤ length l)%nat → tree_input (drop (split (length l)) l) b → tree_input l b.

(** The byte strings that verifying a proof for [leaf], with an index, a
    total and its aunts, feeds to the hash function. *)
Inductive proof_input (leaf : bytes) : Z → nat → list bytes → bytes → Prop :=
| proof_leaf i n aunts : proof_input leaf i n aunts (x00 :: leaf)
| proof_left i n aunts a h : i < Z.of_nat (split n) →
    computeHashFromAunts i (Z.of_nat (split n)) (leafHash leaf) aunts = Ret (Some h) →
    proof_input leaf i n (aunts ++ [a]) (x01 :: h ++ a)
| proof_right i n aunts a h : Z.of_nat (split n) ≤ i →
    computeHashFromAunts (i - Z.of_nat (split n)) (Z.of_nat (n - split n)) (leafHash leaf) aunts = Ret (Some h) →
    proof_input leaf i n (aunts ++ [a]) (x01 :: a ++ h)
| proof_in_left i n aunts a b : i < Z.of_nat (split n) →
    proof_input leaf i (split n) aunts b → proof_input leaf i n (aunts ++ [a]) b
| proof_in_right i n aunts a b : Z.of_nat (split n) ≤ i →
    proof_input leaf (i - Z.of_nat (split n)) (n - split n) aunts b → proof_input leaf i n (aunts ++ [a]) b.

(** Two different strings with the same hash, one of which hashing the items
    and the other of which verifying the proof evaluates: a collision that
    whoever holds both can write down. *)
Definition collision (items : list bytes) (leaf : bytes) (index : Z) (aunts : list bytes) : Prop :=
  ∃ x y, tree_input items x ∧ proof_input leaf index (length items) aunts y ∧ x ≠ y ∧ sha256 x = sha256 y.

Lemma collision_left items leaf index aunts a :
  (2 ≤ length items)%nat → index < Z.of_nat (split (length items)) →
  collision (take (split (length items)) items) leaf index aunts → collision items leaf index (aunts ++ [a]).
Proof using.
  intros Hl Hi (x & y & Hx & Hy & Hne & Hs). destruct (length_split items Hl) as [Hlt _]. rewrite Hlt in Hy.
  exists x, y. split_and!; [by apply tree_left|by apply proof_in_left|done|done].
Qed.

Lemma collision_right items leaf index aunts a :
  (2 ≤ length items)%nat → Z.of_nat (split (length items)) ≤ index →
  collision (drop (split (length items)) items) leaf (index - Z.of_nat (split (length items))) aunts →
  collision items leaf index (aunts ++ [a]).
Proof using.
  intros Hl Hi (x & y & Hx & Hy & Hne & Hs). destruct (length_split items Hl) as [_ Hld]. rewrite Hld in Hy.
  exists x, y. split_and!; [by apply tree_right|by apply proof_in_right|done|done].
Qed.

Lemma root_size `{!HashSize} nodes : Forall (λ h, len h = tmhash_Size) nodes → len (root nodes) = tmhash_Size.
Proof using.
  intros Hf. destruct nodes as [|x [|y nodes]].
  - apply hash_size.
  - by inversion Hf.
  - rewrite root_unfold by (simpl; lia). apply hash_size.
Qed.

Lemma leaf_size `{!HashSize} items : Forall (λ h, len h = tmhash_Size) (leafHash <$> items).
Proof using. apply Forall_fmap, Forall_forall. intros x _. apply hash_size. Qed.

Lemma compute_range index total lh aunts h :
  computeHashFromAunts index total lh aunts = Ret (Some h) → 0 ≤ index < total.
Proof using.
  unfold computeHashFromAunts. destruct (length aunts); cbn [computeHashFromAunts_fuel];
    (destruct (Z.leb_spec total index); [done|]); (destruct (Z.ltb_spec index 0); [done|]); lia.
Qed.

Lemma compute_size `{!HashSize} index n lh aunts h :
  Z.of_nat n ≤ MaxInt64 → len lh = tmhash_Size →
  computeHashFromAunts index (Z.of_nat n) lh aunts = Ret (Some h) → len h = tmhash_Size.
Proof using.
  intros Hn Hlh Hc. pose proof (compute_range _ _ _ _ _ Hc) as Hr. destruct (decide (n = 1%nat)) as [->|Hne].
  - by apply compute_one in Hc as (_ & _ & ->).
  - destruct aunts as [|a aunts _] using rev_ind; [by rewrite compute_nil in Hc by lia|].
    rewrite compute_snoc in Hc by lia. destruct (index <? _).
    + destruct (computeHashFromAunts _ _ _ _) as [[l|]|]; simpl in Hc; [|done..]. injection Hc as <-. apply hash_size.
    + destruct (computeHashFromAunts _ _ _ _) as [[l|]|]; simpl in Hc; [|done..]. injection Hc as <-. apply hash_size.
Qed.

Lemma inner_inj a b c d :
  len a = len c ∨ len b = len d → innerHash a b = innerHash c d →
  (a = c ∧ b = d) ∨ (x01 :: a ++ b ≠ x01 :: c ++ d ∧ sha256 (x01 :: a ++ b) = sha256 (x01 :: c ++ d)).
Proof using.
  intros Hlen Hi. destruct (decide (x01 :: a ++ b = x01 :: c ++ d)) as [He|Hne]; [left|by right].
  apply (inj (cons x01)) in He. unfold len in Hlen.
  destruct Hlen as [Hl|Hl]; [apply app_inj_1 in He|apply app_inj_2 in He]; tauto || lia.
Qed.

Lemma compute_sound `{!HashSize} items : ∀ index leaf aunts,
  items ≠ [] → len items ≤ MaxInt64 →
  computeHashFromAunts index (len items) (leafHash leaf) aunts = Ret (Some (root (leafHash <$> items))) →
  (0 ≤ index ∧ items !! Z.to_nat index = Some leaf) ∨ collision items leaf index aunts.
Proof using.
  induction items as [|x|items Hl IH1 IH2] using split_ind; intros index leaf aunts Hne Hmax Hc.
  - done.
  - apply compute_one in Hc as (-> & _ & Hh). destruct (decide (x = leaf)) as [->|Hx]; [by left|right].
    exists (x00 :: x), (x00 :: leaf). split_and!; [constructor|constructor|congruence|exact Hh].
  - destruct (split_bounds _ Hl) as (? & ? & ?). destruct (length_split items Hl) as [Hlt Hld].
    pose proof (compute_range _ _ _ _ _ Hc) as Hr. unfold len in Hr.
    destruct aunts as [|a aunts _] using rev_ind; [by rewrite compute_nil in Hc by (unfold len; lia)|].
    unfold len in *. rewrite compute_snoc in Hc by lia.
    rewrite (root_unfold (leafHash <$> items)) in Hc by (by rewrite length_fmap). rewrite length_fmap, <-fmap_take, <-fmap_drop in Hc.
    set (k := split (length items)) in *.
    destruct (Z.ltb_spec index (Z.of_nat k)).
    + destruct (computeHashFromAunts index _ _ aunts) as [[h|]|] eqn:Hh; simpl in Hc; [|done..]. injection Hc as Hc. symmetry in Hc.
      apply inner_inj in Hc as [[<- _]|[? ?]].
      * destruct (IH1 index leaf aunts) as [[? Hi]|?]; [intros He; rewrite He in Hlt; simpl in Hlt; lia|lia|by rewrite Hlt| |].
        -- left. split; [done|]. by apply lookup_take_Some in Hi as [? _].
        -- right. by apply collision_left.
      * right. eexists _, _. split_and!; [by apply tree_inner|by apply (proof_left _ _ _ _ _ h)|done|done].
      * left. rewrite (root_size _ (leaf_size _)). symmetry. eapply compute_size; [|apply hash_size|exact Hh]. lia.
    + destruct (computeHashFromAunts (index - Z.of_nat k) _ _ aunts) as [[h|]|] eqn:Hh; simpl in Hc; [|done..]. injection Hc as Hc. symmetry in Hc.
      apply inner_inj in Hc as [[_ <-]|[? ?]].
      * destruct (IH2 (index - Z.of_nat k) leaf aunts) as [[? Hi]|?];
          [intros He; rewrite He in Hld; simpl in Hld; lia|lia|by rewrite Hld| |].
        -- left. split; [lia|]. rewrite lookup_drop in Hi. rewrite <-Hi. f_equal. lia.
        -- right. by apply collision_right.
      * right. eexists _, _. split_and!; [by apply tree_inner|by apply (proof_right _ _ _ _ _ h)|done|done].
      * right. rewrite (root_size _ (leaf_size _)). symmetry. eapply compute_size; [|apply hash_size|exact Hh]. lia.
Qed.

Lemma Verify_iff sp r leaf :
  Proof_Verify sp (Some r) leaf = Ret None ↔
  0 ≤ proof_Total sp ∧ 0 ≤ proof_Index sp ∧ LeafHash sp = leafHash leaf ∧
  computeHashFromAunts (proof_Index sp) (proof_Total sp) (LeafHash sp) (Aunts sp) = Ret (Some r).
Proof using.
  unfold Proof_Verify. destruct (Z.ltb_spec (proof_Total sp) 0); [split; [done|lia]|].
  destruct (Z.ltb_spec (proof_Index sp) 0); [split; [done|lia]|].
  case_bool_decide as Hl; simpl; [|split; [done|tauto]].
  destruct (computeHashFromAunts _ _ _ _) as [[h|]|]; simpl.
  - case_bool_decide as Hh; split; try done; [intros _; split_and!; congruence|]. intros (_ & _ & _ & [= ->]). done.
  - split; [done|]. by intros (_ & _ & _ & ?).
  - split; [done|]. by intros (_ & _ & _ & ?).
Qed.

Lemma ProofsFromByteSlices_spec items :
  len items ≤ MaxInt64 →
  ∃ proofs, ProofsFromByteSlices items = Ret (root (leafHash <$> items), proofs) ∧ length proofs = length items ∧
    ∀ i x, items !! i = Some x → ∃ sp, proofs !! i = Some sp ∧ proof_Index sp = Z.of_nat i ∧ proof_Total sp = len items ∧
      LeafHash sp = leafHash x ∧
      computeHashFromAunts (proof_Index sp) (proof_Total sp) (LeafHash sp) (Aunts sp) = Ret (Some (root (leafHash <$> items))).
Proof using.
  intros Hmax. destruct (trails_spec (length items) items ltac:(lia) Hmax) as (ts & Hts & Hfst & Hv).
  unfold ProofsFromByteSlices. rewrite Hts. cbn [mbind outcome_bind]. eexists. split; [done|].
  assert (length ts = length items) as Hlen by (by rewrite <-(length_fmap fst ts), Hfst, length_fmap). rewrite length_imap. split; [done|].
  intros i x Hx. assert ((leafHash <$> items) !! i = Some (leafHash x)) as Hlx by (by rewrite list_lookup_fmap, Hx).
  rewrite <-Hfst, list_lookup_fmap in Hlx. destruct (ts !! i) as [t|] eqn:Ht; [|done]. simpl in Hlx. injection Hlx as Hlx.
  eexists. rewrite list_lookup_imap, Ht. split; [done|]. cbn. split_and!; [done|done|done|]. by apply Hv.
Qed.
End merkle.

(** The iterative hash computes the root the recursive definition
    gives. *)
Theorem HashFromByteSlicesIterative_equivalent `{Crypto} items :
  len items ≤ MaxInt64 →
  ∃ h, HashFromByteSlices items = Ret h ∧ HashFromByteSlicesIterative items = Ret h.
Proof.
  intros Hmax. exists (root (leafHash <$> items)). split; [by apply hash_fuel_root|].
  apply iterate_root. by rewrite length_fmap.
Qed.

(** [ProofsFromByteSlices] returns the root [HashFromByteSlices] computes
    and one proof for each item, which [Verify] accepts for that item. *)
Theorem proofs_verify `{Crypto} items :
  len items ≤ MaxInt64 →
  ∃ h proofs, HashFromByteSlices items = Ret h ∧ ProofsFromByteSlices items = Ret (h, proofs) ∧
    length proofs = length items ∧
    ∀ i x, items !! i = Some x → ∃ sp, proofs !! i = Some sp ∧ proof_Index sp = Z.of_nat i ∧ proof_Total sp = len items ∧
      Proof_Verify sp (Some h) x = Ret None.
Proof.
  intros Hmax. destruct (ProofsFromByteSlices_spec items Hmax) as (proofs & Hp & Hlen & Hv).
  exists (root (leafHash <$> items)), proofs. split_and!; [by apply hash_fuel_root|done|done|].
  intros i x Hx. destruct (Hv i x Hx) as (sp & Hsp & Hi & Ht & Hl & Hc). exists sp. split_and!; [done|done|done|].
  apply Verify_iff. split_and!; [rewrite Ht; apply len_nonneg|lia|done|done].
Qed.

(** C27: soundness.  A proof that verifies against the root of a list, for the
    right number of items, proves that the leaf is the item at the proof's
    index, or else two different strings, one that hashing the list evaluates
    and one that verifying the proof evaluates, have the same hash. *)
Theorem verify_sound `{Crypto, !HashSize} items h sp leaf :
  items ≠ [] → len items ≤ MaxInt64 → HashFromByteSlices items = Ret h →
  proof_Total sp = len items → Proof_Verify sp (Some h) leaf = Ret None →
  items !! Z.to_nat (proof_Index sp) = Some leaf ∨ collision items leaf (proof_Index sp) (Aunts sp).
Proof.
  intros Hne Hmax Hh Ht (_ & Hi & Hl & Hc)%Verify_iff.
  rewrite (hash_fuel_root (length items) items ltac:(lia) Hmax : HashFromByteSlices items = _) in Hh.
  apply (inj Ret) in Hh as <-. rewrite Ht, Hl in Hc.
  destruct (compute_sound items _ _ _ Hne Hmax Hc) as [[_ ?]|?]; [by left|by right].
Qed.

(** ** Witnesses *)

(** A checksum of the right size, enough to run the code. *)
Definition sum32 (b : bytes) : bytes :=
  take 32 (foldl (λ acc x, x :: acc) [] b ++ replicate 32 (Byte.x00)).
Definition toy_hash : Crypto := {| key_address := KeyBytes; verify_signature := λ _ _ _, true; sha256 := sum32 |}.
Lemma toy_hash_size : @HashSize toy_hash.
Proof.
  intros b. unfold sha256, toy_hash, sum32, len. rewrite length_take, length_app, length_replicate. unfold tmhash_Size. lia.
Qed.
Definition toy_items : list bytes := [[x01]; [x02]; [x03]; [x04]; [x05]].

Lemma HashFromByteSlicesIterative_equivalent_witness :
  ∃ h, @HashFromByteSlices toy_hash toy_items = Ret h ∧ @HashFromByteSlicesIterative toy_hash toy_items = Ret h.
Proof. apply (@HashFromByteSlicesIterative_equivalent toy_hash toy_items). vm_compute. discriminate. Defined.

Lemma proofs_verify_witness :
  ∃ h proofs, @HashFromByteSlices toy_hash toy_items = Ret h ∧ @ProofsFromByteSlices toy_hash toy_items = Ret (h, proofs).
Proof.
  destruct (@proofs_verify toy_hash toy_items) as (h & proofs & H1 & H2 & _); [vm_compute; discriminate|].
  exists h, proofs. split; assumption.
Defined.

Definition toy_proof : Proof_ :=
  match @ProofsFromByteSlices toy_hash toy_items with Ret (_, sp :: _) => sp | _ => mkProof 0 0 [] [] end.
Definition toy_root : bytes := match @HashFromByteSlices toy_hash toy_items with Ret h => h | Panic _ => [] end.

Lemma verify_sound_witness : toy_items !! 0%nat = Some [x01] ∨ @collision toy_hash toy_items [x01] 0 (Aunts toy_proof).
Proof.
  apply (@verify_sound toy_hash toy_hash_size toy_items toy_root toy_proof [x01]);
    [discriminate|vm_compute; discriminate|vm_compute; reflexivity..].
Defined.
