(* ===== verification/PartSet.v ===== *)
(** * Block parts

    Models [src/hetu-cometbft/types/part_set.go]: the split of a block into
    parts with Merkle proofs, the set that gathers them, and its reader. *)
From S2P Require Import Prelude.
From S2P Require Import BitArray.
From S2P Require Import Vote.
From S2P Require Import Validator.
From S2P Require Import Merkle.

Definition BlockPartSizeBytes : Z := 65536.

Record Part := mkPart { part_Index : Z; part_Bytes : bytes; part_Proof : Proof_ }.

#[global] Instance Part_eq_dec : EqDecision Part.
Proof. solve_decision. Defined.

Inductive part_error :=
| ErrPartTooBig
| ErrPartInvalidSize
| ErrPartWrongProof.

Definition Part_ValidateBasic (part : Part) : option part_error :=
  if BlockPartSizeBytes <? len (part_Bytes part) then Some ErrPartTooBig
  else if (part_Index part <? int64 (proof_Total (part_Proof part) - 1)) && negb (len (part_Bytes part) =? BlockPartSizeBytes)
  then Some ErrPartInvalidSize
  else if negb (Proof_ValidateBasic (part_Proof part)) then Some ErrPartWrongProof
  else None.

Record PartSet := mkPartSet {
  ps_total : Z;
  ps_hash : bytes;
  ps_parts : list (option Part);
  partsBitArray : option BitArray;
  ps_count : Z;
  ps_byteSize : Z;
}.

(** [data[lo:hi]]. *)
Definition slice_range (data : bytes) (lo hi : Z) : outcome bytes :=
  if decide (0 ≤ lo ≤ hi ∧ hi ≤ len data) then Ret (take (Z.to_nat (hi - lo)) (drop (Z.to_nat lo) data))
  else Panic "slice bounds out of range".

Definition part_bytes (data : bytes) (partSize i : Z) : outcome bytes :=
  slice_range data (uint32 (i * partSize)) (Z.min (len data) (uint32 (uint32 (i + 1) * partSize))).

Section part_set.
Context `{Crypto}.

Definition NewPartSetFromData (data : bytes) (partSize : Z) : outcome PartSet :=
  if partSize =? 0 then Panic "integer divide by zero"
  else
    let total := Z.quot (uint32 (uint32 (uint32 (len data) + partSize) - 1)) partSize in
    '(partsBytes, bits) ← for_each (λ i '(partsBytes, bits),
        b ← part_bytes data partSize i;
        '(bits, _) ← SetIndex bits i true;
        Ret (partsBytes ++ [b], bits)) (range total) ([], NewBitArray total);
    '(root, proofs) ← ProofsFromByteSlices partsBytes;
    Ret (mkPartSet total root (zip_with (λ (ib : nat * bytes) p, Some (mkPart (Z.of_nat ib.1) ib.2 p)) (imap pair partsBytes) proofs)
           bits total (len data)).

Definition NewPartSetFromHeader (header : PartSetHeader) : PartSet :=
  mkPartSet (Total header) (PartsHash header) (replicate (Z.to_nat (Total header)) None) (NewBitArray (Total header)) 0 0.

(** A nil part set is [None]. *)
Definition Header (ps : option PartSet) : PartSetHeader :=
  match ps with None => mkPartSetHeader 0 [] | Some ps => mkPartSetHeader (ps_total ps) (ps_hash ps) end.
Definition HasHeader (ps : option PartSet) (header : PartSetHeader) : bool :=
  match ps with None => false | Some _ => PartSetHeader_Equals (Header ps) header end.
Definition PartSet_BitArray (ps : PartSet) : option BitArray := Copy (partsBitArray ps).
Definition PartSet_Hash (ps : option PartSet) : outcome bytes :=
  match ps with None => HashFromByteSlices [] | Some ps => Ret (ps_hash ps) end.
Definition HashesTo (ps : option PartSet) (hash : bytes) : bool :=
  match ps with None => false | Some ps => bool_decide (ps_hash ps = hash) end.
Definition Count (ps : option PartSet) : Z := match ps with None => 0 | Some ps => ps_count ps end.
Definition ByteSize (ps : option PartSet) : Z := match ps with None => 0 | Some ps => ps_byteSize ps end.
Definition PartSet_Total (ps : option PartSet) : Z := match ps with None => 0 | Some ps => ps_total ps end.
Definition IsComplete (ps : PartSet) : bool := ps_count ps =? ps_total ps.

Inductive add_part_error :=
| ErrPartSetUnexpectedIndex
| ErrPartSetInvalidProof.

(** A nil root hash is refused by [Verify]; an empty one never matches. *)
Definition root_hash (h : bytes) : option bytes := if bool_decide (h = []) then None else Some h.

Definition AddPart (ps : option PartSet) (part : Part) : outcome (option PartSet * bool * option add_part_error) :=
  match ps with
  | None => Ret (None, false, None)
  | Some ps =>
      if ps_total ps <=? part_Index part then Ret (Some ps, false, Some ErrPartSetUnexpectedIndex)
      else
        old ← slice_get (ps_parts ps) (part_Index part);
        match old with
        | Some _ => Ret (Some ps, false, None)
        | None =>
            if negb (proof_Total (part_Proof part) =? ps_total ps) then Ret (Some ps, false, Some ErrPartSetInvalidProof)
            else
              err ← Proof_Verify (part_Proof part) (root_hash (ps_hash ps)) (part_Bytes part);
              match err with
              | Some _ => Ret (Some ps, false, Some ErrPartSetInvalidProof)
              | None =>
                  parts ← slice_set (ps_parts ps) (part_Index part) (Some part);
                  '(bits, _) ← SetIndex (partsBitArray ps) (part_Index part) true;
                  Ret (Some (mkPartSet (ps_total ps) (ps_hash ps) parts bits (uint32 (ps_count ps + 1))
                               (int64 (ps_byteSize ps + len (part_Bytes part)))), true, None)
              end
        end
  end.

Definition GetPart (ps : PartSet) (index : Z) : outcome (option Part) := slice_get (ps_parts ps) index.
End part_set.

(** ** The reader *)

(** The bytes left of the current part and the parts that follow. *)
Record PartSetReader := mkReader { psr_current : bytes; psr_later : list (option Part) }.

Definition GetReader (ps : PartSet) : outcome PartSetReader :=
  if negb (IsComplete ps) then Panic "Cannot GetReader() on incomplete PartSet"
  else match ps_parts ps with
       | [] => Panic "index out of range"
       | None :: _ => Panic "nil pointer dereference"
       | Some p :: later => Ret (mkReader (part_Bytes p) later)
       end.

(** [Read] into a buffer of [n] bytes: the bytes, the reader and whether it
    returns [io.EOF].  A part that does not fill the buffer is followed by
    the next. *)
Fixpoint read_parts (current : bytes) (later : list (option Part)) (n : nat) : outcome (bytes * PartSetReader * bool) :=
  if (n <=? length current)%nat then
    Ret (take n current, mkReader (drop n current) later, bool_decide (current = []))
  else
    match later with
    | [] => Ret (current, mkReader [] [], true)
    | None :: _ => Panic "nil pointer dereference"
    | Some p :: later =>
        '(b, r, eof) ← read_parts (part_Bytes p) later (n - length current);
        Ret (current ++ b, r, eof)
    end.
Definition Read (r : PartSetReader) (n : nat) : outcome (bytes * PartSetReader * bool) :=
  read_parts (psr_current r) (psr_later r) n.

(** ** Block parts: proofs

    A part set built from data can be gathered again from its header and its
    parts in any order, and its reader gives the data back; what [AddPart]
    accepts; and what its proof check leaves open. *)

(** ** Reading *)

Definition bytes_of (o : option Part) : bytes := match o with None => [] | Some p => part_Bytes p end.
Definition rest (r : PartSetReader) : bytes := psr_current r ++ concat (bytes_of <$> psr_later r).
Definition present (o : option Part) : bool := match o with Some _ => true | None => false end.

(** Successive reads into buffers of the given sizes. *)
Definition reads (r : PartSetReader) (ns : list nat) : outcome (bytes * PartSetReader) :=
  for_each (λ n '(acc, r), '(b, r, _) ← Read r n; Ret (acc ++ b, r)) ns ([], r).

Lemma Read_spec r n :
  forallb present (psr_later r) → (0 < n)%nat →
  ∃ r', Read r n = Ret (take n (rest r), r', bool_decide (length (rest r) < n)%nat) ∧
    rest r' = drop n (rest r) ∧ forallb present (psr_later r').
Proof.
  destruct r as [cur later]. unfold Read, rest. cbn [psr_current psr_later].
  revert cur n. induction later as [|[p|] later IH]; intros cur n Hp Hn; cbn [read_parts]; try done;
    (destruct (Nat.leb_spec n (length cur)) as [Hle|Hlt];
      [eexists (mkReader _ _); split; [|split; [cbn [psr_current psr_later]; by rewrite drop_app_le|exact Hp]];
       rewrite take_app_le, length_app, !bool_decide_eq_false_2; [done|lia|intros ->; simpl in Hle; lia|done]|]).
  - cbn [fmap list_fmap concat]. rewrite app_nil_r. exists (mkReader [] []). split_and!; [|by rewrite drop_ge by lia|done].
    rewrite take_ge by lia. by rewrite bool_decide_eq_true_2.
  - destruct (IH (part_Bytes p) (n - length cur)%nat Hp ltac:(lia)) as (r' & -> & Hr & Hp').
    exists r'. cbn [fmap list_fmap bytes_of concat mbind outcome_bind]. split_and!; [|by rewrite drop_app_ge by lia|done].
    rewrite (take_app_ge cur) by lia. do 2 f_equal. rewrite (length_app cur). apply bool_decide_ext. lia.
Qed.

Lemma reads_spec r ns :
  forallb present (psr_later r) → Forall (λ n, 0 < n)%nat ns →
  ∃ r', reads r ns = Ret (take (sum_list ns) (rest r), r').
Proof.
  intros Hp Hns. unfold reads.
  assert (∀ acc, ∃ r', for_each (λ n '(acc, r), '(b, r, _) ← Read r n; Ret (acc ++ b, r)) ns (acc, r) =
    Ret (acc ++ take (sum_list ns) (rest r), r')) as Hg; [|by apply (Hg [])].
  revert r Hp. induction Hns as [|n ns Hn Hns IH]; intros r Hp acc; cbn [for_each].
  - exists r. by rewrite app_nil_r.
  - destruct (Read_spec r n Hp Hn) as (r' & -> & Hr & Hp'). cbn [mbind outcome_bind].
    destruct (IH r' Hp' (acc ++ take n (rest r))) as [r'' ->]. exists r''.
    rewrite <-app_assoc, Hr. cbn [sum_list]. by rewrite take_take_drop.
Qed.

(** ** Gathering *)

Section gather.
Context `{Crypto}.

(** Parts received one after the other. *)
Definition gather (ps : PartSet) (l : list Part) : outcome (option PartSet) :=
  for_each (λ p ps, '(ps, _, _) ← AddPart ps p; Ret ps) l (Some ps).

(** Parts that a part set of header [header] accepts, each at its place. *)
Definition acceptable (header : PartSetHeader) (full : list Part) : Prop :=
  Total header = len full ∧
  ∀ i p, full !! i = Some p → part_Index p = Z.of_nat i ∧ proof_Total (part_Proof p) = len full ∧
    Proof_Verify (part_Proof p) (root_hash (PartsHash header)) (part_Bytes p) = Ret None.

Definition count_present (l : list (option Part)) : Z := zsum (λ o, if present o then 1 else 0) l.
Definition size_present (l : list (option Part)) : Z := zsum (λ o, len (bytes_of o)) l.

(** The parts of [full] that are among [seen], each at its place. *)
Definition slots (full seen : list Part) : list (option Part) :=
  (λ p, if decide (p ∈ seen) then Some p else None) <$> full.

Record holds (header : PartSetHeader) (full seen : list Part) (ps : PartSet) : Prop := {
  holds_header : Header (Some ps) = header;
  holds_parts : ps_parts ps = slots full seen;
  holds_count : ps_count ps = count_present (ps_parts ps);
  holds_size : ps_byteSize ps = size_present (ps_parts ps);
  holds_bits : ∃ b, partsBitArray ps = Some b ∧ wf b ∧ Bits b = len full ∧
    ∀ i o, ps_parts ps !! i = Some o → bit (Elems b) (Z.of_nat i) = present o;
}.

Lemma slots_add full seen i p :
  NoDup full → full !! i = Some p → <[i := Some p]> (slots full seen) = slots full (seen ++ [p]).
Proof using.
  intros Hnd Hi. apply list_eq. intros j. unfold slots. rewrite list_lookup_insert, !list_lookup_fmap, length_fmap.
  pose proof (lookup_lt_Some _ _ _ Hi) as Hlt. case_decide as Hj.
  - destruct Hj as [-> _]. rewrite Hi. simpl. rewrite decide_True by set_solver. done.
  - destruct (full !! j) as [q|] eqn:Hq; [|done]. simpl. do 2 f_equal. apply decide_ext.
    rewrite elem_of_app, list_elem_of_singleton. split; [by left|]. intros [?| ->]; [done|].
    destruct Hj. split; [|done]. by eapply NoDup_lookup.
Qed.

Lemma slots_again full seen p : p ∈ seen → slots full (seen ++ [p]) = slots full seen.
Proof using.
  intros Hp. apply list_fmap_ext. intros i q _. apply decide_ext. rewrite elem_of_app, list_elem_of_singleton.
  split; [intros [?| ->]; done|by left].
Qed.

Lemma slots_count full seen : count_present (slots full seen) ≤ len full.
Proof using.
  unfold count_present, slots. rewrite zsum_fmap, <-(Z.mul_1_l (len full)), <-zsum_const. apply zsum_le.
  intros q _. case_decide; simpl; lia.
Qed.

Lemma slots_size full seen : size_present (slots full seen) ≤ zsum (λ p, len (part_Bytes p)) full.
Proof using.
  unfold size_present, slots. rewrite zsum_fmap. apply zsum_le. intros q _. pose proof (len_nonneg (part_Bytes q)).
  case_decide; simpl; [done|]. unfold len at 1. simpl. lia.
Qed.

Lemma slots_all full seen : (∀ p, p ∈ full → p ∈ seen) → slots full seen = Some <$> full.
Proof using.
  intros Hall. apply list_fmap_ext. intros i q Hq. rewrite decide_True; [done|]. apply Hall. by apply list_elem_of_lookup_2 in Hq.
Qed.

(** The largest [uint32]. *)
Definition MaxUint32 : Z := 4294967295.

Context (header : PartSetHeader) (full : list Part).
Hypothesis full_ok : acceptable header full.
Hypothesis full_count : len full ≤ MaxUint32.
Hypothesis full_size : zsum (λ p, len (part_Bytes p)) full ≤ MaxInt64.

Lemma full_nodup : NoDup full.
Proof using full_ok.
  apply NoDup_alt. intros i j p Hi Hj. destruct full_ok as [_ Hok].
  destruct (Hok i p Hi) as (Hpi & _). destruct (Hok j p Hj) as (Hpj & _). lia.
Qed.

Lemma NewPartSetFromHeader_holds : full ≠ [] → holds header full [] (NewPartSetFromHeader header).
Proof using full_ok full_count full_size.
  destruct full_ok as [Ht _]. intros Hne.
  assert (0 < len full) as Hn. { destruct full; [done|]. rewrite len_cons. pose proof (len_nonneg l). lia. }
  assert (replicate (Z.to_nat (Total header)) None = slots full []) as Hs.
  { rewrite Ht. unfold len. rewrite Nat2Z.id. unfold slots. symmetry. clear. induction full; [done|]. simpl. by f_equal. }
  destruct (NewBitArray_spec (len full) Hn) as (b & Hb & Hwf & Hbits & Hz).
  split; cbn [NewPartSetFromHeader ps_parts ps_count ps_byteSize partsBitArray].
  - by destruct header.
  - done.
  - rewrite Hs. unfold count_present, slots. rewrite zsum_fmap, (zsum_ext_in _ (λ _, 0)), zsum_const; [done|]. intros q _. by rewrite decide_False by set_solver.
  - rewrite Hs. unfold size_present, slots. rewrite zsum_fmap, (zsum_ext_in _ (λ _, 0)), zsum_const; [done|]. intros q _. by rewrite decide_False by set_solver.
  - exists b. rewrite Ht. split_and!; [done..|]. intros i o Ho%lookup_replicate. destruct Ho as [-> _]. by rewrite Hz.
Qed.

Lemma AddPart_holds seen ps p :
  holds header full seen ps → p ∈ full →
  ∃ ps' added, AddPart (Some ps) p = Ret (Some ps', added, None) ∧ holds header full (seen ++ [p]) ps'.
Proof using full_ok full_count full_size.
  intros [Hh Hp Hc Hz (b & Hb & Hwf & Hbits & Hbit)] [i Hi]%list_elem_of_lookup.
  pose proof (lookup_lt_Some _ _ _ Hi) as Hlt. destruct full_ok as [Ht Hok]. destruct (Hok i p Hi) as (Hpi & Hpt & Hv).
  pose proof full_nodup as Hnd. rewrite <-Hh in Ht, Hv. cbn [Header Total PartsHash] in *. unfold len in Ht.
  unfold AddPart. destruct (Z.leb_spec (ps_total ps) (part_Index p)); [lia|].
  assert (ps_parts ps !! i = Some (if decide (p ∈ seen) then Some p else None)) as Hslot.
  { rewrite Hp. unfold slots. by rewrite list_lookup_fmap, Hi. }
  assert (length (ps_parts ps) = length full) as Hlen by (by rewrite Hp; unfold slots; rewrite length_fmap).
  assert (slice_get (ps_parts ps) (part_Index p) = Ret (if decide (p ∈ seen) then Some p else None)) as ->.
  { apply slice_get_ret. rewrite Hpi, Nat2Z.id. split; [lia|done]. }
  cbn [mbind outcome_bind]. case_decide as Hseen.
  { eexists ps, false. split; [done|]. split; try done; [by rewrite slots_again|]. by exists b. }
  rewrite Hpt. unfold len. rewrite <-Ht, Z.eqb_refl. cbn [negb]. rewrite Hv. cbn [mbind outcome_bind].
  rewrite slice_set_in_range by (unfold len; lia). cbn [mbind outcome_bind].
  destruct (setIndex_bit b (part_Index p) true Hwf) as (b' & Hset & Hwf' & Hbits' & Hbit'); [unfold len in *; lia|].
  rewrite Hb. cbn [SetIndex]. rewrite Hset. cbn [mbind outcome_bind]. eexists _, _. split; [done|].
  assert (<[Z.to_nat (part_Index p) := Some p]> (ps_parts ps) = slots full (seen ++ [p])) as Hins.
  { rewrite Hpi, Nat2Z.id, Hp. by apply slots_add. }
  assert (count_present (slots full (seen ++ [p])) = ps_count ps + 1) as Hcnt.
  { rewrite <-Hins, Hc. unfold count_present. rewrite Hpi, Nat2Z.id, (zsum_insert _ _ _ _ _ Hslot). simpl. lia. }
  assert (size_present (slots full (seen ++ [p])) = ps_byteSize ps + len (part_Bytes p)) as Hsz.
  { rewrite <-Hins, Hz. unfold size_present. rewrite Hpi, Nat2Z.id, (zsum_insert _ _ _ _ _ Hslot). simpl. unfold len. simpl. lia. }
  pose proof (slots_count full (seen ++ [p])). pose proof (slots_size full (seen ++ [p])).
  split; cbn [ps_parts ps_count ps_byteSize partsBitArray]; rewrite ?Hins; [done|done| | |].
  - rewrite Hcnt. unfold uint32. rewrite Z.mod_small; [done|].
    assert (0 ≤ ps_count ps); [|unfold MaxUint32 in *; ulia]. rewrite Hc. apply zsum_nonneg. intros [|] _; simpl; lia.
  - rewrite Hsz. apply int64_id. assert (0 ≤ ps_byteSize ps); [|pose proof (len_nonneg (part_Bytes p)); ulia].
    rewrite Hz. apply zsum_nonneg. intros. apply len_nonneg.
  - exists b'. split_and!; [done|done|by rewrite Hbits'|]. intros j o Ho. rewrite Hbit' by lia.
    rewrite <-Hins, list_lookup_insert in Ho. case_decide as Hd; case_decide as Hj; try lia; [|by apply Hbit].
    by simplify_eq.
Qed.

Lemma gather_holds ps l seen :
  holds header full seen ps → (∀ p, p ∈ l → p ∈ full) →
  ∃ ps', gather ps l = Ret (Some ps') ∧ holds header full (seen ++ l) ps'.
Proof using full_ok full_count full_size.
  revert ps seen. induction l as [|p l IH]; intros ps seen Hps Hl.
  - exists ps. by rewrite app_nil_r.
  - destruct (AddPart_holds seen ps p Hps) as (ps1 & added & Ha & Hps1); [apply Hl; by left|].
    unfold gather. cbn [for_each]. rewrite Ha. cbn [mbind outcome_bind].
    destruct (IH ps1 (seen ++ [p]) Hps1) as (ps' & Hg & Hps'); [intros; apply Hl; by right|].
    exists ps'. rewrite <-app_assoc in Hps'. done.
Qed.

(** A set that was given every part is complete, and reads as the parts one
    after the other. *)
Lemma gather_complete l :
  full ≠ [] → (∀ p, p ∈ l ↔ p ∈ full) →
  ∃ ps r, gather (NewPartSetFromHeader header) l = Ret (Some ps) ∧ IsComplete ps = true ∧
    Header (Some ps) = header ∧ ps_parts ps = Some <$> full ∧
    ByteSize (Some ps) = zsum (λ p, len (part_Bytes p)) full ∧
    GetReader ps = Ret r ∧ rest r = concat (part_Bytes <$> full) ∧ forallb present (psr_later r).
Proof using full_ok full_count full_size.
  intros Hne Hl. destruct (gather_holds _ l [] (NewPartSetFromHeader_holds Hne)) as (ps & Hg & [Hh Hp Hc Hz _]); [by intros; apply Hl|].
  rewrite slots_all in Hp by (by intros; apply Hl). rewrite Hp in Hc, Hz.
  assert (IsComplete ps = true) as Hcomp.
  { unfold IsComplete. apply Z.eqb_eq. rewrite Hc. destruct full_ok as [Ht _]. rewrite <-Hh in Ht. cbn in Ht. rewrite Ht.
    unfold count_present. rewrite zsum_fmap. simpl. rewrite zsum_const. lia. }
  destruct full as [|p ps0] eqn:Hf; [done|]. eexists ps, (mkReader (part_Bytes p) (Some <$> ps0)).
  split_and!; [done|done|done|done| | |by unfold rest; cbn; rewrite <-list_fmap_compose|].
  - cbn. rewrite Hz. unfold size_present. by rewrite zsum_fmap.
  - unfold GetReader. rewrite Hcomp, Hp. done.
  - cbn [psr_later]. clear. by induction ps0.
Qed.
End gather.

(** ** Splitting *)

Definition chunk (data : bytes) (k i : nat) : bytes := take k (drop (i * k) data).

Lemma chunks_concat data k t : concat (chunk data k <$> seq 0 t) = take (t * k) data.
Proof.
  induction t as [|t IH]; [done|]. rewrite seq_S, fmap_app, concat_app, IH. cbn [fmap list_fmap concat].
  rewrite app_nil_r. unfold chunk. rewrite take_take_drop. f_equal. lia.
Qed.

Lemma part_bytes_chunk data partSize i :
  0 < partSize → len data + partSize ≤ MaxUint32 → Z.of_nat i * partSize < len data →
  part_bytes data partSize (Z.of_nat i) = Ret (chunk data (Z.to_nat partSize) i).
Proof.
  intros Hp Hmax Hi. unfold MaxUint32 in *. unfold part_bytes.
  assert (0 ≤ Z.of_nat i * partSize) by lia.
  assert (Z.of_nat i + 1 ≤ len data) by nia.
  assert (uint32 (Z.of_nat i * partSize) = Z.of_nat i * partSize) as -> by (unfold uint32; rewrite Z.mod_small; lia).
  assert (uint32 (Z.of_nat i + 1) = Z.of_nat i + 1) as -> by (unfold uint32; rewrite Z.mod_small; lia).
  assert (uint32 ((Z.of_nat i + 1) * partSize) = Z.of_nat i * partSize + partSize) as -> by (unfold uint32; rewrite Z.mod_small; lia).
  unfold slice_range, chunk. rewrite decide_True by lia. f_equal.
  replace (Z.to_nat (Z.of_nat i * partSize)) with (i * Z.to_nat partSize)%nat by lia. unfold len in *.
  destruct (Z.min_spec (Z.of_nat (length data)) (Z.of_nat i * partSize + partSize)) as [[? ->]|[? ->]].
  - rewrite !take_ge; [done|rewrite length_drop; lia..].
  - f_equal. lia.
Qed.

Lemma total_parts (data : bytes) partSize (t := (len data + partSize - 1) / partSize) :
  data ≠ [] → 0 < partSize → len data + partSize ≤ MaxUint32 →
  0 < t ∧ t ≤ len data ∧ len data ≤ t * partSize ∧ (∀ i, i < t → i * partSize < len data) ∧
  Z.quot (uint32 (uint32 (uint32 (len data) + partSize) - 1)) partSize = t.
Proof.
  intros Hne Hp Hmax. unfold MaxUint32 in *. assert (0 < len data) as Hd.
  { destruct data; [done|]. rewrite len_cons. pose proof (len_nonneg data). lia. }
  pose proof (Z.div_mod (len data + partSize - 1) partSize ltac:(lia)) as Hdm.
  pose proof (Z.mod_pos_bound (len data + partSize - 1) partSize Hp) as Hm. fold t in Hdm.
  assert (0 < t) by nia. split_and!; [done|nia|nia|intros; nia|].
  assert (uint32 (len data) = len data) as -> by (unfold uint32; rewrite Z.mod_small; lia).
  assert (uint32 (len data + partSize) = len data + partSize) as -> by (unfold uint32; rewrite Z.mod_small; lia).
  assert (uint32 (len data + partSize - 1) = len data + partSize - 1) as -> by (unfold uint32; rewrite Z.mod_small; lia).
  apply Z.quot_div_nonneg; lia.
Qed.

Section data.
Context `{Crypto} {hash_sizes : HashSize}.

Lemma root_hash_root items : root_hash (root (leafHash <$> items)) = Some (root (leafHash <$> items)).
Proof using hash_sizes.
  unfold root_hash. rewrite bool_decide_eq_false_2; [done|]. intros He.
  pose proof (root_size (leafHash <$> items) (leaf_size items)) as Hs. by rewrite He in Hs.
Qed.

(** The loop that cuts the data. *)
Lemma cut_spec (data : bytes) partSize (t := (len data + partSize - 1) / partSize) :
  data ≠ [] → 0 < partSize → len data + partSize ≤ MaxUint32 →
  ∃ b, for_each (λ i '(partsBytes, bits), b ← part_bytes data partSize i; '(bits, _) ← SetIndex bits i true;
        Ret (partsBytes ++ [b], bits)) (range t) ([], NewBitArray t) =
    Ret (chunk data (Z.to_nat partSize) <$> seq 0 (Z.to_nat t), Some b) ∧ wf b ∧ Bits b = t ∧
    ∀ i, 0 ≤ i < t → bit (Elems b) i = true.
Proof using.
  intros Hne Hp Hmax. destruct (total_parts data partSize Hne Hp Hmax) as (Ht & Htl & _ & Hin & _). fold t in Ht, Htl, Hin.
  destruct (NewBitArray_spec t Ht) as (b0 & Hb0 & Hwf0 & Hbits0 & _). rewrite Hb0.
  destruct (for_each_ind (λ i '(partsBytes, bits), b ← part_bytes data partSize i; '(bits, _) ← SetIndex bits i true;
        Ret (partsBytes ++ [b], bits))
    (λ l1 (s : list bytes * option BitArray), s.1 = chunk data (Z.to_nat partSize) <$> seq 0 (length l1) ∧
      ∃ b, s.2 = Some b ∧ wf b ∧ Bits b = t ∧ ∀ i, 0 ≤ i < len l1 → bit (Elems b) i = true) (range t) ([], Some b0))
    as ([pb bits] & Hf & Hpb & b & Hb & Hwf & Hbits & Hset).
  - split; [done|]. exists b0. split_and!; [done..|]. intros i Hi. unfold len in Hi. simpl in Hi. lia.
  - intros l1 i l2 [pb bits] Hl (Hpb & b & Hb & Hwf & Hbits & Hset). destruct (range_split _ _ _ _ Hl) as [-> Hi]. cbn [fst snd] in *.
    rewrite part_bytes_chunk by (done || apply Hin; lia). rewrite Hb. cbn [mbind outcome_bind SetIndex].
    destruct (setIndex_bit b (Z.of_nat (length l1)) true Hwf) as (b' & Hs & Hwf' & Hbits' & Hbit'); [lia|].
    rewrite Hs. cbn [mbind outcome_bind]. eexists. split; [done|]. cbn [fst snd]. split.
    + rewrite length_app. cbn [length]. rewrite Nat.add_1_r, seq_S, fmap_app, Hpb. done.
    + exists b'. split_and!; [done|done|congruence|]. intros j Hj. rewrite Hbit' by lia. case_decide; [done|].
      apply Hset. unfold len in *. rewrite length_app in Hj. simpl in Hj. lia.
  - exists b. rewrite Hf. cbn [fst snd] in *. unfold len in Hset. rewrite length_seqZ in *. subst. split_and!; [done|done|done|].
    intros i Hi. apply Hset. lia.
Qed.

(** The parts of a list of chunks and its proofs. *)
Definition make_parts (items : list bytes) (proofs : list Proof_) : list Part :=
  zip_with (λ (ib : nat * bytes) p, mkPart (Z.of_nat ib.1) ib.2 p) (imap pair items) proofs.

Lemma make_parts_lookup items proofs i p :
  make_parts items proofs !! i = Some p ↔
  ∃ x sp, items !! i = Some x ∧ proofs !! i = Some sp ∧ p = mkPart (Z.of_nat i) x sp.
Proof using.
  unfold make_parts. rewrite lookup_zip_with_Some. setoid_rewrite list_lookup_imap. split.
  - intros (ib & sp & -> & Hi & Hsp). destruct (items !! i) as [x|]; [|done]. simpl in Hi. injection Hi as <-. by exists x, sp.
  - intros (x & sp & -> & Hsp & ->). by exists (i, x), sp.
Qed.

Lemma make_parts_bytes items proofs : length proofs = length items → part_Bytes <$> make_parts items proofs = items.
Proof using.
  intros Hl. apply list_eq. intros i. rewrite list_lookup_fmap.
  destruct (make_parts items proofs !! i) as [p|] eqn:Hp.
  - apply make_parts_lookup in Hp as (x & sp & Hx & _ & ->). by rewrite Hx.
  - apply lookup_ge_None in Hp. symmetry. apply lookup_ge_None. unfold make_parts in Hp. rewrite length_zip_with, length_imap in Hp. lia.
Qed.

Lemma NewPartSetFromData_spec data partSize :
  data ≠ [] → 0 < partSize → len data + partSize ≤ MaxUint32 →
  ∃ ps full, NewPartSetFromData data partSize = Ret ps ∧
    ps_total ps = (len data + partSize - 1) / partSize ∧ ps_count ps = ps_total ps ∧ ps_byteSize ps = len data ∧
    HashFromByteSlices (part_Bytes <$> full) = Ret (ps_hash ps) ∧
    ps_parts ps = Some <$> full ∧ full ≠ [] ∧ len full ≤ len data ∧ acceptable (Header (Some ps)) full ∧
    part_Bytes <$> full = chunk data (Z.to_nat partSize) <$> seq 0 (length full) ∧
    concat (part_Bytes <$> full) = data.
Proof using hash_sizes.
  intros Hne Hp Hmax. destruct (total_parts data partSize Hne Hp Hmax) as (Ht & Htl & Hcov & Hin & Hq).
  destruct (cut_spec data partSize Hne Hp Hmax) as (b & Hcut & _).
  set (t := (len data + partSize - 1) / partSize) in *. unfold MaxUint32 in Hmax.
  set (items := chunk data (Z.to_nat partSize) <$> seq 0 (Z.to_nat t)) in *.
  assert (length items = Z.to_nat t) as Hli by (unfold items; by rewrite length_fmap, length_seq).
  assert (len items ≤ MaxInt64) as Hmi by (unfold len; ulia).
  destruct (ProofsFromByteSlices_spec items Hmi) as (proofs & Hpr & Hlp & Hv).
  pose proof (make_parts_bytes items proofs Hlp) as Hpb.
  assert (length (make_parts items proofs) = Z.to_nat t) as Hlf by (by rewrite <-Hli, <-(length_fmap part_Bytes), Hpb).
  eexists _, (make_parts items proofs). rewrite Hpb. split_and!.
  - unfold NewPartSetFromData. destruct (Z.eqb_spec partSize 0); [lia|]. rewrite Hq, Hcut. cbn [mbind outcome_bind].
    rewrite Hpr. cbn [mbind outcome_bind]. reflexivity.
  - done.
  - done.
  - done.
  - by apply hash_fuel_root.
  - cbn [ps_parts]. unfold make_parts. generalize (imap pair items). clear. intros l. revert proofs.
    induction l as [|ib l IH]; intros [|p proofs]; [done..|]. simpl. by rewrite IH.
  - intros He. rewrite He in Hlf. simpl in Hlf. lia.
  - unfold len at 1. lia.
  - split; [cbn; unfold len; lia|]. intros i p (x & sp & Hx & Hsp & ->)%make_parts_lookup.
    destruct (Hv i x Hx) as (sp' & Hsp' & Hpi & Hpt & Hl & Hc). rewrite Hsp in Hsp'. injection Hsp' as <-.
    cbn [part_Index part_Proof part_Bytes Header PartsHash ps_hash]. split_and!; [done|rewrite Hpt; unfold len; lia|].
    rewrite root_hash_root. apply Verify_iff. split_and!; [rewrite Hpt; apply len_nonneg|lia|done|done].
  - by rewrite Hlf.
  - unfold items. rewrite chunks_concat. apply take_ge. unfold len in Hcov. lia.
Qed.
End data.

Lemma zsum_concat (l : list bytes) : zsum (λ b, len b) l = len (concat l).
Proof. induction l as [|b l IH]; [done|]. cbn [concat]. by rewrite zsum_cons, len_app, IH. Qed.

(** ** Properties *)

(** C17: the round trip of a block.  Data cut into parts can be gathered again
    from the header alone and the parts, received in any order and any number
    of times each: no call fails, the set becomes complete with the same
    parts, and its reader, read in pieces of any size, gives the data. *)
Theorem PartSet_roundtrip `{Crypto, !HashSize} data partSize :
  data ≠ [] → 0 < partSize → len data + partSize ≤ MaxUint32 →
  ∃ ps, NewPartSetFromData data partSize = Ret ps ∧ IsComplete ps = true ∧
    ps_total ps = (len data + partSize - 1) / partSize ∧
    ∀ l, (∀ p, p ∈ l ↔ Some p ∈ ps_parts ps) →
      ∃ ps' r, gather (NewPartSetFromHeader (Header (Some ps))) l = Ret (Some ps') ∧ IsComplete ps' = true ∧
        Header (Some ps') = Header (Some ps) ∧ ps_parts ps' = ps_parts ps ∧ ByteSize (Some ps') = len data ∧
        GetReader ps' = Ret r ∧
        ∀ ns, Forall (λ n, 0 < n)%nat ns → ∃ r', reads r ns = Ret (take (sum_list ns) data, r').
Proof.
  intros Hne Hp Hmax. destruct (NewPartSetFromData_spec data partSize Hne Hp Hmax)
    as (ps & full & Hps & Htot & Hcnt & Hsz & _ & Hparts & Hfne & Hlen & Hok & _ & Hcat).
  exists ps. split_and!; [done|by apply Z.eqb_eq|done|]. intros l Hl. unfold MaxUint32 in Hmax.
  assert (zsum (λ p, len (part_Bytes p)) full = len data) as Hsum by (by rewrite <-zsum_fmap, zsum_concat, Hcat).
  destruct (gather_complete (Header (Some ps)) full Hok) with (l := l)
    as (ps' & r & Hg & Hc & Hh & Hpp & Hb & Hr & Hrest & Hpres); [unfold MaxUint32; lia|rewrite Hsum; ulia|done| |].
  { intros p. rewrite Hl, Hparts. rewrite list_elem_of_fmap. naive_solver. }
  exists ps', r. split_and!; [done|done|done|by rewrite Hpp|by rewrite Hb|done|]. intros ns Hns.
  destruct (reads_spec r ns Hpres Hns) as [r' Hr']. exists r'. by rewrite Hr', Hrest, Hcat.
Qed.

(** What [AddPart] does.  A call that does not add leaves the set as it
    was.  A call that adds fills the free slot at the part's index and counts
    it, and the bytes are the item of the hashed list at the index of the
    part's proof, unless the proof exhibits a hash collision. *)
Theorem AddPart_sound `{Crypto, !HashSize} items ps part res added err :
  items ≠ [] → len items ≤ MaxInt64 → HashFromByteSlices items = Ret (ps_hash ps) → ps_total ps = len items →
  AddPart (Some ps) part = Ret (res, added, err) →
  if added then
    err = None ∧ ps_parts ps !! Z.to_nat (part_Index part) = Some None ∧ 0 ≤ part_Index part < ps_total ps ∧
    (∃ ps', res = Some ps' ∧ Header (Some ps') = Header (Some ps) ∧ ps_count ps' = uint32 (ps_count ps + 1) ∧
      ps_parts ps' = <[Z.to_nat (part_Index part) := Some part]> (ps_parts ps)) ∧
    (items !! Z.to_nat (proof_Index (part_Proof part)) = Some (part_Bytes part) ∨
     collision items (part_Bytes part) (proof_Index (part_Proof part)) (Aunts (part_Proof part)))
  else res = Some ps.
Proof.
  intros Hne Hmax Hh Ht Ha. rewrite (hash_fuel_root (length items) items ltac:(lia) Hmax : HashFromByteSlices items = _) in Hh.
  apply (inj Ret) in Hh. unfold AddPart in Ha. rewrite <-Hh, root_hash_root in Ha.
  destruct (Z.leb_spec (ps_total ps) (part_Index part)); [by simplify_eq|].
  destruct (slice_get (ps_parts ps) (part_Index part)) as [[old|]|] eqn:Hg; [by simplify_eq/=| |done].
  cbn [mbind outcome_bind] in Ha. destruct (Z.eqb_spec (proof_Total (part_Proof part)) (ps_total ps)) as [Hpt|]; [|by simplify_eq/=].
  cbn [negb] in Ha. destruct (Proof_Verify _ _ _) as [[e|]|] eqn:Hv; [by simplify_eq/=| |done]. cbn [mbind outcome_bind] in Ha.
  apply slice_get_ret in Hg as [Hi Hg]. pose proof (lookup_lt_Some _ _ _ Hg).
  rewrite slice_set_in_range in Ha by (unfold len; lia). cbn [mbind outcome_bind] in Ha.
  destruct (SetIndex _ _ _) as [[bits ok]|]; [|done]. cbn [mbind outcome_bind] in Ha. simplify_eq.
  split_and!; [done|done|lia|lia|eexists; split_and!; [done| |done|done]|].
  - unfold Header. cbn. by rewrite Hh.
  - apply Verify_iff in Hv as (_ & Hpi & Hl & Hc). rewrite Hpt, Ht, Hl in Hc.
    destruct (compute_sound items _ _ _ Hne Hmax Hc) as [[_ ?]|?]; [by left|by right].
Qed.

(** [AddPart] does not compare the index of the part with the index its
    proof is for.  The first part of any data of more than one part, sent
    again under every index, is accepted every time, and completes a part set
    that has the block's header but reads as the first part repeated. *)
Theorem AddPart_accepts_misplaced_parts `{Crypto, !HashSize} data partSize :
  0 < partSize → partSize < len data → len data + partSize ≤ MaxUint32 →
  ∃ ps p0 ps' r, NewPartSetFromData data partSize = Ret ps ∧ ps_parts ps !! 0%nat = Some (Some p0) ∧
    gather (NewPartSetFromHeader (Header (Some ps)))
      ((λ i, mkPart i (part_Bytes p0) (part_Proof p0)) <$> range (ps_total ps)) = Ret (Some ps') ∧
    IsComplete ps' = true ∧ Header (Some ps') = Header (Some ps) ∧ GetReader ps' = Ret r ∧
    rest r = concat (replicate (Z.to_nat (ps_total ps)) (take (Z.to_nat partSize) data)).
Proof.
  intros Hp Hlt Hmax. assert (data ≠ []) as Hne by (intros ->; unfold len in Hlt; simpl in Hlt; lia).
  destruct (NewPartSetFromData_spec data partSize Hne Hp Hmax)
    as (ps & full & Hps & Htot & _ & _ & _ & Hparts & Hfne & Hlen & [Ht Hok] & Hpb & _).
  destruct full as [|p0 full]; [done|]. destruct (Hok 0%nat p0 eq_refl) as (_ & Hpt & Hv).
  assert (part_Bytes p0 = take (Z.to_nat partSize) data) as Hb0.
  { cbn [length seq fmap list_fmap] in Hpb. by injection Hpb as Hpb _. }
  cbn [Header Total] in Ht. set (forged := (λ i, mkPart i (part_Bytes p0) (part_Proof p0)) <$> range (ps_total ps)).
  assert (len forged = ps_total ps) as Hlf.
  { unfold forged. rewrite len_fmap. unfold len. rewrite length_seqZ, Ht. unfold len. lia. }
  assert (part_Bytes <$> forged = replicate (Z.to_nat (ps_total ps)) (part_Bytes p0)) as Hfb.
  { unfold forged. rewrite <-list_fmap_compose. symmetry. apply replicate_as_elem_of. split; [by rewrite length_fmap, length_seqZ|].
    intros x (i & -> & _)%list_elem_of_fmap. done. }
  destruct (gather_complete (Header (Some ps)) forged) with (l := forged)
    as (ps' & r & Hg & Hc & Hh & _ & _ & Hr & Hrest & _).
  - split; [by rewrite Hlf|]. intros i p Hi. unfold forged in Hi. rewrite list_lookup_fmap in Hi.
    destruct (range (ps_total ps) !! i) as [j|] eqn:Hj; [|done]. apply lookup_seqZ in Hj as [-> _]. simpl in Hi. injection Hi as <-.
    cbn [part_Index part_Proof part_Bytes]. split_and!; [lia|by rewrite Hpt, <-Ht, Hlf|done].
  - rewrite Hlf, Ht. unfold MaxUint32 in *. lia.
  - rewrite <-(zsum_fmap (λ b, len b) part_Bytes), Hfb, Hb0.
    rewrite (zsum_ext_in _ (λ _, len (take (Z.to_nat partSize) data))), zsum_const.
    + unfold len at 1 2. rewrite length_replicate, length_take.
      pose proof (Z.mul_div_le (len data + partSize - 1) partSize Hp). rewrite <-Htot in *. unfold MaxUint32, len in *. unfold MaxInt64. nia.
    + intros x Hx%elem_of_replicate. by destruct Hx as [-> _].
  - intros He. rewrite He in Hlf. unfold len in *. simpl in *. lia.
  - done.
  - exists ps, p0, ps', r. split_and!; [done|by rewrite Hparts|done|done|done|done|]. by rewrite Hrest, Hfb, Hb0.
Qed.

(** ** Witnesses *)

Definition toy_data : bytes := [x01; x02; x03; x04; x05].

Lemma PartSet_roundtrip_witness :
  ∃ ps, @NewPartSetFromData toy_hash toy_data 2 = Ret ps ∧ IsComplete ps = true ∧ ps_total ps = 3.
Proof.
  destruct (@PartSet_roundtrip toy_hash toy_hash_size toy_data 2) as (ps & H1 & H2 & H3 & _);
    [discriminate|reflexivity|vm_compute; discriminate|].
  exists ps. split; [exact H1|]. split; [exact H2|exact H3].
Defined.

Definition toy_set : PartSet :=
  NewPartSetFromHeader (mkPartSetHeader 5 toy_root).

Lemma AddPart_sound_witness :
  toy_items !! 0%nat = Some [x01] ∨ @collision toy_hash toy_items [x01] 0 (Aunts toy_proof).
Proof.
  destruct (@AddPart_sound toy_hash toy_hash_size toy_items toy_set (mkPart 3 [x01] toy_proof)
    (match @AddPart toy_hash (Some toy_set) (mkPart 3 [x01] toy_proof) with Ret (r, _, _) => r | Panic _ => None end) true None)
    as (_ & _ & _ & _ & Hs); [discriminate|vm_compute; discriminate|vm_compute; reflexivity..|exact Hs].
Defined.

Lemma AddPart_accepts_misplaced_parts_witness :
  ∃ ps p0 ps' r, @NewPartSetFromData toy_hash toy_data 2 = Ret ps ∧ ps_parts ps !! 0%nat = Some (Some p0) ∧
    IsComplete ps' = true ∧ Header (Some ps') = Header (Some ps) ∧ GetReader ps' = Ret r ∧
    rest r = concat (replicate (Z.to_nat (ps_total ps)) [x01; x02]).
Proof.
  destruct (@AddPart_accepts_misplaced_parts toy_hash toy_hash_size toy_data 2)
    as (ps & p0 & ps' & r & H1 & H2 & _ & H3 & H4 & H5 & H6); [reflexivity|reflexivity|vm_compute; discriminate|].
  exists ps, p0, ps', r. repeat (split; [assumption|]). exact H6.
Defined.
