(* ===== verification/Narwhal.v ===== *)
(** * Narwhal: committee, messages and aggregators

    Models [src/hetu-consensus]: [config/src/lib.rs] (the committee and its
    thresholds), [primary/src/messages.rs] (headers, votes, certificates) and
    [primary/src/aggregators.rs].  Unsigned integers wrap as in a release
    build.  Network addresses are left out. *)
From S2P Require Import Prelude.
From S2P Require Import Proto.

(** ** Outside code: SHA-512 cut to 32 bytes and ed25519 *)

Class DagCrypto := {
  sha512_32 : bytes → bytes;
  sig_verify : (* signature *) bytes → (* digest *) bytes → (* key *) bytes → bool;
  sig_verify_batch : (* digest *) bytes → list (bytes * bytes) → bool;
}.

(** A batch of signatures that each verify is accepted.  The converse does not
    hold of ed25519, whose batch equation is laxer than [verify_strict]. *)
Class DagCryptoLaws `{DagCrypto} :=
  verify_batch_all : ∀ d votes, (∀ k s, (k, s) ∈ votes → sig_verify s d k = true) → sig_verify_batch d votes = true.

(** ** The committee *)

Record Authority := mkAuthority { auth_stake : Z; auth_workers : list Z }.
(** A [BTreeMap]: the keys in ascending order. *)
Record Committee := mkCommittee { authorities : list (bytes * Authority) }.

Fixpoint assoc_get {A} (l : list (bytes * A)) (k : bytes) : option A :=
  match l with
  | [] => None
  | (k', a) :: l => if decide (k' = k) then Some a else assoc_get l k
  end.
Definition find_authority (c : Committee) (name : bytes) : option Authority := assoc_get (authorities c) name.

Definition committee_size (c : Committee) : Z := len (authorities c).
Definition stake (c : Committee) (name : bytes) : Z :=
  match find_authority c name with None => 0 | Some a => auth_stake a end.
Definition others_stake (c : Committee) (myself : bytes) : list (bytes * Z) :=
  (λ p, (p.1, auth_stake p.2)) <$> filter (λ p, p.1 ≠ myself) (authorities c).
Definition total_votes (c : Committee) : Z := foldl (λ s p, uint32 (s + auth_stake p.2)) 0 (authorities c).
Definition quorum_threshold (c : Committee) : Z := uint32 (uint32 (2 * total_votes c) / 3 + 1).
Definition validity_threshold (c : Committee) : Z := uint32 (total_votes c + 2) / 3.
(** Whether [worker] finds the address of the worker. *)
Definition has_worker (c : Committee) (to : bytes) (id : Z) : bool :=
  match find_authority c to with None => false | Some a => bool_decide (id ∈ auth_workers a) end.

(** ** Messages *)

Record Header := mkHeader {
  h_author : bytes;
  h_round : Z;
  h_payload : list (bytes * Z);
  h_parents : list bytes;
  h_id : bytes;
  h_signature : bytes;
}.
Record DagVote := mkDagVote { dv_id : bytes; dv_round : Z; dv_origin : bytes; dv_author : bytes; dv_signature : bytes }.
Record Certificate := mkCertificate { c_header : Header; c_votes : list (bytes * bytes) }.

#[global] Instance Header_eq_dec : EqDecision Header.
Proof. solve_decision. Defined.
#[global] Instance Certificate_eq_dec : EqDecision Certificate.
Proof. solve_decision. Defined.

Inductive DagError :=
| InvalidSignature
| SerializationError
| InvalidHeaderId
| MalformedHeader (id : bytes)
| UnknownAuthority (name : bytes)
| AuthorityReuse (name : bytes)
| UnexpectedVote (id : bytes)
| CertificateRequiresQuorum
| HeaderRequiresQuorum (id : bytes)
| TooOld (id : bytes) (round : Z).

(** [Digest::default], [PublicKey::default] and [Signature::default]. *)
Definition zeros (n : nat) : bytes := replicate n Byte.x00.
Definition Header_default : Header := mkHeader (zeros 32) 0 [] [] (zeros 32) (zeros 64).

Definition round (c : Certificate) : Z := h_round (c_header c).
Definition origin (c : Certificate) : bytes := h_author (c_header c).
Definition parents (c : Certificate) : list bytes := h_parents (c_header c).

(** The derived equality is replaced in the source: votes do not count. *)
Definition cert_eqb (a b : Certificate) : bool :=
  bool_decide (h_id (c_header a) = h_id (c_header b)) && (round a =? round b) && bool_decide (origin a = origin b).

Definition genesis (c : Committee) : list Certificate :=
  (λ p, mkCertificate (mkHeader p.1 0 [] [] (zeros 32) (zeros 64)) []) <$> authorities c.

Section messages.
Context `{DagCrypto}.

Definition Header_digest (h : Header) : bytes :=
  sha512_32 (h_author h ++ le_bytes 8 (h_round h) ++
    concat ((λ p, p.1 ++ le_bytes 4 p.2) <$> h_payload h) ++ concat (h_parents h)).

(** [request_signature] stands for the signature service. *)
Definition Header_new (request_signature : bytes → bytes) (author : bytes) (round : Z) (payload : list (bytes * Z))
    (parents : list bytes) : Header :=
  let header := mkHeader author round payload parents (zeros 32) (zeros 64) in
  let id := Header_digest header in
  mkHeader author round payload parents id (request_signature id).

Definition Header_verify (committee : Committee) (h : Header) : option DagError :=
  if negb (bool_decide (Header_digest h = h_id h)) then Some InvalidHeaderId
  else if negb (0 <? stake committee (h_author h)) then Some (UnknownAuthority (h_author h))
  else if negb (forallb (λ p, has_worker committee (h_author h) p.2) (h_payload h)) then Some (MalformedHeader (h_id h))
  else if negb (sig_verify (h_signature h) (h_id h) (h_author h)) then Some InvalidSignature
  else None.

(** Votes and certificates hash the header id, the round and the origin. *)
Definition dag_digest (id : bytes) (round : Z) (origin : bytes) : bytes := sha512_32 (id ++ le_bytes 8 round ++ origin).
Definition Vote_digest (v : DagVote) : bytes := dag_digest (dv_id v) (dv_round v) (dv_origin v).
Definition digest (c : Certificate) : bytes := dag_digest (h_id (c_header c)) (round c) (origin c).

Definition Vote_new (request_signature : bytes → bytes) (h : Header) (author : bytes) : DagVote :=
  mkDagVote (h_id h) (h_round h) (h_author h) author (request_signature (dag_digest (h_id h) (h_round h) (h_author h))).

Definition Vote_verify (committee : Committee) (v : DagVote) : option DagError :=
  if negb (0 <? stake committee (dv_author v)) then Some (UnknownAuthority (dv_author v))
  else if negb (sig_verify (dv_signature v) (Vote_digest v) (dv_author v)) then Some InvalidSignature
  else None.

(** The loop over the votes of a certificate: their weight. *)
Fixpoint count_votes (committee : Committee) (votes : list (bytes * bytes)) (used : list bytes) (weight : Z) : Z + DagError :=
  match votes with
  | [] => inl weight
  | (name, _) :: votes =>
      if bool_decide (name ∈ used) then inr (AuthorityReuse name)
      else if negb (0 <? stake committee name) then inr (UnknownAuthority name)
      else count_votes committee votes (name :: used) (uint32 (weight + stake committee name))
  end.

Definition Certificate_verify (committee : Committee) (c : Certificate) : option DagError :=
  if existsb (cert_eqb c) (genesis committee) then None
  else match Header_verify committee (c_header c) with
       | Some e => Some e
       | None =>
           match count_votes committee (c_votes c) [] 0 with
           | inr e => Some e
           | inl weight =>
               if weight <? quorum_threshold committee then Some CertificateRequiresQuorum
               else if negb (sig_verify_batch (digest c) (c_votes c)) then Some InvalidSignature
               else None
           end
       end.

(** ** Aggregators *)

Record VotesAggregator := mkVotesAggregator { va_weight : Z; va_votes : list (bytes * bytes); va_used : list bytes }.
Definition VotesAggregator_new : VotesAggregator := mkVotesAggregator 0 [] [].

Definition votes_append (va : VotesAggregator) (vote : DagVote) (committee : Committee) (header : Header)
    : VotesAggregator * (option Certificate + DagError) :=
  let author := dv_author vote in
  if bool_decide (author ∈ va_used va) then (va, inr (AuthorityReuse author))
  else
    let used := author :: va_used va in
    let votes := va_votes va ++ [(author, dv_signature vote)] in
    let weight := uint32 (va_weight va + stake committee author) in
    if quorum_threshold committee <=? weight
    then (mkVotesAggregator 0 votes used, inl (Some (mkCertificate header votes)))
    else (mkVotesAggregator weight votes used, inl None).

Record CertificatesAggregator := mkCertificatesAggregator {
  ca_weight : Z; ca_certificates : list bytes; ca_used : list bytes }.
Definition CertificatesAggregator_new : CertificatesAggregator := mkCertificatesAggregator 0 [] [].

Definition certificates_append (ca : CertificatesAggregator) (certificate : Certificate) (committee : Committee)
    : CertificatesAggregator * option (list bytes) :=
  let o := origin certificate in
  if bool_decide (o ∈ ca_used ca) then (ca, None)
  else
    let used := o :: ca_used ca in
    let certificates := ca_certificates ca ++ [digest certificate] in
    let weight := uint32 (ca_weight ca + stake committee o) in
    if quorum_threshold committee <=? weight
    then (mkCertificatesAggregator 0 [] used, Some certificates)
    else (mkCertificatesAggregator weight certificates used, None).
End messages.
