(* ===== verification/NarwhalQuorum.v ===== *)
(** * Narwhal: stake and quorums

    The thresholds of a committee whose stakes do not overflow, and how much
    two sets of authorities must share. *)
From S2P Require Import Prelude.
From S2P Require Import Narwhal.

Definition total_stake (c : Committee) : Z := zsum (λ p, auth_stake p.2) (authorities c).

(** A committee of a real network: a map, with stakes whose sum is positive
    and far enough from the 32-bit bound that doubling it does not wrap. *)
Record committee_ok (c : Committee) : Prop := {
  co_nodup : NoDup (authorities c).*1;
  co_stakes : ∀ p, p ∈ authorities c → 0 ≤ auth_stake p.2;
  co_total : 0 < total_stake c < 2147483648;
}.

(** Sums that wrap at 32 bits are sums below the bound. *)
Lemma sum_uint32 {A} (f : A → Z) l s :
  (∀ x, x ∈ l → 0 ≤ f x) → 0 ≤ s → s + zsum f l < 4294967296 →
  foldl (λ s x, uint32 (s + f x)) s l = s + zsum f l.
Proof.
  revert s. induction l as [|x l IH]; intros s Hf Hs Hb; [rewrite zsum_nil; simpl; lia|].
  rewrite zsum_cons in *. cbn [foldl].
  assert (0 ≤ f x) by (apply Hf; by left).
  assert (0 ≤ zsum f l) by (apply zsum_nonneg; intros; apply Hf; by right).
  assert (uint32 (s + f x) = s + f x) as -> by (unfold uint32; rewrite Z.mod_small; lia).
  rewrite IH; [lia|intros; apply Hf; by right|lia|lia].
Qed.

Section quorum.
Context (c : Committee) (ok : committee_ok c).

Lemma total_votes_spec : total_votes c = total_stake c.
Proof using ok.
  unfold total_votes, total_stake. destruct (co_total c ok). unfold total_stake in *. rewrite sum_uint32; [lia| |lia|lia].
  apply (co_stakes c ok).
Qed.

Lemma quorum_spec : quorum_threshold c = 2 * total_stake c / 3 + 1.
Proof using ok.
  unfold quorum_threshold. rewrite total_votes_spec. destruct (co_total c ok).
  assert (uint32 (2 * total_stake c) = 2 * total_stake c) as -> by (unfold uint32; rewrite Z.mod_small; lia).
  pose proof (Z.div_le_upper_bound (2 * total_stake c) 3 (2 * total_stake c)).
  pose proof (Z.div_pos (2 * total_stake c) 3). unfold uint32. rewrite Z.mod_small; lia.
Qed.

Lemma validity_spec : validity_threshold c = (total_stake c + 2) / 3.
Proof using ok.
  unfold validity_threshold. rewrite total_votes_spec. destruct (co_total c ok).
  unfold uint32. rewrite Z.mod_small; [done|lia].
Qed.

(** A quorum and a valid set, or two quorums, are more than everything. *)
Lemma quorum_validity : total_stake c < quorum_threshold c + validity_threshold c.
Proof using ok.
  rewrite quorum_spec, validity_spec. destruct (co_total c ok).
  pose proof (Z.div_mod (2 * total_stake c) 3 ltac:(lia)). pose proof (Z.mod_pos_bound (2 * total_stake c) 3 ltac:(lia)).
  pose proof (Z.div_mod (total_stake c + 2) 3 ltac:(lia)). pose proof (Z.mod_pos_bound (total_stake c + 2) 3 ltac:(lia)). lia.
Qed.

Lemma quorum_quorum : total_stake c + validity_threshold c ≤ 2 * quorum_threshold c.
Proof using ok.
  rewrite quorum_spec, validity_spec. destruct (co_total c ok).
  pose proof (Z.div_mod (2 * total_stake c) 3 ltac:(lia)). pose proof (Z.mod_pos_bound (2 * total_stake c) 3 ltac:(lia)).
  pose proof (Z.div_mod (total_stake c + 2) 3 ltac:(lia)). pose proof (Z.mod_pos_bound (total_stake c + 2) 3 ltac:(lia)). lia.
Qed.

Lemma validity_pos : 0 < validity_threshold c.
Proof using ok. rewrite validity_spec. destruct (co_total c ok). apply Z.div_str_pos. lia. Qed.

Lemma validity_le : validity_threshold c ≤ quorum_threshold c.
Proof using ok.
  rewrite quorum_spec, validity_spec. destruct (co_total c ok).
  pose proof (Z.div_mod (2 * total_stake c) 3 ltac:(lia)). pose proof (Z.mod_pos_bound (2 * total_stake c) 3 ltac:(lia)).
  pose proof (Z.div_mod (total_stake c + 2) 3 ltac:(lia)). pose proof (Z.mod_pos_bound (total_stake c + 2) 3 ltac:(lia)). lia.
Qed.

(** ** Stake of a set of names *)

Lemma stake_nonneg name : 0 ≤ stake c name.
Proof using ok.
  unfold stake, find_authority. pose proof (co_stakes c ok) as Hs. induction (authorities c) as [|[k a] l IH]; simpl; [done|].
  case_decide; [|apply IH; intros; apply Hs; by right]. apply (Hs (k, a)). by left.
Qed.

Lemma stake_split l x :
  NoDup l.*1 →
  match assoc_get l x with None => 0 | Some a => auth_stake a end = zsum (λ p : bytes * Authority, if decide (p.1 = x) then auth_stake p.2 else 0) l.
Proof using.
  induction l as [|[k a] l IH]; cbn [fmap list_fmap assoc_get]; intros Hnd; [done|].
  apply NoDup_cons in Hnd as [Hk Hnd]. rewrite zsum_cons. cbn [fst snd]. rewrite <-IH by done. case_decide as Hd; [|lia].
  subst k. assert (assoc_get l x = None) as ->; [|lia]. clear -Hk.
  induction l as [|[k b] l IH]; [done|]. cbn in *. rewrite decide_False by set_solver. apply IH. set_solver.
Qed.

Lemma stake_sum names :
  NoDup names →
  zsum (stake c) names = zsum (λ p, if decide (p.1 ∈ names) then auth_stake p.2 else 0) (authorities c).
Proof using ok.
  induction names as [|x names IH]; intros Hnd.
  - rewrite zsum_nil, (zsum_ext_in _ (λ _, 0)), zsum_const; [lia|]. intros p _. by rewrite decide_False by (apply not_elem_of_nil).
  - apply NoDup_cons in Hnd as [Hx Hnd]. rewrite zsum_cons, IH by done. unfold stake at 1, find_authority.
    rewrite (stake_split _ _ (co_nodup c ok)), <-zsum_add. apply zsum_ext_in. intros p _.
    destruct (decide (p.1 = x)) as [->|Hne].
    + rewrite decide_False by done. rewrite decide_True by (by left). lia.
    + rewrite Z.add_0_l. destruct (decide (p.1 ∈ names)) as [Hi|Hi].
      * by rewrite decide_True by (by right).
      * rewrite decide_False; [done|]. intros [?|?]%elem_of_cons; done.
Qed.

(** The stake that two sets of names share. *)
Lemma shared_stake l1 l2 :
  NoDup l1 → NoDup l2 →
  zsum (stake c) l1 + zsum (stake c) l2 ≤ total_stake c + zsum (stake c) (filter (λ x, x ∈ l2) l1).
Proof using ok.
  intros H1 H2. rewrite (stake_sum l1), (stake_sum l2), (stake_sum (filter _ l1)) by (try done; by apply NoDup_filter).
  unfold total_stake. rewrite <-!zsum_add. apply zsum_le. intros p Hp. pose proof (co_stakes c ok p Hp).
  destruct (decide (p.1 ∈ l1)) as [Hi1|Hi1]; destruct (decide (p.1 ∈ l2)) as [Hi2|Hi2]; destruct (decide (p.1 ∈ filter _ _)) as [Hi|Hi];
    try lia. exfalso. apply Hi. by apply list_elem_of_filter.
Qed.

Lemma stake_total l : NoDup l → zsum (stake c) l ≤ total_stake c.
Proof using ok.
  intros Hl. rewrite stake_sum by done. apply zsum_le. intros p Hp. pose proof (co_stakes c ok p Hp). case_decide; lia.
Qed.

(** A quorum meets every valid set. *)
Lemma quorum_meets l1 l2 :
  NoDup l1 → NoDup l2 → quorum_threshold c ≤ zsum (stake c) l1 → validity_threshold c ≤ zsum (stake c) l2 →
  ∃ x, x ∈ l1 ∧ x ∈ l2.
Proof using ok.
  intros H1 H2 Hq Hv. pose proof (shared_stake l1 l2 H1 H2) as Hs. pose proof quorum_validity.
  destruct (filter (λ x, x ∈ l2) l1) as [|x l] eqn:Hf; [rewrite zsum_nil in Hs; lia|].
  assert (x ∈ filter (λ x, x ∈ l2) l1) as [? ?]%list_elem_of_filter by (rewrite Hf; by left). by exists x.
Qed.
End quorum.
