(* ===== verification/NarwhalTheorems.v ===== *)
(** * Narwhal: certificates and aggregators

    A verified certificate stands for a quorum, so two certificates of one
    author and round are for the same header unless a third of the stake
    voted twice.  The aggregator of votes makes one certificate, which
    verifies, exactly when the voters form a quorum. *)
From S2P Require Import Prelude.
From S2P Require Import Narwhal.
From S2P Require Import NarwhalQuorum.

Section certificates.
Context `{DagCrypto} {laws : DagCryptoLaws} (committee : Committee) (com : committee_ok committee).

(** ** Counting votes *)

Lemma count_votes_sound votes used w weight :
  count_votes committee votes used w = inl weight →
  NoDup votes.*1 ∧ (∀ n, n ∈ votes.*1 → (n ∉ used) ∧ 0 < stake committee n) ∧
  (0 ≤ w → w + zsum (stake committee) votes.*1 < 4294967296 → weight = w + zsum (stake committee) votes.*1).
Proof using com.
  revert used w. induction votes as [|[name s] votes IH]; intros used w Hc; cbn [count_votes] in Hc.
  { injection Hc as <-. split; [constructor|]. split; [intros n Hn; by apply not_elem_of_nil in Hn|]. intros _ _. cbn. rewrite zsum_nil. lia. }
  case_bool_decide as Hu; [done|]. destruct (Z.ltb_spec 0 (stake committee name)) as [Hpos|]; [|done]. cbn [negb] in Hc.
  destruct (IH _ _ Hc) as (Hnd & Hall & Hw). cbn [fmap list_fmap fst]. split_and!.
  - constructor; [|done]. intros Hn. destruct (Hall _ Hn) as [Hno _]. apply Hno. by left.
  - intros n [->|Hn]%elem_of_cons; [done|]. destruct (Hall n Hn) as [Hno ?]. split; [|done]. intros ?. apply Hno. by right.
  - intros H0 Hb. rewrite zsum_cons in *.
    assert (0 ≤ zsum (stake committee) votes.*1) by (apply zsum_nonneg; intros; by apply stake_nonneg).
    assert (uint32 (w + stake committee name) = w + stake committee name) as He by (unfold uint32; rewrite Z.mod_small; lia).
    rewrite Hw, He; [lia|lia|rewrite He; lia].
Qed.

Lemma count_votes_complete votes used w :
  NoDup votes.*1 → (∀ n, n ∈ votes.*1 → (n ∉ used) ∧ 0 < stake committee n) → 0 ≤ w →
  w + zsum (stake committee) votes.*1 < 4294967296 →
  count_votes committee votes used w = inl (w + zsum (stake committee) votes.*1).
Proof using com.
  revert used w. induction votes as [|[name s] votes IH]; intros used w Hnd Hall Hw Hb; cbn [count_votes fmap list_fmap fst] in *.
  { rewrite zsum_nil. f_equal. lia. }
  apply NoDup_cons in Hnd as [Hn Hnd]. destruct (Hall name) as [Hu Hp]; [by left|]. rewrite zsum_cons in *.
  assert (0 ≤ zsum (stake committee) votes.*1) by (apply zsum_nonneg; intros; by apply stake_nonneg).
  rewrite bool_decide_eq_false_2 by done. destruct (Z.ltb_spec 0 (stake committee name)); [|lia]. cbn [negb].
  assert (uint32 (w + stake committee name) = w + stake committee name) as -> by (unfold uint32; rewrite Z.mod_small; lia).
  rewrite IH; [f_equal; lia|done| |lia|lia]. intros n Hnn. destruct (Hall n) as [Hu' ?]; [by right|]. split; [|done].
  intros [->|?]%elem_of_cons; done.
Qed.

Lemma votes_bound (votes : list (bytes * bytes)) : NoDup votes.*1 → zsum (stake committee) votes.*1 < 4294967296.
Proof using com. intros Hnd. pose proof (stake_total committee com _ Hnd). destruct (co_total _ com). lia. Qed.

(** A verified certificate that is not a genesis one. *)
Lemma certificate_verify_sound c :
  Certificate_verify committee c = None → existsb (cert_eqb c) (genesis committee) = false →
  Header_verify committee (c_header c) = None ∧ NoDup (c_votes c).*1 ∧
  quorum_threshold committee ≤ zsum (stake committee) (c_votes c).*1 ∧
  sig_verify_batch (digest c) (c_votes c) = true.
Proof using com.
  intros Hv Hg. unfold Certificate_verify in Hv. rewrite Hg in Hv.
  destruct (Header_verify committee (c_header c)); [done|].
  destruct (count_votes committee (c_votes c) [] 0) as [w|] eqn:Hc; [|done].
  destruct (count_votes_sound _ _ _ _ Hc) as (Hnd & _ & Hw). specialize (Hw ltac:(lia) ltac:(pose proof (votes_bound _ Hnd); lia)).
  destruct (Z.ltb_spec w (quorum_threshold committee)); [done|].
  destruct (sig_verify_batch _ _) eqn:Hb; [|done]. split_and!; [done|done|lia|done].
Qed.

Lemma certificate_verify_complete c :
  Header_verify committee (c_header c) = None → NoDup (c_votes c).*1 → (∀ n, n ∈ (c_votes c).*1 → 0 < stake committee n) →
  quorum_threshold committee ≤ zsum (stake committee) (c_votes c).*1 →
  (∀ k s, (k, s) ∈ c_votes c → sig_verify s (digest c) k = true) → Certificate_verify committee c = None.
Proof using com laws.
  intros Hh Hnd Hpos Hq Hs. unfold Certificate_verify. destruct (existsb _ _); [done|]. rewrite Hh.
  rewrite count_votes_complete; [|done| |done|by apply votes_bound].
  - destruct (Z.ltb_spec (0 + zsum (stake committee) (c_votes c).*1) (quorum_threshold committee)); [lia|].
    by rewrite (verify_batch_all _ _ Hs).
  - intros n Hn. split; [apply not_elem_of_nil|by apply Hpos].
Qed.

(** ** The aggregator *)

Context (header : Header).

(** The certificates that a sequence of votes makes. *)
Definition aggregate (votes : list DagVote) : VotesAggregator * list Certificate :=
  foldl (λ '(va, out) v, let '(va, r) := votes_append va v committee header in
    (va, match r with inl (Some c) => out ++ [c] | _ => out end)) (VotesAggregator_new, []) votes.

Definition good_vote (v : DagVote) : Prop :=
  Vote_verify committee v = None ∧ dv_id v = h_id header ∧ dv_round v = h_round header ∧ dv_origin v = h_author header.

Definition header_digest : bytes := dag_digest (h_id header) (h_round header) (h_author header).

Lemma good_vote_sig v : good_vote v → 0 < stake committee (dv_author v) ∧ sig_verify (dv_signature v) header_digest (dv_author v) = true.
Proof using.
  intros (Hv & Hid & Hr & Ho). unfold Vote_verify, Vote_digest in Hv. rewrite Hid, Hr, Ho in Hv. fold header_digest in Hv.
  destruct (Z.ltb_spec 0 (stake committee (dv_author v))); [|done]. cbn [negb] in Hv. by destruct (sig_verify _ _ _).
Qed.

Record agg_ok (va : VotesAggregator) (out : list Certificate) : Prop := {
  ag_used : ∀ n, n ∈ va_used va ↔ n ∈ (va_votes va).*1;
  ag_nodup : NoDup (va_votes va).*1;
  ag_good : ∀ k s, (k, s) ∈ va_votes va → 0 < stake committee k ∧ sig_verify s header_digest k = true;
  ag_state : (out = [] ∧ va_weight va = zsum (stake committee) (va_votes va).*1 ∧ va_weight va < quorum_threshold committee) ∨
    ∃ n, out = [mkCertificate header (take n (va_votes va))] ∧
      quorum_threshold committee ≤ zsum (stake committee) (take n (va_votes va)).*1 ∧
      va_weight va = zsum (stake committee) (drop n (va_votes va)).*1 ∧ (n ≤ length (va_votes va))%nat;
}.

Lemma append_ok va out v :
  agg_ok va out → good_vote v →
  let '(va', r) := votes_append va v committee header in
  agg_ok va' (match r with inl (Some c) => out ++ [c] | _ => out end) ∧
  ∀ n, n ∈ (va_votes va').*1 ↔ n ∈ (va_votes va).*1 ∨ n = dv_author v.
Proof using com.
  intros Hok Hv. destruct (good_vote_sig v Hv) as [Hpos Hsig]. unfold votes_append.
  case_bool_decide as Hu; [split; [done|]; intros n; split; [by left|intros [?| ->]; [done|by apply (ag_used _ _ Hok)]]|].
  set (votes := va_votes va ++ [(dv_author v, dv_signature v)]).
  assert (votes.*1 = (va_votes va).*1 ++ [dv_author v]) as Hfst by (unfold votes; by rewrite fmap_app).
  assert (NoDup votes.*1) as Hnd.
  { rewrite Hfst. apply NoDup_app. split; [apply Hok|]. split; [|apply NoDup_singleton].
    intros n Hn ->%list_elem_of_singleton. apply Hu. by apply (ag_used _ _ Hok). }
  pose proof (stake_total committee com _ Hnd) as Htot. destruct (co_total _ com) as [_ Hb].
  assert (zsum (stake committee) votes.*1 = zsum (stake committee) (va_votes va).*1 + stake committee (dv_author v)) as Hsum.
  { rewrite Hfst, zsum_app, zsum_cons, zsum_nil. lia. }
  assert (∀ n, n ∈ dv_author v :: va_used va ↔ n ∈ votes.*1) as Hused.
  { intros n. rewrite Hfst, elem_of_app, elem_of_cons, list_elem_of_singleton, (ag_used _ _ Hok). tauto. }
  assert (∀ k s, (k, s) ∈ votes → 0 < stake committee k ∧ sig_verify s header_digest k = true) as Hgood.
  { intros k s [Hk|Hk]%elem_of_app; [by apply (ag_good _ _ Hok)|]. apply list_elem_of_singleton in Hk as [= -> ->]. done. }
  assert (0 ≤ zsum (stake committee) (va_votes va).*1) as Hnn by (apply zsum_nonneg; intros; by apply stake_nonneg).
  destruct (ag_state _ _ Hok) as [(-> & Hw & Hlt)|(n & -> & Hq & Hw & Hn)].
  - assert (uint32 (va_weight va + stake committee (dv_author v)) = zsum (stake committee) votes.*1) as ->.
    { rewrite Hw, <-Hsum. unfold uint32. rewrite Z.mod_small; lia. }
    destruct (Z.leb_spec (quorum_threshold committee) (zsum (stake committee) votes.*1)); (split; [split; try done|intros m; cbn; fold votes; rewrite Hfst, elem_of_app, list_elem_of_singleton; tauto]).
    + right. exists (length votes). cbn [va_votes va_weight]. fold votes. rewrite take_ge, drop_ge by lia. cbn. rewrite zsum_nil. by split_and!.
    + left. by split_and!.
  - assert (zsum (stake committee) (va_votes va).*1 = zsum (stake committee) (take n (va_votes va)).*1 + zsum (stake committee) (drop n (va_votes va)).*1) as Hsplit.
    { rewrite <-zsum_app, <-fmap_app, take_drop. done. }
    assert (0 ≤ zsum (stake committee) (drop n (va_votes va)).*1) by (apply zsum_nonneg; intros; by apply stake_nonneg).
    pose proof (quorum_validity _ com). pose proof (validity_le _ com).
    assert (uint32 (va_weight va + stake committee (dv_author v)) = zsum (stake committee) (drop n (va_votes va)).*1 + stake committee (dv_author v)) as ->.
    { rewrite Hw. unfold uint32. rewrite Z.mod_small; lia. }
    destruct (Z.leb_spec (quorum_threshold committee) (zsum (stake committee) (drop n (va_votes va)).*1 + stake committee (dv_author v))); [lia|].
    split; [split; try done|intros m; cbn; fold votes; rewrite Hfst, elem_of_app, list_elem_of_singleton; tauto].
    right. exists n. cbn [va_votes va_weight]. fold votes. unfold votes.
    rewrite take_app_le, drop_app_le by done. split_and!; [done|done| |rewrite length_app; lia].
    rewrite fmap_app, zsum_app. cbn. rewrite zsum_cons, zsum_nil. lia.
Qed.

Lemma agg_new : agg_ok VotesAggregator_new [].
Proof using com.
  split; [done|constructor|intros k s Hk; by apply not_elem_of_nil in Hk|]. left. cbn. rewrite zsum_nil. split_and!; [done|done|].
  pose proof (validity_pos _ com). pose proof (validity_le _ com). lia.
Qed.

(** What the aggregator makes verifies. *)
Lemma agg_verifies va out c :
  agg_ok va out → Header_verify committee header = None → c ∈ out → c_header c = header ∧ Certificate_verify committee c = None.
Proof using com laws.
  intros Hok Hh Hc. destruct (ag_state _ _ Hok) as [(-> & _)|(n & -> & Hq & _)]; [by apply not_elem_of_nil in Hc|].
  apply list_elem_of_singleton in Hc as ->. split; [done|]. apply certificate_verify_complete; cbn; [done| | |done|].
  - rewrite fmap_take. eapply sublist_NoDup; [apply (ag_nodup _ _ Hok)|]. apply sublist_take.
  - intros m ([k s] & -> & Hks)%list_elem_of_fmap. apply (ag_good _ _ Hok k s). eapply elem_of_take in Hks as (i & Hi & _).
    by eapply list_elem_of_lookup_2.
  - intros k s Hks. apply (ag_good _ _ Hok k s). eapply elem_of_take in Hks as (i & Hi & _). by eapply list_elem_of_lookup_2.
Qed.

Lemma aggregate_ok votes :
  (∀ v, v ∈ votes → good_vote v) →
  agg_ok (aggregate votes).1 (aggregate votes).2 ∧ ∀ n, n ∈ (va_votes (aggregate votes).1).*1 ↔ n ∈ dv_author <$> votes.
Proof using com.
  induction votes as [|v votes IH] using rev_ind; intros Hg.
  - split; [apply agg_new|done].
  - destruct IH as [IH Hin]; [intros; apply Hg, elem_of_app; by left|].
    unfold aggregate in *. rewrite foldl_app. cbn [foldl].
    destruct (foldl _ _ votes) as [va out]. cbn [fst snd] in *.
    pose proof (append_ok va out v IH (Hg v ltac:(apply elem_of_app; right; by left))) as Ha.
    destruct (votes_append va v committee header) as [va' r]. destruct Ha as [Ha Hin']. split; [done|].
    intros n. cbn [fst]. rewrite Hin', Hin, fmap_app, elem_of_app. cbn. rewrite list_elem_of_singleton. tauto.
Qed.
End certificates.
