(* ===== verification/NarwhalCore.v ===== *)
(** * Narwhal: the core of a primary

    Models [primary/src/core.rs] and [primary/src/synchronizer.rs] of
    [src/hetu-consensus]: headers, votes and certificates from the network
    are checked, voted on, aggregated, stored and passed to the proposer and
    to consensus.  A handler is a function of the state of the core, which
    may return an error (the state is kept) or panic.  What the core sends is
    a log.  The three handlers call each other, so they take fuel;
    [NarwhalCoreSteps] shows that seven nested calls are enough. *)
From S2P Require Import Prelude.
From S2P Require Import Proto.
From S2P Require Import Narwhal.

(** The serialization crate: certificates read back, and neither a header
    nor an empty string reads as a certificate. *)
Class Bincode := {
  ser_header : Header → bytes;
  ser_certificate : Certificate → bytes;
  de_certificate : bytes → option Certificate;
}.
Class BincodeLaws `{Bincode} := {
  de_ser_certificate : ∀ c, de_certificate (ser_certificate c) = Some c;
  de_ser_header : ∀ h, de_certificate (ser_header h) = None;
  de_empty : de_certificate [] = None;
}.

Inductive PrimaryMessage :=
| MHeader (header : Header)
| MVote (vote : DagVote)
| MCertificate (certificate : Certificate)
| MCertificatesRequest (missing : list bytes) (requestor : bytes).

(** What the core sends: to the network, to the signature service, to the
    waiters, to the proposer and to consensus. *)
Inductive CoreOut :=
| OBroadcast (m : PrimaryMessage)
| OSend (to : bytes) (m : PrimaryMessage)
| OSigned (vote : DagVote)
| OSyncBatches (missing : gmap bytes Z) (header : Header)
| OSyncParents (missing : list bytes) (header : Header)
| OWaitCertificate (certificate : Certificate)
| OParents (parents : list bytes) (round : Z)
| OConsensus (certificate : Certificate).

Record Core := mkCore {
  store : gmap bytes bytes;
  gc_round : Z;
  last_voted : gmap Z (gset bytes);
  processing : gmap Z (gset bytes);
  current_header : Header;
  votes_aggregator : VotesAggregator;
  certificates_aggregators : gmap Z CertificatesAggregator;
  cancel_handlers : gmap Z Z;
  out : list CoreOut;
}.

Definition set_store (f : gmap bytes bytes → gmap bytes bytes) (s : Core) : Core :=
  mkCore (f (store s)) (gc_round s) (last_voted s) (processing s) (current_header s) (votes_aggregator s)
    (certificates_aggregators s) (cancel_handlers s) (out s).
Definition set_last_voted (x : gmap Z (gset bytes)) (s : Core) : Core :=
  mkCore (store s) (gc_round s) x (processing s) (current_header s) (votes_aggregator s)
    (certificates_aggregators s) (cancel_handlers s) (out s).
Definition set_processing (x : gmap Z (gset bytes)) (s : Core) : Core :=
  mkCore (store s) (gc_round s) (last_voted s) x (current_header s) (votes_aggregator s)
    (certificates_aggregators s) (cancel_handlers s) (out s).
Definition set_current (h : Header) (va : VotesAggregator) (s : Core) : Core :=
  mkCore (store s) (gc_round s) (last_voted s) (processing s) h va
    (certificates_aggregators s) (cancel_handlers s) (out s).
Definition set_aggregators (x : gmap Z CertificatesAggregator) (s : Core) : Core :=
  mkCore (store s) (gc_round s) (last_voted s) (processing s) (current_header s) (votes_aggregator s)
    x (cancel_handlers s) (out s).
(** Messages that go out reliably leave their cancel handlers with the round. *)
Definition add_handlers (round n : Z) (s : Core) : Core :=
  mkCore (store s) (gc_round s) (last_voted s) (processing s) (current_header s) (votes_aggregator s)
    (certificates_aggregators s) (<[round := default 0 (cancel_handlers s !! round) + n]> (cancel_handlers s)) (out s).
Definition emit (o : CoreOut) (s : Core) : Core :=
  mkCore (store s) (gc_round s) (last_voted s) (processing s) (current_header s) (votes_aggregator s)
    (certificates_aggregators s) (cancel_handlers s) (out s ++ [o]).

(** ** Handlers *)

Inductive exec (A : Type) :=
| Done (s : Core) (a : A)
| Err (s : Core) (e : DagError)
| Panicked
| NoFuel.
Arguments Done {A}. Arguments Err {A}. Arguments Panicked {A}. Arguments NoFuel {A}.

Definition andthen {A B} (r : exec A) (k : Core → A → exec B) : exec B :=
  match r with
  | Done s a => k s a
  | Err s e => Err s e
  | Panicked => Panicked
  | NoFuel => NoFuel
  end.

(** [.expect] on a result. *)
Definition expect {A} (r : exec A) : exec A :=
  match r with Err _ _ => Panicked | r => r end.

Declare Scope core_scope.
Delimit Scope core_scope with core.
Notation "'let*' s ',' x ':=' r 'in' k" := (andthen r (λ s x, k)) (at level 10, s name, x name, r at level 100, k at level 200) : core_scope.
Open Scope core_scope.

Section core.
Context `{DagCrypto} `{Bincode}.
Context (name : bytes) (committee : Committee) (gc_depth : Z) (request_signature : bytes → bytes).

Definition Core_new (st : gmap bytes bytes) : Core :=
  mkCore st 0 ∅ ∅ Header_default VotesAggregator_new ∅ ∅ [].

(** ** The synchronizer *)

Definition genesis_digests : list (bytes * Certificate) := (λ x, (digest x, x)) <$> genesis committee.

(** The key under which a primary notes that a worker has a batch. *)
Definition payload_key (p : bytes * Z) : bytes := p.1 ++ le_bytes 4 p.2.

Definition missing_payload (s : Core) (header : Header) : exec bool :=
  if bool_decide (h_author header = name) then Done s false
  else
    let missing := filter (λ p, store s !! payload_key p = None) (h_payload header) in
    match missing with
    | [] => Done s false
    | _ => Done (emit (OSyncBatches (list_to_map missing) header) s) true
    end.

Fixpoint get_parents_loop (st : gmap bytes bytes) (digests : list bytes) (missing : list bytes) (parents : list Certificate)
    : (list bytes * list Certificate) + DagError :=
  match digests with
  | [] => inl (missing, parents)
  | d :: digests =>
      match find (λ g : bytes * Certificate, bool_decide (g.1 = d)) genesis_digests with
      | Some (_, g) => get_parents_loop st digests missing (parents ++ [g])
      | None =>
          match st !! d with
          | Some v =>
              match de_certificate v with
              | Some p => get_parents_loop st digests missing (parents ++ [p])
              | None => inr SerializationError
              end
          | None => get_parents_loop st digests (missing ++ [d]) parents
          end
      end
  end.

Definition get_parents (s : Core) (header : Header) : exec (list Certificate) :=
  match get_parents_loop (store s) (h_parents header) [] [] with
  | inr e => Err s e
  | inl ([], parents) => Done s parents
  | inl (missing, _) => Done (emit (OSyncParents missing header) s) []
  end.

Definition has_parent_digest (s : Core) (d : bytes) : bool :=
  existsb (λ g : bytes * Certificate, bool_decide (g.1 = d)) genesis_digests || bool_decide (is_Some (store s !! d)).

Definition deliver_certificate (s : Core) (certificate : Certificate) : exec bool :=
  if forallb (has_parent_digest s) (h_parents (c_header certificate)) then Done s true
  else Done (emit (OWaitCertificate certificate) s) false.

(** ** Headers, votes and certificates *)

Fixpoint check_parents (header : Header) (parents : list Certificate) (weight : Z) : Z + DagError :=
  match parents with
  | [] => inl weight
  | x :: parents =>
      if negb (uint64 (round x + 1) =? h_round header) then inr (MalformedHeader (h_id header))
      else check_parents header parents (uint32 (weight + stake committee (origin x)))
  end.

Definition others_primaries : Z := len (others_stake committee name).

Definition broadcast (m : PrimaryMessage) (round : Z) (s : Core) : Core :=
  add_handlers round others_primaries (emit (OBroadcast m) s).

(** [insert] on the set under a key: whether the value is new. *)
Definition set_insert (m : gmap Z (gset bytes)) (k : Z) (x : bytes) : gmap Z (gset bytes) * bool :=
  let set := default ∅ (m !! k) in (<[k := {[ x ]} ∪ set]> m, negb (bool_decide (x ∈ set))).

(** The checks of a header, up to its storage.  [false]: its processing is
    suspended. *)
Definition check_header (s : Core) (header : Header) : exec bool :=
  let* s, parents := get_parents s header in
  if bool_decide (parents = []) then Done s false
  else match check_parents header parents 0 with
  | inr e => Err s e
  | inl weight =>
      if weight <? quorum_threshold committee then Err s (HeaderRequiresQuorum (h_id header))
      else
        let* s, missing := missing_payload s header in
        if missing : bool then Done s false
        else Done (set_store (<[h_id header := ser_header header]>) s) true
  end.

(** The vote for a header, unless its author has one in its round already. *)
Definition vote_for (process_vote : Core → DagVote → exec ()) (s : Core) (header : Header) : exec () :=
  let '(voted, new) := set_insert (last_voted s) (h_round header) (h_author header) in
  let s := set_last_voted voted s in
  if new : bool then
    let vote := Vote_new request_signature header name in
    let s := emit (OSigned vote) s in
    if bool_decide (dv_origin vote = name) then expect (process_vote s vote)
    else match find_authority committee (h_author header) with
         | None => Panicked
         | Some _ => Done (add_handlers (h_round header) 1 (emit (OSend (h_author header) (MVote vote)) s)) ()
         end
  else Done s ().

Definition header_body (process_vote : Core → DagVote → exec ()) (s : Core) (header : Header) : exec () :=
  let s := set_processing (set_insert (processing s) (h_round header) (h_id header)).1 s in
  let* s, ok := check_header s header in
  if ok : bool then vote_for process_vote s header else Done s ().

Definition vote_body (process_certificate : Core → Certificate → exec ()) (s : Core) (vote : DagVote) : exec () :=
  let '(va, r) := votes_append (votes_aggregator s) vote committee (current_header s) in
  let s := set_current (current_header s) va s in
  match r with
  | inr e => Err s e
  | inl None => Done s ()
  | inl (Some certificate) =>
      expect (process_certificate (broadcast (MCertificate certificate) (round certificate) s) certificate)
  end.

(** The storage of a certificate that has all its parents here, and its way
    to the proposer and to consensus. *)
Definition accept_certificate (s : Core) (certificate : Certificate) : Core :=
  let s := set_store (<[digest certificate := ser_certificate certificate]>) s in
  let '(ca, parents) := certificates_append
    (default CertificatesAggregator_new (certificates_aggregators s !! round certificate)) certificate committee in
  let s := set_aggregators (<[round certificate := ca]> (certificates_aggregators s)) s in
  let s := match parents with None => s | Some parents => emit (OParents parents (round certificate)) s end in
  emit (OConsensus certificate) s.

Definition certificate_body (process_header : Core → Header → exec ()) (s : Core) (certificate : Certificate) : exec () :=
  let known := bool_decide (h_id (c_header certificate) ∈ default ∅ (processing s !! round certificate)) in
  let* s, _ := (if known then Done s () else process_header s (c_header certificate)) in
  let* s, ready := deliver_certificate s certificate in
  Done (if ready : bool then accept_certificate s certificate else s) ().

Fixpoint process_header (fuel : nat) (s : Core) (header : Header) {struct fuel} : exec () :=
  match fuel with O => NoFuel | S fuel => header_body (process_vote fuel) s header end
with process_vote (fuel : nat) (s : Core) (vote : DagVote) {struct fuel} : exec () :=
  match fuel with O => NoFuel | S fuel => vote_body (process_certificate fuel) s vote end
with process_certificate (fuel : nat) (s : Core) (certificate : Certificate) {struct fuel} : exec () :=
  match fuel with O => NoFuel | S fuel => certificate_body (process_header fuel) s certificate end.

(** The nested calls that the handlers can make. *)
Definition call_depth : nat := 7.

Definition process_own_header (s : Core) (header : Header) : exec () :=
  process_header call_depth (broadcast (MHeader header) (h_round header) (set_current header VotesAggregator_new s)) header.

(** ** Sanitizing *)

Definition sanitize_header (s : Core) (header : Header) : option DagError :=
  if negb (gc_round s <=? h_round header) then Some (TooOld (h_id header) (h_round header))
  else Header_verify committee header.

Definition sanitize_vote (s : Core) (vote : DagVote) : option DagError :=
  let h := current_header s in
  if negb (h_round h <=? dv_round vote) then Some (TooOld (Vote_digest vote) (dv_round vote))
  else if negb (bool_decide (dv_id vote = h_id h) && bool_decide (dv_origin vote = h_author h) && (dv_round vote =? h_round h))
  then Some (UnexpectedVote (dv_id vote))
  else Vote_verify committee vote.

Definition sanitize_certificate (s : Core) (certificate : Certificate) : option DagError :=
  if negb (gc_round s <=? round certificate) then Some (TooOld (digest certificate) (round certificate))
  else Certificate_verify committee certificate.

(** ** The main loop *)

(** One turn of the loop: a message from the network, a header or a
    certificate that a waiter loops back, or a header of the proposer. *)
Inductive CoreEvent :=
| EMessage (m : PrimaryMessage)
| ELoopHeader (header : Header)
| ELoopCertificate (certificate : Certificate)
| EOwnHeader (header : Header).

Definition sanitized {A} (s : Core) (check : option DagError) (r : exec A) : exec A :=
  match check with None => r | Some e => Err s e end.

Definition handle (s : Core) (e : CoreEvent) : exec () :=
  match e with
  | EMessage (MHeader header) => sanitized s (sanitize_header s header) (process_header call_depth s header)
  | EMessage (MVote vote) => sanitized s (sanitize_vote s vote) (process_vote call_depth s vote)
  | EMessage (MCertificate certificate) =>
      sanitized s (sanitize_certificate s certificate) (process_certificate call_depth s certificate)
  | EMessage (MCertificatesRequest _ _) => Panicked
  | ELoopHeader header => process_header call_depth s header
  | ELoopCertificate certificate => process_certificate call_depth s certificate
  | EOwnHeader header => process_own_header s header
  end.

Definition retain {A} (gc : Z) (m : gmap Z A) : gmap Z A := filter (λ p, gc ≤ p.1) m.

(** The clean-up with the round that consensus has reached. *)
Definition cleanup (consensus_round : Z) (s : Core) : Core :=
  if gc_depth <? consensus_round then
    let gc := consensus_round - gc_depth in
    mkCore (store s) gc (retain gc (last_voted s)) (retain gc (processing s)) (current_header s) (votes_aggregator s)
      (retain gc (certificates_aggregators s)) (retain gc (cancel_handlers s)) (out s)
  else s.

(** [None]: the task has panicked. *)
Definition core_step (s : Core) (e : CoreEvent) (consensus_round : Z) : option Core :=
  match handle s e with
  | Done s _ | Err s _ => Some (cleanup consensus_round s)
  | Panicked | NoFuel => None
  end.

(** Between turns, another task notes in the store that a worker has a batch
    ([PayloadReceiver]). *)
Inductive PrimaryEvent :=
| Turn (e : CoreEvent) (consensus_round : Z)
| Payload (digest : bytes) (worker_id : Z).

Definition primary_step (s : Core) (e : PrimaryEvent) : option Core :=
  match e with
  | Turn e r => core_step s e r
  | Payload d w => Some (set_store (<[payload_key (d, w) := []]>) s)
  end.

Fixpoint primary_run (s : Core) (es : list PrimaryEvent) : option Core :=
  match es with
  | [] => Some s
  | e :: es => match primary_step s e with Some s => primary_run s es | None => None end
  end.
End core.
