(* ===== verification/NarwhalCoreSteps.v ===== *)
(** * Narwhal: the handlers of the core, and that they return

    What the checks of a header do to the state, and the depth of the calls:
    [process_header], [process_vote] and [process_certificate] call each
    other.  A header can make this primary vote for itself; that vote is
    counted once, since the aggregator refuses a second vote of one author,
    so the calls do not nest deeper than [call_depth]. *)
From S2P Require Import Prelude.
From S2P Require Import Narwhal.
From S2P Require Import NarwhalCore.

Section steps.
Context `{DagCrypto} `{Bincode}.
Context (name : bytes) (committee : Committee) (request_signature : bytes → bytes).

Abbreviation check_header := (check_header name committee).
Abbreviation header_body := (header_body name committee request_signature).
Abbreviation vote_body := (vote_body name committee).
Abbreviation certificate_body := (certificate_body committee).
Abbreviation process_header := (process_header name committee request_signature).
Abbreviation process_vote := (process_vote name committee request_signature).
Abbreviation process_certificate := (process_certificate name committee request_signature).

(** ** The checks of a header *)

(** The certificate that a parent's digest stands for. *)
Definition parent_at (st : gmap bytes bytes) (d : bytes) : option Certificate :=
  match find (λ g : bytes * Certificate, bool_decide (g.1 = d)) (genesis_digests committee) with
  | Some (_, g) => Some g
  | None => st !! d ≫= de_certificate
  end.

Lemma get_parents_loop_spec st ds missing ps missing' ps' :
  get_parents_loop committee st ds missing ps = inl (missing', ps') →
  (∃ ms, missing' = missing ++ ms) ∧
  (missing' = missing → ∃ qs, ps' = ps ++ qs ∧ Forall2 (λ d p, parent_at st d = Some p) ds qs).
Proof.
  revert missing ps. induction ds as [|d ds IH]; intros missing ps; cbn [get_parents_loop].
  { intros [= <- <-]. split; [exists []; by rewrite app_nil_r|]. intros _. exists []. by rewrite app_nil_r. }
  assert (∀ p, parent_at st d = Some p → get_parents_loop committee st ds missing (ps ++ [p]) = inl (missing', ps') →
    (∃ ms, missing' = missing ++ ms) ∧
    (missing' = missing → ∃ qs, ps' = ps ++ qs ∧ Forall2 (λ d p, parent_at st d = Some p) (d :: ds) qs)) as Hgo.
  { intros p Hp Hl. destruct (IH _ _ Hl) as [Hms Hqs]. split; [done|]. intros Hm. destruct (Hqs Hm) as (qs & -> & Hall).
    exists (p :: qs). split; [by rewrite <-app_assoc|]. by constructor. }
  unfold parent_at in *. destruct (find _ _) as [[g0 g]|]; [by apply Hgo|]. destruct (st !! d) as [v|]; cbn [mbind option_bind] in *.
  - destruct (de_certificate v); [by apply Hgo|done].
  - intros Hl. destruct (IH _ _ Hl) as [[ms ->] _]. split; [exists (d :: ms); by rewrite <-app_assoc|].
    intros Hm%(f_equal length). rewrite !length_app in Hm. cbn in Hm. lia.
Qed.

Lemma check_parents_round h ps z w p : check_parents committee h ps z = inl w → p ∈ ps → uint64 (round p + 1) = h_round h.
Proof.
  revert z. induction ps as [|q ps IH]; intros z; [intros _ Hp; by apply not_elem_of_nil in Hp|]. cbn [check_parents].
  destruct (Z.eqb_spec (uint64 (round q + 1)) (h_round h)); [|done]. cbn [negb]. intros Hc [->|Hp]%elem_of_cons; [done|]. by eapply IH.
Qed.

Lemma check_parents_weight h ps z w :
  check_parents committee h ps z = inl w → ∀ f, f = (λ p, stake committee (origin p)) → (∀ p, p ∈ ps → 0 ≤ f p) →
  0 ≤ z → z + zsum f ps < 4294967296 → w = z + zsum f ps.
Proof.
  revert z. induction ps as [|q ps IH]; intros z Hc f Hf Hpos Hz Hb; cbn [check_parents] in Hc.
  - injection Hc as <-. rewrite zsum_nil. lia.
  - destruct (Z.eqb_spec (uint64 (round q + 1)) (h_round h)); [|done]. cbn [negb] in Hc. rewrite zsum_cons in *.
    assert (0 ≤ f q) by (apply Hpos; by left). assert (0 ≤ zsum f ps) by (apply zsum_nonneg; intros; apply Hpos; by right).
    assert (uint32 (z + stake committee (origin q)) = z + f q) as He by (rewrite Hf; unfold uint32; rewrite Z.mod_small; subst f; lia).
    rewrite He in Hc. rewrite (IH _ Hc f Hf); [lia| |lia|lia]. intros; apply Hpos; by right.
Qed.

(** The header has a quorum of parents of the round before, and, when it is
    not ours, our workers have its payload. *)
Record complete (st : gmap bytes bytes) (h : Header) (ps : list Certificate) : Prop := {
  cp_parents : Forall2 (λ d p, parent_at st d = Some p) (h_parents h) ps;
  cp_some : ps ≠ [];
  cp_quorum : ∃ w, check_parents committee h ps 0 = inl w ∧ quorum_threshold committee ≤ w;
  cp_payload : h_author h = name ∨ ∀ p, p ∈ h_payload h → is_Some (st !! payload_key p);
}.

Lemma check_header_spec s h :
  match check_header s h with
  | Done s' true => (∃ ps, complete (store s) h ps) ∧ s' = set_store (<[h_id h := ser_header h]>) s
  | Done s' false => s' = s ∨ ∃ missing, s' = emit (OSyncParents missing h) s ∨ ∃ batches, s' = emit (OSyncBatches batches h) s
  | Err s' _ => s' = s
  | Panicked | NoFuel => False
  end.
Proof.
  unfold NarwhalCore.check_header, get_parents.
  destruct (get_parents_loop _ _ _ _ _) as [[missing ps]|] eqn:Hl; [|done]. apply get_parents_loop_spec in Hl as [_ Hqs].
  destruct missing as [|m missing]; cbn [andthen]; [|rewrite bool_decide_eq_true_2 by done; right; eexists; by left].
  destruct (Hqs eq_refl) as (qs & -> & Hall). cbn [app] in *.
  case_bool_decide; [by left|]. destruct (check_parents _ _ _ _) as [w|] eqn:Hw; [|done].
  destruct (Z.ltb_spec w (quorum_threshold committee)); [done|]. unfold missing_payload.
  case_bool_decide; cbn [andthen].
  - split; [|done]. exists qs. split; [done|done|by exists w|by left].
  - destruct (filter _ (h_payload h)) as [|p l] eqn:Hf; cbn [andthen]; [|right; exists []; right; by eexists].
    split; [|done]. exists qs. split; [done|done|by exists w|right]. intros p Hp. apply not_eq_None_Some. intros Hn.
    apply (not_elem_of_nil p). rewrite <-Hf. by apply list_elem_of_filter.
Qed.

(** ** More fuel changes nothing *)

Lemma expect_fuel {A} (r : exec A) : expect r ≠ NoFuel → r ≠ NoFuel.
Proof. by destruct r. Qed.
Lemma fuel_expect {A} (r : exec A) : r ≠ NoFuel → expect r ≠ NoFuel.
Proof. by destruct r. Qed.

Lemma fuel_step n :
  (∀ s h, process_header n s h ≠ NoFuel → process_header (S n) s h = process_header n s h) ∧
  (∀ s v, process_vote n s v ≠ NoFuel → process_vote (S n) s v = process_vote n s v) ∧
  (∀ s c, process_certificate n s c ≠ NoFuel → process_certificate (S n) s c = process_certificate n s c).
Proof.
  induction n as [|n (IHh & IHv & IHc)]; [done|]. split_and!.
  - intros s h. change (header_body (process_vote n) s h ≠ NoFuel →
      header_body (process_vote (S n)) s h = header_body (process_vote n) s h).
    unfold NarwhalCore.header_body. destruct (check_header _ _) as [s' []| | |]; cbn [andthen]; [|done..].
    unfold vote_for. destruct (set_insert _ _ _) as [voted []]; [|done]. cbn zeta. case_bool_decide; [|done].
    intros Hne%expect_fuel. f_equal. by apply IHv.
  - intros s v. change (vote_body (process_certificate n) s v ≠ NoFuel →
      vote_body (process_certificate (S n)) s v = vote_body (process_certificate n) s v).
    unfold NarwhalCore.vote_body. destruct (votes_append _ _ _ _) as [va [[c|]|]]; [|done..].
    intros Hne%expect_fuel. f_equal. by apply IHc.
  - intros s c. change (certificate_body (process_header n) s c ≠ NoFuel →
      certificate_body (process_header (S n)) s c = certificate_body (process_header n) s c).
    unfold NarwhalCore.certificate_body. cbn zeta. case_bool_decide; [done|]. intros Hne. rewrite IHh; [done|].
    intros Hn. by rewrite Hn in Hne.
Qed.

Lemma fuel_mono n m : (n ≤ m)%nat →
  (∀ s h, process_header n s h ≠ NoFuel → process_header m s h = process_header n s h) ∧
  (∀ s v, process_vote n s v ≠ NoFuel → process_vote m s v = process_vote n s v) ∧
  (∀ s c, process_certificate n s c ≠ NoFuel → process_certificate m s c = process_certificate n s c).
Proof.
  induction 1 as [|m Hle (IHh & IHv & IHc)]; [done|]. destruct (fuel_step m) as (Sh & Sv & Sc).
  split_and!; intros s a Hne; [rewrite Sh|rewrite Sv|rewrite Sc]; rewrite ?IHh, ?IHv, ?IHc; done.
Qed.

(** ** How deep the calls nest *)

(** Our vote is in the aggregator. *)
Definition counted (s : Core) : Prop := name ∈ va_used (votes_aggregator s).

Lemma vote_returns (P : Core → Prop) pc s v :
  (∀ s c, P s → pc s c ≠ NoFuel) →
  (∀ va r, votes_append (votes_aggregator s) v committee (current_header s) = (va, inl r) → ∀ s, votes_aggregator s = va → P s) →
  vote_body pc s v ≠ NoFuel.
Proof.
  intros Hc HP. unfold NarwhalCore.vote_body. destruct (votes_append _ _ _ _) as [va [[c|]|]]; [|done..].
  apply fuel_expect, Hc. by eapply HP.
Qed.

Lemma vote_once pc s v : counted s → dv_author v = name → vote_body pc s v ≠ NoFuel.
Proof.
  intros Hs Hv. unfold NarwhalCore.vote_body, votes_append. rewrite Hv. by rewrite bool_decide_eq_true_2.
Qed.

Lemma header_returns (P : Core → Prop) pv s h :
  (∀ s s', votes_aggregator s' = votes_aggregator s → P s → P s') →
  (∀ s v, P s → dv_author v = name → pv s v ≠ NoFuel) → P s → header_body pv s h ≠ NoFuel.
Proof.
  intros HP Hv Hs. unfold NarwhalCore.header_body. cbn zeta.
  pose proof (check_header_spec (set_processing (set_insert (processing s) (h_round h) (h_id h)).1 s) h) as Hc.
  destruct (check_header _ _) as [s' []| | |]; cbn [andthen]; [|done..]. destruct Hc as [_ ->].
  unfold vote_for. destruct (set_insert _ _ _) as [voted []]; [|done]. cbn zeta.
  case_bool_decide; [|by destruct (find_authority _ _)]. apply fuel_expect, Hv; [|done]. by eapply HP; [|exact Hs].
Qed.

Lemma certificate_returns ph s c : (ph s (c_header c) ≠ NoFuel) → certificate_body ph s c ≠ NoFuel.
Proof.
  intros Hh. unfold NarwhalCore.certificate_body, deliver_certificate. cbn zeta.
  case_bool_decide; cbn [andthen]; [by case_match|]. destruct (ph s (c_header c)); cbn [andthen]; [by case_match|done..].
Qed.

Lemma counted_agg s s' : votes_aggregator s' = votes_aggregator s → counted s → counted s'.
Proof. unfold counted. by intros ->. Qed.

Lemma depth :
  (∀ n s h, (5 ≤ n)%nat → process_header n s h ≠ NoFuel) ∧
  (∀ n s v, (7 ≤ n)%nat → process_vote n s v ≠ NoFuel) ∧
  (∀ n s c, (6 ≤ n)%nat → process_certificate n s c ≠ NoFuel).
Proof.
  assert (∀ s h, counted s → process_header 2 s h ≠ NoFuel) as H2.
  { intros s h Hs. eapply (header_returns counted); [apply counted_agg| |done]. intros s' v. apply vote_once. }
  assert (∀ s c, counted s → process_certificate 3 s c ≠ NoFuel) as H3 by (intros s c Hs; by apply certificate_returns, H2).
  assert (∀ s v, dv_author v = name → process_vote 4 s v ≠ NoFuel) as H4.
  { intros s v Hv. eapply (vote_returns counted); [exact H3|]. intros va r Ha s' Hs'. unfold counted. rewrite Hs'.
    unfold votes_append in Ha. rewrite Hv in Ha. case_bool_decide; [done|]. case_match; injection Ha as <- _; by left. }
  assert (∀ s h, process_header 5 s h ≠ NoFuel) as H5.
  { intros s h. apply (header_returns (λ _, True)); [done| |done]. intros s' v _. apply H4. }
  assert (∀ s c, process_certificate 6 s c ≠ NoFuel) as H6 by (intros s c; by apply certificate_returns, H5).
  assert (∀ s v, process_vote 7 s v ≠ NoFuel) as H7.
  { intros s v. apply (vote_returns (λ _, True)); [|done]. intros s' c _. apply H6. }
  split_and!; intros n s a Hn; destruct (fuel_mono _ _ Hn) as (Mh & Mv & Mc);
    [rewrite Mh|rewrite Mv|rewrite Mc]; auto.
Qed.
End steps.
