(* ===== verification/NarwhalInvariant.v ===== *)
(** * Narwhal: the invariant of the core

    What holds of the core of a primary after any sequence of turns: of the
    rounds that are not collected it signs at most one vote per author and
    round, and its votes are for headers with a quorum of parents that it has
    itself accepted; consensus receives a certificate after its parents.  As
    long as nothing comes back too late ([timely]), it never votes twice at
    all, and what it accepts is verified. *)
From S2P Require Import Prelude.
From S2P Require Import Narwhal.
From S2P Require Import NarwhalQuorum.
From S2P Require Import NarwhalTheorems.
From S2P Require Import NarwhalCore.
From S2P Require Import NarwhalCoreSteps.

(** The votes signed and the certificates passed to consensus. *)
Definition signed (o : list CoreOut) : list DagVote :=
  omap (λ o, match o with OSigned v => Some v | _ => None end) o.
Definition accepted (o : list CoreOut) : list Certificate :=
  omap (λ o, match o with OConsensus c => Some c | _ => None end) o.

Definition vote_key (v : DagVote) : Z * bytes := (dv_round v, dv_origin v).

Lemma signed_app o1 o2 : signed (o1 ++ o2) = signed o1 ++ signed o2.
Proof. apply omap_app. Qed.
Lemma accepted_app o1 o2 : accepted (o1 ++ o2) = accepted o1 ++ accepted o2.
Proof. apply omap_app. Qed.

Lemma set_insert_lookup m k x k' y :
  y ∈ default ∅ ((set_insert m k x).1 !! k') ↔ (k = k' ∧ x = y) ∨ y ∈ default ∅ (m !! k').
Proof.
  unfold set_insert. cbn [fst]. destruct (decide (k = k')) as [<-|Hne].
  - rewrite lookup_insert_eq. cbn [default]. set_solver.
  - rewrite lookup_insert_ne by done. naive_solver.
Qed.

Lemma NoDup_fmap_filter {A B} (f : A → B) (P : A → Prop) `{∀ x, Decision (P x)} l : NoDup (f <$> l) → NoDup (f <$> filter P l).
Proof.
  induction l as [|x l IH]; [done|]. rewrite filter_cons. cbn. intros [Hx Hl]%NoDup_cons. case_decide; [|by apply IH]. cbn.
  apply NoDup_cons. split; [|by apply IH]. intros (y & Hxy & [_ Hy]%list_elem_of_filter)%list_elem_of_fmap. apply Hx, list_elem_of_fmap. by exists y.
Qed.

Section invariant.
Context `{DagCrypto} {laws : DagCryptoLaws} `{Bincode} {blaws : BincodeLaws}.
Context (name : bytes) (committee : Committee) (gc_depth : Z) (request_signature : bytes → bytes).
Context (com : committee_ok committee).
Context (sign_ok : ∀ d, sig_verify (request_signature d) d name = true).
(** The headers that the primary receives, and whether all of them come in
    time. *)
Context (K : Header → Prop) (timely : bool).

(** A header that was verified, or one with the round and the id of the
    genesis, which nothing verifies. *)
Definition header_ok (h : Header) : Prop :=
  (K h ∧ Header_verify committee h = None) ∨ (h_round h = 0 ∧ h_id h = zeros 32).
Definition cert_ok (c : Certificate) : Prop :=
  header_ok (c_header c) ∧ (timely = true → Certificate_verify committee c = None).

(** Keys of the store that are not certificates'. *)
Definition other_key (d : bytes) : Prop := (∃ h, header_ok h ∧ h_id h = d) ∨ ∃ p, length p.1 = 32%nat ∧ payload_key p = d.

(** A header of the vote, with a quorum of parents among [cs]. *)
Record backed (cs : list Certificate) (v : DagVote) (h : Header) (ps : list Certificate) : Prop := {
  bk_vote : dv_id v = h_id h ∧ dv_round v = h_round h ∧ dv_origin v = h_author h;
  bk_header : header_ok h;
  bk_parents : Forall2 (λ d p, digest p = d ∧ p ∈ genesis committee ++ cs) (h_parents h) ps;
  bk_some : ps ≠ [];
  bk_quorum : ∃ w, check_parents committee h ps 0 = inl w ∧ quorum_threshold committee ≤ w;
}.

Record inv_of (st : gmap bytes bytes) (gc : Z) (lv : gmap Z (gset bytes)) (cur : Header) (va : VotesAggregator)
    (o : list CoreOut) : Prop := {
  iv_votes : ∀ v, v ∈ signed o → dv_round v < gc ∨ dv_origin v ∈ default ∅ (lv !! dv_round v);
  iv_recent : NoDup (vote_key <$> filter (λ v, gc ≤ dv_round v) (signed o));
  iv_once : timely = true → NoDup (vote_key <$> signed o);
  iv_current : header_ok cur;
  iv_proposed : timely = true → (h_author cur = name ∧ Header_verify committee cur = None) ∨ cur = Header_default;
  iv_own : timely = true → ∀ v, v ∈ signed o → dv_origin v = name → dv_round v ≤ h_round cur;
  iv_backed : ∀ v, v ∈ signed o → ∃ h ps, backed (accepted o) v h ps;
  iv_store : ∀ d x, st !! d = Some x →
    (∃ c, c ∈ accepted o ∧ d = digest c ∧ x = ser_certificate c) ∨ (other_key d ∧ de_certificate x = None);
  iv_accepted : ∀ c, c ∈ accepted o ∨ OWaitCertificate c ∈ o → cert_ok c;
  iv_sync : ∀ h, (∃ m, OSyncParents m h ∈ o) ∨ (∃ m, OSyncBatches m h ∈ o) → header_ok h;
  iv_causal : ∀ cs1 c cs2, accepted o = cs1 ++ c :: cs2 → ∀ d, d ∈ parents c →
    (∃ p, p ∈ genesis committee ++ cs1 ∧ digest p = d) ∨ other_key d;
  iv_agg : timely = true → ∃ outs, agg_ok committee cur va outs;
}.

Definition core_inv (s : Core) : Prop :=
  inv_of (store s) (gc_round s) (last_voted s) (current_header s) (votes_aggregator s) (out s).

(** Our vote for the current header is in the aggregator once it is signed. *)
Definition own_counted (s : Core) : Prop :=
  (h_round (current_header s), name) ∈ vote_key <$> signed (out s) → counted name s.

(** ** Single changes *)

(** Messages that the invariant does not speak of. *)
Definition silent (o : CoreOut) : bool :=
  match o with OBroadcast _ | OSend _ _ | OParents _ _ => true | _ => false end.

Lemma inv_emit s o :
  core_inv s → signed [o] = [] → accepted [o] = [] →
  (∀ c, o = OWaitCertificate c → cert_ok c) →
  (∀ h, (∃ m, OSyncParents m h = o) ∨ (∃ m, OSyncBatches m h = o) → header_ok h) → core_inv (emit o s).
Proof using.
  intros [] Hs Ha Hw Hy. unfold core_inv. cbn [out emit store gc_round last_voted current_header votes_aggregator].
  assert (signed (out s ++ [o]) = signed (out s)) as Es by (by rewrite signed_app, Hs, app_nil_r).
  assert (accepted (out s ++ [o]) = accepted (out s)) as Ea by (by rewrite accepted_app, Ha, app_nil_r).
  split; rewrite ?Es, ?Ea; try done.
  - intros c [Hc|[Hc|Hc]%elem_of_app]; [apply iv_accepted0; by left|apply iv_accepted0; by right|].
    apply list_elem_of_singleton in Hc. by apply Hw.
  - intros h [[m Hm]|[m Hm]]; apply elem_of_app in Hm as [Hm|Hm].
    + apply iv_sync0. left. by exists m.
    + apply list_elem_of_singleton in Hm. apply Hy. left. by exists m.
    + apply iv_sync0. right. by exists m.
    + apply list_elem_of_singleton in Hm. apply Hy. right. by exists m.
Qed.

Lemma inv_silent s o : core_inv s → silent o = true → core_inv (emit o s).
Proof using.
  intros Hs Ho. apply inv_emit; [done|by destruct o..| |]; [by intros c ->|by intros h [[m <-]|[m <-]]].
Qed.

Lemma counted_silent s o : signed [o] = [] → own_counted s → own_counted (emit o s).
Proof using. intros Ho. unfold own_counted. cbn. by rewrite signed_app, Ho, app_nil_r. Qed.

Lemma inv_payload s d w : length d = 32%nat → core_inv s → core_inv (set_store (<[payload_key (d, w) := []]>) s).
Proof using blaws.
  intros Hd []. split; try done. cbn. intros d' x [[<- <-]|[_ Hl]]%lookup_insert_Some; [|by apply iv_store0].
  right. split; [right; by exists (d, w)|apply de_empty].
Qed.

Lemma inv_header s h : core_inv s → header_ok h → core_inv (set_store (<[h_id h := ser_header h]>) s).
Proof using blaws.
  intros [] Hh. split; try done. cbn. intros d' x [[<- <-]|[_ Hl]]%lookup_insert_Some; [|by apply iv_store0].
  right. split; [left; by exists h|apply de_ser_header].
Qed.

(** The parents that the store holds were accepted. *)
Lemma parent_accepted s d p : core_inv s → parent_at committee (store s) d = Some p → digest p = d ∧ p ∈ genesis committee ++ accepted (out s).
Proof using blaws.
  intros Hs. unfold parent_at. destruct (find _ _) as [[d' g]|] eqn:Hf.
  - intros [= ->]. apply find_some in Hf as [Hin Hd]. apply bool_decide_eq_true in Hd. cbn in Hd. subst d'.
    apply list_elem_of_In in Hin. apply list_elem_of_fmap in Hin as (g & [= -> ->] & Hg). split; [done|]. apply elem_of_app. by left.
  - intros (v & Hv & Hd)%bind_Some. destruct (iv_store _ _ _ _ _ _ Hs _ _ Hv) as [(c & Hc & -> & ->)|[_ Hn]]; [|congruence].
    rewrite de_ser_certificate in Hd. injection Hd as <-. split; [done|]. apply elem_of_app. by right.
Qed.

Lemma complete_backed s h ps :
  core_inv s → header_ok h → complete name committee (store s) h ps →
  backed (accepted (out s)) (Vote_new request_signature h name) h ps.
Proof using blaws.
  intros Hs Hh []. split; try done. eapply Forall2_impl; [exact cp_parents|]. intros d p. by apply parent_accepted.
Qed.

Lemma backed_mono cs cs' v h ps : (∀ c, c ∈ cs → c ∈ cs') → backed cs v h ps → backed cs' v h ps.
Proof using.
  intros Hsub []. split; try done. eapply Forall2_impl; [exact bk_parents0|]. intros d p [? Hp]. split; [done|].
  apply elem_of_app in Hp as [?|?]; apply elem_of_app; auto.
Qed.
(** ** Voting *)

(** The key of a header. *)
Definition header_key (h : Header) : Z * bytes := (h_round h, h_author h).

Lemma inv_signed s h ps :
  core_inv s → backed (accepted (out s)) (Vote_new request_signature h name) h ps →
  h_author h ∉ default ∅ (last_voted s !! h_round h) →
  (timely = true → (header_key h ∉ vote_key <$> signed (out s)) ∧ (h_author h = name → h_round h ≤ h_round (current_header s))) →
  core_inv (emit (OSigned (Vote_new request_signature h name))
    (set_last_voted (set_insert (last_voted s) (h_round h) (h_author h)).1 s)).
Proof using blaws.
  intros [] Hb Hnew Htime.
  unfold core_inv. cbn [out emit store gc_round last_voted current_header votes_aggregator set_last_voted].
  assert (accepted (out s ++ [OSigned (Vote_new request_signature h name)]) = accepted (out s)) as Ea
    by (by rewrite accepted_app, app_nil_r).
  split; rewrite ?Ea, ?signed_app; try done.
  - intros v [Hv|Hv]%elem_of_app.
    + destruct (iv_votes0 v Hv); [by left|right]. apply set_insert_lookup. by right.
    + apply list_elem_of_singleton in Hv as ->. right. apply set_insert_lookup. by left.
  - change (signed [OSigned (Vote_new request_signature h name)]) with [Vote_new request_signature h name].
    rewrite filter_app, fmap_app, filter_cons, filter_nil. case_decide as Hgc; [|by rewrite app_nil_r]. cbn in Hgc.
    apply NoDup_app. split_and!; [done| |apply NoDup_singleton].
    intros k (v & -> & [_ Hv]%list_elem_of_filter)%list_elem_of_fmap [= Hr Ho]%list_elem_of_singleton. cbn in Hr, Ho.
    destruct (iv_votes0 v Hv) as [?|Hin]; [lia|]. apply Hnew. by rewrite <-Hr, <-Ho.
  - intros Ht. rewrite fmap_app. apply NoDup_app. split_and!; [by apply iv_once0| |apply NoDup_singleton].
    intros k Hk ->%list_elem_of_singleton. by destruct (Htime Ht) as [[] _].
  - intros Ht v [Hv|Hv]%elem_of_app Ho; [by apply iv_own0|]. apply list_elem_of_singleton in Hv as ->. by apply (Htime Ht).
  - intros v [Hv|Hv]%elem_of_app; [by apply iv_backed0|]. apply list_elem_of_singleton in Hv as ->. by exists h, ps.
  - intros c [Hc'|[Hc'|Hc']%elem_of_app]; [apply iv_accepted0; by left|apply iv_accepted0; by right|].
    by apply list_elem_of_singleton in Hc'.
  - intros h' [[m Hm]|[m Hm]]; apply elem_of_app in Hm as [Hm|Hm%list_elem_of_singleton]; try done;
      apply iv_sync0; [left|right]; by exists m.
Qed.

(** ** Accepting a certificate *)

Lemma accept_parent s c d :
  core_inv s → forallb (has_parent_digest committee s) (parents c) = true → d ∈ parents c →
  (∃ p, p ∈ genesis committee ++ accepted (out s) ∧ digest p = d) ∨ other_key d.
Proof using.
  intros Hs Hp Hd. rewrite forallb_forall in Hp. specialize (Hp d ltac:(by apply list_elem_of_In)).
  apply orb_true_iff in Hp as [Hg|Hst].
  - apply existsb_exists in Hg as ([d' g] & Hin & He%bool_decide_eq_true). cbn in He. subst d'.
    apply list_elem_of_In, list_elem_of_fmap in Hin as (g' & [= -> ->] & Hg'). left. exists g'. split; [apply elem_of_app; by left|done].
  - apply bool_decide_eq_true in Hst as [x Hx]. destruct (iv_store _ _ _ _ _ _ Hs _ _ Hx) as [(p & Hin & -> & _)|[Ho _]]; [left|by right].
    exists p. split; [apply elem_of_app; by right|done].
Qed.

Lemma accept_shape s c :
  ∃ s1, accept_certificate committee s c = emit (OConsensus c) s1 ∧
    store s1 = <[digest c := ser_certificate c]> (store s) ∧ gc_round s1 = gc_round s ∧ last_voted s1 = last_voted s ∧
    current_header s1 = current_header s ∧ votes_aggregator s1 = votes_aggregator s ∧
    signed (out s1) = signed (out s) ∧ accepted (out s1) = accepted (out s) ∧ ∀ o, o ∈ out s1 → o ∈ out s ∨ silent o = true.
Proof using.
  unfold accept_certificate. cbn zeta. destruct (certificates_append _ _ _) as [ca [pr|]]; eexists; (split; [reflexivity|]); cbn;
    rewrite ?signed_app, ?accepted_app, ?app_nil_r; split_and!; try done.
  - intros o [?|Hx]%elem_of_app; [by left|]. apply list_elem_of_singleton in Hx as ->. by right.
  - intros o ?. by left.
Qed.

Lemma inv_accept s c :
  core_inv s → cert_ok c →
  forallb (has_parent_digest committee s) (parents c) = true → core_inv (accept_certificate committee s c).
Proof using.
  intros Hs Hv Hp. destruct (accept_shape s c) as (s1 & -> & E1 & E2 & E3 & E4 & E5 & Es & Ea & Eo).
  pose proof (λ d, accept_parent s c d Hs Hp) as Hpar. destruct Hs. unfold core_inv.
  cbn [out emit store gc_round last_voted current_header votes_aggregator]. rewrite E1, E2, E3, E4, E5.
  assert (signed (out s1 ++ [OConsensus c]) = signed (out s)) as Hs' by (by rewrite signed_app, app_nil_r).
  assert (accepted (out s1 ++ [OConsensus c]) = accepted (out s) ++ [c]) as Ha' by (by rewrite accepted_app, Ea).
  assert (∀ o, o ∈ out s1 ++ [OConsensus c] → o ∈ out s ∨ silent o = true ∨ o = OConsensus c) as Ho.
  { intros o [Hx|Hx]%elem_of_app; [destruct (Eo o Hx); tauto|]. apply list_elem_of_singleton in Hx. tauto. }
  split; rewrite ?Hs', ?Ha'; try done.
  - intros v Hvv. destruct (iv_backed0 v Hvv) as (h & ps & Hb). exists h, ps. eapply backed_mono; [|exact Hb].
    intros x Hx. apply elem_of_app. by left.
  - intros d x [[<- <-]|[_ Hl]]%lookup_insert_Some.
    + left. exists c. split; [apply elem_of_app; right; by left|done].
    + destruct (iv_store0 _ _ Hl) as [(c' & Hc' & ? & ?)|?]; [left|by right]. exists c'. split; [apply elem_of_app; by left|done].
  - intros c' [[Hc'|Hc']%elem_of_app|Hc'].
    + apply iv_accepted0. by left.
    + by apply list_elem_of_singleton in Hc' as ->.
    + destruct (Ho _ Hc') as [?|[?|?]]; [apply iv_accepted0; by right|done|done].
  - intros h [[m Hm]|[m Hm]]; destruct (Ho _ Hm) as [?|[?|?]]; try done; apply iv_sync0; [left|right]; by exists m.
  - intros cs1 c' cs2 Hsp d Hd. destruct cs2 as [|y cs2 _] using rev_ind.
    + apply app_inj_tail in Hsp as [<- ->]. by apply Hpar.
    + rewrite app_comm_cons, app_assoc in Hsp. apply app_inj_tail in Hsp as [Hsp _]. by apply (iv_causal0 cs1 c' cs2).
Qed.

Lemma counted_accept s c : own_counted s → own_counted (accept_certificate committee s c).
Proof using.
  destruct (accept_shape s c) as (s1 & -> & E1 & E2 & E3 & E4 & E5 & Es & Ea & Eo). unfold own_counted, counted. cbn.
  by rewrite signed_app, app_nil_r, Es, E4, E5.
Qed.

(** ** The handlers *)

(** The state that a handler leaves, if it does not panic. *)
Definition ends {A} (r : exec A) (Q : Core → Prop) : Prop :=
  match r with Done s _ | Err s _ => Q s | Panicked | NoFuel => True end.

Lemma ends_expect {A} (r : exec A) Q : ends r Q → ends (expect r) Q.
Proof using. by destruct r. Qed.

Lemma ends_andthen {A B} (r : exec A) (k : Core → A → exec B) (P : A → Core → Prop) Q :
  match r with Done s a => P a s | Err s _ => Q s | Panicked | NoFuel => True end →
  (∀ s a, P a s → ends (k s a) Q) → ends (andthen r k) Q.
Proof using. intros Hr Hk. destruct r; cbn; [by apply Hk|done..]. Qed.

Definition kept (s : Core) : Prop := core_inv s ∧ (timely = true → own_counted s).

(** A vote for the header is the first for its author and round, and our own
    is for the current header; or our vote has been counted already. *)
Definition vote_ok (s : Core) (h : Header) : Prop :=
  h_parents h ≠ [] → h_author h ∉ default ∅ (last_voted s !! h_round h) →
  ((header_key h ∉ vote_key <$> signed (out s)) ∧ (h_author h = name → h = current_header s)) ∨
  (h_author h = name ∧ counted name s).

Definition current_ok (s : Core) : Prop :=
  h_author (current_header s) = name ∧ Header_verify committee (current_header s) = None.

Definition vote_spec (pv : Core → DagVote → exec ()) : Prop :=
  ∀ s v, core_inv s →
    (timely = true → (own_counted s ∨ dv_author v = name) ∧ good_vote committee (current_header s) v ∧ current_ok s) →
    ends (pv s v) kept.
Definition header_spec (ph : Core → Header → exec ()) : Prop :=
  ∀ s h, kept s → header_ok h → (timely = true → vote_ok s h) → ends (ph s h) kept.
Definition certificate_spec (pc : Core → Certificate → exec ()) : Prop :=
  ∀ s c, kept s → cert_ok c → (timely = true → vote_ok s (c_header c)) → ends (pc s c) kept.

Lemma kept_emit s o :
  kept s → signed [o] = [] → accepted [o] = [] →
  (∀ c, o = OWaitCertificate c → cert_ok c) →
  (∀ h, (∃ m, OSyncParents m h = o) ∨ (∃ m, OSyncBatches m h = o) → header_ok h) → kept (emit o s).
Proof using. intros [Hs Hc] ????. split; [by apply inv_emit|intros Ht; by apply counted_silent, Hc]. Qed.

Lemma check_header_kept s h :
  kept s → header_ok h →
  match check_header name committee s h with
  | Done s' true => s' = set_store (<[h_id h := ser_header h]>) s ∧ kept s' ∧
      ∃ ps, backed (accepted (out s)) (Vote_new request_signature h name) h ps
  | Done s' false | Err s' _ => kept s'
  | Panicked | NoFuel => True
  end.
Proof using blaws.
  intros Hs Hh. pose proof (check_header_spec name committee s h) as Hc.
  destruct (check_header name committee s h) as [s' []|s'| |]; [|..|by subst|done|done].
  - destruct Hc as [[ps Hps] ->]. destruct Hs as [Hs Hcnt]. split_and!; [done|split; [by apply inv_header|done]|].
    exists ps. by apply complete_backed.
  - destruct Hc as [->|(m & [->|(b & ->)])]; [done| |]; apply kept_emit; try done; intros h' [[? [= _ <-]]|[? [= _ <-]]]; done.
Qed.

Lemma inv_voted s k x : kept s → kept (set_last_voted (set_insert (last_voted s) k x).1 s).
Proof using.
  intros [[] Hc]. split; [|done]. split; try done. cbn. intros v Hv. destruct (iv_votes0 v Hv); [by left|right].
  apply set_insert_lookup. by right.
Qed.

Lemma own_vote_good s h ps :
  timely = true → core_inv s → h = current_header s → h_author h = name → backed (accepted (out s)) (Vote_new request_signature h name) h ps →
  current_ok s ∧ good_vote committee (current_header s) (Vote_new request_signature h name).
Proof using sign_ok.
  intros Ht Hs -> Ha Hb. destruct (iv_proposed _ _ _ _ _ _ Hs Ht) as [Hc|Hd].
  - split; [done|]. destruct Hc as (_ & Hv). split; [|done]. unfold Vote_verify. cbn [dv_author Vote_new].
    unfold Header_verify in Hv. destruct (bool_decide _); [|done]. rewrite Ha in Hv. destruct (0 <? _); [|done].
    cbn. by rewrite sign_ok.
  - exfalso. destruct Hb. rewrite Hd in *. cbn in *. inversion bk_parents0. congruence.
Qed.

Definition refuses_second (pv : Core → DagVote → exec ()) : Prop :=
  ∀ s v, counted name s → dv_author v = name → ends (expect (pv s v)) (λ _, False).

Lemma vote_for_spec pv s h ps :
  vote_spec pv → refuses_second pv → kept s → (timely = true → vote_ok s h) →
  backed (accepted (out s)) (Vote_new request_signature h name) h ps →
  ends (vote_for name committee request_signature pv s h) kept.
Proof using blaws sign_ok.
  intros Hpv Hrs Hs Hok Hb. pose proof (inv_voted s (h_round h) (h_author h) Hs) as Hv. unfold vote_for.
  destruct (set_insert _ _ _) as [voted new] eqn:Hins. cbn [fst] in Hv. cbn zeta.
  assert (new = negb (bool_decide (h_author h ∈ default ∅ (last_voted s !! h_round h)))) as Hnew by (by injection Hins).
  destruct new; [|done]. symmetry in Hnew. apply negb_true_iff, bool_decide_eq_false in Hnew.
  assert (h_parents h ≠ []) as Hpar.
  { intros Hp. destruct Hb as [_ _ Hall Hsome _]. rewrite Hp in Hall. by inversion Hall; subst. }
  destruct (decide (timely = true → (header_key h ∉ vote_key <$> signed (out s)) ∧ (h_author h = name → h = current_header s))) as [Hfirst|Hno].
  - assert (core_inv (emit (OSigned (Vote_new request_signature h name)) (set_last_voted voted s))) as Hs2.
    { replace voted with (set_insert (last_voted s) (h_round h) (h_author h)).1 by (by rewrite Hins).
      eapply inv_signed; [apply Hs|exact Hb|done|]. intros Ht. destruct (Hfirst Ht) as [? Hcur]. split; [done|].
      intros Ha. by rewrite (Hcur Ha). }
    case_bool_decide as Ho.
    + cbn in Ho. apply ends_expect, Hpv; [done|]. intros Ht. destruct (Hfirst Ht) as [_ Hcur]. split; [by right|].
      by destruct (own_vote_good s h ps Ht (proj1 Hs) (Hcur Ho) Ho Hb).
    + destruct (find_authority _ _); [|done]. split; [by apply inv_silent|]. intros Ht. destruct Hs as [_ Hc]. specialize (Hc Ht).
      unfold own_counted in *. cbn.
      rewrite !signed_app, !fmap_app. cbn. rewrite !elem_of_app. intros [[Hx|Hx]|Hx]; [by apply Hc| |by apply not_elem_of_nil in Hx].
      apply list_elem_of_singleton in Hx as [= _ Hn]. by subst.
  - destruct timely eqn:Ht; [|by destruct Hno]. destruct (Hok eq_refl Hpar Hnew) as [?|[Ha Hcnt]]; [by destruct Hno|].
    rewrite bool_decide_eq_true_2 by done. set (s2 := emit _ _). assert (counted name s2) as Hc2 by exact Hcnt.
    specialize (Hrs s2 (Vote_new request_signature h name) Hc2 eq_refl). by destruct (expect _).
Qed.

Lemma header_body_spec pv : vote_spec pv → refuses_second pv → header_spec (header_body name committee request_signature pv).
Proof using blaws sign_ok.
  intros Hpv Hrs s h Hs Hh Hok. unfold header_body. cbn zeta.
  pose proof (check_header_kept (set_processing (set_insert (processing s) (h_round h) (h_id h)).1 s) h Hs Hh) as Hc.
  destruct (check_header _ _ _ _) as [s' []| | |]; cbn [andthen ends]; [|done..].
  destruct Hc as (-> & Hs' & ps & Hb). by eapply vote_for_spec.
Qed.

(** A certificate that verifies. *)
Lemma verified_cert_ok c :
  (Header_verify committee (c_header c) = None → K (c_header c)) → Certificate_verify committee c = None → cert_ok c.
Proof using.
  intros Hk Hv. split; [|done]. destruct (existsb (cert_eqb c) (genesis committee)) eqn:Hg.
  - right. apply existsb_exists in Hg as (g & Hg & He). apply list_elem_of_In, list_elem_of_fmap in Hg as (p & -> & _).
    unfold cert_eqb in He. rewrite !andb_true_iff, !bool_decide_eq_true, Z.eqb_eq in He. by destruct He as [[? ?] ?].
  - left. unfold Certificate_verify in Hv. rewrite Hg in Hv. destruct (Header_verify _ _); [done|]. by split; [apply Hk|].
Qed.

Lemma certificate_body_spec ph : header_spec ph → certificate_spec (certificate_body committee ph).
Proof using.
  intros Hph s c Hs Hv Hok. unfold certificate_body. cbn zeta.
  assert (∀ s, kept s → ends (andthen (deliver_certificate committee s c)
    (λ s ready, Done (if ready : bool then accept_certificate committee s c else s) ())) kept) as Hgo.
  { intros s1 Hs1. unfold deliver_certificate. destruct (forallb _ _) eqn:Hp; cbn.
    - destruct Hs1 as [? Hc1]. split; [by apply inv_accept|intros Ht; by apply counted_accept, Hc1].
    - apply kept_emit; try done; [by intros ? [= <-]|by intros h [[? ?]|[? ?]]]. }
  case_bool_decide; cbn [andthen]; [by apply Hgo|].
  eapply (ends_andthen _ _ (λ _ s, kept s)); [|intros s' _; apply Hgo].
  specialize (Hph s (c_header c) Hs (proj1 Hv) Hok). by destruct (ph s (c_header c)).
Qed.

Lemma append_used va v h va' r :
  votes_append va v committee h = (va', r) → dv_author v ∈ va_used va' ∧ ∀ n, n ∈ va_used va → n ∈ va_used va'.
Proof using.
  unfold votes_append. case_bool_decide; [by intros [= <- _]|].
  case_match; intros [= <- _]; (split; [by left|]); intros n Hn; by right.
Qed.

Lemma append_header va v h va' c : votes_append va v committee h = (va', inl (Some c)) → c_header c = h.
Proof using. unfold votes_append. case_bool_decide; [done|]. case_match; by intros [= _ <-]. Qed.

Lemma vote_body_spec pc : certificate_spec pc → vote_spec (vote_body name committee pc).
Proof using laws com.
  intros Hpc s v Hs Hg. unfold vote_body. destruct (votes_append _ _ _ _) as [va r] eqn:Hap.
  destruct (append_used _ _ _ _ _ Hap) as [Hin Hsub].
  assert (timely = true → ∃ outs, agg_ok committee (current_header s) va (match r with inl (Some c) => outs ++ [c] | _ => outs end)) as Ha.
  { intros Ht. destruct (iv_agg _ _ _ _ _ _ Hs Ht) as [outs Hagg]. exists outs.
    pose proof (append_ok committee com (current_header s) _ _ v Hagg (proj1 (proj2 (Hg Ht)))) as Ha. rewrite Hap in Ha. apply Ha. }
  assert (kept (set_current (current_header s) va s)) as Hk.
  { split; [|intros Ht Hx; destruct (Hg Ht) as [[Hc|Hc] _]; unfold counted; cbn; [by apply Hsub, Hc|by rewrite <-Hc]].
    destruct Hs. split; try done. intros Ht. destruct (Ha Ht). by eexists. }
  destruct r as [[c|]|e]; [|done|done].
  assert (c_header c = current_header s) as Hh by (by eapply append_header).
  apply ends_expect, Hpc.
  - destruct Hk as [Hk1 Hk2]. split; [by apply inv_silent|]. intros Ht. by apply counted_silent, Hk2.
  - split; [rewrite Hh; apply Hs|]. intros Ht. destruct (Ha Ht) as [outs Ho].
    eapply (agg_verifies committee com (current_header s) va _ c Ho); [apply (Hg Ht)|apply elem_of_app; right; by left].
  - intros Ht _ _. destruct (Hg Ht) as (_ & _ & Hcur). destruct (decide (header_key (c_header c) ∈ vote_key <$> signed (out s))) as [Hx|Hx].
    + right. rewrite Hh. split; [apply Hcur|]. destruct Hk as [_ Hk2]. apply (Hk2 Ht). cbn. rewrite Hh in Hx. unfold header_key in Hx.
      by rewrite (proj1 Hcur) in Hx.
    + left. split; [|by intros _]. cbn. by rewrite signed_app, app_nil_r.
Qed.

Lemma handlers_spec n :
  header_spec (process_header name committee request_signature n) ∧
  vote_spec (process_vote name committee request_signature n) ∧
  certificate_spec (process_certificate name committee request_signature n).
Proof using laws blaws com sign_ok.
  induction n as [|n (IHh & IHv & IHc)]; [done|]. split_and!.
  - apply header_body_spec; [done|]. intros s v Hs Hv. destruct n; [done|].
    change (ends (expect (vote_body name committee (process_certificate name committee request_signature n) s v)) (λ _, False)).
    unfold vote_body, votes_append. rewrite Hv. by rewrite bool_decide_eq_true_2.
  - by apply vote_body_spec.
  - by apply certificate_body_spec.
Qed.
End invariant.
