(* ===== verification/NarwhalTurns.v ===== *)
(** * Narwhal: the turns of the core

    The invariant of [NarwhalInvariant] over whole runs: what the tasks around
    the core guarantee, which events are strays that nothing rules out, and
    that each turn, with its clean-up, keeps the invariant. *)
From S2P Require Import Prelude.
From S2P Require Import Narwhal.
From S2P Require Import NarwhalQuorum.
From S2P Require Import NarwhalTheorems.
From S2P Require Import NarwhalCore.
From S2P Require Import NarwhalCoreSteps.
From S2P Require Import NarwhalInvariant.

Section turns.
Context `{DagCrypto} `{Bincode}.
Context (name : bytes) (committee : Committee) (gc_depth : Z) (request_signature : bytes → bytes).

(** ** The events that a primary meets *)

(** The headers that an event brings. *)
Definition event_headers (e : PrimaryEvent) : list Header :=
  match e with
  | Turn (EMessage (MHeader h)) _ | Turn (ELoopHeader h) _ | Turn (EOwnHeader h) _ => [h]
  | Turn (EMessage (MCertificate c)) _ | Turn (ELoopCertificate c) _ => [c_header c]
  | _ => []
  end.
Definition trace_headers (es : list PrimaryEvent) : list Header := concat (event_headers <$> es).

(** The tasks of the primary: the waiters loop back what the core gave them,
    and the proposer makes valid headers of growing rounds.  Messages of the
    network are arbitrary. *)
Definition event_ok (s : Core) (e : CoreEvent) : Prop :=
  match e with
  | EMessage _ => True
  | ELoopHeader h => (∃ m, OSyncParents m h ∈ out s) ∨ (∃ m, OSyncBatches m h ∈ out s)
  | ELoopCertificate c => OWaitCertificate c ∈ out s
  | EOwnHeader h => h_author h = name ∧ Header_verify committee h = None ∧ h_round (current_header s) < h_round h
  end.

(** The round of consensus does not fall, and digests of batches are 32 bytes. *)
Definition turn_ok (s : Core) (e : PrimaryEvent) : Prop :=
  match e with
  | Turn e r => event_ok s e ∧ (r ≤ gc_depth ∨ gc_round s ≤ r - gc_depth)
  | Payload d _ => length d = 32%nat
  end.

(** A header in our name, with parents, that we have not voted for. *)
Definition own_again (s : Core) (h : Header) : bool :=
  (gc_round s <=? h_round h) && bool_decide (h_author h = name) && bool_decide (h_parents h ≠ []) &&
  bool_decide (name ∉ default ∅ (last_voted s !! h_round h)).
Definition passes (check : option DagError) : bool := match check with None => true | Some _ => false end.

(** What the core does not guard against: a waiter that loops back after the
    round is collected, a header in our name that we did not vote for and that
    passes the checks, and a vote that passes them before our first header. *)
Definition stray (s : Core) (e : CoreEvent) : bool :=
  match e with
  | EMessage (MHeader h) => passes (sanitize_header committee s h) && own_again s h
  | EMessage (MVote v) => passes (sanitize_vote committee s v) && bool_decide (current_header s = Header_default)
  | EMessage (MCertificate c) => passes (sanitize_certificate committee s c) && own_again s (c_header c)
  | ELoopHeader h => (h_round h <? gc_round s) || own_again s h
  | ELoopCertificate c => (round c <? gc_round s) || own_again s (c_header c)
  | EMessage (MCertificatesRequest _ _) | EOwnHeader _ => false
  end.

Abbreviation primary_step := (primary_step name committee gc_depth request_signature).
Abbreviation primary_run := (primary_run name committee gc_depth request_signature).

Fixpoint run_ok (s : Core) (es : list PrimaryEvent) : Prop :=
  match es with
  | [] => True
  | e :: es => turn_ok s e ∧ match primary_step s e with Some s => run_ok s es | None => True end
  end.

(** Whether a stray occurs in a run. *)
Fixpoint strays (s : Core) (es : list PrimaryEvent) : bool :=
  match es with
  | [] => false
  | e :: es => match e with Turn e _ => stray s e | Payload _ _ => false end ||
      match primary_step s e with Some s => strays s es | None => false end
  end.

Lemma primary_run_app s es1 es2 :
  primary_run s (es1 ++ es2) = match primary_run s es1 with Some s => primary_run s es2 | None => None end.
Proof. revert s. induction es1 as [|e es1 IH]; intros s; [done|]. cbn [app NarwhalCore.primary_run]. by case_match. Qed.

(** ** Turns keep the invariant *)

Context {laws : DagCryptoLaws} {blaws : BincodeLaws} (com : committee_ok committee).
Context (sign_ok : ∀ d, sig_verify (request_signature d) d name = true).
Context (K : Header → Prop) (timely : bool).

Abbreviation kept := (kept name committee K timely).

Lemma cleanup_kept s r : r ≤ gc_depth ∨ gc_round s ≤ r - gc_depth → kept s → kept (cleanup gc_depth r s).
Proof using.
  intros Hr [[] Hc]. unfold cleanup. destruct (Z.ltb_spec gc_depth r); [|by split].
  split; [|done]. split; try done; cbn.
  2: { rewrite <-(list_filter_filter_l _ (λ v, gc_round s ≤ dv_round v)) by lia. by apply NoDup_fmap_filter. }
  intros v Hv. destruct (decide (dv_round v < r - gc_depth)); [by left|right].
  destruct (iv_votes v Hv) as [?|Hin]; [lia|].
  assert (retain (r - gc_depth) (last_voted s) !! dv_round v = last_voted s !! dv_round v) as ->; [|done].
  unfold retain. destruct (last_voted s !! dv_round v) as [x|] eqn:Hx.
  - apply map_lookup_filter_Some. split; [done|]. cbn. lia.
  - apply map_lookup_filter_None. by left.
Qed.

(** The handlers leave the collected round alone. *)
Lemma handlers_gc n g :
  (∀ s h, gc_round s = g → ends (process_header name committee request_signature n s h) (λ s', gc_round s' = g)) ∧
  (∀ s v, gc_round s = g → ends (process_vote name committee request_signature n s v) (λ s', gc_round s' = g)) ∧
  (∀ s c, gc_round s = g → ends (process_certificate name committee request_signature n s c) (λ s', gc_round s' = g)).
Proof using.
  induction n as [|n (IHh & IHv & IHc)]; [done|]. split_and!.
  - intros s h Hs. change (ends (header_body name committee request_signature
      (process_vote name committee request_signature n) s h) (λ s', gc_round s' = g)).
    unfold header_body. cbn zeta.
    pose proof (check_header_spec name committee (set_processing (set_insert (processing s) (h_round h) (h_id h)).1 s) h) as Hc.
    destruct (check_header _ _ _ _) as [s' []|s'| |]; cbn [andthen ends]; [|..|by subst|done|done].
    + destruct Hc as [_ ->]. unfold vote_for. destruct (set_insert _ _ _) as [voted []]; [|done]. cbn zeta.
      case_bool_decide; [by apply ends_expect, IHv|by destruct (find_authority _ _)].
    + by destruct Hc as [->|(m & [->|(b & ->)])].
  - intros s v Hs. change (ends (vote_body name committee (process_certificate name committee request_signature n) s v) (λ s', gc_round s' = g)).
    unfold vote_body. destruct (votes_append _ _ _ _) as [va [[c|]|]]; [|done..]. by apply ends_expect, IHc.
  - intros s c Hs. change (ends (certificate_body committee (process_header name committee request_signature n) s c) (λ s', gc_round s' = g)).
    unfold certificate_body. cbn zeta.
    assert (∀ s, gc_round s = g → ends (andthen (deliver_certificate committee s c)
      (λ s ready, Done (if ready : bool then accept_certificate committee s c else s) ())) (λ s', gc_round s' = g)) as Hgo.
    { intros s1 Hs1. unfold deliver_certificate. case_match; cbn; [|done].
      destruct (accept_shape committee s1 c) as (s2 & -> & _ & Hg & _). cbn. by rewrite Hg. }
    case_bool_decide; cbn [andthen]; [by apply Hgo|].
    eapply (ends_andthen _ _ (λ _ s, gc_round s = g)); [|intros s' _; apply Hgo].
    specialize (IHh s (c_header c) Hs). by destruct (process_header _ _ _ _ _ _).
Qed.

Lemma handle_gc s e : ends (handle name committee request_signature s e) (λ s', gc_round s' = gc_round s).
Proof using.
  destruct (handlers_gc call_depth (gc_round s)) as (Hh & Hv & Hc).
  destruct e as [[h|v|c|ds q]|h|c|h]; cbn [handle]; unfold sanitized; try case_match; auto; try done. by apply Hh.
Qed.

(** A header that is no stray may be voted on. *)
Lemma message_vote_ok s h :
  core_inv name committee K timely s → gc_round s ≤ h_round h → own_again s h = false → vote_ok name s h.
Proof using.
  intros Hs Hgc Hback Hpar Hnew. left. split.
  - intros (v & Hk & Hv)%list_elem_of_fmap. injection Hk as Hr Ho.
    destruct (iv_votes _ _ _ _ _ _ _ _ _ _ Hs v Hv) as [?|Hin]; [lia|]. apply Hnew. by rewrite Hr, Ho.
  - intros Ha. unfold own_again in Hback. rewrite Ha in Hnew.
    by rewrite (proj2 (Z.leb_le _ _) Hgc), !bool_decide_eq_true_2 in Hback by done.
Qed.

Lemma sanitized_ends {A} s check (r : exec A) : kept s → (check = None → ends r kept) → ends (sanitized s check r) kept.
Proof using. intros Hs Hr. destruct check; [done|by apply Hr]. Qed.

Lemma own_header_kept s h :
  kept s → event_ok s (EOwnHeader h) → K h → ends (process_own_header name committee request_signature s h) kept.
Proof using laws blaws com sign_ok.
  intros [[] Hc] (Ha & Hv & Hr) HK. unfold process_own_header.
  assert (timely = true → (h_round h, name) ∉ vote_key <$> signed (out s)) as Hnew.
  { intros Ht (v & [= Hrv Hov] & Hin)%list_elem_of_fmap. specialize (iv_own Ht v Hin (eq_sym Hov)). lia. }
  apply (handlers_spec name committee request_signature com sign_ok K timely); [|by left|].
  - split.
    + apply inv_silent; [|done]. split; try done; cbn; [by left|by left| |].
      * intros Ht v Hin Hov. specialize (iv_own Ht v Hin Hov). lia.
      * exists []. by apply agg_new.
    + intros Ht. apply counted_silent; [done|]. intros Hin. by destruct (Hnew Ht).
  - intros Ht _ _. left. split; [|done]. unfold header_key. rewrite Ha. cbn. rewrite signed_app, app_nil_r. by apply Hnew.
Qed.

Lemma passes_None check : passes check = true ↔ check = None.
Proof using. by destruct check. Qed.

Lemma vote_message_kept s v :
  kept s → (timely = true → stray s (EMessage (MVote v)) = false) →
  ends (handle name committee request_signature s (EMessage (MVote v))) kept.
Proof using laws blaws com sign_ok.
  intros Hs Ht. destruct (handlers_spec name committee request_signature com sign_ok K timely call_depth) as (_ & Hv & _).
  cbn [handle stray] in *. apply sanitized_ends; [done|]. intros Hok. apply Hv; [apply Hs|]. intros E. specialize (Ht E).
  rewrite Hok in Ht. apply bool_decide_eq_false in Ht. split; [left; by apply Hs|].
  unfold sanitize_vote in Hok. destruct (h_round (current_header s) <=? dv_round v); [|done].
  cbn in Hok. destruct (bool_decide _ && _ && _) eqn:Hsame; [|done]. cbn in Hok.
  rewrite !andb_true_iff, !bool_decide_eq_true, Z.eqb_eq in Hsame. destruct Hsame as [[? ?] ?].
  split; [done|]. by destruct (iv_proposed _ _ _ _ _ _ _ _ _ _ (proj1 Hs) E).
Qed.

Lemma handle_kept s e r :
  kept s → event_ok s e → (∀ h, h ∈ event_headers (Turn e r) → K h) → (timely = true → stray s e = false) →
  ends (handle name committee request_signature s e) kept.
Proof using laws blaws com sign_ok.
  intros Hs He HK Ht. destruct (handlers_spec name committee request_signature com sign_ok K timely call_depth) as (Hh & _ & Hc).
  destruct e as [[h|v|c|ds q]|h|c|h]; cbn [event_ok event_headers] in *.
  - cbn [handle]. apply sanitized_ends; [done|]. intros Hok. cbn [stray] in Ht. rewrite Hok in Ht. unfold sanitize_header in Hok.
    destruct (Z.leb_spec (gc_round s) (h_round h)); [|done].
    apply Hh; [done|left; split; [apply HK; by left|done]|]. intros E. apply message_vote_ok; [apply Hs|done|by apply Ht].
  - by apply vote_message_kept.
  - cbn [handle]. apply sanitized_ends; [done|]. intros Hok. cbn [stray] in Ht. rewrite Hok in Ht. unfold sanitize_certificate in Hok.
    destruct (Z.leb_spec (gc_round s) (round c)); [|done].
    apply Hc; [done|apply verified_cert_ok; [|done]; intros _; apply HK; by left|].
    intros E. apply message_vote_ok; [apply Hs|done|by apply Ht].
  - done.
  - cbn [handle stray] in *. apply Hh; [done|by apply (iv_sync _ _ _ _ _ _ _ _ _ _ (proj1 Hs))|]. intros E.
    apply orb_false_iff in Ht as [?%Z.ltb_ge ?]; [|done]. apply message_vote_ok; [apply Hs|done|done].
  - cbn [handle stray] in *. apply Hc; [done|apply (iv_accepted _ _ _ _ _ _ _ _ _ _ (proj1 Hs)); by right|]. intros E.
    apply orb_false_iff in Ht as [?%Z.ltb_ge ?]; [|done]. apply message_vote_ok; [apply Hs|done|done].
  - apply own_header_kept; [done|done|]. apply HK. by left.
Qed.

Lemma step_kept s e s' :
  kept s → turn_ok s e → (∀ h, h ∈ event_headers e → K h) → (timely = true → strays s [e] = false) →
  primary_step s e = Some s' → kept s'.
Proof using laws blaws com sign_ok.
  intros Hs He HK Ht. destruct e as [e r|d w]; cbn [turn_ok NarwhalCore.primary_step] in *.
  - destruct He as [He Hr]. unfold core_step.
    assert (timely = true → stray s e = false) as Ht'.
    { intros E. specialize (Ht E). cbn [strays] in Ht. by apply orb_false_iff in Ht as [? _]. }
    pose proof (handle_kept s e r Hs He HK Ht') as Hk. pose proof (handle_gc s e) as Hg.
    destruct (handle _ _ _ _ _) as [s1 []|s1 err| |] eqn:Hhandle; [| |done..]; intros [= <-]; apply cleanup_kept; try done; by rewrite Hg.
  - intros [= <-]. destruct Hs. split; [by apply inv_payload|done].
Qed.

Lemma new_kept : kept (Core_new ∅).
Proof using com.
  split; [|by intros _ Hx%not_elem_of_nil].
  split; cbn; try (by intros ? Hx%not_elem_of_nil).
  - constructor.
  - constructor.
  - by right.
  - by right.
  - intros _ v Hx. by apply not_elem_of_nil in Hx.
  - intros d x Hx. by rewrite lookup_empty in Hx.
  - intros c [Hx|Hx]; by apply not_elem_of_nil in Hx.
  - intros h [[m Hx]|[m Hx]]; by apply not_elem_of_nil in Hx.
  - by intros [|x cs1] c cs2 [=].
  - exists []. by apply agg_new.
Qed.

Lemma run_kept s es s' :
  kept s → run_ok s es → (∀ h, h ∈ trace_headers es → K h) → (timely = true → strays s es = false) →
  primary_run s es = Some s' → kept s'.
Proof using laws blaws com sign_ok.
  revert s. induction es as [|e es IH]; intros s Hs; cbn [run_ok NarwhalCore.primary_run]; [by intros _ _ _ [= <-]|].
  intros [He Hok] HK Ht Hr. destruct (primary_step s e) as [s1|] eqn:Hstep; [|done].
  assert (timely = true → strays s [e] = false ∧ strays s1 es = false) as Ht'.
  { intros E. specialize (Ht E). cbn [strays] in *. rewrite Hstep in *. apply orb_false_iff in Ht as [-> ?]. done. }
  eapply IH; [|done| |by intros E; apply Ht'|done].
  - eapply step_kept; [done|done| |by intros E; apply Ht'|done]. intros h Hh. apply HK. apply elem_of_app. by left.
  - intros h Hh. apply HK. apply elem_of_app. by right.
Qed.
End turns.
