(* ===== verification/NarwhalTasks.v ===== *)
(** * Narwhal: the other tasks of a primary

    Models [primary/src/proposer.rs], [header_waiter.rs],
    [certificate_waiter.rs], [garbage_collector.rs], [helper.rs] and
    [payload_receiver.rs] of [src/hetu-consensus].  A task is a state and a
    function of one event: a message on a channel, a timer, or a future that
    completes. *)
From S2P Require Import Prelude.
From S2P Require Import Proto.
From S2P Require Import Narwhal.
From S2P Require Import NarwhalCore.

(** ** Sorted collections *)

(** [collect] into a [BTreeSet] and into a [BTreeMap]: ascending keys, the
    last value of a key. *)
Fixpoint btree_insert {A} (k : bytes) (a : A) (l : list (bytes * A)) : list (bytes * A) :=
  match l with
  | [] => [(k, a)]
  | (k', a') :: l =>
      match bytes_compare k k' with
      | Lt => (k, a) :: (k', a') :: l
      | Eq => (k, a) :: l
      | Gt => (k', a') :: btree_insert k a l
      end
  end.
Definition btree_map {A} (l : list (bytes * A)) : list (bytes * A) := foldl (λ m p, btree_insert p.1 p.2 m) [] l.
Definition btree_set (l : list bytes) : list bytes := (btree_map ((λ k, (k, ())) <$> l)).*1.

(** ** The proposer *)

Record Proposer := mkProposer {
  pr_round : Z;
  last_parents : list bytes;
  digests : list (bytes * Z);
  payload_size : Z;
}.

Inductive ProposerEvent :=
| PParents (parents : list bytes) (round : Z)
| PDigest (digest : bytes) (worker_id : Z)
| PTimer.

Section proposer.
Context `{DagCrypto} (name : bytes) (committee : Committee) (request_signature : bytes → bytes) (header_size : Z).

Definition Proposer_new : Proposer := mkProposer 1 (digest <$> genesis committee) [] 0.

Definition make_header (p : Proposer) : Proposer * Header :=
  (mkProposer (pr_round p) [] [] (payload_size p),
   Header_new request_signature name (pr_round p) (btree_map (digests p)) (btree_set (last_parents p))).

(** The top of the loop: a header when there are parents and either enough
    digests or no more time. *)
Definition propose (p : Proposer) (timer_expired : bool) : Proposer * option Header :=
  if (timer_expired || (header_size <=? payload_size p)) && negb (bool_decide (last_parents p = [])) then
    let '(p, h) := make_header p in
    (mkProposer (pr_round p) (last_parents p) (digests p) 0, Some h)
  else (p, None).

Definition proposer_receive (p : Proposer) (e : ProposerEvent) : Proposer :=
  match e with
  | PParents parents r =>
      if r <? pr_round p then p else mkProposer (uint64 (r + 1)) parents (digests p) (payload_size p)
  | PDigest d w => mkProposer (pr_round p) (last_parents p) (digests p ++ [(d, w)]) (payload_size p + len d)
  | PTimer => p
  end.

(** One turn of the loop. *)
Definition proposer_turn (p : Proposer) (timer_expired : bool) (e : ProposerEvent) : Proposer * option Header :=
  let '(p, h) := propose p timer_expired in (proposer_receive p e, h).

Fixpoint proposer_run (p : Proposer) (turns : list (bool * ProposerEvent)) : Proposer * list Header :=
  match turns with
  | [] => (p, [])
  | (t, e) :: turns =>
      let '(p, h) := proposer_turn p t e in
      let '(p, hs) := proposer_run p turns in
      (p, match h with Some h => h :: hs | None => hs end)
  end.
End proposer.

(** ** The garbage collector *)

(** The round it keeps, and the round that it sends to the workers and puts
    in the shared variable. *)
Definition collect_round (last_committed_round : Z) (certificate : Certificate) : Z * option Z :=
  if last_committed_round <? round certificate then (round certificate, Some (round certificate))
  else (last_committed_round, None).

(** ** The helper *)

Section helper.
Context `{Bincode} (committee : Committee).

(** The replies to a request for certificates; [None]: the task panics. *)
Fixpoint helper_replies (st : gmap bytes bytes) (ds : list bytes) : option (list Certificate) :=
  match ds with
  | [] => Some []
  | d :: ds =>
      match st !! d with
      | None => helper_replies st ds
      | Some data =>
          match de_certificate data with
          | None => None
          | Some c => match helper_replies st ds with Some cs => Some (c :: cs) | None => None end
          end
      end
  end.

Definition helper_handle (st : gmap bytes bytes) (ds : list bytes) (origin : bytes) : option (list Certificate) :=
  match find_authority committee origin with
  | None => Some []
  | Some _ => helper_replies st ds
  end.
End helper.

(** ** The header waiter *)

(** A future that waits for keys of the store, and delivers a header.  It is
    cancelled by a message, or when its entry in [pending] is dropped. *)
Record Waiting := mkWaiting { wt_keys : list bytes; wt_header : Header; wt_cancelled : bool }.

Record HeaderWaiter := mkHeaderWaiter {
  parent_requests : gmap bytes (Z * Z);
  batch_requests : gmap bytes Z;
  pending : gmap bytes Z;
  waiting : list Waiting;
}.
Definition HeaderWaiter_new : HeaderWaiter := mkHeaderWaiter ∅ ∅ ∅ [].

(** What it sends: a request to a worker (of an authority, by its id) or to a
    primary, a request to some of the primaries, or a header to the core. *)
Inductive WaiterOut :=
| WSynchronize (authority : bytes) (worker_id : Z) (digests : list bytes) (target : bytes)
| WRequest (to : bytes) (m : PrimaryMessage)
| WLuckyBroadcast (m : PrimaryMessage)
| WLoopback (header : Header).

Inductive WaiterEvent :=
| SyncBatches (missing : gmap bytes Z) (header : Header)
| SyncParents (missing : list bytes) (header : Header) (now : Z)
| Completes (i : nat)
| Cancelled (i : nat)
| RetryTimer (now : Z).

Section waiter.
Context (name : bytes) (committee : Committee) (gc_depth sync_retry_delay : Z).

(** The digests not yet asked for, with their workers, and the requests. *)
Definition new_batches (requests : gmap bytes Z) (missing : list (bytes * Z)) (r : Z) : gmap bytes Z * gmap Z (list bytes) :=
  foldl (λ '(requests, sync) '(d, w), match requests !! d with
    | Some _ => (requests, sync)
    | None => (<[d := r]> requests, <[w := default [] (sync !! w) ++ [d]]> sync)
    end) (requests, ∅) missing.

Definition new_parents (requests : gmap bytes (Z * Z)) (missing : list bytes) (r now : Z) : gmap bytes (Z * Z) * list bytes :=
  foldl (λ '(requests, sync) d, match requests !! d with
    | Some _ => (requests, sync)
    | None => (<[d := (r, now)]> requests, sync ++ [d])
    end) (requests, []) missing.

(** The futures of the headers whose entries are dropped. *)
Definition cancel (dropped : bytes → bool) (ws : list Waiting) : list Waiting :=
  (λ f, mkWaiting (wt_keys f) (wt_header f) (wt_cancelled f || dropped (h_id (wt_header f)))) <$> ws.
Definition remove_at (i : nat) (ws : list Waiting) : list Waiting := take i ws ++ drop (S i) ws.

(** The header of a request that is skipped: it is being waited for. *)
Definition synchronizing (w : HeaderWaiter) (e : WaiterEvent) : bool :=
  match e with
  | SyncBatches _ h | SyncParents _ h _ => bool_decide (is_Some (pending w !! h_id h))
  | _ => false
  end.

(** [None]: the task panics. *)
Definition waiter_handle (st : gmap bytes bytes) (w : HeaderWaiter) (e : WaiterEvent) : option (HeaderWaiter * list WaiterOut) :=
  match e with
  | SyncBatches missing h =>
      let ms := map_to_list missing in
      let '(requests, sync) := new_batches (batch_requests w) ms (h_round h) in
      let w := mkHeaderWaiter (parent_requests w) requests (<[h_id h := h_round h]> (pending w))
                 (waiting w ++ [mkWaiting (payload_key <$> ms) h false]) in
      if forallb (λ p : Z * list bytes, has_worker committee (h_author h) p.1) (map_to_list sync)
      then Some (w, (λ p, WSynchronize (h_author h) p.1 p.2 (h_author h)) <$> map_to_list sync)
      else None
  | SyncParents missing h now =>
      let '(requests, sync) := new_parents (parent_requests w) missing (h_round h) now in
      let w := mkHeaderWaiter requests (batch_requests w) (<[h_id h := h_round h]> (pending w))
                 (waiting w ++ [mkWaiting missing h false]) in
      if bool_decide (sync = []) then Some (w, [])
      else match find_authority committee (h_author h) with
           | None => None
           | Some _ => Some (w, [WRequest (h_author h) (MCertificatesRequest sync name)])
           end
  | Completes i =>
      match waiting w !! i with
      | Some f =>
          let h := wt_header f in
          if bool_decide (Forall (λ k, is_Some (st !! k)) (wt_keys f)) then
            Some (mkHeaderWaiter
              (foldl (λ m d, delete d m) (parent_requests w) (h_parents h))
              (foldl (λ m p, delete p.1 m) (batch_requests w) (h_payload h))
              (delete (h_id h) (pending w)) (cancel (λ d, bool_decide (d = h_id h)) (remove_at i (waiting w))), [WLoopback h])
          else Some (w, [])
      | None => Some (w, [])
      end
  | Cancelled i =>
      match waiting w !! i with
      | Some f => Some (if wt_cancelled f
          then mkHeaderWaiter (parent_requests w) (batch_requests w) (pending w) (remove_at i (waiting w)) else w, [])
      | None => Some (w, [])
      end
  | RetryTimer now =>
      let retry := omap (λ p : bytes * (Z * Z), if p.2.2 + sync_retry_delay <? now then Some p.1 else None)
                     (map_to_list (parent_requests w)) in
      Some (w, [WLuckyBroadcast (MCertificatesRequest retry name)])
  end.

Definition waiter_cleanup (consensus_round : Z) (w : HeaderWaiter) : HeaderWaiter :=
  if gc_depth <? consensus_round then
    let gc := consensus_round - gc_depth in
    mkHeaderWaiter (filter (λ p, gc < p.2.1) (parent_requests w)) (filter (λ p, gc < p.2) (batch_requests w))
      (filter (λ p, gc < p.2) (pending w))
      (cancel (λ d, match pending w !! d with Some r => r <=? gc | None => false end) (waiting w))
  else w.

Definition waiter_turn (st : gmap bytes bytes) (w : HeaderWaiter) (e : WaiterEvent) (consensus_round : Z)
    : option (HeaderWaiter * list WaiterOut) :=
  if synchronizing w e then Some (w, [])
  else match waiter_handle st w e with
  | Some (w, o) => Some (waiter_cleanup consensus_round w, o)
  | None => None
  end.
End waiter.

(** ** The certificate waiter *)

Definition certificate_waiter_keys (certificate : Certificate) : list bytes := parents certificate.
(** It loops a certificate back when the store has the keys. *)
Definition certificate_completes (st : gmap bytes bytes) (certificate : Certificate) : bool :=
  forallb (λ k, bool_decide (is_Some (st !! k))) (certificate_waiter_keys certificate).
