(* ===== verification/NarwhalWorker.v ===== *)
(** * Narwhal: the store and the workers

    Models [store/src/lib.rs], [worker/src/batch_maker.rs],
    [quorum_waiter.rs], [processor.rs], [synchronizer.rs] and [helper.rs], and
    the consumer of the ordered certificates in [node/src/main.rs], of
    [src/hetu-consensus]. *)
From S2P Require Import Prelude.
From S2P Require Import Narwhal.

(** ** The store *)

(** The database, and for each key the readers that wait for it, oldest
    first; a reader is the number of its reply channel. *)
Record Store := mkStore { db : gmap bytes bytes; obligations : gmap bytes (list Z) }.

Inductive StoreCommand :=
| SWrite (key value : bytes)
| SRead (key : bytes) (sender : Z)
| SNotifyRead (key : bytes) (sender : Z).

(** The new store and the replies. *)
Definition store_handle (s : Store) (c : StoreCommand) : Store * list (Z * option bytes) :=
  match c with
  | SWrite k v =>
      let senders := default [] (obligations s !! k) in
      (mkStore (<[k := v]> (db s)) (delete k (obligations s)), (λ r, (r, Some v)) <$> senders)
  | SRead k r => (s, [(r, db s !! k)])
  | SNotifyRead k r =>
      match db s !! k with
      | None => (mkStore (db s) (<[k := default [] (obligations s !! k) ++ [r]]> (obligations s)), [])
      | Some v => (s, [(r, Some v)])
      end
  end.

Fixpoint store_run (s : Store) (cs : list StoreCommand) : Store * list (Z * option bytes) :=
  match cs with
  | [] => (s, [])
  | c :: cs =>
      let '(s, replies) := store_handle s c in
      let '(s, more) := store_run s cs in (s, replies ++ more)
  end.

(** ** The batch maker *)

Record BatchMaker := mkBatchMaker { current_batch : list bytes; current_batch_size : Z }.
Definition BatchMaker_new : BatchMaker := mkBatchMaker [] 0.

Inductive BatchEvent := BTransaction (tx : bytes) | BTimer.

Definition seal (b : BatchMaker) : BatchMaker * list bytes := (mkBatchMaker [] 0, current_batch b).

(** The batch sealed in this turn, if any. *)
Definition batch_turn (batch_size : Z) (b : BatchMaker) (e : BatchEvent) : BatchMaker * option (list bytes) :=
  match e with
  | BTransaction tx =>
      let b := mkBatchMaker (current_batch b ++ [tx]) (uint64 (current_batch_size b + len tx)) in
      if batch_size <=? current_batch_size b then let '(b, batch) := seal b in (b, Some batch) else (b, None)
  | BTimer =>
      if bool_decide (current_batch b = []) then (b, None) else let '(b, batch) := seal b in (b, Some batch)
  end.

Fixpoint batch_run (batch_size : Z) (b : BatchMaker) (es : list BatchEvent) : BatchMaker * list (list bytes) :=
  match es with
  | [] => (b, [])
  | e :: es =>
      let '(b, o) := batch_turn batch_size b e in
      let '(b, batches) := batch_run batch_size b es in
      (b, match o with Some batch => batch :: batches | None => batches end)
  end.

(** ** The quorum waiter *)

(** The loop over the acknowledgements of a batch, by their stakes in the
    order of arrival: whether the batch is delivered. *)
Fixpoint await_quorum (committee : Committee) (total_stake : Z) (acks : list Z) : bool :=
  match acks with
  | [] => false
  | stake :: acks =>
      let total_stake := uint32 (total_stake + stake) in
      if quorum_threshold committee <=? total_stake then true else await_quorum committee total_stake acks
  end.

Definition quorum_waiter (committee : Committee) (own : bytes) (handlers : list bytes) : bool :=
  await_quorum committee (stake committee own) (stake committee <$> handlers).

(** ** The processor *)

Inductive WorkerPrimaryMessage := OurBatch (digest : bytes) (id : Z) | OthersBatch (digest : bytes) (id : Z).

Definition process_batch `{DagCrypto} (id : Z) (own_digest : bool) (st : gmap bytes bytes) (batch : bytes)
    : gmap bytes bytes * WorkerPrimaryMessage :=
  let d := sha512_32 batch in
  (<[d := batch]> st, if own_digest then OurBatch d id else OthersBatch d id).

(** ** The synchronizer of a worker *)

Record WorkerSync := mkWorkerSync { ws_round : Z; ws_pending : gmap bytes (Z * Z) }.

Inductive WorkerSyncOut := BatchRequest (to : bytes) (digests : list bytes) | BatchRetry (digests : list bytes).

Section worker.
Context (name : bytes) (id : Z) (committee : Committee) (gc_depth sync_retry_delay : Z).

(** A digest is waited for even when the store has the batch; it is only
    asked for when the store does not. *)
Definition sync_digests (st : gmap bytes bytes) (w : WorkerSync) (ds : list bytes) (now : Z) : WorkerSync * list bytes :=
  foldl (λ '(w, missing) d, match ws_pending w !! d with
    | Some _ => (w, missing)
    | None => (mkWorkerSync (ws_round w) (<[d := (ws_round w, now)]> (ws_pending w)),
               match st !! d with None => missing ++ [d] | Some _ => missing end)
    end) (w, []) ds.

Definition synchronize (st : gmap bytes bytes) (w : WorkerSync) (ds : list bytes) (target : bytes) (now : Z)
    : WorkerSync * list WorkerSyncOut :=
  let '(w, missing) := sync_digests st w ds now in
  (w, if has_worker committee target id then [BatchRequest target missing] else []).

Definition sync_cleanup (w : WorkerSync) (r : Z) : WorkerSync :=
  if r <? gc_depth then mkWorkerSync r (ws_pending w)
  else mkWorkerSync r (filter (λ p, r - gc_depth < p.2.1) (ws_pending w)).

(** The batch of a digest has arrived. *)
Definition sync_done (w : WorkerSync) (d : bytes) : WorkerSync := mkWorkerSync (ws_round w) (delete d (ws_pending w)).

Definition sync_retry (w : WorkerSync) (now : Z) : list WorkerSyncOut :=
  let retry := omap (λ p : bytes * (Z * Z), if p.2.2 + sync_retry_delay <? now then Some p.1 else None) (map_to_list (ws_pending w)) in
  if bool_decide (retry = []) then [] else [BatchRetry retry].

(** The helper's replies to a request for batches. *)
Definition batch_replies (st : gmap bytes bytes) (ds : list bytes) (origin : bytes) : list bytes :=
  if has_worker committee origin id then omap (λ d, st !! d) ds else [].
End worker.

(** ** The node: certificates become batches of transactions *)

Section node.
(** The database of a worker, after the attempts to read it; the
    deserialization of a worker message. *)
Context (read_batch : bytes → Z → option bytes) (de_batch : bytes → option (list bytes)).

(** The batches sent on, and whether a message was not recognized. *)
Fixpoint batches_of (payload : list (bytes * Z)) : list (list bytes) * bool :=
  match payload with
  | [] => ([], true)
  | (d, w) :: payload =>
      match read_batch d w with
      | None => batches_of payload
      | Some data =>
          match de_batch data with
          | None => ([], false)
          | Some txs =>
              let '(bs, ok) := batches_of payload in
              (if bool_decide (txs = []) then bs else txs :: bs, ok)
          end
      end
  end.
Definition process_ordered (certificate : Certificate) : list (list bytes * Z) * bool :=
  let '(bs, ok) := batches_of (h_payload (c_header certificate)) in
  ((λ txs, (txs, round certificate)) <$> bs, ok).
End node.

(** The two tasks that hand a batch to the clients: the number of clients is
    read when it is queued and compared when it is sent. *)
Definition queue_broadcast {A} (connections : list A) (batch : bytes) : option (bytes * Z) :=
  if 0 <? len connections then Some (batch, len connections) else None.
Definition send_broadcast {A} (connections : list A) (m : bytes * Z) : list (A * bytes) :=
  if negb (len connections =? m.2) then [] else (λ a, (a, m.1)) <$> connections.
