(* ===== verification/NarwhalTaskProofs.v ===== *)
(** * Narwhal: theorems on the tasks

    The proposer makes at most one header per round, with growing rounds; the
    batch maker keeps every transaction in order; the quorum waiter delivers
    what a quorum has acknowledged; and where requests for batches and
    certificates go wrong. *)
From S2P Require Import Prelude.
From S2P Require Import Narwhal.
From S2P Require Import NarwhalQuorum.
From S2P Require Import NarwhalCore.
From S2P Require Import NarwhalTasks.
From S2P Require Import NarwhalWorker.

(** ** Sorted collections *)

Lemma btree_insert_keys {A} k (a : A) l x : x ∈ (btree_insert k a l).*1 ↔ x = k ∨ x ∈ l.*1.
Proof.
  induction l as [|[k' a'] l IH]; cbn [btree_insert fmap list_fmap fst]; [by rewrite elem_of_cons|].
  destruct (bytes_compare k k') eqn:Hc; cbn [fmap list_fmap fst]; rewrite !elem_of_cons.
  - apply bytes_compare_eq in Hc as ->. tauto.
  - tauto.
  - rewrite IH. tauto.
Qed.

Lemma btree_insert_sorted {A} k (a : A) l : StronglySorted bytes_lt l.*1 → StronglySorted bytes_lt (btree_insert k a l).*1.
Proof.
  induction l as [|[k' a'] l IH]; cbn [btree_insert fmap list_fmap fst]; intros Hs; [repeat constructor|].
  inversion_clear Hs as [|? ? Hs' Hall]. destruct (bytes_compare k k') eqn:Hc; cbn [fmap list_fmap fst].
  - apply bytes_compare_eq in Hc as ->. by constructor.
  - constructor; [by constructor|]. constructor; [done|]. eapply Forall_impl; [exact Hall|]. intros x. by apply bytes_lt_trans.
  - constructor; [by apply IH|]. apply Forall_forall. intros x [->|Hx]%btree_insert_keys.
    + unfold bytes_lt. rewrite bytes_compare_antisym, Hc. done.
    + by eapply Forall_forall in Hall.
Qed.

Lemma btree_set_spec l : StronglySorted bytes_lt (btree_set l) ∧ ∀ x, x ∈ btree_set l ↔ x ∈ l.
Proof.
  unfold btree_set, btree_map.
  assert (∀ m : list (bytes * ()), StronglySorted bytes_lt m.*1 →
    StronglySorted bytes_lt (foldl (λ m p, btree_insert p.1 p.2 m) m ((λ k, (k, ())) <$> l)).*1 ∧
    ∀ x, x ∈ (foldl (λ m p, btree_insert p.1 p.2 m) m ((λ k, (k, ())) <$> l)).*1 ↔ x ∈ l ∨ x ∈ m.*1) as Hgo.
  { induction l as [|k l IH]; intros m Hm; cbn [fmap list_fmap foldl fst snd]; [split; [done|]; intros x; rewrite elem_of_nil; tauto|].
    destruct (IH (btree_insert k () m)) as [Hs Hin]; [by apply btree_insert_sorted|]. split; [done|]. intros x.
    rewrite Hin, btree_insert_keys, elem_of_cons. tauto. }
  destruct (Hgo [] ltac:(constructor)) as [Hs Hin]. split; [done|]. intros x. rewrite Hin. cbn. rewrite elem_of_nil. tauto.
Qed.

Lemma btree_set_NoDup l : NoDup (btree_set l).
Proof.
  destruct (btree_set_spec l) as [Hs _]. induction Hs as [|x xs _ IH Hall]; [constructor|]. constructor; [|done].
  intros Hx. eapply Forall_forall in Hall; [|exact Hx]. by apply bytes_lt_irrefl in Hall.
Qed.

(** ** The proposer *)

Section proposer.
Context `{DagCrypto} (name : bytes) (committee : Committee) (request_signature : bytes → bytes) (header_size : Z).

(** Where the parents of a header come from. *)
Definition parents_source (turns : list (bool * ProposerEvent)) (r : Z) (ps : list bytes) : Prop :=
  (r = 1 ∧ ps = digest <$> genesis committee) ∨ ∃ t, (t, PParents ps (r - 1)) ∈ turns.

Definition proposed (turns : list (bool * ProposerEvent)) (h : Header) : Prop :=
  h_author h = name ∧ h_id h = Header_digest h ∧ ∃ ps, parents_source turns (h_round h) ps ∧ h_parents h = btree_set ps ∧ ps ≠ [].

(** The parents that wait are of the round before the next header's. *)
Definition proposer_ok (turns : list (bool * ProposerEvent)) (p : Proposer) : Prop :=
  last_parents p = [] ∨ parents_source turns (pr_round p) (last_parents p).

Lemma propose_spec turns p t p' h :
  proposer_ok turns p → propose name request_signature header_size p t = (p', h) →
  pr_round p' = pr_round p ∧
  match h with
  | Some h => proposed turns h ∧ h_round h = pr_round p ∧ last_parents p' = []
  | None => last_parents p' = last_parents p
  end.
Proof.
  intros Hok. unfold propose. destruct (_ && _) eqn:Hc; [|by intros [= <- <-]].
  apply andb_true_iff in Hc as [_ Hne%negb_true_iff%bool_decide_eq_false]. cbn. intros [= <- <-]. cbn.
  destruct Hok as [?|Hsrc]; [done|]. split_and!; [done| |done|done]. split_and!; [done|done|]. by exists (last_parents p).
Qed.

Lemma proposer_run_spec turns0 turns p p' hs :
  (∀ t ps r, (t, PParents ps r) ∈ turns0 → 0 ≤ r < 18446744073709551615) → (∀ x, x ∈ turns → x ∈ turns0) →
  proposer_ok turns0 p → proposer_run name request_signature header_size p turns = (p', hs) →
  StronglySorted (λ a b, h_round a < h_round b) hs ∧
  (∀ h, h ∈ hs → proposed turns0 h ∧ (pr_round p < h_round h ∨ h_round h = pr_round p ∧ last_parents p ≠ [])).
Proof.
  intros Hrange. revert p p' hs. induction turns as [|[t e] turns IH]; intros p p' hs Hsub Hok Hr; cbn [proposer_run] in Hr.
  { injection Hr as _ <-. split; [constructor|]. intros h Hh. by apply not_elem_of_nil in Hh. }
  unfold proposer_turn in Hr. destruct (propose _ _ _ p t) as [p1 o] eqn:Hp. destruct (propose_spec _ _ _ _ _ Hok Hp) as [Hr1 Ho].
  destruct (proposer_run _ _ _ (proposer_receive p1 e) turns) as [p2 hs2] eqn:Hrun. injection Hr as _ <-.
  assert (proposer_ok turns0 (proposer_receive p1 e) ∧
    (pr_round p < pr_round (proposer_receive p1 e) ∨
     pr_round (proposer_receive p1 e) = pr_round p ∧ last_parents (proposer_receive p1 e) = last_parents p1)) as [Hok1 Hle].
  { assert (proposer_ok turns0 p1) as Hp1.
    { unfold proposer_ok in *. rewrite Hr1. destruct o; [left; by destruct Ho as (_ & _ & ?)|by rewrite Ho]. }
    destruct e as [ps r|d w|]; cbn [proposer_receive]; [|split; [exact Hp1|right; done]..].
    destruct (Z.ltb_spec r (pr_round p1)); [split; [done|by right]|]. cbn [pr_round last_parents].
    assert ((t, PParents ps r) ∈ turns0) as Hin by (apply Hsub; by left). specialize (Hrange _ _ _ Hin).
    rewrite uint64_id by ulia. split; [|left; lia]. right. cbn. right. exists t. by replace (r + 1 - 1) with r by lia. }
  destruct (IH _ _ _ ltac:(intros x Hx; apply Hsub; by right) Hok1 Hrun) as [Hs Hall].
  destruct o as [h|].
  - destruct Ho as (Hprop & Hhr & Hnil). split.
    + constructor; [done|]. apply Forall_forall. intros x Hx. destruct (Hall x Hx) as [_ [?|[? Hne]]]; [destruct Hle as [|[? ?]]; lia|].
      destruct Hle as [?|[_ Hl]]; [lia|]. by rewrite Hl in Hne.
    + intros x [->|Hx]%elem_of_cons.
      * split; [done|]. right. split; [done|]. unfold propose in Hp. destruct (_ && _) eqn:Hc; [|done].
        by apply andb_true_iff in Hc as [_ Hne%negb_true_iff%bool_decide_eq_false].
      * destruct (Hall x Hx) as [? [?|[? Hne]]]; (split; [done|]); [left; destruct Hle as [|[? ?]]; lia|].
        destruct Hle as [?|[_ Hl]]; [left; lia|]. by rewrite Hl in Hne.
  - split; [done|]. intros x Hx. destruct (Hall x Hx) as [? [?|[? Hne]]]; (split; [done|]); [left; destruct Hle as [|[? ?]]; lia|].
    destruct Hle as [?|[Hre Hl]]; [left; lia|]. right. split; [lia|]. by rewrite <-Ho, <-Hl.
Qed.
End proposer.

(** ** Batches *)

Definition transactions (es : list BatchEvent) : list bytes :=
  omap (λ e, match e with BTransaction tx => Some tx | BTimer => None end) es.

Lemma batch_run_spec batch_size b es b' batches :
  batch_run batch_size b es = (b', batches) →
  concat batches ++ current_batch b' = current_batch b ++ transactions es ∧ ∀ x, x ∈ batches → x ≠ [].
Proof.
  revert b b' batches. induction es as [|e es IH]; intros b b' batches; cbn [batch_run].
  { intros [= <- <-]. split; [cbn; by rewrite app_nil_r|]. intros x Hx. by apply not_elem_of_nil in Hx. }
  destruct (batch_turn batch_size b e) as [b1 o] eqn:Ht. destruct (batch_run batch_size b1 es) as [b2 bs] eqn:Hr. intros [= <- <-].
  destruct (IH _ _ _ Hr) as [Hcat Hne].
  assert (current_batch b ++ transactions [e] = default [] o ++ current_batch b1 ∧ (∀ x, o = Some x → x ≠ [])) as [Hone Ho].
  { destruct e as [tx|]; cbn [batch_turn seal] in Ht.
    - case_match; injection Ht as <- <-; cbn; rewrite ?app_nil_r; (split; [done|]); intros x [= <-]. by destruct (current_batch b).
    - case_bool_decide as Hc; injection Ht as <- <-; cbn; rewrite ?app_nil_r; [done|]. split; [done|]. by intros x [= <-]. }
  assert (transactions (e :: es) = transactions [e] ++ transactions es) as -> by (apply (omap_app _ [e] es)).
  rewrite (assoc app (current_batch b)), Hone, <-app_assoc, <-Hcat. destruct o as [x|]; cbn [default concat]; [|done].
  split; [by rewrite <-app_assoc|]. intros y [->|Hy]%elem_of_cons; [by apply Ho|by apply Hne].
Qed.

Lemma await_quorum_spec c total acks :
  0 ≤ total → (∀ x, x ∈ acks → 0 ≤ x) → total + zsum id acks < 4294967296 →
  await_quorum c total acks = true ↔ acks ≠ [] ∧ quorum_threshold c ≤ total + zsum id acks.
Proof.
  revert total. induction acks as [|x acks IH]; intros total Ht Hpos Hb; cbn [await_quorum]; [split; [done|by intros []]|].
  rewrite zsum_cons in *. cbn [id] in *.
  assert (0 ≤ x) by (apply Hpos; by left). assert (0 ≤ zsum id acks) by (apply zsum_nonneg; intros; apply Hpos; by right).
  assert (uint32 (total + x) = total + x) as -> by (unfold uint32; rewrite Z.mod_small; lia).
  destruct (Z.leb_spec (quorum_threshold c) (total + x)); [split; [|done]; intros _; split; [done|lia]|].
  rewrite IH; [|lia|intros; apply Hpos; by right|lia]. rewrite Z.add_assoc. split; [by intros [_ ?]|]. intros [_ Hq]. split; [|done].
  intros ->. rewrite zsum_nil in Hq. lia.
Qed.
