(* ===== verification/NarwhalToy.v ===== *)
(** * A concrete network of primaries

    Instances of the outside code that evaluate (a polynomial hash,
    signatures that name their key, a codec) and a scheduler that lets four
    primaries exchange headers, votes and certificates, for the examples. *)
From S2P Require Import Prelude.
From S2P Require Import Proto.
From S2P Require Import Narwhal.
From S2P Require Import NarwhalQuorum.
From S2P Require Import NarwhalCore.

(** ** Instances *)

Definition toy_hash (b : bytes) : bytes :=
  le_bytes 32 (foldl (λ h x, match x with
    | x00 => h + 1
    | _ => Z.land (h * 8191 + Z.of_N (Byte.to_N x)) 4294967295
    end) 7 b).
Definition toy_sign (k d : bytes) : bytes := k ++ d.
Definition toy_verify (s d k : bytes) : bool := bool_decide (s = toy_sign k d).

#[export] Instance toy_narwhal : DagCrypto := {|
  sha512_32 := toy_hash;
  sig_verify := toy_verify;
  sig_verify_batch := λ d votes, forallb (λ v, toy_verify v.2 d v.1) votes;
|}.
#[export] Instance toy_narwhal_laws : DagCryptoLaws.
Proof.
  intros d votes Hall. cbn. apply forallb_forall. intros [k s] Hks. by apply Hall, list_elem_of_In.
Qed.

Lemma toy_sign_ok k d : sig_verify (toy_sign k d) d k = true.
Proof. by apply bool_decide_eq_true. Qed.

(** The codec writes the fields of a certificate as lists of strings.  A
    marker opens a list ([x01]) or a string ([x02]) or comes before a byte
    ([x03]). *)
Definition enc_string (s : bytes) : bytes := x02 :: concat ((λ x, [x03; x]) <$> s).
Definition enc_lists (o : list (list bytes)) : bytes := concat ((λ l, x01 :: concat (enc_string <$> l)) <$> o).

(** The rest of the string, of the list and of the lists that are open. *)
Fixpoint dec_lists (b : bytes) : bytes * list bytes * list (list bytes) :=
  match b with
  | [] => ([], [], [])
  | x03 :: x :: b => let '(s, l, o) := dec_lists b in (x :: s, l, o)
  | x02 :: b => let '(s, l, o) := dec_lists b in ([], s :: l, o)
  | _ :: b => let '(_, l, o) := dec_lists b in ([], [], l :: o)
  end.

Lemma dec_bytes s b : dec_lists (concat ((λ x, [x03; x]) <$> s) ++ b) = (s ++ (dec_lists b).1.1, (dec_lists b).1.2, (dec_lists b).2).
Proof. induction s as [|x s IH]; cbn [fmap list_fmap concat app dec_lists]; [by destruct (dec_lists b) as [[??]?]|by rewrite IH]. Qed.
Lemma dec_strings l b : (dec_lists b).1.1 = [] →
  dec_lists (concat (enc_string <$> l) ++ b) = ([], l ++ (dec_lists b).1.2, (dec_lists b).2).
Proof.
  intros Hb. induction l as [|s l IH]; cbn [fmap list_fmap concat app enc_string dec_lists].
  { destruct (dec_lists b) as [[s l] o]. cbn in *. congruence. }
  rewrite <-app_assoc, dec_bytes, IH. cbn [fst snd]. by rewrite app_nil_r.
Qed.
Lemma dec_enc_lists o : dec_lists (enc_lists o) = ([], [], o).
Proof.
  induction o as [|l o IH]; [done|]. unfold enc_lists in *. cbn [fmap list_fmap concat app dec_lists].
  rewrite dec_strings by (by rewrite IH). rewrite IH. cbn. by rewrite app_nil_r.
Qed.

Fixpoint bits_of (p : positive) : bytes :=
  match p with xH => [] | xO p => x00 :: bits_of p | xI p => x01 :: bits_of p end.
Fixpoint of_bits (b : bytes) : positive :=
  match b with [] => xH | x00 :: b => xO (of_bits b) | _ :: b => xI (of_bits b) end.
Lemma of_bits_of p : of_bits (bits_of p) = p.
Proof. induction p; cbn; congruence. Qed.

Definition enc_z (z : Z) : bytes := match z with Z0 => [] | Zpos p => x00 :: bits_of p | Zneg p => x01 :: bits_of p end.
Definition dec_z (b : bytes) : Z := match b with [] => 0 | x00 :: b => Zpos (of_bits b) | _ :: b => Zneg (of_bits b) end.
Lemma dec_enc_z z : dec_z (enc_z z) = z.
Proof. destruct z; cbn; by rewrite ?of_bits_of. Qed.

Fixpoint pairs {A B} (f : bytes → A) (g : bytes → B) (l : list bytes) : list (A * B) :=
  match l with a :: b :: l => (f a, g b) :: pairs f g l | _ => [] end.
Lemma pairs_concat {A B} (f : bytes → A) (g : bytes → B) f' g' l :
  (∀ x, f (f' x) = x) → (∀ y, g (g' y) = y) → pairs f g (concat ((λ p, [f' p.1; g' p.2]) <$> l)) = l.
Proof. intros Hf Hg. induction l as [|[x y] l IH]; [done|]. cbn. by rewrite Hf, Hg, IH. Qed.

Definition cert_lists (c : Certificate) : list (list bytes) :=
  let h := c_header c in
  [[h_author h; enc_z (h_round h); h_id h; h_signature h]; concat ((λ p, [p.1; enc_z p.2]) <$> h_payload h); h_parents h;
   concat ((λ p, [p.1; p.2]) <$> c_votes c)].
Definition lists_cert (o : list (list bytes)) : option Certificate :=
  match o with
  | [[a; r; i; s]; payload; ps; votes] =>
      Some (mkCertificate (mkHeader a (dec_z r) (pairs id dec_z payload) ps i s) (pairs id id votes))
  | _ => None
  end.
Lemma lists_cert_lists c : lists_cert (cert_lists c) = Some c.
Proof.
  destruct c as [[a r p ps i s] votes]. unfold cert_lists, lists_cert. cbn [c_header c_votes Narwhal.h_author Narwhal.h_round Narwhal.h_payload Narwhal.h_parents Narwhal.h_id Narwhal.h_signature].
  rewrite dec_enc_z, (pairs_concat id dec_z id enc_z), (pairs_concat id id id id); [done|done|done|done|apply dec_enc_z].
Qed.

#[export] Instance toy_bincode : Bincode := {|
  ser_header := λ h, x00 :: enc_lists (cert_lists (mkCertificate h []));
  ser_certificate := λ c, x01 :: enc_lists (cert_lists c);
  de_certificate := λ b, match b with x01 :: b => lists_cert (dec_lists b).2 | _ => None end;
|}.
#[export] Instance toy_bincode_laws : BincodeLaws.
Proof. split; [|done|done]. intros c. cbn [de_certificate ser_certificate toy_bincode]. rewrite dec_enc_lists. apply lists_cert_lists. Qed.

(** ** Four primaries *)

Definition name_of (b : byte) : bytes := b :: zeros 31.
Definition names : list bytes := name_of <$> [x61; x62; x63; x64].
Definition quartet : Committee := mkCommittee ((λ n, (n, mkAuthority 1 [0])) <$> names).
Definition quartet_gc : Z := 50.

Lemma quartet_ok : committee_ok quartet.
Proof.
  split; [apply (bool_decide_unpack _); vm_compute; exact I| |done].
  intros p Hp. unfold quartet in Hp. cbn [authorities] in Hp. apply list_elem_of_fmap in Hp as (k & -> & _). done.
Qed.

(** The state of every primary and the events it has had. *)
Abbreviation Nodes := (list (bytes * (Core * list PrimaryEvent))).

Definition deliver (ns : Nodes) (to : bytes) (e : CoreEvent) : Nodes :=
  (λ '(n, (s, es)), if decide (n = to) then
     match primary_step n quartet quartet_gc (toy_sign n) s (Turn e 0) with
     | Some s => (n, (s, es ++ [Turn e 0]))
     | None => (n, (s, es))
     end
   else (n, (s, es))) <$> ns.

Definition send_others (from : bytes) (m : PrimaryMessage) (ns : Nodes) : Nodes :=
  foldl (λ ns to, if decide (to = from) then ns else deliver ns to (EMessage m)) ns names.

Definition parents_for (r : Z) (s : Core) : list bytes :=
  foldl (λ acc o, match o with OParents ps r' => if r' =? r - 1 then ps else acc | _ => acc end)
    (digest <$> genesis quartet) (out s).

Definition own_header (r : Z) (n : bytes) (s : Core) : Header :=
  Header_new (toy_sign n) n r [] (sort_by bytes_ltb (parents_for r s)).

(** A round: headers, votes, certificates. *)
Definition round_step (ns : Nodes) (r : Z) : Nodes :=
  let headers := (λ '(n, (s, _)), (n, own_header r n s)) <$> ns in
  let ns := foldl (λ ns '(n, h), deliver ns n (EOwnHeader h)) ns headers in
  let ns := foldl (λ ns '(n, h), send_others n (MHeader h) ns) ns headers in
  let votes := concat ((λ '(n, (s, _)), omap (λ o, match o with
    | OSend to (MVote v) => if dv_round v =? r then Some (to, v) else None | _ => None end) (out s)) <$> ns) in
  let ns := foldl (λ ns '(to, v), deliver ns to (EMessage (MVote v))) ns votes in
  let certificates := concat ((λ '(n, (s, _)), omap (λ o, match o with
    | OBroadcast (MCertificate c) => if round c =? r then Some (n, c) else None | _ => None end) (out s)) <$> ns) in
  foldl (λ ns '(n, c), send_others n (MCertificate c) ns) ns certificates.

Definition start : Nodes := (λ n, (n, (Core_new ∅, []))) <$> names.
Definition simulate (rounds : Z) : Nodes := foldl round_step start (seqZ 1 rounds).
