(* ===== verification/Tusk.v ===== *)
(** * Tusk: ordering the DAG of certificates

    Models [src/hetu-consensus/consensus/src/lib.rs].  A [HashMap] is a
    [gmap]; where the code iterates one, the model iterates its list of
    bindings, and no result depends on the order.  The channels to the
    primary and to the application receive the sequence that [process]
    returns. *)
From S2P Require Import Prelude.
From S2P Require Import Narwhal.

Abbreviation Slot := (bytes * Certificate)%type (only parsing).
Abbreviation Dag := (gmap Z (gmap bytes Slot)) (only parsing).

Record State := mkState {
  last_committed_round : Z;
  last_committed : gmap bytes Z;
  dag : Dag;
}.

(** [HashMap::values]. *)
Definition values {K A} `{Countable K} (m : gmap K A) : list A := (map_to_list m).*2.

(** [retain] for one authority: its certificates below [round] go, then
    empty rounds and rounds below the garbage collection depth. *)
Definition retain_authority (gc_depth lcr : Z) (name : bytes) (round : Z) (d : Dag) : Dag :=
  map_imap (λ r (auths : gmap bytes Slot),
    let auths := filter (λ p, p.1 ≠ name ∨ round ≤ r) auths in
    if bool_decide (auths ≠ ∅) && (lcr <=? uint64 (r + gc_depth)) then Some auths else None) d.

Definition update (st : State) (certificate : Certificate) (gc_depth : Z) : State :=
  let lc := <[origin certificate :=
    match last_committed st !! origin certificate with
    | Some r => Z.max r (round certificate)
    | None => round certificate
    end]> (last_committed st) in
  let lcr := foldr Z.max 0 (values lc) in
  mkState lcr lc (foldr (λ p d, retain_authority gc_depth lcr p.1 p.2 d) (dag st) (map_to_list lc)).

Section consensus.
Context `{DagCrypto} (committee : Committee) (gc_depth : Z).

Definition State_new (genesis : list Certificate) : State :=
  let g : gmap bytes Slot := list_to_map (reverse ((λ x, (origin x, (digest x, x))) <$> genesis)) in
  mkState 0 ((λ v, round v.2) <$> g) {[ 0 := g ]}.

Definition leader (round : Z) (d : Dag) : outcome (option Slot) :=
  let keys := sort_by bytes_ltb (authorities committee).*1 in
  if committee_size committee =? 0 then Panic "attempt to calculate the remainder with a divisor of zero"
  else
    name ← slice_get keys (round mod committee_size committee);
    Ret (d !! round ≫= λ auths, auths !! name).

(** The rounds from [hi - 1] down to [lo]. *)
Definition rounds_down (lo hi : Z) : list Z := rev (seqZ lo (hi - lo)).

Definition whole_history (d : Dag) (r : Z) : outcome (gmap bytes Slot) :=
  match d !! r with
  | Some auths => Ret auths
  | None => Panic "We should have the whole history by now"
  end.

Definition has_parent (d : bytes) (x : Certificate) : bool := bool_decide (d ∈ parents x).

Definition linked (l prev_leader : Certificate) (d : Dag) : outcome bool :=
  ps ← for_each (λ r ps,
      auths ← whole_history d r;
      Ret (snd <$> filter (λ v : Slot, existsb (has_parent v.1) ps) (values auths)))
    (rounds_down (round prev_leader) (round l)) [l];
  Ret (existsb (cert_eqb prev_leader) ps).

(** The even rounds that [order_leaders] walks, from the highest down. *)
Definition past_rounds (lcr lround : Z) : list Z :=
  filter (λ r, (lround - r) mod 2 = 0) (rounds_down (uint64 (lcr + 2)) (uint64 (lround - 2) + 1)).

Definition order_leaders (l : Certificate) (st : State) : outcome (list Certificate) :=
  '(to_commit, _) ← for_each (λ r '(to_commit, l),
      prev ← leader r (dag st);
      match prev with
      | None => Ret (to_commit, l)
      | Some (_, prev_leader) =>
          ok ← linked l prev_leader (dag st);
          Ret (if (ok : bool) then (to_commit ++ [prev_leader], prev_leader) else (to_commit, l))
      end) (past_rounds (last_committed_round st) (round l)) ([l], l);
  Ret to_commit.

(** One parent in the depth-first search: pushed, unless it is unknown,
    already pushed, or at the last round committed for its author. *)
Definition visit (st : State) (x : Certificate) (s : list Certificate * gset bytes) (parent : bytes)
    : list Certificate * gset bytes :=
  let '(buffer, already_ordered) := s in
  match dag st !! uint64 (round x - 1) ≫= λ auths, find (λ v : Slot, bool_decide (v.1 = parent)) (values auths) with
  | None => s
  | Some (d, certificate) =>
      if bool_decide (d ∈ already_ordered) || bool_decide (last_committed st !! origin certificate = Some (round certificate))
      then s
      else (certificate :: buffer, {[ d ]} ∪ already_ordered)
  end.

Fixpoint dfs (fuel : nat) (st : State) (buffer : list Certificate) (already_ordered : gset bytes) (ordered : list Certificate)
    : outcome (list Certificate) :=
  match buffer, fuel with
  | [], _ => Ret ordered
  | _, O => Panic "out of fuel"
  | x :: buffer, S fuel =>
      let '(buffer, already_ordered) := foldl (visit st x) (buffer, already_ordered) (parents x) in
      dfs fuel st buffer already_ordered (ordered ++ [x])
  end.

(** Every certificate of the DAG is pushed once at most. *)
Definition dag_size (d : Dag) : nat := sum_list_with size (values d).

Definition order_dag (l : Certificate) (st : State) : outcome (list Certificate) :=
  ordered ← dfs (S (dag_size (dag st))) st [l] ∅ [];
  Ret (sort_by (λ a b, round a <? round b)
    (filter (λ x, last_committed_round st ≤ uint64 (round x + gc_depth)) ordered)).

(** ** The handler of one certificate *)

Definition insert_cert (st : State) (certificate : Certificate) : State :=
  mkState (last_committed_round st) (last_committed st)
    (<[round certificate := <[origin certificate := (digest certificate, certificate)]>
        (default ∅ (dag st !! round certificate))]> (dag st)).

(** The leader that the arrival of a certificate of round [rd] commits, if any. *)
Definition elect (st : State) (rd : Z) : outcome (option Certificate) :=
  let r := uint64 (rd - 1) in
  if negb (r mod 2 =? 0) || (r <? 4) then Ret None
  else
    let leader_round := r - 2 in
    if leader_round <=? last_committed_round st then Ret None
    else
      l ← leader leader_round (dag st);
      match l with
      | None => Ret None
      | Some (leader_digest, l) =>
          children ← whole_history (dag st) (r - 1);
          let support := foldl (λ s x, uint32 (s + stake committee (origin x))) 0
                           (filter (has_parent leader_digest) (snd <$> values children)) in
          Ret (if support <? validity_threshold committee then None else Some l)
      end.

Definition commit_leader (l : Certificate) (s : State * list Certificate) : outcome (State * list Certificate) :=
  let '(st, sequence) := s in
  xs ← order_dag l st;
  Ret (foldl (λ st x, update st x gc_depth) st xs, sequence ++ xs).

(** The leaders that the arrival of a certificate commits, oldest first. *)
Definition leaders_of (st : State) (rd : Z) : outcome (list Certificate) :=
  l ← elect st rd;
  match l with
  | None => Ret []
  | Some l => leaders ← order_leaders l st; Ret (rev leaders)
  end.

Definition process (st : State) (certificate : Certificate) : outcome (State * list Certificate) :=
  let st := insert_cert st certificate in
  leaders ← leaders_of st (round certificate);
  for_each commit_leader leaders (st, []).

(** The main loop over the certificates received. *)
Definition run (certificates : list Certificate) : outcome (State * list Certificate) :=
  for_each (λ c '(st, out), '(st, sequence) ← process st c; Ret (st, out ++ sequence)) certificates
    (State_new (genesis committee), []).
End consensus.
