(* ===== verification/TuskState.v ===== *)
(** * Tusk: the state of a node

    What the DAG of a node holds: the effect of [update] and of the arrival of
    a certificate, in terms of lookups, and the depth-first search. *)
From S2P Require Import Prelude.
From S2P Require Import Narwhal.
From S2P Require Import Tusk.

Definition slot (d : Dag) (r : Z) (n : bytes) : option Slot := d !! r ≫= λ auths, auths !! n.

Lemma values_elem {K A} `{Countable K} (m : gmap K A) x : x ∈ values m ↔ ∃ k, m !! k = Some x.
Proof.
  unfold values. rewrite list_elem_of_fmap. split.
  - intros ([k y] & -> & Hk%elem_of_map_to_list). by exists k.
  - intros (k & Hk). exists (k, x). split; [done|]. by apply elem_of_map_to_list.
Qed.

Lemma max_values_le (l : list Z) b : foldr Z.max 0 l ≤ b ↔ 0 ≤ b ∧ Forall (λ x, x ≤ b) l.
Proof. induction l as [|x l IH]; simpl; [split; [intros; split; [lia|constructor]|lia]|]. rewrite Forall_cons, Z.max_lub_iff, IH. tauto. Qed.

Lemma max_values_ge (l : list Z) x : x ∈ l → x ≤ foldr Z.max 0 l.
Proof. induction 1; simpl; lia. Qed.

Lemma max_values_nonneg (l : list Z) : 0 ≤ foldr Z.max 0 l.
Proof. induction l; simpl; lia. Qed.

(** ** Clean up *)

Lemma slot_retain gc lcr name rd d r n v :
  slot (retain_authority gc lcr name rd d) r n = Some v ↔
  slot d r n = Some v ∧ (n ≠ name ∨ rd ≤ r) ∧ lcr ≤ uint64 (r + gc).
Proof.
  unfold slot, retain_authority. rewrite map_lookup_imap. destruct (d !! r) as [auths|]; simpl; [|naive_solver].
  destruct (Z.leb_spec lcr (uint64 (r + gc))); rewrite ?andb_false_r, ?andb_true_r; simpl; [|naive_solver lia].
  case_bool_decide as He; simpl.
  - rewrite map_lookup_filter_Some. simpl. tauto.
  - split; [done|]. intros (Hv & Hn & _). exfalso.
    assert (filter (λ p : bytes * Slot, p.1 ≠ name ∨ rd ≤ r) auths !! n = Some v) as Hf by (by rewrite map_lookup_filter_Some).
    by rewrite He, lookup_empty in Hf.
Qed.

Lemma slot_retain_all gc lcr (l : list (bytes * Z)) d r n v :
  slot (foldr (λ p d, retain_authority gc lcr p.1 p.2 d) d l) r n = Some v ↔
  slot d r n = Some v ∧ ∀ p, p ∈ l → (n ≠ p.1 ∨ p.2 ≤ r) ∧ lcr ≤ uint64 (r + gc).
Proof.
  induction l as [|p l IH]; simpl; [set_solver|]. rewrite slot_retain, IH. set_solver.
Qed.

(** The rounds committed for each author after [update]. *)
Definition bump (lc : gmap bytes Z) (c : Certificate) : gmap bytes Z :=
  <[origin c := match lc !! origin c with Some r => Z.max r (round c) | None => round c end]> lc.

Lemma update_committed st c gc : last_committed (update st c gc) = bump (last_committed st) c.
Proof. done. Qed.

Lemma update_slot st c gc r n v :
  slot (dag (update st c gc)) r n = Some v ↔
  slot (dag st) r n = Some v ∧ (∀ lr, bump (last_committed st) c !! n = Some lr → lr ≤ r) ∧
  last_committed_round (update st c gc) ≤ uint64 (r + gc).
Proof.
  unfold update at 1. cbn [dag]. rewrite slot_retain_all. fold (bump (last_committed st) c).
  change (foldr Z.max 0 (values (bump (last_committed st) c))) with (last_committed_round (update st c gc)). split.
  - intros [Hv Hall]. split; [done|]. split.
    + intros lr Hlr. destruct (Hall (n, lr)) as [[?|?] _]; [by apply elem_of_map_to_list|done|done].
    + destruct (bump (last_committed st) c !! origin c) as [lr|] eqn:Hlr; [|by unfold bump in Hlr; rewrite lookup_insert_eq in Hlr].
      by destruct (Hall (origin c, lr)) as [_ ?]; [apply elem_of_map_to_list|].
  - intros (Hv & Hlc & Hgc). split; [done|]. intros [n' lr] Hp%elem_of_map_to_list. split; [|done]. simpl.
    destruct (decide (n = n')) as [->|]; [right; by apply Hlc|by left].
Qed.

(** [last_committed_round] is the highest round in [last_committed]. *)
Definition rounds_ok (st : State) : Prop := last_committed_round st = foldr Z.max 0 (values (last_committed st)).

Lemma rounds_ok_le st n r : rounds_ok st → last_committed st !! n = Some r → r ≤ last_committed_round st.
Proof. intros -> Hn. apply max_values_ge, values_elem. by exists n. Qed.

Lemma bump_lookup lc c n r :
  bump lc c !! n = Some r ↔
  (n = origin c ∧ r = match lc !! n with Some r => Z.max r (round c) | None => round c end) ∨
  (n ≠ origin c ∧ lc !! n = Some r).
Proof. unfold bump. rewrite lookup_insert_Some. naive_solver. Qed.

Lemma update_rounds_ok st c gc : rounds_ok (update st c gc).
Proof. done. Qed.

Lemma update_round st c gc :
  rounds_ok st → 0 ≤ round c → last_committed_round (update st c gc) = Z.max (last_committed_round st) (round c).
Proof.
  intros Hok Hc. rewrite (update_rounds_ok st c gc), update_committed, Hok. apply Z.le_antisymm.
  - apply max_values_le. split; [lia|]. apply Forall_forall. intros r [n Hn]%values_elem.
    apply bump_lookup in Hn as [[-> ->]|[_ Hn]].
    + destruct (_ !! origin c) as [r|] eqn:E; [|lia]. pose proof (rounds_ok_le st _ _ Hok E). rewrite Hok in *. lia.
    + pose proof (rounds_ok_le st _ _ Hok Hn). rewrite Hok in *. lia.
  - apply Z.max_lub.
    + apply max_values_le. split; [apply max_values_nonneg|]. apply Forall_forall. intros r [n Hn]%values_elem.
      destruct (decide (n = origin c)) as [->|Hne].
      * etrans; [|apply max_values_ge, values_elem; exists (origin c); apply bump_lookup; left; split; [done|reflexivity]].
        rewrite Hn. lia.
      * apply max_values_ge, values_elem. exists n. apply bump_lookup. by right.
    + etrans; [|apply max_values_ge, values_elem; exists (origin c); apply bump_lookup; left; split; [done|reflexivity]].
      destruct (_ !! origin c); lia.
Qed.

(** ** The arrival of a certificate *)

Lemma insert_cert_slot `{DagCrypto} st c r n v :
  slot (dag (insert_cert st c)) r n = Some v ↔
  (r = round c ∧ n = origin c ∧ v = (digest c, c)) ∨
  ((r ≠ round c ∨ n ≠ origin c) ∧ slot (dag st) r n = Some v).
Proof.
  unfold slot, insert_cert. cbn [dag]. destruct (decide (r = round c)) as [->|Hr].
  - rewrite lookup_insert_eq. cbn [mbind option_bind]. rewrite lookup_insert_Some.
    destruct (dag st !! round c) as [auths|]; simpl; rewrite ?lookup_empty; naive_solver.
  - rewrite lookup_insert_ne by done. naive_solver.
Qed.

Lemma slot_values d r v : (∃ auths, d !! r = Some auths ∧ v ∈ values auths) ↔ ∃ n, slot d r n = Some v.
Proof.
  unfold slot. destruct (d !! r) as [auths|]; simpl; [|naive_solver]. setoid_rewrite values_elem. naive_solver.
Qed.

(** ** The depth-first search *)

(** Rounds are far from the 64-bit bound. *)
Definition max_round : Z := 4611686018427387904.

Section search.
Context `{DagCrypto}.

(** What a DAG holds: certificates at their place, with their digest, and
    one place for a digest. *)
Record dag_ok (d : Dag) : Prop := {
  dag_sound : ∀ r n x c, slot d r n = Some (x, c) → x = digest c ∧ round c = r ∧ origin c = n;
  dag_bounds : ∀ r n v, slot d r n = Some v → 0 ≤ r < max_round;
  dag_inj : ∀ r n c r' n' c', slot d r n = Some (digest c, c) → slot d r' n' = Some (digest c', c') →
    digest c = digest c' → r = r' ∧ n = n';
}.

(** The search goes from a certificate to a parent that is in the DAG and not
    the last committed one of its author. *)
Definition dstep (st : State) (x y : Certificate) : Prop :=
  slot (dag st) (round x - 1) (origin y) = Some (digest y, y) ∧ digest y ∈ parents x ∧
  last_committed st !! origin y ≠ Some (round y).

Context (st : State) (ok : dag_ok (dag st)).

Lemma dstep_round x y : dstep st x y → round y = round x - 1 ∧ 0 ≤ round y < max_round.
Proof using ok.
  intros [Hs _]. destruct (dag_sound _ ok _ _ _ _ Hs) as (_ & Hr & _). pose proof (dag_bounds _ ok _ _ _ Hs). lia.
Qed.

Lemma dstep_unique x y x' y' : dstep st x y → dstep st x' y' → digest y = digest y' → y = y'.
Proof using ok.
  intros [Hs _] [Hs' _] Hd. destruct (dag_inj _ ok _ _ _ _ _ _ Hs Hs' Hd) as [Hr Hn]. rewrite Hr, Hn, Hs' in Hs. by injection Hs as _ ->.
Qed.

(** One parent is pushed, or there is nothing to push for it. *)
Lemma visit_spec x buffer already p :
  0 ≤ round x < max_round → p ∈ parents x →
  (∃ y, dstep st x y ∧ digest y = p ∧ (p ∉ already) ∧ visit st x (buffer, already) p = (y :: buffer, {[ p ]} ∪ already)) ∨
  (visit st x (buffer, already) p = (buffer, already) ∧ ∀ y, dstep st x y → digest y = p → p ∈ already).
Proof using ok.
  intros Hx Hp. unfold visit.
  assert (dag st !! uint64 (round x - 1) = dag st !! (round x - 1) ∨ round x = 0) as Hr.
  { destruct (decide (round x = 0)); [by right|left]. rewrite uint64_id; [done|]. unfold max_round in *. ulia. }
  destruct (dag st !! uint64 (round x - 1) ≫= _) as [[d y]|] eqn:Hf.
  - apply bind_Some in Hf as (auths & Ha & Hf). apply find_some in Hf as [Hin Hd%bool_decide_eq_true].
    simpl in Hd. apply list_elem_of_In in Hin.
    destruct (proj1 (slot_values (dag st) (uint64 (round x - 1)) (d, y))) as [n Hn]; [by exists auths|].
    pose proof (dag_bounds _ ok _ _ _ Hn) as Hb. destruct (dag_sound _ ok _ _ _ _ Hn) as (-> & Hry & <-).
    destruct Hr as [Hr|Hr]; [|exfalso; rewrite Hr in Hb; change (uint64 (0 - 1)) with 18446744073709551615 in Hb; unfold max_round in Hb; lia].
    assert (slot (dag st) (round x - 1) (origin y) = Some (digest y, y)) as Hs by (unfold slot; rewrite <-Hr; done).
    case_bool_decide as Ha'; simpl.
    { right. split; [done|]. intros; by subst p. }
    case_bool_decide as Hl; simpl.
    { right. split; [done|]. intros y' (Hs' & _ & Hl') Hd'. exfalso. rewrite <-Hd in Hd'.
      destruct (dag_inj _ ok _ _ _ _ _ _ Hs' Hs Hd') as [_ Ho]. rewrite Ho, Hs in Hs'. injection Hs' as _ Hy. by subst y'. }
    left. exists y. subst p. split_and!; [by split_and!|done|done|done].
  - right. split; [done|]. intros y (Hs & _ & _) Hd. exfalso. pose proof (dag_bounds _ ok _ _ _ Hs).
    destruct Hr as [Hr|Hr]; [|lia]. rewrite Hr in Hf. unfold slot in Hs. destruct (dag st !! (round x - 1)) as [auths|]; [|done].
    simpl in *. assert ((digest y, y) ∈ values auths) as Hv by (apply values_elem; by exists (origin y)).
    apply list_elem_of_In in Hv. pose proof (find_none _ _ Hf _ Hv) as Hn. simpl in Hn. by apply bool_decide_eq_false in Hn.
Qed.

(** All parents of a certificate. *)
Lemma visit_all x ps buffer already :
  0 ≤ round x < max_round → (∀ p, p ∈ ps → p ∈ parents x) →
  ∃ new, foldl (visit st x) (buffer, already) ps = (new ++ buffer, list_to_set (digest <$> new) ∪ already) ∧
    NoDup (digest <$> new) ∧ (∀ y, y ∈ new → dstep st x y ∧ digest y ∉ already) ∧
    ∀ y, dstep st x y → digest y ∈ ps → digest y ∈ (list_to_set (digest <$> new) ∪ already : gset bytes).
Proof using ok.
  intros Hx. revert buffer already. induction ps as [|p ps IH]; intros buffer already Hps.
  - exists []. simpl. split_and!; [f_equal; set_solver|constructor|set_solver|set_solver].
  - cbn [foldl]. destruct (visit_spec x buffer already p Hx ltac:(set_solver)) as [(y & Hy & Hd & Hna & ->)|[-> Hall]].
    + destruct (IH (y :: buffer) ({[ p ]} ∪ already)) as (new & -> & Hnd & Hnew & Hc); [set_solver|].
      exists (new ++ [y]). rewrite fmap_app, <-app_assoc. cbn [app fmap list_fmap]. split_and!.
      * f_equal. rewrite list_to_set_app_L. subst p. set_solver.
      * apply NoDup_app. split; [done|]. split; [|repeat constructor; set_solver]. intros d (y' & -> & Hy')%list_elem_of_fmap Hd'.
        destruct (Hnew y' Hy'). set_solver.
      * intros y' [Hy'| ->%list_elem_of_singleton]%elem_of_app; [|by subst p]. destruct (Hnew y' Hy'). set_solver.
      * intros y' Hy' [<-|Hin]%elem_of_cons; rewrite list_to_set_app_L; [set_solver|]. specialize (Hc y' Hy' Hin). subst p. set_solver.
    + destruct (IH buffer already) as (new & -> & Hnd & Hnew & Hc); [set_solver|]. exists new. split_and!; [done|done|done|].
      intros y' Hy' [<-|Hin]%elem_of_cons; [|by apply Hc]. specialize (Hall y' Hy' eq_refl). set_solver.
Qed.

(** The certificates that are not yet pushed bound the work that is left. *)
Definition all_digests (d : Dag) : list bytes := fst <$> (concat (values <$> values d) : list Slot).
Definition remaining (already : gset bytes) : nat := length (filter (λ x, x ∉ already) (all_digests (dag st))).

Lemma all_digests_length d : length (all_digests d) = dag_size d.
Proof using.
  unfold all_digests, dag_size. rewrite length_fmap. generalize (values d). intros l.
  induction l as [|auths l IH]; [done|]. cbn [fmap list_fmap concat sum_list_with]. rewrite length_app, IH. f_equal.
  unfold values. by rewrite length_fmap, length_map_to_list.
Qed.

Lemma slot_digest r n x c : slot (dag st) r n = Some (x, c) → x ∈ all_digests (dag st).
Proof using.
  intros Hs. unfold all_digests. apply list_elem_of_fmap. exists (x, c). split; [done|].
  apply list_elem_of_In, in_concat. unfold slot in Hs. apply bind_Some in Hs as (auths & Ha & Hn).
  exists (values auths). rewrite <-!list_elem_of_In. split; [|apply values_elem; by exists n].
  apply list_elem_of_fmap. exists auths. split; [done|]. apply values_elem. by exists r.
Qed.

Lemma remaining_le A A' : A ⊆ A' → (remaining A' ≤ remaining A)%nat.
Proof using ok.
  intros Hs. unfold remaining. induction (all_digests (dag st)) as [|x D IH]; [done|]. rewrite !filter_cons.
  destruct (decide (x ∉ A')); destruct (decide (x ∉ A)); simpl; [lia|set_solver|lia|lia].
Qed.

Lemma remaining_add A x : x ∈ all_digests (dag st) → x ∉ A → (remaining ({[ x ]} ∪ A) < remaining A)%nat.
Proof using ok.
  intros Hin Hx. unfold remaining. induction (all_digests (dag st)) as [|y D IH]; [by apply not_elem_of_nil in Hin|].
  assert (length (filter (λ z, z ∉ ({[ x ]} ∪ A : gset bytes)) D) ≤ length (filter (λ z, z ∉ A) D))%nat as Hle.
  { clear. induction D as [|z D IH]; [done|]. rewrite !filter_cons.
    destruct (decide (z ∉ ({[ x ]} ∪ A : gset bytes))); destruct (decide (z ∉ A)); simpl; [lia|set_solver|lia|lia]. }
  rewrite !filter_cons. destruct (decide (y = x)) as [->|Hne].
  - rewrite decide_False by set_solver. rewrite decide_True by done. simpl. lia.
  - apply elem_of_cons in Hin as [?|Hin]; [congruence|]. specialize (IH Hin).
    destruct (decide (y ∉ ({[ x ]} ∪ A : gset bytes))); destruct (decide (y ∉ A)); simpl; [lia|set_solver|lia|lia].
Qed.

Lemma remaining_new new A :
  NoDup (digest <$> new) → (∀ y, y ∈ new → digest y ∈ all_digests (dag st) ∧ digest y ∉ A) →
  (remaining (list_to_set (digest <$> new) ∪ A) + length new ≤ remaining A)%nat.
Proof using ok.
  induction new as [|y new IH]; intros Hnd Hnew.
  - simpl. rewrite Nat.add_0_r. apply remaining_le. set_solver.
  - cbn [fmap list_fmap] in *. apply NoDup_cons in Hnd as [Hy Hnd]. destruct (Hnew y) as [Hin Hna]; [by left|].
    specialize (IH Hnd ltac:(intros; apply Hnew; by right)).
    pose proof (remaining_add (list_to_set (digest <$> new) ∪ A) (digest y) Hin ltac:(set_solver)).
    rewrite list_to_set_cons, <-union_assoc_L. simpl. lia.
Qed.
End search.
