(* ===== verification/TuskOrder.v ===== *)
(** * Tusk: what the search returns

    [order_dag] never runs out of fuel and returns every certificate that the
    search can reach, once, by ascending round. *)
From S2P Require Import Prelude.
From S2P Require Import Narwhal.
From S2P Require Import Tusk.
From S2P Require Import TuskState.

Section order.
Context `{DagCrypto} (st : State) (ok : dag_ok (dag st)).
Context (l : Certificate) (l_round : 0 ≤ round l < max_round).
Hypothesis l_digest : ∀ r n y, slot (dag st) r n = Some (digest y, y) → digest y = digest l → round y = round l.

Lemma reach_round x y : rtc (dstep st) x y → x = y ∨ 0 ≤ round y < round x.
Proof using ok.
  induction 1 as [x|x y z Hxy _ [->|IH]]; [by left|right|right]; destruct (dstep_round _ ok _ _ Hxy); lia.
Qed.

Lemma reach_bounds y : rtc (dstep st) l y → 0 ≤ round y < max_round.
Proof using ok l_round. intros [<-|?]%reach_round; lia. Qed.

(** The state of the search: [all] is what was ordered and what is pushed. *)
Record searching (buffer : list Certificate) (already : gset bytes) (ordered : list Certificate) : Prop := {
  se_nodup : NoDup (digest <$> ordered ++ buffer);
  se_start : l ∈ ordered ++ buffer;
  se_reach : ∀ c, c ∈ ordered ++ buffer → rtc (dstep st) l c ∧ (c = l ∨ digest c ∈ already);
  se_already : ∀ d, d ∈ already → ∃ c x, c ∈ ordered ++ buffer ∧ digest c = d ∧ dstep st x c;
  se_closed : ∀ x y, x ∈ ordered → dstep st x y → digest y ∈ already;
}.

Lemma searching_start : searching [l] ∅ [].
Proof using.
  split; simpl; [apply NoDup_singleton|by left| | |].
  - intros c ->%list_elem_of_singleton. split; [done|by left].
  - intros d Hd. by apply elem_of_empty in Hd.
  - intros x y Hx. by apply not_elem_of_nil in Hx.
Qed.

(** The digest of a parent is not the one of the start. *)
Lemma fresh_digest x y c already ordered buffer :
  searching (x :: buffer) already ordered → dstep st x y → digest y ∉ already →
  c ∈ ordered ++ x :: buffer → digest y ≠ digest c.
Proof using ok l_round l_digest.
  intros Hse Hxy Hna Hc Hd. destruct (se_reach _ _ _ Hse c Hc) as [Hr [->|Hin]]; [|by rewrite Hd in Hna].
  destruct (se_reach _ _ _ Hse x) as [Hx _]; [apply elem_of_app; right; by left|].
  destruct (dstep_round _ ok _ _ Hxy) as [Hry _]. destruct Hxy as [Hs _].
  pose proof (l_digest _ _ _ Hs Hd). destruct (reach_round _ _ Hx) as [<-|?]; lia.
Qed.

Lemma searching_step x buffer already ordered new :
  searching (x :: buffer) already ordered →
  NoDup (digest <$> new) → (∀ y, y ∈ new → dstep st x y ∧ digest y ∉ already) →
  (∀ y, dstep st x y → digest y ∈ parents x → digest y ∈ (list_to_set (digest <$> new) ∪ already : gset bytes)) →
  searching (new ++ buffer) (list_to_set (digest <$> new) ∪ already) (ordered ++ [x]).
Proof using ok l_round l_digest.
  intros Hse Hnd Hnew Hall. pose proof (fresh_digest x) as Hfresh.
  assert (∀ c, c ∈ (ordered ++ [x]) ++ new ++ buffer ↔ c ∈ ordered ++ x :: buffer ∨ c ∈ new) as Hel.
  { intros c. rewrite !elem_of_app, !elem_of_cons, elem_of_nil. tauto. }
  split.
  - assert (digest <$> (ordered ++ [x]) ++ new ++ buffer ≡ₚ (digest <$> new) ++ (digest <$> ordered ++ x :: buffer)) as ->.
    { rewrite <-fmap_app. f_equiv. rewrite <-!app_assoc. cbn [app]. rewrite (Permutation_app_swap_app new ordered).
      apply Permutation_app_head. by rewrite Permutation_middle. }
    apply NoDup_app. split; [done|]. split; [|apply (se_nodup _ _ _ Hse)].
    intros d (y & -> & Hy)%list_elem_of_fmap (c & Hd & Hc)%list_elem_of_fmap. destruct (Hnew y Hy) as [Hxy Hna].
    by apply (Hfresh y c already ordered buffer).
  - apply Hel. left. apply (se_start _ _ _ Hse).
  - intros c [Hc|Hc]%Hel.
    + destruct (se_reach _ _ _ Hse c Hc) as [Hr [->|Hin]]; (split; [done|]); [by left|right; apply elem_of_union; by right].
    + destruct (Hnew c Hc) as [Hxc _]. split.
      * destruct (se_reach _ _ _ Hse x) as [Hx _]; [apply elem_of_app; right; by left|]. by eapply rtc_r.
      * right. apply elem_of_union. left. apply elem_of_list_to_set, list_elem_of_fmap. by exists c.
  - intros d [Hd|Hd]%elem_of_union.
    + apply elem_of_list_to_set, list_elem_of_fmap in Hd as (y & -> & Hy). exists y, x. split; [apply Hel; by right|].
      split; [done|]. by apply Hnew.
    + destruct (se_already _ _ _ Hse d Hd) as (c & z & Hc & ? & ?). exists c, z. split; [apply Hel; by left|done].
  - intros z y [Hz|Hz]%elem_of_app Hzy.
    + apply elem_of_union. right. by apply (se_closed _ _ _ Hse z).
    + apply list_elem_of_singleton in Hz as ->. apply Hall; [done|]. by destruct Hzy as (_ & ? & _).
Qed.

Lemma dfs_spec fuel buffer already ordered :
  searching buffer already ordered → (length buffer + remaining st already ≤ fuel)%nat →
  ∃ out already', dfs fuel st buffer already ordered = Ret out ∧ searching [] already' out.
Proof using ok l_round l_digest.
  revert buffer already ordered. induction fuel as [|fuel IH]; intros [|x buffer] already ordered Hse Hf;
    try (by exists ordered, already); [simpl in Hf; lia|].
  assert (rtc (dstep st) l x) as Hx by (apply (se_reach _ _ _ Hse); apply elem_of_app; right; by left).
  destruct (visit_all st ok x (parents x) buffer already (reach_bounds x Hx) ltac:(done)) as (new & Hv & Hnd & Hnew & Hall).
  cbn [dfs]. rewrite Hv. apply IH; [by apply searching_step|].
  pose proof (remaining_new st ok new already Hnd) as Hrem. rewrite length_app. simpl in Hf.
  assert (remaining st (list_to_set (digest <$> new) ∪ already) + length new ≤ remaining st already)%nat; [|lia].
  apply Hrem. intros y Hy. destruct (Hnew y Hy) as [(Hs & _) Hna]. split; [|done]. by eapply slot_digest.
Qed.

(** ** The order *)

Lemma search_spec :
  ∃ out, dfs (S (dag_size (dag st))) st [l] ∅ [] = Ret out ∧ NoDup (digest <$> out) ∧
    ∀ c, c ∈ out ↔ rtc (dstep st) l c.
Proof using ok l_round l_digest.
  destruct (dfs_spec (S (dag_size (dag st))) [l] ∅ [] searching_start) as (out & already & Hout & Hse).
  { simpl. rewrite <-all_digests_length. unfold remaining. apply le_n_S, length_filter. }
  exists out. split; [done|]. pose proof (se_nodup _ _ _ Hse) as Hnd. rewrite app_nil_r in Hnd. split; [done|].
  intros c. split; [intros Hc; apply (se_reach _ _ _ Hse); by rewrite app_nil_r|].
  intros Hr. assert (l ∈ out) as Hl by (pose proof (se_start _ _ _ Hse) as Hs; by rewrite app_nil_r in Hs).
  assert (∀ x, rtc (dstep st) x c → x ∈ out → c ∈ out) as Hgo; [|by apply (Hgo l)].
  clear Hr Hl. induction 1 as [x|x y z Hxy _ IH]; intros Hx; [done|]. apply IH.
  destruct (se_already _ _ _ Hse (digest y)) as (c & w & Hc & Hd & Hw); [by apply (se_closed _ _ _ Hse x)|].
  rewrite app_nil_r in Hc. by rewrite (dstep_unique _ ok _ _ _ _ Hxy Hw (eq_sym Hd)).
Qed.

Definition by_round (a b : Certificate) : bool := round a <? round b.

Lemma sort_by_round (xs : list Certificate) : StronglySorted (λ a b, round a ≤ round b) (sort_by by_round xs).
Proof using.
  eapply StronglySorted_weaken; [|apply sort_by_sorted].
  - intros a b Hab. unfold not_greater, by_round in Hab. lia.
  - unfold by_round. intros; lia.
  - unfold not_greater, by_round. intros; lia.
Qed.

Lemma order_dag_spec gc_depth :
  ∃ out, order_dag gc_depth l st = Ret out ∧ NoDup (digest <$> out) ∧ StronglySorted (λ a b, round a ≤ round b) out ∧
    ∀ c, c ∈ out ↔ rtc (dstep st) l c ∧ last_committed_round st ≤ uint64 (round c + gc_depth).
Proof using ok l_round l_digest.
  destruct search_spec as (out & Hout & Hnd & Hin). unfold order_dag. rewrite Hout. cbn [mbind outcome_bind].
  eexists. split; [reflexivity|]. split_and!.
  - rewrite sort_by_perm. eapply sublist_NoDup; [exact Hnd|]. apply fmap_sublist, sublist_filter.
  - apply sort_by_round.
  - intros c. rewrite elem_of_sort_by, list_elem_of_filter, Hin. tauto.
Qed.
End order.
