(* ===== verification/TuskSafety.v ===== *)
(** * Tusk: the invariant of a node and the path between leaders

    The certificates of the network form a DAG: one per round and author, each
    with a quorum of parents in the round before.  A node receives them in an
    order that respects the parents.  Its own DAG then holds everything it
    received at or above the last committed round, so that what it computes
    there ([leader], [linked], [order_leaders]) is a fact of the network and
    not of the node. *)
From S2P Require Import Prelude.
From S2P Require Import Narwhal.
From S2P Require Import NarwhalQuorum.
From S2P Require Import Tusk.
From S2P Require Import TuskState.
From S2P Require Import TuskOrder.

Definition key (c : Certificate) : Z * bytes := (round c, origin c).

(** ** The certificates of the network *)

Record certified `{DagCrypto} (committee : Committee) (U : Certificate → Prop) : Prop := {
  ce_round : ∀ c, U c → 0 ≤ round c < max_round;
  ce_unique : ∀ c c', U c → U c' → key c = key c' → h_id (c_header c) = h_id (c_header c') ∧ parents c = parents c';
  ce_digest : ∀ c c', U c → U c' → digest c = digest c' → key c = key c';
  ce_parents : ∀ c d, U c → d ∈ parents c → ∃ p, U p ∧ digest p = d ∧ round p + 1 = round c;
  ce_quorum : ∀ c, U c → 0 < round c → ∃ ps, NoDup (origin <$> ps) ∧ (∀ p, p ∈ ps → U p ∧ digest p ∈ parents c) ∧
    quorum_threshold committee ≤ zsum (stake committee) (origin <$> ps);
  ce_genesis : ∀ g, g ∈ genesis committee → U g;
}.

(** Certificates received, oldest first: each after its parents. *)
Inductive causal `{DagCrypto} (committee : Committee) (U : Certificate → Prop) : list Certificate → Prop :=
| causal_nil : causal committee U []
| causal_snoc cs c : causal committee U cs → U c →
    (∀ d, d ∈ parents c → ∃ p, p ∈ genesis committee ++ cs ∧ digest p = d) → causal committee U (cs ++ [c]).

Section network.
Context `{DagCrypto} (committee : Committee) (U : Certificate → Prop).
Context (com : committee_ok committee) (cert : certified committee U).

Lemma digest_key c c' : U c → U c' → key c = key c' → digest c = digest c'.
Proof using cert.
  intros Hc Hc' Hk. destruct (ce_unique _ _ cert c c' Hc Hc' Hk) as [Hid _]. injection Hk as Hr Ho.
  unfold digest. by rewrite Hid, Hr, Ho.
Qed.

Lemma cert_eqb_key c c' : U c → U c' → cert_eqb c c' = true ↔ key c = key c'.
Proof using cert.
  intros Hc Hc'. unfold cert_eqb. rewrite !andb_true_iff, !bool_decide_eq_true, Z.eqb_eq. split.
  - intros [[_ ?] ?]. unfold key. congruence.
  - intros Hk. destruct (ce_unique _ _ cert c c' Hc Hc' Hk). by injection Hk as ? ?.
Qed.

(** An edge of the network's DAG, between places. *)
Definition kedge (k k' : Z * bytes) : Prop :=
  ∃ c c', U c ∧ U c' ∧ key c = k ∧ key c' = k' ∧ digest c' ∈ parents c.

Lemma kedge_iff c c' : U c → U c' → kedge (key c) (key c') ↔ digest c' ∈ parents c.
Proof using cert.
  intros Hc Hc'. split; [|by exists c, c'].
  intros (x & x' & Hx & Hx' & Hk & Hk' & Hd). destruct (ce_unique _ _ cert x c Hx Hc Hk) as [_ Hp].
  by rewrite <-Hp, <-(digest_key x' c' Hx' Hc' Hk').
Qed.

Lemma kedge_round k k' : kedge k k' → k'.1 + 1 = k.1.
Proof using cert.
  intros (c & c' & Hc & Hc' & <- & <- & Hd). destruct (ce_parents _ _ cert c _ Hc Hd) as (p & Hp & Hdp & Hr).
  pose proof (ce_digest _ _ cert p c' Hp Hc' Hdp) as Hk. injection Hk as Hrp _. simpl. lia.
Qed.

Lemma path_round k k' : rtc kedge k k' → k = k' ∨ k'.1 < k.1.
Proof using cert.
  induction 1 as [k|k k1 k2 He _ [->|IH]]; [by left|right|right]; apply kedge_round in He; lia.
Qed.

(** The last step of a path. *)
Lemma path_last k k' : rtc kedge k k' → k'.1 < k.1 → ∃ m, rtc kedge k m ∧ kedge m k'.
Proof using cert.
  intros Hp Hr. apply rtc_ind_r with (P := λ k', k'.1 < k.1 → ∃ m, rtc kedge k m ∧ kedge m k') in Hp; [by apply Hp|lia|].
  intros m k2 Hm He _ _. by exists m.
Qed.

Lemma parent_exists c : U c → 0 < round c → ∃ p, U p ∧ round p + 1 = round c ∧ kedge (key c) (key p).
Proof using com cert.
  intros Hc Hr. destruct (ce_quorum _ _ cert c Hc Hr) as (ps & _ & Hps & Hq).
  destruct ps as [|p ps].
  { rewrite fmap_nil, zsum_nil in Hq. pose proof (validity_pos _ com). pose proof (validity_le _ com). lia. }
  destruct (Hps p) as [Hp Hd]; [by left|]. exists p. assert (kedge (key c) (key p)) as He by (by apply kedge_iff).
  pose proof (kedge_round _ _ He). simpl in *. split_and!; [done|lia|done].
Qed.

(** Every certificate has an ancestor in every earlier round. *)
Lemma ancestor_exists c r : U c → 0 ≤ r ≤ round c → ∃ p, U p ∧ round p = r ∧ rtc kedge (key c) (key p).
Proof using com cert.
  intros Hc Hr. assert (∃ n, Z.of_nat n = round c - r) as [n Hn] by (exists (Z.to_nat (round c - r)); lia).
  revert c Hc Hr Hn. induction n as [|n IH]; intros c Hc Hr Hn.
  - exists c. split_and!; [done|lia|done].
  - destruct (parent_exists c Hc ltac:(lia)) as (p & Hp & Hrp & He).
    destruct (IH p Hp ltac:(lia) ltac:(lia)) as (q & Hq & Hrq & Hpath). exists q. split_and!; [done|done|by eapply rtc_l].
Qed.

(** ** Support

    A leader with the support of a valid set in the next round is an
    ancestor of everything from two rounds later on. *)
Definition supported (k : Z * bytes) : Prop :=
  ∃ ss, NoDup (origin <$> ss) ∧ (∀ s, s ∈ ss → U s ∧ kedge (key s) k) ∧
    validity_threshold committee ≤ zsum (stake committee) (origin <$> ss).

Lemma supported_linked k c : supported k → U c → k.1 + 2 ≤ round c → rtc kedge (key c) k.
Proof using com cert.
  intros (ss & Hnd & Hss & Hv) Hc Hr.
  assert (∃ n, Z.of_nat n = round c - (k.1 + 2)) as [n Hn] by (exists (Z.to_nat (round c - (k.1 + 2))); lia).
  assert (0 ≤ k.1) as Hk0.
  { destruct ss as [|s ss]; [rewrite fmap_nil, zsum_nil in Hv; pose proof (validity_pos _ com); lia|]. destruct (Hss s) as [_ He]; [by left|].
    destruct He as (a & b & _ & Hb & _ & <- & _). pose proof (ce_round _ _ cert b Hb). simpl. lia. }
  revert c Hc Hr Hn. induction n as [|n IH]; intros c Hc Hr Hn.
  - destruct (ce_quorum _ _ cert c Hc ltac:(lia)) as (ps & Hndp & Hps & Hq).
    destruct (quorum_meets _ com _ _ Hndp Hnd Hq Hv) as (x & (p & -> & Hp)%list_elem_of_fmap & (s & Ho & Hs)%list_elem_of_fmap).
    destruct (Hps p Hp) as [HUp Hd]. destruct (Hss s Hs) as [HUs He].
    assert (kedge (key c) (key p)) as Hcp by (by apply kedge_iff).
    assert (key p = key s) as Hps'.
    { unfold key. rewrite Ho. f_equal. pose proof (kedge_round _ _ Hcp). pose proof (kedge_round _ _ He). simpl in *. lia. }
    eapply rtc_l; [exact Hcp|]. rewrite Hps'. by apply rtc_once.
  - destruct (parent_exists c Hc ltac:(lia)) as (p & Hp & Hrp & He). eapply rtc_l; [exact He|]. apply IH; [done|lia|lia].
Qed.

(** ** What a node has received *)

Definition closed (seen : list Certificate) : Prop :=
  (∀ c, c ∈ seen → U c) ∧ ∀ c d, c ∈ seen → d ∈ parents c → ∃ p, p ∈ seen ∧ digest p = d.

Lemma closed_edge seen c k : closed seen → c ∈ seen → kedge (key c) k → ∃ p, p ∈ seen ∧ key p = k.
Proof using cert.
  intros [HU Hcl] Hc (x & y & Hx & Hy & Hk & <- & Hd).
  destruct (ce_unique _ _ cert x c Hx (HU c Hc) Hk) as [_ Hp]. rewrite Hp in Hd.
  destruct (Hcl c _ Hc Hd) as (p & Hps & Hdp). exists p. split; [done|]. by apply (ce_digest _ _ cert); [apply HU| |].
Qed.

Lemma closed_path seen c k : closed seen → c ∈ seen → rtc kedge (key c) k → ∃ p, p ∈ seen ∧ key p = k.
Proof using cert.
  intros Hcl Hc Hp. remember (key c) as kc eqn:Hkc. revert c Hc Hkc.
  induction Hp as [|k1 k2 k3 He _ IH]; intros c Hc ->; [by exists c|].
  destruct (closed_edge seen c k2 Hcl Hc He) as (p & Hps & <-). by apply (IH p).
Qed.

Lemma genesis_parents g : g ∈ genesis committee → parents g = [].
Proof using. unfold genesis. by intros (p & -> & _)%list_elem_of_fmap. Qed.

Lemma causal_closed cs : causal committee U cs → closed (genesis committee ++ cs).
Proof using cert.
  induction 1 as [|cs c _ [HU Hcl] Hc Hd].
  - rewrite app_nil_r. split; [apply (ce_genesis _ _ cert)|]. intros c d Hc Hd. rewrite genesis_parents in Hd by done.
    by apply not_elem_of_nil in Hd.
  - rewrite app_assoc. split.
    + intros x [Hx| ->%list_elem_of_singleton]%elem_of_app; [by apply HU|done].
    + intros x d [Hx| ->%list_elem_of_singleton]%elem_of_app Hxd.
      * destruct (Hcl x d Hx Hxd) as (p & Hp & <-). exists p. split; [|done]. apply elem_of_app. by left.
      * destruct (Hd d Hxd) as (p & Hp & <-). exists p. split; [|done]. apply elem_of_app. by left.
Qed.

(** ** The invariant *)

Record node_ok (seen : list Certificate) (st : State) : Prop := {
  no_closed : closed seen;
  no_slot : ∀ r n x c, slot (dag st) r n = Some (x, c) → c ∈ seen ∧ x = digest c ∧ key c = (r, n);
  no_full : ∀ c, c ∈ seen → last_committed_round st ≤ round c → ∃ c', slot (dag st) (round c) (origin c) = Some (digest c', c');
  no_rounds : rounds_ok st;
  no_bound : last_committed_round st < max_round;
}.

Lemma no_lcr seen st : node_ok seen st → 0 ≤ last_committed_round st < max_round.
Proof using. intros Hok. split; [|apply (no_bound _ _ Hok)]. rewrite (no_rounds _ _ Hok). apply max_values_nonneg. Qed.

Lemma node_dag_ok seen st : node_ok seen st → dag_ok (dag st).
Proof using cert.
  intros Hok. destruct (no_closed _ _ Hok) as [HU _]. split.
  - intros r n x c Hs. destruct (no_slot _ _ Hok _ _ _ _ Hs) as (_ & -> & Hk). by injection Hk.
  - intros r n [x c] Hs. destruct (no_slot _ _ Hok _ _ _ _ Hs) as (Hc & _ & Hk).
    pose proof (ce_round _ _ cert c (HU c Hc)). by injection Hk as <- _.
  - intros r n c r' n' c' Hs Hs' Hd. destruct (no_slot _ _ Hok _ _ _ _ Hs) as (Hc & _ & Hk).
    destruct (no_slot _ _ Hok _ _ _ _ Hs') as (Hc' & _ & Hk').
    pose proof (ce_digest _ _ cert c c' (HU c Hc) (HU c' Hc') Hd) as He. rewrite Hk, Hk' in He. by injection He.
Qed.

(** A place that the node has seen is filled. *)
Lemma seen_slot seen st c :
  node_ok seen st → c ∈ seen → last_committed_round st ≤ round c →
  ∃ c', slot (dag st) (round c) (origin c) = Some (digest c, c') ∧ c' ∈ seen ∧ key c' = key c.
Proof using cert.
  intros Hok Hc Hr. destruct (no_full _ _ Hok c Hc Hr) as (c' & Hs). exists c'.
  destruct (no_slot _ _ Hok _ _ _ _ Hs) as (Hc' & _ & Hk). destruct (no_closed _ _ Hok) as [HU _].
  rewrite Hs. split_and!; [|done|done]. do 2 f_equal. apply digest_key; [by apply HU..|done].
Qed.

Lemma node_init : committee_ok committee → node_ok (genesis committee) (State_new (genesis committee)).
Proof using cert.
  intros Hcom. set (g := genesis committee). unfold State_new.
  set (gm := list_to_map (reverse ((λ x, (origin x, (digest x, x))) <$> g)) : gmap bytes Slot).
  assert (NoDup (reverse ((λ x, (origin x, (digest x, x))) <$> g)).*1) as Hnd.
  { rewrite fmap_reverse, <-list_fmap_compose, reverse_Permutation.
    replace (_ <$> g) with ((authorities committee).*1); [apply Hcom|]. unfold g, genesis. by rewrite <-list_fmap_compose. }
  assert (∀ n v, gm !! n = Some v ↔ ∃ c, c ∈ g ∧ n = origin c ∧ v = (digest c, c)) as Hgm.
  { intros n v. unfold gm. rewrite <-elem_of_list_to_map by done. rewrite elem_of_reverse, list_elem_of_fmap.
    split; [intros (c & [= -> ->] & Hc); by exists c|intros (c & Hc & -> & ->); by exists c]. }
  assert (∀ c, c ∈ g → round c = 0) as Hr0 by (unfold g, genesis; by intros c (p & -> & _)%list_elem_of_fmap).
  split; cbn [last_committed_round last_committed dag].
  - unfold g. rewrite <-(app_nil_r (genesis committee)). apply causal_closed. constructor.
  - intros r n x c Hs. unfold slot in Hs. apply bind_Some in Hs as (auths & [<- <-]%lookup_singleton_Some & Hn).
    apply Hgm in Hn as (c' & Hc & -> & [= -> ->]). split_and!; [done|done|]. unfold key. by rewrite Hr0.
  - intros c Hc _. exists c. unfold slot. rewrite Hr0, lookup_singleton_eq by done. cbn. apply Hgm. by exists c.
  - unfold rounds_ok. cbn. symmetry. apply Z.le_antisymm; [|apply max_values_nonneg]. apply max_values_le. split; [done|].
    apply Forall_forall. intros r [n Hn]%values_elem. rewrite lookup_fmap in Hn. apply fmap_Some in Hn as (v & Hv & ->).
    apply Hgm in Hv as (c & Hc & _ & ->). simpl. by rewrite Hr0.
  - done.
Qed.
End network.
