(* ===== verification/TuskLeaders.v ===== *)
(** * Tusk: the leaders that a node commits

    Every step of a node keeps the invariant of [TuskSafety], and commits
    leaders by a walk over the network's DAG that does not depend on the
    node. *)
From S2P Require Import Prelude.
From S2P Require Import Narwhal.
From S2P Require Import NarwhalQuorum.
From S2P Require Import Tusk.
From S2P Require Import TuskState.
From S2P Require Import TuskOrder.
From S2P Require Import TuskSafety.

Section leaders.
Context `{DagCrypto} (committee : Committee) (gc_depth : Z) (U : Certificate → Prop).
Context (com : committee_ok committee) (cert : certified committee U) (gc_ok : 0 ≤ gc_depth < max_round).

Abbreviation node_ok := (TuskSafety.node_ok U).
Abbreviation kedge := (TuskSafety.kedge U).

(** ** Steps of the state *)

Lemma insert_node seen st c :
  node_ok seen st → closed U (seen ++ [c]) → node_ok (seen ++ [c]) (insert_cert st c).
Proof using com cert gc_ok.
  intros Hok Hcl. split; try apply Hok; [done| |].
  - intros r n x y Hs. apply insert_cert_slot in Hs as [(-> & -> & [= -> ->])|[_ Hs]].
    + split_and!; [|done|done]. apply elem_of_app. right. by left.
    + destruct (no_slot _ _ _ Hok _ _ _ _ Hs) as (? & ? & ?). split_and!; [|done|done]. apply elem_of_app. by left.
  - intros y Hy Hr. cbn [insert_cert last_committed_round] in Hr.
    destruct (decide (round y = round c ∧ origin y = origin c)) as [[Hry Hoy]|Hne].
    + exists c. apply insert_cert_slot. left. done.
    + apply elem_of_app in Hy as [Hy|Hy]; [|apply list_elem_of_singleton in Hy as ->; tauto].
      destruct (no_full _ _ _ Hok y Hy Hr) as (y' & Hs). exists y'. apply insert_cert_slot. right. split; [|done].
      destruct (decide (round y = round c)); [right|by left]. intros ?. by apply Hne.
Qed.

Lemma update_node seen st c :
  node_ok seen st → c ∈ seen →
  node_ok seen (update st c gc_depth) ∧
  last_committed_round (update st c gc_depth) = Z.max (last_committed_round st) (round c).
Proof using com cert gc_ok.
  intros Hok Hc. destruct (no_closed _ _ _ Hok) as [HU _]. pose proof (ce_round _ _ cert c (HU c Hc)) as Hrc.
  pose proof (no_lcr _ _ _ Hok) as Hl. pose proof (update_round st c gc_depth (no_rounds _ _ _ Hok) ltac:(lia)) as Hmax.
  split; [|done]. split; [apply Hok| | |apply update_rounds_ok|lia].
  - intros r n x y Hs. apply update_slot in Hs as [Hs _]. by apply (no_slot _ _ _ Hok).
  - intros y Hy Hr. destruct (no_full _ _ _ Hok y Hy ltac:(lia)) as (y' & Hs). exists y'.
    apply update_slot. pose proof (ce_round _ _ cert y (HU y Hy)). split_and!; [done| |].
    + intros lr Hlr. rewrite <-(update_committed _ _ gc_depth) in Hlr. pose proof (rounds_ok_le _ _ _ (update_rounds_ok st c gc_depth) Hlr). lia.
    + rewrite uint64_id; [lia|]. unfold max_round in *. ulia.
Qed.

Lemma foldr_max_in (zs : list Z) a z : z ∈ zs → z ≤ foldr Z.max a zs.
Proof using. clear. induction 1; simpl; lia. Qed.

(** Updates for the certificates of a sub-DAG. *)
Lemma updates_node seen st xs :
  node_ok seen st → (∀ x, x ∈ xs → x ∈ seen) →
  node_ok seen (foldl (λ st x, update st x gc_depth) st xs) ∧
  last_committed_round (foldl (λ st x, update st x gc_depth) st xs) = foldr Z.max (last_committed_round st) (round <$> xs).
Proof using com cert gc_ok.
  revert st. induction xs as [|x xs IH]; intros st Hok Hxs; [done|]. cbn [foldl].
  destruct (update_node seen st x Hok (Hxs x ltac:(by left))) as [Hok' Hr].
  destruct (IH _ Hok' ltac:(intros; apply Hxs; by right)) as [Hok'' Hr'']. split; [done|]. rewrite Hr'', Hr. cbn [fmap list_fmap foldr].
  generalize (round <$> xs) (last_committed_round st) (round x). clear. intros zs a b. induction zs as [|z zs IH]; simpl; lia.
Qed.

(** The search stays within what the node has seen. *)
Lemma reach_seen seen st l y : node_ok seen st → l ∈ seen → rtc (dstep st) l y → y ∈ seen.
Proof using com cert gc_ok.
  intros Hok. induction 2 as [|x y z Hxy _ IH]; [done|]. apply IH. destruct Hxy as [Hs _]. by apply (no_slot _ _ _ Hok) in Hs as [? _].
Qed.

(** Committing a leader above the last committed round. *)
Lemma commit_leader_spec seen st l sequence :
  node_ok seen st → l ∈ seen → last_committed_round st < round l →
  ∃ xs st', commit_leader gc_depth l (st, sequence) = Ret (st', sequence ++ xs) ∧ node_ok seen st' ∧
    last_committed_round st' = round l ∧ l ∈ xs ∧ order_dag gc_depth l st = Ret xs.
Proof using com cert gc_ok.
  intros Hok Hl Hr. destruct (no_closed _ _ _ Hok) as [HU _]. pose proof (ce_round _ _ cert l (HU l Hl)) as Hrl.
  pose proof (no_lcr _ _ _ Hok) as Hlcr.
  pose proof (node_dag_ok committee U cert _ _ Hok) as Hdag.
  destruct (order_dag_spec st Hdag l Hrl) with (gc_depth := gc_depth) as (xs & Hxs & _ & _ & Hin).
  { intros r n y Hs Hd. destruct (no_slot _ _ _ Hok _ _ _ _ Hs) as (Hy & _ & _).
    pose proof (ce_digest _ _ cert y l (HU y Hy) (HU l Hl) Hd) as Hk. by injection Hk. }
  assert (∀ x, x ∈ xs → x ∈ seen) as Hsub.
  { intros x Hx. apply Hin in Hx as [Hx _]. by eapply reach_seen. }
  destruct (updates_node seen st xs Hok Hsub) as [Hok' Hlr].
  assert (l ∈ xs) as Hlx. { apply Hin. split; [done|]. rewrite uint64_id; [lia|]. unfold max_round in *. ulia. }
  exists xs, (foldl (λ st x, update st x gc_depth) st xs). unfold commit_leader. rewrite Hxs. cbn [mbind outcome_bind].
  split_and!; [done|done| |done|done]. rewrite Hlr. apply Z.le_antisymm.
  - assert (∀ x, x ∈ xs → round x ≤ round l) as Hle.
    { intros x Hx. apply Hin in Hx as [Hx _]. destruct (reach_round st Hdag _ _ Hx) as [->|?]; lia. }
    clear -Hle Hr. induction xs as [|x xs IH]; simpl; [lia|]. apply Z.max_lub; [apply Hle; by left|]. apply IH. intros; apply Hle; by right.
  - apply foldr_max_in, list_elem_of_fmap. by exists l.
Qed.

(** ** Leaders *)

Definition leader_name (r : Z) : bytes :=
  default [] (sort_by bytes_ltb (authorities committee).*1 !! Z.to_nat (r mod committee_size committee)).
Definition leader_key (r : Z) : Z * bytes := (r, leader_name r).

Lemma committee_nonempty : 0 < committee_size committee.
Proof using com cert gc_ok.
  unfold committee_size. destruct (authorities committee) eqn:E; [|rewrite len_cons; pose proof (len_nonneg l); lia].
  destruct (co_total _ com) as [Ht _]. unfold total_stake in Ht. rewrite E, zsum_nil in Ht. lia.
Qed.

Lemma leader_slot r d : leader committee r d = Ret (slot d r (leader_name r)).
Proof using com cert gc_ok.
  unfold leader, leader_name. pose proof committee_nonempty as Hn. destruct (Z.eqb_spec (committee_size committee) 0); [lia|].
  pose proof (Z.mod_pos_bound r _ Hn) as Hm.
  destruct (slice_get_in_range (sort_by bytes_ltb (authorities committee).*1) (r mod committee_size committee)) as (x & -> & Hx).
  { unfold len. rewrite sort_by_perm, length_fmap. unfold committee_size, len in *. lia. }
  cbn [mbind outcome_bind]. by rewrite Hx.
Qed.

Lemma leader_spec seen st r :
  node_ok seen st → last_committed_round st ≤ r →
  ∃ o, leader committee r (dag st) = Ret o ∧
    match o with
    | Some (x, c) => c ∈ seen ∧ x = digest c ∧ key c = leader_key r
    | None => ∀ c, c ∈ seen → key c ≠ leader_key r
    end.
Proof using com cert gc_ok.
  intros Hok Hr. rewrite leader_slot. eexists. split; [done|]. destruct (slot _ _ _) as [[x c]|] eqn:Hs.
  - by apply (no_slot _ _ _ Hok) in Hs.
  - intros c Hc Hk. injection Hk as Hrc Hoc. destruct (no_full _ _ _ Hok c Hc ltac:(lia)) as (c' & Hs'). rewrite Hrc, Hoc in Hs'. congruence.
Qed.

(** ** Paths *)

Lemma rounds_down_empty lo hi : hi ≤ lo → rounds_down lo hi = [].
Proof using. intros. unfold rounds_down. by rewrite seqZ_nil by lia. Qed.

Lemma rounds_down_cons lo hi : lo < hi → rounds_down lo hi = (hi - 1) :: rounds_down lo (hi - 1).
Proof using.
  intros. unfold rounds_down. replace (hi - lo) with ((hi - 1 - lo) + 1) by lia. rewrite seqZ_app by lia.
  rewrite rev_app_distr, seqZ_cons by lia. cbn. rewrite seqZ_nil by lia. cbn. f_equal. lia.
Qed.

(** The ancestors of [l] in round [r] that the node keeps, all of them. *)
Definition layer (seen : list Certificate) (l : Certificate) (r : Z) (ps : list Certificate) : Prop :=
  (∀ c, c ∈ ps → c ∈ seen ∧ round c = r ∧ rtc kedge (key l) (key c)) ∧
  ∀ k, k.1 = r → rtc kedge (key l) k → ∃ c, c ∈ ps ∧ key c = k.

Lemma layer_start seen l : l ∈ seen → layer seen l (round l) [l].
Proof using com cert gc_ok.
  intros Hl. split.
  - intros c ->%list_elem_of_singleton. done.
  - intros k Hk Hp. exists l. split; [by left|]. destruct (path_round committee U cert _ _ Hp) as [?|Hlt]; [done|]. simpl in Hlt. lia.
Qed.

Lemma layer_step seen st l r ps :
  node_ok seen st → l ∈ seen → layer seen l r ps → 0 < r ≤ round l → last_committed_round st < r →
  ∃ auths, whole_history (dag st) (r - 1) = Ret auths ∧
    layer seen l (r - 1) (snd <$> filter (λ v : Slot, existsb (has_parent v.1) ps) (values auths)).
Proof using com cert gc_ok.
  intros Hok Hl [Hps Hall] Hr Hlcr. destruct (no_closed _ _ _ Hok) as [HU _].
  destruct (ancestor_exists committee U com cert l (r - 1) (HU l Hl) ltac:(lia)) as (a & Ha & Hra & Hpa).
  destruct (closed_path committee U cert seen l _ (no_closed _ _ _ Hok) Hl Hpa) as (a' & Ha' & Hka).
  destruct (seen_slot committee U cert seen st a' Hok Ha') as (a'' & Hsa & _); [injection Hka as ? _; lia|].
  assert (round a' = r - 1) as Hra' by (injection Hka as ? _; lia). rewrite Hra' in Hsa.
  unfold slot in Hsa. destruct (dag st !! (r - 1)) as [auths|] eqn:Hauths; [|done].
  exists auths. unfold whole_history. rewrite Hauths. split; [done|]. split.
  - intros c (v & -> & (Hex & Hv)%list_elem_of_filter)%list_elem_of_fmap. apply values_elem in Hv as [n Hn].
    destruct v as [x c]. simpl in *. assert (slot (dag st) (r - 1) n = Some (x, c)) as Hs by (unfold slot; by rewrite Hauths).
    destruct (no_slot _ _ _ Hok _ _ _ _ Hs) as (Hc & -> & Hkc). split_and!; [done|by injection Hkc|].
    apply Is_true_true, existsb_exists in Hex as (p & Hp%list_elem_of_In & Hpar%bool_decide_eq_true).
    destruct (Hps p Hp) as (Hpseen & _ & Hpath). eapply rtc_r; [exact Hpath|]. apply (kedge_iff committee U cert); [by apply HU..|done].
  - intros k Hk Hp. destruct (path_last committee U cert _ _ Hp) as (m & Hpm & Hmk); [simpl; lia|].
    destruct (Hall m) as (p & Hpp & <-); [apply (kedge_round committee U cert) in Hmk; lia|done|].
    destruct (Hps p Hpp) as (Hpseen & Hrp & _).
    destruct (closed_edge committee U cert seen p k (no_closed _ _ _ Hok) Hpseen Hmk) as (c & Hc & <-). simpl in Hk.
    destruct (seen_slot committee U cert seen st c Hok Hc ltac:(lia)) as (c' & Hs & Hc' & Hkc). exists c'. split; [|done].
    apply list_elem_of_fmap. exists (digest c, c'). split; [done|]. apply list_elem_of_filter. split.
    + apply Is_true_true, existsb_exists. exists p. split; [by apply list_elem_of_In|]. apply bool_decide_eq_true.
      apply (kedge_iff committee U cert) in Hmk; [done|by apply HU..].
    + apply values_elem. exists (origin c). unfold slot in Hs. rewrite Hk, Hauths in Hs. done.
Qed.

Lemma layers seen st l lo hi ps :
  node_ok seen st → l ∈ seen → layer seen l hi ps → lo ≤ hi ≤ round l → last_committed_round st ≤ lo → 0 ≤ lo →
  ∃ ps', for_each (λ r ps, auths ← whole_history (dag st) r;
      Ret (snd <$> filter (λ v : Slot, existsb (has_parent v.1) ps) (values auths))) (rounds_down lo hi) ps = Ret ps' ∧
    layer seen l lo ps'.
Proof using com cert gc_ok.
  intros Hok Hl Hlay Hr Hlcr Hlo. assert (∃ n, Z.of_nat n = hi - lo) as [n Hn] by (exists (Z.to_nat (hi - lo)); lia).
  revert hi ps Hlay Hr Hn. induction n as [|n IH]; intros hi ps Hlay Hr Hn.
  - rewrite rounds_down_empty by lia. exists ps. split; [done|]. by replace lo with hi by lia.
  - rewrite rounds_down_cons by lia. cbn [for_each].
    destruct (layer_step seen st l hi ps Hok Hl Hlay ltac:(lia) ltac:(lia)) as (auths & -> & Hlay'). cbn [mbind outcome_bind].
    apply IH; [done|lia|lia].
Qed.

Lemma linked_spec seen st l p :
  node_ok seen st → l ∈ seen → p ∈ seen → last_committed_round st ≤ round p ≤ round l →
  ∃ b, linked l p (dag st) = Ret b ∧ (b = true ↔ rtc kedge (key l) (key p)).
Proof using com cert gc_ok.
  intros Hok Hl Hp Hr. destruct (no_closed _ _ _ Hok) as [HU _]. pose proof (ce_round _ _ cert p (HU p Hp)).
  destruct (layers seen st l (round p) (round l) [l] Hok Hl (layer_start seen l Hl) ltac:(lia) ltac:(lia) ltac:(lia)) as (ps & Hps & [Hin Hall]).
  unfold linked. rewrite Hps. cbn [mbind outcome_bind]. eexists. split; [done|]. rewrite existsb_exists. split.
  - intros (c & Hc%list_elem_of_In & Heq). destruct (Hin c Hc) as (Hcs & _ & Hpath).
    apply (cert_eqb_key committee U cert) in Heq; [|by apply HU..]. by rewrite Heq.
  - intros Hpath. destruct (Hall (key p) eq_refl Hpath) as (c & Hc & Hk). exists c. split; [by apply list_elem_of_In|].
    destruct (Hin c Hc) as (Hcs & _). apply (cert_eqb_key committee U cert); [by apply HU..|done].
Qed.

(** ** The walk over past leaders *)

Inductive walk : Z * bytes → list Z → list (Z * bytes) → Prop :=
| walk_nil k : walk k [] []
| walk_take k r rs out : rtc kedge k (leader_key r) → walk (leader_key r) rs out → walk k (r :: rs) (leader_key r :: out)
| walk_skip k r rs out : ¬ rtc kedge k (leader_key r) → walk k rs out → walk k (r :: rs) out.

Lemma walk_fun k rs out out' : walk k rs out → walk k rs out' → out = out'.
Proof using.
  intros Hw. revert out'. induction Hw as [k|k r rs out Hp _ IH|k r rs out Hp _ IH]; intros out' Hw'; inversion Hw'; subst;
    [done|f_equal; by apply IH|done|done|by apply IH].
Qed.

Definition leader_loop (st : State) (rs : list Z) (acc : list Certificate) (cur : Certificate) : outcome (list Certificate * Certificate) :=
  for_each (λ r '(to_commit, l),
      prev ← leader committee r (dag st);
      match prev with
      | None => Ret (to_commit, l)
      | Some (_, prev_leader) =>
          ok ← linked l prev_leader (dag st);
          Ret (if (ok : bool) then (to_commit ++ [prev_leader], prev_leader) else (to_commit, l))
      end) rs (acc, cur).

Lemma leader_loop_spec seen st rs acc cur :
  node_ok seen st → cur ∈ seen → StronglySorted (λ a b, b < a) rs →
  Forall (λ r, last_committed_round st ≤ r ≤ round cur) rs →
  ∃ out cur', leader_loop st rs acc cur = Ret (acc ++ out, cur') ∧ walk (key cur) rs (key <$> out) ∧
    (∀ c, c ∈ out → c ∈ seen).
Proof using com cert gc_ok.
  intros Hok Hcur Hs. revert acc cur Hcur. induction Hs as [|r rs Hs IH Hlt]; intros acc cur Hcur Hb.
  - exists [], cur. rewrite app_nil_r. split_and!; [done|constructor|]. intros c Hc. by apply not_elem_of_nil in Hc.
  - apply Forall_cons in Hb as [Hr Hb]. unfold leader_loop. cbn [for_each].
    destruct (leader_spec seen st r Hok ltac:(lia)) as ([[x p]|] & -> & Hp); cbn [mbind outcome_bind].
    + destruct Hp as (Hp & _ & Hkp). assert (round p = r) as Hrp by (by injection Hkp).
      destruct (linked_spec seen st cur p Hok Hcur Hp ltac:(lia)) as ([|] & -> & Hb'); cbn [mbind outcome_bind].
      * destruct (IH (acc ++ [p]) p Hp) as (out & cur' & Hout & Hw & Hin).
        { apply Forall_forall. intros r' Hr'. rewrite Forall_forall in Hb, Hlt. specialize (Hb r' Hr'). specialize (Hlt r' Hr'). lia. }
        exists (p :: out), cur'. fold (leader_loop st rs (acc ++ [p]) p). rewrite Hout, <-app_assoc. split_and!; [done| |].
        -- cbn [fmap list_fmap]. rewrite Hkp. apply walk_take; [rewrite <-Hkp; by apply Hb'|by rewrite <-Hkp].
        -- intros c [->|Hc]%elem_of_cons; [done|by apply Hin].
      * destruct (IH acc cur Hcur Hb) as (out & cur' & Hout & Hw & Hin). exists out, cur'. split_and!; [done| |done].
        apply walk_skip; [|done]. rewrite <-Hkp. intros ?. by apply Hb' in H0.
    + destruct (IH acc cur Hcur Hb) as (out & cur' & Hout & Hw & Hin). exists out, cur'. split_and!; [done| |done].
      apply walk_skip; [|done]. intros Hpath.
      destruct (closed_path committee U cert seen cur _ (no_closed _ _ _ Hok) Hcur Hpath) as (c & Hc & Hk). by apply (Hp c Hc).
Qed.
End leaders.
