(* ===== verification/TuskAgreement.v ===== *)
(** * Tusk: agreement on the committed leaders

    The leaders a node has committed, in order, are the walk back from the
    last one it committed with support.  Two such walks are prefixes of one
    another. *)
From S2P Require Import Prelude.
From S2P Require Import Narwhal.
From S2P Require Import NarwhalQuorum.
From S2P Require Import Tusk.
From S2P Require Import TuskState.
From S2P Require Import TuskOrder.
From S2P Require Import TuskSafety.
From S2P Require Import TuskLeaders.

(** ** Rounds *)

Lemma rounds_down_elem lo hi r : r ∈ rounds_down lo hi ↔ lo ≤ r < hi.
Proof. unfold rounds_down. rewrite list_elem_of_In, <-in_rev, <-list_elem_of_In, elem_of_seqZ. lia. Qed.

Lemma rounds_down_app a b c : a ≤ b ≤ c → rounds_down a c = rounds_down b c ++ rounds_down a b.
Proof.
  intros. unfold rounds_down. replace (c - a) with ((b - a) + (c - b)) by lia. rewrite seqZ_app by lia.
  rewrite rev_app_distr. by replace (a + (b - a)) with b by lia.
Qed.

Lemma rounds_down_sorted lo hi : StronglySorted (λ a b, b < a) (rounds_down lo hi).
Proof.
  destruct (Z.le_gt_cases hi lo); [rewrite rounds_down_empty by lia; constructor|].
  assert (∃ n, Z.of_nat n = hi - lo) as [n Hn] by (exists (Z.to_nat (hi - lo)); lia).
  revert hi H Hn. induction n as [|n IH]; intros hi Hlt Hn; [lia|]. rewrite rounds_down_cons by lia. constructor.
  - destruct (Z.le_gt_cases (hi - 1) lo); [rewrite rounds_down_empty by lia; constructor|]. apply IH; lia.
  - apply Forall_forall. intros r Hr%rounds_down_elem. lia.
Qed.

Lemma StronglySorted_filter {A} (R : A → A → Prop) (P : A → Prop) `{!∀ x, Decision (P x)} l :
  StronglySorted R l → StronglySorted R (filter P l).
Proof.
  induction 1 as [|x l Hs IH Hall]; [constructor|]. rewrite filter_cons. destruct (decide (P x)); [|done]. constructor; [done|].
  apply Forall_forall. intros y [_ Hy]%list_elem_of_filter. rewrite Forall_forall in Hall. by apply Hall.
Qed.

Lemma StronglySorted_sublist {A} (R : A → A → Prop) l1 l2 :
  l1 `sublist_of` l2 → StronglySorted R l2 → StronglySorted R l1.
Proof.
  induction 1 as [|x l1 l2 Hs IH|x l1 l2 Hs IH]; intros Hl; [done| |]; apply StronglySorted_inv in Hl as [Hl Hall]; [|by apply IH].
  constructor; [by apply IH|]. rewrite Forall_forall in Hall |- *. intros y Hy. apply Hall.
  eapply elem_of_submseteq; [exact Hy|by apply sublist_submseteq].
Qed.

Lemma past_rounds_eq lcr R :
  0 ≤ lcr < max_round → 2 ≤ R < max_round → past_rounds lcr R = filter (λ r, (R - r) mod 2 = 0) (rounds_down (lcr + 2) (R - 1)).
Proof.
  intros Hl HR. unfold past_rounds, max_round in *. rewrite !uint64_id by ulia. by replace (R - 2 + 1) with (R - 1) by lia.
Qed.

Lemma past_rounds_sorted lcr R : StronglySorted (λ a b, b < a) (past_rounds lcr R).
Proof. apply StronglySorted_filter, rounds_down_sorted. Qed.

Lemma past_rounds_elem lcr R r :
  0 ≤ lcr < max_round → 2 ≤ R < max_round → r ∈ past_rounds lcr R → lcr + 2 ≤ r ≤ R - 2 ∧ (R - r) mod 2 = 0.
Proof. intros Hl HR Hr. rewrite past_rounds_eq in Hr by done. apply list_elem_of_filter in Hr as [? Hr%rounds_down_elem]. lia. Qed.

(** The rounds from a leader to the genesis pass through every earlier
    leader round. *)
Lemma past_rounds_split L R :
  2 ≤ L → L + 2 ≤ R → R < max_round → (R - L) mod 2 = 0 →
  past_rounds 0 R = past_rounds L R ++ L :: past_rounds 0 L.
Proof.
  intros HL HLR HR Hpar. rewrite !past_rounds_eq by (unfold max_round in *; lia). rewrite Z.add_0_l.
  assert (∀ r, (R - r) mod 2 = (L - r) mod 2) as Hm.
  { intros r. replace (R - r) with ((R - L) + (L - r)) by lia. rewrite Z.add_mod, Hpar by lia. rewrite Z.add_0_l. apply Z.mod_mod. lia. }
  assert (rounds_down 2 (R - 1) = rounds_down (L + 2) (R - 1) ++ rounds_down L (Z.min (L + 2) (R - 1)) ++ rounds_down 2 L) as ->.
  { destruct (Z.eq_dec R (L + 2)) as [->|].
    - rewrite (rounds_down_empty (L + 2)) by lia. simpl. rewrite (rounds_down_app 2 L) by lia. by rewrite Z.min_r by lia.
    - rewrite Z.min_l by lia. rewrite (rounds_down_app 2 (L + 2)), (rounds_down_app 2 L) by lia. done. }
  rewrite !filter_app. f_equal.
  assert (filter (λ r, (R - r) mod 2 = 0) (rounds_down L (Z.min (L + 2) (R - 1))) = [L]) as ->.
  { assert ((R - (L + 1)) mod 2 ≠ 0) as Hodd.
    { rewrite Hm. replace (L - (L + 1)) with (-1) by lia. done. }
    destruct (Z.eq_dec R (L + 2)) as [->|].
    - rewrite Z.min_r, rounds_down_cons, rounds_down_empty by lia. replace (L + 2 - 1 - 1) with L by lia.
      rewrite filter_cons, decide_True by done. done.
    - rewrite Z.min_l, rounds_down_cons, rounds_down_cons, rounds_down_empty by lia.
      replace (L + 2 - 1) with (L + 1) by lia. replace (L + 1 - 1) with L by lia.
      rewrite filter_cons, decide_False, filter_cons, decide_True by done. done. }
  cbn [app]. f_equal. destruct (Z.eq_dec L 2) as [->|]; [by rewrite !rounds_down_empty by lia|].
  rewrite (rounds_down_cons 2 L) by lia. rewrite filter_cons, decide_False.
  - apply filter_ext_in. intros r _. by rewrite Hm.
  - rewrite Hm. by replace (L - (L - 1)) with 1 by lia.
Qed.

Section agreement.
Context `{DagCrypto} (committee : Committee) (gc_depth : Z) (U : Certificate → Prop).
Context (com : committee_ok committee) (cert : certified committee U) (gc_ok : 0 ≤ gc_depth < max_round).

Abbreviation node_ok := (TuskSafety.node_ok U).
Abbreviation kedge := (TuskSafety.kedge U).
Abbreviation walk := (TuskLeaders.walk committee U).
Abbreviation leader_key := (TuskLeaders.leader_key committee).
Abbreviation supported := (TuskSafety.supported committee U).

(** ** Walks *)

Lemma walk_sublist k rs out : walk k rs out → out.*1 `sublist_of` rs.
Proof using. induction 1; simpl; by constructor. Qed.

Lemma walk_end k rs out : walk k rs out → rtc kedge k (default k (last out)).
Proof using.
  induction 1 as [k|k r rs out Hp _ IH|k r rs out Hp _ IH]; [done| |done].
  rewrite last_cons. destruct (last out) as [m|]; simpl in *; [by etrans|done].
Qed.

Lemma walk_app k rs1 rs2 out1 out2 :
  walk k rs1 out1 → walk (default k (last out1)) rs2 out2 → walk k (rs1 ++ rs2) (out1 ++ out2).
Proof using.
  induction 1 as [k|k r rs out Hp _ IH|k r rs out Hp _ IH]; intros Hw; [done| |].
  - cbn [app]. apply walk_take; [done|]. apply IH. rewrite last_cons in Hw. by destruct (last out).
  - cbn [app]. apply walk_skip; [done|]. by apply IH.
Qed.

Lemma path_certified c k : U c → rtc kedge (key c) k → ∃ c', U c' ∧ key c' = k.
Proof using.
  intros Hc Hp. destruct (rtc_inv_r _ _ Hp) as [<-|(m & _ & (a & b & _ & Hb & _ & <- & _))]; [by exists c|by exists b].
Qed.

(** A walk from above a supported leader goes through it. *)
Lemma walk_through c rs1 out1 L out2 rs2 :
  U c → walk (key c) rs1 out1 → (∀ r, r ∈ rs1 → L + 2 ≤ r) → L + 2 ≤ round c → supported (leader_key L) →
  walk (leader_key L) rs2 out2 → walk (key c) (rs1 ++ L :: rs2) (out1 ++ leader_key L :: out2).
Proof using com cert.
  intros Hc Hw Hrs Hr Hs Hw2. apply walk_app; [done|].
  destruct (path_certified c _ Hc (walk_end _ _ _ Hw)) as (e & He & Hke). rewrite <-Hke. apply walk_take; [|done].
  apply (supported_linked committee U com cert); [done|done|]. simpl.
  destruct (last out1) as [m|] eqn:Hlast; simpl in Hke; [|by injection Hke as -> _].
  assert (round e ∈ rs1) as Hin; [|by apply Hrs].
  eapply elem_of_submseteq; [|apply sublist_submseteq, (walk_sublist _ _ _ Hw)].
  apply list_elem_of_fmap. exists m. rewrite <-Hke. split; [done|]. rewrite Hke. rewrite last_lookup in Hlast. by eapply list_elem_of_lookup_2.
Qed.

(** ** One certificate *)

Lemma order_leaders_spec seen st l :
  node_ok seen st → l ∈ seen → last_committed_round st < round l → 2 ≤ round l →
  ∃ out, order_leaders committee l st = Ret (l :: out) ∧
    walk (key l) (past_rounds (last_committed_round st) (round l)) (key <$> out) ∧
    (∀ c, c ∈ out → c ∈ seen).
Proof using com cert gc_ok.
  intros Hok Hl Hr H2. destruct (no_closed _ _ _ Hok) as [HU _]. pose proof (ce_round _ _ cert l (HU l Hl)).
  pose proof (no_lcr _ _ _ Hok). unfold order_leaders.
  destruct (leader_loop_spec committee gc_depth U com cert gc_ok seen st (past_rounds (last_committed_round st) (round l)) [l] l Hok Hl)
    as (out & cur & Hout & Hw & Hin); [apply past_rounds_sorted| |].
  - apply Forall_forall. intros r Hr'. apply past_rounds_elem in Hr'; lia.
  - exists out. unfold leader_loop in Hout. rewrite Hout. by cbn.
Qed.

Lemma origins_nodup seen st r auths :
  node_ok seen st → dag st !! r = Some auths → NoDup (origin <$> (snd <$> values auths)).
Proof using.
  intros Hok Ha. unfold values. rewrite <-!list_fmap_compose.
  match goal with |- NoDup ?l => assert (l = (map_to_list auths).*1) as ->; [|apply NoDup_fst_map_to_list] end.
  apply list_fmap_ext. intros i [n [x c]] Hi%list_elem_of_lookup_2%elem_of_map_to_list.
  destruct (no_slot _ _ _ Hok r n x c) as (_ & _ & Hk); [unfold slot; by rewrite Ha|]. by injection Hk.
Qed.

Lemma elect_spec seen st c :
  node_ok seen st → c ∈ seen →
  ∃ o, elect committee st (round c) = Ret o ∧
    match o with
    | None => True
    | Some l => l ∈ seen ∧ key l = leader_key (round l) ∧ last_committed_round st < round l ∧ 2 ≤ round l ∧
        round l mod 2 = 0 ∧ supported (key l)
    end.
Proof using com cert gc_ok.
  intros Hok Hc. destruct (no_closed _ _ _ Hok) as [HU _]. pose proof (ce_round _ _ cert c (HU c Hc)) as Hrc.
  pose proof (no_lcr _ _ _ Hok) as Hlcr. unfold elect.
  destruct (Z.eqb_spec (uint64 (round c - 1) mod 2) 0) as [Heven|]; [|by exists None].
  destruct (Z.ltb_spec (uint64 (round c - 1)) 4) as [|H4]; [by exists None|]. cbn [negb orb].
  assert (uint64 (round c - 1) = round c - 1) as Hu.
  { apply uint64_id. destruct (Z.eq_dec (round c) 0) as [H0|]; [|unfold max_round in *; ulia].
    rewrite H0 in Heven. done. }
  rewrite Hu in *. destruct (Z.leb_spec (round c - 1 - 2) (last_committed_round st)); [by exists None|].
  destruct (leader_spec committee gc_depth U com cert gc_ok seen st (round c - 1 - 2) Hok ltac:(lia)) as ([[x l]|] & -> & Hl);
    cbn [mbind outcome_bind]; [|by exists None]. destruct Hl as (Hl & -> & Hkl).
  assert (round l = round c - 1 - 2) as Hrl by (by injection Hkl).
  destruct (ancestor_exists committee U com cert c (round c - 1 - 1) (HU c Hc) ltac:(lia)) as (a & Ha & Hra & Hpa).
  destruct (closed_path committee U cert seen c _ (no_closed _ _ _ Hok) Hc Hpa) as (a' & Ha' & Hka).
  assert (round a' = round c - 1 - 1) as Hra' by (injection Hka as ? _; lia).
  destruct (seen_slot committee U cert seen st a' Hok Ha' ltac:(lia)) as (a'' & Hsa & _). rewrite Hra' in Hsa.
  unfold slot in Hsa. destruct (dag st !! (round c - 1 - 1)) as [auths|] eqn:Hauths; [|done].
  unfold whole_history. rewrite Hauths. cbn [mbind outcome_bind].
  set (ss := filter (λ x, has_parent (digest l) x) (snd <$> values auths)).
  assert (NoDup (origin <$> ss)) as Hnd.
  { eapply sublist_NoDup; [apply (origins_nodup seen st _ _ Hok Hauths)|]. apply fmap_sublist, sublist_filter. }
  assert (foldl (λ s x, uint32 (s + stake committee (origin x))) 0 ss = zsum (stake committee) (origin <$> ss)) as Hsum.
  { rewrite (sum_uint32 (λ x, stake committee (origin x))); [by rewrite zsum_fmap| |lia|].
    - intros; apply stake_nonneg, com.
    - rewrite <-(zsum_fmap (stake committee) origin). pose proof (stake_total committee com _ Hnd). destruct (co_total _ com). lia. }
  rewrite Hsum. destruct (Z.ltb_spec (zsum (stake committee) (origin <$> ss)) (validity_threshold committee)); [by exists None|].
  exists (Some l). split; [done|]. split_and!; [done|by rewrite Hkl, Hrl|lia|lia| |].
  - rewrite Hrl. rewrite Zminus_mod, Heven. done.
  - exists ss. split_and!; [done| |lia]. intros s Hs. apply list_elem_of_filter in Hs as [Hpar (v & -> & Hv)%list_elem_of_fmap].
    apply values_elem in Hv as [n Hn]. destruct v as [y s]. simpl in *.
    destruct (no_slot _ _ _ Hok (round c - 1 - 1) n y s) as (Hss & _ & _); [unfold slot; by rewrite Hauths|].
    split; [by apply HU|]. apply (kedge_iff committee U cert); [by apply HU..|]. by apply Is_true_true, bool_decide_eq_true in Hpar.
Qed.

(** A property of the state and the sequence that committing one leader keeps. *)
Definition commit_keeps (seen : list Certificate) (P : State → list Certificate → Prop) : Prop :=
  ∀ st l sequence xs, node_ok seen st → l ∈ seen → last_committed_round st < round l → order_dag gc_depth l st = Ret xs →
    P st sequence → P (foldl (λ st x, update st x gc_depth) st xs) (sequence ++ xs).

(** Committing a list of leaders, latest first in the list. *)
Lemma commits_spec seen st tl sequence :
  node_ok seen st → (∀ x, x ∈ tl → x ∈ seen ∧ last_committed_round st < round x) →
  StronglySorted (λ a b, round b < round a) tl →
  ∃ st' seq', for_each (commit_leader gc_depth) (rev tl) (st, sequence) = Ret (st', sequence ++ seq') ∧ node_ok seen st' ∧
    last_committed_round st' = match tl with [] => last_committed_round st | x :: _ => round x end ∧
    (∀ x, x ∈ tl → x ∈ seq') ∧ ∀ P, commit_keeps seen P → P st sequence → P st' (sequence ++ seq').
Proof using com cert gc_ok.
  intros Hok Htl Hs. induction Hs as [|x tl Hs IH Hlt].
  - exists st, []. rewrite app_nil_r. split_and!; [done..| |done]. intros x Hx. by apply not_elem_of_nil in Hx.
  - destruct IH as (st1 & seq1 & Hf & Hok1 & Hr1 & Hin1 & HP1); [intros; apply Htl; by right|].
    destruct (Htl x) as [Hx Hlx]; [by left|].
    destruct (commit_leader_spec committee gc_depth U com cert gc_ok seen st1 x (sequence ++ seq1) Hok1 Hx) as (xs & st2 & Hc & Hok2 & Hr2 & Hin2 & Hxs).
    { rewrite Hr1. destruct tl as [|y tl]; [done|]. by apply Forall_cons in Hlt as [? _]. }
    exists st2, (seq1 ++ xs). cbn [rev]. rewrite for_each_app, Hf. cbn [mbind outcome_bind for_each]. rewrite Hc. cbn [mbind outcome_bind].
    rewrite app_assoc. split_and!; [done|done|done| |].
    + intros y [->|Hy]%elem_of_cons; apply elem_of_app; [by right|left; by apply Hin1].
    + intros P HP H1. specialize (HP1 P HP H1). unfold commit_leader in Hc. rewrite Hxs in Hc. cbn [mbind outcome_bind] in Hc.
      apply (inj Ret) in Hc. injection Hc as <-. apply (HP st1 x); [done|done| |done|done].
      rewrite Hr1. destruct tl as [|y tl]; [done|]. by apply Forall_cons in Hlt as [? _].
Qed.

(** The committed leaders so far are the walk from the last one. *)
Definition log_ok (st : State) (log : list Certificate) : Prop :=
  (log = [] ∧ last_committed_round st = 0) ∨
  ∃ out, key <$> log = reverse (leader_key (last_committed_round st) :: out) ∧
    2 ≤ last_committed_round st ∧ last_committed_round st mod 2 = 0 ∧ supported (leader_key (last_committed_round st)) ∧
    walk (leader_key (last_committed_round st)) (past_rounds 0 (last_committed_round st)) out.

Lemma log_extend st log l out lcr' :
  log_ok st log → 0 ≤ last_committed_round st < max_round → U l → key l = leader_key (round l) →
  last_committed_round st < round l → 2 ≤ round l →
  round l mod 2 = 0 → supported (key l) → walk (key l) (past_rounds (last_committed_round st) (round l)) (key <$> out) →
  last_committed_round lcr' = round l → log_ok lcr' (log ++ rev (l :: out)).
Proof using com cert.
  intros Hlog Hlcr Hl Hk Hr H2 Heven Hsup Hw Hlr. right. rewrite Hlr, <-Hk. pose proof (ce_round _ _ cert l Hl).
  assert (key <$> log ++ rev (l :: out) = (key <$> log) ++ reverse (key l :: (key <$> out))) as Hkeys.
  { rewrite fmap_app. f_equal. rewrite <-fmap_cons, <-fmap_reverse. f_equal. by rewrite rev_alt. }
  destruct Hlog as [[-> Hz]|(out0 & Hlog & H20 & He0 & Hs0 & Hw0)].
  - exists (key <$> out). rewrite Hz in Hw. split_and!; done.
  - exists ((key <$> out) ++ leader_key (last_committed_round st) :: out0). split_and!; [|done|done|done|].
    + rewrite Hkeys, Hlog, <-reverse_app. done.
    + assert ((round l - last_committed_round st) mod 2 = 0) as Hpar by (rewrite Zminus_mod, Heven, He0; done).
      assert (last_committed_round st + 2 ≤ round l).
      { destruct (Z.eq_dec (round l) (last_committed_round st + 1)) as [He|]; [|lia].
        rewrite He in Hpar. replace (last_committed_round st + 1 - last_committed_round st) with 1 in Hpar by lia. done. }
      rewrite (past_rounds_split (last_committed_round st) (round l)) by lia.
      apply walk_through; [done|done| |done|done|done]. intros r Hr'. apply past_rounds_elem in Hr'; lia.
Qed.

Lemma process_spec seen st c log :
  node_ok seen st → log_ok st log → closed U (seen ++ [c]) →
  ∃ leaders st' sequence, leaders_of committee (insert_cert st c) (round c) = Ret leaders ∧
    process committee gc_depth st c = Ret (st', sequence) ∧ node_ok (seen ++ [c]) st' ∧ log_ok st' (log ++ leaders) ∧
    (∀ l, l ∈ leaders → l ∈ sequence) ∧
    ∀ P, commit_keeps (seen ++ [c]) P → P (insert_cert st c) [] → P st' sequence.
Proof using com cert gc_ok.
  intros Hok Hlog Hcl. pose proof (insert_node committee gc_depth U com cert gc_ok seen st c Hok Hcl) as Hok1.
  set (st1 := insert_cert st c) in *. assert (log_ok st1 log) as Hlog1 by done.
  destruct (elect_spec (seen ++ [c]) st1 c Hok1) as (o & He & Ho); [apply elem_of_app; right; by left|].
  unfold process. fold st1. unfold leaders_of. rewrite He. cbn [mbind outcome_bind].
  destruct o as [l|].
  - destruct Ho as (Hl & Hk & Hr & H2 & Heven & Hsup). destruct (no_closed _ _ _ Hok1) as [HU _].
    destruct (order_leaders_spec (seen ++ [c]) st1 l Hok1 Hl Hr H2) as (out & Hout & Hw & Hin). rewrite Hout. cbn [mbind outcome_bind].
    pose proof (no_lcr _ _ _ Hok1) as Hlcr. pose proof (ce_round _ _ cert l (HU l Hl)).
    assert (StronglySorted (λ a b, round b < round a) (l :: out)) as Hsorted.
    { pose proof (walk_sublist _ _ _ Hw) as Hsub. rewrite <-list_fmap_compose in Hsub.
      assert (StronglySorted (λ a b, b < a) (round l :: (round <$> out))) as Hs.
      { constructor; [eapply StronglySorted_sublist; [apply Hsub|apply past_rounds_sorted]|]. apply Forall_forall. intros r Hr'.
        assert (r ∈ past_rounds (last_committed_round st1) (round l)) as Hp by (eapply elem_of_submseteq; [exact Hr'|by apply sublist_submseteq]).
        apply past_rounds_elem in Hp; lia. }
      rewrite <-fmap_cons in Hs. by apply StronglySorted_fmap in Hs. }
    destruct (commits_spec (seen ++ [c]) st1 (l :: out) [] Hok1) as (st2 & seq & Hf & Hok2 & Hr2 & Hins & HP).
    { intros x [->|Hx]%elem_of_cons; [done|]. split; [by apply Hin|].
      assert (round x ∈ past_rounds (last_committed_round st1) (round l)) as Hp.
      { eapply elem_of_submseteq; [|apply sublist_submseteq, (walk_sublist _ _ _ Hw)]. rewrite <-list_fmap_compose.
        apply list_elem_of_fmap. by exists x. }
      apply past_rounds_elem in Hp; lia. }
    { done. }
    exists (rev (l :: out)), st2, seq. split_and!; [done|by rewrite Hf|done| | |done].
    + eapply log_extend; try done. by apply HU.
    + intros x Hx. apply Hins. by apply list_elem_of_In, in_rev, list_elem_of_In.
  - exists [], st1, []. rewrite app_nil_r. by split_and!.
Qed.

(** ** The whole run *)

(** The leaders committed over a run, with the state [run] reaches. *)
Definition leaders_log (certificates : list Certificate) : outcome (State * list Certificate) :=
  for_each (λ c '(st, log), leaders ← leaders_of committee (insert_cert st c) (round c);
    '(st, _) ← process committee gc_depth st c; Ret (st, log ++ leaders)) certificates
    (State_new (genesis committee), []).

Lemma run_spec cs :
  causal committee U cs →
  ∃ st log out, leaders_log cs = Ret (st, log) ∧ run committee gc_depth cs = Ret (st, out) ∧
    node_ok (genesis committee ++ cs) st ∧ log_ok st log ∧ ∀ l, l ∈ log → l ∈ out.
Proof using com cert gc_ok.
  induction 1 as [|cs c Hcs (st & log & out & Hlog & Hrun & Hok & Hlok & Hin) Hc Hd].
  - exists (State_new (genesis committee)), [], []. rewrite app_nil_r. split_and!; [done|done|by apply (node_init committee U cert)|by left|done].
  - assert (closed U (genesis committee ++ cs ++ [c])) as Hcl by (apply (causal_closed committee U cert); by constructor).
    rewrite app_assoc in Hcl |- *. destruct (process_spec _ st c log Hok Hlok Hcl) as (ls & st' & seq & Hl & Hp & Hok' & Hlok' & Hin' & _).
    exists st', (log ++ ls), (out ++ seq). unfold leaders_log, run in *. rewrite !for_each_app, Hlog, Hrun. cbn [mbind outcome_bind for_each].
    rewrite Hl, Hp. cbn [mbind outcome_bind]. split_and!; [done|done|done|done|].
    intros l [Hx|Hx]%elem_of_app; apply elem_of_app; [left; by apply Hin|right; by apply Hin'].
Qed.

(** Logs of two nodes. *)
Lemma logs_agree st1 log1 st2 log2 seen1 seen2 :
  node_ok seen1 st1 → node_ok seen2 st2 → log_ok st1 log1 → log_ok st2 log2 → last_committed_round st1 ≤ last_committed_round st2 →
  (key <$> log1) `prefix_of` (key <$> log2).
Proof using com cert.
  intros Hok1 Hok2 Hl1 Hl2 Hle. pose proof (no_lcr _ _ _ Hok1). pose proof (no_lcr _ _ _ Hok2).
  destruct Hl1 as [[-> _]|(out1 & -> & H21 & He1 & Hs1 & Hw1)]; [apply prefix_nil|].
  destruct Hl2 as [[-> Hz]|(out2 & -> & H22 & He2 & Hs2 & Hw2)]; [lia|].
  destruct (Z.eq_dec (last_committed_round st1) (last_committed_round st2)) as [Heq|Hne].
  { rewrite Heq in *. by rewrite (walk_fun _ _ _ _ _ _ Hw1 Hw2). }
  assert ((last_committed_round st2 - last_committed_round st1) mod 2 = 0) as Hpar by (rewrite Zminus_mod, He1, He2; done).
  assert (last_committed_round st1 + 2 ≤ last_committed_round st2).
  { destruct (Z.eq_dec (last_committed_round st2) (last_committed_round st1 + 1)) as [He|]; [|lia].
    rewrite He in Hpar. replace (last_committed_round st1 + 1 - last_committed_round st1) with 1 in Hpar by lia. done. }
  assert (∃ c, U c ∧ key c = leader_key (last_committed_round st2)) as (c & Hc & Hkc).
  { destruct Hs2 as (ss & _ & Hss & Hv). destruct ss as [|s ss].
    - rewrite fmap_nil, zsum_nil in Hv. pose proof (validity_pos _ com). lia.
    - destruct (Hss s) as [_ (a & b & _ & Hb & _ & Hkb & _)]; [by left|]. by exists b. }
  assert (∃ m, walk (key c) (past_rounds (last_committed_round st1) (last_committed_round st2)) m) as [m Hm].
  { rewrite (past_rounds_split (last_committed_round st1)) in Hw2 by lia. rewrite Hkc.
    revert Hw2. generalize (past_rounds (last_committed_round st1) (last_committed_round st2)). intros rs.
    generalize (leader_key (last_committed_round st2)). clear. revert out2. induction rs as [|r rs IH]; intros out k Hw; [eexists; constructor|].
    inversion Hw; subst; [destruct (IH _ _ H5) as [m Hm]|destruct (IH _ _ H5) as [m Hm]]; eexists; [by apply walk_take|by apply walk_skip]. }
  assert (out2 = m ++ leader_key (last_committed_round st1) :: out1) as ->.
  { eapply walk_fun; [exact Hw2|]. rewrite (past_rounds_split (last_committed_round st1)) by lia. rewrite <-Hkc.
    injection Hkc as Hrc _. apply walk_through; [done|done| |lia|done|done]. intros r Hr. apply past_rounds_elem in Hr; lia. }
  exists (reverse (leader_key (last_committed_round st2) :: m)). rewrite <-reverse_app. done.
Qed.

Lemma leaders_agree cs1 cs2 :
  causal committee U cs1 → causal committee U cs2 →
  ∃ st1 log1 out1 st2 log2 out2,
    leaders_log cs1 = Ret (st1, log1) ∧ run committee gc_depth cs1 = Ret (st1, out1) ∧
    leaders_log cs2 = Ret (st2, log2) ∧ run committee gc_depth cs2 = Ret (st2, out2) ∧
    ((key <$> log1) `prefix_of` (key <$> log2) ∨ (key <$> log2) `prefix_of` (key <$> log1)) ∧
    (∀ l, l ∈ log1 → l ∈ out1) ∧ (∀ l, l ∈ log2 → l ∈ out2).
Proof using com cert gc_ok.
  intros H1 H2. destruct (run_spec cs1 H1) as (st1 & log1 & out1 & Hl1 & Hr1 & Hok1 & Hlog1 & Hin1).
  destruct (run_spec cs2 H2) as (st2 & log2 & out2 & Hl2 & Hr2 & Hok2 & Hlog2 & Hin2).
  exists st1, log1, out1, st2, log2, out2. split_and!; [done..| |done|done].
  destruct (Z.le_gt_cases (last_committed_round st1) (last_committed_round st2)); [left|right].
  - by apply (logs_agree st1 log1 st2 log2 _ _ Hok1 Hok2 Hlog1 Hlog2).
  - apply (logs_agree st2 log2 st1 log1 _ _ Hok2 Hok1 Hlog2 Hlog1). lia.
Qed.
End agreement.
