(* ===== verification/NarwhalNetwork.v ===== *)
(** * Narwhal and Tusk: a network of primaries

    Primaries that follow the code, with more than two thirds of the stake,
    each run their core on their own events.  Unless the execution is exposed
    to one of three things that the code does not guard against, the
    certificates that circulate form the DAG that [TuskSafety] asks for, every
    primary passes them to consensus in an order that respects the parents,
    and so the consensus of any two of them commits the same leaders. *)
From S2P Require Import Prelude.
From S2P Require Import Narwhal.
From S2P Require Import NarwhalQuorum.
From S2P Require Import NarwhalTheorems.
From S2P Require Import NarwhalCore.
From S2P Require Import NarwhalCoreSteps.
From S2P Require Import NarwhalInvariant.
From S2P Require Import NarwhalTurns.
From S2P Require Import Tusk.
From S2P Require Import TuskState.
From S2P Require Import TuskSafety.
From S2P Require Import TuskAgreement.

(** An execution: the primaries that follow the code, their events and the
    states they reach. *)
Record Network := mkNetwork {
  honest : list bytes;
  signer : bytes → bytes → bytes;
  trace : bytes → list PrimaryEvent;
  final : bytes → Core;
}.

(** The headers that reach an honest primary, and the certificates that one
    has accepted. *)
Definition headers (N : Network) : list Header := concat ((λ n, trace_headers (trace N n)) <$> honest N).
Definition certificates `{DagCrypto} (committee : Committee) (N : Network) : list Certificate :=
  genesis committee ++ concat ((λ n, accepted (out (final N n))) <$> honest N).

(** Same header as a genesis certificate. *)
Definition genesis_like (committee : Committee) (c : Certificate) : bool := existsb (cert_eqb c) (genesis committee).

Record network_ok `{DagCrypto} `{Bincode} (committee : Committee) (gc_depth : Z) (N : Network) : Prop := {
  (* the execution *)
  nw_faulty : ∀ l, NoDup l → (∀ n, n ∈ l → n ∉ honest N) → zsum (stake committee) l < validity_threshold committee;
  nw_ok : ∀ n, n ∈ honest N → run_ok n committee gc_depth (signer N n) (Core_new ∅) (trace N n);
  nw_run : ∀ n, n ∈ honest N → primary_run n committee gc_depth (signer N n) (Core_new ∅) (trace N n) = Some (final N n);
  nw_round : ∀ c, c ∈ certificates committee N → 0 ≤ round c < max_round;
  (* a header holds a set of digests *)
  nw_set : ∀ h, h ∈ headers N → NoDup (h_parents h) ∧ ∀ d, d ∈ h_parents h → length d = 32%nat;
  (* the signatures of honest primaries *)
  nw_signs : ∀ n d, n ∈ honest N → sig_verify (signer N n d) d n = true;
  nw_unforged : ∀ n c s, n ∈ honest N → c ∈ certificates committee N → (n, s) ∈ c_votes c →
    sig_verify_batch (digest c) (c_votes c) = true → ∃ v, v ∈ signed (out (final N n)) ∧ Vote_digest v = digest c;
  (* no collision of hashes in the execution *)
  nw_vote_hash : ∀ n v c, n ∈ honest N → v ∈ signed (out (final N n)) → c ∈ certificates committee N →
    Vote_digest v = digest c → dv_id v = h_id (c_header c) ∧ vote_key v = key c;
  nw_cert_hash : ∀ c c', c ∈ certificates committee N → c' ∈ certificates committee N → digest c = digest c' → key c = key c';
  nw_kinds : ∀ h c, h ∈ headers N → Header_verify committee h = None → c ∈ certificates committee N → h_id h ≠ digest c;
  nw_zero : ∀ c, c ∈ certificates committee N → digest c ≠ zeros 32;
}.

(** What the code leaves open: a stray event at an honest primary; a
    certificate accepted as one of the genesis although it has parents; and a
    header that verifies and has the id, but not the parents, of an accepted
    certificate. *)
Inductive exposed `{DagCrypto} `{Bincode} (committee : Committee) (gc_depth : Z) (N : Network) : Prop :=
| ex_stray n : n ∈ honest N → strays n committee gc_depth (signer N n) (Core_new ∅) (trace N n) = true →
    exposed committee gc_depth N
| ex_genesis c : c ∈ certificates committee N → genesis_like committee c = true → parents c ≠ [] →
    exposed committee gc_depth N
| ex_id h c : h ∈ headers N → Header_verify committee h = None → c ∈ certificates committee N →
    h_id h = h_id (c_header c) → h_parents h ≠ parents c → exposed committee gc_depth N.

Lemma exposed_or_not `{DagCrypto} `{Bincode} committee gc_depth N :
  exposed committee gc_depth N ∨ ¬ exposed committee gc_depth N.
Proof.
  destruct (decide (Exists (λ n, strays n committee gc_depth (signer N n) (Core_new ∅) (trace N n) = true) (honest N))) as [E1|E1].
  { apply Exists_exists in E1 as (n & ? & ?). left. by eapply ex_stray. }
  destruct (decide (Exists (λ c, genesis_like committee c = true ∧ parents c ≠ []) (certificates committee N))) as [E2|E2].
  { apply Exists_exists in E2 as (c & ? & ? & ?). left. by eapply ex_genesis. }
  destruct (decide (Exists (λ h, passes (Header_verify committee h) = true ∧
    Exists (λ c, h_id h = h_id (c_header c) ∧ h_parents h ≠ parents c) (certificates committee N)) (headers N))) as [E3|E3].
  { apply Exists_exists in E3 as (h & ? & Hp%passes_None & (c & ? & ? & ?)%Exists_exists). left. by eapply ex_id. }
  right. intros [n ??|c ???|h c ?????].
  - apply E1, Exists_exists. by exists n.
  - apply E2, Exists_exists. by exists c.
  - apply E3, Exists_exists. exists h. split_and!; [done|by apply passes_None|]. apply Exists_exists. by exists c.
Qed.

Section network.
Context `{DagCrypto} {laws : DagCryptoLaws} `{Bincode} {blaws : BincodeLaws}.
Context (committee : Committee) (gc_depth : Z) (N : Network) (com : committee_ok committee).
Context (net : network_ok committee gc_depth N) (hidden : ¬ exposed committee gc_depth N).

Abbreviation U := (λ c, c ∈ certificates committee N).
Abbreviation received := (λ h, h ∈ headers N).

Lemma elem_of_certificates c :
  c ∈ certificates committee N ↔ c ∈ genesis committee ∨ ∃ n, n ∈ honest N ∧ c ∈ accepted (out (final N n)).
Proof using.
  unfold certificates. rewrite elem_of_app. apply or_iff_compat_l. rewrite list_elem_of_In, in_concat. split.
  - intros (l & (n & -> & Hn)%list_elem_of_In%list_elem_of_fmap & Hc). exists n. split; [done|by apply list_elem_of_In].
  - intros (n & Hn & Hc). eexists. split; [apply list_elem_of_In, list_elem_of_fmap; by exists n|by apply list_elem_of_In].
Qed.

Lemma like_genesis_parents c : U c → genesis_like committee c = true → parents c = [].
Proof using hidden. intros Hc Hg. destruct (decide (parents c = [])); [done|]. destruct hidden. by apply (ex_genesis _ _ _ c). Qed.

(** A header that was voted for has the parents of the certificate. *)
Lemma header_parents h c :
  received h → Header_verify committee h = None → U c → h_id h = h_id (c_header c) → h_parents h = parents c.
Proof using hidden. intros ????. destruct (decide (h_parents h = parents c)); [done|]. destruct hidden. by apply (ex_id _ _ _ h c). Qed.

Lemma honest_kept n : n ∈ honest N → kept n committee received true (final N n).
Proof using laws blaws com net hidden.
  intros Hn. eapply (run_kept n committee gc_depth (signer N n)); [exact com| |by apply new_kept| | | |].
  - intros d. by apply (nw_signs _ _ _ net).
  - by apply (nw_ok _ _ _ net).
  - intros h Hh. apply list_elem_of_In, in_concat. exists (trace_headers (trace N n)).
    split; apply list_elem_of_In; [apply list_elem_of_fmap; by exists n|done].
  - intros _. apply not_true_is_false. intros Hs. apply hidden. by eapply ex_stray.
  - by apply (nw_run _ _ _ net).
Qed.

Lemma accepted_certificate n c : n ∈ honest N → c ∈ genesis committee ++ accepted (out (final N n)) → U c.
Proof using net.
  intros Hn [Hc|Hc]%elem_of_app; apply elem_of_certificates; [by left|right; by exists n].
Qed.

Lemma certificate_verified c : U c → Certificate_verify committee c = None.
Proof using laws blaws com net hidden.
  intros [Hc|(n & Hn & Hc)]%elem_of_certificates.
  - unfold Certificate_verify. destruct (existsb _ _) eqn:He; [done|]. exfalso. apply not_true_iff_false in He. apply He.
    apply existsb_exists. exists c. split; [by apply list_elem_of_In|]. unfold cert_eqb.
    by rewrite !bool_decide_eq_true_2, Z.eqb_refl by done.
  - destruct (honest_kept n Hn) as [Hk _]. by apply (iv_accepted _ _ _ _ _ _ _ _ _ _ Hk c (or_introl Hc)).
Qed.

(** Of a set with more stake than the faulty primaries, one is honest. *)
Lemma honest_among l :
  NoDup l → validity_threshold committee ≤ zsum (stake committee) l → ∃ n, n ∈ l ∧ n ∈ honest N.
Proof using net.
  intros Hnd Hv. destruct (decide (Exists (λ n, n ∈ honest N) l)) as [He|He]; [by apply Exists_exists in He|].
  pose proof (nw_faulty _ _ _ net l Hnd). exfalso. enough (zsum (stake committee) l < validity_threshold committee) by lia.
  apply (nw_faulty _ _ _ net l Hnd). intros n Hn Hh. apply He, Exists_exists. by exists n.
Qed.

(** ** The votes behind a certificate *)

(** An honest primary signed the vote [v] for the certificate, and its header
    has a quorum of parents. *)
Definition voted (n : bytes) (c : Certificate) (v : DagVote) : Prop :=
  n ∈ honest N ∧ v ∈ signed (out (final N n)) ∧ dv_id v = h_id (c_header c) ∧ vote_key v = key c.

Lemma certificate_votes c :
  U c → genesis_like committee c = false →
  NoDup (c_votes c).*1 ∧ quorum_threshold committee ≤ zsum (stake committee) (c_votes c).*1 ∧
  ∀ n, n ∈ (c_votes c).*1 → n ∈ honest N → ∃ v, voted n c v.
Proof using laws blaws com net hidden.
  intros Hc Hg. destruct (certificate_verify_sound committee com c (certificate_verified c Hc) Hg) as (_ & Hnd & Hq & Hs).
  split_and!; [done|done|]. intros n ([k s] & -> & Hks)%list_elem_of_fmap Hn.
  destruct (nw_unforged _ _ _ net k c s Hn Hc Hks Hs) as (v & Hv & Hd). exists v.
  destruct (nw_vote_hash _ _ _ net k v c Hn Hv Hc Hd). done.
Qed.

Lemma certificate_voter c : U c → genesis_like committee c = false → ∃ n v, voted n c v.
Proof using laws blaws com net hidden.
  intros Hc Hg. destruct (certificate_votes c Hc Hg) as (Hnd & Hq & Hv).
  pose proof (validity_le _ com). destruct (honest_among _ Hnd) as (n & Hn & Hh); [lia|].
  destruct (Hv n Hn Hh) as [v ?]. by exists n, v.
Qed.

(** A header that was voted for is a verified one. *)
Lemma backed_verified n v h ps :
  n ∈ honest N → backed committee received (accepted (out (final N n))) v h ps → received h ∧ Header_verify committee h = None.
Proof using net.
  intros Hn Hb. destruct (bk_header _ _ _ _ _ _ Hb) as [?|[Hz _]]; [done|exfalso]. pose proof (bk_some _ _ _ _ _ _ Hb) as Hsome.
  destruct ps as [|p ps]; [done|]. destruct (bk_quorum _ _ _ _ _ _ Hb) as (w & Hw & _).
  assert (uint64 (round p + 1) = h_round h) as Hr by (eapply check_parents_round; [exact Hw|by left]).
  destruct (Forall2_elem_r _ _ _ p (bk_parents _ _ _ _ _ _ Hb)) as (d & _ & _ & Hp); [by left|].
  pose proof (nw_round _ _ _ net p (accepted_certificate n p Hn Hp)). unfold max_round in *. rewrite uint64_id in Hr; [lia|]. ulia.
Qed.

(** The parents that the voter found. *)
Lemma voted_parents n c v :
  U c → voted n c v → ∃ h ps, backed committee received (accepted (out (final N n))) v h ps ∧
    h_parents h = parents c ∧ h_round h = round c ∧
    (∀ p, p ∈ ps → U p ∧ digest p ∈ parents c ∧ uint64 (round p + 1) = round c) ∧
    (∀ d, d ∈ parents c → ∃ p, p ∈ ps ∧ digest p = d).
Proof using laws blaws com net hidden.
  intros Hc (Hn & Hv & Hid & Hk). destruct (honest_kept n Hn) as [Hinv _].
  destruct (iv_backed _ _ _ _ _ _ _ _ _ _ Hinv v Hv) as (h & ps & Hb). exists h, ps.
  destruct (bk_vote _ _ _ _ _ _ Hb) as (Hvi & Hvr & _). injection Hk as Hr Ho.
  assert (h_parents h = parents c) as Hp.
  { destruct (backed_verified n v h ps Hn Hb). apply header_parents; [done|done|done|congruence]. }
  assert (h_round h = round c) as Hhr by congruence. pose proof (bk_parents _ _ _ _ _ _ Hb) as Hall. rewrite Hp in Hall.
  split_and!; [done|done|done| |].
  - intros p Hin. destruct (Forall2_elem_r _ _ _ _ Hall Hin) as (d & Hd & <- & Hpin).
    split_and!; [by eapply accepted_certificate|done|].
    destruct (bk_quorum _ _ _ _ _ _ Hb) as (w & Hw & _). rewrite <-Hhr. by eapply check_parents_round.
  - intros d Hd. destruct (Forall2_elem_l _ _ _ _ Hall Hd) as (p & Hin & Hdp & _). by exists p.
Qed.

(** ** The DAG *)

(** A certificate of the first round is a genesis certificate. *)
Lemma round_zero c : U c → genesis_like committee c = false → 0 < round c.
Proof using laws blaws com net hidden.
  intros Hc Hg. destruct (certificate_voter c Hc Hg) as (n & v & Hv).
  destruct (voted_parents n c v Hc Hv) as (h & ps & Hb & _ & _ & Hps & _). pose proof (bk_some _ _ _ _ _ _ Hb) as Hsome.
  destruct ps as [|p ps]; [done|]. destruct (Hps p) as (Hp & _ & Hr); [by left|].
  pose proof (nw_round _ _ _ net p Hp). unfold max_round in *. rewrite uint64_id in Hr; [lia|]. ulia.
Qed.

Lemma genesis_like_round c : genesis_like committee c = true → round c = 0 ∧ h_id (c_header c) = zeros 32.
Proof using.
  intros (g & Hg & He)%existsb_exists. apply list_elem_of_In, list_elem_of_fmap in Hg as (p & -> & _).
  unfold cert_eqb in He. rewrite !andb_true_iff, !bool_decide_eq_true, Z.eqb_eq in He. by destruct He as [[-> ->] _].
Qed.

Lemma certificates_unique c c' : U c → U c' → key c = key c' → h_id (c_header c) = h_id (c_header c') ∧ parents c = parents c'.
Proof using laws blaws com net hidden.
  intros Hc Hc' Hk. pose proof Hk as [= Hr Ho].
  destruct (genesis_like committee c) eqn:Hg, (genesis_like committee c') eqn:Hg'.
  - destruct (genesis_like_round c Hg) as [_ ->]. destruct (genesis_like_round c' Hg') as [_ ->].
    by rewrite (like_genesis_parents c Hc Hg), (like_genesis_parents c' Hc' Hg').
  - destruct (genesis_like_round c Hg). pose proof (round_zero c' Hc' Hg'). lia.
  - destruct (genesis_like_round c' Hg'). pose proof (round_zero c Hc Hg). lia.
  - destruct (certificate_votes c Hc Hg) as (Hnd & Hq & Hv). destruct (certificate_votes c' Hc' Hg') as (Hnd' & Hq' & Hv').
    destruct (honest_among (filter (λ n, n ∈ (c_votes c').*1) (c_votes c).*1)) as (n & Hn & Hh); [by apply NoDup_filter| |].
    { pose proof (shared_stake committee com _ _ Hnd Hnd'). pose proof (quorum_quorum committee com). lia. }
    apply list_elem_of_filter in Hn as [Hn' Hn]. destruct (Hv n Hn Hh) as [v Hvd]. destruct (Hv' n Hn' Hh) as [v' Hvd'].
    assert (v = v') as <-.
    { destruct Hvd as (_ & Hin & _ & Hkv). destruct Hvd' as (_ & Hin' & _ & Hkv'). destruct (honest_kept n Hh) as [Hinv _].
      apply list_elem_of_lookup in Hin as [i Hi]. apply list_elem_of_lookup in Hin' as [j Hj].
      assert (i = j) as ->; [|congruence]. eapply NoDup_lookup; [by apply (iv_once _ _ _ _ _ _ _ _ _ _ Hinv)| |];
        rewrite list_lookup_fmap, ?Hi, ?Hj; [done|]. cbn. congruence. }
    destruct (voted_parents n c v Hc Hvd) as (h & ps & Hb & Hp & _). destruct (voted_parents n c' v Hc' Hvd') as (h' & ps' & Hb' & Hp' & _).
    destruct Hvd as (_ & _ & Hid & _). destruct Hvd' as (_ & _ & Hid' & _). split; [congruence|].
    destruct (backed_verified n v h ps Hh Hb). rewrite <-Hp. apply header_parents; [done|done|done|].
    destruct (bk_vote _ _ _ _ _ _ Hb). congruence.
Qed.

(** The parents that a voter found have different authors. *)
Lemma parents_origins n c v h ps :
  U c → voted n c v → backed committee received (accepted (out (final N n))) v h ps → h_parents h = parents c →
  (∀ p, p ∈ ps → U p ∧ digest p ∈ parents c ∧ uint64 (round p + 1) = round c) → NoDup (origin <$> ps).
Proof using laws blaws com net hidden.
  intros Hc Hv Hb Hp Hps. pose proof (bk_parents _ _ _ _ _ _ Hb) as Hall.
  destruct (nw_set _ _ _ net h) as [Hnd _]; [by apply (backed_verified n v h ps (proj1 Hv))|].
  apply NoDup_alt. intros i j o Hi Hj. rewrite list_lookup_fmap in Hi, Hj.
  destruct (ps !! i) as [p|] eqn:Hpi; [|done]. destruct (ps !! j) as [q|] eqn:Hqj; [|done]. injection Hi as Hoi. injection Hj as Hoj.
  destruct (Forall2_lookup_r _ _ _ _ _ Hall Hpi) as (d & Hd & Hdp & _).
  destruct (Forall2_lookup_r _ _ _ _ _ Hall Hqj) as (e & He & Heq & _).
  destruct (Hps p) as (Hup & _ & Hrp); [by eapply list_elem_of_lookup_2|].
  destruct (Hps q) as (Huq & _ & Hrq); [by eapply list_elem_of_lookup_2|].
  pose proof (nw_round _ _ _ net p Hup). pose proof (nw_round _ _ _ net q Huq). unfold max_round in *.
  rewrite uint64_id in Hrp, Hrq by ulia. assert (key p = key q) as Hk by (unfold key; f_equal; [lia|congruence]).
  destruct (certificates_unique p q Hup Huq Hk) as [Hid _].
  assert (digest p = digest q) as Hdig by (injection Hk as Hr Ho; unfold digest; congruence).
  eapply NoDup_lookup; [exact Hnd|exact Hd|]. congruence.
Qed.

Lemma network_dag : certified committee U.
Proof using laws blaws com net hidden.
  assert (∀ c, U c → parents c ≠ [] ∨ 0 < round c → ∃ n v, voted n c v) as Hvoter.
  { intros c Hc Hor. apply certificate_voter; [done|]. destruct (genesis_like committee c) eqn:Hg; [|done].
    destruct (genesis_like_round c Hg). pose proof (like_genesis_parents c Hc Hg). destruct Hor; [done|lia]. }
  split.
  - apply (nw_round _ _ _ net).
  - apply certificates_unique.
  - apply (nw_cert_hash _ _ _ net).
  - intros c d Hc Hd. destruct (Hvoter c Hc) as (n & v & Hv); [left; intros He; rewrite He in Hd; by apply not_elem_of_nil in Hd|].
    destruct (voted_parents n c v Hc Hv) as (h & ps & _ & _ & _ & Hps & Hds). destruct (Hds d Hd) as (p & Hp & Hdp).
    destruct (Hps p Hp) as (Hup & _ & Hr). exists p. split_and!; [done|done|]. pose proof (nw_round _ _ _ net p Hup).
    unfold max_round in *. rewrite uint64_id in Hr; [lia|ulia].
  - intros c Hc Hr. destruct (Hvoter c Hc) as (n & v & Hv); [by right|].
    destruct (voted_parents n c v Hc Hv) as (h & ps & Hb & Hp & _ & Hps & _).
    pose proof (parents_origins n c v h ps Hc Hv Hb Hp Hps) as Hnd. exists ps. split_and!; [done| |].
    + intros p Hin. by destruct (Hps p Hin) as (? & ? & _).
    + destruct (bk_quorum _ _ _ _ _ _ Hb) as (w & Hw & Hq). rewrite zsum_fmap.
      pose proof (stake_total committee com _ Hnd) as Ht. rewrite zsum_fmap in Ht. destruct (co_total _ com).
      rewrite (check_parents_weight committee h ps 0 w Hw (λ p, stake committee (origin p)) eq_refl) in Hq; [lia| |lia|lia].
      intros. by apply stake_nonneg.
  - intros g Hg. apply elem_of_certificates. by left.
Qed.

(** ** What consensus receives *)

Lemma payload_key_length p : length (payload_key p) = (length p.1 + 4)%nat.
Proof using. unfold payload_key. rewrite length_app. f_equal. Qed.

(** A parent's digest is not the key of a header or of a batch. *)
Lemma parent_key c d : U c → d ∈ parents c → ¬ other_key committee received d.
Proof using laws blaws com net hidden.
  intros Hc Hd. destruct (ce_parents _ _ network_dag c d Hc Hd) as (p & Hp & Hdp & _).
  intros [(h & [[Hh Hv]|[_ Hz]] & Hid)|(q & Hl & Hq)];
    [apply (nw_kinds _ _ _ net h p Hh Hv Hp); congruence|apply (nw_zero _ _ _ net p Hp); congruence|].
  assert (length d = 32%nat) as Hld.
  { destruct (certificate_voter c Hc) as (n & v & Hv).
    { destruct (genesis_like committee c) eqn:Hg; [|done]. rewrite (like_genesis_parents c Hc Hg) in Hd. by apply not_elem_of_nil in Hd. }
    destruct (voted_parents n c v Hc Hv) as (h & ps & Hb & Hph & _). rewrite <-Hph in Hd.
    by apply (nw_set _ _ _ net h (proj1 (backed_verified n v h ps (proj1 Hv) Hb))). }
  rewrite <-Hq, payload_key_length, Hl in Hld. done.
Qed.

Lemma network_causal n : n ∈ honest N → causal committee U (accepted (out (final N n))).
Proof using laws blaws com net hidden.
  intros Hn. destruct (honest_kept n Hn) as [Hinv _]. pose proof (iv_causal _ _ _ _ _ _ _ _ _ _ Hinv) as Hc.
  assert (∀ c, c ∈ accepted (out (final N n)) → U c) as HU by (intros c Hin; eapply accepted_certificate; [done|apply elem_of_app; by right]).
  revert Hc HU. induction (accepted (out (final N n))) as [|c cs IH] using rev_ind; intros Hc HU; [constructor|].
  constructor; [|apply HU, elem_of_app; right; by left|].
  - apply IH; [|intros x Hx; apply HU, elem_of_app; by left]. intros cs1 x cs2 ->. apply (Hc cs1 x (cs2 ++ [c])). by rewrite <-app_assoc.
  - intros d Hd. destruct (Hc cs c [] eq_refl d Hd) as [?|Ho]; [done|]. exfalso. eapply parent_key; [|exact Hd|exact Ho].
    apply HU, elem_of_app. right. by left.
Qed.
End network.

