(* ===== verification/NarwhalExample.v ===== *)
(** * Narwhal and Tusk: an execution

    A checker for the conditions on a network, and an execution of four
    primaries over five rounds that meets them and in which consensus commits
    a leader. *)
From S2P Require Import Prelude.
From S2P Require Import Narwhal.
From S2P Require Import NarwhalQuorum.
From S2P Require Import NarwhalCore.
From S2P Require Import NarwhalInvariant.
From S2P Require Import NarwhalTurns.
From S2P Require Import NarwhalToy.
From S2P Require Import Tusk.
From S2P Require Import TuskState.
From S2P Require Import TuskSafety.
From S2P Require Import TuskAgreement.
From S2P Require Import NarwhalNetwork.

(** ** Checking a run *)

Section runs.
Context (n : bytes).

Definition event_okb (s : Core) (e : CoreEvent) : bool :=
  match e with
  | EMessage _ => true
  | ELoopHeader h => existsb (λ o, match o with OSyncParents _ h' | OSyncBatches _ h' => bool_decide (h' = h) | _ => false end) (out s)
  | ELoopCertificate c => existsb (λ o, match o with OWaitCertificate c' => bool_decide (c' = c) | _ => false end) (out s)
  | EOwnHeader h => bool_decide (h_author h = n) && passes (Header_verify quartet h) && (h_round (current_header s) <? h_round h)
  end.
Definition turn_okb (s : Core) (e : PrimaryEvent) : bool :=
  match e with
  | Turn e r => event_okb s e && ((r <=? quartet_gc) || (gc_round s <=? r - quartet_gc))
  | Payload d _ => (length d =? 32)%nat
  end.

Abbreviation step := (primary_step n quartet quartet_gc (toy_sign n)).

Fixpoint run_okb (s : Core) (es : list PrimaryEvent) : bool :=
  match es with
  | [] => true
  | e :: es => turn_okb s e && match step s e with Some s => run_okb s es | None => true end
  end.

(** The last state of a run whose turns are all good, without strays. *)
Fixpoint checked_run (s : Core) (es : list PrimaryEvent) : option Core :=
  match es with
  | [] => Some s
  | e :: es => if turn_okb s e && negb (match e with Turn e _ => stray n quartet s e | Payload _ _ => false end) then
      match step s e with Some s => checked_run s es | None => None end
    else None
  end.

Lemma event_okb_spec s e : event_okb s e = true → event_ok n quartet s e.
Proof.
  destruct e as [m|h|c|h]; cbn [event_okb event_ok]; [done|..].
  - intros (o & Ho%list_elem_of_In & Hh)%existsb_exists.
    destruct o as [| | |m h'|m h'| | |]; try done; apply bool_decide_eq_true in Hh as ->; [right|left]; by exists m.
  - intros (o & Ho%list_elem_of_In & Hc)%existsb_exists. destruct o as [| | | | |c'| |]; try done. by apply bool_decide_eq_true in Hc as ->.
  - rewrite !andb_true_iff, bool_decide_eq_true, passes_None, Z.ltb_lt. by intros [[? ?] ?].
Qed.

Lemma turn_okb_spec s e : turn_okb s e = true → turn_ok n quartet quartet_gc s e.
Proof.
  destruct e as [e r|d w]; cbn [turn_okb turn_ok]; [|apply Nat.eqb_eq].
  rewrite andb_true_iff, orb_true_iff, !Z.leb_le. intros [He Hr]. split; [by apply event_okb_spec|done].
Qed.

Lemma run_okb_spec s es : run_okb s es = true → run_ok n quartet quartet_gc (toy_sign n) s es.
Proof.
  revert s. induction es as [|e es IH]; intros s; [done|]. cbn [run_okb run_ok]. rewrite andb_true_iff.
  intros [He%turn_okb_spec Hs]. split; [done|]. destruct (step s e); [by apply IH|done].
Qed.

Lemma checked_run_spec s es s' :
  checked_run s es = Some s' →
  run_ok n quartet quartet_gc (toy_sign n) s es ∧ strays n quartet quartet_gc (toy_sign n) s es = false ∧
  primary_run n quartet quartet_gc (toy_sign n) s es = Some s'.
Proof.
  revert s. induction es as [|e es IH]; intros s; cbn [checked_run run_ok strays primary_run]; [by intros [= ->]|].
  destruct (turn_okb s e) eqn:He; [|done]. apply turn_okb_spec in He. destruct (match e with Turn _ _ => _ | _ => _ end); [done|]. cbn [andb negb orb].
  destruct (primary_step _ _ _ _ s e) as [s1|]; [|done]. intros Hr. by destruct (IH _ Hr) as (? & ? & ?).
Qed.
End runs.

(** ** Checking a network *)

Section check.
Context (traces : list (bytes * list PrimaryEvent)).

Definition trace_of (n : bytes) : list PrimaryEvent := default [] (assoc_get traces n).
Definition core_of (n : bytes) : Core := default (Core_new ∅) (checked_run n (Core_new ∅) (trace_of n)).
Definition toy_network : Network := {| honest := names; signer := toy_sign; trace := trace_of; final := core_of |}.

Definition certificate_okb (cores : list (bytes * Core)) (certs : list Certificate) (c : Certificate) : bool :=
  let d := digest c in
  (0 <=? round c) && (round c <? max_round) && implb (genesis_like quartet c) (bool_decide (parents c = [])) &&
  forallb (λ p, match assoc_get cores p.1 with
    | Some s => existsb (λ v, bool_decide (Vote_digest v = d)) (signed (out s)) | None => true end) (c_votes c) &&
  forallb (λ p, forallb (λ v, implb (bool_decide (Vote_digest v = d))
    (bool_decide (dv_id v = h_id (c_header c)) && bool_decide (vote_key v = key c))) (signed (out p.2))) cores &&
  forallb (λ c', implb (bool_decide (d = digest c')) (bool_decide (key c = key c'))) certs && bool_decide (d ≠ zeros 32).

Definition header_okb (certs : list (bytes * Certificate)) (h : Header) : bool :=
  bool_decide (NoDup (h_parents h)) && forallb (λ d, (length d =? 32)%nat) (h_parents h) &&
  forallb (λ p, implb (bool_decide (h_id h = h_id (c_header p.2))) (bool_decide (h_parents h = parents p.2)) &&
    bool_decide (h_id h ≠ p.1)) certs.

Definition networkb : bool :=
  let runs := (λ n, (n, checked_run n (Core_new ∅) (trace_of n))) <$> names in
  forallb (λ p, match p.2 with Some _ => true | None => false end) runs &&
  let cores := (λ p, (p.1, default (Core_new ∅) p.2)) <$> runs in
  let certs := remove_dups (genesis quartet ++ concat ((λ p, accepted (out p.2)) <$> cores)) in
  forallb (certificate_okb cores certs) certs &&
  forallb (header_okb ((λ c, (digest c, c)) <$> certs)) (remove_dups (headers toy_network)).

Lemma assoc_get_fmap {A} (f : bytes → A) (l : list bytes) k : k ∈ l → assoc_get ((λ n, (n, f n)) <$> l) k = Some (f k).
Proof.
  induction l as [|n l IH]; [intros Hk; by apply not_elem_of_nil in Hk|]. cbn [fmap list_fmap assoc_get].
  intros [->|Hk]%elem_of_cons; [by rewrite decide_True|]. case_decide as Hn; [by subst|by apply IH].
Qed.

Lemma no_faulty_stake l : (∀ n, n ∈ l → n ∉ names) → zsum (stake quartet) l = 0.
Proof.
  induction l as [|n l IH]; intros Hl; [done|]. rewrite zsum_cons, IH by (intros; apply Hl; by right).
  assert (n ∉ names) as Hn by (apply Hl; by left). unfold stake, find_authority, quartet. cbn [authorities].
  enough (assoc_get ((λ n, (n, mkAuthority 1 [0])) <$> names) n = None) as -> by done.
  clear IH Hl. induction names as [|m ms IHm]; [done|]. cbn [fmap list_fmap assoc_get]. case_decide as Hm; [destruct Hn; rewrite Hm; by left|].
  apply IHm. intros ?. apply Hn. by right.
Qed.

Abbreviation all_certificates := (remove_dups (certificates quartet toy_network)).

Lemma networkb_parts :
  networkb = true →
  (∀ n, n ∈ names → checked_run n (Core_new ∅) (trace_of n) = Some (core_of n)) ∧
  (∀ c, c ∈ certificates quartet toy_network → certificate_okb ((λ n, (n, core_of n)) <$> names) all_certificates c = true) ∧
  (∀ h, h ∈ headers toy_network → header_okb ((λ c, (digest c, c)) <$> all_certificates) h = true).
Proof.
  unfold networkb. cbv zeta.
  change ((λ p : bytes * option Core, (p.1, default (Core_new ∅) p.2)) <$>
    ((λ n, (n, checked_run n (Core_new ∅) (trace_of n))) <$> names)) with ((λ n, (n, core_of n)) <$> names).
  change (remove_dups (genesis quartet ++ concat ((λ p : bytes * Core, accepted (out p.2)) <$> ((λ n, (n, core_of n)) <$> names))))
    with all_certificates.
  rewrite !andb_true_iff, !forallb_forall. intros (Hr & Hc & Hh). split_and!.
  - intros n Hn. unfold core_of. specialize (Hr (n, checked_run n (Core_new ∅) (trace_of n))). cbn [snd] in Hr.
    destruct (checked_run n _ _) eqn:Hrun; [done|]. discriminate Hr. apply list_elem_of_In, list_elem_of_fmap. exists n.
    by rewrite Hrun.
  - intros c Hin. by apply Hc, list_elem_of_In, elem_of_remove_dups.
  - intros h Hin. by apply Hh, list_elem_of_In, elem_of_remove_dups.
Qed.

Lemma certificate_okb_spec c :
  certificate_okb ((λ n, (n, core_of n)) <$> names) all_certificates c = true →
  0 ≤ round c < max_round ∧ (genesis_like quartet c = true → parents c = []) ∧
  (∀ n s, n ∈ names → (n, s) ∈ c_votes c → ∃ v, v ∈ signed (out (core_of n)) ∧ Vote_digest v = digest c) ∧
  (∀ n v, n ∈ names → v ∈ signed (out (core_of n)) → Vote_digest v = digest c → dv_id v = h_id (c_header c) ∧ vote_key v = key c) ∧
  (∀ c', c' ∈ certificates quartet toy_network → digest c = digest c' → key c = key c') ∧ digest c ≠ zeros 32.
Proof.
  unfold certificate_okb. cbv zeta.
  rewrite !andb_true_iff, !forallb_forall, Z.leb_le, Z.ltb_lt, implb_true_iff, !bool_decide_eq_true.
  intros ((((((H0 & H1) & Hg) & Hv) & Hk) & Hd) & Hz). split_and!; [done|done|done| | | |done].
  - intros n s Hn Hns. specialize (Hv (n, s) ltac:(by apply list_elem_of_In)). cbn [fst] in Hv.
    rewrite assoc_get_fmap in Hv by done. apply existsb_exists in Hv as (v & Hvin & Hvd%bool_decide_eq_true). exists v.
    split; [by apply list_elem_of_In|done].
  - intros n v Hn Hvin Hvd. specialize (Hk (n, core_of n) ltac:(apply list_elem_of_In, list_elem_of_fmap; by exists n)).
    rewrite forallb_forall in Hk. specialize (Hk v ltac:(by apply list_elem_of_In)).
    rewrite implb_true_iff, andb_true_iff, !bool_decide_eq_true in Hk. by apply Hk.
  - intros c' Hin' Heq. specialize (Hd c' ltac:(by apply list_elem_of_In, elem_of_remove_dups)).
    rewrite implb_true_iff, !bool_decide_eq_true in Hd. by apply Hd.
Qed.

Lemma header_okb_spec h :
  header_okb ((λ c, (digest c, c)) <$> all_certificates) h = true →
  (NoDup (h_parents h) ∧ ∀ d, d ∈ h_parents h → length d = 32%nat) ∧
  ∀ c, c ∈ certificates quartet toy_network → (h_id h = h_id (c_header c) → h_parents h = parents c) ∧ h_id h ≠ digest c.
Proof.
  unfold header_okb. rewrite !andb_true_iff, !forallb_forall, bool_decide_eq_true.
  intros ((Hnd & Hl) & Hk). split; [split; [done|]; intros d Hd; apply Nat.eqb_eq, Hl; by apply list_elem_of_In|].
  intros c Hcin. specialize (Hk (digest c, c) ltac:(apply list_elem_of_In, list_elem_of_fmap; exists c; by rewrite elem_of_remove_dups)).
  cbn [fst snd] in Hk. by rewrite andb_true_iff, implb_true_iff, !bool_decide_eq_true in Hk.
Qed.

Lemma networkb_spec : networkb = true → network_ok quartet quartet_gc toy_network ∧ ¬ exposed quartet quartet_gc toy_network.
Proof.
  intros (Hr & Hc & Hh)%networkb_parts.
  pose proof (λ c Hin, certificate_okb_spec c (Hc c Hin)) as Hcert. pose proof (λ h Hin, header_okb_spec h (Hh h Hin)) as Hhead.
  split; [split; cbn [honest signer trace final toy_network]|].
  - intros l _ Hl. by rewrite no_faulty_stake.
  - intros n Hn. by apply (checked_run_spec n _ _ _ (Hr n Hn)).
  - intros n Hn. by apply (checked_run_spec n _ _ _ (Hr n Hn)).
  - intros c Hin. by apply Hcert.
  - intros h Hin. by apply Hhead.
  - intros n d _. apply toy_sign_ok.
  - intros n c s Hn Hin Hns _. by apply (proj1 (proj2 (proj2 (Hcert c Hin))) n s).
  - intros n v c Hn Hv Hin. by apply (proj1 (proj2 (proj2 (proj2 (Hcert c Hin)))) n v).
  - intros c c' Hin. by apply Hcert.
  - intros h c Hin _ Hcin. by apply Hhead.
  - intros c Hin. by apply Hcert.
  - intros [n Hn Hs|c Hin Hg Hp|h c Hin _ Hcin Hid Hp].
    + cbn in Hs. destruct (checked_run_spec n _ _ _ (Hr n Hn)) as (_ & Hf & _). congruence.
    + by apply Hp, Hcert.
    + by apply Hp, (proj2 (Hhead h Hin) c Hcin).
Qed.
End check.

(** ** Five rounds of four primaries *)

Definition traces5 : list (bytes * list PrimaryEvent) := (λ '(n, (_, es)), (n, es)) <$> simulate 5.

Lemma example_checked : networkb traces5 = true.
Proof. vm_compute. reflexivity. Qed.

Lemma example_network : network_ok quartet quartet_gc (toy_network traces5) ∧ ¬ exposed quartet quartet_gc (toy_network traces5).
Proof. apply networkb_spec, example_checked. Qed.

(** The core of [b], and what [a] and [c] pass to consensus. *)
Definition core_b : Core := final (toy_network traces5) (name_of x62).
Definition stream_a : list Certificate := accepted (out (final (toy_network traces5) (name_of x61))).
Definition stream_c : list Certificate := accepted (out (final (toy_network traces5) (name_of x63))).

Lemma example_run :
  run_ok (name_of x62) quartet quartet_gc (toy_sign (name_of x62)) (Core_new ∅) (trace_of traces5 (name_of x62)) ∧
  strays (name_of x62) quartet quartet_gc (toy_sign (name_of x62)) (Core_new ∅) (trace_of traces5 (name_of x62)) = false ∧
  primary_run (name_of x62) quartet quartet_gc (toy_sign (name_of x62)) (Core_new ∅) (trace_of traces5 (name_of x62)) = Some core_b.
Proof.
  apply checked_run_spec. destruct (networkb_parts traces5 example_checked) as [Hr _]. apply Hr. right. by left.
Qed.

(** A leader is committed, and votes are signed. *)
Lemma example_leader :
  match leaders_log quartet quartet_gc stream_a with Ret (_, ls) => round <$> ls | _ => [] end = [2] ∧
  length (signed (out core_b)) = 20%nat.
Proof. split; vm_compute; reflexivity. Qed.
