(* ===== verification/TuskTheorems.v ===== *)
(** * Tusk: theorems

    Agreement on leaders, the exact result of the search, commitment of every
    certificate at most once, and a run in which two nodes that receive the
    same certificates in different orders output different sequences. *)
From S2P Require Import Prelude.
From S2P Require Import Narwhal.
From S2P Require Import NarwhalQuorum.
From S2P Require Import Tusk.
From S2P Require Import TuskState.
From S2P Require Import TuskOrder.
From S2P Require Import TuskSafety.
From S2P Require Import TuskLeaders.
From S2P Require Import TuskAgreement.

Section once.
Context `{DagCrypto} (committee : Committee) (gc_depth : Z) (U : Certificate → Prop).
Context (com : committee_ok committee) (cert : certified committee U) (gc_ok : 0 ≤ gc_depth < max_round).

(** ** Certificates committed once *)

(** What was committed is at or below the last committed round of its
    author, and is gone from the DAG unless it is that round's. *)
Record fresh (seen : list Certificate) (st : State) (out : list Certificate) : Prop := {
  fr_nodup : NoDup (key <$> out);
  fr_seen : ∀ c, c ∈ out → c ∈ seen;
  fr_committed : ∀ c, c ∈ out → ∃ lr, last_committed st !! origin c = Some lr ∧ round c ≤ lr;
  fr_slot : ∀ r n v lr, slot (dag st) r n = Some v → (r, n) ∈ key <$> out → last_committed st !! n = Some lr → lr ≤ r;
}.

(** After updates, nothing below the last committed round of its author is
    in the DAG, and the rounds of authors have grown. *)
Lemma updates_committed st xs :
  (∀ n lr, last_committed st !! n = Some lr →
    ∃ lr', last_committed (foldl (λ st x, update st x gc_depth) st xs) !! n = Some lr' ∧ lr ≤ lr') ∧
  (∀ x, x ∈ xs → ∃ lr, last_committed (foldl (λ st x, update st x gc_depth) st xs) !! origin x = Some lr ∧ round x ≤ lr).
Proof using.
  revert st. induction xs as [|x xs IH]; intros st; cbn [foldl].
  { split; [intros n lr Hn; by exists lr|]. intros x Hx. by apply not_elem_of_nil in Hx. }
  destruct (IH (update st x gc_depth)) as [Hgrow Hin]. split.
  - intros n lr Hn. rewrite update_committed in Hgrow.
    destruct (bump (last_committed st) x !! n) as [lr1|] eqn:Hb.
    + destruct (Hgrow n lr1 Hb) as (lr' & Hlr' & Hle). exists lr'. split; [done|].
      apply bump_lookup in Hb as [[-> ->]|[_ Hb]]; [rewrite Hn in Hle; lia|]. rewrite Hn in Hb. injection Hb as ->. done.
    + unfold bump in Hb. apply lookup_insert_None in Hb as [Hb _]. congruence.
  - intros y [->|Hy]%elem_of_cons; [|by apply Hin]. rewrite update_committed in Hgrow.
    edestruct (Hgrow (origin x)) as (lr' & Hlr' & Hle); [apply bump_lookup; left; split; reflexivity|]. exists lr'. split; [done|].
    destruct (last_committed st !! origin x); lia.
Qed.

Lemma updates_slot st xs r n v :
  xs ≠ [] → slot (dag (foldl (λ st x, update st x gc_depth) st xs)) r n = Some v →
  slot (dag st) r n = Some v ∧
  ∀ lr, last_committed (foldl (λ st x, update st x gc_depth) st xs) !! n = Some lr → lr ≤ r.
Proof using.
  intros Hne. destruct xs as [|x xs _] using rev_ind; [done|]. rewrite foldl_app. cbn [foldl]. intros Hs.
  apply update_slot in Hs as (Hs & Hlc & _). split; [|by rewrite update_committed].
  clear -Hs. revert Hs. induction xs as [|y xs IH] using rev_ind; [done|]. rewrite foldl_app. cbn [foldl].
  intros Hs. apply IH. by apply update_slot in Hs as [Hs _].
Qed.

Lemma fresh_keeps seen : commit_keeps gc_depth U seen (fresh seen).
Proof using com cert gc_ok.
  intros st l sequence xs Hok Hl Hr Hxs Hfr. destruct (no_closed _ _ _ Hok) as [HU _].
  pose proof (node_dag_ok committee U cert _ _ Hok) as Hdag. pose proof (ce_round _ _ cert l (HU l Hl)) as Hrl.
  destruct (order_dag_spec st Hdag l Hrl) with (gc_depth := gc_depth) as (xs' & Hxs' & Hnd & _ & Hin).
  { intros r n y Hs Hd. destruct (no_slot _ _ _ Hok _ _ _ _ Hs) as (Hy & _ & _).
    pose proof (ce_digest _ _ cert y l (HU y Hy) (HU l Hl) Hd) as Hk. by injection Hk. }
  rewrite Hxs in Hxs'. apply (inj Ret) in Hxs' as <-.
  assert (∀ x, x ∈ xs → x ∈ seen) as Hsub.
  { intros x Hx. apply Hin in Hx as [Hx _]. eapply reach_seen; [exact com|exact cert|exact gc_ok|exact Hok|exact Hl|exact Hx]. }
  assert (l ∈ xs) as Hlx.
  { apply Hin. split; [done|]. pose proof (no_lcr _ _ _ Hok). rewrite uint64_id; [lia|]. unfold max_round in *. ulia. }
  destruct (updates_committed st xs) as [Hgrow Hcom].
  assert (∀ c, c ∈ sequence ++ xs → ∃ lr, last_committed (foldl (λ st x, update st x gc_depth) st xs) !! origin c = Some lr ∧ round c ≤ lr) as Hall.
  { intros c [Hc|Hc]%elem_of_app; [|by apply Hcom]. destruct (fr_committed _ _ _ Hfr c Hc) as (lr & Hlr & Hle).
    destruct (Hgrow _ _ Hlr) as (lr' & ? & ?). exists lr'. split; [done|lia]. }
  split; [|intros c [Hc|Hc]%elem_of_app; [by apply (fr_seen _ _ _ Hfr)|by apply Hsub]|done|].
  - rewrite fmap_app. apply NoDup_app. split; [apply Hfr|]. split.
    + intros k (c & -> & Hc)%list_elem_of_fmap (x & Hk & Hx)%list_elem_of_fmap. destruct (fr_committed _ _ _ Hfr c Hc) as (lr & Hlr & Hle).
      apply Hin in Hx as [Hreach _]. destruct (rtc_inv_r _ _ Hreach) as [<-|(y & _ & Hyx)].
      * injection Hk as Hrk _. pose proof (rounds_ok_le _ _ _ (no_rounds _ _ _ Hok) Hlr). lia.
      * destruct (dstep_round st Hdag _ _ Hyx) as [Hrx _]. destruct Hyx as (Hs & _ & Hne). rewrite <-Hrx in Hs. injection Hk as Hrk Hok'.
        assert (lr ≤ round x) as Hlr'.
        { eapply (fr_slot _ _ _ Hfr); [exact Hs| |by rewrite <-Hok']. apply list_elem_of_fmap. exists c. split; [|done]. unfold key. congruence. }
        apply Hne. rewrite <-Hok', Hlr. f_equal. lia.
    + apply NoDup_fmap_2_strong; [|by apply NoDup_fmap_1 in Hnd]. intros x y Hx Hy Hk.
      assert (digest x = digest y) as Hd by (apply (digest_key committee U cert); [by apply HU, Hsub..|done]).
      apply list_elem_of_lookup in Hx as [i Hi]. apply list_elem_of_lookup in Hy as [j Hj].
      assert (i = j) as ->; [|congruence]. eapply NoDup_lookup; [exact Hnd| |]; rewrite list_lookup_fmap, ?Hi, ?Hj; [done|]. by rewrite Hd.
  - intros r n v lr Hs _ Hlr. eapply (proj2 (updates_slot st xs r n v ltac:(intros ->; by apply not_elem_of_nil in Hlx) Hs)). done.
Qed.

Lemma insert_fresh seen st c out :
  node_ok U seen st → fresh seen st out → key c ∉ key <$> seen → fresh (seen ++ [c]) (insert_cert st c) out.
Proof using.
  intros Hok Hfr Hnew. split; [apply Hfr| |apply Hfr|].
  - intros x Hx. apply elem_of_app. left. by apply (fr_seen _ _ _ Hfr).
  - intros r n v lr Hs Hk Hlr. apply insert_cert_slot in Hs as [(-> & -> & ->)|[_ Hs]]; [|by eapply (fr_slot _ _ _ Hfr)].
    exfalso. apply Hnew. apply list_elem_of_fmap in Hk as (x & Hkx & Hx). apply list_elem_of_fmap. exists x.
    split; [done|]. by apply (fr_seen _ _ _ Hfr).
Qed.

Lemma run_fresh cs :
  causal committee U cs → NoDup (key <$> genesis committee ++ cs) →
  ∃ st log out, run committee gc_depth cs = Ret (st, out) ∧ node_ok U (genesis committee ++ cs) st ∧
    log_ok committee U st log ∧ fresh (genesis committee ++ cs) st out.
Proof using com cert gc_ok.
  induction 1 as [|cs c Hcs IH Hc Hd]; intros Hnd.
  - exists (State_new (genesis committee)), [], []. rewrite app_nil_r.
    split_and!; [done|by apply (node_init committee U cert)|by left|]. split; [constructor|set_solver|set_solver|set_solver].
  - rewrite app_assoc, fmap_app in Hnd. apply NoDup_app in Hnd as (Hnd & Hnew & _).
    destruct (IH Hnd) as (st & log & out & Hrun & Hok & Hlog & Hfr).
    assert (closed U (genesis committee ++ cs ++ [c])) as Hcl by (apply (causal_closed committee U cert); by constructor).
    rewrite app_assoc in Hcl |- *.
    destruct (process_spec committee gc_depth U com cert gc_ok _ st c log Hok Hlog Hcl) as (ls & st' & seq & _ & Hp & Hok' & Hlog' & _ & HP).
    exists st', (log ++ ls), (out ++ seq). unfold run in *. rewrite for_each_app, Hrun. cbn [mbind outcome_bind for_each].
    rewrite Hp. cbn [mbind outcome_bind]. split_and!; [done|done|done|].
    apply (HP (λ st s, fresh ((genesis committee ++ cs) ++ [c]) st (out ++ s))).
    + intros st0 l s xs H1 H2 H3 H4 H5. rewrite app_assoc. by apply (fresh_keeps _ st0 l).
    + rewrite app_nil_r. apply insert_fresh; [done|done|]. intros Hk. apply (Hnew _ Hk). cbn. by left.
Qed.
End once.

(** ** Properties *)

(** C19: agreement of Tusk.  Two nodes receive certificates of one DAG (one
    certificate per round and author, each with a quorum of parents), each in
    its own order that respects the parents.  Neither node panics, and the
    sequences of leaders they commit are prefixes of one another.  Every
    committed leader is in the node's output. *)
Theorem Tusk_leaders_agree `{DagCrypto} committee gc_depth U cs1 cs2 :
  committee_ok committee → certified committee U → 0 ≤ gc_depth < max_round →
  causal committee U cs1 → causal committee U cs2 →
  ∃ st1 log1 out1 st2 log2 out2,
    leaders_log committee gc_depth cs1 = Ret (st1, log1) ∧ run committee gc_depth cs1 = Ret (st1, out1) ∧
    leaders_log committee gc_depth cs2 = Ret (st2, log2) ∧ run committee gc_depth cs2 = Ret (st2, out2) ∧
    ((key <$> log1) `prefix_of` (key <$> log2) ∨ (key <$> log2) `prefix_of` (key <$> log1)) ∧
    (∀ l, l ∈ log1 → l ∈ out1) ∧ (∀ l, l ∈ log2 → l ∈ out2).
Proof.
  intros Hcom Hcert Hgc. by apply (leaders_agree committee gc_depth U).
Qed.

(** C20: the search terminates within its bound, and what it returns for a
    leader is exactly the leader, committed before or not, and the
    certificates that can be reached from it through parents in the DAG that
    are not of the round their author committed last, less those below the
    garbage collection depth, each once, by ascending round. *)
Theorem order_dag_exact `{DagCrypto} committee gc_depth U cs l :
  committee_ok committee → certified committee U → 0 ≤ gc_depth < max_round → causal committee U cs →
  l ∈ genesis committee ++ cs →
  ∃ st out xs, run committee gc_depth cs = Ret (st, out) ∧ order_dag gc_depth l st = Ret xs ∧
    NoDup (digest <$> xs) ∧ StronglySorted (λ a b, round a ≤ round b) xs ∧
    ∀ c, c ∈ xs ↔ rtc (dstep st) l c ∧ last_committed_round st ≤ uint64 (round c + gc_depth).
Proof.
  intros Hcom Hcert Hgc Hcs Hl.
  destruct (run_spec committee gc_depth U Hcom Hcert Hgc cs Hcs) as (st & _ & out & _ & Hr & Hok & _).
  destruct (no_closed _ _ _ Hok) as [HU _].
  destruct (order_dag_spec st (node_dag_ok committee U Hcert _ _ Hok) l (ce_round _ _ Hcert l (HU l Hl))) with (gc_depth := gc_depth)
    as (xs & Hxs & Hnd & Hs & Hin); [|by exists st, out, xs].
  intros r n y Hslot Hd. destruct (no_slot _ _ _ Hok _ _ _ _ Hslot) as (Hy & _ & _).
  pose proof (ce_digest _ _ Hcert y l (HU y Hy) (HU l Hl) Hd) as Hk. by injection Hk.
Qed.

(** A node that receives every certificate at most once commits every
    certificate at most once. *)
Theorem Tusk_no_duplicates `{DagCrypto} committee gc_depth U cs :
  committee_ok committee → certified committee U → 0 ≤ gc_depth < max_round → causal committee U cs →
  NoDup (key <$> genesis committee ++ cs) →
  ∃ st out, run committee gc_depth cs = Ret (st, out) ∧ NoDup (key <$> out) ∧ ∀ c, c ∈ out → c ∈ genesis committee ++ cs.
Proof.
  intros Hcom Hcert Hgc Hcs Hnd. destruct (run_fresh committee gc_depth U Hcom Hcert Hgc cs Hcs Hnd) as (st & _ & out & Hr & _ & _ & Hfr).
  exists st, out. split_and!; [done|apply Hfr|apply Hfr].
Qed.

(** ** A network of four *)

(** Checkers for concrete networks. *)
Definition certifiedb `{DagCrypto} (committee : Committee) (l : list Certificate) : bool :=
  forallb (λ c, (0 <=? round c) && (round c <? max_round)) l &&
  forallb (λ c, forallb (λ c', implb (bool_decide (key c = key c'))
    (bool_decide (h_id (c_header c) = h_id (c_header c')) && bool_decide (parents c = parents c'))) l) l &&
  forallb (λ c, forallb (λ c', implb (bool_decide (digest c = digest c')) (bool_decide (key c = key c'))) l) l &&
  forallb (λ c, forallb (λ d, existsb (λ p, bool_decide (digest p = d) && (round p + 1 =? round c)) l) (parents c)) l &&
  forallb (λ c, (round c <=? 0) ||
    let ps := filter (λ p, digest p ∈ parents c) l in
    bool_decide (NoDup (origin <$> ps)) && (quorum_threshold committee <=? zsum (stake committee) (origin <$> ps))) l &&
  forallb (λ g, bool_decide (g ∈ l)) (genesis committee).

Lemma forallb_elem {A} (f : A → bool) l x : forallb f l = true → x ∈ l → f x = true.
Proof. intros Hf Hx. rewrite forallb_forall in Hf. apply Hf. by apply list_elem_of_In. Qed.

Lemma certifiedb_spec `{DagCrypto} committee l : certifiedb committee l = true → certified committee (λ c, c ∈ l).
Proof.
  unfold certifiedb. rewrite !andb_true_iff. intros (((((H1 & H2) & H3) & H4) & H5) & H6). split.
  - intros c Hc. pose proof (forallb_elem _ _ _ H1 Hc) as Hb. simpl in Hb. lia.
  - intros c c' Hc Hc' Hk. pose proof (forallb_elem _ _ _ (forallb_elem _ _ _ H2 Hc) Hc') as Hb. simpl in Hb.
    rewrite bool_decide_true in Hb by done. simpl in Hb. by apply andb_true_iff in Hb as [?%bool_decide_eq_true ?%bool_decide_eq_true].
  - intros c c' Hc Hc' Hd. pose proof (forallb_elem _ _ _ (forallb_elem _ _ _ H3 Hc) Hc') as Hb. simpl in Hb.
    rewrite bool_decide_true in Hb by done. simpl in Hb. by apply bool_decide_eq_true in Hb.
  - intros c d Hc Hd. pose proof (forallb_elem _ _ _ (forallb_elem _ _ _ H4 Hc) Hd) as Hb. simpl in Hb.
    apply existsb_exists in Hb as (p & Hp & Hb). apply andb_true_iff in Hb as [?%bool_decide_eq_true ?].
    exists p. split_and!; [by apply list_elem_of_In|done|lia].
  - intros c Hc Hr. pose proof (forallb_elem _ _ _ H5 Hc) as Hb. cbv zeta beta in Hb. apply orb_true_iff in Hb as [?|Hb]; [lia|].
    apply andb_true_iff in Hb as [Hnd%bool_decide_eq_true Hq]. eexists. split_and!; [exact Hnd| |lia].
    intros p [? ?]%list_elem_of_filter. done.
  - intros g Hg. by apply (forallb_elem _ _ _ H6), bool_decide_eq_true in Hg.
Qed.

Fixpoint causalb `{DagCrypto} (l seen cs : list Certificate) : bool :=
  match cs with
  | [] => true
  | c :: cs => bool_decide (c ∈ l) && forallb (λ d, existsb (λ p, bool_decide (digest p = d)) seen) (parents c) && causalb l (seen ++ [c]) cs
  end.

Lemma causalb_spec `{DagCrypto} committee l cs : causalb l (genesis committee) cs = true → causal committee (λ c, c ∈ l) cs.
Proof.
  intros Hb. assert (∀ cs0, causal committee (λ c, c ∈ l) cs0 → causalb l (genesis committee ++ cs0) cs = true →
    causal committee (λ c, c ∈ l) (cs0 ++ cs)) as Hgo; [|apply (Hgo []); [constructor|by rewrite app_nil_r]].
  clear Hb. induction cs as [|c cs IH]; intros cs0 Hcs0 Hb; [by rewrite app_nil_r|]. cbn [causalb] in Hb.
  apply andb_true_iff in Hb as [[Hc%bool_decide_eq_true Hd]%andb_true_iff Hb]. rewrite <-app_assoc in Hb.
  rewrite cons_middle, app_assoc. apply IH; [|done]. apply causal_snoc; [done|done|]. intros d Hdd.
  apply (forallb_elem _ _ _ Hd), existsb_exists in Hdd as (p & Hp & ?%bool_decide_eq_true). exists p. split; [by apply list_elem_of_In|done].
Qed.

Definition toy_dag_crypto : DagCrypto :=
  {| sha512_32 := λ b, b; sig_verify := λ _ _ _, true; sig_verify_batch := λ _ _, true |}.
#[local] Existing Instance toy_dag_crypto.

Definition four : Committee := mkCommittee ((λ k, ([k], mkAuthority 1 [])) <$> [x61; x62; x63; x64]).
Definition toy_cert (a : byte) (r : Z) (ps : list Certificate) : Certificate :=
  mkCertificate (mkHeader [a] r [] (digest <$> ps) [x01] []) [].

(** Authors [a] to [d], nine rounds.  [d2] is a parent of [c3] only, which is
    a parent of [d4] only. *)
Definition a1 := toy_cert x61 1 (genesis four).
Definition b1 := toy_cert x62 1 (genesis four).
Definition c1 := toy_cert x63 1 (genesis four).
Definition d1 := toy_cert x64 1 (genesis four).
Definition a2 := toy_cert x61 2 [a1; b1; c1].
Definition b2 := toy_cert x62 2 [a1; b1; c1].
Definition c2 := toy_cert x63 2 [a1; b1; c1].
Definition d2 := toy_cert x64 2 [b1; c1; d1].
Definition a3 := toy_cert x61 3 [a2; b2; c2].
Definition b3 := toy_cert x62 3 [a2; b2; c2].
Definition c3 := toy_cert x63 3 [a2; b2; d2].
Definition d3 := toy_cert x64 3 [a2; b2; c2].
Definition a4 := toy_cert x61 4 [a3; b3; d3].
Definition b4 := toy_cert x62 4 [a3; b3; d3].
Definition c4 := toy_cert x63 4 [a3; b3; d3].
Definition d4 := toy_cert x64 4 [b3; c3; d3].
Definition a5 := toy_cert x61 5 [a4; b4; c4].
Definition b5 := toy_cert x62 5 [a4; b4; c4].
Definition c5 := toy_cert x63 5 [a4; b4; c4].
Definition d5 := toy_cert x64 5 [b4; c4; d4].
Definition a6 := toy_cert x61 6 [a5; b5; c5].
Definition b6 := toy_cert x62 6 [a5; b5; c5].
Definition c6 := toy_cert x63 6 [a5; b5; d5].
Definition d6 := toy_cert x64 6 [a5; b5; c5].
Definition a7 := toy_cert x61 7 [a6; b6; d6].
Definition b7 := toy_cert x62 7 [a6; b6; c6].
Definition c7 := toy_cert x63 7 [a6; b6; c6].
Definition a8 := toy_cert x61 8 [a7; b7; c7].
Definition b8 := toy_cert x62 8 [a7; b7; c7].
Definition c8 := toy_cert x63 8 [a7; b7; c7].
Definition a9 := toy_cert x61 9 [a8; b8; c8].

(** Everything that does not depend on [d2], up to the certificate that
    commits [a4]; and what depends on it. *)
Definition before : list Certificate := [a1; b1; c1; d1; a2; b2; c2; a3; b3; d3; a4; b4; c4; a5; b5; c5; a6; b6; d6].
Definition after : list Certificate := [c3; d4; d5; c6; b7; c7; a8; b8; c8].
Definition early_d2 : list Certificate := before ++ [d2; a7] ++ after ++ [a9].
Definition late_d2 : list Certificate := before ++ [a7; d2] ++ after ++ [a9].
Definition repeated_b2 : list Certificate := before ++ [d2; a7] ++ after ++ [b2; a9].
Definition network : list Certificate := genesis four ++ early_d2.

Lemma four_ok : committee_ok four.
Proof.
  split; [apply (bool_decide_unpack _); vm_compute; exact I| |done].
  intros p Hp. unfold four in Hp. cbn [authorities] in Hp. apply list_elem_of_fmap in Hp as (k & -> & _). done.
Qed.

Lemma network_certified : certified four (λ c, c ∈ network).
Proof. apply certifiedb_spec. vm_compute. reflexivity. Qed.
Lemma early_causal : causal four (λ c, c ∈ network) early_d2.
Proof. apply causalb_spec. vm_compute. reflexivity. Qed.
Lemma late_causal : causal four (λ c, c ∈ network) late_d2.
Proof. apply causalb_spec. vm_compute. reflexivity. Qed.
Lemma repeated_causal : causal four (λ c, c ∈ network) repeated_b2.
Proof. apply causalb_spec. vm_compute. reflexivity. Qed.
Lemma early_distinct : NoDup (key <$> genesis four ++ early_d2).
Proof. apply (bool_decide_unpack _). vm_compute. exact I. Qed.
Lemma late_distinct : NoDup (key <$> genesis four ++ late_d2).
Proof. apply (bool_decide_unpack _). vm_compute. exact I. Qed.
Lemma late_permutes_early : early_d2 ≡ₚ late_d2.
Proof. unfold early_d2, late_d2. apply Permutation_app_head. cbn [app]. constructor. Qed.
Lemma gc_50 : 0 ≤ 50 < max_round.
Proof. done. Qed.

Definition output (cs : list Certificate) : list Certificate :=
  match run four 50 cs with Ret (_, out) => out | Panic _ => [] end.

Definition leaders (cs : list Certificate) : list Certificate :=
  match leaders_log four 50 cs with Ret (_, log) => log | Panic _ => [] end.

Lemma run_output cs :
  causal four (λ c, c ∈ network) cs → ∃ st, run four 50 cs = Ret (st, output cs) ∧ leaders_log four 50 cs = Ret (st, leaders cs).
Proof.
  intros Hcs. destruct (run_spec four 50 (λ c, c ∈ network) four_ok network_certified gc_50 cs Hcs) as (st & log & out & Hl & Hr & _).
  exists st. unfold output, leaders. by rewrite Hr, Hl.
Qed.

(** C37: the order of delivery decides what is committed.  Four authorities,
    all honest, certify one DAG; two nodes receive all of it, every
    certificate once and after its parents, in orders that differ only in the
    place of one certificate.  Both commit the same leaders, three of them, but
    one commits that certificate and the other never does, so that the
    outputs are not prefixes of one another. *)
Theorem Tusk_outputs_diverge :
  committee_ok four ∧ certified four (λ c, c ∈ network) ∧
  causal four (λ c, c ∈ network) early_d2 ∧ causal four (λ c, c ∈ network) late_d2 ∧
  early_d2 ≡ₚ late_d2 ∧ NoDup (key <$> genesis four ++ early_d2) ∧
  ∃ st1 out1 st2 out2, run four 50 early_d2 = Ret (st1, out1) ∧ run four 50 late_d2 = Ret (st2, out2) ∧
    (∃ log, leaders_log four 50 early_d2 = Ret (st1, log) ∧ leaders_log four 50 late_d2 = Ret (st2, log) ∧ length log = 3%nat) ∧
    (d2 ∉ out1) ∧ d2 ∈ out2 ∧ ¬ out1 `prefix_of` out2 ∧ ¬ out2 `prefix_of` out1.
Proof.
  split_and!; [apply four_ok|apply network_certified|apply early_causal|apply late_causal|apply late_permutes_early|apply early_distinct|].
  destruct (run_output early_d2 early_causal) as (st1 & H1 & L1). destruct (run_output late_d2 late_causal) as (st2 & H2 & L2).
  assert (leaders late_d2 = leaders early_d2) as E by (apply (bool_decide_unpack _); vm_compute; exact I). rewrite E in L2.
  exists st1, (output early_d2), st2, (output late_d2). split_and!; [exact H1|exact H2| |..].
  { exists (leaders early_d2). split_and!; [exact L1|exact L2|vm_compute; reflexivity]. }
  all: apply (bool_decide_unpack _); vm_compute; exact I.
Qed.

(** A certificate that the node receives a second time after it was
    committed and cleaned up is committed a second time. *)
Theorem Tusk_commits_twice :
  committee_ok four ∧ certified four (λ c, c ∈ network) ∧ causal four (λ c, c ∈ network) repeated_b2 ∧
  ∃ st out, run four 50 repeated_b2 = Ret (st, out) ∧ ¬ NoDup out.
Proof.
  split_and!; [apply four_ok|apply network_certified|apply repeated_causal|].
  destruct (run_output repeated_b2 repeated_causal) as (st & H1 & _). exists st, (output repeated_b2). split; [exact H1|].
  apply (bool_decide_unpack _). vm_compute. exact I.
Qed.

(** ** Witnesses *)

Lemma Tusk_leaders_agree_witness :
  ∃ st1 log1 st2 log2, leaders_log four 50 early_d2 = Ret (st1, log1) ∧ leaders_log four 50 late_d2 = Ret (st2, log2) ∧
    ((key <$> log1) `prefix_of` (key <$> log2) ∨ (key <$> log2) `prefix_of` (key <$> log1)).
Proof.
  destruct (Tusk_leaders_agree four 50 (λ c, c ∈ network) early_d2 late_d2 four_ok network_certified gc_50 early_causal late_causal)
    as (st1 & log1 & out1 & st2 & log2 & out2 & H1 & _ & H2 & _ & H3 & _).
  exists st1, log1, st2, log2. split; [exact H1|]. split; [exact H2|exact H3].
Defined.

Lemma order_dag_exact_witness :
  ∃ st out xs, run four 50 late_d2 = Ret (st, out) ∧ order_dag 50 a9 st = Ret xs ∧ NoDup (digest <$> xs).
Proof.
  destruct (order_dag_exact four 50 (λ c, c ∈ network) late_d2 a9 four_ok network_certified gc_50 late_causal) as (st & out & xs & H1 & H2 & H3 & _).
  - apply (bool_decide_unpack _). vm_compute. exact I.
  - exists st, out, xs. split; [exact H1|]. split; [exact H2|exact H3].
Defined.

Lemma Tusk_no_duplicates_witness : ∃ st out, run four 50 late_d2 = Ret (st, out) ∧ NoDup (key <$> out).
Proof.
  destruct (Tusk_no_duplicates four 50 (λ c, c ∈ network) late_d2 four_ok network_certified gc_50 late_causal late_distinct) as (st & out & H1 & H2 & _).
  exists st, out. split; [exact H1|exact H2].
Defined.
