(* ===== verification/NarwhalProperties.v ===== *)
(** * Narwhal: properties

    Certificates and aggregation, the core of a primary, its tasks, the
    composition with Tusk, and executions in which a primary fails. *)
From S2P Require Import Prelude.
From S2P Require Import Proto.
From S2P Require Import Narwhal.
From S2P Require Import NarwhalQuorum.
From S2P Require Import NarwhalTheorems.
From S2P Require Import NarwhalCore.
From S2P Require Import NarwhalCoreSteps.
From S2P Require Import NarwhalInvariant.
From S2P Require Import NarwhalTurns.
From S2P Require Import NarwhalTasks.
From S2P Require Import NarwhalWorker.
From S2P Require Import NarwhalTaskProofs.
From S2P Require Import NarwhalToy.
From S2P Require Import Tusk.
From S2P Require Import TuskState.
From S2P Require Import TuskSafety.
From S2P Require Import TuskAgreement.
From S2P Require Import NarwhalNetwork.
From S2P Require Import NarwhalExample.

(** ** Narwhal with Tusk *)

(** C2: agreement of the whole protocol.  Primaries with more than two thirds
    of the stake run the code, from an empty store and without a panic, on
    whatever messages reach them; rounds stay below 2^62, no signature of
    theirs is forged and no hash collides.  Then the consensus of any two of
    them, fed with what their cores accept, does not panic, and the leaders
    they commit are prefixes of one another; or else the execution shows one
    of three things that the code lets through ([exposed]): at one of these
    primaries a waiter looped back after the round was collected, a header in
    its own name that it had not voted for passed the checks, or a vote passed
    them before its first header; a certificate with parents was accepted as
    one of the genesis; or a header that verifies has the id but not the
    parents of an accepted certificate. *)
Theorem Narwhal_Tusk_agree `{DagCrypto} {laws : DagCryptoLaws} `{Bincode} {blaws : BincodeLaws} committee gc_depth N n1 n2 :
  committee_ok committee → 0 ≤ gc_depth < max_round → network_ok committee gc_depth N → n1 ∈ honest N → n2 ∈ honest N →
  exposed committee gc_depth N ∨
  ∃ st1 log1 out1 st2 log2 out2,
    leaders_log committee gc_depth (accepted (out (final N n1))) = Ret (st1, log1) ∧
    run committee gc_depth (accepted (out (final N n1))) = Ret (st1, out1) ∧
    leaders_log committee gc_depth (accepted (out (final N n2))) = Ret (st2, log2) ∧
    run committee gc_depth (accepted (out (final N n2))) = Ret (st2, out2) ∧
    ((key <$> log1) `prefix_of` (key <$> log2) ∨ (key <$> log2) `prefix_of` (key <$> log1)) ∧
    (∀ l, l ∈ log1 → l ∈ out1) ∧ (∀ l, l ∈ log2 → l ∈ out2).
Proof.
  intros Hcom Hgc Hnet H1 H2. destruct (exposed_or_not committee gc_depth N) as [?|Hex]; [by left|right].
  apply (leaders_agree committee gc_depth (λ c, c ∈ certificates committee N) Hcom).
  - by eapply network_dag.
  - done.
  - by eapply network_causal.
  - by eapply network_causal.
Qed.

Lemma Narwhal_Tusk_agree_witness :
  ∃ st1 log1 out1 st2 log2 out2,
    leaders_log quartet quartet_gc stream_a = Ret (st1, log1) ∧ run quartet quartet_gc stream_a = Ret (st1, out1) ∧
    leaders_log quartet quartet_gc stream_c = Ret (st2, log2) ∧ run quartet quartet_gc stream_c = Ret (st2, out2) ∧
    ((key <$> log1) `prefix_of` (key <$> log2) ∨ (key <$> log2) `prefix_of` (key <$> log1)) ∧
    (∀ l, l ∈ log1 → l ∈ out1) ∧ (∀ l, l ∈ log2 → l ∈ out2).
Proof.
  unfold stream_a, stream_c. destruct example_network as [Hnet Hex].
  destruct (Narwhal_Tusk_agree quartet quartet_gc (toy_network traces5) (name_of x61) (name_of x63)) as [He|Hok];
    [apply quartet_ok|done|exact Hnet|by left|right; right; by left|by destruct Hex|exact Hok].
Defined.

(** ** Certificates *)

(** C21: two certificates that verify, whatever they certify, share voters with
    at least a third of the stake, and the signatures of each have passed the
    batch check for its digest; unless one of the two has the header of a
    genesis certificate, which verifies without votes. *)
Theorem certificates_intersect `{DagCrypto} committee c c' :
  committee_ok committee → Certificate_verify committee c = None → Certificate_verify committee c' = None →
  genesis_like committee c = true ∨ genesis_like committee c' = true ∨
  sig_verify_batch (digest c) (c_votes c) = true ∧ sig_verify_batch (digest c') (c_votes c') = true ∧
  ∃ l, NoDup l ∧ validity_threshold committee ≤ zsum (stake committee) l ∧
    ∀ n, n ∈ l → ∃ s s', (n, s) ∈ c_votes c ∧ (n, s') ∈ c_votes c'.
Proof.
  intros Hcom Hv Hv'. destruct (genesis_like committee c) eqn:Hg; [by left|right].
  destruct (genesis_like committee c') eqn:Hg'; [by left|right].
  destruct (certificate_verify_sound committee Hcom c Hv Hg) as (_ & Hnd & Hq & Hs).
  destruct (certificate_verify_sound committee Hcom c' Hv' Hg') as (_ & Hnd' & Hq' & Hs').
  split_and!; [done|done|]. exists (filter (λ n, n ∈ (c_votes c').*1) (c_votes c).*1). split_and!; [by apply NoDup_filter| |].
  - pose proof (shared_stake committee Hcom _ _ Hnd Hnd'). pose proof (quorum_quorum committee Hcom). lia.
  - intros n [(p' & -> & Hp')%list_elem_of_fmap (p & Hn & Hp)%list_elem_of_fmap]%list_elem_of_filter.
    destruct p as [k s], p' as [k' s']. cbn in *. subst. by exists s, s'.
Qed.

(** A header of [a] with some payload, certified by the last three. *)
Definition certified_header (payload : list (bytes * Z)) (voters : list bytes) : Certificate :=
  let h := Header_new (toy_sign (name_of x61)) (name_of x61) 1 payload (digest <$> genesis quartet) in
  mkCertificate h ((λ n, (n, toy_sign n (dag_digest (h_id h) 1 (name_of x61)))) <$> voters).

Lemma certificates_intersect_witness :
  ∃ l, NoDup l ∧ validity_threshold quartet ≤ zsum (stake quartet) l ∧
    ∀ n, n ∈ l → ∃ s s', (n, s) ∈ c_votes (certified_header [] (take 3 names)) ∧
      (n, s') ∈ c_votes (certified_header [(zeros 32, 0)] (drop 1 names)).
Proof.
  destruct (certificates_intersect quartet (certified_header [] (take 3 names)) (certified_header [(zeros 32, 0)] (drop 1 names)))
    as [Hg|[Hg|(_ & _ & Hl)]]; [apply quartet_ok|vm_compute; reflexivity..|vm_compute in Hg; discriminate Hg|vm_compute in Hg; discriminate Hg|exact Hl].
Defined.

(** The aggregator of votes for one header, given verified votes for it in
    any order and with any repetitions, makes one certificate, which verifies,
    when the voters form a quorum, and none when they do not. *)
Theorem VotesAggregator_exact `{DagCrypto} {laws : DagCryptoLaws} committee header votes :
  committee_ok committee → Header_verify committee header = None → (∀ v, v ∈ votes → good_vote committee header v) →
  let weight := zsum (stake committee) (remove_dups (dv_author <$> votes)) in
  (weight < quorum_threshold committee ∧ (aggregate committee header votes).2 = []) ∨
  (quorum_threshold committee ≤ weight ∧ ∃ c, (aggregate committee header votes).2 = [c] ∧
    c_header c = header ∧ Certificate_verify committee c = None).
Proof.
  intros Hcom Hh Hg weight. destruct (aggregate_ok committee Hcom header votes Hg) as [Hok Hin].
  destruct (aggregate committee header votes) as [va outs]. cbn [fst snd] in *.
  assert (weight = zsum (stake committee) (va_votes va).*1) as Hw.
  { apply zsum_perm, NoDup_Permutation; [apply NoDup_remove_dups|apply Hok|]. intros n. by rewrite elem_of_remove_dups, Hin. }
  destruct (ag_state _ _ _ _ Hok) as [(-> & Hz & Hlt)|(n & -> & Hq & _)]; [left; split; [lia|done]|right].
  assert (zsum (stake committee) (va_votes va).*1 =
    zsum (stake committee) (take n (va_votes va)).*1 + zsum (stake committee) (drop n (va_votes va)).*1) as Hsplit.
  { by rewrite <-zsum_app, <-fmap_app, take_drop. }
  assert (0 ≤ zsum (stake committee) (drop n (va_votes va)).*1) by (apply zsum_nonneg; intros; by apply stake_nonneg).
  split; [lia|]. eexists. split; [reflexivity|]. eapply agg_verifies; [done|exact Hok|done|by left].
Qed.

Definition header_a : Header := c_header (certified_header [] []).
Definition vote_of (n : bytes) : DagVote := Vote_new (toy_sign n) header_a n.

Lemma VotesAggregator_exact_witness :
  let votes := [vote_of (name_of x62); vote_of (name_of x62); vote_of (name_of x61); vote_of (name_of x64)] in
  let weight := zsum (stake quartet) (remove_dups (dv_author <$> votes)) in
  (weight < quorum_threshold quartet ∧ (aggregate quartet header_a votes).2 = []) ∨
  (quorum_threshold quartet ≤ weight ∧ ∃ c, (aggregate quartet header_a votes).2 = [c] ∧
    c_header c = header_a ∧ Certificate_verify quartet c = None).
Proof.
  apply VotesAggregator_exact; [apply quartet_ok|vm_compute; reflexivity|].
  intros v Hv. rewrite !elem_of_cons in Hv. destruct Hv as [->|[->|[->|[->|Hv]]]]; [..|by apply not_elem_of_nil in Hv];
    (split; [vm_compute; reflexivity|done]).
Defined.

(** ** The core *)

(** C18: every handler of the core returns.  The three handlers call each other
    through votes and certificates of our own; no call nests deeper than
    [call_depth], whatever the state and the event, and more fuel than that
    changes nothing. *)
Theorem core_returns `{DagCrypto} `{Bincode} name committee request_signature s e :
  handle name committee request_signature s e ≠ NoFuel ∧
  (∀ n h, (call_depth ≤ n)%nat →
    process_header name committee request_signature n s h = process_header name committee request_signature call_depth s h) ∧
  (∀ n v, (call_depth ≤ n)%nat →
    process_vote name committee request_signature n s v = process_vote name committee request_signature call_depth s v) ∧
  (∀ n c, (call_depth ≤ n)%nat →
    process_certificate name committee request_signature n s c = process_certificate name committee request_signature call_depth s c).
Proof.
  destruct (depth name committee request_signature) as (Hh & Hv & Hc). unfold call_depth. split_and!.
  - destruct e as [[h|v|c|ds q]|h|c|h]; cbn [handle]; unfold sanitized, process_own_header; try case_match; try done;
      unfold call_depth; first [apply Hh|apply Hv|apply Hc]; lia.
  - intros n h Hn. apply (fuel_mono name committee request_signature _ _ Hn), Hh. lia.
  - intros n v Hn. apply (fuel_mono name committee request_signature _ _ Hn), Hv. lia.
  - intros n c Hn. apply (fuel_mono name committee request_signature _ _ Hn), Hc. lia.
Qed.

(** C9: over any run of a primary that starts with an empty store, on any
    messages: of the rounds that it has not collected it has signed at most
    one vote per author and round.  Every vote is for a header that verified
    (or has the round and id of the genesis), with a quorum of parents of the
    round before, which are genesis certificates or certificates the primary
    has passed to consensus.  Consensus receives no certificate before a
    parent of it, unless the digest of that parent is the key of something
    else in the store ([other_key]): the id of a header or the key of a batch.
    And if no stray occurs ([strays]), no two votes at all have the same
    author and round, and every certificate passed to consensus verifies. *)
Theorem core_votes_once `{DagCrypto} {laws : DagCryptoLaws} `{Bincode} {blaws : BincodeLaws}
    name committee gc_depth request_signature es s :
  committee_ok committee → (∀ d, sig_verify (request_signature d) d name = true) →
  run_ok name committee gc_depth request_signature (Core_new ∅) es →
  primary_run name committee gc_depth request_signature (Core_new ∅) es = Some s →
  NoDup (vote_key <$> filter (λ v, gc_round s ≤ dv_round v) (signed (out s))) ∧
  (∀ v, v ∈ signed (out s) → ∃ h ps, backed committee (λ h, h ∈ trace_headers es) (accepted (out s)) v h ps) ∧
  (∀ cs1 c cs2 d, accepted (out s) = cs1 ++ c :: cs2 → d ∈ parents c →
    (∃ p, p ∈ genesis committee ++ cs1 ∧ digest p = d) ∨ other_key committee (λ h, h ∈ trace_headers es) d) ∧
  (strays name committee gc_depth request_signature (Core_new ∅) es = false →
    NoDup (vote_key <$> signed (out s)) ∧ ∀ c, c ∈ accepted (out s) → Certificate_verify committee c = None).
Proof.
  intros Hcom Hsign Hok Hrun.
  destruct (run_kept name committee gc_depth request_signature Hcom Hsign (λ h, h ∈ trace_headers es)
    (negb (strays name committee gc_depth request_signature (Core_new ∅) es)) (Core_new ∅) es s) as [Hinv _];
    [by apply new_kept|done|done|by intros ?%negb_true_iff|done|].
  split_and!; [apply Hinv|apply Hinv| |].
  - intros cs1 c cs2 d Hsp Hd. by apply (iv_causal _ _ _ _ _ _ _ _ _ _ Hinv cs1 c cs2).
  - intros Hst. split; [apply Hinv; by rewrite Hst|]. intros c Hc.
    apply (iv_accepted _ _ _ _ _ _ _ _ _ _ Hinv c (or_introl Hc)). by rewrite Hst.
Qed.

Lemma core_votes_once_witness :
  NoDup (vote_key <$> signed (out core_b)) ∧
  (∀ v, v ∈ signed (out core_b) → ∃ h ps, backed quartet (λ h, h ∈ trace_headers (trace_of traces5 (name_of x62))) (accepted (out core_b)) v h ps) ∧
  (∀ c, c ∈ accepted (out core_b) → Certificate_verify quartet c = None) ∧
  (∀ cs1 c cs2 d, accepted (out core_b) = cs1 ++ c :: cs2 → d ∈ parents c →
    (∃ p, p ∈ genesis quartet ++ cs1 ∧ digest p = d) ∨ other_key quartet (λ h, h ∈ trace_headers (trace_of traces5 (name_of x62))) d).
Proof.
  destruct example_run as (Hok & Hst & Hrun).
  pose proof (core_votes_once (name_of x62) quartet quartet_gc (toy_sign (name_of x62))
    (trace_of traces5 (name_of x62)) core_b quartet_ok (toy_sign_ok (name_of x62)) Hok Hrun) as Hx.
  exact (conj (proj1 (proj2 (proj2 (proj2 Hx)) Hst)) (conj (proj1 (proj2 Hx))
    (conj (proj2 (proj2 (proj2 (proj2 Hx)) Hst)) (proj1 (proj2 (proj2 Hx)))))).
Defined.

(** ** A second vote *)

(** Two headers of [b] for one round: the first needs a batch that [a] does
    not have yet. *)
Definition header_b (payload : list (bytes * Z)) : Header :=
  Header_new (toy_sign (name_of x62)) (name_of x62) 1 payload (digest <$> genesis quartet).
Definition looped_events : list PrimaryEvent :=
  [Turn (EMessage (MHeader (header_b [(zeros 32, 0)]))) 0; Turn (EMessage (MHeader (header_b []))) 52;
   Payload (zeros 32) 0; Turn (ELoopHeader (header_b [(zeros 32, 0)])) 52].

(** Once the round of a header is collected, nothing keeps the core from
    voting for it a second time.  [a] waits for a batch of the first header
    and votes for the second; consensus goes on and the core forgets its vote;
    the batch arrives and the waiter loops the first header back.  Each event
    is one that the tasks of a primary make, the primary does not stop, and it
    has signed two votes for different headers of one author and round. *)
Theorem late_loop_back_votes_twice :
  run_ok (name_of x61) quartet quartet_gc (toy_sign (name_of x61)) (Core_new ∅) looped_events ∧
  ∃ s v v', primary_run (name_of x61) quartet quartet_gc (toy_sign (name_of x61)) (Core_new ∅) looped_events = Some s ∧
    signed (out s) = [v; v'] ∧ vote_key v = vote_key v' ∧ dv_id v ≠ dv_id v' ∧ gc_round s = 2.
Proof.
  split; [apply run_okb_spec; vm_compute; reflexivity|].
  assert (match primary_run (name_of x61) quartet quartet_gc (toy_sign (name_of x61)) (Core_new ∅) looped_events with
    | Some s => match signed (out s) with
        | [v; v'] => bool_decide (vote_key v = vote_key v') && bool_decide (dv_id v ≠ dv_id v') && (gc_round s =? 2)
        | _ => false end
    | None => false end = true) as Hrun by (vm_compute; reflexivity).
  destruct (primary_run _ _ _ _ _ _) as [s|]; [|done]. destruct (signed (out s)) as [|v [|v' []]] eqn:Hs; try done.
  rewrite !andb_true_iff, !bool_decide_eq_true, Z.eqb_eq in Hrun. destruct Hrun as [[? ?] ?]. by exists s, v, v'.
Qed.

(** ** Where a primary stops *)

Definition own_name : bytes := name_of x61.
Definition late_events : list PrimaryEvent :=
  [Turn (EOwnHeader header_a) 52; Turn (EMessage (MVote (vote_of (name_of x62)))) 52].
Definition last_vote : PrimaryEvent := Turn (EMessage (MVote (vote_of (name_of x63)))) 52.

(** Votes that come late kill the core.  A primary has proposed a header
    and voted for it; consensus has since gone more than the collection depth
    beyond its round, so the core has forgotten that it voted.  When other
    votes then complete the certificate, the core processes its header again,
    votes again, and the refusal of that second vote is a panic.  Every event
    is one a primary can meet. *)
Theorem late_votes_panic :
  run_ok own_name quartet quartet_gc (toy_sign own_name) (Core_new ∅) (late_events ++ [last_vote]) ∧
  strays own_name quartet quartet_gc (toy_sign own_name) (Core_new ∅) (late_events ++ [last_vote]) = false ∧
  (∃ s, primary_run own_name quartet quartet_gc (toy_sign own_name) (Core_new ∅) late_events = Some s ∧
    sanitize_vote quartet s (vote_of (name_of x63)) = None) ∧
  primary_run own_name quartet quartet_gc (toy_sign own_name) (Core_new ∅) (late_events ++ [last_vote]) = None.
Proof.
  split_and!; [apply run_okb_spec; vm_compute; reflexivity|vm_compute; reflexivity| |vm_compute; reflexivity].
  assert (match primary_run own_name quartet quartet_gc (toy_sign own_name) (Core_new ∅) late_events with
    | Some s => match sanitize_vote quartet s (vote_of (name_of x63)) with None => true | _ => false end
    | None => false end = true) as Hc by (vm_compute; reflexivity).
  destruct (primary_run _ _ _ _ _ late_events) as [s|]; [|done]. exists s. split; [done|]. by destruct (sanitize_vote _ _ _).
Qed.

(** The store of [a] after two rounds, its header of the first round and its
    certificate of the second. *)
Definition first_core (ns : Nodes) : Core := match ns with (_, (s, _)) :: _ => s | [] => Core_new ∅ end.
Definition restart_store : gmap bytes bytes := store (first_core (simulate 2)).
Definition old_certificate : Certificate :=
  default (certified_header [] []) (head (filter (λ c, round c = 2 ∧ origin c = own_name) (accepted (out (first_core (simulate 2)))))).

(** A primary that restarts, with the store it had, proposes its first
    header again and votes for it.  When a certificate of one of its own
    earlier headers then comes back from another primary, the core votes for
    that header as well, the vote lands in the aggregator of the current
    header, and its refusal is a panic. *)
Theorem restart_panics :
  Certificate_verify quartet old_certificate = None ∧ round old_certificate = 2 ∧ origin old_certificate = own_name ∧
  (∃ s, primary_run own_name quartet quartet_gc (toy_sign own_name) (Core_new restart_store) [Turn (EOwnHeader header_a) 0] = Some s) ∧
  primary_run own_name quartet quartet_gc (toy_sign own_name) (Core_new restart_store)
    [Turn (EOwnHeader header_a) 0; Turn (EMessage (MCertificate old_certificate)) 0] = None.
Proof.
  split_and!; [vm_compute; reflexivity..| |vm_compute; reflexivity].
  assert (match primary_run own_name quartet quartet_gc (toy_sign own_name) (Core_new restart_store) [Turn (EOwnHeader header_a) 0] with
    | Some _ => true | None => false end = true) as Hc by (vm_compute; reflexivity).
  destruct (primary_run _ _ _ _ _ [Turn (EOwnHeader header_a) 0]) as [s|]; [by exists s|done].
Qed.

(** ** What an id and a genesis certificate do not fix *)

(** Nine digests; the same bytes as eight entries of a payload. *)
Definition nine_parents : list bytes := (λ b, replicate 32 b) <$> [x01; x02; x03; x04; x05; x06; x07; x08; x09].
Fixpoint entries (n : nat) (b : bytes) : list (bytes * list byte) :=
  match n with O => [] | S n => (take 32 b, take 4 (drop 32 b)) :: entries n (drop 36 b) end.
Definition of_le (b : list byte) : Z := foldr (λ x z, Z.of_N (Byte.to_N x) + 256 * z) 0 b.
Definition eight_batches : list (bytes * Z) := (λ p, (p.1, of_le p.2)) <$> entries 8 (concat nine_parents).
Definition busy_committee (a : bytes) : Committee := mkCommittee [(a, mkAuthority 1 (eight_batches.*2))].

(** Whatever the hash, two different headers have one id: eight entries
    of a payload are hashed like nine parents.  With the same signature both
    verify or neither does, and so it is with certificates of the two that
    have the same votes.  In both, the collections are sorted, as the code
    keeps them. *)
Theorem header_id_ambiguous `{DagCrypto} (a sig : bytes) (r : Z) (votes : list (bytes * bytes)) :
  let h := mkHeader a r eight_batches [] (Header_digest (mkHeader a r eight_batches [] [] [])) sig in
  let h' := mkHeader a r [] nine_parents (h_id h) sig in
  h_payload h ≠ h_payload h' ∧ h_parents h ≠ h_parents h' ∧ Header_digest h = Header_digest h' ∧
  btree_map eight_batches = eight_batches ∧ btree_set nine_parents = nine_parents ∧
  Header_verify (busy_committee a) h = Header_verify (busy_committee a) h' ∧
  Certificate_verify (busy_committee a) (mkCertificate h votes) = Certificate_verify (busy_committee a) (mkCertificate h' votes).
Proof.
  intros h h'.
  assert (Header_digest h = Header_digest h') as Hd.
  { unfold Header_digest, h, h'. cbn [h_author h_round h_payload h_parents]. by do 3 f_equal. }
  assert (Header_verify (busy_committee a) h = Header_verify (busy_committee a) h') as Hv.
  { unfold Header_verify. rewrite <-Hd. cbn [h_id h_author h_signature h_payload h']. fold h.
    destruct (bool_decide _); [|done]. destruct (0 <? _); [|done]. cbn [negb forallb].
    assert (forallb (λ p : bytes * Z, has_worker (busy_committee a) (h_author h) p.2) (h_payload h) = true) as ->; [|done].
    unfold has_worker, find_authority, busy_committee, h. cbn [authorities assoc_get h_author h_payload]. rewrite decide_True by done.
    vm_compute. reflexivity. }
  split_and!; [vm_compute; discriminate|vm_compute; discriminate|done|vm_compute; reflexivity|vm_compute; reflexivity|done|].
  unfold Certificate_verify. cbn [c_header]. rewrite Hv. done.
Qed.

(** A certificate with the id, the round and an author of the genesis
    verifies whatever its parents, its payload, its signature and its votes. *)
Theorem genesis_unchecked `{DagCrypto} committee a auth payload ps sig votes :
  (a, auth) ∈ authorities committee →
  Certificate_verify committee (mkCertificate (mkHeader a 0 payload ps (zeros 32) sig) votes) = None.
Proof.
  intros Ha. unfold Certificate_verify. destruct (existsb _ _) eqn:He; [done|]. exfalso. apply not_true_iff_false in He. apply He.
  apply existsb_exists. exists (mkCertificate (mkHeader a 0 [] [] (zeros 32) (zeros 64)) []). split.
  - apply list_elem_of_In, list_elem_of_fmap. by exists (a, auth).
  - unfold cert_eqb. by rewrite !bool_decide_eq_true_2.
Qed.

Lemma genesis_unchecked_witness :
  Certificate_verify quartet (mkCertificate (mkHeader own_name 0 [(zeros 32, 7)] [zeros 32] (zeros 32) []) []) = None.
Proof. apply (genesis_unchecked quartet own_name (mkAuthority 1 [0])). by left. Defined.

(** ** Tasks *)

(** The proposer makes headers of strictly growing rounds, hence at most
    one per round; each is its author's, carries its own digest as id, and has
    as parents, sorted, those that the core announced for the round before (or
    the genesis, for round one). *)
Theorem proposer_headers `{DagCrypto} name committee request_signature header_size turns p hs :
  (∀ t ps r, (t, PParents ps r) ∈ turns → 0 ≤ r < 18446744073709551615) →
  proposer_run name request_signature header_size (Proposer_new committee) turns = (p, hs) →
  StronglySorted (λ a b, h_round a < h_round b) hs ∧ ∀ h, h ∈ hs → proposed name committee turns h ∧ NoDup (h_parents h).
Proof.
  intros Hr Hrun.
  destruct (proposer_run_spec name committee request_signature header_size turns turns (Proposer_new committee) p hs) as [Hs Hall];
    [done|done|right; by left|done|].
  split; [done|]. intros h Hh. destruct (Hall h Hh) as [Hp _]. split; [done|]. destruct Hp as (_ & _ & ps & _ & -> & _). apply btree_set_NoDup.
Qed.

Definition toy_turns : list (bool * ProposerEvent) :=
  [(false, PDigest (zeros 32) 0); (true, PTimer); (true, PParents [zeros 32] 1); (false, PDigest (zeros 32) 0); (true, PTimer)].

Lemma proposer_headers_witness :
  ∃ p h1 h2, proposer_run own_name (toy_sign own_name) 32 (Proposer_new quartet) toy_turns = (p, [h1; h2]) ∧
    StronglySorted (λ a b, h_round a < h_round b) [h1; h2] ∧
    ∀ h, h ∈ [h1; h2] → proposed own_name quartet toy_turns h ∧ NoDup (h_parents h).
Proof.
  eexists _, _, _. split; [reflexivity|].
  eapply (proposer_headers own_name quartet (toy_sign own_name) 32 toy_turns); [|reflexivity].
  intros t ps r Hin. unfold toy_turns in Hin. rewrite !elem_of_cons in Hin.
  destruct Hin as [?|[?|[?|[?|[?|Hin]]]]]; [simplify_eq; lia..|by apply not_elem_of_nil in Hin].
Defined.

(** The batch maker neither loses nor reorders a transaction: the batches
    it seals, followed by the current one, are the transactions received; and
    no batch is empty. *)
Theorem batches_complete batch_size es :
  concat (batch_run batch_size BatchMaker_new es).2 ++ current_batch (batch_run batch_size BatchMaker_new es).1 = transactions es ∧
  ∀ b, b ∈ (batch_run batch_size BatchMaker_new es).2 → b ≠ [].
Proof. destruct (batch_run batch_size BatchMaker_new es) as [b bs] eqn:Hr. by apply batch_run_spec in Hr. Qed.

(** The quorum waiter delivers a batch exactly when some worker other than
    ours has acknowledged it and the stake of those that have, with our own,
    is a quorum.  In particular an authority that is a quorum by itself, with
    no other workers, never delivers a batch. *)
Theorem quorum_waiter_exact committee own handlers :
  committee_ok committee → NoDup (own :: handlers) →
  quorum_waiter committee own handlers = true ↔
  handlers ≠ [] ∧ quorum_threshold committee ≤ zsum (stake committee) (own :: handlers).
Proof.
  intros Hcom Hnd. pose proof (stake_total committee Hcom _ Hnd) as Ht. rewrite zsum_cons in *. destruct (co_total _ Hcom).
  unfold quorum_waiter. rewrite await_quorum_spec; rewrite ?zsum_fmap; [|by apply stake_nonneg| |].
  - split; intros [Hne ?]; (split; [|done]); intros Hnil; apply Hne; [by rewrite Hnil|by apply fmap_nil_inv in Hnil].
  - intros x (n & -> & _)%list_elem_of_fmap. by apply stake_nonneg.
  - change (zsum (λ x, id (stake committee x)) handlers) with (zsum (stake committee) handlers). lia.
Qed.

Lemma quorum_waiter_exact_witness :
  (quorum_waiter quartet own_name (drop 1 names) = true ↔
   drop 1 names ≠ [] ∧ quorum_threshold quartet ≤ zsum (stake quartet) (own_name :: drop 1 names)) ∧
  quorum_waiter quartet own_name (drop 1 names) = true.
Proof.
  split; [|vm_compute; reflexivity]. apply quorum_waiter_exact; [apply quartet_ok|]. apply (bool_decide_unpack _). vm_compute. exact I.
Defined.

(** A request for the id of a header that the primary has stored stops the
    helper: the stored bytes are a header's and do not read as a certificate.
    Any committee member's name in the request is enough. *)
Theorem helper_panics `{DagCrypto} {laws : DagCryptoLaws} `{Bincode} {blaws : BincodeLaws}
    name committee s h s' requestor auth :
  check_header name committee s h = Done s' true → find_authority committee requestor = Some auth →
  helper_handle committee (store s') [h_id h] requestor = None.
Proof.
  intros Hc Ha. pose proof (check_header_spec name committee s h) as Hs. rewrite Hc in Hs. destruct Hs as [_ ->].
  unfold helper_handle. rewrite Ha. cbn. by rewrite lookup_insert_eq, de_ser_header.
Qed.

Lemma helper_panics_witness :
  helper_handle quartet (store (set_store (<[h_id header_a := ser_header header_a]>) (Core_new ∅))) [h_id header_a] (name_of x64) = None.
Proof. apply (helper_panics own_name quartet (Core_new ∅) header_a _ (name_of x64) (mkAuthority 1 [0])); vm_compute; reflexivity. Defined.

(** A primary that misses batches of a header asks the workers of the
    header's author to synchronize with the author, and none of its own; such
    a worker then asks itself.  The comments say that our workers get them. *)
Theorem missing_batches_ask_author name committee gc_depth delay st w missing h r w' o :
  waiter_turn name committee gc_depth delay st w (SyncBatches missing h) r = Some (w', o) →
  (∀ x, x ∈ o → ∃ i ds, x = WSynchronize (h_author h) i ds (h_author h)) ∧
  ∀ i st' ws ds now, has_worker committee (h_author h) i = true →
    (synchronize i committee st' ws ds (h_author h) now).2 = [BatchRequest (h_author h) (sync_digests st' ws ds now).2].
Proof.
  unfold waiter_turn. intros Ht. split.
  - destruct (synchronizing w _); [injection Ht as _ <-; intros x Hx; by apply not_elem_of_nil in Hx|].
    cbn [waiter_handle] in Ht. destruct (new_batches _ _ _) as [requests sync]. destruct (forallb _ _); [|done]. injection Ht as _ <-.
    intros x (p & -> & _)%list_elem_of_fmap. by exists p.1, p.2.
  - intros i st' ws ds now Hw. unfold synchronize. destruct (sync_digests _ _ _ _) as [ws' ms]. cbn. by rewrite Hw.
Qed.

Lemma missing_batches_ask_author_witness :
  ∃ w' o, waiter_turn (name_of x62) quartet quartet_gc 10 ∅ HeaderWaiter_new (SyncBatches {[ zeros 32 := 0 ]} header_a) 0 = Some (w', o) ∧
  (∀ x, x ∈ o → ∃ i ds, x = WSynchronize (h_author header_a) i ds (h_author header_a)) ∧
  ∀ i st' ws ds now, has_worker quartet (h_author header_a) i = true →
    (synchronize i quartet st' ws ds (h_author header_a) now).2 = [BatchRequest (h_author header_a) (sync_digests st' ws ds now).2].
Proof.
  eexists _, _. split; [vm_compute; reflexivity|].
  eapply (missing_batches_ask_author (name_of x62) quartet quartet_gc 10 ∅ HeaderWaiter_new {[ zeros 32 := 0 ]} header_a 0).
  vm_compute. reflexivity.
Defined.
