(* ===== verification/VoteOrigin.v ===== *)
(** * Where the votes of a set come from

    Every vote that a vote set or the votes of a height record was given to
    it: a property of all votes passed to [AddVote] is a property of all
    recorded votes.  With it, what a majority says about the messages that a
    node has received. *)
From S2P Require Import Prelude.
From S2P Require Import BitArray.
From S2P Require Import SafeMath.
From S2P Require Import Vote.
From S2P Require Import Validator.
From S2P Require Import SignBytes.
From S2P Require Import ValidatorSet.
From S2P Require Import ValidatorSetPriority.
From S2P Require Import ValidatorSetUpdate.
From S2P Require Import VoteSet.
From S2P Require Import Quorum.
From S2P Require Import VoteSetInv.
From S2P Require Import VoteSetSafety.
From S2P Require Import HeightVoteSet.

Section origin.
Context `{StdTime, Crypto}.
Variable P : Vote → Prop.

Definition votes_from (vs : VoteSet) : Prop :=
  ∀ k bv i v, votesByBlock vs !! k = Some bv → bv_votes bv !! i = Some (Some v) → P v.

Lemma bv_add_from bv vote w bv' :
  bv_addVerifiedVote bv vote w = Ret bv' → P vote →
  (∀ i v, bv_votes bv !! i = Some (Some v) → P v) → ∀ i v, bv_votes bv' !! i = Some (Some v) → P v.
Proof using.
  unfold bv_addVerifiedVote. intros H1 HP Hbv. bind_split H1 o Ho. destruct o as [o|].
  { apply (inj Ret) in H1 as <-. exact Hbv. }
  bind_split H1 x Hx. destruct x as [bits b]. bind_split H1 l Hl. apply (inj Ret) in H1 as <-. simpl.
  unfold slice_set in Hl. case_decide; [|done]. apply (inj Ret) in Hl as <-. intros i v Hi.
  apply list_lookup_insert_Some in Hi as [(_ & [= <-] & _)|[_ Hi] ]; [done|by eapply Hbv].
Qed.

Lemma add_to_block_from vs bv vote w vs' :
  add_to_block vs bv vote (BlockID_Key (vote_BlockID vote)) w = Ret vs' → P vote → votes_from vs →
  (∀ i v, bv_votes bv !! i = Some (Some v) → P v) → votes_from vs'.
Proof using.
  unfold add_to_block. intros H1 HP Hvs Hbv. bind_split H1 x Hx. destruct x as [vals total]. bind_split H1 bv' Hbv'.
  assert (votes_from (with_blocks (with_valSet vs vals) (<[BlockID_Key (vote_BlockID vote):=bv']> (votesByBlock vs)))) as Hnew.
  { intros k bv0 i v Hk Hi. cbn in Hk. apply lookup_insert_Some in Hk as [[_ <-]|[_ Hk] ].
    - by eapply bv_add_from.
    - by eapply Hvs. }
  destruct (_ && _); [|by apply (inj Ret) in H1 as <-]. destruct (maj23 _) eqn:Hm; [by apply (inj Ret) in H1 as <-|].
  bind_split H1 l Hl. apply (inj Ret) in H1 as <-. exact Hnew.
Qed.

Lemma put_vote_from vs vote vs' : put_vote vs vote = Ret vs' → votesByBlock vs' = votesByBlock vs ∧ valSet vs' = valSet vs.
Proof using.
  unfold put_vote. intros H1. bind_split H1 l Hl. bind_split H1 x Hx. destruct x as [bits b].
  by apply (inj Ret) in H1 as <-.
Qed.

Lemma add_to_votes_from vs vote k w vs' c :
  add_to_votes vs vote k w = Ret (vs', c) → votesByBlock vs' = votesByBlock vs ∧ valSet vs' = valSet vs.
Proof using.
  unfold add_to_votes. intros H1. bind_split H1 o Ho. destruct o as [o|].
  - destruct (BlockID_Equals _ _); [done|]. destruct (match maj23 vs with Some _ => _ | None => _ end).
    + bind_split H1 vs1 H2. apply (inj Ret) in H1. injection H1 as <- _. by eapply put_vote_from.
    + apply (inj Ret) in H1. by injection H1 as <- _.
  - bind_split H1 vs1 H2. apply (inj Ret) in H1. injection H1 as <- _. by eapply put_vote_from in H2.
Qed.

Lemma addVerifiedVote_from vs vote w vs' a c :
  addVerifiedVote vs vote (BlockID_Key (vote_BlockID vote)) w = Ret (vs', a, c) → P vote → votes_from vs → votes_from vs'.
Proof using.
  unfold addVerifiedVote. intros H1 HP Hvs. bind_split H1 x Hx. destruct x as [vs1 c1].
  apply add_to_votes_from in Hx as [Hb Hv]. assert (votes_from vs1) as Hvs1 by (unfold votes_from; by rewrite Hb).
  assert (∀ i v, bv_votes (newBlockVotes false (Size (valSet vs1))) !! i = Some (Some v) → P v) as Hnew.
  { intros i v Hi. by apply lookup_replicate in Hi as [? _]. }
  assert (∀ bv vs2, add_to_block vs1 bv vote (BlockID_Key (vote_BlockID vote)) w = Ret vs2 →
    (∀ i v, bv_votes bv !! i = Some (Some v) → P v) → votes_from vs2) as Hadd by (intros; by eapply add_to_block_from).
  destruct (votesByBlock vs1 !! _) as [bv|] eqn:Ebv.
  - assert (∀ i v, bv_votes bv !! i = Some (Some v) → P v) as Hbv by (intros; by eapply Hvs1).
    destruct c1 as [c1|]; [destruct (negb _)|]; [by injection H1 as <- _ _| |]; bind_split H1 vs2 H2;
      injection H1 as <- _ _; by eapply Hadd.
  - destruct c1 as [c1|]; [by injection H1 as <- _ _|]. bind_split H1 vs2 H2. injection H1 as <- _ _. by eapply Hadd.
Qed.

Lemma addVote_from vs vote vs' a e :
  addVote vs (Some vote) = Ret (vs', a, e) → P vote → votes_from vs → votes_from vs'.
Proof using.
  unfold addVote. intros H1 HP Hvs. destruct (_ <? 0); [by injection H1 as <- _ _|].
  destruct (_ =? 0); [by injection H1 as <- _ _|]. destruct (_ || _ || _); [by injection H1 as <- _ _|].
  destruct (GetByIndex _ _) as [[addr val]|]; [|by injection H1 as <- _ _].
  destruct (negb _); [by injection H1 as <- _ _|]. bind_split H1 o Ho. destruct o as [o|].
  { case_decide; by injection H1 as <- _ _. }
  bind_split H1 err He. destruct err; [by injection H1 as <- _ _|]. bind_split H1 x Hx. destruct x as [[vs1 added] c].
  apply addVerifiedVote_from in Hx; [|done..]. destruct c; [by injection H1 as <- _ _|]. destruct (negb added); [done|].
  by injection H1 as <- _ _.
Qed.

Lemma NewVoteSet_from cid h r ty vals vs : NewVoteSet cid h r ty vals = Ret vs → votes_from vs.
Proof using.
  unfold NewVoteSet. destruct (h =? 0); [done|]. intros <-%(inj Ret) k bv i v Hk. cbn in Hk. by rewrite lookup_empty in Hk.
Qed.
Lemma NewExtendedVoteSet_from cid h r ty vals vs : NewExtendedVoteSet cid h r ty vals = Ret vs → votes_from vs.
Proof using.
  unfold NewExtendedVoteSet. intros H1. bind_split H1 vs0 H2. apply (inj Ret) in H1 as <-. exact (NewVoteSet_from _ _ _ _ _ _ H2).
Qed.

Lemma SetPeerMaj23_from vs peer b vs' e : SetPeerMaj23 vs peer b = (vs', e) → votes_from vs → votes_from vs'.
Proof using.
  unfold SetPeerMaj23. intros H1 Hvs. destruct (peerMaj23s vs !! peer); [by injection H1 as <- _|]. cbn in H1.
  destruct (votesByBlock vs !! BlockID_Key b) as [bv|] eqn:Eb.
  - destruct (bv_peerMaj23 bv); injection H1 as <- _; [done|]. intros k bv0 i v Hk Hi. cbn in Hk.
    apply lookup_insert_Some in Hk as [[_ <-]|[_ Hk] ]; by eapply Hvs.
  - injection H1 as <- _. intros k bv0 i v Hk Hi. cbn in Hk. apply lookup_insert_Some in Hk as [[_ <-]|[_ Hk] ]; [|by eapply Hvs].
    by apply lookup_replicate in Hi as [? _].
Qed.

(** ** The votes of a height *)

(** What the machine relies on about [cs.Votes] at height [h]. *)
Record height_votes (cid : bytes) (h : Z) (vals : list Validator) (hvs : HeightVoteSet) : Prop := {
  hv_ok : hvs_ok hvs;
  hv_chain : hvs_chainID hvs = cid;
  hv_height : hvs_height hvs = h;
  hv_vals : Validators (hvs_valSet hvs) = vals;
  hv_from : ∀ r rvs, roundVoteSets hvs !! r = Some rvs → votes_from (Prevotes_ rvs) ∧ votes_from (Precommits_ rvs);
}.

(** A majority among votes with the property, in a set of this step. *)
Definition majority (cid : bytes) (vals : list Validator) (ty h r : Z) (b : BlockID) : Prop :=
  ∃ vs, vs_ok vs ∧ votes_from vs ∧ chainID vs = cid ∧ height vs = h ∧ round vs = r ∧ signedMsgType vs = ty ∧
    Validators (valSet vs) = vals ∧ maj23 vs = Some b.

Lemma getVoteSet_from cid h vals hvs r ty vs :
  height_votes cid h vals hvs → IsVoteTypeValid ty = true → getVoteSet hvs r ty = Ret (Some vs) →
  votes_from vs ∧ reachable vs ∧ ∃ ext, config vs = (cid, h, r, ty, ext, vals).
Proof using.
  intros [Hok <- <- <- Hfr] Hty Hg. destruct (getVoteSet_spec hvs r ty Hok Hty) as [[_ Hn]|(vs' & ext & _ & Hg' & [Hr Hc] & _)]; [congruence|].
  rewrite Hg in Hg'. injection Hg' as <-. split; [|split; [done|by exists ext] ].
  unfold getVoteSet in Hg. destruct (roundVoteSets hvs !! r) as [rvs|] eqn:Er; [|done].
  destruct (Hfr r rvs Er) as [Hpv Hpc]. destruct (ty =? PrevoteType); [by injection Hg as <-|].
  destruct (ty =? PrecommitType); [by injection Hg as <-|done].
Qed.

Lemma getVoteSet_majority cid h vals hvs r ty vs b :
  height_votes cid h vals hvs → IsVoteTypeValid ty = true → getVoteSet hvs r ty = Ret vs →
  TwoThirdsMajority vs = (b, true) → majority cid vals ty h r b.
Proof using.
  intros Hhv Hty Hg Hm. destruct vs as [vs|]; [|done].
  destruct (getVoteSet_from _ _ _ _ _ _ _ Hhv Hty Hg) as (Hfr & Hr & ext & Hc). unfold config in Hc.
  exists vs. split; [by apply reachable_ok|]. split; [done|]. simpl in Hm. destruct (maj23 vs); [|done]. injection Hm as ->.
  split_and!; congruence.
Qed.

Lemma set_voteSet_from cid h vals hvs r ty vs vs' ext :
  height_votes cid h vals hvs → IsVoteTypeValid ty = true → getVoteSet hvs r ty = Ret (Some vs) →
  config vs = (cid, h, r, ty, ext, vals) → reachable vs' → config vs' = config vs → votes_from vs' →
  height_votes cid h vals (set_voteSet hvs r ty vs').
Proof using.
  intros Hhv Hty Hg Hc Hr' Hc' Hfr'. pose proof Hhv as [Hok <- <- <- Hfr].
  destruct (getVoteSet_spec hvs r ty Hok Hty) as [[_ Hn]|(vs0 & ext0 & _ & Hg' & [Hr Hc0] & Hset & _)]; [congruence|].
  rewrite Hg in Hg'. injection Hg' as <-.
  assert (hvs_ok (set_voteSet hvs r ty vs')) as Hok' by (apply Hset; split; [done|congruence]).
  unfold set_voteSet in *. destruct (roundVoteSets hvs !! r) as [rvs|] eqn:Er; [|done].
  split; [done|done|done|done|]. cbn. intros r0 rvs0 H1. apply lookup_insert_Some in H1 as [[_ <-]|[_ H1] ]; [|by apply (Hfr r0)].
  destruct (Hfr r rvs Er). by destruct (ty =? PrevoteType).
Qed.

Lemma new_set_from hvs r ty vs : new_set hvs r ty = Ret vs → votes_from vs.
Proof using. unfold new_set. destruct (_ && _); [apply NewExtendedVoteSet_from|apply NewVoteSet_from]. Qed.

Lemma addRound_from hvs r hvs' :
  addRound hvs r = Ret hvs' →
  (∀ k rvs, roundVoteSets hvs !! k = Some rvs → votes_from (Prevotes_ rvs) ∧ votes_from (Precommits_ rvs)) →
  ∀ k rvs, roundVoteSets hvs' !! k = Some rvs → votes_from (Prevotes_ rvs) ∧ votes_from (Precommits_ rvs).
Proof using.
  unfold addRound. intros H1 Hfr. case_bool_decide; [done|]. bind_split H1 pv Hpv. bind_split H1 pc Hpc.
  apply (inj Ret) in H1 as <-. cbn. intros k rvs Hk. apply lookup_insert_Some in Hk as [[_ <-]|[_ Hk] ]; [|by apply (Hfr k)].
  cbn. split; [by eapply NewVoteSet_from|]. destruct (hvs_extensionsEnabled hvs); [by eapply NewExtendedVoteSet_from|by eapply NewVoteSet_from].
Qed.

Lemma add_to_set_from cid h vals hvs vs vote hvs' a e :
  height_votes cid h vals hvs → IsVoteTypeValid (vote_Type vote) = true → good_id (vote_BlockID vote) →
  (∃ bz, VoteSignBytes cid vote = Ret bz) → P vote →
  getVoteSet hvs (vote_Round vote) (vote_Type vote) = Ret (Some vs) → add_to_set hvs vs vote = Ret (hvs', a, e) →
  height_votes cid h vals hvs' ∧ hvs_round hvs' = hvs_round hvs.
Proof using.
  intros Hhv Hty Hid Hbz HP Hg H1. unfold add_to_set in H1. bind_split H1 x Hx. destruct x as [[vs' added] err].
  apply (inj Ret) in H1. injection H1 as <- _ _.
  destruct (getVoteSet_from _ _ _ _ _ _ _ Hhv Hty Hg) as (Hfr & Hr & ext & Hc).
  assert (addable vs vote) as Ha by (split; [done|]; unfold config in Hc; by replace (chainID vs) with cid by congruence).
  destruct (addVote_spec vs vote (reachable_ok vs Hr) Ha) as (vs1 & a1 & e1 & He & _ & Hext & _).
  rewrite Hx in He. injection He as <- <- <-. split.
  - eapply set_voteSet_from; [done..|by eapply reach_add|apply Hext|by eapply addVote_from].
  - unfold set_voteSet. by destruct (roundVoteSets hvs !! _).
Qed.

Lemma AddVote_from cid h vals hvs vote peer ext hvs' a e :
  height_votes cid h vals hvs → good_id (vote_BlockID vote) → (∃ bz, VoteSignBytes cid vote = Ret bz) → P vote →
  AddVote hvs vote peer ext = Ret (hvs', a, e) → height_votes cid h vals hvs' ∧ hvs_round hvs' = hvs_round hvs.
Proof using.
  intros Hhv Hid Hbz HP H1. unfold AddVote in H1. destruct (negb (Bool.eqb _ _)); [done|].
  destruct (IsVoteTypeValid (vote_Type vote)) eqn:Hty; cbn [negb] in H1; [|by injection H1 as <- _ _].
  bind_split H1 o Ho. destruct o as [vs|]; [by eapply add_to_set_from|].
  destruct (Z.ltb_spec (len (default [] (peerCatchupRounds hvs !! peer))) 2) as [Hlt|Hge]; [|by injection H1 as <- _ _].
  bind_split H1 hvs1 Hadd. bind_split H1 o Ho1. destruct o as [vs|]; [|done].
  assert (roundVoteSets hvs !! vote_Round vote = None) as Hnone.
  { unfold addRound in Hadd. case_bool_decide as Hb; [done|]. by apply eq_None_not_Some. }
  destruct (open_round hvs (vote_Round vote) peer (hv_ok _ _ _ _ Hhv) Hnone) as (rvs & Hadd' & Hok' & _); [unfold len in Hlt; lia|].
  pose proof (addRound_from _ _ _ Hadd (hv_from _ _ _ _ Hhv)) as Hfr. rewrite Hadd in Hadd'. apply (inj Ret) in Hadd' as ->.
  eapply add_to_set_from in H1; [|split; [exact Hok'|apply Hhv..|exact Hfr]|done..|exact Ho1]. exact H1.
Qed.

Lemma SetRound_from cid h vals hvs r hvs' :
  height_votes cid h vals hvs → hvs_round hvs ≤ r ≤ MaxInt32 → SetRound hvs r = Ret hvs' →
  height_votes cid h vals hvs' ∧ hvs_round hvs' = r.
Proof using.
  intros Hhv Hr H1. assert (r ≠ MaxInt32) as Hne.
  { intros ->. unfold SetRound in H1. bind_split H1 n Hn. destruct (_ && _); [done|]. by rewrite Z.eqb_refl in H1. }
  destruct (SetRound_spec hvs r (hv_ok _ _ _ _ Hhv) ltac:(lia)) as (hvs1 & He & Hok & (Hc & Hh & Hv & _) & Hr1 & _).
  rewrite H1 in He. apply (inj Ret) in He as <-. split; [|done]. destruct Hhv as [_ <- <- <- Hfr].
  split; [done..|by rewrite Hv|]. clear Hok Hc Hh Hv Hr1.
  unfold SetRound in H1. bind_split H1 n Hn. destruct (_ && _); [done|]. destruct (r =? MaxInt32); [done|].
  bind_split H1 hvs1 H2. apply (inj Ret) in H1 as <-. cbn. refine (for_each_keeps _ (λ hvs, ∀ r rvs,
    roundVoteSets hvs !! r = Some rvs → votes_from (Prevotes_ rvs) ∧ votes_from (Precommits_ rvs)) _ _ _ _ H2 Hfr).
  intros k x x' Hx. cbn beta in Hx. case_bool_decide; [by injection Hx as <-|]. by eapply addRound_from.
Qed.

Lemma query_from cid h vals hvs r ty q vs vs' b :
  height_votes cid h vals hvs → IsVoteTypeValid ty = true → (q = HasTwoThirdsAny ∨ q = HasAll) →
  getVoteSet hvs r ty = Ret vs → q vs = Ret (vs', b) →
  match vs' with
  | Some vs' => height_votes cid h vals (set_voteSet hvs r ty vs') ∧ hvs_round (set_voteSet hvs r ty vs') = hvs_round hvs
  | None => True
  end.
Proof using.
  intros Hhv Hty Hq Hg H1. destruct vs as [vs|]; [|destruct Hq as [-> | ->]; by injection H1 as <- _].
  destruct (getVoteSet_from _ _ _ _ _ _ _ Hhv Hty Hg) as (Hfr & Hr & ext & Hc).
  assert (∃ vals' total, TotalVotingPower (valSet vs) = Ret (vals', total) ∧ vs' = Some (with_valSet vs vals')) as (vals' & total & Ht & ->).
  { destruct Hq as [-> | ->]; simpl in H1; bind_split H1 x Hx; destruct x as [vals' total]; injection H1 as <- _; by exists vals', total. }
  assert (HasTwoThirdsAny (Some vs) = Ret (Some (with_valSet vs vals'), Z.quot (int64 (total * 2)) 3 <? sum vs)) as Hany
    by (simpl; by rewrite Ht).
  assert (Validators vals' = Validators (valSet vs)) as Hvals.
  { rewrite TotalVotingPower_spec in Ht by (apply reachable_ok in Hr; apply Hr). injection Ht as <- _. done. }
  split; [|unfold set_voteSet; by destruct (roundVoteSets hvs !! r)].
  eapply set_voteSet_from; [done..|by eapply reach_any| |exact Hfr]. unfold config. cbn. by rewrite Hvals.
Qed.

Lemma hvs_SetPeerMaj23_from cid h vals hvs r ty peer b hvs' e :
  height_votes cid h vals hvs → hvs_SetPeerMaj23 hvs r ty peer b = Ret (hvs', e) →
  height_votes cid h vals hvs' ∧ hvs_round hvs' = hvs_round hvs.
Proof using.
  intros Hhv H1. unfold hvs_SetPeerMaj23 in H1. destruct (IsVoteTypeValid ty) eqn:Hty; [|by injection H1 as <- _].
  cbn [negb] in H1. bind_split H1 o Ho. destruct o as [vs|]; [|by injection H1 as <- _].
  destruct (SetPeerMaj23 vs peer b) as [vs' e'] eqn:E. injection H1 as <- _.
  destruct (getVoteSet_from _ _ _ _ _ _ _ Hhv Hty Ho) as (Hfr & Hr & ext & Hc).
  destruct (SetPeerMaj23_spec vs peer b vs' e' (reachable_ok vs Hr) E) as [_ Hext].
  split; [|unfold set_voteSet; by destruct (roundVoteSets hvs !! r)].
  eapply set_voteSet_from; [done..|by eapply reach_peer|apply Hext|by eapply SetPeerMaj23_from].
Qed.

Lemma new_height_votes cid h vals ext hvs :
  valid_set vals → keyed (Validators vals) →
  (if ext : bool then NewExtendedHeightVoteSet cid h vals else NewHeightVoteSet cid h vals) = Ret hvs →
  height_votes cid h (Validators vals) hvs ∧ hvs_round hvs = 0.
Proof using.
  intros Hv Hk H1. assert (Reset (mkHeightVoteSet cid 0 vals ext 0 ∅ ∅) h vals = Ret hvs) as H2 by (destruct ext; exact H1).
  clear H1. pose proof (Reset_spec cid h vals ext hvs Hv Hk H2) as Hok. unfold Reset in H2. bind_split H2 hvs1 H3.
  apply (inj Ret) in H2 as <-. pose proof (addRound_from _ _ _ H3) as Hfr. unfold addRound in H3. case_bool_decide; [done|].
  bind_split H3 pv Hpv. bind_split H3 pc Hpc. apply (inj Ret) in H3 as <-. split; [|done]. split; [done..|].
  apply Hfr. cbn. intros k rvs Hk'. by rewrite lookup_empty in Hk'.
Qed.
End origin.

Lemma votes_from_mono `{StdTime, Crypto} (P Q : Vote → Prop) vs : (∀ v, P v → Q v) → votes_from P vs → votes_from Q vs.
Proof. intros HPQ Hvs k bv i v Hk Hi. by eapply HPQ, Hvs. Qed.

Lemma height_votes_mono `{StdTime, Crypto} (P Q : Vote → Prop) cid h vals hvs :
  (∀ v, P v → Q v) → height_votes P cid h vals hvs → height_votes Q cid h vals hvs.
Proof.
  intros HPQ [H1 H2 H3 H4 Hfr]. split; [done..|]. intros r rvs Hr. destruct (Hfr r rvs Hr). split; by eapply votes_from_mono.
Qed.

Lemma majority_mono `{StdTime, Crypto} (P Q : Vote → Prop) cid vals ty h r b :
  (∀ v, P v → Q v) → majority P cid vals ty h r b → majority Q cid vals ty h r b.
Proof. intros HPQ (vs & Hok & Hfr & Hrest). exists vs. split; [done|]. split; [by eapply votes_from_mono|done]. Qed.
