(* ===== verification/ConsensusState.v ===== *)
(** * The consensus state machine: the operations

    Models [src/hetu-cometbft/consensus/state.go] with
    [consensus/types/round_state.go], [consensus/ticker.go], the timeouts of
    [config/config.go], [SignAndCheckVote] of [types/vote.go] and the checks
    of [SaveBlock] in [store/store.go]: the steps of a round, the locking
    rule, proposals, block parts and votes, and the commit of a block, over
    the vote sets, validator sets and part sets of the other files.

    A method that changes [cs] returns the changed state; a panic ends the
    receive routine, so it is [Panic].  What the code sends, schedules,
    publishes and saves is appended to [cs_out].  Part sets are shared by
    pointer (the proposal's, the locked and the valid one may be the same
    object), so they live in a heap and the fields hold their addresses.
    Everything that the machine asks of its surroundings while it handles one
    event (the clock, the application, the signer, the stores) is the record
    [Env] of that event.  Metrics and logging are left out, apart from the
    panic in [recordMetrics]. *)
From S2P Require Import Prelude.
From S2P Require Import BitArray.
From S2P Require Import SafeMath.
From S2P Require Import Vote.
From S2P Require Import Validator.
From S2P Require Import SignBytes.
From S2P Require Import ValidatorSet.
From S2P Require Import VoteSet.
From S2P Require Import HeightVoteSet.
From S2P Require Import PartSet.

(** ** Steps, configuration and the state of the chain *)

Definition RoundStepNewHeight : Z := 1.
Definition RoundStepNewRound : Z := 2.
Definition RoundStepPropose : Z := 3.
Definition RoundStepPrevote : Z := 4.
Definition RoundStepPrevoteWait : Z := 5.
Definition RoundStepPrecommit : Z := 6.
Definition RoundStepPrecommitWait : Z := 7.
Definition RoundStepCommit : Z := 8.

(** The part of [ConsensusConfig] that the machine reads. *)
Record ConsensusConfig := mkConfig {
  TimeoutPropose : Z;
  TimeoutProposeDelta : Z;
  TimeoutPrevote : Z;
  TimeoutPrevoteDelta : Z;
  TimeoutPrecommit : Z;
  TimeoutPrecommitDelta : Z;
  TimeoutCommit : Z;
  SkipTimeoutCommit : bool;
  CreateEmptyBlocks : bool;
  CreateEmptyBlocksInterval : Z;
  DoubleSignCheckHeight : Z;
}.

Definition WaitForTxs (cfg : ConsensusConfig) : bool :=
  negb (CreateEmptyBlocks cfg) || (0 <? CreateEmptyBlocksInterval cfg).
Definition config_Propose (cfg : ConsensusConfig) (round : Z) : Z :=
  int64 (TimeoutPropose cfg + int64 (TimeoutProposeDelta cfg * round)).
Definition config_Prevote (cfg : ConsensusConfig) (round : Z) : Z :=
  int64 (TimeoutPrevote cfg + int64 (TimeoutPrevoteDelta cfg * round)).
Definition config_Precommit (cfg : ConsensusConfig) (round : Z) : Z :=
  int64 (TimeoutPrecommit cfg + int64 (TimeoutPrecommitDelta cfg * round)).
Definition config_Commit (cfg : ConsensusConfig) (t : Time) : Time := time_Add t (TimeoutCommit cfg).

(** The part of [sm.State] that the machine reads; [Validators] is nil in the
    empty state. *)
Record SmState := mkSmState {
  sm_ChainID : bytes;
  sm_InitialHeight : Z;
  sm_LastBlockHeight : Z;
  sm_Validators : option ValidatorSet;
  sm_LastValidators : option ValidatorSet;
  sm_AppHash : bytes;
  sm_MaxBytes : Z;
  sm_VoteExtensionsEnableHeight : Z;
}.

Definition sm_IsEmpty (state : SmState) : bool := match sm_Validators state with None => true | Some _ => false end.

Definition VoteExtensionsEnabled (state : SmState) (h : Z) : outcome bool :=
  if h <? 1 then Panic "cannot check if vote extensions enabled for height (< 1)"
  else Ret (negb (sm_VoteExtensionsEnableHeight state =? 0) && (sm_VoteExtensionsEnableHeight state <=? h)).

Definition MaxBlockSizeBytes : Z := 104857600.

(** What the machine asks of [types.Block]; the protobuf conversions are the
    last two. *)
Class BlockOps := {
  Block : Type;
  Block_Hash : Block → bytes;
  Block_Height : Block → Z;
  Block_Time : Block → Time;
  Block_LastCommit : Block → option Commit;
  Block_Marshal : Block → option bytes;
  Block_Unmarshal : bytes → option Block;
}.

(** ** Messages, timeouts and outputs *)

Inductive Message :=
| ProposalMessage (p : Proposal)
| BlockPartMessage (h r : Z) (part : option Part)
| VoteMessage (v : Vote).

Record timeoutInfo := mkTimeout { ti_Duration : Z; ti_Height : Z; ti_Round : Z; ti_Step : Z }.

(** The events of the event bus and the event switch. *)
Inductive BusEvent :=
| EventNewRound | EventCompleteProposal | EventTimeoutPropose | EventTimeoutWait | EventPolka | EventLock
| EventRelock | EventUnlock | EventValidBlock | EventVote (v : Vote).

Inductive Output `{BlockOps} :=
| Send (m : Message)
| Schedule (ti : timeoutInfo)
| NewRoundStep (h r s : Z)
| Publish (ev : BusEvent)
| ReportConflictingVotes (voteA voteB : Vote)
| SaveBlock (b : Block) (parts : PartSet) (seen : ExtendedCommit) (extended : bool)
| EndHeight (h : Z)
| ApplyVerifiedBlock (h : Z) (id : BlockID) (b : Block).

(** What the machine's calls to its surroundings return while it handles one
    event.  [env_sign] is [PrivValidator.SignVote], [env_sign_proposal]
    [SignProposal], both [None] for an error; [env_create] is
    [CreateProposalBlock], whose outer [None] is an error and whose inner one
    a nil block; [env_offline_height] is the option of that name, which is
    set when the machine is made. *)
Record Env `{BlockOps} := mkEnv {
  env_now : Time;
  env_publish : BusEvent → bool;
  env_wal : bool;
  env_validate : SmState → Block → bool;
  env_process : SmState → Block → option bool;
  env_create : Z → SmState → ExtendedCommit → bytes → option (option Block);
  env_extend : Vote → option Block → SmState → option bytes;
  env_verify_extension : Vote → bool;
  env_apply : SmState → BlockID → Block → option SmState;
  env_sign : bytes → Vote → option Vote;
  env_sign_proposal : bytes → Proposal → option bytes;
  env_pubkey : option PubKey;
  env_store_base : Z;
  env_store_height : Z;
  env_block_meta : Z → option bytes;
  env_seen_commit : Z → option Commit;
  env_block_commit : Z → option Commit;
  env_extended_commit : Z → option ExtendedCommit;
  env_offline_height : Z;
}.

(** ** The state *)

Record State `{BlockOps} := mkState {
  cs_Height : Z;
  cs_Round : Z;
  cs_Step : Z;
  cs_StartTime : Time;
  cs_CommitTime : Time;
  cs_Validators : ValidatorSet;
  cs_Proposal : option Proposal;
  cs_ProposalBlock : option Block;
  cs_ProposalBlockParts : option nat;
  cs_LockedRound : Z;
  cs_LockedBlock : option Block;
  cs_LockedBlockParts : option nat;
  cs_ValidRound : Z;
  cs_ValidBlock : option Block;
  cs_ValidBlockParts : option nat;
  cs_Votes : option HeightVoteSet;
  cs_CommitRound : Z;
  cs_LastCommit : option VoteSet;
  cs_LastValidators : option ValidatorSet;
  cs_TriggeredTimeoutPrecommit : bool;
  cs_state : SmState;
  cs_privValidatorPubKey : option PubKey;
  cs_heap : list PartSet;
  cs_out : list Output;
}.

#[global] Arguments mkState {_}.

(** ** Assignments to the fields *)

Section assignments.
Context `{BlockOps}.

Definition updateHeight (cs : State) (height : Z) : State :=
  mkState height (cs_Round cs) (cs_Step cs) (cs_StartTime cs) (cs_CommitTime cs) (cs_Validators cs) (cs_Proposal cs)
    (cs_ProposalBlock cs) (cs_ProposalBlockParts cs) (cs_LockedRound cs) (cs_LockedBlock cs) (cs_LockedBlockParts cs)
    (cs_ValidRound cs) (cs_ValidBlock cs) (cs_ValidBlockParts cs) (cs_Votes cs) (cs_CommitRound cs) (cs_LastCommit cs)
    (cs_LastValidators cs) (cs_TriggeredTimeoutPrecommit cs) (cs_state cs) (cs_privValidatorPubKey cs) (cs_heap cs)
    (cs_out cs).
Definition updateRoundStep (cs : State) (round : Z) (step : Z) : State :=
  mkState (cs_Height cs) round step (cs_StartTime cs) (cs_CommitTime cs) (cs_Validators cs) (cs_Proposal cs)
    (cs_ProposalBlock cs) (cs_ProposalBlockParts cs) (cs_LockedRound cs) (cs_LockedBlock cs) (cs_LockedBlockParts cs)
    (cs_ValidRound cs) (cs_ValidBlock cs) (cs_ValidBlockParts cs) (cs_Votes cs) (cs_CommitRound cs) (cs_LastCommit cs)
    (cs_LastValidators cs) (cs_TriggeredTimeoutPrecommit cs) (cs_state cs) (cs_privValidatorPubKey cs) (cs_heap cs)
    (cs_out cs).
Definition with_StartTime (cs : State) (t : Time) : State :=
  mkState (cs_Height cs) (cs_Round cs) (cs_Step cs) t (cs_CommitTime cs) (cs_Validators cs) (cs_Proposal cs)
    (cs_ProposalBlock cs) (cs_ProposalBlockParts cs) (cs_LockedRound cs) (cs_LockedBlock cs) (cs_LockedBlockParts cs)
    (cs_ValidRound cs) (cs_ValidBlock cs) (cs_ValidBlockParts cs) (cs_Votes cs) (cs_CommitRound cs) (cs_LastCommit cs)
    (cs_LastValidators cs) (cs_TriggeredTimeoutPrecommit cs) (cs_state cs) (cs_privValidatorPubKey cs) (cs_heap cs)
    (cs_out cs).
Definition with_Validators (cs : State) (vals : ValidatorSet) : State :=
  mkState (cs_Height cs) (cs_Round cs) (cs_Step cs) (cs_StartTime cs) (cs_CommitTime cs) vals (cs_Proposal cs)
    (cs_ProposalBlock cs) (cs_ProposalBlockParts cs) (cs_LockedRound cs) (cs_LockedBlock cs) (cs_LockedBlockParts cs)
    (cs_ValidRound cs) (cs_ValidBlock cs) (cs_ValidBlockParts cs) (cs_Votes cs) (cs_CommitRound cs) (cs_LastCommit cs)
    (cs_LastValidators cs) (cs_TriggeredTimeoutPrecommit cs) (cs_state cs) (cs_privValidatorPubKey cs) (cs_heap cs)
    (cs_out cs).
Definition with_Proposal (cs : State) (p : option Proposal) : State :=
  mkState (cs_Height cs) (cs_Round cs) (cs_Step cs) (cs_StartTime cs) (cs_CommitTime cs) (cs_Validators cs) p
    (cs_ProposalBlock cs) (cs_ProposalBlockParts cs) (cs_LockedRound cs) (cs_LockedBlock cs) (cs_LockedBlockParts cs)
    (cs_ValidRound cs) (cs_ValidBlock cs) (cs_ValidBlockParts cs) (cs_Votes cs) (cs_CommitRound cs) (cs_LastCommit cs)
    (cs_LastValidators cs) (cs_TriggeredTimeoutPrecommit cs) (cs_state cs) (cs_privValidatorPubKey cs) (cs_heap cs)
    (cs_out cs).
Definition with_ProposalBlock (cs : State) (b : option Block) : State :=
  mkState (cs_Height cs) (cs_Round cs) (cs_Step cs) (cs_StartTime cs) (cs_CommitTime cs) (cs_Validators cs)
    (cs_Proposal cs) b (cs_ProposalBlockParts cs) (cs_LockedRound cs) (cs_LockedBlock cs) (cs_LockedBlockParts cs)
    (cs_ValidRound cs) (cs_ValidBlock cs) (cs_ValidBlockParts cs) (cs_Votes cs) (cs_CommitRound cs) (cs_LastCommit cs)
    (cs_LastValidators cs) (cs_TriggeredTimeoutPrecommit cs) (cs_state cs) (cs_privValidatorPubKey cs) (cs_heap cs)
    (cs_out cs).
Definition with_ProposalBlockParts (cs : State) (a : option nat) : State :=
  mkState (cs_Height cs) (cs_Round cs) (cs_Step cs) (cs_StartTime cs) (cs_CommitTime cs) (cs_Validators cs)
    (cs_Proposal cs) (cs_ProposalBlock cs) a (cs_LockedRound cs) (cs_LockedBlock cs) (cs_LockedBlockParts cs)
    (cs_ValidRound cs) (cs_ValidBlock cs) (cs_ValidBlockParts cs) (cs_Votes cs) (cs_CommitRound cs) (cs_LastCommit cs)
    (cs_LastValidators cs) (cs_TriggeredTimeoutPrecommit cs) (cs_state cs) (cs_privValidatorPubKey cs) (cs_heap cs)
    (cs_out cs).
Definition with_Locked (cs : State) (r : Z) (b : option Block) (a : option nat) : State :=
  mkState (cs_Height cs) (cs_Round cs) (cs_Step cs) (cs_StartTime cs) (cs_CommitTime cs) (cs_Validators cs)
    (cs_Proposal cs) (cs_ProposalBlock cs) (cs_ProposalBlockParts cs) r b a (cs_ValidRound cs) (cs_ValidBlock cs)
    (cs_ValidBlockParts cs) (cs_Votes cs) (cs_CommitRound cs) (cs_LastCommit cs) (cs_LastValidators cs)
    (cs_TriggeredTimeoutPrecommit cs) (cs_state cs) (cs_privValidatorPubKey cs) (cs_heap cs) (cs_out cs).
Definition with_Valid (cs : State) (r : Z) (b : option Block) (a : option nat) : State :=
  mkState (cs_Height cs) (cs_Round cs) (cs_Step cs) (cs_StartTime cs) (cs_CommitTime cs) (cs_Validators cs)
    (cs_Proposal cs) (cs_ProposalBlock cs) (cs_ProposalBlockParts cs) (cs_LockedRound cs) (cs_LockedBlock cs)
    (cs_LockedBlockParts cs) r b a (cs_Votes cs) (cs_CommitRound cs) (cs_LastCommit cs) (cs_LastValidators cs)
    (cs_TriggeredTimeoutPrecommit cs) (cs_state cs) (cs_privValidatorPubKey cs) (cs_heap cs) (cs_out cs).
Definition with_Votes (cs : State) (hvs : option HeightVoteSet) : State :=
  mkState (cs_Height cs) (cs_Round cs) (cs_Step cs) (cs_StartTime cs) (cs_CommitTime cs) (cs_Validators cs)
    (cs_Proposal cs) (cs_ProposalBlock cs) (cs_ProposalBlockParts cs) (cs_LockedRound cs) (cs_LockedBlock cs)
    (cs_LockedBlockParts cs) (cs_ValidRound cs) (cs_ValidBlock cs) (cs_ValidBlockParts cs) hvs (cs_CommitRound cs)
    (cs_LastCommit cs) (cs_LastValidators cs) (cs_TriggeredTimeoutPrecommit cs) (cs_state cs)
    (cs_privValidatorPubKey cs) (cs_heap cs) (cs_out cs).
Definition with_CommitRound (cs : State) (r : Z) : State :=
  mkState (cs_Height cs) (cs_Round cs) (cs_Step cs) (cs_StartTime cs) (cs_CommitTime cs) (cs_Validators cs)
    (cs_Proposal cs) (cs_ProposalBlock cs) (cs_ProposalBlockParts cs) (cs_LockedRound cs) (cs_LockedBlock cs)
    (cs_LockedBlockParts cs) (cs_ValidRound cs) (cs_ValidBlock cs) (cs_ValidBlockParts cs) (cs_Votes cs) r
    (cs_LastCommit cs) (cs_LastValidators cs) (cs_TriggeredTimeoutPrecommit cs) (cs_state cs)
    (cs_privValidatorPubKey cs) (cs_heap cs) (cs_out cs).
Definition with_CommitTime (cs : State) (t : Time) : State :=
  mkState (cs_Height cs) (cs_Round cs) (cs_Step cs) (cs_StartTime cs) t (cs_Validators cs) (cs_Proposal cs)
    (cs_ProposalBlock cs) (cs_ProposalBlockParts cs) (cs_LockedRound cs) (cs_LockedBlock cs) (cs_LockedBlockParts cs)
    (cs_ValidRound cs) (cs_ValidBlock cs) (cs_ValidBlockParts cs) (cs_Votes cs) (cs_CommitRound cs) (cs_LastCommit cs)
    (cs_LastValidators cs) (cs_TriggeredTimeoutPrecommit cs) (cs_state cs) (cs_privValidatorPubKey cs) (cs_heap cs)
    (cs_out cs).
Definition with_LastCommit (cs : State) (vs : option VoteSet) : State :=
  mkState (cs_Height cs) (cs_Round cs) (cs_Step cs) (cs_StartTime cs) (cs_CommitTime cs) (cs_Validators cs)
    (cs_Proposal cs) (cs_ProposalBlock cs) (cs_ProposalBlockParts cs) (cs_LockedRound cs) (cs_LockedBlock cs)
    (cs_LockedBlockParts cs) (cs_ValidRound cs) (cs_ValidBlock cs) (cs_ValidBlockParts cs) (cs_Votes cs)
    (cs_CommitRound cs) vs (cs_LastValidators cs) (cs_TriggeredTimeoutPrecommit cs) (cs_state cs)
    (cs_privValidatorPubKey cs) (cs_heap cs) (cs_out cs).
Definition with_LastValidators (cs : State) (vals : option ValidatorSet) : State :=
  mkState (cs_Height cs) (cs_Round cs) (cs_Step cs) (cs_StartTime cs) (cs_CommitTime cs) (cs_Validators cs)
    (cs_Proposal cs) (cs_ProposalBlock cs) (cs_ProposalBlockParts cs) (cs_LockedRound cs) (cs_LockedBlock cs)
    (cs_LockedBlockParts cs) (cs_ValidRound cs) (cs_ValidBlock cs) (cs_ValidBlockParts cs) (cs_Votes cs)
    (cs_CommitRound cs) (cs_LastCommit cs) vals (cs_TriggeredTimeoutPrecommit cs) (cs_state cs)
    (cs_privValidatorPubKey cs) (cs_heap cs) (cs_out cs).
Definition with_Triggered (cs : State) (b : bool) : State :=
  mkState (cs_Height cs) (cs_Round cs) (cs_Step cs) (cs_StartTime cs) (cs_CommitTime cs) (cs_Validators cs)
    (cs_Proposal cs) (cs_ProposalBlock cs) (cs_ProposalBlockParts cs) (cs_LockedRound cs) (cs_LockedBlock cs)
    (cs_LockedBlockParts cs) (cs_ValidRound cs) (cs_ValidBlock cs) (cs_ValidBlockParts cs) (cs_Votes cs)
    (cs_CommitRound cs) (cs_LastCommit cs) (cs_LastValidators cs) b (cs_state cs) (cs_privValidatorPubKey cs)
    (cs_heap cs) (cs_out cs).
Definition with_state (cs : State) (state : SmState) : State :=
  mkState (cs_Height cs) (cs_Round cs) (cs_Step cs) (cs_StartTime cs) (cs_CommitTime cs) (cs_Validators cs)
    (cs_Proposal cs) (cs_ProposalBlock cs) (cs_ProposalBlockParts cs) (cs_LockedRound cs) (cs_LockedBlock cs)
    (cs_LockedBlockParts cs) (cs_ValidRound cs) (cs_ValidBlock cs) (cs_ValidBlockParts cs) (cs_Votes cs)
    (cs_CommitRound cs) (cs_LastCommit cs) (cs_LastValidators cs) (cs_TriggeredTimeoutPrecommit cs) state
    (cs_privValidatorPubKey cs) (cs_heap cs) (cs_out cs).
Definition with_PubKey (cs : State) (pk : option PubKey) : State :=
  mkState (cs_Height cs) (cs_Round cs) (cs_Step cs) (cs_StartTime cs) (cs_CommitTime cs) (cs_Validators cs)
    (cs_Proposal cs) (cs_ProposalBlock cs) (cs_ProposalBlockParts cs) (cs_LockedRound cs) (cs_LockedBlock cs)
    (cs_LockedBlockParts cs) (cs_ValidRound cs) (cs_ValidBlock cs) (cs_ValidBlockParts cs) (cs_Votes cs)
    (cs_CommitRound cs) (cs_LastCommit cs) (cs_LastValidators cs) (cs_TriggeredTimeoutPrecommit cs) (cs_state cs) pk
    (cs_heap cs) (cs_out cs).
Definition with_heap (cs : State) (h : list PartSet) : State :=
  mkState (cs_Height cs) (cs_Round cs) (cs_Step cs) (cs_StartTime cs) (cs_CommitTime cs) (cs_Validators cs)
    (cs_Proposal cs) (cs_ProposalBlock cs) (cs_ProposalBlockParts cs) (cs_LockedRound cs) (cs_LockedBlock cs)
    (cs_LockedBlockParts cs) (cs_ValidRound cs) (cs_ValidBlock cs) (cs_ValidBlockParts cs) (cs_Votes cs)
    (cs_CommitRound cs) (cs_LastCommit cs) (cs_LastValidators cs) (cs_TriggeredTimeoutPrecommit cs) (cs_state cs)
    (cs_privValidatorPubKey cs) h (cs_out cs).
Definition emit_all (cs : State) (os : list Output) : State :=
  mkState (cs_Height cs) (cs_Round cs) (cs_Step cs) (cs_StartTime cs) (cs_CommitTime cs) (cs_Validators cs)
    (cs_Proposal cs) (cs_ProposalBlock cs) (cs_ProposalBlockParts cs) (cs_LockedRound cs) (cs_LockedBlock cs)
    (cs_LockedBlockParts cs) (cs_ValidRound cs) (cs_ValidBlock cs) (cs_ValidBlockParts cs) (cs_Votes cs)
    (cs_CommitRound cs) (cs_LastCommit cs) (cs_LastValidators cs) (cs_TriggeredTimeoutPrecommit cs) (cs_state cs)
    (cs_privValidatorPubKey cs) (cs_heap cs) (cs_out cs ++ os).
Definition emit (cs : State) (o : Output) : State := emit_all cs [o].

End assignments.

(** ** The machine *)

Section machine.
Context `{StdTime, Crypto, BlockOps}.

(** [cfg] and whether there is a [privValidator] never change. *)
Variable cfg : ConsensusConfig.
Variable privValidator : bool.

(** The part set at an address; a nil pointer is [None]. *)
Definition parts (cs : State) (a : option nat) : option PartSet := a ≫= λ i, cs_heap cs !! i.
(** [types.NewPartSetFromHeader] assigned to [cs.ProposalBlockParts]. *)
Definition new_parts (cs : State) (header : PartSetHeader) : State :=
  with_ProposalBlockParts (with_heap cs (cs_heap cs ++ [NewPartSetFromHeader header])) (Some (length (cs_heap cs))).

Definition Block_HashesTo (b : option Block) (hash : bytes) : bool :=
  if len hash =? 0 then false
  else match b with None => false | Some b => bool_decide (Block_Hash b = hash) end.

Definition Block_MakePartSet (b : Block) (partSize : Z) : outcome (option PartSet) :=
  match Block_Marshal b with
  | None => Ret None
  | Some bz => ps ← NewPartSetFromData bz partSize; Ret (Some ps)
  end.

(** A method call on [cs.Votes]. *)
Definition votes_of (cs : State) : outcome HeightVoteSet :=
  match cs_Votes cs with None => Panic "nil pointer dereference" | Some hvs => Ret hvs end.
Definition cs_Prevotes (cs : State) (round : Z) : outcome (option VoteSet) := hvs ← votes_of cs; Prevotes hvs round.
Definition cs_Precommits (cs : State) (round : Z) : outcome (option VoteSet) := hvs ← votes_of cs; Precommits hvs round.

(** [HasTwoThirdsAny] and [HasAll] of one of the sets of [cs.Votes]; they may
    fill the cache of the total power. *)
Definition query_set (q : option VoteSet → outcome (option VoteSet * bool)) (cs : State) (round voteType : Z)
    : outcome (State * bool) :=
  hvs ← votes_of cs;
  vs ← getVoteSet hvs round voteType;
  '(vs, b) ← q vs;
  Ret (match vs with Some vs => with_Votes cs (Some (set_voteSet hvs round voteType vs)) | None => cs end, b).
Definition cs_HasTwoThirdsAny : State → Z → Z → outcome (State * bool) := query_set HasTwoThirdsAny.
Definition cs_HasAll : State → Z → Z → outcome (State * bool) := query_set HasAll.

Definition scheduleTimeout (cs : State) (duration height round step : Z) : State :=
  emit cs (Schedule (mkTimeout duration height round step)).

Definition sendInternalMessage (cs : State) (m : Message) : State := emit cs (Send m).

Definition scheduleRound0 (e : Env) (cs : State) : State :=
  scheduleTimeout cs (time_Sub (cs_StartTime cs) (env_now e)) (cs_Height cs) 0 RoundStepNewHeight.

Definition newStep (cs : State) : State := emit cs (NewRoundStep (cs_Height cs) (cs_Round cs) (cs_Step cs)).

(** ** Going to a height *)

Definition updateToState (e : Env) (cs : State) (state : SmState) : outcome State :=
  if (-1 <? cs_CommitRound cs) && (0 <? cs_Height cs) && negb (cs_Height cs =? sm_LastBlockHeight state)
  then Panic "updateToState() expected another state height"
  else if negb (sm_IsEmpty (cs_state cs)) && (0 <? sm_LastBlockHeight (cs_state cs)) &&
          negb (int64 (sm_LastBlockHeight (cs_state cs) + 1) =? cs_Height cs)
  then Panic "inconsistent cs.state.LastBlockHeight+1"
  else if negb (sm_IsEmpty (cs_state cs)) && (0 <? sm_LastBlockHeight (cs_state cs)) &&
          (cs_Height cs =? sm_InitialHeight (cs_state cs))
  then Panic "inconsistent cs.state.LastBlockHeight, expected 0 for initial height"
  else if negb (sm_IsEmpty (cs_state cs)) && (sm_LastBlockHeight state <=? sm_LastBlockHeight (cs_state cs))
  then Ret (newStep cs)
  else
    cs ← (if sm_LastBlockHeight state =? 0 then Ret (with_LastCommit cs None)
          else if (-1 <? cs_CommitRound cs) && bool_decide (cs_Votes cs ≠ None) then
            precommits ← cs_Precommits cs (cs_CommitRound cs);
            if negb (HasTwoThirdsMajority precommits) then Panic "wanted to form a commit, but precommits didn't have 2/3+"
            else Ret (with_LastCommit cs precommits)
          else match cs_LastCommit cs with
               | None => Panic "last commit cannot be empty after initial block"
               | Some _ => Ret cs
               end);
    let height := int64 (sm_LastBlockHeight state + 1) in
    let height := if height =? 1 then sm_InitialHeight state else height in
    let cs := updateRoundStep (updateHeight cs height) 0 RoundStepNewHeight in
    let cs := with_StartTime cs (config_Commit cfg (if time_IsZero (cs_CommitTime cs) then env_now e else cs_CommitTime cs)) in
    ext ← VoteExtensionsEnabled state height;
    match sm_Validators state with
    | None => Panic "nil pointer dereference"
    | Some validators =>
        let cs := with_Validators cs validators in
        let cs := with_ProposalBlockParts (with_ProposalBlock (with_Proposal cs None) None) None in
        let cs := with_Valid (with_Locked cs (-1) None None) (-1) None None in
        hvs ← (if ext : bool then NewExtendedHeightVoteSet (sm_ChainID state) height validators
               else NewHeightVoteSet (sm_ChainID state) height validators);
        let cs := with_CommitRound (with_Votes cs (Some hvs)) (-1) in
        let cs := with_Triggered (with_LastValidators cs (sm_LastValidators state)) false in
        Ret (newStep (with_state cs state))
    end.

(** ** Signing *)

Definition voteTime (e : Env) (cs : State) : Time :=
  let minVoteTime :=
    match cs_LockedBlock cs, cs_ProposalBlock cs with
    | Some b, _ => time_Add (Block_Time b) Millisecond
    | None, Some b => time_Add (Block_Time b) Millisecond
    | None, None => env_now e
    end in
  if time_After (env_now e) minVoteTime then env_now e else minVoteTime.

Inductive sign_error := ErrRecoverable | ErrNonRecoverable.

(** [vote] as [SignAndCheckVote] leaves it when it returns no error. *)
Definition SignAndCheckVote (sign : bytes → Vote → option Vote) (chain : bytes) (vote : Vote) (extensionsEnabled : bool)
    : Vote + sign_error :=
  match sign chain vote with
  | None => inr ErrRecoverable
  | Some v =>
      let isPrecommit := vote_Type vote =? PrecommitType in
      let isNil := BlockID_IsZero (vote_BlockID vote) in
      let extSignature := 0 <? len (vote_ExtensionSignature v) in
      if negb isPrecommit && extensionsEnabled then inr ErrNonRecoverable
      else if extSignature && (negb isPrecommit || isNil) then inr ErrNonRecoverable
      else if extensionsEnabled && negb extSignature && isPrecommit && negb isNil then inr ErrNonRecoverable
      else inl (mkVote (vote_Type vote) (vote_Height vote) (vote_Round vote) (vote_BlockID vote) (vote_Timestamp v)
                  (ValidatorAddress vote) (ValidatorIndex vote) (vote_Signature v) (vote_Extension vote)
                  (if extensionsEnabled then vote_ExtensionSignature v else []))
  end.

(** [None] when it returns an error. *)
Definition signVote (e : Env) (cs : State) (msgType : Z) (hash : bytes) (header : PartSetHeader) (block : option Block)
    : outcome (option Vote) :=
  if negb (env_wal e) then Ret None
  else
    match cs_privValidatorPubKey cs with
    | None => Ret None
    | Some pk =>
        let addr := key_address pk in
        let id := mkBlockID hash header in
        let vote ext := mkVote msgType (cs_Height cs) (cs_Round cs) id (voteTime e cs) addr
                          (GetByAddress (cs_Validators cs) addr).1 [] ext [] in
        extEnabled ← VoteExtensionsEnabled (cs_state cs) (cs_Height cs);
        let ext := if (msgType =? PrecommitType) && negb (BlockID_IsZero id) && extEnabled
                   then env_extend e (vote []) block (cs_state cs) else Some [] in
        match ext with
        | None => Ret None
        | Some ext =>
            match SignAndCheckVote (env_sign e) (sm_ChainID (cs_state cs)) (vote ext) (extEnabled && (msgType =? PrecommitType)) with
            | inl v => Ret (Some v)
            | inr ErrRecoverable => Ret None
            | inr ErrNonRecoverable => Panic "non-recoverable error when signing vote"
            end
        end
    end.

Definition signAddVote (e : Env) (cs : State) (msgType : Z) (hash : bytes) (header : PartSetHeader) (block : option Block)
    : outcome State :=
  match privValidator, cs_privValidatorPubKey cs with
  | true, Some pk =>
      if negb (HasAddress (cs_Validators cs) (key_address pk)) then Ret cs
      else
        vote ← signVote e cs msgType hash header block;
        match vote with
        | None => Ret cs
        | Some vote =>
            extEnabled ← VoteExtensionsEnabled (cs_state cs) (vote_Height vote);
            if (vote_Type vote =? PrecommitType) && negb (BlockID_IsZero (vote_BlockID vote)) &&
               negb (Bool.eqb (0 <? len (vote_ExtensionSignature vote)) extEnabled)
            then Panic "vote extension absence/presence does not match extensions enabled"
            else Ret (sendInternalMessage cs (VoteMessage vote))
        end
  | _, _ => Ret cs
  end.

Definition nilHeader : PartSetHeader := mkPartSetHeader 0 [].
Definition sign_nil (e : Env) (cs : State) (msgType : Z) : outcome State := signAddVote e cs msgType [] nilHeader None.

(** ** Prevote *)

Definition isProposalComplete (cs : State) : outcome bool :=
  match cs_Proposal cs, cs_ProposalBlock cs with
  | Some p, Some _ =>
      if prop_POLRound p <? 0 then Ret true
      else prevotes ← cs_Prevotes cs (prop_POLRound p); Ret (HasTwoThirdsMajority prevotes)
  | _, _ => Ret false
  end.

Definition defaultDoPrevote (e : Env) (cs : State) : outcome State :=
  match cs_LockedBlock cs, cs_ProposalBlock cs with
  | Some b, _ => signAddVote e cs PrevoteType (Block_Hash b) (Header (parts cs (cs_LockedBlockParts cs))) None
  | None, None => sign_nil e cs PrevoteType
  | None, Some b =>
      if negb (env_validate e (cs_state cs) b) then sign_nil e cs PrevoteType
      else
        match env_process e (cs_state cs) b with
        | None => Panic "state machine returned an error when calling ProcessProposal"
        | Some false => sign_nil e cs PrevoteType
        | Some true => signAddVote e cs PrevoteType (Block_Hash b) (Header (parts cs (cs_ProposalBlockParts cs))) None
        end
  end.

Definition enterPrevote (e : Env) (cs : State) (height round : Z) : outcome State :=
  if negb (cs_Height cs =? height) || (round <? cs_Round cs) || (cs_Round cs =? round) && (RoundStepPrevote <=? cs_Step cs)
  then Ret cs
  else
    cs ← defaultDoPrevote e cs;
    Ret (newStep (updateRoundStep cs round RoundStepPrevote)).

Definition enterPrevoteWait (cs : State) (height round : Z) : outcome State :=
  if negb (cs_Height cs =? height) || (round <? cs_Round cs) || (cs_Round cs =? round) && (RoundStepPrevoteWait <=? cs_Step cs)
  then Ret cs
  else
    '(cs, any) ← cs_HasTwoThirdsAny cs round PrevoteType;
    if negb any then Panic "entering prevote wait step, but prevotes does not have any +2/3 votes"
    else
      let cs := scheduleTimeout cs (config_Prevote cfg round) height round RoundStepPrevoteWait in
      Ret (newStep (updateRoundStep cs round RoundStepPrevoteWait)).

(** ** Precommit *)

(** A polka for a block we do not have: unlock, fetch it and precommit nil. *)
Definition precommit_unknown (e : Env) (cs : State) (blockID : BlockID) : outcome State :=
  let cs := with_Locked cs (-1) None None in
  let cs := if HasHeader (parts cs (cs_ProposalBlockParts cs)) (BlockParts blockID) then cs
            else new_parts (with_ProposalBlock cs None) (BlockParts blockID) in
  sign_nil e (emit cs (Publish EventUnlock)) PrecommitType.

(** The part of [enterPrecommit] between the guard and the deferred call. *)
Definition precommit_body (e : Env) (cs : State) (round : Z) : outcome State :=
  prevotes ← cs_Prevotes cs round;
  let '(blockID, ok) := TwoThirdsMajority prevotes in
  if negb ok then sign_nil e cs PrecommitType
  else
    let cs := emit cs (Publish EventPolka) in
    hvs ← votes_of cs;
    '(polRound, _) ← POLInfo hvs;
    if polRound <? round then Panic "this POLRound should be at least the round"
    else if len (BlockHash blockID) =? 0 then
      let cs := match cs_LockedBlock cs with
                | None => cs
                | Some _ => emit (with_Locked cs (-1) None None) (Publish EventUnlock)
                end in
      sign_nil e cs PrecommitType
    else if Block_HashesTo (cs_LockedBlock cs) (BlockHash blockID) then
      let cs := emit (with_Locked cs round (cs_LockedBlock cs) (cs_LockedBlockParts cs)) (Publish EventRelock) in
      signAddVote e cs PrecommitType (BlockHash blockID) (BlockParts blockID) (cs_LockedBlock cs)
    else
      match cs_ProposalBlock cs with
      | Some b =>
          if Block_HashesTo (Some b) (BlockHash blockID) then
            if negb (env_validate e (cs_state cs) b) then Panic "precommit step; +2/3 prevoted for an invalid block"
            else
              let cs := emit (with_Locked cs round (Some b) (cs_ProposalBlockParts cs)) (Publish EventLock) in
              signAddVote e cs PrecommitType (BlockHash blockID) (BlockParts blockID) (Some b)
          else precommit_unknown e cs blockID
      | None => precommit_unknown e cs blockID
      end.

Definition enterPrecommit (e : Env) (cs : State) (height round : Z) : outcome State :=
  if negb (cs_Height cs =? height) || (round <? cs_Round cs) || (cs_Round cs =? round) && (RoundStepPrecommit <=? cs_Step cs)
  then Ret cs
  else
    cs ← precommit_body e cs round;
    Ret (newStep (updateRoundStep cs round RoundStepPrecommit)).

Definition enterPrecommitWait (cs : State) (height round : Z) : outcome State :=
  if negb (cs_Height cs =? height) || (round <? cs_Round cs) || (cs_Round cs =? round) && cs_TriggeredTimeoutPrecommit cs
  then Ret cs
  else
    '(cs, any) ← cs_HasTwoThirdsAny cs round PrecommitType;
    if negb any then Panic "entering precommit wait step, but precommits does not have any +2/3 votes"
    else
      let cs := scheduleTimeout cs (config_Precommit cfg round) height round RoundStepPrecommitWait in
      Ret (newStep (with_Triggered cs true)).

(** ** Commit *)

(** The checks of [saveBlockToBatch], with the caller's own. *)
Definition save_block (e : Env) (cs : State) (block : Block) (blockParts : option PartSet) (seen : ExtendedCommit) (extended : bool)
    : outcome State :=
  if extended && negb (ExtendedCommit_EnsureExtensions seen true) then Panic "problems saving block with extensions"
  else if (0 <? env_store_base e) && negb (Block_Height block =? int64 (env_store_height e + 1))
  then Panic "BlockStore can only save contiguous blocks"
  else
    match blockParts with
    | None => Panic "nil pointer dereference"
    | Some ps =>
        if negb (IsComplete ps) then Panic "BlockStore can only save complete block part sets"
        else if negb (Block_Height block =? ec_Height seen)
        then Panic "BlockStore cannot save seen commit of a different height"
        else Ret (emit cs (SaveBlock block ps seen extended))
    end.

(** The only part of [recordMetrics] that can stop the machine. *)
Definition recordMetrics (cs : State) (height : Z) (block : Block) : outcome unit :=
  if sm_InitialHeight (cs_state cs) <? height then
    match cs_LastValidators cs with
    | None => Panic "nil pointer dereference"
    | Some vals => if Commit_Size (Block_LastCommit block) =? len (Validators vals) then Ret ()
                   else Panic "commit size doesn't match valset length"
    end
  else Ret ().

Definition updatePrivValidatorPubKey (e : Env) (cs : State) : State :=
  if privValidator then match env_pubkey e with Some pk => with_PubKey cs (Some pk) | None => cs end else cs.

(** [blockExec.ApplyVerifiedBlock] and what follows it. *)
Definition apply_block (e : Env) (cs : State) (height : Z) (block : Block) (blockParts : option PartSet) : outcome State :=
  let id := mkBlockID (Block_Hash block) (Header blockParts) in
  match env_apply e (cs_state cs) id block with
  | None => Panic "failed to apply block"
  | Some stateCopy =>
      let cs := emit cs (ApplyVerifiedBlock height id block) in
      recordMetrics cs height block;;
      cs ← updateToState e cs stateCopy;
      Ret (scheduleRound0 e (updatePrivValidatorPubKey e cs))
  end.

Definition finalizeCommit (e : Env) (cs : State) (height : Z) : outcome State :=
  if negb (cs_Height cs =? height) || negb (cs_Step cs =? RoundStepCommit) then Ret cs
  else
    precommits ← cs_Precommits cs (cs_CommitRound cs);
    let '(blockID, ok) := TwoThirdsMajority precommits in
    let blockParts := parts cs (cs_ProposalBlockParts cs) in
    if negb ok then Panic "cannot finalize commit; commit does not have 2/3 majority"
    else if negb (HasHeader blockParts (BlockParts blockID)) then Panic "expected ProposalBlockParts header to be commit header"
    else if negb (Block_HashesTo (cs_ProposalBlock cs) (BlockHash blockID))
    then Panic "cannot finalize commit; proposal block does not hash to commit hash"
    else
      match cs_ProposalBlock cs, precommits with
      | Some block, Some vs =>
          if negb (env_validate e (cs_state cs) block) then Panic "+2/3 committed an invalid block"
          else
            cs ← (if env_store_height e <? Block_Height block then
                    ext ← VoteExtensionsEnabled (cs_state cs) (VoteSet.height vs);
                    seen ← MakeExtendedCommit vs ext;
                    ext ← VoteExtensionsEnabled (cs_state cs) (Block_Height block);
                    save_block e cs block blockParts seen ext
                  else Ret cs);
            if negb (env_wal e) then Panic "failed to write the end of the height to consensus WAL"
            else apply_block e (emit cs (EndHeight height)) height block blockParts
      | _, _ => Panic "nil pointer dereference"
      end.

Definition tryFinalizeCommit (e : Env) (cs : State) (height : Z) : outcome State :=
  if negb (cs_Height cs =? height) then Panic "tryFinalizeCommit() of another height"
  else
    precommits ← cs_Precommits cs (cs_CommitRound cs);
    let '(blockID, ok) := TwoThirdsMajority precommits in
    if negb ok || (len (BlockHash blockID) =? 0) then Ret cs
    else if negb (Block_HashesTo (cs_ProposalBlock cs) (BlockHash blockID)) then Ret cs
    else finalizeCommit e cs height.

(** The part of [enterCommit] between the guard and the deferred call. *)
Definition commit_body (cs : State) (commitRound : Z) : outcome State :=
  precommits ← cs_Precommits cs commitRound;
  let '(blockID, ok) := TwoThirdsMajority precommits in
  if negb ok then Panic "RunActionCommit() expects +2/3 precommits"
  else
    let cs := if Block_HashesTo (cs_LockedBlock cs) (BlockHash blockID)
              then with_ProposalBlockParts (with_ProposalBlock cs (cs_LockedBlock cs)) (cs_LockedBlockParts cs)
              else cs in
    if negb (Block_HashesTo (cs_ProposalBlock cs) (BlockHash blockID)) &&
       negb (HasHeader (parts cs (cs_ProposalBlockParts cs)) (BlockParts blockID))
    then Ret (emit (new_parts (with_ProposalBlock cs None) (BlockParts blockID)) (Publish EventValidBlock))
    else Ret cs.

Definition enterCommit (e : Env) (cs : State) (height commitRound : Z) : outcome State :=
  if negb (cs_Height cs =? height) || (RoundStepCommit <=? cs_Step cs) then Ret cs
  else
    cs ← commit_body cs commitRound;
    let cs := updateRoundStep cs (cs_Round cs) RoundStepCommit in
    let cs := with_CommitTime (with_CommitRound cs commitRound) (env_now e) in
    tryFinalizeCommit e (newStep cs) height.

(** ** Propose *)

(** [validators.GetProposer()], whose result is dereferenced. *)
Definition get_proposer (cs : State) : outcome (State * Validator) :=
  '(vals, p) ← GetProposer (cs_Validators cs);
  match p with None => Panic "nil pointer dereference" | Some p => Ret (with_Validators cs vals, p) end.

Definition isProposer (cs : State) (address : bytes) : outcome (State * bool) :=
  '(cs, p) ← get_proposer cs;
  Ret (cs, bool_decide (Address p = address)).

(** [None] for an error. *)
Definition createProposalBlock (e : Env) (cs : State) : outcome (option Block) :=
  let finish lastExtCommit :=
    match cs_privValidatorPubKey cs with
    | None => Ret None
    | Some pk =>
        match env_create e (cs_Height cs) (cs_state cs) lastExtCommit (key_address pk) with
        | None => Panic "CreateProposalBlock failed"
        | Some None => Panic "Method createProposalBlock should not provide a nil block without errors"
        | Some (Some b) => Ret (Some b)
        end
    end in
  if negb privValidator then Ret None
  else if cs_Height cs =? sm_InitialHeight (cs_state cs) then finish (mkExtendedCommit 0 0 nilBlockID [])
  else
    match cs_LastCommit cs with
    | Some vs =>
        if HasTwoThirdsMajority (Some vs) then
          ext ← VoteExtensionsEnabled (cs_state cs) (VoteSet.height vs);
          lastExtCommit ← MakeExtendedCommit vs ext;
          finish lastExtCommit
        else Ret None
    | None => Ret None
    end.

(** The valid block, or a new one with its parts; [None] for an error. *)
Definition proposal_block (e : Env) (cs : State) : outcome (option (Block * option PartSet)) :=
  match cs_ValidBlock cs with
  | Some b => Ret (Some (b, parts cs (cs_ValidBlockParts cs)))
  | None =>
      block ← createProposalBlock e cs;
      match block with
      | None => Ret None
      | Some b =>
          ps ← Block_MakePartSet b BlockPartSizeBytes;
          Ret (match ps with None => None | Some ps => Some (b, Some ps) end)
      end
  end.

Definition defaultDecideProposal (e : Env) (cs : State) (height round : Z) : outcome State :=
  r ← proposal_block e cs;
  match r with
  | None => Ret cs
  | Some (block, blockParts) =>
      let id := mkBlockID (Block_Hash block) (Header blockParts) in
      let proposal sig := mkProposal ProposalType height round (cs_ValidRound cs) id (env_now e) sig in
      match env_sign_proposal e (sm_ChainID (cs_state cs)) (proposal []) with
      | None => Ret cs
      | Some sig =>
          let cs := sendInternalMessage cs (ProposalMessage (proposal sig)) in
          for_each (λ i cs,
              part ← match blockParts with None => Panic "nil pointer dereference" | Some ps => GetPart ps i end;
              Ret (sendInternalMessage cs (BlockPartMessage (cs_Height cs) (cs_Round cs) part)))
            (range (PartSet_Total blockParts)) cs
      end
  end.

(** The part of [enterPropose] between the guard and the deferred call. *)
Definition propose_body (e : Env) (cs : State) (height round : Z) : outcome State :=
  let cs := scheduleTimeout cs (config_Propose cfg round) height round RoundStepPropose in
  match privValidator, cs_privValidatorPubKey cs with
  | true, Some pk =>
      let address := key_address pk in
      if negb (HasAddress (cs_Validators cs) address) then Ret cs
      else
        '(cs, mine) ← isProposer cs address;
        if mine : bool then defaultDecideProposal e cs height round else Ret cs
  | _, _ => Ret cs
  end.

Definition enterPropose (e : Env) (cs : State) (height round : Z) : outcome State :=
  if negb (cs_Height cs =? height) || (round <? cs_Round cs) || (cs_Round cs =? round) && (RoundStepPropose <=? cs_Step cs)
  then Ret cs
  else
    cs ← propose_body e cs height round;
    let cs := newStep (updateRoundStep cs round RoundStepPropose) in
    complete ← isProposalComplete cs;
    if complete : bool then enterPrevote e cs height (cs_Round cs) else Ret cs.

(** ** New round *)

Definition needProofBlock (e : Env) (cs : State) (height : Z) : bool :=
  if height =? sm_InitialHeight (cs_state cs) then true
  else match env_block_meta e (int64 (height - 1)) with
       | None => true
       | Some appHash => negb (bool_decide (sm_AppHash (cs_state cs) = appHash))
       end.

(** [enterNewRound] up to the decision to propose. *)
Definition start_round (cs : State) (round : Z) : outcome State :=
  validators ← (if cs_Round cs <? round then
                  times ← SafeSubInt32 round (cs_Round cs);
                  IncrementProposerPriority (Copy (cs_Validators cs)) times
                else Ret (cs_Validators cs));
  let cs := with_Validators (updateRoundStep cs round RoundStepNewRound) validators in
  '(cs, p) ← get_proposer cs;
  match PubKey_ p with
  | None => Panic "nil pointer dereference"
  | Some _ =>
      let cs := if round =? 0 then cs else with_ProposalBlockParts (with_ProposalBlock (with_Proposal cs None) None) None in
      next ← SafeAddInt32 round 1;
      hvs ← votes_of cs;
      hvs ← SetRound hvs next;
      Ret (emit (with_Triggered (with_Votes cs (Some hvs)) false) (Publish EventNewRound))
  end.

Definition enterNewRound (e : Env) (cs : State) (height round : Z) : outcome State :=
  if negb (cs_Height cs =? height) || (round <? cs_Round cs) ||
     (cs_Round cs =? round) && negb (cs_Step cs =? RoundStepNewHeight)
  then Ret cs
  else
    cs ← start_round cs round;
    if WaitForTxs cfg && (round =? 0) && negb (needProofBlock e cs height) then
      Ret (if 0 <? CreateEmptyBlocksInterval cfg
           then scheduleTimeout cs (CreateEmptyBlocksInterval cfg) height round RoundStepNewRound else cs)
    else enterPropose e cs height round.

(** ** Proposals and block parts *)

Inductive set_proposal_error :=
| ErrInvalidProposalPOLRound
| ErrInvalidProposalSignature
| ErrProposalTooManyParts.

Definition max_bytes (cs : State) : Z :=
  if sm_MaxBytes (cs_state cs) =? -1 then MaxBlockSizeBytes else sm_MaxBytes (cs_state cs).

Definition defaultSetProposal (cs : State) (proposal : Proposal) : outcome (State * option set_proposal_error) :=
  match cs_Proposal cs with
  | Some _ => Ret (cs, None)
  | None =>
      if negb (prop_Height proposal =? cs_Height cs) || negb (prop_Round proposal =? cs_Round cs) then Ret (cs, None)
      else if (prop_POLRound proposal <? -1) ||
              (0 <=? prop_POLRound proposal) && (prop_Round proposal <=? prop_POLRound proposal)
      then Ret (cs, Some ErrInvalidProposalPOLRound)
      else
        '(cs, p) ← get_proposer cs;
        match PubKey_ p with
        | None => Panic "nil pointer dereference"
        | Some pk =>
            bz ← ProposalSignBytes (sm_ChainID (cs_state cs)) proposal;
            if negb (verify_signature pk bz (prop_Signature proposal)) then Ret (cs, Some ErrInvalidProposalSignature)
            else if int64 (Z.quot (int64 (max_bytes cs - 1)) BlockPartSizeBytes + 1) <? Total (BlockParts (prop_BlockID proposal))
            then Ret (cs, Some ErrProposalTooManyParts)
            else
              let cs := with_Proposal cs (Some proposal) in
              Ret (match cs_ProposalBlockParts cs with
                   | None => new_parts cs (BlockParts (prop_BlockID proposal))
                   | Some _ => cs
                   end, None)
        end
  end.

(** [io.ReadAll] of a part set reader. *)
Fixpoint read_later (later : list (option Part)) : outcome bytes :=
  match later with
  | [] => Ret []
  | None :: _ => Panic "nil pointer dereference"
  | Some p :: later => bz ← read_later later; Ret (part_Bytes p ++ bz)
  end.
Definition ReadAll (r : PartSetReader) : outcome bytes := bz ← read_later (psr_later r); Ret (psr_current r ++ bz).

Inductive block_part_error :=
| ErrAddPart (e : add_part_error)
| ErrPartsTooBig
| ErrBlockEncoding.

Definition addProposalBlockPart (cs : State) (height : Z) (part : option Part)
    : outcome (State * bool * option block_part_error) :=
  if negb (cs_Height cs =? height) then Ret (cs, false, None)
  else
    match part with
    | None => Panic "nil pointer dereference"
    | Some part =>
        match cs_ProposalBlockParts cs, parts cs (cs_ProposalBlockParts cs) with
        | Some a, Some ps =>
            '(r, added, err) ← AddPart (Some ps) part;
            let ps := default ps r in
            let cs := with_heap cs (<[a := ps]> (cs_heap cs)) in
            match err with
            | Some err => Ret (cs, added, Some (ErrAddPart err))
            | None =>
                if max_bytes cs <? ps_byteSize ps then Ret (cs, added, Some ErrPartsTooBig)
                else if added && IsComplete ps then
                  reader ← GetReader ps;
                  bz ← ReadAll reader;
                  match Block_Unmarshal bz with
                  | None => Ret (cs, added, Some ErrBlockEncoding)
                  | Some block => Ret (emit (with_ProposalBlock cs (Some block)) (Publish EventCompleteProposal), added, None)
                  end
                else Ret (cs, added, None)
            end
        | _, _ => Ret (cs, false, None)
        end
    end.

Definition handleCompleteProposal (e : Env) (cs : State) (blockHeight : Z) : outcome State :=
  prevotes ← cs_Prevotes cs (cs_Round cs);
  let '(blockID, hasTwoThirds) := TwoThirdsMajority prevotes in
  let cs := if hasTwoThirds && negb (BlockID_IsZero blockID) && (cs_ValidRound cs <? cs_Round cs) &&
               Block_HashesTo (cs_ProposalBlock cs) (BlockHash blockID)
            then with_Valid cs (cs_Round cs) (cs_ProposalBlock cs) (cs_ProposalBlockParts cs) else cs in
  complete ← (if cs_Step cs <=? RoundStepPropose then isProposalComplete cs else Ret false);
  if complete : bool then
    cs ← enterPrevote e cs blockHeight (cs_Round cs);
    if hasTwoThirds then enterPrecommit e cs blockHeight (cs_Round cs) else Ret cs
  else if cs_Step cs =? RoundStepCommit then tryFinalizeCommit e cs blockHeight
  else Ret cs.

(** ** Votes *)

Inductive vote_error :=
| ErrVote (e : hvs_error)
| ErrInvalidVote
| ErrExtensionSignature (e : verify_error)
| ErrInvalidVoteExtension
| ErrUnexpectedExtension
| ErrPublish.

(** A precommit of the previous height, while we wait for the next. *)
Definition add_last_commit (e : Env) (cs : State) (vote : Vote) : outcome (State * bool * option vote_error) :=
  if negb (cs_Step cs =? RoundStepNewHeight) then Ret (cs, false, None)
  else
    match cs_LastCommit cs with
    | None => Panic "AddVote() on nil VoteSet"
    | Some vs =>
        '(vs, added, err) ← addVote vs (Some vote);
        let cs := with_LastCommit cs (Some vs) in
        let err := option_map (ErrVote ∘ ErrAddVote) err in
        if negb added then Ret (cs, false, err)
        else if negb (env_publish e (EventVote vote)) then Ret (cs, true, Some ErrPublish)
        else
          let cs := emit cs (Publish (EventVote vote)) in
          '(vs, all) ← (if SkipTimeoutCommit cfg then HasAll (Some vs) else Ret (Some vs, false));
          let cs := with_LastCommit cs vs in
          cs ← (if all : bool then enterNewRound e cs (cs_Height cs) 0 else Ret cs);
          Ret (cs, true, err)
    end.

Definition check_extension (e : Env) (cs : State) (vote : Vote) (extEnabled : bool) : outcome (option vote_error) :=
  if extEnabled then
    let myAddr := match cs_privValidatorPubKey cs with None => [] | Some pk => key_address pk end in
    if (vote_Type vote =? PrecommitType) && negb (BlockID_IsZero (vote_BlockID vote)) &&
       negb (bool_decide (ValidatorAddress vote = myAddr))
    then
      match sm_Validators (cs_state cs) with
      | None => Panic "nil pointer dereference"
      | Some vals =>
          match GetByIndex vals (ValidatorIndex vote) with
          | None => Ret (Some ErrInvalidVote)
          | Some (_, val) =>
              err ← VerifyExtension vote (sm_ChainID (cs_state cs)) (PubKey_ val);
              Ret (match err with
                   | Some err => Some (ErrExtensionSignature err)
                   | None => if env_verify_extension e vote then None else Some ErrInvalidVoteExtension
                   end)
          end
      end
    else Ret None
  else if (0 <? len (vote_Extension vote)) || (0 <? len (vote_ExtensionSignature vote)) then Ret (Some ErrUnexpectedExtension)
  else Ret None.

(** A polka of the round of an added prevote: unlock, update the valid block.
    The flag is false when the bus refused an event, which ends [addVote]. *)
Definition prevote_unlock (e : Env) (cs : State) (r : Z) (blockID : BlockID) : State * bool :=
  match cs_LockedBlock cs with
  | Some _ =>
      if (cs_LockedRound cs <? r) && (r <=? cs_Round cs) && negb (Block_HashesTo (cs_LockedBlock cs) (BlockHash blockID))
      then let cs := with_Locked cs (-1) None None in
           if env_publish e EventUnlock then (emit cs (Publish EventUnlock), true) else (cs, false)
      else (cs, true)
  | None => (cs, true)
  end.

Definition prevote_valid (e : Env) (cs : State) (r : Z) (blockID : BlockID) : State * bool :=
  if negb (len (BlockHash blockID) =? 0) && (cs_ValidRound cs <? r) && (r =? cs_Round cs) then
    let cs := if Block_HashesTo (cs_ProposalBlock cs) (BlockHash blockID)
              then with_Valid cs r (cs_ProposalBlock cs) (cs_ProposalBlockParts cs)
              else with_ProposalBlock cs None in
    let cs := if HasHeader (parts cs (cs_ProposalBlockParts cs)) (BlockParts blockID) then cs
              else new_parts cs (BlockParts blockID) in
    (emit cs (Publish EventValidBlock), env_publish e EventValidBlock)
  else (cs, true).

Definition prevote_polka (e : Env) (cs : State) (r : Z) (prevotes : option VoteSet) : State * bool :=
  let '(blockID, ok) := TwoThirdsMajority prevotes in
  if ok : bool then
    match prevote_unlock e cs r blockID with
    | (cs, true) => prevote_valid e cs r blockID
    | (cs, false) => (cs, false)
    end
  else (cs, true).

(** The switch that follows. *)
Definition prevote_steps (e : Env) (cs : State) (height r : Z) (prevotes : option VoteSet) : outcome State :=
  '(cs, ahead) ← (if cs_Round cs <? r then cs_HasTwoThirdsAny cs r PrevoteType else Ret (cs, false));
  if ahead : bool then enterNewRound e cs height r
  else if (cs_Round cs =? r) && (RoundStepPrevote <=? cs_Step cs) then
    let '(blockID, ok) := TwoThirdsMajority prevotes in
    complete ← (if ok : bool then isProposalComplete cs else Ret false);
    if ok && (complete || (len (BlockHash blockID) =? 0)) then enterPrecommit e cs height r
    else
      '(cs, any) ← cs_HasTwoThirdsAny cs r PrevoteType;
      if any : bool then enterPrevoteWait cs height r else Ret cs
  else
    match cs_Proposal cs with
    | Some p =>
        if (0 <=? prop_POLRound p) && (prop_POLRound p =? r) then
          complete ← isProposalComplete cs;
          if complete : bool then enterPrevote e cs height (cs_Round cs) else Ret cs
        else Ret cs
    | None => Ret cs
    end.

Definition prevote_added (e : Env) (cs : State) (height r : Z) : outcome (State * bool) :=
  prevotes ← cs_Prevotes cs r;
  match prevote_polka e cs r prevotes with
  | (cs, false) => Ret (cs, false)
  | (cs, true) => cs ← prevote_steps e cs height r prevotes; Ret (cs, true)
  end.

Definition precommit_added (e : Env) (cs : State) (height r : Z) : outcome State :=
  precommits ← cs_Precommits cs r;
  let '(blockID, ok) := TwoThirdsMajority precommits in
  if ok : bool then
    cs ← enterNewRound e cs height r;
    cs ← enterPrecommit e cs height r;
    if negb (len (BlockHash blockID) =? 0) then
      cs ← enterCommit e cs height r;
      '(_, all) ← (if SkipTimeoutCommit cfg then HasAll precommits else Ret (precommits, false));
      if all : bool then enterNewRound e cs (cs_Height cs) 0 else Ret cs
    else enterPrecommitWait cs height r
  else if cs_Round cs <=? r then
    '(cs, any) ← cs_HasTwoThirdsAny cs r PrecommitType;
    if any : bool then
      cs ← enterNewRound e cs height r;
      enterPrecommitWait cs height r
    else Ret cs
  else Ret cs.

(** State.addVote *)
Definition cs_addVote (e : Env) (cs : State) (vote : Vote) (peerID : bytes) : outcome (State * bool * option vote_error) :=
  if (int64 (vote_Height vote + 1) =? cs_Height cs) && (vote_Type vote =? PrecommitType) then add_last_commit e cs vote
  else if negb (vote_Height vote =? cs_Height cs) then Ret (cs, false, None)
  else
    extEnabled ← VoteExtensionsEnabled (cs_state cs) (vote_Height vote);
    bad ← check_extension e cs vote extEnabled;
    match bad with
    | Some err => Ret (cs, false, Some err)
    | None =>
        let height := cs_Height cs in
        hvs ← votes_of cs;
        '(hvs, added, err) ← AddVote hvs vote peerID extEnabled;
        let cs := with_Votes cs (Some hvs) in
        let err := option_map ErrVote err in
        if negb added then Ret (cs, false, err)
        else if negb (env_publish e (EventVote vote)) then Ret (cs, true, Some ErrPublish)
        else
          let cs := emit cs (Publish (EventVote vote)) in
          if vote_Type vote =? PrevoteType then
            '(cs, published) ← prevote_added e cs height (vote_Round vote);
            Ret (cs, true, if published : bool then err else Some ErrPublish)
          else if vote_Type vote =? PrecommitType then
            cs ← precommit_added e cs height (vote_Round vote);
            Ret (cs, true, err)
          else Panic "unexpected vote type"
    end.

Inductive try_error :=
| ErrPubKeyIsNotSet
| ErrConflicting (voteA voteB : Vote)
| ErrAddingVote.

Definition tryAddVote (e : Env) (cs : State) (vote : Vote) (peerID : bytes) : outcome (State * bool * option try_error) :=
  '(cs, added, err) ← cs_addVote e cs vote peerID;
  match err with
  | None => Ret (cs, added, None)
  | Some (ErrVote (ErrAddVote (ErrVoteConflictingVotes voteA voteB))) =>
      match cs_privValidatorPubKey cs with
      | None => Ret (cs, false, Some ErrPubKeyIsNotSet)
      | Some pk =>
          if decide (ValidatorAddress vote = key_address pk) then Ret (cs, added, Some (ErrConflicting voteA voteB))
          else Ret (emit cs (ReportConflictingVotes voteA voteB), added, Some (ErrConflicting voteA voteB))
      end
  | Some (ErrVote (ErrAddVote ErrVoteNonDeterministicSignature)) => Ret (cs, added, None)
  | Some ErrInvalidVoteExtension => Ret (cs, added, None)
  | Some _ => Ret (cs, added, Some ErrAddingVote)
  end.

(** ** Events *)

Definition handleMsg (e : Env) (cs : State) (m : Message) (peerID : bytes) : outcome State :=
  match m with
  | ProposalMessage p => '(cs, _) ← defaultSetProposal cs p; Ret cs
  | BlockPartMessage h _ part =>
      '(cs, added, _) ← addProposalBlockPart cs h part;
      if added : bool then
        match parts cs (cs_ProposalBlockParts cs) with
        | None => Panic "nil pointer dereference"
        | Some ps => if IsComplete ps then handleCompleteProposal e cs h else Ret cs
        end
      else Ret cs
  | VoteMessage v => '(cs, _, _) ← tryAddVote e cs v peerID; Ret cs
  end.

Definition handleTimeout (e : Env) (cs : State) (ti : timeoutInfo) : outcome State :=
  if negb (ti_Height ti =? cs_Height cs) || (ti_Round ti <? cs_Round cs) ||
     (ti_Round ti =? cs_Round cs) && (ti_Step ti <? cs_Step cs)
  then Ret cs
  else if ti_Step ti =? RoundStepNewHeight then enterNewRound e cs (ti_Height ti) 0
  else if ti_Step ti =? RoundStepNewRound then enterPropose e cs (ti_Height ti) (ti_Round ti)
  else if ti_Step ti =? RoundStepPropose then
    enterPrevote e (emit cs (Publish EventTimeoutPropose)) (ti_Height ti) (ti_Round ti)
  else if ti_Step ti =? RoundStepPrevoteWait then
    enterPrecommit e (emit cs (Publish EventTimeoutWait)) (ti_Height ti) (ti_Round ti)
  else if ti_Step ti =? RoundStepPrecommitWait then
    cs ← enterPrecommit e (emit cs (Publish EventTimeoutWait)) (ti_Height ti) (ti_Round ti);
    enterNewRound e cs (ti_Height ti) (int32 (ti_Round ti + 1))
  else Panic "invalid timeout step".

Definition handleTxsAvailable (e : Env) (cs : State) : outcome State :=
  if negb (cs_Round cs =? 0) then Ret cs
  else if cs_Step cs =? RoundStepNewHeight then
    if needProofBlock e cs (cs_Height cs) then Ret cs
    else Ret (scheduleTimeout cs (int64 (time_Sub (cs_StartTime cs) (env_now e) + Millisecond)) (cs_Height cs) 0 RoundStepNewRound)
  else if cs_Step cs =? RoundStepNewRound then enterPropose e cs (cs_Height cs) 0
  else Ret cs.

(** What can reach the state: the three cases of [receiveRoutine], the
    mempool's signal, and a peer's claim of a majority, which the reactor
    passes to [cs.Votes]. *)
Inductive Event :=
| PeerMessage (m : Message) (peerID : bytes)
| InternalMessage (m : Message)
| Timeout (ti : timeoutInfo)
| TxsAvailable
| PeerMaj23 (h r ty : Z) (peerID : bytes) (id : BlockID).

Definition cs_step (e : Env) (cs : State) (ev : Event) : outcome State :=
  match ev with
  | PeerMessage m peerID => handleMsg e cs m peerID
  | InternalMessage m => if env_wal e then handleMsg e cs m [] else Panic "failed to write msg to consensus WAL"
  | Timeout ti => handleTimeout e cs ti
  | TxsAvailable => handleTxsAvailable e cs
  | PeerMaj23 h r ty peerID id =>
      if negb (cs_Height cs =? h) then Ret cs
      else
        hvs ← votes_of cs;
        '(hvs, _) ← hvs_SetPeerMaj23 hvs r ty peerID id;
        Ret (with_Votes cs (Some hvs))
  end.

(** ** Starting *)

(** [None] for an error. *)
Definition votesFromSeenCommit (e : Env) (state : SmState) : outcome (option VoteSet) :=
  let h := sm_LastBlockHeight state in
  match (match env_seen_commit e h with Some c => Some c | None => env_block_commit e h end), sm_LastValidators state with
  | None, _ => Ret None
  | Some commit, vals =>
      if negb (commit_Height commit =? h) then Ret None
      else match vals with
           | None => Panic "nil pointer dereference"
           | Some vals =>
               vs ← ToVoteSet commit (sm_ChainID state) vals;
               Ret (if HasTwoThirdsMajority (Some vs) then Some vs else None)
           end
  end.

Definition votesFromExtendedCommit (e : Env) (state : SmState) : outcome (option VoteSet) :=
  match env_extended_commit e (sm_LastBlockHeight state), sm_LastValidators state with
  | None, _ => Ret None
  | Some ec, vals =>
      if negb (ec_Height ec =? sm_LastBlockHeight state) then Ret None
      else match vals with
           | None => Panic "nil pointer dereference"
           | Some vals =>
               vs ← ToExtendedVoteSet ec (sm_ChainID state) vals;
               Ret (if HasTwoThirdsMajority (Some vs) then Some vs else None)
           end
  end.

Definition reconstructSeenCommit (e : Env) (cs : State) (state : SmState) : outcome State :=
  votes ← votesFromSeenCommit e state;
  match votes with
  | None => Panic "failed to reconstruct last commit"
  | Some vs => Ret (with_LastCommit cs (Some vs))
  end.

Definition reconstructLastCommit (e : Env) (cs : State) (state : SmState) : outcome State :=
  extensionsEnabled ← VoteExtensionsEnabled state (sm_LastBlockHeight state);
  if negb extensionsEnabled then reconstructSeenCommit e cs state
  else
    votes ← votesFromExtendedCommit e state;
    match votes with
    | None => Panic "failed to reconstruct last extended commit"
    | Some vs => Ret (with_LastCommit cs (Some vs))
    end.

Definition emptyState : SmState := mkSmState [] 0 0 None None [] 0 0.
Definition blank : State :=
  mkState 0 0 0 zeroTime zeroTime (mkValidatorSet [] None 0 false) None None None 0 None None 0 None None None 0 None None
    false emptyState None [] [].

(** [NewState], [SetPrivValidator] and the [scheduleRound0] of [OnStart];
    nothing is replayed from the log. *)
Definition NewState (e : Env) (state : SmState) : outcome State :=
  cs ← (if 0 <? sm_LastBlockHeight state then
          if negb (env_offline_height e =? 0) then reconstructSeenCommit e blank state
          else reconstructLastCommit e blank state
        else Ret blank);
  cs ← updateToState e cs state;
  Ret (scheduleRound0 e (updatePrivValidatorPubKey e cs)).

Fixpoint cs_run (cs : State) (evs : list (Env * Event)) : outcome State :=
  match evs with
  | [] => Ret cs
  | (e, ev) :: evs => cs ← cs_step e cs ev; cs_run cs evs
  end.

(** True when it returns [ErrSignatureFoundInPastBlocks]. *)
Definition checkDoubleSigningRisk (e : Env) (cs : State) (height : Z) : bool :=
  match cs_privValidatorPubKey cs with
  | Some pk =>
      privValidator && (0 <? DoubleSignCheckHeight cfg) && (0 <? height) &&
      existsb (λ i, match env_seen_commit e (height - i) with
                    | Some c => existsb (λ s, (cs_BlockIDFlag s =? BlockIDFlagCommit) &&
                                              bool_decide (cs_ValidatorAddress s = key_address pk)) (commit_Signatures c)
                    | None => false
                    end)
        (seqZ 1 (Z.min (DoubleSignCheckHeight cfg) height - 1))
  | None => false
  end.
End machine.

Definition CompareHRS (h1 r1 s1 h2 r2 s2 : Z) : Z :=
  if h1 <? h2 then -1 else if h2 <? h1 then 1
  else if r1 <? r2 then -1 else if r2 <? r1 then 1
  else if s1 <? s2 then -1 else if s2 <? s1 then 1 else 0.

(** ** The ticker

    One timer: the timeout it is set for, and whether it runs. *)
Record timeoutTicker := mkTicker { tick_ti : timeoutInfo; timerActive : bool }.
Definition NewTimeoutTicker : timeoutTicker := mkTicker (mkTimeout 0 0 0 0) false.

Definition ScheduleTimeout (t : timeoutTicker) (newti : timeoutInfo) : timeoutTicker :=
  let ti := tick_ti t in
  if ti_Height newti <? ti_Height ti then t
  else if (ti_Height newti =? ti_Height ti) && (ti_Round newti <? ti_Round ti) then t
  else if (ti_Height newti =? ti_Height ti) && (ti_Round newti =? ti_Round ti) &&
          (0 <? ti_Step ti) && (ti_Step newti <=? ti_Step ti) then t
  else mkTicker newti true.

(** The timer runs out: the timeout it relays. *)
Definition tick (t : timeoutTicker) : timeoutTicker * option timeoutInfo :=
  if timerActive t then (mkTicker (tick_ti t) false, Some (tick_ti t)) else (t, None).
