(* ===== verification/ConsensusInv.v ===== *)
(** * The consensus state machine: the invariant

    What holds of a node between two events, whatever it has received: the
    votes it counts, the rounds it has timers for, the votes it has signed,
    the block it is locked on, and the blocks it has decided.  The operations
    that do not sign keep it; [ConsensusSteps] treats the others. *)
From S2P Require Import Prelude.
From S2P Require Import BitArray.
From S2P Require Import SafeMath.
From S2P Require Import Vote.
From S2P Require Import Validator.
From S2P Require Import SignBytes.
From S2P Require Import ValidatorSet.
From S2P Require Import ValidatorSetPriority.
From S2P Require Import ValidatorSetUpdate.
From S2P Require Import VoteSet.
From S2P Require Import VoteSetInv.
From S2P Require Import VoteSetSafety.
From S2P Require Import HeightVoteSet.
From S2P Require Import PartSet.
From S2P Require Import VoteOrigin.
From S2P Require Import ConsensusState.

(** ** What a node has sent, scheduled and decided *)

Section outputs.
Context `{BlockOps}.

Definition sent_votes : list Output → list Vote :=
  omap (λ o, match o with Send (VoteMessage v) => Some v | _ => None end).
Definition timeouts : list Output → list timeoutInfo :=
  omap (λ o, match o with Schedule ti => Some ti | _ => None end).
Definition applied : list Output → list (Z * BlockID * Block) :=
  omap (λ o, match o with ApplyVerifiedBlock h id b => Some (h, id, b) | _ => None end).

(** Outputs the invariant does not mention. *)
Definition quiet (o : Output) : bool :=
  match o with Send (VoteMessage _) | Schedule _ | ApplyVerifiedBlock _ _ _ => false | _ => true end.

Lemma quiet_sent out o : quiet o = true → sent_votes (out ++ [o]) = sent_votes out.
Proof. intros Hq. unfold sent_votes. rewrite omap_app. destruct o as [[]|?|?|?|?|?|?|?]; simpl in *; try done; by rewrite app_nil_r. Qed.
Lemma quiet_timeouts out o : quiet o = true → timeouts (out ++ [o]) = timeouts out.
Proof. intros Hq. unfold timeouts. rewrite omap_app. destruct o as [[]|?|?|?|?|?|?|?]; simpl in *; try done; by rewrite app_nil_r. Qed.
Lemma quiet_applied out o : quiet o = true → applied (out ++ [o]) = applied out.
Proof. intros Hq. unfold applied. rewrite omap_app. destruct o as [[]|?|?|?|?|?|?|?]; simpl in *; try done; by rewrite app_nil_r. Qed.

(** The step of a vote. *)
Definition vote_slot (v : Vote) : Z * Z * Z := (vote_Height v, vote_Round v, vote_Type v).

(** A vote that may have been sent before the step [s] of round [r]. *)
Definition sent_by (h r s : Z) (v : Vote) : Prop :=
  IsVoteTypeValid (vote_Type v) = true ∧ vote_Height v ≤ h ∧
  (vote_Height v = h → vote_Round v ≤ r ∧
    (vote_Round v = r → (vote_Type v = PrevoteType → RoundStepPrevote ≤ s) ∧
                        (vote_Type v = PrecommitType → RoundStepPrecommit ≤ s))).

(** A precommit for a block. *)
Definition precommits_block (v : Vote) : Prop := vote_Type v = PrecommitType ∧ BlockHash (vote_BlockID v) ≠ [].

Lemma sent_by_later h r s r' s' v :
  (r < r' ∨ r = r' ∧ (s ≤ s' ∨ s < RoundStepPrevote)) → sent_by h r s v → sent_by h r' s' v.
Proof.
  intros Hlt (Hty & Hh & Hv). split; [done|]. split; [done|]. intros He. destruct (Hv He) as [Hr Hs]. split; [lia|].
  intros Hr'. assert (r = r' ∧ vote_Round v = r) as [? ?] by lia. destruct (Hs ltac:(lia)) as [Hp Hq]. destruct Hlt as [?|[_ [?|?]]]; [lia| |];
    unfold RoundStepPrevote, RoundStepPrecommit in *; split; intros Ht; try specialize (Hp Ht); try specialize (Hq Ht); lia.
Qed.

Lemma sent_by_height h r s h' r' s' v : h < h' → sent_by h r s v → sent_by h' r' s' v.
Proof. intros Hlt (Hty & Hh & _). split; [done|]. split; [lia|]. intros He. exfalso. lia. Qed.
End outputs.

(** ** Time *)

(** The node has not gone back, and what it has sent since belongs to the
    round it was in or a later one. *)
Definition ckept `{BlockOps} (h r s : Z) (out : list Output) (h' r' s' : Z) (out' : list Output) : Prop :=
  (h < h' ∨ h = h' ∧ (r < r' ∨ r = r' ∧ s ≤ s')) ∧
  ∃ l, out' = out ++ l ∧ ∀ v, v ∈ sent_votes l → h < vote_Height v ∨ h = vote_Height v ∧ r ≤ vote_Round v.

Definition kept `{BlockOps} (cs cs' : State) : Prop :=
  ckept (cs_Height cs) (cs_Round cs) (cs_Step cs) (cs_out cs) (cs_Height cs') (cs_Round cs') (cs_Step cs') (cs_out cs').

Section kept.
Context `{BlockOps}.

Lemma ckept_step h r s out r' s' : r < r' ∨ r = r' ∧ s ≤ s' → ckept h r s out h r' s' out.
Proof. intros Hrs. split; [lia|]. exists []. split; [by rewrite app_nil_r|]. by intros v ?%not_elem_of_nil. Qed.

Lemma kept_refl cs : kept cs cs.
Proof. apply ckept_step. lia. Qed.

Lemma kept_trans cs1 cs2 cs3 : kept cs1 cs2 → kept cs2 cs3 → kept cs1 cs3.
Proof.
  intros [H1 (l1 & Hl1 & Hv1)] [H2 (l2 & Hl2 & Hv2)]. split; [lia|]. exists (l1 ++ l2).
  split; [by rewrite Hl2, Hl1, app_assoc|]. intros v. unfold sent_votes. rewrite omap_app, elem_of_app. intros [Hv|Hv]; [by apply Hv1|].
  apply Hv2 in Hv. lia.
Qed.

Lemma kept_output cs o :
  (∀ v, o = Send (VoteMessage v) → vote_Height v = cs_Height cs ∧ vote_Round v = cs_Round cs) → kept cs (emit cs o).
Proof.
  intros Ho. split; [cbn; lia|]. exists [o]. split; [done|]. intros v Hv. unfold sent_votes in Hv.
  apply list_elem_of_omap in Hv as (o' & Hin & Ho'). apply list_elem_of_singleton in Hin as ->.
  destruct o as [[]| | | | | | |]; try done. injection Ho' as ->. destruct (Ho v eq_refl). lia.
Qed.
End kept.

(** ** The invariant *)

Section inv.
Context `{StdTime, Crypto, BlockOps}.

(** The chain and the validators of each of its heights. *)
Variable chain : bytes.
Variable VS : Z → list Validator.

(** The height that [updateToState] goes to. *)
Definition next_height (st : SmState) : Z :=
  if sm_LastBlockHeight st + 1 =? 1 then sm_InitialHeight st else sm_LastBlockHeight st + 1.

(** A state of this chain. *)
Record state_ok (st : SmState) : Prop := {
  so_chain : sm_ChainID st = chain;
  so_height : 0 ≤ sm_LastBlockHeight st < 2 ^ 63 - 1;
  so_initial : 0 < sm_InitialHeight st ≤ MaxInt64;
  so_vals : ∃ vals, sm_Validators st = Some vals ∧ valid_set vals ∧ keyed (Validators vals) ∧ Validators vals = VS (next_height st);
}.

(** [P] holds of the votes the node has received. *)
Variable P : Vote → Prop.

Definition polka (h r : Z) (b : BlockID) : Prop := majority P chain (VS h) PrevoteType h r b.

(** Since the precommit [v], a later round had a polka for something else. *)
Definition unlocked (v : Vote) : Prop :=
  ∃ r b, vote_Round v < r ∧ polka (vote_Height v) r b ∧ BlockHash b ≠ BlockHash (vote_BlockID v).

(** A majority of precommits for the block. *)
Definition decided (h : Z) (b : Block) : Prop :=
  ∃ r id, majority P chain (VS h) PrecommitType h r id ∧ BlockHash id = Block_Hash b ∧ BlockHash id ≠ [].

Record cinv (h r s lr : Z) (lb : option Block) (votes : option HeightVoteSet) (cr : Z) (st : SmState)
    (vs : list Vote) (tis : list timeoutInfo) (app : list (Z * BlockID * Block)) : Prop := {
  ci_votes : ∃ hvs, votes = Some hvs ∧ height_votes P chain h (VS h) hvs ∧ hvs_round hvs ≤ r + 1;
  ci_pos : 0 < h ∧ 0 ≤ r ∧ RoundStepNewHeight ≤ s;
  ci_state : state_ok st ∧ next_height st = h;
  ci_commit : s = RoundStepCommit → 0 ≤ cr;
  ci_lock : lr ≤ r ∧ (lr < r ∨ RoundStepPrecommit ≤ s);
  ci_timeouts : ∀ ti, ti ∈ tis → ti_Height ti ≤ h ∧ (ti_Height ti = h → ti_Round ti ≤ r);
  ci_sent : ∀ v, v ∈ vs → sent_by h r s v;
  ci_once : NoDup (vote_slot <$> vs);
  ci_polka : ∀ v, v ∈ vs → precommits_block v → polka (vote_Height v) (vote_Round v) (vote_BlockID v);
  ci_locked : ∀ v, v ∈ vs → precommits_block v → vote_Height v = h →
    (∃ b, lb = Some b ∧ Block_Hash b = BlockHash (vote_BlockID v) ∧ vote_Round v ≤ lr) ∨ unlocked v;
  ci_prevotes : ∀ v w, v ∈ vs → w ∈ vs → precommits_block v → vote_Type w = PrevoteType → vote_Height v = vote_Height w →
    vote_Round v < vote_Round w → BlockHash (vote_BlockID w) = BlockHash (vote_BlockID v) ∨ unlocked v;
  ci_applied : ∀ h0 id b, (h0, id, b) ∈ app → h0 ≤ h ∧ decided h0 b;
}.

Definition inv (cs : State) : Prop :=
  cinv (cs_Height cs) (cs_Round cs) (cs_Step cs) (cs_LockedRound cs) (cs_LockedBlock cs) (cs_Votes cs) (cs_CommitRound cs)
    (cs_state cs) (sent_votes (cs_out cs)) (timeouts (cs_out cs)) (applied (cs_out cs)).

(** An operation from [cs] to [cs'] that keeps it. *)
Definition good (cs cs' : State) : Prop := inv cs' ∧ kept cs cs'.

Lemma good_refl cs : inv cs → good cs cs.
Proof using. intros Hi. split; [done|apply kept_refl]. Qed.

Lemma good_trans cs1 cs2 cs3 : good cs1 cs2 → (inv cs2 → good cs2 cs3) → good cs1 cs3.
Proof using. intros [Hi Hk] H2. destruct (H2 Hi) as [Hi2 Hk2]. split; [done|by eapply kept_trans]. Qed.

Lemma good_quiet cs o : quiet o = true → inv cs → good cs (emit cs o).
Proof using.
  intros Hq Hi. split; [|apply kept_output; by intros v ->]. unfold inv. cbn.
  rewrite quiet_sent, quiet_timeouts, quiet_applied by done. exact Hi.
Qed.

Lemma good_schedule cs d h r s :
  inv cs → h = cs_Height cs → r ≤ cs_Round cs → good cs (scheduleTimeout cs d h r s).
Proof using.
  intros Hi -> Hr. split; [|by apply kept_output]. unfold inv. cbn. destruct Hi.
  assert (sent_votes (cs_out cs ++ [Schedule (mkTimeout d (cs_Height cs) r s)]) = sent_votes (cs_out cs)) as ->
    by (unfold sent_votes; rewrite omap_app; apply app_nil_r).
  assert (applied (cs_out cs ++ [Schedule (mkTimeout d (cs_Height cs) r s)]) = applied (cs_out cs)) as ->
    by (unfold applied; rewrite omap_app; apply app_nil_r).
  split; try done. intros ti. unfold timeouts. rewrite omap_app, elem_of_app. intros [Ht|Ht]; [by apply ci_timeouts0|].
  apply list_elem_of_singleton in Ht as ->. cbn. lia.
Qed.

(** A later step of the same height, by itself. *)
Lemma good_step cs round step :
  inv cs → RoundStepNewHeight ≤ step → (step = RoundStepCommit → 0 ≤ cs_CommitRound cs) →
  (cs_Round cs < round ∨ cs_Round cs = round ∧ cs_Step cs ≤ step) → good cs (updateRoundStep cs round step).
Proof using.
  intros Hi Hst Hc Hrs. split; [|apply ckept_step; cbn; lia]. destruct Hi. unfold inv. cbn. split; try done.
  - destruct ci_votes0 as (hvs & Hv & Hh & Hr). exists hvs. split_and!; [done..|lia].
  - lia.
  - lia.
  - intros ti Ht. destruct (ci_timeouts0 ti Ht) as [? Ht']. split; [done|]. intros He. specialize (Ht' He). lia.
  - intros v Hv. eapply sent_by_later; [|by apply ci_sent0]. lia.
Qed.

Lemma newStep_good cs : inv cs → good cs (newStep cs).
Proof using. by apply good_quiet. Qed.

(** ** The votes of the height *)

Lemma inv_votes cs hvs :
  inv cs → height_votes P chain (cs_Height cs) (VS (cs_Height cs)) hvs → hvs_round hvs ≤ cs_Round cs + 1 →
  good cs (with_Votes cs (Some hvs)).
Proof using.
  intros Hi Hh Hr. split; [|exact (kept_refl cs)]. destruct Hi. unfold inv. cbn. split; try done. by exists hvs.
Qed.

Lemma votes_of_inv cs hvs :
  inv cs → votes_of cs = Ret hvs →
  cs_Votes cs = Some hvs ∧ height_votes P chain (cs_Height cs) (VS (cs_Height cs)) hvs ∧ hvs_round hvs ≤ cs_Round cs + 1.
Proof using.
  intros [(hvs' & Hv & Hh & Hr)] Hf. unfold votes_of in Hf. rewrite Hv in Hf |- *. by injection Hf as <-.
Qed.

Lemma prevotes_polka cs r vs b :
  inv cs → cs_Prevotes cs r = Ret vs → TwoThirdsMajority vs = (b, true) → polka (cs_Height cs) r b.
Proof using.
  intros Hi Hf Hm. unfold cs_Prevotes in Hf. bind_split Hf hvs H2. apply votes_of_inv in H2 as (_ & Hh & _); [|done].
  by eapply getVoteSet_majority.
Qed.

Lemma precommits_majority cs r vs b :
  inv cs → cs_Precommits cs r = Ret vs → TwoThirdsMajority vs = (b, true) →
  majority P chain (VS (cs_Height cs)) PrecommitType (cs_Height cs) r b.
Proof using.
  intros Hi Hf Hm. unfold cs_Precommits in Hf. bind_split Hf hvs H2. apply votes_of_inv in H2 as (_ & Hh & _); [|done].
  by eapply getVoteSet_majority.
Qed.

(** A query changes nothing that matters. *)
Lemma query_good q cs r ty cs' b :
  inv cs → IsVoteTypeValid ty = true → (q = HasTwoThirdsAny ∨ q = HasAll) → query_set q cs r ty = Ret (cs', b) →
  good cs cs' ∧ ∃ hv, cs' = with_Votes cs hv.
Proof using.
  intros Hi Hty Hq Hf. unfold query_set in Hf. bind_split Hf hvs H2. apply votes_of_inv in H2 as (Hv & Hh & Hr); [|done].
  bind_split Hf vs H3. bind_split Hf x H4. destruct x as [vs' b']. pose proof (query_from _ _ _ _ _ _ _ _ _ _ _ Hh Hty Hq H3 H4) as H5.
  destruct vs' as [vs'|]; injection Hf as <- _.
  - split; [|by eexists]. apply inv_votes; [done|apply H5|]. destruct H5 as [_ ->]. done.
  - split; [by apply good_refl|]. exists (cs_Votes cs). by destruct cs.
Qed.
End inv.
