(* ===== verification/ConsensusSteps.v ===== *)
(** * The consensus state machine: the steps keep the invariant

    Every operation of [ConsensusState], on a state with the invariant, ends
    in a state with the invariant if it returns: prevotes follow the lock,
    precommits follow a polka, a lock is only given up for a later polka. *)
From S2P Require Import Prelude.
From S2P Require Import BitArray.
From S2P Require Import SafeMath.
From S2P Require Import Vote.
From S2P Require Import Validator.
From S2P Require Import SignBytes.
From S2P Require Import ValidatorSet.
From S2P Require Import ValidatorSetPriority.
From S2P Require Import ValidatorSetUpdate.
From S2P Require Import VoteSet.
From S2P Require Import VoteSetInv.
From S2P Require Import VoteSetSafety.
From S2P Require Import HeightVoteSet.
From S2P Require Import PartSet.
From S2P Require Import VoteOrigin.
From S2P Require Import ConsensusState.
From S2P Require Import ConsensusInv.

(** ** Changes the invariant does not see *)

Section silent.
Context `{BlockOps}.

Definition view (cs : State) :=
  (cs_Height cs, cs_Round cs, cs_Step cs, cs_LockedRound cs, cs_LockedBlock cs, cs_Votes cs, cs_CommitRound cs, cs_state cs).

Definition silent (cs cs' : State) : Prop :=
  view cs' = view cs ∧ ∃ l, cs_out cs' = cs_out cs ++ l ∧ forallb quiet l = true.

Lemma silent_same cs cs' : view cs' = view cs → cs_out cs' = cs_out cs → silent cs cs'.
Proof. intros Hv Ho. split; [done|]. exists []. by rewrite Ho, app_nil_r. Qed.

Lemma silent_refl cs : silent cs cs.
Proof. by apply silent_same. Qed.

Lemma silent_trans cs1 cs2 cs3 : silent cs1 cs2 → silent cs2 cs3 → silent cs1 cs3.
Proof.
  intros [Hv1 (l1 & Ho1 & Hq1)] [Hv2 (l2 & Ho2 & Hq2)]. split; [congruence|]. exists (l1 ++ l2).
  rewrite Ho2, Ho1, app_assoc, forallb_app, Hq1, Hq2. done.
Qed.

Lemma silent_emit cs o : quiet o = true → silent cs (emit cs o).
Proof. intros Hq. split; [done|]. exists [o]. simpl. by rewrite Hq. Qed.

Lemma silent_out l : forallb quiet l = true → sent_votes l = [] ∧ timeouts l = [] ∧ applied l = [].
Proof.
  induction l as [|o l IH]; [done|]. simpl. intros [Hq Hl]%andb_true_iff. destruct (IH Hl) as (H1 & H2 & H3).
  destruct o as [[]| | | | | | |]; done.
Qed.

Lemma silent_round cs cs' : silent cs cs' → cs_Height cs' = cs_Height cs ∧ cs_Round cs' = cs_Round cs.
Proof. intros [[=] _]. done. Qed.
End silent.

#[global] Hint Resolve silent_refl : core.

(** The steps as numbers. *)
Ltac usteps := unfold RoundStepNewHeight, RoundStepNewRound, RoundStepPropose, RoundStepPrevote, RoundStepPrevoteWait,
  RoundStepPrecommit, RoundStepPrecommitWait, RoundStepCommit in *.

(** A statement about the votes sent, the last of which is new. *)
Ltac last_vote w Hw := intros w Hw; apply elem_of_app in Hw as [Hw|Hw]; [|apply list_elem_of_singleton in Hw as ->].

Section steps.
Context `{StdTime, Crypto, BlockOps}.
Variable cfg : ConsensusConfig.
Variable privValidator : bool.
Variable chain : bytes.
Variable VS : Z → list Validator.
Variable P : Vote → Prop.
Local Abbreviation inv := (inv chain VS P).
Local Abbreviation good := (good chain VS P).
Local Abbreviation cinv := (cinv chain VS P).

Lemma silent_good cs cs' : silent cs cs' → inv cs → good cs cs'.
Proof using.
  intros [Hv (l & Ho & Hq)] Hi. unfold view in Hv. injection Hv as Hh Hr Hs Hlr Hlb Hvo Hcr Hst.
  destruct (silent_out l Hq) as (H2 & H3 & H4). split.
  - unfold inv, ConsensusInv.inv. rewrite Hh, Hr, Hs, Hlr, Hlb, Hvo, Hcr, Hst, Ho. unfold sent_votes, timeouts, applied in *.
    rewrite !omap_app, H2, H3, H4, !app_nil_r. exact Hi.
  - split; [lia|]. exists l. split; [done|]. rewrite H2. by intros v ?%not_elem_of_nil.
Qed.

(** ** Signing *)

(** What [signAddVote] leaves: nothing, or one more vote of this step. *)
Definition signed_as (cs cs' : State) (ty : Z) (id : BlockID) : Prop :=
  cs' = cs ∨ ∃ v, cs' = emit cs (Send (VoteMessage v)) ∧ vote_Type v = ty ∧ vote_Height v = cs_Height cs ∧
    vote_Round v = cs_Round cs ∧ vote_BlockID v = id.

Lemma SignAndCheckVote_spec sign cid vote ext v :
  SignAndCheckVote sign cid vote ext = inl v →
  vote_Type v = vote_Type vote ∧ vote_Height v = vote_Height vote ∧ vote_Round v = vote_Round vote ∧
  vote_BlockID v = vote_BlockID vote.
Proof using.
  unfold SignAndCheckVote. destruct (sign cid vote) as [v'|]; [|done].
  destruct (_ && _); [done|]. destruct (_ && _); [done|]. destruct (_ && _); [done|]. by intros [= <-].
Qed.

Lemma signAddVote_spec e cs ty hash hdr b cs' :
  signAddVote privValidator e cs ty hash hdr b = Ret cs' → signed_as cs cs' ty (mkBlockID hash hdr).
Proof using.
  unfold signAddVote. intros Hf. destruct privValidator; [|left; by injection Hf as <-].
  destruct (cs_privValidatorPubKey cs) as [pk|] eqn:Epk; [|left; by injection Hf as <-].
  destruct (negb _); [left; by injection Hf as <-|]. bind_split Hf o Ho. destruct o as [v|]; [|left; by injection Hf as <-].
  bind_split Hf ext Hext. destruct (_ && _); [done|]. injection Hf as <-. right. exists v. split; [done|].
  unfold signVote in Ho. destruct (negb _); [done|]. rewrite Epk in Ho. bind_split Ho ext' Hext'.
  destruct (if _ && _ && _ then _ else _) as [x|]; [|done]. destruct (SignAndCheckVote _ _ _ _) as [v'|[]] eqn:Hs; [|done..].
  injection Ho as ->. by apply SignAndCheckVote_spec in Hs.
Qed.

(** ** Prevote *)

Lemma slot_fresh h r s lr lb votes cr st vs tis app v :
  cinv h r s lr lb votes cr st vs tis app → vote_Height v = h → vote_Round v = r →
  (vote_Type v = PrevoteType ∧ s < RoundStepPrevote ∨ vote_Type v = PrecommitType ∧ s < RoundStepPrecommit) →
  NoDup (vote_slot <$> vs ++ [v]).
Proof using.
  intros Hi Hh Hr Hs. rewrite fmap_app. apply NoDup_app. split; [apply Hi|]. split; [|apply NoDup_singleton].
  intros k Hk Hin. apply list_elem_of_singleton in Hin as ->. apply list_elem_of_fmap in Hk as (w & Hw & Hin).
  unfold vote_slot in Hw. injection Hw as Hwh Hwr Hwt. destruct (ci_sent _ _ _ _ _ _ _ _ _ _ _ _ _ _ Hi w Hin) as (_ & _ & Hw).
  destruct (Hw ltac:(lia)) as [_ Hw2]. destruct (Hw2 ltac:(lia)) as [Hp Hq]. destruct Hs as [[Ht Hs]|[Ht Hs] ].
  - specialize (Hp ltac:(congruence)). lia.
  - specialize (Hq ltac:(congruence)). lia.
Qed.

(** A prevote, in the round of the state, for the locked block if there is one. *)
Lemma cinv_prevote h r s lr lb votes cr st vs tis app v :
  cinv h r s lr lb votes cr st vs tis app → s < RoundStepPrevote → vote_Type v = PrevoteType → vote_Height v = h →
  vote_Round v = r → (∀ b, lb = Some b → BlockHash (vote_BlockID v) = Block_Hash b) →
  cinv h r RoundStepPrevote lr lb votes cr st (vs ++ [v]) tis app.
Proof using.
  intros Hi Hs Ht Hh Hr Hb. pose proof (slot_fresh _ _ _ _ _ _ _ _ _ _ _ v Hi Hh Hr ltac:(tauto)) as Hnd.
  assert (∀ w : Vote, vote_Type w = PrevoteType → ¬ precommits_block w) as Hnot by (intros w Hw [Hw' _]; unfold PrevoteType, PrecommitType in *; congruence).
  destruct Hi. split; usteps; try done; try lia.
  - last_vote w Hw.
    + eapply sent_by_later; [|by apply ci_sent]. unfold RoundStepPrevote. lia.
    + split; [unfold IsVoteTypeValid; by rewrite Ht|]. split; [lia|]. intros _. split; [lia|]. intros _.
      unfold RoundStepPrevote, PrevoteType, PrecommitType in *. split; intros; lia.
  - last_vote w Hw; intros Hp; [by apply ci_polka|by destruct (Hnot v Ht)].
  - last_vote w Hw; intros Hp; [by apply ci_locked|by destruct (Hnot v Ht)].
  - intros x w Hx. revert w. apply elem_of_app in Hx as [Hx| ->%list_elem_of_singleton]; [|intros w Hw Hp; by destruct (Hnot v Ht)].
    last_vote w Hw; intros Hpx Htw Hhw Hrw; [by apply ci_prevotes|].
    destruct (ci_locked x Hx Hpx ltac:(lia)) as [(b & -> & Hbx & _)|Hu]; [left|by right]. rewrite (Hb b eq_refl). done.
Qed.

(** No vote is sent: only the step. *)
Lemma cinv_prevote_none h r s lr lb votes cr st vs tis app :
  cinv h r s lr lb votes cr st vs tis app → s < RoundStepPrevote → cinv h r RoundStepPrevote lr lb votes cr st vs tis app.
Proof using.
  intros Hi Hs. destruct Hi. split; usteps; try done; try lia. intros w Hw. eapply sent_by_later; [|by apply ci_sent]. unfold RoundStepPrevote. lia.
Qed.

Lemma enterPrevote_good e cs height round cs' :
  inv cs → (cs_Height cs = height → round ≤ cs_Round cs) → enterPrevote privValidator e cs height round = Ret cs' →
  good cs cs' ∧ cs_Height cs' = cs_Height cs ∧ cs_Round cs' = cs_Round cs.
Proof using.
  intros Hi Hside Hf. unfold enterPrevote in Hf. destruct (_ || _ || _) eqn:Eg.
  { injection Hf as <-. split; [by apply good_refl|done]. }
  apply orb_false_iff in Eg as [[Eh%negb_false_iff%Z.eqb_eq Er%Z.ltb_ge]%orb_false_iff Es].
  assert (round = cs_Round cs) as -> by (specialize (Hside Eh); lia). rewrite Z.eqb_refl in Es. apply Z.leb_gt in Es.
  bind_split Hf cs1 H2. injection Hf as <-.
  assert (∃ id, signed_as cs cs1 PrevoteType id ∧ ∀ b, cs_LockedBlock cs = Some b → BlockHash id = Block_Hash b) as (id & Hsg & Hlock).
  { unfold defaultDoPrevote in H2. destruct (cs_LockedBlock cs) as [b|] eqn:El.
    { eexists. split; [by eapply signAddVote_spec|]. intros b' [= <-]. done. }
    destruct (cs_ProposalBlock cs) as [b|]; [destruct (negb _); [|destruct (env_process _ _ _) as [[]|]; [| |done] ]|];
      eexists; (split; [by eapply signAddVote_spec|done]). }
  destruct Hsg as [->|(v & -> & Hvt & Hvh & Hvr & Hvi)].
  - split; [|done]. eapply good_trans; [|intros Hx; by apply newStep_good]. split; [by apply cinv_prevote_none with (s := cs_Step cs)|].
    apply ckept_step. cbn. lia.
  - split; [|done]. eapply good_trans; [|intros Hx; by apply newStep_good]. split.
    + unfold ConsensusInv.inv. cbn. unfold sent_votes, timeouts, applied. rewrite !omap_app. simpl. rewrite !app_nil_r.
      eapply (cinv_prevote _ _ (cs_Step cs)); try done. intros b Hb. rewrite Hvi. by apply Hlock.
    + eapply kept_trans; [apply (kept_output cs (Send (VoteMessage v))); by intros w [= <-]|]. apply ckept_step. cbn. lia.
Qed.

Lemma enterPrevoteWait_good cs height round cs' :
  inv cs → (cs_Height cs = height → round ≤ cs_Round cs) → enterPrevoteWait cfg cs height round = Ret cs' →
  good cs cs' ∧ cs_Height cs' = cs_Height cs ∧ cs_Round cs' = cs_Round cs.
Proof using.
  intros Hi Hside Hf. unfold enterPrevoteWait in Hf. destruct (_ || _ || _) eqn:Eg.
  { injection Hf as <-. split; [by apply good_refl|done]. }
  apply orb_false_iff in Eg as [[Eh%negb_false_iff%Z.eqb_eq Er%Z.ltb_ge]%orb_false_iff Es].
  assert (round = cs_Round cs) as -> by (specialize (Hside Eh); lia). rewrite Z.eqb_refl in Es. apply Z.leb_gt in Es.
  bind_split Hf x H2. destruct x as [cs1 any]. apply query_good with (chain := chain) (VS := VS) (P := P) in H2 as [Hg [hv ->]]; [|done|done|by left].
  destruct any; [|done]. injection Hf as <-. split; [|done]. eapply good_trans; [exact Hg|]. intros Hi1.
  eapply good_trans; [by apply good_schedule|]. intros Hi2. eapply good_trans; [|intros; by apply newStep_good].
  apply good_step; [done|usteps; lia|done|right; cbn in *; lia].
Qed.

(** ** Precommit *)

Lemma HashesTo_true lb hash : Block_HashesTo lb hash = true → hash ≠ [] ∧ ∃ b, lb = Some b ∧ Block_Hash b = hash.
Proof using.
  unfold Block_HashesTo. destruct (Z.eqb_spec (len hash) 0) as [|Hne]; [done|]. destruct lb as [b|]; [|done].
  intros Hb%bool_decide_eq_true. split; [by intros ->|by exists b].
Qed.
Lemma HashesTo_false b hash : Block_HashesTo (Some b) hash = false → Block_Hash b ≠ [] → hash ≠ Block_Hash b.
Proof using.
  unfold Block_HashesTo. destruct (Z.eqb_spec (len hash) 0) as [He|Hne].
  - unfold len in He. destruct hash; [|done]. intros _ Hb ?. congruence.
  - intros Hb%bool_decide_eq_false _ ?. congruence.
Qed.

(** Where a lock stands against the precommits sent at this height. *)
Definition lock_covers (h lr : Z) (lb : option Block) (vs : list Vote) : Prop :=
  ∀ v, v ∈ vs → precommits_block v → vote_Height v = h →
    (∃ b, lb = Some b ∧ Block_Hash b = BlockHash (vote_BlockID v) ∧ vote_Round v ≤ lr) ∨ unlocked chain VS P v.

(** A polka for something else, after the lock, frees from it. *)
Lemma unlock_covers h lr lb vs r id lr' lb' :
  lock_covers h lr lb vs → polka chain VS P h r id → lr < r → Block_HashesTo lb (BlockHash id) = false →
  lock_covers h lr' lb' vs.
Proof using.
  intros Hl Hp Hr Hb v Hv Hpv Hh. right. destruct (Hl v Hv Hpv Hh) as [(b & -> & Hbv & Hrv)|Hu]; [|done].
  exists r, id. split; [lia|]. split; [by rewrite Hh|]. rewrite <-Hbv. apply HashesTo_false; [done|]. rewrite Hbv. apply Hpv.
Qed.

Lemma cinv_precommit h r s lr lb votes cr st vs tis app lr' lb' :
  cinv h r s lr lb votes cr st vs tis app → s < RoundStepPrecommit → lr' ≤ r → lock_covers h lr' lb' vs →
  cinv h r RoundStepPrecommit lr' lb' votes cr st vs tis app.
Proof using.
  intros Hi Hs Hlr Hl. destruct Hi. split; usteps; try done; try lia.
  intros w Hw. eapply sent_by_later; [|by apply ci_sent]. lia.
Qed.

(** A precommit, in the round of the state; if for a block, there is a polka
    for it and the node is now locked on it. *)
Lemma cinv_precommit_vote h r s lr lb votes cr st vs tis app lr' lb' v :
  cinv h r s lr lb votes cr st vs tis app → s < RoundStepPrecommit → lr' ≤ r → lock_covers h lr' lb' vs →
  vote_Type v = PrecommitType → vote_Height v = h → vote_Round v = r →
  (precommits_block v → polka chain VS P h r (vote_BlockID v) ∧ lr' = r ∧
    ∃ b, lb' = Some b ∧ Block_Hash b = BlockHash (vote_BlockID v)) →
  cinv h r RoundStepPrecommit lr' lb' votes cr st (vs ++ [v]) tis app.
Proof using.
  intros Hi Hs Hlr Hl Ht Hh Hr Hb. pose proof (slot_fresh _ _ _ _ _ _ _ _ _ _ _ v Hi Hh Hr ltac:(tauto)) as Hnd.
  destruct (cinv_precommit _ _ _ _ _ _ _ _ _ _ _ _ _ Hi Hs Hlr Hl). split; try done.
  - last_vote w Hw; [by apply ci_sent|]. split; [unfold IsVoteTypeValid; by rewrite Ht|]. split; [lia|]. intros _. split; [lia|].
    intros _. unfold PrevoteType, PrecommitType in *. usteps. split; intros; lia.
  - last_vote w Hw; intros Hp; [by apply ci_polka|]. rewrite Hh, Hr. by apply Hb.
  - last_vote w Hw; intros Hp; [by apply ci_locked|]. intros _. left. destruct (Hb Hp) as (_ & -> & b & -> & Hbh). exists b.
    split_and!; [done..|lia].
  - intros x w Hx Hw Hpx Htw Hhw Hrw.
    apply elem_of_app in Hw as [Hw| ->%list_elem_of_singleton]; [|unfold PrevoteType, PrecommitType in *; congruence].
    apply elem_of_app in Hx as [Hx| ->%list_elem_of_singleton]; [by apply ci_prevotes|].
    destruct (ci_sent w Hw) as (_ & _ & Hsw). destruct (Hsw ltac:(lia)). lia.
Qed.

(** [enterPrecommit] after it has settled the lock in [cs0]. *)
Lemma precommit_done cs lr lb a cs0 cs1 id :
  inv cs → cs_Step cs < RoundStepPrecommit → silent (with_Locked cs lr lb a) cs0 → lr ≤ cs_Round cs →
  lock_covers (cs_Height cs) lr lb (sent_votes (cs_out cs)) → signed_as cs0 cs1 PrecommitType id →
  (BlockHash id ≠ [] → polka chain VS P (cs_Height cs) (cs_Round cs) id ∧ lr = cs_Round cs ∧
    ∃ b, lb = Some b ∧ Block_Hash b = BlockHash id) →
  good cs (newStep (updateRoundStep cs1 (cs_Round cs) RoundStepPrecommit)) ∧ cs_Height cs1 = cs_Height cs.
Proof using.
  intros Hi Hs [Hv (l & Ho & Hq)] Hlr Hl Hsg Hid. unfold view in Hv. cbn in Hv. injection Hv as Hh Hr Hst Hlr0 Hlb0 Hvo Hcr Hsm.
  split; [|by destruct Hsg as [->|(v & -> & _)] ].
  cbn in Ho. destruct (silent_out l Hq) as (Hl1 & Hl2 & Hl3).
  assert (kept cs cs0) as Hk0.
  { split; [lia|]. exists l. split; [done|]. rewrite Hl1. by intros v ?%not_elem_of_nil. }
  eapply good_trans; [|intros Hx; by apply newStep_good]. destruct Hsg as [->|(v & -> & Hvt & Hvh & Hvr & Hvi)].
  - split.
    + unfold ConsensusInv.inv. cbn. rewrite Hh, Hlr0, Hlb0, Hvo, Hcr, Hsm, Ho. unfold sent_votes, timeouts, applied in *.
      rewrite !omap_app, Hl1, Hl2, Hl3, !app_nil_r. by eapply cinv_precommit.
    + eapply kept_trans; [exact Hk0|]. rewrite <-Hr. apply ckept_step. cbn. lia.
  - split.
    + unfold ConsensusInv.inv. cbn. rewrite Hh, Hlr0, Hlb0, Hvo, Hcr, Hsm, Ho. unfold sent_votes, timeouts, applied in *.
      rewrite !omap_app, Hl1, Hl2, Hl3. simpl. rewrite !app_nil_r. eapply cinv_precommit_vote; try done; [congruence..|].
      rewrite Hvi. intros [_ Hne]. rewrite Hvi in Hne. by apply Hid.
    + eapply kept_trans; [exact Hk0|]. eapply kept_trans; [apply (kept_output cs0 (Send (VoteMessage v))); intros w [= <-]; done|].
      rewrite <-Hr. apply ckept_step. cbn. lia.
Qed.

Lemma enterPrecommit_good e cs height round cs' :
  inv cs → (cs_Height cs = height → round ≤ cs_Round cs) → enterPrecommit privValidator e cs height round = Ret cs' →
  good cs cs' ∧ cs_Height cs' = cs_Height cs ∧ cs_Round cs' = cs_Round cs.
Proof using.
  intros Hi Hside Hf. unfold enterPrecommit in Hf. destruct (_ || _ || _) eqn:Eg.
  { injection Hf as <-. split; [by apply good_refl|done]. }
  apply orb_false_iff in Eg as [[Eh%negb_false_iff%Z.eqb_eq Er%Z.ltb_ge]%orb_false_iff Es].
  assert (round = cs_Round cs) as -> by (specialize (Hside Eh); lia). rewrite Z.eqb_refl in Es. apply Z.leb_gt in Es.
  bind_split Hf cs1 Hb. injection Hf as <-.
  assert (good cs (newStep (updateRoundStep cs1 (cs_Round cs) RoundStepPrecommit)) ∧ cs_Height cs1 = cs_Height cs) as [Hg Hh]; [|done].
  pose proof (ci_lock _ _ _ _ _ _ _ _ _ _ _ _ _ _ Hi) as [Hlr Hlt]. assert (cs_LockedRound cs < cs_Round cs) as Hlt' by lia.
  pose proof (ci_locked _ _ _ _ _ _ _ _ _ _ _ _ _ _ Hi : lock_covers _ _ _ _) as Hcov.
  destruct (ci_pos _ _ _ _ _ _ _ _ _ _ _ _ _ _ Hi) as (_ & Hr0 & _).
  unfold precommit_body in Hb. bind_split Hb vs Hvs. destruct (TwoThirdsMajority vs) as [id ok] eqn:Hm. destruct ok; cbn [negb] in Hb.
  2: { eapply (precommit_done cs (cs_LockedRound cs) (cs_LockedBlock cs) (cs_LockedBlockParts cs)); [done|done| |done|done|by eapply signAddVote_spec|done].
       by apply silent_same. }
  pose proof (prevotes_polka _ _ _ _ _ _ _ Hi Hvs Hm) as Hpol. bind_split Hb hvs Hhvs. bind_split Hb x Hx. destruct x as [polr polid].
  destruct (polr <? cs_Round cs); [done|].
  assert (∀ cs0 a, silent (with_Locked cs (-1) None a) cs0 → Block_HashesTo (cs_LockedBlock cs) (BlockHash id) = false →
    sign_nil privValidator e cs0 PrecommitType = Ret cs1 →
    good cs (newStep (updateRoundStep cs1 (cs_Round cs) RoundStepPrecommit)) ∧ cs_Height cs1 = cs_Height cs) as Hnil.
  { intros cs0 a Hsil Hhash Hsig. eapply (precommit_done cs (-1) None a cs0); [done|done|done|lia| |by eapply signAddVote_spec|done].
    by eapply unlock_covers. }
  destruct (Z.eqb_spec (len (BlockHash id)) 0) as [Hz|Hz].
  - assert (Block_HashesTo (cs_LockedBlock cs) (BlockHash id) = false) as Hhash by (unfold Block_HashesTo; by rewrite Hz).
    cbn in Hb. destruct (cs_LockedBlock cs) as [b|] eqn:El.
    + eapply (Hnil _ None); [|done|exact Hb]. eapply silent_trans; [|by apply silent_emit]. split; [done|]. by eexists [_].
    + eapply (precommit_done cs (cs_LockedRound cs) None (cs_LockedBlockParts cs)); [done|done| |done|done|by eapply signAddVote_spec|done].
      split; [unfold view; cbn; by rewrite El|]. by exists [Publish EventPolka].
  - assert (∀ lr lb a o, quiet o = true → silent (with_Locked cs lr lb a) (emit (with_Locked (emit cs (Publish EventPolka)) lr lb a) o)) as Hsil.
    { intros lr lb a o Ho. eapply silent_trans; [|by apply silent_emit]. split; [done|]. by exists [Publish EventPolka]. }
    cbn [cs_LockedBlock emit emit_all] in Hb. destruct (Block_HashesTo (cs_LockedBlock cs) (BlockHash id)) eqn:Ehl.
    { apply HashesTo_true in Ehl as (Hne & b & Hlb & Hbh). eapply precommit_done; [done|done| | | |eapply signAddVote_spec; exact Hb|]; [by apply Hsil|done| |].
      - intros v Hv Hp Hh. destruct (Hcov v Hv Hp Hh) as [(b' & Hb' & ? & ?)|?]; [left; exists b'; split_and!; [done..|lia]|by right].
      - intros _. destruct id as [hash hdr]. split_and!; [done|done|]. exists b. done. }
    assert (precommit_unknown privValidator e (emit cs (Publish EventPolka)) id = Ret cs1 →
      good cs (newStep (updateRoundStep cs1 (cs_Round cs) RoundStepPrecommit)) ∧ cs_Height cs1 = cs_Height cs) as Hunk.
    { intros Hu. unfold precommit_unknown in Hu. eapply (Hnil _ None); [|done|exact Hu]. eapply silent_trans; [|by apply silent_emit].
      destruct (HasHeader _ _); (split; [done|]; by exists [Publish EventPolka]). }
    cbn [cs_ProposalBlock emit emit_all] in Hb. destruct (cs_ProposalBlock cs) as [b|]; [|by apply Hunk].
    destruct (Block_HashesTo (Some b) (BlockHash id)) eqn:Ehp; [|by apply Hunk].
    destruct (env_validate _ _ _); [|done]. cbn [negb] in Hb. apply HashesTo_true in Ehp as (Hne & b' & [= <-] & Hbh).
    eapply precommit_done; [done|done| | | |eapply signAddVote_spec; exact Hb|]; [by apply Hsil|done|by eapply unlock_covers|].
    intros _. destruct id as [hash hdr]. split_and!; [done|done|]. by exists b.
Qed.

Lemma enterPrecommitWait_good cs height round cs' :
  inv cs → (cs_Height cs = height → round ≤ cs_Round cs) → enterPrecommitWait cfg cs height round = Ret cs' →
  good cs cs' ∧ cs_Height cs' = cs_Height cs ∧ cs_Round cs' = cs_Round cs.
Proof using.
  intros Hi Hside Hf. unfold enterPrecommitWait in Hf. destruct (_ || _ || _) eqn:Eg.
  { injection Hf as <-. split; [by apply good_refl|done]. }
  apply orb_false_iff in Eg as [[Eh%negb_false_iff%Z.eqb_eq Er%Z.ltb_ge]%orb_false_iff _].
  assert (round = cs_Round cs) as -> by (specialize (Hside Eh); lia).
  bind_split Hf x H2. destruct x as [cs1 any]. apply query_good with (chain := chain) (VS := VS) (P := P) in H2 as [Hg [hv ->]]; [|done|done|by left].
  destruct any; [|done]. injection Hf as <-. split; [|done]. eapply good_trans; [exact Hg|]. intros Hi1.
  eapply good_trans; [by apply good_schedule|]. intros Hi2. eapply good_trans; [|intros; by apply newStep_good].
  by apply silent_good; [apply silent_same|].
Qed.

(** ** Propose *)

Lemma get_proposer_silent cs cs' p : get_proposer cs = Ret (cs', p) → silent cs cs'.
Proof using.
  unfold get_proposer. intros Hf. bind_split Hf x Hx. destruct x as [vals [q|]]; [|done]. injection Hf as <- _. by apply silent_same.
Qed.

Lemma decide_silent pv e cs height round cs' : defaultDecideProposal pv e cs height round = Ret cs' → silent cs cs'.
Proof using.
  unfold defaultDecideProposal. intros Hf. bind_split Hf o Ho. destruct o as [[b ps]|]; [|by injection Hf as <-].
  destruct (env_sign_proposal _ _ _) as [sig|]; [|by injection Hf as <-].
  eapply (for_each_keeps _ (silent cs)); [|exact Hf|by apply silent_emit]. intros i x x' Hx Hsil. bind_split Hx part Hp.
  injection Hx as <-. eapply silent_trans; [exact Hsil|by apply silent_emit].
Qed.

Lemma propose_body_good e cs height round cs' :
  inv cs → height = cs_Height cs → round ≤ cs_Round cs → propose_body cfg privValidator e cs height round = Ret cs' →
  good cs cs' ∧ view cs' = view cs.
Proof using.
  intros Hi -> Hr Hf. unfold propose_body in Hf.
  set (cs0 := scheduleTimeout cs (config_Propose cfg round) (cs_Height cs) round RoundStepPropose) in *.
  assert (silent cs0 cs') as Hsil.
  { destruct privValidator; [|by injection Hf as <-]. change (cs_privValidatorPubKey cs0) with (cs_privValidatorPubKey cs) in Hf.
    destruct (cs_privValidatorPubKey cs) as [pk|]; [|by injection Hf as <-]. destruct (negb _); [by injection Hf as <-|].
    bind_split Hf x Hx. destruct x as [cs1 mine]. unfold isProposer in Hx. bind_split Hx y Hy. destruct y as [cs2 p]. injection Hx as <- <-.
    apply get_proposer_silent in Hy. case_bool_decide; [|by injection Hf as <-]. eapply silent_trans; [exact Hy|by eapply decide_silent]. }
  split; [|apply Hsil]. eapply good_trans; [by apply good_schedule|]. intros Hi0. by apply silent_good.
Qed.

Lemma enterPropose_good e cs height round cs' :
  inv cs → (cs_Height cs = height → round ≤ cs_Round cs) → enterPropose cfg privValidator e cs height round = Ret cs' →
  good cs cs' ∧ cs_Height cs' = cs_Height cs ∧ cs_Round cs' = cs_Round cs.
Proof using.
  intros Hi Hside Hf. unfold enterPropose in Hf. destruct (_ || _ || _) eqn:Eg.
  { injection Hf as <-. split; [by apply good_refl|done]. }
  apply orb_false_iff in Eg as [[Eh%negb_false_iff%Z.eqb_eq Er%Z.ltb_ge]%orb_false_iff Es].
  assert (round = cs_Round cs) as -> by (specialize (Hside Eh); lia). rewrite Z.eqb_refl in Es. apply Z.leb_gt in Es.
  bind_split Hf cs1 Hb. apply propose_body_good in Hb as [Hg1 Hv]; [|done|done|lia]. unfold view in Hv. injection Hv as Hh1 Hr1 Hs1 _ _ _ _ _.
  set (cs2 := newStep (updateRoundStep cs1 (cs_Round cs) RoundStepPropose)) in *.
  assert (good cs cs2) as Hg2.
  { eapply good_trans; [exact Hg1|]. intros Hi1. eapply good_trans; [|intros; by apply newStep_good].
    apply good_step; [done|usteps; lia|done|right; usteps; lia]. }
  assert (cs_Height cs2 = cs_Height cs) as Hh2 by done. assert (cs_Round cs2 = cs_Round cs) as Hr2 by done.
  bind_split Hf c Hc. destruct c; [|injection Hf as <-; split; [exact Hg2|split; [exact Hh2|exact Hr2] ] ].
  destruct Hg2 as [Hi2 Hk2]. apply enterPrevote_good in Hf as (Hg3 & Hh3 & Hr3); [|done|lia].
  split; [|lia]. eapply good_trans; [by split|done].
Qed.

(** ** New round *)

Lemma start_round_good cs round cs' :
  inv cs → (cs_Round cs < round ∨ cs_Round cs = round ∧ cs_Step cs = RoundStepNewHeight) → start_round cs round = Ret cs' →
  good cs cs' ∧ cs_Height cs' = cs_Height cs ∧ cs_Round cs' = round.
Proof using.
  intros Hi Hrs Hf. unfold start_round in Hf. bind_split Hf vals Hvals. bind_split Hf x Hx. destruct x as [cs1 p].
  assert (silent (updateRoundStep cs round RoundStepNewRound) cs1) as Hs1.
  { eapply silent_trans; [|by eapply get_proposer_silent]. by apply silent_same. }
  destruct (PubKey_ p) as [pk|]; [|done]. bind_split Hf next Hn. bind_split Hf hvs Hhvs. bind_split Hf hvs' Hset. injection Hf as <-.
  set (cs2 := if round =? 0 then cs1 else _) in *.
  assert (silent (updateRoundStep cs round RoundStepNewRound) cs2) as Hs2.
  { eapply silent_trans; [exact Hs1|]. unfold cs2. destruct (round =? 0); [done|by apply silent_same]. }
  assert (good cs cs2) as [Hi2 Hk2].
  { eapply good_trans; [|intros; by apply silent_good]. apply good_step; [done|usteps; lia|done|]. destruct Hrs as [?|[? ->]]; usteps; lia. }
  destruct (silent_round _ _ Hs2) as [Hh2 Hr2]. cbn in Hh2, Hr2.
  apply votes_of_inv with (chain := chain) (VS := VS) (P := P) in Hhvs as (Hv & Hhv & Hround); [|done].
  assert (next = round + 1 ∧ round + 1 ≤ MaxInt32) as [-> Hmax].
  { destruct (ci_pos _ _ _ _ _ _ _ _ _ _ _ _ _ _ Hi) as (_ & Hr0 & _). unfold SafeAddInt32 in Hn. rewrite (int32_id (MaxInt32 - 1)) in Hn by ulia.
    destruct (Z.ltb_spec (MaxInt32 - 1) round); [done|]. cbn in Hn. injection Hn as <-. rewrite int32_id by ulia. lia. }
  assert (cs_Votes cs2 = cs_Votes cs) as Hvc by (destruct Hs2 as [[=] _]; done).
  destruct (ci_votes _ _ _ _ _ _ _ _ _ _ _ _ _ _ Hi) as (hvs0 & Hv0 & _ & Hr0). assert (hvs0 = hvs) as -> by congruence.
  apply SetRound_from with (P := P) (cid := chain) (h := cs_Height cs2) (vals := VS (cs_Height cs2)) in Hset as [Hhv' Hr']; [|done|lia].
  split; [|done]. eapply good_trans; [by split|]. intros _. eapply good_trans; [by apply (inv_votes _ _ _ cs2 hvs'); [|done|lia]|].
  intros Hi3. eapply good_trans; [|intros; by apply good_quiet]. by apply silent_good; [apply silent_same|].
Qed.

Lemma enterNewRound_good e cs height round cs' :
  inv cs → enterNewRound cfg privValidator e cs height round = Ret cs' →
  good cs cs' ∧ cs_Height cs' = cs_Height cs ∧ (cs_Height cs = height → round ≤ cs_Round cs').
Proof using.
  intros Hi Hf. unfold enterNewRound in Hf. destruct (_ || _ || _) eqn:Eg.
  { injection Hf as <-. split; [by apply good_refl|]. split; [done|]. intros Heq. rewrite Heq, Z.eqb_refl in Eg. cbn in Eg.
    apply orb_true_iff in Eg as [Hr%Z.ltb_lt|[Hr%Z.eqb_eq _]%andb_true_iff]; lia. }
  apply orb_false_iff in Eg as [[Eh%negb_false_iff%Z.eqb_eq Er%Z.ltb_ge]%orb_false_iff Es].
  bind_split Hf cs1 Hs. apply start_round_good in Hs as (Hg1 & Hh1 & Hr1); [|done|].
  2: { destruct (Z.eqb_spec (cs_Round cs) round) as [->|]; [|lia]. apply negb_false_iff, Z.eqb_eq in Es. by right. }
  destruct Hg1 as [Hi1 Hk1]. destruct (_ && _ && _).
  - injection Hf as <-. destruct (0 <? _); [|split; [by split|lia] ]. split; [|cbn; lia].
    eapply good_trans; [by split|]. intros _. apply good_schedule; [done|lia..].
  - apply enterPropose_good in Hf as (Hg2 & Hh2 & Hr2); [|done|lia]. split; [eapply good_trans; [by split|done]|lia].
Qed.
End steps.
