(* ===== verification/ConsensusTurns.v ===== *)
(** * The consensus state machine: every event keeps the invariant

    The commit of a block, the handling of votes, proposals, block parts and
    timeouts, and runs of a node. *)
From S2P Require Import Prelude.
From S2P Require Import BitArray.
From S2P Require Import SafeMath.
From S2P Require Import Vote.
From S2P Require Import Validator.
From S2P Require Import SignBytes.
From S2P Require Import ValidatorSet.
From S2P Require Import ValidatorSetPriority.
From S2P Require Import ValidatorSetUpdate.
From S2P Require Import VoteSet.
From S2P Require Import VoteSetInv.
From S2P Require Import VoteSetSafety.
From S2P Require Import HeightVoteSet.
From S2P Require Import PartSet.
From S2P Require Import VoteOrigin.
From S2P Require Import ConsensusState.
From S2P Require Import ConsensusInv.

From S2P Require Import ConsensusSteps.

Section turns.
Context `{StdTime, Crypto, BlockOps}.
Variable cfg : ConsensusConfig.
Variable privValidator : bool.
Variable chain : bytes.
Variable VS : Z → list Validator.

(** The application keeps to the chain; and a block that [ValidateBlock]
    accepts has a hash, since its [ValidatorsHash] is that of the state. *)
Record env_ok (e : Env) : Prop := {
  eo_apply : ∀ st id b st', state_ok chain VS st → env_apply e st id b = Some st' → state_ok chain VS st';
  eo_validate : ∀ st b, state_ok chain VS st → env_validate e st b = true → len (Block_Hash b) = tmhash_Size;
}.

Section keep.
Variable P : Vote → Prop.
Local Abbreviation inv := (inv chain VS P).
Local Abbreviation good := (good chain VS P).

(** ** Commit *)

Lemma good_apply cs id b :
  inv cs → decided chain VS P (cs_Height cs) b → good cs (emit cs (ApplyVerifiedBlock (cs_Height cs) id b)).
Proof using.
  intros Hi Hd. split; [|by apply kept_output]. unfold ConsensusInv.inv. cbn. destruct Hi. unfold sent_votes, timeouts, applied in *.
  rewrite !omap_app. simpl. rewrite !app_nil_r. split; try done. intros h0 id0 b0 [Hin|Hin]%elem_of_app; [by eapply ci_applied|].
  apply list_elem_of_singleton in Hin. injection Hin as -> -> ->. done.
Qed.

(** The next height. *)
Lemma cinv_height h r s lr lb votes cr st vs tis app st' hvs :
  ConsensusInv.cinv chain VS P h r s lr lb votes cr st vs tis app → state_ok chain VS st' → next_height st' = h + 1 →
  height_votes P chain (h + 1) (VS (h + 1)) hvs → hvs_round hvs = 0 →
  ConsensusInv.cinv chain VS P (h + 1) 0 RoundStepNewHeight (-1) None (Some hvs) (-1) st' vs tis app.
Proof using.
  intros Hi Hst Hn Hhv Hr. destruct Hi. split; usteps; try done; try lia.
  - exists hvs. split_and!; [done..|lia].
  - intros ti Ht. destruct (ci_timeouts ti Ht). lia.
  - intros v Hv. eapply sent_by_height; [|by apply ci_sent]. lia.
  - intros v Hv _ Hh. destruct (ci_sent v Hv) as (_ & Hle & _). lia.
  - intros h0 id b Hin. destruct (ci_applied h0 id b Hin). split; [lia|done].
Qed.

Lemma updateToState_good e cs st cs' :
  inv cs → cs_Step cs = RoundStepCommit → state_ok chain VS st → updateToState cfg e cs st = Ret cs' → good cs cs'.
Proof using.
  intros Hi Hs Hst Hf. unfold updateToState in Hf. pose proof (ci_commit _ _ _ _ _ _ _ _ _ _ _ _ _ _ Hi Hs) as Hcr.
  destruct (ci_pos _ _ _ _ _ _ _ _ _ _ _ _ _ _ Hi) as (Hh0 & _).
  destruct (Z.ltb_spec (-1) (cs_CommitRound cs)); [|lia]. destruct (Z.ltb_spec 0 (cs_Height cs)); [|lia]. cbn [andb] in Hf.
  destruct (Z.eqb_spec (cs_Height cs) (sm_LastBlockHeight st)) as [Heq|]; [|done]. cbn [negb] in Hf.
  destruct (_ && _); [done|]. destruct (_ && _); [done|]. destruct (_ && _); [injection Hf as <-; by apply newStep_good|].
  bind_split Hf cs1 Hlc. assert (silent cs cs1) as Hsil.
  { destruct (_ =? 0); [injection Hlc as <-; by apply silent_same|]. destruct (bool_decide _).
    - bind_split Hlc pc Hpc. destruct (negb _); [done|]. injection Hlc as <-. by apply silent_same.
    - destruct (cs_LastCommit cs); [|done]. by injection Hlc as <-. }
  bind_split Hf ext Hpc. destruct (so_vals _ _ _ Hst) as (vals & Hv & Hvs & Hk & HVS). rewrite Hv in Hf. bind_split Hf hvs Hnew. injection Hf as <-.
  pose proof (so_height _ _ _ Hst) as Hrng. rewrite int64_id in Hnew by ulia.
  assert (next_height st = cs_Height cs + 1) as Hn by (unfold next_height; destruct (Z.eqb_spec (sm_LastBlockHeight st + 1) 1); lia).
  destruct (Z.eqb_spec (sm_LastBlockHeight st + 1) 1); [lia|]. rewrite (so_chain _ _ _ Hst) in Hnew.
  apply new_height_votes with (P := P) in Hnew as [Hhv Hr0]; [|done..]. rewrite HVS, Hn, <-Heq in Hhv.
  assert (good cs cs1) as [Hi1 Hk1] by by apply silent_good. destruct (silent_round _ _ Hsil) as [Hh1 Hr1].
  eapply good_trans; [|intros Hx; by apply newStep_good]. rewrite !int64_id by ulia.
  destruct (Z.eqb_spec (sm_LastBlockHeight st + 1) 1); [lia|]. split.
  - unfold ConsensusInv.inv. cbn. rewrite <-Heq. unfold ConsensusInv.inv in Hi1. rewrite Hh1 in Hi1. by eapply cinv_height.
  - eapply kept_trans; [exact Hk1|]. split; [cbn; lia|]. exists []. split; [cbn; by rewrite app_nil_r|]. by intros v ?%not_elem_of_nil.
Qed.

Lemma save_block_silent e cs b ps seen ext cs' : save_block e cs b ps seen ext = Ret cs' → silent cs cs'.
Proof using.
  unfold save_block. intros Hf. destruct (_ && _); [done|]. destruct (_ && _); [done|]. destruct ps as [ps|]; [|done].
  destruct (negb _); [done|]. destruct (negb _); [done|]. injection Hf as <-. by apply silent_emit.
Qed.

Lemma updatePubKey_silent e cs : silent cs (updatePrivValidatorPubKey privValidator e cs).
Proof using. unfold updatePrivValidatorPubKey. destruct privValidator; [|done]. destruct (env_pubkey e); [|done]. by apply silent_same. Qed.

Lemma scheduleRound0_good e cs : inv cs → good cs (scheduleRound0 e cs).
Proof using.
  intros Hi. apply good_schedule; [done|done|]. destruct (ci_pos _ _ _ _ _ _ _ _ _ _ _ _ _ _ Hi). lia.
Qed.

Lemma apply_block_good e cs b ps cs' :
  env_ok e → inv cs → cs_Step cs = RoundStepCommit → decided chain VS P (cs_Height cs) b →
  apply_block cfg privValidator e cs (cs_Height cs) b ps = Ret cs' → good cs cs'.
Proof using.
  intros He Hi Hs Hd Hf. unfold apply_block in Hf. destruct (env_apply _ _ _ _) as [st|] eqn:Ea; [|done].
  apply He in Ea; [|apply Hi]. bind_split Hf u Hu. bind_split Hf cs2 Hup. injection Hf as <-.
  eapply good_trans; [by apply good_apply|]. intros Hi1. eapply good_trans; [by eapply updateToState_good|]. intros Hi2.
  eapply good_trans; [apply silent_good; [apply updatePubKey_silent|done]|]. intros Hi3. by apply scheduleRound0_good.
Qed.

Lemma finalizeCommit_good e cs height cs' :
  env_ok e → inv cs → finalizeCommit cfg privValidator e cs height = Ret cs' → good cs cs'.
Proof using.
  intros He Hi Hf. unfold finalizeCommit in Hf. destruct (_ || _) eqn:Eg; [injection Hf as <-; by apply good_refl|].
  apply orb_false_iff in Eg as [Hh%negb_false_iff%Z.eqb_eq Hs%negb_false_iff%Z.eqb_eq]. subst height.
  bind_split Hf pc Hpc. destruct (TwoThirdsMajority pc) as [id ok] eqn:Hm. destruct ok; [|done].
  pose proof (precommits_majority _ _ _ _ _ _ _ Hi Hpc Hm) as Hmaj.
  cbn [negb] in Hf. destruct (negb _); [done|]. destruct (Block_HashesTo _ _) eqn:Ehash; [|done]. cbn [negb] in Hf.
  apply HashesTo_true in Ehash as (Hne & b & Hb & Hbh). rewrite Hb in Hf. destruct pc as [vs|]; [|done].
  destruct (negb _); [done|]. bind_split Hf cs1 Hsave.
  assert (silent cs cs1) as Hsil.
  { destruct (_ <? _); [|by injection Hsave as <-]. bind_split Hsave x1 Hx1. bind_split Hsave x2 Hx2. bind_split Hsave x3 Hx3.
    by eapply save_block_silent. }
  destruct (negb _); [done|]. assert (silent cs (emit cs1 (EndHeight (cs_Height cs)))) as Hsil2
    by (eapply silent_trans; [exact Hsil|by apply silent_emit]).
  generalize dependent (emit cs1 (EndHeight (cs_Height cs))). intros cs2 Hf Hsil2.
  eapply good_trans; [by apply silent_good|]. intros Hi2. destruct Hsil2 as [[= Hh2 Hr2 Hs2 _ _ _ _ _] _].
  rewrite <-Hh2 in Hf. eapply apply_block_good; [done|done|congruence| |exact Hf]. rewrite Hh2.
  exists (cs_CommitRound cs), id. done.
Qed.

Lemma tryFinalizeCommit_good e cs height cs' :
  env_ok e → inv cs → tryFinalizeCommit cfg privValidator e cs height = Ret cs' → good cs cs'.
Proof using.
  intros He Hi Hf. unfold tryFinalizeCommit in Hf. destruct (negb _); [done|]. bind_split Hf pc Hpc.
  destruct (TwoThirdsMajority pc) as [id ok]. destruct (_ || _); [injection Hf as <-; by apply good_refl|].
  destruct (negb _); [injection Hf as <-; by apply good_refl|]. by eapply finalizeCommit_good.
Qed.

Lemma commit_body_silent cs r cs' : commit_body cs r = Ret cs' → silent cs cs'.
Proof using.
  unfold commit_body. intros Hf. bind_split Hf pc Hpc. destruct (TwoThirdsMajority pc) as [id ok]. destruct (negb ok); [done|].
  set (cs1 := if Block_HashesTo (cs_LockedBlock cs) (BlockHash id) then _ else _) in Hf.
  assert (silent cs cs1) as Hsil by (unfold cs1; destruct (Block_HashesTo _ _); [by apply silent_same|done]).
  destruct (_ && _); injection Hf as <-; [|done]. eapply silent_trans; [exact Hsil|]. eapply silent_trans; [|by apply silent_emit].
  by apply silent_same.
Qed.

Lemma enterCommit_good e cs height commitRound cs' :
  env_ok e → inv cs → 0 ≤ commitRound → enterCommit cfg privValidator e cs height commitRound = Ret cs' → good cs cs'.
Proof using.
  intros He Hi Hr Hf. unfold enterCommit in Hf. destruct (_ || _) eqn:Eg; [injection Hf as <-; by apply good_refl|].
  apply orb_false_iff in Eg as [_ Hs%Z.leb_gt]. bind_split Hf cs1 Hb. apply commit_body_silent in Hb as Hsil.
  assert (good cs cs1) as [Hi1 Hk1] by by apply silent_good.
  assert (inv (with_CommitRound cs1 commitRound)) as Hi2 by (destruct Hi1; unfold ConsensusInv.inv; cbn; by split).
  assert (cs_Step cs1 = cs_Step cs) as Hs1 by (destruct Hsil as [[=] _]; done).
  assert (good (with_CommitRound cs1 commitRound) (updateRoundStep (with_CommitRound cs1 commitRound) (cs_Round cs1) RoundStepCommit)) as Hg3.
  { apply good_step; [done|usteps; lia|done|right; cbn; lia]. }
  eapply good_trans; [by split|]. intros _. eapply good_trans; [exact Hg3|]. intros Hi3.
  eapply good_trans; [apply (newStep_good _ _ _ (with_CommitTime (updateRoundStep (with_CommitRound cs1 commitRound) (cs_Round cs1) RoundStepCommit) (env_now e))); exact Hi3|].
  intros Hi4. by eapply tryFinalizeCommit_good.
Qed.

(** ** Votes *)

Definition same_hr (cs cs' : State) : Prop := cs_Height cs' = cs_Height cs ∧ cs_Round cs' = cs_Round cs.

Lemma prevote_unlock_good e cs r id cs' ok :
  inv cs → polka chain VS P (cs_Height cs) r id → prevote_unlock e cs r id = (cs', ok) → good cs cs' ∧ same_hr cs cs'.
Proof using.
  intros Hi Hp Hf. unfold prevote_unlock in Hf. assert (good cs cs ∧ same_hr cs cs) as Hsame by (split; [by apply good_refl|done]).
  destruct (cs_LockedBlock cs) as [b|] eqn:El; [|by injection Hf as <- _].
  destruct (_ && _ && _) eqn:Eg; [|by injection Hf as <- _].
  apply andb_true_iff in Eg as [[Hlr%Z.ltb_lt Hle%Z.leb_le]%andb_true_iff Hhash%negb_true_iff].
  assert (good cs (with_Locked cs (-1) None None)) as Hg.
  { pose proof (ci_locked _ _ _ _ _ _ _ _ _ _ _ _ _ _ Hi : lock_covers chain VS P _ _ _ _) as Hcov. split; [|exact (kept_refl cs)].
    rewrite <-El in Hhash. pose proof (unlock_covers _ _ _ _ _ _ _ _ _ (-1) None Hcov Hp Hlr Hhash) as Hcov'.
    destruct Hi. unfold ConsensusInv.inv. cbn. split; try done. lia. }
  destruct (env_publish _ _); injection Hf as <- _; (split; [|done]); [|done]. eapply good_trans; [exact Hg|]. intros Hi'.
  by apply good_quiet.
Qed.

Lemma prevote_valid_silent e cs r id cs' ok : prevote_valid e cs r id = (cs', ok) → silent cs cs'.
Proof using.
  unfold prevote_valid. intros Hf. destruct (_ && _ && _); [|by injection Hf as <- _].
  set (cs1 := if Block_HashesTo (cs_ProposalBlock cs) _ then _ else _) in Hf.
  assert (silent cs cs1) as Hsil by (unfold cs1; destruct (Block_HashesTo _ _); by apply silent_same).
  injection Hf as <- _. eapply silent_trans; [|by apply silent_emit]. eapply silent_trans; [exact Hsil|].
  destruct (HasHeader _ _); [done|by apply silent_same].
Qed.

Lemma prevote_polka_good e cs r vs cs' ok :
  inv cs → cs_Prevotes cs r = Ret vs → prevote_polka e cs r vs = (cs', ok) → good cs cs' ∧ same_hr cs cs'.
Proof using.
  intros Hi Hvs Hf. unfold prevote_polka in Hf. destruct (TwoThirdsMajority vs) as [id maj] eqn:Hm.
  destruct maj; [|injection Hf as <- _; split; [by apply good_refl|done] ].
  pose proof (prevotes_polka _ _ _ _ _ _ _ Hi Hvs Hm) as Hp. destruct (prevote_unlock e cs r id) as [cs1 ok1] eqn:Eu.
  apply prevote_unlock_good in Eu as [Hg1 Hs1]; [|done|done]. destruct ok1; [|by injection Hf as <- _].
  apply prevote_valid_silent in Hf as Hsil. destruct (silent_round _ _ Hsil). split; [|unfold same_hr in *; lia].
  eapply good_trans; [exact Hg1|]. intros Hi1. by apply silent_good.
Qed.

Lemma any_good cs r ty cs' b :
  inv cs → IsVoteTypeValid ty = true → cs_HasTwoThirdsAny cs r ty = Ret (cs', b) → good cs cs' ∧ same_hr cs cs'.
Proof using.
  intros Hi Hty Hf. eapply query_good in Hf as [Hg [hv ->]]; [by split; [exact Hg|]|done|done|by left].
Qed.

(** Two steps in a row. *)
Lemma then_good cs1 cs2 cs3 : good cs1 cs2 ∧ same_hr cs1 cs2 → (inv cs2 → good cs2 cs3) → good cs1 cs3.
Proof using. intros [Hg _] Hn. by eapply good_trans. Qed.

Lemma prevote_steps_good e cs r vs cs' :
  inv cs → prevote_steps cfg privValidator e cs (cs_Height cs) r vs = Ret cs' → good cs cs'.
Proof using.
  intros Hi Hf. unfold prevote_steps in Hf. bind_split Hf x Hx. destruct x as [cs1 ahead].
  assert (good cs cs1 ∧ same_hr cs cs1) as Hg1.
  { destruct (_ <? _); [by eapply (any_good _ _ PrevoteType)|]. injection Hx as <- _. split; [by apply good_refl|done]. }
  eapply then_good; [exact Hg1|]. intros Hi1. destruct Hg1 as [_ [Hh1 Hr1] ]. destruct ahead; [by eapply enterNewRound_good|].
  destruct (_ && _) eqn:Eg.
  - apply andb_true_iff in Eg as [<-%Z.eqb_eq _]. destruct (TwoThirdsMajority vs) as [id ok]. bind_split Hf c Hc. destruct (_ && _).
    + apply enterPrecommit_good with (chain := chain) (VS := VS) (P := P) in Hf as [Hg _]; [done|done|lia].
    + bind_split Hf y Hy. destruct y as [cs2 any]. apply any_good in Hy as Hg2; [|done|done].
      eapply then_good; [exact Hg2|]. intros Hi2. destruct Hg2 as [_ [Hh2 Hr2] ]. destruct any; [|injection Hf as <-; by apply good_refl].
      eapply enterPrevoteWait_good; [done| |exact Hf]. lia.
  - clear Eg. destruct (cs_Proposal cs1) as [p|]; [|injection Hf as <-; by apply good_refl].
    destruct (_ && _); [|injection Hf as <-; by apply good_refl]. bind_split Hf c Hc. destruct c; [|injection Hf as <-; by apply good_refl].
    eapply enterPrevote_good; [done| |exact Hf]. lia.
Qed.

Lemma prevote_added_good e cs r cs' ok :
  inv cs → prevote_added cfg privValidator e cs (cs_Height cs) r = Ret (cs', ok) → good cs cs'.
Proof using.
  intros Hi Hf. unfold prevote_added in Hf. bind_split Hf vs Hvs. destruct (prevote_polka e cs r vs) as [cs1 ok1] eqn:Ep.
  apply prevote_polka_good in Ep as Hg1; [|done|done]. destruct ok1; [|injection Hf as <- _; apply Hg1].
  bind_split Hf cs2 Hst. injection Hf as <- _. eapply then_good; [exact Hg1|]. intros Hi1. destruct Hg1 as [_ [Hh1 _] ].
  rewrite <-Hh1 in Hst. by eapply prevote_steps_good.
Qed.

Lemma precommit_added_good e cs r cs' :
  env_ok e → inv cs → 0 ≤ r → precommit_added cfg privValidator e cs (cs_Height cs) r = Ret cs' → good cs cs'.
Proof using.
  intros He Hi Hr Hf. unfold precommit_added in Hf. bind_split Hf pc Hpc. destruct (TwoThirdsMajority pc) as [id ok]. destruct ok.
  - bind_split Hf cs1 Hn. apply enterNewRound_good with (chain := chain) (VS := VS) (P := P) in Hn as (Hg1 & Hh1 & Hr1); [|done].
    eapply good_trans; [exact Hg1|]. intros Hi1. bind_split Hf cs2 Hc.
    apply enterPrecommit_good with (chain := chain) (VS := VS) (P := P) in Hc as (Hg2 & Hh2 & Hr2); [|done|intros _; by apply Hr1].
    eapply good_trans; [exact Hg2|]. intros Hi2. destruct (negb _).
    + bind_split Hf cs3 Hcm. eapply good_trans; [by eapply enterCommit_good|]. intros Hi3. bind_split Hf x Hx. destruct x as [pc' all].
      destruct all; [by eapply enterNewRound_good|injection Hf as <-; by apply good_refl].
    + eapply enterPrecommitWait_good; [done| |exact Hf]. intros _. rewrite Hr2. by apply Hr1.
  - destruct (_ <=? _); [|injection Hf as <-; by apply good_refl]. bind_split Hf x Hx. destruct x as [cs1 any].
    apply any_good in Hx as Hg1; [|done|done]. eapply then_good; [exact Hg1|]. intros Hi1. destruct Hg1 as [_ [Hh1 _] ].
    destruct any; [|injection Hf as <-; by apply good_refl]. bind_split Hf cs2 Hn.
    apply enterNewRound_good with (chain := chain) (VS := VS) (P := P) in Hn as (Hg2 & Hh2 & Hr2); [|done].
    eapply good_trans; [exact Hg2|]. intros Hi2. eapply enterPrecommitWait_good; [done| |exact Hf]. intros _. by apply Hr2.
Qed.

(** A vote that passed the checks of the reactor. *)
Definition vote_ok (v : Vote) : Prop :=
  good_id (vote_BlockID v) ∧ 0 ≤ vote_Round v ∧ ∃ bz, VoteSignBytes chain v = Ret bz.

Lemma add_last_commit_good e cs vote cs' a err :
  inv cs → add_last_commit cfg privValidator e cs vote = Ret (cs', a, err) → good cs cs'.
Proof using.
  intros Hi Hf. unfold add_last_commit in Hf. destruct (negb _); [injection Hf as <- _ _; by apply good_refl|].
  destruct (cs_LastCommit cs) as [vs|]; [|done]. bind_split Hf x Hx. destruct x as [[vs1 added] err1].
  destruct (negb added); [injection Hf as <- _ _; by apply silent_good; [apply silent_same|]|].
  destruct (negb _); [injection Hf as <- _ _; by apply silent_good; [apply silent_same|]|].
  bind_split Hf y Hy. destruct y as [vs2 all]. bind_split Hf cs2 Hn. injection Hf as <- _ _.
  eapply good_trans; [apply (silent_good _ _ _ cs (with_LastCommit (emit (with_LastCommit cs (Some vs1)) (Publish (EventVote vote))) vs2)); [|done]|].
  { split; [done|]. by exists [Publish (EventVote vote)]. }
  intros Hi1. destruct all; [by eapply enterNewRound_good|injection Hn as <-; by apply good_refl].
Qed.

Lemma cs_addVote_good e cs vote peer cs' a err :
  env_ok e → inv cs → P vote → vote_ok vote → cs_addVote cfg privValidator e cs vote peer = Ret (cs', a, err) → good cs cs'.
Proof using.
  intros He Hi HP (Hid & Hr & Hbz) Hf. unfold cs_addVote in Hf. destruct (_ && _); [by eapply add_last_commit_good|].
  destruct (negb _); [injection Hf as <- _ _; by apply good_refl|]. bind_split Hf ext Hext. bind_split Hf bad Hbad.
  destruct bad; [injection Hf as <- _ _; by apply good_refl|]. bind_split Hf hvs Hhvs. bind_split Hf x Hadd. destruct x as [[hvs1 added] err1].
  apply votes_of_inv with (chain := chain) (VS := VS) (P := P) in Hhvs as (_ & Hhv & Hround); [|done].
  eapply AddVote_from in Hadd as [Hhv1 Hround1]; [|done..].
  assert (good cs (with_Votes cs (Some hvs1))) as Hg1 by (apply inv_votes; [done|done|lia]).
  destruct (negb added); [by injection Hf as <- _ _|]. destruct (negb _); [by injection Hf as <- _ _|].
  eapply good_trans; [exact Hg1|]. intros Hi1.
  eapply good_trans; [apply (good_quiet _ _ _ _ (Publish (EventVote vote))); [done|exact Hi1]|]. intros Hi2. destruct (_ =? PrevoteType).
  - bind_split Hf y Hy. destruct y as [cs2 pub]. injection Hf as <- _ _. by eapply prevote_added_good.
  - destruct (_ =? PrecommitType); [|done]. bind_split Hf cs2 Hy. injection Hf as <- _ _. by eapply precommit_added_good.
Qed.

Lemma tryAddVote_good e cs vote peer cs' a err :
  env_ok e → inv cs → P vote → vote_ok vote → tryAddVote cfg privValidator e cs vote peer = Ret (cs', a, err) → good cs cs'.
Proof using.
  intros He Hi HP Hv Hf. unfold tryAddVote in Hf. bind_split Hf x Hx. destruct x as [[cs1 a1] err1].
  eapply good_trans; [by eapply cs_addVote_good|]. intros Hi1. pose proof (good_refl _ _ _ _ Hi1) as Hg.
  destruct err1 as [[[|ae]| | | | |]|]; [| |by injection Hf as <- _ _..]; [by injection Hf as <- _ _|].
  destruct ae; try by injection Hf as <- _ _. destruct (cs_privValidatorPubKey cs1) as [pk|]; [|by injection Hf as <- _ _].
  case_decide; injection Hf as <- _ _; [done|by apply good_quiet].
Qed.

(** ** Proposals, parts and timeouts *)

Lemma setProposal_silent cs p cs' err : defaultSetProposal cs p = Ret (cs', err) → silent cs cs'.
Proof using.
  unfold defaultSetProposal. intros Hf. destruct (cs_Proposal cs); [by injection Hf as <- _|].
  destruct (_ || _); [by injection Hf as <- _|]. destruct (_ || _); [by injection Hf as <- _|]. bind_split Hf x Hx.
  destruct x as [cs1 q]. apply get_proposer_silent in Hx. destruct (PubKey_ q) as [pk|]; [|done]. bind_split Hf bz Hbz.
  destruct (negb _); [by injection Hf as <- _|]. destruct (_ <? _); [by injection Hf as <- _|]. injection Hf as <- _.
  eapply silent_trans; [exact Hx|]. destruct (cs_ProposalBlockParts _); by apply silent_same.
Qed.

Lemma addPart_silent cs h part cs' a err : addProposalBlockPart cs h part = Ret (cs', a, err) → silent cs cs'.
Proof using.
  unfold addProposalBlockPart. intros Hf. destruct (negb _); [by injection Hf as <- _ _|]. destruct part as [part|]; [|done].
  destruct (cs_ProposalBlockParts cs) as [i|]; [|by injection Hf as <- _ _]. destruct (parts cs _) as [ps|]; [|by injection Hf as <- _ _].
  bind_split Hf x Hx. destruct x as [[r added] err1]. destruct err1; [injection Hf as <- _ _; by apply silent_same|].
  destruct (_ <? _); [injection Hf as <- _ _; by apply silent_same|]. destruct (_ && _); [|injection Hf as <- _ _; by apply silent_same].
  bind_split Hf rd Hrd. bind_split Hf bz Hbz. destruct (Block_Unmarshal bz); [|injection Hf as <- _ _; by apply silent_same].
  injection Hf as <- _ _. eapply silent_trans; [|by apply silent_emit]. by apply silent_same.
Qed.

Lemma handleCompleteProposal_good e cs h cs' :
  env_ok e → inv cs → handleCompleteProposal cfg privValidator e cs h = Ret cs' → good cs cs'.
Proof using.
  intros He Hi Hf. unfold handleCompleteProposal in Hf. bind_split Hf vs Hvs. destruct (TwoThirdsMajority vs) as [id ok].
  set (cs1 := if _ && _ && _ && _ then _ else _) in Hf.
  assert (silent cs cs1) as Hsil by (unfold cs1; destruct (_ && _ && _ && _); [by apply silent_same|done]).
  eapply good_trans; [by apply silent_good|]. intros Hi1. bind_split Hf c Hc. destruct c.
  - bind_split Hf cs2 Hp. eapply enterPrevote_good in Hp as (Hg2 & Hh2 & Hr2); [|exact Hi1|done].
    eapply good_trans; [exact Hg2|]. intros Hi2. destruct ok; [|injection Hf as <-; by apply good_refl].
    eapply enterPrecommit_good; [done| |exact Hf]. done.
  - destruct (_ =? _); [by eapply tryFinalizeCommit_good|injection Hf as <-; by apply good_refl].
Qed.

Lemma handleMsg_good e cs m peer cs' :
  env_ok e → inv cs → match m with VoteMessage v => P v ∧ vote_ok v | _ => True end →
  handleMsg cfg privValidator e cs m peer = Ret cs' → good cs cs'.
Proof using.
  intros He Hi Hm Hf. destruct m as [p|h r part|v]; simpl in Hf.
  - bind_split Hf x Hx. destruct x as [cs1 err]. injection Hf as <-. apply silent_good; [by eapply setProposal_silent|done].
  - bind_split Hf x Hx. destruct x as [[cs1 a] err]. apply addPart_silent in Hx. eapply good_trans; [by apply silent_good|]. intros Hi1.
    destruct a; [|injection Hf as <-; by apply good_refl]. destruct (parts _ _); [|done].
    destruct (IsComplete _); [by eapply handleCompleteProposal_good|injection Hf as <-; by apply good_refl].
  - bind_split Hf x Hx. destruct x as [[cs1 a] err]. injection Hf as <-. destruct Hm. by eapply tryAddVote_good.
Qed.

Lemma handleTimeout_good e cs ti cs' :
  inv cs → ti ∈ timeouts (cs_out cs) → handleTimeout cfg privValidator e cs ti = Ret cs' → good cs cs'.
Proof using.
  intros Hi Hti Hf. destruct (ci_timeouts _ _ _ _ _ _ _ _ _ _ _ _ _ _ Hi ti Hti) as [_ Hr]. unfold handleTimeout in Hf.
  destruct (_ || _ || _); [injection Hf as <-; by apply good_refl|]. destruct (_ =? _); [by eapply enterNewRound_good|].
  destruct (_ =? _); [eapply enterPropose_good; [done| |exact Hf]; intros; by apply Hr|].
  destruct (_ =? _); [eapply good_trans; [by apply (good_quiet _ _ _ cs (Publish EventTimeoutPropose))|]; intros Hi1; eapply enterPrevote_good; [done| |exact Hf]; intros; by apply Hr|].
  destruct (_ =? _); [eapply good_trans; [by apply (good_quiet _ _ _ cs (Publish EventTimeoutWait))|]; intros Hi1; eapply enterPrecommit_good; [done| |exact Hf]; intros; by apply Hr|].
  destruct (_ =? _); [|done]. bind_split Hf cs1 Hp. eapply good_trans; [by apply (good_quiet _ _ _ cs (Publish EventTimeoutWait))|]. intros Hi1.
  eapply enterPrecommit_good in Hp as [Hg _]; [|exact Hi1|intros; by apply Hr]. eapply good_trans; [exact Hg|]. intros Hi2.
  by eapply enterNewRound_good.
Qed.

Lemma handleTxsAvailable_good e cs cs' : inv cs → handleTxsAvailable cfg privValidator e cs = Ret cs' → good cs cs'.
Proof using.
  intros Hi Hf. unfold handleTxsAvailable in Hf. destruct (ci_pos _ _ _ _ _ _ _ _ _ _ _ _ _ _ Hi) as (_ & Hr & _).
  destruct (Z.eqb_spec (cs_Round cs) 0); [|injection Hf as <-; by apply good_refl]. cbn [negb] in Hf. destruct (_ =? _).
  - destruct (needProofBlock _ _ _); injection Hf as <-; [by apply good_refl|]. by apply good_schedule.
  - destruct (_ =? _); [|injection Hf as <-; by apply good_refl]. eapply enterPropose_good; [done| |exact Hf]. lia.
Qed.

(** What an event may be: votes have passed the checks and have [P], and a
    timeout is one that was scheduled. *)
Definition event_ok (cs : State) (ev : Event) : Prop :=
  match ev with
  | PeerMessage (VoteMessage v) _ | InternalMessage (VoteMessage v) => P v ∧ vote_ok v
  | Timeout ti => ti ∈ timeouts (cs_out cs)
  | _ => True
  end.

Lemma cs_step_good e cs ev cs' :
  env_ok e → inv cs → event_ok cs ev → cs_step cfg privValidator e cs ev = Ret cs' → good cs cs'.
Proof using.
  intros He Hi Hev Hf. destruct ev as [m peer|m|ti| |h r ty peer id]; simpl in Hf.
  - eapply handleMsg_good; [done|done| |exact Hf]. by destruct m.
  - destruct (env_wal e); [|done]. eapply handleMsg_good; [done|done| |exact Hf]. by destruct m.
  - by eapply handleTimeout_good.
  - by eapply handleTxsAvailable_good.
  - destruct (negb _); [injection Hf as <-; by apply good_refl|]. bind_split Hf hvs Hhvs. bind_split Hf x Hx. destruct x as [hvs1 err].
    injection Hf as <-. apply votes_of_inv with (chain := chain) (VS := VS) (P := P) in Hhvs as (_ & Hhv & Hr); [|done].
    apply hvs_SetPeerMaj23_from with (P := P) (cid := chain) (h := cs_Height cs) (vals := VS (cs_Height cs)) in Hx as [Hhv1 Hr1]; [|done].
    apply inv_votes; [done|done|lia].
Qed.
End keep.
End turns.
