(* ===== verification/ConsensusTyped.v ===== *)
(** * The consensus state machine: its data is well formed

    The blocks the machine holds have part sets, those it is locked on or
    takes for valid have hashes, no pointer to a part set dangles, and every
    vote it sends names nil or a complete block, with fields in the ranges of
    their types: the node's own votes pass the checks that its peers make.  A
    proposed block need not have a hash: [BlockFromProto] accepts a header
    without [ValidatorsHash], for which [Hash] is nil. *)
From S2P Require Import Prelude.
From S2P Require Import BitArray.
From S2P Require Import SafeMath.
From S2P Require Import Vote.
From S2P Require Import Validator.
From S2P Require Import SignBytes.
From S2P Require Import ValidatorSet.
From S2P Require Import ValidatorSetPriority.
From S2P Require Import ValidatorSetUpdate.
From S2P Require Import VoteSet.
From S2P Require Import VoteSetInv.
From S2P Require Import VoteSetSafety.
From S2P Require Import HeightVoteSet.
From S2P Require Import PartSet.
From S2P Require Import VoteOrigin.
From S2P Require Import ConsensusState.
From S2P Require Import ConsensusInv.
From S2P Require Import ConsensusSteps.
From S2P Require Import ConsensusTurns.

Definition complete_header (h : PartSetHeader) : Prop := 0 < Total h < 4294967296 ∧ len (PartsHash h) = tmhash_Size.

Section typed.
Context `{StdTime, Crypto, BlockOps}.
Variable cfg : ConsensusConfig.
Variable privValidator : bool.
Variable chain : bytes.
Variable VS : Z → list Validator.
Variable P : Vote → Prop.
Local Abbreviation inv := (inv chain VS P).
Local Abbreviation good := (good chain VS P).

(** A block with its part set, and one that has a hash too. *)
Definition held_at (heap : list PartSet) (b : option Block) (p : option nat) : Prop :=
  ∀ x, b = Some x → ∃ a, p = Some a ∧ (a < length heap)%nat.
Definition block_at (heap : list PartSet) (b : option Block) (p : option nat) : Prop :=
  held_at heap b p ∧ ∀ x, b = Some x → len (Block_Hash x) = tmhash_Size.

(** A vote that its sender's peers accept as well formed. *)
Definition own_vote_ok (v : Vote) : Prop :=
  vote_ranges chain v ∧ good_id (vote_BlockID v) ∧ IsVoteTypeValid (vote_Type v) = true ∧ 0 < vote_Height v ∧ 0 ≤ vote_Round v.

Record ctyped (r : Z) (heap : list PartSet) (pb : option Block) (pp : option nat) (lb : option Block) (lp : option nat)
    (vb : option Block) (vp : option nat) (vs : list Vote) : Prop := {
  ty_chain : len chain ≤ MaxInt64;
  ty_round : r ≤ MaxInt32;
  ty_heap : ∀ ps, ps ∈ heap → complete_header (mkPartSetHeader (ps_total ps) (ps_hash ps));
  ty_pointer : ∀ a, pp = Some a → (a < length heap)%nat;
  ty_proposal : held_at heap pb pp;
  ty_locked : block_at heap lb lp;
  ty_valid : block_at heap vb vp;
  ty_sent : ∀ v, v ∈ vs → own_vote_ok v;
}.

Definition typed (cs : State) : Prop :=
  ctyped (cs_Round cs) (cs_heap cs) (cs_ProposalBlock cs) (cs_ProposalBlockParts cs) (cs_LockedBlock cs) (cs_LockedBlockParts cs)
    (cs_ValidBlock cs) (cs_ValidBlockParts cs) (sent_votes (cs_out cs)).

(** ** Basic changes *)

Lemma typed_emit cs o : quiet o = true ∨ (∃ ti, o = Schedule ti) ∨ (∃ h id b, o = ApplyVerifiedBlock h id b) → typed cs → typed (emit cs o).
Proof using.
  intros Ho Ht. unfold typed. cbn. assert (sent_votes (cs_out cs ++ [o]) = sent_votes (cs_out cs)) as ->; [|exact Ht].
  destruct Ho as [Hq|[(ti & ->)|(h & id & b & ->)] ]; [by apply quiet_sent|unfold sent_votes; rewrite omap_app; apply app_nil_r..].
Qed.

Lemma block_at_none heap p : block_at heap None p.
Proof using. by split; intros x. Qed.

Lemma block_at_app heap b p l : block_at heap b p → block_at (heap ++ l) b p.
Proof using. intros [Hb Hl]. split; [|done]. intros x Hx. destruct (Hb x Hx) as (a & Hp & Ha). exists a. rewrite length_app. split; [done|lia]. Qed.

Lemma typed_new_parts cs hdr : complete_header hdr → typed cs → typed (new_parts cs hdr).
Proof using.
  intros Hh []. unfold typed. cbn. split; try done.
  - intros ps [Hin|Hin]%elem_of_app; [by apply ty_heap0|]. apply list_elem_of_singleton in Hin as ->. by destruct hdr.
  - intros a [= <-]. rewrite length_app. simpl. lia.
  - intros x Hx. eexists. split; [done|]. rewrite length_app. simpl. lia.
  - by apply block_at_app.
  - by apply block_at_app.
Qed.

Lemma typed_no_proposal cs : typed cs → typed (with_ProposalBlock cs None).
Proof using. intros []. unfold typed. cbn. split; try done. Qed.

Lemma typed_unlock cs r : typed cs → typed (with_Locked cs r None None).
Proof using. intros []. unfold typed. cbn. split; try done; apply block_at_none. Qed.

Lemma good_id_hash id : good_id id → BlockHash id ≠ [] → len (BlockHash id) = tmhash_Size.
Proof using.
  intros [->|[Hc _] ] Hne; [done|]. unfold BlockID_IsComplete in Hc. by apply andb_true_iff in Hc as [[Hh%Z.eqb_eq _]%andb_true_iff _].
Qed.

(** A block that a majority names has a hash. *)
Lemma named_block_at heap b p id : good_id id → Block_HashesTo b (BlockHash id) = true → held_at heap b p → block_at heap b p.
Proof using.
  intros Hid (Hne & x & -> & Hx)%HashesTo_true Hb. split; [done|]. intros y [= <-]. rewrite Hx. by apply good_id_hash.
Qed.

Lemma good_id_header id : good_id id → len (BlockHash id) ≠ 0 → complete_header (BlockParts id).
Proof using.
  intros [->|[Hc Hu] ] Hne; [done|]. unfold BlockID_IsComplete in Hc. unfold is_uint32 in Hu.
  apply andb_true_iff in Hc as [[_ Ht%Z.ltb_lt]%andb_true_iff Hp%Z.eqb_eq]. split; [lia|done].
Qed.

(** ** Signing *)

Lemma block_id_good cs b p :
  typed cs → block_at (cs_heap cs) (Some b) p → good_id (mkBlockID (Block_Hash b) (Header (parts cs p))).
Proof using.
  intros Ht Hb. destruct Hb as [Hb Hl]. specialize (Hl b eq_refl). destruct (Hb b eq_refl) as (a & -> & Ha). apply lookup_lt_is_Some_2 in Ha as [ps Hps].
  destruct (ty_heap _ _ _ _ _ _ _ _ _ Ht ps ltac:(by eapply list_elem_of_lookup_2)) as [Htot Hh]. right.
  unfold parts. cbn. rewrite Hps. cbn. unfold BlockID_IsComplete, is_uint32. cbn in *. rewrite Hl, Hh. split; [|lia].
  destruct (Z.ltb_spec 0 (ps_total ps)); [done|lia].
Qed.

Lemma height_range cs : inv cs → 0 < cs_Height cs ≤ MaxInt64.
Proof using.
  intros Hi. destruct (ci_pos _ _ _ _ _ _ _ _ _ _ _ _ _ _ Hi) as [Hp _]. destruct (ci_state _ _ _ _ _ _ _ _ _ _ _ _ _ _ Hi) as [Hst Hn].
  split; [done|]. rewrite <-Hn. unfold next_height. pose proof (so_height _ _ _ Hst). pose proof (so_initial _ _ _ Hst).
  destruct (_ =? 1); ulia.
Qed.

(** [cs] may differ from a state with the invariant in its locks. *)
Lemma signed_typed cs cs' ty id :
  0 < cs_Height cs ≤ MaxInt64 → 0 ≤ cs_Round cs → IsVoteTypeValid ty = true → good_id id → signed_as cs cs' ty id → typed cs → typed cs'.
Proof using.
  intros Hh Hr Hty Hid [->|(v & -> & Hvt & Hvh & Hvr & Hvi)] Ht; [done|].
  assert (own_vote_ok v) as Hv.
  { split; [|rewrite Hvi, Hvt, Hvh, Hvr; split_and!; [done..|lia|lia] ]. pose proof (ty_round _ _ _ _ _ _ _ _ _ Ht).
    split; [|rewrite Hvh; ulia|rewrite Hvr; ulia| |apply Ht].
    - rewrite Hvt. unfold IsVoteTypeValid, PrevoteType, PrecommitType in Hty. ulia.
    - rewrite Hvi. destruct Hid as [->|[_ Hu] ]; [done|exact Hu]. }
  destruct Ht. unfold typed. cbn. split; try done. unfold sent_votes. rewrite omap_app. intros w [Hw|Hw]%elem_of_app; [by apply ty_sent0|].
  apply list_elem_of_singleton in Hw as ->. done.
Qed.

Lemma sign_typed e cs ty hash hdr b cs' :
  0 < cs_Height cs ≤ MaxInt64 → 0 ≤ cs_Round cs → IsVoteTypeValid ty = true → good_id (mkBlockID hash hdr) →
  signAddVote privValidator e cs ty hash hdr b = Ret cs' → typed cs → typed cs'.
Proof using. intros Hh Hr Hty Hid Hf. apply signAddVote_spec in Hf. by eapply signed_typed. Qed.

Lemma inv_round cs : inv cs → 0 ≤ cs_Round cs.
Proof using. intros Hi. by destruct (ci_pos _ _ _ _ _ _ _ _ _ _ _ _ _ _ Hi) as (_ & ? & _). Qed.

Lemma doPrevote_typed e cs cs' : env_ok chain VS e → inv cs → typed cs → defaultDoPrevote privValidator e cs = Ret cs' → typed cs'.
Proof using.
  intros He Hi Ht Hf. pose proof (height_range _ Hi) as Hh. pose proof (inv_round _ Hi) as Hr.
  assert (∀ cs', sign_nil privValidator e cs PrevoteType = Ret cs' → typed cs') as Hnil.
  { intros x Hx. refine (sign_typed _ _ _ _ _ _ _ Hh Hr _ _ Hx Ht); [done|by left]. }
  unfold defaultDoPrevote in Hf. destruct (cs_LockedBlock cs) as [b|] eqn:El.
  - refine (sign_typed _ _ _ _ _ _ _ Hh Hr _ _ Hf Ht); [done|]. apply block_id_good; [done|]. rewrite <-El. apply Ht.
  - destruct (cs_ProposalBlock cs) as [b|] eqn:Ep; [|by apply Hnil].
    destruct (env_validate _ _ _) eqn:Ev; cbn [negb] in Hf; [|by apply Hnil].
    destruct (env_process _ _ _) as [[]|]; [|by apply Hnil|done].
    refine (sign_typed _ _ _ _ _ _ _ Hh Hr _ _ Hf Ht); [done|]. apply block_id_good; [done|]. rewrite <-Ep. split; [apply Ht|].
    intros x Hx. rewrite Ep in Hx. injection Hx as <-. eapply eo_validate; [done|by apply Hi|done].
Qed.

(** The round moves to one within range. *)
Lemma typed_step cs round step : round ≤ MaxInt32 → typed cs → typed (updateRoundStep cs round step).
Proof using. intros Hr []. unfold typed. cbn. split; done. Qed.

Lemma typed_newStep cs : typed cs → typed (newStep cs).
Proof using. apply typed_emit. by left. Qed.

Lemma enterPrevote_typed e cs height round cs' :
  env_ok chain VS e → inv cs → typed cs → (cs_Height cs = height → round ≤ cs_Round cs) → enterPrevote privValidator e cs height round = Ret cs' → typed cs'.
Proof using.
  intros He Hi Ht Hside Hf. unfold enterPrevote in Hf. destruct (_ || _ || _) eqn:Eg; [by injection Hf as <-|].
  apply orb_false_iff in Eg as [[Eh%negb_false_iff%Z.eqb_eq _]%orb_false_iff _]. bind_split Hf cs1 Hd. injection Hf as <-.
  apply typed_newStep, typed_step; [|by eapply doPrevote_typed]. specialize (Hside Eh). pose proof (ty_round _ _ _ _ _ _ _ _ _ Ht). lia.
Qed.

Lemma query_typed q cs r ty cs' b : query_set q cs r ty = Ret (cs', b) → typed cs → typed cs'.
Proof using.
  intros Hf Ht. unfold query_set in Hf. bind_split Hf hvs Hh. bind_split Hf vs Hv. bind_split Hf x Hx. destruct x as [vs' b'].
  destruct vs'; injection Hf as <- _; exact Ht.
Qed.

Lemma enterPrevoteWait_typed cs height round cs' :
  typed cs → (cs_Height cs = height → round ≤ cs_Round cs) → enterPrevoteWait cfg cs height round = Ret cs' → typed cs'.
Proof using.
  intros Ht Hside Hf. unfold enterPrevoteWait in Hf. destruct (_ || _ || _) eqn:Eg; [by injection Hf as <-|].
  apply orb_false_iff in Eg as [[Eh%negb_false_iff%Z.eqb_eq _]%orb_false_iff _]. specialize (Hside Eh).
  pose proof (ty_round _ _ _ _ _ _ _ _ _ Ht). bind_split Hf x Hx. destruct x as [cs1 any]. apply query_typed in Hx; [|done].
  destruct (negb any); [done|]. injection Hf as <-. apply typed_newStep, typed_step; [lia|]. apply typed_emit; [right; left; by eexists|done].
Qed.

Lemma enterPrecommitWait_typed cs height round cs' : typed cs → enterPrecommitWait cfg cs height round = Ret cs' → typed cs'.
Proof using.
  intros Ht Hf. unfold enterPrecommitWait in Hf. destruct (_ || _ || _); [by injection Hf as <-|]. bind_split Hf x Hx. destruct x as [cs1 any].
  apply query_typed in Hx; [|done]. destruct (negb any); [done|]. injection Hf as <-. apply typed_newStep.
  apply (typed_emit cs1 (Schedule _)); [right; left; by eexists|done].
Qed.

(** ** Precommit *)

Lemma majority_good cid vals ty h r id : majority P cid vals ty h r id → good_id id.
Proof using. intros (vs & Hok & _ & _ & _ & _ & _ & _ & Hm). by eapply maj23_power. Qed.

Lemma precommit_unknown_typed e cs id cs' :
  0 < cs_Height cs ≤ MaxInt64 → 0 ≤ cs_Round cs → good_id id → len (BlockHash id) ≠ 0 → typed cs →
  precommit_unknown privValidator e cs id = Ret cs' → typed cs'.
Proof using.
  intros Hh Hr Hid Hne Ht Hf. unfold precommit_unknown in Hf. set (cs0 := if HasHeader _ _ then _ else _) in Hf.
  assert (typed cs0 ∧ cs_Height cs0 = cs_Height cs ∧ cs_Round cs0 = cs_Round cs) as (Ht0 & Hh0 & Hr0).
  { unfold cs0. destruct (HasHeader _ _); [split; [by apply typed_unlock|done]|]. split; [|done].
    apply typed_new_parts; [by apply good_id_header|]. by apply typed_no_proposal, typed_unlock. }
  eapply (signed_typed (emit cs0 (Publish EventUnlock))); [| | | |eapply signAddVote_spec; exact Hf|];
    [by rewrite <-Hh0 in Hh|by rewrite <-Hr0 in Hr|done|by left|]. apply typed_emit; [by left|done].
Qed.

Lemma precommit_body_typed e cs round cs' : inv cs → typed cs → precommit_body privValidator e cs round = Ret cs' → typed cs'.
Proof using.
  intros Hi Ht Hf. pose proof (height_range _ Hi) as Hh. pose proof (inv_round _ Hi) as Hr.
  unfold precommit_body in Hf. bind_split Hf vs Hvs. destruct (TwoThirdsMajority vs) as [id ok] eqn:Hm. destruct ok; cbn [negb] in Hf.
  2: { refine (sign_typed _ _ _ _ _ _ _ Hh Hr _ _ Hf Ht); [done|by left]. }
  pose proof (majority_good _ _ _ _ _ _ (prevotes_polka _ _ _ _ _ _ _ Hi Hvs Hm)) as Hid.
  bind_split Hf hvs Hhvs. bind_split Hf x Hx. destruct x as [polr polid]. destruct (polr <? round); [done|].
  assert (typed (emit cs (Publish EventPolka))) as Ht1 by (apply typed_emit; [by left|done]).
  destruct (Z.eqb_spec (len (BlockHash id)) 0) as [Hz|Hz].
  - set (cs0 := match cs_LockedBlock _ with None => _ | Some _ => _ end) in Hf.
    assert (typed cs0 ∧ cs_Height cs0 = cs_Height cs ∧ cs_Round cs0 = cs_Round cs) as (Ht0 & Hh0 & Hr0).
    { unfold cs0. destruct (cs_LockedBlock _); [|done]. split; [|done]. apply typed_emit; [by left|by apply typed_unlock]. }
    eapply (signed_typed cs0); [| | | |eapply signAddVote_spec; exact Hf|]; [by rewrite Hh0|by rewrite Hr0|done|by left|done].
  - destruct (Block_HashesTo (cs_LockedBlock _) _).
    { eapply signed_typed; [| | | |eapply signAddVote_spec; exact Hf|]; [exact Hh|exact Hr|done|by destruct id|].
      apply typed_emit; [by left|]. exact Ht1. }
    cbn [cs_ProposalBlock emit emit_all] in Hf. destruct (cs_ProposalBlock cs) as [b|] eqn:Ep; [|by eapply precommit_unknown_typed in Hf].
    destruct (Block_HashesTo _ _) eqn:Eb; [|by eapply precommit_unknown_typed in Hf]. destruct (negb _); [done|].
    eapply signed_typed; [| | | |eapply signAddVote_spec; exact Hf|]; [exact Hh|exact Hr|done|by destruct id|].
    apply typed_emit; [by left|]. destruct Ht1. unfold typed in *. cbn in *. rewrite <-Ep in *. split; try done.
    by apply (named_block_at _ _ _ id).
Qed.

Lemma enterPrecommit_typed e cs height round cs' :
  inv cs → typed cs → (cs_Height cs = height → round ≤ cs_Round cs) → enterPrecommit privValidator e cs height round = Ret cs' → typed cs'.
Proof using.
  intros Hi Ht Hside Hf. unfold enterPrecommit in Hf. destruct (_ || _ || _) eqn:Eg; [by injection Hf as <-|].
  apply orb_false_iff in Eg as [[Eh%negb_false_iff%Z.eqb_eq _]%orb_false_iff _]. bind_split Hf cs1 Hd. injection Hf as <-.
  apply typed_newStep, typed_step; [|by eapply precommit_body_typed]. specialize (Hside Eh). pose proof (ty_round _ _ _ _ _ _ _ _ _ Ht). lia.
Qed.

(** ** Propose and new round *)

Lemma get_proposer_typed cs cs' p : get_proposer cs = Ret (cs', p) → typed cs → typed cs'.
Proof using.
  unfold get_proposer. intros Hf Ht. bind_split Hf x Hx. destruct x as [vals [q|]]; [|done]. injection Hf as <- _. exact Ht.
Qed.

Lemma decide_typed pv e cs height round cs' : defaultDecideProposal pv e cs height round = Ret cs' → typed cs → typed cs'.
Proof using.
  unfold defaultDecideProposal. intros Hf Ht. bind_split Hf o Ho. destruct o as [[b ps]|]; [|by injection Hf as <-].
  destruct (env_sign_proposal _ _ _) as [sig|]; [|by injection Hf as <-].
  eapply (for_each_keeps _ typed); [|exact Hf|by apply typed_emit; [left|]]. intros i x x' Hx Htx. bind_split Hx part Hp.
  injection Hx as <-. by apply typed_emit; [left|].
Qed.

Lemma propose_body_typed e cs height round cs' : propose_body cfg privValidator e cs height round = Ret cs' → typed cs → typed cs'.
Proof using.
  intros Hf Ht. unfold propose_body in Hf. set (cs0 := scheduleTimeout _ _ _ _ _) in *.
  assert (typed cs0) as Ht0 by (apply typed_emit; [right; left; by eexists|done]).
  destruct privValidator; [|by injection Hf as <-]. destruct (cs_privValidatorPubKey cs0) as [pk|]; [|by injection Hf as <-].
  destruct (negb _); [by injection Hf as <-|]. bind_split Hf x Hx. destruct x as [cs1 mine]. unfold isProposer in Hx. bind_split Hx y Hy.
  destruct y as [cs2 p]. injection Hx as <- <-. apply get_proposer_typed in Hy; [|done]. case_bool_decide; [by eapply decide_typed|by injection Hf as <-].
Qed.

Lemma enterPropose_typed e cs height round cs' :
  env_ok chain VS e → inv cs → typed cs → (cs_Height cs = height → round ≤ cs_Round cs) → enterPropose cfg privValidator e cs height round = Ret cs' → typed cs'.
Proof using.
  intros He Hi Ht Hside Hf. unfold enterPropose in Hf. destruct (_ || _ || _) eqn:Eg; [by injection Hf as <-|].
  apply orb_false_iff in Eg as [[Eh%negb_false_iff%Z.eqb_eq Er%Z.ltb_ge]%orb_false_iff Es].
  assert (round = cs_Round cs) as -> by (specialize (Hside Eh); lia). rewrite Z.eqb_refl in Es. apply Z.leb_gt in Es.
  bind_split Hf cs1 Hb. pose proof (propose_body_typed _ _ _ _ _ Hb Ht) as Ht1.
  apply propose_body_good with (chain := chain) (VS := VS) (P := P) in Hb as [[Hi1 _] Hv]; [|done|done|lia]. injection Hv as Hh1 Hr1 Hs1 _ _ _ _ _.
  set (cs2 := newStep _) in Hf. assert (typed cs2) as Ht2.
  { apply typed_newStep, typed_step; [|done]. by apply ty_round in Ht. }
  bind_split Hf c Hc. destruct c; [|by injection Hf as <-]. eapply enterPrevote_typed; [exact He| |exact Ht2| |exact Hf]; [|done].
  destruct (good_step chain VS P cs1 (cs_Round cs) RoundStepPropose Hi1 ltac:(usteps; lia) ltac:(done)) as [Hi2 _]; [right; usteps; lia|].
  by apply newStep_good.
Qed.

Lemma start_round_typed cs round cs' : 0 ≤ round → start_round cs round = Ret cs' → typed cs → typed cs'.
Proof using.
  intros Hr Hf Ht. unfold start_round in Hf. bind_split Hf vals Hvals. bind_split Hf x Hx. destruct x as [cs1 p].
  destruct (PubKey_ p) as [pk|]; [|done]. bind_split Hf next Hn. bind_split Hf hvs Hhvs. bind_split Hf hvs' Hset. injection Hf as <-.
  assert (round + 1 ≤ MaxInt32) as Hmax.
  { unfold SafeAddInt32 in Hn. rewrite (int32_id (MaxInt32 - 1)) in Hn by ulia. destruct (Z.ltb_spec (MaxInt32 - 1) round); [done|lia]. }
  apply get_proposer_typed in Hx; [|by apply (typed_step cs round RoundStepNewRound); [lia|] ]. apply typed_emit; [by left|].
  destruct (round =? 0); [exact Hx|]. destruct Hx. unfold typed. cbn. by split.
Qed.

Lemma enterNewRound_typed e cs height round cs' :
  env_ok chain VS e → inv cs → typed cs → enterNewRound cfg privValidator e cs height round = Ret cs' → typed cs'.
Proof using.
  intros He Hi Ht Hf. pose proof (inv_round _ Hi) as Hr. unfold enterNewRound in Hf. destruct (_ || _ || _) eqn:Eg; [by injection Hf as <-|].
  apply orb_false_iff in Eg as [[Eh%negb_false_iff%Z.eqb_eq Er%Z.ltb_ge]%orb_false_iff Es].
  bind_split Hf cs1 Hs. assert (typed cs1) as Ht1 by (eapply start_round_typed; [|exact Hs|done]; lia).
  apply start_round_good with (chain := chain) (VS := VS) (P := P) in Hs as ([Hi1 Hk1] & Hh1 & Hr1); [|done|].
  2: { destruct (Z.eqb_spec (cs_Round cs) round) as [->|]; [|lia]. apply negb_false_iff, Z.eqb_eq in Es. by right. }
  destruct (_ && _ && _).
  - injection Hf as <-. destruct (0 <? _); [|done]. apply typed_emit; [right; left; by eexists|done].
  - eapply enterPropose_typed; [exact He|done|done| |exact Hf]. lia.
Qed.

(** ** Commit *)

Lemma updateToState_typed e cs st cs' : updateToState cfg e cs st = Ret cs' → typed cs → typed cs'.
Proof using.
  intros Hf Ht. unfold updateToState in Hf. destruct (_ && _ && _); [done|]. destruct (_ && _ && _); [done|]. destruct (_ && _ && _); [done|].
  destruct (_ && _); [injection Hf as <-; by apply typed_newStep|]. bind_split Hf cs1 Hlc.
  assert (typed cs1) as Ht1.
  { destruct (_ =? 0); [by injection Hlc as <-|]. destruct (_ && _).
    - bind_split Hlc pc Hpc. destruct (negb _); [done|]. by injection Hlc as <-.
    - destruct (cs_LastCommit cs); [|done]. by injection Hlc as <-. }
  bind_split Hf ext Hext. destruct (sm_Validators st); [|done]. bind_split Hf hvs Hnew. injection Hf as <-. apply typed_newStep.
  destruct Ht1. unfold typed. cbn. split; try done.
Qed.

Lemma save_block_typed e cs b ps seen ext cs' : save_block e cs b ps seen ext = Ret cs' → typed cs → typed cs'.
Proof using.
  unfold save_block. intros Hf Ht. destruct (_ && _); [done|]. destruct (_ && _); [done|]. destruct ps as [ps|]; [|done].
  destruct (negb _); [done|]. destruct (negb _); [done|]. injection Hf as <-. by apply typed_emit; [left|].
Qed.

Lemma finalizeCommit_typed e cs height cs' : finalizeCommit cfg privValidator e cs height = Ret cs' → typed cs → typed cs'.
Proof using.
  intros Hf Ht. unfold finalizeCommit in Hf. destruct (_ || _); [by injection Hf as <-|]. bind_split Hf pc Hpc.
  destruct (TwoThirdsMajority pc) as [id ok]. destruct (negb ok); [done|]. destruct (negb _); [done|]. destruct (negb _); [done|].
  destruct (cs_ProposalBlock cs) as [b|]; [|done]. destruct pc as [vs|]; [|done]. destruct (negb _); [done|]. bind_split Hf cs1 Hsave.
  assert (typed cs1) as Ht1.
  { destruct (_ <? _); [|by injection Hsave as <-]. bind_split Hsave x1 Hx1. bind_split Hsave x2 Hx2. bind_split Hsave x3 Hx3.
    by eapply save_block_typed. }
  destruct (negb _); [done|]. unfold apply_block in Hf. destruct (env_apply _ _ _ _) as [st|]; [|done]. bind_split Hf u Hu. bind_split Hf cs2 Hup.
  injection Hf as <-. apply updateToState_typed in Hup.
  2: { apply typed_emit; [right; right; by do 3 eexists|]. by apply typed_emit; [left|]. }
  apply typed_emit; [right; left; by eexists|]. unfold updatePrivValidatorPubKey. destruct privValidator; [|done]. by destruct (env_pubkey e).
Qed.

Lemma tryFinalizeCommit_typed e cs height cs' : tryFinalizeCommit cfg privValidator e cs height = Ret cs' → typed cs → typed cs'.
Proof using.
  intros Hf Ht. unfold tryFinalizeCommit in Hf. destruct (negb _); [done|]. bind_split Hf pc Hpc. destruct (TwoThirdsMajority pc) as [id ok].
  destruct (_ || _); [by injection Hf as <-|]. destruct (negb _); [by injection Hf as <-|]. by eapply finalizeCommit_typed.
Qed.

Lemma commit_body_typed cs r cs' : inv cs → commit_body cs r = Ret cs' → typed cs →
  (∀ pc id, cs_Precommits cs r = Ret pc → TwoThirdsMajority pc = (id, true) → len (BlockHash id) ≠ 0) → typed cs'.
Proof using.
  unfold commit_body. intros Hi Hf Ht Hne. bind_split Hf pc Hpc. destruct (TwoThirdsMajority pc) as [id ok] eqn:Hm. destruct ok; [|done].
  specialize (Hne pc id Hpc Hm). pose proof (majority_good _ _ _ _ _ _ (precommits_majority _ _ _ _ _ _ _ Hi Hpc Hm)) as Hid. cbn [negb] in Hf.
  set (cs1 := if Block_HashesTo (cs_LockedBlock cs) (BlockHash id) then _ else _) in Hf.
  assert (typed cs1) as Ht1.
  { unfold cs1. destruct (Block_HashesTo _ _) eqn:Eb; [|done]. apply HashesTo_true in Eb as (_ & b & Hb & _).
    destruct Ht. unfold typed. cbn. split; try done; [|apply ty_locked0].
    intros a Ha. destruct ty_locked0 as [Hl _]. destruct (Hl b Hb) as (a' & Ha' & Hlt). congruence. }
  destruct (_ && _); injection Hf as <-; [|done]. apply typed_emit; [by left|]. apply typed_new_parts; [by apply good_id_header|].
  by apply typed_no_proposal.
Qed.

Lemma enterCommit_typed e cs height r cs' : inv cs → enterCommit cfg privValidator e cs height r = Ret cs' → typed cs →
  (∀ pc id, cs_Height cs = height → cs_Precommits cs r = Ret pc → TwoThirdsMajority pc = (id, true) → len (BlockHash id) ≠ 0) → typed cs'.
Proof using.
  intros Hi Hf Ht Hne. unfold enterCommit in Hf. destruct (_ || _) eqn:Eg; [by injection Hf as <-|].
  apply orb_false_iff in Eg as [Eh%negb_false_iff%Z.eqb_eq _]. bind_split Hf cs1 Hb.
  eapply commit_body_typed in Hb; [|done|done|intros; by eapply Hne].
  eapply tryFinalizeCommit_typed; [exact Hf|]. apply typed_newStep. exact Hb.
Qed.

(** ** The votes on record during a step *)

Lemma sign_votes e cs ty hash hdr b cs' : signAddVote privValidator e cs ty hash hdr b = Ret cs' → cs_Votes cs' = cs_Votes cs.
Proof using. intros Hf. by apply signAddVote_spec in Hf as [->|(v & -> & _)]. Qed.

Lemma enterPrevote_votes e cs height round cs' : enterPrevote privValidator e cs height round = Ret cs' → cs_Votes cs' = cs_Votes cs.
Proof using.
  unfold enterPrevote. intros Hf. destruct (_ || _ || _); [by injection Hf as <-|]. bind_split Hf cs1 Hd. injection Hf as <-.
  unfold defaultDoPrevote in Hd. destruct (cs_LockedBlock cs); [by apply sign_votes in Hd|]. destruct (cs_ProposalBlock cs); [|by apply sign_votes in Hd].
  destruct (negb _); [by apply sign_votes in Hd|]. destruct (env_process _ _ _) as [[]|]; [by apply sign_votes in Hd..|done].
Qed.

Lemma enterPrecommit_votes e cs height round cs' : enterPrecommit privValidator e cs height round = Ret cs' → cs_Votes cs' = cs_Votes cs.
Proof using.
  unfold enterPrecommit. intros Hf. destruct (_ || _ || _); [by injection Hf as <-|]. bind_split Hf cs1 Hd. injection Hf as <-.
  unfold precommit_body in Hd. bind_split Hd vs Hvs. destruct (TwoThirdsMajority vs) as [id ok]. destruct (negb ok); [by apply sign_votes in Hd|].
  bind_split Hd hvs Hhvs. bind_split Hd x Hx. destruct x as [polr polid]. destruct (polr <? round); [done|]. cbn in Hd.
  assert (precommit_unknown privValidator e (emit cs (Publish EventPolka)) id = Ret cs1 → cs_Votes cs1 = cs_Votes cs) as Hunk.
  { unfold precommit_unknown. intros Hu. apply sign_votes in Hu. cbn. rewrite Hu. by destruct (HasHeader _ _). }
  destruct (_ =? 0); [destruct (cs_LockedBlock cs); by apply sign_votes in Hd|]. destruct (Block_HashesTo _ _); [by apply sign_votes in Hd|].
  destruct (cs_ProposalBlock cs); [|by apply Hunk]. destruct (Block_HashesTo _ _); [|by apply Hunk]. destruct (negb _); [done|]. by apply sign_votes in Hd.
Qed.

Lemma enterNewRound_precommits e cs height round cs' r vs :
  inv cs → enterNewRound cfg privValidator e cs height round = Ret cs' → cs_Precommits cs r = Ret (Some vs) →
  cs_Precommits cs' r = Ret (Some vs).
Proof using.
  intros Hi Hf Hpc. unfold enterNewRound in Hf. destruct (_ || _ || _) eqn:Eg; [by injection Hf as <-|].
  apply orb_false_iff in Eg as [[_ Er%Z.ltb_ge]%orb_false_iff _]. bind_split Hf cs1 Hs.
  assert (cs_Precommits cs1 r = Ret (Some vs)) as Hpc1.
  { unfold start_round in Hs. bind_split Hs vals Hvals. bind_split Hs x Hx. destruct x as [cs2 p].
    apply get_proposer_silent in Hx as [Hx _]. unfold view in Hx. cbn in Hx. injection Hx as _ _ _ _ _ Hv _ _.
    destruct (PubKey_ p) as [pk|]; [|done]. bind_split Hs next Hn. bind_split Hs hvs Hhvs. bind_split Hs hvs' Hset. injection Hs as <-.
    destruct (ci_votes _ _ _ _ _ _ _ _ _ _ _ _ _ _ Hi) as (hvs0 & Hv0 & Hhv0 & Hr0).
    assert (hvs = hvs0) as -> by (unfold votes_of in Hhvs; destruct (round =? 0); cbn in Hhvs; rewrite Hv, Hv0 in Hhvs; by injection Hhvs as ->).
    pose proof (inv_round _ Hi) as Hr. unfold SafeAddInt32 in Hn. rewrite (int32_id (MaxInt32 - 1)) in Hn by ulia.
    destruct (Z.ltb_spec (MaxInt32 - 1) round); [done|]. cbn in Hn. injection Hn as <-. rewrite int32_id in Hset by ulia.
    destruct (decide (round + 1 = MaxInt32)) as [He|].
    { unfold SetRound in Hset. bind_split Hset n Hn. destruct (_ && _); [done|]. by rewrite He, Z.eqb_refl in Hset. }
    destruct (SetRound_spec hvs0 (round + 1) (hv_ok _ _ _ _ _ Hhv0) ltac:(lia)) as (hvs1 & He & _ & _ & _ & _ & Hkeep & _).
    rewrite Hset in He. apply (inj Ret) in He as <-. unfold cs_Precommits, votes_of in *. cbn. rewrite Hv0 in Hpc. cbn in Hpc |- *.
    unfold Precommits, getVoteSet in *. destruct (roundVoteSets hvs0 !! r) as [rvs|] eqn:Ek; [|done]. by rewrite (Hkeep r rvs Ek). }
  destruct (_ && _ && _); [injection Hf as <-; destruct (0 <? _); exact Hpc1|].
  unfold cs_Precommits, votes_of in *. assert (cs_Votes cs' = cs_Votes cs1) as ->; [|done].
  unfold enterPropose in Hf. destruct (_ || _ || _); [by injection Hf as <-|]. bind_split Hf cs2 Hb. bind_split Hf c Hc.
  assert (cs_Votes cs2 = cs_Votes cs1) as <-.
  { unfold propose_body in Hb. destruct privValidator; [|by injection Hb as <-]. cbn in Hb. destruct (cs_privValidatorPubKey cs1); [|by injection Hb as <-].
    destruct (negb _); [by injection Hb as <-|]. bind_split Hb x Hx. destruct x as [cs3 mine]. unfold isProposer in Hx. bind_split Hx y Hy.
    destruct y as [cs4 q]. injection Hx as <- <-. apply get_proposer_silent in Hy as [Hy _]. unfold view in Hy. cbn in Hy. injection Hy as _ _ _ _ _ Hv _ _.
    case_bool_decide; [|by injection Hb as <-]. apply decide_silent in Hb as [Hb _]. injection Hb as _ _ _ _ _ Hv' _ _. congruence. }
  destruct c; [by apply enterPrevote_votes in Hf|by injection Hf as <-].
Qed.

(** ** Votes *)

Lemma prevote_polka_typed e cs r vs cs' ok :
  inv cs → cs_Prevotes cs r = Ret vs → prevote_polka e cs r vs = (cs', ok) → typed cs → typed cs'.
Proof using.
  intros Hi Hvs Hf Ht. unfold prevote_polka in Hf. destruct (TwoThirdsMajority vs) as [id maj] eqn:Hm.
  destruct maj; [|by injection Hf as <- _]. pose proof (majority_good _ _ _ _ _ _ (prevotes_polka _ _ _ _ _ _ _ Hi Hvs Hm)) as Hid.
  destruct (prevote_unlock e cs r id) as [cs1 ok1] eqn:Eu.
  assert (typed cs1) as Ht1.
  { unfold prevote_unlock in Eu. destruct (cs_LockedBlock cs); [|by injection Eu as <- _]. destruct (_ && _ && _); [|by injection Eu as <- _].
    destruct (env_publish _ _); injection Eu as <- _; [apply typed_emit; [by left|]|]; by apply typed_unlock. }
  destruct ok1; [|by injection Hf as <- _]. unfold prevote_valid in Hf. destruct (Z.eqb_spec (len (BlockHash id)) 0); [by injection Hf as <- _|].
  destruct (_ && _ && _); [|by injection Hf as <- _]. injection Hf as <- _. apply typed_emit; [by left|].
  set (cs2 := if Block_HashesTo (cs_ProposalBlock cs1) _ then _ else _).
  assert (typed cs2) as Ht2.
  { unfold cs2. destruct (Block_HashesTo _ _) eqn:Eb; [|by apply typed_no_proposal]. destruct Ht1. unfold typed. cbn. split; try done.
    by apply (named_block_at _ _ _ id). }
  destruct (HasHeader _ _); [done|]. apply typed_new_parts; [by apply good_id_header|done].
Qed.

Lemma prevote_steps_typed e cs r vs cs' :
  env_ok chain VS e → inv cs → typed cs → prevote_steps cfg privValidator e cs (cs_Height cs) r vs = Ret cs' → typed cs'.
Proof using.
  intros He Hi Ht Hf. unfold prevote_steps in Hf. bind_split Hf x Hx. destruct x as [cs1 ahead].
  assert (good cs cs1 ∧ same_hr cs cs1) as [[Hi1 _] [Hh1 Hr1] ].
  { destruct (_ <? _); [by eapply (any_good _ _ _ _ _ PrevoteType)|]. injection Hx as <- _. split; [by apply good_refl|done]. }
  assert (typed cs1) as Ht1 by (destruct (_ <? _); [by eapply query_typed|by injection Hx as <- _]).
  destruct ahead; [by eapply enterNewRound_typed|]. destruct (_ && _) eqn:Eg.
  - apply andb_true_iff in Eg as [<-%Z.eqb_eq _]. destruct (TwoThirdsMajority vs) as [id ok]. bind_split Hf c Hc. destruct (_ && _).
    + eapply enterPrecommit_typed; [done|done| |exact Hf]. lia.
    + bind_split Hf y Hy. destruct y as [cs2 any]. apply (any_good chain VS P) in Hy as Hg2; [|done|done]. apply query_typed in Hy; [|done].
      destruct any; [|by injection Hf as <-]. eapply enterPrevoteWait_typed; [exact Hy| |exact Hf]. destruct Hg2 as [_ [_ Hr2] ]. lia.
  - clear Eg. destruct (cs_Proposal cs1) as [p|]; [|by injection Hf as <-]. destruct (_ && _); [|by injection Hf as <-].
    bind_split Hf c Hc. destruct c; [|by injection Hf as <-]. eapply enterPrevote_typed; [exact He|done|done| |exact Hf]. lia.
Qed.

Lemma precommit_added_typed e cs r cs' :
  env_ok chain VS e → inv cs → typed cs → 0 ≤ r → precommit_added cfg privValidator e cs (cs_Height cs) r = Ret cs' → typed cs'.
Proof using.
  intros He Hi Ht Hr Hf. unfold precommit_added in Hf. bind_split Hf pc Hpc. destruct (TwoThirdsMajority pc) as [id ok] eqn:Hm. destruct ok.
  - bind_split Hf cs1 Hn. pose proof (enterNewRound_typed _ _ _ _ _ He Hi Ht Hn) as Ht1. destruct pc as [vs|]; [|done].
    pose proof (enterNewRound_precommits _ _ _ _ _ _ _ Hi Hn Hpc) as Hpc1.
    apply enterNewRound_good with (chain := chain) (VS := VS) (P := P) in Hn as ([Hi1 _] & Hh1 & Hr1); [|done].
    bind_split Hf cs2 Hc. pose proof (enterPrecommit_typed _ _ _ _ _ Hi1 Ht1 ltac:(intros _; by apply Hr1) Hc) as Ht2.
    pose proof (enterPrecommit_votes _ _ _ _ _ Hc) as Hv2.
    apply enterPrecommit_good with (chain := chain) (VS := VS) (P := P) in Hc as ([Hi2 _] & Hh2 & Hr2); [|done|intros _; by apply Hr1].
    destruct (Z.eqb_spec (len (BlockHash id)) 0) as [|Hne]; [exact (enterPrecommitWait_typed _ _ _ _ Ht2 Hf)|]. cbn [negb] in Hf. bind_split Hf cs3 Hcm.
    assert (typed cs3) as Ht3.
    { eapply enterCommit_typed; [done|exact Hcm|done|]. intros pc' id' _ Hpc' Hm'. unfold cs_Precommits, votes_of in *. rewrite Hv2 in Hpc'.
      rewrite Hpc' in Hpc1. injection Hpc1 as ->. rewrite Hm in Hm'. injection Hm' as <-. done. }
    apply (enterCommit_good _ _ _ _ _ _ _ _ _ _ He Hi2 Hr) in Hcm as [Hi3 _]. bind_split Hf x Hx. destruct x as [pc' all].
    destruct all; [by eapply enterNewRound_typed|by injection Hf as <-].
  - destruct (_ <=? _); [|by injection Hf as <-]. bind_split Hf x Hx. destruct x as [cs1 any].
    apply (any_good chain VS P) in Hx as Hg1; [|done|done]. apply query_typed in Hx; [|done]. destruct Hg1 as [[Hi1 _] _].
    destruct any; [|by injection Hf as <-]. bind_split Hf cs2 Hn. apply enterNewRound_typed in Hn; [|done..]. exact (enterPrecommitWait_typed _ _ _ _ Hn Hf).
Qed.

Lemma cs_addVote_typed e cs vote peer cs' a err :
  env_ok chain VS e → inv cs → typed cs → P vote → vote_ok chain vote →
  cs_addVote cfg privValidator e cs vote peer = Ret (cs', a, err) → typed cs'.
Proof using.
  intros He Hi Ht HP (Hid & Hr & Hbz) Hf. unfold cs_addVote in Hf. destruct (_ && _).
  { unfold add_last_commit in Hf. destruct (negb _); [by injection Hf as <- _ _|]. destruct (cs_LastCommit cs) as [vs|]; [|done].
    bind_split Hf x Hx. destruct x as [[vs1 added] err1]. destruct (negb added); [by injection Hf as <- _ _|].
    destruct (negb _); [by injection Hf as <- _ _|]. bind_split Hf y Hy. destruct y as [vs2 all]. bind_split Hf cs2 Hn. injection Hf as <- _ _.
    destruct all; [|injection Hn as <-; by apply (typed_emit cs (Publish (EventVote vote))); [left|] ].
    eapply enterNewRound_typed; [exact He| | |exact Hn]; [by apply (good_quiet _ _ _ cs (Publish (EventVote vote)))|].
    by apply (typed_emit cs (Publish (EventVote vote))); [left|]. }
  destruct (negb _); [by injection Hf as <- _ _|]. bind_split Hf ext Hext. bind_split Hf bad Hbad.
  destruct bad; [by injection Hf as <- _ _|]. bind_split Hf hvs Hhvs. bind_split Hf x Hadd. destruct x as [[hvs1 added] err1].
  apply votes_of_inv with (chain := chain) (VS := VS) (P := P) in Hhvs as (_ & Hhv & Hround); [|done].
  eapply AddVote_from in Hadd as [Hhv1 Hround1]; [|done..].
  destruct (negb added); [by injection Hf as <- _ _|]. destruct (negb _); [by injection Hf as <- _ _|].
  set (cs1 := emit _ _) in Hf. assert (typed cs1) as Ht1 by (by apply typed_emit; [left|]).
  assert (inv cs1) as Hi1.
  { apply good_quiet; [done|]. apply inv_votes; [done|done|lia]. }
  destruct (_ =? PrevoteType).
  - bind_split Hf y Hy. destruct y as [cs2 pub]. injection Hf as <- _ _. unfold prevote_added in Hy. bind_split Hy vs Hvs.
    destruct (prevote_polka e cs1 (vote_Round vote) vs) as [cs3 ok3] eqn:Ep. pose proof (prevote_polka_typed _ _ _ _ _ _ Hi1 Hvs Ep Ht1) as Ht3.
    eapply prevote_polka_good in Ep as [[Hi3 _] [Hh3 _] ]; [|done|done]. destruct ok3; [|by injection Hy as <- _]. bind_split Hy cs4 Hst.
    injection Hy as <- _. change (cs_Height cs) with (cs_Height cs1) in Hst. rewrite <-Hh3 in Hst. by eapply prevote_steps_typed.
  - destruct (_ =? PrecommitType); [|done]. bind_split Hf cs2 Hy. injection Hf as <- _ _. exact (precommit_added_typed _ _ _ _ He Hi1 Ht1 Hr Hy).
Qed.

(** ** Events *)

Lemma tryAddVote_typed e cs vote peer cs' a err :
  env_ok chain VS e → inv cs → typed cs → P vote → vote_ok chain vote →
  tryAddVote cfg privValidator e cs vote peer = Ret (cs', a, err) → typed cs'.
Proof using.
  intros He Hi Ht HP Hv Hf. unfold tryAddVote in Hf. bind_split Hf x Hx. destruct x as [[cs1 a1] err1].
  apply cs_addVote_typed in Hx; [|done..]. destruct err1 as [[[|ae]| | | | |]|]; [| |by injection Hf as <- _ _..]; [by injection Hf as <- _ _|].
  destruct ae; try by injection Hf as <- _ _. destruct (cs_privValidatorPubKey cs1) as [pk|]; [|by injection Hf as <- _ _].
  case_decide; injection Hf as <- _ _; [done|by apply typed_emit; [left|] ].
Qed.

Lemma setProposal_typed cs p cs' err :
  complete_header (BlockParts (prop_BlockID p)) → defaultSetProposal cs p = Ret (cs', err) → typed cs → typed cs'.
Proof using.
  unfold defaultSetProposal. intros Hp Hf Ht. destruct (cs_Proposal cs); [by injection Hf as <- _|].
  destruct (_ || _); [by injection Hf as <- _|]. destruct (_ || _); [by injection Hf as <- _|]. bind_split Hf x Hx.
  destruct x as [cs1 q]. apply get_proposer_typed in Hx; [|done]. destruct (PubKey_ q) as [pk|]; [|done]. bind_split Hf bz Hbz.
  destruct (negb _); [by injection Hf as <- _|]. destruct (_ <? _); [by injection Hf as <- _|]. injection Hf as <- _.
  destruct (cs_ProposalBlockParts _); [exact Hx|]. by apply typed_new_parts.
Qed.

Lemma AddPart_header ps part ps' a err :
  AddPart (Some ps) part = Ret (Some ps', a, err) → ps_total ps' = ps_total ps ∧ ps_hash ps' = ps_hash ps.
Proof using.
  unfold AddPart. intros Hf. destruct (_ <=? _); [by injection Hf as <- _ _|]. bind_split Hf o Ho. destruct o; [by injection Hf as <- _ _|].
  destruct (negb _); [by injection Hf as <- _ _|]. bind_split Hf er Her. destruct er; [by injection Hf as <- _ _|]. bind_split Hf l Hl.
  bind_split Hf x Hx. destruct x as [bits b]. by injection Hf as <- _ _.
Qed.

Lemma addPart_typed cs h part cs' a err : addProposalBlockPart cs h part = Ret (cs', a, err) → typed cs → typed cs'.
Proof using.
  unfold addProposalBlockPart. intros Hf Ht. destruct (negb _); [by injection Hf as <- _ _|]. destruct part as [part|]; [|done].
  destruct (cs_ProposalBlockParts cs) as [i|] eqn:Ei; [|by injection Hf as <- _ _]. destruct (parts cs (Some i)) as [ps|] eqn:Eps; [|by injection Hf as <- _ _].
  bind_split Hf x Hx. destruct x as [[r added] err1]. cbn in Eps.
  assert (∃ ps', default ps r = ps' ∧ ps_total ps' = ps_total ps ∧ ps_hash ps' = ps_hash ps) as (ps' & Hps' & Htot & Hhash).
  { destruct r as [ps'|]; [exists ps'; split; [done|by eapply AddPart_header]|by exists ps]. }
  rewrite Hps' in Hf. assert (typed (with_heap cs (<[i:=ps']> (cs_heap cs)))) as Ht1.
  { destruct Ht. unfold typed. cbn. split; unfold block_at, held_at in *; rewrite ?length_insert; try done. intros q Hq.
    apply list_elem_of_lookup_1 in Hq as [k Hk]. apply list_lookup_insert_Some in Hk as [(-> & <- & _)|[_ Hk] ].
    - rewrite Htot, Hhash. apply ty_heap0. by eapply list_elem_of_lookup_2.
    - apply ty_heap0. by eapply list_elem_of_lookup_2. }
  destruct err1; [by injection Hf as <- _ _|]. destruct (_ <? _); [by injection Hf as <- _ _|]. destruct (_ && _); [|by injection Hf as <- _ _].
  bind_split Hf rd Hrd. bind_split Hf bz Hbz. destruct (Block_Unmarshal bz) as [b|] eqn:Eb; [|by injection Hf as <- _ _].
  injection Hf as <- _ _. apply typed_emit; [by left|]. pose proof (ty_pointer _ _ _ _ _ _ _ _ _ Ht1 i Ei) as Hi. destruct Ht1. unfold typed. cbn in *.
  split; try done. intros y [= <-]. by exists i.
Qed.

Lemma handleCompleteProposal_typed e cs h cs' :
  env_ok chain VS e → inv cs → typed cs → handleCompleteProposal cfg privValidator e cs h = Ret cs' → typed cs'.
Proof using.
  intros He Hi Ht Hf. unfold handleCompleteProposal in Hf. bind_split Hf vs Hvs. destruct (TwoThirdsMajority vs) as [id ok] eqn:Hm.
  set (cs1 := if _ && _ && _ && _ then _ else _) in Hf.
  assert (typed cs1) as Ht1.
  { unfold cs1. destruct (_ && _ && _ && _) eqn:Eb; [|done]. rewrite !andb_true_iff in Eb. destruct Eb as [[[-> _] _] Eb].
    pose proof (majority_good _ _ _ _ _ _ (prevotes_polka _ _ _ _ _ _ _ Hi Hvs Hm)) as Hid.
    destruct Ht. unfold typed. cbn. split; try done. by apply (named_block_at _ _ _ id). }
  assert (inv cs1) as Hi1 by (apply (silent_good _ _ _ cs); [unfold cs1; destruct (_ && _ && _ && _); [by apply silent_same|done]|done]).
  bind_split Hf c Hc. destruct c.
  - bind_split Hf cs2 Hp. pose proof (enterPrevote_typed _ _ _ _ _ He Hi1 Ht1 ltac:(done) Hp) as Ht2.
    eapply enterPrevote_good in Hp as ([Hi2 _] & Hh2 & Hr2); [|exact Hi1|done].
    destruct ok; [|by injection Hf as <-]. eapply enterPrecommit_typed; [exact Hi2|exact Ht2| |exact Hf]. done.
  - destruct (_ =? _); [by eapply tryFinalizeCommit_typed|by injection Hf as <-].
Qed.

(** Besides [event_ok]: proposals have passed [ValidateBasic], own or not. *)
Definition proposal_ok (p : Proposal) : Prop :=
  Proposal_ValidateBasic p = None ∧ is_uint32 (Total (BlockParts (prop_BlockID p))).

Lemma proposal_header p : proposal_ok p → complete_header (BlockParts (prop_BlockID p)).
Proof using.
  intros [Hv Hu]. unfold Proposal_ValidateBasic in Hv. unfold complete_header, is_uint32 in *.
  repeat match type of Hv with (if ?b then _ else _) = _ => destruct b eqn:?; [done|] end.
  match goal with Hc : negb (BlockID_IsComplete _) = false |- _ => apply negb_false_iff in Hc; unfold BlockID_IsComplete in Hc;
    apply andb_true_iff in Hc as [[_ Ht%Z.ltb_lt]%andb_true_iff Hp%Z.eqb_eq] end. split; [lia|done].
Qed.

Lemma handleMsg_typed e cs m peer cs' :
  env_ok chain VS e → inv cs → typed cs →
  match m with VoteMessage v => P v ∧ vote_ok chain v | ProposalMessage p => proposal_ok p | _ => True end →
  handleMsg cfg privValidator e cs m peer = Ret cs' → typed cs'.
Proof using.
  intros He Hi Ht Hm Hf. destruct m as [p|h r part|v]; simpl in Hf.
  - bind_split Hf x Hx. destruct x as [cs1 err]. injection Hf as <-. apply setProposal_typed in Hx; [done|by apply proposal_header|done].
  - bind_split Hf x Hx. destruct x as [[cs1 a] err]. pose proof (addPart_typed _ _ _ _ _ _ Hx Ht) as Ht1.
    apply addPart_silent in Hx. apply (silent_good chain VS P) in Hx as [Hi1 _]; [|done].
    destruct a; [|by injection Hf as <-]. destruct (parts _ _); [|done].
    destruct (IsComplete _); [by eapply handleCompleteProposal_typed|by injection Hf as <-].
  - bind_split Hf x Hx. destruct x as [[cs1 a] err]. injection Hf as <-. destruct Hm. by eapply tryAddVote_typed.
Qed.

Lemma handleTimeout_typed e cs ti cs' :
  env_ok chain VS e → inv cs → typed cs → ti ∈ timeouts (cs_out cs) → handleTimeout cfg privValidator e cs ti = Ret cs' → typed cs'.
Proof using.
  intros He Hi Ht Hti Hf. destruct (ci_timeouts _ _ _ _ _ _ _ _ _ _ _ _ _ _ Hi ti Hti) as [_ Hr].
  assert (cs_Height cs = ti_Height ti → ti_Round ti ≤ cs_Round cs) as Hr' by (intros; by apply Hr). unfold handleTimeout in Hf.
  assert (∀ o, quiet o = true → inv (emit cs o) ∧ typed (emit cs o)) as Hq.
  { intros o Ho. split; [by apply good_quiet|by apply typed_emit; [left|] ]. }
  destruct (_ || _ || _); [by injection Hf as <-|]. destruct (_ =? _); [by eapply enterNewRound_typed|].
  destruct (_ =? _); [eapply enterPropose_typed; [exact He|exact Hi|done| |exact Hf]; done|].
  destruct (_ =? _); [destruct (Hq (Publish EventTimeoutPropose) eq_refl) as [Hi1 Ht1]; eapply enterPrevote_typed; [exact He|exact Hi1|done| |exact Hf]; done|].
  destruct (Hq (Publish EventTimeoutWait) eq_refl) as [Hi1 Ht1].
  destruct (_ =? _); [eapply enterPrecommit_typed; [exact Hi1|done| |exact Hf]; done|].
  destruct (_ =? _); [|done]. bind_split Hf cs1 Hp. pose proof (enterPrecommit_typed _ _ _ _ _ Hi1 Ht1 Hr' Hp) as Ht2.
  eapply enterPrecommit_good in Hp as [[Hi2 _] _]; [|exact Hi1|done]. by eapply enterNewRound_typed.
Qed.

Lemma handleTxsAvailable_typed e cs cs' : env_ok chain VS e → inv cs → typed cs → handleTxsAvailable cfg privValidator e cs = Ret cs' → typed cs'.
Proof using.
  intros He Hi Ht Hf. unfold handleTxsAvailable in Hf. pose proof (inv_round _ Hi) as Hr.
  destruct (negb _) eqn:E0; [by injection Hf as <-|]. apply negb_false_iff, Z.eqb_eq in E0. destruct (_ =? _).
  - destruct (needProofBlock _ _ _); injection Hf as <-; [done|]. apply typed_emit; [right; left; by eexists|done].
  - destruct (_ =? _); [|by injection Hf as <-]. eapply enterPropose_typed; [exact He|exact Hi|done| |exact Hf]. lia.
Qed.

Definition event_typed (ev : Event) : Prop :=
  match ev with PeerMessage (ProposalMessage p) _ | InternalMessage (ProposalMessage p) => proposal_ok p | _ => True end.

Lemma cs_step_typed e cs ev cs' :
  env_ok chain VS e → inv cs → typed cs → event_ok chain P cs ev → event_typed ev →
  cs_step cfg privValidator e cs ev = Ret cs' → typed cs'.
Proof using.
  intros He Hi Ht Hev Hty Hf. destruct ev as [m peer|m|ti| |h r ty peer id]; simpl in Hf.
  - eapply handleMsg_typed; [done|done|done| |exact Hf]. by destruct m.
  - destruct (env_wal e); [|done]. eapply handleMsg_typed; [done|done|done| |exact Hf]. by destruct m.
  - by eapply handleTimeout_typed.
  - by eapply handleTxsAvailable_typed.
  - destruct (negb _); [by injection Hf as <-|]. bind_split Hf hvs Hhvs. bind_split Hf x Hx. destruct x as [hvs1 err].
    by injection Hf as <-.
Qed.
End typed.
