(* ===== verification/ConsensusNetwork.v ===== *)
(** * The consensus state machine: agreement

    Correct nodes run the machine of [ConsensusState] and exchange messages
    through a network that may delay, drop, reorder and repeat them; the
    other validators send whatever they like, but cannot forge the
    signatures of the correct ones.  While the faulty validators of a height
    hold less than a third of its power, all correct nodes that execute a
    block of that height execute the same one. *)
From S2P Require Import Prelude.
From S2P Require Import BitArray.
From S2P Require Import SafeMath.
From S2P Require Import Vote.
From S2P Require Import Validator.
From S2P Require Import SignBytes.
From S2P Require Import ValidatorSet.
From S2P Require Import ValidatorSetPriority.
From S2P Require Import ValidatorSetUpdate.
From S2P Require Import VoteSet.
From S2P Require Import Quorum.
From S2P Require Import VoteSetInv.
From S2P Require Import VoteSetSafety.
From S2P Require Import HeightVoteSet.
From S2P Require Import PartSet.
From S2P Require Import VoteOrigin.
From S2P Require Import ConsensusState.
From S2P Require Import ConsensusInv.
From S2P Require Import ConsensusSteps.
From S2P Require Import ConsensusTurns.
From S2P Require Import ConsensusTyped.

(** ** The invariant, for more votes *)

Section mono.
Context `{StdTime, Crypto, BlockOps}.
Variable chain : bytes.
Variable VS : Z → list Validator.
Variables P Q : Vote → Prop.
Hypothesis HPQ : ∀ v, P v → Q v.

Lemma polka_mono h r b : polka chain VS P h r b → polka chain VS Q h r b.
Proof using HPQ. by apply majority_mono. Qed.

Lemma unlocked_mono v : unlocked chain VS P v → unlocked chain VS Q v.
Proof using HPQ. intros (r & b & Hr & Hp & Hb). exists r, b. split; [done|]. split; [by apply polka_mono|done]. Qed.

Lemma inv_mono cs : inv chain VS P cs → inv chain VS Q cs.
Proof using HPQ.
  intros []. split; try done.
  - destruct ci_votes as (hvs & Hv & Hh & Hr). exists hvs. split; [done|]. split; [by eapply height_votes_mono|done].
  - intros v Hv Hb. by apply polka_mono, ci_polka.
  - intros v Hv Hb Hh. destruct (ci_locked v Hv Hb Hh) as [?|?]; [by left|right; by apply unlocked_mono].
  - intros v w Hv Hw Hb Ht Hh Hr. destruct (ci_prevotes v w Hv Hw Hb Ht Hh Hr) as [?|?]; [by left|right; by apply unlocked_mono].
  - intros h0 id b Ha. destruct (ci_applied h0 id b Ha) as (Hh & r & i & Hm & Hr). split; [done|]. exists r, i.
    split; [by eapply majority_mono|done].
Qed.
End mono.

(** ** A node starts *)

Section start.
Context `{StdTime, Crypto, BlockOps}.
Variable cfg : ConsensusConfig.
Variable chain : bytes.
Variable VS : Z → list Validator.
Variable P : Vote → Prop.

Lemma typed_blank lc : len chain ≤ MaxInt64 → typed chain (with_LastCommit blank lc).
Proof using.
  intros Hc. unfold typed. cbn. split; try done; try by intros ? ?%not_elem_of_nil.
Qed.

Lemma cinv_start h st hvs :
  0 < h → state_ok chain VS st → next_height st = h → height_votes P chain h (VS h) hvs → hvs_round hvs = 0 →
  cinv chain VS P h 0 RoundStepNewHeight (-1) None (Some hvs) (-1) st [] [] [].
Proof using.
  intros Hh Hst Hn Hhv Hr. split; try done; try by intros ? ?%not_elem_of_nil.
  - exists hvs. split_and!; [done..|lia].
  - lia.
  - constructor.
  - by intros v w ?%not_elem_of_nil.
  - by intros h0 id b ?%not_elem_of_nil.
Qed.

Lemma updateToState_start e lc st cs' :
  state_ok chain VS st → updateToState cfg e (with_LastCommit blank lc) st = Ret cs' → inv chain VS P cs' ∧ sent_votes (cs_out cs') = [].
Proof using.
  intros Hst Hf. unfold updateToState in Hf. cbn [cs_Height cs_state with_LastCommit blank sm_IsEmpty emptyState] in Hf.
  change (sm_IsEmpty emptyState) with true in Hf. rewrite andb_false_r in Hf. cbn [andb negb] in Hf.
  bind_split Hf cs1 Hlc. assert (∃ lc', cs1 = with_LastCommit blank lc') as [lc' ->].
  { destruct (_ =? 0); [injection Hlc as <-; by exists None|]. cbn in Hlc. destruct lc; [|done]. injection Hlc as <-. by eexists. }
  bind_split Hf ext Hext. destruct (so_vals _ _ _ Hst) as (vals & Hv & Hvs & Hk & HVS). rewrite Hv in Hf. bind_split Hf hvs Hnew. injection Hf as <-.
  pose proof (so_height _ _ _ Hst) as Hrng. pose proof (so_initial _ _ _ Hst) as Hini. rewrite int64_id in * by ulia.
  rewrite (so_chain _ _ _ Hst) in Hnew. change (if _ =? 1 then _ else _) with (next_height st) in *.
  apply new_height_votes with (P := P) in Hnew as [Hhv Hr0]; [|done..]. rewrite HVS in Hhv. split; [|done].
  apply newStep_good. unfold inv. cbn. apply cinv_start; try done. unfold next_height. destruct (Z.eqb_spec (sm_LastBlockHeight st + 1) 1); lia.
Qed.

Lemma NewState_start pv e st cs :
  len chain ≤ MaxInt64 → state_ok chain VS st → NewState cfg pv e st = Ret cs →
  inv chain VS P cs ∧ typed chain cs ∧ sent_votes (cs_out cs) = [].
Proof using.
  intros Hc Hst Hf. unfold NewState in Hf. bind_split Hf cs0 H0'. assert (∃ lc, cs0 = with_LastCommit blank lc) as [lc ->].
  { assert (∀ c, reconstructSeenCommit e blank st = Ret c → ∃ lc, c = with_LastCommit blank lc) as Hseen.
    { unfold reconstructSeenCommit. intros c Hc'. bind_split Hc' vs Hvs. destruct vs; [|done]. injection Hc' as <-. by eexists. }
    destruct (0 <? _); [|injection H0' as <-; by exists None]. destruct (negb _); [by apply Hseen|]. unfold reconstructLastCommit in H0'.
    bind_split H0' ext Hx. destruct (negb ext); [by apply Hseen|]. bind_split H0' vs Hvs. destruct vs; [|done]. injection H0' as <-. by eexists. }
  bind_split Hf cs1 Hup. injection Hf as <-. pose proof (updateToState_typed _ _ _ _ _ _ Hup (typed_blank lc Hc)) as Ht.
  destruct (updateToState_start _ _ _ _ Hst Hup) as [Hi Hs]. pose proof (updatePubKey_silent pv e cs1) as Hsil.
  apply (silent_good chain VS P) in Hsil as [Hi1 _]; [|done].
  assert (cs_out (updatePrivValidatorPubKey pv e cs1) = cs_out cs1 ∧ typed chain (updatePrivValidatorPubKey pv e cs1)) as [Ho Ht1].
  { unfold updatePrivValidatorPubKey. destruct pv; [|done]. by destruct (env_pubkey e). }
  split; [by apply scheduleRound0_good|]. split.
  - apply typed_emit; [right; left; by eexists|done].
  - unfold scheduleRound0, scheduleTimeout, sent_votes. cbn. rewrite omap_app, Ho. change (omap _ (cs_out cs1)) with (sent_votes (cs_out cs1)). by rewrite Hs.
Qed.
End start.

(** ** One node, whatever it receives *)

Section node.
Context `{StdTime, Crypto, BlockOps}.
Variable cfg : ConsensusConfig.
Variable privValidator : bool.
Variable chain : bytes.
Variable VS : Z → list Validator.

Definition received : list (Env * Event) → list Vote :=
  omap (λ x, match x.2 with PeerMessage (VoteMessage v) _ | InternalMessage (VoteMessage v) => Some v | _ => None end).

(** Messages have passed the checks of the reactor, own votes are among
    those sent, and timeouts have been scheduled. *)
Definition node_event_ok (cs : State) (e : Env) (ev : Event) : Prop :=
  env_ok chain VS e ∧
  match ev with
  | PeerMessage (VoteMessage v) _ => vote_ok chain v
  | InternalMessage (VoteMessage v) => v ∈ sent_votes (cs_out cs) ∧ ∃ bz, VoteSignBytes chain v = Ret bz
  | PeerMessage (ProposalMessage p) _ | InternalMessage (ProposalMessage p) => proposal_ok p
  | Timeout ti => ti ∈ timeouts (cs_out cs)
  | _ => True
  end.

Fixpoint node_ok (cs : State) (evs : list (Env * Event)) : Prop :=
  match evs with
  | [] => True
  | (e, ev) :: evs => node_event_ok cs e ev ∧ ∀ cs', cs_step cfg privValidator e cs ev = Ret cs' → node_ok cs' evs
  end.

Lemma node_event P cs e ev evs :
  typed chain cs → (∀ v, v ∈ received ((e, ev) :: evs) → P v) → node_event_ok cs e ev →
  env_ok chain VS e ∧ event_ok chain P cs ev ∧ event_typed ev.
Proof using.
  intros Ht HP [He Hev]. split; [done|]. destruct ev as [[p|h r part|v] peer|[p|h r part|v]|ti| |h r ty peer id]; cbn in *; try done.
  - split; [split; [|done]|done]. apply HP. by left.
  - destruct Hev as (Hs & Hbz). destruct (ty_sent _ _ _ _ _ _ _ _ _ _ Ht v Hs) as (Hr & Hid & _ & _ & Hrd).
    split; [split; [apply HP; by left|done]|done].
Qed.

Lemma node_run_inv P evs cs cs' :
  inv chain VS P cs → typed chain cs → (∀ v, v ∈ received evs → P v) → node_ok cs evs → cs_run cfg privValidator cs evs = Ret cs' →
  inv chain VS P cs' ∧ typed chain cs' ∧ kept cs cs'.
Proof using.
  revert cs. induction evs as [|[e ev] evs IH]; intros cs Hi Ht HP Hok Hf; simpl in Hf.
  { injection Hf as <-. split_and!; [done..|apply kept_refl]. }
  destruct Hok as [Hev Hok]. bind_split Hf cs1 Hs. destruct (node_event P _ _ _ _ Ht HP Hev) as (He & Hok1 & Hty).
  pose proof (cs_step_typed _ _ _ _ _ _ _ _ _ He Hi Ht Hok1 Hty Hs) as Ht1. destruct (cs_step_good _ _ _ _ _ _ _ _ _ He Hi Hok1 Hs) as [Hi1 Hk1].
  destruct (IH cs1 Hi1 Ht1) as (Hi' & Ht' & Hk'); [|by apply Hok|done|].
  - intros v Hv. apply HP. unfold received in *. simpl. destruct ev as [[]|[]| | |]; simpl; try done; by right.
  - split_and!; [done..|by eapply kept_trans].
Qed.
End node.

(** ** The network *)

Lemma power_where_exceeds vals p q :
  Forall (λ v, 0 < VotingPower v) vals → power_where vals q < power_where vals p →
  ∃ i, (i < length vals)%nat ∧ p i = true ∧ q i = false.
Proof.
  revert p q. induction vals as [|v vals IH]; intros p q Hpos Hlt; [exfalso; exact (Z.lt_irrefl 0 Hlt)|].
  apply Forall_cons in Hpos as [Hv Hpos]. rewrite !power_where_cons in Hlt.
  destruct (p 0%nat) eqn:Ep, (q 0%nat) eqn:Eq; [|exists 0%nat; simpl; split; [lia|done]| |];
    (destruct (IH (λ i, p (S i)) (λ i, q (S i)) Hpos) as (i & Hi & Hp); [lia|]; exists (S i); simpl; split; [lia|done]).
Qed.

(** A correct node: its configuration, whether it is a validator, and its
    key. *)
Record Node := mkNode { nd_config : ConsensusConfig; nd_priv : bool; nd_key : PubKey }.

Section network.
Context `{StdTimeLaws, Crypto, BlockOps}.
Variable chain : bytes.
Variable VS : Z → list Validator.
Variable nodes : list Node.

(** The states of the correct nodes.  A handler that panics stops its node:
    what it did before is not sent. *)
Definition net_step (net : list State) (t : nat * Env * Event) : list State :=
  let '(n, e, ev) := t in
  match nodes !! n, net !! n with
  | Some nd, Some cs => match cs_step (nd_config nd) (nd_priv nd) e cs ev with Ret cs' => <[n:=cs']> net | Panic _ => net end
  | _, _ => net
  end.
Definition net_run (net : list State) (tr : list (nat * Env * Event)) : list State := fold_left net_step tr net.

Definition net_start (net : list State) : Prop :=
  Forall2 (λ nd cs, ∃ e st, state_ok chain VS st ∧ NewState (nd_config nd) (nd_priv nd) e st = Ret cs) nodes net.

(** No vote carries a signature of a correct node that did not sign it. *)
Definition authentic (net : list State) (v : Vote) : Prop :=
  ∀ m nd cs bz, nodes !! m = Some nd → net !! m = Some cs → VoteSignBytes chain v = Ret bz →
  verify_signature (nd_key nd) bz (vote_Signature v) = true →
  ∃ w, w ∈ sent_votes (cs_out cs) ∧ VoteSignBytes chain w = Ret bz.

(** The votes that can be on the network. *)
Definition on_network (net : list State) (v : Vote) : Prop := vote_ranges chain v ∧ authentic net v.

(** What may happen next. *)
Definition net_event_ok (net : list State) (t : nat * Env * Event) : Prop :=
  let '(n, e, ev) := t in
  env_ok chain VS e ∧
  match ev with
  | PeerMessage (VoteMessage v) _ => vote_ok chain v ∧ on_network net v
  | InternalMessage (VoteMessage v) => (∃ bz, VoteSignBytes chain v = Ret bz) ∧ authentic net v ∧
      ∀ cs, net !! n = Some cs → v ∈ sent_votes (cs_out cs)
  | PeerMessage (ProposalMessage p) _ | InternalMessage (ProposalMessage p) => proposal_ok p
  | Timeout ti => ∀ cs, net !! n = Some cs → ti ∈ timeouts (cs_out cs)
  | _ => True
  end.

Fixpoint net_ok (net : list State) (tr : list (nat * Env * Event)) : Prop :=
  match tr with
  | [] => True
  | t :: tr => net_event_ok net t ∧ net_ok (net_step net t) tr
  end.

(** The power of the validators of a height that are not correct nodes. *)
Definition is_correct (pk : option PubKey) : bool := existsb (λ nd, bool_decide (Some (nd_key nd) = pk)) nodes.
Definition faulty (vals : list Validator) (i : nat) : bool :=
  match vals !! i with Some val => negb (is_correct (PubKey_ val)) | None => true end.
Definition faulty_power (h : Z) : Z := power_where (VS h) (faulty (VS h)).

(** ** One step of the network *)

Definition net_inv (net : list State) : Prop :=
  ∀ n cs, net !! n = Some cs → inv chain VS (on_network net) cs ∧ typed chain cs.
Definition net_kept (net net' : list State) : Prop :=
  ∀ n cs, net !! n = Some cs → ∃ cs', net' !! n = Some cs' ∧ kept cs cs'.

Lemma kept_sent cs cs' v : kept cs cs' → v ∈ sent_votes (cs_out cs) → v ∈ sent_votes (cs_out cs').
Proof using. intros [_ (l & -> & _)] Hv. unfold sent_votes. rewrite omap_app. apply elem_of_app. by left. Qed.

Lemma net_kept_refl net : net_kept net net.
Proof using. intros n cs Hn. exists cs. split; [done|apply kept_refl]. Qed.

Lemma net_kept_trans net1 net2 net3 : net_kept net1 net2 → net_kept net2 net3 → net_kept net1 net3.
Proof using.
  intros H12 H23 n cs Hn. destruct (H12 n cs Hn) as (cs2 & Hn2 & Hk2). destruct (H23 n cs2 Hn2) as (cs3 & Hn3 & Hk3).
  exists cs3. split; [done|by eapply kept_trans].
Qed.

Lemma on_network_kept net net' v : length net = length net' → net_kept net net' → on_network net v → on_network net' v.
Proof using.
  intros Hl Hk [Hr Ha]. split; [done|]. intros m nd cs' bz Hnd Hcs' Hbz Hver.
  destruct (lookup_lt_is_Some_2 net m) as [cs Hcs]; [rewrite Hl; by eapply lookup_lt_Some|].
  destruct (Hk m cs Hcs) as (cs1 & Hcs1 & Hk1). rewrite Hcs' in Hcs1. injection Hcs1 as <-.
  destruct (Ha m nd cs bz Hnd Hcs Hbz Hver) as (w & Hw & Hwb). exists w. split; [by eapply kept_sent|done].
Qed.

Lemma net_step_length net t : length (net_step net t) = length net.
Proof using.
  destruct t as [[n e] ev]. unfold net_step. destruct (nodes !! n); [|done]. destruct (net !! n); [|done].
  destruct (cs_step _ _ _ _ _); [by rewrite length_insert|done].
Qed.

Lemma net_run_length tr net : length (net_run net tr) = length net.
Proof using. revert net. induction tr as [|t tr IH]; intros net; [done|]. cbn. unfold net_run in IH. by rewrite IH, net_step_length. Qed.

(** The event of a network is one of the node's. *)
Lemma net_event net n e ev cs :
  net !! n = Some cs → typed chain cs → net_event_ok net (n, e, ev) →
  env_ok chain VS e ∧ event_ok chain (on_network net) cs ev ∧ event_typed ev.
Proof using.
  intros Hn Ht [He Hev]. split; [done|]. destruct ev as [[p|h r part|v] peer|[p|h r part|v]|ti| |h r ty peer id]; cbn in *; try done.
  - by destruct Hev.
  - destruct Hev as (Hbz & Ha & Hs). specialize (Hs cs Hn). destruct (ty_sent _ _ _ _ _ _ _ _ _ _ Ht v Hs) as (Hr & Hid & _ & _ & Hrd).
    split; [|done]. by split.
  - split; [by apply Hev|done].
Qed.

Lemma net_step_inv net t :
  net_inv net → net_event_ok net t →
  net_kept net (net_step net t) ∧ ∀ n cs, net_step net t !! n = Some cs → inv chain VS (on_network net) cs ∧ typed chain cs.
Proof using.
  intros Hi Hev. destruct t as [[n e] ev]. unfold net_step. pose proof (net_kept_refl net) as Hrefl.
  destruct (nodes !! n) as [nd|]; [|done]. destruct (net !! n) as [cs|] eqn:En; [|done].
  destruct (cs_step _ _ _ _ _) as [cs'|] eqn:Es; [|done]. destruct (Hi n cs En) as [Hic Htc].
  destruct (net_event _ _ _ _ _ En Htc Hev) as (He & Hok & Hty).
  pose proof (cs_step_typed _ _ _ _ _ _ _ _ _ He Hic Htc Hok Hty Es) as Ht'. destruct (cs_step_good _ _ _ _ _ _ _ _ _ He Hic Hok Es) as [Hi' Hk'].
  assert ((n < length net)%nat) as Hl by (by eapply lookup_lt_Some). split.
  - intros m x Hm. destruct (decide (n = m)) as [<-|Hne].
    + rewrite En in Hm. injection Hm as <-. exists cs'. split; [by apply list_lookup_insert_eq|done].
    + exists x. split; [by rewrite list_lookup_insert_ne|apply kept_refl].
  - intros m x Hm. apply list_lookup_insert_Some in Hm as [(<- & <- & _)|[_ Hm] ]; [done|exact (Hi m x Hm)].
Qed.

Lemma net_step_keeps net t : net_inv net → net_event_ok net t → net_inv (net_step net t).
Proof using.
  intros Hi Hev. destruct (net_step_inv _ _ Hi Hev) as [Hk Hn]. intros n cs Hcs. destruct (Hn n cs Hcs) as [Hic Htc]. split; [|done].
  eapply inv_mono; [|exact Hic]. intros v. apply on_network_kept; [by rewrite net_step_length|done].
Qed.

Lemma net_run_inv tr net : net_inv net → net_ok net tr → net_inv (net_run net tr) ∧ net_kept net (net_run net tr).
Proof using.
  revert net. induction tr as [|t tr IH]; intros net Hi Hok; [split; [done|apply net_kept_refl]|].
  destruct Hok as [Hev Hok]. destruct (IH _ (net_step_keeps _ _ Hi Hev) Hok) as [Hi' Hk']. split; [done|].
  eapply net_kept_trans; [by apply net_step_inv|done].
Qed.

Lemma net_start_inv net : len chain ≤ MaxInt64 → net_start net → net_inv net ∧ ∀ n cs, net !! n = Some cs → sent_votes (cs_out cs) = [].
Proof using.
  intros Hc Hs. assert (∀ n cs, net !! n = Some cs → inv chain VS (on_network net) cs ∧ typed chain cs ∧ sent_votes (cs_out cs) = []) as Hall.
  { intros n cs Hn. destruct (Forall2_lookup_r _ _ _ _ _ Hs Hn) as (nd & _ & e & st & Hst & Hnew). by eapply NewState_start. }
  split; intros n cs Hn; by destruct (Hall n cs Hn) as (? & ? & ?).
Qed.

(** ** Quorums and correct nodes *)

Definition voted (cs : State) (ty h r : Z) (b : BlockID) : Prop :=
  ∃ w, w ∈ sent_votes (cs_out cs) ∧ vote_Type w = ty ∧ vote_Height w = h ∧ vote_Round w = r ∧ vote_BlockID w = b.

Lemma check_signature_verifies vs v pk :
  check_signature vs v (Some pk) = Ret None →
  ∃ bz, VoteSignBytes (chainID vs) v = Ret bz ∧ verify_signature pk bz (vote_Signature v) = true.
Proof using.
  intros Hc. assert (Vote_Verify v (chainID vs) (Some pk) = Ret None) as Hv.
  { unfold check_signature, VerifyVoteAndExtension in Hc. destruct (extensionsEnabled vs).
    - bind_split Hc err He. bind_split He err' He'. destruct err' as [x|]; [by injection He as <-|]. exact He'.
    - bind_split Hc err He. destruct err; [done|]. exact He. }
  unfold Vote_Verify in Hv. destruct (negb _); [done|]. bind_split Hv bz Hbz. exists bz. split; [done|]. by destruct (verify_signature _ _ _).
Qed.

(** The correct nodes of a majority have sent the votes counted for them. *)
Lemma majority_voters net ty h r b :
  net_inv net → majority (on_network net) chain (VS h) ty h r b →
  ∃ p, Forall (λ v, 0 < VotingPower v) (VS h) ∧ 2 * power_sum (VS h) < 3 * power_where (VS h) p ∧
    ∀ i val m nd cs, p i = true → VS h !! i = Some val → PubKey_ val = Some (nd_key nd) → nodes !! m = Some nd → net !! m = Some cs →
      voted cs ty h r b.
Proof using H0.
  intros Hi (vs & Hok & Hfr & Hc & Hh & Hr & Hty & Hvs & Hm). destruct (maj23_power vs b Hok Hm) as [Hg Hp]. rewrite Hvs in Hp.
  exists (votes_for vs b). split; [rewrite <-Hvs; apply (ok_vals _ Hok)|]. split; [done|]. intros i val m nd cs Hv Hval Hpk Hnd Hcs.
  unfold votes_for in Hv. destruct (votesByBlock vs !! BlockID_Key b) as [bv|] eqn:Eb; [|done]. apply has_true in Hv as [v Hv].
  destruct (bo_votes _ _ _ (co_blocks _ _ _ _ (ok_core _ Hok) _ _ Eb) i v Hv) as [[_ Gh Gr Gt Gid (val' & Hval' & _ & Hsig)] Hk].
  apply BlockID_Key_inj in Hk; [|done..]. rewrite Hvs, Hval in Hval'. injection Hval' as <-. rewrite Hpk in Hsig.
  apply check_signature_verifies in Hsig as (bz & Hbz & Hver). rewrite Hc in Hbz. destruct (Hfr _ _ _ _ Eb Hv) as [Hrng Ha].
  destruct (Ha m nd cs bz Hnd Hcs Hbz Hver) as (w & Hw & Hwb). destruct (Hi m cs Hcs) as [_ Ht].
  destruct (ty_sent _ _ _ _ _ _ _ _ _ _ Ht w Hw) as (Hwr & _). destruct (VoteSignBytes_determine _ _ _ _ _ Hrng Hwr Hbz Hwb) as (_ & H1' & H2' & H3' & H4' & _).
  exists w. split; [done|]. rewrite <-H1', <-H2', <-H3', <-H4'. by split_and!; congruence.
Qed.

Lemma common_voter net1 net2 h ty1 r1 b1 ty2 r2 b2 :
  length net1 = length nodes → length net2 = length nodes → net_inv net1 → net_inv net2 → 3 * faulty_power h < power_sum (VS h) →
  majority (on_network net1) chain (VS h) ty1 h r1 b1 → majority (on_network net2) chain (VS h) ty2 h r2 b2 →
  ∃ m cs1 cs2, net1 !! m = Some cs1 ∧ net2 !! m = Some cs2 ∧ voted cs1 ty1 h r1 b1 ∧ voted cs2 ty2 h r2 b2.
Proof using H0.
  intros Hl1 Hl2 Hi1 Hi2 Hf Hm1 Hm2. destruct (majority_voters _ _ _ _ _ Hi1 Hm1) as (p & Hpos & Hp & Hsp).
  destruct (majority_voters _ _ _ _ _ Hi2 Hm2) as (q & _ & Hq & Hsq). pose proof (quorum_intersection _ _ _ (positive_nonneg _ Hpos) Hp Hq) as Hpq.
  destruct (power_where_exceeds (VS h) (λ i, p i && q i) (faulty (VS h)) Hpos) as (i & Hil & [Hpi Hqi]%andb_true_iff & Hc).
  { unfold faulty_power in Hf. lia. }
  apply lookup_lt_is_Some_2 in Hil as [val Hval]. unfold faulty in Hc. rewrite Hval in Hc. apply negb_false_iff, existsb_exists in Hc as (nd & Hin & Hk).
  apply bool_decide_eq_true in Hk. apply list_elem_of_In, list_elem_of_lookup_1 in Hin as [m Hnd].
  pose proof (lookup_lt_Some _ _ _ Hnd) as Hml. destruct (lookup_lt_is_Some_2 net1 m) as [cs1 Hcs1]; [lia|].
  destruct (lookup_lt_is_Some_2 net2 m) as [cs2 Hcs2]; [lia|]. exists m, cs1, cs2. split_and!; [done|done|by eapply Hsp|by eapply Hsq].
Qed.

(** ** No polka for another block after a majority of precommits *)

(** In any state [net1] that leads to [net2], nobody can hold a polka of a
    round after [r] for anything but [b]. *)
Definition no_other_polka (net : list State) (h r : Z) (b : BlockID) : Prop :=
  ∀ r' b', r < r' → polka chain VS (on_network net) h r' b' → BlockHash b' = BlockHash b.

(** A vote of a later round comes after one of an earlier round. *)
Lemma voted_before cs cs' P h r r' ty ty' b b' :
  inv chain VS P cs → kept cs cs' → voted cs' ty h r b → voted cs ty' h r' b' → r < r' → voted cs ty h r b.
Proof using.
  intros Hi [_ (l & Hl & Hkept)] (v & Hv & Ht & Hh & Hr & Hb) (w & Hw & _ & Hwh & Hwr & _) Hlt. rewrite Hl in Hv.
  unfold sent_votes in Hv. rewrite omap_app in Hv. apply elem_of_app in Hv as [Hv|Hv]; [by exists v|]. exfalso.
  apply Hkept in Hv. destruct (ci_sent _ _ _ _ _ _ _ _ _ _ _ _ _ _ Hi w Hw) as (_ & Hle & Hrd). lia.
Qed.

Lemma step_no_other_polka net t tr h r b :
  length net = length nodes → net_inv net → net_ok net (t :: tr) → 3 * faulty_power h < power_sum (VS h) → BlockHash b ≠ [] →
  majority (on_network (net_run net (t :: tr))) chain (VS h) PrecommitType h r b →
  no_other_polka net h r b → no_other_polka (net_step net t) h r b.
Proof using H0.
  intros Hl Hi [Hev Hok] Hf Hne Hmaj Hno r' b' Hlt Hp. pose proof (net_step_keeps _ _ Hi Hev) as Hi1. destruct (net_step_inv _ _ Hi Hev) as [_ Hstep].
  destruct (net_run_inv _ _ Hi1 Hok) as [Hi2 Hk2]. cbn [net_run fold_left] in Hmaj. change (fold_left net_step tr) with (λ n, net_run n tr) in Hmaj. cbv beta in Hmaj.
  assert (length (net_run (net_step net t) tr) = length nodes) as Hl2 by (by rewrite net_run_length, net_step_length).
  assert (length (net_step net t) = length nodes) as Hl1 by (by rewrite net_step_length).
  destruct (common_voter _ _ h _ _ _ _ _ _ Hl2 Hl1 Hi2 Hi1 Hf Hmaj Hp) as (m & cs2 & cs1 & Hcs2 & Hcs1 & Hv2 & Hv1).
  destruct (Hk2 m cs1 Hcs1) as (cs2' & Hcs2' & Hkept). rewrite Hcs2 in Hcs2'. injection Hcs2' as <-.
  destruct (Hstep m cs1 Hcs1) as [Hic _]. pose proof (voted_before _ _ _ _ _ _ _ _ _ _ Hic Hkept Hv2 Hv1 Hlt) as Hpre.
  destruct Hpre as (v & Hv & Hvt & Hvh & Hvr & Hvb), Hv1 as (w & Hw & Hwt & Hwh & Hwr & Hwb).
  destruct (ci_prevotes _ _ _ _ _ _ _ _ _ _ _ _ _ _ Hic v w Hv Hw) as [He|(r2 & b2 & Hr2 & Hp2 & Hb2)]; [split; [done|by rewrite Hvb]|done|congruence|lia|congruence|].
  exfalso. apply Hb2. rewrite Hvb, Hvh in *. apply (Hno r2 b2); [lia|done].
Qed.

Lemma run_no_other_polka tr net h r b :
  length net = length nodes → net_inv net → net_ok net tr → 3 * faulty_power h < power_sum (VS h) → BlockHash b ≠ [] →
  majority (on_network (net_run net tr)) chain (VS h) PrecommitType h r b →
  no_other_polka net h r b → no_other_polka (net_run net tr) h r b.
Proof using H0.
  revert net. induction tr as [|t tr IH]; intros net Hl Hi Hok Hf Hne Hmaj Hno; [done|].
  pose proof (step_no_other_polka _ _ _ _ _ _ Hl Hi Hok Hf Hne Hmaj Hno) as Hno1. destruct Hok as [Hev Hok].
  apply IH; try done; [by rewrite net_step_length|by apply net_step_keeps].
Qed.

Lemma slot_unique (l : list Vote) v w : NoDup (vote_slot <$> l) → v ∈ l → w ∈ l → vote_slot v = vote_slot w → v = w.
Proof using.
  intros Hd [i Hi]%list_elem_of_lookup_1 [j Hj]%list_elem_of_lookup_1 Hs.
  assert (i = j) as <-; [|congruence]. eapply NoDup_lookup; [exact Hd|by rewrite list_lookup_fmap, Hi|by rewrite list_lookup_fmap, Hj, Hs].
Qed.

Section run.
Variables (net : list State) (tr : list (nat * Env * Event)).
Hypothesis Hchain : len chain ≤ MaxInt64.
Hypothesis Hstart : net_start net.
Hypothesis Hok : net_ok net tr.

Lemma run_facts : length (net_run net tr) = length nodes ∧ length net = length nodes ∧ net_inv net ∧ net_inv (net_run net tr).
Proof using Hchain Hstart Hok.
  pose proof (Forall2_length _ _ _ Hstart) as Hl. rewrite net_run_length. destruct (net_start_inv _ Hchain Hstart) as [Hi _].
  split_and!; [done..|by apply net_run_inv].
Qed.

Lemma decided_no_other_polka h r b :
  3 * faulty_power h < power_sum (VS h) → BlockHash b ≠ [] →
  majority (on_network (net_run net tr)) chain (VS h) PrecommitType h r b → no_other_polka (net_run net tr) h r b.
Proof using Hchain Hstart Hok H0.
  intros Hf Hne Hmaj. destruct run_facts as (Hl' & Hl & Hi & Hi'). apply run_no_other_polka; try done.
  intros r' b' _ Hp. exfalso. destruct (common_voter _ _ h _ _ _ _ _ _ Hl Hl' Hi Hi' Hf Hp Hmaj) as (m & cs & _ & Hcs & _ & (w & Hw & _) & _).
  destruct (net_start_inv _ Hchain Hstart) as [_ Hs]. rewrite (Hs m cs Hcs) in Hw. by apply not_elem_of_nil in Hw.
Qed.

Lemma precommits_agree_le h r1 b1 r2 b2 :
  3 * faulty_power h < power_sum (VS h) → BlockHash b1 ≠ [] → BlockHash b2 ≠ [] → r1 ≤ r2 →
  majority (on_network (net_run net tr)) chain (VS h) PrecommitType h r1 b1 →
  majority (on_network (net_run net tr)) chain (VS h) PrecommitType h r2 b2 → BlockHash b1 = BlockHash b2.
Proof using Hchain Hstart Hok H0.
  intros Hf Hn1 Hn2 Hle Hm1 Hm2. destruct run_facts as (Hl' & Hl & Hi & Hi').
  destruct (common_voter _ _ h _ _ _ _ _ _ Hl' Hl' Hi' Hi' Hf Hm1 Hm2) as (m & cs & cs' & Hcs & Hcs' & (v & Hv & Hvt & Hvh & Hvr & Hvb) & (w & Hw & Hwt & Hwh & Hwr & Hwb)).
  rewrite Hcs in Hcs'. injection Hcs' as <-. destruct (Hi' m cs Hcs) as [Hic _]. destruct (decide (r1 = r2)) as [->|Hne].
  - assert (v = w) as ->; [|congruence]. eapply slot_unique; [apply (ci_once _ _ _ _ _ _ _ _ _ _ _ _ _ _ Hic)|done|done|]. unfold vote_slot. congruence.
  - symmetry. apply (decided_no_other_polka h r1 b1 Hf Hn1 Hm1 r2); [lia|]. rewrite <-Hwb, <-Hwh, <-Hwr.
    apply (ci_polka _ _ _ _ _ _ _ _ _ _ _ _ _ _ Hic w Hw). split; [done|by rewrite Hwb].
Qed.

Lemma precommits_agree h r1 b1 r2 b2 :
  3 * faulty_power h < power_sum (VS h) → BlockHash b1 ≠ [] → BlockHash b2 ≠ [] →
  majority (on_network (net_run net tr)) chain (VS h) PrecommitType h r1 b1 →
  majority (on_network (net_run net tr)) chain (VS h) PrecommitType h r2 b2 → BlockHash b1 = BlockHash b2.
Proof using Hchain Hstart Hok H0.
  intros. destruct (Z.le_ge_cases r1 r2); [by eapply precommits_agree_le|symmetry; by eapply precommits_agree_le].
Qed.
End run.


(** ** A node of the network is a node *)

Definition project (n : nat) (tr : list (nat * Env * Event)) : list (Env * Event) :=
  omap (λ t, if decide (t.1.1 = n) then Some (t.1.2, t.2) else None) tr.

Lemma net_step_other net n e ev m : m ≠ n → net_step net (n, e, ev) !! m = net !! m.
Proof using.
  intros Hne. unfold net_step. destruct (nodes !! n); [|done]. destruct (net !! n); [|done]. destruct (cs_step _ _ _ _ _); [|done].
  by rewrite list_lookup_insert_ne.
Qed.

Lemma net_node_ok tr net n nd cs :
  nodes !! n = Some nd → net !! n = Some cs → net_ok net tr → node_ok (nd_config nd) (nd_priv nd) chain VS cs (project n tr).
Proof using.
  revert net cs. induction tr as [|[[m e] ev] tr IH]; intros net cs Hnd Hcs Hok; [done|]. destruct Hok as [[He Hev] Hok].
  unfold project. cbn [omap list_omap fst snd]. destruct (decide (m = n)) as [->|Hne].
  - split.
    + split; [done|]. destruct ev as [[p|h r part|v] peer|[p|h r part|v]|ti| |h r ty peer id]; try done; [by destruct Hev| |by apply Hev].
      destruct Hev as (Hbz & _ & Hs). split; [by apply Hs|done].
    + intros cs' Hs. apply (IH (net_step net (n, e, ev))); [done| |done]. unfold net_step. rewrite Hnd, Hcs, Hs.
      apply list_lookup_insert_eq. by eapply lookup_lt_Some.
  - apply (IH (net_step net (m, e, ev))); [done| |done]. by rewrite net_step_other.
Qed.
End network.
