(* ===== verification/ConsensusExample.v ===== *)
(** * A concrete consensus network

    Two correct validators with three units of power each and a silent one
    with one unit decide a block.  The messages are those the nodes send;
    a checker makes sure that every event is one the network allows. *)
From S2P Require Import Prelude.
From S2P Require Import BitArray.
From S2P Require Import SafeMath.
From S2P Require Import Vote.
From S2P Require Import Validator.
From S2P Require Import SignBytes.
From S2P Require Import ValidatorSet.
From S2P Require Import ValidatorSetPriority.
From S2P Require Import ValidatorSetUpdate.
From S2P Require Import VoteSet.
From S2P Require Import VoteSetInv.
From S2P Require Import VoteSetSafety.
From S2P Require Import HeightVoteSet.
From S2P Require Import PartSet.
From S2P Require Import VoteOrigin.
From S2P Require Import ConsensusState.
From S2P Require Import ConsensusInv.
From S2P Require Import ConsensusTurns.
From S2P Require Import ConsensusTyped.
From S2P Require Import ConsensusNetwork.

(** ** A checker *)

Section checker.
Context `{StdTimeLaws, Crypto, BlockOps}.
Variable chain : bytes.
Variable VS : Z → list Validator.
Variable nodes : list Node.

Definition in_range (lo hi z : Z) : bool := (lo <=? z) && (z <=? hi).
Definition sign_bytes (v : Vote) : option bytes := match VoteSignBytes chain v with Ret bz => Some bz | Panic _ => None end.

Definition vote_okb (v : Vote) : bool :=
  (bool_decide (vote_BlockID v = nilBlockID) || BlockID_IsComplete (vote_BlockID v)) &&
  in_range 0 4294967295 (Total (BlockParts (vote_BlockID v))) && in_range 0 MaxInt32 (vote_Round v) &&
  in_range MinInt32 MaxInt32 (vote_Type v) && in_range MinInt64 MaxInt64 (vote_Height v) && (len chain <=? MaxInt64) &&
  match sign_bytes v with Some _ => true | None => false end.

Definition authenticb (net : list State) (v : Vote) : bool :=
  match sign_bytes v with
  | Some bz => forallb (λ x, negb (verify_signature (nd_key x.1) bz (vote_Signature v)) ||
                             existsb (λ w, bool_decide (sign_bytes w = Some bz)) (sent_votes (cs_out x.2))) (zip nodes net)
  | None => true
  end.

Definition proposal_okb (p : Proposal) : bool :=
  match Proposal_ValidateBasic p with None => true | Some _ => false end && in_range 0 4294967295 (Total (BlockParts (prop_BlockID p))).

Definition eventb (net : list State) (n : nat) (ev : Event) : bool :=
  match ev with
  | PeerMessage (VoteMessage v) _ => vote_okb v && authenticb net v
  | InternalMessage (VoteMessage v) => vote_okb v && authenticb net v &&
      match net !! n with Some cs => bool_decide (v ∈ sent_votes (cs_out cs)) | None => false end
  | PeerMessage (ProposalMessage p) _ | InternalMessage (ProposalMessage p) => proposal_okb p
  | Timeout ti => false
  | _ => true
  end.

Lemma in_range_spec lo hi z : in_range lo hi z = true → lo ≤ z ≤ hi.
Proof using. unfold in_range. intros [H1' H2']%andb_true_iff. lia. Qed.

Lemma vote_okb_spec v : vote_okb v = true → vote_ok chain v ∧ vote_ranges chain v.
Proof using.
  unfold vote_okb, sign_bytes. rewrite !andb_true_iff. intros [[[[[[Hid Ht%in_range_spec] Hr%in_range_spec] Hty%in_range_spec] Hh%in_range_spec] Hc%Z.leb_le] Hbz].
  split.
  - split; [|split; [lia|destruct (VoteSignBytes chain v); [by eexists|done] ] ].
    apply orb_true_iff in Hid as [Hid%bool_decide_eq_true|Hid]; [by left|right]. split; [done|unfold is_uint32; lia].
  - split; unfold is_uint32; ulia.
Qed.

Lemma authenticb_spec net v : authenticb net v = true → authentic chain nodes net v.
Proof using.
  unfold authenticb, authentic. intros Hb m nd cs bz Hnd Hcs Hbz Hver. unfold sign_bytes at 1 in Hb. rewrite Hbz in Hb.
  rewrite forallb_forall in Hb. specialize (Hb (nd, cs)). cbn in Hb. rewrite Hver in Hb. cbn in Hb.
  assert (In (nd, cs) (zip nodes net)) as Hin.
  { apply list_elem_of_In, list_elem_of_lookup. exists m. by rewrite lookup_zip_with, Hnd, Hcs. }
  apply Hb, existsb_exists in Hin as (w & Hw & Hs%bool_decide_eq_true). exists w. split; [by apply list_elem_of_In|].
  unfold sign_bytes in Hs. destruct (VoteSignBytes chain w); [|done]. by injection Hs as ->.
Qed.

Lemma proposal_okb_spec p : proposal_okb p = true → proposal_ok p.
Proof using.
  unfold proposal_okb. intros [Hv Ht%in_range_spec]%andb_true_iff. split; [by destruct (Proposal_ValidateBasic p)|unfold is_uint32; lia].
Qed.

Lemma eventb_spec net n e ev : env_ok chain VS e → eventb net n ev = true → net_event_ok chain VS nodes net (n, e, ev).
Proof using.
  intros He Hb. split; [done|]. destruct ev as [[p|h r part|v] peer|[p|h r part|v]|ti| |h r ty peer id]; cbn in Hb; try done.
  - by apply proposal_okb_spec.
  - apply andb_true_iff in Hb as [[Hv Hr]%vote_okb_spec Ha%authenticb_spec]. by split.
  - by apply proposal_okb_spec.
  - apply andb_true_iff in Hb as [[[Hv Hr]%vote_okb_spec Ha%authenticb_spec]%andb_true_iff Hs]. split; [by apply Hv|]. split; [done|].
    intros cs Hcs. rewrite Hcs in Hs. by apply bool_decide_eq_true in Hs.
Qed.

(** ** A scheduler *)

(** The next event of a node: its last timeout, a message of its own, or
    one of another node's messages, by its number. *)
Inductive Command := Fire (n : nat) | Own (n k : nat) | Deliver (n m k : nat).

Definition messages (cs : State) : list Message := omap (λ o, match o with Send m => Some m | _ => None end) (cs_out cs).
Definition command_node (c : Command) : nat := match c with Fire n => n | Own n _ => n | Deliver n _ _ => n end.
Definition resolve (net : list State) (c : Command) : option Event :=
  match c with
  | Fire n => cs ← net !! n; ti ← last (timeouts (cs_out cs)); Some (Timeout ti)
  | Own n k => cs ← net !! n; m ← messages cs !! k; Some (InternalMessage m)
  | Deliver n m k => cs ← net !! m; msg ← messages cs !! k; Some (PeerMessage msg [])
  end.

Definition fireb (c : Command) : bool := match c with Fire _ => true | _ => false end.

Variable envs : nat → Env.
Hypothesis envs_ok : ∀ n, env_ok chain VS (envs n).

Fixpoint play (net : list State) (script : list Command) : option (list State * list (nat * Env * Event)) :=
  match script with
  | [] => Some (net, [])
  | c :: script =>
      ev ← resolve net c;
      let n := command_node c in
      if fireb c || eventb net n ev then
        '(net', tr) ← play (net_step nodes net (n, envs n, ev)) script;
        Some (net', (n, envs n, ev) :: tr)
      else None
  end.

Lemma play_spec script net net' tr :
  play net script = Some (net', tr) → net_ok chain VS nodes net tr ∧ net_run nodes net tr = net'.
Proof using envs_ok.
  revert net tr. induction script as [|c script IH]; intros net tr; cbn [play]; [by intros [= <- <-]|].
  destruct (resolve net c) as [ev|] eqn:Er; [|done]. cbn. destruct (fireb c || _) eqn:Eb; [|done].
  destruct (play _ script) as [[net1 tr1]|] eqn:Ep; [|done]. cbn. intros [= <- <-]. apply IH in Ep as [Hok Hrun]. split; [|done]. split; [|done].
  apply orb_true_iff in Eb as [Ef|Eb]; [|by apply eventb_spec]. split; [done|]. destruct c as [n|n k|n m k]; try done. cbn in Er.
  destruct (net !! n) as [cs|] eqn:En; [|done]. cbn in Er. destruct (last _) as [ti|] eqn:El; [|done]. injection Er as <-.
  intros cs' Hcs'. cbn in Hcs'. rewrite En in Hcs'. injection Hcs' as <-. by apply last_Some_elem_of.
Qed.
End checker.

(** ** Instances *)

Definition toy_hash32 (b : bytes) : bytes := take 32 (rev b ++ replicate 32 x00).
Definition mark (pk : PubKey) (bz : bytes) : bytes := KeyBytes pk ++ toy_hash32 bz.

Definition cs_crypto : Crypto := {|
  key_address := KeyBytes; verify_signature := λ pk bz sig, bool_decide (sig = mark pk bz); sha256 := toy_hash32 |}.

(** A block is its tag, the first byte of its encodings. *)
Definition cs_blocks : BlockOps := {|
  Block := byte;
  Block_Hash := replicate 32;
  Block_Height := λ _, 1;
  Block_Time := λ _, mkTime 1700000000 0;
  Block_LastCommit := λ _, None;
  Block_Marshal := λ b, Some [b];
  Block_Unmarshal := λ bz, match bz with b :: _ => Some b | [] => None end;
|}.
#[local] Existing Instances example_time example_time_laws cs_crypto cs_blocks.

Definition cs_chain : bytes := [x61].
Definition cs_key (c : byte) : PubKey := mkPubKey "toy" (replicate 20 c).
Definition cs_val (c : byte) (power : Z) : Validator := mkValidator (replicate 20 c) (Some (cs_key c)) power 0.
Definition cs_vals : ValidatorSet := mkValidatorSet [cs_val x01 3; cs_val x02 3; cs_val x03 1] None 0 true.
Definition cs_VS (_ : Z) : list Validator := Validators cs_vals.

Definition cs_genesis : SmState := mkSmState cs_chain 1 0 (Some cs_vals) (Some cs_vals) [] (-1) 0.
Definition cs_after : SmState := mkSmState cs_chain 1 1 (Some cs_vals) (Some cs_vals) [] (-1) 0.
Definition cs_config : ConsensusConfig := mkConfig 3000000000 500000000 1000000000 500000000 1000000000 500000000 1000000000 false true 0 0.
Definition cs_sign (c : byte) (chain : bytes) (v : Vote) : option Vote :=
  match VoteSignBytes chain v with
  | Ret bz => Some (mkVote (vote_Type v) (vote_Height v) (vote_Round v) (vote_BlockID v) (vote_Timestamp v) (ValidatorAddress v)
                      (ValidatorIndex v) (mark (cs_key c) bz) (vote_Extension v) [])
  | Panic _ => None
  end.
Definition cs_env (n : nat) : Env :=
  let c := match n with O => x01 | _ => x02 end in {|
  env_now := mkTime 1700000010 0;
  env_publish := λ _, true;
  env_wal := true;
  env_validate := λ _ _, true;
  env_process := λ _ _, Some true;
  env_create := λ _ _ _ _, Some (Some x0a);
  env_extend := λ _ _ _, None;
  env_verify_extension := λ _, false;
  env_apply := λ _ _ _, Some cs_after;
  env_sign := cs_sign c;
  env_sign_proposal := λ chain p, match ProposalSignBytes chain p with Ret bz => Some (mark (cs_key c) bz) | Panic _ => None end;
  env_pubkey := Some (cs_key c);
  env_store_base := 0;
  env_store_height := 0;
  env_block_meta := λ _, None;
  env_seen_commit := λ _, None;
  env_block_commit := λ _, None;
  env_extended_commit := λ _, None;
  env_offline_height := 0;
|}.

Definition cs_nodes : list Node := [mkNode cs_config true (cs_key x01); mkNode cs_config true (cs_key x02)].
Definition cs_initial (n : nat) : State := match NewState cs_config true (cs_env n) cs_genesis with Ret cs => cs | Panic _ => blank end.
Definition cs_net : list State := [cs_initial 0; cs_initial 1].

Definition cs_script : list Command :=
  [Fire 0; Own 0 0; Own 0 1; Fire 1; Deliver 1 0 0; Deliver 1 0 1;
   Own 0 2; Deliver 0 1 0; Own 1 0; Deliver 1 0 2; Own 0 3; Deliver 0 1 1; Own 1 1; Deliver 1 0 3].
Definition cs_played : option (list State * list (nat * Env * Event)) := play cs_chain cs_nodes cs_env cs_net cs_script.

(** Both nodes execute a block of height 1. *)
Definition executes (net : list State) (n : nat) : bool :=
  match net !! n with Some cs => existsb (λ a, a.1.1 =? 1) (applied (cs_out cs)) | None => false end.
Definition cs_decides : bool := match cs_played with Some (net, _) => executes net 0 && executes net 1 | None => false end.
Lemma cs_decides_true : cs_decides = true.
Proof. vm_compute. reflexivity. Qed.

Definition cs_starts (n : nat) : bool := match NewState cs_config true (cs_env n) cs_genesis with Ret _ => true | Panic _ => false end.
Lemma cs_starts_true : cs_starts 0 && cs_starts 1 = true.
Proof. vm_compute. reflexivity. Qed.

Lemma cs_initial_new n : cs_starts n = true → NewState cs_config true (cs_env n) cs_genesis = Ret (cs_initial n).
Proof. unfold cs_starts, cs_initial. by destruct (NewState cs_config true (cs_env n) cs_genesis). Qed.

Lemma cs_vals_valid : valid_set cs_vals.
Proof.
  split; [done| |by left].
  split; [apply (bool_decide_unpack _); vm_compute; exact I|repeat constructor|by vm_compute|repeat constructor; by vm_compute].
Qed.

Lemma cs_state_ok h : 0 ≤ h ≤ 1 → state_ok cs_chain cs_VS (mkSmState cs_chain 1 h (Some cs_vals) (Some cs_vals) [] (-1) 0).
Proof.
  intros Hh. split; [done|cbn; lia|by split; vm_compute|]. exists cs_vals. split; [done|]. split; [apply cs_vals_valid|]. split; [repeat constructor; done|done].
Qed.

Lemma cs_env_ok n : env_ok cs_chain cs_VS (cs_env n).
Proof. split; [intros st id b st' _ [= <-]; by apply cs_state_ok|]. intros st b _ _. by vm_compute. Qed.

Lemma cs_genesis_ok : state_ok cs_chain cs_VS cs_genesis.
Proof. by apply cs_state_ok. Qed.

Lemma cs_net_start : net_start cs_chain cs_VS cs_nodes cs_net.
Proof.
  pose proof cs_starts_true as [H0' H1']%andb_true_iff.
  apply Forall2_cons. split; [|apply Forall2_cons; split; [|constructor] ]; [exists (cs_env 0)|exists (cs_env 1)]; exists cs_genesis;
    (split; [exact cs_genesis_ok|]); [exact (cs_initial_new 0 H0')|exact (cs_initial_new 1 H1')].
Qed.

Lemma executes_spec net n : executes net n = true → ∃ cs id b, net !! n = Some cs ∧ (1, id, b) ∈ applied (cs_out cs).
Proof.
  unfold executes. destruct (net !! n) as [cs|]; [|done]. intros ([[h id] b] & Hin & Hh)%existsb_exists. apply Z.eqb_eq in Hh. cbn in Hh. subst h.
  exists cs, id, b. split; [done|]. by apply list_elem_of_In.
Qed.

Lemma cs_run_decides :
  ∃ tr cs1 cs2 id1 id2 b1 b2, net_ok cs_chain cs_VS cs_nodes cs_net tr ∧
    net_run cs_nodes cs_net tr !! 0%nat = Some cs1 ∧ net_run cs_nodes cs_net tr !! 1%nat = Some cs2 ∧
    (1, id1, b1) ∈ applied (cs_out cs1) ∧ (1, id2, b2) ∈ applied (cs_out cs2).
Proof.
  pose proof cs_decides_true as Hd. unfold cs_decides in Hd. destruct cs_played as [[net tr]|] eqn:Ep; [|done].
  apply play_spec with (VS := cs_VS) in Ep as [Hok Hrun]; [|apply cs_env_ok].
  apply andb_true_iff in Hd as [(cs1 & id1 & b1 & H1' & A1)%executes_spec (cs2 & id2 & b2 & H2' & A2)%executes_spec].
  exists tr, cs1, cs2, id1, id2, b1, b2. by rewrite Hrun.
Qed.

(** The first node by itself. *)
Definition cs_alone : bool :=
  match cs_played with
  | Some (_, tr) => match cs_run cs_config true (cs_initial 0) (project 0 tr) with Ret cs => executes [cs] 0 | Panic _ => false end
  | None => false
  end.
Lemma cs_alone_true : cs_alone = true.
Proof. vm_compute. reflexivity. Qed.

Lemma cs_node_decides :
  ∃ evs cs id b, NewState cs_config true (cs_env 0) cs_genesis = Ret (cs_initial 0) ∧
    node_ok cs_config true cs_chain cs_VS (cs_initial 0) evs ∧ cs_run cs_config true (cs_initial 0) evs = Ret cs ∧
    (1, id, b) ∈ applied (cs_out cs).
Proof.
  pose proof cs_alone_true as Ha. unfold cs_alone in Ha. destruct cs_played as [[net tr]|] eqn:Ep; [|done].
  apply play_spec with (VS := cs_VS) in Ep as [Hok _]; [|apply cs_env_ok].
  destruct (cs_run cs_config true (cs_initial 0) (project 0 tr)) as [cs|] eqn:Er; [|done].
  apply executes_spec in Ha as (cs' & id & b & [= <-] & Hb). exists (project 0 tr), cs, id, b. split_and!; [|exact (net_node_ok cs_chain cs_VS cs_nodes tr cs_net 0 (mkNode cs_config true (cs_key x01)) (cs_initial 0) eq_refl eq_refl Hok)|done|done].
  apply cs_initial_new. by pose proof cs_starts_true as [? _]%andb_true_iff.
Qed.
