(* ===== verification/ConsensusTheorems.v ===== *)
(** * The consensus state machine: theorems

    Agreement between correct nodes, what a single node promises whatever it
    receives, the ticker, and the deviations from the documented behaviour. *)
From S2P Require Import Prelude.
From S2P Require Import BitArray.
From S2P Require Import SafeMath.
From S2P Require Import Vote.
From S2P Require Import Validator.
From S2P Require Import SignBytes.
From S2P Require Import ValidatorSet.
From S2P Require Import ValidatorSetPriority.
From S2P Require Import ValidatorSetUpdate.
From S2P Require Import VoteSet.
From S2P Require Import Quorum.
From S2P Require Import VoteSetInv.
From S2P Require Import VoteSetSafety.
From S2P Require Import HeightVoteSet.
From S2P Require Import PartSet.
From S2P Require Import VoteOrigin.
From S2P Require Import ConsensusState.
From S2P Require Import ConsensusInv.
From S2P Require Import ConsensusSteps.
From S2P Require Import ConsensusTurns.
From S2P Require Import ConsensusTyped.
From S2P Require Import ConsensusNetwork.
From S2P Require Import ConsensusExample.

(** ** Agreement *)

(** C1: Agreement.  In every run of a network of correct nodes with any
    number of faulty peers, if the faulty validators of a height hold less
    than a third of its power, the blocks that two correct nodes execute at
    that height have the same hash. *)
Theorem consensus_agreement `{StdTimeLaws, Crypto, BlockOps} chain VS nodes net tr h n1 cs1 id1 b1 n2 cs2 id2 b2 :
  len chain ≤ MaxInt64 → net_start chain VS nodes net → net_ok chain VS nodes net tr →
  3 * faulty_power VS nodes h < power_sum (VS h) →
  net_run nodes net tr !! n1 = Some cs1 → net_run nodes net tr !! n2 = Some cs2 →
  (h, id1, b1) ∈ applied (cs_out cs1) → (h, id2, b2) ∈ applied (cs_out cs2) → Block_Hash b1 = Block_Hash b2.
Proof.
  intros Hc Hs Hok Hf Hn1 Hn2 Ha1 Ha2. destruct (run_facts _ _ _ net tr Hc Hs Hok) as (_ & _ & _ & Hi).
  destruct (Hi n1 cs1 Hn1) as [Hi1 _], (Hi n2 cs2 Hn2) as [Hi2 _].
  destruct (ci_applied _ _ _ _ _ _ _ _ _ _ _ _ _ _ Hi1 _ _ _ Ha1) as (_ & r1 & i1 & Hm1 & He1 & Hne1).
  destruct (ci_applied _ _ _ _ _ _ _ _ _ _ _ _ _ _ Hi2 _ _ _ Ha2) as (_ & r2 & i2 & Hm2 & He2 & Hne2).
  rewrite <-He1, <-He2. exact (precommits_agree _ _ _ net tr Hc Hs Hok h r1 i1 r2 i2 Hf Hne1 Hne2 Hm1 Hm2).
Qed.

#[local] Existing Instances example_time example_time_laws cs_crypto cs_blocks.

(** The two correct nodes of the example execute the same block. *)
Lemma consensus_agreement_witness :
  ∃ tr cs1 cs2 id1 id2 b1 b2, net_ok cs_chain cs_VS cs_nodes cs_net tr ∧
    net_run cs_nodes cs_net tr !! 0%nat = Some cs1 ∧ net_run cs_nodes cs_net tr !! 1%nat = Some cs2 ∧
    (1, id1, b1) ∈ applied (cs_out cs1) ∧ (1, id2, b2) ∈ applied (cs_out cs2) ∧ Block_Hash b1 = Block_Hash b2.
Proof.
  destruct cs_run_decides as (tr & cs1 & cs2 & id1 & id2 & b1 & b2 & Hok & H1 & H2 & A1 & A2).
  exists tr, cs1, cs2, id1, id2, b1, b2. split; [exact Hok|]. split; [exact H1|]. split; [exact H2|]. split; [exact A1|]. split; [exact A2|].
  eapply (consensus_agreement cs_chain cs_VS cs_nodes cs_net tr 1 0 cs1 id1 b1 1 cs2 id2 b2);
    [by vm_compute|exact cs_net_start|exact Hok|by vm_compute|exact H1|exact H2|exact A1|exact A2].
Defined.

(** ** One node, whatever it receives *)

(** C6: Locking.  A node sends at most one prevote and one precommit in
    each round of each height.  It precommits a block only in a round in
    which it has received prevotes for that block from more than two thirds
    of the power; after that it prevotes for nothing else in later rounds of
    the height, unless it has received more than two thirds of the prevotes
    of a later round for something else; and it executes a block only after
    precommits for it from more than two thirds of the power. *)
Theorem node_locking_rules `{StdTime, Crypto, BlockOps} cfg pv chain VS e st cs0 evs cs :
  len chain ≤ MaxInt64 → state_ok chain VS st → NewState cfg pv e st = Ret cs0 →
  node_ok cfg pv chain VS cs0 evs → cs_run cfg pv cs0 evs = Ret cs →
  let P := λ v, v ∈ received evs in
  let sent := sent_votes (cs_out cs) in
  NoDup (vote_slot <$> sent) ∧
  (∀ v, v ∈ sent → precommits_block v → polka chain VS P (vote_Height v) (vote_Round v) (vote_BlockID v)) ∧
  (∀ v w, v ∈ sent → w ∈ sent → precommits_block v → vote_Type w = PrevoteType → vote_Height v = vote_Height w →
    vote_Round v < vote_Round w → BlockHash (vote_BlockID w) = BlockHash (vote_BlockID v) ∨ unlocked chain VS P v) ∧
  (∀ h id b, (h, id, b) ∈ applied (cs_out cs) → decided chain VS P h b).
Proof.
  intros Hc Hst Hnew Hok Hrun P sent. destruct (NewState_start cfg chain VS P pv e st cs0 Hc Hst Hnew) as (Hi & Ht & _).
  destruct (node_run_inv cfg pv chain VS P evs cs0 cs Hi Ht ltac:(done) Hok Hrun) as (Hi' & _ & _). destruct Hi'.
  split_and!; [done..|]. intros h id b Hin. by destruct (ci_applied h id b Hin).
Qed.

(** C22: Well-formed data.  Whatever votes, parts and valid proposals a node
    receives, the round stays in its type, every block it holds has a part set
    that exists, a block it is locked on or takes for valid has a 32-byte hash
    (a proposed block may have none), every part set has a complete header,
    and every vote it sends has a valid type, a positive height, a round, and
    names nil or a complete block. *)
Theorem node_data_well_formed `{StdTime, Crypto, BlockOps} cfg pv chain VS e st cs0 evs cs :
  len chain ≤ MaxInt64 → state_ok chain VS st → NewState cfg pv e st = Ret cs0 →
  node_ok cfg pv chain VS cs0 evs → cs_run cfg pv cs0 evs = Ret cs → typed chain cs.
Proof.
  intros Hc Hst Hnew Hok Hrun. destruct (NewState_start cfg chain VS (λ v, v ∈ received evs) pv e st cs0 Hc Hst Hnew) as (Hi & Ht & _).
  by destruct (node_run_inv cfg pv chain VS _ evs cs0 cs Hi Ht ltac:(done) Hok Hrun) as (_ & Ht' & _).
Qed.

Lemma CompareHRS_le h r s h' r' s' : (h < h' ∨ h = h' ∧ (r < r' ∨ r = r' ∧ s ≤ s')) ↔ CompareHRS h r s h' r' s' ≤ 0.
Proof.
  unfold CompareHRS. destruct (Z.ltb_spec h h'); [lia|]. destruct (Z.ltb_spec h' h); [lia|]. destruct (Z.ltb_spec r r'); [lia|].
  destruct (Z.ltb_spec r' r); [lia|]. destruct (Z.ltb_spec s s'); [lia|]. destruct (Z.ltb_spec s' s); lia.
Qed.

(** C23: Progress is monotone.  A node never goes back to an earlier height,
    round or step, what it has put out stays, and the votes it sends later
    are not for earlier heights or rounds. *)
Theorem node_steps_monotone `{StdTime, Crypto, BlockOps} cfg pv chain VS e st cs0 evs evs' cs cs' :
  len chain ≤ MaxInt64 → state_ok chain VS st → NewState cfg pv e st = Ret cs0 →
  node_ok cfg pv chain VS cs0 evs → cs_run cfg pv cs0 evs = Ret cs → node_ok cfg pv chain VS cs evs' → cs_run cfg pv cs evs' = Ret cs' →
  CompareHRS (cs_Height cs) (cs_Round cs) (cs_Step cs) (cs_Height cs') (cs_Round cs') (cs_Step cs') ≤ 0 ∧
  ∃ l, cs_out cs' = cs_out cs ++ l ∧
    ∀ v, v ∈ sent_votes l → cs_Height cs < vote_Height v ∨ cs_Height cs = vote_Height v ∧ cs_Round cs ≤ vote_Round v.
Proof.
  intros Hc Hst Hnew Hok Hrun Hok' Hrun'. destruct (NewState_start cfg chain VS (λ _, True) pv e st cs0 Hc Hst Hnew) as (Hi & Ht & _).
  destruct (node_run_inv cfg pv chain VS _ evs cs0 cs Hi Ht ltac:(done) Hok Hrun) as (Hi1 & Ht1 & _).
  destruct (node_run_inv cfg pv chain VS _ evs' cs cs' Hi1 Ht1 ltac:(done) Hok' Hrun') as (_ & _ & [Hle Hl]).
  split; [by apply CompareHRS_le|done].
Qed.

Lemma node_locking_rules_witness :
  ∃ evs cs id b, cs_run cs_config true (cs_initial 0) evs = Ret cs ∧ (1, id, b) ∈ applied (cs_out cs) ∧
    decided cs_chain cs_VS (λ v, v ∈ received evs) 1 b.
Proof.
  destruct cs_node_decides as (evs & cs & id & b & Hnew & Hok & Hrun & Hb). exists evs, cs, id, b. split; [exact Hrun|]. split; [exact Hb|].
  eapply (node_locking_rules cs_config true cs_chain cs_VS (cs_env 0) cs_genesis (cs_initial 0) evs cs);
    [by vm_compute|exact cs_genesis_ok|exact Hnew|exact Hok|exact Hrun|exact Hb].
Defined.

Lemma node_data_well_formed_witness : ∃ evs cs, cs_run cs_config true (cs_initial 0) evs = Ret cs ∧ typed cs_chain cs.
Proof.
  destruct cs_node_decides as (evs & cs & id & b & Hnew & Hok & Hrun & Hb). exists evs, cs. split; [exact Hrun|].
  apply (node_data_well_formed cs_config true cs_chain cs_VS (cs_env 0) cs_genesis (cs_initial 0) evs cs);
    [by vm_compute|exact cs_genesis_ok|exact Hnew|exact Hok|exact Hrun].
Defined.

Lemma node_steps_monotone_witness :
  ∃ evs cs, cs_run cs_config true (cs_initial 0) evs = Ret cs ∧
    CompareHRS (cs_Height (cs_initial 0)) (cs_Round (cs_initial 0)) (cs_Step (cs_initial 0)) (cs_Height cs) (cs_Round cs) (cs_Step cs) ≤ 0.
Proof.
  destruct cs_node_decides as (evs & cs & id & b & Hnew & Hok & Hrun & Hb). exists evs, cs. split; [exact Hrun|].
  apply (node_steps_monotone cs_config true cs_chain cs_VS (cs_env 0) cs_genesis (cs_initial 0) [] evs (cs_initial 0) cs);
    [by vm_compute|exact cs_genesis_ok|exact Hnew|exact I|reflexivity|exact Hok|exact Hrun].
Defined.

(** ** The ticker *)

Definition ti_le (t u : timeoutInfo) : Prop :=
  CompareHRS (ti_Height t) (ti_Round t) (ti_Step t) (ti_Height u) (ti_Round u) (ti_Step u) ≤ 0.

Lemma ti_le_trans t u v : ti_le t u → ti_le u v → ti_le t v.
Proof. unfold ti_le. rewrite <-!CompareHRS_le. lia. Qed.

(** A timeout is dropped or becomes the one the timer is set for; the steps
    of scheduled timeouts are positive. *)
Lemma ScheduleTimeout_cases t ti :
  0 < ti_Step ti →
  (ScheduleTimeout t ti = t ∧ ti_le ti (tick_ti t)) ∨
  (ScheduleTimeout t ti = mkTicker ti true ∧ ti_le (tick_ti t) ti).
Proof.
  intros Hs. unfold ti_le. rewrite <-!CompareHRS_le. unfold ScheduleTimeout.
  destruct (Z.ltb_spec (ti_Height ti) (ti_Height (tick_ti t))); [left; split; [done|lia]|].
  destruct (Z.eqb_spec (ti_Height ti) (ti_Height (tick_ti t))); cbn [andb]; [|right; split; [done|lia] ].
  destruct (Z.ltb_spec (ti_Round ti) (ti_Round (tick_ti t))); [left; split; [done|lia]|].
  destruct (Z.eqb_spec (ti_Round ti) (ti_Round (tick_ti t))); cbn [andb]; [|right; split; [done|lia] ].
  destruct (Z.ltb_spec 0 (ti_Step (tick_ti t))); cbn [andb]; [|right; split; [done|lia] ].
  destruct (Z.leb_spec (ti_Step ti) (ti_Step (tick_ti t))); [left; split; [done|lia]|right; split; [done|lia] ].
Qed.

Lemma schedule_all l t0 l0 :
  Forall (λ ti, 0 < ti_Step ti) l → timerActive t0 = true → tick_ti t0 ∈ l0 → (∀ u, u ∈ l0 → ti_le u (tick_ti t0)) →
  let t := fold_left ScheduleTimeout l t0 in
  timerActive t = true ∧ tick_ti t ∈ l0 ++ l ∧ ∀ u, u ∈ l0 ++ l → ti_le u (tick_ti t).
Proof.
  revert t0 l0. induction l as [|ti l IH]; intros t0 l0 Hl Ha Hin Hmax; [by rewrite app_nil_r|]. apply Forall_cons in Hl as [Hs Hl].
  cbn [fold_left]. rewrite cons_middle, app_assoc. destruct (ScheduleTimeout_cases t0 ti Hs) as [[-> Hle]|[-> Hle] ]; apply IH; try done; cbn [tick_ti].
  - set_solver.
  - intros u [Hu|Hu]%elem_of_app; [by apply Hmax|]. by apply list_elem_of_singleton in Hu as ->.
  - set_solver.
  - intros u [Hu|Hu]%elem_of_app; [eapply ti_le_trans; [by apply Hmax|done]|]. apply list_elem_of_singleton in Hu as ->.
    unfold ti_le. rewrite <-CompareHRS_le. lia.
Qed.

(** The ticker keeps the latest.  After any timeouts have been scheduled,
    in any order, the timer runs for one of them that none of the others is
    later than, and that one is relayed when it runs out. *)
Theorem ticker_keeps_latest ti0 l :
  0 < ti_Height ti0 → Forall (λ ti, 0 < ti_Step ti) (ti0 :: l) →
  let t := fold_left ScheduleTimeout (ti0 :: l) NewTimeoutTicker in
  ∃ ti, ti ∈ ti0 :: l ∧ tick t = (mkTicker ti false, Some ti) ∧ ∀ u, u ∈ ti0 :: l → ti_le u ti.
Proof.
  intros Hh [Hs Hl]%Forall_cons t.
  assert (ScheduleTimeout NewTimeoutTicker ti0 = mkTicker ti0 true) as E.
  { unfold ScheduleTimeout. cbn. destruct (Z.ltb_spec (ti_Height ti0) 0); [lia|]. by destruct (Z.eqb_spec (ti_Height ti0) 0); [lia|]. }
  destruct (schedule_all l (mkTicker ti0 true) [ti0]) as (Ha & Hin & Hmax); [done|done|by left| |].
  { intros u Hu. apply list_elem_of_singleton in Hu as ->. unfold ti_le. rewrite <-CompareHRS_le. cbn. lia. }
  rewrite <-E in Ha, Hin, Hmax. exists (tick_ti t). split; [exact Hin|]. split; [|exact Hmax]. unfold tick.
  change (timerActive t = true) in Ha. by rewrite Ha.
Qed.

Lemma ticker_keeps_latest_witness :
  let l := [mkTimeout 9 1 0 1; mkTimeout 5 1 2 3; mkTimeout 7 1 2 1] in
  ∃ ti, ti ∈ l ∧ (tick (fold_left ScheduleTimeout l NewTimeoutTicker)).2 = Some ti.
Proof.
  intros l. destruct (ticker_keeps_latest (mkTimeout 9 1 0 1) [mkTimeout 5 1 2 3; mkTimeout 7 1 2 1]) as (ti & Hin & Ht & _);
    [reflexivity|repeat constructor|]. exists ti. split; [exact Hin|]. unfold l. by rewrite Ht.
Defined.

(** ** Deviations *)

(** The time that [handleTxsAvailable] adds is meant to let the timeout of
    the new height go first, which calls [enterNewRound].  The ticker has one
    timer: the new timeout is of a later step, so it replaces the other one,
    and when it runs out the machine goes from the new height to
    [enterPropose]. *)
Theorem txs_available_replaces_new_height `{StdTime, Crypto, BlockOps} cfg pv e e' cs cs' t d :
  cs_Round cs = 0 → cs_Step cs = RoundStepNewHeight → needProofBlock e cs (cs_Height cs) = false →
  tick_ti t = mkTimeout d (cs_Height cs) 0 RoundStepNewHeight → handleTxsAvailable cfg pv e cs = Ret cs' →
  ∃ ti, cs_out cs' = cs_out cs ++ [Schedule ti] ∧ tick (ScheduleTimeout t ti) = (mkTicker ti false, Some ti) ∧
    cs_Step cs' = RoundStepNewHeight ∧ handleTimeout cfg pv e' cs' ti = enterPropose cfg pv e' cs' (cs_Height cs) 0.
Proof.
  intros Hr Hs Hn Ht Hf. unfold handleTxsAvailable in Hf. rewrite Hr, Hs, Hn in Hf. cbn in Hf. injection Hf as <-.
  eexists. split; [reflexivity|]. split; [|split; [exact Hs|] ].
  - unfold ScheduleTimeout. rewrite Ht. cbn. by rewrite Z.ltb_irrefl, Z.eqb_refl.
  - unfold handleTimeout. cbn. by rewrite Z.eqb_refl, Hr, Hs.
Qed.

Lemma txs_available_replaces_new_height_witness :
  ∃ e cs cs' ti, handleTxsAvailable cs_config true e cs = Ret cs' ∧ cs_out cs' = cs_out cs ++ [Schedule ti] ∧
    handleTimeout cs_config true e cs' ti = enterPropose cs_config true e cs' (cs_Height cs) 0.
Proof.
  set (cs := updateRoundStep (updateHeight blank 2) 0 RoundStepNewHeight).
  set (e := mkEnv _ (mkTime 0 0) (λ _, true) true (λ _ _, true) (λ _ _, None) (λ _ _ _ _, None) (λ _ _ _, None) (λ _, true)
              (λ _ _ _, None) (λ _ _, None) (λ _ _, None) None 0 0 (λ _, Some []) (λ _, None) (λ _, None) (λ _, None) 0).
  destruct (handleTxsAvailable cs_config true e cs) as [cs'|] eqn:E; [|discriminate].
  destruct (txs_available_replaces_new_height cs_config true e e cs cs' (mkTicker (mkTimeout 0 2 0 RoundStepNewHeight) true) 0)
    as (ti & Ho & _ & _ & Hh); [reflexivity..|exact E|]. exists e, cs, cs', ti. split; [exact E|]. split; [exact Ho|exact Hh].
Defined.

Lemma NewState_genesis `{StdTime, Crypto, BlockOps} cfg pv e st cs :
  sm_LastBlockHeight st = 0 → NewState cfg pv e st = Ret cs →
  cs_Height cs = sm_InitialHeight st ∧ cs_Round cs = 0 ∧ cs_Step cs = RoundStepNewHeight ∧ cs_LastCommit cs = None.
Proof.
  intros H0' Hf. unfold NewState in Hf. rewrite H0' in Hf. cbn [Z.ltb Z.compare mbind outcome_bind] in Hf. bind_split Hf cs1 Hup. injection Hf as <-.
  assert (cs_Height cs1 = sm_InitialHeight st ∧ cs_Round cs1 = 0 ∧ cs_Step cs1 = RoundStepNewHeight ∧ cs_LastCommit cs1 = None) as Hcs.
  { unfold updateToState in Hup. rewrite H0' in Hup. cbn in Hup. bind_split Hup ext Hext. destruct (sm_Validators st); [|done].
    bind_split Hup hvs Hhvs. by injection Hup as <-. }
  unfold updatePrivValidatorPubKey. destruct pv; [|exact Hcs]. by destruct (env_pubkey e).
Qed.

(** A crash at the first height.  On a chain whose initial height is
    above 1, any precommit for the height before it, from any peer and with
    any signature, stops a node that waits for the first height: the last
    commit is nil there, and [addVote] calls [AddVote] on it. *)
Theorem first_height_precommit_panics `{StdTime, Crypto, BlockOps} cfg pv e st cs e' v peer :
  sm_LastBlockHeight st = 0 → NewState cfg pv e st = Ret cs →
  vote_Type v = PrecommitType → is_int64 (sm_InitialHeight st) → vote_Height v + 1 = sm_InitialHeight st →
  cs_step cfg pv e' cs (PeerMessage (VoteMessage v) peer) = Panic "AddVote() on nil VoteSet".
Proof.
  intros H0' Hnew Ht Hr Hv. destruct (NewState_genesis _ _ _ _ _ H0' Hnew) as (Hh & _ & Hs & Hl).
  unfold cs_step, handleMsg, tryAddVote, cs_addVote, add_last_commit. rewrite int64_id by (rewrite Hv; done).
  rewrite Hh, Hv, Z.eqb_refl, Ht, Hs, Hl. done.
Qed.

Definition late_genesis : SmState := mkSmState cs_chain 7 0 (Some cs_vals) (Some cs_vals) [] (-1) 0.

Lemma first_height_precommit_panics_witness :
  ∃ cs v, NewState cs_config true (cs_env 0) late_genesis = Ret cs ∧ Vote_ValidateBasic v = None ∧
    cs_step cs_config true (cs_env 0) cs (PeerMessage (VoteMessage v) []) = Panic "AddVote() on nil VoteSet".
Proof.
  destruct (NewState cs_config true (cs_env 0) late_genesis) as [cs|] eqn:E; [|vm_compute in E; discriminate].
  exists cs, (mkVote PrecommitType 6 0 nilBlockID (mkTime 0 0) (replicate 20 x09) 0 [x01] [] []). split; [reflexivity|]. split; [reflexivity|].
  apply (first_height_precommit_panics cs_config true (cs_env 0) late_genesis cs); [reflexivity|exact E|reflexivity|by split; vm_compute|reflexivity].
Defined.

(** A crash on the parts of a block.  A part set is fixed by the bytes
    that encode a block, the hash of the block is not: when a node holds the
    block that was decided, decoded from other bytes, [tryFinalizeCommit]
    calls [finalizeCommit], which panics. *)
Theorem decided_block_other_parts_panics `{StdTime, Crypto, BlockOps} cfg pv e cs pc id b :
  cs_Step cs = RoundStepCommit → cs_Precommits cs (cs_CommitRound cs) = Ret pc → TwoThirdsMajority pc = (id, true) →
  BlockHash id ≠ [] → cs_ProposalBlock cs = Some b → Block_Hash b = BlockHash id →
  HasHeader (parts cs (cs_ProposalBlockParts cs)) (BlockParts id) = false →
  tryFinalizeCommit cfg pv e cs (cs_Height cs) = Panic "expected ProposalBlockParts header to be commit header".
Proof.
  intros Hs Hpc Hm Hne Hb Hh Hp. assert ((len (BlockHash id) =? 0) = false) as Hlen.
  { destruct (BlockHash id) as [|x l]; [done|]. rewrite len_cons. pose proof (len_nonneg l). by apply Z.eqb_neq; lia. }
  unfold tryFinalizeCommit, finalizeCommit. rewrite Z.eqb_refl. cbn [negb]. rewrite Hpc. cbn [mbind outcome_bind]. rewrite Hm, Hlen. cbn [negb orb].
  assert (Block_HashesTo (cs_ProposalBlock cs) (BlockHash id) = true) as ->.
  { unfold Block_HashesTo. rewrite Hlen, Hb. by apply bool_decide_eq_true. }
  cbn [negb]. rewrite Hs, Z.eqb_refl. cbn [negb orb]. by rewrite Hp.
Qed.

(** The proposer, a validator with one seventh of the power, sends a full
    node another encoding of its block than the correct validators, whose
    precommits follow. *)
Definition other_vals : ValidatorSet := mkValidatorSet [cs_val x01 1; cs_val x02 3; cs_val x03 3] None 0 true.
Definition other_genesis : SmState := mkSmState cs_chain 1 0 (Some other_vals) (Some other_vals) [] (-1) 0.
Definition other_id : BlockID :=
  mkBlockID (Block_Hash x0a) (match NewPartSetFromData [x0a; x00] BlockPartSizeBytes with Ret ps => Header (Some ps) | Panic _ => nilHeader end).
Definition other_precommit (c : byte) (i : Z) : Vote :=
  let v := mkVote PrecommitType 1 0 other_id (mkTime 1700000010 0) (replicate 20 c) i [] [] [] in
  default v (cs_sign c cs_chain v).
Definition new_height_timeout : Event := Timeout (mkTimeout 1000000000 1 0 RoundStepNewHeight).
Definition run_or_blank (pv : bool) (evs : list Event) : State :=
  match NewState cs_config pv (cs_env 0) other_genesis with
  | Ret cs => match cs_run cs_config pv cs ((λ ev, (cs_env 0, ev)) <$> evs) with Ret cs => cs | Panic _ => blank end
  | Panic _ => blank
  end.
(** The full node after the proposal, its part and one precommit, and as
    [enterCommit] leaves it after the second. *)
Definition waiting : State :=
  run_or_blank false (new_height_timeout :: ((λ m, PeerMessage m []) <$> messages (run_or_blank true [new_height_timeout])) ++
                      [PeerMessage (VoteMessage (other_precommit x02 1)) []]).
Definition committing : State :=
  match (hvs ← votes_of waiting; AddVote hvs (other_precommit x03 2) [] false) with
  | Ret (hvs, _, _) => with_CommitRound (updateRoundStep (with_Votes waiting (Some hvs)) 0 RoundStepCommit) 0
  | Panic _ => blank
  end.

Lemma decided_block_other_parts_panics_witness :
  tryFinalizeCommit cs_config false (cs_env 0) committing (cs_Height committing) =
    Panic "expected ProposalBlockParts header to be commit header" ∧
  cs_step cs_config false (cs_env 0) waiting (PeerMessage (VoteMessage (other_precommit x03 2)) []) =
    Panic "expected ProposalBlockParts header to be commit header".
Proof.
  split; [|vm_compute; reflexivity].
  eapply (decided_block_other_parts_panics cs_config false (cs_env 0) committing _ other_id x0a);
    [vm_compute; reflexivity|vm_compute; reflexivity|vm_compute; reflexivity|done|vm_compute; reflexivity|reflexivity|vm_compute; reflexivity].
Defined.
