(* ===== verification/CList.v ===== *)
(** * The concurrent list

    [libs/clist/clist.go]: a doubly linked list whose elements can be
    followed while others change it.  Elements live in a heap and are named
    by their position in it.  A wait group and its channel are done and
    closed together, so one flag stands for both; signalling twice panics.
    The locks are left out: each operation is atomic. *)
From S2P Require Import Prelude.

(** [ce_prevDone] and [ce_nextDone]: the waits for a neighbour are over. *)
Record CElement (A : Type) := mkCElement {
  ce_prev : option nat;
  ce_prevDone : bool;
  ce_next : option nat;
  ce_nextDone : bool;
  ce_removed : bool;
  ce_Value : A;
}.
Arguments mkCElement {A}.
Arguments ce_prev {A}.
Arguments ce_prevDone {A}.
Arguments ce_next {A}.
Arguments ce_nextDone {A}.
Arguments ce_removed {A}.
Arguments ce_Value {A}.

Record CList (A : Type) := mkCList {
  cl_heap : list (CElement A);
  cl_done : bool;
  cl_head : option nat;
  cl_tail : option nat;
  cl_curLen : Z;
  cl_maxLen : Z;
}.
Arguments mkCList {A}.
Arguments cl_heap {A}.
Arguments cl_done {A}.
Arguments cl_head {A}.
Arguments cl_tail {A}.
Arguments cl_curLen {A}.
Arguments cl_maxLen {A}.

Section ops.
Context {A : Type}.
Implicit Types (l : CList A) (e : nat) (c : CElement A).

Definition MaxLength : Z := MaxInt64.

Definition element l e : outcome (CElement A) :=
  match cl_heap l !! e with Some c => Ret c | None => Panic "invalid memory address" end.
Definition with_element l e c : CList A :=
  mkCList (<[e:=c]> (cl_heap l)) (cl_done l) (cl_head l) (cl_tail l) (cl_curLen l) (cl_maxLen l).
Definition with_head l (h : option nat) : CList A := mkCList (cl_heap l) (cl_done l) h (cl_tail l) (cl_curLen l) (cl_maxLen l).
Definition with_tail l (t : option nat) : CList A := mkCList (cl_heap l) (cl_done l) (cl_head l) t (cl_curLen l) (cl_maxLen l).

(** [wg.Done()] and [close]. *)
Definition signal (done : bool) : outcome bool := if done then Panic "sync: negative WaitGroup counter" else Ret true.

(** What becomes of the wait for a neighbour that changes. *)
Definition new_done (old new : option nat) (done : bool) : outcome bool :=
  match old, new with
  | Some _, None => Ret false
  | None, Some _ => signal done
  | _, _ => Ret done
  end.

Definition SetNext l e (newNext : option nat) : outcome (CList A) :=
  c ← element l e;
  done ← new_done (ce_next c) newNext (ce_nextDone c);
  Ret (with_element l e (mkCElement (ce_prev c) (ce_prevDone c) newNext done (ce_removed c) (ce_Value c))).

Definition SetPrev l e (newPrev : option nat) : outcome (CList A) :=
  c ← element l e;
  done ← new_done (ce_prev c) newPrev (ce_prevDone c);
  Ret (with_element l e (mkCElement newPrev done (ce_next c) (ce_nextDone c) (ce_removed c) (ce_Value c))).

Definition SetRemoved l e : outcome (CList A) :=
  c ← element l e;
  pd ← (match ce_prev c with None => signal (ce_prevDone c) | Some _ => Ret (ce_prevDone c) end);
  nd ← (match ce_next c with None => signal (ce_nextDone c) | Some _ => Ret (ce_nextDone c) end);
  Ret (with_element l e (mkCElement (ce_prev c) pd (ce_next c) nd true (ce_Value c))).

Definition DetachPrev l e : outcome (CList A) :=
  c ← element l e;
  if negb (ce_removed c) then Panic "DetachPrev() must be called after Remove(e)"
  else Ret (with_element l e (mkCElement None (ce_prevDone c) (ce_next c) (ce_nextDone c) true (ce_Value c))).

Definition DetachNext l e : outcome (CList A) :=
  c ← element l e;
  if negb (ce_removed c) then Panic "DetachNext() must be called after Remove(e)"
  else Ret (with_element l e (mkCElement (ce_prev c) (ce_prevDone c) None (ce_nextDone c) true (ce_Value c))).

Definition Next l e : outcome (option nat) := c ← element l e; Ret (ce_next c).
Definition Prev l e : outcome (option nat) := c ← element l e; Ret (ce_prev c).
Definition Removed l e : outcome bool := c ← element l e; Ret (ce_removed c).

(** The waiting calls; [None] while they wait. *)
Definition NextWait l e : outcome (option (option nat)) :=
  c ← element l e;
  Ret (if bool_decide (ce_next c ≠ None) || ce_removed c then Some (ce_next c) else None).
Definition PrevWait l e : outcome (option (option nat)) :=
  c ← element l e;
  Ret (if bool_decide (ce_prev c ≠ None) || ce_removed c then Some (ce_prev c) else None).

Definition newWithMax (maxLength : Z) : CList A := mkCList [] false None None 0 maxLength.
Definition New : CList A := newWithMax MaxLength.
Definition Len l : Z := cl_curLen l.
Definition Front l : option nat := cl_head l.
Definition Back l : option nat := cl_tail l.
Definition FrontWait l : option nat := cl_head l.
Definition BackWait l : option nat := cl_tail l.

Definition PushBack l (v : A) : outcome (CList A * nat) :=
  let e := length (cl_heap l) in
  let l := mkCList (cl_heap l ++ [mkCElement None false None false false v]) (cl_done l) (cl_head l) (cl_tail l) (cl_curLen l) (cl_maxLen l) in
  done ← (if cl_curLen l =? 0 then signal (cl_done l) else Ret (cl_done l));
  if cl_maxLen l <=? cl_curLen l then Panic "clist: maximum length list reached"
  else
    let l := mkCList (cl_heap l) done (cl_head l) (cl_tail l) (cl_curLen l + 1) (cl_maxLen l) in
    match cl_tail l with
    | None => Ret (with_tail (with_head l (Some e)) (Some e), e)
    | Some t =>
        l ← SetPrev l e (Some t);
        l ← SetNext l t (Some e);
        Ret (with_tail l (Some e), e)
    end.

Definition Remove l e : outcome (CList A) :=
  prev ← Prev l e;
  next ← Next l e;
  if bool_decide (cl_head l = None) || bool_decide (cl_tail l = None) then Panic "Remove(e) on empty CList"
  else if bool_decide (prev = None) && negb (bool_decide (cl_head l = Some e)) then Panic "Remove(e) with false head"
  else if bool_decide (next = None) && negb (bool_decide (cl_tail l = Some e)) then Panic "Remove(e) with false tail"
  else
    let done := if cl_curLen l =? 1 then false else cl_done l in
    let l := mkCList (cl_heap l) done (cl_head l) (cl_tail l) (cl_curLen l - 1) (cl_maxLen l) in
    l ← (match prev with None => Ret (with_head l next) | Some p => SetNext l p next end);
    l ← (match next with None => Ret (with_tail l prev) | Some n => SetPrev l n prev end);
    SetRemoved l e.

(** [e.Value.f()] for a method that changes the value it points to. *)
Definition set_Value l e (f : A → A) : CList A :=
  match cl_heap l !! e with
  | Some c => with_element l e (mkCElement (ce_prev c) (ce_prevDone c) (ce_next c) (ce_nextDone c) (ce_removed c) (f (ce_Value c)))
  | None => l
  end.

(** The loop [for e := l.Front(); e != nil; e = e.Next()]. *)
Fixpoint follow (fuel : nat) l (e : option nat) : list nat :=
  match fuel, e with
  | S fuel, Some e => e :: match cl_heap l !! e with Some c => follow fuel l (ce_next c) | None => [] end
  | _, _ => []
  end.
Definition elements l : list nat := follow (Z.to_nat (cl_curLen l)) l (Front l).
Definition values l : list A := omap (λ e, ce_Value <$> cl_heap l !! e) (elements l).
End ops.

(** ** The elements in order *)

Section proofs.
Context {A : Type}.
Implicit Types (l : CList A) (c : CElement A) (ids : list nat).

Definition before (ids : list nat) (i : nat) : option nat := match i with O => None | S i => ids !! i end.

Definition linked (heap : list (CElement A)) (ids : list nat) (i e : nat) : Prop :=
  ∃ v, heap !! e = Some (mkCElement (before ids i) (bool_decide (before ids i ≠ None)) (ids !! S i) (bool_decide (ids !! S i ≠ None)) false v).

Record clist_ok l (ids : list nat) : Prop := {
  ok_nodup : NoDup ids;
  ok_head : cl_head l = ids !! 0%nat;
  ok_tail : cl_tail l = last ids;
  ok_len : cl_curLen l = len ids;
  ok_done : cl_done l = bool_decide (ids ≠ []);
  ok_linked : ∀ i e, ids !! i = Some e → linked (cl_heap l) ids i e;
  ok_removed : ∀ e c, cl_heap l !! e = Some c → e ∉ ids → ce_removed c = true;
}.

Lemma follow_ok l ids i n :
  clist_ok l ids → (length ids ≤ i + n)%nat → follow n l (ids !! i) = drop i ids.
Proof.
  intros Hok. revert i. induction n as [|n IH]; intros i Hn; cbn [follow]; [by rewrite drop_ge by lia|].
  destruct (ids !! i) as [e|] eqn:Ei; [|by rewrite drop_ge by (by apply lookup_ge_None)].
  destruct (ok_linked _ _ Hok i e Ei) as [v Hv]. rewrite Hv, (drop_S _ _ _ Ei). cbn. f_equal. apply IH. lia.
Qed.

Lemma elements_ok l ids : clist_ok l ids → elements l = ids.
Proof.
  intros Hok. unfold elements, Front. rewrite (ok_head _ _ Hok), (ok_len _ _ Hok).
  rewrite (follow_ok l ids 0) by (done || unfold len; lia). done.
Qed.

Lemma New_ok : clist_ok (New (A := A)) [].
Proof. split; try done. constructor. Qed.

Lemma ids_in_heap l ids i e : clist_ok l ids → ids !! i = Some e → (e < length (cl_heap l))%nat.
Proof. intros Hok Hi. destruct (ok_linked _ _ Hok i e Hi) as [v Hv]. by eapply lookup_lt_Some. Qed.

Lemma last_index ids t : last ids = Some t → ids !! (length ids - 1)%nat = Some t ∧ (0 < length ids)%nat.
Proof. rewrite last_lookup. intros Ht. pose proof (lookup_lt_Some _ _ _ Ht). replace (length ids - 1)%nat with (pred (length ids)) by lia. split; [done|lia]. Qed.

(** The heap with [e] added behind [t]. *)
Lemma linked_push heap ids t v w :
  NoDup ids → last ids = Some t → (∀ i e, ids !! i = Some e → linked heap ids i e) →
  heap !! t = Some (mkCElement (before ids (length ids - 1)) (bool_decide (before ids (length ids - 1) ≠ None)) None false false w) →
  let e := length heap in
  let heap' := <[t := mkCElement (before ids (length ids - 1)) (bool_decide (before ids (length ids - 1) ≠ None)) (Some e) true false w]>
                 (heap ++ [mkCElement (Some t) true None false false v]) in
  ∀ i x, (ids ++ [e]) !! i = Some x → linked heap' (ids ++ [e]) i x.
Proof.
  intros Hnd Hlast Hl Ht e heap' i x Hx. destruct (last_index _ _ Hlast) as [Hti Hpos].
  pose proof (lookup_lt_Some _ _ _ Ht) as Htl. unfold linked, heap'. apply lookup_app_Some in Hx as [Hx|[Hge Hx] ].
  - pose proof (lookup_lt_Some _ _ _ Hx) as Hi. assert (before (ids ++ [e]) i = before ids i) as Hb.
    { destruct i; [done|]. cbn. by rewrite lookup_app_l by lia. }
    destruct (decide (x = t)) as [->|Hne].
    + assert (i = length ids - 1)%nat as -> by (eapply NoDup_lookup; done). exists w.
      rewrite list_lookup_insert_eq by (rewrite length_app; lia). rewrite Hb, lookup_app_r by lia.
      replace (S (length ids - 1) - length ids)%nat with 0%nat by lia. done.
    + destruct (Hl i x Hx) as [u Hu]. exists u. rewrite list_lookup_insert_ne by done.
      rewrite lookup_app_l by (by eapply lookup_lt_Some). rewrite Hb, lookup_app_l; [done|].
      destruct (decide (i = length ids - 1)%nat) as [->|]; [|lia]. congruence.
  - apply list_lookup_singleton_Some in Hx as [Hi <-]. replace i with (length ids) by lia. exists v.
    rewrite list_lookup_insert_ne by lia. rewrite lookup_app_r by lia. rewrite Nat.sub_diag. cbn [lookup list_lookup].
    assert (before (ids ++ [e]) (length ids) = Some t) as ->.
    { destruct (length ids) as [|n] eqn:En; [lia|]. cbn. rewrite lookup_app_l by lia. replace (S n - 1)%nat with n in Hti by lia. done. }
    rewrite lookup_ge_None_2 by (rewrite length_app; simpl; lia). done.
Qed.

(** The values of the elements of a list that exists in both heaps. *)
Definition same_values (heap heap' : list (CElement A)) : Prop :=
  ∀ e c, heap !! e = Some c → ∃ c', heap' !! e = Some c' ∧ ce_Value c' = ce_Value c.

Lemma same_values_refl heap : same_values heap heap.
Proof. intros e c Hc. by exists c. Qed.
Lemma same_values_trans h1 h2 h3 : same_values h1 h2 → same_values h2 h3 → same_values h1 h3.
Proof. intros H12 H23 e c Hc. destruct (H12 e c Hc) as (c2 & Hc2 & Hv2). destruct (H23 e c2 Hc2) as (c3 & Hc3 & Hv3). exists c3. split; [done|congruence]. Qed.
Lemma same_values_insert heap e c c' : heap !! e = Some c → ce_Value c' = ce_Value c → same_values heap (<[e:=c']> heap).
Proof.
  intros He Hv x cx Hx. destruct (decide (x = e)) as [->|Hne].
  - exists c'. split; [apply list_lookup_insert_eq; by eapply lookup_lt_Some|congruence].
  - exists cx. by rewrite list_lookup_insert_ne.
Qed.
Lemma same_values_app heap k : same_values heap (heap ++ k).
Proof. intros e c Hc. exists c. split; [|done]. by apply lookup_app_l_Some. Qed.

Lemma insert_last (heap : list (CElement A)) c d : <[length heap:=c]> (heap ++ [d]) = heap ++ [c].
Proof. by rewrite insert_app_r_alt, Nat.sub_diag. Qed.

Lemma PushBack_ok l ids v :
  clist_ok l ids → cl_curLen l < cl_maxLen l →
  ∃ l', PushBack l v = Ret (l', length (cl_heap l)) ∧ clist_ok l' (ids ++ [length (cl_heap l)]) ∧ cl_maxLen l' = cl_maxLen l ∧
    same_values (cl_heap l) (cl_heap l') ∧ ce_Value <$> cl_heap l' !! length (cl_heap l) = Some v.
Proof.
  intros Hok Hmax. set (e := length (cl_heap l)). assert (e ∉ ids) as Hfresh.
  { intros [i Hi]%list_elem_of_lookup_1. pose proof (ids_in_heap _ _ _ _ Hok Hi). lia. }
  assert (NoDup (ids ++ [e])) as Hnd by (apply NoDup_app; split; [apply Hok|]; split; [intros x Hx ->%list_elem_of_singleton; done|apply NoDup_singleton] ).
  unfold PushBack. cbn. fold e. rewrite (ok_done _ _ Hok), (ok_tail _ _ Hok).
  assert ((cl_maxLen l <=? cl_curLen l) = false) as -> by (apply Z.leb_gt; lia).
  assert ((if cl_curLen l =? 0 then signal (bool_decide (ids ≠ [])) else Ret (bool_decide (ids ≠ []))) = Ret true) as ->.
  { rewrite (ok_len _ _ Hok). destruct ids; [done|]. rewrite len_cons. pose proof (len_nonneg ids). by destruct (Z.eqb_spec (1 + len ids) 0); [lia|]. }
  cbn [mbind outcome_bind]. destruct (last ids) as [t|] eqn:Et.
  - destruct (last_index _ _ Et) as [Hti Hpos]. destruct (ok_linked _ _ Hok _ _ Hti) as [w Hw]. rewrite (lookup_ge_None_2 ids (S _)) in Hw by lia.
    unfold SetPrev, SetNext, element. cbn. rewrite lookup_app_r, Nat.sub_diag by done. cbn. assert (∀ c d, <[e:=c]> (cl_heap l ++ [d]) = cl_heap l ++ [c]) as Hins by (intros; apply insert_last). rewrite Hins.
    rewrite lookup_app_l, Hw by (by eapply lookup_lt_Some). cbn. eexists. split; [reflexivity|].
    unfold with_tail, with_element. cbn. rewrite Hins. split; [|split; [done|split] ].
    + split; cbn; [done| | | | | |].
      * rewrite (ok_head _ _ Hok). by destruct ids.
      * by rewrite last_snoc.
      * rewrite (ok_len _ _ Hok), len_app. done.
      * by destruct ids.
      * exact (linked_push (cl_heap l) ids t v w (ok_nodup _ _ Hok) Et (ok_linked _ _ Hok) Hw).
      * intros x c Hx Hni. apply not_elem_of_app in Hni as [Hni Hne]. apply list_lookup_insert_Some in Hx as [(<- & _ & _)|[_ Hx] ].
        { destruct Hni. by eapply list_elem_of_lookup_2. }
        apply lookup_app_Some in Hx as [Hx|[Hge Hx] ]; [by eapply (ok_removed _ _ Hok)|]. apply list_lookup_singleton_Some in Hx as [? _].
        destruct Hne. apply list_elem_of_singleton. unfold e. lia.
    + eapply same_values_trans; [apply (same_values_app _ [mkCElement (Some t) true None false false v])|].
      eapply same_values_insert; [by apply lookup_app_l_Some|done].
    + assert (e ≠ t) by (unfold e; pose proof (lookup_lt_Some _ _ _ Hw); lia). rewrite list_lookup_insert_ne by done.
      by rewrite lookup_app_r, Nat.sub_diag by done.
  - assert (ids = []) as -> by (by apply last_None). eexists. split; [reflexivity|]. split; [|split; [done|split; [apply same_values_app|] ] ].
    + split; cbn; try done.
      * by rewrite (ok_len _ _ Hok).
      * intros i x Hx. apply list_lookup_singleton_Some in Hx as [-> <-]. exists v. cbn. by rewrite lookup_app_r, Nat.sub_diag by done.
      * intros x c Hx Hni. apply lookup_app_Some in Hx as [Hx|[Hge Hx] ]; [eapply (ok_removed _ _ Hok); [done|apply not_elem_of_nil]|].
        apply list_lookup_singleton_Some in Hx as [? _]. destruct Hni. apply list_elem_of_singleton. unfold e. lia.
    + cbn. by rewrite lookup_app_r, Nat.sub_diag by done.
Qed.

Lemma before_delete ids k i : (i ≤ k)%nat → before (delete k ids) i = before ids i.
Proof. intros Hi. destruct i as [|i]; [done|]. cbn. by rewrite list_lookup_delete_lt by lia. Qed.
Lemma before_delete_gt ids k i : (k < i)%nat → before (delete k ids) i = ids !! i.
Proof. intros Hi. destruct i as [|i]; [lia|]. cbn. by rewrite list_lookup_delete_ge by lia. Qed.

(** The neighbours of the element at [k] are joined, the others stay. *)
Lemma linked_remove heap heap' ids k :
  (∀ i e, ids !! i = Some e → linked heap ids i e) →
  (∀ i x, ids !! i = Some x → i ≠ k → S i ≠ k → i ≠ S k → heap' !! x = heap !! x) →
  (∀ i p, ids !! i = Some p → S i = k → ∃ w, heap' !! p =
    Some (mkCElement (before ids i) (bool_decide (before ids i ≠ None)) (ids !! S k) (bool_decide (ids !! S k ≠ None)) false w)) →
  (∀ n, ids !! S k = Some n → ∃ w, heap' !! n =
    Some (mkCElement (before ids k) (bool_decide (before ids k ≠ None)) (ids !! S (S k)) (bool_decide (ids !! S (S k) ≠ None)) false w)) →
  ∀ i x, delete k ids !! i = Some x → linked heap' (delete k ids) i x.
Proof.
  intros Hl Hother Hprev Hnext i x Hx. unfold linked. destruct (Nat.lt_ge_cases i k) as [Hlt|Hge].
  - rewrite list_lookup_delete_lt in Hx by done. rewrite before_delete by lia. destruct (decide (S i = k)) as [Hk|Hne].
    + destruct (Hprev i x Hx Hk) as [w Hw]. exists w. rewrite list_lookup_delete_ge by lia. by rewrite Hk.
    + destruct (Hl i x Hx) as [w Hw]. exists w. rewrite (Hother i x) by (done || lia). by rewrite list_lookup_delete_lt by lia.
  - rewrite list_lookup_delete_ge in Hx by done. rewrite (list_lookup_delete_ge _ k (S i)) by lia. destruct (decide (i = k)) as [->|Hne].
    + destruct (Hnext x Hx) as [w Hw]. exists w. by rewrite before_delete by lia.
    + destruct (Hl (S i) x Hx) as [w Hw]. exists w. rewrite (Hother (S i) x) by (done || lia). rewrite before_delete_gt by lia. exact Hw.
Qed.

(** [Remove] as far as the heap goes. *)
Definition joined (heap : list (CElement A)) (prev next : option nat) : list (CElement A) :=
  let heap := match prev with
              | None => heap
              | Some p => alter (λ c, mkCElement (ce_prev c) (ce_prevDone c) next (bool_decide (next ≠ None)) (ce_removed c) (ce_Value c)) p heap
              end in
  match next with
  | None => heap
  | Some n => alter (λ c, mkCElement prev (bool_decide (prev ≠ None)) (ce_next c) (ce_nextDone c) (ce_removed c) (ce_Value c)) n heap
  end.
Definition marked (heap : list (CElement A)) (e : nat) : list (CElement A) :=
  alter (λ c, mkCElement (ce_prev c) true (ce_next c) true true (ce_Value c)) e heap.

Lemma alter_insert (heap : list (CElement A)) (f : CElement A → CElement A) e c : heap !! e = Some c → alter f e heap = <[e:=f c]> heap.
Proof.
  intros He. apply list_eq. intros i. destruct (decide (i = e)) as [->|Hne].
  - rewrite list_lookup_alter_eq, He. cbn. by rewrite list_lookup_insert_eq by (by eapply lookup_lt_Some).
  - by rewrite list_lookup_alter_ne, list_lookup_insert_ne by done.
Qed.

Lemma joined_lookup heap prev next x :
  prev ≠ Some x → next ≠ Some x → joined heap prev next !! x = heap !! x.
Proof.
  intros Hp Hn. unfold joined. destruct prev as [p|], next as [n|]; rewrite ?list_lookup_alter_ne by congruence; done.
Qed.

Lemma joined_prev heap p next c :
  next ≠ Some p → heap !! p = Some c →
  joined heap (Some p) next !! p = Some (mkCElement (ce_prev c) (ce_prevDone c) next (bool_decide (next ≠ None)) (ce_removed c) (ce_Value c)).
Proof.
  intros Hn Hc. unfold joined. destruct next as [n|]; [rewrite list_lookup_alter_ne by congruence|]; by rewrite list_lookup_alter_eq, Hc.
Qed.

Lemma joined_next heap prev n c :
  prev ≠ Some n → heap !! n = Some c →
  joined heap prev (Some n) !! n = Some (mkCElement prev (bool_decide (prev ≠ None)) (ce_next c) (ce_nextDone c) (ce_removed c) (ce_Value c)).
Proof.
  intros Hp Hc. unfold joined. rewrite list_lookup_alter_eq. destruct prev as [p|]; [rewrite list_lookup_alter_ne by congruence|]; by rewrite Hc.
Qed.

Lemma same_values_alter heap (f : CElement A → CElement A) e : (∀ c, ce_Value (f c) = ce_Value c) → same_values heap (alter f e heap).
Proof.
  intros Hf x c Hx. destruct (decide (x = e)) as [->|Hne].
  - exists (f c). by rewrite list_lookup_alter_eq, Hx.
  - exists c. by rewrite list_lookup_alter_ne.
Qed.

Lemma same_values_removed heap prev next e : same_values heap (marked (joined heap prev next) e).
Proof.
  unfold marked. eapply same_values_trans; [|by apply same_values_alter]. unfold joined.
  destruct prev, next; try apply same_values_refl; try (by apply same_values_alter). eapply same_values_trans; by apply same_values_alter.
Qed.

Lemma neighbours_differ ids k e : NoDup ids → ids !! k = Some e → before ids k ≠ Some e ∧ ids !! S k ≠ Some e ∧ (before ids k = None ∨ before ids k ≠ ids !! S k).
Proof.
  intros Hnd He. assert (∀ i, ids !! i = Some e → i = k) as Huniq by (intros i Hi; by eapply NoDup_lookup). split_and!.
  - destruct k as [|k]; [done|]. cbn. intros Hk. specialize (Huniq _ Hk). lia.
  - intros Hk. specialize (Huniq _ Hk). lia.
  - destruct k as [|k]; [by left|right]. cbn. destruct (ids !! k) as [p|] eqn:Ep; [|apply lookup_ge_None in Ep; pose proof (lookup_lt_Some _ _ _ He); lia].
    intros Hk. pose proof (NoDup_lookup _ _ _ _ Hnd Ep (eq_sym Hk)). lia.
Qed.

Lemma new_done_change e (new : option nat) : new_done (Some e) new true = Ret (bool_decide (new ≠ None)).
Proof. by destruct new. Qed.

Lemma join_steps l prev next e v :
  (∀ p, prev = Some p → ∃ c, cl_heap l !! p = Some c ∧ ce_next c = Some e ∧ ce_nextDone c = true) →
  (∀ n, next = Some n → ∃ c, cl_heap l !! n = Some c ∧ ce_prev c = Some e ∧ ce_prevDone c = true) →
  prev ≠ Some e → next ≠ Some e → (prev = None ∨ prev ≠ next) →
  cl_heap l !! e = Some (mkCElement prev (bool_decide (prev ≠ None)) next (bool_decide (next ≠ None)) false v) →
  (l ← (match prev with None => Ret (with_head l next) | Some p => SetNext l p next end);
   l ← (match next with None => Ret (with_tail l prev) | Some n => SetPrev l n prev end);
   SetRemoved l e) =
  Ret (mkCList (marked (joined (cl_heap l) prev next) e) (cl_done l) (if decide (prev = None) then next else cl_head l)
         (if decide (next = None) then prev else cl_tail l) (cl_curLen l) (cl_maxLen l)).
Proof.
  intros Hp Hn Hpe Hne Hpn He. pose proof (joined_lookup (cl_heap l) prev next e Hpe Hne) as Hj. rewrite He in Hj.
  assert (marked (joined (cl_heap l) prev next) e = <[e:=mkCElement prev true next true true v]> (joined (cl_heap l) prev next)) as Hm.
  { unfold marked. by rewrite (alter_insert _ _ _ _ Hj). }
  rewrite Hm. clear Hm. unfold joined in *. destruct prev as [p|].
  - destruct (Hp p eq_refl) as (cp & Hcp & Hnp & Hdp). unfold SetNext at 1. unfold element. rewrite Hcp. cbn [mbind outcome_bind].
    rewrite Hnp, Hdp, new_done_change. cbn [mbind outcome_bind]. rewrite (alter_insert _ _ _ _ Hcp) in *. destruct next as [n|].
    + destruct (Hn n eq_refl) as (cn & Hcn & Hpr & Hdn). unfold SetPrev, element, with_element. cbn [cl_heap].
      assert (p ≠ n) as Hd by (destruct Hpn as [?|Hpn]; congruence). rewrite list_lookup_insert_ne, Hcn by done. cbn [mbind outcome_bind].
      rewrite Hpr, Hdn, new_done_change. cbn [mbind outcome_bind]. unfold SetRemoved, element. cbn [cl_heap].
      erewrite alter_insert in Hj |- * by (by rewrite list_lookup_insert_ne). rewrite Hj. done.
    + cbn [mbind outcome_bind]. unfold SetRemoved, element, with_tail, with_element. cbn [cl_heap]. rewrite Hj. done.
  - cbn [mbind outcome_bind]. destruct next as [n|].
    + destruct (Hn n eq_refl) as (cn & Hcn & Hpr & Hdn). unfold SetPrev, element, with_element, with_head. cbn [cl_heap]. rewrite Hcn. cbn [mbind outcome_bind].
      rewrite Hpr, Hdn, new_done_change. cbn [mbind outcome_bind]. unfold SetRemoved, element. cbn [cl_heap].
      rewrite (alter_insert _ _ _ _ Hcn) in *. rewrite Hj. done.
    + cbn [mbind outcome_bind]. unfold SetRemoved, element, with_tail, with_head, with_element. cbn [cl_heap]. rewrite Hj. done.
Qed.

(** The code computes that heap. *)
Lemma Remove_heap l ids k e :
  clist_ok l ids → ids !! k = Some e →
  Remove l e = Ret (mkCList (marked (joined (cl_heap l) (before ids k) (ids !! S k)) e) (if cl_curLen l =? 1 then false else cl_done l)
    (if decide (before ids k = None) then ids !! S k else cl_head l) (if decide (ids !! S k = None) then before ids k else cl_tail l)
    (cl_curLen l - 1) (cl_maxLen l)).
Proof.
  intros Hok He. pose proof (ok_nodup _ _ Hok) as Hnd. destruct (neighbours_differ _ _ _ Hnd He) as (Hpe & Hne & Hpn).
  destruct (ok_linked _ _ Hok k e He) as [v Hv]. pose proof (lookup_lt_Some _ _ _ He) as Hkl.
  assert (cl_head l ≠ None ∧ cl_tail l ≠ None) as [Hh Ht].
  { rewrite (ok_head _ _ Hok), (ok_tail _ _ Hok). destruct ids as [|a r]; [simpl in Hkl; lia|]. split; [done|]. by rewrite last_cons; destruct (last r). }
  unfold Remove, Prev, Next, element. rewrite Hv. cbn [mbind outcome_bind ce_prev ce_next].
  rewrite (bool_decide_eq_false_2 (cl_head l = None)), (bool_decide_eq_false_2 (cl_tail l = None)) by done. cbn [orb].
  assert (bool_decide (before ids k = None) && negb (bool_decide (cl_head l = Some e)) = false) as ->.
  { destruct k as [|k]; [|rewrite (bool_decide_eq_false_2 (before ids (S k) = None)); [done|]; cbn; intros Hb%lookup_ge_None; lia].
    rewrite (ok_head _ _ Hok), He. by rewrite (bool_decide_eq_true_2 (Some e = Some e)). }
  assert (bool_decide (ids !! S k = None) && negb (bool_decide (cl_tail l = Some e)) = false) as ->.
  { destruct (decide (ids !! S k = None)) as [Hb|Hb]; [|by rewrite (bool_decide_eq_false_2 _ Hb)]. rewrite (bool_decide_eq_true_2 _ Hb).
    apply lookup_ge_None in Hb. rewrite (ok_tail _ _ Hok), last_lookup.
    replace (pred (length ids)) with k by lia. rewrite He. by rewrite (bool_decide_eq_true_2 (Some e = Some e)). }
  rewrite (join_steps _ _ _ _ v); try done.
  - intros p Hp. cbn [cl_heap]. destruct k as [|k]; [done|]. cbn in Hp. destruct (ok_linked _ _ Hok k p Hp) as [w Hw]. eexists. split; [exact Hw|]. cbn. by rewrite He.
  - intros n Hn. cbn [cl_heap]. destruct (ok_linked _ _ Hok (S k) n Hn) as [w Hw]. eexists. split; [exact Hw|]. cbn. by rewrite He.
Qed.

Lemma marked_lookup heap e x : x ≠ e → marked heap e !! x = heap !! x.
Proof. intros Hne. unfold marked. by rewrite list_lookup_alter_ne. Qed.

Lemma elem_delete ids k e x : ids !! k = Some e → NoDup ids → x ∈ delete k ids ↔ x ∈ ids ∧ x ≠ e.
Proof.
  intros He Hnd. rewrite <-(take_drop_middle _ _ _ He) in Hnd. rewrite delete_take_drop.
  rewrite <-(take_drop_middle _ _ _ He) at 3. apply NoDup_app in Hnd as (_ & Hdis & [Hni _]%NoDup_cons).
  rewrite !elem_of_app, elem_of_cons. split.
  - intros [Hx|Hx]; (split; [tauto|]); intros ->; [by apply (Hdis e Hx); left|done].
  - intros [[Hx|[Hx|Hx]] Hne]; tauto.
Qed.

Lemma removed_linked l ids k e :
  clist_ok l ids → ids !! k = Some e →
  ∀ i x, delete k ids !! i = Some x → linked (marked (joined (cl_heap l) (before ids k) (ids !! S k)) e) (delete k ids) i x.
Proof.
  intros Hok He. pose proof (ok_nodup _ _ Hok) as Hnd. destruct (neighbours_differ _ _ _ Hnd He) as (Hpe & Hne & Hpn).
  assert (∀ i x, ids !! i = Some x → i ≠ k → x ≠ e) as Hoth by (intros i x Hi Hik ->; apply Hik; by eapply NoDup_lookup).
  apply (linked_remove (cl_heap l)); [apply Hok| | |].
  - intros i x Hx H1 H2 H3. rewrite marked_lookup by (by eapply Hoth). apply joined_lookup.
    + destruct k as [|k]; [done|]. cbn. intros Hb. pose proof (NoDup_lookup _ _ _ _ Hnd Hx Hb). lia.
    + intros Hb. pose proof (NoDup_lookup _ _ _ _ Hnd Hx Hb). lia.
  - intros i q Hq Hi. rewrite marked_lookup by (eapply Hoth; [done|lia]). subst k. cbn [before]. rewrite Hq.
    destruct (ok_linked _ _ Hok i q Hq) as [w Hw]. exists w.
    erewrite joined_prev; [|intros Hb; pose proof (NoDup_lookup _ _ _ _ Hnd Hq Hb); lia|exact Hw]. done.
  - intros n Hn. rewrite marked_lookup by (eapply Hoth; [done|lia]). rewrite Hn. destruct (ok_linked _ _ Hok (S k) n Hn) as [w Hw]. exists w.
    erewrite joined_next; [|destruct Hpn as [-> |Hpn]; [done|congruence]|exact Hw]. done.
Qed.

Lemma removed_ends ids k e :
  ids !! k = Some e →
  (if decide (before ids k = None) then ids !! S k else ids !! 0%nat) = delete k ids !! 0%nat ∧
  (if decide (ids !! S k = None) then before ids k else last ids) = last (delete k ids).
Proof.
  intros He. pose proof (lookup_lt_Some _ _ _ He) as Hk. split.
  - destruct k as [|k]; cbn; [by rewrite list_lookup_delete_ge by lia|].
    rewrite list_lookup_delete_lt by lia. case_decide as Hb; [apply lookup_ge_None in Hb; lia|done].
  - rewrite !last_lookup, length_delete by done. case_decide as Hb.
    + apply lookup_ge_None in Hb. destruct k as [|k]; cbn.
      * symmetry. apply lookup_ge_None. rewrite length_delete by done. lia.
      * rewrite list_lookup_delete_lt by lia. f_equal. lia.
    + apply not_eq_None_Some, lookup_lt_is_Some in Hb. rewrite list_lookup_delete_ge by lia. f_equal. lia.
Qed.

Lemma Remove_ok l ids k e :
  clist_ok l ids → ids !! k = Some e →
  ∃ l', Remove l e = Ret l' ∧ clist_ok l' (delete k ids) ∧ cl_maxLen l' = cl_maxLen l ∧ same_values (cl_heap l) (cl_heap l') ∧
    ∃ c, cl_heap l' !! e = Some c ∧ ce_removed c = true ∧ ce_next c = ids !! S k.
Proof.
  intros Hok He. rewrite (Remove_heap _ _ _ _ Hok He). eexists. split; [reflexivity|]. destruct (removed_ends _ _ _ He) as [Hhead Htail].
  pose proof (ok_nodup _ _ Hok) as Hnd. pose proof (lookup_lt_Some _ _ _ He) as Hk. destruct (neighbours_differ _ _ _ Hnd He) as (Hpe & Hne & Hpn).
  split; [|split; [done|split; [apply same_values_removed|] ] ].
  - split; cbn.
    + eapply sublist_NoDup; [exact Hnd|apply sublist_delete].
    + by rewrite (ok_head _ _ Hok).
    + by rewrite (ok_tail _ _ Hok).
    + rewrite (ok_len _ _ Hok). unfold len. rewrite length_delete by done. lia.
    + rewrite (ok_done _ _ Hok), (ok_len _ _ Hok). destruct (Z.eqb_spec (len ids) 1) as [Hl|Hl]; unfold len in Hl.
      * rewrite bool_decide_eq_false_2; [done|]. intros Hd. apply Hd, nil_length_inv. rewrite length_delete by done. lia.
      * rewrite !bool_decide_eq_true_2; [done| |]; [|intros ->; simpl in Hk; lia]. intros Hd. apply (f_equal length) in Hd. rewrite length_delete in Hd by done. simpl in Hd. lia.
    + by apply removed_linked.
    + intros x c Hx Hni. destruct (decide (x = e)) as [->|Hxe].
      { unfold marked in Hx. rewrite list_lookup_alter_eq in Hx. destruct (joined _ _ _ !! e); [|done]. by injection Hx as <-. }
      rewrite marked_lookup in Hx by done. assert (x ∉ ids) as Hxi by (intros Hxi; apply Hni, (elem_delete _ _ _ _ He Hnd); done).
      rewrite joined_lookup in Hx; [by eapply (ok_removed _ _ Hok)| |]; intros Hb; apply Hxi; [destruct k as [|k]; [done|]|]; by eapply list_elem_of_lookup_2.
  - cbn. unfold marked. rewrite list_lookup_alter_eq, joined_lookup by done. destruct (ok_linked _ _ Hok k e He) as [w ->]. by eexists.
Qed.

(** A detached element is no longer in the list. *)
Lemma DetachPrev_ok l ids e c :
  clist_ok l ids → cl_heap l !! e = Some c → ce_removed c = true → e ∉ ids →
  ∃ l', DetachPrev l e = Ret l' ∧ clist_ok l' ids ∧ cl_maxLen l' = cl_maxLen l ∧ same_values (cl_heap l) (cl_heap l').
Proof.
  intros Hok He Hr Hni. unfold DetachPrev, element. rewrite He. cbn. rewrite Hr. cbn. eexists. split; [reflexivity|].
  split; [|split; [done|by eapply same_values_insert] ]. destruct Hok. split; cbn; try done.
  - intros i x Hx. destruct (ok_linked0 i x Hx) as [v Hv]. exists v. rewrite list_lookup_insert_ne; [done|]. intros <-. apply Hni. by eapply list_elem_of_lookup_2.
  - intros x cx Hx Hxi. apply list_lookup_insert_Some in Hx as [(<- & <- & _)|[_ Hx] ]; [done|by eapply ok_removed0].
Qed.

Lemma set_Value_ok l ids e f :
  clist_ok l ids → clist_ok (set_Value l e f) ids ∧ cl_maxLen (set_Value l e f) = cl_maxLen l ∧
  ∀ x, ce_Value <$> cl_heap (set_Value l e f) !! x = (if decide (x = e) then f else id) <$> (ce_Value <$> cl_heap l !! x).
Proof.
  intros Hok. unfold set_Value. destruct (cl_heap l !! e) as [c|] eqn:Ec.
  2: { split; [done|]. split; [done|]. intros x. case_decide as Hx; [subst x; by rewrite Ec|]. by destruct (cl_heap l !! x). }
  split; [|split; [done|] ].
  - destruct Hok. split; cbn; try done.
    + intros i x Hx. destruct (ok_linked0 i x Hx) as [v Hv]. unfold linked. destruct (decide (x = e)) as [->|Hne].
      * exists (f v). rewrite list_lookup_insert_eq by (by eapply lookup_lt_Some). rewrite Hv in Ec. by injection Ec as <-.
      * exists v. by rewrite list_lookup_insert_ne.
    + intros x cx Hx Hxi. apply list_lookup_insert_Some in Hx as [(<- & <- & _)|[_ Hx] ]; [cbn; by eapply ok_removed0|by eapply ok_removed0].
  - intros x. cbn. case_decide as Hx.
    + subst x. rewrite list_lookup_insert_eq, Ec by (by eapply lookup_lt_Some). done.
    + rewrite list_lookup_insert_ne by done. by destruct (cl_heap l !! x).
Qed.

(** The values of given elements. *)
Definition values_of (heap : list (CElement A)) (ids : list nat) : list A := omap (λ e, ce_Value <$> heap !! e) ids.

Lemma values_of_same heap heap' ids :
  same_values heap heap' → (∀ e, e ∈ ids → is_Some (heap !! e)) → values_of heap' ids = values_of heap ids.
Proof.
  intros Hs. induction ids as [|e ids IH]; intros Hin; [done|]. unfold values_of in *. cbn. destruct (Hin e ltac:(by left)) as [c Hc].
  destruct (Hs e c Hc) as (c' & Hc' & Hv). rewrite Hc, Hc'. cbn. rewrite Hv, IH; [done|]. intros x Hx. apply Hin. by right.
Qed.

Lemma ids_some l ids e : clist_ok l ids → e ∈ ids → is_Some (cl_heap l !! e).
Proof. intros Hok [i Hi]%list_elem_of_lookup_1. destruct (ok_linked _ _ Hok i e Hi) as [v Hv]. by eexists. Qed.

Lemma values_of_delete heap ids k :
  (∀ e, e ∈ ids → is_Some (heap !! e)) → values_of heap (delete k ids) = delete k (values_of heap ids).
Proof.
  revert k. induction ids as [|e ids IH]; intros k Hin; [done|]. destruct (Hin e ltac:(by left)) as [c Hc]. unfold values_of in *.
  destruct k as [|k]; cbn; rewrite Hc; cbn; [done|]. f_equal. apply IH. intros x Hx. apply Hin. by right.
Qed.

Lemma values_ok l ids : clist_ok l ids → values l = values_of (cl_heap l) ids.
Proof. intros Hok. unfold values. by rewrite (elements_ok _ _ Hok). Qed.

Lemma PushBack_values l ids v :
  clist_ok l ids → cl_curLen l < cl_maxLen l →
  ∃ l', PushBack l v = Ret (l', length (cl_heap l)) ∧ clist_ok l' (ids ++ [length (cl_heap l)]) ∧ cl_maxLen l' = cl_maxLen l ∧
    same_values (cl_heap l) (cl_heap l') ∧ values l' = values l ++ [v].
Proof.
  intros Hok Hlt. destruct (PushBack_ok l ids v Hok Hlt) as (l' & Hp & Hok' & Hm & Hs & Hv). exists l'. split_and!; try done.
  rewrite (values_ok _ _ Hok'), (values_ok _ _ Hok). unfold values_of at 1. rewrite omap_app. cbn. rewrite Hv. f_equal.
  apply values_of_same; [done|]. intros e. by apply ids_some.
Qed.

(** [Remove] and [DetachPrev], as the mempool removes a transaction. *)
Lemma Remove_values l ids k e :
  clist_ok l ids → ids !! k = Some e →
  ∃ l1 l', Remove l e = Ret l1 ∧ DetachPrev l1 e = Ret l' ∧ clist_ok l' (delete k ids) ∧ cl_maxLen l' = cl_maxLen l ∧
    same_values (cl_heap l) (cl_heap l') ∧ values l' = delete k (values l).
Proof.
  intros Hok He. destruct (Remove_ok l ids k e Hok He) as (l1 & Hr & Hok1 & Hm1 & Hs1 & c & Hc & Hrem & _).
  destruct (DetachPrev_ok l1 (delete k ids) e c Hok1 Hc Hrem) as (l' & Hd & Hok' & Hm' & Hs').
  { intros Hin. by apply (elem_delete _ _ _ _ He (ok_nodup _ _ Hok)) in Hin as [_ ?]. }
  exists l1, l'. pose proof (same_values_trans _ _ _ Hs1 Hs') as Hs. split_and!; try done; [congruence|].
  rewrite (values_ok _ _ Hok'), (values_ok _ _ Hok). rewrite (values_of_same (cl_heap l)); [|done|].
  - apply values_of_delete. intros x. by apply ids_some.
  - intros x [Hx _]%(elem_delete _ _ _ _ He (ok_nodup _ _ Hok)). by eapply ids_some.
Qed.

Lemma NextWait_ok l ids i e :
  clist_ok l ids → ids !! i = Some e → NextWait l e = Ret (match ids !! S i with Some n => Some (Some n) | None => None end).
Proof.
  intros Hok He. unfold NextWait, element. destruct (ok_linked _ _ Hok i e He) as [v ->]. cbn. by destruct (ids !! S i).
Qed.

(** ** Refinement of sequences *)

Inductive list_op := Push (v : A) | Drop (k : nat).

Definition clist_op (op : list_op) (l : CList A) : outcome (CList A) :=
  match op with
  | Push v => '(l, _) ← PushBack l v; Ret l
  | Drop k => match elements l !! k with Some e => l ← Remove l e; DetachPrev l e | None => Ret l end
  end.
Definition seq_op (op : list_op) (xs : list A) : list A :=
  match op with Push v => xs ++ [v] | Drop k => delete k xs end.

Lemma length_values_of heap ids : (∀ e, e ∈ ids → is_Some (heap !! e)) → length (values_of heap ids) = length ids.
Proof.
  induction ids as [|e ids IH]; intros Hin; [done|]. destruct (Hin e ltac:(by left)) as [c Hc]. unfold values_of in *. cbn. rewrite Hc. cbn.
  f_equal. apply IH. intros x Hx. apply Hin. by right.
Qed.

Lemma clist_op_ok l ids op :
  clist_ok l ids → cl_curLen l < cl_maxLen l →
  ∃ l' ids', clist_op op l = Ret l' ∧ clist_ok l' ids' ∧ cl_maxLen l' = cl_maxLen l ∧ cl_curLen l' ≤ cl_curLen l + 1 ∧
    values l' = seq_op op (values l).
Proof.
  intros Hok Hlt. destruct op as [v|k]; cbn.
  - destruct (PushBack_values l ids v Hok Hlt) as (l' & -> & Hok' & Hm & _ & Hv). exists l', (ids ++ [length (cl_heap l)]). split_and!; try done.
    rewrite (ok_len _ _ Hok), (ok_len _ _ Hok'), len_app. done.
  - rewrite (elements_ok _ _ Hok). destruct (ids !! k) as [e|] eqn:Ek.
    + destruct (Remove_values l ids k e Hok Ek) as (l1 & l' & -> & Hd & Hok' & Hm & _ & Hv). exists l', (delete k ids). split_and!; try done.
      rewrite (ok_len _ _ Hok), (ok_len _ _ Hok'). unfold len. rewrite length_delete by done. lia.
    + exists l, ids. split_and!; try done; [lia|]. assert (length (values l) ≤ k)%nat as Hle.
      { rewrite (values_ok _ _ Hok), length_values_of by (intros x; by apply ids_some). by apply lookup_ge_None. }
      by rewrite delete_take_drop, take_ge, drop_ge, app_nil_r by lia.
Qed.
End proofs.

Arguments list_op : clear implicits.

(** C24: The concurrent list is a list.  Any sequence of insertions at the
    end and removals of present elements, each followed by the detachment,
    returns without a panic; following [Next] from [Front] gives the values
    that the same operations give on a sequence, [Len] is their number, and
    a wait for the next element blocks at the last one only. *)
Theorem clist_refines {A} (ops : list (list_op A)) :
  len ops < MaxLength →
  ∃ l, for_each clist_op ops New = Ret l ∧ values l = fold_left (λ xs op, seq_op op xs) ops [] ∧ Len l = len (values l) ∧
    ∀ i e, elements l !! i = Some e →
      NextWait l e = Ret (match elements l !! S i with Some n => Some (Some n) | None => None end).
Proof.
  intros Hlen. assert (∀ (l : CList A) ids, clist_ok l ids → cl_curLen l + len ops < cl_maxLen l →
    ∃ l' ids', for_each clist_op ops l = Ret l' ∧ clist_ok l' ids' ∧ values l' = fold_left (λ xs op, seq_op op xs) ops (values l)) as Hgo.
  { clear. induction ops as [|op ops IH]; intros l ids Hok Hlt; [by exists l, ids|]. rewrite len_cons in Hlt. pose proof (len_nonneg ops).
    destruct (clist_op_ok l ids op Hok ltac:(lia)) as (l1 & ids1 & H1 & Hok1 & Hm1 & Hc1 & Hv1).
    destruct (IH l1 ids1 Hok1 ltac:(lia)) as (l2 & ids2 & H2 & Hok2 & Hv2). exists l2, ids2. cbn. rewrite H1. cbn. split; [done|]. split; [done|].
    by rewrite Hv2, Hv1. }
  destruct (Hgo New [] New_ok ltac:(done)) as (l & ids & Hl & Hok & Hv). exists l. split; [done|]. split; [done|]. split.
  - unfold Len. rewrite (ok_len _ _ Hok), (values_ok _ _ Hok). unfold len. rewrite length_values_of; [done|]. intros e. by apply ids_some.
  - rewrite (elements_ok _ _ Hok). intros i e Hi. by apply (NextWait_ok _ ids).
Qed.

Lemma clist_refines_witness :
  ∃ l, for_each clist_op [Push 1; Push 2; Push 3; Drop 1] New = Ret l ∧ values l = [1; 3].
Proof.
  destruct (clist_refines [Push 1; Push 2; Push 3; Drop 1]) as (l & Hl & Hv & _); [reflexivity|]. exists l. split; [exact Hl|exact Hv].
Defined.
