(* ===== verification/TxCache.v ===== *)
(** * The transaction cache

    [mempool/cache.go]: the keys of the transactions seen last, in a map and
    a list in the order of use.  Elements of [container/list] are numbers;
    the mutex is left out, each operation is atomic. *)
From S2P Require Import Prelude.
From S2P Require Import Validator.

Definition Tx : Type := bytes.
Definition TxKey : Type := bytes.
Definition Tx_Key `{Crypto} (tx : Tx) : TxKey := sha256 tx.

Record LRUTxCache := mkLRUTxCache {
  cache_size : Z;
  cacheMap : gmap TxKey nat;
  cache_list : list (nat * TxKey);
  cache_fresh : nat;
}.

Definition NewLRUTxCache (cacheSize : Z) : LRUTxCache := mkLRUTxCache cacheSize ∅ [] 0.
Definition lru_Reset (c : LRUTxCache) : LRUTxCache := mkLRUTxCache (cache_size c) ∅ [] (cache_fresh c).

(** [container/list]: the element [e] at its key, without it, and last. *)
Definition list_Remove (l : list (nat * TxKey)) (e : nat) : list (nat * TxKey) := filter (λ x, x.1 ≠ e) l.
Definition list_MoveToBack (l : list (nat * TxKey)) (e : nat) : list (nat * TxKey) := list_Remove l e ++ filter (λ x, x.1 = e) l.

Definition lru_Push (c : LRUTxCache) (key : TxKey) : LRUTxCache * bool :=
  match cacheMap c !! key with
  | Some moved => (mkLRUTxCache (cache_size c) (cacheMap c) (list_MoveToBack (cache_list c) moved) (cache_fresh c), false)
  | None =>
      let '(m, l) := if cache_size c <=? len (cache_list c) then
                       match cache_list c with
                       | (front, frontKey) :: _ => (delete frontKey (cacheMap c), list_Remove (cache_list c) front)
                       | [] => (cacheMap c, cache_list c)
                       end
                     else (cacheMap c, cache_list c) in
      let e := cache_fresh c in
      (mkLRUTxCache (cache_size c) (<[key:=e]> m) (l ++ [(e, key)]) (S e), true)
  end.

Definition lru_Remove (c : LRUTxCache) (key : TxKey) : LRUTxCache :=
  let m := delete key (cacheMap c) in
  match cacheMap c !! key with
  | Some e => mkLRUTxCache (cache_size c) m (list_Remove (cache_list c) e) (cache_fresh c)
  | None => mkLRUTxCache (cache_size c) m (cache_list c) (cache_fresh c)
  end.

Definition lru_Has (c : LRUTxCache) (key : TxKey) : bool := match cacheMap c !! key with Some _ => true | None => false end.

(** The interface [TxCache] with its two implementations. *)
Inductive TxCache := LRU (c : LRUTxCache) | NopTxCache.

Section interface.
Context `{Crypto}.
Definition cache_Reset (c : TxCache) : TxCache := match c with LRU c => LRU (lru_Reset c) | NopTxCache => NopTxCache end.
Definition cache_Push (c : TxCache) (tx : Tx) : TxCache * bool :=
  match c with LRU c => let '(c, b) := lru_Push c (Tx_Key tx) in (LRU c, b) | NopTxCache => (NopTxCache, true) end.
Definition cache_Remove (c : TxCache) (tx : Tx) : TxCache := match c with LRU c => LRU (lru_Remove c (Tx_Key tx)) | NopTxCache => NopTxCache end.
Definition cache_Has (c : TxCache) (tx : Tx) : bool := match c with LRU c => lru_Has c (Tx_Key tx) | NopTxCache => false end.
End interface.

(** ** The keys in the order of use *)

Definition cache_keys (c : LRUTxCache) : list TxKey := (cache_list c).*2.

Record lru_ok (c : LRUTxCache) : Prop := {
  lo_ids : NoDup (cache_list c).*1;
  lo_keys : NoDup (cache_keys c);
  lo_map : ∀ k e, cacheMap c !! k = Some e ↔ (e, k) ∈ cache_list c;
  lo_fresh : ∀ e k, (e, k) ∈ cache_list c → (e < cache_fresh c)%nat;
  lo_size : len (cache_list c) ≤ Z.max 1 (cache_size c);
}.

(** What the cache promises: a sequence of keys, the oldest first. *)
Definition keys_Push (size : Z) (ks : list TxKey) (k : TxKey) : list TxKey * bool :=
  if decide (k ∈ ks) then (filter (.≠ k) ks ++ [k], false)
  else ((if size <=? len ks then tail ks else ks) ++ [k], true).
Definition keys_Remove (ks : list TxKey) (k : TxKey) : list TxKey := filter (.≠ k) ks.

Lemma remove_id_keys l e k :
  NoDup l.*1 → NoDup l.*2 → (e, k) ∈ l → (list_Remove l e).*2 = filter (.≠ k) l.*2 ∧ filter (λ x, x.1 = e) l = [(e, k)].
Proof.
  induction l as [|[e' k'] l IH]; intros Hi Hk Hin; [by apply not_elem_of_nil in Hin|]. apply NoDup_cons in Hi as [Hi1 Hi], Hk as [Hk1 Hk].
  cbn [fmap list_fmap fst snd] in *. unfold list_Remove in *. rewrite !filter_cons. cbn [fst snd]. apply elem_of_cons in Hin as [[= -> ->]|Hin].
  - destruct (decide (e' ≠ e')); [done|]. destruct (decide (k' ≠ k')); [done|]. destruct (decide (e' = e')); [|done].
    assert (∀ x, x ∈ l → x.1 ≠ e') as Hall.
    { intros [e1 k1] Hx Heq. cbn in Heq. subst e1. apply Hi1, list_elem_of_fmap. by exists (e', k1). }
    rewrite (filter_all (λ x, x.1 ≠ e')) by done. rewrite (filter_none (λ x, x.1 = e')) by done.
    rewrite filter_all; [done|]. intros x Hx ->. done.
  - assert (e' ≠ e) as Hne by (intros ->; apply Hi1; apply list_elem_of_fmap; by exists (e, k)).
    assert (k' ≠ k) as Hnk by (intros ->; apply Hk1; apply list_elem_of_fmap; by exists (e, k)).
    destruct (decide (e' ≠ e)); [|done]. destruct (decide (k' ≠ k)); [|done]. destruct (decide (e' = e)); [done|]. destruct (IH Hi Hk Hin) as [H1 H2]. cbn [fmap list_fmap fst snd]. by rewrite H1, H2.
Qed.

Lemma lru_ok_keys c k : lru_ok c → k ∈ cache_keys c ↔ is_Some (cacheMap c !! k).
Proof.
  intros Hok. unfold cache_keys. rewrite list_elem_of_fmap. split.
  - intros ([e k'] & -> & Hin). exists e. by apply (lo_map _ Hok).
  - intros [e He]. exists (e, k). split; [done|by apply (lo_map _ Hok)].
Qed.

Lemma MoveToBack_perm l e : list_MoveToBack l e ≡ₚ l.
Proof.
  unfold list_MoveToBack, list_Remove. rewrite <-(filter_app_complement (λ x, x.1 ≠ e) l) at 3. f_equiv.
  assert (filter (λ x : nat * TxKey, x.1 = e) l = filter (λ x, ¬ x.1 ≠ e) l) as ->; [|done].
  apply filter_ext_in. intros x _. split; [tauto|]. intros Hn. by apply dec_stable.
Qed.

(** The parts of the invariant but the size. *)
Definition lru_linked (m : gmap TxKey nat) (l : list (nat * TxKey)) (fresh : nat) : Prop :=
  NoDup l.*1 ∧ NoDup l.*2 ∧ (∀ k e, m !! k = Some e ↔ (e, k) ∈ l) ∧ (∀ e k, (e, k) ∈ l → (e < fresh)%nat).

Lemma lru_ok_linked c : lru_ok c ↔ lru_linked (cacheMap c) (cache_list c) (cache_fresh c) ∧ len (cache_list c) ≤ Z.max 1 (cache_size c).
Proof. split; [by intros []|]. by intros ((?&?&?&?)&?). Qed.

Lemma NoDup_fst_inj {A B} (l : list (A * B)) e k k' : NoDup l.*1 → (e, k) ∈ l → (e, k') ∈ l → k = k'.
Proof.
  intros Hd [i Hi]%list_elem_of_lookup_1 [j Hj]%list_elem_of_lookup_1.
  assert (i = j) as ->; [|congruence].
  eapply NoDup_lookup; [exact Hd| |]; rewrite list_lookup_fmap; [rewrite Hi|rewrite Hj]; done.
Qed.

Lemma NoDup_snoc {A} (l : list A) x : NoDup l → x ∉ l → NoDup (l ++ [x]).
Proof. intros Hl Hx. apply NoDup_app. split_and!; [done| |apply NoDup_singleton]. by intros y Hy ->%list_elem_of_singleton. Qed.

Lemma lru_linked_remove m l fresh e k :
  lru_linked m l fresh → m !! k = Some e → lru_linked (delete k m) (list_Remove l e) fresh ∧ (list_Remove l e).*2 = filter (.≠ k) l.*2.
Proof.
  intros (Hi & Hk & Hm & Hf) He. pose proof (proj1 (Hm k e) He) as Hek. destruct (remove_id_keys l e k Hi Hk Hek) as [H1 _]. split; [|done].
  assert (∀ x, x ∈ list_Remove l e ↔ x.1 ≠ e ∧ x ∈ l) as Hin by (intros x; unfold list_Remove; by rewrite list_elem_of_filter).
  split_and!.
  - eapply sublist_NoDup; [exact Hi|]. apply fmap_sublist, sublist_filter.
  - rewrite H1. by apply NoDup_filter.
  - intros k' e'. rewrite Hin, lookup_delete_Some, Hm. cbn. split; (intros [Hne Hx]; split; [|done]; intros ->; apply Hne).
    + by eapply (NoDup_fst_inj l).
    + apply Hm in Hx. congruence.
  - intros e' k' [_ Hx]%Hin. by eapply Hf.
Qed.

Lemma lru_linked_add m l fresh k :
  lru_linked m l fresh → m !! k = None → lru_linked (<[k:=fresh]> m) (l ++ [(fresh, k)]) (S fresh).
Proof.
  intros (Hi & Hk & Hm & Hf) Hn. split_and!; rewrite ?fmap_app; cbn [fmap list_fmap fst snd].
  - apply NoDup_snoc; [done|]. intros ([e k'] & -> & Hx)%list_elem_of_fmap. apply Hf in Hx. cbn in Hx. lia.
  - apply NoDup_snoc; [done|]. intros ([e k'] & -> & Hx)%list_elem_of_fmap. apply Hm in Hx. cbn in Hn. congruence.
  - intros k' e'. rewrite elem_of_app, list_elem_of_singleton, lookup_insert_Some, Hm. split.
    + intros [[<- <-]|[_ ?]]; [by right|by left].
    + intros [Hx|[= -> ->]]; [right|by left]. split; [|done]. intros ->. apply Hm in Hx. congruence.
  - intros e' k' [Hx|[= -> ->]%list_elem_of_singleton]%elem_of_app; [|lia]. apply Hf in Hx. lia.
Qed.

Lemma lru_Remove_ok c k : lru_ok c → lru_ok (lru_Remove c k) ∧ cache_keys (lru_Remove c k) = keys_Remove (cache_keys c) k.
Proof.
  intros Hok. pose proof (proj1 (lru_ok_linked c) Hok) as [Hl Hs]. unfold lru_Remove, keys_Remove. destruct (cacheMap c !! k) as [e|] eqn:He.
  - destruct (lru_linked_remove _ _ _ e k Hl He) as [H1 H2]. split; [|done]. apply lru_ok_linked. split; [done|]. cbn.
    unfold list_Remove, len in *. pose proof (length_filter (λ x : nat * TxKey, x.1 ≠ e) (cache_list c)). lia.
  - rewrite delete_id by done. destruct c. split; [done|]. symmetry. apply filter_all. intros x Hx ->.
    apply lru_ok_keys in Hx as [? Hx]; [|done]. cbn in *. congruence.
Qed.

Lemma lru_Reset_ok c : lru_ok (lru_Reset c).
Proof.
  apply lru_ok_linked. split; [|unfold len; cbn; lia]. split_and!; cbn.
  1,2: apply NoDup_nil_2.
  - intros k e. by rewrite lookup_empty, elem_of_nil.
  - intros e k Hx. by apply not_elem_of_nil in Hx.
Qed.

(** Pushing onto a full cache first drops the front. *)
Lemma front_removed m l fresh e k :
  lru_linked m ((e, k) :: l) fresh → lru_linked (delete k m) l fresh ∧ list_Remove ((e, k) :: l) e = l.
Proof.
  intros Hl. assert (list_Remove ((e, k) :: l) e = l) as Heq.
  { destruct Hl as (Hi & _). apply NoDup_cons in Hi as [Hi _]. unfold list_Remove. rewrite filter_cons. cbn [fst].
    destruct (decide (e ≠ e)); [done|]. apply filter_all. intros x Hx <-. apply Hi, list_elem_of_fmap. by exists x. }
  split; [|done]. rewrite <-Heq at 1. apply lru_linked_remove; [done|]. destruct Hl as (_ & _ & Hm & _). apply Hm. left.
Qed.

Lemma lru_Push_ok c k :
  lru_ok c → lru_ok (lru_Push c k).1 ∧ (cache_keys (lru_Push c k).1, (lru_Push c k).2) = keys_Push (cache_size c) (cache_keys c) k.
Proof.
  intros Hok. pose proof (proj1 (lru_ok_linked c) Hok) as [Hl Hs]. pose proof (lru_ok_keys c k Hok) as Hin.
  unfold lru_Push, keys_Push. destruct (cacheMap c !! k) as [e|] eqn:He.
  - destruct (decide _) as [_|Hn]; [|by exfalso; apply Hn, Hin]. cbn [fst snd].
    pose proof (MoveToBack_perm (cache_list c) e) as Hp. destruct Hl as (Hi & Hk & Hm & Hf). split.
    + apply lru_ok_linked; cbn. split; [split_and!|unfold len in *; by rewrite Hp].
      1,2: by rewrite Hp.
      * intros k' e'. by rewrite Hp.
      * intros e' k'. rewrite Hp. apply Hf.
    + destruct (remove_id_keys _ e k Hi Hk) as [H1 H2]; [by apply Hm|].
      unfold cache_keys, list_MoveToBack; cbn [cache_list]. by rewrite fmap_app, H1, H2.
  - destruct (decide _) as [Hn|_]; [apply Hin in Hn as [? ?]; congruence|].
    destruct (Z.leb_spec (cache_size c) (len (cache_list c))) as [Hfull|Hfree].
    all: assert (len (cache_keys c) = len (cache_list c)) as Hlen by (unfold cache_keys, len; by rewrite length_fmap).
    all: rewrite Hlen. 1: rewrite Zle_imp_le_bool by done. 2: rewrite (proj2 (Z.leb_gt _ _)) by done.
    + unfold cache_keys. destruct (cache_list c) as [|[f fk] l] eqn:Hc; cbn [fst snd cache_list].
      * split; [|by rewrite fmap_app]. apply lru_ok_linked. split; [by apply lru_linked_add|]. unfold len in *; cbn in *; lia.
      * destruct (front_removed _ _ _ _ _ Hl) as [H1 H2]. rewrite H2. split; [|by rewrite fmap_app].
        apply lru_ok_linked. split; [apply lru_linked_add; [done|]|].
        -- rewrite lookup_delete. by destruct decide.
        -- unfold len in *. cbn [cache_list cache_size]. rewrite length_app. cbn in *. lia.
    + unfold cache_keys. cbn [fst snd cache_list]. rewrite fmap_app. split; [|done]. apply lru_ok_linked. split; [by apply lru_linked_add|].
      unfold len in *. cbn [cache_list cache_size]. rewrite length_app. cbn. lia.
Qed.

(** ** Sequences of operations *)

Inductive cache_op := OpPush (k : TxKey) | OpRemove (k : TxKey) | OpHas (k : TxKey) | OpReset.

Definition lru_op (c : LRUTxCache) (o : cache_op) : LRUTxCache * bool :=
  match o with
  | OpPush k => lru_Push c k
  | OpRemove k => (lru_Remove c k, true)
  | OpHas k => (c, lru_Has c k)
  | OpReset => (lru_Reset c, true)
  end.
Definition keys_op (size : Z) (ks : list TxKey) (o : cache_op) : list TxKey * bool :=
  match o with
  | OpPush k => keys_Push size ks k
  | OpRemove k => (keys_Remove ks k, true)
  | OpHas k => (ks, bool_decide (k ∈ ks))
  | OpReset => ([], true)
  end.

Fixpoint run_ops {S} (f : S → cache_op → S * bool) (s : S) (os : list cache_op) : S * list bool :=
  match os with
  | [] => (s, [])
  | o :: os => let '(s, b) := f s o in let '(s, bs) := run_ops f s os in (s, b :: bs)
  end.

Lemma lru_op_ok c o :
  lru_ok c → lru_ok (lru_op c o).1 ∧ cache_size (lru_op c o).1 = cache_size c ∧
  (cache_keys (lru_op c o).1, (lru_op c o).2) = keys_op (cache_size c) (cache_keys c) o.
Proof.
  intros Hok. destruct o as [k|k|k|]; cbn [lru_op keys_op fst snd].
  - destruct (lru_Push_ok c k Hok) as [H1 H2]. split_and!; [done| |done]. unfold lru_Push. repeat case_match; done.
  - destruct (lru_Remove_ok c k Hok) as [H1 H2]. split_and!; [done| |by rewrite H2]. unfold lru_Remove. by case_match.
  - split_and!; [done..|]. unfold lru_Has. pose proof (lru_ok_keys c k Hok) as Hin. f_equal. destruct (cacheMap c !! k) eqn:He.
    + symmetry. by apply bool_decide_eq_true_2, Hin.
    + symmetry. apply bool_decide_eq_false_2. rewrite Hin. by intros [? ?].
  - split_and!; [apply lru_Reset_ok|done|done].
Qed.

Lemma run_ops_ok c os :
  lru_ok c → let '(c', bs) := run_ops lru_op c os in
  lru_ok c' ∧ cache_size c' = cache_size c ∧ (cache_keys c', bs) = run_ops (keys_op (cache_size c)) (cache_keys c) os.
Proof.
  revert c. induction os as [|o os IH]; intros c Hok; cbn [run_ops]; [done|].
  destruct (lru_op_ok c o Hok) as (H1 & H2 & H3). destruct (lru_op c o) as [c1 b] eqn:Hc. cbn [fst snd] in *. rewrite <-H3.
  specialize (IH c1 H1). destruct (run_ops lru_op c1 os) as [c2 bs]. destruct IH as (H4 & H5 & H6). rewrite H2 in *. rewrite <-H6. by split_and!.
Qed.

(** The cache is the bounded sequence of the keys used last: every sequence
    of operations on a new cache answers what the sequence of keys answers,
    leaves its keys in that order, and never holds more keys than the size it
    was made with (one, when that size is not positive). *)
Theorem tx_cache_refines (size : Z) (os : list cache_op) :
  let '(c, bs) := run_ops lru_op (NewLRUTxCache size) os in
  (cache_keys c, bs) = run_ops (keys_op size) [] os ∧ len (cache_keys c) ≤ Z.max 1 size ∧ NoDup (cache_keys c) ∧
  ∀ k, k ∈ cache_keys c ↔ is_Some (cacheMap c !! k).
Proof.
  pose proof (run_ops_ok (NewLRUTxCache size) os (lru_Reset_ok (NewLRUTxCache size))) as Hr.
  destruct (run_ops lru_op (NewLRUTxCache size) os) as [c bs]. destruct Hr as (Hok & Hs & Hk). split_and!; [done| |apply Hok|intros k; by apply lru_ok_keys].
  pose proof (lo_size _ Hok) as Hl. unfold cache_keys, len in *. rewrite length_fmap. by rewrite Hs in Hl.
Qed.
