(* ===== verification/Mempool.v ===== *)
(** * The list mempool

    [mempool/clist_mempool.go], [mempool/mempoolTx.go], [mempool/errors.go]
    and the checks of [mempool/mempool.go]: transactions in the order of
    their arrival, in a concurrent list with an index by key and a cache.
    The application answers the requests of its connection in order;
    [AppConn] holds those it has not answered yet.  A call of [Update] that
    rechecks the transactions is a sequence of turns, between which the
    application answers: the field [pc] of [MempoolRun] says where it stands.
    Metrics and logging are left out. *)
From S2P Require Import Prelude.
From S2P Require Import Validator.
From S2P Require Import CList.
From S2P Require Import TxCache.

Record mempoolTx := mkMempoolTx {
  mtx_height : Z;
  gasWanted : Z;
  mtx_tx : Tx;
  senders : gset Z;
}.

Definition Height (memTx : mempoolTx) : Z := mtx_height memTx.
Definition isSender (memTx : mempoolTx) (peerID : Z) : bool := bool_decide (peerID ∈ senders memTx).
Definition addSender (senderID : Z) (memTx : mempoolTx) : mempoolTx :=
  mkMempoolTx (mtx_height memTx) (gasWanted memTx) (mtx_tx memTx) ({[senderID]} ∪ senders memTx).

Inductive MempoolError :=
  | ErrTxNotFound
  | ErrTxInCache
  | ErrRecheckFull
  | ErrTxTooLarge (Max Actual : Z)
  | ErrMempoolIsFull (NumTxs MaxTxs TxsBytes MaxTxsBytes : Z)
  | ErrPreCheck (Err : string)
  | ErrAppConnMempool (Err : string).

(** What the application answers, as far as the mempool reads it. *)
Record ResponseCheckTx := mkResponseCheckTx { res_Code : Z; res_GasWanted : Z }.
Definition CodeTypeOK : Z := 0.
Inductive Response := Response_CheckTx (r : ResponseCheckTx) | Response_other.

Definition PreCheckFunc : Type := Tx → option string.
Definition PostCheckFunc : Type := Tx → ResponseCheckTx → option string.

(** [math_bits.Len64(x|1)+6)/7], the size of a varint. *)
Definition sovTypes (x : Z) : Z := (Z.log2 (Z.lor x 1) + 1 + 6) / 7.
Definition ComputeProtoSizeForTxs (txs : list Tx) : Z :=
  foldl (λ n b, int64 (n + (1 + len b + sovTypes (uint64 (len b))))) 0 txs.

Definition PreCheckMaxBytes (maxBytes : Z) : PreCheckFunc := λ tx,
  if maxBytes <? ComputeProtoSizeForTxs [tx] then Some "tx size is too big"%string else None.
Definition PostCheckMaxGas (maxGas : Z) : PostCheckFunc := λ tx res,
  if maxGas =? -1 then None
  else if res_GasWanted res <? 0 then Some "gas wanted is negative"%string
  else if maxGas <? res_GasWanted res then Some "gas wanted is greater than max gas"%string
  else None.

Record MempoolConfig := mkMempoolConfig {
  cfg_Recheck : bool;
  cfg_Size : Z;
  cfg_MaxTxsBytes : Z;
  cfg_MaxTxBytes : Z;
  cfg_CacheSize : Z;
  cfg_KeepInvalidTxsInCache : bool;
}.

(** ** Rechecking *)

(** [doneCh] has room for one signal. *)
Record recheck := mkRecheck {
  cursor : option nat;
  end_ : option nat;
  doneCh : bool;
  numPendingTxs : Z;
  isRechecking : bool;
  recheckFull : bool;
}.

Definition newRecheck : recheck := mkRecheck None None false 0 false false.
Definition rc_done (rc : recheck) : bool := negb (isRechecking rc).
Definition rc_init (rc : recheck) (first last : option nat) : outcome recheck :=
  if negb (rc_done rc) then Panic "Having more than one rechecking process at a time is not possible."
  else Ret (mkRecheck first last (doneCh rc) 0 true (recheckFull rc)).
Definition setDone (rc : recheck) : recheck := mkRecheck None (end_ rc) (doneCh rc) (numPendingTxs rc) false false.
Definition addPending (rc : recheck) (d : Z) : recheck :=
  mkRecheck (cursor rc) (end_ rc) (doneCh rc) (int32 (numPendingTxs rc + d)) (isRechecking rc) (recheckFull rc).

Definition setNextEntry (txs : CList mempoolTx) (rc : recheck) : outcome recheck :=
  match cursor rc with
  | None => Panic "invalid memory address or nil pointer dereference"
  | Some c => next ← Next txs c; Ret (mkRecheck next (end_ rc) (doneCh rc) (numPendingTxs rc) (isRechecking rc) (recheckFull rc))
  end.

Definition tryFinish (rc : recheck) : recheck * bool :=
  let rc := if bool_decide (cursor rc = end_ rc) then setDone rc else rc in
  if rc_done rc then (mkRecheck (cursor rc) (end_ rc) true (numPendingTxs rc) (isRechecking rc) (recheckFull rc), true)
  else (rc, false).

(** The loop visits an element at most once. *)
Fixpoint findLoop (fuel : nat) (txs : CList mempoolTx) (tx : Tx) (rc : recheck) : outcome (recheck * bool) :=
  if rc_done rc then Ret (rc, false)
  else
    match cursor rc with
    | None => Panic "invalid memory address or nil pointer dereference"
    | Some c =>
        e ← element txs c;
        if decide (tx = mtx_tx (ce_Value e)) then Ret (addPending rc (-1), true)
        else
          match fuel with
          | O => Panic "the elements form a cycle"
          | S fuel => rc ← setNextEntry txs rc; findLoop fuel txs tx rc
          end
    end.

Definition findNextEntryMatching (txs : CList mempoolTx) (rc : recheck) (tx : Tx) : outcome (recheck * bool) :=
  '(rc, found) ← findLoop (length (cl_heap txs)) txs tx rc;
  let '(rc, finished) := tryFinish rc in
  if finished then Ret (rc, found) else rc ← setNextEntry txs rc; Ret (rc, found).

Definition setRecheckFull (rc : recheck) : recheck * bool :=
  let rechecking := negb (rc_done rc) in
  (mkRecheck (cursor rc) (end_ rc) (doneCh rc) (numPendingTxs rc) (isRechecking rc) rechecking, xorb rechecking (recheckFull rc)).
Definition consideredFull (rc : recheck) : bool := recheckFull rc.

(** ** The mempool *)

(** [txsAvailable]: the channel, nil or with its signal. *)
Record CListMempool := mkCListMempool {
  mem_height : Z;
  txsBytes : Z;
  notifiedTxsAvailable : bool;
  txsAvailable : option bool;
  config : MempoolConfig;
  preCheck : option PreCheckFunc;
  postCheck : option PostCheckFunc;
  mem_txs : CList mempoolTx;
  mem_recheck : recheck;
  txsMap : gmap TxKey nat;
  mem_cache : TxCache;
}.

Definition with_txs (mem : CListMempool) (txs : CList mempoolTx) (m : gmap TxKey nat) (bytes : Z) : CListMempool :=
  mkCListMempool (mem_height mem) bytes (notifiedTxsAvailable mem) (txsAvailable mem) (config mem) (preCheck mem) (postCheck mem)
    txs (mem_recheck mem) m (mem_cache mem).
Definition with_cache (mem : CListMempool) (c : TxCache) : CListMempool :=
  mkCListMempool (mem_height mem) (txsBytes mem) (notifiedTxsAvailable mem) (txsAvailable mem) (config mem) (preCheck mem) (postCheck mem)
    (mem_txs mem) (mem_recheck mem) (txsMap mem) c.
Definition with_recheck (mem : CListMempool) (rc : recheck) : CListMempool :=
  mkCListMempool (mem_height mem) (txsBytes mem) (notifiedTxsAvailable mem) (txsAvailable mem) (config mem) (preCheck mem) (postCheck mem)
    (mem_txs mem) rc (txsMap mem) (mem_cache mem).

Definition NewCListMempool (cfg : MempoolConfig) (height : Z) (pre : option PreCheckFunc) (post : option PostCheckFunc) : CListMempool :=
  mkCListMempool height 0 false None cfg pre post New newRecheck ∅
    (if 0 <? cfg_CacheSize cfg then LRU (NewLRUTxCache (cfg_CacheSize cfg)) else NopTxCache).

Definition EnableTxsAvailable (mem : CListMempool) : CListMempool :=
  mkCListMempool (mem_height mem) (txsBytes mem) (notifiedTxsAvailable mem) (Some false) (config mem) (preCheck mem) (postCheck mem)
    (mem_txs mem) (mem_recheck mem) (txsMap mem) (mem_cache mem).

Definition mem_Lock (mem : CListMempool) : CListMempool := with_recheck mem (setRecheckFull (mem_recheck mem)).1.
Definition Size (mem : CListMempool) : Z := Len (mem_txs mem).
Definition SizeBytes (mem : CListMempool) : Z := txsBytes mem.
Definition TxsFront (mem : CListMempool) : option nat := Front (mem_txs mem).

Definition getCElement (mem : CListMempool) (txKey : TxKey) : option nat := txsMap mem !! txKey.
Definition getMemTx (mem : CListMempool) (txKey : TxKey) : outcome (option mempoolTx) :=
  match getCElement mem txKey with
  | Some e => c ← element (mem_txs mem) e; Ret (Some (ce_Value c))
  | None => Ret None
  end.

(** The loop of [removeAllTxs] follows the links of elements it removed. *)
Fixpoint removeLoop (fuel : nat) (txs : CList mempoolTx) (e : option nat) : outcome (CList mempoolTx) :=
  match fuel, e with
  | S fuel, Some e =>
      txs ← Remove txs e;
      txs ← DetachPrev txs e;
      next ← Next txs e;
      removeLoop fuel txs next
  | _, _ => Ret txs
  end.

Definition removeAllTxs (mem : CListMempool) : outcome CListMempool :=
  txs ← removeLoop (length (cl_heap (mem_txs mem))) (mem_txs mem) (Front (mem_txs mem));
  Ret (with_txs mem txs ∅ (txsBytes mem)).

Definition Flush (mem : CListMempool) : outcome CListMempool :=
  let mem := with_txs mem (mem_txs mem) (txsMap mem) 0 in
  let mem := with_cache mem (cache_Reset (mem_cache mem)) in
  removeAllTxs mem.

Definition isFull (mem : CListMempool) (txSize : Z) : option MempoolError :=
  let memSize := Size mem in
  let txsBytes := SizeBytes mem in
  if (cfg_Size (config mem) <=? memSize) || (cfg_MaxTxsBytes (config mem) <? int64 (txSize + txsBytes))
  then Some (ErrMempoolIsFull memSize (cfg_Size (config mem)) txsBytes (cfg_MaxTxsBytes (config mem)))
  else if consideredFull (mem_recheck mem) then Some ErrRecheckFull
  else None.

Definition notifyTxsAvailable (mem : CListMempool) : outcome CListMempool :=
  if Size mem =? 0 then Panic "notified txs available but mempool is empty!"
  else Ret (match txsAvailable mem with
            | None => mem
            | Some _ =>
                if notifiedTxsAvailable mem then mem
                else mkCListMempool (mem_height mem) (txsBytes mem) true (Some true) (config mem) (preCheck mem) (postCheck mem)
                       (mem_txs mem) (mem_recheck mem) (txsMap mem) (mem_cache mem)
            end).

(** A request in the connection: a transaction to check for a sender, whose
    caller may have passed a callback, or one to check again. *)
Inductive Request := ReqCheckTx (tx : Tx) (SenderID : Z) (cb : bool) | ReqRecheck (tx : Tx).
Definition AppConn : Type := list Request.

Section operations.
Context `{Crypto}.

(** [conn_err]: [proxyAppConn.Error()]; [async_err]: the request could not be
    queued.  The result has the requests that follow those outstanding. *)
Definition CheckTx (mem : CListMempool) (conn : AppConn) (tx : Tx) (cb : bool) (SenderID : Z) (conn_err : option string) (async_err : bool)
    : outcome (CListMempool * AppConn * option MempoolError) :=
  let txSize := len tx in
  match isFull mem txSize with
  | Some err => Ret (mem, conn, Some err)
  | None =>
      if cfg_MaxTxBytes (config mem) <? txSize then Ret (mem, conn, Some (ErrTxTooLarge (cfg_MaxTxBytes (config mem)) txSize))
      else
        match (match preCheck mem with Some f => f tx | None => None end) with
        | Some err => Ret (mem, conn, Some (ErrPreCheck err))
        | None =>
            match conn_err with
            | Some err => Ret (mem, conn, Some (ErrAppConnMempool err))
            | None =>
                let '(cache, pushed) := cache_Push (mem_cache mem) tx in
                let mem := with_cache mem cache in
                if negb pushed then
                  match getCElement mem (Tx_Key tx) with
                  | Some e => Ret (with_txs mem (set_Value (mem_txs mem) e (addSender SenderID)) (txsMap mem) (txsBytes mem), conn, Some ErrTxInCache)
                  | None => Ret (mem, conn, Some ErrTxInCache)
                  end
                else if async_err then Panic "CheckTx request failed"
                else Ret (mem, conn ++ [ReqCheckTx tx SenderID cb], None)
            end
        end
  end.

Definition addTx (mem : CListMempool) (memTx : mempoolTx) : outcome CListMempool :=
  '(txs, e) ← PushBack (mem_txs mem) memTx;
  Ret (with_txs mem txs (<[Tx_Key (mtx_tx memTx):=e]> (txsMap mem)) (int64 (txsBytes mem + len (mtx_tx memTx)))).

Definition RemoveTxByKey (mem : CListMempool) (txKey : TxKey) : outcome (CListMempool * option MempoolError) :=
  match getCElement mem txKey with
  | Some elem =>
      txs ← Remove (mem_txs mem) elem;
      txs ← DetachPrev txs elem;
      c ← element txs elem;
      Ret (with_txs mem txs (delete txKey (txsMap mem)) (int64 (txsBytes mem - len (mtx_tx (ce_Value c)))), None)
  | None => Ret (mem, Some ErrTxNotFound)
  end.

Definition run_postCheck (mem : CListMempool) (tx : Tx) (r : ResponseCheckTx) : option string :=
  match postCheck mem with Some f => f tx r | None => None end.

(** A transaction the application and the mempool's own check accept. *)
Definition accepts (mem : CListMempool) (tx : Tx) (r : ResponseCheckTx) : bool :=
  (res_Code r =? CodeTypeOK) && bool_decide (run_postCheck mem tx r = None).

Definition resCbFirstTime (mem : CListMempool) (tx : Tx) (SenderID : Z) (res : Response) : outcome CListMempool :=
  match res with
  | Response_other => Ret mem
  | Response_CheckTx r =>
      if accepts mem tx r then
        match isFull mem (len tx) with
        | Some _ => Ret (with_cache mem (cache_Remove (mem_cache mem) tx))
        | None =>
            match txsMap mem !! Tx_Key tx with
            | Some e => Ret (with_txs mem (set_Value (mem_txs mem) e (addSender SenderID)) (txsMap mem) (txsBytes mem))
            | None => addTx mem (addSender SenderID (mkMempoolTx (mem_height mem) (res_GasWanted r) tx ∅))
            end
        end
      else if negb (cfg_KeepInvalidTxsInCache (config mem)) then Ret (with_cache mem (cache_Remove (mem_cache mem) tx))
      else Ret mem
  end.

(** The callback of a request; the answer for the caller's callback, which
    is nil for another message. *)
Definition reqResCb (mem : CListMempool) (tx : Tx) (SenderID : Z) (res : Response) : outcome CListMempool :=
  if negb (rc_done (mem_recheck mem)) then Panic "rechecking has not finished; cannot check new tx"
  else resCbFirstTime mem tx SenderID res.

Definition resCbRecheck (mem : CListMempool) (tx : Tx) (res : ResponseCheckTx) : outcome CListMempool :=
  '(rc, found) ← findNextEntryMatching (mem_txs mem) (mem_recheck mem) tx;
  let mem := with_recheck mem rc in
  if negb found then Ret mem
  else if negb (accepts mem tx res) then
    '(mem, _) ← RemoveTxByKey mem (Tx_Key tx);
    Ret (if negb (cfg_KeepInvalidTxsInCache (config mem)) then with_cache mem (cache_Remove (mem_cache mem) tx) else mem)
  else Ret mem.

Definition globalCb (mem : CListMempool) (req : Request) (res : Response) : outcome CListMempool :=
  match req with
  | ReqCheckTx _ _ _ => Ret mem
  | ReqRecheck tx =>
      match res with
      | Response_CheckTx r => if rc_done (mem_recheck mem) then Ret mem else resCbRecheck mem tx r
      | Response_other => Ret mem
      end
  end.

(** The client hands an answer to the mempool's callback and then to that of
    the request; with the callback of the caller, if there is one to call. *)
Definition answered (mem : CListMempool) (req : Request) (res : Response) : outcome (CListMempool * option Tx) :=
  mem ← globalCb mem req res;
  match req with
  | ReqCheckTx tx SenderID cb => mem ← reqResCb mem tx SenderID res; Ret (mem, if cb then Some tx else None)
  | ReqRecheck _ => Ret (mem, None)
  end.

(** ** Reaping *)

Fixpoint reapLoop (maxBytes maxGas runningSize totalGas : Z) (ms : list mempoolTx) : list Tx :=
  match ms with
  | [] => []
  | memTx :: ms =>
      let dataSize := ComputeProtoSizeForTxs [mtx_tx memTx] in
      if (-1 <? maxBytes) && (maxBytes <? int64 (runningSize + dataSize)) then []
      else
        let runningSize := int64 (runningSize + dataSize) in
        let newTotalGas := int64 (totalGas + gasWanted memTx) in
        if (-1 <? maxGas) && (maxGas <? newTotalGas) then []
        else mtx_tx memTx :: reapLoop maxBytes maxGas runningSize newTotalGas ms
  end.
Definition ReapMaxBytesMaxGas (mem : CListMempool) (maxBytes maxGas : Z) : list Tx := reapLoop maxBytes maxGas 0 0 (values (mem_txs mem)).

Fixpoint reapTxs (max : Z) (txs : list Tx) (ms : list mempoolTx) : list Tx :=
  match ms with
  | memTx :: ms => if len txs <=? max then reapTxs max (txs ++ [mtx_tx memTx]) ms else txs
  | [] => txs
  end.
Definition ReapMaxTxs (mem : CListMempool) (max : Z) : list Tx :=
  let max := if max <? 0 then Len (mem_txs mem) else max in reapTxs max [] (values (mem_txs mem)).

(** ** Updates *)

Definition updateTx (keep : bool) (codes : list Z) (i : Z) (tx : Tx) (mem : CListMempool) : outcome CListMempool :=
  code ← slice_get codes i;
  let mem := if code =? CodeTypeOK then with_cache mem (cache_Push (mem_cache mem) tx).1
             else if negb keep then with_cache mem (cache_Remove (mem_cache mem) tx) else mem in
  '(mem, _) ← RemoveTxByKey mem (Tx_Key tx);
  Ret mem.

Definition override {A} (new old : option A) : option A := match new with Some _ => new | None => old end.

(** [Update] as far as [recheckTxs]. *)
Definition removeCommitted (mem : CListMempool) (height : Z) (txs : list Tx) (codes : list Z)
    (pre : option PreCheckFunc) (post : option PostCheckFunc) : outcome CListMempool :=
  let mem := mkCListMempool height (txsBytes mem) false (txsAvailable mem) (config mem) (override pre (preCheck mem)) (override post (postCheck mem))
               (mem_txs mem) (mem_recheck mem) (txsMap mem) (mem_cache mem) in
  for_each (λ it, updateTx (cfg_KeepInvalidTxsInCache (config mem)) codes it.1 it.2) (imap (λ i tx, (Z.of_nat i, tx)) txs) mem.

(** Where a call of [Update] stands: none is under way, the loop of
    [recheckTxs] is about to send the request of an element or has sent it, or
    it waits for the answers. *)
Inductive update_pc := Idle | Requesting (e : nat) | Requested (e : nat) | Waiting.

#[export] Instance update_pc_eq : EqDecision update_pc.
Proof. solve_decision. Defined.
#[export] Instance Request_eq : EqDecision Request.
Proof. solve_decision. Defined.

Definition after_next (next : option nat) : update_pc := match next with Some e => Requesting e | None => Waiting end.

Definition recheckTxs (mem : CListMempool) : outcome (CListMempool * update_pc) :=
  if Size mem <=? 0 then Ret (mem, Idle)
  else
    rc ← rc_init (mem_recheck mem) (Front (mem_txs mem)) (Back (mem_txs mem));
    Ret (with_recheck mem rc, after_next (Front (mem_txs mem))).

Definition Update (mem : CListMempool) (height : Z) (txs : list Tx) (codes : list Z) (pre : option PreCheckFunc) (post : option PostCheckFunc)
    : outcome (CListMempool * update_pc) :=
  mem ← removeCommitted mem height txs codes pre post;
  if cfg_Recheck (config mem) then recheckTxs mem else Ret (mem, Idle).

(** A turn of the loop: the request and, after the application may have
    answered, the link to the next element. *)
Definition recheckRequest (mem : CListMempool) (conn : AppConn) (e : nat) (async_err : bool) : outcome (CListMempool * AppConn) :=
  c ← element (mem_txs mem) e;
  let mem := with_recheck mem (addPending (mem_recheck mem) 1) in
  if async_err then Panic "(re-)CheckTx request failed" else Ret (mem, conn ++ [ReqRecheck (mtx_tx (ce_Value c))]).

Definition recheckNext (mem : CListMempool) (e : nat) : outcome update_pc := next ← Next (mem_txs mem) e; Ret (after_next next).

(** The [select] takes the signal, or the timeout. *)
Definition recheckFinish (mem : CListMempool) (timeout : bool) : CListMempool :=
  let rc := mem_recheck mem in
  if doneCh rc && negb timeout
  then with_recheck mem (mkRecheck (cursor rc) (end_ rc) false (numPendingTxs rc) (isRechecking rc) (recheckFull rc))
  else with_recheck mem (setDone rc).
End operations.

(** ** Runs *)

Record MempoolRun := mkMempoolRun { run_mem : CListMempool; run_conn : AppConn; run_pc : update_pc }.

Inductive mp_step :=
  | SEnable
  | SLock
  | SCheckTx (tx : Tx) (cb : bool) (SenderID : Z) (conn_err : option string)
  | SAnswer (res : Response)
  | SUpdate (height : Z) (txs : list Tx) (codes : list Z) (pre : option PreCheckFunc) (post : option PostCheckFunc)
  | SRequest
  | SNext
  | SFinish (timeout : bool)
  | SFlush
  | SRemove (txKey : TxKey).

Section runs.
Context `{Crypto}.

Definition mp_do (r : MempoolRun) (s : mp_step) : outcome MempoolRun :=
  let '(mkMempoolRun mem conn pc) := r in
  match s with
  | SEnable => Ret (mkMempoolRun (EnableTxsAvailable mem) conn pc)
  | SLock => Ret (mkMempoolRun (mem_Lock mem) conn pc)
  | SCheckTx tx cb s ce => '(mem, conn, _) ← CheckTx mem conn tx cb s ce false; Ret (mkMempoolRun mem conn pc)
  | SAnswer res =>
      match conn with
      | req :: conn => '(mem, _) ← answered mem req res; Ret (mkMempoolRun mem conn pc)
      | [] => Ret r
      end
  | SUpdate h txs codes pre post => '(mem, pc) ← Update mem h txs codes pre post; Ret (mkMempoolRun mem conn pc)
  | SRequest =>
      match pc with
      | Requesting e => '(mem, conn) ← recheckRequest mem conn e false; Ret (mkMempoolRun mem conn (Requested e))
      | _ => Ret r
      end
  | SNext => match pc with Requested e => pc ← recheckNext mem e; Ret (mkMempoolRun mem conn pc) | _ => Ret r end
  | SFinish timeout => match pc with Waiting => Ret (mkMempoolRun (recheckFinish mem timeout) conn Idle) | _ => Ret r end
  | SFlush => mem ← Flush mem; Ret (mkMempoolRun mem conn pc)
  | SRemove k => '(mem, _) ← RemoveTxByKey mem k; Ret (mkMempoolRun mem conn pc)
  end.

(** What the locks and the callers see to.  [Update] runs under the lock that
    [CheckTx] and [Flush] take for reading, after [FlushAppConn] has waited for
    every answer, with a result for every transaction; the timeout is taken
    only when the signal is not there. *)
Definition enabled (r : MempoolRun) (s : mp_step) : bool :=
  match s with
  | SEnable | SLock | SAnswer _ | SRequest | SNext => true
  | SCheckTx _ _ _ _ | SFlush | SRemove _ => bool_decide (run_pc r = Idle)
  | SUpdate _ txs codes _ _ => bool_decide (run_pc r = Idle) && bool_decide (run_conn r = []) && (len txs <=? len codes)
  | SFinish timeout => negb (timeout && doneCh (mem_recheck (run_mem r)))
  end.

Fixpoint mp_run (r : MempoolRun) (ss : list mp_step) : outcome MempoolRun :=
  match ss with [] => Ret r | s :: ss => r ← mp_do r s; mp_run r ss end.

(** Every step is enabled where it is taken. *)
Fixpoint run_enabled (r : MempoolRun) (ss : list mp_step) : bool :=
  match ss with
  | [] => true
  | s :: ss => enabled r s && match mp_do r s with Ret r => run_enabled r ss | Panic _ => true end
  end.
End runs.
