(* ===== verification/MempoolInv.v ===== *)
(** * The invariant of the mempool

    The list, the index, the cache and the counters of [Mempool] agree, the
    limits of the configuration hold, and the recheck of an update that is
    under way follows the requests in the connection. *)
From S2P Require Import Prelude.
From S2P Require Import Validator.
From S2P Require Import CList.
From S2P Require Import TxCache.
From S2P Require Import Mempool.

Definition tx_len (m : mempoolTx) : Z := len (mtx_tx m).
Definition tx_at (txs : CList mempoolTx) (e : nat) : option Tx := (λ c, mtx_tx (ce_Value c)) <$> cl_heap txs !! e.

Definition cache_ok (c : TxCache) : Prop := match c with LRU c => lru_ok c | NopTxCache => True end.

(** The limits leave room for one more transaction. *)
Definition cfg_ok (cfg : MempoolConfig) : Prop :=
  0 ≤ cfg_Size cfg ≤ MaxInt64 ∧ 0 ≤ cfg_MaxTxsBytes cfg ∧ 0 ≤ cfg_MaxTxBytes cfg ∧ cfg_MaxTxsBytes cfg + cfg_MaxTxBytes cfg ≤ MaxInt64.

Section inv.
Context `{Crypto}.

Record mem_ok (mem : CListMempool) (ids : list nat) : Prop := {
  mo_list : clist_ok (mem_txs mem) ids;
  mo_max : cl_maxLen (mem_txs mem) = MaxLength;
  mo_map : ∀ k e, txsMap mem !! k = Some e ↔ e ∈ ids ∧ Tx_Key <$> tx_at (mem_txs mem) e = Some k;
  mo_bytes : txsBytes mem = zsum tx_len (values (mem_txs mem));
  mo_size : len ids ≤ cfg_Size (config mem);
  mo_limit : txsBytes mem ≤ cfg_MaxTxsBytes (config mem);
  mo_cache : cache_ok (mem_cache mem);
}.

(** Only the cache, the recheck and the flags differ. *)
Definition same_txs (mem mem' : CListMempool) : Prop :=
  mem_txs mem' = mem_txs mem ∧ txsMap mem' = txsMap mem ∧ txsBytes mem' = txsBytes mem ∧ config mem' = config mem.

Lemma same_txs_ok mem mem' ids : same_txs mem mem' → cache_ok (mem_cache mem') → mem_ok mem ids → mem_ok mem' ids.
Proof.
  intros (E1 & E2 & E3 & E4) Hc [H1 H2 H3 H4 H5 H6 H7].
  split; rewrite ?E1, ?E2, ?E3, ?E4; done.
Qed.

Lemma with_recheck_ok mem ids rc : mem_ok mem ids → mem_ok (with_recheck mem rc) ids.
Proof. intros Hok. eapply same_txs_ok; [|apply Hok|exact Hok]. done. Qed.
Lemma with_cache_ok mem ids c : cache_ok c → mem_ok mem ids → mem_ok (with_cache mem c) ids.
Proof. intros Hc Hok. by eapply same_txs_ok; [| |exact Hok]. Qed.

Lemma cache_Push_ok c tx : cache_ok c → cache_ok (cache_Push c tx).1.
Proof. destruct c as [c|]; [|done]. intros Hc. pose proof (proj1 (lru_Push_ok c (Tx_Key tx) Hc)) as Hp. cbn. by destruct (lru_Push c (Tx_Key tx)). Qed.
Lemma cache_Remove_ok c tx : cache_ok c → cache_ok (cache_Remove c tx).
Proof. destruct c as [c|]; [|done]. intros Hc. by apply lru_Remove_ok. Qed.
Lemma cache_Reset_ok c : cache_ok (cache_Reset c).
Proof. destruct c as [c|]; [|done]. apply lru_Reset_ok. Qed.

Lemma NewCListMempool_ok cfg height pre post : cfg_ok cfg → mem_ok (NewCListMempool cfg height pre post) [].
Proof.
  intros (Hs & Hb & _). split; cbn; try done.
  - apply New_ok.
  - intros k e. rewrite lookup_empty. split; [done|]. by intros [?%not_elem_of_nil _].
  - unfold len; cbn; lia.
  - destruct (0 <? cfg_CacheSize cfg); [|done]. apply (lru_Reset_ok (NewLRUTxCache (cfg_CacheSize cfg))).
Qed.

Lemma tx_at_same txs txs' e t : same_values (cl_heap txs) (cl_heap txs') → tx_at txs e = Some t → tx_at txs' e = Some t.
Proof.
  unfold tx_at. intros Hs Ht. destruct (cl_heap txs !! e) as [c|] eqn:Ec; [|done].
  destruct (Hs e c Ec) as (c' & -> & Hv). cbn in *. by rewrite Hv.
Qed.

Lemma tx_at_ids txs ids e : clist_ok txs ids → e ∈ ids → ∃ t, tx_at txs e = Some t.
Proof. intros Hok He. destruct (ids_some _ _ _ Hok He) as [c Hc]. unfold tx_at. rewrite Hc. by eexists. Qed.

(** The keys of the elements are distinct. *)
Lemma key_inj mem ids e e' k :
  mem_ok mem ids → e ∈ ids → e' ∈ ids → Tx_Key <$> tx_at (mem_txs mem) e = Some k → Tx_Key <$> tx_at (mem_txs mem) e' = Some k → e = e'.
Proof.
  intros Hok He He' Hk Hk'. assert (txsMap mem !! k = Some e) as H1 by (by apply (mo_map _ _ Hok)).
  assert (txsMap mem !! k = Some e') as H2 by (by apply (mo_map _ _ Hok)). congruence.
Qed.

Lemma values_lookup (txs : CList mempoolTx) ids i e c :
  clist_ok txs ids → ids !! i = Some e → cl_heap txs !! e = Some c → values txs !! i = Some (ce_Value c).
Proof.
  intros Hok Hi Hc. rewrite (values_ok _ _ Hok). assert (∀ x, x ∈ ids → is_Some (cl_heap txs !! x)) as Hin by (intros x; by apply ids_some).
  clear Hok. revert i Hi. induction ids as [|x ids IH]; intros i Hi; [done|]. unfold values_of in *. cbn. destruct (Hin x ltac:(by left)) as [d Hd]. rewrite Hd. cbn.
  destruct i as [|i]; cbn in Hi; [by injection Hi as ->; rewrite Hd in Hc; injection Hc as ->|]. cbn. apply IH; [|done]. intros y Hy. apply Hin. by right.
Qed.

Lemma tx_len_nonneg l : 0 ≤ zsum tx_len l.
Proof. apply zsum_nonneg. intros x _. apply len_nonneg. Qed.

(** The link of an element behind another one that is removed stays. *)
Lemma removed_next (l l1 l' : CList mempoolTx) ids k e x :
  clist_ok l ids → ids !! k = Some e → Remove l e = Ret l1 → DetachPrev l1 e = Ret l' → before ids k ≠ Some x →
  ce_next <$> cl_heap l' !! x = ce_next <$> cl_heap l !! x.
Proof.
  intros Hok He Hr Hd Hx. rewrite (Remove_heap _ _ _ _ Hok He) in Hr. injection Hr as <-.
  unfold DetachPrev, element in Hd. cbn [cl_heap] in Hd.
  assert (∀ h : list (CElement mempoolTx), ce_next <$> marked (joined h (before ids k) (ids !! S k)) e !! x = ce_next <$> h !! x) as Hj.
  { intros h. assert (∀ (f : CElement mempoolTx → CElement mempoolTx) (h : list (CElement mempoolTx)) y, (∀ c, ce_next (f c) = ce_next c) →
      ce_next <$> alter f y h !! x = ce_next <$> h !! x) as Ha.
    { intros f h' y Hf. destruct (decide (x = y)) as [->|Hne]; [|by rewrite list_lookup_alter_ne].
      rewrite list_lookup_alter_eq. destruct (h' !! y); [|done]. cbn. by rewrite Hf. }
    unfold marked, joined. rewrite Ha by done. destruct (ids !! S k); rewrite ?Ha by done.
    all: destruct (before ids k) as [p|]; [|done]; rewrite list_lookup_alter_ne by congruence; done. }
  destruct (marked _ e !! e) as [c|] eqn:Ec; [|done]. cbn in Hd. destruct (negb (ce_removed c)); [done|]. injection Hd as <-.
  cbn. destruct (decide (x = e)) as [->|Hne].
  - rewrite list_lookup_insert_eq by (by eapply lookup_lt_Some). rewrite <-Hj, Ec. done.
  - rewrite list_lookup_insert_ne by done. apply Hj.
Qed.

Lemma RemoveTxByKey_ok mem ids i e k :
  mem_ok mem ids → ids !! i = Some e → Tx_Key <$> tx_at (mem_txs mem) e = Some k → cfg_ok (config mem) →
  ∃ txs, RemoveTxByKey mem k = Ret (with_txs mem txs (delete k (txsMap mem)) (zsum tx_len (values txs)), None) ∧
    mem_ok (with_txs mem txs (delete k (txsMap mem)) (zsum tx_len (values txs))) (delete i ids) ∧
    same_values (cl_heap (mem_txs mem)) (cl_heap txs) ∧ values txs = delete i (values (mem_txs mem)) ∧
    ∀ x, before ids i ≠ Some x → ce_next <$> cl_heap txs !! x = ce_next <$> cl_heap (mem_txs mem) !! x.
Proof.
  intros Hok Hi Hk (_ & Hcfg). pose proof (mo_list _ _ Hok) as Hl. pose proof (list_elem_of_lookup_2 _ _ _ Hi) as Hin.
  assert (txsMap mem !! k = Some e) as Hm by (by apply (mo_map _ _ Hok)).
  destruct (Remove_values _ _ _ _ Hl Hi) as (l1 & l' & Hr & Hd & Hok' & Hmax & Hs & Hv).
  destruct (ids_some _ _ _ Hl Hin) as [c Hc]. destruct (Hs e c Hc) as (c' & Hc' & Hcv).
  pose proof (values_lookup _ _ _ _ _ Hl Hi Hc) as Hvi.
  assert (zsum tx_len (values l') = txsBytes mem - tx_len (ce_Value c)) as Hz.
  { rewrite Hv, (zsum_delete _ _ _ _ Hvi), (mo_bytes _ _ Hok). done. }
  pose proof (tx_len_nonneg (values l')). pose proof (mo_limit _ _ Hok). pose proof (len_nonneg (mtx_tx (ce_Value c))) as Htl.
  exists l'. split; [|split; [|split; [done|split; [done|intros x Hx; by eapply removed_next] ] ] ].
  - unfold RemoveTxByKey, getCElement. rewrite Hm, Hr. cbn [mbind outcome_bind]. rewrite Hd. cbn [mbind outcome_bind].
    unfold element. rewrite Hc'. cbn [mbind outcome_bind]. rewrite Hcv, int64_id; [by rewrite Hz|]. unfold tx_len in *. ulia.
  - split; cbn; try done.
    + by rewrite Hmax, (mo_max _ _ Hok).
    + intros k' e'. rewrite lookup_delete_Some, (mo_map _ _ Hok), (elem_delete _ _ _ _ Hi (ok_nodup _ _ Hl)).
      split.
      * intros (Hne & Hin' & Hk'). split; [split; [done|]|].
        -- intros ->. congruence.
        -- destruct (tx_at_ids _ _ _ Hl Hin') as [t Ht]. rewrite Ht in Hk'. by rewrite (tx_at_same _ _ _ _ Hs Ht).
      * intros ((Hin' & Hne) & Hk'). destruct (tx_at_ids _ _ _ Hl Hin') as [t Ht]. rewrite (tx_at_same _ _ _ _ Hs Ht) in Hk'.
        rewrite Ht. split_and!; [|done|done]. intros <-. apply Hne. eapply (key_inj mem ids); try done. by rewrite Ht.
    + pose proof (mo_size _ _ Hok). unfold len in *. pose proof (lookup_lt_Some _ _ _ Hi). rewrite length_delete by done. lia.
    + unfold tx_len in *. lia.
    + apply Hok.
Qed.

Lemma RemoveTxByKey_absent mem k : txsMap mem !! k = None → RemoveTxByKey mem k = Ret (mem, Some ErrTxNotFound).
Proof. intros Hk. unfold RemoveTxByKey, getCElement. by rewrite Hk. Qed.

Lemma values_lookup_inv (txs : CList mempoolTx) ids i m :
  clist_ok txs ids → values txs !! i = Some m → ∃ e c, ids !! i = Some e ∧ cl_heap txs !! e = Some c ∧ m = ce_Value c.
Proof.
  intros Hok Hi. pose proof (lookup_lt_Some _ _ _ Hi) as Hlt. rewrite (values_ok _ _ Hok), length_values_of in Hlt by (intros x; by apply ids_some).
  destruct (lookup_lt_is_Some_2 ids i Hlt) as [e He]. destruct (ids_some _ _ e Hok) as [c Hc]; [by eapply list_elem_of_lookup_2|].
  exists e, c. split_and!; [done|done|]. rewrite (values_lookup _ _ _ _ _ Hok He Hc) in Hi. by injection Hi.
Qed.

Definition mtx_key (m : mempoolTx) : TxKey := Tx_Key (mtx_tx m).

Lemma values_keys mem ids : mem_ok mem ids → NoDup (mtx_key <$> values (mem_txs mem)).
Proof.
  intros Hok. pose proof (mo_list _ _ Hok) as Hl. apply NoDup_alt. intros i j k Hi Hj.
  rewrite list_lookup_fmap in Hi, Hj. apply fmap_Some in Hi as (m & Hi & ->), Hj as (m' & Hj & Hk).
  destruct (values_lookup_inv _ _ _ _ Hl Hi) as (e & c & Hei & Hc & ->). destruct (values_lookup_inv _ _ _ _ Hl Hj) as (e' & c' & Hej & Hc' & ->).
  assert (e = e') as <-.
  { eapply (key_inj mem ids _ _ (mtx_key (ce_Value c)) Hok); try (by eapply list_elem_of_lookup_2); unfold tx_at; [by rewrite Hc|by rewrite Hc', Hk]. }
  eapply NoDup_lookup; [apply Hl|done|done].
Qed.

Lemma delete_by_key {A B} `{!EqDecision B} (f : A → B) (l : list A) i x :
  NoDup (f <$> l) → l !! i = Some x → delete i l = filter (λ y, f y ≠ f x) l.
Proof.
  revert i. induction l as [|y l IH]; intros i Hnd Hi; [done|]. rewrite fmap_cons in Hnd. apply NoDup_cons in Hnd as [Hy Hnd].
  rewrite filter_cons. destruct i as [|i]; cbn in Hi |- *.
  - injection Hi as ->. destruct (decide (f x ≠ f x)); [done|]. symmetry. apply filter_all. intros z Hz Heq. apply Hy. apply list_elem_of_fmap. by exists z.
  - destruct (decide (f y ≠ f x)) as [_|Hn]; [f_equal; by apply IH|]. exfalso. apply Hn. intros Heq. apply Hy. rewrite Heq. apply list_elem_of_fmap. exists x. split; [done|]. by eapply list_elem_of_lookup_2.
Qed.

Lemma mem_ok_key mem ids i e c : mem_ok mem ids → ids !! i = Some e → cl_heap (mem_txs mem) !! e = Some c → txsMap mem !! mtx_key (ce_Value c) = Some e.
Proof. intros Hok Hi Hc. apply (mo_map _ _ Hok). split; [by eapply list_elem_of_lookup_2|]. unfold tx_at. by rewrite Hc. Qed.

(** What stays when the transactions change. *)
Definition same_rest (mem mem' : CListMempool) : Prop :=
  config mem' = config mem ∧ mem_recheck mem' = mem_recheck mem ∧ mem_cache mem' = mem_cache mem ∧ preCheck mem' = preCheck mem ∧
  postCheck mem' = postCheck mem ∧ mem_height mem' = mem_height mem ∧ txsAvailable mem' = txsAvailable mem ∧ notifiedTxsAvailable mem' = notifiedTxsAvailable mem.

(** Removal in either case. *)
Lemma RemoveTxByKey_any mem ids k :
  mem_ok mem ids → cfg_ok (config mem) →
  ∃ mem' r ids', RemoveTxByKey mem k = Ret (mem', r) ∧ mem_ok mem' ids' ∧ same_rest mem mem' ∧
    values (mem_txs mem') = filter (λ m, mtx_key m ≠ k) (values (mem_txs mem)).
Proof.
  intros Hok Hcfg. pose proof (mo_list _ _ Hok) as Hl. destruct (txsMap mem !! k) as [e|] eqn:Hm.
  - pose proof Hm as Hm'. apply (mo_map _ _ Hok) in Hm' as [Hin Hk]. apply list_elem_of_lookup_1 in Hin as [i Hi].
    destruct (RemoveTxByKey_ok mem ids i e k Hok Hi Hk Hcfg) as (txs & -> & Hok' & _ & Hv & _).
    eexists _, _, _. split_and!; [done|done|done|]. cbn. rewrite Hv.
    destruct (ids_some _ _ e Hl) as [c Hc]; [by eapply list_elem_of_lookup_2|]. unfold tx_at in Hk. rewrite Hc in Hk. injection Hk as <-.
    rewrite (delete_by_key mtx_key _ _ (ce_Value c)); [done|by eapply values_keys|by eapply values_lookup].
  - rewrite RemoveTxByKey_absent by done. exists mem, (Some ErrTxNotFound), ids. split_and!; [done|done|done|].
    symmetry. apply filter_all. intros m [i Hi]%list_elem_of_lookup_1 Heq.
    destruct (values_lookup_inv _ _ _ _ Hl Hi) as (e & c & He & Hc & ->). pose proof (mem_ok_key _ _ _ _ _ Hok He Hc). congruence.
Qed.

Lemma values_size mem ids : mem_ok mem ids → Size mem = len (values (mem_txs mem)) ∧ Size mem = len ids.
Proof.
  intros Hok. pose proof (mo_list _ _ Hok) as Hl. unfold Size, Len. rewrite (ok_len _ _ Hl), (values_ok _ _ Hl). unfold len.
  rewrite length_values_of; [done|]. intros x. by apply ids_some.
Qed.

(** [isFull] lets through what fits. *)
Lemma isFull_None mem ids n :
  mem_ok mem ids → cfg_ok (config mem) → 0 ≤ n ≤ cfg_MaxTxBytes (config mem) → isFull mem n = None →
  Size mem < cfg_Size (config mem) ∧ txsBytes mem + n ≤ cfg_MaxTxsBytes (config mem).
Proof.
  intros Hok Hcfg Hn. pose proof (mo_limit _ _ Hok). pose proof (mo_bytes _ _ Hok). pose proof (tx_len_nonneg (values (mem_txs mem))).
  destruct Hcfg as (_ & ? & ? & ?). unfold isFull, SizeBytes. rewrite int64_id by ulia.
  destruct (Z.leb_spec (cfg_Size (config mem)) (Size mem)); [done|]. destruct (Z.ltb_spec (cfg_MaxTxsBytes (config mem)) (n + txsBytes mem)); [done|].
  intros _. lia.
Qed.

Lemma addTx_ok mem ids m :
  mem_ok mem ids → cfg_ok (config mem) → txsMap mem !! mtx_key m = None → Size mem < cfg_Size (config mem) →
  txsBytes mem + tx_len m ≤ cfg_MaxTxsBytes (config mem) →
  ∃ mem' ids', addTx mem m = Ret mem' ∧ mem_ok mem' ids' ∧ same_rest mem mem' ∧ values (mem_txs mem') = values (mem_txs mem) ++ [m].
Proof.
  intros Hok (Hs & Hcfg) Hn Hsize Hbytes. pose proof (mo_list _ _ Hok) as Hl. pose proof (values_size _ _ Hok) as [Hv1 Hv2].
  destruct (PushBack_ok _ _ m Hl) as (l' & Hp & Hok' & Hmax & Hsame & Hval).
  { rewrite (mo_max _ _ Hok). unfold Size, Len, MaxLength in *. lia. }
  destruct (PushBack_values _ _ m Hl) as (l2 & Hp2 & _ & _ & _ & Hv).
  { rewrite (mo_max _ _ Hok). unfold Size, Len, MaxLength in *. lia. }
  rewrite Hp in Hp2. injection Hp2 as <-. set (e := length (cl_heap (mem_txs mem))) in *.
  pose proof (tx_len_nonneg (values (mem_txs mem))). pose proof (mo_bytes _ _ Hok). pose proof (len_nonneg (mtx_tx m)).
  assert (Tx_Key <$> tx_at l' e = Some (mtx_key m)) as Hk.
  { unfold tx_at. destruct (cl_heap l' !! e); [|done]. cbn in *. by injection Hval as ->. }
  assert (e ∉ ids) as Hfresh.
  { intros Hin%(ids_some _ _ _ Hl). destruct Hin as [c Hc%lookup_lt_Some]. lia. }
  unfold addTx. rewrite Hp. cbn [mbind outcome_bind]. eexists _, (ids ++ [e]). split; [reflexivity|]. unfold tx_len in *. rewrite int64_id by ulia.
  split; [|done]. split; cbn; try done.
  - by rewrite Hmax, (mo_max _ _ Hok).
  - intros k e'. rewrite lookup_insert_Some, (mo_map _ _ Hok), elem_of_app, list_elem_of_singleton. split.
    + intros [[<- <-]|(Hne & Hin & Hk')]; [by split; [right|]|]. split; [by left|].
      destruct (tx_at_ids _ _ _ Hl Hin) as [t Ht]. rewrite Ht in Hk'. by rewrite (tx_at_same _ _ _ _ Hsame Ht).
    + intros [[Hin| ->] Hk']; [right|left; split; [|done]; rewrite Hk in Hk'; by injection Hk'].
      destruct (tx_at_ids _ _ _ Hl Hin) as [t Ht]. rewrite (tx_at_same _ _ _ _ Hsame Ht) in Hk'.
      split; [|by rewrite Ht]. intros <-. assert (txsMap mem !! mtx_key m = Some e'); [|congruence]. apply (mo_map _ _ Hok). by rewrite Ht.
  - rewrite Hv, zsum_app. unfold zsum at 2. cbn. unfold tx_len. lia.
  - rewrite len_app. change (len [e]) with 1. lia.
  - apply Hok.
Qed.

(** A new sender is recorded. *)
Lemma addSender_ok mem ids e s :
  mem_ok mem ids → mem_ok (with_txs mem (set_Value (mem_txs mem) e (addSender s)) (txsMap mem) (txsBytes mem)) ids ∧
  mtx_tx <$> values (set_Value (mem_txs mem) e (addSender s)) = mtx_tx <$> values (mem_txs mem).
Proof.
  intros Hok. pose proof (mo_list _ _ Hok) as Hl. destruct (set_Value_ok _ _ e (addSender s) Hl) as (Hok' & Hmax & Hv).
  assert (∀ x, tx_at (set_Value (mem_txs mem) e (addSender s)) x = tx_at (mem_txs mem) x) as Hat.
  { intros x. specialize (Hv x). unfold tx_at. destruct (cl_heap (set_Value _ _ _) !! x) as [c|], (cl_heap (mem_txs mem) !! x) as [d|]; cbn in *; try done.
    injection Hv as ->. by case_decide. }
  assert (mtx_tx <$> values (set_Value (mem_txs mem) e (addSender s)) = mtx_tx <$> values (mem_txs mem)) as Hvals.
  { rewrite (values_ok _ _ Hok'), (values_ok _ _ Hl). clear Hok Hl Hok' Hv. induction ids as [|x ids IH]; [done|].
    unfold values_of in *. specialize (Hat x). unfold tx_at in Hat. cbn.
    destruct (cl_heap (set_Value _ _ _) !! x) as [c|], (cl_heap (mem_txs mem) !! x) as [d|]; cbn in *; try done. injection Hat as ->. by rewrite IH. }
  split; [|done]. split; cbn; try done; try apply Hok.
  - by rewrite Hmax, (mo_max _ _ Hok).
  - intros k x. rewrite Hat. apply Hok.
  - rewrite (mo_bytes _ _ Hok). assert (∀ l, zsum tx_len l = zsum (λ t : Tx, len t) (mtx_tx <$> l)) as Hz by (intros l; by rewrite zsum_fmap).
    by rewrite !Hz, Hvals.
Qed.

(** A check of a transaction changes neither the transactions nor what is
    being rechecked; what it asks the application to check fits the limit. *)
Lemma CheckTx_ok mem ids conn tx cb s ce :
  mem_ok mem ids →
  ∃ mem' conn' err, CheckTx mem conn tx cb s ce false = Ret (mem', conn', err) ∧ mem_ok mem' ids ∧ config mem' = config mem ∧
    mem_recheck mem' = mem_recheck mem ∧ mtx_tx <$> values (mem_txs mem') = mtx_tx <$> values (mem_txs mem) ∧
    ((err ≠ None ∧ conn' = conn) ∨ (err = None ∧ conn' = conn ++ [ReqCheckTx tx s cb] ∧ len tx ≤ cfg_MaxTxBytes (config mem))).
Proof.
  intros Hok. unfold CheckTx.
  destruct (isFull mem (len tx)) as [err|]; [eexists _, _, _; split; [reflexivity|]; split_and!; try done; by left|].
  destruct (Z.ltb_spec (cfg_MaxTxBytes (config mem)) (len tx)) as [|Hlen]; [eexists _, _, _; split; [reflexivity|]; split_and!; try done; by left|].
  destruct (match preCheck mem with Some f => f tx | None => None end) as [err|]; [eexists _, _, _; split; [reflexivity|]; split_and!; try done; by left|].
  destruct ce as [err|]; [eexists _, _, _; split; [reflexivity|]; split_and!; try done; by left|].
  pose proof (cache_Push_ok _ tx (mo_cache _ _ Hok)) as Hc. destruct (cache_Push (mem_cache mem) tx) as [c pushed]. cbn in Hc.
  pose proof (with_cache_ok _ _ _ Hc Hok) as Hok1. destruct pushed; cbn [negb].
  - eexists _, _, _. split; [reflexivity|]. split_and!; try done. by right.
  - cbn. destruct (getCElement _ _) as [e|]; eexists _, _, _; (split; [reflexivity|]); [|split_and!; try done; by left].
    destruct (addSender_ok _ _ e s Hok1) as [H1 H2]. split_and!; try done. by left.
Qed.

Lemma resCbFirstTime_ok mem ids tx s res :
  mem_ok mem ids → cfg_ok (config mem) → len tx ≤ cfg_MaxTxBytes (config mem) →
  ∃ mem' ids', resCbFirstTime mem tx s res = Ret mem' ∧ mem_ok mem' ids' ∧ config mem' = config mem ∧ mem_recheck mem' = mem_recheck mem.
Proof.
  intros Hok Hcfg Hlen. unfold resCbFirstTime. destruct res as [r|]; [|by exists mem, ids].
  pose proof (cache_Remove_ok _ tx (mo_cache _ _ Hok)) as Hc. destruct (accepts mem tx r).
  - destruct (isFull mem (len tx)) eqn:Hfull; [by eexists _, ids; split_and!; [done|by apply with_cache_ok| |]|].
    pose proof (len_nonneg tx). destruct (isFull_None _ _ _ Hok Hcfg ltac:(done) Hfull) as [Hs Hb]. destruct (txsMap mem !! Tx_Key tx) as [e|] eqn:He.
    + eexists _, ids. split_and!; [reflexivity| |done|done]. by apply addSender_ok.
    + edestruct (addTx_ok mem ids (addSender s (mkMempoolTx (mem_height mem) (res_GasWanted r) tx ∅))) as (mem' & ids' & Ha & Hok' & Hr & _); try done.
      exists mem', ids'. destruct Hr as (? & ? & _). by split_and!.
  - destruct (negb _); eexists _, ids; (split; [reflexivity|]); split_and!; try done. by apply with_cache_ok.
Qed.

(** ** Removing everything *)

Lemma ids_fuel (txs : CList mempoolTx) ids : clist_ok txs ids → (length ids ≤ length (cl_heap txs))%nat.
Proof.
  intros Hok. transitivity (length (seq 0 (length (cl_heap txs)))); [|by rewrite length_seq]. apply submseteq_length, NoDup_submseteq; [apply Hok|].
  intros e [c Hc%lookup_lt_Some]%(ids_some _ _ _ Hok). apply elem_of_seq. lia.
Qed.

Lemma removeLoop_ok fuel (txs : CList mempoolTx) ids :
  clist_ok txs ids → (length ids ≤ fuel)%nat → ∃ txs', removeLoop fuel txs (ids !! 0%nat) = Ret txs' ∧ clist_ok txs' [] ∧ cl_maxLen txs' = cl_maxLen txs.
Proof.
  revert txs ids. induction fuel as [|fuel IH]; intros txs ids Hok Hf.
  - assert (ids = []) as -> by (apply nil_length_inv; lia). by exists txs.
  - destruct ids as [|e ids]; [by exists txs|]. cbn [removeLoop lookup list_lookup].
    destruct (Remove_values txs (e :: ids) 0 e Hok eq_refl) as (l1 & l' & Hr & Hd & Hok' & Hm & Hs & _). rewrite Hr. cbn [mbind outcome_bind].
    rewrite Hd. cbn [mbind outcome_bind]. pose proof (removed_next _ _ _ _ 0 e e Hok eq_refl Hr Hd ltac:(done)) as Hn.
    destruct (ok_linked _ _ Hok 0 e eq_refl) as [v Hv]. rewrite Hv in Hn. unfold Next, element. destruct (cl_heap l' !! e) as [c|]; [|done].
    cbn in Hn. injection Hn as Hn. cbn [mbind outcome_bind]. rewrite Hn. cbn in Hok', Hf |- *.
    destruct (IH l' ids Hok' ltac:(lia)) as (txs' & Hr' & Hok2 & Hm2). exists txs'. split_and!; [exact Hr'|done|congruence].
Qed.

Lemma Flush_ok mem ids :
  mem_ok mem ids → cfg_ok (config mem) →
  ∃ mem', Flush mem = Ret mem' ∧ mem_ok mem' [] ∧ config mem' = config mem ∧ mem_recheck mem' = mem_recheck mem ∧ values (mem_txs mem') = [].
Proof.
  intros Hok (Hs & Hb & _). pose proof (mo_list _ _ Hok) as Hl. unfold Flush, removeAllTxs. cbn.
  unfold Front. rewrite (ok_head _ _ Hl). destruct (removeLoop_ok _ _ _ Hl (ids_fuel _ _ Hl)) as (txs & -> & Hok' & Hm). cbn.
  eexists. split; [reflexivity|]. assert (values txs = []) as Hv by (by rewrite (values_ok _ _ Hok')).
  split; [|done]. split; cbn; try done.
  - by rewrite Hm, (mo_max _ _ Hok).
  - intros k e. rewrite lookup_empty. split; [done|]. by intros [?%not_elem_of_nil _].
  - by rewrite Hv.
  - unfold len; cbn; lia.
  - apply cache_Reset_ok.
Qed.

(** ** Removing what was committed *)

Lemma updateTx_ok mem ids keep codes i tx :
  mem_ok mem ids → cfg_ok (config mem) → 0 ≤ i < len codes →
  ∃ mem' ids', updateTx keep codes i tx mem = Ret mem' ∧ mem_ok mem' ids' ∧ config mem' = config mem ∧ mem_recheck mem' = mem_recheck mem ∧
    postCheck mem' = postCheck mem ∧ values (mem_txs mem') = filter (λ m, mtx_key m ≠ Tx_Key tx) (values (mem_txs mem)).
Proof.
  intros Hok Hcfg Hi. unfold updateTx. destruct (slice_get_in_range codes i Hi) as (code & -> & _). cbn [mbind outcome_bind].
  set (mem1 := if code =? CodeTypeOK then _ else _).
  assert (mem_ok mem1 ids ∧ config mem1 = config mem ∧ mem_recheck mem1 = mem_recheck mem ∧ postCheck mem1 = postCheck mem ∧ mem_txs mem1 = mem_txs mem) as (Hok1 & E1 & E2 & E3 & E4).
  { unfold mem1. destruct (code =? CodeTypeOK); [|destruct keep; cbn [negb]]; split_and!; try done; apply with_cache_ok; try done.
    - apply cache_Push_ok, Hok.
    - apply cache_Remove_ok, Hok. }
  destruct (RemoveTxByKey_any mem1 ids (Tx_Key tx) Hok1) as (mem' & r & ids' & -> & Hok' & (F1 & F2 & _ & _ & F3 & _) & Hv); [by rewrite E1|].
  cbn. exists mem', ids'. rewrite Hv, E4. split_and!; try done; congruence.
Qed.

Lemma removeCommitted_ok mem ids h txs codes pre post :
  mem_ok mem ids → cfg_ok (config mem) → len txs ≤ len codes →
  ∃ mem' ids', removeCommitted mem h txs codes pre post = Ret mem' ∧ mem_ok mem' ids' ∧ config mem' = config mem ∧ mem_recheck mem' = mem_recheck mem ∧
    postCheck mem' = override post (postCheck mem) ∧ values (mem_txs mem') = filter (λ m, mtx_key m ∉ Tx_Key <$> txs) (values (mem_txs mem)).
Proof.
  intros Hok Hcfg Hlen. unfold removeCommitted. set (mem0 := mkCListMempool h _ _ _ _ _ _ _ _ _ _).
  assert (mem_ok mem0 ids) as Hok0 by (by eapply (same_txs_ok mem mem0); [|apply Hok|]).
  edestruct (for_each_ind (λ it, updateTx (cfg_KeepInvalidTxsInCache (config mem0)) codes it.1 it.2)
    (λ done m, ∃ ids', mem_ok m ids' ∧ config m = config mem0 ∧ mem_recheck m = mem_recheck mem0 ∧ postCheck m = postCheck mem0 ∧
       values (mem_txs m) = filter (λ m, mtx_key m ∉ Tx_Key <$> done.*2) (values (mem_txs mem0)))
    (imap (λ i tx, (Z.of_nat i, tx)) txs) mem0) as (mem' & Hrun & ids' & Hok' & E1 & E2 & E3 & Hv).
  - exists ids. split_and!; try done. symmetry. apply filter_all. intros m _. apply not_elem_of_nil.
  - intros l1 [i tx] l2 m Hl (ids1 & Hok1 & F1 & F2 & F3 & Hv). cbn [fst snd].
    assert (i = Z.of_nat (length l1) ∧ i < len txs) as [Hi Hlt].
    { assert (imap (λ i tx, (Z.of_nat i, tx)) txs !! length l1 = Some (i, tx)) as Hx by (rewrite Hl; by apply list_lookup_middle).
      rewrite list_lookup_imap in Hx. apply fmap_Some in Hx as (t & Ht & [= -> ->]). apply lookup_lt_Some in Ht. unfold len. lia. }
    destruct (updateTx_ok m ids1 (cfg_KeepInvalidTxsInCache (config mem0)) codes i tx Hok1) as (m' & ids2 & Hu & Hok2 & G1 & G2 & G3 & Hv2);
      [by rewrite F1|lia|].
    exists m'. split; [done|]. exists ids2. split_and!; try congruence. rewrite Hv2, Hv, list_filter_filter. apply filter_ext_in. intros x _.
    rewrite !fmap_app, elem_of_app. cbn. rewrite list_elem_of_singleton. tauto.
  - exists mem', ids'. rewrite Hrun, Hv. split_and!; try done.
    assert ((imap (λ i tx, (Z.of_nat i, tx)) txs).*2 = txs) as ->; [|done]. rewrite fmap_imap. rewrite (imap_ext _ (const id)) by done. by rewrite imap_const, list_fmap_id.
Qed.

(** ** Rechecking what is left *)

(** The elements of the list are those the application has answered for and
    that stay, those it has been asked about, and the rest.  The cursor is
    not past the one whose answer comes next. *)
Record phase (mem : CListMempool) (conn : AppConn) (pc : update_pc) (kept sent unsent : list nat) : Prop := {
  ph_ok : mem_ok mem (kept ++ sent ++ unsent);
  ph_conn : Forall2 (λ req e, ∃ t, req = ReqRecheck t ∧ tx_at (mem_txs mem) e = Some t) conn sent;
  ph_pc : match pc with
          | Idle => False
          | Requesting e => head unsent = Some e
          | Requested e => ce_next <$> cl_heap (mem_txs mem) !! e = Some (head unsent)
          | Waiting => unsent = []
          end;
  ph_cursor : if isRechecking (mem_recheck mem) then
                doneCh (mem_recheck mem) = false ∧ end_ (mem_recheck mem) = last (kept ++ sent ++ unsent) ∧
                ∃ p c, (kept ++ sent ++ unsent) !! p = Some c ∧ cursor (mem_recheck mem) = Some c ∧ (p ≤ length kept)%nat
              else doneCh (mem_recheck mem) = true ∧ sent = [] ∧ unsent = [];
}.

Definition at_cursor (rc : recheck) (e : nat) : recheck := mkRecheck (Some e) (end_ rc) (doneCh rc) (numPendingTxs rc) (isRechecking rc) (recheckFull rc).

Lemma findLoop_ok fuel txs ids rc p q c e t :
  clist_ok txs ids → isRechecking rc = true → ids !! p = Some c → cursor rc = Some c → ids !! q = Some e → tx_at txs e = Some t →
  (p ≤ q)%nat → (q - p ≤ fuel)%nat → (∀ i x, (p ≤ i < q)%nat → ids !! i = Some x → tx_at txs x ≠ Some t) →
  findLoop fuel txs t rc = Ret (addPending (at_cursor rc e) (-1), true).
Proof.
  intros Hok. revert p c rc. induction fuel as [|fuel IH]; intros p c rc Hr Hp Hc Hq Ht Hpq Hf Hne; cbn [findLoop]; unfold rc_done; rewrite Hr, Hc; cbn [negb].
  all: destruct (ok_linked _ _ Hok p c Hp) as [v Hv]; unfold element; rewrite Hv; cbn [mbind outcome_bind ce_Value].
  all: assert (tx_at txs c = Some (mtx_tx v)) as Hcv by (unfold tx_at; by rewrite Hv).
  all: destruct (decide (p = q)) as [<-|Hd]; [rewrite Hp in Hq; injection Hq as ->; rewrite Hcv in Ht; injection Ht as ->; rewrite decide_True by done; destruct rc; cbn in *; by subst|].
  - lia.
  - rewrite decide_False by (intros ->; exact (Hne p c ltac:(lia) Hp Hcv)). unfold setNextEntry, Next, element. rewrite Hc, Hv. cbn [mbind outcome_bind ce_next].
    destruct (ids !! S p) as [c'|] eqn:Hc'; [|apply lookup_ge_None in Hc'; apply lookup_lt_Some in Hq; lia].
    set (rc' := mkRecheck _ _ _ _ _ _). rewrite (IH (S p) c' rc' Hr Hc' eq_refl Hq Ht); [done|lia|lia|]. intros i x Hi. apply Hne. lia.
Qed.

(** The answer to the oldest request finds its element. *)
Lemma find_answered mem conn pc kept x sent unsent t :
  phase mem conn pc kept (x :: sent) unsent → tx_at (mem_txs mem) x = Some t →
  ∃ rc, findNextEntryMatching (mem_txs mem) (mem_recheck mem) t = Ret (rc, true) ∧
    match head (sent ++ unsent) with
    | Some c => isRechecking rc = true ∧ cursor rc = Some c ∧ end_ rc = end_ (mem_recheck mem) ∧ doneCh rc = false
    | None => isRechecking rc = false ∧ doneCh rc = true ∧ recheckFull rc = false
    end.
Proof.
  intros [Hok _ _ Hcur] Ht. pose proof (mo_list _ _ Hok) as Hl. destruct (isRechecking (mem_recheck mem)) eqn:Hr; [|by destruct Hcur as (_ & ? & _)].
  destruct Hcur as (Hd & Hend & p & c & Hp & Hc & Hle). set (ids := kept ++ (x :: sent) ++ unsent) in *.
  assert (ids !! length kept = Some x) as Hx by (by apply list_lookup_middle).
  assert (ids !! S (length kept) = head (sent ++ unsent)) as Hnext.
  { unfold ids. rewrite lookup_app_r by lia. replace (S (length kept) - length kept)%nat with 1%nat by lia. by destruct sent, unsent. }
  unfold findNextEntryMatching. rewrite (findLoop_ok _ _ ids _ p (length kept) c x t Hl Hr Hp Hc Hx Ht Hle).
  - cbn [mbind outcome_bind]. unfold tryFinish. cbn [cursor end_ addPending at_cursor]. rewrite Hend.
    destruct (head (sent ++ unsent)) as [n|] eqn:Hh.
    + rewrite bool_decide_eq_false_2.
      * unfold rc_done. cbn. rewrite Hr. cbn. destruct (ok_linked _ _ Hl _ _ Hx) as [v Hv]. unfold Next, element. rewrite Hv. cbn.
        eexists. split; [reflexivity|]. cbn. rewrite Hnext. done.
      * rewrite last_lookup. intros Heq. pose proof (NoDup_lookup _ _ _ _ (ok_nodup _ _ Hl) Hx (eq_sym Heq)).
        apply lookup_lt_Some in Hnext. lia.
    + assert (sent = [] ∧ unsent = []) as [-> ->] by (destruct sent, unsent; done).
      rewrite bool_decide_eq_true_2 by (unfold ids; by rewrite app_nil_r, last_snoc). cbn. eexists. by split.
  - pose proof (ids_fuel _ _ Hl). apply lookup_lt_Some in Hx. lia.
  - intros i y Hi Hy Hty. assert (y = x) as ->.
    { eapply (key_inj mem ids y x (Tx_Key t) Hok); [by eapply list_elem_of_lookup_2|by eapply list_elem_of_lookup_2|by rewrite Hty|by rewrite Ht]. }
    pose proof (NoDup_lookup _ _ _ _ (ok_nodup _ _ Hl) Hx Hy). lia.
Qed.

(** Whether a transaction stays after an answer. *)
Definition stays (mem : CListMempool) (t : Tx) (res : Response) : bool :=
  match res with Response_CheckTx r => accepts mem t r | Response_other => true end.

Lemma conn_same txs txs' conn sent :
  same_values (cl_heap txs) (cl_heap txs') →
  Forall2 (λ req e, ∃ t, req = ReqRecheck t ∧ tx_at txs e = Some t) conn sent → Forall2 (λ req e, ∃ t, req = ReqRecheck t ∧ tx_at txs' e = Some t) conn sent.
Proof. intros Hs HF. eapply Forall2_impl; [exact HF|]. cbn. intros req e (t & -> & Ht). exists t. split; [done|]. by eapply tx_at_same. Qed.

(** Passing over the element whose answer came. *)
Lemma phase_kept mem mem' conn t pc kept x sent unsent :
  phase mem (ReqRecheck t :: conn) pc kept (x :: sent) unsent → same_txs mem mem' → mem_cache mem' = mem_cache mem →
  (if isRechecking (mem_recheck mem') then
     doneCh (mem_recheck mem') = false ∧ end_ (mem_recheck mem') = end_ (mem_recheck mem) ∧ isRechecking (mem_recheck mem) = true ∧
     ∃ p c, (kept ++ (x :: sent) ++ unsent) !! p = Some c ∧ cursor (mem_recheck mem') = Some c ∧ (p ≤ S (length kept))%nat
   else doneCh (mem_recheck mem') = true ∧ sent = [] ∧ unsent = []) →
  phase mem' conn pc (kept ++ [x]) sent unsent.
Proof.
  intros [Hok Hconn Hpc Hcur] Hsame Hcache Hrc. assert ((kept ++ [x]) ++ sent ++ unsent = kept ++ (x :: sent) ++ unsent) as Hids by (by rewrite <-app_assoc).
  pose proof Hsame as (E1 & _). split; rewrite ?Hids, ?E1.
  - eapply same_txs_ok; [done| |done]. rewrite Hcache. apply Hok.
  - by apply Forall2_cons in Hconn as [_ Hconn].
  - done.
  - destruct (isRechecking (mem_recheck mem')); [|done]. destruct Hrc as (Hd & Hend & Hr & p & c & Hp & Hc & Hle). rewrite Hr in Hcur.
    destruct Hcur as (_ & Hlast & _). split_and!; [done|congruence|]. exists p, c. rewrite length_app. cbn. split_and!; [done|done|lia].
Qed.

(** Removing it. *)
Lemma phase_removed mem txs m b conn t pc kept x sent unsent :
  phase mem (ReqRecheck t :: conn) pc kept (x :: sent) unsent →
  let mem' := with_txs mem txs m b in
  mem_ok mem' (kept ++ sent ++ unsent) → same_values (cl_heap (mem_txs mem)) (cl_heap txs) →
  (∀ y, before (kept ++ (x :: sent) ++ unsent) (length kept) ≠ Some y → ce_next <$> cl_heap txs !! y = ce_next <$> cl_heap (mem_txs mem) !! y) →
  ∀ rc, (match head (sent ++ unsent) with
         | Some c => isRechecking rc = true ∧ cursor rc = Some c ∧ end_ rc = end_ (mem_recheck mem) ∧ doneCh rc = false
         | None => isRechecking rc = false ∧ doneCh rc = true ∧ recheckFull rc = false
         end) →
  phase (with_recheck mem' rc) conn pc kept sent unsent.
Proof.
  intros [Hok Hconn Hpc Hcur] mem' Hok' Hs Hn rc Hrc. pose proof (mo_list _ _ Hok) as Hl. pose proof (ok_nodup _ _ Hl) as Hnd. split.
  - by apply with_recheck_ok.
  - apply Forall2_cons in Hconn as [_ Hconn]. by eapply conn_same.
  - cbn. destruct pc as [|e|e|]; [done|done| |done]. rewrite Hn; [done|]. intros Hb.
    destruct (length kept) as [|n] eqn:Hk; [done|]. cbn in Hb. destruct (ok_linked _ _ Hl n e Hb) as [v Hv]. rewrite Hv in Hpc. cbn in Hpc. injection Hpc as Hpc.
    assert ((kept ++ (x :: sent) ++ unsent) !! S n = Some x) as Hx by (rewrite <-Hk; by apply list_lookup_middle).
    assert (Some x = head unsent) as Hu by (rewrite <-Hx; exact Hpc). destruct unsent as [|u unsent]; [done|]. injection Hu as <-. apply NoDup_app in Hnd as (_ & _ & Hnd).
    cbn in Hnd. apply NoDup_cons in Hnd as [Hni _]. apply Hni, elem_of_app. right. left.
  - cbn. destruct (head (sent ++ unsent)) as [c|] eqn:Hh.
    + destruct Hrc as (-> & Hc & Hend & Hd). destruct (isRechecking (mem_recheck mem)); [|by destruct Hcur as (_ & ? & _)].
      destruct Hcur as (_ & Hlast & _). split_and!; [done| |].
      * rewrite Hend, Hlast. cbn. destruct (sent ++ unsent) as [|c' r]; [done|]. by rewrite !last_app_cons, last_cons_cons.
      * exists (length kept), c. split_and!; [|done|lia]. rewrite lookup_app_r, Nat.sub_diag by lia. by destruct (sent ++ unsent).
    + destruct Hrc as (-> & Hd & _). split_and!; [done|destruct sent; done|destruct sent, unsent; done].
Qed.

Lemma accepts_with_recheck mem rc t r : accepts (with_recheck mem rc) t r = accepts mem t r.
Proof. done. Qed.

Lemma delete_middle {A} (l k : list A) x : delete (length l) (l ++ x :: k) = l ++ k.
Proof. induction l as [|y l IH]; [done|]. cbn. by f_equal. Qed.

Lemma answer_phase mem conn pc kept x sent unsent t res :
  phase mem (ReqRecheck t :: conn) pc kept (x :: sent) unsent → cfg_ok (config mem) →
  ∃ mem', globalCb mem (ReqRecheck t) res = Ret mem' ∧ config mem' = config mem ∧ postCheck mem' = postCheck mem ∧
    (isRechecking (mem_recheck mem') = false → recheckFull (mem_recheck mem') = false) ∧
    phase mem' conn pc (if stays mem t res then kept ++ [x] else kept) sent unsent ∧
    values (mem_txs mem') = if stays mem t res then values (mem_txs mem) else delete (length kept) (values (mem_txs mem)).
Proof.
  intros Hph Hcfg. pose proof Hph as [Hok Hconn Hpc Hcur]. pose proof (mo_list _ _ Hok) as Hl. apply Forall2_cons in Hconn as [(t' & [= <-] & Ht) _].
  destruct (isRechecking (mem_recheck mem)) eqn:Hr; [|by destruct Hcur as (_ & ? & _)]. destruct res as [r|]; cbn [globalCb stays]; cycle 1.
  { exists mem. split_and!; [done..|congruence| |done]. eapply phase_kept; [done|done|done|]. rewrite Hr. destruct Hcur as (Hd & He & p & c & Hp & Hc & Hle).
    split_and!; [done..|]. exists p, c. split_and!; [done|done|lia]. }
  unfold rc_done. rewrite Hr. cbn [negb]. unfold resCbRecheck. destruct (find_answered _ _ _ _ _ _ _ _ Hph Ht) as (rc & -> & Hrc). cbn [mbind outcome_bind negb].
  assert (isRechecking rc = false → recheckFull rc = false) as Hfull by (destruct (head (sent ++ unsent)); [by destruct Hrc as (-> & _)|by destruct Hrc as (_ & _ & ->)]).
  rewrite accepts_with_recheck. destruct (accepts mem t r); cbn [negb].
  - eexists. split_and!; [reflexivity|done|done|done| |done]. eapply phase_kept; [done|done|done|]. cbn [mem_recheck with_recheck].
    destruct (head (sent ++ unsent)) as [c|] eqn:Hh.
    + destruct Hrc as (-> & Hc & He & Hd). split_and!; [done..|]. exists (S (length kept)), c. split_and!; [|done|lia].
      rewrite lookup_app_r by lia. replace (S (length kept) - length kept)%nat with 1%nat by lia. cbn. by destruct (sent ++ unsent).
    + destruct Hrc as (-> & Hd & _). split_and!; [done|destruct sent; done|destruct sent, unsent; done].
  - assert ((kept ++ (x :: sent) ++ unsent) !! length kept = Some x) as Hx by (by apply list_lookup_middle).
    destruct (RemoveTxByKey_ok mem _ (length kept) x (Tx_Key t) Hok Hx ltac:(by rewrite Ht) Hcfg) as (txs & Hrem & Hok' & Hs & Hv & Hn).
    cbn [app] in Hok'. rewrite delete_middle in Hok'. unfold RemoveTxByKey in *. cbn [getCElement with_recheck txsMap mem_txs txsBytes] in *.
    pose proof (phase_removed mem txs _ _ _ _ _ _ _ _ _ Hph Hok' Hs Hn rc Hrc) as Hph'.
    destruct (getCElement mem (Tx_Key t)) as [e|] eqn:He; [|done]. unfold getCElement in *. cbn [txsMap with_recheck]. rewrite He.
    bind_split Hrem l1 H1. bind_split Hrem l2 H2. bind_split Hrem c H3. injection Hrem as Hbytes ->.
    cbn [mem_txs with_recheck]. rewrite H1. cbn [mbind outcome_bind]. rewrite H2. cbn [mbind outcome_bind]. rewrite H3. cbn [mbind outcome_bind txsBytes with_recheck].
    rewrite Hbytes. eexists. split; [reflexivity|]. destruct (negb _); split_and!; try done.
    destruct Hph'. split; try done. apply with_cache_ok; [apply cache_Remove_ok, Hok'|done].
Qed.

(** ** Runs *)

Definition req_fits (cfg : MempoolConfig) (req : Request) : Prop := match req with ReqCheckTx tx _ _ => len tx ≤ cfg_MaxTxBytes cfg | ReqRecheck _ => True end.

Definition mp_ok (r : MempoolRun) : Prop :=
  let mem := run_mem r in
  cfg_ok (config mem) ∧ (isRechecking (mem_recheck mem) = false → recheckFull (mem_recheck mem) = false) ∧
  match run_pc r with
  | Idle => ∃ ids, mem_ok mem ids ∧ isRechecking (mem_recheck mem) = false ∧ doneCh (mem_recheck mem) = false ∧ Forall (req_fits (config mem)) (run_conn r)
  | pc => ∃ kept sent unsent, phase mem (run_conn r) pc kept sent unsent
  end.

Lemma mp_ok_phase mem conn pc kept sent unsent :
  cfg_ok (config mem) → (isRechecking (mem_recheck mem) = false → recheckFull (mem_recheck mem) = false) → phase mem conn pc kept sent unsent → mp_ok (mkMempoolRun mem conn pc).
Proof. intros H1 H2 Hph. split; [done|]. split; [done|]. pose proof (ph_pc _ _ _ _ _ _ Hph). by destruct pc; [|exists kept, sent, unsent..]. Qed.

Lemma mp_ok_idle mem ids conn :
  cfg_ok (config mem) → recheckFull (mem_recheck mem) = false → mem_ok mem ids → isRechecking (mem_recheck mem) = false → doneCh (mem_recheck mem) = false →
  Forall (req_fits (config mem)) conn → mp_ok (mkMempoolRun mem conn Idle).
Proof. intros. split; [done|]. split; [done|]. by exists ids. Qed.

Lemma mp_ok_new cfg height pre post : cfg_ok cfg → mp_ok (mkMempoolRun (NewCListMempool cfg height pre post) [] Idle).
Proof. intros Hcfg. eapply mp_ok_idle; try done. by apply NewCListMempool_ok. Qed.
End inv.
