(* ===== verification/MempoolTheorems.v ===== *)
(** * What the mempool does

    No run of the mempool panics and every run keeps its invariant and its
    limits; an update leaves exactly the transactions that were neither
    committed nor rejected; a proposal takes the longest prefix that fits. *)
From S2P Require Import Prelude.
From S2P Require Import Validator.
From S2P Require Import CList.
From S2P Require Import TxCache.
From S2P Require Import Mempool.
From S2P Require Import MempoolInv.

Section runs.
Context `{Crypto}.

(** Changing flags only. *)
Lemma mp_ok_flags mem mem' conn pc :
  same_txs mem mem' → mem_cache mem' = mem_cache mem → mem_recheck mem' = mem_recheck mem → mp_ok (mkMempoolRun mem conn pc) → mp_ok (mkMempoolRun mem' conn pc).
Proof.
  intros Hs Hc Hr (Hcfg & Hfull & Hpc). pose proof Hs as (E1 & _ & _ & E4). cbn in *.
  assert (∀ ids, mem_ok mem ids → mem_ok mem' ids) as Hok by (intros ids Hok; eapply same_txs_ok; [done|rewrite Hc; apply Hok|done]).
  split_and!; cbn; rewrite ?E4, ?Hr; try done. destruct pc.
  1: { destruct Hpc as (ids & ? & ? & ? & ?). exists ids. split_and!; auto. }
  all: destruct Hpc as (kept & sent & unsent & [P1 P2 P3 P4]); exists kept, sent, unsent; split; rewrite ?E1, ?Hr; auto.
Qed.

Lemma Lock_ok mem conn pc : mp_ok (mkMempoolRun mem conn pc) → mp_ok (mkMempoolRun (mem_Lock mem) conn pc).
Proof.
  intros (Hcfg & Hfull & Hpc). cbn in *. unfold mem_Lock, setRecheckFull, rc_done. cbn [fst]. rewrite negb_involutive.
  split_and!; [done|cbn; by intros ->|]. cbn. destruct pc.
  1: { destruct Hpc as (ids & ? & ? & ? & ?). exists ids. split_and!; [by apply with_recheck_ok|done..]. }
  all: destruct Hpc as (kept & sent & unsent & [P1 P2 P3 P4]); exists kept, sent, unsent; split; [by apply with_recheck_ok|done..].
Qed.

Lemma answer_ok mem req conn pc res :
  mp_ok (mkMempoolRun mem (req :: conn) pc) →
  ∃ mem' cb, answered mem req res = Ret (mem', cb) ∧ mp_ok (mkMempoolRun mem' conn pc) ∧ config mem' = config mem.
Proof.
  intros (Hcfg & Hfull & Hpc). cbn in *. destruct (decide (pc = Idle)) as [->|Hne].
  - destruct Hpc as (ids & Hok & Hr & Hd & [Hreq Hconn]%Forall_cons). destruct req as [tx s cb|tx].
    + unfold answered, reqResCb, rc_done. cbn. rewrite Hr. cbn. destruct (resCbFirstTime_ok mem ids tx s res Hok Hcfg Hreq) as (mem' & ids' & -> & Hok' & E1 & E2).
      cbn. eexists _, _. split; [reflexivity|]. split; [|done]. eapply mp_ok_idle; rewrite ?E1, ?E2; try done. by apply Hfull.
    + unfold answered, globalCb, rc_done. rewrite Hr. cbn. exists mem, None. split; [by destruct res|]. split; [|done]. eapply mp_ok_idle; try done. by apply Hfull.
  - assert (∃ kept sent unsent, phase mem (req :: conn) pc kept sent unsent) as (kept & sent & unsent & Hph) by (by destruct pc). clear Hpc.
    destruct sent as [|x sent]; [by pose proof (ph_conn _ _ _ _ _ _ Hph) as HF; inversion HF|].
    pose proof (ph_conn _ _ _ _ _ _ Hph) as [(t & -> & Ht) _]%Forall2_cons.
    destruct (answer_phase mem conn pc kept x sent unsent t res Hph Hcfg) as (mem' & Hg & E1 & E2 & Hf & Hph' & _).
    unfold answered. rewrite Hg. cbn. eexists _, _. split; [reflexivity|]. split; [|done]. eapply mp_ok_phase; [by rewrite E1|done|exact Hph'].
Qed.

(** The start of a recheck. *)
Lemma recheckTxs_ok mem ids :
  mem_ok mem ids → cfg_ok (config mem) → isRechecking (mem_recheck mem) = false → doneCh (mem_recheck mem) = false → recheckFull (mem_recheck mem) = false →
  ∃ mem' pc, recheckTxs mem = Ret (mem', pc) ∧ mp_ok (mkMempoolRun mem' [] pc) ∧ config mem' = config mem ∧ postCheck mem' = postCheck mem ∧ mem_txs mem' = mem_txs mem ∧
    (ids = [] → pc = Idle ∧ mem' = mem) ∧ (ids ≠ [] → phase mem' [] pc [] [] ids ∧ ∃ e, pc = Requesting e).
Proof.
  intros Hok Hcfg Hr Hd Hfull. pose proof (values_size _ _ Hok) as [_ Hsz]. pose proof (mo_list _ _ Hok) as Hl. unfold recheckTxs. destruct ids as [|e ids].
  - rewrite Hsz. cbn. exists mem, Idle. split_and!; try done. by eapply mp_ok_idle.
  - destruct (Z.leb_spec (Size mem) 0) as [Hle|_]; [pose proof (len_nonneg ids); rewrite Hsz, len_cons in Hle; lia|].
    unfold rc_init, rc_done. rewrite Hr. cbn. unfold Front, Back. rewrite (ok_head _ _ Hl), (ok_tail _ _ Hl). cbn.
    set (mem' := with_recheck mem _).
    assert (phase mem' [] (Requesting e) [] [] (e :: ids)) as Hph.
    { split; [by apply with_recheck_ok|by apply Forall2_nil|done|]. cbn. split_and!; [done|done|]. by exists 0%nat, e. }
    eexists _, _. split; [reflexivity|]. split_and!; try done; [by eapply mp_ok_phase|]. intros _. split; [done|]. by exists e.
Qed.

Lemma Update_ok mem ids h txs codes pre post :
  mp_ok (mkMempoolRun mem [] Idle) → mem_ok mem ids → len txs ≤ len codes →
  ∃ mem' pc, Update mem h txs codes pre post = Ret (mem', pc) ∧ mp_ok (mkMempoolRun mem' [] pc) ∧ config mem' = config mem ∧ postCheck mem' = override post (postCheck mem) ∧
    values (mem_txs mem') = filter (λ m, mtx_key m ∉ Tx_Key <$> txs) (values (mem_txs mem)) ∧
    (cfg_Recheck (config mem) = true → values (mem_txs mem') ≠ [] → ∃ ids' e, pc = Requesting e ∧ phase mem' [] pc [] [] ids') ∧
    (cfg_Recheck (config mem) = false ∨ values (mem_txs mem') = [] → pc = Idle).
Proof.
  intros (Hcfg & Hfull & ids0 & _ & Hr & Hd & _) Hok Hlen. cbn in *. unfold Update.
  destruct (removeCommitted_ok mem ids h txs codes pre post Hok Hcfg Hlen) as (mem1 & ids1 & -> & Hok1 & E1 & E2 & E3 & Hv). cbn. rewrite E1.
  assert (values (mem_txs mem1) = [] ↔ ids1 = []) as Hnil.
  { pose proof (values_size _ _ Hok1) as [Ha Hb]. rewrite Ha in Hb. unfold len in Hb. rewrite <-!length_zero_iff_nil. lia. }
  destruct (cfg_Recheck (config mem)).
  - destruct (recheckTxs_ok mem1 ids1 Hok1) as (mem' & pc & -> & Hok' & F1 & F2 & F3 & Hn & Hs); rewrite ?E1, ?E2; auto.
    exists mem', pc. rewrite F3, Hv. rewrite Hv in Hnil. split_and!; try done; try congruence.
    + intros _ Hne. destruct Hs as [Hph [e He] ]; [by rewrite <-Hnil|]. by exists ids1, e.
    + intros [?|He]; [done|]. by apply Hn, Hnil.
  - eexists _, _. split; [reflexivity|]. split_and!; try done. apply (mp_ok_idle mem1 ids1); rewrite ?E1, ?E2; auto.
Qed.

Lemma request_phase mem conn e kept sent unsent :
  phase mem conn (Requesting e) kept sent unsent →
  ∃ mem' t unsent', recheckRequest mem conn e false = Ret (mem', conn ++ [ReqRecheck t]) ∧ unsent = e :: unsent' ∧ tx_at (mem_txs mem) e = Some t ∧
    phase mem' (conn ++ [ReqRecheck t]) (Requested e) kept (sent ++ [e]) unsent' ∧ same_txs mem mem' ∧ postCheck mem' = postCheck mem ∧
    isRechecking (mem_recheck mem') = isRechecking (mem_recheck mem) ∧ recheckFull (mem_recheck mem') = recheckFull (mem_recheck mem).
Proof.
  intros [Hok Hconn Hpc Hcur]. pose proof (mo_list _ _ Hok) as Hl. destruct unsent as [|u unsent]; [done|]. injection Hpc as ->.
  assert ((kept ++ sent ++ e :: unsent) !! (length kept + length sent)%nat = Some e) as He.
  { rewrite app_assoc. apply list_lookup_middle. by rewrite length_app. }
  destruct (ok_linked _ _ Hl _ _ He) as [v Hv]. unfold recheckRequest, element. rewrite Hv. cbn.
  assert (tx_at (mem_txs mem) e = Some (mtx_tx v)) as Ht by (unfold tx_at; by rewrite Hv).
  eexists _, (mtx_tx v), unsent. split; [reflexivity|]. split_and!; try done.
  assert (kept ++ (sent ++ [e]) ++ unsent = kept ++ sent ++ e :: unsent) as Hids by (by rewrite <-app_assoc).
  split; rewrite ?Hids.
  - by apply with_recheck_ok.
  - apply Forall2_app; [done|]. apply Forall2_cons. split; [by exists (mtx_tx v)|by apply Forall2_nil].
  - cbn. rewrite Hv. cbn. f_equal. rewrite app_assoc, lookup_app_r by (rewrite length_app; lia). rewrite length_app.
    replace (S (length kept + length sent) - (length kept + length sent))%nat with 1%nat by lia. by destruct unsent.
  - cbn. destruct (isRechecking (mem_recheck mem)); [done|]. by destruct Hcur as (_ & _ & ?).
Qed.

Lemma next_phase mem conn e kept sent unsent :
  phase mem conn (Requested e) kept sent unsent → ∃ pc, recheckNext mem e = Ret pc ∧ phase mem conn pc kept sent unsent ∧ pc = after_next (head unsent).
Proof.
  intros [Hok Hconn Hpc Hcur]. unfold recheckNext, Next, element. cbn in Hpc. destruct (cl_heap (mem_txs mem) !! e) as [c|]; [|done]. cbn in *. injection Hpc as ->.
  eexists. split; [reflexivity|]. split; [|done]. split; try done. by destruct unsent.
Qed.

Lemma finish_ok mem conn kept sent unsent timeout :
  cfg_ok (config mem) → phase mem conn Waiting kept sent unsent → (isRechecking (mem_recheck mem) = false → recheckFull (mem_recheck mem) = false) →
  timeout && doneCh (mem_recheck mem) = false → mp_ok (mkMempoolRun (recheckFinish mem timeout) conn Idle).
Proof.
  intros Hcfg [Hok Hconn Hpc Hcur] Hfull Ht. unfold recheckFinish.
  assert (Forall (req_fits (config mem)) conn) as Hfits.
  { clear -Hconn. induction Hconn as [|req e conn sent (t & -> & _) _ IH]; constructor; done. }
  destruct (isRechecking (mem_recheck mem)) eqn:Hr.
  - destruct Hcur as (Hd & _). rewrite Hd. cbn [andb]. eapply mp_ok_idle; try done. by apply with_recheck_ok.
  - destruct Hcur as (Hd & _). rewrite Hd in *. assert (timeout = false) as -> by (by destruct timeout). cbn. eapply mp_ok_idle; try done; [by apply Hfull|by apply with_recheck_ok].
Qed.

Lemma mp_do_ok r s : enabled r s = true → mp_ok r → ∃ r', mp_do r s = Ret r' ∧ mp_ok r' ∧ config (run_mem r') = config (run_mem r).
Proof.
  destruct r as [mem conn pc]. intros Hen Hok. destruct s as [| |tx cb s ce|res|h txs codes pre post| | |timeout| |k]; cbn [mp_do] in *.
  - eexists. split; [reflexivity|]. split; [|done]. by eapply mp_ok_flags; [| | |exact Hok].
  - eexists. split; [reflexivity|]. split; [|done]. by apply Lock_ok.
  - apply bool_decide_eq_true_1 in Hen. cbn in Hen. subst pc. destruct Hok as (Hcfg & Hfull & ids & Hok & Hr & Hd & Hc). cbn in *.
    destruct (CheckTx_ok mem ids conn tx cb s ce Hok) as (mem' & conn' & err & -> & Hok' & E1 & E2 & _ & Hconn). cbn. eexists. split; [reflexivity|]. split; [|done].
    apply (mp_ok_idle mem' ids); rewrite ?E1, ?E2; auto. destruct Hconn as [[_ ->]|(_ & -> & Hl)]; [done|]. apply Forall_app. split; [done|]. by apply Forall_singleton.
  - destruct conn as [|req conn]; [by eexists|]. destruct (answer_ok mem req conn pc res Hok) as (mem' & cb & -> & Hok' & E). cbn. eexists. by split.
  - apply andb_prop in Hen as [[Hpc%bool_decide_eq_true_1 Hconn%bool_decide_eq_true_1]%andb_prop Hlen%Z.leb_le]. cbn in Hpc, Hconn. subst pc conn.
    pose proof Hok as (_ & _ & ids & Hids & _). destruct (Update_ok mem ids h txs codes pre post Hok Hids Hlen) as (mem' & pc & -> & Hok' & E & _). cbn. eexists. by split.
  - destruct pc as [|e|e|]; [by eexists| |by eexists..]. destruct Hok as (Hcfg & Hfull & kept & sent & unsent & Hph). cbn [run_mem run_conn run_pc] in *.
    destruct (request_phase _ _ _ _ _ _ Hph) as (mem' & t & unsent' & -> & _ & _ & Hph' & (_ & _ & _ & E4) & _ & Er & Ef). cbn in *. eexists. split; [reflexivity|]. split; [|done].
    eapply mp_ok_phase; [by rewrite E4| |exact Hph']. by rewrite Er, Ef.
  - destruct pc as [|e|e|]; [by eexists|by eexists| |by eexists]. destruct Hok as (Hcfg & Hfull & kept & sent & unsent & Hph). cbn [run_mem run_conn run_pc] in *.
    destruct (next_phase _ _ _ _ _ _ Hph) as (pc & -> & Hph' & _). cbn in *. eexists. split; [reflexivity|]. split; [|done]. by eapply mp_ok_phase.
  - destruct pc as [|e|e|]; [by eexists..|]. destruct Hok as (Hcfg & Hfull & kept & sent & unsent & Hph). cbn [run_mem run_conn run_pc] in *. cbn in *. eexists. split; [reflexivity|]. split.
    + eapply finish_ok; try done. by apply negb_true_iff.
    + cbn. unfold recheckFinish. by destruct (doneCh (mem_recheck mem) && negb timeout).
  - apply bool_decide_eq_true_1 in Hen. cbn in Hen. subst pc. destruct Hok as (Hcfg & Hfull & ids & Hok & Hr & Hd & Hc). cbn in *.
    destruct (Flush_ok mem ids Hok Hcfg) as (mem' & -> & Hok' & E1 & E2 & _). cbn. eexists. split; [reflexivity|]. split; [|done].
    apply (mp_ok_idle mem' []); rewrite ?E1, ?E2; auto.
  - apply bool_decide_eq_true_1 in Hen. cbn in Hen. subst pc. destruct Hok as (Hcfg & Hfull & ids & Hok & Hr & Hd & Hc). cbn in *.
    destruct (RemoveTxByKey_any mem ids k Hok Hcfg) as (mem' & err & ids' & -> & Hok' & (E1 & E2 & _) & _). cbn. eexists. split; [reflexivity|]. split; [|done].
    apply (mp_ok_idle mem' ids'); rewrite ?E1, ?E2; auto.
Qed.

Lemma mp_run_ok ss r : run_enabled r ss = true → mp_ok r → ∃ r', mp_run r ss = Ret r' ∧ mp_ok r' ∧ config (run_mem r') = config (run_mem r).
Proof.
  revert r. induction ss as [|s ss IH]; intros r Hen Hok; [by exists r|]. cbn in *. apply andb_prop in Hen as [Hs Hss].
  destruct (mp_do_ok r s Hs Hok) as (r1 & Hd & Hok1 & E1). rewrite Hd in *. cbn. destruct (IH r1 Hss Hok1) as (r2 & -> & Hok2 & E2). exists r2. split_and!; congruence.
Qed.

(** What an observer of the mempool relies on. *)
Lemma mp_ok_mem r : mp_ok r → ∃ ids, mem_ok (run_mem r) ids.
Proof.
  intros (_ & _ & Hpc). destruct (run_pc r); [by destruct Hpc as (ids & ? & _); exists ids|..]; destruct Hpc as (kept & sent & unsent & []); by eexists.
Qed.
End runs.

(** ** Updates *)

(** A recheck in progress goes on by its own turns and the answers of an
    application [app], in any order the connection allows; the wait for the
    answers ends with the signal or, if there is none, with the timeout. *)
Inductive turn := TRequest | TNext | TAnswer | TLock | TDone | TTimeout.

Section updates.
Context `{Crypto}.

Definition turn_do (app : Tx → ResponseCheckTx) (t : turn) (r : MempoolRun) : outcome MempoolRun :=
  match t with
  | TRequest => mp_do r SRequest
  | TNext => mp_do r SNext
  | TLock => mp_do r SLock
  | TAnswer =>
      match run_conn r with
      | ReqRecheck tx :: _ | ReqCheckTx tx _ _ :: _ => mp_do r (SAnswer (Response_CheckTx (app tx)))
      | [] => Ret r
      end
  | TDone => if doneCh (mem_recheck (run_mem r)) then mp_do r (SFinish false) else Ret r
  | TTimeout => if doneCh (mem_recheck (run_mem r)) then Ret r else mp_do r (SFinish true)
  end.

Definition tx_valid (post : option PostCheckFunc) (app : Tx → ResponseCheckTx) (m : mempoolTx) : Prop :=
  res_Code (app (mtx_tx m)) = CodeTypeOK ∧ match post with Some f => f (mtx_tx m) (app (mtx_tx m)) | None => None end = None.
#[local] Instance tx_valid_dec post app m : Decision (tx_valid post app m).
Proof. unfold tx_valid. apply _. Defined.

Lemma accepts_valid mem app m : accepts mem (mtx_tx m) (app (mtx_tx m)) = bool_decide (tx_valid (postCheck mem) app m).
Proof.
  unfold accepts, run_postCheck, tx_valid. destruct (Z.eqb_spec (res_Code (app (mtx_tx m))) CodeTypeOK) as [He|He]; cbn [andb].
  - apply bool_decide_ext. tauto.
  - symmetry. apply bool_decide_eq_false_2. tauto.
Qed.

(** Of the first [n] those that are valid are left, and all of the others. *)
Definition rechecked (app : Tx → ResponseCheckTx) (post : option PostCheckFunc) (n : nat) (ms : list mempoolTx) : list mempoolTx :=
  filter (tx_valid post app) (take n ms) ++ drop n ms.

(** The recheck is under way and [n] answers have come. *)
Definition progress (app : Tx → ResponseCheckTx) (post : option PostCheckFunc) (ms : list mempoolTx) (r : MempoolRun) : Prop :=
  cfg_ok (config (run_mem r)) ∧ postCheck (run_mem r) = post ∧ (isRechecking (mem_recheck (run_mem r)) = false → recheckFull (mem_recheck (run_mem r)) = false) ∧
  ∃ kept sent unsent n, phase (run_mem r) (run_conn r) (run_pc r) kept sent unsent ∧ (n ≤ length ms)%nat ∧
    values (mem_txs (run_mem r)) = rechecked app post n ms ∧ length (filter (tx_valid post app) (take n ms)) = length kept.

(** It has ended; after a timeout ([late]) answers may have been missing. *)
Definition settled (app : Tx → ResponseCheckTx) (post : option PostCheckFunc) (ms : list mempoolTx) (late : bool) (r : MempoolRun) : Prop :=
  run_pc r = Idle ∧ rc_done (mem_recheck (run_mem r)) = true ∧ Forall (λ req, ∃ t, req = ReqRecheck t) (run_conn r) ∧
  ∃ n, (n ≤ length ms)%nat ∧ values (mem_txs (run_mem r)) = rechecked app post n ms ∧ (late = false → n = length ms).

Lemma phase_value mem conn pc kept x sent unsent kv sv t :
  phase mem conn pc kept (x :: sent) unsent → values (mem_txs mem) = kv ++ sv → length kv = length kept → tx_at (mem_txs mem) x = Some t →
  ∃ m sv', sv = m :: sv' ∧ mtx_tx m = t.
Proof.
  intros [Hok _ _ _] Hv Hlen Ht. pose proof (mo_list _ _ Hok) as Hl. assert ((kept ++ (x :: sent) ++ unsent) !! length kept = Some x) as Hx by (by apply list_lookup_middle).
  unfold tx_at in Ht. destruct (cl_heap (mem_txs mem) !! x) as [c|] eqn:Hc; [|done]. cbn in Ht. injection Ht as <-.
  pose proof (values_lookup _ _ _ _ _ Hl Hx Hc) as Hi. rewrite Hv, lookup_app_r, Hlen, Nat.sub_diag in Hi by lia.
  destruct sv as [|m sv]; [done|]. injection Hi as ->. by exists (ce_Value c), sv.
Qed.

Lemma rechecked_step n (ms : list mempoolTx) m sv :
  drop n ms = m :: sv → (n < length ms)%nat ∧ take (S n) ms = take n ms ++ [m] ∧ drop (S n) ms = sv.
Proof.
  intros Hd. assert (ms !! n = Some m) as Hm by (rewrite <-(Nat.add_0_r n), <-lookup_drop, Hd; done).
  split_and!; [by eapply lookup_lt_Some|by apply take_S_r|]. apply drop_S in Hm. congruence.
Qed.

Lemma answer_progress app post ms mem req conn pc :
  progress app post ms (mkMempoolRun mem (req :: conn) pc) →
  ∃ r', turn_do app TAnswer (mkMempoolRun mem (req :: conn) pc) = Ret r' ∧ progress app post ms r'.
Proof.
  intros (Hcfg & Hpost & Hfull & kept & sent & unsent & n & Hph & Hn & Hv & Hlen). cbn [run_mem run_conn run_pc] in *.
  destruct sent as [|x sent]; [by pose proof (ph_conn _ _ _ _ _ _ Hph) as HF; inversion HF|].
  pose proof (ph_conn _ _ _ _ _ _ Hph) as [(tx & -> & Htx) _]%Forall2_cons. cbn [turn_do mp_do run_conn].
  destruct (answer_phase mem conn pc kept x sent unsent tx (Response_CheckTx (app tx)) Hph Hcfg) as (mem' & Hg & E1 & E2 & Hf' & Hph' & Hv').
  unfold answered. rewrite Hg. cbn [mbind outcome_bind]. eexists. split; [reflexivity|]. unfold progress. cbn [run_mem run_conn run_pc]. rewrite E1, E2. split_and!; try done.
  destruct (phase_value _ _ _ _ _ _ _ _ _ _ Hph Hv Hlen Htx) as (m & sv' & Hsv & <-). cbn [stays] in *. rewrite accepts_valid, Hpost in *.
  destruct (rechecked_step n ms m sv' Hsv) as (Hlt & Ht & Hd). unfold rechecked in *. rewrite Hsv in Hv.
  assert (filter (tx_valid post app) (take (S n) ms) = filter (tx_valid post app) (take n ms) ++ if decide (tx_valid post app m) then [m] else []) as Hfs.
  { by rewrite Ht, filter_app. }
  destruct (decide (tx_valid post app m)) as [Hg'|Hg'].
  - rewrite (bool_decide_eq_true_2 _ Hg') in *. exists (kept ++ [x]), sent, unsent, (S n). rewrite Hfs, Hd, <-app_assoc, !length_app.
    split_and!; [done|lia|rewrite Hv'; exact Hv|cbn; lia].
  - rewrite (bool_decide_eq_false_2 _ Hg') in *. exists kept, sent, unsent, (S n). rewrite Hfs, Hd, app_nil_r, Hv', Hv, <-Hlen, delete_middle.
    split_and!; [done|lia|done|done].
Qed.

(** The end of the wait. *)
Lemma finish_progress app post ms mem conn timeout :
  progress app post ms (mkMempoolRun mem conn Waiting) → doneCh (mem_recheck mem) = negb timeout →
  settled app post ms timeout (mkMempoolRun (recheckFinish mem timeout) conn Idle).
Proof.
  intros (Hcfg & Hpost & Hfull & kept & sent & unsent & n & [Hok Hconn Hpc Hcur] & Hn & Hv & Hlen) Hd. cbn [run_mem run_conn run_pc] in *.
  unfold settled, recheckFinish. cbn [run_mem run_conn run_pc]. rewrite Hd. split; [done|].
  assert (Forall (λ req, ∃ t, req = ReqRecheck t) conn) as Hreq.
  { clear -Hconn. induction Hconn as [|req e conn sent (t & -> & _) _ IH]; constructor; [by exists t|done]. }
  destruct timeout; cbn [negb andb] in *.
  - split_and!; [done|done|]. exists n. by split_and!.
  - unfold rc_done. destruct (isRechecking (mem_recheck mem)) eqn:Hr; [destruct Hcur as [Hf _]; congruence|]. cbn [mem_recheck with_recheck isRechecking negb]. split_and!; [done|done|].
    exists n. split_and!; [done|done|]. intros _. destruct Hcur as (_ & -> & ->). rewrite !app_nil_r in Hok.
    pose proof (values_size _ _ Hok) as [Ha Hb]. rewrite Ha, Hv in Hb. unfold rechecked, len in Hb. rewrite length_app, length_drop in Hb. lia.
Qed.

Lemma turn_progress app post ms t r :
  progress app post ms r →
  ∃ r', turn_do app t r = Ret r' ∧ (progress app post ms r' ∨ ∃ late, settled app post ms late r' ∧ (late = true → t = TTimeout)).
Proof.
  destruct r as [mem conn pc]. intros Hpr. pose proof Hpr as (Hcfg & Hpost & Hfull & kept & sent & unsent & n & Hph & Hn & Hv & Hlen). cbn [run_mem run_conn run_pc] in *.
  destruct t; cbn [turn_do mp_do run_mem].
  - destruct pc as [|e|e|]; [by eauto| |by eauto..]. destruct (request_phase _ _ _ _ _ _ Hph) as (mem' & tx & unsent' & -> & _ & _ & Hph' & (E1 & _ & _ & E4) & E5 & Er & Ef).
    cbn. eexists. split; [reflexivity|]. left. unfold progress. cbn. rewrite E1, E4, E5, Er, Ef. split_and!; try done. by eexists _, _, _, n.
  - destruct pc as [|e|e|]; [by eauto|by eauto| |by eauto]. destruct (next_phase _ _ _ _ _ _ Hph) as (pc & -> & Hph' & _). cbn. eexists. split; [reflexivity|].
    left. unfold progress. cbn. split_and!; try done. by eexists _, _, _, n.
  - destruct conn as [|req conn]; [by eauto|]. destruct (answer_progress app post ms mem req conn pc Hpr) as (r' & Hr & ?). exists r'. split; [exact Hr|by left].
  - eexists. split; [reflexivity|]. assert (mp_ok (mkMempoolRun mem conn pc)) as Hm by (by eapply mp_ok_phase). apply Lock_ok in Hm as (_ & Hfull' & _).
    left. unfold progress. cbn [run_mem run_conn run_pc] in *. split_and!; try done. exists kept, sent, unsent, n. split_and!; try done.
    destruct Hph. split; [by apply with_recheck_ok|done..].
  - destruct (doneCh _) eqn:Hd; [|by eauto]. destruct pc as [|e|e|]; [by eauto..|]. eexists. split; [reflexivity|]. right. exists false. split; [by apply finish_progress|done].
  - destruct (doneCh _) eqn:Hd; [by eauto|]. destruct pc as [|e|e|]; [by eauto..|]. eexists. split; [reflexivity|]. right. exists true. split; [by apply finish_progress|done].
Qed.

(** Answers that come after the end are ignored. *)
Lemma turn_settled app post ms late t r : settled app post ms late r → ∃ r', turn_do app t r = Ret r' ∧ settled app post ms late r'.
Proof.
  destruct r as [mem conn pc]. intros (Hpc & Hd & Hreq & Hn). cbn in Hpc, Hd, Hreq, Hn. subst pc. destruct t; cbn [turn_do mp_do run_mem run_conn].
  1,2: by eexists.
  - destruct conn as [|req conn]; [by eexists|]. apply Forall_cons in Hreq as [[tx ->] Hreq]. unfold answered, globalCb. rewrite Hd. cbn. by eexists.
  - eexists. split; [reflexivity|]. split_and!; [done|exact Hd|done|exact Hn].
  - destruct (doneCh _); by eexists.
  - destruct (doneCh _); by eexists.
Qed.

Lemma turns_settled app post ms late ts r : settled app post ms late r → ∃ r', for_each (turn_do app) ts r = Ret r' ∧ settled app post ms late r'.
Proof.
  revert r. induction ts as [|t ts IH]; intros r Hr; [by exists r|]. destruct (turn_settled app post ms late t r Hr) as (r1 & Hd & Hr1). cbn. rewrite Hd. apply IH, Hr1.
Qed.

Lemma turns_progress app post ms ts r :
  progress app post ms r →
  ∃ r', for_each (turn_do app) ts r = Ret r' ∧ (progress app post ms r' ∨ ∃ late, settled app post ms late r' ∧ (late = true → TTimeout ∈ ts)).
Proof.
  revert r. induction ts as [|t ts IH]; intros r Hr; [by exists r; split; [|left]|].
  destruct (turn_progress app post ms t r Hr) as (r1 & Hd & [Hr1|(late & Hr1 & Hl)]); cbn; rewrite Hd; cbn.
  - destruct (IH r1 Hr1) as (r2 & -> & [?|(late & ? & Hl)]); exists r2; (split; [done|]); [by left|right; exists late]. split; [done|]. intros E. right. by apply Hl.
  - destruct (turns_settled app post ms late ts r1 Hr1) as (r2 & -> & ?). exists r2. split; [done|]. right. exists late. split; [done|]. intros E. rewrite (Hl E). by left.
Qed.

(** With all answers in, every transaction was checked again. *)
Lemma progress_done app post ms r n :
  phase (run_mem r) (run_conn r) (run_pc r) n [] [] → ∀ k, values (mem_txs (run_mem r)) = rechecked app post k ms → (k ≤ length ms)%nat →
  length (filter (tx_valid post app) (take k ms)) = length n → k = length ms.
Proof.
  intros [Hok _ _ _] k Hv Hk Hlen. rewrite !app_nil_r in Hok. pose proof (values_size _ _ Hok) as [Ha Hb]. rewrite Ha, Hv in Hb.
  unfold rechecked, len in Hb. rewrite length_app, length_drop in Hb. lia.
Qed.

(** If none of the turns can happen. *)
Lemma turns_idle app ts mem :
  ∃ mem', for_each (turn_do app) ts (mkMempoolRun mem [] Idle) = Ret (mkMempoolRun mem' [] Idle) ∧ mem_txs mem' = mem_txs mem.
Proof.
  revert mem. induction ts as [|t ts IH]; intros mem; [by exists mem|].
  assert (∃ mem1, turn_do app t (mkMempoolRun mem [] Idle) = Ret (mkMempoolRun mem1 [] Idle) ∧ mem_txs mem1 = mem_txs mem) as (mem1 & Ht & E).
  { destruct t; cbn [turn_do mp_do run_mem]; try (destruct (doneCh _)); by eexists. }
  cbn. rewrite Ht. cbn. rewrite <-E. apply IH.
Qed.

(** An application that answers each request at once gets to the end. *)
Lemma sync_reaches app mem e kept unsent :
  cfg_ok (config mem) → phase mem [] (Requesting e) kept [] unsent →
  ∃ ts mem', (TTimeout ∉ ts) ∧ for_each (turn_do app) ts (mkMempoolRun mem [] (Requesting e)) = Ret (mkMempoolRun mem' [] Waiting).
Proof.
  revert mem e kept. induction unsent as [|u unsent IH]; intros mem e kept Hcfg Hph; [by pose proof (ph_pc _ _ _ _ _ _ Hph)|].
  destruct (request_phase _ _ _ _ _ _ Hph) as (mem1 & t & unsent' & Hq & [= <- <-] & _ & Hph1 & (_ & _ & _ & E4) & _).
  destruct (answer_phase mem1 [] _ kept u [] unsent t (Response_CheckTx (app t)) Hph1) as (mem2 & Hg & E & _ & _ & Hph2 & _); [by rewrite E4|].
  destruct (next_phase _ _ _ _ _ _ Hph2) as (pc & Hn & Hph3 & Hpc).
  assert (∀ ts, for_each (turn_do app) (TRequest :: TAnswer :: TNext :: ts) (mkMempoolRun mem [] (Requesting u)) = for_each (turn_do app) ts (mkMempoolRun mem2 [] pc)) as Hrun.
  { intros ts. cbn [for_each turn_do mp_do]. rewrite Hq. cbn [mbind outcome_bind for_each turn_do run_conn mp_do Datatypes.app]. unfold answered. rewrite Hg. cbn [mbind outcome_bind mp_do]. rewrite Hn. done. }
  destruct unsent as [|v unsent]; cbn in Hpc; subst pc; [exists [TRequest; TAnswer; TNext], mem2; split; [set_solver|by rewrite Hrun]|].
  destruct (IH mem2 v _ ltac:(by rewrite E, E4) Hph3) as (ts & mem' & Hno & Hts). exists (TRequest :: TAnswer :: TNext :: ts), mem'. split; [set_solver|by rewrite Hrun].
Qed.

Lemma update_progress app r h txs codes pre post :
  mp_ok r → run_pc r = Idle → run_conn r = [] → len txs ≤ len codes →
  ∃ r1, mp_do r (SUpdate h txs codes pre post) = Ret r1 ∧ run_conn r1 = [] ∧
    let left := filter (λ m, mtx_key m ∉ Tx_Key <$> txs) (values (mem_txs (run_mem r))) in
    (run_pc r1 = Idle ∧ values (mem_txs (run_mem r1)) = left ∧ (cfg_Recheck (config (run_mem r)) = false ∨ left = [])) ∨
    (∃ e ids, run_pc r1 = Requesting e ∧ cfg_ok (config (run_mem r1)) ∧ phase (run_mem r1) [] (Requesting e) [] [] ids ∧ cfg_Recheck (config (run_mem r)) = true ∧
      progress app (override post (postCheck (run_mem r))) left r1).
Proof.
  destruct r as [mem conn pc]. intros Hok Hpc Hconn Hlen. cbn in Hpc, Hconn. subst pc conn. pose proof (mp_ok_mem _ Hok) as [ids Hids]. cbn [run_mem run_conn] in *.
  destruct (Update_ok mem ids h txs codes pre post Hok Hids Hlen) as (mem' & pc & Hu & Hok' & E1 & E2 & Hv & Hphase & Hidle). cbn [mp_do]. rewrite Hu. cbn [mbind outcome_bind].
  eexists. split; [reflexivity|]. split; [done|]. cbn [run_mem run_pc run_conn]. rewrite <-Hv. destruct (decide (cfg_Recheck (config mem) = false ∨ values (mem_txs mem') = [])) as [Hd|Hd].
  - left. split_and!; [by apply Hidle|done|done].
  - right. assert (cfg_Recheck (config mem) = true) as Hr by (destruct (cfg_Recheck (config mem)); tauto). assert (values (mem_txs mem') ≠ []) as Hne by tauto.
    destruct (Hphase Hr Hne) as (ids' & e & -> & Hph). pose proof Hok' as (Hcfg & Hfull & _). exists e, ids'. split_and!; try done.
    split_and!; try done. exists [], [], ids', 0%nat. split_and!; [done|lia|done|done].
Qed.
End updates.

(** ** Reaping *)

Definition proto_size (m : mempoolTx) : Z := 1 + tx_len m + sovTypes (tx_len m).

(** A prefix that a proposal may take; a negative limit is none. *)
Definition fits (maxBytes maxGas : Z) (ms : list mempoolTx) : Prop :=
  (0 ≤ maxBytes → zsum proto_size ms ≤ maxBytes) ∧ (0 ≤ maxGas → zsum gasWanted ms ≤ maxGas).

(** Sizes and gas stay far from the width of the integers. *)
Definition reapable (maxBytes maxGas : Z) (m : mempoolTx) : Prop :=
  tx_len m ≤ 2 ^ 61 ∧ maxBytes ≤ 2 ^ 61 ∧ (0 ≤ maxGas → 0 ≤ gasWanted m ≤ MaxInt64 - maxGas).

Lemma sovTypes_bounds n : 0 ≤ n ≤ 2 ^ 61 → 1 ≤ sovTypes n ≤ 9.
Proof.
  intros Hn. unfold sovTypes. assert (0 < Z.lor n 1) as Hpos.
  { assert (0 ≤ Z.lor n 1) by (apply Z.lor_nonneg; lia). assert (Z.lor n 1 ≠ 0); [|lia]. intros Hz. apply Z.lor_eq_0_iff in Hz. lia. }
  assert (Z.log2 (Z.lor n 1) ≤ 61) as Hlog.
  { rewrite Z.log2_lor by lia. apply Z.max_lub; [|done]. transitivity (Z.log2 (2 ^ 61)); [apply Z.log2_le_mono; lia|done]. }
  pose proof (Z.log2_nonneg (Z.lor n 1)). split; [apply Z.div_le_lower_bound; lia|]. apply Z.lt_succ_r, Z.div_lt_upper_bound; lia.
Qed.

Lemma proto_size_bounds m : tx_len m ≤ 2 ^ 61 → 0 < proto_size m ≤ 2 ^ 61 + 10.
Proof. intros Hm. pose proof (len_nonneg (mtx_tx m)) as Hl. pose proof (sovTypes_bounds (tx_len m) ltac:(unfold tx_len in *; lia)). unfold proto_size, tx_len in *. lia. Qed.

Lemma ComputeProtoSize_exact m : tx_len m ≤ 2 ^ 61 → ComputeProtoSizeForTxs [mtx_tx m] = proto_size m.
Proof.
  intros Hm. pose proof (proto_size_bounds m Hm) as Hb. pose proof (len_nonneg (mtx_tx m)). unfold ComputeProtoSizeForTxs, proto_size, tx_len in *. cbn [foldl].
  rewrite uint64_id by ulia. rewrite int64_id; [lia|]. ulia.
Qed.

Section reaping.
Variables (maxBytes maxGas : Z).

Lemma fits_nil : fits maxBytes maxGas [].
Proof. split; by rewrite zsum_nil. Qed.

(** The loop, with what was taken before. *)
Lemma reapLoop_spec taken ms runningSize totalGas :
  Forall (reapable maxBytes maxGas) ms → fits maxBytes maxGas taken → (0 ≤ maxBytes → runningSize = zsum proto_size taken) → (0 ≤ maxGas → totalGas = zsum gasWanted taken) →
  (∀ m, m ∈ taken → 0 ≤ proto_size m ∧ (0 ≤ maxGas → 0 ≤ gasWanted m)) →
  ∃ n, reapLoop maxBytes maxGas runningSize totalGas ms = mtx_tx <$> take n ms ∧ (n ≤ length ms)%nat ∧ fits maxBytes maxGas (taken ++ take n ms) ∧
    ∀ m, ms !! n = Some m → ¬ fits maxBytes maxGas (taken ++ take n ms ++ [m]).
Proof.
  revert taken runningSize totalGas. induction ms as [|m ms IH]; intros taken rs tg Hms Hfit Hrs Htg Hpos; [exists 0%nat; split_and!; [done|done|by rewrite app_nil_r|done]|].
  apply Forall_cons in Hms as [(Hm1 & Hm2 & Hm3) Hms]. cbn [reapLoop]. rewrite ComputeProtoSize_exact by done. pose proof (proto_size_bounds m Hm1) as Hb.
  assert (∀ b, b = true → (b = true → ¬ fits maxBytes maxGas (taken ++ [m])) → ∃ n, [] = mtx_tx <$> take n (m :: ms) ∧ (n ≤ length (m :: ms))%nat ∧ fits maxBytes maxGas (taken ++ take n (m :: ms)) ∧
    ∀ m', (m :: ms) !! n = Some m' → ¬ fits maxBytes maxGas (taken ++ take n (m :: ms) ++ [m'])) as Hstop.
  { intros b Hbt Hn. exists 0%nat. cbn. rewrite app_nil_r. split_and!; [done|lia|done|]. intros m' [= <-]. by apply Hn. }
  destruct ((-1 <? maxBytes) && (maxBytes <? int64 (rs + proto_size m))) eqn:Hc1.
  - apply (Hstop true eq_refl). intros _ [Hf _]. apply andb_prop in Hc1 as [H1%Z.ltb_lt H2%Z.ltb_lt]. specialize (Hf ltac:(lia)). rewrite zsum_app, zsum_cons, zsum_nil in Hf.
    rewrite (Hrs ltac:(lia)) in H2. pose proof (zsum_nonneg proto_size taken ltac:(intros; by apply Hpos)). rewrite int64_id in H2 by ulia. lia.
  - assert (0 ≤ maxBytes → int64 (rs + proto_size m) = zsum proto_size (taken ++ [m]) ∧ zsum proto_size (taken ++ [m]) ≤ maxBytes) as Hsz.
    { intros Hnn. pose proof (proj1 Hfit Hnn) as Hf. pose proof (zsum_nonneg proto_size taken ltac:(intros; by apply Hpos)). rewrite (Hrs Hnn) in *. rewrite int64_id in * by ulia.
      rewrite zsum_app, zsum_cons, zsum_nil. apply andb_false_iff in Hc1 as [H1%Z.ltb_ge|H1%Z.ltb_ge]; lia. }
    destruct ((-1 <? maxGas) && (maxGas <? int64 (tg + gasWanted m))) eqn:Hc2.
    + apply (Hstop true eq_refl). intros _ [_ Hf]. apply andb_prop in Hc2 as [H1%Z.ltb_lt H2%Z.ltb_lt]. specialize (Hf ltac:(lia)). rewrite zsum_app, zsum_cons, zsum_nil in Hf.
      rewrite (Htg ltac:(lia)) in H2. pose proof (zsum_nonneg gasWanted taken ltac:(intros; apply Hpos; [done|lia])). specialize (Hm3 ltac:(lia)). rewrite int64_id in H2 by ulia. lia.
    + assert (0 ≤ maxGas → int64 (tg + gasWanted m) = zsum gasWanted (taken ++ [m]) ∧ zsum gasWanted (taken ++ [m]) ≤ maxGas) as Hgas.
      { intros Hnn. pose proof (proj2 Hfit Hnn) as Hf. specialize (Hm3 Hnn). pose proof (zsum_nonneg gasWanted taken ltac:(intros; by apply Hpos)). rewrite (Htg Hnn) in *. rewrite int64_id in * by ulia.
        rewrite zsum_app, zsum_cons, zsum_nil. apply andb_false_iff in Hc2 as [H1%Z.ltb_ge|H1%Z.ltb_ge]; lia. }
      destruct (IH (taken ++ [m]) (int64 (rs + proto_size m)) (int64 (tg + gasWanted m)) Hms) as (n & Hr & Hn & Hf & Hl).
      * split; intros Hnn; [by apply Hsz|by apply Hgas].
      * intros Hnn. by apply Hsz.
      * intros Hnn. by apply Hgas.
      * intros x [Hx|Hx]%elem_of_app; [by apply Hpos|]. apply list_elem_of_singleton in Hx as ->. split; [lia|]. intros Hnn. specialize (Hm3 Hnn). lia.
      * exists (S n). cbn [take firstn]. rewrite Hr. rewrite <-app_assoc in Hf. split_and!; [done|cbn; lia|done|].
        intros m' Hm'. specialize (Hl m' Hm'). by rewrite <-app_assoc in Hl.
Qed.
End reaping.

Lemma fits_prefix maxBytes maxGas ms k :
  Forall (reapable maxBytes maxGas) k → fits maxBytes maxGas (ms ++ k) → fits maxBytes maxGas ms.
Proof.
  intros Hk [H1 H2]. rewrite Forall_forall in Hk. split; intros Hnn.
  - specialize (H1 Hnn). rewrite zsum_app in H1. pose proof (zsum_nonneg proto_size k ltac:(intros x (Hx & _)%Hk; pose proof (proto_size_bounds x Hx); lia)). lia.
  - specialize (H2 Hnn). rewrite zsum_app in H2. pose proof (zsum_nonneg gasWanted k ltac:(intros x (_ & _ & Hx)%Hk; specialize (Hx Hnn); lia)). lia.
Qed.

Lemma reapTxs_spec max acc ms : reapTxs max acc ms = acc ++ (mtx_tx <$> take (Z.to_nat (max + 1 - len acc)) ms).
Proof.
  revert acc. induction ms as [|m ms IH]; intros acc; cbn [reapTxs]; [by rewrite take_nil, app_nil_r|].
  destruct (Z.leb_spec (len acc) max) as [Hle|Hgt].
  - rewrite IH, len_app. change (len [mtx_tx m]) with 1. replace (Z.to_nat (max + 1 - len acc)) with (S (Z.to_nat (max + 1 - (len acc + 1)))) by lia. cbn. by rewrite <-app_assoc.
  - replace (Z.to_nat (max + 1 - len acc)) with 0%nat by lia. cbn. by rewrite app_nil_r.
Qed.

Section properties.
Context `{Crypto}.


(** C25: An update on a mempool whose requests are all answered removes the
    committed transactions and, if the configuration says so, sends the others
    to the application.  Whatever the order of the turns and of the answers
    of an application [app], the list is at every moment [rechecked]: of a
    number of leading transactions exactly those that the application and the
    post-check accept are left, and all of the others, in their order.  With
    no timeout, all were checked once every request is made and answered;
    without rechecks none is.  An application that answers at once gets
    there. *)
Theorem mempool_update_exact cfg height pre post ss r app h txs codes pre' post' :
  cfg_ok cfg → run_enabled (mkMempoolRun (NewCListMempool cfg height pre post) [] Idle) ss = true →
  mp_run (mkMempoolRun (NewCListMempool cfg height pre post) [] Idle) ss = Ret r → run_pc r = Idle → run_conn r = [] → len txs ≤ len codes →
  let left := filter (λ m, mtx_key m ∉ Tx_Key <$> txs) (values (mem_txs (run_mem r))) in
  ∃ r1, mp_do r (SUpdate h txs codes pre' post') = Ret r1 ∧
    (∀ ts, ∃ r2 n, for_each (turn_do app) ts r1 = Ret r2 ∧ (n ≤ length left)%nat ∧
      values (mem_txs (run_mem r2)) = rechecked app (override post' (postCheck (run_mem r))) n left ∧
      (cfg_Recheck cfg = true → TTimeout ∉ ts → run_conn r2 = [] → run_pc r2 = Idle ∨ run_pc r2 = Waiting → n = length left) ∧
      (cfg_Recheck cfg = false → n = 0%nat)) ∧
    (∃ ts r2, (TTimeout ∉ ts) ∧ for_each (turn_do app) ts r1 = Ret r2 ∧ run_conn r2 = [] ∧ (run_pc r2 = Idle ∨ run_pc r2 = Waiting)).
Proof.
  intros Hcfg Hen Hr Hpc Hconn Hlen left. destruct (mp_run_ok ss _ Hen (mp_ok_new _ height pre post Hcfg)) as (r' & Hr' & Hok & E). rewrite Hr in Hr'. injection Hr' as <-. cbn in E.
  destruct (update_progress app r h txs codes pre' post' Hok Hpc Hconn Hlen) as (r1 & Hu & Hc1 & Hcase). exists r1. split; [done|].
  fold left in Hcase. rewrite E in Hcase. destruct Hcase as [(Hp1 & Hv1 & Hnil)|(e & ids & Hp1 & Hcfg1 & Hph & Hrc & Hpr)].
  - destruct r1 as [mem1 conn1 pc1]. cbn in Hp1, Hc1, Hv1. subst conn1 pc1. split; [|exists []; eexists; split_and!; [apply not_elem_of_nil|reflexivity|done|by left]].
    intros ts. destruct (turns_idle app ts mem1) as (mem2 & Ht & E2). exists (mkMempoolRun mem2 [] Idle), 0%nat. cbn [run_mem]. rewrite E2, Hv1.
    split_and!; [exact Ht|lia|done| |done]. intros Hrt. destruct Hnil as [?|Hnil]; [congruence|]. by rewrite Hnil.
  - split.
    + intros ts. destruct (turns_progress _ _ _ ts _ Hpr) as (r2 & Ht & Hr2). exists r2. destruct Hr2 as [Hr2|(late & Hr2 & Hlate)].
      * destruct Hr2 as (_ & _ & _ & kept & sent & unsent & n & Hph2 & Hn & Hv & Hl). exists n. split_and!; [done..| |congruence].
        intros _ _ Hc [Hi|Hw]; pose proof (ph_pc _ _ _ _ _ _ Hph2) as Hf; [by rewrite Hi in Hf|]. rewrite Hw in Hf. subst unsent.
        pose proof (ph_conn _ _ _ _ _ _ Hph2) as Hcn. rewrite Hc in Hcn. inversion Hcn; subst. by eapply progress_done.
      * destruct Hr2 as (_ & _ & _ & n & Hn & Hv & Hall). exists n. split_and!; [done..| |congruence]. intros _ Hno _ _. apply Hall.
        destruct late; [|done]. by destruct Hno; apply Hlate.
    + destruct r1 as [mem1 conn1 pc1]. cbn in Hp1, Hc1, Hph, Hcfg1. subst conn1 pc1. destruct (sync_reaches app mem1 e [] ids Hcfg1 Hph) as (ts & mem2 & Hno & Ht).
      exists ts. eexists. split_and!; [done|exact Ht|done|by right].
Qed.

(** C33: A proposal takes the longest prefix of the mempool whose encoded size and
    gas are within the limits. *)
Theorem reap_longest_prefix mem maxBytes maxGas :
  Forall (reapable maxBytes maxGas) (values (mem_txs mem)) →
  ∃ n, ReapMaxBytesMaxGas mem maxBytes maxGas = mtx_tx <$> take n (values (mem_txs mem)) ∧ fits maxBytes maxGas (take n (values (mem_txs mem))) ∧
    ∀ n', (n' ≤ length (values (mem_txs mem)))%nat → fits maxBytes maxGas (take n' (values (mem_txs mem))) → (n' ≤ n)%nat.
Proof.
  intros Hall. destruct (reapLoop_spec maxBytes maxGas [] (values (mem_txs mem)) 0 0 Hall (fits_nil _ _)) as (n & Hr & Hn & Hf & Hmax).
  1,2: by rewrite zsum_nil.
  { by intros m ?%not_elem_of_nil. }
  exists n. split_and!; [done|done|]. intros n' Hn' Hf'. destruct (decide (n' ≤ n)%nat) as [|Hgt]; [done|]. exfalso.
  destruct (lookup_lt_is_Some_2 (values (mem_txs mem)) n) as [m Hm]; [lia|]. apply (Hmax m Hm). cbn. rewrite <-take_S_r by done.
  eapply (fits_prefix _ _ _ (drop (S n) (take n' (values (mem_txs mem))))).
  - apply Forall_drop, Forall_take, Hall.
  - replace (take (S n) (values (mem_txs mem))) with (take (S n) (take n' (values (mem_txs mem)))) by (rewrite take_take; f_equal; lia). by rewrite take_drop.
Qed.

(** [ReapMaxTxs] returns one transaction more than it is asked for, when there
    is one; a negative bound gives them all. *)
Theorem reap_max_txs_one_more mem ids max :
  mem_ok mem ids → ReapMaxTxs mem max = mtx_tx <$> (if max <? 0 then values (mem_txs mem) else take (Z.to_nat max + 1) (values (mem_txs mem))).
Proof.
  intros Hok. pose proof (values_size _ _ Hok) as [Ha _]. unfold ReapMaxTxs. rewrite reapTxs_spec. cbn [app]. change (len []) with 0. unfold Size in Ha. destruct (Z.ltb_spec max 0).
  - rewrite Ha, take_ge; [done|]. unfold len. lia.
  - do 2 f_equal. lia.
Qed.
End properties.

(** ** Examples *)

Definition mp_crypto : Crypto := {| key_address := KeyBytes; verify_signature := λ _ _ _, true; sha256 := λ b, b |}.
Definition mp_cfg : MempoolConfig := mkMempoolConfig true 5 100 10 100 false.
Definition mp_start : MempoolRun := mkMempoolRun (NewCListMempool mp_cfg 0 None None) [] Idle.
Definition mp_good : Response := Response_CheckTx (mkResponseCheckTx 0 1).
Definition mp_steps : list mp_step :=
  [SEnable; SCheckTx [x01] false 7 None; SCheckTx [x02] true 0 None; SAnswer mp_good; SCheckTx [x01] false 8 None; SAnswer mp_good;
   SCheckTx [x03; x03] false 0 None; SAnswer mp_good; SLock].
Definition mp_app (tx : Tx) : ResponseCheckTx := mkResponseCheckTx (if decide (tx = [x03; x03]) then 1 else 0) 1.
Definition outcome_or {A} (d : A) (o : outcome A) : A := match o with Ret a => a | Panic _ => d end.
Definition mp_loaded : MempoolRun := outcome_or mp_start (mp_run (H := mp_crypto) mp_start mp_steps).

Lemma outcome_or_Ret {A} (d : A) o a : o = Ret a → outcome_or d o = a.
Proof. by intros ->. Qed.

Lemma mp_cfg_ok : cfg_ok mp_cfg.
Proof. unfold cfg_ok, mp_cfg. cbn. ulia. Qed.

Lemma mp_loaded_run : mp_run (H := mp_crypto) mp_start mp_steps = Ret mp_loaded ∧ mp_ok (H := mp_crypto) mp_loaded.
Proof.
  destruct (mp_run_ok (H := mp_crypto) mp_steps mp_start) as (r & Hr & Hok & _); [vm_compute; reflexivity|by apply mp_ok_new, mp_cfg_ok|].
  assert (mp_loaded = r) as -> by (unfold mp_loaded; exact (outcome_or_Ret mp_start _ r Hr)). split; [exact Hr|exact Hok].
Qed.



Lemma mempool_update_exact_witness :
  ∃ r1, mp_do (H := mp_crypto) mp_loaded (SUpdate 1 [[x01]] [0] None None) = Ret r1 ∧
    ∃ ts r2, for_each (turn_do (H := mp_crypto) mp_app) ts r1 = Ret r2 ∧ mtx_tx <$> values (mem_txs (run_mem r2)) = [[x02]].
Proof.
  destruct (mempool_update_exact (H := mp_crypto) mp_cfg 0 None None mp_steps mp_loaded mp_app 1 [[x01]] [0] None None mp_cfg_ok) as (r1 & Hu & Hall & ts & r2 & Hno & Ht & Hc & Hp).
  - vm_compute. reflexivity.
  - exact (proj1 mp_loaded_run).
  - vm_compute. reflexivity.
  - vm_compute. reflexivity.
  - vm_compute. discriminate.
  - exists r1. split; [exact Hu|]. exists ts, r2. split; [exact Ht|]. destruct (Hall ts) as (r2' & n & Ht' & Hn & Hv & Hn' & _).
    assert (Ret r2 = Ret r2') as Heq by (rewrite <-Ht; exact Ht'). injection Heq as <-. rewrite Hv, (Hn' eq_refl Hno Hc Hp). vm_compute. reflexivity.
Defined.

Lemma reap_longest_prefix_witness : ∃ n, ReapMaxBytesMaxGas (run_mem mp_loaded) 6 5 = mtx_tx <$> take n (values (mem_txs (run_mem mp_loaded))) ∧ n = 2%nat.
Proof.
  destruct (reap_longest_prefix (run_mem mp_loaded) 6 5) as (n & Hr & Hf & Hmax).
  - assert (∀ m, m ∈ values (mem_txs (run_mem mp_loaded)) → tx_len m ≤ 2 ∧ gasWanted m = 1) as Hm.
    { intros m Hm. vm_compute in Hm. repeat (apply elem_of_cons in Hm as [->|Hm]; [vm_compute; split; [discriminate|reflexivity]|]). by apply not_elem_of_nil in Hm. }
    apply Forall_forall. intros m (H1 & H2)%Hm. unfold reapable. rewrite H2. ulia.
  - exists n. split; [exact Hr|]. assert (ReapMaxBytesMaxGas (run_mem mp_loaded) 6 5 = [[x01]; [x02]]) as He by (vm_compute; reflexivity). rewrite He in Hr.
    apply (f_equal length) in Hr. rewrite length_fmap, length_take in Hr. replace (length (values (mem_txs (run_mem mp_loaded)))) with 3%nat in Hr by (vm_compute; reflexivity). cbn in Hr. lia.
Defined.

Lemma reap_max_txs_one_more_witness : ReapMaxTxs (run_mem mp_loaded) 1 = [[x01]; [x02]].
Proof.
  destruct (mp_ok_mem (H := mp_crypto) _ (proj2 mp_loaded_run)) as [ids Hids].
  rewrite (reap_max_txs_one_more (H := mp_crypto) _ ids 1 Hids). vm_compute. reflexivity.
Defined.
