(* ===== verification/MempoolReactor.v ===== *)
(** * The mempool reactor

    [mempool/ids.go] and [mempool/reactor.go]: the short identifiers of the
    peers, and the routine that sends each peer the transactions of the
    mempool.  Where the routine stands is [bc_pc]; the height a peer is at
    and the outcome of a send are inputs.  [Receive] is in
    [NarwhalMempool]. *)
From S2P Require Import Prelude.
From S2P Require Import Validator.
From S2P Require Import CList.
From S2P Require Import TxCache.
From S2P Require Import Mempool.
From S2P Require Import MempoolInv.

(** ** Identifiers of peers *)

Definition MaxActiveIDs : Z := 65535.
Record mempoolIDs := mkMempoolIDs {
  peerMap : gmap string Z;
  nextID : Z;
  activeIDs : gset Z;
}.

Definition newMempoolIDs : mempoolIDs := mkMempoolIDs ∅ 1 {[0]}.

(** The loop tries each of the 65536 identifiers once. *)
Fixpoint nextIDLoop (fuel : nat) (active : gset Z) (id : Z) : outcome Z :=
  if decide (id ∈ active) then
    match fuel with O => Panic "every identifier is in use" | S fuel => nextIDLoop fuel active (uint16 (id + 1)) end
  else Ret id.

Definition nextPeerID (ids : mempoolIDs) : outcome (mempoolIDs * Z) :=
  if Z.of_nat (size (activeIDs ids)) =? MaxActiveIDs then Panic "node has maximum active IDs and wanted to get one more"
  else
    curID ← nextIDLoop (Z.to_nat 65535) (activeIDs ids) (nextID ids);
    Ret (mkMempoolIDs (peerMap ids) (uint16 (curID + 1)) (activeIDs ids), curID).

Definition ReserveForPeer (ids : mempoolIDs) (peer : string) : outcome mempoolIDs :=
  '(ids, curID) ← nextPeerID ids;
  Ret (mkMempoolIDs (<[peer:=curID]> (peerMap ids)) (nextID ids) ({[curID]} ∪ activeIDs ids)).

Definition Reclaim (ids : mempoolIDs) (peer : string) : mempoolIDs :=
  match peerMap ids !! peer with
  | Some removedID => mkMempoolIDs (delete peer (peerMap ids)) (nextID ids) (activeIDs ids ∖ {[removedID]})
  | None => ids
  end.

Definition GetForPeer (ids : mempoolIDs) (peer : string) : Z := default 0 (peerMap ids !! peer).

Record ids_ok (ids : mempoolIDs) : Prop := {
  id_next : 0 ≤ nextID ids < 65536;
  id_zero : 0 ∈ activeIDs ids;
  id_range : ∀ i, i ∈ activeIDs ids → 0 ≤ i < 65536;
  id_active : ∀ p i, peerMap ids !! p = Some i → i ∈ activeIDs ids ∧ i ≠ 0;
  id_inj : ∀ p q i, peerMap ids !! p = Some i → peerMap ids !! q = Some i → p = q;
  id_size : Z.of_nat (size (activeIDs ids)) ≤ MaxActiveIDs;
}.

Lemma uint16_range z : 0 ≤ uint16 z < 65536.
Proof. apply Z.mod_pos_bound. lia. Qed.

Lemma nextIDLoop_spec fuel (active : gset Z) id :
  0 ≤ id < 65536 →
  (∃ i, nextIDLoop fuel active id = Ret i ∧ (i ∉ active) ∧ 0 ≤ i < 65536) ∨ (∀ k, 0 ≤ k ≤ Z.of_nat fuel → uint16 (id + k) ∈ active).
Proof.
  revert id. induction fuel as [|fuel IH]; intros id Hid; cbn [nextIDLoop]; destruct (decide (id ∈ active)) as [Hin|Hin]; try (left; by exists id).
  - right. intros k Hk. replace k with 0 by lia. rewrite Z.add_0_r. unfold uint16. by rewrite Z.mod_small.
  - destruct (IH (uint16 (id + 1)) (uint16_range _)) as [?|Hall]; [by left|right]. intros k Hk. destruct (decide (k = 0)) as [->|Hne].
    + rewrite Z.add_0_r. unfold uint16. by rewrite Z.mod_small.
    + specialize (Hall (k - 1) ltac:(lia)). unfold uint16 in *. rewrite Zplus_mod_idemp_l in Hall. by replace (id + 1 + (k - 1)) with (id + k) in Hall by lia.
Qed.

Lemma all_used (active : gset Z) id : 0 ≤ id < 65536 → (∀ k, 0 ≤ k ≤ 65535 → uint16 (id + k) ∈ active) → (65536 ≤ Z.of_nat (size active)).
Proof.
  intros Hid Hall. assert (list_to_set (seqZ 0 65536) ⊆ active) as Hsub.
  { intros i Hi. apply elem_of_list_to_set, elem_of_seqZ in Hi. specialize (Hall (uint16 (i - id)) ltac:(pose proof (uint16_range (i - id)); lia)).
    unfold uint16 in Hall. rewrite Zplus_mod_idemp_r in Hall. replace (id + (i - id)) with i in Hall by lia. rewrite Z.mod_small in Hall by lia. done. }
  apply subseteq_size in Hsub. rewrite size_list_to_set in Hsub by apply NoDup_seqZ. rewrite length_seqZ in Hsub. lia.
Qed.

Lemma nextPeerID_ok ids :
  ids_ok ids → Z.of_nat (size (activeIDs ids)) ≠ MaxActiveIDs →
  ∃ ids' i, nextPeerID ids = Ret (ids', i) ∧ (i ∉ activeIDs ids) ∧ 0 ≤ i < 65536 ∧ peerMap ids' = peerMap ids ∧ activeIDs ids' = activeIDs ids ∧ 0 ≤ nextID ids' < 65536.
Proof.
  intros Hok Hne. unfold nextPeerID. rewrite (proj2 (Z.eqb_neq _ _) Hne).
  destruct (nextIDLoop_spec (Z.to_nat 65535) (activeIDs ids) (nextID ids) (id_next _ Hok)) as [(i & -> & Hi & Hr)|Hall].
  - cbn [mbind outcome_bind]. eexists _, i. split; [reflexivity|]. pose proof (uint16_range (i + 1)). split_and!; try done; cbn; lia.
  - exfalso. rewrite Z2Nat.id in Hall by lia. pose proof (all_used _ _ (id_next _ Hok) Hall). pose proof (id_size _ Hok). unfold MaxActiveIDs in *. lia.
Qed.

Inductive ids_op := OReserve (peer : string) | OReclaim (peer : string).
Definition ids_do (o : ids_op) (ids : mempoolIDs) : outcome mempoolIDs :=
  match o with OReserve p => ReserveForPeer ids p | OReclaim p => Ret (Reclaim ids p) end.

Lemma Reserve_ok ids p :
  ids_ok ids → Z.of_nat (size (activeIDs ids)) ≠ MaxActiveIDs → ∃ ids', ReserveForPeer ids p = Ret ids' ∧ ids_ok ids'.
Proof.
  intros Hok Hne. destruct (nextPeerID_ok ids Hok Hne) as (ids1 & i & Hn & Hi & Hr & E1 & E2 & Hnext). unfold ReserveForPeer. rewrite Hn. cbn. eexists. split; [reflexivity|].
  assert (i ≠ 0) as Hz by (intros ->; apply Hi, Hok). split; cbn; rewrite ?E1, ?E2; try done.
  - apply elem_of_union. right. apply Hok.
  - intros j [->%elem_of_singleton|Hj]%elem_of_union; [done|by apply Hok].
  - intros q j [[<- <-]|[Hq Hj]]%lookup_insert_Some; [split; [set_solver|done]|]. destruct (id_active _ Hok q j Hj). split; [set_solver|done].
  - intros q q' j [[<- <-]|[Hq Hj]]%lookup_insert_Some [[<- E]|[Hq' Hj']]%lookup_insert_Some; try done.
    + exfalso. apply Hi. by destruct (id_active _ Hok q' i Hj').
    + exfalso. apply Hi. rewrite E. by destruct (id_active _ Hok q j Hj).
    + by eapply (id_inj _ Hok).
  - rewrite size_union by set_solver. rewrite size_singleton. pose proof (id_size _ Hok). lia.
Qed.

Lemma Reclaim_ok ids p : ids_ok ids → ids_ok (Reclaim ids p).
Proof.
  intros Hok. unfold Reclaim. destruct (peerMap ids !! p) as [i|] eqn:Hp; [|done]. destruct (id_active _ Hok p i Hp) as [Ha Hz]. split; cbn; try apply Hok.
  - apply elem_of_difference. split; [apply Hok|set_solver].
  - intros j [Hj _]%elem_of_difference. by apply Hok.
  - intros q j [Hq Hj]%lookup_delete_Some. destruct (id_active _ Hok q j Hj) as [Hja Hjz]. split; [|done]. apply elem_of_difference. split; [done|]. intros ->%elem_of_singleton. apply Hq. by eapply (id_inj _ Hok).
  - intros q q' j [_ Hj]%lookup_delete_Some [_ Hj']%lookup_delete_Some. by eapply (id_inj _ Hok).
  - pose proof (id_size _ Hok). pose proof (subseteq_size (activeIDs ids ∖ {[i]}) (activeIDs ids) ltac:(set_solver)). lia.
Qed.

Lemma newMempoolIDs_ok : ids_ok newMempoolIDs.
Proof.
  split; cbn [newMempoolIDs nextID activeIDs peerMap].
  - lia.
  - by apply elem_of_singleton.
  - intros i ->%elem_of_singleton. lia.
  - intros p i. by rewrite lookup_empty.
  - intros p q i. by rewrite lookup_empty.
  - rewrite size_singleton. unfold MaxActiveIDs. lia.
Qed.

(** Peers that are connected have identifiers of their own, none of them the
    one of an unknown peer.  The search for a free one always ends; it fails
    only when the limit is reached. *)
Theorem peer_ids_distinct os :
  (∃ ids, for_each ids_do os newMempoolIDs = Ret ids ∧ ids_ok ids) ∨
  (∃ os1 p os2 ids, os = os1 ++ OReserve p :: os2 ∧ for_each ids_do os1 newMempoolIDs = Ret ids ∧ Z.of_nat (size (activeIDs ids)) = MaxActiveIDs).
Proof.
  induction os as [|o os IH] using rev_ind; [left; exists newMempoolIDs; split; [done|apply newMempoolIDs_ok]|].
  destruct IH as [(ids & Hr & Hok)|(os1 & p & os2 & ids & -> & Hr & Hs)]; [|right; exists os1, p, (os2 ++ [o]), ids; by rewrite <-app_assoc].
  rewrite for_each_app, Hr. cbn. destruct o as [p|p]; cbn.
  - destruct (decide (Z.of_nat (size (activeIDs ids)) = MaxActiveIDs)) as [Hs|Hs]; [right; by exists os, p, [], ids|].
    destruct (Reserve_ok ids p Hok Hs) as (ids' & -> & Hok'). left. by exists ids'.
  - left. eexists. split; [done|]. by apply Reclaim_ok.
Qed.

(** ** Sending transactions to a peer *)

(** The routine looks for the front, has an element to send, or waits for the
    one behind it. *)
Inductive bc_pc := BFront | BSend (e : nat) | BWait (e : nat).

(** A turn of [broadcastTxRoutine]; [peerHeight] is missing while the peer
    has no state yet, [success] is the outcome of the send.  The transaction
    that the peer gets, if any. *)
Definition broadcastTxRoutine (txs : CList mempoolTx) (peerID : Z) (pc : bc_pc) (peerHeight : option Z) (success : bool) : outcome (bc_pc * option Tx) :=
  match pc with
  | BFront => Ret (match Front txs with Some e => BSend e | None => BFront end, None)
  | BSend e =>
      match peerHeight with
      | None => Ret (BSend e, None)
      | Some h =>
          c ← element txs e;
          let memTx := ce_Value c in
          if h <? int64 (Height memTx - 1) then Ret (BSend e, None)
          else if isSender memTx peerID then Ret (BWait e, None)
          else if success then Ret (BWait e, Some (mtx_tx memTx))
          else Ret (BSend e, None)
      end
  | BWait e =>
      next ← NextWait txs e;
      Ret (match next with None => BWait e | Some None => BFront | Some (Some n) => BSend n end, None)
  end.

(** Turns of the routine between additions to the list. *)
Inductive bc_op := BTurn (peerHeight : option Z) (success : bool) | BAdd (memTx : mempoolTx).

Record bc_state := mkBC { bc_txs : CList mempoolTx; bc_at : bc_pc; bc_sent : list Tx }.

Definition bc_do (peerID : Z) (o : bc_op) (s : bc_state) : outcome bc_state :=
  match o with
  | BTurn h ok => '(pc, tx) ← broadcastTxRoutine (bc_txs s) peerID (bc_at s) h ok; Ret (mkBC (bc_txs s) pc (bc_sent s ++ option_list tx))
  | BAdd m => '(l, _) ← PushBack (bc_txs s) m; Ret (mkBC l (bc_at s) (bc_sent s))
  end.

(** What a peer has when the routine has passed the first [k] transactions. *)
Definition sent_upto (peerID : Z) (ms : list mempoolTx) (k : nat) : list Tx := mtx_tx <$> filter (λ m, isSender m peerID = false) (take k ms).

Record bc_ok (peerID : Z) (s : bc_state) (ids : list nat) (k : nat) : Prop := {
  bo_list : clist_ok (bc_txs s) ids;
  bo_room : cl_maxLen (bc_txs s) = MaxLength;
  bo_at : match bc_at s with BFront => k = 0%nat | BSend e => ids !! k = Some e | BWait e => ∃ i, k = S i ∧ ids !! i = Some e end;
  bo_sent : bc_sent s = sent_upto peerID (values (bc_txs s)) k;
}.

Lemma sent_upto_S peerID ms k m : ms !! k = Some m → sent_upto peerID ms (S k) = sent_upto peerID ms k ++ (if isSender m peerID then [] else [mtx_tx m]).
Proof.
  intros Hk. unfold sent_upto. rewrite (take_S_r _ _ _ Hk), filter_app, fmap_app. f_equal. rewrite filter_cons. by destruct (isSender m peerID).
Qed.

Lemma bc_turn_ok peerID s ids k h ok :
  bc_ok peerID s ids k → ∃ s' k', bc_do peerID (BTurn h ok) s = Ret s' ∧ bc_ok peerID s' ids k' ∧ bc_txs s' = bc_txs s ∧ (k ≤ k')%nat.
Proof.
  intros [Hl Hm Ha Hs]. unfold bc_do, broadcastTxRoutine. destruct (bc_at s) as [|e|e] eqn:Hat.
  - cbn. eexists _, k. split; [reflexivity|]. cbn. rewrite app_nil_r. split; [|done]. unfold Front. rewrite (ok_head _ _ Hl). split; cbn; try done. subst k. by destruct (ids !! 0%nat).
  - destruct h as [h|]; [|cbn; eexists _, k; split; [reflexivity|]; cbn; rewrite app_nil_r; by split].
    destruct (ids_some _ _ e Hl) as [c Hc]; [by eapply list_elem_of_lookup_2|]. unfold element. rewrite Hc. cbn [mbind outcome_bind].
    pose proof (sent_upto_S peerID _ _ _ (values_lookup _ _ _ _ _ Hl Ha Hc)) as HS.
    destruct (h <? _); [cbn; eexists _, k; split; [reflexivity|]; cbn; rewrite app_nil_r; by split|].
    destruct (isSender (ce_Value c) peerID); [cbn; eexists _, (S k); split; [reflexivity|]; cbn; rewrite app_nil_r; split; [split; cbn; try done; [by exists k|by rewrite HS, app_nil_r, Hs]|split; [done|lia] ]|].
    destruct ok; cbn; [|eexists _, k; split; [reflexivity|]; cbn; rewrite app_nil_r; by split].
    eexists _, (S k). split; [reflexivity|]. split; [|split; [done|lia] ]. split; cbn; try done; [by exists k|by rewrite HS, Hs].
  - destruct Ha as (i & -> & Hi). rewrite (NextWait_ok _ _ _ _ Hl Hi). cbn. eexists _, (S i). split; [reflexivity|]. cbn. rewrite app_nil_r. split; [|done].
    split; cbn; try done. destruct (ids !! S i) eqn:Hn; [done|]. by exists i.
Qed.

Lemma bc_add_ok peerID s ids k m :
  bc_ok peerID s ids k → len ids < MaxInt64 → ∃ s' ids', bc_do peerID (BAdd m) s = Ret s' ∧ bc_ok peerID s' ids' k ∧ values (bc_txs s') = values (bc_txs s) ++ [m].
Proof.
  intros [Hl Hm Ha Hs] Hlen. destruct (PushBack_values _ _ m Hl) as (l' & Hp & Hok & Hmax & _ & Hv).
  { rewrite Hm, (ok_len _ _ Hl). unfold MaxLength. lia. }
  unfold bc_do. rewrite Hp. cbn. eexists _, _. split; [reflexivity|]. split; [|done]. split; cbn; [exact Hok|by rewrite Hmax| |].
  - destruct (bc_at s) as [|e|e]; [done|by apply lookup_app_l_Some|]. destruct Ha as (i & -> & Hi). exists i. split; [done|]. by apply lookup_app_l_Some.
  - rewrite Hv, Hs. unfold sent_upto. do 2 f_equal. symmetry. apply take_app_le. assert (length (values (bc_txs s)) = length ids) as ->.
    { rewrite (values_ok _ _ Hl). apply length_values_of. intros x. by apply ids_some. }
    destruct (bc_at s) as [|e|e]; [lia|apply lookup_lt_Some in Ha; lia|]. destruct Ha as (i & -> & Hi). apply lookup_lt_Some in Hi. lia.
Qed.

Lemma values_len (txs : CList mempoolTx) ids : clist_ok txs ids → len (values txs) = len ids.
Proof. intros Hl. unfold len. rewrite (values_ok _ _ Hl), length_values_of; [done|]. intros x. by apply ids_some. Qed.

Definition bc_start : bc_state := mkBC New BFront [].
Definition bc_added (os : list bc_op) : list mempoolTx := omap (λ o, match o with BAdd m => Some m | BTurn _ _ => None end) os.

Lemma bc_run_ok peerID os :
  len os < MaxInt64 → ∃ s ids k, for_each (bc_do peerID) os bc_start = Ret s ∧ bc_ok peerID s ids k ∧ values (bc_txs s) = bc_added os ∧ len ids ≤ len os.
Proof.
  induction os as [|o os IH] using rev_ind; intros Hlen.
  { exists bc_start, [], 0%nat. split_and!; try done. split; try done. apply New_ok. }
  rewrite len_app in *. change (len [o]) with 1 in *. destruct IH as (s & ids & k & Hr & Hok & Hv & Hl); [lia|]. rewrite for_each_app, Hr. cbn [mbind outcome_bind for_each].
  unfold bc_added in *. rewrite omap_app, <-Hv. destruct o as [h ok|m].
  - destruct (bc_turn_ok peerID s ids k h ok Hok) as (s' & k' & -> & Hok' & E & _). cbn. exists s', ids, k'. rewrite E, app_nil_r. split_and!; try done. lia.
  - destruct (bc_add_ok peerID s ids k m Hok ltac:(lia)) as (s' & ids' & -> & Hok' & E). cbn. exists s', ids', k. rewrite E. split_and!; try done.
    pose proof (ok_len _ _ (bo_list _ _ _ _ Hok')) as Hl1. rewrite <-(values_len _ _ (bo_list _ _ _ _ Hok')), E, len_app. rewrite (values_len _ _ (bo_list _ _ _ _ Hok)). change (len [m]) with 1. lia.
Qed.

(** How far the routine is from the end. *)
Definition bc_left (s : bc_state) (ids : list nat) (k : nat) : nat := 2 * (length ids - k) + match bc_at s with BSend _ => 0 | _ => 1 end.

(** Turns in which the peer has caught up and every send succeeds. *)
Lemma bc_good_turn peerID h s ids k :
  bc_ok peerID s ids k → (∀ m, m ∈ values (bc_txs s) → int64 (Height m - 1) ≤ h) → (k < length ids)%nat →
  ∃ s' k', bc_do peerID (BTurn (Some h) true) s = Ret s' ∧ bc_ok peerID s' ids k' ∧ bc_txs s' = bc_txs s ∧ (bc_left s' ids k' < bc_left s ids k)%nat.
Proof.
  intros Hok Hh Hk. destruct (bc_turn_ok peerID s ids k (Some h) true Hok) as (s' & k' & Hd & Hok' & E & Hle). exists s', k'. split_and!; try done.
  pose proof Hok as [Hl _ Ha _]. unfold bc_do, broadcastTxRoutine in Hd. unfold bc_left. destruct (bc_at s) as [|e|e].
  - cbn in Hd. injection Hd as <-. unfold Front in *. rewrite (ok_head _ _ Hl) in *. subst k. cbn [bc_at]. destruct (ids !! 0%nat) as [e|] eqn:He; [lia|]. apply lookup_ge_None in He. lia.
  - destruct (ids_some _ _ e Hl) as [c Hc]; [by eapply list_elem_of_lookup_2|]. unfold element in Hd. rewrite Hc in Hd. cbn [mbind outcome_bind] in Hd.
    rewrite (proj2 (Z.ltb_ge h _)) in Hd by (apply Hh; eapply list_elem_of_lookup_2; by eapply values_lookup).
    destruct Hok' as [_ _ Ha' _]. assert (bc_at s' = BWait e) as E2 by (destruct (isSender (ce_Value c) peerID); by injection Hd as <-). rewrite E2 in *.
    destruct Ha' as (i & -> & Hi). pose proof (NoDup_lookup _ _ _ _ (ok_nodup _ _ Hl) Ha Hi). lia.
  - destruct Ha as (i & -> & Hi). rewrite (NextWait_ok _ _ _ _ Hl Hi) in Hd. cbn in Hd. destruct (ids !! S i) as [n|] eqn:Hn; [|apply lookup_ge_None in Hn; lia]. injection Hd as <-. cbn. lia.
Qed.

Lemma bc_all_sent peerID h s ids k :
  bc_ok peerID s ids k → (∀ m, m ∈ values (bc_txs s) → int64 (Height m - 1) ≤ h) →
  ∃ n s', for_each (bc_do peerID) (replicate n (BTurn (Some h) true)) s = Ret s' ∧ bc_sent s' = sent_upto peerID (values (bc_txs s)) (length ids).
Proof.
  remember (bc_left s ids k) as d eqn:Hd. revert s k Hd. induction d as [d IH] using lt_wf_ind. intros s k Hd Hok Hh.
  destruct (decide (k < length ids)%nat) as [Hk|Hk].
  - destruct (bc_good_turn peerID h s ids k Hok Hh Hk) as (s1 & k1 & Ht & Hok1 & E & Hlt). destruct (IH (bc_left s1 ids k1) ltac:(lia) s1 k1 eq_refl Hok1 ltac:(by rewrite E)) as (n & s' & Hr & Hs).
    exists (S n), s'. cbn [replicate for_each]. rewrite Ht, <-E. done.
  - exists 0%nat, s. split; [done|]. rewrite (bo_sent _ _ _ _ Hok). assert (length ids ≤ k)%nat by lia. pose proof (bo_list _ _ _ _ Hok) as Hl. pose proof (values_len _ _ Hl) as Hv. unfold len in Hv.
    unfold sent_upto. do 2 f_equal. rewrite !take_ge by lia. done.
Qed.

(** However the turns of the routine and the additions to the mempool are
    ordered, the peer gets the transactions in the order of the mempool, each
    at most once and none that it sent itself; and once it has caught up it
    gets them all. *)
Theorem broadcast_in_order peerID os :
  len os < MaxInt64 →
  ∃ s, for_each (bc_do peerID) os bc_start = Ret s ∧ values (bc_txs s) = bc_added os ∧
    (∃ k, bc_sent s = sent_upto peerID (bc_added os) k) ∧
    ∀ h, (∀ m, m ∈ bc_added os → int64 (Height m - 1) ≤ h) →
      ∃ n s', for_each (bc_do peerID) (replicate n (BTurn (Some h) true)) s = Ret s' ∧ bc_sent s' = mtx_tx <$> filter (λ m, isSender m peerID = false) (bc_added os).
Proof.
  intros Hlen. destruct (bc_run_ok peerID os Hlen) as (s & ids & k & Hr & Hok & Hv & _). exists s. split_and!; [done|done| |].
  - exists k. rewrite <-Hv. apply (bo_sent _ _ _ _ Hok).
  - intros h Hh. rewrite <-Hv in Hh |- *. destruct (bc_all_sent peerID h s ids k Hok Hh) as (n & s' & Hn & Hs). exists n, s'. split; [done|]. rewrite Hs. unfold sent_upto.
    pose proof (values_len _ _ (bo_list _ _ _ _ Hok)) as Hl. unfold len in Hl. by rewrite take_ge by lia.
Qed.

Lemma broadcast_in_order_witness :
  ∃ s, for_each (bc_do 3) [BAdd (mkMempoolTx 1 0 [x01] ∅); BTurn None true; BAdd (mkMempoolTx 1 0 [x02] {[3]}); BTurn (Some 0) true] bc_start = Ret s ∧ bc_sent s = [[x01]].
Proof.
  destruct (broadcast_in_order 3 [BAdd (mkMempoolTx 1 0 [x01] ∅); BTurn None true; BAdd (mkMempoolTx 1 0 [x02] {[3]}); BTurn (Some 0) true]) as (s & Hs & _).
  - vm_compute. reflexivity.
  - exists s. split; [exact Hs|]. vm_compute in Hs. injection Hs as <-. reflexivity.
Defined.
