(* ===== verification/NarwhalMempool.v ===== *)
(** * The Narwhal mempool

    [mempool/narwhal_mempool.go] and [mempool/narwhal_reactor.go]: a list
    mempool beside a map from hash to transaction, whose hashes go to Narwhal
    and whose batches come back from it.  The mutex of the Narwhal mempool is
    not the one of its list mempool: [Lock] leaves [CheckTx] free to run
    while the list mempool is updated, so every step is enabled here.  What
    the connections answer is an input of each step; [nm_submitted] has the
    hashes the client was given. *)
From S2P Require Import Prelude.
From S2P Require Import Proto.
From S2P Require Import Validator.
From S2P Require Import CList.
From S2P Require Import TxCache.
From S2P Require Import Mempool.
From S2P Require Import MempoolInv.
From S2P Require Import MempoolTheorems.

(** [fmt.Sprintf] with the verb for upper-case hexadecimal. *)
Definition hexDigit (n : Z) : byte := if n <? 10 then byte_of (48 + n) else byte_of (55 + n).
Definition sprintfX (b : bytes) : bytes :=
  concat ((λ x, let n := Z.of_N (Byte.to_N x) in [hexDigit (n / 16); hexDigit (n mod 16)]) <$> b).

Record BatchTransactions := mkBatchTransactions { Transactions : list bytes; batch_Round : Z }.

Record NarwhalMempool := mkNarwhalMempool {
  nm_submitted : list bytes;
  proposalMempool : MempoolRun;
  batchQueue : list BatchTransactions;
  maxQueueSize : Z;
  txsByHash : gmap bytes mempoolTx;
}.

Inductive NarwhalError := MempoolErr (e : MempoolError) | SubmitErr (e : string).

Definition NewNarwhalMempool (mp : MempoolRun) : NarwhalMempool := mkNarwhalMempool [] mp [] 100 ∅.

Definition with_proposal (mem : NarwhalMempool) (mp : MempoolRun) : NarwhalMempool :=
  mkNarwhalMempool (nm_submitted mem) mp (batchQueue mem) (maxQueueSize mem) (txsByHash mem).
Definition with_hashes (mem : NarwhalMempool) (m : gmap bytes mempoolTx) : NarwhalMempool :=
  mkNarwhalMempool (nm_submitted mem) (proposalMempool mem) (batchQueue mem) (maxQueueSize mem) m.
Definition with_queue (mem : NarwhalMempool) (q : list BatchTransactions) : NarwhalMempool :=
  mkNarwhalMempool (nm_submitted mem) (proposalMempool mem) q (maxQueueSize mem) (txsByHash mem).

Section operations.
Context `{Crypto}.

Definition tx_hash (tx : Tx) : bytes := sprintfX (sha256 tx).

Definition proposal_CheckTx (mem : NarwhalMempool) (tx : Tx) (cb : bool) (SenderID : Z) (conn_err : option string)
    : outcome (NarwhalMempool * option MempoolError) :=
  let '(mkMempoolRun mp conn pc) := proposalMempool mem in
  '(mp, conn, err) ← CheckTx mp conn tx cb SenderID conn_err false;
  Ret (with_proposal mem (mkMempoolRun mp conn pc), err).

(** The callback that [CheckTx] passes on. *)
Definition nm_resCbFirstTime (mem : NarwhalMempool) (tx : Tx) (res : Response) : outcome NarwhalMempool :=
  match res with
  | Response_other => Panic "invalid memory address or nil pointer dereference"
  | Response_CheckTx r =>
      Ret (if res_Code r =? CodeTypeOK
           then with_hashes mem (<[tx_hash tx := mkMempoolTx (mem_height (run_mem (proposalMempool mem))) (res_GasWanted r) tx ∅]> (txsByHash mem))
           else mem)
  end.

Definition nm_CheckTx (mem : NarwhalMempool) (tx : Tx) (SenderID : Z) (conn_err submit_err : option string)
    : outcome (NarwhalMempool * option NarwhalError) :=
  '(mem, err) ← proposal_CheckTx mem tx true SenderID conn_err;
  match err with
  | Some e => Ret (mem, Some (MempoolErr e))
  | None =>
      match submit_err with
      | Some e => Ret (mem, Some (SubmitErr e))
      | None => Ret (mkNarwhalMempool (nm_submitted mem ++ [tx_hash tx]) (proposalMempool mem) (batchQueue mem) (maxQueueSize mem) (txsByHash mem), None)
      end
  end.

(** The application answers the oldest request. *)
Definition nm_answer (mem : NarwhalMempool) (res : Response) : outcome NarwhalMempool :=
  let '(mkMempoolRun mp conn pc) := proposalMempool mem in
  match conn with
  | [] => Ret mem
  | req :: conn =>
      '(mp, cb) ← answered mp req res;
      let mem := with_proposal mem (mkMempoolRun mp conn pc) in
      match cb with Some tx => nm_resCbFirstTime mem tx res | None => Ret mem end
  end.

(** The transactions of a batch go to the list mempool, one by one; after
    each of them the application may answer. *)
Fixpoint addBatch (mem : NarwhalMempool) (hashes : list bytes) (arrive : list (list Response)) (conn_err : option string) (addedTxs : bool)
    : outcome (NarwhalMempool * bool) :=
  match hashes with
  | [] => Ret (mem, addedTxs)
  | txHash :: hashes =>
      '(mem, addedTxs) ← (
        match txsByHash mem !! txHash with
        | Some tx => '(mem, err) ← proposal_CheckTx mem (mtx_tx tx) false 0 conn_err; Ret (mem, match err with None => true | Some _ => addedTxs end)
        | None => Ret (mem, addedTxs)
        end : outcome (NarwhalMempool * bool));
      mem ← for_each (λ res mem, nm_answer mem res) (default [] (head arrive)) mem;
      addBatch mem hashes (tail arrive) conn_err addedTxs
  end.

(** A turn of [pollNarwhalTxs] on the batch that came. *)
Definition pollNarwhalTxs (mem : NarwhalMempool) (batch : BatchTransactions) (arrive : list (list Response)) (conn_err : option string) : outcome NarwhalMempool :=
  if bool_decide (Transactions batch = []) then Ret mem
  else if negb (forallb (λ h, bool_decide (is_Some (txsByHash mem !! h))) (Transactions batch)) then Ret mem
  else if maxQueueSize mem <=? len (batchQueue mem) then Ret mem
  else
    let mem := with_queue mem (batchQueue mem ++ [batch]) in
    '(mem, addedTxs) ← addBatch mem (Transactions batch) arrive conn_err false;
    if addedTxs : bool then
      let '(mkMempoolRun mp conn pc) := proposalMempool mem in
      mp ← notifyTxsAvailable mp;
      Ret (with_proposal mem (mkMempoolRun mp conn pc))
    else Ret mem.

(** The list mempool's own steps. *)
Definition proposal_do (mem : NarwhalMempool) (s : mp_step) : outcome NarwhalMempool :=
  mp ← mp_do (proposalMempool mem) s; Ret (with_proposal mem mp).

Definition nm_Update (mem : NarwhalMempool) (height : Z) (txs : list Tx) (codes : list Z) (pre : option PreCheckFunc) (post : option PostCheckFunc)
    : outcome NarwhalMempool :=
  let mem := with_hashes mem (foldl (λ m tx, delete (tx_hash tx) m) (txsByHash mem) txs) in
  proposal_do mem (SUpdate height txs codes pre post).

Definition nm_Flush (mem : NarwhalMempool) : outcome NarwhalMempool :=
  let mem := with_queue (with_hashes mem ∅) [] in
  proposal_do mem SFlush.

Definition nm_ReapMaxBytesMaxGas (mem : NarwhalMempool) (maxBytes maxGas : Z) : list Tx := ReapMaxBytesMaxGas (run_mem (proposalMempool mem)) maxBytes maxGas.
Definition nm_ReapMaxTxs (mem : NarwhalMempool) (max : Z) : list Tx := ReapMaxTxs (run_mem (proposalMempool mem)) max.
Definition nm_Size (mem : NarwhalMempool) : Z := Size (run_mem (proposalMempool mem)).

(** [Reactor.Receive] of the wrapped reactor: the transactions of a peer go
    to the list mempool, without a callback. *)
Definition Receive (mem : NarwhalMempool) (txs : list Tx) (SenderID : Z) (conn_err : option string) : outcome NarwhalMempool :=
  for_each (λ tx mem, '(mem, _) ← proposal_CheckTx mem tx false SenderID conn_err; Ret mem) txs mem.

(** ** Runs *)

Inductive nm_step :=
  | NCheckTx (tx : Tx) (SenderID : Z) (conn_err submit_err : option string)
  | NReceive (txs : list Tx) (SenderID : Z) (conn_err : option string)
  | NAnswer (res : Response)
  | NPoll (batch : BatchTransactions) (arrive : list (list Response)) (conn_err : option string)
  | NUpdate (height : Z) (txs : list Tx) (codes : list Z) (pre : option PreCheckFunc) (post : option PostCheckFunc)
  | NRequest
  | NNext
  | NFinish (timeout : bool)
  | NEnable
  | NRemove (txKey : TxKey)
  | NFlush.

Definition nm_do (mem : NarwhalMempool) (s : nm_step) : outcome NarwhalMempool :=
  match s with
  | NCheckTx tx s ce se => '(mem, _) ← nm_CheckTx mem tx s ce se; Ret mem
  | NReceive txs s ce => Receive mem txs s ce
  | NAnswer res => nm_answer mem res
  | NPoll batch arrive ce => pollNarwhalTxs mem batch arrive ce
  | NUpdate h txs codes pre post => nm_Update mem h txs codes pre post
  | NRequest => proposal_do mem SRequest
  | NNext => proposal_do mem SNext
  | NFinish timeout => proposal_do mem (SFinish timeout)
  | NEnable => proposal_do mem SEnable
  | NRemove k => proposal_do mem (SRemove k)
  | NFlush => nm_Flush mem
  end.

Definition nm_run (mem : NarwhalMempool) (ss : list nm_step) : outcome NarwhalMempool := for_each (λ s mem, nm_do mem s) ss mem.
End operations.

(** ** Hashes *)

Lemma hexDigit_inj m n : 0 ≤ m < 16 → 0 ≤ n < 16 → hexDigit m = hexDigit n → m = n.
Proof.
  intros Hm Hn. unfold hexDigit. destruct (Z.ltb_spec m 10), (Z.ltb_spec n 10); intros Heq; apply byte_of_inj in Heq; lia.
Qed.

Lemma sprintfX_inj a b : sprintfX a = sprintfX b → a = b.
Proof.
  unfold sprintfX. revert b. induction a as [|x a IH]; intros [|y b]; try done. cbn [fmap list_fmap concat Datatypes.app]. intros [= H1 H2 Hr].
  pose proof (Byte.to_N_bounded x). pose proof (Byte.to_N_bounded y). f_equal; [|by apply IH].
  assert (∀ z : byte, 0 ≤ Z.of_N (Byte.to_N z) < 256) as Hz by (intros z; pose proof (Byte.to_N_bounded z); lia).
  pose proof (Hz x). pose proof (Hz y). apply hexDigit_inj in H1; [|split; [apply Z.div_pos; lia|apply Z.div_lt_upper_bound; lia]..].
  apply hexDigit_inj in H2; [|apply Z.mod_pos_bound; lia..]. apply byte_to_N_inj.
  pose proof (Z.div_mod (Z.of_N (Byte.to_N x)) 16 ltac:(lia)). pose proof (Z.div_mod (Z.of_N (Byte.to_N y)) 16 ltac:(lia)). lia.
Qed.

(** ** What the Narwhal mempool does

    What its map of hashes holds, which batches have an effect, and where it
    leaves the rules of the list mempool it wraps. *)

Section inv.
Context `{Crypto}.

(** The transactions this node was itself asked to check. *)
Definition checked (ss : list nm_step) : list Tx := omap (λ s, match s with NCheckTx tx _ _ _ => Some tx | _ => None end) ss.

(** What is known of a hash is a transaction from [L], and so is what is
    about to become known. *)
Record nm_inv (L : list Tx) (mem : NarwhalMempool) : Prop := {
  ni_hashes : ∀ h m, txsByHash mem !! h = Some m → h = tx_hash (mtx_tx m) ∧ mtx_tx m ∈ L;
  ni_conn : ∀ tx s, ReqCheckTx tx s true ∈ run_conn (proposalMempool mem) → tx ∈ L;
  ni_submitted : ∀ h, h ∈ nm_submitted mem → h ∈ tx_hash <$> L;
  ni_max : maxQueueSize mem = 100;
  ni_queue : len (batchQueue mem) ≤ maxQueueSize mem;
}.

Lemma nm_inv_mono L L' mem : L ⊆ L' → nm_inv L mem → nm_inv L' mem.
Proof.
  intros Hsub [H1 H2 H3 H4 H5]. split; [| | |done|done].
  - intros h m Hm. destruct (H1 h m Hm). auto.
  - intros tx s Htx. by eapply Hsub, H2.
  - intros h Hh. specialize (H3 h Hh). apply list_elem_of_fmap in H3 as (tx & -> & Htx). apply list_elem_of_fmap. eauto.
Qed.

(** Only the connection of the list mempool counts. *)
Lemma nm_inv_proposal L mem mp :
  (∀ tx s, ReqCheckTx tx s true ∈ run_conn mp → tx ∈ L) → nm_inv L mem → nm_inv L (with_proposal mem mp).
Proof. intros Hc [H1 H2 H3 H4 H5]. by split. Qed.

Lemma CheckTx_conn mp conn tx cb s ce b mp' conn' err :
  CheckTx mp conn tx cb s ce b = Ret (mp', conn', err) → conn' = conn ∨ conn' = conn ++ [ReqCheckTx tx s cb].
Proof.
  unfold CheckTx. intros Hc. destruct (isFull mp (len tx)); [injection Hc as <- <- <-; by left|].
  destruct (cfg_MaxTxBytes (config mp) <? len tx); [injection Hc as <- <- <-; by left|].
  destruct (match preCheck mp with Some f => f tx | None => None end); [injection Hc as <- <- <-; by left|].
  destruct ce; [injection Hc as <- <- <-; by left|]. destruct (cache_Push (mem_cache mp) tx) as [c []]; cbn in Hc.
  - destruct b; [done|]. injection Hc as <- <- <-. by right.
  - destruct (getCElement _ _); injection Hc as <- <- <-; by left.
Qed.

Lemma proposal_CheckTx_inv L mem tx cb s ce mem' err :
  nm_inv L mem → (cb = true → tx ∈ L) → proposal_CheckTx mem tx cb s ce = Ret (mem', err) →
  nm_inv L mem' ∧ batchQueue mem' = batchQueue mem ∧ maxQueueSize mem' = maxQueueSize mem ∧ txsByHash mem' = txsByHash mem ∧ nm_submitted mem' = nm_submitted mem.
Proof.
  intros Hi Htx Hc. unfold proposal_CheckTx in Hc. destruct (proposalMempool mem) as [mp conn pc] eqn:Hp. bind_split Hc r Hr. destruct r as [[mp' conn'] err']. injection Hc as <- <-.
  split; [|done]. apply nm_inv_proposal; [|done]. cbn. intros tx' s' Hin. pose proof (ni_conn _ _ Hi tx' s') as Hold. rewrite Hp in Hold. cbn in Hold.
  destruct (CheckTx_conn _ _ _ _ _ _ _ _ _ _ Hr) as [->| ->]; [auto|]. apply elem_of_app in Hin as [Hin|Hin]; [auto|]. apply list_elem_of_singleton in Hin as [= -> -> <-]. auto.
Qed.

Lemma answered_cb mp req res mp' tx : answered mp req res = Ret (mp', Some tx) → ∃ s, req = ReqCheckTx tx s true.
Proof.
  unfold answered. intros Ha. bind_split Ha m Hm. destruct req as [t s cb|t]; [|done]. bind_split Ha m2 Hm2. destruct cb; [|done]. injection Ha as _ ->. by exists s.
Qed.

Lemma nm_answer_inv L mem res mem' :
  nm_inv L mem → nm_answer mem res = Ret mem' → nm_inv L mem' ∧ batchQueue mem' = batchQueue mem ∧ maxQueueSize mem' = maxQueueSize mem ∧ nm_submitted mem' = nm_submitted mem.
Proof.
  intros Hi Ha. unfold nm_answer in Ha. destruct (proposalMempool mem) as [mp conn pc] eqn:Hp. destruct conn as [|req conn]; [by injection Ha as <-|].
  bind_split Ha r Hr. destruct r as [mp' cb]. pose proof (ni_conn _ _ Hi) as Hconn. rewrite Hp in Hconn. cbn in Hconn.
  assert (nm_inv L (with_proposal mem (mkMempoolRun mp' conn pc))) as Hi'.
  { apply nm_inv_proposal; [|done]. cbn. intros tx s Hin. apply (Hconn tx s). by right. }
  destruct cb as [tx|]; [|by injection Ha as <-]. destruct res as [r|]; [|done]. cbn [nm_resCbFirstTime] in Ha. injection Ha as <-.
  destruct (res_Code r =? CodeTypeOK); [|done]. split; [|done]. destruct Hi' as [H1 H2 H3 H4 H5]. split; cbn in *; try done. intros h m. rewrite lookup_insert_Some. intros [[<- <-]|[_ Hm]]; [|by apply H1].
  cbn. split; [done|]. destruct (answered_cb _ _ _ _ _ Hr) as [s ->]. apply (Hconn tx s). left.
Qed.

Lemma nm_answers_inv L ress mem mem' :
  nm_inv L mem → for_each (λ res mem, nm_answer mem res) ress mem = Ret mem' →
  nm_inv L mem' ∧ batchQueue mem' = batchQueue mem ∧ maxQueueSize mem' = maxQueueSize mem ∧ nm_submitted mem' = nm_submitted mem.
Proof.
  intros Hi Ha. eapply (for_each_keeps _ (λ m, nm_inv L m ∧ batchQueue m = batchQueue mem ∧ maxQueueSize m = maxQueueSize mem ∧ nm_submitted m = nm_submitted mem)); [|exact Ha|done].
  intros res m m' Hr (Hm & E1 & E2 & E3). destruct (nm_answer_inv _ _ _ _ Hm Hr) as (? & ? & ? & ?). split_and!; congruence.
Qed.

Lemma addBatch_inv L mem hashes arrive ce added mem' added' :
  nm_inv L mem → addBatch mem hashes arrive ce added = Ret (mem', added') →
  nm_inv L mem' ∧ batchQueue mem' = batchQueue mem ∧ maxQueueSize mem' = maxQueueSize mem ∧ nm_submitted mem' = nm_submitted mem.
Proof.
  revert mem arrive added. induction hashes as [|h hashes IH]; intros mem arrive added Hi Ha; cbn [addBatch] in Ha; [injection Ha as <- <-; done|].
  bind_split Ha r Hr. destruct r as [m1 a1]. assert (nm_inv L m1 ∧ batchQueue m1 = batchQueue mem ∧ maxQueueSize m1 = maxQueueSize mem ∧ nm_submitted m1 = nm_submitted mem) as (Hi1 & E1 & E2 & E3).
  { destruct (txsByHash mem !! h) as [tx|]; [|injection Hr as <- <-; done]. bind_split Hr r2 Hr2. destruct r2 as [m2 err]. injection Hr as <- <-.
    by destruct (proposal_CheckTx_inv L mem (mtx_tx tx) false 0 ce m2 err Hi ltac:(done) Hr2) as (? & ? & ? & ? & ?). }
  bind_split Ha m2 Hm2. destruct (nm_answers_inv _ _ _ _ Hi1 Hm2) as (Hi2 & F1 & F2 & F3). destruct (IH _ _ _ Hi2 Ha) as (Hi3 & G1 & G2 & G3). split_and!; congruence.
Qed.

(** The steps of a list mempool that ask for no new transaction. *)
Definition own_step (s : mp_step) : bool := match s with SCheckTx _ _ _ _ | SAnswer _ => false | _ => true end.

Lemma own_step_conn r s r' req : own_step s = true → mp_do r s = Ret r' → req ∈ run_conn r' → req ∈ run_conn r ∨ ∃ t, req = ReqRecheck t.
Proof.
  destruct r as [mem conn pc]. intros Hown Hd Hin. destruct s; try done; cbn [mp_do] in Hd.
  - injection Hd as <-. by left.
  - injection Hd as <-. by left.
  - bind_split Hd x Hx. destruct x as [m p]. injection Hd as <-. by left.
  - destruct pc as [|e|e|]; try (injection Hd as <-; by left). bind_split Hd x Hx. destruct x as [m c]. injection Hd as <-.
    unfold recheckRequest in Hx. bind_split Hx e1 He1. injection Hx as <- <-. cbn in *. apply elem_of_app in Hin as [?|Hin]; [by left|right]. apply list_elem_of_singleton in Hin as ->. by eexists.
  - destruct pc as [|e|e|]; try (injection Hd as <-; by left). bind_split Hd x Hx. injection Hd as <-. by left.
  - destruct pc; injection Hd as <-; by left.
  - bind_split Hd x Hx. injection Hd as <-. by left.
  - bind_split Hd x Hx. destruct x. injection Hd as <-. by left.
Qed.

Lemma proposal_do_inv L mem s mem' :
  nm_inv L mem → own_step s = true → proposal_do mem s = Ret mem' →
  nm_inv L mem' ∧ batchQueue mem' = batchQueue mem ∧ maxQueueSize mem' = maxQueueSize mem ∧ txsByHash mem' = txsByHash mem ∧ nm_submitted mem' = nm_submitted mem.
Proof.
  intros Hi Hown Hd. unfold proposal_do in Hd. bind_split Hd mp Hmp. injection Hd as <-. split; [|done]. apply nm_inv_proposal; [|done].
  intros tx s' Hin. destruct (own_step_conn _ _ _ _ Hown Hmp Hin) as [Hold|[t Ht]]; [by eapply (ni_conn _ _ Hi)|done].
Qed.

Lemma deleted_hashes (m : gmap bytes mempoolTx) txs h x : foldl (λ m tx, delete (tx_hash tx) m) m txs !! h = Some x → m !! h = Some x.
Proof. revert m. induction txs as [|tx txs IH]; intros m Hx; cbn in Hx; [done|]. apply IH, lookup_delete_Some in Hx. tauto. Qed.

Lemma Receive_inv L mem txs s ce mem' :
  nm_inv L mem → Receive mem txs s ce = Ret mem' → nm_inv L mem' ∧ batchQueue mem' = batchQueue mem ∧ maxQueueSize mem' = maxQueueSize mem ∧ nm_submitted mem' = nm_submitted mem.
Proof.
  intros Hi Ha. eapply (for_each_keeps _ (λ m, nm_inv L m ∧ batchQueue m = batchQueue mem ∧ maxQueueSize m = maxQueueSize mem ∧ nm_submitted m = nm_submitted mem)); [|exact Ha|done].
  intros tx m m' Hr (Hm & E1 & E2 & E3). bind_split Hr x Hx. destruct x as [m2 err]. injection Hr as <-.
  destruct (proposal_CheckTx_inv L m tx false s ce m2 err Hm ltac:(done) Hx) as (? & ? & ? & ? & ?). split_and!; congruence.
Qed.

Lemma nm_CheckTx_inv L mem tx s ce se mem' err :
  nm_inv L mem → nm_CheckTx mem tx s ce se = Ret (mem', err) → nm_inv (L ++ [tx]) mem' ∧ batchQueue mem' = batchQueue mem ∧ maxQueueSize mem' = maxQueueSize mem.
Proof.
  intros Hi Hc. unfold nm_CheckTx in Hc. bind_split Hc x Hx. destruct x as [m1 e1]. apply (nm_inv_mono _ (L ++ [tx])) in Hi; [|set_solver].
  destruct (proposal_CheckTx_inv _ mem tx true s ce m1 e1 Hi ltac:(intros _; set_solver) Hx) as ([H1 H2 H3 H4 H5] & E1 & E2 & E3 & E4).
  destruct e1; [injection Hc as <- <-; done|]. destruct se; injection Hc as <- <-; [done|]. split; [|done]. split; cbn; try done.
  intros h [Hh|Hh]%elem_of_app; [by apply H3|]. apply list_elem_of_singleton in Hh as ->. rewrite fmap_app. set_solver.
Qed.

(** Steps other than a poll and a flush leave the queue alone. *)
Definition keeps_queue (s : nm_step) : bool := match s with NPoll _ _ _ | NFlush => false | _ => true end.

Lemma nm_do_keeps L mem s mem' :
  nm_inv L mem → nm_do mem s = Ret mem' → keeps_queue s = true →
  nm_inv (L ++ checked [s]) mem' ∧ batchQueue mem' = batchQueue mem ∧ maxQueueSize mem' = maxQueueSize mem.
Proof.
  intros Hi Hd Hk. assert (L ++ [] = L) as HL by apply app_nil_r. destruct s; try done; cbn [nm_do checked omap list_omap] in *; rewrite ?HL.
  - bind_split Hd x Hx. destruct x as [m err]. injection Hd as <-. by eapply nm_CheckTx_inv.
  - by destruct (Receive_inv _ _ _ _ _ _ Hi Hd) as (? & ? & ? & ?).
  - by destruct (nm_answer_inv _ _ _ _ Hi Hd) as (? & ? & ? & ?).
  - unfold nm_Update in Hd. eapply (proposal_do_inv L) in Hd; [by destruct Hd as (? & ? & ? & ? & ?)| |done].
    destruct Hi as [H1 H2 H3 H4 H5]. split; try done. intros h m Hm%deleted_hashes. by apply H1.
  - eapply proposal_do_inv in Hd; [by destruct Hd as (? & ? & ? & ? & ?)|done..].
  - eapply proposal_do_inv in Hd; [by destruct Hd as (? & ? & ? & ? & ?)|done..].
  - eapply proposal_do_inv in Hd; [by destruct Hd as (? & ? & ? & ? & ?)|done..].
  - eapply proposal_do_inv in Hd; [by destruct Hd as (? & ? & ? & ? & ?)|done..].
  - eapply proposal_do_inv in Hd; [by destruct Hd as (? & ? & ? & ? & ?)|done..].
Qed.

Lemma poll_inv L mem b arrive ce mem' : nm_inv L mem → pollNarwhalTxs mem b arrive ce = Ret mem' → nm_inv L mem'.
Proof.
  intros Hi Hp. unfold pollNarwhalTxs in Hp. destruct (bool_decide _); [by injection Hp as <-|]. destruct (negb _); [by injection Hp as <-|].
  destruct (Z.leb_spec (maxQueueSize mem) (len (batchQueue mem))) as [|Hlt]; [by injection Hp as <-|]. cbn zeta in Hp. bind_split Hp x Hx. destruct x as [m a].
  eapply (addBatch_inv L) in Hx as (Hi' & _); cycle 1.
  { destruct Hi as [H1 H2 H3 H4 H5]. split; cbn; try done. rewrite len_app. change (len [b]) with 1. lia. }
  destruct a; [|by injection Hp as <-]. destruct (proposalMempool m) as [mp conn pc] eqn:Hm. bind_split Hp mp' Hmp. injection Hp as <-.
  apply nm_inv_proposal; [|done]. cbn. pose proof (ni_conn _ _ Hi') as Hc. by rewrite Hm in Hc.
Qed.

Lemma nm_do_inv L mem s mem' : nm_inv L mem → nm_do mem s = Ret mem' → nm_inv (L ++ checked [s]) mem'.
Proof.
  intros Hi Hd. destruct (keeps_queue s) eqn:Hk; [by eapply nm_do_keeps|]. assert (L ++ [] = L) as HL by apply app_nil_r. destruct s; try done; cbn [nm_do checked omap list_omap] in *; rewrite HL.
  - by eapply poll_inv.
  - unfold nm_Flush in Hd. eapply (proposal_do_inv L) in Hd; [by destruct Hd|  |done].
    destruct Hi as [H1 H2 H3 H4 H5]. split; cbn; [intros h m; by rewrite lookup_empty|done|done|done|unfold len; cbn; lia].
Qed.

Lemma checked_app ss ss' : checked (ss ++ ss') = checked ss ++ checked ss'.
Proof. apply omap_app. Qed.

Lemma nm_run_inv L mem ss mem' : nm_inv L mem → nm_run mem ss = Ret mem' → nm_inv (L ++ checked ss) mem'.
Proof.
  revert L mem. induction ss as [|s ss IH]; intros L mem Hi Hr; cbn in Hr; [injection Hr as <-; by rewrite app_nil_r|].
  bind_split Hr m1 Hm1. apply (nm_do_inv L) in Hm1; [|done]. change (s :: ss) with ([s] ++ ss). rewrite checked_app, app_assoc. by eapply IH.
Qed.

Lemma nm_inv_new mp : run_conn mp = [] → nm_inv [] (NewNarwhalMempool mp).
Proof.
  intros Hc. split; cbn; [by intros h m; rewrite lookup_empty| |by intros h ?%not_elem_of_nil|done|unfold len; cbn; lia]. intros tx s. rewrite Hc. by intros ?%not_elem_of_nil.
Qed.

(** ** Batches that are dropped *)

Lemma poll_missing mem b arrive ce h : h ∈ Transactions b → txsByHash mem !! h = None → pollNarwhalTxs mem b arrive ce = Ret mem.
Proof.
  intros Hin Hn. unfold pollNarwhalTxs. rewrite bool_decide_eq_false_2 by (intros E; rewrite E in Hin; by apply not_elem_of_nil in Hin).
  destruct (forallb _ (Transactions b)) eqn:Hf; [|done]. rewrite forallb_forall in Hf. specialize (Hf h). rewrite <-list_elem_of_In in Hf.
  specialize (Hf Hin). apply bool_decide_eq_true_1 in Hf as [? ?]. congruence.
Qed.

Lemma poll_full mem b arrive ce : maxQueueSize mem ≤ len (batchQueue mem) → pollNarwhalTxs mem b arrive ce = Ret mem.
Proof. intros Hle. unfold pollNarwhalTxs. rewrite (proj2 (Z.leb_le _ _) Hle). by repeat case_match. Qed.

(** ** Batches that are known *)

Definition cached (c : TxCache) (tx : Tx) : Prop := cache_Has c tx = true.

Lemma push_cached c tx : cached c tx → ∃ c', cache_Push c tx = (c', false) ∧ ∀ tx', cached c tx' → cached c' tx'.
Proof.
  unfold cached. destruct c as [c|]; [|done]. cbn. unfold lru_Has, lru_Push. destruct (cacheMap c !! Tx_Key tx) as [e|]; [|done]. intros _. eexists. split; [reflexivity|]. done.
Qed.

(** What the poll leaves as it was: the transactions, the requests and the
    signal for consensus. *)
Definition same_pool (r r' : MempoolRun) : Prop :=
  run_conn r' = run_conn r ∧ run_pc r' = run_pc r ∧ txsAvailable (run_mem r') = txsAvailable (run_mem r) ∧ notifiedTxsAvailable (run_mem r') = notifiedTxsAvailable (run_mem r) ∧
  elements (mem_txs (run_mem r')) = elements (mem_txs (run_mem r)) ∧ txsMap (run_mem r') = txsMap (run_mem r) ∧ ∀ tx, cached (mem_cache (run_mem r)) tx → cached (mem_cache (run_mem r')) tx.

Lemma same_pool_refl r : same_pool r r.
Proof. by split_and!. Qed.
Lemma same_pool_trans r1 r2 r3 : same_pool r1 r2 → same_pool r2 r3 → same_pool r1 r3.
Proof. intros (H1 & H2 & H3 & H4 & H5 & H6 & H7) (K1 & K2 & K3 & K4 & K5 & K6 & K7). split_and!; try congruence. auto. Qed.

Lemma follow_set_Value {A} fuel (l : CList A) e f x : follow fuel (set_Value l e f) x = follow fuel l x.
Proof.
  revert x. induction fuel as [|fuel IH]; intros x; [done|]. destruct x as [x|]; [|done]. cbn [follow]. unfold set_Value. destruct (cl_heap l !! e) as [c|] eqn:Hc; [|done].
  cbn [cl_heap with_element]. f_equal. destruct (decide (x = e)) as [->|Hne].
  - rewrite list_lookup_insert_eq, Hc by (by eapply lookup_lt_Some). cbn. specialize (IH (ce_next c)). unfold set_Value in IH. by rewrite Hc in IH.
  - rewrite list_lookup_insert_ne by done. destruct (cl_heap l !! x) as [d|]; [|done]. specialize (IH (ce_next d)). unfold set_Value in IH. by rewrite Hc in IH.
Qed.

Lemma elements_set_Value {A} (l : CList A) e f : elements (set_Value l e f) = elements l.
Proof.
  unfold elements. rewrite follow_set_Value. unfold set_Value, Front. by destruct (cl_heap l !! e).
Qed.

Lemma CheckTx_cached mem tx cb s ce :
  cached (mem_cache (run_mem (proposalMempool mem))) tx →
  ∃ mem' err, proposal_CheckTx mem tx cb s ce = Ret (mem', Some err) ∧ same_pool (proposalMempool mem) (proposalMempool mem') ∧
    batchQueue mem' = batchQueue mem ∧ txsByHash mem' = txsByHash mem ∧ maxQueueSize mem' = maxQueueSize mem.
Proof.
  intros Hc. unfold proposal_CheckTx. destruct (proposalMempool mem) as [mp conn pc] eqn:Hp. cbn in Hc. unfold CheckTx.
  destruct (isFull mp (len tx)); [cbn; eexists _, _; split; [reflexivity|]; rewrite ?Hp; split; [apply same_pool_refl|done]|].
  destruct (_ <? _); [cbn; eexists _, _; split; [reflexivity|]; split; [apply same_pool_refl|done]|].
  destruct (match preCheck mp with Some f => f tx | None => None end); [cbn; eexists _, _; split; [reflexivity|]; split; [apply same_pool_refl|done]|].
  destruct ce; [cbn; eexists _, _; split; [reflexivity|]; split; [apply same_pool_refl|done]|].
  destruct (push_cached _ _ Hc) as (c' & -> & Hk). cbn. destruct (getCElement _ _); cbn; eexists _, _; (split; [reflexivity|]); (split; [|done]); split_and!; try done.
  cbn. by rewrite elements_set_Value.
Qed.

Lemma addBatch_cached mem hashes ce :
  (∀ h m, h ∈ hashes → txsByHash mem !! h = Some m → cached (mem_cache (run_mem (proposalMempool mem))) (mtx_tx m)) →
  ∃ mem', addBatch mem hashes [] ce false = Ret (mem', false) ∧ same_pool (proposalMempool mem) (proposalMempool mem') ∧
    batchQueue mem' = batchQueue mem ∧ txsByHash mem' = txsByHash mem ∧ maxQueueSize mem' = maxQueueSize mem.
Proof.
  revert mem. induction hashes as [|h hashes IH]; intros mem Hall; cbn [addBatch]; [exists mem; split; [done|]; split; [apply same_pool_refl|done]|].
  assert (∃ m1, (match txsByHash mem !! h with
     | Some tx => '(mem, err) ← proposal_CheckTx mem (mtx_tx tx) false 0 ce; Ret (mem, match err with None => true | Some _ => false end)
     | None => Ret (mem, false) end : outcome (NarwhalMempool * bool)) = Ret (m1, false) ∧ same_pool (proposalMempool mem) (proposalMempool m1) ∧
    batchQueue m1 = batchQueue mem ∧ txsByHash m1 = txsByHash mem ∧ maxQueueSize m1 = maxQueueSize mem) as (m1 & -> & Hs1 & E1 & E2 & E3).
  { destruct (txsByHash mem !! h) as [m|] eqn:Hh; [|exists mem; split; [done|]; split; [apply same_pool_refl|done]].
    destruct (CheckTx_cached mem (mtx_tx m) false 0 ce (Hall h m ltac:(by left) Hh)) as (m1 & err & -> & Hrest). by exists m1. }
  cbn. destruct (IH m1) as (m2 & -> & Hs2 & F1 & F2 & F3).
  - intros h' m Hin Hm. rewrite E2 in Hm. destruct Hs1 as (_ & _ & _ & _ & _ & _ & Hk). apply Hk. eapply Hall; [by right|done].
  - exists m2. split; [done|]. split; [by eapply same_pool_trans|]. split_and!; congruence.
Qed.

(** ** Properties *)

(** C40: A batch that holds a transaction this node was not itself asked to check
    is dropped as a whole, also when peers have sent the transaction and the
    list mempool has it: what [Receive] takes from a peer never enters the
    map of hashes. *)
Theorem narwhal_foreign_batches_dropped mp ss mem b h arrive ce :
  run_conn mp = [] → nm_run (NewNarwhalMempool mp) ss = Ret mem → h ∈ Transactions b → h ∉ tx_hash <$> checked ss →
  nm_do mem (NPoll b arrive ce) = Ret mem.
Proof.
  intros Hc Hr Hin Hnot. pose proof (nm_run_inv [] _ _ _ (nm_inv_new mp Hc) Hr) as Hi. cbn [Datatypes.app] in Hi. cbn [nm_do]. apply (poll_missing _ _ _ _ h Hin).
  destruct (txsByHash mem !! h) as [m|] eqn:Hh; [|done]. destruct (ni_hashes _ _ Hi h m Hh) as [-> Hm]. exfalso. apply Hnot, list_elem_of_fmap. by exists (mtx_tx m).
Qed.

(** A hundred batches fill the queue, and nothing but [Flush] takes one out:
    from then on batches have no effect at all, and every run goes as if they
    had not come. *)
Theorem narwhal_full_queue_ignores_batches mp ss mem ss' :
  run_conn mp = [] → nm_run (NewNarwhalMempool mp) ss = Ret mem → len (batchQueue mem) = 100 → NFlush ∉ ss' →
  nm_run mem ss' = nm_run mem (filter (λ s, keeps_queue s = true) ss').
Proof.
  intros Hc Hr Hfull. pose proof (nm_run_inv [] _ _ _ (nm_inv_new mp Hc) Hr) as Hi. cbn [Datatypes.app] in Hi. clear Hr. revert mem Hfull Hi. generalize (checked ss) as L.
  induction ss' as [|s ss' IH]; intros L mem Hfull Hi Hno; [done|]. rewrite filter_cons. apply not_elem_of_cons in Hno as [Hne Hno].
  destruct (decide (keeps_queue s = true)) as [Hk|Hk].
  - unfold nm_run. cbn [for_each]. destruct (nm_do mem s) as [m1|] eqn:Hd; [|done]. cbn. destruct (nm_do_keeps _ _ _ _ Hi Hd Hk) as (Hi1 & E1 & E2).
    apply (IH (L ++ checked [s])); [by rewrite E1|done|done].
  - destruct s as [| | |b arrive ce| | | | | | |]; try done. unfold nm_run at 1. cbn [for_each nm_do]. rewrite poll_full by (rewrite (ni_max _ _ Hi); lia). cbn. by apply (IH L).
Qed.

(** A batch of transactions that are still in the cache, as those this node
    has checked and accepted are, adds nothing to the mempool and does not
    tell consensus that there are transactions; it only takes a place in the
    queue. *)
Theorem narwhal_known_batch_adds_nothing mem b ce :
  Transactions b ≠ [] → len (batchQueue mem) < maxQueueSize mem →
  (∀ h, h ∈ Transactions b → ∃ m, txsByHash mem !! h = Some m ∧ cache_Has (mem_cache (run_mem (proposalMempool mem))) (mtx_tx m) = true) →
  ∃ mem', nm_do mem (NPoll b [] ce) = Ret mem' ∧ batchQueue mem' = batchQueue mem ++ [b] ∧ same_pool (proposalMempool mem) (proposalMempool mem').
Proof.
  intros Hne Hlt Hall. cbn [nm_do]. unfold pollNarwhalTxs. rewrite bool_decide_eq_false_2 by done.
  assert (forallb (λ h, bool_decide (is_Some (txsByHash mem !! h))) (Transactions b) = true) as ->.
  { apply forallb_forall. intros h Hh%list_elem_of_In. destruct (Hall h Hh) as (m & Hm & _). apply bool_decide_eq_true_2. by exists m. }
  cbn [negb]. rewrite (proj2 (Z.leb_gt _ _)) by done.
  destruct (addBatch_cached (with_queue mem (batchQueue mem ++ [b])) (Transactions b) ce) as (mem' & Ha & Hs & E1 & _).
  - cbn. intros h m Hin Hm. destruct (Hall h Hin) as (m' & Hm' & Hk). rewrite Hm in Hm'. by injection Hm' as ->.
  - cbn zeta. rewrite Ha. cbn. exists mem'. split; [done|]. by split.
Qed.
End inv.

(** ** Examples *)

Definition nm_start : NarwhalMempool := NewNarwhalMempool mp_start.
Definition nm_accept (tx : Tx) : list nm_step := [NCheckTx tx 0 None None; NAnswer mp_good].
Definition nm_get (o : outcome NarwhalMempool) : NarwhalMempool := outcome_or nm_start o.
Definition nm_batch : BatchTransactions := mkBatchTransactions [tx_hash (H := mp_crypto) [x01]] 1.

Lemma outcome_or_is_ret {A} (d : A) o : is_ret o = true → o = Ret (outcome_or d o).
Proof. by destruct o. Qed.

Lemma answer_rechecking `{Crypto} mem tx s cb conn res :
  isRechecking (mem_recheck (run_mem (proposalMempool mem))) = true → run_conn (proposalMempool mem) = ReqCheckTx tx s cb :: conn →
  nm_do mem (NAnswer res) = Panic "rechecking has not finished; cannot check new tx".
Proof.
  intros Hr Hc. cbn [nm_do]. unfold nm_answer. destruct (proposalMempool mem) as [mp c pc]. cbn in Hr, Hc. subst c. unfold answered, globalCb, reqResCb, rc_done. cbn. by rewrite Hr.
Qed.

Definition nm_update_steps : list nm_step :=
  nm_accept [x01] ++ nm_accept [x02] ++ [NUpdate 1 [] [] None None; NRequest; NCheckTx [x03] 0 None None; NNext; NRequest; NAnswer mp_good].

(** The mutex that [Lock] takes is not the one of the list mempool, so a
    transaction can be checked while the transactions left after a block are
    checked again.  Its answer, which comes in its turn, then stops the node:
    after every request was answered an update starts, and between the
    requests of two transactions a third one is submitted. *)
Theorem narwhal_check_during_update_panics :
  ∃ mem, nm_run (H := mp_crypto) nm_start nm_update_steps = Ret mem ∧
    ∀ res, nm_do (H := mp_crypto) mem (NAnswer res) = Panic "rechecking has not finished; cannot check new tx".
Proof.
  exists (nm_get (nm_run (H := mp_crypto) nm_start nm_update_steps)). split; [apply outcome_or_is_ret; vm_compute; reflexivity|].
  intros res. apply (answer_rechecking _ [x03] 0 true [ReqRecheck [x02]]); vm_compute; reflexivity.
Qed.

(** Peers send a transaction that this node was not asked to check. *)
Definition nm_gossip_steps : list nm_step := [NReceive [[x01]] 3 None; NAnswer mp_good].

Lemma narwhal_foreign_batches_dropped_witness :
  let mem := nm_get (nm_run (H := mp_crypto) nm_start nm_gossip_steps) in nm_do (H := mp_crypto) mem (NPoll nm_batch [] None) = Ret mem ∧ nm_Size mem = 1.
Proof.
  split; [|vm_compute; reflexivity].
  apply (narwhal_foreign_batches_dropped (H := mp_crypto) mp_start nm_gossip_steps _ nm_batch (tx_hash (H := mp_crypto) [x01])).
  - reflexivity.
  - apply outcome_or_is_ret. vm_compute. reflexivity.
  - left.
  - cbn. apply not_elem_of_nil.
Defined.

Definition nm_full_steps : list nm_step := nm_accept [x01] ++ replicate 100 (NPoll nm_batch [] None).

Lemma narwhal_full_queue_ignores_batches_witness :
  nm_run (H := mp_crypto) (nm_get (nm_run (H := mp_crypto) nm_start nm_full_steps)) [NPoll nm_batch [] None; NCheckTx [x02] 0 None None] =
  nm_run (H := mp_crypto) (nm_get (nm_run (H := mp_crypto) nm_start nm_full_steps)) [NCheckTx [x02] 0 None None].
Proof.
  apply (narwhal_full_queue_ignores_batches (H := mp_crypto) mp_start nm_full_steps _ [NPoll nm_batch [] None; NCheckTx [x02] 0 None None]).
  - reflexivity.
  - apply outcome_or_is_ret. vm_compute. reflexivity.
  - vm_compute. reflexivity.
  - intros Hin. repeat (apply elem_of_cons in Hin as [Hin|Hin]; [discriminate Hin|]). by apply not_elem_of_nil in Hin.
Defined.

Lemma narwhal_known_batch_adds_nothing_witness :
  ∃ mem', nm_do (H := mp_crypto) (nm_get (nm_run (H := mp_crypto) nm_start (NEnable :: nm_accept [x01]))) (NPoll nm_batch [] None) = Ret mem' ∧
    txsAvailable (run_mem (proposalMempool mem')) = Some false.
Proof.
  destruct (narwhal_known_batch_adds_nothing (H := mp_crypto) (nm_get (nm_run (H := mp_crypto) nm_start (NEnable :: nm_accept [x01]))) nm_batch None) as (mem' & Hd & _ & _ & _ & Ha & _).
  - discriminate.
  - vm_compute. reflexivity.
  - intros h Hin. apply list_elem_of_singleton in Hin as ->. exists (mkMempoolTx 0 1 [x01] ∅). split; vm_compute; reflexivity.
  - exists mem'. split; [exact Hd|]. rewrite Ha. vm_compute. reflexivity.
Defined.
