(* ===== verification/NarwhalClient.v ===== *)
(** * The client of Narwhal

    [mempool/narwhal_client.go]: frames with a length in front, on one
    connection to Narwhal and one from it.  A connection is the bytes that
    are still to be read or that were written; whether a write or a dial
    succeeds is an input.  A call that waits for a mutex it holds itself never
    returns: [Blocks]. *)
From S2P Require Import Prelude.
From S2P Require Import Proto.
From S2P Require Import NarwhalMempool.

Definition maxFrameLength : Z := 16777215.

(** [binary.BigEndian]. *)
Definition PutUint32 (v : Z) : bytes := [byte_of (v / 16777216 mod 256); byte_of (v / 65536 mod 256); byte_of (v / 256 mod 256); byte_of (v mod 256)].
Definition Uint32 (b : bytes) : Z := foldl (λ z x, z * 256 + Z.of_N (Byte.to_N x)) 0 b.

Inductive FrameError := FrameTooLarge (length : Z) | WriteFailed | ReadLength | EOF | UnexpectedEOF.

(** [io.ReadFull]. *)
Definition ReadFull (reader : bytes) (n : Z) : bytes * (bytes + FrameError) :=
  if n <=? len reader then (drop (Z.to_nat n) reader, inl (take (Z.to_nat n) reader))
  else ([], inr (if bool_decide (reader = []) then EOF else UnexpectedEOF)).

(** [ok]: the bytes reach the connection. *)
Definition writeFrame (writer : bytes) (data : bytes) (ok : bool) : bytes * option FrameError :=
  let length := len data in
  if maxFrameLength <? length then (writer, Some (FrameTooLarge length))
  else if negb ok then (writer, Some WriteFailed)
  else (writer ++ PutUint32 (uint32 (len data)) ++ data, None).

Definition readFrame (reader : bytes) : bytes * (bytes + FrameError) :=
  match ReadFull reader 4 with
  | (reader, inr _) => (reader, inr ReadLength)
  | (reader, inl lenBuf) =>
      let length := Uint32 lenBuf in
      if maxFrameLength <? length then (reader, inr (FrameTooLarge length))
      else ReadFull reader length
  end.

(** The client: the bytes written to Narwhal, whether the mutex of that
    connection is held, the bytes that came from Narwhal, and the channel of
    batches with room for a thousand. *)
Record DefaultNarwhalClient := mkClient {
  running : bool;
  submitWriter : bytes;
  submitConnLock : bool;
  receiveReader : bytes;
  txChan : list BatchTransactions;
}.

Definition txChan_cap : Z := 1000.
Definition NewDefaultNarwhalClient : DefaultNarwhalClient := mkClient false [] false [] [].

Inductive call (A : Type) := Returns (a : A) | Blocks.
Arguments Returns {A} a.
Arguments Blocks {A}.

Inductive ClientError := ErrConnect | ErrReconnect | ErrSubmitAfterReconnect | ErrNotRunning.

(** [OnStart] with the outcome of the two dials; what Narwhal will send. *)
Definition OnStart (c : DefaultNarwhalClient) (dialSubmit dialReceive : bool) (incoming : bytes) : DefaultNarwhalClient * option ClientError :=
  if negb dialSubmit then (c, Some ErrConnect)
  else if negb dialReceive then (mkClient (running c) [] (submitConnLock c) (receiveReader c) (txChan c), Some ErrConnect)
  else (mkClient true [] (submitConnLock c) incoming (txChan c), None).

Definition with_writer (c : DefaultNarwhalClient) (w : bytes) (held : bool) : DefaultNarwhalClient :=
  mkClient (running c) w held (receiveReader c) (txChan c).
Definition with_reader (c : DefaultNarwhalClient) (r : bytes) : DefaultNarwhalClient :=
  mkClient (running c) (submitWriter c) (submitConnLock c) r (txChan c).

Definition reconnectSubmit (c : DefaultNarwhalClient) (dial : bool) : call (DefaultNarwhalClient * option ClientError) :=
  if submitConnLock c then Blocks
  else if negb dial then Returns (c, Some ErrReconnect)
  else Returns (with_writer c [] false, None).

(** [wrote1] and [wrote2]: the outcomes of the two attempts. *)
Definition SubmitTransaction (c : DefaultNarwhalClient) (tx : bytes) (wrote1 dial wrote2 : bool) : call (DefaultNarwhalClient * option ClientError) :=
  if submitConnLock c then Blocks
  else
    let c := with_writer c (submitWriter c) true in
    match writeFrame (submitWriter c) tx wrote1 with
    | (w, None) => Returns (with_writer c w false, None)
    | (w, Some _) =>
        match reconnectSubmit (with_writer c w true) dial with
        | Blocks => Blocks
        | Returns (c, Some e) => Returns (with_writer c (submitWriter c) false, Some ErrReconnect)
        | Returns (c, None) =>
            match writeFrame (submitWriter c) tx wrote2 with
            | (w, None) => Returns (with_writer c w false, None)
            | (w, Some _) => Returns (with_writer c w false, Some ErrSubmitAfterReconnect)
            end
        end
    end.

Definition reconnectReceive (c : DefaultNarwhalClient) (dial : bool) (incoming : bytes) : DefaultNarwhalClient * option ClientError :=
  if negb dial then (c, Some ErrReconnect) else (with_reader c incoming, None).

Section reading.
(** [proto.Unmarshal] of a batch. *)
Variable unmarshal : bytes → option BatchTransactions.

Definition push_batch (c : DefaultNarwhalClient) (b : BatchTransactions) : DefaultNarwhalClient :=
  if len (txChan c) <? txChan_cap then mkClient (running c) (submitWriter c) (submitConnLock c) (receiveReader c) (txChan c ++ [b]) else c.

(** A turn of [readTransactions]; [dial] and [incoming] for a reconnect. *)
Definition readTransactions (c : DefaultNarwhalClient) (dial : bool) (incoming : bytes) : DefaultNarwhalClient :=
  if negb (running c) then c
  else
    match readFrame (receiveReader c) with
    | (reader, inr err) =>
        let c := with_reader c reader in
        match err with EOF => c | _ => (reconnectReceive c dial incoming).1 end
    | (reader, inl data) =>
        let c := with_reader c reader in
        match unmarshal data with Some b => push_batch c b | None => c end
    end.
End reading.

(** [GetNextBatch] waits for a batch: [Blocks] until there is one. *)
Definition GetNextBatch (c : DefaultNarwhalClient) : call (DefaultNarwhalClient * (BatchTransactions + ClientError)) :=
  if negb (running c) then Returns (c, inr ErrNotRunning)
  else
    match txChan c with
    | b :: ch => Returns (mkClient (running c) (submitWriter c) (submitConnLock c) (receiveReader c) ch, inl b)
    | [] => Blocks
    end.

(** ** Frames *)

Lemma Uint32_PutUint32 v : 0 ≤ v < 4294967296 → Uint32 (PutUint32 v) = v.
Proof.
  intros Hv. unfold Uint32, PutUint32. cbn [foldl]. rewrite !byte_of_to_N by (apply Z.mod_pos_bound; lia).
  assert (v / 65536 = v / 256 / 256) as E1 by (by rewrite Z.div_div by lia). assert (v / 16777216 = v / 65536 / 256) as E2 by (by rewrite Z.div_div by lia).
  assert (v / 16777216 mod 256 = v / 16777216) as -> by (apply Z.mod_small; split; [apply Z.div_pos; lia|apply Z.div_lt_upper_bound; lia]).
  pose proof (Z.div_mod v 256 ltac:(lia)). pose proof (Z.div_mod (v / 256) 256 ltac:(lia)). pose proof (Z.div_mod (v / 65536) 256 ltac:(lia)). rewrite <-E1 in *. rewrite <-E2 in *. lia.
Qed.

Lemma ReadFull_app a b n : len a = n → ReadFull (a ++ b) n = (b, inl a).
Proof.
  intros <-. unfold ReadFull. rewrite len_app. pose proof (len_nonneg b). rewrite (proj2 (Z.leb_le _ _)) by lia. unfold len. rewrite Nat2Z.id.
  by rewrite drop_app_length, take_app_length.
Qed.

Lemma writeFrame_ok w data : len data ≤ maxFrameLength → writeFrame w data true = (w ++ PutUint32 (len data) ++ data, None).
Proof.
  intros Hd. unfold writeFrame. rewrite (proj2 (Z.ltb_ge _ _)) by done. cbn [negb]. pose proof (len_nonneg data). unfold uint32. rewrite Z.mod_small; [done|]. unfold maxFrameLength in *. lia.
Qed.

Lemma readFrame_frame data rest : len data ≤ maxFrameLength → readFrame (PutUint32 (len data) ++ data ++ rest) = (rest, inl data).
Proof.
  intros Hd. pose proof (len_nonneg data). unfold readFrame. rewrite (ReadFull_app (PutUint32 (len data)) (data ++ rest) 4) by done.
  rewrite Uint32_PutUint32 by (unfold maxFrameLength in *; lia). rewrite (proj2 (Z.ltb_ge _ _)) by done. by apply ReadFull_app.
Qed.

Definition frames (ds : list bytes) : bytes := concat ((λ d, PutUint32 (len d) ++ d) <$> ds).

Lemma writeFrames ds w :
  Forall (λ d, len d ≤ maxFrameLength) ds → foldl (λ w d, (writeFrame w d true).1) w ds = w ++ frames ds.
Proof.
  revert w. induction ds as [|d ds IH]; intros w HF; cbn [foldl]; [by rewrite app_nil_r|]. apply Forall_cons in HF as [Hd HF].
  rewrite writeFrame_ok by done. cbn [fst]. rewrite IH by done. unfold frames. cbn [fmap list_fmap concat]. by rewrite !app_assoc.
Qed.

Fixpoint readFrames (n : nat) (reader : bytes) : list bytes * bytes :=
  match n with
  | O => ([], reader)
  | S n => match readFrame reader with (r, inl d) => let '(ds, r) := readFrames n r in (d :: ds, r) | (r, inr _) => ([], r) end
  end.

(** What one side writes is what the other side reads: frames come out of a
    connection whole, in order and with nothing left over. *)
Theorem frames_roundtrip ds :
  Forall (λ d, len d ≤ maxFrameLength) ds → readFrames (length ds) (foldl (λ w d, (writeFrame w d true).1) [] ds) = (ds, []).
Proof.
  intros HF. rewrite writeFrames by done. cbn. clear -HF. induction ds as [|d ds IH]; [done|]. apply Forall_cons in HF as [Hd HF].
  unfold frames. cbn [length readFrames fmap list_fmap concat]. rewrite <-app_assoc, readFrame_frame by done. fold (frames ds). by rewrite IH.
Qed.

(** A submission whose first write fails never returns: it holds the mutex
    that reconnecting takes.  So does one whose transaction is too long for a
    frame. *)
Theorem failed_submission_blocks c tx wrote1 dial wrote2 :
  submitConnLock c = false → wrote1 = false ∨ maxFrameLength < len tx → SubmitTransaction c tx wrote1 dial wrote2 = Blocks.
Proof.
  intros Hl Hw. unfold SubmitTransaction. rewrite Hl. assert (∃ e, writeFrame (submitWriter (with_writer c (submitWriter c) true)) tx wrote1 = (submitWriter c, Some e)) as [e ->]; [|done].
  unfold writeFrame. destruct (Z.ltb_spec maxFrameLength (len tx)); [by eexists|]. destruct Hw as [->|]; [by eexists|lia].
Qed.

Lemma frames_roundtrip_witness : readFrames 2 (foldl (λ w d, (writeFrame w d true).1) [] [[x01; x02]; [x03]]) = ([[x01; x02]; [x03]], []).
Proof. apply (frames_roundtrip [[x01; x02]; [x03]]). repeat constructor; vm_compute; discriminate. Defined.

Lemma failed_submission_blocks_witness : SubmitTransaction NewDefaultNarwhalClient [x01] false true true = Blocks.
Proof. apply (failed_submission_blocks NewDefaultNarwhalClient [x01] false true true); [reflexivity|by left]. Defined.
