(* ===== verification/Block.v ===== *)
(** * Blocks and headers

    [types/block.go], [types/tx.go], [types/light.go], the hashes of
    validator sets ([types/validator.go], [types/validator_set.go]) and of
    consensus parameters ([types/params.go]): what a header commits to, and
    the checks of headers, signed headers, light blocks and blocks that need
    no state.  An empty hash stands for a nil one; the hashes that [Data],
    [Commit] and [EvidenceData] remember are left out, as they are what would
    be computed.  Evidence is the interface of [types/evidence.go]. *)
From S2P Require Import Prelude.
From S2P Require Import Validator.
From S2P Require Import ValidatorSet.
From S2P Require Import Proto.
From S2P Require Import Vote.
From S2P Require Import SignBytes.
From S2P Require Import Merkle.
From S2P Require Import TxCache.

Definition BlockProtocol : Z := 11.
Definition MaxChainIDLen : Z := 50.

(** [cmtversion.Consensus]. *)
Record Consensus := mkConsensus { ver_Block : Z; ver_App : Z }.
Definition Consensus_Marshal (m : Consensus) : bytes := varint_field x08 (ver_Block m) ++ varint_field x10 (ver_App m).

Record Header := mkHeader {
  h_Version : Consensus;
  h_ChainID : bytes;
  h_Height : Z;
  h_Time : Time;
  h_LastBlockID : BlockID;
  h_LastCommitHash : bytes;
  h_DataHash : bytes;
  h_ValidatorsHash : bytes;
  h_NextValidatorsHash : bytes;
  h_ConsensusHash : bytes;
  h_AppHash : bytes;
  h_LastResultsHash : bytes;
  h_EvidenceHash : bytes;
  h_ProposerAddress : bytes;
}.

Definition Populate (h : Header) (version : Consensus) (chainID : bytes) (timestamp : Time) (lastBlockID : BlockID)
    (valHash nextValHash consensusHash appHash lastResultsHash proposerAddress : bytes) : Header :=
  mkHeader version chainID (h_Height h) timestamp lastBlockID (h_LastCommitHash h) (h_DataHash h) valHash nextValHash
    consensusHash appHash lastResultsHash (h_EvidenceHash h) proposerAddress.

Inductive header_error :=
| ErrBlockProtocol
| ErrChainIDTooLong
| ErrNegativeHeight
| ErrZeroHeight
| ErrLastBlockID
| ErrHash (field : string)
| ErrProposerAddressSize.

Definition check_hash (field : string) (h : bytes) (rest : option header_error) : option header_error :=
  if ValidateHash h then rest else Some (ErrHash field).

Definition Header_ValidateBasic (h : Header) : option header_error :=
  if negb (ver_Block (h_Version h) =? BlockProtocol) then Some ErrBlockProtocol
  else if MaxChainIDLen <? len (h_ChainID h) then Some ErrChainIDTooLong
  else if h_Height h <? 0 then Some ErrNegativeHeight
  else if h_Height h =? 0 then Some ErrZeroHeight
  else if negb (BlockID_ValidateBasic (h_LastBlockID h)) then Some ErrLastBlockID
  else check_hash "LastCommitHash" (h_LastCommitHash h)
         (check_hash "DataHash" (h_DataHash h)
           (check_hash "EvidenceHash" (h_EvidenceHash h)
             (if negb (len (h_ProposerAddress h) =? AddressSize) then Some ErrProposerAddressSize
              else check_hash "ValidatorsHash" (h_ValidatorsHash h)
                     (check_hash "NextValidatorsHash" (h_NextValidatorsHash h)
                       (check_hash "ConsensusHash" (h_ConsensusHash h)
                         (check_hash "LastResultsHash" (h_LastResultsHash h) None)))))).

(** [cdcEncode] of a string or bytes, and of an [int64]. *)
Definition cdcEncode (item : bytes) : bytes := bytes_field x0a item.
Definition cdcEncode_int64 (item : Z) : bytes := varint_field x08 item.

Definition BlockID_Marshal (b : BlockID) : bytes := bytes_field x0a (BlockHash b) ++ message_field x12 (PartSetHeader_Marshal (BlockParts b)).

Section hashing.
Context `{Crypto, StdTime}.

Definition header_fields (h : Header) (pbt : bytes) : list bytes :=
  [Consensus_Marshal (h_Version h); cdcEncode (h_ChainID h); cdcEncode_int64 (h_Height h); pbt; BlockID_Marshal (h_LastBlockID h);
   cdcEncode (h_LastCommitHash h); cdcEncode (h_DataHash h); cdcEncode (h_ValidatorsHash h); cdcEncode (h_NextValidatorsHash h);
   cdcEncode (h_ConsensusHash h); cdcEncode (h_AppHash h); cdcEncode (h_LastResultsHash h); cdcEncode (h_EvidenceHash h);
   cdcEncode (h_ProposerAddress h)].

Definition Header_Hash (h : Header) : outcome bytes :=
  if len (h_ValidatorsHash h) =? 0 then Ret []
  else
    match StdTimeMarshal (h_Time h) with
    | None => Ret []
    | Some pbt => HashFromByteSlices (header_fields h pbt)
    end.

(** ** Transactions *)

Definition Tx_Hash (tx : Tx) : bytes := sha256 tx.
Definition hashList (txs : list Tx) : list bytes := Tx_Hash <$> txs.
Definition Txs_Hash (txs : list Tx) : outcome bytes := HashFromByteSlices (hashList txs).

Fixpoint Txs_Index (txs : list Tx) (tx : Tx) (i : Z) : Z :=
  match txs with
  | [] => -1
  | t :: txs => if decide (t = tx) then i else Txs_Index txs tx (i + 1)
  end.

(** A proof that a transaction is in a block. *)
Record TxProof := mkTxProof { tp_RootHash : bytes; tp_Data : Tx; tp_Proof : Proof_ }.

Definition Txs_Proof (txs : list Tx) (i : Z) : outcome TxProof :=
  '(root, proofs) ← ProofsFromByteSlices (hashList txs);
  tx ← slice_get txs i;
  proof ← slice_get proofs i;
  Ret (mkTxProof root tx proof).

Inductive tx_proof_error := ErrDataHash | ErrProofIndex | ErrProofTotal | ErrProofInvalid.

Definition TxProof_Leaf (tp : TxProof) : bytes := Tx_Hash (tp_Data tp).
Definition TxProof_Validate (tp : TxProof) (dataHash : bytes) : outcome (option tx_proof_error) :=
  if negb (bool_decide (dataHash = tp_RootHash tp)) then Ret (Some ErrDataHash)
  else if proof_Index (tp_Proof tp) <? 0 then Ret (Some ErrProofIndex)
  else if proof_Total (tp_Proof tp) <=? 0 then Ret (Some ErrProofTotal)
  else
    err ← Proof_Verify (tp_Proof tp) (Some (tp_RootHash tp)) (TxProof_Leaf tp);
    Ret (match err with Some _ => Some ErrProofInvalid | None => None end).

(** ** Commits *)

Definition CommitSig_Marshal (cs : CommitSig) : outcome bytes :=
  match StdTimeMarshal (cs_Timestamp cs) with
  | None => Panic "timestamp out of range"
  | Some t => Ret (varint_field x08 (cs_BlockIDFlag cs) ++ bytes_field x12 (cs_ValidatorAddress cs) ++ message_field x1a t ++ bytes_field x22 (cs_Signature cs))
  end.

Definition marshal_all {A} (marshal : A → outcome bytes) (l : list A) : outcome (list bytes) :=
  for_each (λ x bs, bz ← marshal x; Ret (bs ++ [bz])) l [].

Definition Commit_Hash (commit : option Commit) : outcome bytes :=
  match commit with
  | None => Ret []
  | Some commit => bs ← marshal_all CommitSig_Marshal (commit_Signatures commit); HashFromByteSlices bs
  end.

(** ** Validators *)

Definition PubKeyToProto (pk : option PubKey) : option bytes :=
  match pk with
  | None => None
  | Some pk =>
      if decide (Type_ pk = "ed25519"%string) then Some (message_field x0a (KeyBytes pk))
      else if decide (Type_ pk = "secp256k1"%string) then Some (message_field x12 (KeyBytes pk))
      else None
  end.

Definition Validator_Bytes (v : Validator) : outcome bytes :=
  match PubKeyToProto (PubKey_ v) with
  | None => Panic "toproto: key type is not supported"
  | Some pk => Ret (message_field x0a pk ++ varint_field x10 (VotingPower v))
  end.

Definition ValidatorSet_Hash (vals : ValidatorSet) : outcome bytes :=
  bzs ← marshal_all Validator_Bytes (Validators vals); HashFromByteSlices bzs.

(** ** Signed headers and light blocks *)

Record SignedHeader := mkSignedHeader { sh_Header : option Header; sh_Commit : option Commit }.

Inductive signed_header_error :=
| ErrMissingHeader
| ErrMissingCommit
| ErrInvalidHeaderBasic (e : header_error)
| ErrInvalidCommitBasic (e : commit_error)
| ErrAnotherChain
| ErrHeightMismatch
| ErrCommitSignsOther.

Definition SignedHeader_ValidateBasic (sh : SignedHeader) (chainID : bytes) : outcome (option signed_header_error) :=
  match sh_Header sh, sh_Commit sh with
  | None, _ => Ret (Some ErrMissingHeader)
  | _, None => Ret (Some ErrMissingCommit)
  | Some header, Some commit =>
      match Header_ValidateBasic header with
      | Some e => Ret (Some (ErrInvalidHeaderBasic e))
      | None =>
          match Commit_ValidateBasic commit with
          | Some e => Ret (Some (ErrInvalidCommitBasic e))
          | None =>
              if negb (bool_decide (h_ChainID header = chainID)) then Ret (Some ErrAnotherChain)
              else if negb (commit_Height commit =? h_Height header) then Ret (Some ErrHeightMismatch)
              else
                hhash ← Header_Hash header;
                Ret (if negb (bool_decide (hhash = BlockHash (commit_BlockID commit))) then Some ErrCommitSignsOther else None)
          end
      end
  end.

Record LightBlock := mkLightBlock { lb_SignedHeader : option SignedHeader; lb_ValidatorSet : option ValidatorSet }.

Inductive light_block_error :=
| ErrMissingSignedHeader
| ErrMissingValidatorSet
| ErrInvalidSignedHeader (e : signed_header_error)
| ErrInvalidValidatorSet (e : valset_error)
| ErrValidatorsHashMismatch.

Definition LightBlock_ValidateBasic (lb : LightBlock) (chainID : bytes) : outcome (option light_block_error) :=
  match lb_SignedHeader lb, lb_ValidatorSet lb with
  | None, _ => Ret (Some ErrMissingSignedHeader)
  | _, None => Ret (Some ErrMissingValidatorSet)
  | Some sh, Some vals =>
      err ← SignedHeader_ValidateBasic sh chainID;
      match err with
      | Some e => Ret (Some (ErrInvalidSignedHeader e))
      | None =>
          match ValidatorSet.ValidateBasic vals with
          | Some e => Ret (Some (ErrInvalidValidatorSet e))
          | None =>
              valSetHash ← ValidatorSet_Hash vals;
              Ret (if negb (bool_decide (match sh_Header sh with Some h => h_ValidatorsHash h | None => [] end = valSetHash)) then Some ErrValidatorsHashMismatch else None)
          end
      end
  end.
End hashing.

(** ** Blocks *)

(** The methods of [types.Evidence] that blocks use, with the size of its
    protobuf message. *)
Class EvidenceOps := {
  Evidence : Type;
  ev_Bytes : Evidence → bytes;
  ev_ValidateBasic : Evidence → option string;
  ev_ProtoSize : list Evidence → Z;
}.

Record Block `{EvidenceOps} := mkBlock {
  verifiedHash : bytes;
  b_Header : Header;
  b_Txs : list Tx;
  b_Evidence : list Evidence;
  b_LastCommit : option Commit;
}.

Section blocks.
Context `{Crypto, StdTime, EvidenceOps}.

Definition Evidence_Hash (evl : list Evidence) : outcome bytes := HashFromByteSlices (ev_Bytes <$> evl).
Definition Evidence_ByteSize (evl : list Evidence) : Z := if len evl =? 0 then 0 else ev_ProtoSize evl.

Inductive block_error :=
| ErrNilBlock
| ErrInvalidHeader_ (e : header_error)
| ErrNilLastCommit
| ErrWrongLastCommit (e : commit_error)
| ErrLastCommitHash
| ErrWrongDataHash
| ErrInvalidEvidence (i : Z) (e : string)
| ErrEvidenceHash.

Fixpoint first_bad_evidence (i : Z) (evl : list Evidence) : option block_error :=
  match evl with
  | [] => None
  | ev :: evl => match ev_ValidateBasic ev with Some e => Some (ErrInvalidEvidence i e) | None => first_bad_evidence (i + 1) evl end
  end.

Definition Block_ValidateBasic (b : Block) : outcome (option block_error) :=
  match Header_ValidateBasic (b_Header b) with
  | Some e => Ret (Some (ErrInvalidHeader_ e))
  | None =>
      match b_LastCommit b with
      | None => Ret (Some ErrNilLastCommit)
      | Some lastCommit =>
          match Commit_ValidateBasic lastCommit with
          | Some e => Ret (Some (ErrWrongLastCommit e))
          | None =>
              chash ← Commit_Hash (b_LastCommit b);
              if negb (bool_decide (h_LastCommitHash (b_Header b) = chash)) then Ret (Some ErrLastCommitHash)
              else
                dhash ← Txs_Hash (b_Txs b);
                if negb (bool_decide (h_DataHash (b_Header b) = dhash)) then Ret (Some ErrWrongDataHash)
                else
                  match first_bad_evidence 0 (b_Evidence b) with
                  | Some e => Ret (Some e)
                  | None =>
                      ehash ← Evidence_Hash (b_Evidence b);
                      Ret (if negb (bool_decide (h_EvidenceHash (b_Header b) = ehash)) then Some ErrEvidenceHash else None)
                  end
          end
      end
  end.

Definition with_hashes_of (h : Header) (commitHash dataHash evidenceHash : bytes) : Header :=
  mkHeader (h_Version h) (h_ChainID h) (h_Height h) (h_Time h) (h_LastBlockID h) commitHash dataHash (h_ValidatorsHash h)
    (h_NextValidatorsHash h) (h_ConsensusHash h) (h_AppHash h) (h_LastResultsHash h) evidenceHash (h_ProposerAddress h).

Definition or_compute (have : bytes) (compute : outcome bytes) : outcome bytes := if decide (have = []) then compute else Ret have.

Definition fillHeader (b : Block) : outcome Block :=
  let h := b_Header b in
  c ← or_compute (h_LastCommitHash h) (Commit_Hash (b_LastCommit b));
  d ← or_compute (h_DataHash h) (Txs_Hash (b_Txs b));
  e ← or_compute (h_EvidenceHash h) (Evidence_Hash (b_Evidence b));
  Ret (mkBlock _ (verifiedHash b) (with_hashes_of h c d e) (b_Txs b) (b_Evidence b) (b_LastCommit b)).

(** [b.Hash()] fills in the header and remembers what it computed. *)
Definition Block_Hash (b : Block) : outcome (Block * bytes) :=
  match b_LastCommit b with
  | None => Ret (b, [])
  | Some _ =>
      if decide (verifiedHash b = []) then
        b ← fillHeader b;
        hash ← Header_Hash (b_Header b);
        Ret (mkBlock _ hash (b_Header b) (b_Txs b) (b_Evidence b) (b_LastCommit b), hash)
      else Ret (b, verifiedHash b)
  end.

Definition HashesTo (b : option Block) (hash : bytes) : outcome (option Block * bool) :=
  if len hash =? 0 then Ret (b, false)
  else match b with
       | None => Ret (None, false)
       | Some b => '(b, h) ← Block_Hash b; Ret (Some b, bool_decide (h = hash))
       end.

Definition MakeBlock (height : Z) (txs : list Tx) (lastCommit : option Commit) (evidence : list Evidence) : outcome Block :=
  fillHeader (mkBlock _ [] (mkHeader (mkConsensus BlockProtocol 0) [] height zeroTime nilBlockID [] [] [] [] [] [] [] [] []) txs evidence lastCommit).
End blocks.
