(* ===== verification/BlockProofs.v ===== *)
(** * What block hashes bind

    Merkle roots, header hashes and validator-set hashes determine what was
    hashed: from two different inputs with one hash, a collision of the hash
    function can be read off, between byte strings that computing the two
    hashes evaluates.  Transaction proofs are complete and sound. *)
From S2P Require Import Prelude.
From S2P Require Import Proto.
From S2P Require Import Vote.
From S2P Require Import Validator.
From S2P Require Import SignBytes.
From S2P Require Import ValidatorSet.
From S2P Require Import Merkle.
From S2P Require Import TxCache.
From S2P Require Import Block.

(** ** Roots *)

Section roots.
Context `{Crypto, !HashSize}.

(** The strings that computing the root of [l] feeds to the hash function. *)
Definition hashed_by (l : list bytes) (x : bytes) : Prop := tree_input l x ∨ (l = [] ∧ x = []).

(** Two different strings with the same hash, one hashed for [l1] and the
    other for [l2]. *)
Definition roots_collide (l1 l2 : list bytes) : Prop :=
  ∃ x y, hashed_by l1 x ∧ hashed_by l2 y ∧ x ≠ y ∧ sha256 x = sha256 y.

Lemma hashed_inner l : (2 ≤ length l)%nat →
  ∃ b, hashed_by l (x01 :: b) ∧ root (leafHash <$> l) = sha256 (x01 :: b).
Proof using.
  intros Hl. eexists. split; [left; by apply tree_inner|]. rewrite root_unfold by (by rewrite length_fmap).
  by rewrite length_fmap, <-fmap_take, <-fmap_drop.
Qed.

(** How the root of a list is hashed, by its length. *)
Lemma hashed_top l : ∃ x, hashed_by l x ∧ root (leafHash <$> l) = sha256 x ∧
  (l = [] ∧ x = [] ∨ (∃ a, l = [a] ∧ x = x00 :: a) ∨ (2 ≤ length l)%nat ∧ ∃ b, x = x01 :: b).
Proof using.
  destruct l as [|a [|b l]].
  - exists []. split_and!; [by right|done|by left].
  - exists (x00 :: a). split_and!; [left; constructor|done|right; left; eauto].
  - destruct (hashed_inner (a :: b :: l)) as (c & ? & ?); [simpl; lia|]. exists (x01 :: c).
    split_and!; [done|done|]. right; right. split; [simpl; lia|eauto].
Qed.

Lemma hashed_left l x : (2 ≤ length l)%nat → hashed_by (take (split (length l)) l) x → hashed_by l x.
Proof using.
  intros Hl [Hx|[He _]]; [left; by apply tree_left|]. destruct (length_split l Hl) as [Ht _]. destruct (split_bounds _ Hl) as (? & _ & _).
  rewrite He in Ht. simpl in Ht. lia.
Qed.

Lemma hashed_right l x : (2 ≤ length l)%nat → hashed_by (drop (split (length l)) l) x → hashed_by l x.
Proof using.
  intros Hl [Hx|[He _]]; [left; by apply tree_right|]. destruct (length_split l Hl) as [_ Ht]. destruct (split_bounds _ Hl) as (? & ? & _).
  rewrite He in Ht. simpl in Ht. lia.
Qed.

Lemma roots_bind l1 : ∀ l2, root (leafHash <$> l1) = root (leafHash <$> l2) → l1 = l2 ∨ roots_collide l1 l2.
Proof.
  assert (∀ l1 l2, (length l1 < 2 ∨ length l2 < 2)%nat → root (leafHash <$> l1) = root (leafHash <$> l2) →
    l1 = l2 ∨ roots_collide l1 l2) as Hsmall.
  { clear l1. intros l1 l2 Hlen Hr. destruct (hashed_top l1) as (x & Hx & Hrx & Tx). destruct (hashed_top l2) as (y & Hy & Hry & Ty).
    destruct (decide (x = y)) as [->|Hne]; [left|right; exists x, y; split_and!; congruence].
    destruct Tx as [[-> ->]|[(a & -> & ->)|(? & ? & ->)]], Ty as [[-> ?]|[(a' & -> & ?)|(? & ? & ?)]]; simplify_eq; done || lia. }
  induction l1 as [|x|l1 Hl1 IH1 IH2] using split_ind; intros l2 Hr; [apply Hsmall; simpl; [lia|done]..|].
  destruct (decide (length l2 < 2)%nat) as [?|Hl2%not_lt]; [apply Hsmall; [lia|done]|].
  rewrite (root_unfold (leafHash <$> l1)), (root_unfold (leafHash <$> l2)) in Hr by (rewrite length_fmap; lia). rewrite !length_fmap, <-!fmap_take, <-!fmap_drop in Hr.
  apply inner_inj in Hr as [[Ht Hd]|[Hne Hs]].
  - destruct (IH1 _ Ht) as [Et|(x & y & ? & ? & ? & ?)].
    + destruct (IH2 _ Hd) as [Ed|(x & y & ? & ? & ? & ?)].
      * left. by rewrite <-(take_drop (split (length l1)) l1), Et, Ed, take_drop.
      * right. exists x, y. split_and!; [by apply hashed_right..|done|done].
    + right. exists x, y. split_and!; [by apply hashed_left..|done|done].
  - right. eexists _, _. split_and!; [left; by apply tree_inner|left; by apply tree_inner|done|done].
  - left. by rewrite !(root_size _ (leaf_size _)).
Qed.

Lemma HashFromByteSlices_root items : len items ≤ MaxInt64 → HashFromByteSlices items = Ret (root (leafHash <$> items)).
Proof using. apply hash_fuel_root. lia. Qed.

Lemma HashFromByteSlices_binds l1 l2 h :
  len l1 ≤ MaxInt64 → len l2 ≤ MaxInt64 → HashFromByteSlices l1 = Ret h → HashFromByteSlices l2 = Ret h →
  l1 = l2 ∨ roots_collide l1 l2.
Proof. intros H1 H2. rewrite !HashFromByteSlices_root by done. intros [= <-] [= ?]. by apply roots_bind. Qed.
End roots.

(** ** Headers *)

Lemma varint_field_inj_uint tag x y r r' :
  is_uint64 x → is_uint64 y → no_tag tag r → no_tag tag r' →
  varint_field tag x ++ r = varint_field tag y ++ r' → x = y ∧ r = r'.
Proof.
  intros Hx Hy Hr Hr'. unfold varint_field, no_tag in *. rewrite !uint64_id by done.
  destruct (Z.eqb_spec x 0), (Z.eqb_spec y 0); simpl; intros Heq.
  - split; [lia|done].
  - subst r. done.
  - subst r'. done.
  - apply (inj (cons tag)) in Heq. by apply uvarint_inj in Heq.
Qed.

Lemma cdcEncode_inj a b : short a → short b → cdcEncode a = cdcEncode b → a = b.
Proof.
  unfold cdcEncode. intros Ha Hb Heq. rewrite <-(app_nil_r (bytes_field _ a)), <-(app_nil_r (bytes_field _ b)) in Heq.
  by apply bytes_field_inj in Heq as [? _].
Qed.

Lemma cdcEncode_int64_inj a b : is_int64 a → is_int64 b → cdcEncode_int64 a = cdcEncode_int64 b → a = b.
Proof.
  unfold cdcEncode_int64. intros Ha Hb Heq. rewrite <-(app_nil_r (varint_field _ a)), <-(app_nil_r (varint_field _ b)) in Heq.
  by apply varint_field_inj in Heq as [? _].
Qed.

(** The Go types of the fields: [uint64] versions, an [int64] height, a
    [uint32] part count, slices that fit in memory. *)
Record header_typed (h : Header) : Prop := {
  ht_block : is_uint64 (ver_Block (h_Version h));
  ht_app : is_uint64 (ver_App (h_Version h));
  ht_height : is_int64 (h_Height h);
  ht_last : small_id (h_LastBlockID h);
  ht_short : Forall short [h_ChainID h; h_LastCommitHash h; h_DataHash h; h_ValidatorsHash h; h_NextValidatorsHash h;
    h_ConsensusHash h; h_AppHash h; h_LastResultsHash h; h_EvidenceHash h; h_ProposerAddress h];
}.

Lemma Consensus_Marshal_inj v w :
  is_uint64 (ver_Block v) → is_uint64 (ver_App v) → is_uint64 (ver_Block w) → is_uint64 (ver_App w) →
  Consensus_Marshal v = Consensus_Marshal w → v = w.
Proof.
  destruct v as [b a], w as [b' a']. unfold Consensus_Marshal. simpl. intros Hb Ha Hb' Ha' Heq.
  rewrite <-(app_nil_r (varint_field x10 a)), <-(app_nil_r (varint_field x10 a')) in Heq.
  apply varint_field_inj_uint in Heq as [-> Heq]; [|done|done|solve_no_tag..].
  by apply varint_field_inj_uint in Heq as [-> _]; [|done|done|solve_no_tag..].
Qed.

Section headers.
Context `{Crypto, StdTimeLaws, !HashSize}.

Lemma header_fields_inj h1 h2 t1 t2 :
  header_typed h1 → header_typed h2 → StdTimeMarshal (h_Time h1) = Some t1 → StdTimeMarshal (h_Time h2) = Some t2 →
  header_fields h1 t1 = header_fields h2 t2 → h1 = h2.
Proof.
  intros [Hb1 Ha1 Hh1 Hl1 Hs1] [Hb2 Ha2 Hh2 Hl2 Hs2] Ht1 Ht2 Heq. rewrite !Forall_cons in Hs1, Hs2. unfold header_fields in Heq.
  injection Heq as Ev Ec Eh Et El E1 E2 E3 E4 E5 E6 E7 E8 E9. subst t2. pose proof (std_time_inj _ _ _ Ht1 Ht2).
  apply Consensus_Marshal_inj in Ev; [|done..]. apply cdcEncode_int64_inj in Eh; [|done..].
  apply (CanonicalBlockID_Marshal_inj _ _ Hl1 Hl2) in El.
  repeat match goal with E : cdcEncode _ = cdcEncode _ |- _ => apply cdcEncode_inj in E; [|tauto..] end.
  destruct h1, h2; simpl in *. f_equal; assumption.
Qed.

Lemma len_header_fields h t : len (header_fields h t) ≤ MaxInt64.
Proof using. unfold len, header_fields, MaxInt64. cbn [length]. lia. Qed.

Lemma Header_Hash_inv h r :
  Header_Hash h = Ret r → r ≠ [] → ∃ t, StdTimeMarshal (h_Time h) = Some t ∧ HashFromByteSlices (header_fields h t) = Ret r.
Proof using.
  unfold Header_Hash. case_match; [by intros [= <-]|]. destruct (StdTimeMarshal (h_Time h)) as [t|]; [eauto|by intros [= <-]].
Qed.

(** Two headers the computing of whose hashes gives a collision. *)
Definition headers_collide (h1 h2 : Header) : Prop :=
  ∃ t1 t2, StdTimeMarshal (h_Time h1) = Some t1 ∧ StdTimeMarshal (h_Time h2) = Some t2 ∧
    roots_collide (header_fields h1 t1) (header_fields h2 t2).

Lemma Header_Hash_binds h1 h2 r :
  header_typed h1 → header_typed h2 → Header_Hash h1 = Ret r → Header_Hash h2 = Ret r → r ≠ [] →
  h1 = h2 ∨ headers_collide h1 h2.
Proof.
  intros Ht1 Ht2 Hh1 Hh2 Hr. destruct (Header_Hash_inv _ _ Hh1 Hr) as (t1 & E1 & R1). destruct (Header_Hash_inv _ _ Hh2 Hr) as (t2 & E2 & R2).
  destruct (HashFromByteSlices_binds _ _ _ (len_header_fields h1 t1) (len_header_fields h2 t2) R1 R2) as [E|E].
  - left. by eapply header_fields_inj.
  - right. exists t1, t2. split_and!; assumption.
Qed.

(** A header that has a validators hash and a time in range has a hash. *)
Lemma Header_Hash_size h :
  h_ValidatorsHash h ≠ [] → is_Some (StdTimeMarshal (h_Time h)) → ∃ r, Header_Hash h = Ret r ∧ len r = tmhash_Size.
Proof.
  intros Hv [t Ht]. unfold Header_Hash. rewrite Ht. destruct (Z.eqb_spec (len (h_ValidatorsHash h)) 0) as [E%len_zero|_]; [done|].
  rewrite HashFromByteSlices_root by apply len_header_fields. eexists. split; [reflexivity|]. apply root_size, leaf_size.
Qed.
End headers.

(** ** Validator sets *)

Section validators.
Context `{Crypto, !HashSize}.

Lemma marshal_all_spec {A} (marshal : A → outcome bytes) l bs :
  marshal_all marshal l = Ret bs ↔ Forall2 (λ x b, marshal x = Ret b) l bs.
Proof using.
  unfold marshal_all. assert (∀ acc, for_each (λ x bs, bz ← marshal x; Ret (bs ++ [bz])) l acc = Ret bs ↔
    ∃ bs', bs = acc ++ bs' ∧ Forall2 (λ x b, marshal x = Ret b) l bs') as Hacc.
  { induction l as [|x l IH]; intros acc; cbn [for_each].
    - split; [intros [= <-]; exists []; by rewrite app_nil_r|]. intros (bs' & -> & ->%Forall2_nil_inv_l). by rewrite app_nil_r.
    - destruct (marshal x) as [b|] eqn:Hx; cbn [mbind outcome_bind].
      + rewrite IH. split.
        * intros (bs' & -> & Hf). exists (b :: bs'). rewrite <-(assoc_L (++)). split; [done|]. by constructor.
        * intros (bs' & -> & Hf). apply Forall2_cons_inv_l in Hf as (b' & bs'' & Hb & Hf & ->). exists bs''.
          rewrite <-(assoc_L (++)). split; [simpl; congruence|done].
      + split; [done|]. intros (bs' & _ & Hf). apply Forall2_cons_inv_l in Hf as (b' & bs'' & Hb & _). congruence. }
  rewrite Hacc. split; [by intros (? & -> & ?)|intros; by exists bs].
Qed.

(** What a faithful encoding determines of one value, it determines of a
    list. *)
Lemma marshal_all_inj {A B} (f : A → B) (ok : A → Prop) (marshal : A → outcome bytes) l l' bs :
  (∀ v v' b, ok v → ok v' → marshal v = Ret b → marshal v' = Ret b → f v = f v') → Forall ok l → Forall ok l' →
  Forall2 (λ v b, marshal v = Ret b) l bs → Forall2 (λ v b, marshal v = Ret b) l' bs → f <$> l = f <$> l'.
Proof using.
  intros Hinj Hl Hl' Hf. revert l' Hl'. induction Hf as [|v b l bs Hv Hf IH]; intros l' Hl' Hf'.
  - by apply Forall2_nil_inv_r in Hf' as ->.
  - apply Forall2_cons_inv_r in Hf' as (v' & l'' & Hv' & Hf' & ->). rewrite Forall_cons in Hl, Hl'.
    rewrite !fmap_cons. f_equal; [by eapply Hinj; [apply Hl|apply Hl'|..]|]. apply IH; tauto.
Qed.

(** What the hash of a set binds of a validator. *)
Definition key_power (v : Validator) : option PubKey * Z := (PubKey_ v, VotingPower v).
Definition validator_typed (v : Validator) : Prop :=
  is_int64 (VotingPower v) ∧ ∀ pk, PubKey_ v = Some pk → len (KeyBytes pk) ≤ 1000.

Lemma len_PubKeyToProto pk b : PubKeyToProto (Some pk) = Some b → len b ≤ 11 + len (KeyBytes pk).
Proof using.
  unfold PubKeyToProto. repeat case_decide; intros [= <-].
  - apply (len_message_field x0a (KeyBytes pk)).
  - apply (len_message_field x12 (KeyBytes pk)).
Qed.

Lemma PubKeyToProto_inj pk pk' b :
  len (KeyBytes pk) ≤ 1000 → len (KeyBytes pk') ≤ 1000 → PubKeyToProto (Some pk) = Some b → PubKeyToProto (Some pk') = Some b → pk = pk'.
Proof using.
  intros Hl Hl' H1 H2. unfold PubKeyToProto in *. destruct pk as [ty k], pk' as [ty' k']; simpl in *.
  assert (delimited k = delimited k' → k = k') as Hm by (apply delimited_inj; eapply short_le; (eassumption || lia)).
  repeat case_decide; simplify_eq; by rewrite Hm.
Qed.

Lemma Validator_Bytes_inj v v' b :
  validator_typed v → validator_typed v' → Validator_Bytes v = Ret b → Validator_Bytes v' = Ret b → key_power v = key_power v'.
Proof using.
  intros [Hp Hk] [Hp' Hk']. unfold Validator_Bytes. destruct (PubKey_ v) as [pk|] eqn:E; [|done]. destruct (PubKey_ v') as [pk'|] eqn:E'; [|done].
  specialize (Hk _ eq_refl). specialize (Hk' _ eq_refl).
  destruct (PubKeyToProto (Some pk)) as [p|] eqn:Hpk; [|done]. destruct (PubKeyToProto (Some pk')) as [p'|] eqn:Hpk'; [|done].
  intros R1 R2. apply (inj Ret) in R1 as <-. apply (inj Ret) in R2 as Heq. pose proof (len_PubKeyToProto _ _ Hpk). pose proof (len_PubKeyToProto _ _ Hpk').
  rewrite <-(app_nil_r (varint_field x10 (VotingPower v))), <-(app_nil_r (varint_field x10 (VotingPower v'))) in Heq.
  apply message_field_inj in Heq as [<- Heq]; [|eapply (short_le _ 2000); lia..].
  apply varint_field_inj in Heq as [Heq _]; [|done|done|solve_no_tag..].
  unfold key_power. rewrite E, E', Heq. f_equal. f_equal. by eapply PubKeyToProto_inj.
Qed.

Definition set_bytes (vals : ValidatorSet) : list bytes :=
  match marshal_all Validator_Bytes (Validators vals) with Ret bs => bs | Panic _ => [] end.

(** Two sets the computing of whose hashes gives a collision. *)
Definition sets_collide (v1 v2 : ValidatorSet) : Prop := roots_collide (set_bytes v1) (set_bytes v2).

Definition set_typed (vals : ValidatorSet) : Prop :=
  len (Validators vals) ≤ MaxInt64 ∧ Forall validator_typed (Validators vals).

Lemma ValidatorSet_Hash_binds v1 v2 r :
  set_typed v1 → set_typed v2 → ValidatorSet_Hash v1 = Ret r → ValidatorSet_Hash v2 = Ret r →
  key_power <$> Validators v1 = key_power <$> Validators v2 ∨ sets_collide v1 v2.
Proof.
  unfold ValidatorSet_Hash, sets_collide, set_bytes. intros [Hn1 Ht1] [Hn2 Ht2].
  destruct (marshal_all _ (Validators v1)) as [b1|] eqn:H1; [|done]. destruct (marshal_all _ (Validators v2)) as [b2|] eqn:H2; [|done].
  cbn [mbind outcome_bind]. intros R1 R2. apply marshal_all_spec in H1, H2.
  pose proof (Forall2_length _ _ _ H1). pose proof (Forall2_length _ _ _ H2). unfold len in *.
  destruct (HashFromByteSlices_binds b1 b2 r) as [E|E]; [unfold len; lia..|done|done| |by right].
  left. subst b2. by eapply marshal_all_inj; [apply Validator_Bytes_inj|..].
Qed.
End validators.

Lemma ValidatorSet_Hash_size `{Crypto, !HashSize} vals r :
  set_typed vals → ValidatorSet_Hash vals = Ret r → len r = tmhash_Size.
Proof.
  intros [Hn _]. unfold ValidatorSet_Hash. intros Hv. bind_split Hv bs Hbs. apply marshal_all_spec, Forall2_length in Hbs.
  rewrite HashFromByteSlices_root in Hv by (unfold len in *; lia). apply (inj Ret) in Hv as <-. apply root_size, leaf_size.
Qed.

(** ** Commits and transactions *)

Section parts.
Context `{Crypto, StdTimeLaws, !HashSize}.

Definition commit_sig_typed (cs : CommitSig) : Prop :=
  is_int64 (cs_BlockIDFlag cs) ∧ short (cs_ValidatorAddress cs) ∧ short (cs_Signature cs).

Lemma CommitSig_Marshal_inj c c' b :
  commit_sig_typed c → commit_sig_typed c' → CommitSig_Marshal c = Ret b → CommitSig_Marshal c' = Ret b → c = c'.
Proof.
  destruct c as [f a t s], c' as [f' a' t' s']. unfold commit_sig_typed, CommitSig_Marshal. cbn [cs_BlockIDFlag cs_ValidatorAddress cs_Timestamp cs_Signature].
  intros (Hf & Ha & Hs) (Hf' & Ha' & Hs'). destruct (StdTimeMarshal t) as [tb|] eqn:Ht; [|done]. destruct (StdTimeMarshal t') as [tb'|] eqn:Ht'; [|done].
  pose proof (std_time_short _ _ Ht). pose proof (std_time_short _ _ Ht').
  intros R1 R2. apply (inj Ret) in R1 as <-. apply (inj Ret) in R2 as Heq.
  rewrite <-(app_nil_r (bytes_field x22 s)), <-(app_nil_r (bytes_field x22 s')) in Heq.
  apply varint_field_inj in Heq as [-> Heq]; [|done|done|solve_no_tag..].
  apply bytes_field_inj in Heq as [-> Heq]; [|done|done|solve_no_tag..].
  apply message_field_inj in Heq as [-> Heq]; [|eapply short_le; [eassumption|lia]..].
  apply bytes_field_inj in Heq as [-> _]; [|done|done|solve_no_tag..].
  by rewrite (std_time_inj _ _ _ Ht Ht').
Qed.

Definition commit_bytes (c : Commit) : list bytes :=
  match marshal_all CommitSig_Marshal (commit_Signatures c) with Ret bs => bs | Panic _ => [] end.
Definition commit_typed (c : Commit) : Prop :=
  len (commit_Signatures c) ≤ MaxInt64 ∧ Forall commit_sig_typed (commit_Signatures c).

Lemma Commit_Hash_binds c1 c2 r :
  commit_typed c1 → commit_typed c2 → Commit_Hash (Some c1) = Ret r → Commit_Hash (Some c2) = Ret r →
  commit_Signatures c1 = commit_Signatures c2 ∨ roots_collide (commit_bytes c1) (commit_bytes c2).
Proof.
  unfold Commit_Hash, commit_bytes. intros [Hn1 Ht1] [Hn2 Ht2].
  destruct (marshal_all _ (commit_Signatures c1)) as [b1|] eqn:E1; [|done]. destruct (marshal_all _ (commit_Signatures c2)) as [b2|] eqn:E2; [|done].
  cbn [mbind outcome_bind]. intros R1 R2. apply marshal_all_spec in E1, E2.
  pose proof (Forall2_length _ _ _ E1). pose proof (Forall2_length _ _ _ E2). unfold len in *.
  destruct (HashFromByteSlices_binds b1 b2 r) as [E|E]; [unfold len; lia..|done|done| |by right].
  left. subst b2. rewrite <-(list_fmap_id (commit_Signatures c1)), <-(list_fmap_id (commit_Signatures c2)).
  by eapply marshal_all_inj; [apply CommitSig_Marshal_inj|..].
Qed.

(** A collision in the tree of two lists of transactions, or of two of the
    transactions. *)
Definition txs_collide (a b : list Tx) : Prop :=
  roots_collide (hashList a) (hashList b) ∨ ∃ x y, x ∈ a ∧ y ∈ b ∧ x ≠ y ∧ sha256 x = sha256 y.

Lemma hashList_inj a b : hashList a = hashList b → a = b ∨ ∃ x y, x ∈ a ∧ y ∈ b ∧ x ≠ y ∧ sha256 x = sha256 y.
Proof using.
  revert b. induction a as [|x a IH]; intros [|y b] Heq; [by left|done|done|]. injection Heq as Hx Heq.
  destruct (IH _ Heq) as [->|(u & v & ? & ? & ? & ?)].
  - destruct (decide (x = y)) as [->|]; [by left|right]. exists x, y. split_and!; [left..|done|done].
  - right. exists u, v. split_and!; [by right..|done|done].
Qed.

Lemma Txs_Hash_binds a b r :
  len a ≤ MaxInt64 → len b ≤ MaxInt64 → Txs_Hash a = Ret r → Txs_Hash b = Ret r → a = b ∨ txs_collide a b.
Proof.
  unfold Txs_Hash, txs_collide. intros Ha Hb R1 R2.
  destruct (HashFromByteSlices_binds (hashList a) (hashList b) r) as [E|E]; [unfold hashList; by rewrite len_fmap..|done|done| |by right; left].
  destruct (hashList_inj _ _ E) as [->|?]; [by left|by right; right].
Qed.

(** ** Proofs of membership *)

Lemma elem_of_take_drop_l {A} (l : list A) k x : x ∈ take k l → x ∈ l.
Proof using. intros Hx. rewrite <-(take_drop k l). apply elem_of_app. by left. Qed.
Lemma elem_of_take_drop_r {A} (l : list A) k x : x ∈ drop k l → x ∈ l.
Proof using. intros Hx. rewrite <-(take_drop k l). apply elem_of_app. by right. Qed.

(** Whatever index and total a proof claims, the aunts lead from a leaf of
    the tree to its root, or collide with it. *)
Definition member_collision (items : list bytes) (leaf : bytes) (index : Z) (n : nat) (aunts : list bytes) : Prop :=
  ∃ x y, hashed_by items x ∧ proof_input leaf index n aunts y ∧ x ≠ y ∧ sha256 x = sha256 y.

Lemma member_leaf items leaf i n aunts :
  leafHash leaf = root (leafHash <$> items) → leaf ∈ items ∨ member_collision items leaf i n aunts.
Proof using.
  intros Hr. destruct (hashed_top items) as (x & Hx & Hrx & Tx). destruct (decide (x = x00 :: leaf)) as [->|Hne].
  - left. destruct Tx as [[_ ?]|[(a & -> & ?)|(_ & b & ?)]]; simplify_eq. by left.
  - right. exists x, (x00 :: leaf). split_and!; [done|constructor|done|]. unfold leafHash in Hr at 1. congruence.
Qed.

Lemma member_inner items p q :
  len p = tmhash_Size ∨ len q = tmhash_Size → innerHash p q = root (leafHash <$> items) →
  ((2 ≤ length items)%nat ∧ p = root (leafHash <$> take (split (length items)) items) ∧
     q = root (leafHash <$> drop (split (length items)) items)) ∨
  ∃ x, hashed_by items x ∧ x ≠ x01 :: p ++ q ∧ sha256 x = sha256 (x01 :: p ++ q).
Proof.
  intros Hlen Hr. destruct (decide (2 ≤ length items)%nat) as [Hl|Hl].
  - rewrite root_unfold in Hr by (by rewrite length_fmap). rewrite !length_fmap, <-!fmap_take, <-!fmap_drop in Hr.
    apply inner_inj in Hr as [[? ?]|[? ?]]; [by left| |rewrite !(root_size _ (leaf_size _)); tauto].
    right. eexists. split_and!; [left; by apply tree_inner|by apply not_eq_sym|done].
  - right. destruct (hashed_top items) as (x & Hx & Hrx & Tx). exists x. split_and!; [done| |unfold innerHash in Hr; congruence].
    destruct Tx as [[_ ->]|[(b & _ & ->)|(? & _)]]; [done|done|lia].
Qed.

Lemma member_collision_left items leaf i n aunts a :
  (2 ≤ length items)%nat → i < Z.of_nat (split n) →
  member_collision (take (split (length items)) items) leaf i (split n) aunts → member_collision items leaf i n (aunts ++ [a]).
Proof using.
  intros Hl Hi (x & y & Hx & Hy & ? & ?). exists x, y. split_and!; [by apply hashed_left|by apply proof_in_left|done|done].
Qed.

Lemma member_collision_right items leaf i n aunts a :
  (2 ≤ length items)%nat → Z.of_nat (split n) ≤ i →
  member_collision (drop (split (length items)) items) leaf (i - Z.of_nat (split n)) (n - split n) aunts →
  member_collision items leaf i n (aunts ++ [a]).
Proof using.
  intros Hl Hi (x & y & Hx & Hy & ? & ?). exists x, y. split_and!; [by apply hashed_right|by apply proof_in_right|done|done].
Qed.

Lemma member_sound aunts leaf : ∀ items index n,
  Z.of_nat n ≤ MaxInt64 → computeHashFromAunts index (Z.of_nat n) (leafHash leaf) aunts = Ret (Some (root (leafHash <$> items))) →
  leaf ∈ items ∨ member_collision items leaf index n aunts.
Proof.
  induction aunts as [|a aunts IH] using rev_ind; intros items index n Hn Hc; pose proof (compute_range _ _ _ _ _ Hc) as Hr;
    (destruct (decide (n = 1%nat)) as [->|Hne]; [apply compute_one in Hc as (_ & _ & Hc); by apply member_leaf|]).
  { by rewrite compute_nil in Hc by lia. }
  destruct (split_bounds n ltac:(lia)) as (? & ? & ?). rewrite compute_snoc in Hc by lia.
  destruct (Z.ltb_spec index (Z.of_nat (split n))).
  - destruct (computeHashFromAunts index _ _ aunts) as [[h|]|] eqn:Hh; simpl in Hc; [|done..]. injection Hc as Hc.
    apply member_inner in Hc as [(Hl & -> & _)|(x & ? & ? & ?)].
    + destruct (IH _ _ (split n) ltac:(lia) Hh) as [Hi|Hi]; [left; by eapply elem_of_take_drop_l|right; by apply member_collision_left].
    + right. exists x, (x01 :: h ++ a). split_and!; [done|by apply (proof_left _ _ _ _ _ h)|done|done].
    + left. eapply compute_size; [|apply hash_size|exact Hh]. lia.
  - destruct (computeHashFromAunts (index - _) _ _ aunts) as [[h|]|] eqn:Hh; simpl in Hc; [|done..]. injection Hc as Hc.
    apply member_inner in Hc as [(Hl & _ & ->)|(x & ? & ? & ?)].
    + destruct (IH _ _ (n - split n)%nat ltac:(lia) Hh) as [Hi|Hi]; [left; by eapply elem_of_take_drop_r|right; by apply member_collision_right].
    + right. exists x, (x01 :: a ++ h). split_and!; [done|by apply (proof_right _ _ _ _ _ h)|done|done].
    + right. eapply compute_size; [|apply hash_size|exact Hh]. lia.
Qed.
End parts.

(** ** Theorems about blocks

    What the hash of a block determines, and what transaction proofs prove. *)

Section blocks.
Context `{Crypto, StdTimeLaws, !HashSize, EvidenceOps}.

Record block_typed (b : Block) : Prop := {
  bt_header : header_typed (b_Header b);
  bt_txs : len (b_Txs b) ≤ MaxInt64;
  bt_commit : ∀ c, b_LastCommit b = Some c → commit_typed c;
  bt_evidence : len (b_Evidence b) ≤ MaxInt64;
}.

(** What a block that passes the basic checks has. *)
Lemma Block_ValidateBasic_inv b :
  Block_ValidateBasic b = Ret None → ∃ c,
    Header_ValidateBasic (b_Header b) = None ∧ b_LastCommit b = Some c ∧ Commit_ValidateBasic c = None ∧
    Commit_Hash (Some c) = Ret (h_LastCommitHash (b_Header b)) ∧ Txs_Hash (b_Txs b) = Ret (h_DataHash (b_Header b)) ∧
    Evidence_Hash (b_Evidence b) = Ret (h_EvidenceHash (b_Header b)).
Proof using.
  unfold Block_ValidateBasic. destruct (Header_ValidateBasic (b_Header b)); [done|]. destruct (b_LastCommit b) as [c|]; [|done].
  destruct (Commit_ValidateBasic c) eqn:Hc; [done|]. intros R. exists c. bind_split R ch Hch. case_bool_decide; [|done]. cbn [negb] in R.
  bind_split R dh Hdh. case_bool_decide; [|done]. cbn [negb] in R. destruct (first_bad_evidence 0 (b_Evidence b)); [done|].
  bind_split R eh Heh. case_bool_decide; [|done]. subst. done.
Qed.

Lemma or_compute_same have compute : compute = Ret have → or_compute have compute = Ret have.
Proof using. unfold or_compute. by case_decide. Qed.

(** Filling in the hashes of a block that passes them changes nothing, so
    the hash of a block that came in is that of its header. *)
Lemma Block_Hash_validated b b' r :
  Block_ValidateBasic b = Ret None → verifiedHash b = [] → Block_Hash b = Ret (b', r) → Header_Hash (b_Header b) = Ret r.
Proof using.
  intros (c & _ & Hc & _ & Hch & Hdh & Heh)%Block_ValidateBasic_inv Hv. unfold Block_Hash. rewrite Hc. rewrite decide_True by done.
  assert (fillHeader b = Ret b) as ->.
  { unfold fillHeader. rewrite Hc, !or_compute_same by done. cbn [mbind outcome_bind]. destruct b as [v h txs ev lc].
    cbn [b_LastCommit] in Hc. subst lc. by destruct h. }
  cbn [mbind outcome_bind]. destruct (Header_Hash (b_Header b)); [|done]. by intros [= _ <-].
Qed.

(** A collision in one of the four trees under a block's hash. *)
Definition blocks_collide (b1 b2 : Block) : Prop :=
  headers_collide (b_Header b1) (b_Header b2) ∨ txs_collide (b_Txs b1) (b_Txs b2) ∨
  roots_collide (ev_Bytes <$> b_Evidence b1) (ev_Bytes <$> b_Evidence b2) ∨
  ∃ c1 c2, b_LastCommit b1 = Some c1 ∧ b_LastCommit b2 = Some c2 ∧ roots_collide (commit_bytes c1) (commit_bytes c2).

(** C10: the hash of a block determines the block.  Two blocks as they come
    from the wire, both passing the basic checks, that have the same hash
    have the same header, the same transactions in the same order, the same
    signatures of the last commit and the same evidence, or a collision of
    the hash function can be read off from them. *)
Theorem block_hash_binds b1 b2 b1' b2' r :
  block_typed b1 → block_typed b2 → verifiedHash b1 = [] → verifiedHash b2 = [] →
  Block_ValidateBasic b1 = Ret None → Block_ValidateBasic b2 = Ret None →
  Block_Hash b1 = Ret (b1', r) → Block_Hash b2 = Ret (b2', r) → r ≠ [] →
  (b_Header b1 = b_Header b2 ∧ b_Txs b1 = b_Txs b2 ∧ ev_Bytes <$> b_Evidence b1 = ev_Bytes <$> b_Evidence b2 ∧
   ∃ c1 c2, b_LastCommit b1 = Some c1 ∧ b_LastCommit b2 = Some c2 ∧ commit_Signatures c1 = commit_Signatures c2) ∨
  blocks_collide b1 b2.
Proof.
  intros Ht1 Ht2 V1 V2 B1 B2 R1 R2 Hr. apply Block_Hash_validated in R1; [|done..]. apply Block_Hash_validated in R2; [|done..].
  apply Block_ValidateBasic_inv in B1 as (c1 & _ & L1 & _ & C1 & D1 & E1). apply Block_ValidateBasic_inv in B2 as (c2 & _ & L2 & _ & C2 & D2 & E2).
  unfold blocks_collide. destruct (Header_Hash_binds _ _ _ (bt_header _ Ht1) (bt_header _ Ht2) R1 R2 Hr) as [Eh|?]; [|by right; left].
  rewrite <-Eh in C2, D2, E2.
  destruct (Txs_Hash_binds _ _ _ (bt_txs _ Ht1) (bt_txs _ Ht2) D1 D2) as [Et|?]; [|by right; right; left].
  destruct (HashFromByteSlices_binds (ev_Bytes <$> b_Evidence b1) (ev_Bytes <$> b_Evidence b2) (h_EvidenceHash (b_Header b1))) as [Ee|?];
    [rewrite len_fmap; by apply bt_evidence..|done|done| |by do 3 right; left].
  destruct (Commit_Hash_binds c1 c2 _ (bt_commit _ Ht1 _ L1) (bt_commit _ Ht2 _ L2) C1 C2) as [Ec|?].
  - left. split_and!; [done..|]. exists c1, c2. done.
  - do 4 right. exists c1, c2. done.
Qed.
End blocks.

Section tx_proofs.
Context `{Crypto, !HashSize}.

Definition tx_proof_collision (txs : list Tx) (tp : TxProof) : Prop :=
  member_collision (hashList txs) (TxProof_Leaf tp) (proof_Index (tp_Proof tp)) (Z.to_nat (proof_Total (tp_Proof tp))) (Aunts (tp_Proof tp)) ∨
  ∃ tx, tx ∈ txs ∧ tx ≠ tp_Data tp ∧ sha256 tx = sha256 (tp_Data tp).

Lemma TxProof_Validate_inv tp r :
  TxProof_Validate tp r = Ret None ↔ r = tp_RootHash tp ∧ 0 ≤ proof_Index (tp_Proof tp) ∧ 0 < proof_Total (tp_Proof tp) ∧
    Proof_Verify (tp_Proof tp) (Some r) (TxProof_Leaf tp) = Ret None.
Proof using.
  unfold TxProof_Validate. case_bool_decide; cbn [negb]; [|naive_solver]. subst. destruct (Z.ltb_spec (proof_Index (tp_Proof tp)) 0); [split; [done|lia]|].
  destruct (Z.leb_spec (proof_Total (tp_Proof tp)) 0); [split; [done|lia]|].
  destruct (Proof_Verify _ _ _) as [[e|]|]; cbn [mbind outcome_bind]; split; try done; naive_solver.
Qed.

Lemma Txs_Proof_validates txs i tx r :
  len txs ≤ MaxInt64 → Txs_Hash txs = Ret r → txs !! i = Some tx →
  ∃ tp, Txs_Proof txs (Z.of_nat i) = Ret tp ∧ tp_Data tp = tx ∧ proof_Index (tp_Proof tp) = Z.of_nat i ∧
    proof_Total (tp_Proof tp) = len txs ∧ TxProof_Validate tp r = Ret None.
Proof using.
  intros Hn Hr Hi. unfold Txs_Hash in Hr. assert (len (hashList txs) = len txs) as Hl by apply len_fmap.
  rewrite HashFromByteSlices_root in Hr by lia. apply (inj Ret) in Hr as <-.
  destruct (ProofsFromByteSlices_spec (hashList txs)) as (proofs & Hp & _ & Hall); [lia|].
  destruct (Hall i (Tx_Hash tx)) as (sp & Hsp & Hidx & Htot & Hleaf & Hc); [unfold hashList; by rewrite list_lookup_fmap, Hi|].
  eexists. split_and!.
  - unfold Txs_Proof, slice_get. rewrite Hp. cbn [mbind outcome_bind]. rewrite Nat2Z.id, Hi, Hsp.
    rewrite !decide_True by lia. cbn [mbind outcome_bind]. reflexivity.
  - done.
  - done.
  - cbn. congruence.
  - apply TxProof_Validate_inv. cbn [tp_Proof tp_RootHash]. pose proof (lookup_lt_Some _ _ _ Hi). unfold len in *.
    split_and!; [done|lia|lia|]. apply Verify_iff. unfold TxProof_Leaf. cbn [tp_Data]. split_and!; [lia|lia|done|done].
Qed.

Lemma TxProof_Validate_sound txs tp r :
  len txs ≤ MaxInt64 → Txs_Hash txs = Ret r → is_int64 (proof_Total (tp_Proof tp)) → TxProof_Validate tp r = Ret None →
  tp_Data tp ∈ txs ∨ tx_proof_collision txs tp.
Proof.
  intros Hn Hr Ht (-> & Hi & Hpos & (_ & _ & Hleaf & Hc)%Verify_iff)%TxProof_Validate_inv. unfold Txs_Hash in Hr.
  rewrite HashFromByteSlices_root in Hr by (unfold hashList; by rewrite len_fmap). apply (inj Ret) in Hr as Hroot. rewrite Hleaf, <-Hroot in Hc.
  rewrite <-(Z2Nat.id (proof_Total (tp_Proof tp))) in Hc by lia.
  destruct (member_sound _ _ _ _ (Z.to_nat (proof_Total (tp_Proof tp))) ltac:(rewrite Z2Nat.id; ulia) Hc) as [Hin|?]; [|by right; left].
  apply list_elem_of_fmap in Hin as (tx & Htx & Hin). destruct (decide (tx = tp_Data tp)) as [->|]; [by left|].
  right; right. exists tx. done.
Qed.

(** Transaction proofs.  The proof [Txs.Proof] makes of any transaction
    of a block validates against the data hash of the block; and whatever
    proof validates against it, with any index, total and aunts, is of a
    transaction of the block, or shows a collision of the hash function. *)
Theorem tx_proofs_exact txs r :
  len txs ≤ MaxInt64 → Txs_Hash txs = Ret r →
  (∀ i tx, txs !! i = Some tx → ∃ tp, Txs_Proof txs (Z.of_nat i) = Ret tp ∧ tp_Data tp = tx ∧
     proof_Index (tp_Proof tp) = Z.of_nat i ∧ proof_Total (tp_Proof tp) = len txs ∧ TxProof_Validate tp r = Ret None) ∧
  (∀ tp, is_int64 (proof_Total (tp_Proof tp)) → TxProof_Validate tp r = Ret None → tp_Data tp ∈ txs ∨ tx_proof_collision txs tp).
Proof. intros Hn Hr. split; intros; [by apply Txs_Proof_validates|by apply (TxProof_Validate_sound _ _ r)]. Qed.
End tx_proofs.

(** ** Witnesses *)

(** A hash of the right size. *)
Definition checksum (b : bytes) : bytes :=
  le_bytes 2 (foldl (λ acc x, (acc * 31 + Z.of_N (Byte.to_N x) + 1) mod 65521) 7 b) ++ replicate 30 x00.
Lemma checksum_size b : len (checksum b) = tmhash_Size.
Proof. unfold checksum, len. by rewrite length_app, le_bytes_length, length_replicate. Qed.

Definition toy_evidence : EvidenceOps :=
  {| Evidence := bytes; ev_Bytes := λ b, b; ev_ValidateBasic := λ _, None; ev_ProtoSize := λ l, len l |}.
Definition hash_or_nil (o : outcome bytes) : bytes := match o with Ret h => h | Panic _ => [] end.

Definition wb_commit (round : Z) : Commit :=
  mkCommit 1 round (mkBlockID (replicate 32 x0a) (mkPartSetHeader 1 (replicate 32 x0b)))
    [mkCommitSig BlockIDFlagCommit (replicate 20 x01) (mkTime 7 0) [x05]].
Definition wb_txs : list Tx := [[x01]; [x02]; [x03]].
Definition wb_block (round : Z) : @Block toy_evidence :=
  @mkBlock toy_evidence []
    (mkHeader (mkConsensus BlockProtocol 1) [x61] 2 (mkTime 8 0) (commit_BlockID (wb_commit round))
      (hash_or_nil (@Commit_Hash toy_hash example_time (Some (wb_commit round)))) (hash_or_nil (@Txs_Hash toy_hash wb_txs))
      (replicate 32 x11) (replicate 32 x12) (replicate 32 x13) [x14] (replicate 32 x15)
      (hash_or_nil (@Evidence_Hash toy_hash toy_evidence [[x09]])) (replicate 20 x01))
    wb_txs [[x09]] (Some (wb_commit round)).
Definition wb_hash : bytes := hash_or_nil (@Header_Hash toy_hash example_time (b_Header (wb_block 0))).

Lemma wb_typed round : @block_typed toy_evidence (wb_block round).
Proof.
  constructor; [|done| |done].
  - constructor; [done|done|done|done|]. cbn [b_Header wb_block h_ChainID]. repeat constructor; vm_compute; discriminate.
  - intros c [= <-]. split; [done|]. repeat constructor; vm_compute; discriminate.
Qed.

Lemma block_hash_binds_witness :
  @Block_Hash toy_hash example_time toy_evidence (wb_block 0) ≠ Ret (wb_block 0, []) ∧
  (commit_Signatures (wb_commit 0) = commit_Signatures (wb_commit 1) ∨ @blocks_collide toy_hash example_time toy_evidence (wb_block 0) (wb_block 1)).
Proof.
  split; [vm_compute; discriminate|].
  destruct (@block_hash_binds toy_hash example_time example_time_laws toy_hash_size toy_evidence (wb_block 0) (wb_block 1)
    (@mkBlock toy_evidence wb_hash (b_Header (wb_block 0)) wb_txs [[x09]] (Some (wb_commit 0)))
    (@mkBlock toy_evidence wb_hash (b_Header (wb_block 1)) wb_txs [[x09]] (Some (wb_commit 1))) wb_hash) as [_|Hc];
    [apply wb_typed|apply wb_typed|reflexivity|reflexivity|vm_compute; reflexivity..|vm_compute; discriminate|left; reflexivity|right; exact Hc].
Defined.

Lemma tx_proofs_exact_witness :
  ∃ tp, @Txs_Proof toy_hash wb_txs 2 = Ret tp ∧ @TxProof_Validate toy_hash tp (hash_or_nil (@Txs_Hash toy_hash wb_txs)) = Ret None.
Proof.
  destruct (@tx_proofs_exact toy_hash toy_hash_size wb_txs (hash_or_nil (@Txs_Hash toy_hash wb_txs))) as [Hc _];
    [vm_compute; discriminate|vm_compute; reflexivity|].
  destruct (Hc 2%nat [x03] eq_refl) as (tp & H1 & _ & _ & _ & H2). exists tp. split; [exact H1|exact H2].
Defined.
