(* ===== verification/LightVerifier.v ===== *)
(** * Light verification

    [light/verifier.go]: the checks of a new signed header against a trusted
    one.  Signed headers and light blocks are those of [types/light.go]; a
    nil pointer is [None], and reading through one is a panic. *)
From S2P Require Import Prelude.
From S2P Require Import Proto.
From S2P Require Import Vote.
From S2P Require Import Validator.
From S2P Require Import SignBytes.
From S2P Require Import ValidatorSet.
From S2P Require Import Validation.
From S2P Require Import Block.

Definition DefaultTrustLevel : Fraction := mkFraction 1 3.

(** The fields of an embedded pointer. *)
Definition deref {A} (p : option A) : outcome A :=
  match p with Some x => Ret x | None => Panic "nil pointer dereference" end.

Inductive invalid_header :=
| InvalidBasic (e : signed_header_error)
| InvalidHeight
| InvalidTime
| FromTheFuture
| InvalidValidatorsHash
| InvalidCommit (e : commit_verify_error)
| InvalidOlder (e : header_error)
| InvalidOtherChain
| InvalidOlderTime
| InvalidOlderHash.

Inductive light_error :=
| ErrMustBeNonAdjacent
| ErrMustBeAdjacent
| ErrOldHeaderExpired (at_ now : Time)
| ErrInvalidHeader (e : invalid_header)
| ErrNewValSetCantBeTrusted (got needed : Z)
| ErrCommitNotTrusted (e : commit_verify_error)
| ErrNextValidatorsHash.

Definition HeaderExpired (h : Header) (trustingPeriod : Z) (now : Time) : bool :=
  negb (time_After (time_Add (h_Time h) trustingPeriod) now).

(** The arithmetic is on [uint64]s. *)
Definition ValidateTrustLevel (lvl : Fraction) : bool :=
  negb ((uint64 (Numerator lvl * 3) <? Denominator lvl) || (Denominator lvl <? Numerator lvl) || (Denominator lvl =? 0)).

Section verifier.
Context `{StdTime, Crypto, !BatchCrypto}.

Definition verifyNewHeaderAndVals (untrusted : SignedHeader) (untrustedVals : option ValidatorSet) (trusted : Header)
    (now : Time) (maxClockDrift : Z) : outcome (option invalid_header) :=
  err ← SignedHeader_ValidateBasic untrusted (h_ChainID trusted);
  match err with
  | Some e => Ret (Some (InvalidBasic e))
  | None =>
      h ← deref (sh_Header untrusted);
      if h_Height h <=? h_Height trusted then Ret (Some InvalidHeight)
      else if negb (time_After (h_Time h) (h_Time trusted)) then Ret (Some InvalidTime)
      else if negb (time_Before (h_Time h) (time_Add now maxClockDrift)) then Ret (Some FromTheFuture)
      else
        vals ← deref untrustedVals;
        vhash ← ValidatorSet_Hash vals;
        Ret (if bool_decide (h_ValidatorsHash h = vhash) then None else Some InvalidValidatorsHash)
  end.

(** The last check of both: more than two thirds of the new validators. *)
Definition verify_new_commit (trusted : Header) (untrusted : SignedHeader) (untrustedVals : option ValidatorSet)
    : outcome (option light_error) :=
  h ← deref (sh_Header untrusted);
  commit ← deref (sh_Commit untrusted);
  err ← VerifyCommitLight (h_ChainID trusted) untrustedVals (commit_BlockID commit) (h_Height h) (Some commit);
  Ret (match err with Some e => Some (ErrInvalidHeader (InvalidCommit e)) | None => None end).

Definition VerifyNonAdjacent (trustedHeader : SignedHeader) (trustedVals : option ValidatorSet) (untrustedHeader : SignedHeader)
    (untrustedVals : option ValidatorSet) (trustingPeriod : Z) (now : Time) (maxClockDrift : Z) (trustLevel : Fraction)
    : outcome (option light_error) :=
  uh ← deref (sh_Header untrustedHeader);
  th ← deref (sh_Header trustedHeader);
  if h_Height uh =? int64 (h_Height th + 1) then Ret (Some ErrMustBeNonAdjacent)
  else if HeaderExpired th trustingPeriod now then Ret (Some (ErrOldHeaderExpired (time_Add (h_Time th) trustingPeriod) now))
  else
    err ← verifyNewHeaderAndVals untrustedHeader untrustedVals th now maxClockDrift;
    match err with
    | Some e => Ret (Some (ErrInvalidHeader e))
    | None =>
        err ← VerifyCommitLightTrusting (h_ChainID th) trustedVals (sh_Commit untrustedHeader) trustLevel;
        match err with
        | Some (ErrNotEnoughVotingPowerSigned got needed) => Ret (Some (ErrNewValSetCantBeTrusted got needed))
        | Some e => Ret (Some (ErrCommitNotTrusted e))
        | None => verify_new_commit th untrustedHeader untrustedVals
        end
    end.

Definition VerifyAdjacent (trustedHeader untrustedHeader : SignedHeader) (untrustedVals : option ValidatorSet)
    (trustingPeriod : Z) (now : Time) (maxClockDrift : Z) : outcome (option light_error) :=
  uh ← deref (sh_Header untrustedHeader);
  th ← deref (sh_Header trustedHeader);
  if negb (h_Height uh =? int64 (h_Height th + 1)) then Ret (Some ErrMustBeAdjacent)
  else if HeaderExpired th trustingPeriod now then Ret (Some (ErrOldHeaderExpired (time_Add (h_Time th) trustingPeriod) now))
  else
    err ← verifyNewHeaderAndVals untrustedHeader untrustedVals th now maxClockDrift;
    match err with
    | Some e => Ret (Some (ErrInvalidHeader e))
    | None =>
        if bool_decide (h_ValidatorsHash uh = h_NextValidatorsHash th) then verify_new_commit th untrustedHeader untrustedVals
        else Ret (Some ErrNextValidatorsHash)
    end.

Definition Verify (trustedHeader : SignedHeader) (trustedVals : option ValidatorSet) (untrustedHeader : SignedHeader)
    (untrustedVals : option ValidatorSet) (trustingPeriod : Z) (now : Time) (maxClockDrift : Z) (trustLevel : Fraction)
    : outcome (option light_error) :=
  uh ← deref (sh_Header untrustedHeader);
  th ← deref (sh_Header trustedHeader);
  if negb (h_Height uh =? int64 (h_Height th + 1))
  then VerifyNonAdjacent trustedHeader trustedVals untrustedHeader untrustedVals trustingPeriod now maxClockDrift trustLevel
  else VerifyAdjacent trustedHeader untrustedHeader untrustedVals trustingPeriod now maxClockDrift.

Definition VerifyBackwards (untrustedHeader trustedHeader : Header) : outcome (option light_error) :=
  match Header_ValidateBasic untrustedHeader with
  | Some e => Ret (Some (ErrInvalidHeader (InvalidOlder e)))
  | None =>
      if negb (bool_decide (h_ChainID untrustedHeader = h_ChainID trustedHeader)) then Ret (Some (ErrInvalidHeader InvalidOtherChain))
      else if negb (time_Before (h_Time untrustedHeader) (h_Time trustedHeader)) then Ret (Some (ErrInvalidHeader InvalidOlderTime))
      else
        hash ← Header_Hash untrustedHeader;
        Ret (if bool_decide (hash = BlockHash (h_LastBlockID trustedHeader)) then None else Some (ErrInvalidHeader InvalidOlderHash))
  end.
End verifier.

(** ** The trusted store of the light client

    [light/store/db/db.go].  The database is a finite map from heights to
    light blocks (its keys sort as the heights do, and a stored block is read
    back as it was written); it does not fail.  The store counts what it
    saved in a [uint16]. *)


Record dbs := mkDbs { ts_blocks : gmap Z LightBlock; ts_size : Z }.

Inductive store_error := ErrStoreLightBlockNotFound | ErrEncode.

Definition lb_Header (lb : LightBlock) : outcome Header := sh ← deref (lb_SignedHeader lb); deref (sh_Header sh).
Definition lb_Commit (lb : LightBlock) : outcome Commit := sh ← deref (lb_SignedHeader lb); deref (sh_Commit sh).
Definition lb_Height (lb : LightBlock) : outcome Z := h ← lb_Header lb; Ret (h_Height h).
Definition lb_Time (lb : LightBlock) : outcome Time := h ← lb_Header lb; Ret (h_Time h).

Section store.
Context `{StdTime, Crypto}.

(** [lb.Hash()]: the hash of a nil header is nil. *)
Definition lb_Hash (lb : LightBlock) : outcome bytes :=
  sh ← deref (lb_SignedHeader lb);
  match sh_Header sh with None => Ret [] | Some h => Header_Hash h end.

(** Whether [ToProto] and [Marshal] succeed: supported keys, times in the
    range of the format. *)
Definition supported_key (v : Validator) : bool := match PubKeyToProto (PubKey_ v) with Some _ => true | None => false end.
Definition time_encodes (t : Time) : bool := match StdTimeMarshal t with Some _ => true | None => false end.
Definition encodable (lb : LightBlock) : bool :=
  match lb_ValidatorSet lb with
  | Some vals => forallb supported_key (Validators vals) && match Proposer vals with Some p => supported_key p | None => true end
  | None => true
  end &&
  match lb_SignedHeader lb with
  | Some sh =>
      match sh_Header sh with Some h => time_encodes (h_Time h) | None => true end &&
      match sh_Commit sh with Some c => forallb (λ cs, time_encodes (cs_Timestamp cs)) (commit_Signatures c) | None => true end
  | None => true
  end.

Definition SaveLightBlock (s : dbs) (lb : LightBlock) : outcome (dbs * option store_error) :=
  height ← lb_Height lb;
  if height <=? 0 then Panic "negative or zero height"
  else if negb (encodable lb) then Ret (s, Some ErrEncode)
  else Ret (mkDbs (<[height := lb]> (ts_blocks s)) (uint16 (ts_size s + 1)), None).

Definition DeleteLightBlock (s : dbs) (height : Z) : outcome dbs :=
  if height <=? 0 then Panic "negative or zero height"
  else Ret (mkDbs (delete height (ts_blocks s)) (uint16 (ts_size s - 1))).

Definition dbs_LightBlock (s : dbs) (height : Z) : outcome (LightBlock + store_error) :=
  if height <=? 0 then Panic "negative or zero height"
  else Ret (match ts_blocks s !! height with Some lb => inl lb | None => inr ErrStoreLightBlockNotFound end).

(** The iterators: the greatest and the least height; -1 when there is none. *)
Definition greatest (m : gmap Z LightBlock) : Z := map_fold (λ h _ acc, Z.max h acc) (-1) m.
Definition least (m : gmap Z LightBlock) : Z := map_fold (λ h _ acc, if acc =? -1 then h else Z.min h acc) (-1) m.

Definition LastLightBlockHeight (s : dbs) : Z := greatest (ts_blocks s).
Definition FirstLightBlockHeight (s : dbs) : Z := least (ts_blocks s).

Definition LightBlockBefore (s : dbs) (height : Z) : outcome (LightBlock + store_error) :=
  if height <=? 0 then Panic "negative or zero height"
  else
    let existingHeight := greatest (filter (λ x, x.1 < height) (ts_blocks s)) in
    if existingHeight =? -1 then Ret (inr ErrStoreLightBlockNotFound) else dbs_LightBlock s existingHeight.

Fixpoint pruneLoop (numToPrune : nat) (m : gmap Z LightBlock) (pruned : Z) : gmap Z LightBlock * Z :=
  match numToPrune with
  | O => (m, pruned)
  | S n => let h := least m in if h =? -1 then (m, pruned) else pruneLoop n (delete h m) (pruned + 1)
  end.

Definition Prune (s : dbs) (size : Z) : dbs :=
  if ts_size s <=? size then s
  else
    let '(m, pruned) := pruneLoop (Z.to_nat (ts_size s - size)) (ts_blocks s) 0 in
    mkDbs m (uint16 (ts_size s - uint16 pruned)).
End store.

(** ** Evidence of attacks on light clients

    [LightClientAttackEvidence] of [types/evidence.go] as the detector makes
    it ([newLightClientAttackEvidence] of [light/detector.go]). *)

(** ** The evidence *)

Record LightClientAttackEvidence := mkAttackEvidence {
  ConflictingBlock : LightBlock;
  CommonHeight : Z;
  ByzantineValidators : list (option Validator);
  ev_TotalVotingPower : Z;
  ev_Timestamp : Time;
}.

(** Every deterministic field of the two headers is the same. *)
Definition ConflictingHeaderIsInvalid (conflicting : LightBlock) (trustedHeader : Header) : outcome bool :=
  h ← lb_Header conflicting;
  Ret (negb (bool_decide (h_ValidatorsHash trustedHeader = h_ValidatorsHash h)) ||
       negb (bool_decide (h_NextValidatorsHash trustedHeader = h_NextValidatorsHash h)) ||
       negb (bool_decide (h_ConsensusHash trustedHeader = h_ConsensusHash h)) ||
       negb (bool_decide (h_AppHash trustedHeader = h_AppHash h)) ||
       negb (bool_decide (h_LastResultsHash trustedHeader = h_LastResultsHash h))).

(** [sort.Sort(ValidatorsByVotingPower(validators))]; comparing a nil
    validator is a panic. *)
Definition sort_validators (l : list (option Validator)) : outcome (list (option Validator)) :=
  if (2 <=? len l) && existsb (λ v, match v with None => true | Some _ => false end) l then Panic "nil pointer dereference"
  else Ret (if 2 <=? len l then Some <$> sort_by ByVotingPower_Less (omap id l) else l).

Definition GetByzantineValidators (conflicting : LightBlock) (commonVals : ValidatorSet) (trusted : SignedHeader)
    : outcome (list (option Validator)) :=
  th ← deref (sh_Header trusted);
  invalid ← ConflictingHeaderIsInvalid conflicting th;
  commit ← lb_Commit conflicting;
  if invalid : bool then
    sort_validators
      (omap (λ cs, if cs_BlockIDFlag cs =? BlockIDFlagCommit
                   then Some <$> (GetByAddress commonVals (cs_ValidatorAddress cs)).2 else None) (commit_Signatures commit))
  else
    trustedCommit ← deref (sh_Commit trusted);
    if commit_Round trustedCommit =? commit_Round commit then
      vals ← deref (lb_ValidatorSet conflicting);
      '(_, validators) ← for_each (λ sigA '(i, acc),
          if negb (cs_BlockIDFlag sigA =? BlockIDFlagCommit) then Ret (i + 1, acc)
          else
            sigB ← slice_get (commit_Signatures trustedCommit) i;
            Ret (i + 1, if negb (cs_BlockIDFlag sigB =? BlockIDFlagCommit) then acc
                        else acc ++ [(GetByAddress vals (cs_ValidatorAddress sigA)).2]))
        (commit_Signatures commit) (0, []);
      sort_validators validators
    else Ret [].

Definition newLightClientAttackEvidence (conflicted trusted common : LightBlock) : outcome LightClientAttackEvidence :=
  th ← lb_Header trusted;
  invalid ← ConflictingHeaderIsInvalid conflicted th;
  let base := if invalid : bool then common else trusted in
  h ← lb_Header base;
  vals ← deref (lb_ValidatorSet base);
  '(_, total) ← TotalVotingPower vals;
  commonVals ← deref (lb_ValidatorSet common);
  trustedHeader ← deref (lb_SignedHeader trusted);
  byzantine ← GetByzantineValidators conflicted commonVals trustedHeader;
  Ret (mkAttackEvidence conflicted (h_Height h) byzantine total (h_Time h)).
