(* ===== verification/LightClient.v ===== *)
(** * The light client

    [light/client.go], [light/detector.go] and [light/trust_options.go]: a
    client that trusts a light block, fetches others from a primary provider,
    verifies them and cross-checks them with witnesses.

    A provider is a number, and what it answers is an oracle over the
    provider, the height and the number of the request, so that a provider
    may answer the same question differently each time.  The goroutines that
    ask the witnesses answer in the order of another oracle.  A method is a
    computation over the client that may panic, or return an error.  Loops
    that need not be bounded (a provider may keep them going) run on fuel. *)
From S2P Require Import Prelude.
From S2P Require Import Vote.
From S2P Require Import Validator.
From S2P Require Import ValidatorSet.
From S2P Require Import SignBytes.
From S2P Require Import Validation.
From S2P Require Import Block.
From S2P Require Import LightVerifier.

(** ** Providers *)

Inductive provider_error :=
| ErrNoResponse
| ErrLightBlockNotFound
| ErrHeightTooHigh
| ContextCanceled
| ContextDeadlineExceeded
| ErrOtherProvider.

Class Network := {
  net_ChainID : nat → bytes;
  (** The answer of a provider to a request for a height, by the number of
      the request. *)
  net_LightBlock : nat → Z → nat → LightBlock + provider_error;
  (** The order in which the answers to [findNewPrimary], and the messages on
      the error channels, arrive; by the number of the first request. *)
  net_responses : nat → list nat;
  net_messages : nat → list nat;
  (** [confirmationFn] *)
  net_confirm : nat → bool;
}.

(** ** Errors *)

Inductive client_error :=
| EProvider (e : provider_error)
| EVerify (e : light_error)
| ErrVerificationFailed (from to : Z) (reason : client_error)
| EStore (e : store_error)
| ErrNoWitnesses
| ErrNilTrace
| ErrConflictingHeaders (b : LightBlock) (witnessIndex : Z)
| ErrBadWitness (witnessIndex : Z)
| ErrProposerPrioritiesDiverge (witnessIndex : Z)
| ErrLightClientAttack
| ErrFailedHeaderCrossReferencing
| ErrNoDivergence
| ErrTargetTooLow
| ErrTraceTime
| ErrOtherFirstBlock
| ErrNegativeHeight
| ErrNoHeaders
| ErrUnverifiedRequested
| ErrHeaderMismatch
| ErrTrustOptions
| ErrWitnessChain
| ErrTrustLevel
| ErrInvalidLightBlock (e : light_block_error)
| ErrWrongTrustedHash
| ErrInvalidFirstCommit (e : commit_verify_error)
| ErrRefusedCleanup.

(** ** The client *)

Inductive mode := sequential | skipping.

Record Client := mkClient {
  lc_chainID : bytes;
  lc_trustingPeriod : Z;
  verificationMode : mode;
  lc_trustLevel : Fraction;
  lc_maxClockDrift : Z;
  primary : nat;
  witnesses : list nat;
  trustedStore : dbs;
  latestTrustedBlock : option LightBlock;
  pruningSize : Z;
  requests : nat;
  reported : list (nat * LightClientAttackEvidence);
}.

Definition with_providers (c : Client) (p : nat) (ws : list nat) : Client :=
  mkClient (lc_chainID c) (lc_trustingPeriod c) (verificationMode c) (lc_trustLevel c) (lc_maxClockDrift c) p ws (trustedStore c)
    (latestTrustedBlock c) (pruningSize c) (requests c) (reported c).
Definition with_trusted (c : Client) (s : dbs) (latest : option LightBlock) : Client :=
  mkClient (lc_chainID c) (lc_trustingPeriod c) (verificationMode c) (lc_trustLevel c) (lc_maxClockDrift c) (primary c) (witnesses c) s
    latest (pruningSize c) (requests c) (reported c).
Definition with_requests (c : Client) (n : nat) : Client :=
  mkClient (lc_chainID c) (lc_trustingPeriod c) (verificationMode c) (lc_trustLevel c) (lc_maxClockDrift c) (primary c) (witnesses c)
    (trustedStore c) (latestTrustedBlock c) (pruningSize c) n (reported c).
Definition with_report (c : Client) (ev : nat * LightClientAttackEvidence) : Client :=
  mkClient (lc_chainID c) (lc_trustingPeriod c) (verificationMode c) (lc_trustLevel c) (lc_maxClockDrift c) (primary c) (witnesses c)
    (trustedStore c) (latestTrustedBlock c) (pruningSize c) (requests c) (reported c ++ [ev]).

(** A method: the client afterwards, with a result or an error. *)
Definition LC (A : Type) : Type := Client → outcome (Client * (A + client_error)).

Definition lc_ret {A} (x : A) : LC A := λ c, Ret (c, inl x).
Definition lc_fail {A} (e : client_error) : LC A := λ c, Ret (c, inr e).
Definition lc_bind {A B} (m : LC A) (k : A → LC B) : LC B := λ c,
  '(c, r) ← m c; match r with inl x => k x c | inr e => Ret (c, inr e) end.
(** The error as a value, as in [x, err := m]. *)
Definition lc_try {A} (m : LC A) : LC (A + client_error) := λ c, '(c, r) ← m c; Ret (c, inl r).
Definition lc_get : LC Client := λ c, Ret (c, inl c).
Definition lc_put (c : Client) : LC unit := λ _, Ret (c, inl tt).
Definition lc_lift {A} (m : outcome A) : LC A := λ c, x ← m; Ret (c, inl x).

Notation "x <-- m ; k" := (lc_bind m (λ x, k)) (at level 20, m at level 100, k at level 200, right associativity).
Notation "' x <-- m ; k" := (lc_bind m (λ x, k)) (at level 20, x pattern, m at level 100, k at level 200, right associativity).

Section client.
Context `{StdTime, Crypto, !BatchCrypto, Network}.

Definition ask (p : nat) (height : Z) : LC (LightBlock + provider_error) := λ c,
  Ret (with_requests c (S (requests c)), inl (net_LightBlock p height (requests c))).

(** ** Witnesses *)

Fixpoint remove_descending (indexes : list Z) (ws : list nat) : outcome (list nat) :=
  match indexes with
  | [] => Ret ws
  | i :: indexes =>
      last ← slice_get ws (len ws - 1);
      ws ← slice_set ws i last;
      remove_descending indexes (take (length ws - 1) ws)
  end.

Definition removeWitnesses (indexes : list Z) : LC unit :=
  c <-- lc_get;
  if len (witnesses c) <=? len indexes then lc_fail ErrNoWitnesses
  else
    ws <-- lc_lift (remove_descending (rev (sort_by Z.ltb indexes)) (witnesses c));
    lc_put (with_providers c (primary c) ws).

(** The requests to all witnesses, numbered by their index. *)
Definition responses (height : Z) (c : Client) : list (LightBlock + provider_error) :=
  imap (λ i w, net_LightBlock w height (requests c + i)) (witnesses c).

Fixpoint process_responses (rs : list (LightBlock + provider_error)) (order : list nat) (remove : bool)
    (witnessesToRemove : list Z) (lastError : option provider_error) : LC LightBlock :=
  match order with
  | [] =>
      _ <-- lc_try (removeWitnesses witnessesToRemove);
      match lastError with Some e => lc_fail (EProvider e) | None => lc_lift (Panic "no response") end
  | i :: order =>
      match rs !! i with
      | None => lc_lift (Panic "no such witness")
      | Some (inl lb) =>
          c <-- lc_get;
          let ws := if remove then witnesses c else witnesses c ++ [primary c] in
          p <-- lc_lift (slice_get ws (Z.of_nat i));
          _ <-- lc_put (with_providers c p ws);
          _ <-- removeWitnesses (witnessesToRemove ++ [Z.of_nat i]);
          lc_ret lb
      | Some (inr ((ErrNoResponse | ErrLightBlockNotFound | ErrHeightTooHigh) as e)) =>
          process_responses rs order remove witnessesToRemove (Some e)
      | Some (inr e) => process_responses rs order remove (witnessesToRemove ++ [Z.of_nat i]) (Some e)
      end
  end.

Definition findNewPrimary (height : Z) (remove : bool) : LC LightBlock :=
  c <-- lc_get;
  if len (witnesses c) =? 0 then lc_fail ErrNoWitnesses
  else
    _ <-- lc_put (with_requests c (requests c + length (witnesses c)));
    process_responses (responses height c) (take (length (witnesses c)) (net_responses (requests c))) remove [] None.

Definition lightBlockFromPrimary (height : Z) : LC LightBlock :=
  c <-- lc_get;
  r <-- ask (primary c) height;
  match r with
  | inl l => lc_ret l
  | inr ((ContextCanceled | ContextDeadlineExceeded) as e) => lc_fail (EProvider e)
  | inr (ErrNoResponse | ErrLightBlockNotFound | ErrHeightTooHigh) => findNewPrimary height false
  | inr _ => findNewPrimary height true
  end.

(** ** Verification *)

Definition verifySkippingNumerator : Z := 9.
Definition verifySkippingDenominator : Z := 16.

Definition client_Verify (c : Client) (trusted untrusted : LightBlock) (now : Time) : outcome (option light_error) :=
  tsh ← deref (lb_SignedHeader trusted);
  ush ← deref (lb_SignedHeader untrusted);
  Verify tsh (lb_ValidatorSet trusted) ush (lb_ValidatorSet untrusted) (lc_trustingPeriod c) now (lc_maxClockDrift c) (lc_trustLevel c).

Definition pivot (verified new : Z) : Z :=
  int64 (verified + Z.quot (int64 (int64 (new - verified) * verifySkippingNumerator)) verifySkippingDenominator).

Fixpoint skipping_loop (fuel : nat) (source : nat) (blockCache : list LightBlock) (depth : Z) (verifiedBlock : LightBlock)
    (trace : list LightBlock) (now : Time) : LC (list LightBlock) :=
  match fuel with
  | O => lc_lift (Panic "out of fuel")
  | S fuel =>
      c <-- lc_get;
      current <-- lc_lift (slice_get blockCache depth);
      err <-- lc_lift (client_Verify c verifiedBlock current now);
      vh <-- lc_lift (lb_Height verifiedBlock);
      ch <-- lc_lift (lb_Height current);
      match err with
      | None =>
          if depth =? 0 then lc_ret (trace ++ [current])
          else skipping_loop fuel source (take (Z.to_nat depth) blockCache) 0 current (trace ++ [current]) now
      | Some ((ErrNewValSetCantBeTrusted _ _) as e) =>
          if depth =? len blockCache - 1 then
            r <-- ask source (pivot vh ch);
            match r with
            | inl interimBlock => skipping_loop fuel source ((blockCache ++ [interimBlock]) ++ [interimBlock]) (depth + 1) verifiedBlock trace now
            | inr (ErrLightBlockNotFound | ErrNoResponse | ErrHeightTooHigh) => lc_fail (EVerify e)
            | inr pe => lc_fail (ErrVerificationFailed vh (pivot vh ch) (EProvider pe))
            end
          else skipping_loop fuel source blockCache (depth + 1) verifiedBlock trace now
      | Some e => lc_fail (ErrVerificationFailed vh ch (EVerify e))
      end
  end.

Definition verifySkipping (fuel : nat) (source : nat) (trustedBlock newLightBlock : LightBlock) (now : Time) : LC (list LightBlock) :=
  skipping_loop fuel source [newLightBlock] 0 trustedBlock [trustedBlock] now.

(** ** The detector *)

Definition getTargetBlockOrLatest (height : Z) (witness : nat) : LC (bool * LightBlock + provider_error) :=
  r <-- ask witness 0;
  match r with
  | inr e => lc_ret (inr e)
  | inl lightBlock =>
      h <-- lc_lift (lb_Height lightBlock);
      if h =? height then lc_ret (inl (true, lightBlock))
      else if height <? h then
        r <-- ask witness height;
        lc_ret (match r with inl lb => inl (true, lb) | inr e => inr e end)
      else lc_ret (inl (false, lightBlock))
  end.

(** The messages that the comparison with one witness sends, in order. *)
Definition compare_hashes (l lightBlock : LightBlock) (witnessIndex : Z) : LC (list (option client_error)) :=
  hash <-- lc_lift (lb_Hash l);
  whash <-- lc_lift (lb_Hash lightBlock);
  vals <-- lc_lift (deref (lb_ValidatorSet l));
  wvals <-- lc_lift (deref (lb_ValidatorSet lightBlock));
  lc_ret ((if bool_decide (hash = whash) then [] else [Some (ErrConflictingHeaders lightBlock witnessIndex)]) ++
          (if bool_decide (default [] (ProposerPriorityHash vals) = default [] (ProposerPriorityHash wvals)) then [] else [Some (ErrProposerPrioritiesDiverge witnessIndex)]) ++ [None]).

Definition is_context_error (e : provider_error) : bool :=
  match e with ContextCanceled | ContextDeadlineExceeded => true | _ => false end.

(** Whether a witness whose head is below the target conflicts by its time. *)
Definition conflicting_time (l lightBlock : LightBlock) : LC bool :=
  t <-- lc_lift (lb_Time l);
  wt <-- lc_lift (lb_Time lightBlock);
  lc_ret (negb (time_Before wt t)).

Definition compareNewLightBlockWithWitness (l : LightBlock) (witness : nat) (witnessIndex : Z) : LC (list (option client_error)) :=
  height <-- lc_lift (lb_Height l);
  r <-- ask witness height;
  match r with
  | inl lightBlock => compare_hashes l lightBlock witnessIndex
  | inr ((ErrNoResponse | ErrLightBlockNotFound | ContextDeadlineExceeded | ContextCanceled) as e) => lc_ret [Some (EProvider e)]
  | inr ErrHeightTooHigh =>
      r <-- getTargetBlockOrLatest height witness;
      match r with
      | inr e => lc_ret [Some (EProvider e)]
      | inl (true, lightBlock) => compare_hashes l lightBlock witnessIndex
      | inl (false, lightBlock) =>
          conflict <-- conflicting_time l lightBlock;
          if conflict : bool then lc_ret [Some (ErrConflictingHeaders lightBlock witnessIndex)]
          else
            r <-- getTargetBlockOrLatest height witness;
            match r with
            | inr e => lc_ret [Some (if is_context_error e then EProvider e else ErrBadWitness witnessIndex)]
            | inl (true, lightBlock) => compare_hashes l lightBlock witnessIndex
            | inl (false, lightBlock) =>
                conflict <-- conflicting_time l lightBlock;
                lc_ret [Some (if conflict : bool then ErrConflictingHeaders lightBlock witnessIndex else EProvider ErrNoResponse)]
            end
      end
  | inr _ => lc_ret [Some (ErrBadWitness witnessIndex)]
  end.

Fixpoint compare_all (l : LightBlock) (ws : list nat) (i : Z) : LC (list (list (option client_error))) :=
  match ws with
  | [] => lc_ret []
  | w :: ws =>
      m <-- compareNewLightBlockWithWitness l w i;
      ms <-- compare_all l ws (i + 1);
      lc_ret (m :: ms)
  end.

(** The next message on the channel, by the schedule: the next one of some
    goroutine that still has one to send. *)
Definition next_message (sched : list nat) (msgs : list (list (option client_error)))
    : outcome (option client_error * list nat * list (list (option client_error))) :=
  match sched with
  | [] => Panic "no message arrives"
  | i :: sched => match msgs !! i with Some (m :: rest) => Ret (m, sched, <[i := rest]> msgs) | _ => Panic "no message arrives" end
  end.

Fixpoint examine_loop (fuel : nat) (trace : list LightBlock) (targetBlock : LightBlock) (source : nat)
    (previouslyVerifiedBlock : option LightBlock) (sourceTrace : list LightBlock) (now : Time) : LC (list LightBlock * LightBlock) :=
  match trace with
  | [] => lc_fail ErrNoDivergence
  | traceBlock :: trace =>
      traceHeight <-- lc_lift (lb_Height traceBlock);
      targetHeight <-- lc_lift (lb_Height targetBlock);
      if targetHeight <? traceHeight then
        traceTime <-- lc_lift (lb_Time traceBlock);
        targetTime <-- lc_lift (lb_Time targetBlock);
        if time_After traceTime targetTime then lc_fail ErrTraceTime
        else
          prev <-- lc_lift (deref previouslyVerifiedBlock);
          prevHeight <-- lc_lift (lb_Height prev);
          sourceTrace <-- (if prevHeight =? targetHeight then lc_ret sourceTrace else verifySkipping fuel source prev targetBlock now);
          lc_ret (sourceTrace, traceBlock)
      else
        sourceBlock <-- (if traceHeight =? targetHeight then lc_ret targetBlock
                         else r <-- ask source traceHeight; match r with inl b => lc_ret b | inr e => lc_fail (EProvider e) end);
        match previouslyVerifiedBlock with
        | None =>
            shash <-- lc_lift (lb_Hash sourceBlock);
            thash <-- lc_lift (lb_Hash traceBlock);
            if bool_decide (shash = thash) then examine_loop fuel trace targetBlock source (Some sourceBlock) sourceTrace now
            else lc_fail ErrOtherFirstBlock
        | Some prev =>
            sourceTrace <-- verifySkipping fuel source prev sourceBlock now;
            shash <-- lc_lift (lb_Hash sourceBlock);
            thash <-- lc_lift (lb_Hash traceBlock);
            if bool_decide (shash = thash) then examine_loop fuel trace targetBlock source (Some sourceBlock) sourceTrace now
            else lc_ret (sourceTrace, traceBlock)
        end
  end.

Definition examineConflictingHeaderAgainstTrace (fuel : nat) (trace : list LightBlock) (targetBlock : LightBlock) (source : nat)
    (now : Time) : LC (list LightBlock * LightBlock) :=
  first <-- lc_lift (slice_get trace 0);
  firstHeight <-- lc_lift (lb_Height first);
  targetHeight <-- lc_lift (lb_Height targetBlock);
  if targetHeight <? firstHeight then lc_fail ErrTargetTooLow
  else examine_loop fuel trace targetBlock source None [] now.

Definition sendEvidence (ev : LightClientAttackEvidence) (receiver : nat) : LC unit :=
  c <-- lc_get; lc_put (with_report c (receiver, ev)).

(** The evidence that a trace gives against a block. *)
Definition report_against (conflicted : LightBlock) (trace : list LightBlock) (receiver : nat) : LC unit :=
  commonBlock <-- lc_lift (slice_get trace 0);
  trustedBlock <-- lc_lift (slice_get trace (len trace - 1));
  ev <-- lc_lift (newLightClientAttackEvidence conflicted trustedBlock commonBlock);
  sendEvidence ev receiver.

(** [None] when the witness could not support its header. *)
Definition handleConflictingHeaders (fuel : nat) (primaryTrace : list LightBlock) (challengingBlock : LightBlock) (witnessIndex : Z)
    (now : Time) : LC (option client_error) :=
  c <-- lc_get;
  supportingWitness <-- lc_lift (slice_get (witnesses c) witnessIndex);
  r <-- lc_try (examineConflictingHeaderAgainstTrace fuel primaryTrace challengingBlock supportingWitness now);
  match r with
  | inr _ => lc_ret None
  | inl (witnessTrace, primaryBlock) =>
      _ <-- report_against primaryBlock witnessTrace supportingWitness;
      r <-- lc_try (examineConflictingHeaderAgainstTrace fuel witnessTrace primaryBlock (primary c) now);
      match r with
      | inr _ => lc_ret (Some ErrLightClientAttack)
      | inl (primaryTrace, witnessBlock) =>
          _ <-- report_against witnessBlock primaryTrace (primary c);
          lc_ret (Some ErrLightClientAttack)
      end
  end.

(** As many messages are received as there are witnesses. *)
Fixpoint detect_loop (fuel n : nat) (sched : list nat) (msgs : list (list (option client_error))) (primaryTrace : list LightBlock)
    (headerMatched : bool) (witnessesToRemove : list Z) (now : Time) : LC (bool * list Z) :=
  match n with
  | O => lc_ret (headerMatched, witnessesToRemove)
  | S n =>
      '(m, sched, msgs) <-- lc_lift (next_message sched msgs);
      match m with
      | None => detect_loop fuel n sched msgs primaryTrace true witnessesToRemove now
      | Some (ErrConflictingHeaders b i) =>
          r <-- handleConflictingHeaders fuel primaryTrace b i now;
          match r with
          | Some e => lc_fail e
          | None => detect_loop fuel n sched msgs primaryTrace headerMatched (witnessesToRemove ++ [i]) now
          end
      | Some (ErrBadWitness i) => detect_loop fuel n sched msgs primaryTrace headerMatched (witnessesToRemove ++ [i]) now
      | Some (ErrProposerPrioritiesDiverge i) => lc_fail (ErrProposerPrioritiesDiverge i)
      | Some (EProvider e) =>
          if is_context_error e then lc_fail (EProvider e)
          else detect_loop fuel n sched msgs primaryTrace headerMatched witnessesToRemove now
      | Some _ => detect_loop fuel n sched msgs primaryTrace headerMatched witnessesToRemove now
      end
  end.

(** A nil trace is empty. *)
Definition detectDivergence (fuel : nat) (primaryTrace : list LightBlock) (now : Time) : LC unit :=
  match last primaryTrace with
  | None => lc_fail ErrNilTrace
  | Some lastVerifiedBlock =>
      if len primaryTrace <? 2 then lc_fail ErrNilTrace
      else
        c <-- lc_get;
        if len (witnesses c) =? 0 then lc_fail ErrNoWitnesses
        else
          msgs <-- compare_all lastVerifiedBlock (witnesses c) 0;
          '(headerMatched, witnessesToRemove) <--
            detect_loop fuel (length (witnesses c)) (net_messages (requests c)) msgs primaryTrace false [] now;
          _ <-- removeWitnesses witnessesToRemove;
          if headerMatched : bool then lc_ret tt else lc_fail ErrFailedHeaderCrossReferencing
  end.

(** ** Verifying a light block *)

Fixpoint sequential_loop (fuel : nat) (height : Z) (verifiedBlock : LightBlock) (trace : list LightBlock) (newLightBlock : LightBlock)
    (now : Time) : LC (list LightBlock) :=
  match fuel with
  | O => lc_lift (Panic "out of fuel")
  | S fuel =>
      newHeight <-- lc_lift (lb_Height newLightBlock);
      vh <-- lc_lift (lb_Height verifiedBlock);
      if newHeight <? height then lc_ret trace
      else
        interimBlock <-- (if height =? newHeight then lc_ret newLightBlock
                          else r <-- lc_try (lightBlockFromPrimary height);
                               match r with inl b => lc_ret b | inr e => lc_fail (ErrVerificationFailed vh height e) end);
        ih <-- lc_lift (lb_Height interimBlock);
        c <-- lc_get;
        vsh <-- lc_lift (deref (lb_SignedHeader verifiedBlock));
        ish <-- lc_lift (deref (lb_SignedHeader interimBlock));
        err <-- lc_lift (VerifyAdjacent vsh ish (lb_ValidatorSet interimBlock) (lc_trustingPeriod c) now (lc_maxClockDrift c));
        match err with
        | None => sequential_loop fuel (int64 (height + 1)) interimBlock (trace ++ [interimBlock]) newLightBlock now
        | Some e =>
            let err := ErrVerificationFailed vh ih (EVerify e) in
            match e with
            | ErrInvalidHeader _ =>
                if ih =? newHeight then lc_fail err
                else
                  r <-- lc_try (findNewPrimary newHeight true);
                  match r with
                  | inr _ => lc_fail err
                  | inl replacementBlock =>
                      rhash <-- lc_lift (lb_Hash replacementBlock);
                      nhash <-- lc_lift (lb_Hash newLightBlock);
                      if bool_decide (rhash = nhash) then sequential_loop fuel height verifiedBlock trace newLightBlock now
                      else lc_fail err
                  end
            | _ => lc_fail err
            end
        end
  end.

Definition verifySequential (fuel : nat) (trustedBlock newLightBlock : LightBlock) (now : Time) : LC unit :=
  th <-- lc_lift (lb_Height trustedBlock);
  trace <-- sequential_loop fuel (int64 (th + 1)) trustedBlock [trustedBlock] newLightBlock now;
  detectDivergence fuel trace now.

Fixpoint verifySkippingAgainstPrimary (fuel : nat) (trustedBlock newLightBlock : LightBlock) (now : Time) : LC unit :=
  match fuel with
  | O => lc_lift (Panic "out of fuel")
  | S fuel =>
      c <-- lc_get;
      r <-- lc_try (verifySkipping fuel (primary c) trustedBlock newLightBlock now);
      match r with
      | inl trace => detectDivergence fuel trace now
      | inr ((ErrVerificationFailed _ to (EVerify (ErrInvalidHeader _))) as err) =>
          newHeight <-- lc_lift (lb_Height newLightBlock);
          if to =? newHeight then lc_fail err
          else
            r <-- lc_try (findNewPrimary newHeight true);
            match r with
            | inr _ => lc_fail err
            | inl replacementBlock =>
                rhash <-- lc_lift (lb_Hash replacementBlock);
                nhash <-- lc_lift (lb_Hash newLightBlock);
                if bool_decide (rhash = nhash) then verifySkippingAgainstPrimary fuel trustedBlock replacementBlock now
                else lc_fail err
            end
      | inr ((ErrVerificationFailed _ _ _) as err) => lc_fail err
      | inr _ => detectDivergence fuel [] now
      end
  end.

Fixpoint backwards (fuel : nat) (verifiedHeader newHeader : Header) : LC unit :=
  match fuel with
  | O => lc_lift (Panic "out of fuel")
  | S fuel =>
      if h_Height verifiedHeader <=? h_Height newHeader then lc_ret tt
      else
        interimBlock <-- lightBlockFromPrimary (int64 (h_Height verifiedHeader - 1));
        interimHeader <-- lc_lift (lb_Header interimBlock);
        err <-- lc_lift (VerifyBackwards interimHeader verifiedHeader);
        match err with
        | None => backwards fuel interimHeader newHeader
        | Some e =>
            r <-- lc_try (findNewPrimary (h_Height newHeader) true);
            match r with
            | inr _ => lc_fail (EVerify e)
            | inl newPrimarysBlock =>
                phash <-- lc_lift (lb_Hash newPrimarysBlock);
                nhash <-- lc_lift (Header_Hash newHeader);
                if bool_decide (phash = nhash) then
                  ph <-- lc_lift (lb_Header newPrimarysBlock);
                  backwards fuel verifiedHeader ph
                else lc_fail (EVerify e)
            end
        end
  end.

Definition updateTrustedLightBlock (l : LightBlock) : LC unit :=
  c <-- lc_get;
  '(s, err) <-- lc_lift (SaveLightBlock (trustedStore c) l);
  match err with
  | Some e => lc_fail (EStore e)
  | None =>
      let s := if 0 <? pruningSize c then Prune s (pruningSize c) else s in
      lh <-- lc_lift (lb_Height l);
      newer <-- lc_lift (match latestTrustedBlock c with None => Ret true | Some t => th ← lb_Height t; Ret (th <? lh) end);
      lc_put (with_trusted c s (if newer : bool then Some l else latestTrustedBlock c))
  end.

Definition store_result {A} (r : A + store_error) : LC A :=
  match r with inl x => lc_ret x | inr e => lc_fail (EStore e) end.

Definition verifyLightBlock (fuel : nat) (newLightBlock : LightBlock) (now : Time) : LC unit :=
  c <-- lc_get;
  let verifyFunc := match verificationMode c with sequential => verifySequential fuel | skipping => verifySkippingAgainstPrimary fuel end in
  let firstBlockHeight := FirstLightBlockHeight (trustedStore c) in
  newHeight <-- lc_lift (lb_Height newLightBlock);
  latest <-- lc_lift (deref (latestTrustedBlock c));
  latestHeight <-- lc_lift (lb_Height latest);
  _ <-- (if latestHeight <=? newHeight then verifyFunc latest newLightBlock now
         else if newHeight <? firstBlockHeight then
           r <-- lc_lift (dbs_LightBlock (trustedStore c) firstBlockHeight);
           firstBlock <-- store_result r;
           fh <-- lc_lift (lb_Header firstBlock);
           nh <-- lc_lift (lb_Header newLightBlock);
           backwards fuel fh nh
         else
           r <-- lc_lift (LightBlockBefore (trustedStore c) newHeight);
           closestBlock <-- store_result r;
           verifyFunc closestBlock newLightBlock now);
  updateTrustedLightBlock newLightBlock.

Definition compareWithLatestHeight (height : Z) : LC Z :=
  c <-- lc_get;
  let latestHeight := LastLightBlockHeight (trustedStore c) in
  if latestHeight =? -1 then lc_fail ErrNoHeaders
  else if latestHeight <? height then lc_fail ErrUnverifiedRequested
  else if height =? 0 then lc_ret latestHeight
  else if height <? 0 then lc_fail ErrNegativeHeight
  else lc_ret height.

Definition TrustedLightBlock (height : Z) : LC LightBlock :=
  height <-- compareWithLatestHeight height;
  c <-- lc_get;
  r <-- lc_lift (dbs_LightBlock (trustedStore c) height);
  store_result r.

Definition VerifyLightBlockAtHeight (fuel : nat) (height : Z) (now : Time) : LC LightBlock :=
  if height <=? 0 then lc_fail ErrNegativeHeight
  else
    r <-- lc_try (TrustedLightBlock height);
    match r with
    | inl h => lc_ret h
    | inr _ =>
        l <-- lightBlockFromPrimary height;
        _ <-- verifyLightBlock fuel l now;
        lc_ret l
    end.

Definition client_Update (fuel : nat) (now : Time) : LC (option LightBlock) :=
  c <-- lc_get;
  let lastTrustedHeight := LastLightBlockHeight (trustedStore c) in
  if lastTrustedHeight =? -1 then lc_ret None
  else
    latestBlock <-- lightBlockFromPrimary 0;
    h <-- lc_lift (lb_Height latestBlock);
    if lastTrustedHeight <? h then
      _ <-- verifyLightBlock fuel latestBlock now;
      lc_ret (Some latestBlock)
    else lc_ret None.

Definition VerifyHeader (fuel : nat) (newHeader : Header) (now : Time) : LC unit :=
  if h_Height newHeader <=? 0 then lc_fail ErrNegativeHeight
  else
    nhash <-- lc_lift (Header_Hash newHeader);
    r <-- lc_try (TrustedLightBlock (h_Height newHeader));
    match r with
    | inl l =>
        lhash <-- lc_lift (lb_Hash l);
        if bool_decide (lhash = nhash) then lc_ret tt else lc_fail ErrHeaderMismatch
    | inr _ =>
        l <-- lightBlockFromPrimary (h_Height newHeader);
        lhash <-- lc_lift (lb_Hash l);
        if bool_decide (lhash = nhash) then verifyLightBlock fuel l now else lc_fail ErrHeaderMismatch
    end.

(** ** Starting a client *)

Definition restoreTrustedLightBlock : LC unit :=
  c <-- lc_get;
  let lastHeight := LastLightBlockHeight (trustedStore c) in
  if 0 <? lastHeight then
    r <-- lc_lift (dbs_LightBlock (trustedStore c) lastHeight);
    trustedBlock <-- store_result r;
    lc_put (with_trusted c (trustedStore c) (Some trustedBlock))
  else lc_ret tt.

Definition Cleanup : LC unit := c <-- lc_get; lc_put (with_trusted c (Prune (trustedStore c) 0) None).

Fixpoint cleanup_loop (fuel : nat) (s : dbs) (prevHeight height : Z) : outcome dbs :=
  match fuel with
  | O => Panic "out of fuel"
  | S fuel =>
      r ← LightBlockBefore s prevHeight;
      match r with
      | inr _ => Ret s
      | inl b =>
          h ← lb_Height b;
          if h <=? height then Ret s
          else s ← DeleteLightBlock s h; cleanup_loop fuel s h height
      end
  end.

(** Every round but the last deletes a block. *)
Definition cleanupAfter (height : Z) : LC unit :=
  c <-- lc_get;
  latest <-- lc_lift (deref (latestTrustedBlock c));
  prevHeight <-- lc_lift (lb_Height latest);
  s <-- lc_lift (cleanup_loop (S (size (ts_blocks (trustedStore c)))) (trustedStore c) prevHeight height);
  _ <-- lc_put (with_trusted c s None);
  restoreTrustedLightBlock.

Record TrustOptions := mkTrustOptions { to_Period : Z; to_Height : Z; to_Hash : bytes }.
Definition TrustOptions_ValidateBasic (opts : TrustOptions) : bool :=
  negb (to_Period opts <=? 0) && negb (to_Height opts <=? 0) && (len (to_Hash opts) =? tmhash_Size).

(** The last part: the hash the primary or the options have for the latest
    trusted block. *)
Definition check_latest_hash (primaryHash : bytes) : LC unit :=
  c <-- lc_get;
  latest <-- lc_lift (deref (latestTrustedBlock c));
  hash <-- lc_lift (lb_Hash latest);
  if bool_decide (primaryHash = hash) then lc_ret tt
  else if net_confirm (requests c) then Cleanup
  else lc_fail ErrRefusedCleanup.

Definition checkTrustedHeaderUsingOptions (options : TrustOptions) : LC unit :=
  c <-- lc_get;
  latest <-- lc_lift (deref (latestTrustedBlock c));
  latestHeight <-- lc_lift (lb_Height latest);
  if latestHeight <? to_Height options then
    h <-- lightBlockFromPrimary latestHeight;
    primaryHash <-- lc_lift (lb_Hash h);
    check_latest_hash primaryHash
  else if to_Height options =? latestHeight then check_latest_hash (to_Hash options)
  else if net_confirm (requests c) then
    _ <-- cleanupAfter (to_Height options);
    check_latest_hash (to_Hash options)
  else lc_ret tt.

(** The messages of the comparison with the witnesses; the first conflict
    ends it. *)
Fixpoint first_loop (n : nat) (sched : list nat) (msgs : list (list (option client_error))) (witnessesToRemove : list Z) : LC (list Z) :=
  match n with
  | O => lc_ret witnessesToRemove
  | S n =>
      '(m, sched, msgs) <-- lc_lift (next_message sched msgs);
      match m with
      | None => first_loop n sched msgs witnessesToRemove
      | Some ((ErrConflictingHeaders _ _ | ErrProposerPrioritiesDiverge _) as e) => lc_fail e
      | Some (ErrBadWitness i) => first_loop n sched msgs (witnessesToRemove ++ [i])
      | Some (EProvider e) => if is_context_error e then lc_fail (EProvider e) else first_loop n sched msgs witnessesToRemove
      | Some _ => first_loop n sched msgs witnessesToRemove
      end
  end.

Definition compareFirstLightBlockWithWitnesses (l : LightBlock) : LC unit :=
  c <-- lc_get;
  if len (witnesses c) =? 0 then lc_fail ErrNoWitnesses
  else
    msgs <-- compare_all l (witnesses c) 0;
    witnessesToRemove <-- first_loop (length (witnesses c)) (net_messages (requests c)) msgs [];
    _ <-- lc_try (removeWitnesses witnessesToRemove);
    lc_ret tt.

Definition initializeWithTrustOptions (options : TrustOptions) : LC unit :=
  l <-- lightBlockFromPrimary (to_Height options);
  c <-- lc_get;
  err <-- lc_lift (LightBlock_ValidateBasic l (lc_chainID c));
  match err with
  | Some e => lc_fail (ErrInvalidLightBlock e)
  | None =>
      hash <-- lc_lift (lb_Hash l);
      if negb (bool_decide (hash = to_Hash options)) then lc_fail ErrWrongTrustedHash
      else
        commit <-- lc_lift (lb_Commit l);
        height <-- lc_lift (lb_Height l);
        err <-- lc_lift (VerifyCommitLight (lc_chainID c) (lb_ValidatorSet l) (commit_BlockID commit) height (Some commit));
        match err with
        | Some e => lc_fail (ErrInvalidFirstCommit e)
        | None =>
            _ <-- compareFirstLightBlockWithWitnesses l;
            updateTrustedLightBlock l
        end
  end.

(** The options set the mode, the trust level, the drift and the pruning
    size; the configured client is [c]. *)
Definition NewClientFromTrustedStore : LC unit :=
  c <-- lc_get;
  if len (witnesses c) =? 0 then lc_fail ErrNoWitnesses
  else if negb (forallb (λ w, bool_decide (net_ChainID w = lc_chainID c)) (witnesses c)) then lc_fail ErrWitnessChain
  else if negb (ValidateTrustLevel (lc_trustLevel c)) then lc_fail ErrTrustLevel
  else restoreTrustedLightBlock.

Definition NewClient (trustOptions : TrustOptions) : LC unit :=
  if negb (TrustOptions_ValidateBasic trustOptions) then lc_fail ErrTrustOptions
  else
    _ <-- NewClientFromTrustedStore;
    c <-- lc_get;
    _ <-- (match latestTrustedBlock c with Some _ => checkTrustedHeaderUsingOptions trustOptions | None => lc_ret tt end);
    c <-- lc_get;
    init <-- lc_lift (match latestTrustedBlock c with
                      | None => Ret true
                      | Some b => h ← lb_Height b; Ret (h <? to_Height trustOptions)
                      end);
    if init : bool then initializeWithTrustOptions trustOptions else lc_ret tt.
End client.
