(* ===== verification/LightSafety.v ===== *)
(** * Safety of light verification

    A header that passes [Verify] against a trusted header of the chain is a
    header of the chain, when less than a third of the power of every
    validator set of the chain is faulty and the others sign only blocks of
    the chain; or a collision of the hash function can be read off. *)
From S2P Require Import Prelude.
From S2P Require Import SafeMath.
From S2P Require Import Vote.
From S2P Require Import Validator.
From S2P Require Import ValidatorSet.
From S2P Require Import ValidatorSetPriority.
From S2P Require Import Quorum.
From S2P Require Import SignBytes.
From S2P Require Import Validation.
From S2P Require Import CommitSafety.
From S2P Require Import CommitTheorems.
From S2P Require Import Merkle.
From S2P Require Import Block.
From S2P Require Import BlockProofs.
From S2P Require Import LightVerifier.

(** ** What success of the checks means *)

Lemma first_bad_sig_none i sigs : first_bad_sig i sigs = None → Forall (λ cs, CommitSig_ValidateBasic cs = None) sigs.
Proof.
  revert i. induction sigs as [|cs sigs IH]; intros i R; [by constructor|]. simpl in R.
  destruct (CommitSig_ValidateBasic cs) eqn:E; [done|]. constructor; [done|by eapply IH].
Qed.

Section inversion.
Context `{StdTime, BatchLaws}.

Lemma SignedHeader_ValidateBasic_inv sh chainID :
  SignedHeader_ValidateBasic sh chainID = Ret None → ∃ h commit,
    sh = mkSignedHeader (Some h) (Some commit) ∧ Header_ValidateBasic h = None ∧ Commit_ValidateBasic commit = None ∧
    h_ChainID h = chainID ∧ commit_Height commit = h_Height h ∧ Header_Hash h = Ret (BlockHash (commit_BlockID commit)).
Proof using.
  unfold SignedHeader_ValidateBasic. destruct sh as [[h|] [commit|]]; cbn [sh_Header sh_Commit]; [|done..].
  destruct (Header_ValidateBasic h) eqn:Hh; [done|]. destruct (Commit_ValidateBasic commit) eqn:Hc; [done|].
  case_bool_decide as Hid; cbn [negb]; [|done]. destruct (Z.eqb_spec (commit_Height commit) (h_Height h)); cbn [negb]; [|done].
  intros R. bind_split R hash Hhash. case_bool_decide; [|done]. subst hash. exists h, commit. done.
Qed.

Lemma verifyNewHeaderAndVals_inv sh vals trusted now drift :
  verifyNewHeaderAndVals sh vals trusted now drift = Ret None → ∃ h commit vs,
    sh = mkSignedHeader (Some h) (Some commit) ∧ vals = Some vs ∧
    h_ChainID h = h_ChainID trusted ∧ commit_Height commit = h_Height h ∧ Header_Hash h = Ret (BlockHash (commit_BlockID commit)) ∧
    0 < h_Height h ∧ h_Height trusted < h_Height h ∧ time_After (h_Time h) (h_Time trusted) = true ∧
    ValidatorSet_Hash vs = Ret (h_ValidatorsHash h).
Proof using.
  unfold verifyNewHeaderAndVals. intros R. bind_split R err Herr. destruct err as [e|]; [done|].
  apply SignedHeader_ValidateBasic_inv in Herr as (h & commit & -> & Hb & _ & Hid & Hch & Hhash). cbn [deref sh_Header mbind outcome_bind] in R.
  destruct (Z.leb_spec (h_Height h) (h_Height trusted)); [done|].
  destruct (time_After (h_Time h) (h_Time trusted)) eqn:Ht; cbn [negb] in R; [|done]. destruct (time_Before _ _); cbn [negb] in R; [|done].
  destruct vals as [vs|]; cbn [deref mbind outcome_bind] in R; [|done]. bind_split R vh Hvh. case_bool_decide; [|done]. subst vh.
  exists h, commit, vs. split_and!; try done. unfold Header_ValidateBasic in Hb.
  repeat (case_match; [done|]). lia.
Qed.

Lemma verify_new_commit_inv trusted h commit vals :
  verify_new_commit trusted (mkSignedHeader (Some h) (Some commit)) vals = Ret None →
  VerifyCommitLight (h_ChainID trusted) vals (commit_BlockID commit) (h_Height h) (Some commit) = Ret None.
Proof using.
  unfold verify_new_commit. cbn [sh_Header sh_Commit deref mbind outcome_bind]. intros R. bind_split R err Herr. by destruct err.
Qed.

(** A verified pair: the new header is basically valid, later and higher; its
    validators are known in advance, or the trusted ones vouch for it. *)
Lemma Verify_inv tsh tvals ush uvals period now drift lvl :
  Verify tsh tvals ush uvals period now drift lvl = Ret None → ∃ th h commit vs,
    sh_Header tsh = Some th ∧ ush = mkSignedHeader (Some h) (Some commit) ∧ uvals = Some vs ∧
    h_ChainID h = h_ChainID th ∧ commit_Height commit = h_Height h ∧ Header_Hash h = Ret (BlockHash (commit_BlockID commit)) ∧
    0 < h_Height h ∧ h_Height th < h_Height h ∧ ValidatorSet_Hash vs = Ret (h_ValidatorsHash h) ∧
    VerifyCommitLight (h_ChainID th) uvals (commit_BlockID commit) (h_Height h) (Some commit) = Ret None ∧
    ((h_Height h = int64 (h_Height th + 1) ∧ h_ValidatorsHash h = h_NextValidatorsHash th) ∨
     VerifyCommitLightTrusting (h_ChainID th) tvals (Some commit) lvl = Ret None).
Proof using.
  unfold Verify. intros R. bind_split R uh Huh. bind_split R th Hth. destruct (sh_Header tsh) as [th'|] eqn:Et; [|done].
  injection Hth as ->. destruct (Z.eqb_spec (h_Height uh) (int64 (h_Height th + 1))) as [Hadj|Hadj]; cbn [negb] in R.
  - unfold VerifyAdjacent in R. rewrite Et in R. rewrite Huh in R. cbn [deref mbind outcome_bind] in R. rewrite Hadj, Z.eqb_refl in R. cbn [negb] in R.
    destruct (HeaderExpired _ _ _); [done|]. bind_split R err Herr. destruct err; [done|].
    apply verifyNewHeaderAndVals_inv in Herr as (h & commit & vs & -> & -> & ? & ? & ? & ? & ? & _ & ?).
    cbn [sh_Header deref] in Huh. injection Huh as <-. case_bool_decide; [|done].
    exists th, h, commit, vs. split_and!; try done. { by apply verify_new_commit_inv. } by left.
  - unfold VerifyNonAdjacent in R. rewrite Et in R. rewrite Huh in R. cbn [deref mbind outcome_bind] in R.
    destruct (Z.eqb_spec (h_Height uh) (int64 (h_Height th + 1))); [done|].
    destruct (HeaderExpired _ _ _); [done|]. bind_split R err Herr. destruct err; [done|].
    apply verifyNewHeaderAndVals_inv in Herr as (h & commit & vs & -> & -> & ? & ? & ? & ? & ? & _ & ?).
    bind_split R err Herr. destruct err as [e|]; [by destruct e|].
    exists th, h, commit, vs. split_and!; try done. { by apply verify_new_commit_inv. } by right.
Qed.

(** The signature of an entry, as a vote. *)
Lemma signed_inv chainID commit i v cs :
  len (commit_Signatures commit) ≤ MaxInt32 → commit_Signatures commit !! i = Some cs → is_commit cs = true →
  signed chainID commit i v cs = true →
  ∃ pk bz, PubKey_ v = Some pk ∧
    VoteSignBytes chainID (mkVote PrecommitType (commit_Height commit) (commit_Round commit) (commit_BlockID commit)
      (cs_Timestamp cs) (cs_ValidatorAddress cs) (Z.of_nat i) (cs_Signature cs) [] []) = Ret bz ∧
    verify_signature pk bz (cs_Signature cs) = true.
Proof using.
  intros Hl Hcs Hc Hs. unfold signed, Commit_VoteSignBytes, Commit_GetVote in Hs. pose proof (lookup_lt_Some _ _ _ Hcs).
  rewrite int32_id in Hs by (unfold len in Hl; ulia).
  assert (slice_get (commit_Signatures commit) (Z.of_nat i) = Ret cs) as Hg by (apply slice_get_ret; rewrite Nat2Z.id; split; [lia|done]).
  rewrite Hg in Hs. cbn [mbind outcome_bind] in Hs. unfold CommitSig_BlockID in Hs. fold (is_absent cs) (is_commit cs) in Hs.
  rewrite is_commit_present, Hc in Hs by done. cbn [mbind outcome_bind] in Hs.
  destruct (PubKey_ v) as [pk|] eqn:Hpk; [|done]. destruct (VoteSignBytes _ _) as [bz|] eqn:Hbz; [|done]. exists pk, bz. done.
Qed.

(** ** Commits with signatures that cannot be encoded

    [Commit.ValidateBasic] checks neither the block id nor the timestamps;
    the sign bytes of a vote with a part set hash of a wrong length, or with
    a time before the year 1, make the verification panic.  A commit is
    accepted only if the commit without those signatures is. *)
Definition mask_sig chainID commit (i : nat) (cs : CommitSig) : CommitSig :=
  match Commit_VoteSignBytes commit chainID (int32 (Z.of_nat i)) with Ret _ => cs | Panic _ => NewCommitSigAbsent end.
Definition mask chainID commit : Commit :=
  mkCommit (commit_Height commit) (commit_Round commit) (commit_BlockID commit) (imap (mask_sig chainID commit) (commit_Signatures commit)).

Lemma mask_bytes chainID commit i cs :
  len (commit_Signatures commit) ≤ MaxInt32 → commit_Signatures commit !! i = Some cs → mask_sig chainID commit i cs = cs →
  Commit_VoteSignBytes (mask chainID commit) chainID (int32 (Z.of_nat i)) = Commit_VoteSignBytes commit chainID (int32 (Z.of_nat i)).
Proof using.
  intros Hl Hcs Hm. pose proof (lookup_lt_Some _ _ _ Hcs). rewrite int32_id by (unfold len in Hl; ulia).
  unfold Commit_VoteSignBytes, Commit_GetVote. cbn [commit_Signatures mask].
  assert (∀ l, l !! i = Some cs → slice_get l (Z.of_nat i) = Ret cs) as Hg by (intros l Hi; apply slice_get_ret; rewrite Nat2Z.id; split; [lia|done]).
  rewrite !Hg; [done|done|]. by rewrite list_lookup_imap, Hcs; simpl; rewrite Hm.
Qed.

Lemma mask_present chainID commit i cs :
  len (commit_Signatures commit) ≤ MaxInt32 → commit_Signatures (mask chainID commit) !! i = Some cs → is_absent cs = false →
  commit_Signatures commit !! i = Some cs ∧ ∃ m, Commit_VoteSignBytes commit chainID (int32 (Z.of_nat i)) = Ret m ∧
    Commit_VoteSignBytes (mask chainID commit) chainID (int32 (Z.of_nat i)) = Ret m.
Proof using.
  intros Hl Hcs Ha. cbn [commit_Signatures mask] in Hcs. rewrite list_lookup_imap in Hcs.
  destruct (commit_Signatures commit !! i) as [cs0|] eqn:Hi; [|done]. simpl in Hcs. injection Hcs as Hcs.
  pose proof (mask_bytes chainID commit i cs0 Hl Hi) as Hb. unfold mask_sig in *.
  destruct (Commit_VoteSignBytes commit chainID _) as [m|]; [|by subst cs]. subst cs0. split; [done|]. exists m. by rewrite Hb.
Qed.

Section masked_loops.
Context (chainID : bytes) (vals : ValidatorSet) (commit : Commit) (needed : Z) (countSig : CommitSig → bool) (countAll byIndex : bool)
  (Hl : len (commit_Signatures commit) ≤ MaxInt32).
Abbreviation light := (λ c, negb (is_commit c)).

Lemma single_loop_mask sigs i seen t :
  (∀ j cs, sigs !! j = Some cs → commit_Signatures commit !! (i + j)%nat = Some cs) →
  single_loop chainID vals commit needed light countSig countAll byIndex sigs (Z.of_nat i) seen t = Ret None →
  single_loop chainID vals (mask chainID commit) needed light countSig countAll byIndex
    (imap (λ j, mask_sig chainID commit (i + j)) sigs) (Z.of_nat i) seen t = Ret None.
Proof using Hl.
  revert i seen t. induction sigs as [|cs sigs IH]; intros i seen t Hs R; [done|]. rewrite imap_cons, Nat.add_0_r.
  assert (∀ seen' t', single_loop chainID vals commit needed light countSig countAll byIndex sigs (Z.of_nat i + 1) seen' t' = Ret None →
    single_loop chainID vals (mask chainID commit) needed light countSig countAll byIndex
      (imap ((λ j, mask_sig chainID commit (i + j)) ∘ S) sigs) (Z.of_nat i + 1) seen' t' = Ret None) as Hnext.
  { intros seen' t'. replace (Z.of_nat i + 1) with (Z.of_nat (S i)) by lia. intros R'.
    erewrite imap_ext; [apply IH; [|exact R']|intros j x _; cbn; by rewrite Nat.add_succ_r].
    intros j x Hj. rewrite Nat.add_succ_comm. by apply (Hs (S j)). }
  pose proof (Hs 0%nat cs eq_refl) as Hi. rewrite Nat.add_0_r in Hi. pose proof (mask_bytes chainID commit i cs Hl Hi) as Hb.
  cbn [single_loop] in R |- *. unfold mask_sig in *. destruct (Commit_VoteSignBytes commit chainID _) as [m|] eqn:Hm.
  - rewrite (Hb eq_refl). destruct (negb (is_commit cs)); [by apply Hnext|]. destruct (bool_decide _); [done|].
    bind_split R f Hf. rewrite Hf. cbn [mbind outcome_bind]. destruct f; [|by apply Hnext|done]. destruct (PubKey_ val); [|done].
    cbn [mbind outcome_bind] in R |- *. destruct (negb (verify_signature _ _ _)); [done|]. destruct (negb countAll && _); [done|by apply Hnext].
  - change (negb (is_commit NewCommitSigAbsent)) with true. cbv iota. destruct (negb (is_commit cs)); [by apply Hnext|].
    destruct (bool_decide _); [done|]. bind_split R f Hf. destruct f; [|by apply Hnext|done]. by destruct (PubKey_ val).
Qed.

Lemma batch_loop_mask ty sigs i seen batch t r :
  (∀ j cs, sigs !! j = Some cs → commit_Signatures commit !! (i + j)%nat = Some cs) →
  batch_loop chainID vals commit needed light countSig countAll byIndex ty sigs (Z.of_nat i) seen batch t = Ret (inl r) →
  batch_loop chainID vals (mask chainID commit) needed light countSig countAll byIndex ty
    (imap (λ j, mask_sig chainID commit (i + j)) sigs) (Z.of_nat i) seen batch t = Ret (inl r).
Proof using Hl.
  revert i seen batch t. induction sigs as [|cs sigs IH]; intros i seen batch t Hs R; [done|]. rewrite imap_cons, Nat.add_0_r.
  assert (∀ seen' b' t', batch_loop chainID vals commit needed light countSig countAll byIndex ty sigs (Z.of_nat i + 1) seen' b' t' = Ret (inl r) →
    batch_loop chainID vals (mask chainID commit) needed light countSig countAll byIndex ty
      (imap ((λ j, mask_sig chainID commit (i + j)) ∘ S) sigs) (Z.of_nat i + 1) seen' b' t' = Ret (inl r)) as Hnext.
  { intros seen' b' t'. replace (Z.of_nat i + 1) with (Z.of_nat (S i)) by lia. intros R'.
    erewrite imap_ext; [apply IH; [|exact R']|intros j x _; cbn; by rewrite Nat.add_succ_r].
    intros j x Hj. rewrite Nat.add_succ_comm. by apply (Hs (S j)). }
  pose proof (Hs 0%nat cs eq_refl) as Hi. rewrite Nat.add_0_r in Hi. pose proof (mask_bytes chainID commit i cs Hl Hi) as Hb.
  cbn [batch_loop] in R |- *. unfold mask_sig in *. destruct (Commit_VoteSignBytes commit chainID _) as [m|] eqn:Hm.
  - rewrite (Hb eq_refl). destruct (negb (is_commit cs)); [by apply Hnext|].
    bind_split R f Hf. rewrite Hf. cbn [mbind outcome_bind]. destruct f; [|by apply Hnext|done].
    cbn [mbind outcome_bind] in R |- *. destruct (PubKey_ val); [|done]. destruct (negb (batch_add _ _ _ _)); [done|].
    destruct (negb countAll && _); [done|by apply Hnext].
  - change (negb (is_commit NewCommitSigAbsent)) with true. cbv iota. destruct (negb (is_commit cs)); [by apply Hnext|].
    bind_split R f Hf. by destruct f; [|apply Hnext|].
Qed.

Lemma verify_with_mask :
  verify_with chainID vals commit needed light countSig countAll byIndex = Ret None →
  verify_with chainID vals (mask chainID commit) needed light countSig countAll byIndex = Ret None.
Proof using Hl.
  assert (len (commit_Signatures (mask chainID commit)) = len (commit_Signatures commit)) as Hlen by (unfold len; cbn; by rewrite length_imap).
  unfold verify_with, shouldBatchVerify, verifyCommitBatch, verifyCommitSingle. rewrite Hlen. intros R. bind_split R b Hb. rewrite Hb.
  cbn [mbind outcome_bind]. destruct b; [|by apply (single_loop_mask _ 0)]. bind_split R pk Hpk. rewrite Hpk. cbn [mbind outcome_bind].
  destruct pk as [pk|]; [|done]. destruct (negb _ || _); [done|]. bind_split R r Hr. destruct r as [[batch t]|e]; [|done].
  pose proof (batch_loop_mask _ _ 0 _ _ _ _ (λ j cs H, H) Hr) as Hr'. cbn [commit_Signatures mask]. change (Z.of_nat 0) with 0 in Hr'.
  change (λ j, mask_sig chainID commit (0 + j)) with (mask_sig chainID commit) in Hr'. by rewrite Hr'.
Qed.
End masked_loops.

Lemma VerifyCommitLight_mask chainID vals blockID height commit :
  len (commit_Signatures commit) ≤ MaxInt32 → VerifyCommitLight chainID (Some vals) blockID height (Some commit) = Ret None →
  VerifyCommitLight chainID (Some vals) blockID height (Some (mask chainID commit)) = Ret None.
Proof using.
  intros Hl. assert (len (commit_Signatures (mask chainID commit)) = len (commit_Signatures commit)) as Hlen by (unfold len; cbn; by rewrite length_imap).
  unfold VerifyCommitLight, verifyCommitLightInternal, verifyBasicValsAndCommit. rewrite Hlen. cbn [mask commit_Height commit_BlockID].
  destruct (negb _); [done|]. destruct (negb _); [done|]. destruct (negb _); [done|]. intros R. bind_split R p Hp. destruct p as [vals' total].
  rewrite Hp. by apply verify_with_mask.
Qed.

Lemma VerifyCommitLightTrusting_mask chainID vals commit lvl :
  len (commit_Signatures commit) ≤ MaxInt32 → VerifyCommitLightTrusting chainID (Some vals) (Some commit) lvl = Ret None →
  VerifyCommitLightTrusting chainID (Some vals) (Some (mask chainID commit)) lvl = Ret None.
Proof using.
  intros Hl. unfold VerifyCommitLightTrusting, verifyCommitLightTrustingInternal. destruct (_ =? 0); [done|].
  intros R. bind_split R p Hp. destruct p as [vals' total]. rewrite Hp. cbn [mbind outcome_bind]. destruct (safeMul _ _) as [x o].
  destruct o; [done|]. destruct (_ =? 0); [done|]. by apply verify_with_mask.
Qed.

Lemma mask_checkable chainID vals commit :
  tallied vals → keys_ok vals → len (Validators vals) ≤ MaxInt32 → len (commit_Signatures commit) ≤ MaxInt32 →
  Forall (λ cs, CommitSig_ValidateBasic cs = None) (commit_Signatures commit) → checkable chainID vals (mask chainID commit).
Proof using.
  intros Ht Hk Hsz Hl Hb. split; [done..|]. intros i cs Hcs Ha. destruct (mask_present _ _ _ _ Hl Hcs Ha) as (Hi & m & _ & Hm).
  split; [exact (Forall_lookup_1 _ _ _ _ Hb Hi)|by exists m].
Qed.

Lemma mask_signed chainID commit i v cs :
  len (commit_Signatures commit) ≤ MaxInt32 → commit_Signatures (mask chainID commit) !! i = Some cs → is_commit cs = true →
  signed chainID (mask chainID commit) i v cs = true →
  commit_Signatures commit !! i = Some cs ∧ signed chainID commit i v cs = true.
Proof using.
  intros Hl Hcs Hc Hs. destruct (mask_present _ _ _ _ Hl Hcs (is_commit_present _ Hc)) as (Hi & m & Hm & Hm'). split; [done|].
  unfold signed in *. by rewrite Hm' in Hs; rewrite Hm.
Qed.

(** What the trusting check counted. *)
Lemma trusting_signed chainID vals commit lvl :
  checkable chainID vals commit → 0 ≤ Numerator lvl ≤ MaxInt64 → 0 < Denominator lvl ≤ MaxInt64 →
  VerifyCommitLightTrusting chainID (Some vals) (Some commit) lvl = Ret None →
  ∃ p : nat → bool, power_sum (Validators vals) * Numerator lvl < Denominator lvl * power_where (Validators vals) p ∧
    ∀ j, p j = true → ∃ v i cs, Validators vals !! j = Some v ∧ commit_Signatures commit !! i = Some cs ∧ is_commit cs = true ∧
      signed chainID commit i v cs = true.
Proof.
  intros Hck Hn Hd R. assert (power_sum (Validators vals) * Numerator lvl ≤ MaxInt64) as Hfit.
  { unfold VerifyCommitLightTrusting, verifyCommitLightTrustingInternal in R. destruct (Z.eqb_spec (Denominator lvl) 0); [lia|].
    rewrite TotalVotingPower_tallied in R by apply Hck. cbn [mbind outcome_bind] in R.
    destruct (safeMul _ _) as [p o] eqn:Hm. destruct o; [done|]. pose proof (ck_vals _ _ _ Hck) as Hv.
    pose proof (tallied_sum _ Hv) as [Hpos Hmax].
    rewrite int64_id in Hm by ulia. apply safeMul_exact in Hm as [_ Hm]; [ulia|mlia|ulia|ulia|ulia]. }
  destruct (VerifyCommitLightTrusting_iff chainID vals commit lvl false Hck Hn Hd Hfit) as (r & Hr & Hiff).
  unfold VerifyCommitLightTrusting in R. rewrite R in Hr. apply (inj Ret) in Hr as <-.
  destruct (proj1 Hiff eq_refl) as (es & Hpre & _ & Hnd & Hok & Hgt).
  exists (λ j, existsb (λ e : entry, bool_decide (e_pos e = j)) es). split.
  - rewrite entry_power_counted in Hgt; [|done|].
    + assert (power_where (Validators vals) (counted (λ _, true) es) =
        power_where (Validators vals) (λ j, existsb (λ e : entry, bool_decide (e_pos e = j)) es)) as Hp.
      { apply power_where_ext. intros j _. apply eq_true_iff_eq. unfold counted. rewrite !existsb_exists. by setoid_rewrite andb_true_r. }
      rewrite Hp in Hgt. clear -Hgt Hd. pose proof (Z.mul_succ_div_gt (power_sum (Validators vals) * Numerator lvl) (Denominator lvl)). nia.
    + rewrite Forall_forall in Hok. intros e He. specialize (Hok e He). unfold entry_ok in Hok. by destruct (Validators vals !! e.1.2).
  - intros j (e & He & Hj%bool_decide_eq_true)%existsb_exists. apply list_elem_of_In in He. rewrite Forall_forall in Hok. pose proof (Hok e He) as Hs.
    unfold entry_ok in Hs. rewrite Hj in Hs. destruct (Validators vals !! j) as [v|] eqn:Hv; [|done].
    destruct Hpre as [rest Hpre]. assert (e ∈ entries vals (λ c, negb (is_commit c)) false (commit_Signatures commit) 0) as Hin
      by (rewrite Hpre; apply elem_of_app; by left).
    apply elem_of_entries in Hin as (k & Hk & Hlk & Hig & _). exists v, k, (e.2). apply negb_false_iff in Hig. rewrite Hk in Hs.
    split_and!; done.
Qed.
End inversion.

(** ** The validator sets that providers make *)

Lemma same_type_flag vals vals' :
  (∀ v pk, v ∈ Validators vals → PubKey_ v = Some pk → Type_ pk ≠ ""%string) → checkAllKeysHaveSameType vals = Ret vals' →
  Validators vals' = Validators vals ∧ totalVotingPower vals' = totalVotingPower vals ∧
  (allKeysHaveSameType vals' = true → ∃ ty, of_type vals ty).
Proof.
  intros Hty. unfold checkAllKeysHaveSameType. destruct (Z.eqb_spec (Size vals) 0) as [Hz|_].
  { intros [= <-]. split_and!; [done|done|]. intros _. exists ""%string. unfold Size, len in Hz. intros v pk Hv. destruct (Validators vals); [by apply elem_of_nil in Hv|done]. }
  match goal with |- context [for_each ?f _ _] => set (body := f) end. intros R. bind_split R r Hr. injection R as <-. split_and!; [done|done|].
  cbn [allKeysHaveSameType with_same_type]. unfold of_type.
  assert (∀ l acc r, (∀ v, v ∈ l → v ∈ Validators vals) → for_each body l acc = Ret r →
    match r with
    | inl t => ∃ t0, acc = inl t0 ∧ (t0 = ""%string ∨ t = t0) ∧ ∀ v pk, v ∈ l → PubKey_ v = Some pk → Type_ pk = t
    | inr b => b = false ∨ acc = inr b end) as Hloop.
  { induction l as [|v l IH]; intros acc r' Hin R'; cbn [for_each] in R'.
    { injection R' as <-. destruct acc as [t|b]; [|by right]. exists t. split_and!; [done|by right|]. by intros v pk ?%elem_of_nil. }
    bind_split R' acc' Hacc. pose proof (Hin v ltac:(by left)) as Hv. specialize (IH acc' r' ltac:(intros; apply Hin; by right) R').
    unfold body in Hacc. destruct acc as [t|b]; [|injection Hacc as <-; destruct r'; naive_solver].
    destruct (PubKey_ v) as [pk|] eqn:Hpk.
    - pose proof (Hty v pk Hv Hpk). case_decide as Ht.
      + injection Hacc as <-. destruct r' as [t'|b]; [|naive_solver]. destruct IH as (t0 & [= <-] & [?| ->] & Hl); [done|].
        exists t. split_and!; [done|by left|]. intros w pk' [->|Hw]%elem_of_cons Hpk'; [congruence|by apply (Hl w)].
      + case_decide as Ht'; injection Hacc as <-; [|destruct r'; naive_solver]. destruct r' as [t'|b]; [|naive_solver].
        destruct IH as (t0 & [= <-] & [?| ->] & Hl); [done|]. exists t. split_and!; [done|by right|].
        intros w pk' [->|Hw]%elem_of_cons Hpk'; [congruence|by apply (Hl w)].
    - case_decide as Ht; [|done]. injection Hacc as <-. destruct r' as [t'|b]; [|naive_solver]. destruct IH as (t0 & [= <-] & Ht0 & Hl).
      exists t. split_and!; [done|by left|]. intros w pk' [->|Hw]%elem_of_cons Hpk'; [congruence|by apply (Hl w)]. }
  specialize (Hloop _ _ _ (λ v H, H) Hr). destruct r as [t|b]; [|by destruct Hloop as [->|]].
  intros _. destruct Hloop as (_ & _ & _ & Hl). by exists t.
Qed.

Lemma findPreviousProposer_in vals p : findPreviousProposer vals = Ret (Some p) → p ∈ Validators vals.
Proof using.
  unfold findPreviousProposer. intros R. assert (∀ l acc, (∀ v, v ∈ l → v ∈ Validators vals) → (∀ q, acc = Some q → q ∈ Validators vals) →
    ∀ r, for_each (λ v previousProposer, match previousProposer with None => Ret (Some v)
      | Some p => left ← priority_left p v; Ret (if left : bool then Some v else Some p) end) l acc = Ret r →
    ∀ q, r = Some q → q ∈ Validators vals) as Hloop.
  { induction l as [|v l IH]; intros acc Hin Hacc r R' q Hq; cbn [for_each] in R'; [injection R' as <-; by apply Hacc|].
    bind_split R' acc' Ha. eapply (IH acc'); [intros; apply Hin; by right| |exact R'|exact Hq].
    intros q' ->. destruct acc as [a|]; [|injection Ha as <-; apply Hin; by left]. bind_split Ha b Hb. injection Ha as Ha.
    destruct b; injection Ha as <-; [apply Hin; by left|by apply Hacc]. }
  exact (Hloop _ None (λ v H, H) ltac:(done) _ R p eq_refl).
Qed.

(** What [ValidatorSetFromExistingValidators] makes of an answer. *)
Lemma existing_validators `{Crypto} valz vals :
  Forall (λ v, VotingPower v ≤ MaxInt64 ∧ ∀ pk, PubKey_ v = Some pk → Type_ pk ≠ ""%string) valz →
  ValidatorSetFromExistingValidators valz = Ret (inl vals) → tallied vals ∧ keys_ok vals.
Proof using.
  intros Hty. unfold ValidatorSetFromExistingValidators. destruct (Z.eqb_spec (len valz) 0) as [|Hne]; [done|].
  destruct (list_find _ _) as [[? ?]|] eqn:Hf; [done|]. intros R. bind_split R v1 H1'. bind_split R p H2'. bind_split R v3 H3'. injection R as <-.
  rewrite Forall_forall in Hty. apply same_type_flag in H1' as (Hv1 & _ & Hflag); [|intros v pk Hv; by apply Hty]. cbn [Validators] in Hv1.
  apply list_find_None in Hf. assert (Forall (λ v, 0 ≤ VotingPower v ≤ MaxInt64) (Validators (with_proposer v1 p))) as Hp.
  { cbn [Validators with_proposer]. rewrite Hv1. rewrite Forall_forall in *. intros v Hv. specialize (Hf v Hv). apply dec_stable in Hf. split; [|by apply Hty].
    unfold Validator.ValidateBasic in Hf. destruct (PubKey_ v); [|done]. destruct (Z.ltb_spec (VotingPower v) 0); [done|lia]. }
  rewrite updateTotalVotingPower_spec in H3' by done. case_decide as Hmax; [|done]. injection H3' as <-.
  cbn [Validators with_total with_proposer] in *. split.
  - split; cbn [Validators with_validators with_total with_proposer totalVotingPower].
    + intros E. apply Hne. rewrite <-Hv1. unfold len. rewrite <-(Permutation_length (sort_by_perm ByVotingPower_Less _)), E. done.
    + split; rewrite sort_by_perm; [|done]. eapply Forall_impl; [exact Hp|]. cbn. lia.
    + right. by rewrite sort_by_perm.
  - split; cbn [Validators with_validators with_total with_proposer Proposer allKeysHaveSameType].
    + intros q ->. exists q. rewrite sort_by_perm. split; [by apply findPreviousProposer_in|done].
    + intros Hs. destruct (Hflag Hs) as [ty Ht]. exists ty. intros v pk Hv. cbn [Validators with_validators] in Hv. rewrite sort_by_perm, Hv1 in Hv. by apply Ht.
Qed.

(** ** The chain and its validators *)

Lemma ValidateTrustLevel_spec lvl :
  is_uint64 (Numerator lvl) → ValidateTrustLevel lvl = true →
  Denominator lvl ≤ 3 * Numerator lvl ∧ Numerator lvl ≤ Denominator lvl ∧ Denominator lvl ≠ 0.
Proof.
  unfold ValidateTrustLevel. intros Hn. rewrite negb_true_iff, !orb_false_iff, !Z.ltb_ge, Z.eqb_neq. intros [[Ha ?] ?].
  split_and!; [|done|done]. etransitivity; [exact Ha|]. unfold uint64. rewrite Z.mul_comm. apply Z.mod_le; ulia.
Qed.

(** The power of positions with given properties depends on the keys and the
    powers only. *)
Lemma power_where_key_power l l' (q : option PubKey → bool) :
  key_power <$> l = key_power <$> l' →
  power_where l (λ i, match l !! i with Some v => q (PubKey_ v) | None => false end) =
  power_where l' (λ i, match l' !! i with Some v => q (PubKey_ v) | None => false end) ∧ power_sum l = power_sum l'.
Proof.
  revert l'. induction l as [|v l IH]; intros [|v' l'] Heq; [done|done|done|]. rewrite !fmap_cons in Heq. injection Heq as Hk Hp Heq.
  destruct (IH _ Heq) as [IH1 IH2]. rewrite !power_where_cons, !zsum_cons. cbn [lookup list_lookup]. rewrite Hk, Hp, IH2.
  split; [f_equal; apply IH1|done].
Qed.

Lemma power_where_more vals p q :
  Forall (λ v, 0 ≤ VotingPower v) vals → power_where vals q < power_where vals p →
  ∃ j, (j < length vals)%nat ∧ p j = true ∧ q j = false.
Proof.
  intros Hpos Hlt. destruct (decide (Exists (λ j, p j = true ∧ q j = false) (seq 0 (length vals)))) as [(j & Hj & ?)%Exists_exists|Hn].
  - exists j. apply elem_of_seq in Hj. split; [lia|done].
  - exfalso. apply (Z.lt_irrefl (power_where vals q)). eapply Z.lt_le_trans; [exact Hlt|]. apply power_where_mono; [done|].
    intros i Hi Hp. destruct (q i) eqn:Hq; [done|]. exfalso. apply Hn, Exists_exists. exists i. split; [apply elem_of_seq; lia|done].
Qed.

Section chain.
Context `{StdTimeLaws, BatchLaws, !HashSize}.
Variable chainID : bytes.
Variable chain : Z → Header.
Variable vals_at : Z → ValidatorSet.
Variable honest : PubKey → bool.

Definition honest_key (pk : option PubKey) : bool := match pk with Some pk => honest pk | None => false end.
Definition faulty_at (l : list Validator) (i : nat) : bool :=
  match l !! i with Some v => negb (honest_key (PubKey_ v)) | None => false end.

(** A chain whose headers commit to their validators and the next ones, with
    less than a third of the power of every set faulty, and whose honest
    validators precommit no other block. *)
Record real_chain : Prop := {
  rc_typed : ∀ h, 0 < h ≤ MaxInt64 → header_typed (chain h) ∧ set_typed (vals_at h);
  rc_time : ∀ h, 0 < h ≤ MaxInt64 → is_Some (StdTimeMarshal (h_Time (chain h)));
  rc_chain : ∀ h, 0 < h ≤ MaxInt64 → h_Height (chain h) = h ∧ h_ChainID (chain h) = chainID;
  rc_vals : ∀ h, 0 < h ≤ MaxInt64 → ValidatorSet_Hash (vals_at h) = Ret (h_ValidatorsHash (chain h));
  rc_next : ∀ h, 0 < h < MaxInt64 → h_NextValidatorsHash (chain h) = h_ValidatorsHash (chain (h + 1));
  rc_faulty : ∀ h, 0 < h ≤ MaxInt64 →
    3 * power_where (Validators (vals_at h)) (faulty_at (Validators (vals_at h))) < power_sum (Validators (vals_at h));
  rc_honest : ∀ pk vote bz sig, honest pk = true → vote_ranges chainID vote → vote_Type vote = PrecommitType →
    0 < vote_Height vote → VoteSignBytes chainID vote = Ret bz → verify_signature pk bz sig = true → vote_BlockID vote ≠ nilBlockID →
    Header_Hash (chain (vote_Height vote)) = Ret (BlockHash (vote_BlockID vote));
}.

(** A light block as a provider decodes it: it passes the basic checks, its
    fields have their Go types, and its validator set is one that decoding
    makes ([existing_validators]): the powers add up to no more than the
    limit, the cached total is their sum, the cached proposer and flag are
    computed from the set. *)
Record decoded (lb : LightBlock) (h : Header) (commit : Commit) (vals : ValidatorSet) : Prop := {
  dc_eq : lb = mkLightBlock (Some (mkSignedHeader (Some h) (Some commit))) (Some vals);
  dc_basic : LightBlock_ValidateBasic lb chainID = Ret None;
  dc_header : header_typed h;
  dc_set : set_typed vals;
  dc_vals : tallied vals;
  dc_keys : keys_ok vals;
  dc_size : len (Validators vals) ≤ MaxInt32;
  dc_round : is_int32 (commit_Round commit);
  dc_total : is_uint32 (Total (BlockParts (commit_BlockID commit)));
  dc_sigs : len (commit_Signatures commit) ≤ MaxInt32;
  dc_id : len chainID ≤ MaxInt64;
}.
Definition decodes (lb : LightBlock) : Prop := ∃ h commit vals, decoded lb h commit vals.

(** A light block of the chain: its header, and validators with the keys and
    the powers of the chain's. *)
Definition on_chain (lb : LightBlock) : Prop :=
  ∃ h commit vals, decoded lb h commit vals ∧ h = chain (h_Height h) ∧ 0 < h_Height h ≤ MaxInt64 ∧
    key_power <$> Validators vals = key_power <$> Validators (vals_at (h_Height h)).

(** A light block that gives a collision with a header or a validator set of
    the chain. *)
Definition collides (lb : LightBlock) : Prop :=
  ∃ h commit vals k, decoded lb h commit vals ∧ 0 < k ≤ MaxInt64 ∧
    (headers_collide h (chain k) ∨ sets_collide vals (vals_at k)).

Hypothesis Hchain : real_chain.

Lemma faulty_power vals h :
  0 < h ≤ MaxInt64 → key_power <$> Validators vals = key_power <$> Validators (vals_at h) →
  3 * power_where (Validators vals) (faulty_at (Validators vals)) < power_sum (Validators vals).
Proof.
  intros Hh Hk. destruct (power_where_key_power _ _ (λ pk, negb (honest_key pk)) Hk) as [Hp Hs].
  rewrite Hs. pose proof (rc_faulty Hchain h Hh) as Hf. unfold faulty_at in *. by rewrite Hp.
Qed.

Lemma chain_hash_nonempty k r : 0 < k ≤ MaxInt64 → Header_Hash (chain k) = Ret r → r ≠ [].
Proof.
  intros Hk Hr ->. pose proof (ValidatorSet_Hash_size _ _ (proj2 (rc_typed Hchain _ Hk)) (rc_vals Hchain _ Hk)) as Hlen.
  destruct (Header_Hash_size (chain k)) as (r & Hr' & Hs); [by intros E; rewrite E in Hlen|by apply (rc_time Hchain)|].
  rewrite Hr in Hr'. by injection Hr' as <-.
Qed.

(** What the basic checks say of a decoded block. *)
Lemma decoded_inv lb h commit vals :
  decoded lb h commit vals →
  SignedHeader_ValidateBasic (mkSignedHeader (Some h) (Some commit)) chainID = Ret None ∧ h_ChainID h = chainID ∧ 0 < h_Height h ∧
  Header_Hash h = Ret (BlockHash (commit_BlockID commit)) ∧ ValidatorSet_Hash vals = Ret (h_ValidatorsHash h) ∧
  commit_BlockID commit ≠ nilBlockID ∧ Forall (λ cs, CommitSig_ValidateBasic cs = None) (commit_Signatures commit).
Proof using.
  intros Hd. pose proof (dc_basic _ _ _ _ Hd) as R. rewrite (dc_eq _ _ _ _ Hd) in R. unfold LightBlock_ValidateBasic in R.
  cbn [lb_SignedHeader lb_ValidatorSet] in R. bind_split R err Herr. destruct err; [done|]. destruct (ValidatorSet.ValidateBasic vals); [done|].
  bind_split R vh Hvh. cbn [sh_Header] in R. case_bool_decide; [|done]. subst vh. split; [done|].
  apply SignedHeader_ValidateBasic_inv in Herr as (h' & c' & [= <- <-] & Hb & Hc & ? & Hch & ?).
  assert (0 < h_Height h) as Hpos by (unfold Header_ValidateBasic in Hb; repeat (case_match; [done|]); lia).
  unfold Commit_ValidateBasic in Hc. rewrite Hch in Hc. destruct (_ <? 0); [done|]. destruct (_ <? 0); [done|].
  replace (1 <=? h_Height h) with true in Hc by lia. destruct (BlockID_IsZero _) eqn:Ez; [done|]. destruct (_ =? 0); [done|].
  split_and!; try done; [by intros E; rewrite E in Ez|by eapply first_bad_sig_none].
Qed.

Lemma decoded_masked lb h commit vals commit' :
  decoded lb h commit vals → len (commit_Signatures commit') ≤ MaxInt32 →
  Forall (λ cs, CommitSig_ValidateBasic cs = None) (commit_Signatures commit') → checkable chainID vals (mask chainID commit').
Proof using. intros Hd Hl Hb. by apply mask_checkable; [apply Hd..| |]. Qed.

(** A header whose hash the chain has. *)
Lemma header_of_chain lb h commit vals k r :
  decoded lb h commit vals → 0 < k ≤ MaxInt64 → Header_Hash h = Ret r → Header_Hash (chain k) = Ret r →
  ValidatorSet_Hash vals = Ret (h_ValidatorsHash h) → on_chain lb ∨ collides lb.
Proof.
  intros Hd Hk Hr Hrc Hv. destruct (rc_typed Hchain _ Hk) as [Hth Hts]. pose proof (chain_hash_nonempty _ _ Hk Hrc) as Hne.
  destruct (Header_Hash_binds h (chain k) r) as [He|He]; [apply Hd|done|done|done|done| |by right; exists h, commit, vals, k; split; [done|split; [done|by left] ] ].
  - destruct (rc_chain Hchain _ Hk) as [Hhk _]. assert (h_Height h = k) as <- by congruence.
    destruct (ValidatorSet_Hash_binds vals (vals_at (h_Height h)) (h_ValidatorsHash h)) as [Hkp|Hkp]; [apply Hd|done|done| | |].
    + rewrite (rc_vals Hchain _ Hk). by rewrite <-He.
    + left. exists h, commit, vals. done.
    + right. exists h, commit, vals, (h_Height h). split; [done|split; [done|by right] ].
Qed.

(** A commit that an honest validator signed is for the chain's block. *)
Lemma signed_of_chain lb h commit vals v i cs pk :
  decoded lb h commit vals → 0 < h_Height h ≤ MaxInt64 → commit_Height commit = h_Height h →
  commit_Signatures commit !! i = Some cs → is_commit cs = true → signed chainID commit i v cs = true →
  PubKey_ v = Some pk → honest pk = true →
  Header_Hash (chain (h_Height h)) = Ret (BlockHash (commit_BlockID commit)).
Proof.
  intros Hd Hh Hch Hcs Hc Hs Hpk Hhon. destruct (decoded_inv _ _ _ _ Hd) as (_ & _ & _ & _ & _ & Hne & _). destruct (signed_inv _ _ _ _ _ (dc_sigs _ _ _ _ Hd) Hcs Hc Hs) as (pk' & bz & Hpk' & Hbz & Hver).
  rewrite Hpk in Hpk'. injection Hpk' as <-.
  rewrite <-Hch. refine (rc_honest Hchain pk (mkVote PrecommitType (commit_Height commit) (commit_Round commit) (commit_BlockID commit)
      (cs_Timestamp cs) (cs_ValidatorAddress cs) (Z.of_nat i) (cs_Signature cs) [] []) bz (cs_Signature cs) Hhon _ eq_refl _ Hbz Hver Hne); [|cbn; lia].
  split; cbn; [done| |apply Hd|apply Hd|apply Hd]. rewrite Hch. apply (ht_height _ (dc_header _ _ _ _ Hd)).
Qed.

(** Positions that carry more power than the faulty ones include an honest
    validator. *)
Lemma honest_position vals h p :
  tallied vals → 0 < h ≤ MaxInt64 → key_power <$> Validators vals = key_power <$> Validators (vals_at h) →
  power_sum (Validators vals) < 3 * power_where (Validators vals) p →
  ∃ j v pk, p j = true ∧ Validators vals !! j = Some v ∧ PubKey_ v = Some pk ∧ honest pk = true.
Proof.
  intros Hvs Hh Hk Hp. pose proof (faulty_power vals h Hh Hk) as Hf.
  destruct (power_where_more (Validators vals) p (faulty_at (Validators vals))) as (j & Hj & Hpj & Hfj); [apply Hvs|lia|].
  destruct (lookup_lt_is_Some_2 _ _ Hj) as [v Hv]. unfold faulty_at in Hfj. rewrite Hv in Hfj. apply negb_false_iff in Hfj. unfold honest_key in Hfj.
  destruct (PubKey_ v) as [pk|] eqn:Hpk; [|done]. exists j, v, pk. done.
Qed.

Definition trust_level_ok (lvl : Fraction) : Prop :=
  0 ≤ Numerator lvl ≤ MaxInt64 ∧ 0 < Denominator lvl ≤ MaxInt64 ∧ Denominator lvl ≤ 3 * Numerator lvl.

(** Verification against a block of the chain accepts blocks of the chain. *)
Lemma Verify_safe t tsh u ush period now drift lvl :
  trust_level_ok lvl → on_chain t → decodes u → lb_SignedHeader t = Some tsh → lb_SignedHeader u = Some ush →
  Verify tsh (lb_ValidatorSet t) ush (lb_ValidatorSet u) period now drift lvl = Ret None → on_chain u ∨ collides u.
Proof.
  intros (Hn & Hd & Hlvl) (th & tc & tv & Ht & Heq & Hth & Htk) (h & commit & vals & Hu) Ets Eus R. rewrite (dc_eq _ _ _ _ Ht) in Ets. injection Ets as <-.
  rewrite (dc_eq _ _ _ _ Hu) in Eus. injection Eus as <-.
  apply Verify_inv in R as (th' & h' & commit' & vs & Eth & Eush & Evs & Hid & Hch & Hhash & Hpos & Hgt & Hvh & Hlight & Hcase).
  cbn [sh_Header] in Eth. injection Eth as <-. injection Eush as <- <-. rewrite (dc_eq _ _ _ _ Hu) in Evs. injection Evs as <-.
  pose proof (ht_height _ (dc_header _ _ _ _ Hu)) as Hi. destruct (rc_chain Hchain _ Hth) as [_ Hcid]. rewrite <-Heq in Hcid.
  assert (0 < h_Height h ≤ MaxInt64) as Hrange by ulia. rewrite Hcid in *.
  destruct (decoded_inv _ _ _ _ Hu) as (_ & _ & _ & _ & _ & _ & Hsigs). pose proof (dc_sigs _ _ _ _ Hu) as Hlen.
  assert (∀ v i cs pk, commit_Signatures commit !! i = Some cs → is_commit cs = true → signed chainID commit i v cs = true →
    PubKey_ v = Some pk → honest pk = true → on_chain u ∨ collides u) as Hfin.
  { intros v i cs pk Hcs Hc Hs Hpk Hhon. eapply header_of_chain; [exact Hu|exact Hrange|exact Hhash| |done].
    by eapply (signed_of_chain u h commit vals v i cs pk). }
  destruct Hcase as [[Hadj Hnext]|Htrust].
  - assert (h_Height h = h_Height th + 1) as Hadj' by (rewrite int64_id in Hadj; ulia).
    destruct (ValidatorSet_Hash_binds vals (vals_at (h_Height h)) (h_ValidatorsHash h)) as [Hk|Hk]; [apply Hu|by apply (rc_typed Hchain)|done| | |].
    { rewrite (rc_vals Hchain _ Hrange), Hnext. rewrite Heq, (rc_next Hchain) by lia. by rewrite <-Hadj'. }
    + rewrite (dc_eq _ _ _ _ Hu) in Hlight. cbn [lb_ValidatorSet] in Hlight.
      apply VerifyCommitLight_mask in Hlight; [|done]. destruct (quorum_signed _ _ _ _ _ (decoded_masked _ _ _ _ commit Hu Hlen Hsigs) Hlight) as [_ Hq].
      destruct (honest_position vals (h_Height h) (signed_block chainID vals (mask chainID commit))) as (j & v & pk & Hs & Hv & Hpk & Hhon);
        [apply Hu|done|done| |].
      { pose proof (tallied_sum _ (dc_vals _ _ _ _ Hu)). lia. }
      unfold signed_block in Hs. rewrite Hv in Hs. destruct (commit_Signatures (mask chainID commit) !! j) as [cs|] eqn:Hcs; [|done].
      apply andb_true_iff in Hs as [Hc Hs]. destruct (mask_signed _ _ _ _ _ Hlen Hcs Hc Hs) as [Hcs' Hs']. by apply (Hfin v j cs pk).
    + right. exists h, commit, vals, (h_Height h). split; [done|split; [done|by right] ].
  - rewrite (dc_eq _ _ _ _ Ht) in Htrust. cbn [lb_ValidatorSet] in Htrust.
    apply VerifyCommitLightTrusting_mask in Htrust; [|done].
    destruct (trusting_signed chainID tv (mask chainID commit) lvl) as (p & Hp & Hps); [by eapply decoded_masked|done|done|done|].
    destruct (honest_position tv (h_Height th) p) as (j & v & pk & Hpj & Hv & Hpk & Hhon); [apply Ht|done|done| |].
    { pose proof (power_where_range (Validators tv) p (tl_power _ (td_list _ (dc_vals _ _ _ _ Ht)))) as [H0' _].
      clear -Hp Hlvl Hn Hd H0'. apply Z.nle_gt. intros Hle. assert (3 * power_where (Validators tv) p * Numerator lvl ≤ power_sum (Validators tv) * Numerator lvl)
        by (apply Z.mul_le_mono_nonneg_r; lia).
      assert (Denominator lvl * power_where (Validators tv) p ≤ 3 * Numerator lvl * power_where (Validators tv) p) by (apply Z.mul_le_mono_nonneg_r; lia). lia. }
    destruct (Hps j Hpj) as (v' & i & cs & Hv' & Hcs & Hc & Hs). rewrite Hv in Hv'. injection Hv' as <-.
    destruct (mask_signed _ _ _ _ _ Hlen Hcs Hc Hs) as [Hcs' Hs']. by apply (Hfin v i cs pk).
Qed.
End chain.

(** ** Verification returns *)

Section total.
Context `{StdTime, BatchLaws}.

(** The votes a commit stands for have sign bytes. *)
Definition signable (commit : Commit) : Prop :=
  BlockID_ValidateBasic (commit_BlockID commit) = true ∧
  Forall (λ cs, is_Some (StdTimeMarshal (cs_Timestamp cs))) (commit_Signatures commit).
Definition signable_block (lb : LightBlock) : Prop :=
  ∀ sh commit, lb_SignedHeader lb = Some sh → sh_Commit sh = Some commit → signable commit.

Lemma signable_bytes chainID commit i cs :
  signable commit → len (commit_Signatures commit) ≤ MaxInt32 → commit_Signatures commit !! i = Some cs → CommitSig_ValidateBasic cs = None →
  ∃ m, Commit_VoteSignBytes commit chainID (int32 (Z.of_nat i)) = Ret m.
Proof using.
  intros [Hid Ht] Hl Hcs Hb. pose proof (lookup_lt_Some _ _ _ Hcs). rewrite int32_id by (unfold len in Hl; ulia).
  unfold Commit_VoteSignBytes, Commit_GetVote.
  assert (slice_get (commit_Signatures commit) (Z.of_nat i) = Ret cs) as -> by (apply slice_get_ret; rewrite Nat2Z.id; split; [lia|done]).
  cbn [mbind outcome_bind]. assert (∃ b, CommitSig_BlockID cs (commit_BlockID commit) = Ret b ∧ BlockID_ValidateBasic b = true) as (b & -> & Hbid).
  { unfold CommitSig_BlockID. unfold CommitSig_ValidateBasic in Hb. destruct (negb _) eqn:E; [done|]. apply negb_false_iff in E.
    destruct (_ =? BlockIDFlagAbsent); [by eexists|]. destruct (_ =? BlockIDFlagCommit); [by eexists|]. destruct (_ =? BlockIDFlagNil); [by eexists|done]. }
  cbn [mbind outcome_bind]. unfold VoteSignBytes, CanonicalizeVote, CanonicalizeBlockID, BlockIDFromProto. cbn [vote_BlockID].
  assert (PartSetHeader_ValidateBasic (BlockParts b) = true) as -> by (by apply andb_true_iff in Hbid as [_ ?]). rewrite Hbid.
  cbn [andb mbind outcome_bind]. unfold CanonicalVote_Marshal. cbn [cv_Timestamp vote_Timestamp].
  destruct (Forall_lookup_1 _ _ _ _ Ht Hcs) as [t Hts]. rewrite Hts. cbn [mbind outcome_bind]. by eexists.
Qed.

Lemma signable_checkable chainID lb h commit vals lb' h' commit' vals' :
  decoded chainID lb h commit vals → decoded chainID lb' h' commit' vals' → signable commit → checkable chainID vals' commit.
Proof using.
  intros Hd Hd' He. split; [apply Hd'..|]. intros i cs Hcs _. destruct (decoded_inv _ _ _ _ _ Hd) as (_ & _ & _ & _ & _ & _ & Hb).
  pose proof (Forall_lookup_1 _ _ _ _ Hb Hcs). split; [done|]. eapply signable_bytes; [done|apply Hd|done|done].
Qed.

Lemma trusting_total chainID vals commit lvl :
  checkable chainID vals commit → 0 ≤ Numerator lvl ≤ MaxInt64 → 0 < Denominator lvl ≤ MaxInt64 →
  ∃ r, VerifyCommitLightTrusting chainID (Some vals) (Some commit) lvl = Ret r.
Proof.
  intros Hck Hn Hd. destruct (decide (power_sum (Validators vals) * Numerator lvl ≤ MaxInt64)) as [Hfit|Hbig].
  - destruct (VerifyCommitLightTrusting_iff chainID vals commit lvl false Hck Hn Hd Hfit) as (r & Hr & _). by exists r.
  - unfold VerifyCommitLightTrusting, verifyCommitLightTrustingInternal. destruct (Z.eqb_spec (Denominator lvl) 0); [lia|].
    rewrite TotalVotingPower_tallied by apply Hck. cbn [mbind outcome_bind]. destruct (safeMul _ _) as [p o] eqn:Hm. destruct o; [by eexists|].
    pose proof (ck_vals _ _ _ Hck) as Hv. pose proof (tallied_sum _ Hv) as [Hpos Hmax]. rewrite int64_id in Hm by ulia. exfalso. apply safeMul_exact in Hm as [_ Hm]; [ulia|mlia|ulia|ulia|ulia].
Qed.

(** [Verify] of decoded light blocks whose commits are signable returns; when it answers that the new
    validators cannot be trusted, the new block is at least two heights
    above. *)
Lemma Verify_total chainID t th tc tv u uh uc uv period now drift lvl :
  decoded chainID t th tc tv → decoded chainID u uh uc uv → signable uc → 0 ≤ Numerator lvl ≤ MaxInt64 → 0 < Denominator lvl ≤ MaxInt64 →
  ∃ r, Verify (mkSignedHeader (Some th) (Some tc)) (Some tv) (mkSignedHeader (Some uh) (Some uc)) (Some uv) period now drift lvl = Ret r ∧
    (r = None → h_Height th < h_Height uh) ∧
    (∀ got needed, r = Some (ErrNewValSetCantBeTrusted got needed) → h_Height th + 2 ≤ h_Height uh).
Proof.
  intros Ht Hu He' Hn Hd. destruct (decoded_inv _ _ _ _ _ Ht) as (_ & Htid & Htpos & _). destruct (decoded_inv _ _ _ _ _ Hu) as (Hbasic & _ & _ & _ & Hvh & _).
  pose proof (ht_height _ (dc_header _ _ _ _ _ Ht)). pose proof (ht_height _ (dc_header _ _ _ _ _ Hu)).
  assert (∃ e, verifyNewHeaderAndVals (mkSignedHeader (Some uh) (Some uc)) (Some uv) th now drift = Ret e ∧ (e = None → h_Height th < h_Height uh)) as (e & He & Hgt).
  { unfold verifyNewHeaderAndVals. rewrite Htid, Hbasic. cbn [mbind outcome_bind deref sh_Header].
    destruct (Z.leb_spec (h_Height uh) (h_Height th)); [by eexists|]. destruct (negb _); [by eexists|]. destruct (negb _); [by eexists|].
    rewrite Hvh. cbn [mbind outcome_bind]. eexists. split; [reflexivity|]. lia. }
  destruct (VerifyCommitLight_iff chainID uv (commit_BlockID uc) (h_Height uh) uc false (signable_checkable _ _ _ _ _ _ _ _ _ Hu Hu He')) as (rl & Hrl & _).
  assert (∃ r, verify_new_commit th (mkSignedHeader (Some uh) (Some uc)) (Some uv) = Ret r ∧ ∀ a b, r ≠ Some (ErrNewValSetCantBeTrusted a b)) as (rn & Hrn & Hrn').
  { unfold verify_new_commit. cbn [mbind outcome_bind deref sh_Header sh_Commit]. unfold VerifyCommitLight. rewrite Htid, Hrl. cbn [mbind outcome_bind].
    eexists. split; [reflexivity|]. by destruct rl. }
  destruct (trusting_total chainID tv uc lvl) as (rt & Hrt); [by eapply signable_checkable|done|done|].
  unfold Verify, VerifyAdjacent, VerifyNonAdjacent. cbn [mbind outcome_bind deref sh_Header sh_Commit].
  destruct (Z.eqb_spec (h_Height uh) (int64 (h_Height th + 1))) as [Ha|Ha]; cbn [negb].
  - destruct (HeaderExpired _ _ _); [eexists; split; [reflexivity|done]|]. rewrite He. cbn [mbind outcome_bind].
    destruct e as [e|]; [eexists; split; [reflexivity|done]|]. case_bool_decide; [|eexists; split; [reflexivity|done]].
    rewrite Hrn. eexists. split; [reflexivity|]. split; [intros _; by apply Hgt|]. intros a b ->. by destruct (Hrn' a b).
  - destruct (HeaderExpired _ _ _); [eexists; split; [reflexivity|done]|]. rewrite He. cbn [mbind outcome_bind].
    destruct e as [e|]; [eexists; split; [reflexivity|done]|]. specialize (Hgt eq_refl). rewrite Htid, Hrt. cbn [mbind outcome_bind].
    assert (h_Height th + 2 ≤ h_Height uh) by (rewrite int64_id in Ha; ulia).
    destruct rt as [rt|]; [|rewrite Hrn; eexists; split; [reflexivity|done] ]. by destruct rt; eexists; (split; [reflexivity|done]).
Qed.
End total.
