(* ===== verification/LightClientProofs.v ===== *)
(** * Proofs about the light client

    What its methods leave alone, where the blocks they return come from, and
    that verifying forwards only ever trusts blocks of the chain. *)
From S2P Require Import Prelude.
From S2P Require Import Vote.
From S2P Require Import Validator.
From S2P Require Import ValidatorSet.
From S2P Require Import SignBytes.
From S2P Require Import Validation.
From S2P Require Import CommitSafety.
From S2P Require Import Merkle.
From S2P Require Import Block.
From S2P Require Import BlockProofs.
From S2P Require Import LightVerifier.
From S2P Require Import LightClient.
From S2P Require Import LightSafety.

(** ** What is left alone *)

(** Only the providers, the count of requests and the reports differ. *)
Record same_trust (c c' : Client) : Prop := {
  st_chainID : lc_chainID c' = lc_chainID c;
  st_period : lc_trustingPeriod c' = lc_trustingPeriod c;
  st_mode : verificationMode c' = verificationMode c;
  st_level : lc_trustLevel c' = lc_trustLevel c;
  st_drift : lc_maxClockDrift c' = lc_maxClockDrift c;
  st_store : trustedStore c' = trustedStore c;
  st_latest : latestTrustedBlock c' = latestTrustedBlock c;
  st_pruning : pruningSize c' = pruningSize c;
  st_requests : (requests c ≤ requests c')%nat;
}.

Lemma same_trust_refl c : same_trust c c.
Proof. by split. Qed.
Lemma same_trust_trans c1 c2 c3 : same_trust c1 c2 → same_trust c2 c3 → same_trust c1 c3.
Proof. intros [] []. split; (congruence || lia). Qed.

Definition frames {A} (m : LC A) (c : Client) : Prop := ∀ c' r, m c = Ret (c', r) → same_trust c c'.

Lemma bind_inv {A B} (m : LC A) (k : A → LC B) c c' r :
  lc_bind m k c = Ret (c', r) →
  (∃ c1 x, m c = Ret (c1, inl x) ∧ k x c1 = Ret (c', r)) ∨ (∃ e, m c = Ret (c', inr e) ∧ r = inr e).
Proof. unfold lc_bind. destruct (m c) as [[c1 [x|e]]|]; cbn [mbind outcome_bind]; [eauto|intros [= <- <-]; eauto|done]. Qed.

Lemma bind_inl {A B} (m : LC A) (k : A → LC B) c c' y :
  lc_bind m k c = Ret (c', inl y) → ∃ c1 x, m c = Ret (c1, inl x) ∧ k x c1 = Ret (c', inl y).
Proof. intros [?|(e & _ & ?)]%bind_inv; done. Qed.

Lemma try_inl {A} (m : LC A) c c' r : lc_try m c = Ret (c', inl r) → m c = Ret (c', r).
Proof. unfold lc_try. destruct (m c) as [[c1 r1]|]; cbn [mbind outcome_bind]; [|done]. by intros [= <- <-]. Qed.

Lemma lift_inl {A} (m : outcome A) c c' x : lc_lift m c = Ret (c', inl x) → c' = c ∧ m = Ret x.
Proof. unfold lc_lift. destruct m; cbn [mbind outcome_bind]; [|done]. by intros [= <- <-]. Qed.

Lemma bind_ret {A B} (m : LC A) (k : A → LC B) c c1 x : m c = Ret (c1, inl x) → lc_bind m k c = k x c1.
Proof. unfold lc_bind. by intros ->. Qed.
Lemma bind_lift {A B} (m : outcome A) (k : A → LC B) c x : m = Ret x → lc_bind (lc_lift m) k c = k x c.
Proof. by intros ->. Qed.
Lemma bind_get {B} (k : Client → LC B) c : lc_bind lc_get k c = k c c.
Proof. done. Qed.
Lemma bind_put {B} (k : unit → LC B) c0 c : lc_bind (lc_put c0) k c = k tt c0.
Proof. done. Qed.
Lemma bind_try {A B} (m : LC A) (k : A + client_error → LC B) c c1 r : m c = Ret (c1, r) → lc_bind (lc_try m) k c = k r c1.
Proof. unfold lc_bind, lc_try. by intros ->. Qed.

Lemma frames_of {A} (m : LC A) c c' r : frames m c → m c = Ret (c', r) → same_trust c c'.
Proof. intros Hm. apply Hm. Qed.

Lemma frames_ret {A} (x : A) c : frames (lc_ret x) c.
Proof. intros c' r [= <- <-]. apply same_trust_refl. Qed.
Lemma frames_fail {A} e c : frames (lc_fail (A := A) e) c.
Proof. intros c' r [= <- <-]. apply same_trust_refl. Qed.
Lemma frames_lift {A} (m : outcome A) c : frames (lc_lift m) c.
Proof. intros c' r. unfold lc_lift. destruct m; [|done]. intros [= <- <-]. apply same_trust_refl. Qed.
Lemma frames_put c0 c : same_trust c c0 → frames (lc_put c0) c.
Proof. intros Hs c' r [= <- <-]. done. Qed.
Lemma frames_get {B} (k : Client → LC B) c : frames (k c) c → frames (lc_bind lc_get k) c.
Proof. done. Qed.
Lemma frames_lift_bind {A B} (m : outcome A) (k : A → LC B) c : (∀ x, frames (k x) c) → frames (lc_bind (lc_lift m) k) c.
Proof. intros Hk c' r. unfold lc_bind, lc_lift. destruct m as [x|]; [|done]. apply Hk. Qed.
Lemma frames_put_bind {B} c0 (k : unit → LC B) c : same_trust c c0 → frames (k tt) c0 → frames (lc_bind (lc_put c0) k) c.
Proof. intros Hs Hk c' r Hr. eapply same_trust_trans; [exact Hs|]. by apply (Hk c' r). Qed.
Lemma frames_bind {A B} (m : LC A) (k : A → LC B) c : (∀ c, frames m c) → (∀ x c, frames (k x) c) → frames (lc_bind m k) c.
Proof.
  intros Hm Hk c' r [(c1 & x & H1 & H2)|(e & H1 & _)]%bind_inv; [|by eapply Hm].
  eapply same_trust_trans; [by eapply Hm|by eapply Hk].
Qed.
Lemma frames_try {A} (m : LC A) c : frames m c → frames (lc_try m) c.
Proof. intros Hm c' r. unfold lc_try. destruct (m c) as [[c1 r1]|] eqn:E; [|done]. intros [= <- <-]. by eapply Hm. Qed.

Create HintDb frames.
#[export] Hint Resolve frames_ret frames_fail frames_lift frames_get frames_lift_bind frames_bind frames_try : frames.

(** Goes through the structure of a method. *)
Ltac solve_frames :=
  repeat first
    [ simple apply frames_ret | simple apply frames_fail | simple apply frames_lift
    | simple apply frames_get | simple apply frames_lift_bind; intros | simple apply frames_try
    | simple apply frames_put; (split; cbn; (done || lia))
    | simple apply frames_put_bind; [split; cbn; (done || lia)|]
    | solve [auto with frames nocore]
    | simple apply frames_bind; intros
    | case_match ].

Section frames.
Context `{StdTime, Crypto, !BatchCrypto, Network}.

Lemma frames_ask p h c : frames (ask p h) c.
Proof. intros c' r [= <- <-]. split; cbn; (done || lia). Qed.
#[local] Hint Resolve frames_ask : frames.

Lemma frames_removeWitnesses l c : frames (removeWitnesses l) c.
Proof. unfold removeWitnesses. solve_frames. Qed.
#[local] Hint Resolve frames_removeWitnesses : frames.

Lemma frames_process_responses rs order remove rm e c : frames (process_responses rs order remove rm e) c.
Proof. revert rm e c. induction order as [|i order IH]; intros rm e c; cbn [process_responses]; solve_frames. Qed.
#[local] Hint Resolve frames_process_responses : frames.

Lemma frames_findNewPrimary h remove c : frames (findNewPrimary h remove) c.
Proof. unfold findNewPrimary. solve_frames. Qed.
#[local] Hint Resolve frames_findNewPrimary : frames.

Lemma frames_lightBlockFromPrimary h c : frames (lightBlockFromPrimary h) c.
Proof. unfold lightBlockFromPrimary. solve_frames. Qed.
#[local] Hint Resolve frames_lightBlockFromPrimary : frames.

Lemma frames_skipping_loop fuel source cache depth v trace now c : frames (skipping_loop fuel source cache depth v trace now) c.
Proof. revert cache depth v trace c. induction fuel as [|fuel IH]; intros cache depth v trace c; cbn [skipping_loop]; solve_frames. Qed.

Lemma frames_verifySkipping fuel source t n now c : frames (verifySkipping fuel source t n now) c.
Proof. apply frames_skipping_loop. Qed.
#[local] Hint Resolve frames_verifySkipping : frames.

Lemma frames_compare l w i c : frames (compareNewLightBlockWithWitness l w i) c.
Proof. unfold compareNewLightBlockWithWitness, getTargetBlockOrLatest, compare_hashes, conflicting_time. solve_frames. Qed.
#[local] Hint Resolve frames_compare : frames.

Lemma frames_compare_all l ws i c : frames (compare_all l ws i) c.
Proof. revert i c. induction ws as [|w ws IH]; intros i c; cbn [compare_all]; solve_frames. Qed.
#[local] Hint Resolve frames_compare_all : frames.

Lemma frames_examine_loop fuel trace target source prev st now c : frames (examine_loop fuel trace target source prev st now) c.
Proof. revert prev st c. induction trace as [|b trace IH]; intros prev st c; cbn [examine_loop]; solve_frames. Qed.
#[local] Hint Resolve frames_examine_loop : frames.

Lemma frames_handle fuel trace b i now c : frames (handleConflictingHeaders fuel trace b i now) c.
Proof. unfold handleConflictingHeaders, examineConflictingHeaderAgainstTrace, report_against, sendEvidence. solve_frames. Qed.
#[local] Hint Resolve frames_handle : frames.

Lemma frames_detect_loop fuel n sched msgs trace m rm now c : frames (detect_loop fuel n sched msgs trace m rm now) c.
Proof. revert sched msgs m rm c. induction n as [|n IH]; intros sched msgs m rm c; cbn [detect_loop]; solve_frames. Qed.
#[local] Hint Resolve frames_detect_loop : frames.

Lemma frames_detectDivergence fuel trace now c : frames (detectDivergence fuel trace now) c.
Proof. unfold detectDivergence. solve_frames. Qed.
#[local] Hint Resolve frames_detectDivergence : frames.

Lemma frames_againstPrimary fuel t n now c : frames (verifySkippingAgainstPrimary fuel t n now) c.
Proof. revert n c. induction fuel as [|fuel IH]; intros n c; cbn [verifySkippingAgainstPrimary]; solve_frames. Qed.

Lemma frames_sequential_loop fuel height v trace n now c : frames (sequential_loop fuel height v trace n now) c.
Proof. revert height v trace c. induction fuel as [|fuel IH]; intros height v trace c; cbn [sequential_loop]; solve_frames. Qed.
#[local] Hint Resolve frames_sequential_loop : frames.

Lemma frames_verifySequential fuel t n now c : frames (verifySequential fuel t n now) c.
Proof. unfold verifySequential. solve_frames. Qed.
#[local] Hint Resolve frames_verifySequential frames_againstPrimary : frames.

Lemma frames_backwards fuel v n c : frames (backwards fuel v n) c.
Proof. revert v n c. induction fuel as [|fuel IH]; intros v n c; cbn [backwards]; solve_frames. Qed.
#[local] Hint Resolve frames_backwards : frames.

Lemma update_requests l c c' r : updateTrustedLightBlock l c = Ret (c', r) → requests c' = requests c.
Proof.
  intros R. unfold updateTrustedLightBlock in R. cbn in R. destruct (SaveLightBlock _ _) as [[s [e|] ]|]; cbn in R; [by injection R as <- _| |done].
  destruct (lb_Height l) as [lh|]; cbn in R; [|done]. destruct (latestTrustedBlock c) as [t|]; cbn in R; [|by injection R as <- _].
  destruct (lb_Height t); cbn in R; [|done]. by injection R as <- _.
Qed.

Lemma verifyLightBlock_requests fuel new now c c' x :
  verifyLightBlock fuel new now c = Ret (c', inl x) → (requests c ≤ requests c')%nat.
Proof.
  unfold verifyLightBlock. intros R. apply bind_inl in R as (c1 & x1 & R1 & R). injection R1 as <- <-.
  apply bind_inl in R as (c1 & nh & R1 & R). apply lift_inl in R1 as [-> _]. apply bind_inl in R as (c1 & la & R1 & R). apply lift_inl in R1 as [-> _].
  apply bind_inl in R as (c1 & lh & R1 & R). apply lift_inl in R1 as [-> _]. apply bind_inl in R as (c1 & [] & R1 & R).
  rewrite (update_requests _ _ _ _ R). eapply st_requests. revert R1. apply frames_of. unfold store_result. solve_frames.
Qed.
End frames.

(** ** Where blocks come from *)

Section safety.
Context `{StdTimeLaws, BatchLaws, !HashSize, Network}.

(** An answer to a request made between two states of the client. *)
Definition answered_at (c c' : Client) (h : Z) (lb : LightBlock) : Prop :=
  ∃ p n, (requests c ≤ n < requests c')%nat ∧ net_LightBlock p h n = inl lb.
Definition answered (c c' : Client) (lb : LightBlock) : Prop :=
  ∃ p h n, (requests c ≤ n < requests c')%nat ∧ net_LightBlock p h n = inl lb.

Lemma answered_at_answered c c' h lb : answered_at c c' h lb → answered c c' lb.
Proof using. intros (p & n & ? & ?). by exists p, h, n. Qed.

Lemma answered_at_mono c1 c2 c3 h lb : same_trust c1 c2 → answered_at c2 c3 h lb → answered_at c1 c3 h lb.
Proof using. intros H12 (p & n & Hn & Hlb). exists p, n. split; [|done]. pose proof (st_requests _ _ H12). lia. Qed.

Lemma answered_mono c1 c2 c3 c4 lb : same_trust c1 c2 → same_trust c3 c4 → answered c2 c3 lb → answered c1 c4 lb.
Proof using.
  intros H12 H34 (p & h & n & Hn & Hlb). exists p, h, n. split; [|done]. pose proof (st_requests _ _ H12). pose proof (st_requests _ _ H34). lia.
Qed.

Lemma ask_inl p h c c' r : ask p h c = Ret (c', inl r) → c' = with_requests c (S (requests c)) ∧ r = net_LightBlock p h (requests c).
Proof using. by intros [= <- <-]. Qed.

Lemma process_responses_inl rs order remove rm e c c' lb :
  process_responses rs order remove rm e c = Ret (c', inl lb) → ∃ i, rs !! i = Some (inl lb).
Proof using.
  revert rm e. induction order as [|i order IH]; intros rm e; cbn [process_responses].
  - intros (c1 & x & _ & H')%bind_inl. destruct e; cbn in H'; done.
  - destruct (rs !! i) as [[l|pe]|] eqn:Hi; [|destruct pe; apply IH|cbn; done].
    intros (c1 & x1 & _ & H1')%bind_inl. apply bind_inl in H1' as (c2 & x2 & _ & H2'). apply bind_inl in H2' as (c3 & x3 & _ & H3').
    apply bind_inl in H3' as (c4 & x4 & _ & H4'). injection H4' as <- <-. eauto.
Qed.

Lemma findNewPrimary_at h remove c c' lb : findNewPrimary h remove c = Ret (c', inl lb) → answered_at c c' h lb.
Proof using.
  intros R. unfold findNewPrimary in R. cbn in R. destruct (len (witnesses c) =? 0) eqn:Hw; [done|].
  unfold lc_bind, lc_put in R. cbn [mbind outcome_bind] in R.
  pose proof (frames_process_responses _ _ _ _ _ _ _ _ R) as Hs2. pose proof (st_requests _ _ Hs2) as Hreq. cbn [requests with_requests] in Hreq.
  apply process_responses_inl in R as (i & Hi). unfold responses in Hi. rewrite list_lookup_imap in Hi.
  destruct (witnesses c !! i) as [w|] eqn:Hwi; [|done]. injection Hi as Hi. apply lookup_lt_Some in Hwi. exists w, (requests c + i)%nat. split; [lia|done].
Qed.

Lemma lightBlockFromPrimary_at h c c' lb : lightBlockFromPrimary h c = Ret (c', inl lb) → answered_at c c' h lb.
Proof using.
  intros R. unfold lightBlockFromPrimary in R. apply bind_inl in R as (c0 & x0 & R0 & R). injection R0 as <- <-.
  apply bind_inl in R as (c1 & r & R1 & R). pose proof (frames_ask _ _ _ _ _ R1) as Hs. apply ask_inl in R1 as [-> ->].
  destruct (net_LightBlock (primary c) h (requests c)) as [l|pe] eqn:Hl.
  - injection R as <- <-. exists (primary c), (requests c). split; [cbn; lia|done].
  - assert (∀ rm, findNewPrimary h rm (with_requests c (S (requests c))) = Ret (c', inl lb) → answered_at c c' h lb) as Hf.
    { intros rm Hr. eapply answered_at_mono; [exact Hs|]. by eapply findNewPrimary_at. }
    destruct pe; first [exact (Hf _ R)|cbn in R; done].
Qed.

Lemma findNewPrimary_answered h remove c c' lb : findNewPrimary h remove c = Ret (c', inl lb) → answered c c' lb.
Proof using. intros R. by eapply answered_at_answered, findNewPrimary_at. Qed.
Lemma lightBlockFromPrimary_answered h c c' lb : lightBlockFromPrimary h c = Ret (c', inl lb) → answered c c' lb.
Proof using. intros R. by eapply answered_at_answered, lightBlockFromPrimary_at. Qed.

(** ** Verifying forwards *)

Variable chainID : bytes.
Variable chain : Z → Header.
Variable vals_at : Z → ValidatorSet.
Variable honest : PubKey → bool.
Hypothesis Hchain : real_chain chainID chain vals_at honest.
Hypothesis Hnet : ∀ p h n lb, net_LightBlock p h n = inl lb → decodes chainID lb.

Abbreviation on_chain := (on_chain chainID chain vals_at).
Abbreviation collides := (collides chainID chain vals_at).
Abbreviation decodes := (decodes chainID).

(** A collision among the blocks that the client saw. *)
Definition collision_seen (c c' : Client) (l : list LightBlock) : Prop := ∃ lb, (lb ∈ l ∨ answered c c' lb) ∧ collides lb.

Lemma collision_seen_mono c1 c2 c3 c4 l l' :
  same_trust c1 c2 → same_trust c3 c4 → (∀ lb, lb ∈ l' → lb ∈ l ∨ answered c1 c4 lb) → collision_seen c2 c3 l' → collision_seen c1 c4 l.
Proof using.
  intros H12 H34 Hl (lb & [Hin|Ha] & Hc); exists lb; (split; [|done]); [by apply Hl|right; by eapply answered_mono].
Qed.

Lemma client_Verify_safe c t u now :
  trust_level_ok (lc_trustLevel c) → on_chain t → decodes u → client_Verify c t u now = Ret None → on_chain u ∨ collides u.
Proof.
  intros Hlvl Ht Hu R. unfold client_Verify in R. bind_split R tsh Htsh. bind_split R ush Hush.
  destruct (lb_SignedHeader t) as [?|] eqn:Et; [|done]. destruct (lb_SignedHeader u) as [?|] eqn:Eu; [|done]. injection Htsh as ->. injection Hush as ->.
  by eapply Verify_safe.
Qed.

Lemma answered_decodes c c' lb : answered c c' lb → decodes lb.
Proof. intros (p & h & n & _ & Hlb). by eapply Hnet. Qed.

Lemma skipping_loop_safe fuel source now new : ∀ cache depth v trace c c' tr,
  skipping_loop fuel source cache depth v trace now c = Ret (c', inl tr) →
  trust_level_ok (lc_trustLevel c) → on_chain v → Forall decodes cache → cache !! 0%nat = Some new →
  on_chain new ∨ collision_seen c c' cache.
Proof.
  induction fuel as [|fuel IH]; intros cache depth v trace c c' tr R Hlvl Hv Hcache Hnew; cbn [skipping_loop] in R; [done|].
  apply bind_inl in R as (c0 & x0 & R0 & R). injection R0 as <- <-. apply bind_inl in R as (c0 & current & R0 & R). apply lift_inl in R0 as [-> Hcur].
  apply bind_inl in R as (c0 & err & R0 & R). apply lift_inl in R0 as [-> Herr]. apply bind_inl in R as (c0 & vh & R0 & R). apply lift_inl in R0 as [-> _].
  apply bind_inl in R as (c0 & ch & R0 & R). apply lift_inl in R0 as [-> _]. apply slice_get_ret in Hcur as [Hd Hcur].
  assert (decodes current) as Hdc by (by eapply Forall_lookup_1). destruct err as [e|].
  - destruct e; try (cbn in R; done). destruct (depth =? len cache - 1); [|by eapply IH].
    apply bind_inl in R as (c1 & r & R1 & R). pose proof (frames_ask _ _ _ _ _ R1) as Hs. apply ask_inl in R1 as [-> ->].
    destruct (net_LightBlock source (pivot vh ch) (requests c)) as [interim|pe] eqn:Ha; [|destruct pe; cbn in R; done].
    pose proof (frames_skipping_loop _ _ _ _ _ _ _ _ _ _ R) as Hs2.
    apply IH in R; [|done|done| |by rewrite <-(assoc_L (++)), lookup_app_l by (by eapply lookup_lt_Some)].
    + destruct R as [?|R]; [by left|right]. eapply collision_seen_mono; [exact Hs|apply same_trust_refl| |exact R].
      assert (answered c c' interim) as Hint.
      { exists source, (pivot vh ch), (requests c). split; [|done]. pose proof (st_requests _ _ Hs2) as Hq. cbn in Hq. lia. }
      intros lb. rewrite !elem_of_app, !list_elem_of_singleton. intros [[?| ->]| ->]; [by left|by right|by right].
    + rewrite !Forall_app, !Forall_singleton. split_and!; [done|by eapply Hnet|by eapply Hnet].
  - destruct (client_Verify_safe _ _ _ _ Hlvl Hv Hdc Herr) as [Hon|Hcol];
      [|right; exists current; split; [left; by eapply list_elem_of_lookup_2|done] ].
    destruct (Z.eqb_spec depth 0) as [->|Hne]; [left; change (Z.to_nat 0) with 0%nat in Hcur; rewrite Hcur in Hnew; by injection Hnew as <-|].
    apply IH in R; [|done|done|by apply Forall_take|rewrite lookup_take_lt by lia; done].
    destruct R as [?|R]; [by left|right]. eapply collision_seen_mono; [apply same_trust_refl..| |exact R].
    intros lb Hlb. left. by eapply elem_of_take_drop_l.
Qed.

Lemma verifySkipping_safe fuel source t new now c c' tr :
  verifySkipping fuel source t new now c = Ret (c', inl tr) → trust_level_ok (lc_trustLevel c) → on_chain t → decodes new →
  on_chain new ∨ collision_seen c c' [new].
Proof. intros R Hlvl Ht Hn. eapply skipping_loop_safe; [exact R|done|done| |done]. by constructor. Qed.

(** A light block with the hash of a block of the chain. *)
Lemma same_hash_on_chain t u r : on_chain t → decodes u → lb_Hash t = Ret r → lb_Hash u = Ret r → on_chain u ∨ collides u.
Proof.
  intros (h & cm & vals & Hd & Heq & Hh & _) (h' & cm' & vals' & Hd') Ht Hu. rewrite (dc_eq _ _ _ _ _ Hd) in Ht. rewrite (dc_eq _ _ _ _ _ Hd') in Hu.
  cbn in Ht, Hu. destruct (decoded_inv _ _ _ _ _ Hd') as (_ & _ & _ & _ & Hv & _). rewrite Heq in Ht.
  by eapply (header_of_chain chainID chain vals_at honest Hchain u h' cm' vals' (h_Height h) r).
Qed.

Lemma againstPrimary_safe fuel t now : ∀ new c c',
  verifySkippingAgainstPrimary fuel t new now c = Ret (c', inl tt) → trust_level_ok (lc_trustLevel c) → on_chain t → decodes new →
  on_chain new ∨ collision_seen c c' [new].
Proof.
  induction fuel as [|fuel IH]; intros new c c' R Hlvl Ht Hn; cbn [verifySkippingAgainstPrimary] in R; [done|].
  apply bind_inl in R as (c0 & x0 & R0 & R). injection R0 as <- <-. apply bind_inl in R as (c1 & r & R1 & R). apply try_inl in R1.
  pose proof (frames_verifySkipping _ _ _ _ _ _ _ _ R1) as Hs1. destruct r as [trace|err].
  - pose proof (frames_detectDivergence _ _ _ _ _ _ R) as Hs2. destruct (verifySkipping_safe _ _ _ _ _ _ _ _ R1 Hlvl Ht Hn) as [?|Hc]; [by left|right].
    eapply collision_seen_mono; [apply same_trust_refl|exact Hs2| |exact Hc]. by left.
  - assert (∀ c2, detectDivergence fuel [] now c1 = Ret (c2, inl tt) → False) as Hnil by (intros c2; cbn; done).
    destruct err as [| |from to reason| | | | | | | | | | | | | | | | | | | | | | |]; try (by destruct (Hnil _ R)). destruct reason as [|le| | | | | | | | | | | | | | | | | | | | | | | |]; try (cbn in R; done).
    destruct le; try (cbn in R; done). apply bind_inl in R as (c2 & nh & R2 & R). apply lift_inl in R2 as [-> _]. destruct (to =? nh); [done|].
    apply bind_inl in R as (c2 & r & R2 & R). apply try_inl in R2. destruct r as [repl|]; [|done].
    pose proof (frames_findNewPrimary _ _ _ _ _ R2) as Hs2. pose proof (findNewPrimary_answered _ _ _ _ _ R2) as Ha.
    apply bind_inl in R as (c3 & rhash & R3 & R). apply lift_inl in R3 as [-> Hrh]. apply bind_inl in R as (c3 & nhash & R3 & R). apply lift_inl in R3 as [-> Hnh].
    case_bool_decide as Heq; [|done]. subst nhash. assert (same_trust c c2) as Hs12 by (by eapply same_trust_trans).
    assert (answered c c' repl) as Hrepl.
    { eapply answered_mono; [exact Hs1|by eapply frames_againstPrimary|exact Ha]. }
    destruct (IH _ _ _ R) as [Hon|Hc]; [by rewrite (st_level _ _ Hs12)|done|by eapply answered_decodes| |].
    + destruct (same_hash_on_chain repl new rhash Hon Hn Hrh Hnh) as [?|?]; [by left|right]. exists new. split; [left; by left|done].
    + right. eapply collision_seen_mono; [exact Hs12|apply same_trust_refl| |exact Hc]. intros lb ->%list_elem_of_singleton. by right.
Qed.

Lemma VerifyAdjacent_Verify tsh tvals ush uvals period now drift lvl :
  VerifyAdjacent tsh ush uvals period now drift = Ret None →
  Verify tsh tvals ush uvals period now drift lvl = Ret None ∧
  ∃ th uh, sh_Header tsh = Some th ∧ sh_Header ush = Some uh ∧ h_Height uh = int64 (h_Height th + 1).
Proof using.
  intros R. unfold Verify. pose proof R as R'. unfold VerifyAdjacent in R'. bind_split R' uh Huh. bind_split R' th Hth.
  destruct (sh_Header ush) as [?|]; [|done]. injection Huh as ->. destruct (sh_Header tsh) as [?|]; [|done]. injection Hth as ->.
  cbn [deref mbind outcome_bind]. destruct (Z.eqb_spec (h_Height uh) (int64 (h_Height th + 1))) as [Ha|]; [|done]. cbn [negb].
  split; [done|]. by exists th, uh.
Qed.

Lemma lb_Height_header lb sh h hz : lb_SignedHeader lb = Some sh → sh_Header sh = Some h → lb_Height lb = Ret hz → hz = h_Height h.
Proof using. unfold lb_Height, lb_Header. intros -> Hh. cbn [deref mbind outcome_bind]. rewrite Hh. cbn [deref mbind outcome_bind]. by intros [= <-]. Qed.

Lemma decodes_height lb h : decodes lb → lb_Height lb = Ret h → is_int64 h.
Proof using.
  intros (hd & cm & vals & Hd) Hh. rewrite (dc_eq _ _ _ _ _ Hd) in Hh. cbn in Hh. injection Hh as <-. apply (ht_height _ (dc_header _ _ _ _ _ Hd)).
Qed.

Lemma sequential_loop_safe fuel new hn now : ∀ height v hv trace c c' tr,
  sequential_loop fuel height v trace new now c = Ret (c', inl tr) → on_chain v → decodes new → lb_Height new = Ret hn → lb_Height v = Ret hv →
  height = int64 (hv + 1) → on_chain new ∨ (tr = trace ∧ hn < height) ∨ collision_seen c c' [new].
Proof.
  induction fuel as [|fuel IH]; intros height v hv trace c c' tr R Hv Hn Hhn Hhv Hheight; cbn [sequential_loop] in R; [done|].
  apply bind_inl in R as (c0 & x0 & R0 & R). apply lift_inl in R0 as [-> E]. rewrite Hhn in E. injection E as <-.
  apply bind_inl in R as (c0 & x0 & R0 & R). apply lift_inl in R0 as [-> E]. rewrite Hhv in E. injection E as <-.
  destruct (Z.ltb_spec hn height); [injection R as <- <-; right; by left|].
  apply bind_inl in R as (c1 & interim & R1 & R).
  assert (same_trust c c1 ∧ decodes interim ∧ (height = hn ∧ interim = new ∨ height ≠ hn ∧ answered c c1 interim)) as (Hs1 & Hdi & Hint).
  { destruct (Z.eqb_spec height hn) as [->|]; [injection R1 as <- <-; split; [apply same_trust_refl|by auto] |].
    apply bind_inl in R1 as (c2 & r & R2 & R1). apply try_inl in R2. destruct r as [b|]; [|done]. injection R1 as <- <-.
    pose proof (lightBlockFromPrimary_answered _ _ _ _ R2). split; [by eapply frames_lightBlockFromPrimary|]. split; [by eapply answered_decodes|by right]. }
  apply bind_inl in R as (c2 & ih & R2 & R). apply lift_inl in R2 as [-> Hih]. apply bind_inl in R as (c2 & x2 & R2 & R). injection R2 as <- <-.
  apply bind_inl in R as (c2 & vsh & R2 & R). apply lift_inl in R2 as [-> Hvsh]. apply bind_inl in R as (c2 & ish & R2 & R). apply lift_inl in R2 as [-> Hish].
  apply bind_inl in R as (c2 & err & R2 & R). apply lift_inl in R2 as [-> Herr]. destruct err as [e|].
  - destruct e; try (cbn in R; done). destruct (ih =? hn); [done|]. apply bind_inl in R as (c2 & r & R2 & R). apply try_inl in R2. destruct r as [repl|]; [|done].
    apply bind_inl in R as (c3 & rh & R3 & R). apply lift_inl in R3 as [-> _]. apply bind_inl in R as (c3 & nh & R3 & R). apply lift_inl in R3 as [-> _].
    case_bool_decide; [|done]. pose proof (frames_findNewPrimary _ _ _ _ _ R2) as Hs2.
    destruct (IH _ _ _ _ _ _ _ R Hv Hn Hhn Hhv Hheight) as [?|[?|Hc]]; [by left|by right; left|right; right].
    eapply collision_seen_mono; [by eapply same_trust_trans|apply same_trust_refl| |exact Hc]. by left.
  - destruct (lb_SignedHeader v) as [?|] eqn:Ev; [|done]. injection Hvsh as ->. destruct (lb_SignedHeader interim) as [?|] eqn:Ei; [|done]. injection Hish as ->.
    apply (VerifyAdjacent_Verify _ (lb_ValidatorSet v) _ _ _ _ _ DefaultTrustLevel) in Herr as (Hver & th & uh & Hth & Huh & Hadj).
    pose proof (lb_Height_header _ _ _ _ Ev Hth Hhv) as ->. pose proof (lb_Height_header _ _ _ _ Ei Huh Hih) as ->.
    pose proof (frames_sequential_loop _ _ _ _ _ _ _ _ _ R) as Hs2.
    assert (∀ lb, lb = interim → lb ∈ [new] ∨ answered c c' lb) as Hseen.
    { intros lb ->. destruct Hint as [[_ ->]|[_ ?] ]; [left; by left|right; by eapply answered_mono; [apply same_trust_refl|..] ]. }
    destruct (Verify_safe chainID chain vals_at honest Hchain v vsh interim ish (lc_trustingPeriod c1) now (lc_maxClockDrift c1) DefaultTrustLevel) as [Hon|Hcol];
      [split_and!; done|done|done|done|done|exact Hver| |right; right; exists interim; split; [by apply Hseen|done] ].
    pose proof (decodes_height _ _ Hn Hhn). rewrite <-Hadj in Hheight. subst height.
    destruct (IH _ _ _ _ _ _ _ R Hon Hn Hhn Hih eq_refl) as [?|[[_ Hlt]|Hc] ]; [by left| |].
    + left. destruct Hint as [[_ <-]|[Hne _] ]; [done|]. exfalso. pose proof (decodes_height _ _ Hdi Hih). rewrite int64_id in Hlt; ulia.
    + right; right. eapply collision_seen_mono; [exact Hs1|apply same_trust_refl| |exact Hc]. by left.
Qed.

Lemma verifySequential_safe fuel t new now c c' :
  verifySequential fuel t new now c = Ret (c', inl tt) → on_chain t → decodes new → on_chain new ∨ collision_seen c c' [new].
Proof.
  unfold verifySequential. intros R Ht Hn. apply bind_inl in R as (c1 & th & R1 & R). apply lift_inl in R1 as [-> Hth].
  apply bind_inl in R as (c1 & trace & R1 & R). destruct Hn as (hd & cm & vals & Hd). pose proof (ex_intro _ hd (ex_intro _ cm (ex_intro _ vals Hd)) : decodes new) as Hn.
  assert (lb_Height new = Ret (h_Height hd)) as Hhn by (by rewrite (dc_eq _ _ _ _ _ Hd)).
  destruct (sequential_loop_safe _ _ _ _ _ _ _ _ _ _ _ R1 Ht Hn Hhn Hth eq_refl) as [?|[[-> _]|Hc] ]; [by left|cbn in R; done|right].
  eapply collision_seen_mono; [apply same_trust_refl|by eapply frames_detectDivergence| |exact Hc]. by left.
Qed.

(** ** The trusted store *)

Definition store_trusted (c : Client) : Prop :=
  (∀ k lb, ts_blocks (trustedStore c) !! k = Some lb → on_chain lb) ∧ (∀ lb, latestTrustedBlock c = Some lb → on_chain lb).

Lemma pruneLoop_subset n m pruned m' p : pruneLoop n m pruned = (m', p) → m' ⊆ m.
Proof using.
  revert m pruned. induction n as [|n IH]; intros m pruned; cbn [pruneLoop]; [by intros [= <- _]|].
  case_match; [by intros [= <- _]|]. intros Hm%IH. etrans; [exact Hm|]. apply delete_subseteq.
Qed.

Lemma Prune_subset s n : ts_blocks (Prune s n) ⊆ ts_blocks s.
Proof using. unfold Prune. case_match; [done|]. destruct (pruneLoop _ _ _) as [m p] eqn:Hm. cbn. by eapply pruneLoop_subset. Qed.

Lemma update_trusted l c c' :
  store_trusted c → on_chain l → updateTrustedLightBlock l c = Ret (c', inl tt) → store_trusted c'.
Proof using.
  intros [Hst Hlatest] Hl R. unfold updateTrustedLightBlock in R. apply bind_inl in R as (c0 & x0 & R0 & R). injection R0 as <- <-.
  apply bind_inl in R as (c0 & [s err] & R0 & R). apply lift_inl in R0 as [-> Hsave]. destruct err; [done|].
  apply bind_inl in R as (c0 & lh & R0 & R). apply lift_inl in R0 as [-> _]. apply bind_inl in R as (c0 & newer & R0 & R). apply lift_inl in R0 as [-> _].
  injection R as <-. unfold SaveLightBlock in Hsave. bind_split Hsave hh Hhh. case_match; [done|]. case_match; [done|]. injection Hsave as <-.
  assert (∀ k lb, (<[hh:=l]> (ts_blocks (trustedStore c)) : gmap Z LightBlock) !! k = Some lb → on_chain lb) as Hins
    by (intros k lb [[_ <-]|[_ ?] ]%lookup_insert_Some; [done|by eapply Hst]).
  split; cbn [trustedStore latestTrustedBlock with_trusted].
  - intros k lb. case_match; [|apply Hins]. intros Hk. apply (Hins k). eapply lookup_weaken; [exact Hk|]. apply Prune_subset.
  - destruct newer; [by intros lb [= <-]|apply Hlatest].
Qed.

Lemma dbs_LightBlock_inl s k lb : dbs_LightBlock s k = Ret (inl lb) → ts_blocks s !! k = Some lb.
Proof using. unfold dbs_LightBlock. case_match; [done|]. destruct (ts_blocks s !! k); [|done]. by intros [= <-]. Qed.

Lemma LightBlockBefore_inl s k lb : LightBlockBefore s k = Ret (inl lb) → ∃ k', ts_blocks s !! k' = Some lb.
Proof using. unfold LightBlockBefore. case_match; [done|]. case_match; [done|]. intros H'%dbs_LightBlock_inl. eauto. Qed.

Lemma TrustedLightBlock_inv height c c' r :
  store_trusted c → TrustedLightBlock height c = Ret (c', r) → c' = c ∧ ∀ b, r = inl b → on_chain b.
Proof using.
  intros [Hst _] R. unfold TrustedLightBlock, compareWithLatestHeight in R.
  assert (∀ h, (lc_bind lc_get (λ c, lc_bind (lc_lift (dbs_LightBlock (trustedStore c) h)) store_result)) c = Ret (c', r) → c' = c ∧ ∀ b, r = inl b → on_chain b) as Hl.
  { intros h Rh. cbn in Rh. unfold lc_bind, lc_lift in Rh. destruct (dbs_LightBlock (trustedStore c) h) as [x|] eqn:Hx; [|done]. cbn [mbind outcome_bind] in Rh.
    destruct x as [b|]; injection Rh as <- <-; [|done]. split; [done|]. intros b' [= <-]. by eapply Hst, dbs_LightBlock_inl. }
  apply bind_inv in R as [(c1 & h & R1 & R)|(e & R1 & ->)].
  - cbn in R1. repeat (case_match; [done|]). case_match; [injection R1 as <- <-; by apply Hl in R|]. case_match; [done|]. injection R1 as <- <-. by apply Hl in R.
  - cbn in R1. repeat case_match; by injection R1 as <-.
Qed.

Definition verify_func (c : Client) (fuel : nat) : LightBlock → LightBlock → Time → LC unit :=
  match verificationMode c with sequential => verifySequential fuel | skipping => verifySkippingAgainstPrimary fuel end.

Lemma verify_func_safe c0 fuel t new now c c' :
  verify_func c0 fuel t new now c = Ret (c', inl tt) → trust_level_ok (lc_trustLevel c) → on_chain t → decodes new →
  same_trust c c' ∧ (on_chain new ∨ collision_seen c c' [new]).
Proof.
  unfold verify_func. destruct (verificationMode c0); intros R Hlvl Ht Hn.
  - split; [by eapply frames_verifySequential|by eapply verifySequential_safe].
  - split; [by eapply frames_againstPrimary|by eapply againstPrimary_safe].
Qed.

Lemma verifyLightBlock_safe fuel new hn now c c' :
  store_trusted c → trust_level_ok (lc_trustLevel c) → decodes new → lb_Height new = Ret hn → FirstLightBlockHeight (trustedStore c) ≤ hn →
  verifyLightBlock fuel new now c = Ret (c', inl tt) → (on_chain new ∧ store_trusted c') ∨ collision_seen c c' [new].
Proof.
  intros [Hst Hlatest] Hlvl Hn Hhn Hfirst R. unfold verifyLightBlock in R. apply bind_inl in R as (c0 & x0 & R0 & R). injection R0 as <- <-.
  apply bind_inl in R as (c0 & x0 & R0 & R). apply lift_inl in R0 as [-> E]. rewrite Hhn in E. injection E as <-.
  apply bind_inl in R as (c0 & latest & R0 & R). apply lift_inl in R0 as [-> Hl]. apply bind_inl in R as (c0 & lh & R0 & R). apply lift_inl in R0 as [-> _].
  apply bind_inl in R as (c1 & [] & R1 & R). fold (verify_func c fuel) in R1.
  assert (∃ t, on_chain t ∧ verify_func c fuel t new now c = Ret (c1, inl tt)) as (t & Ht & Rt).
  { destruct (lh <=? hn).
    - exists latest. split; [|done]. destruct (latestTrustedBlock c) as [?|]; [|done]. injection Hl as ->. by apply Hlatest.
    - destruct (Z.ltb_spec hn (FirstLightBlockHeight (trustedStore c))); [lia|].
      apply bind_inl in R1 as (c2 & r & R2 & R1). apply lift_inl in R2 as [-> Hr]. apply bind_inl in R1 as (c2 & t & R2 & R1).
      destruct r as [t'|]; [|done]. injection R2 as <- <-. apply LightBlockBefore_inl in Hr as [k Hk]. exists t'. split; [by eapply Hst|done]. }
  destruct (verify_func_safe _ _ _ _ _ _ _ Rt Hlvl Ht Hn) as [Hs [Hon|Hc] ].
  - left. split; [done|]. eapply update_trusted; [|exact Hon|exact R]. split; [rewrite (st_store _ _ Hs)|rewrite (st_latest _ _ Hs)]; done.
  - right. destruct Hc as (lb & [?|(p & h & n & Hq & Ha)] & Hcol); exists lb; (split; [|done]); [by left|right].
    exists p, h, n. split; [|done]. rewrite (update_requests _ _ _ _ R). done.
Qed.
End safety.

(** ** Bisection ends *)

Section bisection.
Context `{StdTime, BatchLaws, Network}.
Variable chainID : bytes.
(** Providers answer with the height that was asked for. *)
Hypothesis Hnet : ∀ p h n lb, net_LightBlock p h n = inl lb → decodes chainID lb ∧ signable_block lb ∧ (0 < h → lb_Height lb = Ret h).

Definition at_height (h : Z) (lb : LightBlock) : Prop := decodes chainID lb ∧ signable_block lb ∧ lb_Height lb = Ret h.

Lemma at_height_ret h lb : at_height h lb → lb_Height lb = Ret h.
Proof using. by intros (_ & _ & ?). Qed.
Lemma at_height_pos h lb : at_height h lb → 0 < h.
Proof using.
  intros ((hd & cm & vals & Hd) & _ & Hh). rewrite (dc_eq _ _ _ _ _ Hd) in Hh. cbn in Hh. injection Hh as <-.
  by destruct (decoded_inv _ _ _ _ _ Hd) as (_ & _ & Hpos & _).
Qed.

Lemma pivot_between v h : 0 < v → v + 2 ≤ h → 9 * h ≤ MaxInt64 → v < pivot v h < h.
Proof using.
  intros Hv Hh Hmax. unfold pivot, verifySkippingNumerator, verifySkippingDenominator. rewrite (int64_id (h - v)) by ulia.
  rewrite (int64_id ((h - v) * 9)) by ulia. rewrite Z.quot_div_nonneg by lia.
  assert (1 ≤ (h - v) * 9 / 16 < h - v) as Hd.
  { split; [apply Z.div_le_lower_bound; lia|apply Z.div_lt_upper_bound; lia]. }
  rewrite int64_id by ulia. lia.
Qed.

Lemma client_Verify_total c v hv u hu now :
  0 ≤ Numerator (lc_trustLevel c) ≤ MaxInt64 → 0 < Denominator (lc_trustLevel c) ≤ MaxInt64 → at_height hv v → at_height hu u →
  ∃ r, client_Verify c v u now = Ret r ∧ 0 < hv ∧ (r = None → hv < hu) ∧ (∀ a b, r = Some (ErrNewValSetCantBeTrusted a b) → hv + 2 ≤ hu).
Proof.
  intros Hn Hd ((th & tc & tv & Ht) & _ & Hhv) ((uh & uc & uv & Hu) & He & Hhu). unfold client_Verify.
  rewrite (dc_eq _ _ _ _ _ Ht) in *. rewrite (dc_eq _ _ _ _ _ Hu) in *. cbn in Hhv, Hhu. injection Hhv as <-. injection Hhu as <-.
  cbn [lb_SignedHeader lb_ValidatorSet deref mbind outcome_bind].
  destruct (Verify_total chainID _ th tc tv _ uh uc uv (lc_trustingPeriod c) now (lc_maxClockDrift c) (lc_trustLevel c) Ht Hu (He _ _ eq_refl eq_refl) Hn Hd) as (r & Hr & H1' & H2').
  destruct (decoded_inv _ _ _ _ _ Ht) as (_ & _ & Hpos & _). exists r. done.
Qed.

(** One round of the loop. *)
Lemma skipping_step f source cache depth v trace now c cur r hv hc :
  slice_get cache depth = Ret cur → client_Verify c v cur now = Ret r → lb_Height v = Ret hv → lb_Height cur = Ret hc →
  skipping_loop (S f) source cache depth v trace now c =
    match r with
    | None => if depth =? 0 then lc_ret (trace ++ [cur]) c else skipping_loop f source (take (Z.to_nat depth) cache) 0 cur (trace ++ [cur]) now c
    | Some ((ErrNewValSetCantBeTrusted _ _) as e) =>
        if depth =? len cache - 1 then
          lc_bind (ask source (pivot hv hc)) (λ r, match r with
          | inl interimBlock => skipping_loop f source ((cache ++ [interimBlock]) ++ [interimBlock]) (depth + 1) v trace now
          | inr (ErrLightBlockNotFound | ErrNoResponse | ErrHeightTooHigh) => lc_fail (EVerify e)
          | inr pe => lc_fail (ErrVerificationFailed hv (pivot hv hc) (EProvider pe))
          end) c
        else skipping_loop f source cache (depth + 1) v trace now c
    | Some e => lc_fail (ErrVerificationFailed hv hc (EVerify e)) c
    end.
Proof using.
  intros Hcur Hr Hv Hc. cbn [skipping_loop]. unfold lc_bind at 1 2 3 4 5, lc_get, lc_lift. cbn [mbind outcome_bind].
  rewrite Hcur. cbn [mbind outcome_bind]. rewrite Hr. cbn [mbind outcome_bind]. rewrite Hv. cbn [mbind outcome_bind]. rewrite Hc. cbn [mbind outcome_bind].
  destruct r as [[]|]; try done; by destruct (depth =? _).
Qed.

(** The blocks in the cache: the one at position [i] is at least [i / 2]
    heights below the target, because blocks are fetched in pairs, each
    below the one before. *)
Definition cache_ok (N : Z) (cache : list LightBlock) : Prop :=
  ∀ i b, cache !! i = Some b → ∃ h, at_height h b ∧ h ≤ N ∧ 2 * h + Z.of_nat i ≤ 2 * N + 1.

Lemma cache_ok_take N n cache : cache_ok N cache → cache_ok N (take n cache).
Proof using. intros Hc i b Hi. apply lookup_take_Some in Hi as [Hi _]. by apply Hc. Qed.

Lemma cache_ok_grow N cache cur hc interim h :
  cache_ok N cache → last cache = Some cur → at_height hc cur → at_height h interim → h < hc → cache_ok N ((cache ++ [interim]) ++ [interim]).
Proof using.
  intros Hc Hl Hcur Hi Hlt i b Hb. rewrite last_lookup in Hl. pose proof (lookup_lt_Some _ _ _ Hl).
  destruct (Hc _ _ Hl) as (hc' & Hcur' & HN & Hb'). assert (hc' = hc) as -> by (pose proof (at_height_ret _ _ Hcur); pose proof (at_height_ret _ _ Hcur'); congruence).
  rewrite <-app_assoc in Hb. apply lookup_app_Some in Hb as [Hb|[Hge Hb]]; [by apply Hc|]. pose proof (lookup_lt_Some _ _ _ Hb) as Hlen. cbn in Hlen.
  assert (b = interim) as -> by (clear -Hb; apply list_elem_of_lookup_2 in Hb; set_solver). exists h. split; [done|]. lia.
Qed.

(** How many rounds are left, at most. *)
Definition rounds_left (N : Z) (cache : list LightBlock) (depth hv hlast : Z) : Z :=
  Z.max 0 (N - hv) * (2 * N + 3) + (len cache - depth + 2 * Z.max 0 (hlast - hv)).

Lemma rounds_left_reset N cache depth hv hc hlast cache' hl :
  hv < hc → hc ≤ N → 0 < hv → 0 ≤ depth < len cache → 0 < len cache' → 0 < hl → 2 * hl + (len cache' - 1) ≤ 2 * N + 1 →
  rounds_left N cache' 0 hc hl < rounds_left N cache depth hv hlast.
Proof using.
  intros. unfold rounds_left. rewrite (Z.max_r 0 (N - hv)), (Z.max_r 0 (N - hc)) by lia.
  assert ((N - hc) * (2 * N + 3) + (2 * N + 3) ≤ (N - hv) * (2 * N + 3)) by nia. lia.
Qed.

Lemma skipping_loop_returns source now N : 9 * N ≤ MaxInt64 → ∀ fuel cache depth v hv lastb hlast trace c,
  0 ≤ Numerator (lc_trustLevel c) ≤ MaxInt64 → 0 < Denominator (lc_trustLevel c) ≤ MaxInt64 →
  cache_ok N cache → at_height hv v → last cache = Some lastb → at_height hlast lastb →
  0 ≤ depth < len cache → rounds_left N cache depth hv hlast ≤ Z.of_nat fuel →
  ∃ c' r, skipping_loop fuel source cache depth v trace now c = Ret (c', r).
Proof.
  intros HN. induction fuel as [|f IH]; intros cache depth v hv lastb hlast trace c Hnum Hden Hcache Hv Hlast Hhl Hdepth Hm.
  { exfalso. destruct (Hcache _ lastb ltac:(by rewrite <-last_lookup)) as (h & Hh%at_height_pos & ? & ?). unfold rounds_left in Hm.
    assert (0 ≤ Z.max 0 (N - hv) * (2 * N + 3)) by (apply Z.mul_nonneg_nonneg; lia). lia. }
  destruct (slice_get_in_range cache depth Hdepth) as (cur & Hcur & Hcl). destruct (Hcache _ _ Hcl) as (hc & Hc & HcN & Hci).
  destruct (client_Verify_total c v hv cur hc now Hnum Hden Hv Hc) as (r & Hr & Hpos & Hnone & Hcant).
  rewrite (skipping_step f source cache depth v trace now c cur r hv hc Hcur Hr (at_height_ret _ _ Hv) (at_height_ret _ _ Hc)).
  destruct r as [e|].
  - destruct e as [| | | |got needed| |]; try by eexists _, _. specialize (Hcant _ _ eq_refl).
    destruct (Z.eqb_spec depth (len cache - 1)) as [Hd|Hd].
    + assert (lastb = cur) as ->. { rewrite last_lookup in Hlast. replace (pred (length cache)) with (Z.to_nat depth) in Hlast by (unfold len in *; lia). congruence. }
      assert (hlast = hc) as -> by (pose proof (at_height_ret _ _ Hc); pose proof (at_height_ret _ _ Hhl); congruence).
      pose proof (pivot_between hv hc Hpos Hcant ltac:(lia)) as Hpv. unfold lc_bind, ask. cbn [mbind outcome_bind].
      destruct (net_LightBlock source (pivot hv hc) (requests c)) as [interim|pe] eqn:Ha; [|destruct pe; by eexists _, _].
      destruct (Hnet _ _ _ _ Ha) as (Hdi & Hei & Hhi). specialize (Hhi ltac:(lia)). assert (at_height (pivot hv hc) interim) as Hint by done.
      eapply IH; [done|done|by eapply (cache_ok_grow N cache cur hc); [..|exact Hint|lia]|done|by rewrite last_snoc|exact Hint| |]; unfold rounds_left in *;
        rewrite !len_app; change (len [interim]) with 1; lia.
    + eapply IH; [done|done|done|done|exact Hlast|exact Hhl|lia|]. unfold rounds_left in *. lia.
  - specialize (Hnone eq_refl). destruct (Z.eqb_spec depth 0); [by eexists _, _|].
    assert (len (take (Z.to_nat depth) cache) = depth) as Hlen by (unfold len in *; rewrite length_take; lia).
    destruct (last (take (Z.to_nat depth) cache)) as [lb|] eqn:Hlb; [|apply last_None in Hlb; rewrite Hlb in Hlen; unfold len in Hlen; simpl in Hlen; lia].
    pose proof Hlb as Hlk. rewrite last_lookup in Hlk. destruct (cache_ok_take _ _ _ Hcache _ _ Hlk) as (hl & Hhlb & Hhl1 & Hhl2).
    eapply IH; [done|done|by apply cache_ok_take|exact Hc|exact Hlb|exact Hhlb|lia|].
    apply Z.lt_succ_r. rewrite <-Nat2Z.inj_succ. eapply Z.lt_le_trans; [|exact Hm].
    by apply rounds_left_reset; [..|lia|apply at_height_pos in Hhlb|unfold len in *; lia].
Qed.
End bisection.
