(* ===== verification/LightTheorems.v ===== *)
(** * Theorems about the light client

    What its verification guarantees, that it ends, and where the client and
    its detector accept what they did not verify. *)
From S2P Require Import Prelude.
From S2P Require Import Proto.
From S2P Require Import Vote.
From S2P Require Import Validator.
From S2P Require Import SignBytes.
From S2P Require Import ValidatorSet.
From S2P Require Import ValidatorSetPriority.
From S2P Require Import Quorum.
From S2P Require Import Validation.
From S2P Require Import CommitSafety.
From S2P Require Import CommitTheorems.
From S2P Require Import Merkle.
From S2P Require Import Block.
From S2P Require Import BlockProofs.
From S2P Require Import LightVerifier.
From S2P Require Import LightClient.
From S2P Require Import LightSafety.
From S2P Require Import LightClientProofs.

(** ** A concrete chain for light clients

    Four validators, one of which is faulty and silent, sign the blocks of a
    chain whose headers all name them; a checksum stands for the hash and a
    list of the messages that were signed for the signatures. *)

Definition sum_hash : Crypto := {| key_address := KeyBytes; verify_signature := λ _ _ _, false; sha256 := checksum |}.

Definition lx_validator (c : byte) : Validator := mkValidator (replicate 20 c) (Some (mkPubKey "ed25519" (replicate 20 c))) 1 0.
Definition lx_vals : ValidatorSet :=
  mkValidatorSet [lx_validator x01; lx_validator x02; lx_validator x03; lx_validator x04] (Some (lx_validator x01)) 4 true.
Definition ret_or_nil (o : outcome bytes) : bytes := match o with Ret h => h | Panic _ => [] end.
Definition lx_vhash : bytes := Eval vm_compute in ret_or_nil (@ValidatorSet_Hash sum_hash lx_vals).

Definition lx_chain_id : bytes := [x61].
Definition lx_header (h : Z) (app : bytes) (last : bytes) : Header :=
  mkHeader (mkConsensus BlockProtocol 0) lx_chain_id h (mkTime (Z.min (1700000000 + h) MaxInt64) 0)
    (if decide (last = []) then nilBlockID else mkBlockID last (mkPartSetHeader 1 (replicate 32 x0b))) [] [] lx_vhash lx_vhash [] app [] [] (replicate 20 x01).
(** The hashes of the headers at heights 1, 2 and 3. *)
Definition lx_hash1 : bytes := Eval vm_compute in ret_or_nil (@Header_Hash sum_hash example_time (lx_header 1 [] [])).
Definition lx_hash2 : bytes := Eval vm_compute in ret_or_nil (@Header_Hash sum_hash example_time (lx_header 2 [] lx_hash1)).
Definition lx_hash3 : bytes := Eval vm_compute in ret_or_nil (@Header_Hash sum_hash example_time (lx_header 3 [] lx_hash2)).
Definition lx_chain (h : Z) : Header := lx_header h [] (if h =? 2 then lx_hash1 else if h =? 3 then lx_hash2 else []).
Definition lx_hash (h : Z) : bytes := if h =? 1 then lx_hash1 else if h =? 2 then lx_hash2 else lx_hash3.

Definition lx_id (hash : bytes) : BlockID := mkBlockID hash (mkPartSetHeader 1 (replicate 32 x0b)).
Definition lx_sig (c : byte) : CommitSig := mkCommitSig BlockIDFlagCommit (replicate 20 c) (mkTime 1700000005 0) (replicate 20 c).
Definition lx_commit (h : Z) (hash : bytes) : Commit := mkCommit h 0 (lx_id hash) [lx_sig x01; lx_sig x02; lx_sig x03; NewCommitSigAbsent].
Definition lx_block (h : Z) (header : Header) (hash : bytes) : LightBlock :=
  mkLightBlock (Some (mkSignedHeader (Some header) (Some (lx_commit h hash)))) (Some lx_vals).
Definition lx_light (h : Z) : LightBlock := lx_block h (lx_chain h) (lx_hash h).

(** The vote that the signatures of a block are for. *)
Definition lx_vote (h : Z) : Vote := mkVote PrecommitType h 0 (lx_id (lx_hash h)) (mkTime 1700000005 0) [] 0 [] [] [].
Definition lx_message (h : Z) : bytes := ret_or_nil (@VoteSignBytes example_time lx_chain_id (lx_vote h)).
Definition lx_signed : list bytes := Eval vm_compute in [lx_message 1; lx_message 2; lx_message 3].

Definition lx_crypto : Crypto := {|
  key_address := KeyBytes;
  verify_signature := λ pk msg sig, bool_decide (msg ∈ lx_signed) && bool_decide (sig = KeyBytes pk);
  sha256 := checksum |}.
Definition lx_batch : BatchCrypto := {|
  batch_add := λ _ _ _ _, true;
  batch_verify := λ l, (forallb (λ '(pk, msg, sig), @verify_signature lx_crypto pk msg sig) l,
                        (λ '(pk, msg, sig), @verify_signature lx_crypto pk msg sig) <$> l) |}.
Lemma lx_batch_laws : @BatchLaws lx_crypto lx_batch.
Proof. by split. Qed.
Lemma lx_hash_size : @HashSize lx_crypto.
Proof. exact checksum_size. Qed.

Definition lx_honest (pk : PubKey) : bool := negb (bool_decide (KeyBytes pk = replicate 20 x04)).

Lemma lx_vals_valid : valid_set lx_vals.
Proof.
  split; [done| |by right].
  split; [apply (bool_decide_unpack _); vm_compute; exact I|repeat constructor|by vm_compute|repeat constructor; by vm_compute].
Qed.
Lemma lx_validator_typed c : validator_typed (lx_validator c).
Proof. split; [done|]. intros pk [= <-]. vm_compute. discriminate. Qed.
Lemma lx_set_typed : set_typed lx_vals.
Proof. split; [done|]. unfold lx_vals. cbn [Validators]. rewrite !Forall_cons. split_and!; (apply lx_validator_typed || constructor). Qed.
Lemma lx_keys : keys_ok lx_vals.
Proof.
  split.
  - intros p [= <-]. exists (lx_validator x01). split; [by left|done].
  - intros _. exists "ed25519"%string. by intros v pk [->|[->|[->|[->|[]%not_elem_of_nil]%elem_of_cons]%elem_of_cons]%elem_of_cons]%elem_of_cons [= <-].
Qed.

Lemma lx_header_typed h app last :
  is_int64 h → len app ≤ 100 → len last = 32 ∨ last = [] → header_typed (lx_header h app last).
Proof.
  intros Hh Happ Hlast. split; [done|done|done| |].
  - unfold lx_header. cbn [h_LastBlockID]. case_decide; [done|]. destruct Hlast as [Hl|]; [|done]. split; [|done].
    unfold BlockID_ValidateBasic, ValidateHash. cbn [BlockHash BlockParts]. rewrite Hl. done.
  - rewrite !Forall_cons. split_and!; [..|constructor]; apply (short_le _ 100); try lia; (exact Happ || (vm_compute; discriminate)).
Qed.

Lemma lx_decoded h app last hash :
  is_int64 h → len app ≤ 100 → len last = 32 ∨ last = [] →
  @LightBlock_ValidateBasic lx_crypto example_time (lx_block h (lx_header h app last) hash) lx_chain_id = Ret None →
  @decodes example_time lx_crypto lx_chain_id (lx_block h (lx_header h app last) hash).
Proof.
  intros Hh Happ Hlast Hbasic. exists (lx_header h app last), (lx_commit h hash), lx_vals.
  split; [done|done|by apply lx_header_typed|apply lx_set_typed|apply valid_tallied, lx_vals_valid|apply lx_keys|done..].
Qed.

Lemma lx_light_decodes h : h = 1 ∨ h = 2 ∨ h = 3 → @decodes example_time lx_crypto lx_chain_id (lx_light h).
Proof.
  intros [->|[->| ->]]; (apply lx_decoded; [done|done| |vm_compute; reflexivity]); [by right|by left..].
Qed.

Lemma lx_light_signable h : h = 1 ∨ h = 2 ∨ h = 3 → @signable_block example_time (lx_light h).
Proof.
  intros Hh sh commit [= <-] [= <-]. split; [by destruct Hh as [->|[->| ->]]|].
  unfold lx_commit. cbn [commit_Signatures]. rewrite !Forall_cons. split_and!; [..|by constructor]; by eexists.
Qed.

Lemma lx_real_chain : @real_chain example_time lx_crypto lx_chain_id lx_chain (λ _, lx_vals) lx_honest.
Proof.
  split.
  - intros h Hh. split; [|apply lx_set_typed]. apply lx_header_typed; [ulia|done|]. repeat case_match; by auto.
  - intros h Hh. unfold lx_chain, lx_header, StdTimeMarshal, example_time. cbn [h_Time Seconds Nanos]. rewrite decide_True by ulia. by eexists.
  - done.
  - intros h _. vm_compute. reflexivity.
  - done.
  - intros h _. vm_compute. reflexivity.
  - intros pk vote bz sig _ Hr Hty Hpos Hbz [Hin%bool_decide_eq_true _]%andb_true_iff _.
    assert (∀ h, h = 1 ∨ h = 2 ∨ h = 3 → @VoteSignBytes example_time lx_chain_id (lx_vote h) = Ret bz →
      @Header_Hash lx_crypto example_time (lx_chain (vote_Height vote)) = Ret (BlockHash (vote_BlockID vote))) as Hfin.
    { intros h Hh Hm. destruct (@VoteSignBytes_determine example_time example_time_laws lx_chain_id lx_chain_id vote (lx_vote h) bz) as (_ & _ & -> & _ & -> & _);
        [done| |done|done|]; [|destruct Hh as [->|[->| ->]]; vm_compute; reflexivity].
      split; cbn; [done|destruct Hh as [->|[->| ->]]; done|done|done|done]. }
    unfold lx_signed in Hin. repeat (apply elem_of_cons in Hin as [->|Hin]; [by first [apply (Hfin 1); [auto|vm_compute; reflexivity]|apply (Hfin 2); [auto|vm_compute; reflexivity]|apply (Hfin 3); [auto|vm_compute; reflexivity]]|]).
    by apply elem_of_nil in Hin.
Qed.

(** ** Safety *)

(** C4: a light client trusts only the chain.  Less than a third of the power of
    every validator set of the chain is faulty and the other validators
    precommit only its blocks or nil.  A client that trusts only blocks of the
    chain and asks for a height not below the first of them gets a block of
    the chain, and still trusts only blocks of the chain, whatever blocks of
    the requested heights the providers answer with; or one of the answers
    gives a collision of the hash function with a header or a validator set
    of the chain.  Of an answer only what decoding it ensures is assumed
    ([decoded]): it passes [LightBlock.ValidateBasic] and its validator set
    was made by [ValidatorSetFromExistingValidators]
    ([existing_validators]).  Below the first trusted height the client
    stores blocks it did not verify ([backwards_stores_unverified]). *)
Theorem light_client_safe `{StdTimeLaws, BatchLaws, !HashSize, Network} chainID chain vals_at honest fuel height now c c' lb :
  real_chain chainID chain vals_at honest →
  (∀ p h n b, net_LightBlock p h n = inl b → decodes chainID b ∧ (0 < h → lb_Height b = Ret h)) →
  store_trusted chainID chain vals_at c → trust_level_ok (lc_trustLevel c) → FirstLightBlockHeight (trustedStore c) ≤ height →
  VerifyLightBlockAtHeight fuel height now c = Ret (c', inl lb) →
  (on_chain chainID chain vals_at lb ∧ store_trusted chainID chain vals_at c') ∨ collision_seen chainID chain vals_at c c' [].
Proof.
  intros Hchain Hnet Hst Hlvl Hfirst R. unfold VerifyLightBlockAtHeight in R. destruct (Z.leb_spec height 0); [done|].
  apply bind_inl in R as (c1 & r & R1 & R). apply try_inl in R1.
  assert (c1 = c ∧ ∀ b, r = inl b → on_chain chainID chain vals_at b) as [-> Hon] by (by eapply TrustedLightBlock_inv).
  destruct r as [b|e]; [injection R as <- <-; left; split; [by apply Hon|done] |].
  apply bind_inl in R as (c2 & l & R2 & R). pose proof (lightBlockFromPrimary_answered _ _ _ _ R2) as Ha. pose proof (frames_lightBlockFromPrimary _ _ _ _ R2) as Hs.
  apply bind_inl in R as (c3 & [] & R3 & R). injection R as <- <-. pose proof (lightBlockFromPrimary_at _ _ _ _ R2) as (p & n & _ & Hans).
  destruct (Hnet _ _ _ _ Hans) as [Hd Hh]. specialize (Hh ltac:(lia)).
  destruct (verifyLightBlock_safe chainID chain vals_at honest Hchain (λ p h n b Hb, proj1 (Hnet p h n b Hb)) fuel l height now c2 c3) as [?|Hc];
    [|by rewrite (st_level _ _ Hs)|done|done|by rewrite (st_store _ _ Hs)|exact R3|by left|right].
  - destruct Hst as [? ?]. split; [rewrite (st_store _ _ Hs)|rewrite (st_latest _ _ Hs)]; done.
  - pose proof (verifyLightBlock_requests _ _ _ _ _ _ R3) as Hq. pose proof (st_requests _ _ Hs).
    destruct Hc as (b & [->%list_elem_of_singleton|(p' & h' & n' & ? & ?)] & Hcol).
    + exists l. split; [|done]. right. destruct Ha as (p' & h' & n' & ? & ?). exists p', h', n'. split; [lia|done].
    + exists b. split; [|done]. right. exists p', h', n'. split; [lia|done].
Qed.

(** C26: bisection ends.  Whatever blocks of the requested heights a provider
    answers with, and whether it answers, [verifySkipping] returns, without
    a panic, within [max 0 (hn - ht) * (2 * hn + 5) + 1] rounds from height
    [ht] to height [hn].  The heights are at most a ninth of the largest
    [int64] (the pivot is computed as 9/16 of the distance), and the answers
    decode and the votes of their commits have sign bytes (the block id is
    well-formed and the times are in range; the client panics on others,
    [bad_parts_hash_panics]). *)
Theorem verifySkipping_returns `{StdTime, BatchLaws, Network} chainID source trusted ht new hn now c fuel :
  (∀ p h n b, net_LightBlock p h n = inl b → decodes chainID b ∧ signable_block b ∧ (0 < h → lb_Height b = Ret h)) →
  0 ≤ Numerator (lc_trustLevel c) ≤ MaxInt64 → 0 < Denominator (lc_trustLevel c) ≤ MaxInt64 →
  decodes chainID trusted → signable_block trusted → lb_Height trusted = Ret ht →
  decodes chainID new → signable_block new → lb_Height new = Ret hn → 9 * hn ≤ MaxInt64 →
  Z.max 0 (hn - ht) * (2 * hn + 5) + 1 ≤ Z.of_nat fuel →
  ∃ c' r, verifySkipping fuel source trusted new now c = Ret (c', r).
Proof.
  intros Hnet Hnum Hden Ht Het Hht Hn Hen Hhn Hmax Hfuel. assert (at_height chainID hn new) as Hnew by done.
  apply (skipping_loop_returns chainID Hnet source now hn Hmax fuel [new] 0 trusted ht new hn); [done|done| |done|done|done|change (len [new]) with 1; lia|].
  - intros i b Hb. apply list_lookup_singleton_Some in Hb as [-> <-]. exists hn. split; [done|lia].
  - unfold rounds_left. change (len [new]) with 1. lia.
Qed.

(** ** Verifying backwards *)

Section backwards.
Context `{StdTime, Crypto, !BatchCrypto, Network}.

Lemma fetch_primary h c b :
  net_LightBlock (primary c) h (requests c) = inl b → lightBlockFromPrimary h c = Ret (with_requests c (S (requests c)), inl b).
Proof using. intros Hb. unfold lightBlockFromPrimary. rewrite bind_get. erewrite bind_ret by reflexivity. by rewrite Hb. Qed.

(** One verified step back to the height that was asked for. *)
Lemma backwards_one fuel fh fg rb rh c :
  h_Height fh = h_Height fg + 1 → is_int64 (h_Height fg) → net_LightBlock (primary c) (h_Height fg) (requests c) = inl rb → lb_Header rb = Ret rh →
  h_Height rh = h_Height fg → VerifyBackwards rh fh = Ret None → backwards (S (S fuel)) fh fg c = Ret (with_requests c (S (requests c)), inl tt).
Proof using.
  intros Hf Hi Hn Hrb Hr Hver. cbn [backwards]. destruct (Z.leb_spec (h_Height fh) (h_Height fg)); [lia|].
  rewrite Hf, Z.add_simpl_r, int64_id by done. rewrite (bind_ret _ _ _ _ _ (fetch_primary _ _ _ Hn)), (bind_lift _ _ _ _ Hrb), (bind_lift _ _ _ _ Hver).
  by destruct (Z.leb_spec (h_Height rh) (h_Height fg)); [|lia].
Qed.

Lemma missing_block h c :
  0 < h → h ≤ LastLightBlockHeight (trustedStore c) → ts_blocks (trustedStore c) !! h = None →
  TrustedLightBlock h c = Ret (c, inr (EStore ErrStoreLightBlockNotFound)).
Proof using.
  intros Hpos Hlast Hnone. unfold TrustedLightBlock, compareWithLatestHeight.
  assert (dbs_LightBlock (trustedStore c) h = Ret (inr ErrStoreLightBlockNotFound)) as Hd
    by (unfold dbs_LightBlock; destruct (Z.leb_spec h 0); [lia|]; by rewrite Hnone).
  erewrite bind_ret; [rewrite bind_get; by rewrite (bind_lift _ _ _ _ Hd)|]. rewrite bind_get.
  destruct (Z.eqb_spec (LastLightBlockHeight (trustedStore c)) (-1)); [lia|]. destruct (Z.ltb_spec (LastLightBlockHeight (trustedStore c)) h); [lia|].
  destruct (Z.eqb_spec h 0); [lia|]. by destruct (Z.ltb_spec h 0); [lia|].
Qed.

(** Saving a block that is older than the latest, with room in the store. *)
Lemma save_older l h c latest hl :
  lb_Height l = Ret h → 0 < h → encodable l = true → latestTrustedBlock c = Some latest → lb_Height latest = Ret hl → h < hl →
  0 ≤ ts_size (trustedStore c) < 65535 → ts_size (trustedStore c) < pruningSize c →
  updateTrustedLightBlock l c =
    Ret (with_trusted c (mkDbs (<[h := l]> (ts_blocks (trustedStore c))) (ts_size (trustedStore c) + 1)) (Some latest), inl tt).
Proof using.
  intros Hl Hpos Henc Hlatest Hhl Hlt Hsize Hprune. unfold updateTrustedLightBlock. rewrite bind_get.
  assert (SaveLightBlock (trustedStore c) l = Ret (mkDbs (<[h := l]> (ts_blocks (trustedStore c))) (ts_size (trustedStore c) + 1), None)) as Hs.
  { unfold SaveLightBlock. rewrite Hl. cbn [mbind outcome_bind]. destruct (Z.leb_spec h 0); [lia|]. rewrite Henc. cbn [negb]. unfold uint16.
    by rewrite Z.mod_small by lia. }
  rewrite (bind_lift _ _ _ _ Hs), (bind_lift _ _ _ _ Hl), Hlatest, Hhl. erewrite bind_lift by reflexivity.
  destruct (Z.ltb_spec 0 (pruningSize c)); [|lia]. unfold Prune. cbn [ts_size]. destruct (Z.leb_spec (ts_size (trustedStore c) + 1) (pruningSize c)); [|lia].
  by destruct (Z.ltb_spec hl h); [lia|].
Qed.
End backwards.

(** A header older than the first trusted one is not compared with the
    header that is verified.  The client fetches a block, checks the chain of
    hashes over headers it fetches again, and stores the block it fetched
    first, which no check relates to them: a primary that answers the first
    request with any block of that height and the second with the real one
    makes the client trust the first. *)
Theorem backwards_stores_unverified `{StdTime, Crypto, !BatchCrypto, Network} fuel h now c forged real rh first fh latest hl :
  0 < h → FirstLightBlockHeight (trustedStore c) = h + 1 → h + 1 ≤ LastLightBlockHeight (trustedStore c) → h + 1 ≤ MaxInt64 →
  ts_blocks (trustedStore c) !! h = None → ts_blocks (trustedStore c) !! (h + 1) = Some first → lb_Header first = Ret fh → h_Height fh = h + 1 →
  latestTrustedBlock c = Some latest → lb_Height latest = Ret hl → h < hl →
  0 ≤ ts_size (trustedStore c) < 65535 → ts_size (trustedStore c) < pruningSize c →
  net_LightBlock (primary c) h (requests c) = inl forged → lb_Height forged = Ret h → encodable forged = true →
  net_LightBlock (primary c) h (S (requests c)) = inl real → lb_Header real = Ret rh → h_Height rh = h → VerifyBackwards rh fh = Ret None →
  ∃ c', VerifyLightBlockAtHeight (S (S fuel)) h now c = Ret (c', inl forged) ∧ ts_blocks (trustedStore c') !! h = Some forged.
Proof.
  intros Hpos Hfirst Hlast Hmax Hnone Hblock Hfh Hfhh Hlatest Hhl Hlt Hsize Hprune Hf Hhf Henc Hreal Hrh Hrhh Hver.
  destruct (lb_Header forged) as [fg|] eqn:Hfg; [|unfold lb_Height in Hhf; by rewrite Hfg in Hhf].
  assert (h_Height fg = h) as Hfgh by (unfold lb_Height in Hhf; rewrite Hfg in Hhf; by injection Hhf).
  eexists. split; [|].
  - unfold VerifyLightBlockAtHeight. destruct (Z.leb_spec h 0); [lia|]. rewrite (bind_try _ _ _ _ _ (missing_block h c Hpos ltac:(lia) Hnone)).
    rewrite (bind_ret _ _ _ _ _ (fetch_primary _ _ _ Hf)). set (c1 := with_requests c (S (requests c))).
    assert (verifyLightBlock (S (S fuel)) forged now c1 = updateTrustedLightBlock forged (with_requests c1 (S (requests c1)))) as Hv.
    { unfold verifyLightBlock. rewrite bind_get. rewrite (bind_lift _ _ _ _ Hhf). change (latestTrustedBlock c1) with (latestTrustedBlock c). rewrite Hlatest.
      erewrite bind_lift by reflexivity. rewrite (bind_lift _ _ _ _ Hhl). erewrite bind_ret; [reflexivity|]. destruct (Z.leb_spec hl h); [lia|].
      change (trustedStore c1) with (trustedStore c). rewrite Hfirst. destruct (Z.ltb_spec h (h + 1)); [|lia].
      erewrite bind_lift by (unfold dbs_LightBlock; destruct (Z.leb_spec (h + 1) 0); [lia|]; rewrite Hblock; reflexivity).
      erewrite bind_ret by reflexivity. rewrite (bind_lift _ _ _ _ Hfh), (bind_lift _ _ _ _ Hfg).
      eapply backwards_one; [lia|rewrite Hfgh; ulia|by rewrite Hfgh|done|lia|done]. }
    erewrite bind_ret; [reflexivity|]. rewrite Hv. by eapply (save_older _ h _ latest hl).
  - cbn [trustedStore with_trusted ts_blocks]. by rewrite lookup_insert_eq.
Qed.

(** ** The detector *)

Section detector.
Context `{StdTime, Crypto, !BatchCrypto, Network}.

(** The comparison with a witness that answers with another block. *)
Lemma compare_other l hl hash vals prio w i b bhash bvals bprio c :
  lb_Height l = Ret hl → lb_Hash l = Ret hash → lb_ValidatorSet l = Some vals → default [] (ProposerPriorityHash vals) = prio →
  net_LightBlock w hl (requests c) = inl b → lb_Hash b = Ret bhash → lb_ValidatorSet b = Some bvals → default [] (ProposerPriorityHash bvals) = bprio → bhash ≠ hash →
  compareNewLightBlockWithWitness l w i c =
    Ret (with_requests c (S (requests c)),
         inl (Some (ErrConflictingHeaders b i) :: (if bool_decide (prio = bprio) then [] else [Some (ErrProposerPrioritiesDiverge i)]) ++ [None])).
Proof using.
  intros Hl Hh Hv Hp Hb Hbh Hbv Hbp Hne. unfold compareNewLightBlockWithWitness. rewrite (bind_lift _ _ _ _ Hl). erewrite bind_ret by reflexivity. rewrite Hb.
  unfold compare_hashes. rewrite (bind_lift _ _ _ _ Hh), (bind_lift _ _ _ _ Hbh), Hv, Hbv. do 2 erewrite bind_lift by reflexivity.
  rewrite Hp, Hbp. by rewrite bool_decide_eq_false_2 by done.
Qed.

(** A conflicting header whose witness does not answer any more. *)
Lemma unsupported_conflict fuel t0 rest h0 target ht w i now c pe :
  lb_Height t0 = Ret h0 → lb_Height target = Ret ht → h0 < ht → witnesses c !! Z.to_nat i = Some w → 0 ≤ i →
  net_LightBlock w h0 (requests c) = inr pe →
  handleConflictingHeaders fuel (t0 :: rest) target i now c = Ret (with_requests c (S (requests c)), inl None).
Proof using.
  intros Hh0 Hht Hlt Hw Hi Hn. unfold handleConflictingHeaders. rewrite bind_get. erewrite bind_lift by (apply slice_get_ret; done).
  assert (examineConflictingHeaderAgainstTrace fuel (t0 :: rest) target w now c = Ret (with_requests c (S (requests c)), inr (EProvider pe))) as He.
  { unfold examineConflictingHeaderAgainstTrace. erewrite bind_lift by reflexivity. rewrite (bind_lift _ _ _ _ Hh0), (bind_lift _ _ _ _ Hht).
    destruct (Z.ltb_spec ht h0); [lia|]. cbn [examine_loop]. rewrite (bind_lift _ _ _ _ Hh0), (bind_lift _ _ _ _ Hht).
    destruct (Z.ltb_spec ht h0); [lia|]. destruct (Z.eqb_spec h0 ht); [lia|]. unfold lc_bind, ask. cbn [mbind outcome_bind]. by rewrite Hn. }
  by rewrite (bind_try _ _ _ _ _ He).
Qed.
End detector.

(** C39: the detector can miss a witness.  The comparison with a witness that
    answers with another header sends its conflict and then also a success,
    while only as many messages are read as there are witnesses.  With two
    witnesses that both disagree with the verified block, of which the second
    then refuses to support its header, and whose two messages arrive before
    the other's, the block is accepted: the conflict of the first witness is
    never looked at, and the success that the second sent counts as a match. *)
Theorem detector_misses_conflict `{StdTime, Crypto, !BatchCrypto, Network} fuel t0 h0 mid l hl hash vals prio w0 w1 b0 b1 hash0 hash1 vals0 vals1 prio0 pe now c :
  lb_Height t0 = Ret h0 → lb_Height l = Ret hl → lb_Height b1 = Ret hl → h0 < hl →
  lb_Hash l = Ret hash → lb_ValidatorSet l = Some vals → default [] (ProposerPriorityHash vals) = prio →
  witnesses c = [w0; w1] → net_messages (requests c) = [1%nat; 1%nat] →
  net_LightBlock w0 hl (requests c) = inl b0 → lb_Hash b0 = Ret hash0 → hash0 ≠ hash → lb_ValidatorSet b0 = Some vals0 → default [] (ProposerPriorityHash vals0) = prio0 →
  net_LightBlock w1 hl (S (requests c)) = inl b1 → lb_Hash b1 = Ret hash1 → hash1 ≠ hash → lb_ValidatorSet b1 = Some vals1 → default [] (ProposerPriorityHash vals1) = prio →
  net_LightBlock w1 h0 (S (S (requests c))) = inr pe →
  ∃ c', detectDivergence fuel (t0 :: mid ++ [l]) now c = Ret (c', inl tt) ∧ reported c' = reported c ∧ witnesses c' = [w0].
Proof.
  intros Hh0 Hhl Hhb1 Hlt Hh Hv Hp Hws Hsched Hn0 Hh0' Hne0 Hv0 Hp0 Hn1 Hh1' Hne1 Hv1 Hp1 Hpe.
  set (c1 := with_requests c (S (requests c))). set (c2 := with_requests c1 (S (requests c1))). set (c3 := with_requests c2 (S (requests c2))).
  set (m0 := Some (ErrConflictingHeaders b0 0) :: (if bool_decide (prio = prio0) then [] else [Some (ErrProposerPrioritiesDiverge 0)]) ++ [None]).
  assert (compare_all l [w0; w1] 0 c = Ret (c2, inl [m0; [Some (ErrConflictingHeaders b1 1); None]])) as Hcmp.
  { cbn [compare_all]. rewrite (bind_ret _ _ _ _ _ (compare_other l hl hash vals prio w0 0 b0 hash0 vals0 prio0 c Hhl Hh Hv Hp Hn0 Hh0' Hv0 Hp0 Hne0)).
    erewrite bind_ret; [reflexivity|]. rewrite (bind_ret _ _ _ _ _ (compare_other l hl hash vals prio w1 1 b1 hash1 vals1 prio c1 Hhl Hh Hv Hp Hn1 Hh1' Hv1 Hp1 Hne1)).
    rewrite bool_decide_eq_true_2 by done. reflexivity. }
  assert (detect_loop fuel 2 [1%nat; 1%nat] [m0; [Some (ErrConflictingHeaders b1 1); None]] ((t0 :: mid) ++ [l]) false [] now c2 = Ret (c3, inl (true, [1]))) as Hloop.
  { cbn [detect_loop]. erewrite bind_lift by reflexivity. cbn [next_message].
    rewrite (bind_ret _ _ _ _ _ (unsupported_conflict fuel t0 (mid ++ [l]) h0 b1 hl w1 1 now c2 pe Hh0 Hhb1 Hlt ltac:(by cbn; rewrite Hws) ltac:(lia) Hpe)).
    reflexivity. }
  exists (with_providers c3 (primary c3) [w0]). split_and!; [|done|done].
  unfold detectDivergence. rewrite app_comm_cons, last_snoc. destruct (Z.ltb_spec (len ((t0 :: mid) ++ [l])) 2) as [Hlen|_].
  { exfalso. rewrite len_app, len_cons in Hlen. pose proof (len_nonneg mid). change (len [l]) with 1 in Hlen. lia. }
  rewrite bind_get, Hws. change (len [w0; w1] =? 0) with false. cbv iota. rewrite (bind_ret _ _ _ _ _ Hcmp), Hsched. cbn [length].
  rewrite (bind_ret _ _ _ _ _ Hloop). unfold removeWitnesses, lc_bind, lc_get, lc_lift. cbn [mbind outcome_bind].
  change (witnesses c3) with (witnesses c). rewrite Hws. reflexivity.
Qed.

(** ** Rolling back *)

Lemma greatest_spec (m : gmap Z LightBlock) :
  (∀ k, is_Some (m !! k) → k ≤ greatest m) ∧ (greatest m = -1 ∨ is_Some (m !! greatest m)) ∧ -1 ≤ greatest m.
Proof.
  unfold greatest. apply (map_fold_weak_ind (λ r m, (∀ k, is_Some (m !! k) → k ≤ r) ∧ (r = -1 ∨ is_Some (m !! r)) ∧ -1 ≤ r)).
  - split_and!; [intros k [? Hk]; by rewrite lookup_empty in Hk|by left|done].
  - intros i x m' r Hi (Hle & Hin & Hlb). split_and!; [| |lia].
    + intros k [y [[<- _]|[_ Hk]]%lookup_insert_Some]; [lia|]. pose proof (Hle k ltac:(by eexists)). lia.
    + destruct (Z.max_spec i r) as [[? ->]|[? ->]]; [|right].
      * destruct Hin as [->|[y Hy]]; [by left|right]. exists y. rewrite lookup_insert_ne; [done|]. intros ->. congruence.
      * rewrite lookup_insert_eq. by eexists.
Qed.

(** Every key is the height of its block, up to the given one. *)
Definition heights_ok (m : gmap Z LightBlock) (top : Z) : Prop :=
  ∀ k b, m !! k = Some b → 0 < k ≤ top ∧ lb_Height b = Ret k.

Lemma LightBlockBefore_spec s top height :
  heights_ok (ts_blocks s) top → 0 < height →
  (∃ b k, LightBlockBefore s height = Ret (inl b) ∧ ts_blocks s !! k = Some b ∧ k < height ∧ ∀ k', is_Some (ts_blocks s !! k') → k' < height → k' ≤ k) ∨
  (LightBlockBefore s height = Ret (inr ErrStoreLightBlockNotFound) ∧ ∀ k', is_Some (ts_blocks s !! k') → height ≤ k').
Proof.
  intros Hok Hpos. unfold LightBlockBefore. destruct (Z.leb_spec height 0); [lia|].
  set (m := filter (λ x : Z * LightBlock, x.1 < height) (ts_blocks s)). destruct (greatest_spec m) as (Hle & Hin & _).
  assert (∀ k', is_Some (ts_blocks s !! k') → k' < height → is_Some (m !! k')) as Hm.
  { intros k' [y Hy] Hlt. exists y. apply map_lookup_filter_Some. done. }
  destruct (Z.eqb_spec (greatest m) (-1)) as [He|He].
  - right. split; [done|]. intros k' Hk'. destruct (decide (k' < height)) as [Hlt|]; [|lia]. specialize (Hle k' (Hm k' Hk' Hlt)).
    destruct Hk' as [y Hy]. destruct (Hok _ _ Hy) as [? _]. lia.
  - destruct Hin as [|[b Hb]]; [done|]. apply map_lookup_filter_Some in Hb as [Hb Hlt]. cbn in Hlt. left. exists b, (greatest m).
    split_and!; [|done|done|]; [|intros; apply Hle; by apply Hm].
    unfold dbs_LightBlock. destruct (Hok _ _ Hb) as [? _]. destruct (Z.leb_spec (greatest m) 0); [lia|]. by rewrite Hb.
Qed.

Lemma cleanup_loop_spec fuel : ∀ s top prev height,
  heights_ok (ts_blocks s) top → 0 < prev → (size (ts_blocks s) < fuel)%nat →
  ∃ s', cleanup_loop fuel s prev height = Ret s' ∧
    ∀ k, ts_blocks s' !! k = if (height <? k) && (k <? prev) then None else ts_blocks s !! k.
Proof.
  induction fuel as [|fuel IH]; intros s top prev height Hok Hpos Hf; [lia|]. cbn [cleanup_loop].
  destruct (LightBlockBefore_spec s top prev Hok Hpos) as [(b & k & -> & Hb & Hlt & Hmax)|[-> Hnone]]; cbn [mbind outcome_bind].
  - destruct (Hok _ _ Hb) as [Hk Hh]. rewrite Hh. cbn [mbind outcome_bind]. destruct (Z.leb_spec k height).
    + exists s. split; [done|]. intros k'. destruct (Z.ltb_spec height k'), (Z.ltb_spec k' prev); cbn [andb]; try done.
      destruct (ts_blocks s !! k') eqn:E; [|done]. pose proof (Hmax k' ltac:(by eexists) ltac:(lia)). lia.
    + unfold DeleteLightBlock. destruct (Z.leb_spec k 0); [lia|]. cbn [mbind outcome_bind].
      destruct (IH (mkDbs (delete k (ts_blocks s)) (uint16 (ts_size s - 1))) top k height) as (s' & -> & Hs').
      * cbn [ts_blocks]. intros k' b' [_ Hb']%lookup_delete_Some. by apply Hok.
      * lia.
      * cbn [ts_blocks]. rewrite map_size_delete_Some by (by eexists). assert (size (ts_blocks s) ≠ 0%nat) by (intros Hz%map_size_empty_inv; by rewrite Hz, lookup_empty in Hb). lia.
      * exists s'. split; [done|]. intros k'. rewrite Hs'. cbn [ts_blocks].
        destruct (decide (k' = k)) as [->|Hne]; [rewrite lookup_delete_eq; by destruct (Z.ltb_spec height k), (Z.ltb_spec k prev), (Z.ltb_spec k k); (done || lia)|].
        rewrite lookup_delete_ne by done. destruct (Z.ltb_spec height k'), (Z.ltb_spec k' k), (Z.ltb_spec k' prev); cbn [andb]; try (done || lia).
        destruct (ts_blocks s !! k') eqn:E; [|done]. pose proof (Hmax k' ltac:(by eexists) ltac:(lia)). lia.
  - exists s. split; [done|]. intros k'. destruct (Z.ltb_spec height k'), (Z.ltb_spec k' prev); cbn [andb]; try done.
    destruct (ts_blocks s !! k') eqn:E; [|done]. pose proof (Hnone k' ltac:(by eexists)). lia.
Qed.
(** Rolling back keeps the latest block.  [cleanupAfter] deletes exactly
    the stored blocks between the given height and the latest trusted one,
    both excluded, so the client still trusts the block it was to forget. *)
Theorem cleanupAfter_exact height top latest c :
  latestTrustedBlock c = Some latest → lb_Height latest = Ret top → ts_blocks (trustedStore c) !! top = Some latest → heights_ok (ts_blocks (trustedStore c)) top →
  ∃ c', cleanupAfter height c = Ret (c', inl tt) ∧ latestTrustedBlock c' = Some latest ∧
    ∀ k, ts_blocks (trustedStore c') !! k = if (height <? k) && (k <? top) then None else ts_blocks (trustedStore c) !! k.
Proof.
  intros Hlatest Htop Hin Hok. destruct (Hok _ _ Hin) as [Hpos _].
  destruct (cleanup_loop_spec (S (size (ts_blocks (trustedStore c)))) (trustedStore c) top top height Hok) as (s' & Hs & Hs'); [lia|lia|].
  assert (ts_blocks s' !! top = Some latest) as Hin' by (rewrite Hs', Z.ltb_irrefl, andb_false_r; done).
  assert (LastLightBlockHeight s' = top) as Hl.
  { destruct (greatest_spec (ts_blocks s')) as (Hle & Hg & _). pose proof (Hle top ltac:(by eexists)). unfold LastLightBlockHeight.
    destruct Hg as [|[b Hb]]; [lia|]. rewrite Hs' in Hb. case_match; [done|]. destruct (Hok _ _ Hb). lia. }
  exists (with_trusted (with_trusted c s' None) s' (Some latest)). split_and!; [|done|done].
  unfold cleanupAfter. rewrite bind_get, Hlatest. erewrite bind_lift by reflexivity. rewrite (bind_lift _ _ _ _ Htop), (bind_lift _ _ _ _ Hs), bind_put.
  unfold restoreTrustedLightBlock. rewrite bind_get. cbn [trustedStore with_trusted]. rewrite Hl. destruct (Z.ltb_spec 0 top); [|lia].
  erewrite bind_lift by (unfold dbs_LightBlock; destruct (Z.leb_spec top 0); [lia|]; rewrite Hin'; reflexivity). reflexivity.
Qed.

(** ** Witnesses *)

Definition lx_now : Time := mkTime 1700000100 0.
Definition lx_client (store : list (Z * LightBlock)) (latest : option LightBlock) (ws : list nat) : Client :=
  mkClient lx_chain_id 1000000000000000 skipping DefaultTrustLevel 10000000000 0 ws (mkDbs (list_to_map store) (len store)) latest 1000 0 [].

(** Providers that answer with the blocks of the chain. *)
Definition lx_net : Network := {|
  net_ChainID := λ _, lx_chain_id;
  net_LightBlock := λ _ h _, if decide (h = 1 ∨ h = 2 ∨ h = 3) then inl (lx_light h) else inr ErrLightBlockNotFound;
  net_responses := λ _, [0%nat];
  net_messages := λ _, [0%nat];
  net_confirm := λ _, true |}.

Lemma lx_net_ok p h n b :
  @net_LightBlock lx_net p h n = inl b →
  @decodes example_time lx_crypto lx_chain_id b ∧ @signable_block example_time b ∧ (0 < h → lb_Height b = Ret h).
Proof.
  cbn. case_decide as Hh; [|done]. intros [= <-]. split; [by apply lx_light_decodes|]. split; [by apply lx_light_signable|].
  by destruct Hh as [->|[->| ->]].
Qed.

Definition lx_c1 : Client := lx_client [(1, lx_light 1)] (Some (lx_light 1)) [1%nat].
Lemma lx_on_chain h : h = 1 ∨ h = 2 ∨ h = 3 → @on_chain example_time lx_crypto lx_chain_id lx_chain (λ _, lx_vals) (lx_light h).
Proof.
  intros Hh. destruct (lx_light_decodes h Hh) as (hd & cm & vals & Hd). pose proof (dc_eq _ _ _ _ _ Hd) as E. injection E as <- <- <-.
  eexists _, _, _. split; [exact Hd|]. split; [done|]. split; [|done]. destruct Hh as [->|[->| ->]]; done.
Qed.
Lemma lx_c1_trusted : @store_trusted example_time lx_crypto lx_chain_id lx_chain (λ _, lx_vals) lx_c1.
Proof.
  split.
  - intros k lb Hk. change (ts_blocks (trustedStore lx_c1)) with (<[1 := lx_light 1]> ∅ : gmap Z LightBlock) in Hk.
    apply lookup_insert_Some in Hk as [[_ <-]|[_ Hk]]; [apply lx_on_chain; by left|by rewrite lookup_empty in Hk].
  - intros lb [= <-]. apply lx_on_chain. by left.
Qed.

Definition lx_run : outcome (Client * (LightBlock + client_error)) :=
  @VerifyLightBlockAtHeight example_time lx_crypto lx_batch lx_net 10 3 lx_now lx_c1.
Definition run_client (d : Client) (r : outcome (Client * (LightBlock + client_error))) : Client :=
  match r with Ret (c, _) => c | Panic _ => d end.
Definition run_block (d : LightBlock) (r : outcome (Client * (LightBlock + client_error))) : LightBlock :=
  match r with Ret (_, inl b) => b | _ => d end.
Definition run_ok (r : outcome (Client * (LightBlock + client_error))) : bool := match r with Ret (_, inl _) => true | _ => false end.
Lemma run_ok_inv d b r : run_ok r = true → r = Ret (run_client d r, inl (run_block b r)).
Proof. by destruct r as [[c [x|e]]|]. Qed.

Definition lx_after : Client := run_client lx_c1 lx_run.
Definition lx_got : LightBlock := run_block (lx_light 1) lx_run.

Lemma light_client_safe_witness :
  (@on_chain example_time lx_crypto lx_chain_id lx_chain (λ _, lx_vals) lx_got ∧
   @store_trusted example_time lx_crypto lx_chain_id lx_chain (λ _, lx_vals) lx_after) ∨
  @collision_seen example_time lx_crypto lx_net lx_chain_id lx_chain (λ _, lx_vals) lx_c1 lx_after [].
Proof.
  apply (@light_client_safe example_time example_time_laws lx_crypto lx_batch lx_batch_laws lx_hash_size lx_net
    lx_chain_id lx_chain (λ _, lx_vals) lx_honest 10 3 lx_now lx_c1 lx_after lx_got);
    [exact lx_real_chain|intros p h n b Hb; destruct (lx_net_ok p h n b Hb) as (? & _ & ?); done|exact lx_c1_trusted|repeat split; vm_compute; discriminate|vm_compute; discriminate|].
  apply run_ok_inv. vm_compute. reflexivity.
Defined.

Lemma verifySkipping_returns_witness :
  ∃ c' r, @verifySkipping example_time lx_crypto lx_batch lx_net 23 0 (lx_light 1) (lx_light 3) lx_now lx_c1 = Ret (c', r).
Proof.
  apply (@verifySkipping_returns example_time lx_crypto lx_batch lx_batch_laws lx_net lx_chain_id 0 (lx_light 1) 1 (lx_light 3) 3 lx_now lx_c1 23);
    [exact lx_net_ok|split; vm_compute; discriminate|split; vm_compute; (reflexivity || discriminate)
    |apply lx_light_decodes; by left|apply lx_light_signable; by left|reflexivity
    |apply lx_light_decodes; by right; right|apply lx_light_signable; by right; right|reflexivity|vm_compute; discriminate|vm_compute; discriminate].
Defined.

(** A provider can stop the client: the block at height 2 with a part set
    hash of one byte passes every basic check of a light block, and
    verifying it panics, before any signature is looked at. *)
Definition short_parts : LightBlock :=
  mkLightBlock (Some (mkSignedHeader (Some (lx_chain 2)) (Some (mkCommit 2 0 (mkBlockID lx_hash2 (mkPartSetHeader 1 [x0b]))
    [lx_sig x01; lx_sig x02; lx_sig x03; NewCommitSigAbsent])))) (Some lx_vals).
Theorem bad_parts_hash_panics :
  @LightBlock_ValidateBasic lx_crypto example_time short_parts lx_chain_id = Ret None ∧
  @client_Verify example_time lx_crypto lx_batch lx_c1 (lx_light 1) short_parts lx_now = Panic "wrong BlockID".
Proof. split; vm_compute; reflexivity. Qed.

(** A forged block at a height. *)
Definition forged_header (h : Z) (c : byte) : Header := lx_header h [c] [].
Definition forged (h : Z) (c : byte) : LightBlock :=
  lx_block h (forged_header h c) (ret_or_nil (@Header_Hash lx_crypto example_time (forged_header h c))).

(** The primary answers the first request with the forged block. *)
Definition lying_net : Network := {|
  net_ChainID := λ _, lx_chain_id;
  net_LightBlock := λ _ h n, if (n =? 0)%nat then inl (forged 1 xff) else inl (lx_light h);
  net_responses := λ _, [0%nat];
  net_messages := λ _, [0%nat];
  net_confirm := λ _, true |}.
Definition lx_c2 : Client := lx_client [(2, lx_light 2)] (Some (lx_light 2)) [1%nat].

Lemma backwards_stores_unverified_witness :
  @lb_Hash example_time lx_crypto (forged 1 xff) ≠ @lb_Hash example_time lx_crypto (lx_light 1) ∧
  ∃ c', @VerifyLightBlockAtHeight example_time lx_crypto lx_batch lying_net 3 1 lx_now lx_c2 = Ret (c', inl (forged 1 xff)) ∧
    ts_blocks (trustedStore c') !! 1 = Some (forged 1 xff).
Proof.
  split; [vm_compute; discriminate|].
  apply (@backwards_stores_unverified example_time lx_crypto lx_batch lying_net 1 1 lx_now lx_c2 (forged 1 xff) (lx_light 1) (lx_chain 1)
    (lx_light 2) (lx_chain 2) (lx_light 2) 2); try reflexivity; try (vm_compute; reflexivity); try (vm_compute; discriminate).
  split; vm_compute; (reflexivity || discriminate).
Defined.

(** The honest witness 1 answers with the chain, the lying witness 2 with yet
    another block, and then with errors. *)
Definition divided_net : Network := {|
  net_ChainID := λ _, lx_chain_id;
  net_LightBlock := λ p h n, if (p =? 1)%nat then inl (lx_light h) else if (n =? 1)%nat then inl (forged 3 xee) else inr ErrNoResponse;
  net_responses := λ _, [0%nat];
  net_messages := λ _, [1%nat; 1%nat];
  net_confirm := λ _, true |}.
Definition lx_c3 : Client := lx_client [(1, lx_light 1)] (Some (lx_light 1)) [1%nat; 2%nat].

Lemma detector_misses_conflict_witness :
  ∃ c', @detectDivergence example_time lx_crypto lx_batch divided_net 5 [lx_light 1; forged 3 xff] lx_now lx_c3 = Ret (c', inl tt) ∧
    reported c' = [] ∧ witnesses c' = [1%nat].
Proof.
  apply (@detector_misses_conflict example_time lx_crypto lx_batch divided_net 5 (lx_light 1) 1 [] (forged 3 xff) 3
    (ret_or_nil (@Header_Hash lx_crypto example_time (forged_header 3 xff))) lx_vals (default [] (@ProposerPriorityHash lx_crypto lx_vals)) 1%nat 2%nat
    (lx_light 3) (forged 3 xee) lx_hash3 (ret_or_nil (@Header_Hash lx_crypto example_time (forged_header 3 xee))) lx_vals lx_vals
    (default [] (@ProposerPriorityHash lx_crypto lx_vals)) ErrNoResponse lx_now lx_c3);
    try reflexivity; try (vm_compute; reflexivity); vm_compute; discriminate.
Defined.

Definition lx_c4 : Client := lx_client [(1, lx_light 1); (2, lx_light 2); (3, lx_light 3)] (Some (lx_light 3)) [1%nat].

Lemma lx_c4_heights : heights_ok (ts_blocks (trustedStore lx_c4)) 3.
Proof.
  intros k b Hk.
  change (ts_blocks (trustedStore lx_c4)) with (<[1 := lx_light 1]> (<[2 := lx_light 2]> (<[3 := lx_light 3]> ∅)) : gmap Z LightBlock) in Hk.
  repeat (apply lookup_insert_Some in Hk as [[<- <-]|[_ Hk]]; [split; [lia|reflexivity]|]). by rewrite lookup_empty in Hk.
Qed.

Lemma cleanupAfter_exact_witness :
  ∃ c', cleanupAfter 1 lx_c4 = Ret (c', inl tt) ∧ latestTrustedBlock c' = Some (lx_light 3) ∧
    ts_blocks (trustedStore c') !! 2 = None ∧ is_Some (ts_blocks (trustedStore c') !! 3).
Proof.
  destruct (cleanupAfter_exact 1 3 (lx_light 3) lx_c4) as (c' & Hc & Hl & Hb);
    [reflexivity|reflexivity|reflexivity|exact lx_c4_heights|].
  exists c'. split; [exact Hc|]. split; [exact Hl|]. split; [rewrite (Hb 2); reflexivity|rewrite (Hb 3)]. eexists. reflexivity.
Defined.
