(* ===== verification/Params.v ===== *)
(** * Consensus parameters, genesis documents and the weighted median

    [types/params.go], [types/genesis.go] and [types/time/time.go]: the
    parameters the application may change with the rules for changing them,
    the document a chain starts from, and the median of weighted times that
    block times are taken from. *)
From S2P Require Import Prelude.
From S2P Require Import Proto.
From S2P Require Import Vote.
From S2P Require Import Validator.
From S2P Require Import Block.

(** ** Parameters *)

Definition MaxBlockSizeBytes : Z := 104857600.
Definition BlockPartSizeBytes : Z := 65536.
Definition MaxBlockPartsCount : Z := MaxBlockSizeBytes / BlockPartSizeBytes + 1.
Definition ABCIPubKeyTypeEd25519 : string := "ed25519".
Definition ABCIPubKeyTypeSecp256k1 : string := "secp256k1".
Definition ABCIPubKeyTypesToNames : gmap string string :=
  {[ABCIPubKeyTypeEd25519 := "tendermint/PubKeyEd25519"; ABCIPubKeyTypeSecp256k1 := "tendermint/PubKeySecp256k1"]}%string.

Record BlockParams := mkBlockParams { bp_MaxBytes : Z; bp_MaxGas : Z }.
Record EvidenceParams := mkEvidenceParams { ep_MaxAgeNumBlocks : Z; ep_MaxAgeDuration : Z; ep_MaxBytes : Z }.
Record ValidatorParams := mkValidatorParams { vp_PubKeyTypes : list string }.
Record VersionParams := mkVersionParams { vp_App : Z }.
Record ABCIParams := mkABCIParams { VoteExtensionsEnableHeight : Z }.

Record ConsensusParams := mkConsensusParams {
  cp_Block : BlockParams;
  cp_Evidence : EvidenceParams;
  cp_Validator : ValidatorParams;
  cp_Version : VersionParams;
  cp_ABCI : ABCIParams;
}.

(** [cmtproto.ConsensusParams], whose parts may be nil. *)
Record ProtoParams := mkProtoParams {
  pb_Block : option BlockParams;
  pb_Evidence : option EvidenceParams;
  pb_Validator : option ValidatorParams;
  pb_Version : option VersionParams;
  pb_Abci : option ABCIParams;
}.

Definition VoteExtensionsEnabled (a : ABCIParams) (h : Z) : outcome bool :=
  if h <? 1 then Panic "cannot check if vote extensions enabled"
  else if VoteExtensionsEnableHeight a =? 0 then Ret false
  else Ret (VoteExtensionsEnableHeight a <=? h).

Definition DefaultBlockParams : BlockParams := mkBlockParams 22020096 (-1).
Definition DefaultEvidenceParams : EvidenceParams := mkEvidenceParams 100000 (48 * 3600 * second) 1048576.
Definition DefaultValidatorParams : ValidatorParams := mkValidatorParams [ABCIPubKeyTypeEd25519].
Definition DefaultVersionParams : VersionParams := mkVersionParams 0.
Definition DefaultABCIParams : ABCIParams := mkABCIParams 0.
Definition DefaultConsensusParams : ConsensusParams :=
  mkConsensusParams DefaultBlockParams DefaultEvidenceParams DefaultValidatorParams DefaultVersionParams DefaultABCIParams.

Fixpoint has_type (types : list string) (pubkeyType : string) : bool :=
  match types with [] => false | t :: types => if decide (t = pubkeyType) then true else has_type types pubkeyType end.
Definition IsValidPubkeyType (params : ValidatorParams) (pubkeyType : string) : bool := has_type (vp_PubKeyTypes params) pubkeyType.

Inductive params_error :=
| ErrMaxBytesZero
| ErrMaxBytesNegative
| ErrMaxBytesTooBig
| ErrMaxGas
| ErrMaxAgeNumBlocks
| ErrMaxAgeDuration
| ErrEvidenceTooBig
| ErrEvidenceNegative
| ErrEnableHeightNegative
| ErrNoPubKeyTypes
| ErrUnknownPubKeyType (i : Z).

Fixpoint first_unknown_type (i : Z) (types : list string) : option params_error :=
  match types with
  | [] => None
  | keyType :: types =>
      match ABCIPubKeyTypesToNames !! keyType with
      | None => Some (ErrUnknownPubKeyType i)
      | Some _ => first_unknown_type (i + 1) types
      end
  end.

Definition Params_ValidateBasic (params : ConsensusParams) : option params_error :=
  if bp_MaxBytes (cp_Block params) =? 0 then Some ErrMaxBytesZero
  else if bp_MaxBytes (cp_Block params) <? -1 then Some ErrMaxBytesNegative
  else if MaxBlockSizeBytes <? bp_MaxBytes (cp_Block params) then Some ErrMaxBytesTooBig
  else if bp_MaxGas (cp_Block params) <? -1 then Some ErrMaxGas
  else if ep_MaxAgeNumBlocks (cp_Evidence params) <=? 0 then Some ErrMaxAgeNumBlocks
  else if ep_MaxAgeDuration (cp_Evidence params) <=? 0 then Some ErrMaxAgeDuration
  else
    let maxBytes := if bp_MaxBytes (cp_Block params) =? -1 then MaxBlockSizeBytes else bp_MaxBytes (cp_Block params) in
    if maxBytes <? ep_MaxBytes (cp_Evidence params) then Some ErrEvidenceTooBig
    else if ep_MaxBytes (cp_Evidence params) <? 0 then Some ErrEvidenceNegative
    else if VoteExtensionsEnableHeight (cp_ABCI params) <? 0 then Some ErrEnableHeightNegative
    else if len (vp_PubKeyTypes (cp_Validator params)) =? 0 then Some ErrNoPubKeyTypes
    else first_unknown_type 0 (vp_PubKeyTypes (cp_Validator params)).

Inductive update_params_error :=
| ErrMustBePositive
| ErrCannotDisable
| ErrPastHeight
| ErrCannotModify.

Definition ValidateUpdate (params : ConsensusParams) (updated : option ProtoParams) (h : Z) : option update_params_error :=
  match updated ≫= pb_Abci with
  | None => None
  | Some abci =>
      let old := VoteExtensionsEnableHeight (cp_ABCI params) in
      let new := VoteExtensionsEnableHeight abci in
      if new <? 0 then Some ErrMustBePositive
      else if (old <=? 0) && (new =? 0) then None
      else if old =? new then None
      else if (0 <? old) && (new =? 0) then if old <=? h then Some ErrCannotDisable else None
      else if new <=? h then Some ErrPastHeight
      else if old <=? 0 then None
      else if old <=? h then Some ErrCannotModify
      else None
  end.

(** [hp.Marshal()] of [cmtproto.HashedParams]. *)
Definition HashedParams_Marshal (maxBytes maxGas : Z) : bytes := varint_field x08 maxBytes ++ varint_field x10 maxGas.
Definition Params_Hash `{Crypto} (params : ConsensusParams) : bytes :=
  sha256 (HashedParams_Marshal (bp_MaxBytes (cp_Block params)) (bp_MaxGas (cp_Block params))).

Definition Params_Update (params : ConsensusParams) (params2 : option ProtoParams) : ConsensusParams :=
  match params2 with
  | None => params
  | Some p2 =>
      mkConsensusParams (default (cp_Block params) (pb_Block p2)) (default (cp_Evidence params) (pb_Evidence p2))
        (default (cp_Validator params) (pb_Validator p2)) (default (cp_Version params) (pb_Version p2))
        (default (cp_ABCI params) (pb_Abci p2))
  end.

Definition Params_ToProto (params : ConsensusParams) : ProtoParams :=
  mkProtoParams (Some (cp_Block params)) (Some (cp_Evidence params)) (Some (cp_Validator params)) (Some (cp_Version params))
    (Some (cp_ABCI params)).

Definition ConsensusParamsFromProto (pb : ProtoParams) : outcome ConsensusParams :=
  match pb_Block pb, pb_Evidence pb, pb_Validator pb, pb_Version pb with
  | Some b, Some e, Some v, Some ver => Ret (mkConsensusParams b e v ver (default (mkABCIParams 0) (pb_Abci pb)))
  | _, _, _, _ => Panic "nil pointer dereference"
  end.

(** ** The weighted median *)

Record WeightedTime := mkWeightedTime { wt_Time : Time; wt_Weight : Z }.

(** [t.UnixNano()], which wraps around outside the years 1678 to 2262. *)
Definition UnixNano (t : Time) : Z := int64 (Seconds t * second + Nanos t).

Definition weighted_less (a b : option WeightedTime) : bool :=
  match a, b with
  | None, _ => false
  | Some _, None => true
  | Some a, Some b => UnixNano (wt_Time a) <? UnixNano (wt_Time b)
  end.

Fixpoint median_loop (median : Z) (l : list (option WeightedTime)) : Time :=
  match l with
  | [] => zeroTime
  | None :: l => median_loop median l
  | Some w :: l => if median <=? wt_Weight w then wt_Time w else median_loop (int64 (median - wt_Weight w)) l
  end.

Definition WeightedMedian (weightedTimes : list (option WeightedTime)) (totalVotingPower : Z) : Time :=
  median_loop (Z.quot totalVotingPower 2) (sort_by weighted_less weightedTimes).

(** ** Genesis documents *)

Record GenesisValidator := mkGenesisValidator { gv_Address : bytes; gv_PubKey : PubKey; gv_Power : Z }.

Record GenesisDoc := mkGenesisDoc {
  GenesisTime : Time;
  g_ChainID : bytes;
  g_InitialHeight : Z;
  g_ConsensusParams : option ConsensusParams;
  g_Validators : option (list GenesisValidator);
  g_AppHash : bytes;
}.

Inductive genesis_error :=
| ErrNoChainID
| ErrLongChainID
| ErrInitialHeight
| ErrGenesisParams (e : params_error)
| ErrNoPower (i : Z)
| ErrGenesisAddress (i : Z).

Fixpoint complete_validators `{Crypto} (i : Z) (vals : list GenesisValidator) : list GenesisValidator + genesis_error :=
  match vals with
  | [] => inl []
  | v :: vals =>
      if gv_Power v =? 0 then inr (ErrNoPower i)
      else if (0 <? len (gv_Address v)) && negb (bool_decide (key_address (gv_PubKey v) = gv_Address v)) then inr (ErrGenesisAddress i)
      else
        let v := if len (gv_Address v) =? 0 then mkGenesisValidator (key_address (gv_PubKey v)) (gv_PubKey v) (gv_Power v) else v in
        match complete_validators (i + 1) vals with inl vals => inl (v :: vals) | inr e => inr e end
  end.

(** [now] is [cmttime.Now()]. *)
Definition ValidateAndComplete `{Crypto} (genDoc : GenesisDoc) (now : Time) : GenesisDoc + genesis_error :=
  if len (g_ChainID genDoc) =? 0 then inr ErrNoChainID
  else if MaxChainIDLen <? len (g_ChainID genDoc) then inr ErrLongChainID
  else if g_InitialHeight genDoc <? 0 then inr ErrInitialHeight
  else
    let height := if g_InitialHeight genDoc =? 0 then 1 else g_InitialHeight genDoc in
    let params := default DefaultConsensusParams (g_ConsensusParams genDoc) in
    match g_ConsensusParams genDoc ≫= Params_ValidateBasic with
    | Some e => inr (ErrGenesisParams e)
    | None =>
        match complete_validators 0 (default [] (g_Validators genDoc)) with
        | inr e => inr e
        | inl vals =>
            let time := if time_IsZero (GenesisTime genDoc) then now else GenesisTime genDoc in
            inl (mkGenesisDoc time (g_ChainID genDoc) height (Some params)
                   (match g_Validators genDoc with None => None | Some _ => Some vals end) (g_AppHash genDoc))
        end
    end.
