(* ===== verification/ChainState.v ===== *)
(** * The state of the chain: making, validating and applying blocks

    [state/state.go], [state/validation.go], [state/execution.go],
    [state/tx_filter.go], with the conversions of validator updates
    ([types/protobuf.go], [crypto/encoding/codec.go]) and the hash of results
    ([types/results.go]).  The application, the stores, the mempool and the
    evidence pool that the executor calls are the class [Executor]; what it
    asks of them is recorded as a list of steps, also when it fails half way. *)
From S2P Require Import Prelude.
From S2P Require Import Proto.
From S2P Require Import Vote.
From S2P Require Import SafeMath.
From S2P Require Import Validator.
From S2P Require Import ValidatorSet.
From S2P Require Import SignBytes.
From S2P Require Import Merkle.
From S2P Require Import Validation.
From S2P Require Import TxCache.
From S2P Require Import Mempool.
From S2P Require Import Block.
From S2P Require Import Params.

(** ** The state *)

(** [cmtstate.Version]. *)
Record Version_ := mkVersion { v_Consensus : Consensus; v_Software : string }.
Definition InitStateVersion : Version_ := mkVersion (mkConsensus BlockProtocol 0) "0.38.15".

Record State := mkState {
  st_Version : Version_;
  st_ChainID : bytes;
  st_InitialHeight : Z;
  st_LastBlockHeight : Z;
  st_LastBlockID : BlockID;
  st_LastBlockTime : Time;
  st_NextValidators : ValidatorSet;
  st_Validators : ValidatorSet;
  st_LastValidators : ValidatorSet;
  st_LastHeightValidatorsChanged : Z;
  st_ConsensusParams : ConsensusParams;
  st_LastHeightConsensusParamsChanged : Z;
  st_LastResultsHash : bytes;
  st_AppHash : bytes;
}.

Definition with_AppHash (s : State) (appHash : bytes) : State :=
  mkState (st_Version s) (st_ChainID s) (st_InitialHeight s) (st_LastBlockHeight s) (st_LastBlockID s) (st_LastBlockTime s)
    (st_NextValidators s) (st_Validators s) (st_LastValidators s) (st_LastHeightValidatorsChanged s) (st_ConsensusParams s)
    (st_LastHeightConsensusParamsChanged s) (st_LastResultsHash s) appHash.

(** [NewValidatorSet(nil)]. *)
Definition emptyValidatorSet : ValidatorSet := mkValidatorSet [] None 0 true.

Section genesis.
Context `{Crypto}.

Definition MakeGenesisState (genDoc : GenesisDoc) (now : Time) : outcome (State + genesis_error) :=
  match ValidateAndComplete genDoc now with
  | inr e => Ret (inr e)
  | inl genDoc =>
      '(validatorSet, nextValidatorSet) ←
        (match g_Validators genDoc with
         | None => Ret (emptyValidatorSet, emptyValidatorSet)
         | Some vals =>
             let validators := (λ val, NewValidator (gv_PubKey val) (gv_Power val)) <$> vals in
             validatorSet ← NewValidatorSet validators;
             next ← NewValidatorSet validators;
             next ← CopyIncrementProposerPriority next 1;
             Ret (validatorSet, next)
         end);
      Ret (inl (mkState InitStateVersion (g_ChainID genDoc) (g_InitialHeight genDoc) 0 nilBlockID (GenesisTime genDoc)
                  nextValidatorSet validatorSet emptyValidatorSet (g_InitialHeight genDoc)
                  (default DefaultConsensusParams (g_ConsensusParams genDoc)) (g_InitialHeight genDoc) [] (g_AppHash genDoc)))
  end.
End genesis.

(** ** Block times *)

(** A turn of the loop over the signatures. *)
Definition weigh (validators : ValidatorSet) (commitSig : CommitSig) (st : list (option WeightedTime) * Z)
    : list (option WeightedTime) * Z :=
  let '(weightedTimes, totalVotingPower) := st in
  if cs_BlockIDFlag commitSig =? BlockIDFlagAbsent then (weightedTimes ++ [None], totalVotingPower)
  else
    match (GetByAddress validators (cs_ValidatorAddress commitSig)).2 with
    | None => (weightedTimes ++ [None], totalVotingPower)
    | Some validator =>
        (weightedTimes ++ [Some (mkWeightedTime (cs_Timestamp commitSig) (VotingPower validator))],
         int64 (totalVotingPower + VotingPower validator))
    end.

Definition MedianTime (commit : Commit) (validators : ValidatorSet) : Time :=
  let '(weightedTimes, totalVotingPower) := foldl (λ st sig, weigh validators sig st) ([], 0) (commit_Signatures commit) in
  WeightedMedian weightedTimes totalVotingPower.

(** ** Making and validating blocks *)

Section blocks.
Context `{Crypto, StdTime, BatchCrypto, EvidenceOps}.

Definition state_MakeBlock (state : State) (height : Z) (txs : list Tx) (lastCommit : option Commit) (evidence : list Evidence)
    (proposerAddress : bytes) : outcome Block :=
  block ← MakeBlock height txs lastCommit evidence;
  timestamp ← (if height =? st_InitialHeight state then Ret (st_LastBlockTime state)
               else match lastCommit with
                    | None => Panic "nil pointer dereference"
                    | Some commit => Ret (MedianTime commit (st_LastValidators state))
                    end);
  valHash ← ValidatorSet_Hash (st_Validators state);
  nextValHash ← ValidatorSet_Hash (st_NextValidators state);
  Ret (mkBlock _ (verifiedHash block)
         (Populate (b_Header block) (v_Consensus (st_Version state)) (st_ChainID state) timestamp (st_LastBlockID state)
            valHash nextValHash (Params_Hash (st_ConsensusParams state)) (st_AppHash state) (st_LastResultsHash state) proposerAddress)
         (b_Txs block) (b_Evidence block) (b_LastCommit block)).

Inductive validate_error :=
| ErrBasic (e : block_error)
| ErrVersion
| ErrChainID
| ErrInitialBlockHeight
| ErrBlockHeight
| ErrWrongLastBlockID
| ErrAppHash
| ErrConsensusHash
| ErrLastResultsHash
| ErrValidatorsHash
| ErrNextValidatorsHash
| ErrInitialLastCommit
| ErrLastCommit (e : commit_verify_error)
| ErrProposerSize
| ErrNotAValidator
| ErrTimeNotGreater
| ErrTimeNotMedian
| ErrTimeNotGenesis
| ErrBelowInitialHeight
| ErrEvidenceOverflow (max got : Z).

(** [t.Equal(u)]. *)
Definition time_Equal (t u : Time) : bool := bool_decide (t = u).

(** The checks of the last commit. *)
Definition validate_last_commit (state : State) (block : Block) : outcome (option validate_error) :=
  match b_LastCommit block with
  | None => Panic "nil pointer dereference"
  | Some lastCommit =>
      if h_Height (b_Header block) =? st_InitialHeight state then
        Ret (if negb (len (commit_Signatures lastCommit) =? 0) then Some ErrInitialLastCommit else None)
      else
        err ← VerifyCommit (st_ChainID state) (Some (st_LastValidators state)) (st_LastBlockID state)
                (int64 (h_Height (b_Header block) - 1)) (Some lastCommit);
        Ret (option_map ErrLastCommit err)
  end.

(** The checks of the proposer, the time and the size of the evidence. *)
Definition validate_proposer_time (state : State) (block : Block) (lastCommit : Commit) : option validate_error :=
  let h := b_Header block in
  if negb (len (h_ProposerAddress h) =? AddressSize) then Some ErrProposerSize
  else if negb (HasAddress (st_Validators state) (h_ProposerAddress h)) then Some ErrNotAValidator
  else
    let time_err :=
      if st_InitialHeight state <? h_Height h then
        if negb (time_After (h_Time h) (st_LastBlockTime state)) then Some ErrTimeNotGreater
        else if negb (time_Equal (h_Time h) (MedianTime lastCommit (st_LastValidators state))) then Some ErrTimeNotMedian
        else None
      else if h_Height h =? st_InitialHeight state then
        if negb (time_Equal (h_Time h) (st_LastBlockTime state)) then Some ErrTimeNotGenesis else None
      else Some ErrBelowInitialHeight in
    match time_err with
    | Some e => Some e
    | None =>
        let max := ep_MaxBytes (cp_Evidence (st_ConsensusParams state)) in
        let got := Evidence_ByteSize (b_Evidence block) in
        if max <? got then Some (ErrEvidenceOverflow max got) else None
    end.

Definition validateBlock (state : State) (block : Block) : outcome (option validate_error) :=
  err ← Block_ValidateBasic block;
  let h := b_Header block in
  match err, b_LastCommit block with
  | Some e, _ => Ret (Some (ErrBasic e))
  | None, None => Panic "nil pointer dereference"
  | None, Some lastCommit =>
      if negb (ver_App (h_Version h) =? ver_App (v_Consensus (st_Version state))) ||
         negb (ver_Block (h_Version h) =? ver_Block (v_Consensus (st_Version state))) then Ret (Some ErrVersion)
      else if negb (bool_decide (h_ChainID h = st_ChainID state)) then Ret (Some ErrChainID)
      else if (st_LastBlockHeight state =? 0) && negb (h_Height h =? st_InitialHeight state) then Ret (Some ErrInitialBlockHeight)
      else if (0 <? st_LastBlockHeight state) && negb (h_Height h =? int64 (st_LastBlockHeight state + 1)) then Ret (Some ErrBlockHeight)
      else if negb (BlockID_Equals (h_LastBlockID h) (st_LastBlockID state)) then Ret (Some ErrWrongLastBlockID)
      else if negb (bool_decide (h_AppHash h = st_AppHash state)) then Ret (Some ErrAppHash)
      else if negb (bool_decide (h_ConsensusHash h = Params_Hash (st_ConsensusParams state))) then Ret (Some ErrConsensusHash)
      else if negb (bool_decide (h_LastResultsHash h = st_LastResultsHash state)) then Ret (Some ErrLastResultsHash)
      else
        valHash ← ValidatorSet_Hash (st_Validators state);
        if negb (bool_decide (h_ValidatorsHash h = valHash)) then Ret (Some ErrValidatorsHash)
        else
          nextValHash ← ValidatorSet_Hash (st_NextValidators state);
          if negb (bool_decide (h_NextValidatorsHash h = nextValHash)) then Ret (Some ErrNextValidatorsHash)
          else
            err ← validate_last_commit state block;
            match err with
            | Some e => Ret (Some e)
            | None => Ret (validate_proposer_time state block lastCommit)
            end
  end.
End blocks.

(** ** What the application returns *)

Record ExecTxResult := mkExecTxResult {
  tr_Code : Z; tr_Data : bytes; tr_Log : bytes; tr_Info : bytes; tr_GasWanted : Z; tr_GasUsed : Z; tr_Codespace : bytes }.

(** The strings are not part of consensus. *)
Definition deterministicExecTxResult (r : ExecTxResult) : ExecTxResult :=
  mkExecTxResult (tr_Code r) (tr_Data r) [] [] (tr_GasWanted r) (tr_GasUsed r) [].

(** [Marshal] of a result without events. *)
Definition ExecTxResult_Marshal (r : ExecTxResult) : bytes :=
  varint_field x08 (tr_Code r) ++ bytes_field x12 (tr_Data r) ++ bytes_field x1a (tr_Log r) ++ bytes_field x22 (tr_Info r) ++
  varint_field x28 (tr_GasWanted r) ++ varint_field x30 (tr_GasUsed r) ++ bytes_field x42 (tr_Codespace r).

Definition TxResultsHash `{Crypto} (txResults : list ExecTxResult) : outcome bytes :=
  HashFromByteSlices (ExecTxResult_Marshal <$> (deterministicExecTxResult <$> txResults)).

(** [pc.PublicKey]. *)
Inductive ProtoPubKey := PublicKey_Ed25519 (key : bytes) | PublicKey_Secp256K1 (key : bytes) | PublicKey_None.
Record ValidatorUpdate := mkValidatorUpdate { vu_PubKey : ProtoPubKey; vu_Power : Z }.

Definition PubKeyFromProto (k : ProtoPubKey) : option PubKey :=
  match k with
  | PublicKey_Ed25519 key => if negb (len key =? 32) then None else Some (mkPubKey "ed25519" key)
  | PublicKey_Secp256K1 key => if negb (len key =? 33) then None else Some (mkPubKey "secp256k1" key)
  | PublicKey_None => None
  end.

Inductive val_update_error := ErrNegativeUpdate | ErrUpdateKey | ErrKeyTypeUnsupported.

Fixpoint validateValidatorUpdates (abciUpdates : list ValidatorUpdate) (params : ValidatorParams) : option val_update_error :=
  match abciUpdates with
  | [] => None
  | valUpdate :: rest =>
      if vu_Power valUpdate <? 0 then Some ErrNegativeUpdate
      else if vu_Power valUpdate =? 0 then validateValidatorUpdates rest params
      else
        match PubKeyFromProto (vu_PubKey valUpdate) with
        | None => Some ErrUpdateKey
        | Some pk => if negb (IsValidPubkeyType params (Type_ pk)) then Some ErrKeyTypeUnsupported else validateValidatorUpdates rest params
        end
  end.

Definition ValidatorUpdates `{Crypto} (vals : list ValidatorUpdate) : option (list Validator) :=
  mapM (λ v, pub ← PubKeyFromProto (vu_PubKey v); Some (NewValidator pub (vu_Power v))) vals.

Record ResponseFinalizeBlock := mkResponseFinalizeBlock {
  rf_TxResults : list ExecTxResult;
  rf_ValidatorUpdates : list ValidatorUpdate;
  rf_ConsensusParamUpdates : option ProtoParams;
  rf_AppHash : bytes;
}.

(** ** The next state *)

Inductive exec_error :=
| ErrInvalidBlock (e : validate_error)
| ErrProxyApp
| ErrTxResultsLength
| ErrSaveResponse
| ErrValidatorUpdates (e : val_update_error)
| ErrChangingValidators (e : update_error)
| ErrNewParams (e : params_error)
| ErrUpdatingParams (e : update_params_error)
| ErrCommitFailed
| ErrSaveState.

Section update.
Context `{Crypto}.

(** The parameters after the block and, where they changed, the height they
    changed at. *)
Definition next_params (state : State) (height : Z) (updates : option ProtoParams) : (ConsensusParams * Z) + exec_error :=
  match updates with
  | None => inl (st_ConsensusParams state, st_LastHeightConsensusParamsChanged state)
  | Some _ =>
      let nextParams := Params_Update (st_ConsensusParams state) updates in
      match Params_ValidateBasic nextParams with
      | Some e => inr (ErrNewParams e)
      | None =>
          match ValidateUpdate (st_ConsensusParams state) updates height with
          | Some e => inr (ErrUpdatingParams e)
          | None => inl (nextParams, int64 (height + 1))
          end
      end
  end.

Definition next_version (state : State) (nextParams : ConsensusParams) (updates : option ProtoParams) : Version_ :=
  match updates with
  | None => st_Version state
  | Some _ => mkVersion (mkConsensus (ver_Block (v_Consensus (st_Version state))) (vp_App (cp_Version nextParams))) (v_Software (st_Version state))
  end.

Definition updateState (state : State) (blockID : BlockID) (header : Header) (abciResponse : ResponseFinalizeBlock)
    (validatorUpdates : list Validator) : outcome (State + exec_error) :=
  let nValSet := Copy (st_NextValidators state) in
  '(nValSet, err) ← (if 0 <? len validatorUpdates then UpdateWithChangeSet nValSet validatorUpdates else Ret (nValSet, None));
  match err with
  | Some e => Ret (inr (ErrChangingValidators e))
  | None =>
      let lastHeightValsChanged :=
        if 0 <? len validatorUpdates then int64 (h_Height header + 1 + 1) else st_LastHeightValidatorsChanged state in
      nValSet ← IncrementProposerPriority nValSet 1;
      match next_params state (h_Height header) (rf_ConsensusParamUpdates abciResponse) with
      | inr e => Ret (inr e)
      | inl (nextParams, lastHeightParamsChanged) =>
          resultsHash ← TxResultsHash (rf_TxResults abciResponse);
          Ret (inl (mkState (next_version state nextParams (rf_ConsensusParamUpdates abciResponse)) (st_ChainID state)
                      (st_InitialHeight state) (h_Height header) blockID (h_Time header) nValSet (Copy (st_NextValidators state))
                      (Copy (st_Validators state)) lastHeightValsChanged nextParams lastHeightParamsChanged resultsHash []))
      end
  end.
End update.

(** ** Sizes of blocks and the filters of the mempool *)

Definition MaxHeaderBytes : Z := 626.
Definition MaxOverheadForBlock : Z := 11.
Definition MaxCommitOverheadBytes : Z := 94.
Definition MaxCommitSigBytes : Z := 109.
Definition MaxCommitBytes (valCount : Z) : Z := int64 (MaxCommitOverheadBytes + int64 ((MaxCommitSigBytes + 2) * valCount)).

Definition MaxDataBytes (maxBytes evidenceBytes valsCount : Z) : outcome Z :=
  let maxDataBytes := int64 (maxBytes - MaxOverheadForBlock - MaxHeaderBytes - MaxCommitBytes valsCount - evidenceBytes) in
  if maxDataBytes <? 0 then Panic "Negative MaxDataBytes" else Ret maxDataBytes.
Definition MaxDataBytesNoEvidence (maxBytes valsCount : Z) : outcome Z :=
  let maxDataBytes := int64 (maxBytes - MaxOverheadForBlock - MaxHeaderBytes - MaxCommitBytes valsCount) in
  if maxDataBytes <? 0 then Panic "Negative MaxDataBytesNoEvidence" else Ret maxDataBytes.

Definition TxPreCheck (state : State) : outcome PreCheckFunc :=
  let maxBytes := bp_MaxBytes (cp_Block (st_ConsensusParams state)) in
  let maxBytes := if maxBytes =? -1 then MaxBlockSizeBytes else maxBytes in
  maxDataBytes ← MaxDataBytesNoEvidence maxBytes (ValidatorSet.Size (st_Validators state));
  Ret (PreCheckMaxBytes maxDataBytes).
Definition TxPostCheck (state : State) : PostCheckFunc := PostCheckMaxGas (bp_MaxGas (cp_Block (st_ConsensusParams state))).

(** [txs.Validate(maxSizeBytes)]. *)
Fixpoint validate_sizes (size maxSizeBytes : Z) (txs : list Tx) : bool :=
  match txs with
  | [] => true
  | tx :: txs =>
      let size := int64 (size + ComputeProtoSizeForTxs [tx]) in
      if maxSizeBytes <? size then false else validate_sizes size maxSizeBytes txs
  end.
Definition Txs_Validate (txs : list Tx) (maxSizeBytes : Z) : bool := validate_sizes 0 maxSizeBytes txs.
