(* ===== verification/BlockExecutor.v ===== *)
(** * The block executor

    [BlockExecutor] of [state/execution.go]: proposing, checking, executing
    and committing a block.  The application, the mempool, the evidence pool,
    the stores and the event bus are the class [Executor].  A run returns the
    steps it took, in order, also when it fails or panics half way. *)
From S2P Require Import Prelude.
From S2P Require Import Vote.
From S2P Require Import Validator.
From S2P Require Import ValidatorSet.
From S2P Require Import SignBytes.
From S2P Require Import Validation.
From S2P Require Import TxCache.
From S2P Require Import Mempool.
From S2P Require Import Block.
From S2P Require Import Params.
From S2P Require Import ChainState.

(** ** Information for the application *)

Record VoteInfo := mkVoteInfo { vi_Address : bytes; vi_Power : Z; vi_BlockIdFlag : Z }.
Record CommitInfo := mkCommitInfo { ci_Round : Z; ci_Votes : list VoteInfo }.
Record ExtendedVoteInfo := mkExtendedVoteInfo { evi_Info : VoteInfo; evi_Extension : bytes; evi_ExtensionSignature : bytes }.
Record ExtendedCommitInfo := mkExtendedCommitInfo { eci_Round : Z; eci_Votes : list ExtendedVoteInfo }.

Section infos.
Context `{Crypto, EvidenceOps}.

(** [TM2PB.Validator(val)] with the flag of a signature. *)
Definition vote_info (val : Validator) (flag : Z) : outcome VoteInfo :=
  match PubKey_ val with
  | None => Panic "nil pointer dereference"
  | Some pk => Ret (mkVoteInfo (key_address pk) (VotingPower val) flag)
  end.

Definition BuildLastCommitInfo (block : Block) (lastValSet : ValidatorSet) (initialHeight : Z) : outcome CommitInfo :=
  if h_Height (b_Header block) =? initialHeight then Ret (mkCommitInfo 0 [])
  else
    match b_LastCommit block with
    | None => Panic "nil pointer dereference"
    | Some lastCommit =>
        if negb (len (commit_Signatures lastCommit) =? len (Validators lastValSet)) then Panic "commit size doesn't match validator set length"
        else
          votes ← for_each (λ '(val, sig) votes, v ← vote_info val (cs_BlockIDFlag sig); Ret (votes ++ [v]))
                    (zip (Validators lastValSet) (commit_Signatures lastCommit)) [];
          Ret (mkCommitInfo (commit_Round lastCommit) votes)
    end.

(** A turn of the loop over the validators of an extended commit. *)
Definition extended_vote_info (ap : ABCIParams) (height : Z) (val : Validator) (ecs : ExtendedCommitSig) : outcome ExtendedVoteInfo :=
  let sig := ecs_CommitSig ecs in
  if negb (cs_BlockIDFlag sig =? BlockIDFlagAbsent) && negb (bool_decide (cs_ValidatorAddress sig = Address val)) then
    Panic "validator address of extended commit signature does not match"
  else
    enabled ← VoteExtensionsEnabled ap height;
    if negb (ExtendedCommitSig_EnsureExtension ecs enabled) then Panic "commit has problems with vote extension data"
    else
      v ← vote_info val (cs_BlockIDFlag sig);
      Ret (mkExtendedVoteInfo v (ecs_Extension ecs) (ecs_ExtensionSignature ecs)).

Definition BuildExtendedCommitInfo (ec : ExtendedCommit) (valSet : ValidatorSet) (initialHeight : Z) (ap : ABCIParams) : outcome ExtendedCommitInfo :=
  if ec_Height ec <? initialHeight then Ret (mkExtendedCommitInfo 0 [])
  else if negb (len (ec_ExtendedSignatures ec) =? len (Validators valSet)) then Panic "extended commit size does not match validator set length"
  else
    votes ← for_each (λ '(val, ecs) votes, v ← extended_vote_info ap (ec_Height ec) val ecs; Ret (votes ++ [v]))
              (zip (Validators valSet) (ec_ExtendedSignatures ec)) [];
    Ret (mkExtendedCommitInfo (ec_Round ec) votes).
End infos.

(** ** What the executor calls *)

Record BlockRequest `{EvidenceOps} := mkBlockRequest {
  rq_Hash : bytes;
  rq_Height : Z;
  rq_Time : Time;
  rq_Txs : list Tx;
  rq_LastCommit : CommitInfo;
  rq_Misbehavior : list Evidence;
  rq_NextValidatorsHash : bytes;
  rq_ProposerAddress : bytes;
}.

Record PrepareRequest `{EvidenceOps} := mkPrepareRequest {
  rp_MaxTxBytes : Z;
  rp_Txs : list Tx;
  rp_LocalLastCommit : ExtendedCommitInfo;
  rp_Misbehavior : list Evidence;
  rp_Height : Z;
  rp_Time : Time;
  rp_NextValidatorsHash : bytes;
  rp_ProposerAddress : bytes;
}.

Inductive status := UNKNOWN | ACCEPT | REJECT.

(** [None] is an error of the call. *)
Class Executor `{EvidenceOps} := {
  app_PrepareProposal : PrepareRequest → option (list Tx);
  app_ProcessProposal : BlockRequest → option status;
  app_FinalizeBlock : BlockRequest → option ResponseFinalizeBlock;
  app_ExtendVote : BlockRequest → option bytes;
  app_VerifyVoteExtension : bytes → bytes → Z → bytes → option status;
  app_Commit : option Z;
  mp_FlushAppConn : bool;
  mp_Reap : Z → Z → list Tx;
  mp_Update : Z → list Tx → list ExecTxResult → PreCheckFunc → PostCheckFunc → outcome bool;
  evp_Pending : Z → list Evidence * Z;
  evp_CheckEvidence : list Evidence → bool;
  store_LoadValidators : Z → option ValidatorSet;
  store_SaveResponse : Z → ResponseFinalizeBlock → bool;
  store_Save : State → bool;
  store_PruneStates : Z → Z → Z → bool;
  blocks_Base : Z;
  blocks_Prune : Z → State → option (Z * Z);
}.

(** The calls that change something outside the executor. *)
Inductive exec_step `{EvidenceOps} :=
| FinalizeBlock (req : BlockRequest)
| SaveFinalizeBlockResponse (height : Z) (resp : ResponseFinalizeBlock)
| LockMempool
| FlushMempool
| CommitApp
| UpdateMempool (height : Z) (txs : list Tx) (results : list ExecTxResult)
| UnlockMempool
| UpdateEvpool (state : State) (evidence : list Evidence)
| SaveState (state : State)
| PruneBlocks (retainHeight : Z)
| PruneStates (base retainHeight evidenceHeight : Z)
| FireEvents (block : Block) (blockID : BlockID) (resp : ResponseFinalizeBlock) (updates : list Validator).

(** ** Runs *)

Section executor.
Context `{Crypto, StdTime, BatchCrypto, EvidenceOps, !Executor}.

Definition EX (A : Type) : Type := list exec_step → list exec_step * outcome (A + exec_error).

Definition ex_ret {A} (x : A) : EX A := λ tr, (tr, Ret (inl x)).
Definition ex_fail {A} (e : exec_error) : EX A := λ tr, (tr, Ret (inr e)).
Definition ex_lift {A} (o : outcome A) : EX A := λ tr, (tr, match o with Ret x => Ret (inl x) | Panic s => Panic s end).
Definition ex_do (s : exec_step) : EX () := λ tr, (tr ++ [s], Ret (inl tt)).
Definition ex_bind {A B} (m : EX A) (k : A → EX B) : EX B := λ tr,
  let '(tr, r) := m tr in
  match r with
  | Panic s => (tr, Panic s)
  | Ret (inr e) => (tr, Ret (inr e))
  | Ret (inl x) => k x tr
  end.
(** [defer]: the step is taken however the body ends. *)
Definition ex_defer {A} (m : EX A) (s : exec_step) : EX A := λ tr, let '(tr, r) := m tr in (tr ++ [s], r).
Definition ex_need {A} (o : option A) (e : exec_error) : EX A := match o with Some x => ex_ret x | None => ex_fail e end.
Definition ex_guard (b : bool) (e : exec_error) : EX () := if b then ex_ret tt else ex_fail e.

Local Notation "x <-- m ; k" := (ex_bind m (λ x, k)) (at level 200, m at level 100, k at level 200, only parsing).
Local Notation "m ;; k" := (ex_bind m (λ _, k)) (at level 100, k at level 200, only parsing, right associativity).

Definition buildLastCommitInfoFromStore (block : Block) (initialHeight : Z) : outcome CommitInfo :=
  if h_Height (b_Header block) =? initialHeight then Ret (mkCommitInfo 0 [])
  else
    match store_LoadValidators (int64 (h_Height (b_Header block) - 1)) with
    | None => Panic "failed to load validator set"
    | Some lastValSet => BuildLastCommitInfo block lastValSet initialHeight
    end.

Definition buildExtendedCommitInfoFromStore (ec : ExtendedCommit) (initialHeight : Z) (ap : ABCIParams) : outcome ExtendedCommitInfo :=
  if ec_Height ec <? initialHeight then Ret (mkExtendedCommitInfo 0 [])
  else
    match store_LoadValidators (ec_Height ec) with
    | None => Panic "failed to load validator set"
    | Some valSet => BuildExtendedCommitInfo ec valSet initialHeight ap
    end.

(** The request that describes a block under a hash. *)
Definition block_request (block : Block) (hash : bytes) (initialHeight : Z) : outcome BlockRequest :=
  let h := b_Header block in
  info ← buildLastCommitInfoFromStore block initialHeight;
  Ret (mkBlockRequest _ hash (h_Height h) (h_Time h) (b_Txs block) info (b_Evidence block) (h_NextValidatorsHash h) (h_ProposerAddress h)).

Inductive proposal_error := ErrPrepareProposal | ErrTxsTooBig.

Definition CreateProposalBlock (height : Z) (state : State) (lastExtCommit : ExtendedCommit) (proposerAddr : bytes)
    : outcome (Block + proposal_error) :=
  let maxBytes := bp_MaxBytes (cp_Block (st_ConsensusParams state)) in
  let emptyMaxBytes := maxBytes =? -1 in
  let maxBytes := if emptyMaxBytes then MaxBlockSizeBytes else maxBytes in
  let maxGas := bp_MaxGas (cp_Block (st_ConsensusParams state)) in
  let '(evidence, evSize) := evp_Pending (ep_MaxBytes (cp_Evidence (st_ConsensusParams state))) in
  maxDataBytes ← MaxDataBytes maxBytes evSize (ValidatorSet.Size (st_Validators state));
  let maxReapBytes := if emptyMaxBytes then -1 else maxDataBytes in
  let txs := mp_Reap maxReapBytes maxGas in
  let commit := ToCommit lastExtCommit in
  block ← state_MakeBlock state height txs (Some commit) evidence proposerAddr;
  info ← buildExtendedCommitInfoFromStore lastExtCommit (st_InitialHeight state) (cp_ABCI (st_ConsensusParams state));
  let h := b_Header block in
  match app_PrepareProposal (mkPrepareRequest _ maxDataBytes (b_Txs block) info (b_Evidence block) (h_Height h) (h_Time h)
                               (h_NextValidatorsHash h) (h_ProposerAddress h)) with
  | None => Ret (inr ErrPrepareProposal)
  | Some txl =>
      if negb (Txs_Validate txl maxDataBytes) then Ret (inr ErrTxsTooBig)
      else block ← state_MakeBlock state height txl (Some commit) evidence proposerAddr; Ret (inl block)
  end.

Definition ProcessProposal (block : Block) (state : State) : outcome (bool + exec_error) :=
  hash ← Header_Hash (b_Header block);
  req ← block_request block hash (st_InitialHeight state);
  match app_ProcessProposal req with
  | None => Ret (inr ErrProxyApp)
  | Some UNKNOWN => Panic "ProcessProposal responded with status UNKNOWN"
  | Some ACCEPT => Ret (inl true)
  | Some REJECT => Ret (inl false)
  end.

Inductive block_check := BlockOk | BlockInvalid (e : validate_error) | BadEvidence.

Definition ValidateBlock (state : State) (block : Block) : outcome block_check :=
  err ← validateBlock state block;
  Ret (match err with
       | Some e => BlockInvalid e
       | None => if evp_CheckEvidence (b_Evidence block) then BlockOk else BadEvidence
       end).

Definition ExtendVote (vote : Vote) (block : Block) (state : State) : outcome bytes :=
  '(block, hashes) ← HashesTo (Some block) (BlockHash (vote_BlockID vote));
  match block with
  | None => Panic "nil pointer dereference"
  | Some block =>
      if negb hashes then Panic "vote's hash does not match the block it is referring to"
      else if negb (vote_Height vote =? h_Height (b_Header block)) then Panic "vote's and block's heights do not match"
      else
        req ← block_request block (BlockHash (vote_BlockID vote)) (st_InitialHeight state);
        match app_ExtendVote req with
        | None => Panic "ExtendVote call failed"
        | Some ext => Ret ext
        end
  end.

(** True stands for a nil error. *)
Definition VerifyVoteExtension (vote : Vote) : outcome bool :=
  match app_VerifyVoteExtension (BlockHash (vote_BlockID vote)) (ValidatorAddress vote) (vote_Height vote) (vote_Extension vote) with
  | None => Panic "VerifyVoteExtension call failed"
  | Some UNKNOWN => Panic "VerifyVoteExtension responded with status UNKNOWN"
  | Some ACCEPT => Ret true
  | Some REJECT => Ret false
  end.

Definition Commit_ (state : State) (block : Block) (abciResponse : ResponseFinalizeBlock) : EX Z :=
  ex_do LockMempool;;
  ex_defer
    (ex_do FlushMempool;;
     ex_guard mp_FlushAppConn ErrCommitFailed;;
     ex_do CommitApp;;
     retain <-- ex_need app_Commit ErrCommitFailed;
     pre <-- ex_lift (TxPreCheck state);
     let height := h_Height (b_Header block) in
     ex_do (UpdateMempool height (b_Txs block) (rf_TxResults abciResponse));;
     ok <-- ex_lift (mp_Update height (b_Txs block) (rf_TxResults abciResponse) pre (TxPostCheck state));
     ex_guard ok ErrCommitFailed;;
     ex_ret retain)
    UnlockMempool.

(** The errors of pruning are only logged. *)
Definition pruneBlocks (retainHeight : Z) (state : State) : EX () :=
  let base := blocks_Base in
  if retainHeight <=? base then ex_ret tt
  else
    ex_do (PruneBlocks retainHeight);;
    match blocks_Prune retainHeight state with
    | None => ex_ret tt
    | Some (_, evidenceHeight) => ex_do (PruneStates base retainHeight evidenceHeight)
    end.

Definition applyBlock (state : State) (blockID : BlockID) (block : Block) : EX State :=
  hashed <-- ex_lift (Block_Hash block);
  let '(block, hash) := hashed in
  req <-- ex_lift (block_request block hash (st_InitialHeight state));
  ex_do (FinalizeBlock req);;
  abciResponse <-- ex_need (app_FinalizeBlock req) ErrProxyApp;
  ex_guard (len (b_Txs block) =? len (rf_TxResults abciResponse)) ErrTxResultsLength;;
  ex_do (SaveFinalizeBlockResponse (h_Height (b_Header block)) abciResponse);;
  ex_guard (store_SaveResponse (h_Height (b_Header block)) abciResponse) ErrSaveResponse;;
  match validateValidatorUpdates (rf_ValidatorUpdates abciResponse) (cp_Validator (st_ConsensusParams state)) with
  | Some e => ex_fail (ErrValidatorUpdates e)
  | None => ex_ret tt
  end;;
  validatorUpdates <-- ex_need (ValidatorUpdates (rf_ValidatorUpdates abciResponse)) (ErrValidatorUpdates ErrUpdateKey);
  next <-- ex_lift (updateState state blockID (b_Header block) abciResponse validatorUpdates);
  state <-- (match next with inl s => ex_ret s | inr e => ex_fail e end);
  retainHeight <-- Commit_ state block abciResponse;
  ex_do (UpdateEvpool state (b_Evidence block));;
  let state := with_AppHash state (rf_AppHash abciResponse) in
  ex_do (SaveState state);;
  ex_guard (store_Save state) ErrSaveState;;
  (if 0 <? retainHeight then pruneBlocks retainHeight state else ex_ret tt);;
  ex_do (FireEvents block blockID abciResponse validatorUpdates);;
  ex_ret state.

Definition ApplyBlock (state : State) (blockID : BlockID) (block : Block) : EX State :=
  err <-- ex_lift (validateBlock state block);
  match err with
  | Some e => ex_fail (ErrInvalidBlock e)
  | None => applyBlock state blockID block
  end.
Definition ApplyVerifiedBlock (state : State) (blockID : BlockID) (block : Block) : EX State := applyBlock state blockID block.

(** [ExecCommitBlock]: a block is executed and committed without a state. *)
Definition ExecCommitBlock (block : Block) (initialHeight : Z) : EX bytes :=
  hashed <-- ex_lift (info ← buildLastCommitInfoFromStore block initialHeight; '(block, hash) ← Block_Hash block; Ret (block, hash, info));
  let '(block, hash, info) := hashed in
  let h := b_Header block in
  let req := mkBlockRequest _ hash (h_Height h) (h_Time h) (b_Txs block) info (b_Evidence block) (h_NextValidatorsHash h) (h_ProposerAddress h) in
  ex_do (FinalizeBlock req);;
  resp <-- ex_need (app_FinalizeBlock req) ErrProxyApp;
  ex_guard (len (b_Txs block) =? len (rf_TxResults resp)) ErrTxResultsLength;;
  ex_do CommitApp;;
  ex_need app_Commit ErrCommitFailed;;
  ex_ret (rf_AppHash resp).
End executor.
