(* ===== verification/ChainStateProofs.v ===== *)
(** * Lemmas on the state of the chain

    The validators that updates leave in a set, the weighted median of block
    times, the rules for parameters, and the invariant of the state. *)
From S2P Require Import Prelude.
From S2P Require Import Proto.
From S2P Require Import Vote.
From S2P Require Import SafeMath.
From S2P Require Import Validator.
From S2P Require Import ValidatorSet.
From S2P Require Import ValidatorSetPriority.
From S2P Require Import ValidatorSetUpdate.
From S2P Require Import SignBytes.
From S2P Require Import Merkle.
From S2P Require Import Validation.
From S2P Require Import TxCache.
From S2P Require Import Mempool.
From S2P Require Import Block.
From S2P Require Import BlockProofs.
From S2P Require Import Params.
From S2P Require Import ChainState.
From S2P Require Import BlockExecutor.

(** ** What updates keep of the validators *)

Section keep.
Context (Q : Validator → Prop) (Qp : ∀ v p, Q v → Q (set_priority v p)).

Lemma keep_set_priorities (f : Validator → Z) l : Forall Q l → Forall Q ((λ v, set_priority v (f v)) <$> l).
Proof using Qp. intros Hl. apply Forall_fmap. eapply Forall_impl; [exact Hl|]. intros v. apply Qp. Qed.

Lemma keep_total vals vals' t : TotalVotingPower vals = Ret (vals', t) → Validators vals' = Validators vals.
Proof.
  unfold TotalVotingPower. intros H. bind_split H v Hv. injection H as <- <-. destruct (_ =? 0); [|by injection Hv as <-].
  unfold updateTotalVotingPower in Hv. bind_split Hv s Hs. by injection Hv as <-.
Qed.

Lemma keep_rescale vals d vals' : RescalePriorities vals d = Ret vals' → Forall Q (Validators vals) → Forall Q (Validators vals').
Proof using Qp.
  unfold RescalePriorities. intros H Hq. destruct (IsNilOrEmpty vals); [done|]. destruct (d <=? 0); [by injection H as <-|].
  bind_split H diff Hd. destruct (d <? diff); [|by injection H as <-]. destruct (_ =? 0); [done|]. injection H as <-. by apply keep_set_priorities.
Qed.

Lemma keep_shift vals vals' : shiftByAvgProposerPriority vals = Ret vals' → Forall Q (Validators vals) → Forall Q (Validators vals').
Proof using Qp.
  unfold shiftByAvgProposerPriority. intros H Hq. destruct (IsNilOrEmpty vals); [done|]. bind_split H a Ha. injection H as <-.
  by apply keep_set_priorities.
Qed.

Lemma most_priority_in l r i k v : (∀ k r', r = Some (k, r') → Q r') → Forall Q l → most_priority r i l = Ret (Some (k, v)) → Q v.
Proof.
  revert r i. induction l as [|w l IH]; intros r i Hr Hl H; simpl in H; [injection H as ->; by eapply Hr|]. apply Forall_cons in Hl as [Hw Hl].
  destruct r as [[j r]|]; [|eapply IH; [|done|exact H]; by intros ? ? [= _ <-]].
  bind_split H b Hb. eapply IH; [|done|exact H]. intros k' r' Hk. destruct b; injection Hk as <- <-; [by eapply Hr|done].
Qed.

Lemma keep_increment n vals p vals' p' :
  increment_times n vals p = Ret (vals', p') → Forall Q (Validators vals) → Forall Q (Validators vals').
Proof using Qp.
  revert vals p. induction n as [|n IH]; intros vals p H Hq; simpl in H; [by injection H as <- <-|].
  bind_split H x Hx. destruct x as [vals1 q]. eapply IH; [exact H|]. clear H IH. unfold incrementProposerPriority in Hx.
  bind_split Hx most Hm. destruct most as [[k m]|]; [|done]. bind_split Hx y Hy. destruct y as [vals2 t]. injection Hx as <- <-.
  apply keep_total in Hy. cbn [Validators with_validators] in *. rewrite Hy. apply Forall_insert; [by apply keep_set_priorities|].
  apply Qp. eapply most_priority_in; [|by apply keep_set_priorities|exact Hm]. done.
Qed.

Lemma keep_IncrementProposerPriority vals n vals' :
  IncrementProposerPriority vals n = Ret vals' → Forall Q (Validators vals) → Forall Q (Validators vals').
Proof using Qp.
  unfold IncrementProposerPriority. intros H Hq. destruct (IsNilOrEmpty vals); [done|]. destruct (n <=? 0); [done|].
  bind_split H x Hx. destruct x as [v1 t]. bind_split H v2 H2. bind_split H v3 H3. bind_split H y Hy. destruct y as [v4 q]. injection H as <-.
  change (Forall Q (Validators v4)). eapply keep_increment; [exact Hy|]. eapply keep_shift; [exact H3|]. eapply keep_rescale; [exact H2|].
  by rewrite (keep_total _ _ _ Hx).
Qed.

Lemma keep_merge l : ∀ us, Forall Q l → Forall Q us → Forall Q (merge_updates l us).
Proof.
  induction l as [|e l IH]; intros us Hl Hus; [by destruct us|]. induction us as [|u us IHu]; [done|].
  pose proof Hl as [He Hl']%Forall_cons. pose proof Hus as [Hu Hus']%Forall_cons. cbn [merge_updates].
  destruct (bytes_ltb _ _); [constructor; [done|by apply IH]|]. constructor; [done|]. case_decide; [by apply IH|by apply IHu].
Qed.

Lemma keep_remove l : ∀ ds m room r, remove_loop l ds m room = Ret r → Forall Q l → Forall Q m → Forall Q r.
Proof.
  induction l as [|e l IH]; intros ds m room r H Hl Hm; destruct ds as [|d ds]; simpl in H.
  1, 3: destruct (_ <? _); [done|]; injection H as <-; by apply Forall_app.
  - done.
  - apply Forall_cons in Hl as [He Hl]. case_decide; [by eapply IH|]. destruct (room <=? 0); [done|].
    eapply IH; [exact H|done|]. apply Forall_app. by split; [|constructor].
Qed.

Lemma keep_finish vals vals' : finish_update vals = Ret vals' → Forall Q (Validators vals) → Forall Q (Validators vals').
Proof using Qp.
  unfold finish_update. intros H Hq. bind_split H v1 H1. bind_split H v2 H2. bind_split H x Hx. destruct x as [v3 t]. bind_split H v4 H4. bind_split H v5 H5.
  injection H as <-. cbn [Validators with_validators]. rewrite sort_by_perm. eapply keep_shift; [exact H5|]. eapply keep_rescale; [exact H4|].
  rewrite (keep_total _ _ _ Hx). unfold updateTotalVotingPower in H2. bind_split H2 s Hs. injection H2 as <-.
  unfold checkAllKeysHaveSameType in H1. destruct (_ =? 0); [by injection H1 as <-|]. bind_split H1 r Hr. by injection H1 as <-.
Qed.

Lemma keep_scan changes : ∀ prev us ds us' ds',
  scan_changes prev changes us ds = inl (us', ds') → Forall Q changes → Forall Q us → Forall Q us'.
Proof.
  induction changes as [|c changes IH]; intros prev us ds us' ds' H Hc Hus; simpl in H; [by injection H as <- <-|].
  apply Forall_cons in Hc as [Hc Hcs]. case_decide; [done|]. destruct (_ <? 0); [done|]. destruct (_ <? _); [done|].
  destruct (_ =? 0); (eapply IH; [exact H|done|]); [done|]. apply Forall_app. by split; [|constructor].
Qed.

Lemma keep_updateWithChangeSet vals changes b vals' :
  updateWithChangeSet vals changes b = Ret (vals', None) → Forall Q (Validators vals) → Forall Q changes → Forall Q (Validators vals').
Proof using Qp.
  unfold updateWithChangeSet. intros H Hq Hc. destruct (len changes =? 0); [by injection H as <-|].
  destruct (processChanges changes) as [[us ds]|] eqn:Hp; [|done]. destruct (_ && _); [done|]. destruct (_ && _); [done|].
  bind_split H r Hr. destruct r; [|done]. bind_split H x Hx. destruct x as [v1 [t|]]; [|done]. bind_split H v2 H2. injection H as <-.
  unfold verifyUpdates in Hx. bind_split Hx y Hy. destruct y as [v3 t3]. injection Hx as <- _.
  unfold apply_changes in H2. bind_split H2 v4 H4. eapply keep_finish; [exact H2|]. unfold applyRemovals in H4.
  destruct (_ <? 0); [done|]. bind_split H4 m Hm. injection H4 as <-. eapply keep_remove; [exact Hm| |constructor]. cbn [Validators applyUpdates with_validators].
  apply keep_merge; [rewrite sort_by_perm; by rewrite (keep_total _ _ _ Hy)|]. apply Forall_fmap. unfold processChanges in Hp.
  assert (Forall Q us) as Hus by (eapply keep_scan; [exact Hp|by rewrite sort_by_perm|constructor]).
  eapply Forall_impl; [exact Hus|]. intros v Hv. simpl. destruct (snd _); by apply Qp.
Qed.
End keep.

(** ** The weighted median *)

Lemma weighted_less_asym x y : weighted_less x y = true → weighted_less y x = false.
Proof. destruct x, y; simpl; try done. intros ?%Z.ltb_lt. apply Z.ltb_ge. lia. Qed.
Lemma weighted_ng_trans x y z : not_greater weighted_less x y → not_greater weighted_less y z → not_greater weighted_less x z.
Proof. unfold not_greater. destruct x, y, z; simpl; try done. rewrite !Z.ltb_ge. lia. Qed.

(** The weight of the times before, and of those not after, a time. *)
Definition weight_if (test : Z → bool) (w : option WeightedTime) : Z :=
  match w with Some w => if test (UnixNano (wt_Time w)) then wt_Weight w else 0 | None => 0 end.
Definition below (u : Z) : list (option WeightedTime) → Z := zsum (weight_if (λ t, t <? u)).
Definition upto (u : Z) : list (option WeightedTime) → Z := zsum (weight_if (λ t, t <=? u)).
Definition total_weight : list (option WeightedTime) → Z := zsum (weight_if (λ _, true)).
Definition weighted_ok (l : list (option WeightedTime)) : Prop := Forall (λ w, ∀ w', w = Some w' → 0 < wt_Weight w') l.

Lemma weight_if_bounds test l : weighted_ok l → 0 ≤ zsum (weight_if test) l ≤ total_weight l.
Proof.
  unfold total_weight. induction 1 as [|w l Hw _ IH]; rewrite ?zsum_nil, ?zsum_cons; [lia|]. destruct w as [w|]; simpl; [|lia].
  specialize (Hw w eq_refl). destruct (test _); lia.
Qed.

Lemma below_zero u l : Forall (λ w, ∀ w', w = Some w' → u ≤ UnixNano (wt_Time w')) l → below u l = 0.
Proof.
  unfold below. induction 1 as [|w l Hw _ IH]; [by rewrite zsum_nil|]. rewrite zsum_cons, IH. destruct w as [w|]; simpl; [|lia].
  specialize (Hw w eq_refl). destruct (Z.ltb_spec (UnixNano (wt_Time w)) u); lia.
Qed.

(** What the loop finds in a sorted list. *)
Lemma median_loop_spec l M :
  StronglySorted (not_greater weighted_less) l → weighted_ok l → total_weight l ≤ MaxInt64 → 0 ≤ M ≤ total_weight l → 0 < total_weight l →
  ∃ w, Some w ∈ l ∧ median_loop M l = wt_Time w ∧ below (UnixNano (wt_Time w)) l < Z.max 1 M ≤ upto (UnixNano (wt_Time w)) l.
Proof.
  intros Hs. revert M. induction Hs as [|w l Hs IH Hall]; intros M Hok Hmax HM Hpos; [unfold total_weight in Hpos; rewrite zsum_nil in Hpos; lia|].
  apply Forall_cons in Hok as [Hw Hok]. unfold total_weight in *. rewrite zsum_cons in *. destruct w as [w|]; simpl in *.
  2: { destruct (IH M) as (w & Hin & Hm & Hb); [done|lia..|]. exists w. split_and!; [by right|done|..]; unfold below, upto in *; rewrite zsum_cons; simpl; lia. }
  specialize (Hw w eq_refl). pose proof (weight_if_bounds (λ _, true) l Hok) as Htot. destruct (Z.leb_spec M (wt_Weight w)) as [Hle|Hgt].
  - exists w. split_and!; [by left|done|..].
    + rewrite below_zero; [lia|]. constructor; [by intros ? [= <-]|]. eapply Forall_impl; [exact Hall|].
      intros x Hx w' ->. unfold not_greater in Hx. simpl in Hx. lia.
    + unfold upto. rewrite zsum_cons. simpl. rewrite Z.leb_refl. pose proof (weight_if_bounds (λ t, t <=? UnixNano (wt_Time w)) l Hok). lia.
  - rewrite int64_id by (unfold is_int64, MinInt64; lia). destruct (IH (M - wt_Weight w)) as (w' & Hin & Hm & Hb); [done|unfold total_weight in *; lia..|].
    exists w'. split_and!; [by right|done|..]; unfold below, upto in *; rewrite zsum_cons; simpl.
    + destruct (_ <? _); lia.
    + rewrite Forall_forall in Hall. specialize (Hall _ Hin). unfold not_greater in Hall. simpl in Hall.
      destruct (Z.leb_spec (UnixNano (wt_Time w)) (UnixNano (wt_Time w'))); lia.
Qed.

Lemma WeightedMedian_spec l T :
  weighted_ok l → T = total_weight l → 0 < T ≤ MaxInt64 →
  ∃ w, Some w ∈ l ∧ WeightedMedian l T = wt_Time w ∧
    below (UnixNano (wt_Time w)) l < Z.max 1 (T / 2) ≤ upto (UnixNano (wt_Time w)) l.
Proof.
  intros Hok HT Hpos. unfold WeightedMedian. rewrite Z.quot_div_nonneg by lia. pose proof (sort_by_perm weighted_less l) as Hperm.
  assert (∀ test, zsum (weight_if test) (sort_by weighted_less l) = zsum (weight_if test) l) as Hz by (intros; by apply zsum_perm).
  destruct (median_loop_spec (sort_by weighted_less l) (T / 2)) as (w & Hin & Hm & Hb).
  - apply sort_by_sorted; [apply weighted_less_asym|apply weighted_ng_trans].
  - unfold weighted_ok. by rewrite Hperm.
  - unfold total_weight in *. rewrite Hz. lia.
  - unfold total_weight in *. rewrite Hz, <-HT. pose proof (Z.div_pos T 2 ltac:(lia) ltac:(lia)). pose proof (Z.mul_div_le T 2 ltac:(lia)). lia.
  - unfold total_weight in *. rewrite Hz. lia.
  - exists w. rewrite Hperm in Hin. unfold below, upto in *. rewrite !Hz in Hb. done.
Qed.

(** ** The median of a commit *)

(** The power a signature counts with. *)
Definition sig_power (vals : ValidatorSet) (sig : CommitSig) : Z :=
  if cs_BlockIDFlag sig =? BlockIDFlagAbsent then 0
  else match (GetByAddress vals (cs_ValidatorAddress sig)).2 with Some v => VotingPower v | None => 0 end.

Definition weighted (vals : ValidatorSet) (sig : CommitSig) : option WeightedTime :=
  if cs_BlockIDFlag sig =? BlockIDFlagAbsent then None
  else match (GetByAddress vals (cs_ValidatorAddress sig)).2 with
       | Some v => Some (mkWeightedTime (cs_Timestamp sig) (VotingPower v))
       | None => None
       end.

Lemma weigh_step vals sig ws T :
  0 ≤ T → 0 ≤ sig_power vals sig → T + sig_power vals sig ≤ MaxInt64 →
  weigh vals sig (ws, T) = (ws ++ [weighted vals sig], T + sig_power vals sig).
Proof.
  unfold weigh, sig_power, weighted. destruct (cs_BlockIDFlag sig =? _); [|destruct (GetByAddress _ _).2 as [v|]]; intros; f_equal; try lia.
  rewrite int64_id; [done|unfold is_int64, MinInt64; lia].
Qed.

Lemma sig_power_nonneg vals sig : Forall (λ v, 0 < VotingPower v) (Validators vals) → 0 ≤ sig_power vals sig.
Proof.
  intros Hpos. unfold sig_power. destruct (_ =? _); [done|]. pose proof (GetByAddress_spec vals (cs_ValidatorAddress sig)) as Hg.
  destruct (GetByAddress _ _).2 as [v|]; [|done]. destruct Hg as [Hin _]. rewrite Forall_forall in Hpos. specialize (Hpos v Hin). simpl in Hpos. lia.
Qed.

Lemma weigh_fold vals sigs : ∀ ws T,
  Forall (λ v, 0 < VotingPower v) (Validators vals) → 0 ≤ T → T + zsum (sig_power vals) sigs ≤ MaxInt64 →
  foldl (λ st sig, weigh vals sig st) (ws, T) sigs = (ws ++ (weighted vals <$> sigs), T + zsum (sig_power vals) sigs).
Proof.
  induction sigs as [|sig sigs IH]; intros ws T Hpos HT Hmax; [rewrite zsum_nil, app_nil_r; simpl; f_equal; lia|].
  rewrite zsum_cons in *. pose proof (sig_power_nonneg vals sig Hpos).
  assert (0 ≤ zsum (sig_power vals) sigs) as Hrest by (apply zsum_nonneg; intros; by apply sig_power_nonneg).
  cbn [foldl]. rewrite weigh_step, IH by (done || lia). rewrite fmap_cons, <-app_assoc. f_equal. lia.
Qed.

Section median.
Context (vals : ValidatorSet) (commit : Commit).
Context (Hpos : Forall (λ v, 0 < VotingPower v) (Validators vals)).
Context (HT : 0 < zsum (sig_power vals) (commit_Signatures commit) ≤ MaxInt64).

Lemma weighted_zsum test :
  zsum (weight_if test) (weighted vals <$> commit_Signatures commit) =
  zsum (λ sig, if test (UnixNano (cs_Timestamp sig)) then sig_power vals sig else 0) (commit_Signatures commit).
Proof using.
  rewrite zsum_fmap. apply zsum_ext_in. intros sig _. unfold weighted, sig_power. destruct (_ =? _); [by destruct (test _)|].
  destruct (GetByAddress _ _).2; simpl; by destruct (test _).
Qed.

(** The median is the time of a signature that counts; less than half of the
    power signed an earlier time, and half of it that time or an earlier one. *)
Lemma MedianTime_spec :
  ∃ sig, sig ∈ commit_Signatures commit ∧ 0 < sig_power vals sig ∧ MedianTime commit vals = cs_Timestamp sig ∧
    let power (test : Z → bool) := zsum (λ s, if test (UnixNano (cs_Timestamp s)) then sig_power vals s else 0) (commit_Signatures commit) in
    power (λ t, t <? UnixNano (cs_Timestamp sig)) < Z.max 1 (zsum (sig_power vals) (commit_Signatures commit) / 2) ≤
    power (λ t, t <=? UnixNano (cs_Timestamp sig)).
Proof using All.
  unfold MedianTime. rewrite weigh_fold by (done || lia). rewrite app_nil_l, Z.add_0_l.
  destruct (WeightedMedian_spec (weighted vals <$> commit_Signatures commit) (zsum (sig_power vals) (commit_Signatures commit)))
    as (w & Hin & -> & Hb).
  - apply Forall_fmap, Forall_forall. intros sig _ w. simpl. unfold weighted. destruct (_ =? _); [done|].
    pose proof (GetByAddress_spec vals (cs_ValidatorAddress sig)) as Hg. destruct (GetByAddress _ _).2 as [v|]; [|done]. intros [= <-].
    destruct Hg as [Hv _]. rewrite Forall_forall in Hpos. by apply Hpos.
  - unfold total_weight. rewrite weighted_zsum. by apply zsum_ext_in.
  - done.
  - apply list_elem_of_fmap in Hin as (sig & Hw & Hin). exists sig. unfold below, upto in Hb. rewrite !weighted_zsum in Hb.
    unfold weighted in Hw. unfold sig_power at 1. destruct (_ =? _); [done|]. pose proof (GetByAddress_spec vals (cs_ValidatorAddress sig)) as Hg.
    destruct (GetByAddress _ _).2 as [v|]; [|done]. injection Hw as ->. destruct Hg as [Hv _]. rewrite Forall_forall in Hpos. specialize (Hpos v Hv). done.
Qed.
End median.

(** ** The order of an execution *)

Inductive phase :=
| Finalizing
| SavingResponse
| Locking
| Flushing
| Committing
| UpdatingMempool
| Unlocking
| UpdatingEvidence
| SavingState
| PruningBlocks
| PruningStates
| Firing.

#[export] Instance phase_eq_dec : EqDecision phase.
Proof. solve_decision. Defined.

Definition phase_of `{EvidenceOps} (s : exec_step) : phase :=
  match s with
  | FinalizeBlock _ => Finalizing
  | SaveFinalizeBlockResponse _ _ => SavingResponse
  | LockMempool => Locking
  | FlushMempool => Flushing
  | CommitApp => Committing
  | UpdateMempool _ _ _ => UpdatingMempool
  | UnlockMempool => Unlocking
  | UpdateEvpool _ _ => UpdatingEvidence
  | SaveState _ => SavingState
  | PruneBlocks _ => PruningBlocks
  | PruneStates _ _ _ => PruningStates
  | FireEvents _ _ _ _ => Firing
  end.

Section executor.
Context `{Crypto, StdTime, BatchCrypto, EvidenceOps, !Executor}.

Lemma ex_bind_cases {A B} (m : EX A) (k : A → EX B) tr :
  (∃ x, (m tr).2 = Ret (inl x) ∧ ex_bind m k tr = k x (m tr).1) ∨
  (∃ e, (m tr).2 = Ret (inr e) ∧ ex_bind m k tr = ((m tr).1, Ret (inr e))) ∨
  (∃ s, (m tr).2 = Panic s ∧ ex_bind m k tr = ((m tr).1, Panic s)).
Proof using. unfold ex_bind. destruct (m tr) as [tr' [[x|e]|s]]; simpl; eauto. Qed.

(** The steps of a commit. *)
Lemma Commit_steps s b resp tr0 :
  ∃ tr, (Commit_ s b resp tr0).1 = tr0 ++ tr ∧
    match (Commit_ s b resp tr0).2 with
    | Ret (inl _) => tr = [LockMempool; FlushMempool; CommitApp; UpdateMempool (h_Height (b_Header b)) (b_Txs b) (rf_TxResults resp); UnlockMempool]
    | _ => phase_of <$> tr ∈ [[Locking; Flushing; Unlocking]; [Locking; Flushing; Committing; Unlocking]; [Locking; Flushing; Committing; UpdatingMempool; Unlocking]]
    end.
Proof using.
  unfold Commit_, ex_defer, ex_bind, ex_do, ex_guard, ex_need, ex_lift, ex_ret, ex_fail.
  destruct mp_FlushAppConn; [|eexists; rewrite <-!app_assoc; split; [done|simpl; set_solver]].
  destruct app_Commit as [retain|]; [|eexists; rewrite <-!app_assoc; split; [done|simpl; set_solver]].
  destruct (TxPreCheck s) as [pre|]; [|eexists; rewrite <-!app_assoc; split; [done|simpl; set_solver]].
  destruct (mp_Update _ _ _ _ _) as [[|]|]; eexists; rewrite <-!app_assoc; (split; [done|simpl; set_solver]).
Qed.

(** How an execution ends before the commit. *)
Definition executed_to (s : State) (id : BlockID) (b : Block) (req : BlockRequest) (resp : ResponseFinalizeBlock) (b' : Block)
    (ups : list Validator) (s1 : State) : Prop :=
  (∃ hash, Block_Hash b = Ret (b', hash) ∧ block_request b' hash (st_InitialHeight s) = Ret req) ∧
  app_FinalizeBlock req = Some resp ∧ len (b_Txs b') = len (rf_TxResults resp) ∧
  store_SaveResponse (h_Height (b_Header b')) resp = true ∧
  validateValidatorUpdates (rf_ValidatorUpdates resp) (cp_Validator (st_ConsensusParams s)) = None ∧
  ValidatorUpdates (rf_ValidatorUpdates resp) = Some ups ∧ updateState s id (b_Header b') resp ups = Ret (inl s1).

Definition failed {A} (r : outcome (A + exec_error)) : Prop := ∀ x, r ≠ Ret (inl x).

Lemma prune_steps h s tr0 : ∃ tr, pruneBlocks h s tr0 = (tr0 ++ tr, Ret (inl tt)) ∧ phase_of <$> tr ∈ [[]; [PruningBlocks]; [PruningBlocks; PruningStates]].
Proof using.
  unfold pruneBlocks, ex_bind, ex_do, ex_ret. destruct (h <=? blocks_Base); [exists []; rewrite app_nil_r; split; [done|set_solver]|].
  destruct (blocks_Prune h s) as [[n e]|]; eexists; rewrite <-?app_assoc; (split; [done|simpl; set_solver]).
Qed.

(** The end of an execution after the commit. *)
Definition finish_steps (s : State) (b : Block) (id : BlockID) (resp : ResponseFinalizeBlock) (ups : list Validator) (retain : Z) : EX State :=
  ex_bind (ex_do (SaveState s)) (λ _,
  ex_bind (ex_guard (store_Save s) ErrSaveState) (λ _,
  ex_bind (if 0 <? retain then pruneBlocks retain s else ex_ret tt) (λ _,
  ex_bind (ex_do (FireEvents b id resp ups)) (λ _, ex_ret s)))).

Lemma finish_spec s b id resp ups retain tr0 :
  ∃ tr, (finish_steps s b id resp ups retain tr0).1 = tr0 ++ SaveState s :: tr ∧ phase_of <$> tr ∈ [[]; [Firing]; [PruningBlocks; Firing]; [PruningBlocks; PruningStates; Firing]] ∧
    (finish_steps s b id resp ups retain tr0).2 = (if store_Save s then Ret (inl s) else Ret (inr ErrSaveState)).
Proof using.
  unfold finish_steps, ex_bind, ex_guard, ex_do, ex_ret, ex_fail.
  destruct (store_Save s); [|exists []; simpl; split_and!; [done|set_solver|done]]. destruct (0 <? retain).
  - destruct (prune_steps retain s (tr0 ++ [SaveState s])) as (tr & Hp & Hr). rewrite Hp. simpl. exists (tr ++ [FireEvents b id resp ups]). rewrite <-!app_assoc. split_and!; [done| |done].
    rewrite fmap_app. simpl. rewrite !elem_of_cons, elem_of_nil in Hr. destruct Hr as [-> |[-> |[-> |[]]]]; set_solver.
  - simpl. exists [FireEvents b id resp ups]. rewrite <-!app_assoc. split_and!; [done|set_solver|done].
Qed.

Ltac ex_early := left; simpl; split; [set_solver|by intros ? [=]].

Lemma applyBlock_steps s id b tr r :
  applyBlock s id b [] = (tr, r) →
  (phase_of <$> tr ∈ [[]; [Finalizing]; [Finalizing; SavingResponse]] ∧ failed r) ∨
  ∃ req resp b' ups s1 trc, executed_to s id b req resp b' ups s1 ∧
    let before := [FinalizeBlock req; SaveFinalizeBlockResponse (h_Height (b_Header b')) resp] in
    (tr = before ++ trc ∧ phase_of <$> trc ∈ [[Locking; Flushing; Unlocking]; [Locking; Flushing; Committing; Unlocking]; [Locking; Flushing; Committing; UpdatingMempool; Unlocking]] ∧ failed r) ∨
    let s' := with_AppHash s1 (rf_AppHash resp) in
    (∃ tail, tr = before ++ [LockMempool; FlushMempool; CommitApp; UpdateMempool (h_Height (b_Header b')) (b_Txs b') (rf_TxResults resp); UnlockMempool] ++
       [UpdateEvpool s1 (b_Evidence b')] ++ SaveState s' :: tail ∧ phase_of <$> tail ∈ [[]; [Firing]; [PruningBlocks; Firing]; [PruningBlocks; PruningStates; Firing]] ∧
       r = if store_Save s' then Ret (inl s') else Ret (inr ErrSaveState)).
Proof using.
  unfold applyBlock. unfold ex_bind at 1, ex_lift at 1. destruct (Block_Hash b) as [[b' hash]|] eqn:Hb; [|intros [= <- <-]; ex_early].
  unfold ex_bind at 1, ex_lift at 1. destruct (block_request b' hash _) as [req|] eqn:Hreq; [|intros [= <- <-]; ex_early].
  unfold ex_bind at 1, ex_do at 1. unfold ex_bind at 1, ex_need at 1. destruct (app_FinalizeBlock req) as [resp|] eqn:Hf; [|intros [= <- <-]; ex_early].
  unfold ex_bind at 1, ex_guard at 1, ex_ret at 1, ex_ret at 1. destruct (Z.eqb_spec (len (b_Txs b')) (len (rf_TxResults resp))) as [Hlen|]; [|intros [= <- <-]; ex_early].
  unfold ex_bind at 1, ex_do at 1. unfold ex_bind at 1, ex_guard at 1, ex_ret at 1. destruct (store_SaveResponse _ _) eqn:Hsv; [|intros [= <- <-]; ex_early].
  unfold ex_bind at 1. destruct (validateValidatorUpdates _ _) eqn:Hvu; [intros [= <- <-]; ex_early|]. unfold ex_ret at 1.
  unfold ex_bind at 1, ex_need at 1. destruct (ValidatorUpdates _) as [ups|] eqn:Hup; [|intros [= <- <-]; ex_early]. unfold ex_ret at 1.
  unfold ex_bind at 1, ex_lift at 1. destruct (updateState _ _ _ _ _) as [[s1|e]|] eqn:Hu; [|intros [= <- <-]; ex_early..].
  unfold ex_bind at 1, ex_ret at 1. intros Hrun. right. exists req, resp, b', ups, s1.
  assert (executed_to s id b req resp b' ups s1) as Hex by (split_and!; eauto).
  set (before := ([] ++ [FinalizeBlock req]) ++ [_]) in Hrun.
  destruct (Commit_steps s1 b' resp before) as (trc & Hc1 & Hc2). exists trc. split; [done|].
  unfold ex_bind at 1 in Hrun. destruct (Commit_ s1 b' resp before) as [trb [[retain|e]|m]]; simpl in Hc1, Hc2; subst trb.
  2, 3: left; injection Hrun as <- <-; split_and!; [done|done|by intros ? [=]].
  right. subst trc. unfold ex_bind at 1 in Hrun. cbn [ex_do] in Hrun.
  destruct (finish_spec (with_AppHash s1 (rf_AppHash resp)) b' id resp ups retain
    ((before ++ [LockMempool; FlushMempool; CommitApp; UpdateMempool (h_Height (b_Header b')) (b_Txs b') (rf_TxResults resp); UnlockMempool]) ++
     [UpdateEvpool s1 (b_Evidence b')])) as (tail & Ht & Hrk & Hr).
  change (finish_steps (with_AppHash s1 (rf_AppHash resp)) b' id resp ups retain
    ((before ++ [LockMempool; FlushMempool; CommitApp; UpdateMempool (h_Height (b_Header b')) (b_Txs b') (rf_TxResults resp); UnlockMempool]) ++
     [UpdateEvpool s1 (b_Evidence b')]) = (tr, r)) in Hrun.
  rewrite Hrun in Ht, Hr. simpl in Ht, Hr. exists tail. split_and!; [by rewrite Ht|done|done].
Qed.
End executor.

(** ** The invariant of the state *)

Section invariant.
Context `{Crypto}.

(** A key of a type that can be hashed, under its own address. *)
Definition key_type_ok (pk : PubKey) : Prop := Type_ pk = "ed25519"%string ∨ Type_ pk = "secp256k1"%string.
Definition good_key (v : Validator) : Prop := ∃ pk, PubKey_ v = Some pk ∧ Address v = key_address pk ∧ key_type_ok pk.

Record good_set (vals : ValidatorSet) : Prop := {
  gs_valid : valid_set vals;
  gs_keys : Forall good_key (Validators vals);
}.

Record chain_ok (s : State) : Prop := {
  co_version : ver_Block (v_Consensus (st_Version s)) = BlockProtocol;
  co_chain : 0 < len (st_ChainID s) ≤ MaxChainIDLen;
  co_initial : 1 ≤ st_InitialHeight s ≤ MaxInt64;
  co_height : st_LastBlockHeight s = 0 ∨ st_InitialHeight s ≤ st_LastBlockHeight s ≤ MaxInt64;
  co_vals : good_set (st_Validators s);
  co_next : good_set (st_NextValidators s);
  co_last : if decide (st_LastBlockHeight s = 0) then Validators (st_LastValidators s) = [] else good_set (st_LastValidators s);
  co_params : Params_ValidateBasic (st_ConsensusParams s) = None;
  co_results : ValidateHash (st_LastResultsHash s) = true;
}.

Lemma good_key_priority v p : good_key v → good_key (set_priority v p).
Proof using. done. Qed.

Lemma good_keyed l : Forall good_key l → keyed l.
Proof using. intros Hl. eapply Forall_impl; [exact Hl|]. intros v (pk & -> & _). done. Qed.

Lemma good_set_increment vals : good_set vals → ∃ vals', IncrementProposerPriority vals 1 = Ret vals' ∧ good_set vals'.
Proof using.
  intros [Hv Hk]. destruct (IncrementProposerPriority_one vals Hv) as (vals' & p & Hi & Hv' & _). exists vals'. split; [done|].
  split; [done|]. eapply (keep_IncrementProposerPriority good_key); [apply good_key_priority|done|done].
Qed.

Lemma good_set_update vals changes :
  good_set vals → Forall good_key changes → changes ≠ [] →
  ∃ vals' e, UpdateWithChangeSet vals changes = Ret (vals', e) ∧ (e = None → good_set vals').
Proof using.
  intros [[Hne Hl Ht] Hk] Hc Hnil. unfold UpdateWithChangeSet.
  destruct (updateWithChangeSet_cases vals changes true) as [(_ & vals' & Hu & (_ & _ & Hv & _))|(_ & t & e & Hu)];
    [done|done|by apply good_keyed|by apply good_keyed|done|..].
  - exists vals', None. split; [done|]. intros _. split; [done|].
    eapply (keep_updateWithChangeSet good_key); [apply good_key_priority|exact Hu|done|done].
  - by exists (with_total vals t), (Some e).
Qed.

Lemma good_set_new valz vals : valz ≠ [] → Forall good_key valz → NewValidatorSet valz = Ret vals → good_set vals.
Proof using.
  intros Hne Hk Hn. destruct (NewValidatorSet_spec valz) as [(_ & vals' & p & Hn' & Hv & _)|[_ Hn']]; [by apply good_keyed|done| |by rewrite Hn' in Hn].
  rewrite Hn in Hn'. apply (inj Ret) in Hn' as <-. split; [done|]. unfold NewValidatorSet in Hn. bind_split Hn x Hx. destruct x as [v1 [e|]]; [done|].
  assert (Forall good_key (Validators v1)) as H1 by (eapply (keep_updateWithChangeSet good_key); [apply good_key_priority|exact Hx|constructor|done]).
  destruct (_ <? _); [|by apply (inj Ret) in Hn as <-]. eapply (keep_IncrementProposerPriority good_key); [apply good_key_priority|exact Hn|done].
Qed.

Lemma PubKeyFromProto_type k pk : PubKeyFromProto k = Some pk → key_type_ok pk.
Proof using. destruct k; simpl; [..|done]; destruct (negb _); try done; intros [= <-]; [by left|by right]. Qed.

Lemma ValidatorUpdates_good ups vs : ValidatorUpdates ups = Some vs → Forall good_key vs ∧ length vs = length ups.
Proof using.
  intros Hm%mapM_Some. split; [|symmetry; by eapply Forall2_length]. induction Hm as [|u v ups vs Hu _ IH]; constructor; [|done].
  apply bind_Some in Hu as (pk & Hpk & [= <-]). exists pk. split_and!; [done|done|by eapply PubKeyFromProto_type].
Qed.

Lemma default_params_valid : Params_ValidateBasic DefaultConsensusParams = None.
Proof. vm_compute. reflexivity. Qed.

Lemma next_params_spec s h updates p ch :
  next_params s h updates = inl (p, ch) → Params_ValidateBasic (st_ConsensusParams s) = None → Params_ValidateBasic p = None.
Proof using.
  unfold next_params. destruct updates as [u|]; [|by intros [= <- <-]]. destruct (Params_ValidateBasic (Params_Update _ _)) eqn:Hv; [done|].
  destruct (ValidateUpdate _ _ _); [done|]. by intros [= <- <-].
Qed.

(** [updateState] is total on well-formed states and keeps them so. *)
Lemma updateState_ok `{!HashSize} s id h resp ups :
  chain_ok s → st_InitialHeight s ≤ h_Height h ≤ MaxInt64 → Forall good_key ups → len (rf_TxResults resp) ≤ MaxInt64 →
  ∃ r, updateState s id h resp ups = Ret r ∧ ∀ s', r = inl s' →
    chain_ok s' ∧ st_LastBlockHeight s' = h_Height h ∧ st_LastBlockTime s' = h_Time h ∧ st_LastBlockID s' = id ∧
    st_Validators s' = st_NextValidators s ∧ st_LastValidators s' = st_Validators s ∧ st_InitialHeight s' = st_InitialHeight s ∧
    st_ChainID s' = st_ChainID s.
Proof using.
  intros Hs Hh Hups Hlen. unfold updateState.
  assert (∃ vals e, (if 0 <? len ups then UpdateWithChangeSet (Copy (st_NextValidators s)) ups else Ret (Copy (st_NextValidators s), None)) = Ret (vals, e) ∧
    (e = None → good_set vals)) as (vals & e & -> & Hvals).
  { destruct (Z.ltb_spec 0 (len ups)) as [Hlt|]; [|eexists _, _; split; [done|intros _; apply Hs]].
    apply good_set_update; [apply Hs|done|intros ->; by cbn in Hlt]. }
  cbn [mbind outcome_bind]. destruct e as [e|]; [eexists; split; [done|by intros ? [=]]|].
  destruct (good_set_increment vals (Hvals eq_refl)) as (vals' & -> & Hvals'). cbn [mbind outcome_bind].
  destruct (next_params s (h_Height h) (rf_ConsensusParamUpdates resp)) as [[p ch]|e] eqn:Hp; [|eexists; split; [done|by intros ? [=]]].
  unfold TxResultsHash. rewrite HashFromByteSlices_root by (by rewrite !len_fmap). cbn [mbind outcome_bind]. eexists. split; [reflexivity|].
  intros s' [= <-]. split_and!; try reflexivity. pose proof (co_initial _ Hs). split; cbn.
  - unfold next_version. destruct (rf_ConsensusParamUpdates resp); cbn; apply Hs.
  - apply Hs.
  - apply Hs.
  - by right.
  - apply Hs.
  - done.
  - rewrite decide_False by lia. apply Hs.
  - eapply next_params_spec; [exact Hp|apply Hs].
  - unfold ValidateHash. rewrite root_size by (intros; apply leaf_size). done.
Qed.
End invariant.
