(* ===== verification/ChainTheorems.v ===== *)
(** * Theorems on the state of the chain

    Blocks made by correct proposers pass validation; states reached by
    applying blocks are well formed; execution saves and commits in the order
    that recovery relies on; block times and vote extensions. *)
From S2P Require Import Prelude.
From S2P Require Import Proto.
From S2P Require Import Vote.
From S2P Require Import SafeMath.
From S2P Require Import Validator.
From S2P Require Import ValidatorSet.
From S2P Require Import ValidatorSetPriority.
From S2P Require Import ValidatorSetUpdate.
From S2P Require Import SignBytes.
From S2P Require Import Merkle.
From S2P Require Import Validation.
From S2P Require Import CommitSafety.
From S2P Require Import CommitTheorems.
From S2P Require Import TxCache.
From S2P Require Import Mempool.
From S2P Require Import Block.
From S2P Require Import BlockProofs.
From S2P Require Import Params.
From S2P Require Import ChainState.
From S2P Require Import BlockExecutor.
From S2P Require Import ChainStateProofs.

(** ** What validation accepts *)

Ltac pass_check H E :=
  match type of H with (if ?c then _ else _) = _ => destruct c eqn:E; [discriminate H|] end.

Section valid.
Context `{Crypto, StdTime, BatchCrypto, EvidenceOps}.

(** The header says what the state says. *)
Record header_of (s : State) (h : Header) : Prop := {
  ho_version : h_Version h = v_Consensus (st_Version s);
  ho_chain : h_ChainID h = st_ChainID s;
  ho_height : h_Height h = if decide (st_LastBlockHeight s = 0) then st_InitialHeight s else int64 (st_LastBlockHeight s + 1);
  ho_last : h_LastBlockID h = st_LastBlockID s;
  ho_app : h_AppHash h = st_AppHash s;
  ho_consensus : h_ConsensusHash h = Params_Hash (st_ConsensusParams s);
  ho_results : h_LastResultsHash h = st_LastResultsHash s;
  ho_vals : ValidatorSet_Hash (st_Validators s) = Ret (h_ValidatorsHash h);
  ho_next : ValidatorSet_Hash (st_NextValidators s) = Ret (h_NextValidatorsHash h);
}.

Lemma validateBlock_iff s b :
  0 ≤ st_LastBlockHeight s →
  validateBlock s b = Ret None ↔
    Block_ValidateBasic b = Ret None ∧ header_of s (b_Header b) ∧ validate_last_commit s b = Ret None ∧
    ∃ c, b_LastCommit b = Some c ∧ validate_proposer_time s b c = None.
Proof using.
  intros Hh. unfold validateBlock. destruct (Block_ValidateBasic b) as [[e|]|]; cbn [mbind outcome_bind]; [naive_solver| |naive_solver].
  destruct (b_LastCommit b) as [c|] eqn:Hc; [|naive_solver]. set (h := b_Header b). split.
  - intros Hv. pass_check Hv E1. apply orb_false_iff in E1 as [E1 E2]. pass_check Hv E3. pass_check Hv E4. pass_check Hv E5. pass_check Hv E6.
    pass_check Hv E7. pass_check Hv E8. pass_check Hv E9. bind_split Hv vh Hvh. pass_check Hv E10. bind_split Hv nh Hnh. pass_check Hv E11.
    bind_split Hv err Herr. destruct err; [done|]. apply (inj Ret) in Hv. rewrite ?negb_false_iff, ?bool_decide_eq_true in *.
    split; [done|]. split; [|eauto]. split; try assumption; try congruence.
    + destruct (h_Version h), (v_Consensus (st_Version s)); simpl in *. f_equal; lia.
    + case_decide as Hz; [rewrite Hz in E4; simpl in E4; lia|]. destruct (Z.ltb_spec 0 (st_LastBlockHeight s)); [|lia]. simpl in E5. lia.
    + by apply BlockID_Equals_eq.
  - intros (_ & [Hver Hch Hht Hlast Happ Hcons Hres Hvals Hnext] & Hlc & c' & [= <-] & Hpt). rewrite Hver, !Z.eqb_refl. simpl orb. cbv iota.
    rewrite (bool_decide_eq_true_2 _ Hch). simpl negb. cbv iota.
    assert ((st_LastBlockHeight s =? 0) && negb (h_Height h =? st_InitialHeight s) = false) as ->.
    { case_decide as Hz; [fold h in Hht; rewrite Hht, Z.eqb_refl; by rewrite andb_false_r|]. destruct (Z.eqb_spec (st_LastBlockHeight s) 0); done. }
    assert ((0 <? st_LastBlockHeight s) && negb (h_Height h =? int64 (st_LastBlockHeight s + 1)) = false) as ->.
    { case_decide as Hz; [by rewrite Hz|]. fold h in Hht. rewrite Hht, Z.eqb_refl. by rewrite andb_false_r. }
    rewrite (proj2 (BlockID_Equals_eq _ _) Hlast), (bool_decide_eq_true_2 _ Happ), (bool_decide_eq_true_2 _ Hcons), (bool_decide_eq_true_2 _ Hres).
    simpl negb. cbv iota. rewrite Hvals. cbn [mbind outcome_bind]. rewrite bool_decide_eq_true_2 by done. simpl negb. cbv iota.
    rewrite Hnext. cbn [mbind outcome_bind]. rewrite bool_decide_eq_true_2 by done. simpl negb. cbv iota. rewrite Hlc. cbn [mbind outcome_bind]. by rewrite Hpt.
Qed.
End valid.

(** ** States of the chain *)

Section reached.
Context `{Crypto, !HashSize, StdTime, BatchCrypto, EvidenceOps}.

(** A genesis document that names validators with keys of known types. *)
Definition genesis_ok (g : GenesisDoc) : Prop :=
  is_int64 (g_InitialHeight g) ∧ ∃ vals, g_Validators g = Some vals ∧ vals ≠ [] ∧ Forall (λ v, key_type_ok (gv_PubKey v)) vals.

(** The states a node gets to; the application, the mempool and the stores
    may answer every block in another way. *)
Inductive reached : State → Prop :=
| reached_genesis g now s : genesis_ok g → MakeGenesisState g now = Ret (inl s) → reached s
| reached_apply (X : Executor) s id b tr s' :
    reached s → len (b_Txs b) ≤ MaxInt64 → ApplyBlock s id b [] = (tr, Ret (inl s')) → reached s'.

(** What applying a block does to a state. *)
Record advanced (s : State) (id : BlockID) (b : Block) (s' : State) : Prop := {
  ad_height : st_LastBlockHeight s' = if decide (st_LastBlockHeight s = 0) then st_InitialHeight s else st_LastBlockHeight s + 1;
  ad_block : st_LastBlockHeight s' = h_Height (b_Header b);
  ad_id : st_LastBlockID s' = id;
  ad_time : st_LastBlockTime s' = h_Time (b_Header b);
  ad_later : st_LastBlockHeight s ≠ 0 → time_After (st_LastBlockTime s') (st_LastBlockTime s) = true;
  ad_vals : st_Validators s' = st_NextValidators s;
  ad_last : st_LastValidators s' = st_Validators s;
  ad_initial : st_InitialHeight s' = st_InitialHeight s;
  ad_chain : st_ChainID s' = st_ChainID s;
}.

Lemma complete_validators_keys i vals vals' :
  complete_validators i vals = inl vals' → gv_PubKey <$> vals' = gv_PubKey <$> vals.
Proof using.
  revert i vals'. induction vals as [|v vals IH]; intros i vals' Hc; simpl in Hc; [by injection Hc as <-|]. destruct (_ =? 0); [done|].
  destruct (_ && _); [done|]. destruct (complete_validators (i + 1) vals) as [l|] eqn:E; [|done]. injection Hc as <-. rewrite !fmap_cons, (IH _ _ E).
  by destruct (_ =? 0).
Qed.

Lemma genesis_chain_ok g now s : genesis_ok g → MakeGenesisState g now = Ret (inl s) → chain_ok s.
Proof using.
  intros (Hint & vals & Hv & Hne & Hk). unfold MakeGenesisState, ValidateAndComplete. rewrite Hv. change (default [] (Some vals)) with vals.
  destruct (Z.eqb_spec (len (g_ChainID g)) 0); [done|]. destruct (Z.ltb_spec MaxChainIDLen (len (g_ChainID g))); [done|].
  destruct (Z.ltb_spec (g_InitialHeight g) 0); [done|]. destruct (g_ConsensusParams g ≫= Params_ValidateBasic) eqn:Hp; [done|].
  destruct (complete_validators 0 vals) as [l|] eqn:Hl; [|done]. apply complete_validators_keys in Hl. cbn [g_Validators]. intros Hs.
  bind_split Hs x Hx. destruct x as [vs nx]. bind_split Hx v1 Hv1. bind_split Hx v2 Hv2. bind_split Hx v3 Hv3. injection Hx as <- <-. injection Hs as <-.
  assert (Forall good_key ((λ val, NewValidator (gv_PubKey val) (gv_Power val)) <$> l)) as Hgood.
  { apply Forall_fmap, Forall_forall. intros v Hin. exists (gv_PubKey v). split_and!; [done|done|].
    apply (list_elem_of_fmap_2 gv_PubKey) in Hin. rewrite Hl in Hin. apply list_elem_of_fmap in Hin as (w & -> & Hw). rewrite Forall_forall in Hk. by apply Hk. }
  assert (((λ val, NewValidator (gv_PubKey val) (gv_Power val)) <$> l) ≠ []) as Hne'.
  { intros Hnil%fmap_nil_inv. subst l. by destruct vals. }
  assert (good_set v1) as G1 by (by eapply good_set_new). assert (good_set v2) as G2 by (by eapply good_set_new).
  destruct (good_set_increment v2 G2) as (v3' & Hi & G3). unfold CopyIncrementProposerPriority, Copy in Hv3. rewrite Hi in Hv3. apply (inj Ret) in Hv3 as ->.
  pose proof (len_nonneg (g_ChainID g)). split; cbn; try done.
  - lia.
  - unfold is_int64 in Hint. unfold MaxInt64 in *. destruct (Z.eqb_spec (g_InitialHeight g) 0); lia.
  - by left.
  - destruct (g_ConsensusParams g); [done|apply default_params_valid].
Qed.

Lemma Block_Hash_keeps b b' hash : Block_Hash b = Ret (b', hash) →
  h_Height (b_Header b') = h_Height (b_Header b) ∧ h_Time (b_Header b') = h_Time (b_Header b) ∧ b_Txs b' = b_Txs b.
Proof using.
  unfold Block_Hash. destruct (b_LastCommit b); [|by intros [= <- <-]]. case_decide; [|by intros [= <- <-]]. intros Hh. bind_split Hh b1 Hb1. bind_split Hh h Hh1.
  injection Hh as <- <-. unfold fillHeader in Hb1. bind_split Hb1 ch Hch. bind_split Hb1 dh Hdh. bind_split Hb1 eh Heh. by injection Hb1 as <-.
Qed.

Lemma valid_next_height s b :
  chain_ok s → validateBlock s b = Ret None →
  h_Height (b_Header b) = (if decide (st_LastBlockHeight s = 0) then st_InitialHeight s else st_LastBlockHeight s + 1) ∧
  st_InitialHeight s ≤ h_Height (b_Header b) ≤ MaxInt64 ∧
  (st_LastBlockHeight s ≠ 0 → time_After (h_Time (b_Header b)) (st_LastBlockTime s) = true).
Proof using.
  intros Hs Hv. pose proof (co_initial _ Hs). pose proof (co_height _ Hs). apply validateBlock_iff in Hv as (Hb & Hh & _ & c & Hc & Ht); [|lia].
  pose proof (ho_height _ _ Hh) as Hht.
  assert (0 < h_Height (b_Header b)) as Hpos.
  { unfold Block_ValidateBasic in Hb. destruct (Header_ValidateBasic (b_Header b)) eqn:Hhv; [done|]. unfold Header_ValidateBasic in Hhv.
    destruct (negb _); [done|]. destruct (_ <? _); [done|]. destruct (Z.ltb_spec (h_Height (b_Header b)) 0); [done|].
    destruct (Z.eqb_spec (h_Height (b_Header b)) 0); [done|]. lia. }
  unfold validate_proposer_time in Ht. destruct (negb _); [done|]. destruct (negb _); [done|].
  case_decide as Hz.
  - split_and!; [done|lia|lia|done].
  - assert (st_LastBlockHeight s ≠ MaxInt64) as Hmax by (intros E; rewrite Hht, E in Hpos; by vm_compute in Hpos).
    rewrite int64_id in Hht by (unfold is_int64, MinInt64; lia). split_and!; [done|lia|lia|].
    intros _. destruct (Z.ltb_spec (st_InitialHeight s) (h_Height (b_Header b))); [|lia].
    destruct (time_After _ _); [done|]. done.
Qed.
Lemma ApplyBlock_inv `{!Executor} s id b tr s' :
  ApplyBlock s id b [] = (tr, Ret (inl s')) →
  validateBlock s b = Ret None ∧ ∃ req resp b' ups s1, executed_to s id b req resp b' ups s1 ∧ s' = with_AppHash s1 (rf_AppHash resp).
Proof using.
  unfold ApplyBlock, ex_bind, ex_lift. destruct (validateBlock s b) as [[e|]|]; [done| |done]. intros Ha. split; [done|].
  destruct (applyBlock_steps s id b _ _ Ha) as [[_ Hf]|(req & resp & b' & ups & s1 & trc & Hex & [(_ & _ & Hf)|(tail & _ & _ & Hr)])];
    [by destruct (Hf s')|by destruct (Hf s')|]. exists req, resp, b', ups, s1. split; [done|].
  destruct (store_Save _); [by injection Hr|done].
Qed.

Lemma apply_advances `{!Executor} s id b tr s' :
  chain_ok s → len (b_Txs b) ≤ MaxInt64 → ApplyBlock s id b [] = (tr, Ret (inl s')) → chain_ok s' ∧ advanced s id b s'.
Proof.
  intros Hs Hlen Ha. apply ApplyBlock_inv in Ha as (Hv & req & resp & b' & ups & s1 & Hex & ->).
  destruct (valid_next_height s b Hs Hv) as (Hh & Hr & Ht). destruct Hex as ((hash & Hbh & _) & _ & Hl & _ & _ & Hups & Hu).
  destruct (Block_Hash_keeps _ _ _ Hbh) as (Eh & Et & Etx). apply ValidatorUpdates_good in Hups as [Hg _].
  destruct (updateState_ok s id (b_Header b') resp ups Hs ltac:(by rewrite Eh) Hg ltac:(rewrite <-Hl, Etx; done)) as (r & Hu' & Hok).
  rewrite Hu in Hu'. apply (inj Ret) in Hu' as <-. destruct (Hok s1 eq_refl) as (Hs1 & E1 & E2 & E3 & E4 & E5 & E6 & E7).
  split; [destruct Hs1; by split|]. split; cbn; try congruence. intros Hz. rewrite E2, Et. by apply Ht.
Qed.

Lemma reached_ok s : reached s → chain_ok s.
Proof. induction 1 as [g now s Hg Hs|X s id b tr s' _ IH Hlen Ha]; [by eapply genesis_chain_ok|by eapply apply_advances]. Qed.

(** ** Vote extensions *)

Definition applies (s s' : State) : Prop := ∃ (X : Executor) id b tr, len (b_Txs b) ≤ MaxInt64 ∧ ApplyBlock s id b [] = (tr, Ret (inl s')).

Lemma next_params_extensions s h updates p ch k :
  next_params s h updates = inl (p, ch) → Params_ValidateBasic (st_ConsensusParams s) = None → k ≤ h →
  VoteExtensionsEnabled (cp_ABCI p) k = VoteExtensionsEnabled (cp_ABCI (st_ConsensusParams s)) k.
Proof using.
  unfold next_params. intros Hn Hp Hk. destruct updates as [u|]; [|by injection Hn as <- <-].
  destruct (Params_ValidateBasic (Params_Update _ _)); [done|]. destruct (ValidateUpdate _ _ _) eqn:Hv; [done|]. injection Hn as <- _.
  unfold ValidateUpdate in Hv. cbn [mbind option_bind Params_Update cp_ABCI] in *. destruct (pb_Abci u) as [a|]; [|done]. cbn [default].
  change (id a) with a. unfold VoteExtensionsEnabled.
  destruct (Z.ltb_spec k 1); [done|]. set (old := VoteExtensionsEnableHeight (cp_ABCI (st_ConsensusParams s))) in *. set (new := VoteExtensionsEnableHeight a) in *.
  assert (0 ≤ old) as Hold.
  { unfold Params_ValidateBasic in Hp. cbv zeta in Hp. repeat (let E := fresh "E" in pass_check Hp E). lia. }
  destruct (Z.ltb_spec new 0); [done|]. destruct (Z.leb_spec old 0), (Z.eqb_spec new 0), (Z.eqb_spec old new), (Z.ltb_spec 0 old), (Z.leb_spec old h), (Z.leb_spec new h);
    simpl in Hv; try done; try lia; destruct (Z.eqb_spec old 0), (Z.leb_spec new k), (Z.leb_spec old k); try done; lia.
Qed.

Lemma applies_extensions s s' k :
  chain_ok s → applies s s' → k ≤ (if decide (st_LastBlockHeight s = 0) then st_InitialHeight s else st_LastBlockHeight s + 1) →
  VoteExtensionsEnabled (cp_ABCI (st_ConsensusParams s')) k = VoteExtensionsEnabled (cp_ABCI (st_ConsensusParams s)) k.
Proof using.
  intros Hs (X & id & b & tr & Hlen & Ha) Hk. apply ApplyBlock_inv in Ha as (Hv & req & resp & b' & ups & s1 & Hex & ->).
  destruct (valid_next_height s b Hs Hv) as (Hh & _). destruct Hex as ((hash & Hbh & _) & _ & _ & _ & _ & _ & Hu).
  destruct (Block_Hash_keeps _ _ _ Hbh) as (Eh & _). unfold updateState in Hu. bind_split Hu x Hx. destruct x as [vs [e|]]; [done|].
  bind_split Hu vs' Hvs. destruct (next_params _ _ _) as [[p ch]|] eqn:Hp; [|done]. bind_split Hu rh Hrh. apply (inj Ret) in Hu. injection Hu as <-. cbn.
  eapply next_params_extensions; [exact Hp|apply Hs|]. by rewrite Eh, Hh.
Qed.
End reached.

(** ** Proposals *)

Ltac header_cbn :=
  cbn [b_Header b_LastCommit b_Txs b_Evidence Populate h_Version h_ChainID h_Height h_Time h_LastBlockID h_LastCommitHash h_DataHash h_ValidatorsHash
       h_NextValidatorsHash h_ConsensusHash h_AppHash h_LastResultsHash h_EvidenceHash h_ProposerAddress].

Section proposals.
Context `{Crypto, !HashSize, StdTime, BatchCrypto, EvidenceOps}.

Definition next_height (s : State) : Z := if decide (st_LastBlockHeight s = 0) then st_InitialHeight s else st_LastBlockHeight s + 1.

(** What a correct proposer has: the commit of the last block, whose counted
    signatures were made after that block's time, and evidence and an address
    that pass their checks. *)
Record proposable (s : State) (txs : list Tx) (c : Commit) (evs : list Evidence) (proposer : bytes) : Prop := {
  pr_height : next_height s ≤ MaxInt64;
  pr_last_id : BlockID_ValidateBasic (st_LastBlockID s) = true;
  pr_commit : Commit_ValidateBasic c = None;
  pr_times : Forall (λ sig, is_Some (StdTimeMarshal (cs_Timestamp sig))) (commit_Signatures c);
  pr_sizes : len (commit_Signatures c) ≤ MaxInt64 ∧ len txs ≤ MaxInt64 ∧ len evs ≤ MaxInt64;
  pr_initial : st_LastBlockHeight s = 0 → commit_Signatures c = [];
  pr_verified : st_LastBlockHeight s ≠ 0 →
    VerifyCommit (st_ChainID s) (Some (st_LastValidators s)) (st_LastBlockID s) (st_LastBlockHeight s) (Some c) = Ret None;
  pr_counted : st_LastBlockHeight s ≠ 0 → 0 < zsum (sig_power (st_LastValidators s)) (commit_Signatures c) ≤ MaxInt64;
  pr_later : st_LastBlockHeight s ≠ 0 → ∀ sig, sig ∈ commit_Signatures c → 0 < sig_power (st_LastValidators s) sig →
    time_After (cs_Timestamp sig) (st_LastBlockTime s) = true;
  pr_evidence : Forall (λ ev, ev_ValidateBasic ev = None) evs;
  pr_evidence_size : Evidence_ByteSize evs ≤ ep_MaxBytes (cp_Evidence (st_ConsensusParams s));
  pr_proposer : len proposer = AddressSize ∧ HasAddress (st_Validators s) proposer = true;
}.

Lemma good_set_len vals : good_set vals → len (Validators vals) ≤ MaxInt64.
Proof using.
  intros [[Hne [_ Hp Ht _] _] _]. destruct (power_sum_pos _ Hp Hne) as [Hl _]. unfold MaxTotalVotingPower, MaxInt64 in *. lia.
Qed.

Lemma good_set_hash vals : good_set vals → ∃ h, ValidatorSet_Hash vals = Ret h ∧ len h = tmhash_Size ∧ ValidateHash h = true.
Proof.
  intros Hg. unfold ValidatorSet_Hash. assert (∃ bs, marshal_all Validator_Bytes (Validators vals) = Ret bs) as [bs Hbs].
  { setoid_rewrite marshal_all_spec. pose proof (gs_keys _ Hg) as Hk. induction Hk as [|v l (pk & Hpk & _ & Ht) _ [bs IH]]; [by exists []|].
    assert (∃ bz, Validator_Bytes v = Ret bz) as [bz Hbz] by (unfold Validator_Bytes, PubKeyToProto; rewrite Hpk; destruct Ht as [-> | ->]; by eexists).
    exists (bz :: bs). by constructor. }
  rewrite Hbs. cbn [mbind outcome_bind]. apply marshal_all_spec, Forall2_length in Hbs. pose proof (good_set_len _ Hg).
  rewrite HashFromByteSlices_root by (unfold len in *; lia). eexists. split; [done|]. unfold ValidateHash. by rewrite root_size by apply leaf_size.
Qed.

(** A decoded block that [validateBlock] accepts has a 32-byte hash.  This is
    what the consensus state machine asks of [ValidateBlock] ([env_ok]). *)
Lemma validated_block_hash s b :
  0 ≤ st_LastBlockHeight s → good_set (st_Validators s) → verifiedHash b = [] → is_Some (StdTimeMarshal (h_Time (b_Header b))) →
  validateBlock s b = Ret None → ∃ b' h, Block_Hash b = Ret (b', h) ∧ len h = tmhash_Size.
Proof.
  intros Hh Hg Hvh [t Ht] Hv. apply validateBlock_iff in Hv as (Hb & [_ _ _ _ _ _ _ Hvals _] & _ & c & Hc & _); [|done].
  destruct (good_set_hash _ Hg) as (vh & Hvh' & Hl & _). rewrite Hvals in Hvh'. apply (inj Ret) in Hvh'. rewrite <-Hvh' in Hl.
  unfold Block_ValidateBasic in Hb. rewrite Hc in Hb. destruct (Header_ValidateBasic _); [done|]. destruct (Commit_ValidateBasic c); [done|].
  bind_split Hb ch Hch. pass_check Hb E1. bind_split Hb dh Hdh. pass_check Hb E2. destruct (first_bad_evidence _ _); [done|].
  apply negb_false_iff, bool_decide_eq_true in E1, E2. bind_split Hb eh Heh. apply (inj Ret) in Hb.
  destruct (negb _) eqn:E3; [done|]. apply negb_false_iff, bool_decide_eq_true in E3. subst ch dh eh.
  assert (∀ h, or_compute h (Ret h) = Ret h) as Hor by (intros h; unfold or_compute; by case_decide).
  unfold Block_Hash, fillHeader. rewrite Hc, Hvh, Hch, Hdh, Heh, !Hor, decide_True by done. cbn [mbind outcome_bind b_Header].
  unfold Header_Hash. cbn [h_ValidatorsHash h_Time with_hashes_of]. rewrite Hl, Ht. change (tmhash_Size =? 0) with false. cbv iota.
  rewrite HashFromByteSlices_root by done. cbn [mbind outcome_bind]. do 2 eexists. split; [done|]. by apply root_size, leaf_size.
Qed.

Lemma items_hash items : len items ≤ MaxInt64 → ∃ h, HashFromByteSlices items = Ret h ∧ ValidateHash h = true ∧ h ≠ [].
Proof.
  intros Hl. rewrite HashFromByteSlices_root by done. eexists. split; [done|]. unfold ValidateHash. pose proof (root_size (leafHash <$> items) (leaf_size _)) as Hr.
  rewrite Hr. split; [done|]. intros E. by rewrite E in Hr.
Qed.

Lemma first_bad_evidence_none i evs : Forall (λ ev, ev_ValidateBasic ev = None) evs → first_bad_evidence i evs = None.
Proof using. intros Hf. revert i. induction Hf as [|ev evs He _ IH]; intros i; [done|]. simpl. by rewrite He. Qed.

(** The body of the block a proposer makes. *)
Lemma MakeBlock_spec height txs c evs :
  len (commit_Signatures c) ≤ MaxInt64 → len txs ≤ MaxInt64 → len evs ≤ MaxInt64 →
  Forall (λ sig, is_Some (StdTimeMarshal (cs_Timestamp sig))) (commit_Signatures c) →
  ∃ ch dh eh, Commit_Hash (Some c) = Ret ch ∧ Txs_Hash txs = Ret dh ∧ Evidence_Hash evs = Ret eh ∧
    ValidateHash ch = true ∧ ValidateHash dh = true ∧ ValidateHash eh = true ∧
    MakeBlock height txs (Some c) evs =
      Ret (mkBlock _ [] (mkHeader (mkConsensus BlockProtocol 0) [] height zeroTime nilBlockID ch dh [] [] [] [] [] eh []) txs evs (Some c)).
Proof.
  intros Hc Ht He Htimes. assert (∃ bs, marshal_all CommitSig_Marshal (commit_Signatures c) = Ret bs) as [bs Hbs].
  { setoid_rewrite marshal_all_spec. induction Htimes as [|sig l [t Hts] _ IH]; [by exists []|]. destruct IH as [bs IH]; [rewrite len_cons in Hc; lia|].
    eexists (_ :: bs). constructor; [|done]. unfold CommitSig_Marshal. by rewrite Hts. }
  pose proof Hbs as Hlen. apply marshal_all_spec, Forall2_length in Hlen.
  destruct (items_hash bs) as (ch & Hch & Vch & _); [unfold len in *; lia|].
  destruct (items_hash (hashList txs)) as (dh & Hdh & Vdh & _); [by unfold hashList; rewrite len_fmap|].
  destruct (items_hash (ev_Bytes <$> evs)) as (eh & Heh & Veh & _); [by rewrite len_fmap|].
  assert (Commit_Hash (Some c) = Ret ch) as Ech by (unfold Commit_Hash; by rewrite Hbs).
  exists ch, dh, eh. split_and!; try done. unfold MakeBlock, fillHeader. cbn [b_Header b_Txs b_Evidence b_LastCommit]. unfold or_compute. simpl decide. cbv iota.
  rewrite Ech. cbn [mbind outcome_bind]. unfold Txs_Hash, Evidence_Hash. rewrite Hdh. cbn [mbind outcome_bind]. by rewrite Heh.
Qed.

(** The time of the block. *)
Lemma proposal_time s txs c evs proposer :
  chain_ok s → proposable s txs c evs proposer → st_LastBlockHeight s ≠ 0 →
  time_After (MedianTime c (st_LastValidators s)) (st_LastBlockTime s) = true.
Proof using.
  intros Hs Hp Hz. pose proof (co_last _ Hs) as Hl. rewrite decide_False in Hl by done.
  destruct (MedianTime_spec (st_LastValidators s) c) as (sig & Hin & Hpos & -> & _).
  - apply (gs_valid _ Hl).
  - by apply Hp.
  - by apply (pr_later _ _ _ _ _ Hp Hz).
Qed.

Lemma proposal_validates s txs c evs proposer :
  chain_ok s → proposable s txs c evs proposer →
  ∃ b, state_MakeBlock s (next_height s) txs (Some c) evs proposer = Ret b ∧ b_Txs b = txs ∧ validateBlock s b = Ret None.
Proof.
  intros Hs Hp. destruct (pr_sizes _ _ _ _ _ Hp) as (Hl1 & Hl2 & Hl3).
  destruct (MakeBlock_spec (next_height s) txs c evs) as (ch & dh & eh & Hch & Hdh & Heh & Vch & Vdh & Veh & Hmk); [done..|apply Hp|].
  destruct (good_set_hash _ (co_vals _ Hs)) as (vh & Hvh & _ & Vvh). destruct (good_set_hash _ (co_next _ Hs)) as (nh & Hnh & _ & Vnh).
  set (ts := if decide (st_LastBlockHeight s = 0) then st_LastBlockTime s else MedianTime c (st_LastValidators s)).
  pose proof (co_initial _ Hs) as Hinit. pose proof (co_height _ Hs) as Hht. pose proof (pr_height _ _ _ _ _ Hp) as Hmax. unfold next_height in Hmax.
  assert ((next_height s =? st_InitialHeight s) = bool_decide (st_LastBlockHeight s = 0)) as Heq.
  { unfold next_height. case_decide; [rewrite bool_decide_eq_true_2 by done; lia|rewrite bool_decide_eq_false_2 by done; lia]. }
  eexists. split_and!; [unfold state_MakeBlock; rewrite Hmk; cbn [mbind outcome_bind]; rewrite Heq|..].
  { replace (if bool_decide (st_LastBlockHeight s = 0) then Ret (st_LastBlockTime s) else Ret (MedianTime c (st_LastValidators s))) with (Ret ts)
      by (unfold ts; case_decide; case_bool_decide; done). cbn [mbind outcome_bind]. rewrite Hvh. cbn [mbind outcome_bind]. rewrite Hnh. reflexivity. }
  { reflexivity. }
  apply validateBlock_iff; [lia|]. cbn [b_Header b_LastCommit Populate]. split_and!.
  - unfold Block_ValidateBasic, Header_ValidateBasic, check_hash. header_cbn. rewrite (co_version _ Hs), Z.eqb_refl. cbn [negb].
    destruct (co_chain _ Hs). destruct (Z.ltb_spec MaxChainIDLen (len (st_ChainID s))); [lia|].
    assert (1 ≤ next_height s) as Hnext by (unfold next_height; case_decide; lia).
    destruct (Z.ltb_spec (next_height s) 0); [lia|]. destruct (Z.eqb_spec (next_height s) 0); [lia|].
    rewrite (pr_last_id _ _ _ _ _ Hp), Vch, Vdh, Veh, Vvh, Vnh, (co_results _ Hs). destruct (pr_proposer _ _ _ _ _ Hp) as [-> _]. cbn [negb].
    assert (ValidateHash (Params_Hash (st_ConsensusParams s)) = true) as -> by (unfold ValidateHash, Params_Hash; by rewrite hash_size).
    cbn [negb Z.eqb]. rewrite Z.eqb_refl. cbn [negb]. rewrite (pr_commit _ _ _ _ _ Hp), Hch. cbn [mbind outcome_bind]. rewrite bool_decide_eq_true_2 by done. cbn [negb].
    rewrite Hdh. cbn [mbind outcome_bind]. rewrite bool_decide_eq_true_2 by done. cbn [negb]. rewrite first_bad_evidence_none by apply Hp.
    rewrite Heh. cbn [mbind outcome_bind]. by rewrite bool_decide_eq_true_2 by done.
  - split; cbn; try done. unfold next_height. case_decide; [done|]. rewrite int64_id; [done|unfold is_int64, MinInt64; lia].
  - unfold validate_last_commit. cbn [b_LastCommit b_Header h_Height Populate]. rewrite Heq. case_bool_decide as Hz.
    + by rewrite (pr_initial _ _ _ _ _ Hp Hz).
    + unfold next_height. rewrite decide_False by done. rewrite int64_id by (unfold is_int64, MinInt64; lia).
      replace (st_LastBlockHeight s + 1 - 1) with (st_LastBlockHeight s) by lia. by rewrite (pr_verified _ _ _ _ _ Hp Hz).
  - exists c. split; [done|]. unfold validate_proposer_time. header_cbn. destruct (pr_proposer _ _ _ _ _ Hp) as [-> ->]. rewrite Z.eqb_refl. cbn [negb].
    pose proof (pr_evidence_size _ _ _ _ _ Hp). rewrite Heq. unfold ts, next_height, time_Equal. case_decide as Hz.
    + rewrite Z.ltb_irrefl, (bool_decide_eq_true_2 (st_LastBlockHeight s = 0)), bool_decide_eq_true_2 by done. cbn [negb].
      destruct (Z.ltb_spec (ep_MaxBytes (cp_Evidence (st_ConsensusParams s))) (Evidence_ByteSize evs)); [lia|done].
    + destruct (Z.ltb_spec (st_InitialHeight s) (st_LastBlockHeight s + 1)); [|lia]. rewrite (proposal_time s txs c evs proposer Hs Hp Hz), bool_decide_eq_true_2 by done.
      cbn [negb]. destruct (Z.ltb_spec (ep_MaxBytes (cp_Evidence (st_ConsensusParams s))) (Evidence_ByteSize evs)); [lia|done].
Qed.
End proposals.

(** ** The theorems *)

(** C11: the state stays well formed.  Every state that a node gets to from a
    genesis document with validators, by applying blocks, has valid
    validator sets for the last, this and the next height whose validators
    have usable keys under their own addresses, parameters that pass their
    checks, heights in range and hashes of the right size.  Applying a block
    moves to the next height, records its time, which is later than that of
    the block before, and moves the validator sets on by one. *)
Theorem chain_states_well_formed `{Crypto, !HashSize, StdTime, BatchCrypto, EvidenceOps} s :
  reached s →
  chain_ok s ∧
  ∀ (X : Executor) id b tr s', len (b_Txs b) ≤ MaxInt64 → ApplyBlock s id b [] = (tr, Ret (inl s')) → chain_ok s' ∧ advanced s id b s'.
Proof. intros Hs%reached_ok. split; [done|]. intros X id b tr s'. by apply apply_advances. Qed.

(** C13: blocks of correct proposers are valid.  In a reached state let a
    commit for the last block be [proposable]: its basic checks and
    [VerifyCommit] pass, every signature it counts is later than the last
    block and they carry power, its times can be encoded; the evidence passes
    its basic checks and fits; the proposer is a validator and its address has
    20 bytes; sizes and heights are in range.  Then [MakeBlock] returns a
    block with the given transactions, and [validateBlock] accepts it. *)
Theorem proposed_blocks_validate `{Crypto, !HashSize, StdTime, BatchCrypto, EvidenceOps} s txs c evs proposer :
  reached s → proposable s txs c evs proposer →
  ∃ b, state_MakeBlock s (next_height s) txs (Some c) evs proposer = Ret b ∧ b_Txs b = txs ∧ validateBlock s b = Ret None.
Proof. intros Hs%reached_ok. by apply proposal_validates. Qed.

(** Every [q] comes after some [p]. *)
Fixpoint precedes (p q : phase) (seen : bool) (l : list phase) : bool :=
  match l with
  | [] => true
  | x :: l => (negb (bool_decide (x = q)) || seen) && precedes p q (seen || bool_decide (x = p)) l
  end.

(** The mempool is locked while it is flushed, while the application commits
    and while it is updated, and it is unlocked in the end. *)
Fixpoint guarded (locked : bool) (l : list phase) : bool :=
  match l with
  | [] => negb locked
  | Locking :: l => negb locked && guarded true l
  | Unlocking :: l => locked && guarded false l
  | (Flushing | Committing | UpdatingMempool) :: l => locked && guarded locked l
  | _ :: l => guarded locked l
  end.

Definition in_order (l : list phase) : bool :=
  precedes Finalizing SavingResponse false l && precedes SavingResponse Committing false l && precedes Committing SavingState false l &&
  precedes UpdatingMempool SavingState false l && precedes SavingState Firing false l && guarded false l.

Lemma in_shapes (f : list phase → bool) l (shapes : list (list phase)) : l ∈ shapes → forallb f shapes = true → f l = true.
Proof. rewrite forallb_forall. intros Hin Hf. apply Hf. by apply list_elem_of_In. Qed.

Lemma unsaved_steps `{EvidenceOps} tr shapes :
  phase_of <$> tr ∈ shapes → forallb (λ l, forallb (λ x, negb (bool_decide (x = SavingState))) l) shapes = true → ∀ s, SaveState s ∉ tr.
Proof.
  intros Hin Hs s Htr. pose proof (in_shapes _ _ _ Hin Hs) as Hf. simpl in Hf. rewrite forallb_forall in Hf.
  apply (list_elem_of_fmap_2 phase_of), list_elem_of_In, Hf in Htr. done.
Qed.

(** C14: execution keeps the order that recovery relies on.  However the
    application, the stores and the mempool answer, and wherever the
    execution stops with an error or a panic: the application commits only
    after its responses were saved, the state is saved only after the
    application committed and the mempool was updated, events are fired only
    after the state was saved, and the mempool is locked around the commit.
    The only state that is saved is the successor of the old one with the
    application's hash, and it is returned exactly when saving it succeeded. *)
Theorem execution_in_order `{Crypto, StdTime, BatchCrypto, EvidenceOps, !Executor} s id b tr r :
  applyBlock s id b [] = (tr, r) →
  in_order (phase_of <$> tr) = true ∧
  (∀ s', SaveState s' ∈ tr → ∃ req resp b' ups s1, executed_to s id b req resp b' ups s1 ∧ s' = with_AppHash s1 (rf_AppHash resp)) ∧
  (∀ s', r = Ret (inl s') ↔ SaveState s' ∈ tr ∧ store_Save s' = true).
Proof.
  intros Ha. destruct (applyBlock_steps s id b tr r Ha) as [[Hp Hf]|(req & resp & b' & ups & s1 & trc & Hex & [(-> & Hp & Hf)|(tail & -> & Hp & ->)])].
  - pose proof (unsaved_steps tr _ Hp eq_refl) as Hn. split_and!; [by apply (in_shapes in_order _ _ Hp)|intros s' Hin; by destruct (Hn s')|].
    intros s'. split; [intros Hr; by destruct (Hf s')|intros [Hin _]; by destruct (Hn s')].
  - pose proof (unsaved_steps trc _ Hp eq_refl) as Hn. split_and!.
    + rewrite fmap_app. by apply (in_shapes (λ l, in_order (_ ++ l)) _ _ Hp).
    + intros s' Hin. rewrite elem_of_app, !elem_of_cons, elem_of_nil in Hin. destruct_or! Hin; [done..|by destruct (Hn s')].
    + intros s'. split; [intros Hr; by destruct (Hf s')|]. intros [Hin _]. rewrite elem_of_app, !elem_of_cons, elem_of_nil in Hin.
      destruct_or! Hin; [done..|by destruct (Hn s')].
  - set (s' := with_AppHash s1 (rf_AppHash resp)). pose proof (unsaved_steps tail _ Hp eq_refl) as Hn.
    set (steps := _ ++ _ ++ _ ++ SaveState s' :: tail). assert (∀ s2, SaveState s2 ∈ steps ↔ s2 = s') as Hin.
    { intros s2. unfold steps. rewrite !elem_of_app, !elem_of_cons, !elem_of_nil. split; [|intros ->; tauto]. intros Hs2.
      destruct_or! Hs2; try done; [by injection Hs2|by destruct (Hn s2)]. }
    split_and!.
    + unfold steps. rewrite !fmap_app, fmap_cons. by apply (in_shapes (λ l, in_order (_ ++ _ ++ _ ++ _ :: l)) _ _ Hp).
    + intros s2 ->%Hin. by exists req, resp, b', ups, s1.
    + intros s2. rewrite Hin. destruct (store_Save s') eqn:Hsave; split; [by intros [= <-]|by intros [-> _]|done|intros [-> ?]; congruence].
Qed.

(** C31: whether votes need extensions at a height is settled before the
    height starts.  Whatever parameters the application returns with later
    blocks, extensions are required at a height up to the next one exactly
    when the state says so now. *)
Theorem extensions_settled `{Crypto, !HashSize, StdTime, BatchCrypto, EvidenceOps} s s' k :
  reached s → rtc applies s s' → k ≤ next_height s →
  VoteExtensionsEnabled (cp_ABCI (st_ConsensusParams s')) k = VoteExtensionsEnabled (cp_ABCI (st_ConsensusParams s)) k.
Proof.
  intros Hs%reached_ok Hr. revert Hs. induction Hr as [s|s s1 s' Hs1 _ IH]; intros Hs Hk; [done|].
  pose proof Hs1 as (X & id & b & tr & Hlen & Ha). destruct (apply_advances s id b tr s1 Hs Hlen Ha) as [Hok Had].
  rewrite IH; [by eapply applies_extensions|done|]. pose proof (ad_height _ _ _ _ Had) as Hh. pose proof (co_initial _ Hs). pose proof (co_height _ Hs).
  unfold next_height in *. rewrite (decide_False (P := st_LastBlockHeight s1 = 0)); [|rewrite Hh; case_decide; lia]. rewrite Hh. lia.
Qed.

(** ** Block times *)

Section times.
Context (vals : ValidatorSet) (c : Commit) (faulty : CommitSig → bool).
Context (Hpos : Forall (λ v, 0 < VotingPower v) (Validators vals)).

Definition signed_power : Z := zsum (sig_power vals) (commit_Signatures c).
Definition faulty_power : Z := zsum (λ s, if faulty s then sig_power vals s else 0) (commit_Signatures c).

Context (HT : 0 < signed_power ≤ MaxInt64).

(** If the power that passes a test exceeds the faulty power, somebody who is
    not faulty passes it. *)
Lemma some_honest (test : Z → bool) :
  faulty_power < zsum (λ s, if test (UnixNano (cs_Timestamp s)) then sig_power vals s else 0) (commit_Signatures c) →
  ∃ s, s ∈ commit_Signatures c ∧ faulty s = false ∧ 0 < sig_power vals s ∧ test (UnixNano (cs_Timestamp s)) = true.
Proof using Hpos.
  intros Hlt. destruct (decide (Exists (λ s, faulty s = false ∧ 0 < sig_power vals s ∧ test (UnixNano (cs_Timestamp s)) = true) (commit_Signatures c))) as [He|Hn].
  { apply Exists_exists in He as (s & ? & ?). by exists s. }
  exfalso. apply Z.lt_nge in Hlt. apply Hlt. apply zsum_le. intros s Hs.
  pose proof (sig_power_nonneg vals s Hpos). destruct (test (UnixNano (cs_Timestamp s))) eqn:Ht, (faulty s) eqn:Hf; try lia.
  destruct (decide (0 < sig_power vals s)); [|lia]. destruct Hn. apply Exists_exists. by exists s.
Qed.

Lemma median_between_honest :
  faulty_power < signed_power / 2 →
  ∃ a b, a ∈ commit_Signatures c ∧ faulty a = false ∧ 0 < sig_power vals a ∧ b ∈ commit_Signatures c ∧ faulty b = false ∧ 0 < sig_power vals b ∧
    UnixNano (cs_Timestamp a) ≤ UnixNano (MedianTime c vals) ≤ UnixNano (cs_Timestamp b).
Proof using HT Hpos.
  intros Hf. destruct (MedianTime_spec vals c Hpos HT) as (sig & Hin & Hsp & -> & Hlo & Hhi). fold signed_power in *.
  destruct (some_honest (λ t, t <=? UnixNano (cs_Timestamp sig))) as (a & Ha & Hfa & Hpa & Hta); [lia|].
  destruct (some_honest (λ t, UnixNano (cs_Timestamp sig) <=? t)) as (b & Hb & Hfb & Hpb & Htb).
  - assert (signed_power = zsum (λ s, if UnixNano (cs_Timestamp s) <? UnixNano (cs_Timestamp sig) then sig_power vals s else 0) (commit_Signatures c) +
      zsum (λ s, if UnixNano (cs_Timestamp sig) <=? UnixNano (cs_Timestamp s) then sig_power vals s else 0) (commit_Signatures c)) as Hsum.
    { rewrite <-zsum_add. apply zsum_ext_in. intros s _. destruct (Z.ltb_spec (UnixNano (cs_Timestamp s)) (UnixNano (cs_Timestamp sig))),
        (Z.leb_spec (UnixNano (cs_Timestamp sig)) (UnixNano (cs_Timestamp s))); lia. }
    cbv zeta beta in Hlo. assert (0 ≤ faulty_power).
    { apply zsum_nonneg. intros s _. pose proof (sig_power_nonneg vals s Hpos). destruct (faulty s); lia. }
    pose proof (Z.mul_div_le signed_power 2 ltac:(lia)). lia.
  - exists a, b. split_and!; try done; lia.
Qed.

(** When the faulty power is half of the power, rounded down, it suffices to
    be early. *)
Lemma median_taken_by_faulty :
  1 ≤ faulty_power → signed_power / 2 ≤ faulty_power →
  (∀ f h, f ∈ commit_Signatures c → h ∈ commit_Signatures c → faulty f = true → faulty h = false →
     0 < sig_power vals f → 0 < sig_power vals h → UnixNano (cs_Timestamp f) < UnixNano (cs_Timestamp h)) →
  ∃ f, f ∈ commit_Signatures c ∧ faulty f = true ∧ 0 < sig_power vals f ∧ MedianTime c vals = cs_Timestamp f.
Proof using HT Hpos.
  intros H1 Hf Hearly. destruct (MedianTime_spec vals c Hpos HT) as (sig & Hin & Hsp & Hm & Hlo & _). fold signed_power in *. exists sig. split_and!; try done.
  destruct (faulty sig) eqn:Hs; [done|]. exfalso. assert (faulty_power ≤
    zsum (λ s, if UnixNano (cs_Timestamp s) <? UnixNano (cs_Timestamp sig) then sig_power vals s else 0) (commit_Signatures c)); [|cbv beta in Hlo; lia].
  apply zsum_le. intros s Hs'. pose proof (sig_power_nonneg vals s Hpos). destruct (faulty s) eqn:Hfs; [|destruct (_ <? _); lia].
  destruct (Z.ltb_spec (UnixNano (cs_Timestamp s)) (UnixNano (cs_Timestamp sig))); [lia|].
  destruct (decide (0 < sig_power vals s)) as [Hps|]; [|lia]. specialize (Hearly s sig Hs' Hin Hfs Hs Hps Hsp). lia.
Qed.
End times.

(** C32: the median of a commit lies between times of correct validators when
    the faulty ones have less than half of the power that signed, rounded
    down; and when they have exactly that, which for an odd power is less
    than half and is possible with less than a third of all the power, then
    timestamps earlier than all the others make the block time a timestamp of
    their choice. *)
Theorem median_time_bounds vals c faulty :
  Forall (λ v, 0 < VotingPower v) (Validators vals) → 0 < signed_power vals c ≤ MaxInt64 →
  (faulty_power vals c faulty < signed_power vals c / 2 →
   ∃ a b, a ∈ commit_Signatures c ∧ faulty a = false ∧ 0 < sig_power vals a ∧ b ∈ commit_Signatures c ∧ faulty b = false ∧ 0 < sig_power vals b ∧
     UnixNano (cs_Timestamp a) ≤ UnixNano (MedianTime c vals) ≤ UnixNano (cs_Timestamp b)) ∧
  (1 ≤ faulty_power vals c faulty → faulty_power vals c faulty = signed_power vals c / 2 →
   (∀ f h, f ∈ commit_Signatures c → h ∈ commit_Signatures c → faulty f = true → faulty h = false →
     0 < sig_power vals f → 0 < sig_power vals h → UnixNano (cs_Timestamp f) < UnixNano (cs_Timestamp h)) →
   ∃ f, f ∈ commit_Signatures c ∧ faulty f = true ∧ 0 < sig_power vals f ∧ MedianTime c vals = cs_Timestamp f).
Proof.
  intros Hpos HT. split; [by apply median_between_honest|]. intros H1 Heq. apply median_taken_by_faulty; [done|done|done|lia].
Qed.

(** ** Small blocks *)

(** C38: parameters that pass every check can stop all nodes.  When the
    application changes the maximal size of blocks to one that cannot hold a
    header and a commit, which [ValidateBasic] and [ValidateUpdate] accept,
    the filter for the mempool panics: after the application has committed
    the block and before the state is saved. *)
Theorem small_blocks_panic `{Crypto, StdTime, BatchCrypto, EvidenceOps, !Executor} s id b req resp b' ups s1 retain :
  executed_to s id b req resp b' ups s1 → mp_FlushAppConn = true → app_Commit = Some retain →
  0 < bp_MaxBytes (cp_Block (st_ConsensusParams s1)) < 731 + 111 * len (Validators (st_Validators s1)) → len (Validators (st_Validators s1)) ≤ MaxInt32 →
  ∃ msg, applyBlock s id b [] = ([FinalizeBlock req; SaveFinalizeBlockResponse (h_Height (b_Header b')) resp; LockMempool; FlushMempool; CommitApp; UnlockMempool], Panic msg).
Proof.
  intros ((hash & Hb & Hreq) & Hf & Hlen & Hsv & Hvu & Hup & Hu) Hfl Hco Hsmall Hn. pose proof (len_nonneg (Validators (st_Validators s1))).
  assert (∃ msg, TxPreCheck s1 = Panic msg) as [msg Hpre].
  { unfold TxPreCheck, MaxDataBytesNoEvidence, MaxCommitBytes, ValidatorSet.Size, MaxOverheadForBlock, MaxHeaderBytes, MaxCommitOverheadBytes, MaxCommitSigBytes.
    destruct (Z.eqb_spec (bp_MaxBytes (cp_Block (st_ConsensusParams s1))) (-1)); [lia|].
    rewrite (int64_id ((109 + 2) * _)) by (unfold is_int64; unfold MaxInt32 in *; mlia). rewrite (int64_id (94 + _)) by (unfold MaxInt32 in *; mlia).
    rewrite int64_id by (unfold MaxInt32 in *; mlia). destruct (Z.ltb_spec (bp_MaxBytes (cp_Block (st_ConsensusParams s1)) - 11 - 626 -
      (94 + (109 + 2) * len (Validators (st_Validators s1)))) 0); [by eexists|lia]. }
  exists msg. unfold applyBlock, Commit_, ex_bind, ex_defer, ex_do, ex_need, ex_guard, ex_lift, ex_ret.
  rewrite Hb. cbv iota beta. rewrite Hreq. cbv iota beta. rewrite Hf. cbv iota beta. rewrite Hlen, Z.eqb_refl. cbv iota beta. rewrite Hsv. cbv iota beta.
  rewrite Hvu, Hup. cbv iota beta. rewrite Hu. cbv iota beta. rewrite Hfl. cbv iota beta. rewrite Hco. cbv iota beta. rewrite Hpre. reflexivity.
Qed.

(** ** Witnesses *)

(** A chain of four validators, whose signatures are their keys. *)
Definition cx_crypto : Crypto := {|
  key_address := KeyBytes;
  verify_signature := λ pk _ sig, bool_decide (sig = KeyBytes pk);
  sha256 := checksum |}.
Lemma cx_hash_size : @HashSize cx_crypto.
Proof. exact checksum_size. Qed.
Definition cx_batch : BatchCrypto := {| batch_add := λ _ _ _ _, true; batch_verify := λ l, (true, (λ _, true) <$> l) |}.

Definition cx_key (c : byte) : PubKey := mkPubKey "ed25519" (replicate 20 c).
Definition cx_genesis : GenesisDoc :=
  mkGenesisDoc (mkTime 1700000000 0) [x61] 0 None
    (Some ((λ c, mkGenesisValidator [] (cx_key c) 1) <$> [x01; x02; x03; x04])) [x0a].
Definition cx_empty : State :=
  mkState InitStateVersion [] 0 0 nilBlockID zeroTime emptyValidatorSet emptyValidatorSet emptyValidatorSet 0 DefaultConsensusParams 0 [] [].
Definition state_or_empty (o : outcome (State + genesis_error)) : State := match o with Ret (inl s) => s | _ => cx_empty end.
Definition cx_s0 : State := Eval vm_compute in state_or_empty (@MakeGenesisState cx_crypto cx_genesis zeroTime).

(** An application that answers every block with one result for each
    transaction and with the given parameters. *)
Definition cx_exec (updates : option ProtoParams) : @Executor toy_evidence := {|
  app_PrepareProposal := λ r, Some (rp_Txs r);
  app_ProcessProposal := λ _, Some ACCEPT;
  app_FinalizeBlock := λ r, Some (mkResponseFinalizeBlock ((λ _, mkExecTxResult 0 [] [] [] 1 1 []) <$> rq_Txs r) [] updates [x0b]);
  app_ExtendVote := λ _, Some [];
  app_VerifyVoteExtension := λ _ _ _ _, Some ACCEPT;
  app_Commit := Some 0;
  mp_FlushAppConn := true;
  mp_Reap := λ _ _, [];
  mp_Update := λ _ _ _ _ _, Ret true;
  evp_Pending := λ _, ([], 0);
  evp_CheckEvidence := λ _, true;
  store_LoadValidators := λ _, Some (st_Validators cx_s0);
  store_SaveResponse := λ _ _, true;
  store_Save := λ _, true;
  store_PruneStates := λ _ _ _, true;
  blocks_Base := 1;
  blocks_Prune := λ _ _, Some (0, 0) |}.

Definition cx_block_or (o : outcome (@Block toy_evidence)) : @Block toy_evidence :=
  match o with Ret b => b | Panic _ => @mkBlock toy_evidence [] (mkHeader (mkConsensus 0 0) [] 0 zeroTime nilBlockID [] [] [] [] [] [] [] [] []) [] [] None end.
Definition cx_no_commit : Commit := mkCommit 0 0 nilBlockID [].
Definition cx_b1 : @Block toy_evidence := Eval vm_compute in
  cx_block_or (@state_MakeBlock cx_crypto example_time toy_evidence cx_s0 1 [[x01]] (Some cx_no_commit) [] (replicate 20 x01)).
Definition cx_id : BlockID := mkBlockID (replicate 32 x0a) (mkPartSetHeader 1 (replicate 32 x0b)).

Definition run_of (updates : option ProtoParams) (s : State) (b : @Block toy_evidence) :=
  @ApplyBlock cx_crypto example_time cx_batch toy_evidence (cx_exec updates) s cx_id b [].
Definition state_of {A} (r : A * outcome (State + exec_error)) : State := match r.2 with Ret (inl s) => s | _ => cx_empty end.
Definition cx_s1 : State := Eval vm_compute in state_of (run_of None cx_s0 cx_b1).

Lemma cx_genesis_ok : genesis_ok cx_genesis.
Proof. split; [done|]. eexists. split_and!; [reflexivity|done|]. repeat constructor. Qed.
Lemma cx_reached0 : @reached cx_crypto example_time cx_batch toy_evidence cx_s0.
Proof. apply (reached_genesis cx_genesis zeroTime); [apply cx_genesis_ok|vm_compute; reflexivity]. Qed.
Lemma cx_run1 : ∃ tr, run_of None cx_s0 cx_b1 = (tr, Ret (inl cx_s1)).
Proof. eexists. vm_compute. reflexivity. Qed.
Lemma cx_reached1 : @reached cx_crypto example_time cx_batch toy_evidence cx_s1.
Proof. destruct cx_run1 as [tr Hr]. apply (reached_apply (cx_exec None) cx_s0 cx_id cx_b1 tr); [apply cx_reached0|done|exact Hr]. Qed.

Lemma chain_states_well_formed_witness : @chain_ok cx_crypto cx_s1 ∧ st_LastBlockHeight cx_s1 = 1.
Proof.
  destruct cx_run1 as [tr Hr].
  destruct (@chain_states_well_formed cx_crypto cx_hash_size example_time cx_batch toy_evidence cx_s0 cx_reached0) as [_ Hall].
  destruct (Hall (cx_exec None) cx_id cx_b1 tr cx_s1 ltac:(done) Hr) as [Hok Had]. split; [exact Hok|]. rewrite (ad_height _ _ _ _ Had). reflexivity.
Defined.

(** The commit of the first block, by three of the validators. *)
Definition cx_sig (c : byte) (t : Z) : CommitSig := mkCommitSig BlockIDFlagCommit (replicate 20 c) (mkTime t 0) (replicate 20 c).
Definition cx_commit (t1 t2 t3 : Z) : Commit := mkCommit 1 0 cx_id [cx_sig x01 t1; cx_sig x02 t2; cx_sig x03 t3; NewCommitSigAbsent].

Lemma cx_proposable : @proposable cx_crypto example_time cx_batch toy_evidence cx_s1 [[x02]] (cx_commit 1700000001 1700000002 1700000003) [] (replicate 20 x02).
Proof.
  split.
  - vm_compute. discriminate.
  - vm_compute. reflexivity.
  - vm_compute. reflexivity.
  - cbn [commit_Signatures cx_commit]. rewrite !Forall_cons. split_and!; [..|constructor]; eexists; vm_compute; reflexivity.
  - split_and!; vm_compute; discriminate.
  - done.
  - intros _. vm_compute. reflexivity.
  - intros _. split; vm_compute; (reflexivity || discriminate).
  - intros _ sig Hin Hs. cbn [commit_Signatures cx_commit] in Hin. rewrite !elem_of_cons, elem_of_nil in Hin.
    destruct Hin as [->|[->|[->|[->|[]]]]]; [vm_compute; reflexivity..|by vm_compute in Hs].
  - constructor.
  - vm_compute. discriminate.
  - split; vm_compute; reflexivity.
Qed.

Lemma proposed_blocks_validate_witness :
  ∃ b, @state_MakeBlock cx_crypto example_time toy_evidence cx_s1 2 [[x02]] (Some (cx_commit 1700000001 1700000002 1700000003)) [] (replicate 20 x02) = Ret b ∧
    b_Txs b = [[x02]] ∧ @validateBlock cx_crypto example_time cx_batch toy_evidence cx_s1 b = Ret None.
Proof. exact (@proposed_blocks_validate cx_crypto cx_hash_size example_time cx_batch toy_evidence cx_s1 _ _ _ _ cx_reached1 cx_proposable). Defined.

Lemma execution_in_order_witness :
  ∃ tr r, @applyBlock cx_crypto example_time toy_evidence (cx_exec None) cx_s0 cx_id cx_b1 [] = (tr, r) ∧
    in_order (phase_of <$> tr) = true ∧ SaveState cx_s1 ∈ tr.
Proof.
  destruct (@applyBlock cx_crypto example_time toy_evidence (cx_exec None) cx_s0 cx_id cx_b1 []) as [tr r] eqn:Ha. exists tr, r.
  destruct (@execution_in_order cx_crypto example_time cx_batch toy_evidence (cx_exec None) cx_s0 cx_id cx_b1 tr r Ha) as (Ho & _ & Hr). split; [reflexivity|].
  split; [exact Ho|]. apply Hr. assert (r = (@applyBlock cx_crypto example_time toy_evidence (cx_exec None) cx_s0 cx_id cx_b1 []).2) as -> by (rewrite Ha; reflexivity).
  vm_compute. reflexivity.
Defined.

(** The application turns vote extensions on from height 5. *)
Definition cx_enable : ProtoParams := mkProtoParams None None None None (Some (mkABCIParams 5)).
Definition cx_e1 : State := Eval vm_compute in state_of (run_of (Some cx_enable) cx_s0 cx_b1).

Lemma extensions_settled_witness :
  VoteExtensionsEnabled (cp_ABCI (st_ConsensusParams cx_e1)) 1 = VoteExtensionsEnabled (cp_ABCI (st_ConsensusParams cx_s0)) 1 ∧
  VoteExtensionsEnabled (cp_ABCI (st_ConsensusParams cx_e1)) 5 = Ret true.
Proof.
  split; [|reflexivity].
  apply (@extensions_settled cx_crypto cx_hash_size example_time cx_batch toy_evidence cx_s0 cx_e1 1 cx_reached0); [|vm_compute; discriminate].
  assert (∃ tr, run_of (Some cx_enable) cx_s0 cx_b1 = (tr, Ret (inl cx_e1))) as [tr Hr] by (eexists; vm_compute; reflexivity).
  apply rtc_once. exists (cx_exec (Some cx_enable)), cx_id, cx_b1, tr. split; [vm_compute; discriminate|exact Hr].
Defined.

(** Three of the four validators sign; the first one is faulty. *)
Lemma median_time_bounds_witness :
  MedianTime (cx_commit 5 1700000002 1700000003) (st_Validators cx_s0) = mkTime 5 0.
Proof.
  destruct (median_time_bounds (st_Validators cx_s0) (cx_commit 5 1700000002 1700000003) (λ s, bool_decide (cs_ValidatorAddress s = replicate 20 x01)))
    as [_ Hbad].
  - repeat constructor.
  - split; vm_compute; (reflexivity || discriminate).
  - destruct Hbad as (f & Hin & Hf & Hp & ->).
    + vm_compute. discriminate.
    + vm_compute. reflexivity.
    + intros f h Hf Hh Ff Fh Pf Ph. cbn [commit_Signatures cx_commit] in Hf, Hh. rewrite !elem_of_cons, elem_of_nil in Hf, Hh.
      destruct Hf as [->|[->|[->|[->|[]]]]]; [|vm_compute in Ff; discriminate Ff..].
      destruct Hh as [->|[->|[->|[->|[]]]]]; [vm_compute in Fh; discriminate Fh|vm_compute; reflexivity..|vm_compute in Ph; discriminate Ph].
    + cbn [commit_Signatures cx_commit] in Hin. rewrite !elem_of_cons, elem_of_nil in Hin.
      destruct Hin as [->|[->|[->|[->|[]]]]]; [reflexivity|vm_compute in Hf; discriminate Hf..].
Defined.

(** The application asks for blocks of at most one byte. *)
Definition cx_small : ProtoParams := mkProtoParams (Some (mkBlockParams 1 (-1))) (Some (mkEvidenceParams 1 1 1)) None None None.
Definition cx_response : ResponseFinalizeBlock := mkResponseFinalizeBlock [mkExecTxResult 0 [] [] [] 1 1 []] [] (Some cx_small) [x0b].
Definition cx_hashed : @Block toy_evidence * bytes := Eval vm_compute in
  match @Block_Hash cx_crypto example_time toy_evidence cx_b1 with Ret r => r | Panic _ => (cx_b1, []) end.
Definition cx_request : @BlockRequest toy_evidence :=
  @mkBlockRequest toy_evidence cx_hashed.2 1 (mkTime 1700000000 0) [[x01]] (mkCommitInfo 0 []) [] (h_NextValidatorsHash (b_Header cx_b1)) (replicate 20 x01).
Definition cx_small_state : State := Eval vm_compute in
  state_of ((), @updateState cx_crypto cx_s0 cx_id (b_Header cx_hashed.1) cx_response []).

Lemma small_blocks_panic_witness :
  ∃ tr msg, @applyBlock cx_crypto example_time toy_evidence (cx_exec (Some cx_small)) cx_s0 cx_id cx_b1 [] = (tr, Panic msg) ∧
    Committing ∈ (phase_of <$> tr) ∧ SavingState ∉ (phase_of <$> tr).
Proof.
  destruct (@small_blocks_panic cx_crypto example_time cx_batch toy_evidence (cx_exec (Some cx_small)) cx_s0 cx_id cx_b1 cx_request cx_response cx_hashed.1 []
    cx_small_state 0) as [msg Hm].
  - split; [exists cx_hashed.2; split; vm_compute; reflexivity|]. repeat (split; [vm_compute; reflexivity|]). vm_compute. reflexivity.
  - reflexivity.
  - reflexivity.
  - split; vm_compute; reflexivity.
  - vm_compute. discriminate.
  - eexists _, msg. split; [exact Hm|]. split; [apply (bool_decide_unpack _); reflexivity|apply (bool_decide_unpack _); reflexivity].
Defined.
