(* ===== verification/LocalChain.v ===== *)
(** * The stores of the local node

    [src/hetu-consensus/cometbft/src]: the data of blocks and states as the
    node builds them, [chain/types.rs] (errors), [db.rs] (the database
    trait), [chain/store.rs] (the store of blocks), [chain/state.rs] (the
    store of states, validators and parameters) and [proxyapp.rs] (the frames
    in which the application answers).  The crate [cometbft] and the JSON
    encoding of [serde_json] are interfaces.  A database is a map from keys to
    bytes with the keys whose access fails. *)
From S2P Require Import Prelude.
From S2P Require Import Proto.
From S2P Require Import Unmarshal.
From stdpp Require Import pretty.
Open Scope Z_scope.

(** ** Results

    [Result] of Rust with the panics. *)
Inductive res (E A : Type) := Ok (a : A) | Err (e : E) | Panicked.
Arguments Ok {E A} a.
Arguments Err {E A} e.
Arguments Panicked {E A}.

Definition res_map_err {E F A} (f : E → F) (r : res E A) : res F A :=
  match r with Ok a => Ok a | Err e => Err (f e) | Panicked => Panicked end.
(** [unwrap] and [ok_or_else] of an [Option]. *)
Definition unwrap {E A} (o : option A) : res E A := match o with Some a => Ok a | None => Panicked end.
Definition ok_or {E A} (e : E) (o : option A) : res E A := match o with Some a => Ok a | None => Err e end.

(** ** The crate [cometbft] *)

Record Info := mkInfo { info_pub_key : bytes; info_address : bytes; info_power : Z }.

(** Validator sets, wall clock times, part set headers and key algorithms are
    abstract.  A hash is its bytes. *)
Class CometRs := {
  VSet : Type;
  Set_new : list Info → option Info → VSet;
  Set_proposer : VSet → option Info;
  Set_validators : VSet → list Info;
  Set_hash : VSet → bytes;
  Info_new : bytes → Z → Info;
  WTime : Type;
  unix_timestamp : WTime → Z;
  time_into : WTime → Z * Z;
  PartSetHeader : Type;
  PartSetHeader_default : PartSetHeader;
  Algorithm : Type;
  Ed25519 : Algorithm;
  Algorithm_from_str : string → option Algorithm;
  Algorithm_to_string : Algorithm → string;
  Hash_default : bytes;
  AppHash_default : bytes;
  Round_default : Z;
  ChainId_try_from : string → option string;
  Height_increment : Z → option Z;
  Height_try_from : Z → option Z;
  Power_try_from : Z → option Z;
  from_raw_ed25519 : bytes → option bytes;
  Sha256_digest : bytes → bytes;
}.

(** What the documentation of the crate says of them: [Set::new] keeps the
    proposer it is given, and heights are counted up to [i64::MAX]. *)
Class CometRsLaws `{CometRs} := {
  proposer_new : ∀ l p, Set_proposer (Set_new l p) = p;
  increment_ok : ∀ h, 0 ≤ h → Height_increment h = if h <? MaxInt64 then Some (h + 1) else None;
  try_from_ok : ∀ h, 0 ≤ h → Height_try_from h = if h <=? MaxInt64 then Some h else None;
}.

(** [serde_json::to_vec] and [from_slice]. *)
Class Json (A : Type) := { to_vec : A → option bytes; from_slice : bytes → option A }.
Class JsonLaws (A : Type) `{Json A} := from_to : ∀ (a : A) b, to_vec a = Some b → from_slice b = Some a.

Section data.
Context `{CometRs}.

Record BlockId := mkBlockId { bid_hash : bytes; part_set_header : PartSetHeader }.
Definition BlockId_default : BlockId := mkBlockId Hash_default PartSetHeader_default.

Record Header := mkHeader {
  version_block : Z; version_app : Z; chain_id : string; height : Z; time : WTime; last_block_id : option BlockId;
  last_commit_hash : option bytes; data_hash : option bytes; validators_hash : bytes; next_validators_hash : bytes;
  consensus_hash : bytes; app_hash : bytes; last_results_hash : option bytes; evidence_hash : option bytes;
  proposer_address : bytes;
}.

(** [CommitSig::BlockIdFlagCommit]. *)
Record CommitSig := mkCommitSig { validator_address : bytes; timestamp : WTime; signature : option bytes }.
Record Commit := mkCommit { commit_height : Z; commit_round : Z; commit_block_id : BlockId; signatures : list CommitSig }.
(** The evidence of the blocks of this node is always the empty list. *)
Record Block := mkBlock { header : Header; data : list bytes; last_commit : option Commit }.

(** Consensus parameters; the duration in nanoseconds. *)
Record Params := mkParams {
  max_bytes : Z; max_gas : Z; time_iota_ms : Z;
  max_age_num_blocks : Z; max_age_duration : Z; evidence_max_bytes : Z;
  pub_key_types : list Algorithm; version_params_app : option Z; vote_extensions_enable_height : option Z;
}.
Definition as_secs (d : Z) : Z := d / 1000000000.
Definition from_secs (s : Z) : Z := s * 1000000000.

Definition default_consensus_params : Params :=
  mkParams 22020096 (-1) 1000 100000 (from_secs (48 * 3600)) 1048576 [Ed25519] (Some 1) (Some 0).

Record ChainState := mkChainState {
  cs_header : Header; validators : option VSet; last_validators : option VSet; last_height_validators_changed : Z;
  consensus_params : Params; last_height_consensus_params_changed : Z;
}.
Record ConsensusParamsInfo := mkParamsInfo { info_params : Params; last_height_changed : Z }.
Record BlockStoreState := mkBlockStoreState { base : Z; store_height : Z }.
End data.

(** Hashes of headers and the default of the protobuf parameters are of the
    crate too, and speak of the data above. *)
Class CometRsData `{CometRs} := {
  Header_hash : Header → bytes;
  (** [Block::new] with the default evidence. *)
  Block_new : Header → list bytes → option Commit → option Block;
  (** Whether parameters convert to the default protobuf message. *)
  raw_default : Params → bool;
}.
Class CometRsDataLaws `{CometRsData} :=
  block_new_fields : ∀ h d c b, Block_new h d c = Some b → b = mkBlock h d c.

(** ** [chain/types.rs] and [db.rs] *)

Inductive Error := InvalidKey | InvalidBlock | DatabaseError | NoValidatorsFound | NoState | Other.

Record Database := mkDatabase { db_map : gmap string bytes; db_fails : string → bool }.

(** Operations on a database: the new database and the result. *)
Definition DB (A : Type) : Type := Database → Database * res Error A.
#[export] Instance DB_ret : MRet DB := λ A a d, (d, Ok a).
#[export] Instance DB_bind : MBind DB := λ A B f m d,
  match m d with
  | (d, Ok a) => f a d
  | (d, Err e) => (d, Err e)
  | (d, Panicked) => (d, Panicked)
  end.
Definition db_res {A} (r : res Error A) : DB A := λ d, (d, r).
(** Catch the error of an operation: [map_err] and [if let Ok]. *)
Definition db_try {A} (m : DB A) : DB (res Error A) := λ d,
  match m d with (d, Panicked) => (d, Panicked) | (d, r) => (d, Ok r) end.

(** [Database::get] and [set]: errors are those of the crate, which [?]
    turns into [Error::Other]. *)
Definition db_get (k : string) : DB (option bytes) := λ d, (d, if db_fails d k then Err Other else Ok (db_map d !! k)).
Definition db_set (k : string) (v : bytes) : DB unit := λ d,
  if db_fails d k then (d, Err Other) else (mkDatabase (<[k:=v]> (db_map d)) (db_fails d), Ok tt).

(** ** [chain/store.rs] *)

Section stores.
Context `{CometRsData, !Json Block, !Json Z, !Json (option Commit), !Json BlockStoreState, !Json ChainState, !Json VSet,
          !Json ConsensusParamsInfo, !Json Params}.

Definition calc_block_key (height : Z) : string := "block:" +:+ pretty height.
Definition calc_block_parts_key (height : Z) : string := "block_parts:" +:+ pretty height.
Definition calc_block_commit_key (height : Z) : string := "block_commit:" +:+ pretty height.
Definition BLOCK_STORE_KEY : string := "block_store".

(** The state of the store is a field of its own: it is written and never
    read back. *)
Definition ChainStore_new_state : BlockStoreState := mkBlockStoreState 0 0.

Definition save_block (state : BlockStoreState) (block : Block) : DB unit :=
  block_data ← db_res (ok_or InvalidKey (to_vec block));
  db_set (calc_block_key (height (header block))) block_data;;
  parts_data ← db_res (ok_or InvalidKey (to_vec (height (header block))));
  db_set (calc_block_parts_key (height (header block))) parts_data;;
  commit_data ← db_res (ok_or InvalidKey (to_vec (last_commit block)));
  db_set (calc_block_commit_key (height (header block))) commit_data;;
  state_data ← db_res (ok_or InvalidKey (to_vec state));
  db_set BLOCK_STORE_KEY state_data.

Definition load_block (height : Z) : DB (option Block) :=
  b ← db_get (calc_block_key height);
  match b with
  | Some bytes => block ← db_res (ok_or InvalidKey (from_slice bytes)); mret (Some block)
  | None => mret None
  end.

Definition load_commit (height : Z) : DB (option (option Commit)) :=
  b ← db_get (calc_block_commit_key height);
  match b with
  | Some bytes => commit ← db_res (ok_or Other (from_slice bytes)); mret (Some commit)
  | None => mret None
  end.

Definition last_block_hash (state : BlockStoreState) : DB bytes :=
  if store_height state =? 0 then mret Hash_default
  else
    b ← load_block (store_height state);
    block ← db_res (ok_or InvalidBlock b);
    mret (Header_hash (header block)).

Definition ChainStore_consensus_hash (state : BlockStoreState) : DB bytes :=
  b ← load_block (store_height state);
  block ← db_res (ok_or InvalidBlock b);
  mret (consensus_hash (header block)).

Definition ChainStore_last_block_id (state : BlockStoreState) : DB (option BlockId) :=
  last_hash ← last_block_hash state;
  mret (if decide (last_hash = Hash_default) then None else Some (mkBlockId last_hash PartSetHeader_default)).

(** ** [chain/state.rs] *)

Definition ChainState_new (chain_id : string) (initial_height : Z) (now : WTime) (validators : VSet) (consensus_params : Params)
    : res Error ChainState :=
  match Set_proposer validators, to_vec consensus_params with
  | Some proposer, Some params_bytes =>
      Ok (mkChainState
            (mkHeader 11 1 chain_id initial_height now None None None (Set_hash validators) (Set_hash validators)
               (Sha256_digest params_bytes) AppHash_default None None (info_address proposer))
            (Some validators) None initial_height consensus_params initial_height)
  | _, _ => Panicked
  end.

Definition STATE_KEY : string := "state".
Definition validators_key (height : Z) : string := "validators/" +:+ pretty height.
Definition params_key (height : Z) : string := "consensusParamsKey:" +:+ pretty height.

Definition load_state : DB (option ChainState) :=
  b ← db_get STATE_KEY;
  match b with
  | Some bytes => state ← db_res (ok_or Other (from_slice bytes)); mret (Some state)
  | None => mret None
  end.

Definition need_state : DB ChainState := s ← load_state; db_res (ok_or NoState s).

Definition save_state (state : ChainState) : DB unit :=
  data ← db_res (ok_or Other (to_vec state));
  db_set STATE_KEY data.

Definition save_validators_height (height : Z) (validators : VSet) : DB unit :=
  value ← db_res (ok_or Other (to_vec validators));
  db_set (validators_key height) value.

Definition load_validators (height : Z) : DB (option VSet) :=
  b ← db_try (db_get (validators_key height));
  match b with
  | Ok (Some bytes) => v ← db_res (ok_or Other (from_slice bytes)); mret (Some v)
  | Ok None => mret None
  | Err _ => db_res (Err DatabaseError)
  | Panicked => db_res Panicked
  end.

Definition save_consensus_params (height : Z) (params : Params) : DB unit :=
  bytes ← db_res (ok_or Other (to_vec (mkParamsInfo params height)));
  db_set (params_key height) bytes.

(** A failing read of a key counts as no entry. *)
Definition get_or_none (k : string) : DB (option bytes) :=
  b ← db_try (db_get k); mret (match b with Ok (Some bytes) => Some bytes | _ => None end).

Definition load_consensus_params (height : Z) : DB (option Params) :=
  b ← get_or_none (params_key height);
  match b with
  | None => mret None
  | Some bytes =>
      params_info ← db_res (ok_or Other (from_slice bytes));
      if raw_default (info_params params_info) then
        b ← get_or_none (params_key (last_height_changed params_info));
        match b with
        | Some bytes => last_changed_info ← db_res (ok_or Other (from_slice bytes)); mret (Some (info_params last_changed_info))
        | None => mret (Some (info_params params_info))
        end
      else mret (Some (info_params params_info))
  end.

Definition Store_chain_id : DB string :=
  state ← need_state; db_res (ok_or Other (ChainId_try_from (chain_id (cs_header state)))).

Definition Store_validators : DB VSet :=
  state ← need_state;
  v ← load_validators (height (cs_header state));
  db_res (ok_or NoValidatorsFound v).

Definition Store_next_validators : DB VSet :=
  state ← need_state;
  next_height ← db_res (unwrap (Height_increment (height (cs_header state))));
  v ← load_validators next_height;
  db_res (ok_or NoValidatorsFound v).

Definition Store_app_hash : DB bytes := state ← need_state; mret (app_hash (cs_header state)).
Definition Store_last_results_hash : DB (option bytes) := state ← need_state; mret (last_results_hash (cs_header state)).

Definition Store_consensus_params : DB Params :=
  state ← need_state;
  p ← db_try (load_consensus_params (int64 (height (cs_header state))));
  mret (match p with Ok (Some params) => params | _ => consensus_params state end).

Definition Store_consensus_hash : DB bytes :=
  params ← Store_consensus_params;
  params_bytes ← db_res (ok_or Other (to_vec params));
  mret (Sha256_digest params_bytes).

Definition validator_addresses : DB (option (list bytes)) :=
  v ← Store_validators; mret (Some (info_address <$> Set_validators v)).

Definition save_validators (now : WTime) (vals : list Info) : DB unit :=
  let validator_set := Set_new vals (head vals) in
  id ← Store_chain_id;
  params ← Store_consensus_params;
  state ← db_res (ChainState_new id 0 now validator_set params);
  save_state state;;
  save_validators_height 0 validator_set.

Definition save_initial_state (chain_id : string) (now : WTime) (vals : list Info) (params : Params) (initial_height : Z) : DB unit :=
  let validator_set := Set_new vals (head vals) in
  state ← db_res (ChainState_new chain_id initial_height now validator_set params);
  save_state state;;
  save_validators_height initial_height validator_set;;
  save_consensus_params (int64 initial_height) params.

Definition update_state (state : ChainState) : DB unit :=
  if max_bytes (consensus_params state) =? 0 then db_res (Err Other)
  else
    state_bytes ← db_res (ok_or Other (to_vec state));
    r ← db_try (db_set STATE_KEY state_bytes);
    db_res (res_map_err (λ _, DatabaseError) r).
End stores.

(** ** [proxyapp.rs]

    The connection to the application: the bytes that are still to be read
    and the bytes that were written.  The protobuf messages of the crate are
    given by their encoding. *)
Inductive kind := KEcho | KFlush | KInfo | KInitChain | KPrepareProposal | KProcessProposal | KFinalizeBlock | KCommit.
#[export] Instance kind_eq_dec : EqDecision kind.
Proof. solve_decision. Defined.

Inductive AbciError := NotConnected | WriteError | ReadLengthByte | ResponseTooLarge | ReadMessage | DecodeError | InvalidVarint
  | VarintTooLong | VarintEOF | UnexpectedResponse.

Fixpoint varint_loop (buf : bytes) (shift value : Z) : Z + AbciError :=
  match buf with
  | [] => inr VarintEOF
  | byte :: buf =>
      if 64 <=? shift then inr VarintTooLong
      else
        let value := Z.lor value (uint64 (Z.shiftl (Z.land (bval byte) 127) shift)) in
        if Z.land (bval byte) 128 =? 0 then inl value else varint_loop buf (shift + 7) value
  end.
Definition binary_varint_decode (buf : bytes) : Z + AbciError := varint_loop buf 0 0.

Section abci.
Context {Request Response : Type}.
(** [encode_to_vec], [Response::decode], and the variant a response holds. *)
Context (encode : Request → bytes) (decode_response : bytes → option Response) (flush_request : Request).
Context (variant : Response → option (kind * Response)).

Record RemoteClient := mkRemote { connected : bool; to_read : bytes; written : bytes }.

(** [AsyncReadExt::read_exact]. *)
Definition read_exact (n : Z) (l : bytes) : option (bytes * bytes) :=
  if n <=? len l then Some (take (Z.to_nat n) l, drop (Z.to_nat n) l) else None.

(** The loop over the bytes of the length; [length_buf] has those read. *)
Fixpoint read_loop (n : nat) (length_buf stream : bytes) : bytes * (Response + AbciError) :=
  match read_exact 1 stream, n with
  | None, _ => ([], inr ReadLengthByte)
  | Some (_, stream), O => (stream, inr InvalidVarint)
  | Some (buf, stream), S n =>
      let length_buf := length_buf ++ buf in
      match binary_varint_decode length_buf with
      | inl l =>
          if 1024 * 1024 <? l then (stream, inr ResponseTooLarge)
          else
            match read_exact l stream with
            | None => ([], inr ReadMessage)
            | Some (msg_buf, stream) =>
                (stream, match decode_response msg_buf with Some r => inl r | None => inr DecodeError end)
            end
      | inr _ => if 10 <=? len length_buf then (stream, inr InvalidVarint) else read_loop n length_buf stream
      end
  end.

Definition read_response (c : RemoteClient) : RemoteClient * (Response + AbciError) :=
  if connected c then let '(stream, r) := read_loop 10 [] (to_read c) in (mkRemote true stream (written c), r)
  else (c, inr NotConnected).

(** [ok]: the bytes reach the connection. *)
Definition send_request (c : RemoteClient) (ok : bool) (request : Request) : RemoteClient * (Response + AbciError) :=
  if negb (connected c) then (c, inr NotConnected)
  else if negb ok then (c, inr WriteError)
  else
    let c := mkRemote true (to_read c) (written c ++ delimited (encode request) ++ delimited (encode flush_request)) in
    match read_response c with
    | (c, inr e) => (c, inr e)
    | (c, inl response) =>
        match read_response c with
        | (c, inr e) => (c, inr e)
        | (c, inl _) => (c, inl response)
        end
    end.

(** The methods of the client wrap [send_request] and take the response of
    their own kind only. *)
Definition abci_call (k : kind) (c : RemoteClient) (ok : bool) (request : Request) : RemoteClient * (Response + AbciError) :=
  match send_request c ok request with
  | (c, inr e) => (c, inr e)
  | (c, inl response) =>
      match variant response with
      | Some (k', r) => (c, if decide (k = k') then inl r else inr UnexpectedResponse)
      | None => (c, inr UnexpectedResponse)
      end
  end.
End abci.
