(* ===== verification/LocalNode.v ===== *)
(** * The local node

    [src/hetu-consensus/cometbft/src]: [consensus/types.rs] and
    [consensus/state.rs], the loop of a node that is the only validator,
    [validator_key.rs], [config.rs] and the start of [cometbft.rs].  What the
    application answers and what the clocks show are functions of all that
    has happened, the trace, newest event first: [NodeEnv].  A spawned timer
    waits in [pending] with its deadline until it is received. *)
From S2P Require Import Prelude.
From S2P Require Import LocalChain.

(** ** [config.rs] and [consensus/mod.rs]

    Durations are in nanoseconds. *)
Record Config := mkConfig {
  config_chain_id : string;
  timeout_propose : Z; timeout_propose_delta : Z; timeout_commit : Z;
  create_empty_blocks : bool; create_empty_blocks_interval : Z;
  max_tx_bytes : Z;
}.
Definition from_millis (ms : Z) : Z := ms * 1000000.
Definition Config_default : Config :=
  mkConfig "evmos_9002-1" (from_secs 3) (from_millis 500) (from_secs 1) true (from_secs 0) 1048576.

Definition TIMEOUT_PROPOSE : Z := from_secs 3.
Definition TIMEOUT_COMMIT : Z := from_secs 1.
Definition TIMEOUT_NEW_HEIGHT : Z := from_millis 10.
Definition BLOCK_PROTOCOL_VERSION : Z := 11.

Inductive RoundStep := NewHeight | NewRound | Propose | CommitStep.

Inductive ConsensusError := InvalidHeight (h : Z) | InvalidProposal | OtherError.

Section node.
Context `{CometRsData, !Json Block, !Json Z, !Json (option Commit), !Json BlockStoreState, !Json ChainState, !Json VSet,
          !Json ConsensusParamsInfo, !Json Params}.

(** ** [validator_key.rs]

    [Proposal::try_from], the canonical sign bytes and the Ed25519 signature
    of the crates; [None] where they fail. *)
Record RawProposal := mkRawProposal {
  prop_type : Z; prop_height : Z; prop_round : Z; prop_pol_round : Z; prop_block_id : option BlockId;
  prop_timestamp : option WTime; prop_signature : bytes;
}.
Class Keys := {
  signable_vec : string → RawProposal → option bytes;
  ed25519_sign : bytes → bytes → option bytes;
}.
Context `{Keys}.

Record PrivValidatorKey := mkKey { key_address : bytes; key_pub_key : bytes; key_priv_key : bytes; key_chain_id : string }.

Definition sign_proposal (k : PrivValidatorKey) (proposal : RawProposal) : option RawProposal :=
  id ← ChainId_try_from (key_chain_id k);
  sign_bytes ← signable_vec id proposal;
  sig ← ed25519_sign (key_priv_key k) sign_bytes;
  Some (mkRawProposal (prop_type proposal) (prop_height proposal) (prop_round proposal) (prop_pol_round proposal)
          (prop_block_id proposal) (prop_timestamp proposal) sig).

Definition sign_block (k : PrivValidatorKey) (block : Block) : option Block :=
  let proposal := mkRawProposal 32 (int64 (height (header block))) 0 (-1)
                    (Some (mkBlockId (Header_hash (header block)) PartSetHeader_default)) (Some (time (header block))) [] in
  proposal ← sign_proposal k proposal;
  Some (mkBlock (header block) (data block)
          ((λ c, mkCommit (commit_height c) (commit_round c) (commit_block_id c)
                   [mkCommitSig (key_address k) (time (header block)) (Some (prop_signature proposal))]) <$> last_commit block)).

(** ** Requests to the application *)

Record PrepareProposalRequest := mkPrepare {
  pp_max_tx_bytes : Z; pp_txs : list bytes; pp_height : Z; pp_time : Z * Z; pp_next_validators_hash : bytes; pp_proposer_address : bytes;
}.
(** [ProcessProposalRequest] and [FinalizeBlockRequest] have the same fields
    here; the last commit and the misbehavior are never given. *)
Record BlockRequest := mkRequest {
  req_txs : list bytes; req_hash : bytes; req_height : Z; req_time : Z * Z; req_next_validators_hash : bytes; req_proposer_address : bytes;
}.
(** [ConsensusParams] of the protobuf messages: block size and gas, then age in
    blocks, age in seconds and size of evidence, key types and version. *)
Record RawParams := mkRaw {
  raw_block : option (Z * Z); raw_evidence : option (Z * option Z * Z); raw_validator : option (list string); raw_version : option Z;
}.
Record InitChainRequest := mkInitChain {
  ic_time : Z * Z; ic_chain_id : string; ic_params : option RawParams; ic_validators : list (bytes * Z); ic_app_state_bytes : bytes;
  ic_initial_height : Z;
}.
Inductive RawKey := RawEd25519 (key : bytes) | RawOther.
Record InitChainResponse := mkInitResp { ir_params : option RawParams; ir_validators : list (option RawKey * Z) }.
(** [ProcessProposalStatus::Accept as i32]. *)
Definition status_Accept : Z := 1.

(** ** [consensus/types.rs] *)

Record TimeoutInfo := mkTimeout { to_duration : Z; to_height : Z; to_round : Z; to_step : RoundStep }.

Record RoundState := mkRoundState {
  rs_height : Z; rs_round : Z; rs_step : RoundStep; start_time : WTime; commit_time : WTime; rs_validators : VSet;
  proposal : option Block; proposal_block : option Block; proposal_block_parts : option BlockId; rs_last_commit : option BlockId;
}.
Definition RoundState_new (height round : Z) (step : RoundStep) (start_time : WTime) (validators : VSet) : RoundState :=
  mkRoundState height round step start_time start_time validators None None None None.

(** [cometbft::consensus::State]. *)
Record State := mkState { state_height : Z; state_round : Z; state_step : Z; state_block_id : option BlockId }.

(** ** The trace *)

Inductive event :=
| ENow
| EInitChain (r : InitChainRequest)
| EPrepare (r : PrepareProposalRequest)
| EProcess (r : BlockRequest) (status : option Z)
| EFinalize (r : BlockRequest)
| ECommit
| ESpawn (t : TimeoutInfo)
| EReceive (t : TimeoutInfo).

Record NodeEnv := mkEnv {
  env_now : list event → WTime;
  env_clock : list event → Z;
  env_init_chain : list event → InitChainRequest → option InitChainResponse;
  env_prepare_proposal : list event → PrepareProposalRequest → option (list bytes);
  env_process_proposal : list event → BlockRequest → option Z;
  env_finalize_block : list event → BlockRequest → option ();
  env_commit : list event → option ();
}.

(** ** [consensus/state.rs] *)

Record ConsensusState := mkConsensusState {
  state : State;
  block_store : Database; block_store_state : BlockStoreState;
  state_store : Database;
  round_state : RoundState;
  config : Config;
  validator_key : option PrivValidatorKey;
  pending : list (Z * TimeoutInfo);
  trace : list event;
}.

Definition with_round_state (rs : RoundState) (cs : ConsensusState) : ConsensusState :=
  mkConsensusState (state cs) (block_store cs) (block_store_state cs) (state_store cs) rs (config cs) (validator_key cs)
    (pending cs) (trace cs).
Definition with_pending (p : list (Z * TimeoutInfo)) (cs : ConsensusState) : ConsensusState :=
  mkConsensusState (state cs) (block_store cs) (block_store_state cs) (state_store cs) (round_state cs) (config cs)
    (validator_key cs) p (trace cs).
Definition log (ev : event) (cs : ConsensusState) : ConsensusState :=
  mkConsensusState (state cs) (block_store cs) (block_store_state cs) (state_store cs) (round_state cs) (config cs)
    (validator_key cs) (pending cs) (ev :: trace cs).

(** Methods of [&mut self]: an early return keeps what was written. *)
Definition M (A : Type) : Type := ConsensusState → ConsensusState * res ConsensusError A.
#[global] Instance M_ret : MRet M := λ A a cs, (cs, Ok a).
#[global] Instance M_bind : MBind M := λ A B f m cs,
  match m cs with
  | (cs, Ok a) => f a cs
  | (cs, Err e) => (cs, Err e)
  | (cs, Panicked) => (cs, Panicked)
  end.
Definition get : M ConsensusState := λ cs, (cs, Ok cs).
Definition modify (f : ConsensusState → ConsensusState) : M () := λ cs, (f cs, Ok tt).
Definition set_round (f : RoundState → RoundState) : M () := modify (λ cs, with_round_state (f (round_state cs)) cs).
Definition lift {A} (r : res ConsensusError A) : M A := λ cs, (cs, r).
(** A request: logged, then answered. *)
Definition ask {A} (ev : list event → event) (answer : list event → option A) : M A := λ cs,
  match answer (trace cs) with
  | Some a => (log (ev (trace cs)) cs, Ok a)
  | None => (log (ev (trace cs)) cs, Err OtherError)
  end.

Section env.
Context (e : NodeEnv).

(** [Time::now]. *)
Definition now : M WTime := λ cs, (log ENow cs, Ok (env_now e (trace cs))).

Definition schedule_timeout (duration : Z) (step : RoundStep) : M () := modify (λ cs,
  let timeout := mkTimeout duration (rs_height (round_state cs)) (rs_round (round_state cs)) step in
  log (ESpawn timeout) (with_pending (pending cs ++ [(env_clock e (trace cs) + duration, timeout)]) cs)).

Definition new (state : State) (block_store : Database) (block_store_state : BlockStoreState) (state_store : Database)
    (config : Config) (validator_key : option PrivValidatorKey) : res ConsensusError ConsensusState :=
  match snd (Store_validators state_store) with
  | Ok validators =>
      Ok (mkConsensusState state block_store block_store_state state_store
            (RoundState_new (state_height state) (state_round state) NewHeight (env_now e []) validators) config validator_key [] [ENow])
  | _ => Panicked
  end.

Definition enter_new_height : M () :=
  cs ← get;
  new_height ← lift (unwrap (Height_increment (rs_height (round_state cs))));
  t ← now;
  set_round (λ rs, mkRoundState new_height Round_default NewHeight t (commit_time rs) (rs_validators rs) None None None (rs_last_commit rs));;
  schedule_timeout (timeout_commit (config cs)) NewHeight.

(** [self.block_store.last_block_id()?]. *)
Definition self_last_block_id : M (option BlockId) :=
  cs ← get; lift (res_map_err (λ _, OtherError) (snd (ChainStore_last_block_id (block_store_state cs) (block_store cs)))).

Definition create_block_header (h : Z) : M Header :=
  cs ← get;
  let validators := rs_validators (round_state cs) in
  proposer ← lift (ok_or OtherError (Set_proposer validators));
  last_block_id ← (if h =? state_height (state cs) then mret None else self_last_block_id);
  id ← lift (ok_or OtherError (ChainId_try_from (config_chain_id (config cs))));
  mret (mkHeader BLOCK_PROTOCOL_VERSION 1 id h (start_time (round_state cs)) last_block_id None None
          (Set_hash validators) (Set_hash validators) Hash_default AppHash_default None None (info_address proposer)).

Definition create_block (h : Z) : M Block :=
  header ← create_block_header h;
  last_commit ← (if h <=? 1 then mret None
                 else
                   id ← self_last_block_id;
                   mret (Some (mkCommit (uint32 (h - 1)) Round_default (default BlockId_default id) [])));
  lift (ok_or OtherError (Block_new header [] last_commit)).

Definition prepare_proposal (h : Z) : M Block :=
  cs ← get;
  lift (ok_or OtherError (Set_proposer (rs_validators (round_state cs))));;
  block ← create_block h;
  match validator_key cs with
  | Some k => lift (ok_or OtherError (sign_block k block))
  | None => mret block
  end.

Definition create_prepare_proposal_request (cs : ConsensusState) (block : Block) : PrepareProposalRequest :=
  mkPrepare (int64 (max_tx_bytes (config cs))) [] (int64 (height (header block))) (unix_timestamp (time (header block)), 0)
    (next_validators_hash (header block)) (proposer_address (header block)).

Definition update_block_with_prepare_proposal (block : Block) (txs : list bytes) : Block :=
  mkBlock (header block) txs (last_commit block).

Definition create_process_proposal_request (block : Block) : BlockRequest :=
  mkRequest (data block) (Header_hash (header block)) (int64 (height (header block))) (unix_timestamp (time (header block)), 0)
    (next_validators_hash (header block)) (proposer_address (header block)).
Definition create_finalize_block_request (block : Block) : BlockRequest :=
  mkRequest (data block) (Header_hash (header block)) (int64 (height (header block))) (unix_timestamp (time (header block)), 0)
    (next_validators_hash (header block)) (proposer_address (header block)).

Definition process_request (r : BlockRequest) : M Z :=
  ask (λ tr, EProcess r (env_process_proposal e tr r)) (λ tr, env_process_proposal e tr r).

Definition process_proposal (block : Block) : M bool :=
  status ← process_request (create_process_proposal_request block);
  mret (status =? status_Accept).

(** The store is not called: a print and a comment. *)
Definition self_save_block (block : Block) : M () := mret tt.

Definition commit_block (block : Block) : M () :=
  ask (λ _, EFinalize (create_finalize_block_request block)) (λ tr, env_finalize_block e tr (create_finalize_block_request block));;
  ask (λ _, ECommit) (env_commit e);;
  self_save_block block;;
  h ← lift (ok_or OtherError (Height_try_from (height (header block))));
  set_round (λ rs, mkRoundState h 0 NewHeight (start_time rs) (commit_time rs) (rs_validators rs) (proposal rs) None None (rs_last_commit rs)).

Definition create_proposal_block : M Block := cs ← get; prepare_proposal (rs_height (round_state cs)).

Definition create_and_sign_block : M Block :=
  block ← create_proposal_block;
  cs ← get;
  match validator_key cs with
  | Some k => lift (ok_or OtherError (sign_block k block))
  | None => mret block
  end.

Definition is_proposal_valid (cs : ConsensusState) (block : Block) : bool := height (header block) =? rs_height (round_state cs).

Definition enter_new_round (h round : Z) : M () :=
  t1 ← now;
  t2 ← now;
  set_round (λ rs, mkRoundState h round NewRound t1 t2 (rs_validators rs) None None None (rs_last_commit rs)).

Definition enter_propose (h round : Z) : M () :=
  cs ← get;
  if negb (h =? rs_height (round_state cs)) || negb (round =? rs_round (round_state cs)) then lift (Err (InvalidHeight h))
  else
    set_round (λ rs, mkRoundState (rs_height rs) (rs_round rs) Propose (start_time rs) (commit_time rs) (rs_validators rs)
                       (proposal rs) (proposal_block rs) (proposal_block_parts rs) (rs_last_commit rs));;
    block ← create_proposal_block;
    set_round (λ rs, mkRoundState (rs_height rs) (rs_round rs) (rs_step rs) (start_time rs) (commit_time rs) (rs_validators rs)
                       (proposal rs) (Some block) (proposal_block_parts rs) (rs_last_commit rs)).

(** The empty commit that the source builds is not used. *)
Definition enter_commit (h : Z) : M () :=
  cs ← get;
  if negb (h =? rs_height (round_state cs)) then lift (Err (InvalidHeight h))
  else
    set_round (λ rs, mkRoundState (rs_height rs) (rs_round rs) CommitStep (start_time rs) (commit_time rs) (rs_validators rs)
                       (proposal rs) (proposal_block rs) (proposal_block_parts rs) (rs_last_commit rs));;
    block ← lift (ok_or InvalidProposal (proposal_block (round_state cs)));
    self_save_block block;;
    t ← now;
    set_round (λ rs, mkRoundState (rs_height rs) (rs_round rs) (rs_step rs) (start_time rs) t (rs_validators rs)
                       (proposal rs) (proposal_block rs) (proposal_block_parts rs) (rs_last_commit rs)).

Definition handle_timeout (timeout : TimeoutInfo) : M () :=
  cs ← get;
  if negb (to_height timeout =? rs_height (round_state cs)) || negb (to_round timeout =? rs_round (round_state cs)) then mret tt
  else
    match to_step timeout with
    | NewHeight =>
        enter_new_round (to_height timeout) (to_round timeout);;
        enter_propose (to_height timeout) (to_round timeout);;
        schedule_timeout TIMEOUT_PROPOSE Propose
    | Propose =>
        block ← lift (ok_or InvalidProposal (proposal_block (round_state cs)));
        let req := create_prepare_proposal_request cs block in
        txs ← ask (λ _, EPrepare req) (λ tr, env_prepare_proposal e tr req);
        let block := update_block_with_prepare_proposal block txs in
        status ← process_request (create_process_proposal_request block);
        if status =? status_Accept then
          set_round (λ rs, mkRoundState (rs_height rs) (rs_round rs) (rs_step rs) (start_time rs) (commit_time rs) (rs_validators rs)
                             (proposal rs) (Some block) (proposal_block_parts rs) (rs_last_commit rs));;
          enter_commit (to_height timeout);;
          schedule_timeout TIMEOUT_COMMIT CommitStep
        else mret tt
    | CommitStep =>
        block ← lift (ok_or InvalidProposal (proposal_block (round_state cs)));
        commit_block block;;
        enter_new_height;;
        schedule_timeout TIMEOUT_NEW_HEIGHT NewHeight
    | NewRound => mret tt
    end.

(** One turn of [receive_routine]: the timer at index [i] is received. *)
Definition receive (i : nat) : M () :=
  cs ← get;
  match pending cs !! i with
  | None => mret tt
  | Some (_, timeout) =>
      modify (λ cs, log (EReceive timeout) (with_pending (delete i (pending cs)) cs));;
      handle_timeout timeout
  end.

(** [start] before its loop. *)
Definition start : M () := enter_new_height;; schedule_timeout TIMEOUT_NEW_HEIGHT NewHeight.

Definition create_init_chain_request : M InitChainRequest :=
  cs ← get;
  params ← lift (res_map_err (λ _, OtherError) (snd (Store_consensus_params (state_store cs))));
  let raw := mkRaw (Some (int64 (max_bytes params), max_gas params))
               (Some (int64 (max_age_num_blocks params), Some (int64 (as_secs (max_age_duration params))), evidence_max_bytes params))
               (Some (Algorithm_to_string <$> pub_key_types params)) (Some (default 0 (version_params_app params))) in
  mret (mkInitChain (time_into (start_time (round_state cs))) (config_chain_id (config cs)) (Some raw) [] []
          (int64 (state_height (state cs)))).

Definition init_chain (app_state_bytes : bytes) : M InitChainResponse :=
  r ← create_init_chain_request;
  let r := mkInitChain (ic_time r) (ic_chain_id r) (ic_params r) (ic_validators r) app_state_bytes (ic_initial_height r) in
  ask (λ _, EInitChain r) (λ tr, env_init_chain e tr r).

(** ** [cometbft.rs]

    [CometNode::init] once its files are read and its databases are open.
    The clones of the state store share one database, so the consensus state
    ends with the last writes. *)
Record GenesisDoc := mkGenesis { gen_chain_id : string; gen_initial_height : Z; gen_app_state : bytes; gen_params : Params }.

(** [Option::and_then]. *)
Definition and_then {A B} (o : option A) (f : A → option B) : option B := match o with Some a => f a | None => None end.

Definition params_of_response (p : option RawParams) : Params :=
  let block := and_then p raw_block in
  let evidence := and_then p raw_evidence in
  mkParams (uint64 (from_option fst 22020096 block)) (from_option snd (-1) block) 0
    (from_option (λ ev, uint64 (fst (fst ev))) 100000 evidence)
    (from_secs (from_option uint64 (48 * 3600) (and_then evidence (λ ev, snd (fst ev)))))
    (from_option snd 1048576 evidence)
    (from_option (λ ts, omap Algorithm_from_str ts) [Ed25519] (and_then p raw_validator))
    (Some (default 0 (and_then p raw_version)))
    None.

Definition validator_of_response (v : option RawKey * Z) : option Info :=
  match v with
  | (Some (RawEd25519 key), power) => pub_key ← from_raw_ed25519 key; power ← Power_try_from power; Some (Info_new pub_key power)
  | _ => None
  end.

(** [t1] and [t2] are the times that the two initial states are made at. *)
Definition init (cfg : Config) (genesis : GenesisDoc) (validator_key : PrivValidatorKey) (chain_db state_db : Database) (t1 t2 : WTime)
    : res Error ConsensusState :=
  let initial_height := uint32 (gen_initial_height genesis) in
  match ChainId_try_from (gen_chain_id genesis), Power_try_from 1 with
  | Some chain_id, Some power =>
      match save_initial_state chain_id t1 [Info_new (key_pub_key validator_key) power] (gen_params genesis) initial_height state_db with
      | (_, Err e) => Err e
      | (_, Panicked) => Panicked
      | (state_db, Ok _) =>
          match new (mkState 0 Round_default 0 None) chain_db ChainStore_new_state state_db cfg (Some validator_key) with
          | Err _ => Err Other
          | Panicked => Panicked
          | Ok cs =>
              match init_chain (gen_app_state genesis) cs with
              | (_, Err _) => Err Other
              | (_, Panicked) => Panicked
              | (cs, Ok resp) =>
                  match mapM validator_of_response (ir_validators resp) with
                  | None => Panicked
                  | Some validators =>
                      match save_initial_state chain_id t2 validators (params_of_response (ir_params resp)) 0 state_db with
                      | (_, Err e) => Err e
                      | (_, Panicked) => Panicked
                      | (state_db, Ok _) =>
                          Ok (mkConsensusState (state cs) (block_store cs) (block_store_state cs) state_db (round_state cs) (config cs)
                                (Some validator_key) (pending cs) (trace cs))
                      end
                  end
              end
          end
      end
  | _, _ => Err Other
  end.
End env.
End node.
