(* ===== verification/LocalNodeProofs.v ===== *)
(** * Turns and runs of the local node

    What each kind of turn of the loop does, the invariants of runs in which
    timers are received in any order or in the order of their deadlines, and
    the start of a node. *)
From S2P Require Import Prelude.
From S2P Require Import LocalChain.
From S2P Require Import LocalNode.
Open Scope Z_scope.

Section node.
Context `{CometRsData, !Json Block, !Json Z, !Json (option Commit), !Json BlockStoreState, !Json ChainState, !Json VSet,
          !Json ConsensusParamsInfo, !Json Params}.
Context `{!Keys, !CometRsLaws, !CometRsDataLaws}.
Context (e : NodeEnv).

(** ** The monad *)

Lemma M_bind_ok {A B} (m : M A) (f : A → M B) cs cs' b :
  (m ≫= f) cs = (cs', Ok b) → ∃ a cs1, m cs = (cs1, Ok a) ∧ f a cs1 = (cs', Ok b).
Proof. unfold mbind, M_bind. destruct (m cs) as [cs1 [a|err|]]; [eauto|done..]. Qed.

(** Split a successful bind. *)
Ltac m_split H a cs H1 := apply M_bind_ok in H as (a & cs & H1 & H).

Lemma ok_or_inv {E A} (err : E) (o : option A) a : ok_or err o = Ok a → o = Some a.
Proof. destruct o; simpl; congruence. Qed.
Lemma lift_inv {A} (r : res ConsensusError A) cs cs' a : lift r cs = (cs', Ok a) → cs' = cs ∧ r = Ok a.
Proof. unfold lift. intros [= <- ->]. done. Qed.

Lemma get_inv cs cs' a : get cs = (cs', Ok a) → cs' = cs ∧ a = cs.
Proof. unfold get. by intros [= <- <-]. Qed.
Lemma modify_inv f cs cs' u : modify f cs = (cs', Ok u) → cs' = f cs.
Proof. unfold modify. by intros [= <-]. Qed.
Lemma now_inv cs cs' t : now e cs = (cs', Ok t) → cs' = log ENow cs.
Proof. unfold now. by intros [= <- _]. Qed.
Lemma ret_inv {A} (a b : A) cs cs' : (mret a : M A) cs = (cs', Ok b) → cs' = cs.
Proof. unfold mret, M_ret. by intros [= <-]. Qed.
Lemma ask_inv {A} ev (answer : list event → option A) cs cs' a :
  ask ev answer cs = (cs', Ok a) → answer (trace cs) = Some a ∧ cs' = log (ev (trace cs)) cs.
Proof. unfold ask. destruct (answer (trace cs)); [|done]. by intros [= <- ->]. Qed.

(** ** Proposals *)

(** A block made at a height has that height, no transactions, and the
    header of a first block while the store of blocks is at height 0. *)
Lemma create_block_header_spec h cs cs' hd :
  create_block_header h cs = (cs', Ok hd) →
  cs' = cs ∧ height hd = h ∧ app_hash hd = AppHash_default ∧
  (store_height (block_store_state cs) = 0 → last_block_id hd = None).
Proof.
  unfold create_block_header. intros Hc. m_split Hc c1 cs1 Hg. injection Hg as <- <-.
  m_split Hc p cs1 Hp. apply lift_inv in Hp as [-> _].
  m_split Hc lid cs1 Hid. m_split Hc cid cs2 Hcid. apply lift_inv in Hcid as [-> _].
  injection Hc as <- <-. cbn [height app_hash last_block_id].
  assert (cs1 = cs ∧ (store_height (block_store_state cs) = 0 → lid = None)) as [-> Hlast]; [|done].
  destruct (h =? state_height (state cs)).
  { injection Hid as <- <-. done. }
  unfold self_last_block_id in Hid. m_split Hid c2 cs2 Hg. injection Hg as <- <-.
  apply lift_inv in Hid as [-> Hid]. split; [done|]. intros Hz. revert Hid.
  unfold ChainStore_last_block_id, last_block_hash. rewrite Hz. simpl. rewrite decide_True by done. simpl. congruence.
Qed.

Lemma create_block_spec h cs cs' b :
  create_block h cs = (cs', Ok b) →
  cs' = cs ∧ height (header b) = h ∧ data b = [] ∧ app_hash (header b) = AppHash_default ∧
  (store_height (block_store_state cs) = 0 → last_block_id (header b) = None).
Proof.
  unfold create_block. intros Hc. m_split Hc hdr cs1 Hh. apply create_block_header_spec in Hh as (-> & Hh & Ha & Hl).
  m_split Hc lc cs1 Hlc. assert (cs1 = cs) as ->.
  { destruct (h <=? 1); [by injection Hlc|]. m_split Hlc lid cs2 Hid. injection Hlc as <- _.
    unfold self_last_block_id in Hid. m_split Hid c2 cs3 Hg. injection Hg as <- <-. by apply lift_inv in Hid as [-> _]. }
  apply lift_inv in Hc as [-> Hb%ok_or_inv%block_new_fields]. by subst b.
Qed.

Lemma sign_block_spec k b b' : sign_block k b = Some b' → header b' = header b ∧ data b' = data b.
Proof. unfold sign_block. destruct (sign_proposal k _); [|done]. simpl. intros [= <-]. done. Qed.

Lemma create_proposal_block_spec cs cs' b :
  create_proposal_block cs = (cs', Ok b) →
  cs' = cs ∧ height (header b) = rs_height (round_state cs) ∧ data b = [] ∧ app_hash (header b) = AppHash_default ∧
  (store_height (block_store_state cs) = 0 → last_block_id (header b) = None).
Proof.
  unfold create_proposal_block, prepare_proposal. intros Hc. m_split Hc c cs1 Hg. injection Hg as <- <-.
  m_split Hc c cs1 Hg. injection Hg as <- <-. m_split Hc p cs1 Hp. apply lift_inv in Hp as [-> _].
  m_split Hc b0 cs1 Hb. apply create_block_spec in Hb as (-> & Hh & Hd & Ha & Hl).
  destruct (validator_key cs) as [k|].
  - apply lift_inv in Hc as [-> Hs%ok_or_inv]. apply sign_block_spec in Hs as [-> ->]. done.
  - injection Hc as <- <-. done.
Qed.

(** ** Turns *)

Definition live (cs : ConsensusState) (t : TimeoutInfo) : Prop :=
  to_height t = rs_height (round_state cs) ∧ to_round t = rs_round (round_state cs).
#[global] Instance live_dec cs t : Decision (live cs t).
Proof. unfold live. apply _. Defined.

(** What the other fields of the state are after a turn. *)
Definition same_fixed (cs cs' : ConsensusState) : Prop :=
  state cs' = state cs ∧ block_store cs' = block_store cs ∧ block_store_state cs' = block_store_state cs ∧
  config cs' = config cs ∧ validator_key cs' = validator_key cs ∧ rs_validators (round_state cs') = rs_validators (round_state cs).

(** The round state keeps its height and round and has this proposal. *)
Definition same_round (cs cs' : ConsensusState) (b : option Block) : Prop :=
  rs_height (round_state cs') = rs_height (round_state cs) ∧ rs_round (round_state cs') = rs_round (round_state cs) ∧
  proposal_block (round_state cs') = b.

Definition timer (d : Z) (h r : Z) (s : RoundStep) (tr : list event) : Z * TimeoutInfo := (env_clock e tr + d, mkTimeout d h r s).

(** The kinds of turns: [turn cs i t cs'] receives the timer [t] at [i]. *)
Inductive turn (cs : ConsensusState) (i : nat) (t : TimeoutInfo) (cs' : ConsensusState) : Prop :=
| turn_idle :
    ¬ live cs t ∨ to_step t = NewRound → same_fixed cs cs' → same_round cs cs' (proposal_block (round_state cs)) →
    pending cs' = delete i (pending cs) → trace cs' = EReceive t :: trace cs → turn cs i t cs'
| turn_new_height b tr :
    live cs t → to_step t = NewHeight → same_fixed cs cs' → same_round cs cs' (Some b) →
    tr = [ENow; ENow; EReceive t] ++ trace cs →
    height (header b) = to_height t → data b = [] → app_hash (header b) = AppHash_default →
    (store_height (block_store_state cs) = 0 → last_block_id (header b) = None) →
    pending cs' = delete i (pending cs) ++ [timer TIMEOUT_PROPOSE (to_height t) (to_round t) Propose tr] →
    trace cs' = ESpawn (mkTimeout TIMEOUT_PROPOSE (to_height t) (to_round t) Propose) :: tr → turn cs i t cs'
| turn_rejected b txs status :
    live cs t → to_step t = Propose → same_fixed cs cs' → same_round cs cs' (Some b) → proposal_block (round_state cs) = Some b →
    env_process_proposal e (EPrepare (create_prepare_proposal_request cs b) :: EReceive t :: trace cs)
      (create_process_proposal_request (update_block_with_prepare_proposal b txs)) = Some status → status ≠ status_Accept →
    pending cs' = delete i (pending cs) →
    trace cs' = EProcess (create_process_proposal_request (update_block_with_prepare_proposal b txs)) (Some status) ::
                EPrepare (create_prepare_proposal_request cs b) :: EReceive t :: trace cs → turn cs i t cs'
| turn_accepted b b' txs tr :
    live cs t → to_step t = Propose → same_fixed cs cs' → same_round cs cs' (Some b') → proposal_block (round_state cs) = Some b →
    b' = update_block_with_prepare_proposal b txs →
    env_process_proposal e (EPrepare (create_prepare_proposal_request cs b) :: EReceive t :: trace cs)
      (create_process_proposal_request b') = Some status_Accept →
    tr = [ENow; EProcess (create_process_proposal_request b') (Some status_Accept); EPrepare (create_prepare_proposal_request cs b);
          EReceive t] ++ trace cs →
    pending cs' = delete i (pending cs) ++ [timer TIMEOUT_COMMIT (to_height t) (to_round t) CommitStep tr] →
    trace cs' = ESpawn (mkTimeout TIMEOUT_COMMIT (to_height t) (to_round t) CommitStep) :: tr → turn cs i t cs'
| turn_commit b h tr1 tr2 :
    live cs t → to_step t = CommitStep → same_fixed cs cs' → proposal_block (round_state cs) = Some b →
    Height_try_from (height (header b)) = Some h → Height_increment h = Some (rs_height (round_state cs')) →
    rs_round (round_state cs') = Round_default → proposal_block (round_state cs') = None →
    tr1 = [ENow; ECommit; EFinalize (create_finalize_block_request b); EReceive t] ++ trace cs →
    tr2 = ESpawn (mkTimeout (timeout_commit (config cs)) (rs_height (round_state cs')) Round_default NewHeight) :: tr1 →
    pending cs' = delete i (pending cs) ++
                  [timer (timeout_commit (config cs)) (rs_height (round_state cs')) Round_default NewHeight tr1;
                   timer TIMEOUT_NEW_HEIGHT (rs_height (round_state cs')) Round_default NewHeight tr2] →
    trace cs' = ESpawn (mkTimeout TIMEOUT_NEW_HEIGHT (rs_height (round_state cs')) Round_default NewHeight) :: tr2 → turn cs i t cs'.

Lemma same_fixed_refl cs cs' :
  state cs' = state cs → block_store cs' = block_store cs → block_store_state cs' = block_store_state cs →
  config cs' = config cs → validator_key cs' = validator_key cs → rs_validators (round_state cs') = rs_validators (round_state cs) →
  same_fixed cs cs'.
Proof. by unfold same_fixed. Qed.

Lemma live_spec cs t :
  negb (to_height t =? rs_height (round_state cs)) || negb (to_round t =? rs_round (round_state cs)) = false ↔ live cs t.
Proof. unfold live. rewrite orb_false_iff, !negb_false_iff, !Z.eqb_eq. done. Qed.

Lemma turn_of_new_height i t cs cs1 cs' :
  cs1 = log (EReceive t) (with_pending (delete i (pending cs)) cs) → live cs t → to_step t = NewHeight →
  (enter_new_round e (to_height t) (to_round t);; enter_propose (to_height t) (to_round t);; schedule_timeout e TIMEOUT_PROPOSE Propose)
    cs1 = (cs', Ok tt) → turn cs i t cs'.
Proof.
  intros -> [Hlh Hlr] Hs Hr. m_split Hr u1 cs1 Hq. unfold enter_new_round in Hq.
  m_split Hq t1 cs2 Hw. apply now_inv in Hw. m_split Hq t2 cs3 Hw2. apply now_inv in Hw2. apply modify_inv in Hq.
  m_split Hr u2 cs4 Hp. unfold enter_propose in Hp. m_split Hp c cs5 Hg. apply get_inv in Hg as [-> ->].
  replace (negb _ || negb _) with false in Hp by (subst; cbn; by rewrite !Z.eqb_refl).
  m_split Hp u3 cs6 Hu. apply modify_inv in Hu.
  m_split Hp b cs7 Hb. apply create_proposal_block_spec in Hb as (-> & Hbh & Hbd & Hba & Hbl).
  apply modify_inv in Hp. apply modify_inv in Hr. subst. cbn in Hbh, Hbl.
  eapply (turn_new_height _ _ _ _ b); [done|done|by apply same_fixed_refl|done..].
Qed.

(** [enter_commit] changes the step and the commit time. *)
Lemma enter_commit_spec h cs cs' u :
  enter_commit e h cs = (cs', Ok u) →
  ∃ rs, cs' = log ENow (with_round_state rs cs) ∧ rs_height rs = rs_height (round_state cs) ∧
        rs_round rs = rs_round (round_state cs) ∧ rs_validators rs = rs_validators (round_state cs) ∧
        proposal_block rs = proposal_block (round_state cs).
Proof.
  unfold enter_commit. intros Hc. m_split Hc c cs6 Hg. apply get_inv in Hg as [-> ->]. destruct (negb _); [done|].
  m_split Hc u3 cs7 Hu7. apply modify_inv in Hu7. m_split Hc b2 cs8 Hb2. apply lift_inv in Hb2 as [-> _].
  m_split Hc u4 cs9 Hu9. apply ret_inv in Hu9. m_split Hc tn cs10 Hn. apply now_inv in Hn. apply modify_inv in Hc.
  subst. eexists. split; [reflexivity|]. done.
Qed.

Lemma turn_of_propose i t cs cs1 cs' :
  cs1 = log (EReceive t) (with_pending (delete i (pending cs)) cs) → live cs t → to_step t = Propose →
  (block ← lift (ok_or InvalidProposal (proposal_block (round_state cs1)));
   let req := create_prepare_proposal_request cs1 block in
   txs ← ask (λ _, EPrepare req) (λ tr, env_prepare_proposal e tr req);
   let block := update_block_with_prepare_proposal block txs in
   status ← process_request e (create_process_proposal_request block);
   if status =? status_Accept then
     set_round (λ rs, mkRoundState (rs_height rs) (rs_round rs) (rs_step rs) (start_time rs) (commit_time rs) (rs_validators rs)
                        (proposal rs) (Some block) (proposal_block_parts rs) (rs_last_commit rs));;
     enter_commit e (to_height t);;
     schedule_timeout e TIMEOUT_COMMIT CommitStep
   else mret tt) cs1 = (cs', Ok tt) → turn cs i t cs'.
Proof.
  intros -> [Hlh Hlr] Hs Hr. m_split Hr b cs1 Hb. apply lift_inv in Hb as [-> Hb%ok_or_inv]. cbn in Hb.
  m_split Hr txs cs2 Ht. apply ask_inv in Ht as [_ Ht].
  m_split Hr st cs3 Hst. unfold process_request in Hst. apply ask_inv in Hst as [Hans Hst]. rewrite Hans in Hst.
  rewrite Ht in Hans.
  destruct (Z.eqb_spec st status_Accept) as [Hacc|Hne]; [subst st|].
  - m_split Hr u1 cs4 Hu. apply modify_inv in Hu. m_split Hr u2 cs5 Hc.
    apply enter_commit_spec in Hc as (rs & Hc & Hrh & Hrr & Hrv & Hrb). apply modify_inv in Hr.
    rewrite Hu in Hrh, Hrr, Hrv, Hrb. rewrite Hst, Ht in Hrh, Hrr, Hrv. cbn in Hrh, Hrr, Hrv, Hrb. subst.
    eapply (turn_accepted _ _ _ _ b _ txs); [done|done|by apply same_fixed_refl|done|done|reflexivity|exact Hans|reflexivity| |];
      cbn; rewrite Hlh, Hlr, Hrh, Hrr; reflexivity.
  - apply ret_inv in Hr. subst. eapply turn_rejected; [done|done|by apply same_fixed_refl|done..].
Qed.

Lemma turn_of_commit i t cs cs1 cs' :
  cs1 = log (EReceive t) (with_pending (delete i (pending cs)) cs) → live cs t → to_step t = CommitStep →
  (block ← lift (ok_or InvalidProposal (proposal_block (round_state cs1)));
   commit_block e block;; enter_new_height e;; schedule_timeout e TIMEOUT_NEW_HEIGHT NewHeight) cs1 = (cs', Ok tt) → turn cs i t cs'.
Proof.
  intros -> Hl Hs Hr. m_split Hr b cs1 Hb. apply lift_inv in Hb as [-> Hb%ok_or_inv]. cbn in Hb.
  m_split Hr u1 cs2 Hu. unfold commit_block in Hu.
  m_split Hu u2 cs3 Hq. apply ask_inv in Hq as [_ Hq]. m_split Hu u3 cs4 Hw. apply ask_inv in Hw as [_ Hw].
  m_split Hu u4 cs5 Hv. apply ret_inv in Hv.
  m_split Hu h cs6 Hh. apply lift_inv in Hh as [-> Hh%ok_or_inv]. apply modify_inv in Hu.
  m_split Hr u5 cs7 Hn. unfold enter_new_height in Hn. m_split Hn c cs8 Hg. apply get_inv in Hg as [-> ->].
  m_split Hn h' cs9 Hh'. apply lift_inv in Hh' as [-> Hh'].
  destruct (Height_increment (rs_height (round_state cs2))) as [h2|] eqn:Hinc; [|done]. injection Hh' as ->.
  m_split Hn tn cs10 Ht. apply now_inv in Ht. m_split Hn u6 cs11 Hx. apply modify_inv in Hx.
  apply modify_inv in Hn. apply modify_inv in Hr. subst. cbn in Hinc.
  eapply (turn_commit _ _ _ _ b h); [done|done|by apply same_fixed_refl|done..| |done]. cbn. by rewrite <- app_assoc.
Qed.

Lemma receive_turn i d t cs cs' :
  pending cs !! i = Some (d, t) → receive e i cs = (cs', Ok tt) → turn cs i t cs'.
Proof.
  intros Hp Hr. unfold receive in Hr. m_split Hr c cs1 Hg. apply get_inv in Hg as [-> ->]. rewrite Hp in Hr.
  m_split Hr u cs1 Hm. apply modify_inv in Hm. unfold handle_timeout in Hr. m_split Hr c cs2 Hg. apply get_inv in Hg as [-> ->].
  replace (round_state cs1) with (round_state cs) in Hr by (by subst). destruct (negb _ || negb _) eqn:Hl.
  { apply ret_inv in Hr. subst. apply turn_idle; try done. left. rewrite <- live_spec. by rewrite Hl. }
  apply live_spec in Hl. destruct (to_step t) eqn:Hs.
  - by eapply turn_of_new_height.
  - apply ret_inv in Hr. subst. by apply turn_idle; [right|..].
  - eapply turn_of_propose; [done..|]. by subst.
  - eapply turn_of_commit; [done..|]. by subst.
Qed.

(** ** Runs *)

(** [turns sched n cs cs'] receives [n] timers, each at an index that [sched]
    allows for the timers that are pending. *)
Inductive turns (sched : list (Z * TimeoutInfo) → nat → Prop) : nat → ConsensusState → ConsensusState → Prop :=
| turns_O cs : turns sched 0 cs cs
| turns_S n i d t cs cs1 cs2 :
    turns sched n cs cs1 → pending cs1 !! i = Some (d, t) → sched (pending cs1) i → receive e i cs1 = (cs2, Ok tt) →
    turns sched (S n) cs cs2.

Definition any_order (p : list (Z * TimeoutInfo)) (i : nat) : Prop := True.
Definition by_deadline (p : list (Z * TimeoutInfo)) (i : nat) : Prop :=
  ∀ x j y, p !! i = Some x → p !! j = Some y → fst x ≤ fst y.

(** An invariant of the turns holds in every run. *)
Lemma turns_ind_inv sched (P : ConsensusState → Prop) n cs cs' :
  (∀ i d t c c', P c → pending c !! i = Some (d, t) → sched (pending c) i → turn c i t c' → P c') →
  P cs → turns sched n cs cs' → P cs'.
Proof. intros Hstep Hcs. induction 1 as [|n i d t c c1 c2 _ IH Hp Hs Hr]; [done|]. eauto using receive_turn. Qed.

Lemma start_spec cs cs' u :
  start e cs = (cs', Ok u) →
  ∃ h tr1 tr2, Height_increment (rs_height (round_state cs)) = Some h ∧ same_fixed cs cs' ∧
    rs_height (round_state cs') = h ∧ rs_round (round_state cs') = Round_default ∧ proposal_block (round_state cs') = None ∧
    tr1 = ENow :: trace cs ∧ tr2 = ESpawn (mkTimeout (timeout_commit (config cs)) h Round_default NewHeight) :: tr1 ∧
    pending cs' = pending cs ++ [timer (timeout_commit (config cs)) h Round_default NewHeight tr1;
                                 timer TIMEOUT_NEW_HEIGHT h Round_default NewHeight tr2] ∧
    trace cs' = ESpawn (mkTimeout TIMEOUT_NEW_HEIGHT h Round_default NewHeight) :: tr2.
Proof.
  unfold start, enter_new_height. intros Hr. m_split Hr u1 cs1 Hn. m_split Hn c cs8 Hg. apply get_inv in Hg as [-> ->].
  m_split Hn h' cs9 Hh'. apply lift_inv in Hh' as [-> Hh'].
  destruct (Height_increment (rs_height (round_state cs))) as [h2|] eqn:Hinc; [|done]. injection Hh' as ->.
  m_split Hn tn cs10 Ht. apply now_inv in Ht. m_split Hn u6 cs11 Hx. apply modify_inv in Hx.
  apply modify_inv in Hn. apply modify_inv in Hr. subst.
  exists h', (ENow :: trace cs). eexists. split_and!; try done. cbn. by rewrite <- app_assoc.
Qed.

(** ** The invariant of all runs *)

Definition is_finalize (ev : event) : option Z := match ev with EFinalize r => Some (req_height r) | _ => None end.
(** The heights of the finalized blocks, oldest first. *)
Definition finalized (tr : list event) : list Z := reverse (omap is_finalize tr).

Record node_inv (g : Z) (cs : ConsensusState) : Prop := mkNodeInv {
  ni_range : 0 ≤ g < rs_height (round_state cs) ∧ rs_height (round_state cs) ≤ MaxInt64;
  ni_round : rs_round (round_state cs) = Round_default;
  ni_pending : ∀ p, p ∈ pending cs → to_height (snd p) ≤ rs_height (round_state cs) ∧ to_round (snd p) = Round_default;
  ni_block : ∀ b, proposal_block (round_state cs) = Some b →
    height (header b) = rs_height (round_state cs) ∧ app_hash (header b) = AppHash_default ∧
    (store_height (block_store_state cs) = 0 → last_block_id (header b) = None);
  ni_proposal : ∀ p, p ∈ pending cs → live cs (snd p) → to_step (snd p) = Propose ∨ to_step (snd p) = CommitStep →
    is_Some (proposal_block (round_state cs));
  ni_finalized : finalized (trace cs) = seqZ (g + 1) (rs_height (round_state cs) - g - 1);
}.

Lemma finalized_cons ev tr : finalized (ev :: tr) = finalized tr ++ option_list (is_finalize ev).
Proof.
  unfold finalized. cbn [omap list_omap]. destruct (is_finalize ev); cbn [option_list]; [by rewrite reverse_cons|by rewrite app_nil_r].
Qed.

(** What is pending after a turn was pending before or is new. *)
Lemma pending_after {A} (l l' new : list A) i x : l' = delete i l ++ new → x ∈ l' → x ∈ l ∨ x ∈ new.
Proof. intros ->. rewrite elem_of_app. intros [Hx%list_elem_of_delete_inv|Hx]; auto. Qed.

(** A turn within a height keeps the invariant when it adds at most one timer
    of the height, the proposal stays or is a block of the height, and
    nothing is finalized. *)
Lemma node_inv_within g c c' i t new :
  node_inv g c → same_fixed c c' → rs_height (round_state c') = rs_height (round_state c) →
  rs_round (round_state c') = rs_round (round_state c) → pending c' = delete i (pending c) ++ new →
  (∀ p, p ∈ new → live c t ∧ to_height (snd p) = to_height t ∧ to_round (snd p) = to_round t) →
  (proposal_block (round_state c') = proposal_block (round_state c) ∧ new = [] ∨
   ∃ b, proposal_block (round_state c') = Some b ∧ height (header b) = rs_height (round_state c) ∧
     app_hash (header b) = AppHash_default ∧ (store_height (block_store_state c) = 0 → last_block_id (header b) = None)) →
  finalized (trace c') = finalized (trace c) → node_inv g c'.
Proof.
  intros [Hr Hro Hp Hb Hpr Hf] (_ & _ & Hst & _ & _ & _) Hh Hrd Hpe Hnew Hblk Htr. split.
  - by rewrite Hh.
  - by rewrite Hrd.
  - intros p Hin. rewrite Hh. destruct (pending_after _ _ _ _ _ Hpe Hin) as [Hin'|Hin']; [auto|].
    destruct (Hnew p Hin') as ([Hl1 Hl2] & -> & ->). rewrite Hl1, Hl2. split; [lia|done].
  - intros b Hbb. rewrite Hh, Hst. destruct Hblk as [[Heq _]|(b' & Hb' & Hrest)]; [apply Hb; by rewrite <- Heq|].
    rewrite Hb' in Hbb. injection Hbb as ->. done.
  - intros p Hin [Hl1 Hl2] Hstep. destruct Hblk as [[Heq Hnil]|(b' & Hb' & _)]; [|by rewrite Hb'].
    rewrite Heq. subst new. rewrite app_nil_r in Hpe. rewrite Hpe in Hin. apply list_elem_of_delete_inv in Hin.
    eapply Hpr; [done| |done]. unfold live. by rewrite <- Hh, <- Hrd.
  - by rewrite Htr, Hh.
Qed.

Lemma node_inv_commit g c c' i t b h d1 d2 tr :
  node_inv g c → same_fixed c c' → proposal_block (round_state c) = Some b →
  Height_try_from (height (header b)) = Some h → Height_increment h = Some (rs_height (round_state c')) →
  rs_round (round_state c') = Round_default → proposal_block (round_state c') = None →
  pending c' = delete i (pending c) ++ [(d1, mkTimeout t (rs_height (round_state c')) Round_default NewHeight);
                                        (d2, mkTimeout TIMEOUT_NEW_HEIGHT (rs_height (round_state c')) Round_default NewHeight)] →
  trace c' = tr → finalized tr = finalized (trace c) ++ [int64 (height (header b))] →
  rs_height (round_state c') = rs_height (round_state c) + 1 ∧ node_inv g c'.
Proof.
  intros [Hr Hro Hp Hb Hpr Hf] Hfix Hblk Htf Hinc Hrd Hnone Hpe <- Htr. destruct (Hb b Hblk) as (Hbh & _ & _).
  rewrite try_from_ok in Htf by lia. rewrite (proj2 (Z.leb_le _ _)) in Htf by lia. injection Htf as <-.
  rewrite increment_ok in Hinc by lia. destruct (Z.ltb_spec (height (header b)) MaxInt64) as [Hlt|]; [|done]. injection Hinc as Hinc.
  assert (rs_height (round_state c') = rs_height (round_state c) + 1) as Hh by lia. split; [done|]. split.
  - lia.
  - done.
  - intros p Hin. destruct (pending_after _ _ _ _ _ Hpe Hin) as [Hin'|Hin'].
    { destruct (Hp p Hin'). split; [lia|done]. }
    rewrite elem_of_cons, list_elem_of_singleton in Hin'. destruct Hin' as [-> | ->]; split; cbn; [lia|done|lia|done].
  - intros b'. by rewrite Hnone.
  - intros p Hin [Hl1 _] Hs. destruct (pending_after _ _ _ _ _ Hpe Hin) as [Hin'|Hin'].
    { destruct (Hp p Hin'). lia. }
    rewrite elem_of_cons, list_elem_of_singleton in Hin'. destruct Hin' as [-> | ->]; by destruct Hs.
  - rewrite Htr, Hf, Hbh, int64_id by ulia. rewrite Hh.
    replace (rs_height (round_state c) + 1 - g - 1) with ((rs_height (round_state c) - g - 1) + 1) by lia.
    rewrite seqZ_app by lia. f_equal. rewrite seqZ_cons by lia. f_equal. lia.
Qed.

Lemma node_inv_turn g c c' i d t :
  node_inv g c → pending c !! i = Some (d, t) → turn c i t c' → node_inv g c'.
Proof.
  intros Hinv Hi Ht. destruct Ht as [_ Hfix (Hh & Hrd & Hb) Hpe Htr|b tr Hl _ Hfix (Hh & Hrd & Hb) -> Hbh _ Hba Hbl Hpe Htr
    |b txs st Hl _ Hfix (Hh & Hrd & Hb) Hb0 _ _ Hpe Htr|b b' txs tr Hl _ Hfix (Hh & Hrd & Hb) Hb0 -> _ -> Hpe Htr
    |b h tr1 tr2 Hl _ Hfix Hb0 Htf Hinc Hrd Hnone -> -> Hpe Htr].
  - eapply (node_inv_within _ _ _ i t []); try done; [by rewrite app_nil_r|by intros p ?%elem_of_nil|by left|].
    by rewrite Htr, finalized_cons, app_nil_r.
  - eapply (node_inv_within _ _ _ i t); try done.
    + intros p ->%list_elem_of_singleton. done.
    + right. exists b. destruct Hl as [<- _]. done.
    + rewrite Htr. cbn [app]. rewrite !finalized_cons. cbn. by rewrite !app_nil_r.
  - eapply (node_inv_within _ _ _ i t []); try done; [by rewrite app_nil_r|by intros p ?%elem_of_nil|left; by rewrite Hb, Hb0|].
    by rewrite Htr, !finalized_cons, !app_nil_r.
  - eapply (node_inv_within _ _ _ i t); try done.
    + intros p ->%list_elem_of_singleton. done.
    + right. eexists. split; [done|]. by destruct (ni_block _ _ Hinv b Hb0).
    + rewrite Htr. cbn [app]. rewrite !finalized_cons. cbn. by rewrite !app_nil_r.
  - eapply node_inv_commit; try done. cbn [app]. rewrite !finalized_cons. cbn. by rewrite !app_nil_r.
Qed.

(** A node before [start]: at height [g], without timers or finalized blocks. *)
Definition fresh (g : Z) (cs : ConsensusState) : Prop :=
  0 ≤ g ∧ rs_height (round_state cs) = g ∧ pending cs = [] ∧ finalized (trace cs) = [].

Lemma node_inv_start g cs cs' u : fresh g cs → start e cs = (cs', Ok u) → node_inv g cs'.
Proof.
  intros (Hg & Hh0 & Hp0 & Hf0) Hs. apply start_spec in Hs as (h & tr1 & tr2 & Hinc & Hfix & Hh & Hrd & Hb & -> & -> & Hpe & Htr).
  rewrite Hh0, increment_ok in Hinc by done. destruct (Z.ltb_spec g MaxInt64); [|done]. injection Hinc as <-.
  rewrite Hp0 in Hpe. cbn [app] in Hpe.
  assert (∀ p, p ∈ pending cs' → to_height (snd p) = g + 1 ∧ to_round (snd p) = Round_default ∧ to_step (snd p) = NewHeight) as Hall.
  { intros p. rewrite Hpe, elem_of_cons, list_elem_of_singleton. by intros [-> | ->]. }
  split; rewrite ?Hh.
  - lia.
  - done.
  - intros p Hin. destruct (Hall p Hin) as (-> & -> & _). split; [lia|done].
  - intros b. by rewrite Hb.
  - intros p Hin _ Hst. destruct (Hall p Hin) as (_ & _ & Hn). rewrite Hn in Hst. by destruct Hst.
  - rewrite Htr, !finalized_cons, Hf0. cbn. replace (g + 1 - g - 1) with 0 by lia. done.
Qed.

(** ** Counting turns

    A turn of a timer of the height puts at most one later timer in its
    place; only a commit makes two new ones. *)
Definition weight (cs : ConsensusState) (p : Z * TimeoutInfo) : Z :=
  if decide (live cs (snd p)) then
    match to_step (snd p) with NewHeight => 4 | Propose => 3 | CommitStep => 2 | NewRound => 1 end
  else 1.
Definition weights (cs : ConsensusState) : Z := zsum (weight cs) (pending cs).

Lemma weight_pos cs p : 1 ≤ weight cs p ≤ 4.
Proof. unfold weight. case_decide; [|lia]. destruct (to_step (snd p)); lia. Qed.

Lemma weight_same c c' p : rs_height (round_state c') = rs_height (round_state c) → rs_round (round_state c') = rs_round (round_state c) →
  weight c' p = weight c p.
Proof. intros Hh Hr. unfold weight. apply decide_ext; unfold live; by rewrite Hh, Hr. Qed.

Lemma weights_within g c c' i d t new :
  node_inv g c → pending c !! i = Some (d, t) → rs_height (round_state c') = rs_height (round_state c) →
  rs_round (round_state c') = rs_round (round_state c) → pending c' = delete i (pending c) ++ new →
  zsum (weight c) new < weight c (d, t) → weights c' + 1 ≤ weights c.
Proof.
  intros Hinv Hi Hh Hr Hpe Hw. unfold weights. rewrite Hpe, zsum_app.
  rewrite !(zsum_ext_in (weight c') (weight c)) by (intros; by apply weight_same). rewrite (zsum_delete _ _ _ _ Hi). lia.
Qed.

Lemma weights_commit g c c' i d t n1 n2 :
  node_inv g c → pending c !! i = Some (d, t) → live c t → to_step t = CommitStep →
  rs_height (round_state c') = rs_height (round_state c) + 1 → pending c' = delete i (pending c) ++ [n1; n2] →
  weights c' ≤ weights c + 6.
Proof.
  intros Hinv Hi Hl Hs Hh Hpe. unfold weights. rewrite Hpe, zsum_app, !zsum_cons, zsum_nil.
  assert (zsum (weight c') (delete i (pending c)) ≤ zsum (weight c) (delete i (pending c))) as Hle.
  { apply zsum_le. intros p Hp%list_elem_of_delete_inv. apply (ni_pending _ _ Hinv) in Hp as [Hp _].
    pose proof (weight_pos c p). unfold weight at 1. rewrite decide_False; [lia|]. intros [Hl1 _]. lia. }
  rewrite (zsum_delete (weight c) _ _ _ Hi) in Hle. pose proof (weight_pos c' n1). pose proof (weight_pos c' n2).
  assert (weight c (d, t) = 2) as Hw by (unfold weight; cbn [snd]; by rewrite decide_True, Hs). lia.
Qed.

Lemma weights_turn g c c' i d t :
  node_inv g c → pending c !! i = Some (d, t) → turn c i t c' →
  rs_height (round_state c') = rs_height (round_state c) ∧ weights c' + 1 ≤ weights c ∨
  rs_height (round_state c') = rs_height (round_state c) + 1 ∧ weights c' ≤ weights c + 6 ∧ live c t ∧ to_step t = CommitStep.
Proof.
  intros Hinv Hi Ht. pose proof (weight_pos c (d, t)).
  destruct Ht as [_ Hfix (Hh & Hrd & _) Hpe _|b tr Hl Hs Hfix (Hh & Hrd & _) _ _ _ _ _ Hpe _
    |b txs st Hl Hs Hfix (Hh & Hrd & _) _ _ _ Hpe _|b b' txs tr Hl Hs Hfix (Hh & Hrd & _) _ _ _ _ Hpe _
    |b h tr1 tr2 Hl Hs Hfix Hb0 Htf Hinc Hrd Hnone -> -> Hpe Htr].
  - left. split; [done|]. eapply (weights_within g _ _ _ _ _ []); try done; [by rewrite app_nil_r|]. rewrite zsum_nil. lia.
  - left. split; [done|]. eapply weights_within; try done. rewrite zsum_cons, zsum_nil. unfold weight. cbn [snd timer].
    rewrite !decide_True, Hs by done. cbn. lia.
  - left. split; [done|]. eapply (weights_within g _ _ _ _ _ []); try done; [by rewrite app_nil_r|]. rewrite zsum_nil. lia.
  - left. split; [done|]. eapply weights_within; try done. rewrite zsum_cons, zsum_nil. unfold weight. cbn [snd timer].
    rewrite !decide_True, Hs by done. cbn. lia.
  - right. assert (rs_height (round_state c') = rs_height (round_state c) + 1) as Hh.
    { eapply node_inv_commit; try done. cbn [app]. rewrite !finalized_cons. cbn. by rewrite !app_nil_r. }
    split_and!; try done. by eapply weights_commit.
Qed.

(** Only commits let a run go on. *)
Lemma turns_bound g sched n c c' :
  node_inv g c → turns sched n c c' →
  node_inv g c' ∧ Z.of_nat n + weights c' ≤ weights c + 7 * (rs_height (round_state c') - rs_height (round_state c)).
Proof.
  intros Hinv. induction 1 as [|n i d t c c1 c2 _ IH Hp Hs Hr]; [split; [done|lia]|].
  destruct (IH Hinv) as [Hinv1 Hb]. apply (receive_turn _ _ _ _ _ Hp) in Hr. split; [by eapply node_inv_turn|].
  destruct (weights_turn _ _ _ _ _ _ Hinv1 Hp Hr) as [[-> Hw]|(-> & Hw & _)]; lia.
Qed.

Lemma weights_start g cs cs' u : fresh g cs → start e cs = (cs', Ok u) → weights cs' = 8.
Proof.
  intros (Hg & Hh0 & Hp0 & Hf0) Hs. apply start_spec in Hs as (h & tr1 & tr2 & Hinc & Hfix & Hh & Hrd & Hb & -> & -> & Hpe & Htr).
  rewrite Hp0 in Hpe. cbn [app] in Hpe. unfold weights. rewrite Hpe, !zsum_cons, zsum_nil. unfold weight. cbn [snd timer].
  rewrite !decide_True by (split; cbn; congruence). done.
Qed.

(** ** Runs in the order of the deadlines *)

(** The clock of the timers does not go back. *)
Definition clock_ok : Prop := ∀ ev tr, env_clock e tr ≤ env_clock e (ev :: tr).

(** Every finalized block was accepted before. *)
Fixpoint accepted_first (tr : list event) : Prop :=
  match tr with
  | [] => True
  | ev :: tr => match ev with EFinalize r => EProcess r (Some status_Accept) ∈ tr | _ => True end ∧ accepted_first tr
  end.

Definition waits (cs : ConsensusState) (s : RoundStep) (p : Z * TimeoutInfo) : Prop :=
  p ∈ pending cs ∧ live cs (snd p) ∧ to_step (snd p) = s.

Record ordered_inv (cs : ConsensusState) : Prop := mkOrderedInv {
  oi_config : timeout_commit (config cs) < TIMEOUT_PROPOSE;
  oi_early : ∀ p, waits cs NewHeight p → fst p < env_clock e (trace cs) + TIMEOUT_PROPOSE;
  oi_before : ∀ p q, waits cs NewHeight p → waits cs Propose q → fst p < fst q;
  oi_commit : ∀ q, waits cs CommitStep q →
    (∀ p, ¬ waits cs NewHeight p) ∧
    ∃ b, proposal_block (round_state cs) = Some b ∧ EProcess (create_process_proposal_request b) (Some status_Accept) ∈ trace cs;
  oi_accepted : accepted_first (trace cs);
}.

Lemma clock_app tr tr' : clock_ok → env_clock e tr ≤ env_clock e (tr' ++ tr).
Proof. intros Hc. induction tr' as [|ev tr' IH]; [done|]. cbn [app]. specialize (Hc ev (tr' ++ tr)). lia. Qed.

(** What waits after a turn within the height waited before or is new. *)
Lemma waits_within c c' i t new s p :
  rs_height (round_state c') = rs_height (round_state c) → rs_round (round_state c') = rs_round (round_state c) →
  pending c' = delete i (pending c) ++ new → (∀ q, q ∈ new → to_step (snd q) = t) →
  waits c' s p → waits c s p ∨ p ∈ new ∧ s = t.
Proof.
  intros Hh Hr Hpe Hnew (Hin & Hl & Hs). destruct (pending_after _ _ _ _ _ Hpe Hin) as [Hin'|Hin'].
  - left. split; [done|]. split; [|done]. unfold live. by rewrite <- Hh, <- Hr.
  - right. split; [done|]. rewrite <- Hs. by apply Hnew.
Qed.

Lemma ordered_inv_fewer c c' i tr :
  clock_ok → ordered_inv c → same_fixed c c' → same_round c c' (proposal_block (round_state c)) →
  pending c' = delete i (pending c) → trace c' = tr ++ trace c → accepted_first (trace c') → ordered_inv c'.
Proof.
  intros Hclk [Ho1 Ho2 Ho3 Ho4 Ho5] (_ & _ & _ & Hcf & _) (Hh & Hr & Hb) Hpe Htr Hacc.
  assert (∀ s p, waits c' s p → waits c s p) as Hw.
  { intros s p Hp. apply (waits_within c c' i NewRound [] s p) in Hp as [?|[?%elem_of_nil _]]; try done.
    - by rewrite app_nil_r.
    - by intros q ?%elem_of_nil. }
  split.
  - by rewrite Hcf.
  - intros p Hp%Hw%Ho2. pose proof (clock_app (trace c) tr Hclk). rewrite Htr. lia.
  - intros p q Hp%Hw Hq%Hw. auto.
  - intros q Hq%Hw. destruct (Ho4 q Hq) as (Hno & b & Hbb & Hin). split; [by intros p Hp%Hw%Hno|].
    exists b. rewrite Hb, Htr, elem_of_app. auto.
  - done.
Qed.

(** At the start of a height only its two timers wait. *)
Lemma ordered_inv_height c' tc h tr1 s1 s2 :
  clock_ok → timeout_commit (config c') = tc → tc < TIMEOUT_PROPOSE → trace c' = s2 :: s1 :: tr1 → accepted_first (trace c') →
  (∀ s p, waits c' s p → p ∈ [timer tc h Round_default NewHeight tr1; timer TIMEOUT_NEW_HEIGHT h Round_default NewHeight (s1 :: tr1)]) →
  ordered_inv c'.
Proof.
  intros Hclk Hcf Htc Htr Hacc Hall.
  assert (∀ s p, waits c' s p → s = NewHeight ∧ fst p < env_clock e (trace c') + TIMEOUT_PROPOSE) as Hw.
  { intros s p Hp. pose proof (Hall s p Hp) as Hin. destruct Hp as (_ & _ & Hps). rewrite elem_of_cons, list_elem_of_singleton in Hin.
    rewrite Htr. pose proof (Hclk s1 tr1). pose proof (Hclk s2 (s1 :: tr1)).
    assert (TIMEOUT_NEW_HEIGHT < TIMEOUT_PROPOSE) by (unfold TIMEOUT_NEW_HEIGHT, TIMEOUT_PROPOSE, from_millis, from_secs; lia).
    destruct Hin as [-> | ->]; (split; [by rewrite <- Hps|]); cbn [timer fst]; lia. }
  split.
  - by rewrite Hcf.
  - intros p [_ Hp]%Hw. done.
  - intros p q _ [Hq _]%Hw. done.
  - intros q [Hq _]%Hw. done.
  - done.
Qed.

(** After a timer of the height was received, the proposal replaces no
    accepted block and its timer is the last one. *)
Lemma ordered_inv_propose c c' i d t b tr :
  clock_ok → ordered_inv c → pending c !! i = Some (d, t) → live c t → to_step t = NewHeight → same_fixed c c' →
  same_round c c' (Some b) → tr = [ENow; ENow; EReceive t] ++ trace c →
  pending c' = delete i (pending c) ++ [timer TIMEOUT_PROPOSE (to_height t) (to_round t) Propose tr] →
  trace c' = ESpawn (mkTimeout TIMEOUT_PROPOSE (to_height t) (to_round t) Propose) :: tr → ordered_inv c'.
Proof.
  intros Hclk [Ho1 Ho2 Ho3 Ho4 Ho5] Hi Hl Hs Hfix (Hh & Hrd & Hb) -> Hpe Htr.
  assert (waits c NewHeight (d, t)) as Hwt by (split; [by eapply list_elem_of_lookup_2|done]).
  pose proof (clock_app (trace c) [ENow; ENow; EReceive t] Hclk) as Hck. set (tr := [ENow; ENow; EReceive t] ++ trace c) in *.
  assert (∀ s p, waits c' s p → waits c s p ∨ p = timer TIMEOUT_PROPOSE (to_height t) (to_round t) Propose tr ∧ s = Propose) as Hw.
  { intros s p Hp. eapply waits_within in Hp as [?|[?%list_elem_of_singleton ?]]; eauto. by intros q ->%list_elem_of_singleton. }
  split.
  - by destruct Hfix as (_ & _ & _ & -> & _).
  - intros p [Hp|[_ ?]]%Hw; [|done]. apply Ho2 in Hp. rewrite Htr.
    pose proof (Hclk (ESpawn (mkTimeout TIMEOUT_PROPOSE (to_height t) (to_round t) Propose)) tr). lia.
  - intros p q [Hp|[_ ?]]%Hw Hq; [|done]. apply Hw in Hq as [Hq|[-> _]]; [auto|]. apply Ho2 in Hp. cbn [timer fst]. lia.
  - intros q [Hq|[_ ?]]%Hw; [|done]. destruct (Ho4 q Hq) as [Hno _]. by destruct (Hno _ Hwt).
  - by rewrite Htr.
Qed.

(** When the timer of a proposal comes first, no timer of the new height is
    left to replace the accepted block. *)
Lemma ordered_inv_accepted c c' i d t b tr :
  ordered_inv c → pending c !! i = Some (d, t) → by_deadline (pending c) i → live c t → to_step t = Propose → same_fixed c c' →
  same_round c c' (Some b) → EProcess (create_process_proposal_request b) (Some status_Accept) ∈ trace c' →
  pending c' = delete i (pending c) ++ [timer TIMEOUT_COMMIT (to_height t) (to_round t) CommitStep tr] →
  accepted_first (trace c') → ordered_inv c'.
Proof.
  intros [Ho1 Ho2 Ho3 Ho4 Ho5] Hi Hmin Hl Hs Hfix (Hh & Hrd & Hb) Hacc Hpe Htr.
  assert (∀ p, ¬ waits c NewHeight p) as Hno.
  { intros p Hp. assert (waits c Propose (d, t)) as Hwt by (split; [by eapply list_elem_of_lookup_2|done]).
    specialize (Ho3 p (d, t) Hp Hwt). destruct Hp as (Hp & _). apply list_elem_of_lookup in Hp as [j Hj].
    specialize (Hmin _ j _ Hi Hj). lia. }
  assert (∀ p, ¬ waits c' NewHeight p) as Hno'.
  { intros p Hp. eapply (waits_within c c' i CommitStep) in Hp as [?%Hno|[_ ?]]; try done. by intros q ->%list_elem_of_singleton. }
  split.
  - by destruct Hfix as (_ & _ & _ & -> & _).
  - intros p Hp. by destruct (Hno' p).
  - intros p q Hp. by destruct (Hno' p).
  - intros q _. split; [done|]. by exists b.
  - done.
Qed.

Lemma ordered_inv_turn g c c' i d t :
  clock_ok → node_inv g c → ordered_inv c → pending c !! i = Some (d, t) → by_deadline (pending c) i → turn c i t c' → ordered_inv c'.
Proof.
  intros Hclk Hinv Hoi Hi Hmin Ht. pose proof Hoi as [Ho1 _ _ Ho4 Ho5]. pose proof (list_elem_of_lookup_2 _ _ _ Hi) as Hin.
  destruct Ht as [_ Hfix Hsr Hpe Htr|b tr Hl Hs Hfix Hsr Heq _ _ _ _ Hpe Htr
    |b txs st Hl Hs Hfix (Hh & Hrd & Hb) Hb0 _ _ Hpe Htr|b b' txs tr Hl Hs Hfix Hsr Hb0 -> _ -> Hpe Htr
    |b h tr1 tr2 Hl Hs Hfix Hb0 Htf Hinc Hrd Hnone -> -> Hpe Htr].
  - eapply (ordered_inv_fewer c c' i [_]); try done. by rewrite Htr.
  - by eapply (ordered_inv_propose c c' i d t b tr).
  - eapply (ordered_inv_fewer c c' i [_; _; _]); [done..| |exact Hpe|exact Htr|by rewrite Htr]. unfold same_round. by rewrite Hb0.
  - eapply ordered_inv_accepted; try done; rewrite Htr; [|done]. cbn [app]. do 2 right. by left.
  - assert (rs_height (round_state c') = rs_height (round_state c) + 1) as Hh.
    { eapply node_inv_commit; try done. cbn [app]. rewrite !finalized_cons. cbn. by rewrite !app_nil_r. }
    pose proof Hfix as (_ & _ & _ & Hcf & _). eapply ordered_inv_height; [done|by rewrite Hcf|done|exact Htr| |].
    + rewrite Htr. cbn [app accepted_first]. split_and!; try done.
      destruct (Ho4 (d, t)) as (_ & b2 & Hb2 & Hacc); [done|]. rewrite Hb0 in Hb2. injection Hb2 as <-. right. done.
    + intros s p (Hp & [Hl1 _] & Hps). destruct (pending_after _ _ _ _ _ Hpe Hp) as [Hp'|Hp']; [|exact Hp'].
      apply (ni_pending _ _ Hinv) in Hp' as [Hp' _]. lia.
Qed.

Lemma ordered_inv_start g cs cs' u :
  clock_ok → fresh g cs → timeout_commit (config cs) < TIMEOUT_PROPOSE → accepted_first (trace cs) →
  start e cs = (cs', Ok u) → ordered_inv cs'.
Proof.
  intros Hclk (Hg & Hh0 & Hp0 & Hf0) Htc Hacc Hs.
  apply start_spec in Hs as (h & tr1 & tr2 & Hinc & Hfix & Hh & Hrd & Hb & -> & -> & Hpe & Htr). rewrite Hp0 in Hpe. cbn [app] in Hpe.
  destruct Hfix as (_ & _ & _ & Hcf & _). eapply ordered_inv_height; [done|by rewrite Hcf|done|exact Htr|by rewrite Htr|].
  intros s p (Hp & _). rewrite Hpe in Hp. exact Hp.
Qed.

(** ** Turns that return *)

(** The application answers everything and accepts every proposal. *)
Definition accepting : Prop :=
  (∀ tr r, is_Some (env_prepare_proposal e tr r)) ∧ (∀ tr r, env_process_proposal e tr r = Some status_Accept) ∧
  (∀ tr r, is_Some (env_finalize_block e tr r)) ∧ (∀ tr, is_Some (env_commit e tr)).

(** The node can make blocks: it has a proposer and a valid chain id, its key
    signs, and the crate takes blocks whose last commit is missing exactly at
    the first height. *)
Record able (cs : ConsensusState) : Prop := mkAble {
  able_proposer : is_Some (Set_proposer (rs_validators (round_state cs)));
  able_chain : is_Some (ChainId_try_from (config_chain_id (config cs)));
  able_key : ∀ k b, validator_key cs = Some k → is_Some (sign_block k b);
  able_store : store_height (block_store_state cs) = 0;
}.
Definition blocks_allowed : Prop := ∀ hdr d c, (c = None ↔ height hdr = 1) → is_Some (Block_new hdr d c).

Lemma self_last_block_id_total cs :
  store_height (block_store_state cs) = 0 → self_last_block_id cs = (cs, Ok None).
Proof.
  intros Hz. unfold self_last_block_id, mbind, M_bind, get, lift. do 2 f_equal.
  unfold ChainStore_last_block_id, last_block_hash, mbind, DB_bind. rewrite Hz. cbn. by rewrite decide_True.
Qed.

Lemma create_proposal_block_total cs :
  blocks_allowed → able cs → 1 ≤ rs_height (round_state cs) → ∃ b, create_proposal_block cs = (cs, Ok b).
Proof.
  intros Hba [[p Hp] [id Hid] Hk Hst] Hpos.
  assert (∃ hdr, create_block_header (rs_height (round_state cs)) cs = (cs, Ok hdr) ∧ height hdr = rs_height (round_state cs)) as (hdr & Hh & Hhh).
  { unfold create_block_header, mbind, M_bind, get, lift. rewrite Hp. cbn [ok_or].
    destruct (_ =? _); [|rewrite self_last_block_id_total by done]; cbn; rewrite Hid; cbn; eauto. }
  assert (∃ b, create_block (rs_height (round_state cs)) cs = (cs, Ok b)) as (b & Hb).
  { unfold create_block, mbind, M_bind. rewrite Hh. destruct (Z.leb_spec (rs_height (round_state cs)) 1) as [Hle|Hle].
    - destruct (Hba hdr [] None) as [b Hb]; [split; [lia|done]|]. exists b. cbn. unfold lift. by rewrite Hb.
    - rewrite self_last_block_id_total by done. cbn. unfold lift.
      match goal with |- context [Block_new hdr [] ?c] => destruct (Hba hdr [] c) as [b Hb] end; [split; [done|lia]|].
      exists b. by rewrite Hb. }
  unfold create_proposal_block, prepare_proposal, mbind, M_bind, get, lift. cbn [round_state]. rewrite Hp. cbn [ok_or]. rewrite Hb.
  destruct (validator_key cs) as [k|] eqn:Hkk; [|eauto]. destruct (Hk k b eq_refl) as [b' ->]. cbn. eauto.
Qed.

Lemma able_same c c' : same_fixed c c' → able c → able c'.
Proof.
  intros (Hs & _ & Hst & Hc & Hk & Hv) [H1' H2' H3' H4']. split; [by rewrite Hv|by rewrite Hc|by rewrite Hk|by rewrite Hst].
Qed.

Lemma bind_run {A B} (m : M A) (f : A → M B) cs cs1 a : m cs = (cs1, Ok a) → (m ≫= f) cs = f a cs1.
Proof. unfold mbind, M_bind. by intros ->. Qed.
Lemma ask_run {A} ev (answer : list event → option A) cs a :
  answer (trace cs) = Some a → ask ev answer cs = (log (ev (trace cs)) cs, Ok a).
Proof. unfold ask. by intros ->. Qed.

Lemma run_new_height c t :
  blocks_allowed → able c → 1 ≤ to_height t →
  ∃ c', (enter_new_round e (to_height t) (to_round t);; enter_propose (to_height t) (to_round t);;
         schedule_timeout e TIMEOUT_PROPOSE Propose) c = (c', Ok tt).
Proof.
  intros Hba Hab Hpos. unfold enter_new_round, enter_propose. erewrite bind_run; [|reflexivity].
  set (c1 := with_round_state _ _).
  assert (∃ c2, enter_propose (to_height t) (to_round t) c1 = (c2, Ok tt)) as [c2 Hc2].
  { unfold enter_propose. erewrite bind_run; [|reflexivity]. cbn [c1 round_state with_round_state rs_height rs_round].
    rewrite !Z.eqb_refl. cbn [negb orb]. erewrite bind_run; [|reflexivity].
    match goal with |- ∃ c2, (create_proposal_block ≫= _) ?c3 = _ => destruct (create_proposal_block_total c3 Hba) as [b Hb] end.
    { eapply able_same; [|exact Hab]. by apply same_fixed_refl. }
    { exact Hpos. }
    erewrite bind_run; [|exact Hb]. eexists. reflexivity. }
  unfold enter_propose in Hc2. erewrite bind_run; [|exact Hc2]. eexists. reflexivity.
Qed.

Lemma run_propose c t :
  accepting → live c t → is_Some (proposal_block (round_state c)) →
  ∃ c', (block ← lift (ok_or InvalidProposal (proposal_block (round_state c)));
         let req := create_prepare_proposal_request c block in
         txs ← ask (λ _, EPrepare req) (λ tr, env_prepare_proposal e tr req);
         let block := update_block_with_prepare_proposal block txs in
         status ← process_request e (create_process_proposal_request block);
         if status =? status_Accept then
           set_round (λ rs, mkRoundState (rs_height rs) (rs_round rs) (rs_step rs) (start_time rs) (commit_time rs) (rs_validators rs)
                              (proposal rs) (Some block) (proposal_block_parts rs) (rs_last_commit rs));;
           enter_commit e (to_height t);;
           schedule_timeout e TIMEOUT_COMMIT CommitStep
         else mret tt) c = (c', Ok tt).
Proof.
  intros (Hpre & Hproc & _ & _) [Hlh _] [b Hb]. rewrite Hb. cbn [ok_or]. erewrite bind_run; [|reflexivity]. cbv zeta.
  destruct (Hpre (trace c) (create_prepare_proposal_request c b)) as [txs Htxs].
  erewrite bind_run; [|by apply ask_run]. unfold process_request. erewrite bind_run; [|apply ask_run, Hproc].
  rewrite Z.eqb_refl. erewrite bind_run; [|reflexivity]. set (c1 := with_round_state _ _).
  assert (∃ c2, enter_commit e (to_height t) c1 = (c2, Ok tt)) as [c2 Hc2].
  { unfold enter_commit. erewrite bind_run; [|reflexivity]. cbn [c1 round_state with_round_state rs_height log proposal_block ok_or].
    rewrite Hlh, Z.eqb_refl. cbn [negb]. erewrite bind_run; [|reflexivity]. erewrite bind_run; [|reflexivity].
    erewrite bind_run; [|reflexivity]. erewrite bind_run; [|reflexivity]. eexists. reflexivity. }
  erewrite bind_run; [|exact Hc2]. eexists. reflexivity.
Qed.

Lemma run_commit g c :
  accepting → node_inv g c → rs_height (round_state c) < MaxInt64 → is_Some (proposal_block (round_state c)) →
  ∃ c', (block ← lift (ok_or InvalidProposal (proposal_block (round_state c)));
         commit_block e block;; enter_new_height e;; schedule_timeout e TIMEOUT_NEW_HEIGHT NewHeight) c = (c', Ok tt).
Proof.
  intros (_ & _ & Hfin & Hcom) Hinv Hlt [b Hb]. rewrite Hb. cbn [ok_or]. erewrite bind_run; [|reflexivity].
  destruct (ni_range _ _ Hinv). destruct (ni_block _ _ Hinv b Hb) as (Hbh & _).
  assert (∃ c1, commit_block e b c = (c1, Ok tt) ∧ rs_height (round_state c1) = rs_height (round_state c)) as (c1 & Hc1 & Hh1).
  { unfold commit_block. destruct (Hfin (trace c) (create_finalize_block_request b)) as [? Hf].
    erewrite bind_run; [|by apply ask_run].
    match goal with |- ∃ c1, (_ ≫= _) ?c2 = _ ∧ _ => destruct (Hcom (trace c2)) as [? Hc] end.
    erewrite bind_run; [|by apply ask_run]. erewrite bind_run; [|reflexivity].
    rewrite try_from_ok, (proj2 (Z.leb_le _ _)) by lia. cbn [ok_or]. erewrite bind_run; [|reflexivity].
    eexists. split; [reflexivity|]. done. }
  erewrite bind_run; [|exact Hc1].
  assert (∃ c2, enter_new_height e c1 = (c2, Ok tt)) as [c2 Hc2].
  { unfold enter_new_height. erewrite bind_run; [|reflexivity]. rewrite Hh1, increment_ok, (proj2 (Z.ltb_lt _ _)) by lia.
    cbn [unwrap]. erewrite bind_run; [|reflexivity]. erewrite bind_run; [|reflexivity]. erewrite bind_run; [|reflexivity].
    eexists. reflexivity. }
  erewrite bind_run; [|exact Hc2]. eexists. reflexivity.
Qed.

(** Every pending timer can be received. *)
Lemma receive_total g c i d t :
  blocks_allowed → accepting → able c → node_inv g c → rs_height (round_state c) < MaxInt64 →
  pending c !! i = Some (d, t) → ∃ c', receive e i c = (c', Ok tt).
Proof.
  intros Hba Hacc Hab Hinv Hlt Hi. unfold receive. erewrite bind_run; [|reflexivity]. rewrite Hi.
  erewrite bind_run; [|reflexivity]. unfold handle_timeout. erewrite bind_run; [|reflexivity].
  set (c1 := log (EReceive t) (with_pending (delete i (pending c)) c)).
  change (round_state c1) with (round_state c). destruct (negb _ || negb _) eqn:Hl; [eexists; reflexivity|].
  apply live_spec in Hl. pose proof (list_elem_of_lookup_2 _ _ _ Hi) as Hin.
  destruct (to_step t) eqn:Hs.
  - apply run_new_height; [done|eapply able_same; [|exact Hab]; by apply same_fixed_refl|].
    destruct Hl as [Hl _]. pose proof (ni_range _ _ Hinv). cbn in Hl. lia.
  - eexists. reflexivity.
  - apply (run_propose c1 t Hacc Hl). apply (ni_proposal _ _ Hinv (d, t) Hin Hl). by left.
  - apply (run_commit g c1 Hacc); [|done|apply (ni_proposal _ _ Hinv (d, t) Hin Hl); by right].
    destruct Hinv as [Hrg Hro Hp Hb Hpr Hf]. split; [exact Hrg|exact Hro|..|exact Hb| |].
    + intros p Hp'%list_elem_of_delete_inv. by apply Hp.
    + intros p Hp'%list_elem_of_delete_inv. by apply Hpr.
    + cbn [c1 trace log with_pending]. by rewrite finalized_cons, app_nil_r.
Qed.

(** While the application accepts, a timer of the height is always pending. *)
Definition busy (c : ConsensusState) : Prop := ∃ p, p ∈ pending c ∧ live c (snd p) ∧ to_step (snd p) ≠ NewRound.

Lemma busy_new c' l p d s :
  pending c' = l ++ [(p, mkTimeout d (rs_height (round_state c')) (rs_round (round_state c')) s)] → s ≠ NewRound → busy c'.
Proof. intros Hpe Hs. eexists. rewrite Hpe. split; [apply elem_of_app; right; by apply list_elem_of_singleton|]. done. Qed.

Lemma busy_idle c c' i d t :
  pending c !! i = Some (d, t) → ¬ live c t ∨ to_step t = NewRound → same_round c c' (proposal_block (round_state c)) →
  pending c' = delete i (pending c) → busy c → busy c'.
Proof.
  intros Hi Ht (Hh & Hr & _) Hpe ([d' p] & Hp & Hl & Hs). exists (d', p). split_and!; [|unfold live; by rewrite Hh, Hr|done].
  rewrite Hpe. apply list_elem_of_lookup in Hp as [j Hj]. apply list_elem_of_lookup.
  destruct (decide (j = i)) as [->|Hne]; [rewrite Hi in Hj; injection Hj as -> ->; by destruct Ht|].
  destruct (decide (j < i)%nat).
  - exists j. by rewrite list_lookup_delete_lt by lia.
  - exists (pred j). rewrite list_lookup_delete_ge by lia. by replace (S (pred j)) with j by lia.
Qed.

Lemma busy_turn c c' i d t :
  accepting → busy c → pending c !! i = Some (d, t) → turn c i t c' → busy c'.
Proof.
  intros (_ & Hacc & _) Hbusy Hi Ht.
  destruct Ht as [Hn _ Hsr Hpe _|b tr Hl _ _ (Hh & Hrd & _) _ _ _ _ _ Hpe _|b txs st _ _ _ _ _ Hans Hst _ _
    |b b' txs tr Hl _ _ (Hh & Hrd & _) _ _ _ _ Hpe _|b h tr1 tr2 _ _ _ _ _ _ Hrd _ _ _ Hpe _].
  - by eapply busy_idle.
  - destruct Hl as [Hl1 Hl2]. rewrite Hl1, Hl2, <- Hh, <- Hrd in Hpe. by eapply busy_new.
  - rewrite Hacc in Hans. congruence.
  - destruct Hl as [Hl1 Hl2]. rewrite Hl1, Hl2, <- Hh, <- Hrd in Hpe. by eapply busy_new.
  - rewrite <- Hrd in Hpe. eapply (busy_new c' (delete i (pending c) ++ [_])); [rewrite <- app_assoc; exact Hpe|done].
Qed.

Lemma busy_start cs cs' u : start e cs = (cs', Ok u) → busy cs'.
Proof.
  intros Hs. apply start_spec in Hs as (h & tr1 & tr2 & _ & _ & Hh & Hrd & _ & _ & _ & Hpe & _). rewrite <- Hh, <- Hrd in Hpe.
  eapply (busy_new cs' (pending cs ++ [_])); [rewrite <- app_assoc; exact Hpe|done].
Qed.

Lemma able_turn c c' i t : turn c i t c' → able c → able c'.
Proof. intros Ht. apply able_same. by destruct Ht. Qed.
End node.
