(* ===== verification/LocalNodeTheorems.v ===== *)
(** * Theorems about the local node

    Which blocks a local node finalizes, that it goes on while the
    application accepts and stops when it does not, what its stores give
    back, and what its connection to the application reads. *)
From stdpp Require Import pretty.
From S2P Require Import Prelude.
From S2P Require Import Proto.
From S2P Require Import Unmarshal.
From S2P Require Import LocalChain.
From S2P Require Import LocalNode.
From S2P Require Import LocalNodeProofs.
Open Scope Z_scope.

(** ** Runs *)

Section runs.
Context `{CometRsData, !Json Block, !Json Z, !Json (option Commit), !Json BlockStoreState, !Json ChainState, !Json VSet,
          !Json ConsensusParamsInfo, !Json Params}.
Context `{!Keys, !CometRsLaws, !CometRsDataLaws}.
Context (e : NodeEnv).

(** A block as the node builds it: nothing links it to the one before. *)
Definition unlinked (b : Block) : Prop := app_hash (header b) = AppHash_default ∧ last_block_id (header b) = None.
Definition finalized_unlinked (tr : list event) : Prop :=
  ∀ r, EFinalize r ∈ tr → ∃ b, r = create_finalize_block_request b ∧ unlinked b.

Lemma finalized_unlinked_cons ev tr :
  (∀ r, ev = EFinalize r → ∃ b, r = create_finalize_block_request b ∧ unlinked b) →
  finalized_unlinked tr → finalized_unlinked (ev :: tr).
Proof. intros Hev Htr r [Heq|Hr]%elem_of_cons; [by apply Hev|by apply Htr]. Qed.

Lemma finalized_unlinked_turn g c c' i t :
  node_inv g c → store_height (block_store_state c) = 0 → turn e c i t c' → finalized_unlinked (trace c) → finalized_unlinked (trace c').
Proof.
  intros Hinv Hst Ht Htr.
  destruct Ht as [_ _ _ _ ->|b tr _ _ _ _ -> _ _ _ _ _ ->|b txs st _ _ _ _ _ _ _ _ ->|b b' txs tr _ _ _ _ _ _ _ -> _ ->
    |b h tr1 tr2 _ _ _ Hb _ _ _ _ -> -> _ ->]; cbn [app]; repeat (apply finalized_unlinked_cons; [try done|]); try done.
  intros r [= <-]. exists b. split; [done|]. destruct (ni_block _ _ Hinv b Hb) as (_ & Ha & Hl). split; [done|]. by apply Hl.
Qed.

Lemma store_turn c c' i t : turn e c i t c' → block_store_state c' = block_store_state c.
Proof. by destruct 1 as [_ (_ & _ & ? & _)|? ? _ _ (_ & _ & ? & _)|? ? ? _ _ (_ & _ & ? & _)|? ? ? ? _ _ (_ & _ & ? & _)|? ? ? ? _ _ (_ & _ & ? & _)]. Qed.

Lemma run_unlinked g sched n c c' :
  node_inv g c → store_height (block_store_state c) = 0 → finalized_unlinked (trace c) → turns e sched n c c' → finalized_unlinked (trace c').
Proof.
  intros Hinv Hst Htr Hn.
  assert (node_inv g c' ∧ store_height (block_store_state c') = 0 ∧ finalized_unlinked (trace c')) as (_ & _ & ?); [|done].
  eapply (turns_ind_inv e sched (λ c, node_inv g c ∧ store_height (block_store_state c) = 0 ∧ finalized_unlinked (trace c))); [|done..].
  intros i d t a a' (Ha1 & Ha2 & Ha3) Hp _ Ht. split_and!.
  - by eapply node_inv_turn.
  - by rewrite (store_turn _ _ _ _ Ht).
  - by eapply finalized_unlinked_turn.
Qed.

Lemma run_ordered g n c c' :
  clock_ok e → node_inv g c → ordered_inv e c → turns e by_deadline n c c' → ordered_inv e c'.
Proof.
  intros Hclk Hinv Hoi Hn. assert (node_inv g c' ∧ ordered_inv e c') as [_ ?]; [|done].
  eapply (turns_ind_inv e by_deadline (λ c, node_inv g c ∧ ordered_inv e c)); [|done..].
  intros i d t a a' (Ha1 & Ha2) Hp Hs Ht. split; [by eapply node_inv_turn|by eapply ordered_inv_turn].
Qed.

Lemma run_finalized g sched n c c' :
  node_inv g c → turns e sched n c c' →
  finalized (trace c') = seqZ (g + 1) (rs_height (round_state c') - g - 1) ∧ g < rs_height (round_state c').
Proof. intros Hinv Hn. destruct (turns_bound e g sched n c c' Hinv Hn) as [Hi _]. split; apply Hi. Qed.

(** C30: from the height it starts at, a local node finalizes every height
    once and in order, whatever the application answers and in whatever order
    the timers fire.  When timers fire in the order of their deadlines, the
    clock does not go back and the configured pause after a commit is shorter
    than the time for proposals, every finalized block is one that the
    application accepted. *)
Theorem local_node_safe g cs cs1 u :
  fresh g cs → start e cs = (cs1, Ok u) →
  (∀ n cs2, turns e any_order n cs1 cs2 → finalized (trace cs2) = seqZ (g + 1) (rs_height (round_state cs2) - g - 1)) ∧
  (clock_ok e → timeout_commit (config cs) < TIMEOUT_PROPOSE → accepted_first (trace cs) →
   ∀ n cs2, turns e by_deadline n cs1 cs2 → accepted_first (trace cs2)).
Proof.
  intros Hf Hs. pose proof (node_inv_start e g cs cs1 u Hf Hs) as Hinv. split.
  - intros n cs2 Hn. by apply (run_finalized g any_order n cs1).
  - intros Hclk Htc Hacc n cs2 Hn. eapply oi_accepted, run_ordered; [done..| |done]. by eapply ordered_inv_start.
Qed.

(** The index of the earliest deadline. *)
Fixpoint earliest_from (i : nat) (best : nat) (d : Z) (l : list (Z * TimeoutInfo)) : nat :=
  match l with
  | [] => best
  | (d', _) :: l => if d' <? d then earliest_from (S i) i d' l else earliest_from (S i) best d l
  end.
Definition earliest (l : list (Z * TimeoutInfo)) : nat :=
  match l with [] => O | (d, _) :: l => earliest_from 1 0 d l end.

Lemma earliest_from_spec l pre best d t :
  pre !! best = Some (d, t) → (∀ y, y ∈ pre → d ≤ fst y) →
  ∃ x, (pre ++ l) !! earliest_from (length pre) best d l = Some x ∧ ∀ y, y ∈ pre ++ l → fst x ≤ fst y.
Proof.
  revert pre best d t. induction l as [|[d' t'] l IH]; intros pre best d t Hb Hmin; cbn [earliest_from].
  { exists (d, t). rewrite app_nil_r. done. }
  replace (pre ++ (d', t') :: l) with ((pre ++ [(d', t')]) ++ l) by (by rewrite <- app_assoc).
  replace (S (length pre)) with (length (pre ++ [(d', t')])) by (rewrite length_app; cbn; lia).
  destruct (Z.ltb_spec d' d).
  - apply (IH _ _ _ t'); [by rewrite lookup_app_r, Nat.sub_diag by lia|].
    intros y [Hy%Hmin|Hy%list_elem_of_singleton]%elem_of_app; [lia|by subst].
  - apply (IH _ _ _ t); [by apply lookup_app_l_Some|].
    intros y [Hy%Hmin|Hy%list_elem_of_singleton]%elem_of_app; [done|by subst].
Qed.

Lemma earliest_spec l : l ≠ [] → is_Some (l !! earliest l) ∧ by_deadline l (earliest l).
Proof.
  destruct l as [|[d t] l]; [done|]. intros _. destruct (earliest_from_spec l [(d, t)] 0 d t eq_refl) as (x & Hx & Hmin).
  { intros y ->%list_elem_of_singleton. done. }
  change ([(d, t)] ++ l) with ((d, t) :: l) in *. change (length [(d, t)]) with 1%nat in Hx. unfold earliest. split; [by eexists|].
  intros x' j y Hx' Hj. rewrite Hx in Hx'. injection Hx' as <-. apply Hmin. by eapply list_elem_of_lookup_2.
Qed.

Lemma live_run g sched n c c' :
  blocks_allowed → accepting e → able c → node_inv g c → busy c → turns e sched n c c' → able c' ∧ node_inv g c' ∧ busy c'.
Proof.
  intros Hba Hacc Hab Hinv Hb Hn. eapply (turns_ind_inv e sched (λ c, able c ∧ node_inv g c ∧ busy c)); [|done..].
  intros i d t a a' (Ha1 & Ha2 & Ha3) Hp _ Ht. split_and!; [by eapply able_turn|by eapply node_inv_turn|by eapply busy_turn].
Qed.

Lemma live_next g sched c :
  blocks_allowed → accepting e → able c → node_inv g c → busy c → rs_height (round_state c) < MaxInt64 →
  (∀ l, l ≠ [] → ∃ i, is_Some (l !! i) ∧ sched l i) → ∃ c', turns e sched 1 c c'.
Proof.
  intros Hba Hacc Hab Hinv (p & Hp & _) Hlt Hsched. destruct (Hsched (pending c)) as (i & [[d t] Hi] & Hs).
  { intros Hnil. rewrite Hnil in Hp. by apply elem_of_nil in Hp. }
  destruct (receive_total e g c i d t) as [c' Hc']; [done..|]. exists c'. eapply turns_S; [constructor|done..].
Qed.

Lemma height_turns g sched n c c' :
  node_inv g c → turns e sched n c c' → rs_height (round_state c') ≤ rs_height (round_state c) + Z.of_nat n.
Proof.
  intros Hinv Hn. induction Hn as [|n i d t c c1 c2 Hn IH Hp Hs Hr]; [lia|]. specialize (IH Hinv).
  destruct (turns_bound e g sched n c c1 Hinv Hn) as [Hinv1 _].
  destruct (weights_turn e _ _ _ _ _ _ Hinv1 Hp (receive_turn e _ _ _ _ _ Hp Hr)) as [[-> _]|(-> & _)]; lia.
Qed.

(** C35: take a local node that can make blocks: it has a proposer and a valid
    chain id, its key signs, its store of blocks is empty, and the crate takes
    a block without last commit exactly at height 1.  While the application
    answers and accepts, and as long as heights do not reach the largest one,
    the node, once started, goes on: there is a run of every length in the
    order of the deadlines, and in every run, whatever the order, a timer is
    pending, each pending timer can be received, and there were at most eight
    turns plus seven for each finalized block. *)
Theorem local_node_live g cs cs1 u :
  blocks_allowed → accepting e → able cs → fresh g cs → start e cs = (cs1, Ok u) →
  (∀ n, g + Z.of_nat n + 2 < MaxInt64 → ∃ cs2, turns e by_deadline n cs1 cs2) ∧
  (∀ n cs2, turns e any_order n cs1 cs2 → rs_height (round_state cs2) < MaxInt64 →
   pending cs2 ≠ [] ∧ (∀ i p, pending cs2 !! i = Some p → ∃ cs3, receive e i cs2 = (cs3, Ok tt)) ∧
   Z.of_nat n ≤ 8 + 7 * len (finalized (trace cs2))).
Proof.
  intros Hba Hacc Hab Hf Hs. pose proof (node_inv_start e g cs cs1 u Hf Hs) as Hinv.
  pose proof (busy_start e cs cs1 u Hs) as Hb. pose proof (weights_start e g cs cs1 u Hf Hs) as Hw.
  pose proof (start_spec e cs cs1 u Hs) as (h & _ & _ & Hinc & Hfix & Hh & _). destruct Hf as (Hg & Hg0 & _).
  rewrite Hg0, increment_ok in Hinc by done. destruct (g <? MaxInt64); [|done]. injection Hinc as <-.
  apply (able_same _ _ Hfix) in Hab. split.
  - induction n as [|n IH]; intros Hn; [exists cs1; constructor|]. destruct IH as [cs2 Hcs2]; [lia|].
    destruct (live_run g by_deadline n cs1 cs2) as (Ha2 & Hi2 & Hb2); [done..|].
    pose proof (height_turns g _ _ _ _ Hinv Hcs2). destruct (live_next g by_deadline cs2) as [cs3 Hcs3]; [done..|lia| |].
    { intros l Hl. exists (earliest l). by apply earliest_spec. }
    exists cs3. inversion Hcs3 as [|m i d t x x1 x2 Hx Hp Hsc Hr]; subst. inversion Hx; subst. by eapply turns_S.
  - intros n cs2 Hn Hlt. destruct (live_run g any_order n cs1 cs2) as (Ha2 & Hi2 & (p & Hp & _)); [done..|]. split_and!.
    + intros Hnil. rewrite Hnil in Hp. by apply elem_of_nil in Hp.
    + intros i [d t] Hi. by apply (receive_total e g cs2 i d t).
    + destruct (turns_bound e g any_order n cs1 cs2 Hinv Hn) as [_ Hbd]. rewrite (ni_finalized _ _ Hi2).
      pose proof (ni_range _ _ Hi2). unfold len. rewrite length_seqZ.
      assert (0 ≤ weights cs2); [|lia]. apply zsum_nonneg. intros q _. pose proof (weight_pos cs2 q). lia.
Qed.

(** Without acceptance no timer of a commit is ever pending. *)
Lemma rejecting_turn g c c' i d t :
  (∀ tr r st, env_process_proposal e tr r = Some st → st ≠ status_Accept) → node_inv g c →
  (∀ p, p ∈ pending c → to_step (snd p) ≠ CommitStep) → pending c !! i = Some (d, t) → turn e c i t c' →
  (∀ p, p ∈ pending c' → to_step (snd p) ≠ CommitStep) ∧ rs_height (round_state c') = rs_height (round_state c).
Proof.
  intros Hrej Hinv Hno Hi Ht. pose proof (Hno _ (list_elem_of_lookup_2 _ _ _ Hi)) as Hnt. cbn [snd] in Hnt.
  destruct (weights_turn e _ _ _ _ _ _ Hinv Hi Ht) as [[Hh _]|(_ & _ & _ & Hs)]; [|done]. split; [|done].
  assert (∃ new, pending c' = delete i (pending c) ++ new ∧ ∀ p, p ∈ new → to_step (snd p) ≠ CommitStep) as (new & Hpe & Hnew).
  { destruct Ht as [_ _ _ Hpe _|b tr _ _ _ _ _ _ _ _ _ Hpe _|b txs st _ _ _ _ _ _ _ Hpe _|b b' txs tr _ _ _ _ _ _ Hans _ _ _
      |b h tr1 tr2 _ Hs].
    - exists []. rewrite app_nil_r. split; [done|]. by intros p ?%elem_of_nil.
    - eexists. split; [exact Hpe|]. by intros p ->%list_elem_of_singleton.
    - exists []. rewrite app_nil_r. split; [done|]. by intros p ?%elem_of_nil.
    - by destruct (Hrej _ _ _ Hans).
    - done. }
  intros p Hp. destruct (pending_after _ _ _ _ _ Hpe Hp) as [Hp'|Hp']; [by apply Hno|by apply Hnew].
Qed.

(** When the application does not accept proposals the node stops for
    good: no run has more than eight turns, as a rejected proposal is followed
    by no other round, and nothing is finalized. *)
Theorem rejected_proposals_halt g cs cs1 u n cs2 :
  (∀ tr r st, env_process_proposal e tr r = Some st → st ≠ status_Accept) →
  fresh g cs → start e cs = (cs1, Ok u) → turns e any_order n cs1 cs2 →
  Z.of_nat n ≤ 8 ∧ finalized (trace cs2) = [].
Proof.
  intros Hrej Hf Hs Hn. pose proof (node_inv_start e g cs cs1 u Hf Hs) as Hinv. pose proof (weights_start e g cs cs1 u Hf Hs) as Hw.
  pose proof (start_spec e cs cs1 u Hs) as (h & tr1 & tr2 & Hinc & Hfix & Hh & _ & _ & _ & _ & Hpe & _).
  destruct Hf as (Hg & Hg0 & Hp0 & _). rewrite Hg0, increment_ok in Hinc by done. destruct (g <? MaxInt64); [|done]. injection Hinc as <-.
  assert (node_inv g cs2 ∧ (∀ p, p ∈ pending cs2 → to_step (snd p) ≠ CommitStep) ∧ rs_height (round_state cs2) = g + 1) as (Hi2 & _ & Hh2).
  { eapply (turns_ind_inv e any_order (λ c, node_inv g c ∧ (∀ p, p ∈ pending c → to_step (snd p) ≠ CommitStep) ∧
      rs_height (round_state c) = g + 1)); [..|exact Hn].
    - intros i d t a a' (Ha1 & Ha2 & Ha3) Hp _ Ht. destruct (rejecting_turn g a a' i d t) as [Hb1 Hb2]; [done..|].
      split_and!; [by eapply node_inv_turn|done|congruence].
    - split_and!; [done| |done]. intros p. rewrite Hpe, Hp0. cbn [app]. rewrite elem_of_cons, list_elem_of_singleton.
      by intros [-> | ->]. }
  destruct (turns_bound e g any_order n cs1 cs2 Hinv Hn) as [_ Hbd]. split.
  - assert (0 ≤ weights cs2); [|lia]. apply zsum_nonneg. intros q _. pose proof (weight_pos cs2 q). lia.
  - rewrite (ni_finalized _ _ Hi2), Hh2. by replace (g + 1 - g - 1) with 0 by lia.
Qed.

(** The store of blocks is never written by the loop, so every block that
    a local node finalizes, at whatever height, has no last block id and the
    default application hash: nothing in its header commits to the chain
    before it. *)
Theorem finalized_blocks_unlinked g cs cs1 u n cs2 :
  fresh g cs → block_store_state cs = ChainStore_new_state → finalized_unlinked (trace cs) →
  start e cs = (cs1, Ok u) → turns e any_order n cs1 cs2 → finalized_unlinked (trace cs2).
Proof.
  intros Hf Hst Htr Hs Hn. pose proof (node_inv_start e g cs cs1 u Hf Hs) as Hinv.
  pose proof (start_spec e cs cs1 u Hs) as (h & tr1 & tr2 & _ & (_ & _ & Hb & _) & _ & _ & _ & -> & -> & _ & Htr1).
  eapply run_unlinked; [done| | |done]; [by rewrite Hb, Hst|]. rewrite Htr1. by repeat (apply finalized_unlinked_cons; [done|]).
Qed.

(** A node whose application returns no validators from InitChain does not
    start: the empty set has no proposer, which [ChainState::new] unwraps. *)
Theorem init_needs_validators cfg genesis k chain_db state_db t1 t2 cs :
  (∀ tr r resp, env_init_chain e tr r = Some resp → ir_validators resp = []) →
  init e cfg genesis k chain_db state_db t1 t2 ≠ Ok cs.
Proof.
  intros Hno. unfold init. destruct (ChainId_try_from _) as [id|]; [|done]. destruct (Power_try_from 1) as [power|]; [|done].
  destruct (save_initial_state _ _ _ _ _ _) as [db1 [[]|err|]]; [|done..].
  destruct (new _ _ _ _ _ _ _) as [cs0|err|]; [|done..].
  destruct (init_chain _ _ _) as [cs1 [resp|err|]] eqn:Hi; [|done..]. unfold init_chain in Hi.
  apply M_bind_ok in Hi as (r & cs2 & _ & Hi). apply ask_inv in Hi as [Hresp%Hno _]. rewrite Hresp. cbn [mapM].
  cbn. unfold save_initial_state, mbind, DB_bind, db_res, ChainState_new. by rewrite proposer_new.
Qed.
End runs.

(** ** Stores *)

Section stores.
Context `{CometRsData, !Json Block, !Json Z, !Json (option Commit), !Json BlockStoreState, !Json ChainState, !Json VSet,
          !Json ConsensusParamsInfo, !Json Params}.

Lemma DB_bind_ok {A B} (m : DB A) (f : A → DB B) d d' b :
  (m ≫= f) d = (d', Ok b) → ∃ a d1, m d = (d1, Ok a) ∧ f a d1 = (d', Ok b).
Proof. unfold mbind, DB_bind. destruct (m d) as [d1 [a|err|]]; [eauto|done..]. Qed.
Lemma db_set_ok k v d d' u : db_set k v d = (d', Ok u) → db_fails d k = false ∧ d' = mkDatabase (<[k:=v]> (db_map d)) (db_fails d).
Proof. unfold db_set. destruct (db_fails d k); [done|]. by intros [= <-]. Qed.
Lemma db_res_ok {A} (r : res Error A) d d' a : db_res r d = (d', Ok a) → d' = d ∧ r = Ok a.
Proof. unfold db_res. by intros [= <- ->]. Qed.
Lemma db_get_ok k d : db_fails d k = false → db_get k d = (d, Ok (db_map d !! k)).
Proof. unfold db_get. by intros ->. Qed.

Ltac db_split H a d H1 := apply DB_bind_ok in H as (a & d & H1 & H).

(** A value is read back from its key. *)
Lemma get_json {A} `{!Json A, !JsonLaws A} (err : Error) k (a : A) b d :
  db_fails d k = false → db_map d !! k = Some b → to_vec a = Some b →
  (b ← db_get k; match b with Some bytes => x ← db_res (ok_or err (from_slice bytes)); mret (Some x) | None => mret None end) d =
  (d, Ok (Some a)).
Proof.
  intros Hf Hk Ha. unfold mbind, DB_bind. rewrite db_get_ok, Hk by done. unfold db_res. by rewrite (from_to _ _ Ha).
Qed.

(** The keys of the three entries of a block differ, at every height, and from
    the key of the state of the store. *)
Lemma block_keys_differ h h' :
  calc_block_key h ≠ calc_block_parts_key h' ∧ calc_block_key h ≠ calc_block_commit_key h' ∧
  calc_block_commit_key h ≠ calc_block_parts_key h' ∧ calc_block_key h ≠ BLOCK_STORE_KEY ∧ calc_block_commit_key h ≠ BLOCK_STORE_KEY.
Proof. repeat split; intros Heq; cbn in Heq; discriminate Heq. Qed.

Lemma calc_block_key_inj h h' : calc_block_key h = calc_block_key h' → h = h'.
Proof. unfold calc_block_key. intros Heq. by apply (inj (String.append "block:")), (inj pretty) in Heq. Qed.

Lemma save_block_ok st b d d' u :
  save_block st b d = (d', Ok u) →
  ∃ v1 v2 v3 v4, to_vec b = Some v1 ∧ to_vec (last_commit b) = Some v3 ∧
    db_fails d (calc_block_key (height (header b))) = false ∧ db_fails d (calc_block_commit_key (height (header b))) = false ∧
    d' = mkDatabase (<[BLOCK_STORE_KEY:=v4]> (<[calc_block_commit_key (height (header b)):=v3]>
                     (<[calc_block_parts_key (height (header b)):=v2]> (<[calc_block_key (height (header b)):=v1]> (db_map d))))) (db_fails d).
Proof.
  unfold save_block. intros Hs. db_split Hs v1 d1 Hv1. apply db_res_ok in Hv1 as [-> Hv1%ok_or_inv].
  db_split Hs x1 d1 Hd1. apply db_set_ok in Hd1 as [Hf1 ->].
  db_split Hs v2 d2 Hv2. apply db_res_ok in Hv2 as [-> _]. db_split Hs x2 d2 Hd2. apply db_set_ok in Hd2 as [_ ->].
  db_split Hs v3 d3 Hv3. apply db_res_ok in Hv3 as [-> Hv3%ok_or_inv]. db_split Hs x3 d3 Hd3. apply db_set_ok in Hd3 as [Hf3 ->].
  db_split Hs v4 d4 Hv4. apply db_res_ok in Hv4 as [-> _]. apply db_set_ok in Hs as [_ ->].
  by exists v1, v2, v3, v4.
Qed.

(** A block that was saved is loaded again with its last commit, and no
    block of another height changes; but the height of the store stays, so
    that a fresh store has no last block whatever was saved. *)
Theorem chain_store_roundtrip st b d d' u :
  JsonLaws Block → JsonLaws (option Commit) → save_block st b d = (d', Ok u) →
  load_block (height (header b)) d' = (d', Ok (Some b)) ∧
  load_commit (height (header b)) d' = (d', Ok (Some (last_commit b))) ∧
  (∀ h, h ≠ height (header b) → snd (load_block h d') = snd (load_block h d)) ∧
  snd (ChainStore_last_block_id ChainStore_new_state d') = Ok None.
Proof.
  intros HJ1 HJ2 Hs. apply save_block_ok in Hs as (v1 & v2 & v3 & v4 & Hv1 & Hv3 & Hf1 & Hf3 & ->). split_and!.
  - destruct (block_keys_differ (height (header b)) (height (header b))) as (K1 & K2 & K3 & K4 & K5).
    eapply get_json; [done| |exact Hv1]. cbn [db_map]. by simplify_map_eq.
  - destruct (block_keys_differ (height (header b)) (height (header b))) as (K1 & K2 & K3 & K4 & K5).
    eapply get_json; [done| |exact Hv3]. cbn [db_map]. by simplify_map_eq.
  - intros h Hh. destruct (block_keys_differ h (height (header b))) as (K1 & K2 & K3 & K4 & K5).
    assert (calc_block_key h ≠ calc_block_key (height (header b))) as K6 by (by intros ?%calc_block_key_inj).
    unfold load_block, mbind, DB_bind, db_get. cbn [db_map db_fails].
    rewrite !lookup_insert_ne by congruence. destruct (db_fails d (calc_block_key h)); [done|].
    destruct (db_map d !! calc_block_key h) as [bz|]; [|done]. unfold db_res. by destruct (from_slice bz).
  - unfold ChainStore_last_block_id, last_block_hash, mbind, DB_bind. cbn. by rewrite decide_True.
Qed.

Lemma save_initial_state_ok id now vals params h d d' u :
  save_initial_state id now vals params h d = (d', Ok u) →
  ∃ state v1 v2 v3, ChainState_new id h now (Set_new vals (head vals)) params = Ok state ∧ to_vec state = Some v1 ∧
    to_vec (Set_new vals (head vals)) = Some v2 ∧ to_vec (mkParamsInfo params (int64 h)) = Some v3 ∧
    db_fails d STATE_KEY = false ∧ db_fails d (validators_key h) = false ∧ db_fails d (params_key (int64 h)) = false ∧
    d' = mkDatabase (<[params_key (int64 h):=v3]> (<[validators_key h:=v2]> (<[STATE_KEY:=v1]> (db_map d)))) (db_fails d).
Proof.
  unfold save_initial_state. intros Hs. db_split Hs st0 d1 Hst. apply db_res_ok in Hst as [-> Hst].
  db_split Hs u1 d1 Hs1. unfold save_state in Hs1. db_split Hs1 v1 d2 Hv1. apply db_res_ok in Hv1 as [-> Hv1%ok_or_inv].
  apply db_set_ok in Hs1 as [Hf1 ->].
  db_split Hs u2 d2 Hs2. unfold save_validators_height in Hs2. db_split Hs2 v2 d3 Hv2. apply db_res_ok in Hv2 as [-> Hv2%ok_or_inv].
  apply db_set_ok in Hs2 as [Hf2 ->].
  unfold save_consensus_params in Hs. db_split Hs v3 d3 Hv3. apply db_res_ok in Hv3 as [-> Hv3%ok_or_inv].
  apply db_set_ok in Hs as [Hf3 ->]. by exists st0, v1, v2, v3.
Qed.

Lemma state_keys_differ h h' : STATE_KEY ≠ validators_key h ∧ STATE_KEY ≠ params_key h ∧ validators_key h ≠ params_key h'.
Proof. repeat split; intros Heq; cbn in Heq; discriminate Heq. Qed.

(** After the initial state was saved the store of states has its
    validators, its parameters and the default application hash. *)
Theorem state_store_roundtrip id now vals params h d d' u :
  JsonLaws ChainState → JsonLaws VSet → JsonLaws ConsensusParamsInfo → 0 ≤ h ≤ MaxInt64 →
  save_initial_state id now vals params h d = (d', Ok u) →
  Store_validators d' = (d', Ok (Set_new vals (head vals))) ∧ Store_consensus_params d' = (d', Ok params) ∧
  Store_app_hash d' = (d', Ok AppHash_default) ∧ snd (Store_chain_id d') = ok_or Other (ChainId_try_from id).
Proof.
  intros HJ1 HJ2 HJ3 Hh Hs. apply save_initial_state_ok in Hs as (state & v1 & v2 & v3 & Hst & Hv1 & Hv2 & Hv3 & Hf1 & Hf2 & Hf3 & ->).
  destruct (state_keys_differ h (int64 h)) as (K1 & _ & K3). destruct (state_keys_differ (int64 h) h) as (_ & K2 & _).
  set (d' := mkDatabase _ _). assert (need_state d' = (d', Ok state)) as Hneed.
  { unfold need_state, load_state, mbind at 1, DB_bind at 1.
    rewrite (get_json Other STATE_KEY state v1 d'); [done|done| |done]. cbn [d' db_map]. by simplify_map_eq. }
  unfold ChainState_new in Hst. destruct (Set_proposer _) as [p|]; [|done]. destruct (to_vec params) as [pb|]; [|done].
  injection Hst as <-. split_and!.
  - unfold Store_validators, mbind at 1, DB_bind at 1. rewrite Hneed. cbn [cs_header height]. unfold load_validators, db_try, mbind, DB_bind.
    rewrite db_get_ok by done. cbn [d' db_map]. rewrite lookup_insert_ne, lookup_insert_eq by done. unfold db_res. by rewrite (from_to _ _ Hv2).
  - unfold Store_consensus_params, mbind at 1, DB_bind at 1. rewrite Hneed. cbn [cs_header height].
    assert (get_or_none (params_key (int64 h)) d' = (d', Ok (Some v3))) as Hg.
    { unfold get_or_none, db_try, mbind, DB_bind. rewrite db_get_ok by done. cbn [d' db_map]. by rewrite lookup_insert_eq. }
    unfold db_try, load_consensus_params, mbind, DB_bind. rewrite Hg. unfold db_res. rewrite (from_to _ _ Hv3).
    cbn [ok_or info_params last_height_changed]. destruct (raw_default params); [|done]. rewrite Hg. by rewrite (from_to _ _ Hv3).
  - unfold Store_app_hash, mbind, DB_bind. by rewrite Hneed.
  - unfold Store_chain_id, mbind, DB_bind. by rewrite Hneed.
Qed.
End stores.

(** ** The connection to the application *)

Section abci.
Context {Request Response : Type}.
Context (encode : Request → bytes) (decode_response : bytes → option Response) (flush_request : Request).
Context (variant : Response → option (kind * Response)).

(** What [read_response] does once the length is read. *)
Definition after_length (l : Z) (stream : bytes) : bytes * (Response + AbciError) :=
  if 1024 * 1024 <? l then (stream, inr ResponseTooLarge)
  else
    match read_exact l stream with
    | None => ([], inr ReadMessage)
    | Some (msg_buf, stream) => (stream, match decode_response msg_buf with Some r => inl r | None => inr DecodeError end)
    end.

Lemma continuation_bit b : (Z.land (bval b) 128 =? 0) = (bval b <? 128).
Proof. by destruct b. Qed.

(** Reading the length byte by byte reads a varint. *)
Lemma read_loop_varint n buf stream v rest shift acc :
  (∀ l, varint_loop (buf ++ l) 0 0 = varint_loop l shift acc) → shift = 7 * len buf → Z.of_nat n = 10 - len buf →
  read_varint_from shift acc stream = Some (v, rest) → read_loop decode_response n buf stream = after_length v rest.
Proof.
  revert buf stream shift acc. induction n as [|n IH]; intros buf stream shift acc Hbuf Hsh Hn Hr.
  { exfalso. destruct stream; cbn [read_varint_from] in Hr; destruct (Z.leb_spec 64 shift); try lia; done. }
  destruct stream as [|b stream]; cbn [read_varint_from] in Hr; destruct (Z.leb_spec 64 shift) as [|Hlt]; [done..|].
  assert (read_exact 1 (b :: stream) = Some ([b], stream)) as Hre.
  { unfold read_exact. rewrite len_cons. pose proof (len_nonneg stream). by rewrite (proj2 (Z.leb_le _ _)) by lia. }
  cbn [read_loop]. rewrite Hre. unfold binary_varint_decode. rewrite Hbuf. cbn [varint_loop].
  rewrite (proj2 (Z.leb_gt 64 shift)), continuation_bit by lia. destruct (bval b <? 128) eqn:Hb.
  { injection Hr as <- <-. done. }
  assert (len (buf ++ [b]) = len buf + 1) as Hl by (rewrite len_app; done). rewrite Hl. destruct (Z.leb_spec 10 (len buf + 1)) as [Hten|Hten].
  { exfalso. destruct stream; cbn [read_varint_from] in Hr; destruct (Z.leb_spec 64 (shift + 7)); try lia; done. }
  eapply IH; [..|exact Hr].
  - intros l. rewrite <- app_assoc, Hbuf. cbn [app varint_loop]. by rewrite (proj2 (Z.leb_gt 64 shift)), continuation_bit, Hb by lia.
  - lia.
  - lia.
Qed.

Lemma read_response_delimited c m rest :
  connected c = true → len m < MaxInt64 → to_read c = delimited m ++ rest →
  read_response decode_response c =
  let '(stream, r) := after_length (len m) (m ++ rest) in (mkRemote true stream (written c), r).
Proof.
  intros Hc Hm Hr. unfold read_response. rewrite Hc, Hr. unfold delimited. rewrite <- app_assoc. pose proof (len_nonneg m).
  rewrite (read_loop_varint 10 [] _ (len m) (m ++ rest) 0 0); [done..|]. apply read_varint_uvarint. ulia.
Qed.

Lemma after_length_small m rest r :
  len m ≤ 1024 * 1024 → decode_response m = Some r → after_length (len m) (m ++ rest) = (rest, inl r).
Proof.
  intros Hm Hd. unfold after_length. destruct (Z.ltb_spec (1024 * 1024) (len m)); [lia|]. unfold read_exact.
  rewrite len_app. pose proof (len_nonneg rest). destruct (Z.leb_spec (len m) (len m + len rest)); [|lia].
  unfold len. rewrite Nat2Z.id, take_app_length, drop_app_length, Hd. done.
Qed.

(** A call to the application sends its request and a flush in frames and
    returns the response of its kind when the answers to both are at most a
    megabyte; a larger response, which the application is free to send, is
    refused and leaves the connection inside of it. *)
Theorem abci_call_roundtrip k c request m mf rest r rf :
  connected c = true → to_read c = delimited m ++ delimited mf ++ rest → len m < MaxInt64 →
  let out := written c ++ delimited (encode request) ++ delimited (encode flush_request) in
  (1024 * 1024 < len m →
   abci_call encode decode_response flush_request variant k c true request =
     (mkRemote true (m ++ delimited mf ++ rest) out, inr ResponseTooLarge)) ∧
  (len m ≤ 1024 * 1024 → len mf ≤ 1024 * 1024 → decode_response m = Some r → decode_response mf = Some rf →
   abci_call encode decode_response flush_request variant k c true request =
     (mkRemote true rest out, match variant r with
                              | Some (k', x) => if decide (k = k') then inl x else inr UnexpectedResponse
                              | None => inr UnexpectedResponse
                              end)).
Proof.
  intros Hc Hr Hlen out. unfold abci_call, send_request. rewrite Hc. cbn [negb].
  rewrite (read_response_delimited _ m (delimited mf ++ rest)) by done. split.
  - intros Hbig. unfold after_length. rewrite (proj2 (Z.ltb_lt _ _)) by done. done.
  - intros Hm Hmf Hd Hdf. rewrite (after_length_small m _ r) by done. cbn [to_read written].
    rewrite (read_response_delimited _ mf rest) by (done || ulia). rewrite (after_length_small mf rest rf) by done.
    by destruct (variant r) as [[k' x]|].
Qed.
End abci.

(** ** An instance

    Times are numbers, a set is its list with the proposer, and JSON is the
    binary digits of the number that [Countable] gives a value. *)
#[local] Instance toy_rs : CometRs := {|
  VSet := list Info * option Info;
  Set_new := pair;
  Set_proposer := snd;
  Set_validators := fst;
  Set_hash v := concat (info_pub_key <$> fst v);
  Info_new k p := mkInfo k k p;
  WTime := Z;
  unix_timestamp t := t;
  time_into t := (t, 0);
  PartSetHeader := unit;
  PartSetHeader_default := tt;
  Algorithm := unit;
  Ed25519 := tt;
  Algorithm_from_str s := if decide (s = "ed25519"%string) then Some tt else None;
  Algorithm_to_string _ := "ed25519";
  Hash_default := [];
  AppHash_default := [];
  Round_default := 0;
  ChainId_try_from s := if decide (s = ""%string) then None else Some s;
  Height_increment h := if h <? MaxInt64 then Some (h + 1) else None;
  Height_try_from h := if h <=? MaxInt64 then Some h else None;
  Power_try_from p := if 0 <=? p then Some p else None;
  from_raw_ed25519 k := if len k =? 32 then Some k else None;
  Sha256_digest b := b;
|}.
#[local] Instance toy_rs_laws : CometRsLaws.
Proof. split; done. Qed.
#[local] Instance toy_data : CometRsData := {|
  Header_hash h := [byte_of (height h mod 256)];
  Block_new h d c := match c with
                     | None => if height h =? 1 then Some (mkBlock h d c) else None
                     | Some _ => if height h =? 1 then None else Some (mkBlock h d c)
                     end;
  raw_default _ := false;
|}.
#[local] Instance toy_data_laws : CometRsDataLaws.
Proof. intros h d [c|] b; cbn; destruct (height h =? 1); congruence. Qed.

Fixpoint digits (p : positive) : bytes := match p with xH => [] | xO p => x00 :: digits p | xI p => x01 :: digits p end.
Fixpoint undigits (b : bytes) : positive :=
  match b with [] => xH | x00 :: b => xO (undigits b) | _ :: b => xI (undigits b) end.
Lemma undigits_digits p : undigits (digits p) = p.
Proof. induction p as [p IH|p IH|]; cbn; congruence. Qed.
Definition json_countable A `{Countable A} : Json A :=
  {| to_vec a := Some (digits (encode a)); from_slice b := decode (undigits b) |}.
Lemma json_countable_laws A `{Countable A} : @JsonLaws A (json_countable A).
Proof. intros a b. cbn. intros [= <-]. by rewrite undigits_digits, decode_encode. Qed.

#[local] Instance info_eq_dec : EqDecision Info. Proof. solve_decision. Defined.
#[local] Instance info_countable : Countable Info.
Proof.
  apply (inj_countable' (λ x, (info_pub_key x, info_address x, info_power x)) (λ '(a, b, c), mkInfo a b c)). by intros [].
Defined.
#[local] Instance vset_eq_dec : EqDecision VSet. Proof. cbn. apply _. Defined.
#[local] Instance vset_countable : Countable VSet. Proof. cbn. apply _. Defined.
#[local] Instance wtime_eq_dec : EqDecision WTime. Proof. cbn. apply _. Defined.
#[local] Instance wtime_countable : Countable WTime. Proof. cbn. apply _. Defined.
#[local] Instance psh_eq_dec : EqDecision PartSetHeader. Proof. cbn. apply _. Defined.
#[local] Instance psh_countable : Countable PartSetHeader. Proof. cbn. apply _. Defined.
#[local] Instance alg_eq_dec : EqDecision Algorithm. Proof. cbn. apply _. Defined.
#[local] Instance alg_countable : Countable Algorithm. Proof. cbn. apply _. Defined.
#[local] Instance bid_eq_dec : EqDecision BlockId. Proof. solve_decision. Defined.
#[local] Instance bid_countable : Countable BlockId.
Proof. apply (inj_countable' (λ x, (bid_hash x, part_set_header x)) (λ '(a, b), mkBlockId a b)). by intros []. Defined.
#[local] Instance header_eq_dec : EqDecision Header. Proof. solve_decision. Defined.
#[local] Instance header_countable : Countable Header.
Proof.
  apply (inj_countable'
    (λ x, (((version_block x, version_app x), (chain_id x, height x), (time x, last_block_id x), (last_commit_hash x, data_hash x)),
           ((validators_hash x, next_validators_hash x), (consensus_hash x, app_hash x), (last_results_hash x, evidence_hash x), proposer_address x)))
    (λ '((((a, b), (c, d), (f, g), (h, i)), ((j, k), (l, m), (n, o), p))), mkHeader a b c d f g h i j k l m n o p)).
  by intros [].
Defined.
#[local] Instance sig_eq_dec : EqDecision CommitSig. Proof. solve_decision. Defined.
#[local] Instance sig_countable : Countable CommitSig.
Proof. apply (inj_countable' (λ x, (validator_address x, timestamp x, signature x)) (λ '(a, b, c), mkCommitSig a b c)). by intros []. Defined.
#[local] Instance lcommit_eq_dec : EqDecision Commit. Proof. solve_decision. Defined.
#[local] Instance lcommit_countable : Countable Commit.
Proof.
  apply (inj_countable' (λ x, (commit_height x, commit_round x, commit_block_id x, signatures x)) (λ '(a, b, c, d), mkCommit a b c d)).
  by intros [].
Defined.
#[local] Instance lblock_eq_dec : EqDecision Block. Proof. solve_decision. Defined.
#[local] Instance lblock_countable : Countable Block.
Proof. apply (inj_countable' (λ x, (header x, data x, last_commit x)) (λ '(a, b, c), mkBlock a b c)). by intros []. Defined.
#[local] Instance store_state_eq_dec : EqDecision BlockStoreState. Proof. solve_decision. Defined.
#[local] Instance store_state_countable : Countable BlockStoreState.
Proof. apply (inj_countable' (λ x, (base x, store_height x)) (λ '(a, b), mkBlockStoreState a b)). by intros []. Defined.
#[local] Instance lparams_eq_dec : EqDecision Params. Proof. solve_decision. Defined.
#[local] Instance lparams_countable : Countable Params.
Proof.
  apply (inj_countable'
    (λ x, ((max_bytes x, max_gas x, time_iota_ms x), (max_age_num_blocks x, max_age_duration x, evidence_max_bytes x),
           (pub_key_types x, version_params_app x, vote_extensions_enable_height x)))
    (λ '((a, b, c), (d, f, g), (h, i, j)), mkParams a b c d f g h i j)).
  by intros [].
Defined.
#[local] Instance params_info_eq_dec : EqDecision ConsensusParamsInfo. Proof. solve_decision. Defined.
#[local] Instance params_info_countable : Countable ConsensusParamsInfo.
Proof. apply (inj_countable' (λ x, (info_params x, last_height_changed x)) (λ '(a, b), mkParamsInfo a b)). by intros []. Defined.
#[local] Instance chain_state_eq_dec : EqDecision ChainState. Proof. solve_decision. Defined.
#[local] Instance chain_state_countable : Countable ChainState.
Proof.
  apply (inj_countable'
    (λ x, ((cs_header x, validators x, last_validators x), (last_height_validators_changed x, consensus_params x,
           last_height_consensus_params_changed x)))
    (λ '((a, b, c), (d, f, g)), mkChainState a b c d f g)).
  by intros [].
Defined.
#[local] Existing Instances json_countable json_countable_laws.

#[local] Instance toy_keys : Keys := {| signable_vec id p := Some [byte_of (prop_height p mod 256)]; ed25519_sign k m := Some (k ++ m) |}.

(** Timers received in the order of their deadlines, as far as there are any. *)
Fixpoint run_earliest `{CometRsData, !Json Block, !Keys} (e : NodeEnv) (n : nat) : M () :=
  match n with
  | O => mret tt
  | S n =>
      run_earliest e n;;
      cs ← get;
      match pending cs with [] => lift Panicked | p => receive e (earliest p) end
  end.

Lemma run_earliest_turns (e : NodeEnv) n cs cs' : run_earliest e n cs = (cs', Ok tt) → turns e by_deadline n cs cs'.
Proof.
  revert cs'. induction n as [|n IH]; intros cs' Hr; cbn [run_earliest] in Hr.
  { injection Hr as <-. constructor. }
  apply M_bind_ok in Hr as ([] & cs1 & Hn & Hr). apply M_bind_ok in Hr as (c & cs2 & Hg & Hr). apply get_inv in Hg as [-> ->].
  destruct (pending cs1) as [|p l] eqn:Hp; [done|]. destruct (earliest_spec (p :: l)) as [[[d t] Hi] Hd]; [done|].
  eapply turns_S; [by apply IH|by rewrite Hp|by rewrite Hp|done].
Qed.

Lemma turns_any (e : NodeEnv) sched n cs cs' : turns e sched n cs cs' → turns e any_order n cs cs'.
Proof. induction 1; [constructor|by eapply turns_S]. Qed.

Definition toy_env (status : Z) (vals : list (option RawKey * Z)) : NodeEnv := {|
  env_now tr := len tr;
  env_clock tr := 1000 * len tr;
  env_init_chain _ _ := Some (mkInitResp None vals);
  env_prepare_proposal _ _ := Some [[x00]];
  env_process_proposal _ _ := Some status;
  env_finalize_block _ _ := Some tt;
  env_commit _ := Some tt;
|}.
Definition toy_time : @WTime toy_rs := 0.
Definition toy_db : Database := mkDatabase ∅ (λ _, false).
Definition toy_key : PrivValidatorKey := mkKey [x01] (replicate 32 x02) [x03] "chain".
Definition toy_node : ConsensusState :=
  mkConsensusState (mkState 0 0 0 None) toy_db ChainStore_new_state toy_db
    (RoundState_new 0 0 NewHeight toy_time (Set_new [Info_new [x02] 1] (Some (Info_new [x02] 1)))) Config_default (Some toy_key) [] [].
(** The node after its start and after some turns. *)
Definition toy_started (status : Z) : ConsensusState := fst (start (toy_env status []) toy_node).
Definition toy_after (status : Z) (n : nat) : ConsensusState := fst (run_earliest (toy_env status []) n (toy_started status)).

Lemma toy_fresh : fresh 0 toy_node.
Proof. by split_and!. Qed.
Lemma toy_clock status vals : clock_ok (toy_env status vals).
Proof. intros ev tr. cbn. rewrite len_cons. lia. Qed.
Lemma toy_blocks : blocks_allowed.
Proof. intros h d c Hc. cbn. destruct c as [c|], (Z.eqb_spec (height h) 1) as [He|He]; try done; [by apply Hc in He|by destruct He; apply Hc]. Qed.
Lemma toy_able : able toy_node.
Proof. split; [by eexists|by eexists| |done]. intros k b [= <-]. by eexists. Qed.
Lemma toy_accepting : accepting (toy_env status_Accept []).
Proof. by split_and!. Qed.
Lemma toy_run status n :
  snd (run_earliest (toy_env status []) n (toy_started status)) = Ok tt →
  turns (toy_env status []) by_deadline n (toy_started status) (toy_after status n).
Proof. intros Hr. apply run_earliest_turns. rewrite <- Hr. apply surjective_pairing. Qed.

Lemma local_node_safe_witness :
  finalized (trace (toy_after status_Accept 9)) = [1; 2] ∧ accepted_first (trace (toy_after status_Accept 9)).
Proof.
  destruct (local_node_safe (toy_env status_Accept []) 0 toy_node (toy_started status_Accept) tt toy_fresh eq_refl) as [H1 H2]. split.
  - rewrite (H1 9%nat); [by vm_compute|]. eapply turns_any, toy_run. by vm_compute.
  - apply (H2 (toy_clock _ _)) with 9%nat; [by vm_compute|done|]. apply toy_run. by vm_compute.
Defined.

Lemma local_node_live_witness :
  (∃ cs2, turns (toy_env status_Accept []) by_deadline 100 (toy_started status_Accept) cs2) ∧ pending (toy_after status_Accept 4) ≠ [].
Proof.
  destruct (local_node_live (toy_env status_Accept []) 0 toy_node (toy_started status_Accept) tt
              toy_blocks toy_accepting toy_able toy_fresh eq_refl) as [H1 H2]. split.
  - apply H1. by vm_compute.
  - apply (H2 4%nat); [|by vm_compute]. eapply turns_any, toy_run. by vm_compute.
Defined.

Lemma rejected_proposals_halt_witness : Z.of_nat 4 ≤ 8 ∧ finalized (trace (toy_after 2 4)) = [].
Proof.
  apply (rejected_proposals_halt (toy_env 2 []) 0 toy_node (toy_started 2) tt); [|exact toy_fresh|reflexivity|].
  - by intros tr r st [= <-].
  - eapply turns_any, toy_run. by vm_compute.
Defined.

Lemma finalized_blocks_unlinked_witness : finalized_unlinked (trace (toy_after status_Accept 9)).
Proof.
  apply (finalized_blocks_unlinked (toy_env status_Accept []) 0 toy_node (toy_started status_Accept) tt 9); [exact toy_fresh|done| |reflexivity|].
  - by intros r ?%elem_of_nil.
  - eapply turns_any, toy_run. by vm_compute.
Defined.

Definition toy_genesis : GenesisDoc := mkGenesis "chain" 1 [] default_consensus_params.
Definition toy_init (vals : list (option RawKey * Z)) : res Error ConsensusState :=
  init (toy_env status_Accept vals) Config_default toy_genesis toy_key toy_db toy_db toy_time toy_time.

Lemma init_needs_validators_witness : toy_init [] ≠ Ok toy_node.
Proof.
  unfold toy_init.
  apply (init_needs_validators (toy_env status_Accept []) Config_default toy_genesis toy_key toy_db toy_db toy_time toy_time toy_node).
  by intros tr r resp [= <-].
Defined.

Definition toy_block : Block :=
  mkBlock (mkHeader 11 1 "chain" 7 toy_time None None None [] [] [] [] None None [x02]) [[x05]] None.

Lemma run_ok_tt {A} (m : DB A) d a : snd (m d) = Ok a → m d = (fst (m d), Ok a).
Proof. intros <-. apply surjective_pairing. Qed.

Lemma chain_store_roundtrip_witness :
  let d' := fst (save_block ChainStore_new_state toy_block toy_db) in load_block 7 d' = (d', Ok (Some toy_block)).
Proof.
  intros d'. apply (chain_store_roundtrip ChainStore_new_state toy_block toy_db d' tt); [apply json_countable_laws..|].
  apply run_ok_tt. reflexivity.
Defined.

Lemma state_store_roundtrip_witness :
  let d' := fst (save_initial_state "chain" toy_time [Info_new [x02] 1] default_consensus_params 1 toy_db) in
  Store_consensus_params d' = (d', Ok default_consensus_params).
Proof.
  intros d'. apply (state_store_roundtrip "chain" toy_time [Info_new [x02] 1] default_consensus_params 1 toy_db d' tt);
    [apply json_countable_laws..|done|]. apply run_ok_tt. reflexivity.
Defined.

(** Messages that hold their kind in the first byte. *)
Definition toy_variant (m : bytes) : option (kind * bytes) := match m with x01 :: m => Some (KInfo, m) | _ => None end.
Definition toy_remote : RemoteClient := mkRemote true (delimited [x01; x07] ++ delimited [x02]) [].

Lemma abci_call_roundtrip_witness :
  abci_call (λ m : bytes, m) Some [x02] toy_variant KInfo toy_remote true [x01] =
  (mkRemote true [] (delimited [x01] ++ delimited [x02]), inl [x07]).
Proof.
  destruct (abci_call_roundtrip (λ m : bytes, m) Some [x02] toy_variant KInfo toy_remote [x01] [x01; x07] [x02] [] [x01; x07] [x02]) as [_ H2];
    [done|done|by vm_compute|]. by apply H2; [vm_compute|vm_compute|..].
Defined.
